(* ===== verification/_CoqProject ===== *)
-Q . S2P
Prelude.v
Containers.v
Numeric.v
OfferExchange.v
LedgerEntries.v
Balances.v
Upgrades.v
Float64.v
Fees.v
QuorumSet.v
LocalNode.v
Statement.v
SlotState.v
FederatedVoting.v
BallotProtocol.v
BallotInvariant.v
BallotSafety.v
BallotTheorems.v
BallotDecisions.v
HerderValues.v
NominationProtocol.v
NominationSafety.v
Slot.v
SlotTheorems.v
Network.v
SCP.v
SCPTheorems.v
QuorumTracker.v
BitSet.v
Tarjan.v
RandomEvictionCache.v
QuorumIntersection.v
IntersectionTheorems.v
CheckedNetwork.v
Bucket.v
BucketMerge.v
BucketList.v
BucketLevels.v
BucketListTheorems.v
BucketListRefinement.v
LedgerTxn.v
LedgerTxnSpec.v
LedgerTxnTheorems.v
LedgerTxnOffers.v
LedgerTxnStack.v
LedgerTxnRefinement.v
LedgerClose.v
RootCaches.v
Work.v
WorkScheduler.v
WorkTheorems.v
WorkCrank.v
WorkAbort.v
WorkBatch.v
WorkTrees.v
WorkSchedulerTheorems.v
WorkLiveness.v
PaymentLoops.v
TransactionQueue.v
TxQueueTheorems.v
TxQueueDrops.v
TxQueueAdd.v
TxQueueFlood.v
TxQueueEvents.v
TxSets.v
TxSetTheorems.v
TxSetApply.v
NextLedger.v
Fetching.v
PendingEnvelopes.v
PendingItems.v
PendingTheorems.v
PendingEvents.v
