(* ===== verification/Prelude.v ===== *)
(** * kinesis-core: a verification development

    kinesis-core is a fork of stellar-core: a replicated ledger whose nodes agree
    on each ledger by the Stellar Consensus Protocol (SCP).  This development
    models, function by function, the consensus library [src/src/scp/]; what the
    herder ([src/src/herder/]) puts on top of it: which values are valid and how
    proposals are combined, network upgrades, the tracker of the transitive
    quorum, the quorum intersection checker, the queue of transactions that wait
    for a ledger, and the reception of messages, with the fetching of the items
    they name ([src/src/overlay/]); the money arithmetic of
    [src/src/transactions/]: balances, liabilities and reserves, fees, the
    crossing of offers and the exchange with liquidity pools; and the state of
    the ledger: nested ledger transactions with their order books and caches
    ([src/src/ledger/]), the bucket list ([src/src/bucket/]), and the closing of
    a ledger, which writes the same changes to both; and the scheduler of
    background works ([src/src/work/]).  It proves what makes them
    correct, up to agreement of a network whose quorum sets the checker has
    accepted, to the agreement of a node's database with its bucket list, to the
    end of every scheduled work, and to the safety of the transaction queue and
    of the reception of messages under any sequence of events.

    ** The program and its model

    A node ([SCP]) keeps one [Slot] per ledger being decided.  A slot runs two
    protocols over the same messages: nomination chooses candidate values, the
    ballot protocol commits to one of them.  Both count votes with federated
    voting: each message names the quorum set of its sender, and [LocalNode]
    decides which sets of nodes are quorums or v-blocking.  The application is
    behind [SCPDriver]: it validates and combines values, resolves the hashes
    of quorum sets, signs, and is told what to send and what was decided.  The
    herder implements that interface; it also watches the quorum sets of the
    network: the tracker collects them, the intersection checker searches them
    for disjoint quorums.  A decided value names a transaction set and upgrades;
    closing the ledger charges the fees of the transactions, applies them and
    then the upgrades, all in nested [LedgerTxn]s: each keeps the versions of the
    entries it has touched, its parents the rest, and the root asks the database
    through caches.  At the end the changes go, sealed, to the [BucketList],
    whose levels merge them in the background and whose hash stands for the
    whole ledger, and then to the database.  Long tasks (downloads, checks,
    publishing) are trees of [BasicWork]s that one [WorkScheduler] cranks on the
    main thread, a step at a time.  Transactions that users or peers send wait in
    the [TransactionQueue], by account and in order of their sequence numbers,
    until a ledger applies them or they are too old; its limiter keeps the most
    expensive ones, and a timer floods them to the peers.  When a ledger is due the
    herder makes a [TxSetFrame] of them, trimmed and thinned out until it passes
    the check every node makes, and nominates its hash.  A message of another node
    names its quorum set and transaction sets by their hashes: the herder checks
    it, and [PendingEnvelopes] keeps it until an [ItemFetcher], which asks one peer
    after the other, has found what it names; then SCP gets it.

    Shared files.
    - [Containers]: [std::set] and [std::map] as ordered duplicate-free lists,
      over a typeclass of strict total orders.
    - [Numeric]: [util/numeric.cpp] ([bigDivide], [bigSquareRoot],
      [hugeDivide], ...), with the 128-bit type as [Z] and its bound.
    - [Float64]: the [double] operations of the fee computation, as integers
      and exponents rounded to nearest even, with error bounds.

    Money.
    - [OfferExchange]: [transactions/OfferExchange.cpp], the arithmetic:
      [exchangeV2], [exchangeV3], [exchangeV10], [adjustOffer],
      [exchangeWithPool].
    - [LedgerEntries]: the types of [xdr/Stellar-ledger-entries.x] and
      [xdr/Stellar-ledger.x], entry keys, protocol versions.
    - [Balances]: the functions of [transactions/TransactionUtils.cpp] on
      balances, liabilities, reserves and limits.
    - [Fees]: fees of [TransactionFrame], [FeeBumpTransactionFrame] and
      [TxSetFrame]; their charging ([LedgerManagerImpl::processFeesSeqNums]);
      the validity checks that concern fees and sequence numbers; the inflation
      operation, which pays out the fee pool.

    Consensus.
    - [QuorumSet]: [scp/QuorumSetUtils.cpp]; module [Sanity] is
      [QuorumSetSanityChecker], module [Normalize] is [normalizeQSet].
    - [LocalNode]: [scp/LocalNode.cpp]: slices, v-blocking sets, quorums, node
      weights, [findClosestVBlocking].
    - [Statement]: the messages ([xdr/Stellar-SCP.x]) and the functions of
      [BallotProtocol.cpp] that look only at ballots and statements.
    - [SlotState]: the members of [BallotProtocol], [NominationProtocol] and
      [Slot] as records; the driver as a record of functions; the errors; the
      calls to the driver that have an effect, as the list [effects].
    - [FederatedVoting]: [federatedAccept] and [federatedRatify] of
      [scp/Slot.cpp], and what they decide.
    - [BallotProtocol]: [scp/BallotProtocol.cpp], every operation.
    - [BallotInvariant], [BallotSafety]: the invariant, the way a slot may
      evolve, and that every operation of the ballot protocol respects both.
    - [BallotTheorems], [BallotDecisions]: the guarantees of the protocol.
    - [NominationProtocol], [NominationSafety]: [scp/NominationProtocol.cpp].
    - [Slot], [SlotTheorems]: the rest of [scp/Slot.cpp]; the slot as a whole.
    - [Network]: the nodes of a network running one slot.
    - [SCP], [SCPTheorems]: [scp/SCP.cpp], the slots of a node.

    Herder.
    - [Upgrades]: [herder/Upgrades.cpp], with the check of the upgrades of a
      value and the loop of ledger close that applies them.
    - [HerderValues]: [validateValue], [extractValidValue] and
      [combineCandidates] of [herder/HerderSCPDriver.cpp].
    - [QuorumTracker]: [herder/QuorumTracker.cpp], and the handlers of
      [herder/PendingEnvelopes.cpp] that keep it up to date.
    - [BitSet], [Tarjan], [RandomEvictionCache]: [util/BitSet.h],
      [util/TarjanSCCCalculator.cpp], [util/RandomEvictionCache.h].
    - [QuorumIntersection], [IntersectionTheorems]:
      [herder/QuorumIntersectionCheckerImpl.cpp].
    - [CheckedNetwork]: a network whose quorum sets the checker has accepted.
    - [PaymentLoops]: [findAllAssetPairsInvolvedInPaymentLoops] of
      [herder/TransactionQueue.cpp], over the components of [Tarjan].
    - [TransactionQueue]: the rest of [herder/TransactionQueue.cpp],
      [herder/TxQueueLimiter.cpp] and the comparison of
      [herder/SurgePricingUtils.cpp].
    - [TxQueueTheorems], [TxQueueDrops], [TxQueueAdd], [TxQueueFlood]: the books
      of a queue as sums over the transactions it holds; that dropping, adding
      and flooding keep them; what each operation does.
    - [TxQueueEvents]: sequences of events, the guarantees of the queue, and
      examples.
    - [TxSets]: [herder/TxSetFrame.cpp] (its fees are in [Fees]; [HerderValues]
      has its own view of a set, with the check as a parameter).
    - [TxSetTheorems], [TxSetApply]: trimming, surge pricing and checking; what
      the check accepts; the order of application.
    - [NextLedger]: [triggerNextLedger] of [herder/HerderImpl.cpp], from the queue
      to the nominated value, and [HerderValues]' validation of that value.
    - [Fetching]: [overlay/Tracker.cpp] and [overlay/ItemFetcher.cpp]: which peer
      is asked for an item, and when.
    - [PendingEnvelopes]: [herder/PendingEnvelopes.cpp], with the checks of
      [HerderImpl::recvSCPEnvelope], the queue of ready envelopes
      ([herder/HerderImpl.cpp]), the wrappers of envelopes
      ([herder/HerderSCPDriver.cpp]), and events.
    - [PendingItems], [PendingTheorems], [PendingEvents]: what looking items up
      keeps; the invariant, and that every operation keeps it; the arrival of
      items, the guarantees, and examples.

    Ledger.
    - [Bucket], [BucketMerge]: the entries of a bucket and their order
      ([bucket/LedgerCmp.h]), [Bucket::fresh], [Bucket::merge] with its
      iterators and shadows, and that a merge is the later of two layers.
    - [BucketList], [BucketLevels]: [bucket/BucketList.cpp] (levels, spills,
      [addBatch], restarts), [bucket/FutureBucket.cpp], the history archive state
      and the reload of a ledger from it; the arithmetic of the levels.
    - [BucketListTheorems], [BucketListRefinement]: the invariant of the list; a
      list of layers refines a map of entries.
    - [LedgerTxn]: [ledger/LedgerTxn.cpp], the transactions: entries and their
      versions, headers, nesting, commits, order books, best offers.
    - [LedgerTxnSpec]: the operations as data, and what they promise: a
      transaction is a copy of the ledger.
    - [LedgerTxnTheorems], [LedgerTxnOffers], [LedgerTxnStack],
      [LedgerTxnRefinement]: the simulation, for the versions, for the order
      books and bounds on the parents' offers, for one transaction, for all.
    - [RootCaches]: [LedgerTxnRoot] with its entry cache, its cache of best
      offers and prefetching, over the queries of [LedgerTxnOfferSQL.cpp].
    - [LedgerClose]: the parts of [LedgerManagerImpl::closeLedger] and
      [startNewLedger] that tie the transactions to the bucket list.

    Works.
    - [Work]: [work/BasicWork.cpp] (the state machine with retries and aborts, as
      a class that every kind of work inherits), [work/Work.cpp] (children in
      turns), [work/WorkSequence.cpp], [work/BatchWork.cpp], and events below a
      work.
    - [WorkScheduler]: [work/WorkScheduler.cpp], its posted callback, and events.
    - [WorkTheorems], [WorkCrank], [WorkAbort], [WorkBatch], [WorkTrees],
      [WorkSchedulerTheorems]: well-formed trees of works and the weight of what
      they have left; that cranks, aborts, batches and events keep the one and
      lower the other.
    - [WorkLiveness]: what the scheduler guarantees, and an example.

    ** How the code is rendered

    Handlers are functions in a state-and-error monad ([ST] below) over the
    record of the members they use.  [Err] stands for an exception, a failed
    [dbgAssert] or [releaseAssert] (the program is not built with [NDEBUG]) or
    the use of a null pointer; the program does not continue from any of them
    (the exceptions of [Slot::processEnvelope] are logged and rethrown).
    Pointers that may be null are options; [std::shared_ptr]s that are compared
    carry an identity.  The protocols call themselves through
    [Slot::processEnvelope]: the call is a parameter of the handlers, and the
    recursion is closed at the end of the file with a bound.  Log output, JSON
    output, statistics and metrics are left out.

    Integers are [Z].  Counters of ballots are kept at 32 bits and wrap where
    the code increments them; 64-bit amounts are checked where the code checks
    them and wrap where it does not, as in the products and sums of fees (the
    theorem on charging says when none does).  The [int32] counts of timeouts and rounds are not wrapped:
    their overflow is undefined in C++ and needs 2^31 timeouts.

    Code that is not part of the model is a parameter.  The driver of the
    consensus library is a record of functions, arbitrary in every theorem but
    for stated hypotheses (quorum sets it resolves are sane; the variants it
    makes of values stay in a given set; it resolves the hashes of correct nodes
    to their quorum sets).  XDR encoding, signatures, hashes and random numbers
    are functions with the hypotheses of their libraries (what is encoded
    decodes to itself; a draw from [0..n] is at most [n]).  The tables of the
    database are a map from keys to entries; a bucket is the list of its entries,
    and its hash is that list ([stored] says which buckets are on disk); when
    merges complete, and when a shutdown is asked for, are functions of a
    counter.  The work of a ledger is any sequence of operations on ledger
    transactions, in which an offer identifier belongs to one seller ([owner]).  The check of the
    single transactions of a set ([checkOrTrim]) is a function of
    [HerderValues]; [NextLedger] gives it the one of [TxSets].  There, the check
    of one transaction is a function, and [set_lawful] says that what it accepts
    has a price and follows the sequence number before it.  [std::sort] is a
    merge sort; no theorem depends on the order it leaves equal elements in.  The tasks at the leaves of a tree of works are any type with
    the operations of class [Task] and the laws [TaskLaws]: an attempt reports
    running or waiting a bounded number of times, and an abort ends.  A task that
    waits is woken by an event; a wake-up of a work that waits for its retry is
    not among the events (the handler of the retry timer would then fail its
    assertion).  What the queue asks of the last closed ledger is a record of
    functions ([LedgerView]); [lawful] says that a transaction [checkValid]
    accepts has a price and the sequence number asked for, and that balances and
    the limit of operations are within their types.  A hash stands for one envelope ([envelope]); a transaction that is
    offered to the queue is a fresh object with a bid that is not negative and a
    sequence number below [INT64_MAX] ([offered]; the findings say what happens
    otherwise).  The rates of flooding, the random numbers of the damping and
    whether a peer gets a message are those of a record [Overlay].  What the
    fetchers ask of the peers is a record [PeersView], and what the rest of the
    program answers to the reception of messages ([World]) is a function of the
    number of questions asked so far: in particular what SCP does with an envelope
    is any list of calls back ([Callback]).  Weak pointers are followed: an item is
    known as long as a cache, a ready envelope, a running function or another part
    of the program refers to it ([references]).  A node never hears of more than
    [QSET_CACHE_SIZE] quorum sets ([universe]), so that none is evicted from the
    cache; otherwise [ItemFetcher::recv] could find the quorum set gone, and wait
    for it again and again.  A transaction set is hashed before it is received, so
    that it is sorted when its size is taken ([ordered_set]).

    ** Bounds

    - [BUMP_FUEL] (5) for the [do .. while] loop of [advanceSlot]: the loop
      ends after at most three rounds ([bump_loop_spec]).
    - [BALLOT_FUEL] (52) for the recursion of the ballot protocol: the code
      stops at level [MAX_ADVANCE_SLOT_RECURSION] = 50 by itself.
    - [slot_fuel] (twice the number of values, plus one) for the recursion of
      the nomination protocol: every nested call carries more votes or accepted
      values.
    - [sqrt_fuel] (66) for the iteration of [bigSquareRootCeil].
    - The number of nodes for the recursion of [scc]: every call opens a node
      ([calculateSCCs_correct]).  The size of the set plus one for the loop of
      [contractToMaximalQuorum] and for the recursion of
      [anyMinQuorumHasDisjointQuorum]: every round removes a node
      ([checker_correct]).
    - [rebuild_rounds] for the search of [QuorumTracker::rebuild]: a node is
      pushed once for every time it is named ([rebuild_correct]).
    - The sizes of the two buckets for the loop of a merge: every round advances
      an iterator.  The number of recorded entries for the loop of
      [getBestOffer]: every round passes a recorded offer.  The number of rows
      for the loop of the root's [getBestOffer]: every round loads one
      ([best_offer_found], [root_caches_transparent]).
    - The height of a tree of works for [crankWork]: a crank goes down one branch
      ([crank_ok]).
    - The number of transactions of the limiter for the loop of
      [evictTransactions]: every round bans one of them.  The number of
      transactions of the queue for the loop of [broadcastSome]: every round
      advances an account or gives it up ([queue_events_safe]).
    - The number of transactions of a set for the loops of [sortForApply] and
      [surgePricingFilter]: every round takes a transaction, or drops an account
      that has one ([apply_order_agreed], [proposal_never_rejected]).
    - The number of envelopes that wait for the loop of [ItemFetcher::recv]: no
      envelope comes to wait for the item that has just arrived.  The number of
      ready envelopes for the loop of [processSCPQueueUpToIndex]: every round takes
      one ([pending_events_safe]).
    - The theorems on the bucket list and on closed ledgers are for protocols from
      12 on (merges without shadows) and ledgers up to 2^32 - 1; the first ledger
      is then a configured one ([newGenesis]), as the built-in one has protocol 0.
    - The loop of [updateRoundLeaders] ends only if the hashes of the driver
      let some node be elected; its bound may be reached, which is one of the
      outcomes of [round_allowed].

    ** What the theorems show

    - Network: [agreement] (no two correct nodes externalize different values
      if quorums intersect), [checked_network_agrees] (the same when the checker
      has accepted the quorum sets), [decision_backed].
    - Node: [decision_outlives_other_slots], [scp_events_safe].
    - Slot: [slot_refines_ballot] (a run of the slot is a run of the ballot
      protocol's transition system), [slot_events_safe].
    - Ballot protocol: [ballot_events_safe] (every event ends, in a good state
      or with one of the listed errors), [commit_is_irrevocable],
      [externalized_exactly_once], [commit_justified], [restore_roundtrip].
    - Nomination: [nomination_monotone], [nomination_justified].
    - Federated voting: [federated_voting_spec], [isQuorum_spec],
      [isVBlocking_dual].
    - Values: [combineCandidates_valid], [extractValidValue_repairs],
      [upgrades_take_effect].
    - Quorums of the network: [checker_correct] (the checker answers exactly
      whether any two quorums intersect), [calculateSCCs_correct],
      [cache_refines_map], [rebuild_correct], [quorum_membership_sound].
    - Money: [exchangeWithPool_product], [exchangeV10_normal],
      [exchangeV10_adjusted], [balance_ops_preserve], [limits_exact],
      [fees_conserve], [minFee_spec], [inflation_pays_out].
    - Ledger: [ledger_txn_refines] (nested transactions behave as copies of the
      ledger), [best_offer_found], [ledger_txn_errors] (only misuse fails),
      [root_caches_transparent], [bucket_list_refines] (from protocol 12
      on, the list holds the last version of every entry and can be reloaded), [bucket_list_deterministic],
      [closed_ledgers_agree] (database and bucket list hold the same ledger).
    - Works: [work_events_safe] (no event is an error), [scheduled_works_finish]
      (in whatever order events come, all works end), [successful_work_completed],
      [posted_loop_ends].
    - Transaction queue: [queue_events_safe] (no event is an error, and the books
      are right), [tryAdd_effect] (what comes in and what leaves),
      [banned_stays_out] (but for the upgrade to protocol 13, which clears the
      bans), [shifts_expire], [payment_loops_exact]; and the lemmas
      [canReplaceByFee_ok], [computeBetterFee_ok] (the fees it answers with are
      the least that would do) and [broadcastSome_ok].
    - Transaction sets: [proposal_never_rejected] (a node never fails to make a
      set, and its set passes its own check), [nomination_fully_valid] (when no
      change of a fee is due, its upgrades are valid and no verdict on the set is
      remembered, nor does it nominate a value it would not vote for),
      [apply_order_agreed] (nodes
      apply a set in the same order); and the lemmas [accepted_good] and
      [good_accepted] (what the check accepts).
    - Reception of messages: [received_not_lost] (an envelope that keeps being
      admitted is handed to SCP once, or a tracker waits for what it lacks), [pending_events_safe] (no event
      is an error, and SCP gets complete envelopes only), [peers_asked_in_rounds]
      (every peer is asked, and asked again); and the lemma
      [stopped_fetch_not_resumed].
    - Where the code does not do what it means to:
      [timeout_at_max_counter_aborts], [zero_prepared_aborts],
      [fee_upgrades_rejected], [combineCandidates_throws],
      [txset_verdict_remembered], [percentage_fee_not_charged],
      [fee_bid_truncated], [negative_fee_bump_throws]; and the lemmas
      [getState_externalized_delayed], [stopped_fetch_not_resumed] and
      [largest_bid_not_charged].

    ** What is not modelled

    Overlay (but for the fetching of items), history, catchup, database, process
    and command line (input and output); crypto (libsodium).  Of the herder: its
    own timers, the report of outliers among the costs of messages, and
    [getIntersectionCriticalGroups].  Of the transaction queue: metrics
    and insertion times, the count of bans, and the order in which an
    [unordered_map] lists accounts.  Of the works: [ConditionalWork],
    [WorkWithCallback] and the delays of retries.  Of the ledger: the queries for
    all offers, for the offers or pool shares of an account and for inflation
    winners, the SQL of the tables, and the operations other than inflation:
    each of them is a client of the balances, the exchange arithmetic and the
    ledger transactions modelled here, and closing a ledger is proved for any
    sequence of ledger operations they may make.  Of the closing of a ledger: the
    stream of metadata and its flags, and the history queue.  Of the bucket list: files,
    hashes, merge counters and publishing. *)
From stdpp Require Import base tactics list sorting numbers.
From Stdlib Require Import ZArith Lia Bool.

Create HintDb kin.
Create Rewrite HintDb kin.

Open Scope Z_scope.

(** ** Machine integers

    The sources use [uint32], [uint64], [int64_t] and (through
    [lib/util/uint128_t.h] or the compiler) [uint128_t].  Values are [Z]; an
    operation that can leave the range is written with the wrap-around the
    C++ conversion performs. *)

Definition UINT32_MAX : Z := 4294967295.
Definition UINT64_MAX : Z := 18446744073709551615.
Definition INT32_MAX : Z := 2147483647.
Definition INT64_MAX : Z := 9223372036854775807.
Definition UINT128_MAX : Z := 340282366920938463463374607431768211455.

Definition u32 (x : Z) : Z := x mod (UINT32_MAX + 1).
Definition u64 (x : Z) : Z := x mod (UINT64_MAX + 1).
Definition u128 (x : Z) : Z := x mod (UINT128_MAX + 1).

(** Conversion of a [uint64_t] to [int64_t] (two's complement). *)
Definition to_i64 (x : Z) : Z :=
  let y := u64 x in if y <=? INT64_MAX then y else y - (UINT64_MAX + 1).

(** Conversion of a 64-bit quantity to [int] (two's complement, 32 bits). *)
Definition to_i32 (x : Z) : Z :=
  let y := u32 x in if y <=? INT32_MAX then y else y - (UINT32_MAX + 1).

Definition is_u32 (x : Z) : Prop := 0 <= x <= UINT32_MAX.
Definition is_u64 (x : Z) : Prop := 0 <= x <= UINT64_MAX.
Definition is_u128 (x : Z) : Prop := 0 <= x <= UINT128_MAX.
Definition is_i64 (x : Z) : Prop := - (INT64_MAX + 1) <= x <= INT64_MAX.

Ltac unfold_ints :=
  unfold is_u32, is_u64, is_u128, is_i64, UINT32_MAX, UINT64_MAX,
    UINT128_MAX, INT32_MAX, INT64_MAX in *.

Lemma u32_id (x : Z) : is_u32 x -> u32 x = x.
Proof. unfold u32. intros ?. apply Z.mod_small. unfold_ints; lia. Qed.

Lemma u64_id (x : Z) : is_u64 x -> u64 x = x.
Proof. unfold u64. intros ?. apply Z.mod_small. unfold_ints; lia. Qed.

Lemma u128_id (x : Z) : is_u128 x -> u128 x = x.
Proof. unfold u128. intros ?. apply Z.mod_small. unfold_ints; lia. Qed.

Lemma u32_range (x : Z) : is_u32 (u32 x).
Proof.
  unfold u32, is_u32. pose proof (Z.mod_pos_bound x (UINT32_MAX + 1)).
  unfold_ints; lia.
Qed.

Lemma u64_range (x : Z) : is_u64 (u64 x).
Proof.
  unfold u64, is_u64. pose proof (Z.mod_pos_bound x (UINT64_MAX + 1)).
  unfold_ints; lia.
Qed.

#[export] Hint Resolve u32_range u64_range : kin.
#[export] Hint Rewrite u32_id u64_id u128_id using (unfold_ints; lia) : kin.

(** ** Boolean reasoning

    [bprop] turns boolean tests of the code that occur in hypotheses into
    propositions [lia] and [congruence] understand; [bcase] splits on the
    first boolean test of the goal. *)

Ltac bprop_step :=
  match goal with
  | H : andb _ _ = true |- _ => apply andb_true_iff in H as [? ?]
  | H : orb _ _ = false |- _ => apply orb_false_iff in H as [? ?]
  | H : negb _ = true |- _ => apply negb_true_iff in H
  | H : negb _ = false |- _ => apply negb_false_iff in H
  | H : (_ =? _) = true |- _ => apply Z.eqb_eq in H
  | H : (_ =? _) = false |- _ => apply Z.eqb_neq in H
  | H : (_ <? _) = true |- _ => apply Z.ltb_lt in H
  | H : (_ <? _) = false |- _ => apply Z.ltb_ge in H
  | H : (_ <=? _) = true |- _ => apply Z.leb_le in H
  | H : (_ <=? _) = false |- _ => apply Z.leb_gt in H
  | H : bool_decide _ = true |- _ => apply bool_decide_eq_true in H
  | H : bool_decide _ = false |- _ => apply bool_decide_eq_false in H
  end.

Ltac bprop := repeat bprop_step.

Ltac bcase :=
  match goal with
  | |- context [if ?b then _ else _] => destruct b eqn:?
  | |- context [match ?b with _ => _ end] => destruct b eqn:?
  end.

(** Splits every comparison of the goal and closes the branches that the
    arithmetic refutes. *)
Ltac ztests :=
  cbn;
  repeat match goal with
  | |- context [?bal <=? ?lim] => destruct (Z.leb_spec bal lim); cbn
  | |- context [?bal <? ?lim] => destruct (Z.ltb_spec bal lim); cbn
  | |- context [?bal =? ?lim] => destruct (Z.eqb_spec bal lim); cbn
  end; try lia; try done.

(** The test of a pointer that may be null. *)
Definition isSome {A} (o : option A) : bool := match o with Some _ => true | None => false end.

(** ** Errors and effects

    [Err] carries what stops the C++ code: a thrown exception, a failed
    assertion or the use of a null pointer.  [OutOfFuel] is not a behaviour
    of the code: it marks that the bound given to a recursive definition was
    too small; it is reached by the loop of [updateRoundLeaders] at most. *)

Inductive result (E A : Type) : Type :=
  | Ok (a : A)
  | Err (e : E).
Arguments Ok {E A} _.
Arguments Err {E A} _.

Definition res_bind {E A B : Type} (m : result E A) (f : A -> result E B)
    : result E B :=
  match m with Ok a => f a | Err e => Err e end.

(** The error of a callee seen by its caller. *)
Definition res_err {E F A : Type} (f : E -> F) (m : result E A) : result F A :=
  match m with Ok a => Ok a | Err e => Err (f e) end.

(** A thrown exception or failed assertion, guarded by its condition. *)
Definition ensure {E : Type} (b : bool) (e : E) : result E unit :=
  if b then Ok tt else Err e.

(** A state-and-error monad: what the stateful handlers are written in. *)
Definition ST (S E A : Type) : Type := S -> result E (A * S).

Section monad.
Context {S E : Type}.

Definition ret {A} (a : A) : ST S E A := fun s => Ok (a, s).
Definition bind {A B} (m : ST S E A) (f : A -> ST S E B) : ST S E B :=
  fun s => match m s with Ok (a, s') => f a s' | Err e => Err e end.
Definition get : ST S E S := fun s => Ok (s, s).
Definition gets {A} (f : S -> A) : ST S E A := fun s => Ok (f s, s).
Definition modify (f : S -> S) : ST S E unit := fun s => Ok (tt, f s).
Definition fail {A} (e : E) : ST S E A := fun _ => Err e.
Definition when (b : bool) (m : ST S E unit) : ST S E unit :=
  if b then m else ret tt.
(** An assertion: the state is left alone or the run stops with [e]. *)
Definition check (b : bool) (e : E) : ST S E unit :=
  if b then ret tt else fail e.
(** Dereference of a possibly null pointer. *)
Definition deref {A} (p : option A) (e : E) : ST S E A :=
  match p with Some a => ret a | None => fail e end.
End monad.

Declare Scope kin_scope.
Delimit Scope kin_scope with kin.
Notation "'let!' x ':=' m 'in' k" := (bind m (fun x => k))
  (at level 10, x pattern, m at level 200, k at level 200) : kin_scope.
Notation "'let?' x ':=' m 'in' k" := (res_bind m (fun x => k))
  (at level 10, x pattern, m at level 200, k at level 200) : kin_scope.
Notation "m ';;!' k" := (bind m (fun _ => k))
  (at level 100, right associativity) : kin_scope.

(** [wp E m Q s]: run from [s], [m] either returns with [Q] between the result
    and the final state, or stops with an error that satisfies [E].  This is a
    statement about every outcome of the code: nothing is assumed about whether
    it returns. *)
Definition wp {S R A} (E : R -> Prop) (m : ST S R A) (Q : A -> S -> Prop) (s : S) : Prop :=
  match m s with
  | Ok (a, s') => Q a s'
  | Err e => E e
  end.

Section wp.
Context {S R : Type} (E : R -> Prop).

Lemma wp_ret {A} (a : A) (Q : A -> S -> Prop) (s : S) : Q a s -> wp E (ret a) Q s.
Proof. done. Qed.

Lemma wp_bind {A B} (m : ST S R A) (f : A -> ST S R B) (Q : B -> S -> Prop) (s : S) :
  wp E m (fun a s' => wp E (f a) Q s') s -> wp E (bind m f) Q s.
Proof. unfold wp, bind. by destruct (m s) as [[a s']|e]. Qed.

Lemma wp_get (Q : S -> S -> Prop) (s : S) : Q s s -> wp E get Q s.
Proof. done. Qed.

Lemma wp_gets {A} (f : S -> A) (Q : A -> S -> Prop) (s : S) : Q (f s) s -> wp E (gets f) Q s.
Proof. done. Qed.

Lemma wp_modify (f : S -> S) (Q : unit -> S -> Prop) (s : S) : Q tt (f s) -> wp E (modify f) Q s.
Proof. done. Qed.

Lemma wp_fail {A} (e : R) (Q : A -> S -> Prop) (s : S) : E e -> wp E (fail e) Q s.
Proof. done. Qed.

(** An assertion that holds. *)
Lemma wp_check (b : bool) (e : R) (Q : unit -> S -> Prop) (s : S) :
  b = true -> Q tt s -> wp E (check b e) Q s.
Proof. by intros ->. Qed.

(** An assertion that may fail, with an error that is allowed. *)
Lemma wp_check_or (b : bool) (e : R) (Q : unit -> S -> Prop) (s : S) :
  (b = false -> E e) -> (b = true -> Q tt s) -> wp E (check b e) Q s.
Proof. unfold wp. destruct b; simpl; auto. Qed.

Lemma wp_mono {A} (m : ST S R A) (Q Q' : A -> S -> Prop) (s : S) :
  wp E m Q s -> (forall a s', Q a s' -> Q' a s') -> wp E m Q' s.
Proof. unfold wp. destruct (m s) as [[a s']|e]; auto. Qed.

Lemma wp_ok {A} (m : ST S R A) (Q : A -> S -> Prop) (s s' : S) (a : A) :
  wp E m Q s -> m s = Ok (a, s') -> Q a s'.
Proof. unfold wp. intros H Hm. by rewrite Hm in H. Qed.

Lemma wp_err {A} (m : ST S R A) (Q : A -> S -> Prop) (s : S) (e : R) :
  wp E m Q s -> m s = Err e -> E e.
Proof. unfold wp. intros H Hm. by rewrite Hm in H. Qed.
End wp.

Lemma wp_weaken {S R A} (E E' : R -> Prop) (m : ST S R A) (Q : A -> S -> Prop) (s : S) :
  wp E m Q s -> (forall e, E e -> E' e) -> wp E' m Q s.
Proof. unfold wp. destruct (m s) as [[a s']|e]; auto. Qed.
