(* ===== verification/Containers.v ===== *)
(** * Ordered containers

    [std::set] and [std::map] as the consensus code uses them: duplicate-free
    sequences kept in increasing key order, so that iteration visits the
    elements in the order the C++ iterators do ([begin] to [end]; [rev] for
    [rbegin] to [rend]).  The order is a typeclass, with the instances the
    code needs: integers, byte strings (lexicographic, the order of
    [std::vector<uint8_t>] and of XDR opaque data) and, in [Statement],
    ballots. *)
From stdpp Require Import base tactics list sorting numbers sets gmap.
From Stdlib Require Import ZArith Lia Bool.
From S2P Require Import Prelude.

Open Scope Z_scope.

(** ** Strict total orders *)

Class LtB (A : Type) := ltb : A -> A -> bool.
#[export] Hint Mode LtB ! : typeclass_instances.

Class TotalLt (A : Type) `{LtB A} : Prop := {
  ltb_irrefl (x : A) : ltb x x = false;
  ltb_trans (x y z : A) : ltb x y = true -> ltb y z = true -> ltb x z = true;
  ltb_total (x y : A) : ltb x y = false -> ltb y x = false -> x = y
}.

(** The equality test obtained from the order, as [std::map] does. *)
Definition eqb_of {A} `{LtB A} (x y : A) : bool := negb (ltb x y) && negb (ltb y x).

Section order.
Context {A : Type} `{TotalLt A}.

Lemma eqb_of_true (x y : A) : eqb_of x y = true <-> x = y.
Proof.
  unfold eqb_of. split.
  - intros ?; bprop. by apply ltb_total.
  - intros ->. by rewrite ltb_irrefl.
Qed.

Lemma eqb_of_refl (x : A) : eqb_of x x = true.
Proof. by apply eqb_of_true. Qed.

Lemma eqb_of_false (x y : A) : eqb_of x y = false <-> x <> y.
Proof.
  rewrite <- eqb_of_true. destruct (eqb_of x y); split; congruence.
Qed.

Lemma ltb_asym (x y : A) : ltb x y = true -> ltb y x = false.
Proof.
  intros Hxy. destruct (ltb y x) eqn:Hyx; [|done].
  pose proof (ltb_trans x y x Hxy Hyx) as Hc. by rewrite ltb_irrefl in Hc.
Qed.

Lemma ltb_neq (x y : A) : ltb x y = true -> x <> y.
Proof. intros Hxy ->. by rewrite ltb_irrefl in Hxy. Qed.

Lemma ltb_trichotomy (x y : A) :
  ltb x y = true \/ x = y \/ ltb y x = true.
Proof.
  destruct (ltb x y) eqn:?; [auto|]. destruct (ltb y x) eqn:?; [auto|].
  right; left. by apply ltb_total.
Qed.

Lemma ltb_le_trans (x y z : A) :
  ltb y x = false -> ltb y z = true -> ltb x z = true.
Proof.
  intros Hyx Hyz. destruct (ltb_trichotomy x y) as [?|[->|?]]; [|done|congruence].
  by eapply ltb_trans.
Qed.
End order.

#[export] Hint Resolve ltb_irrefl eqb_of_refl : kin.

(** *** Instances *)

#[global] Instance LtB_Z : LtB Z := Z.ltb.
#[global] Instance TotalLt_Z : TotalLt Z.
Proof.
  split; unfold ltb, LtB_Z.
  - apply Z.ltb_irrefl.
  - intros; bprop. apply Z.ltb_lt; lia.
  - intros; bprop. lia.
Qed.

(** [std::lexicographical_compare], the order of vectors. *)
Fixpoint lex_ltb {A} `{LtB A} (l r : list A) : bool :=
  match l, r with
  | _, [] => false
  | [], _ :: _ => true
  | x :: l', y :: r' =>
      if ltb x y then true else if ltb y x then false else lex_ltb l' r'
  end.

#[global] Instance LtB_list {A} `{LtB A} : LtB (list A) := lex_ltb.
#[global] Instance TotalLt_list {A} `{TotalLt A} : TotalLt (list A).
Proof.
  split; unfold ltb, LtB_list.
  - induction x as [|a x IH]; simpl; [done|]. by rewrite ltb_irrefl.
  - induction x as [|a x IH]; intros [|b y] [|c z]; simpl; try done.
    destruct (ltb_trichotomy a b) as [Hab|[->|Hba]].
    + rewrite Hab. intros _. destruct (ltb_trichotomy b c) as [Hbc|[->|Hcb]].
      * rewrite Hbc. by rewrite (ltb_trans _ _ _ Hab Hbc).
      * by rewrite Hab.
      * rewrite Hcb, (ltb_asym _ _ Hcb). done.
    + rewrite ltb_irrefl. intros Hxy.
      destruct (ltb b c); [done|]. destruct (ltb c b); [done|]. by apply IH.
    + rewrite Hba, (ltb_asym _ _ Hba). done.
  - induction x as [|a x IH]; intros [|b y]; simpl; try done.
    destruct (ltb a b) eqn:Hab; [done|]. destruct (ltb b a) eqn:Hba; [done|].
    intros ??. f_equal; [by apply ltb_total | by apply IH].
Qed.

(** Pairs, first component first; a null pointer before any other. *)
#[global] Instance LtB_prod {A B} `{LtB A, LtB B} : LtB (A * B) := fun x y =>
  if ltb x.1 y.1 then true else if ltb y.1 x.1 then false else ltb x.2 y.2.

Lemma ltb_pair {A B} `{LtB A, LtB B} (x1 y1 : A) (x2 y2 : B) :
  ltb (x1, x2) (y1, y2) =
    if ltb x1 y1 then true else if ltb y1 x1 then false else ltb x2 y2.
Proof. done. Qed.

#[global] Instance TotalLt_prod {A B} `{TotalLt A, TotalLt B} : TotalLt (A * B).
Proof.
  split.
  - intros [x1 x2]. by rewrite ltb_pair, !ltb_irrefl.
  - intros [x1 x2] [y1 y2] [z1 z2]. rewrite !ltb_pair.
    destruct (ltb_trichotomy x1 y1) as [Hab|[->|Hba]].
    + rewrite Hab. intros _. destruct (ltb_trichotomy y1 z1) as [Hbc|[->|Hcb]].
      * by rewrite (ltb_trans _ _ _ Hab Hbc).
      * by rewrite Hab.
      * by rewrite Hcb, (ltb_asym _ _ Hcb).
    + rewrite ltb_irrefl. intros Hxy.
      destruct (ltb y1 z1); [done|]. destruct (ltb z1 y1); [done|]. by eapply ltb_trans.
    + by rewrite Hba, (ltb_asym _ _ Hba).
  - intros [x1 x2] [y1 y2]. rewrite !ltb_pair.
    destruct (ltb x1 y1) eqn:E1; [done|]. destruct (ltb y1 x1) eqn:E2; [done|].
    intros ??. f_equal; by apply ltb_total.
Qed.

#[global] Instance LtB_option {A} `{LtB A} : LtB (option A) := fun x y =>
  match x, y with
  | Some a, Some b => ltb a b
  | None, Some _ => true
  | _, None => false
  end.

#[global] Instance TotalLt_option {A} `{TotalLt A} : TotalLt (option A).
Proof.
  split; unfold ltb, LtB_option.
  - intros [x|]; [apply ltb_irrefl|done].
  - intros [x|] [y|] [z|]; try done. apply ltb_trans.
  - intros [x|] [y|] ??; try done. f_equal. by apply ltb_total.
Qed.

(** Opaque byte strings of the XDR types. *)
Definition bytes : Type := list Z.

(** ** [std::set] *)

Section oset.
Context {A : Type} `{TotalLt A}.

(** [std::set::insert]; the element is not duplicated. *)
Fixpoint set_insert (x : A) (s : list A) : list A :=
  match s with
  | [] => [x]
  | y :: s' =>
      if ltb x y then x :: s
      else if ltb y x then y :: set_insert x s' else s
  end.

(** [std::set::find] compared with [end]. *)
Fixpoint set_mem (x : A) (s : list A) : bool :=
  match s with
  | [] => false
  | y :: s' => eqb_of x y || set_mem x s'
  end.

Definition set_of_list (l : list A) : list A :=
  fold_left (fun s x => set_insert x s) l [].

Definition increasing : list A -> Prop := StronglySorted (fun x y => ltb x y = true).

Lemma set_mem_true (x : A) (s : list A) : set_mem x s = true <-> x ∈ s.
Proof.
  induction s as [|y s IH]; simpl; [set_solver|].
  rewrite orb_true_iff, IH, eqb_of_true, elem_of_cons. done.
Qed.

Lemma set_mem_false (x : A) (s : list A) : set_mem x s = false <-> x ∉ s.
Proof.
  rewrite <- set_mem_true. destruct (set_mem x s); split; congruence.
Qed.

Lemma elem_of_set_insert (x y : A) (s : list A) :
  y ∈ set_insert x s <-> y = x \/ y ∈ s.
Proof.
  induction s as [|z s IH]; simpl; [set_solver|].
  destruct (ltb x z) eqn:Hxz; [set_solver|].
  destruct (ltb z x) eqn:Hzx.
  - rewrite elem_of_cons, IH. set_solver.
  - rewrite (ltb_total x z Hxz Hzx). set_solver.
Qed.

Lemma increasing_set_insert (x : A) (s : list A) :
  increasing s -> increasing (set_insert x s).
Proof.
  induction 1 as [|y s Hs IH Hall]; simpl; [repeat constructor|].
  destruct (ltb x y) eqn:Hxy.
  { constructor; [by constructor|]. constructor; [done|].
    rewrite Forall_forall in Hall |- *. intros z Hz.
    by eapply ltb_trans; [|apply Hall]. }
  destruct (ltb y x) eqn:Hyx; [|by constructor].
  constructor; [done|]. rewrite Forall_forall in Hall |- *.
  intros z [->|Hz]%elem_of_set_insert; [done | by apply Hall].
Qed.

Lemma set_of_list_spec (l s : list A) (x : A) :
  x ∈ fold_left (fun s x => set_insert x s) l s <-> x ∈ l \/ x ∈ s.
Proof.
  revert s. induction l as [|y l IH]; intros s; simpl; [set_solver|].
  rewrite IH, elem_of_set_insert. set_solver.
Qed.

Lemma elem_of_set_of_list (l : list A) (x : A) : x ∈ set_of_list l <-> x ∈ l.
Proof. unfold set_of_list. rewrite set_of_list_spec. set_solver. Qed.

Lemma increasing_set_of_list (l : list A) : increasing (set_of_list l).
Proof.
  unfold set_of_list.
  enough (forall s, increasing s ->
    increasing (fold_left (fun s x => set_insert x s) l s)) as Hk
    by (apply Hk; constructor).
  induction l as [|y l IH]; intros s Hs; simpl; [done|].
  apply IH. by apply increasing_set_insert.
Qed.

Lemma increasing_NoDup (s : list A) : increasing s -> NoDup s.
Proof.
  induction 1 as [|x s Hs IH Hall]; constructor; [|done].
  intros Hx. rewrite Forall_forall in Hall.
  by apply Hall in Hx; rewrite ltb_irrefl in Hx.
Qed.
End oset.

#[export] Hint Resolve increasing_set_insert increasing_set_of_list increasing_NoDup : kin.

(** ** [std::map] *)

Section omap.
Context {K V : Type} `{TotalLt K}.

Fixpoint map_find (k : K) (m : list (K * V)) : option V :=
  match m with
  | [] => None
  | (k', v) :: m' => if eqb_of k k' then Some v else map_find k m'
  end.

(** Insertion of a key, or assignment through the iterator found. *)
Fixpoint map_set (k : K) (v : V) (m : list (K * V)) : list (K * V) :=
  match m with
  | [] => [(k, v)]
  | (k', v') :: m' =>
      if ltb k k' then (k, v) :: m
      else if ltb k' k then (k', v') :: map_set k v m'
      else (k, v) :: m'
  end.

Definition map_keys (m : list (K * V)) : list K := map fst m.
Definition ordered (m : list (K * V)) : Prop := increasing (map_keys m).

Lemma map_find_set (k k' : K) (v : V) (m : list (K * V)) :
  map_find k' (map_set k v m) = if eqb_of k' k then Some v else map_find k' m.
Proof.
  induction m as [|[k1 v1] m IH]; simpl; [done|].
  destruct (ltb k k1) eqn:H1; [done|]. destruct (ltb k1 k) eqn:H2; simpl.
  - rewrite IH. destruct (eqb_of k' k1) eqn:E1; [|done].
    apply eqb_of_true in E1 as ->. destruct (eqb_of k1 k) eqn:E2; [|done].
    apply eqb_of_true in E2 as ->. by rewrite ltb_irrefl in H2.
  - rewrite (ltb_total k k1 H1 H2). by destruct (eqb_of k' k1).
Qed.

Lemma elem_of_map_keys_set (k x : K) (v : V) (m : list (K * V)) :
  x ∈ map_keys (map_set k v m) <-> x = k \/ x ∈ map_keys m.
Proof.
  unfold map_keys. induction m as [|[k1 v1] m IH]; simpl; [set_solver|].
  destruct (ltb k k1) eqn:H1; simpl; [set_solver|].
  destruct (ltb k1 k) eqn:H2; simpl; rewrite !elem_of_cons.
  - rewrite IH. tauto.
  - rewrite (ltb_total k k1 H1 H2). tauto.
Qed.

Lemma ordered_map_set (k : K) (v : V) (m : list (K * V)) :
  ordered m -> ordered (map_set k v m).
Proof.
  unfold ordered. induction m as [|[k1 v1] m IH]; simpl.
  { intros _. constructor; constructor. }
  intros Hs. inversion Hs as [|? ? Hs' Hall]; subst.
  destruct (ltb k k1) eqn:H1; simpl.
  { constructor; [done|]. constructor; [done|]. rewrite Forall_forall in Hall |- *.
    intros z Hz. by eapply ltb_trans; [|apply Hall]. }
  destruct (ltb k1 k) eqn:H2; simpl.
  - constructor; [by apply IH|]. rewrite Forall_forall in Hall |- *.
    intros z [->|Hz]%elem_of_map_keys_set; [done | by apply Hall].
  - by rewrite (ltb_total k k1 H1 H2).
Qed.

Lemma map_find_elem (k : K) (v : V) (m : list (K * V)) :
  ordered m -> map_find k m = Some v <-> (k, v) ∈ m.
Proof.
  unfold ordered. induction m as [|[k1 v1] m IH]; simpl; [set_solver|].
  intros Hs. inversion Hs as [|? ? Hs' Hall]; subst.
  rewrite elem_of_cons. destruct (eqb_of k k1) eqn:E.
  - apply eqb_of_true in E as ->. split.
    + intros [= ->]. by left.
    + intros [[= ->]|Hin]; [done|]. rewrite Forall_forall in Hall.
      apply (list_elem_of_fmap_2 fst) in Hin. apply Hall in Hin.
      by rewrite ltb_irrefl in Hin.
  - rewrite IH by done. apply eqb_of_false in E. naive_solver.
Qed.

Lemma map_find_Some_key (k : K) (v : V) (m : list (K * V)) :
  map_find k m = Some v -> k ∈ map_keys m.
Proof.
  induction m as [|[k1 v1] m IH]; simpl; [done|].
  destruct (eqb_of k k1) eqn:E; [|set_solver].
  apply eqb_of_true in E as ->. set_solver.
Qed.

Lemma map_find_in (k : K) (v : V) (m : list (K * V)) :
  map_find k m = Some v -> (k, v) ∈ m.
Proof.
  induction m as [|[k1 v1] m IH]; simpl; [done|].
  destruct (eqb_of k k1) eqn:E; [|set_solver].
  apply eqb_of_true in E as ->. intros [= ->]. set_solver.
Qed.

(** [std::map::erase] of a key. *)
Fixpoint map_erase (k : K) (m : list (K * V)) : list (K * V) :=
  match m with
  | [] => []
  | (k', v) :: m' => if eqb_of k k' then m' else (k', v) :: map_erase k m'
  end.

Lemma elem_of_map_erase (k : K) (x : K * V) (m : list (K * V)) : x ∈ map_erase k m -> x ∈ m.
Proof.
  induction m as [|[k1 v1] m IH]; simpl; [done|]. destruct (eqb_of k k1); set_solver.
Qed.

Lemma ordered_map_erase (k : K) (m : list (K * V)) : ordered m -> ordered (map_erase k m).
Proof.
  unfold ordered, map_keys. induction m as [|[k1 v1] m IH]; simpl; [done|].
  intros Hs. inversion Hs as [|? ? Hs' Hall]; subst. destruct (eqb_of k k1); [done|]. simpl.
  constructor; [by apply IH|]. rewrite Forall_forall in Hall |- *. intros y Hy. apply Hall.
  apply list_elem_of_fmap in Hy as (x&->&Hx). apply list_elem_of_fmap_2.
  by eapply elem_of_map_erase.
Qed.

Lemma ordered_head (k : K) (v : V) (m : list (K * V)) :
  ordered ((k, v) :: m) -> map_find k m = None.
Proof.
  intros Hs. inversion Hs as [|? ? Hs' Hall]; subst. destruct (map_find k m) as [w|] eqn:E; [|done].
  apply map_find_Some_key in E. rewrite Forall_forall in Hall. apply Hall in E.
  by rewrite ltb_irrefl in E.
Qed.

Lemma map_find_erase (k k' : K) (m : list (K * V)) :
  ordered m -> map_find k' (map_erase k m) = if eqb_of k' k then None else map_find k' m.
Proof.
  induction m as [|[k1 v1] m IH]; [by destruct (eqb_of k' k)|]. intros Hs.
  pose proof (ordered_head _ _ _ Hs) as Hh. inversion Hs as [|? ? Hs' _]; subst. simpl.
  destruct (eqb_of k k1) eqn:E1.
  - apply eqb_of_true in E1 as ->. destruct (eqb_of k' k1) eqn:E2; [|done].
    by apply eqb_of_true in E2 as ->.
  - simpl. rewrite IH by done. destruct (eqb_of k' k1) eqn:E2; [|done].
    apply eqb_of_true in E2 as ->. by destruct (eqb_of k1 k) eqn:E3;
      [apply eqb_of_true in E3 as ->; rewrite eqb_of_refl in E1|].
Qed.

(** Ordered maps with the same lookups are the same map. *)
Lemma ordered_ext (m1 m2 : list (K * V)) :
  ordered m1 -> ordered m2 -> (forall k, map_find k m1 = map_find k m2) -> m1 = m2.
Proof.
  assert (forall k (v : V) m k' v', ordered ((k, v) :: m) -> map_find k' ((k, v) :: m) = Some v' ->
    ltb k' k = false) as Hleast.
  { intros k v m k' v' Hs Hk'. inversion Hs as [|? ? _ Hall]; subst.
    apply map_find_Some_key in Hk'. simpl in Hk'. apply elem_of_cons in Hk' as [->|Hk'];
      [apply ltb_irrefl|]. rewrite Forall_forall in Hall. by apply ltb_asym, Hall. }
  revert m2. induction m1 as [|[k1 v1] m1 IH]; intros [|[k2 v2] m2] H1 H2 Heq; [done| | |].
  - specialize (Heq k2). simpl in Heq. by rewrite eqb_of_refl in Heq.
  - specialize (Heq k1). simpl in Heq. by rewrite eqb_of_refl in Heq.
  - assert (map_find k1 ((k2, v2) :: m2) = Some v1) as F1 by (rewrite <- Heq; simpl; by rewrite eqb_of_refl).
    assert (map_find k2 ((k1, v1) :: m1) = Some v2) as F2 by (rewrite Heq; simpl; by rewrite eqb_of_refl).
    pose proof (ltb_total _ _ (Hleast _ _ _ _ _ H2 F1) (Hleast _ _ _ _ _ H1 F2)) as ->.
    simpl in F1. rewrite eqb_of_refl in F1. simplify_eq. f_equal.
    pose proof (ordered_head _ _ _ H1) as N1. pose proof (ordered_head _ _ _ H2) as N2.
    inversion H1; inversion H2; subst. apply IH; [done..|]. intros k. specialize (Heq k). simpl in Heq.
    destruct (eqb_of k k2) eqn:E; [|done]. apply eqb_of_true in E as ->. by rewrite N1, N2.
Qed.
Lemma ordered_List_filter (f : K * V -> bool) (m : list (K * V)) :
  ordered m -> ordered (List.filter f m).
Proof.
  unfold ordered, map_keys, increasing. induction m as [|x m IH]; cbn; [done|].
  intros Ho. inversion Ho as [|? ? Hm Hall]; subst. destruct (f x); cbn; [|by apply IH].
  constructor; [by apply IH|]. rewrite Forall_forall in Hall |- *. intros k Hk. apply Hall.
  apply list_elem_of_fmap in Hk as (w & -> & Hw). apply list_elem_of_fmap. exists w.
  split; [done|]. rewrite list_elem_of_In in Hw |- *. by apply filter_In in Hw as [? _].
Qed.
End omap.

#[export] Hint Resolve ordered_map_set ordered_map_erase ordered_List_filter : kin.
