(* ===== verification/Numeric.v ===== *)
(** * Wide multiplication, division and square roots

    [src/util/numeric.cpp]: the exact integer arithmetic that prices, weights
    and pool shares are computed with.  A C++ function with an out-parameter
    [result] and a [bool] return becomes a function returning the pair of the
    flag and the value written ([None] when the code leaves [result]
    untouched); assertions and exceptions are [Err]. *)
From stdpp Require Import base tactics numbers.
From Stdlib Require Import ZArith Lia Bool.
From S2P Require Import Prelude.

Open Scope Z_scope.

Inductive Rounding := ROUND_DOWN | ROUND_UP.

Inductive num_error :=
  | AssertFailed       (** [releaseAssertOrThrow] *)
  | BigDivideOverflow  (** [std::overflow_error] *)
  | SquareRootOverflow (** [std::runtime_error] *)
  | SquareRootFuel.    (** bound of the model's loop, never reached *)

(** ** Definitions *)

Definition bigDivideUnsigned (A B C : Z) (rounding : Rounding)
    : result num_error (bool * Z) :=
  if negb (0 <? C) then Err AssertFailed else
  let x := match rounding with
           | ROUND_DOWN => u128 (A * B) / C
           | ROUND_UP => u128 (u128 (u128 (A * B) + C) - 1) / C
           end in
  Ok (x <=? UINT64_MAX, u64 x).

Definition bigDivide (A B C : Z) (rounding : Rounding)
    : result num_error (bool * option Z) :=
  if negb ((0 <=? A) && (0 <=? B) && (0 <? C)) then Err AssertFailed else
  res_bind (bigDivideUnsigned (u64 A) (u64 B) (u64 C) rounding) (fun p =>
    let '(res, r2) := p in
    if res then Ok (r2 <=? INT64_MAX, Some (to_i64 r2)) else Ok (false, None)).

Definition bigDivideOrThrow (A B C : Z) (rounding : Rounding)
    : result num_error Z :=
  res_bind (bigDivide A B C rounding) (fun p =>
    match p with
    | (true, Some r) => Ok r
    | _ => Err BigDivideOverflow
    end).

Definition bigDivideUnsigned128 (a B : Z) (rounding : Rounding)
    : result num_error (bool * option Z) :=
  if B =? 0 then Err AssertFailed else
  if match rounding with ROUND_UP => UINT128_MAX - (B - 1) <? a | ROUND_DOWN => false end
  then Ok (false, None) else
  let x := match rounding with
           | ROUND_DOWN => a / B
           | ROUND_UP => u128 (u128 (a + B) - 1) / B
           end in
  Ok (x <=? UINT64_MAX, Some (u64 x)).

Definition bigDivide128 (a B : Z) (rounding : Rounding)
    : result num_error (bool * option Z) :=
  if negb (0 <? B) then Err AssertFailed else
  res_bind (bigDivideUnsigned128 a (u64 B) rounding) (fun p =>
    match p with
    | (true, Some r2) => Ok (r2 <=? INT64_MAX, Some (to_i64 r2))
    | _ => Ok (false, None)
    end).

Definition bigDivideOrThrow128 (a B : Z) (rounding : Rounding)
    : result num_error Z :=
  res_bind (bigDivide128 a B rounding) (fun p =>
    match p with
    | (true, Some r) => Ok r
    | _ => Err BigDivideOverflow
    end).

Definition bigMultiplyUnsigned (a b : Z) : Z := u128 (a * b).

Definition bigMultiply (a b : Z) : result num_error Z :=
  if negb ((0 <=? a) && (0 <=? b)) then Err AssertFailed
  else Ok (bigMultiplyUnsigned (u64 a) (u64 b)).

(** [uint128_bits] of [lib/util/uint128_t.h]: the position of the highest bit
    set, counted from one, through the count of leading zeros of each half. *)
Definition clzll (x : Z) : Z := 63 - Z.log2 x.

Definition uint128_bits (x : Z) : Z :=
  let hi := u64 (Z.shiftr x 64) in
  if negb (hi =? 0) then 128 - clzll hi
  else let lo := u64 x in if negb (lo =? 0) then 64 - clzll lo else 0.

(** One round of the modified Babylonian method: the body of the loop. *)
Definition sqrt_round (R x : Z) : result num_error Z :=
  res_bind (bigDivideUnsigned128 R x ROUND_UP) (fun p =>
    match p with
    | (true, Some y) =>
        if UINT64_MAX - x <=? y
        then Ok (u64 (u128 (u128 (1 + x) + y) / 2))
        else Ok (u64 (u64 (x + y) + 1) / 2)
    | _ => Err SquareRootOverflow
    end).

Fixpoint sqrt_loop (fuel : nat) (R x prev : Z) : result num_error Z :=
  if x =? prev then Ok x else
  match fuel with
  | O => Err SquareRootFuel
  | S fuel' => res_bind (sqrt_round R x) (fun x' => sqrt_loop fuel' R x' x)
  end.

(** [66] rounds are enough: each round at least halves the distance to the
    root, which starts below [2^64]. *)
Definition sqrt_fuel : nat := 66.

Definition bigSquareRootCeil (a b : Z) : result num_error Z :=
  if (a =? 0) || (b =? 0) then Ok 0 else
  let R := u128 (bigMultiplyUnsigned a b - 1) in
  let numBits := uint128_bits R / 2 + 1 in
  let x := if 64 <=? numBits then UINT64_MAX else Z.shiftl 1 numBits in
  sqrt_loop sqrt_fuel R x 0.

Definition bigSquareRoot (a b : Z) : result num_error Z :=
  res_bind (bigSquareRootCeil a b) (fun sqrtCeil =>
    if bigMultiplyUnsigned sqrtCeil sqrtCeil <=? bigMultiplyUnsigned a b
    then Ok sqrtCeil else Ok (u64 (sqrtCeil - 1))).

Definition hugeDivide (a B C : Z) (rounding : Rounding)
    : result num_error (bool * option Z) :=
  if negb (0 <=? a) then Err AssertFailed else
  if C =? 0 then Err AssertFailed else
  if negb (C <=? u128 (INT32_MAX * INT64_MAX)) then Err AssertFailed else
  let Q := B / C in
  let R := B mod C in
  if INT64_MAX <? Q then Ok (false, None) else
  let A := u32 a in
  let res := match rounding with
             | ROUND_DOWN => u128 (u128 (A * Q) + u128 (A * R) / C)
             | ROUND_UP =>
                 u128 (u128 (A * Q) + u128 (u128 (u128 (A * R) + C) - 1) / C)
             end in
  if res <=? INT64_MAX then Ok (true, Some (to_i64 (u64 res))) else Ok (false, None).

(** ** Reference: exact quotients of mathematical integers *)

Definition cdiv (a c : Z) : Z := (a + c - 1) / c.

Definition quotient (rounding : Rounding) (a c : Z) : Z :=
  match rounding with ROUND_DOWN => a / c | ROUND_UP => cdiv a c end.

(** ** Lemmas *)

(** [cdiv] is the least integer at or above the rational quotient. *)
Lemma cdiv_spec (a c : Z) : 0 < c -> c * (cdiv a c - 1) < a <= c * cdiv a c.
Proof.
  intros Hc. unfold cdiv.
  pose proof (Z.div_mod (a + c - 1) c ltac:(lia)).
  pose proof (Z.mod_pos_bound (a + c - 1) c Hc). nia.
Qed.

Lemma cdiv_le (a c k : Z) : 0 < c -> a <= c * k -> cdiv a c <= k.
Proof. intros Hc Hk. pose proof (cdiv_spec a c Hc). nia. Qed.

Lemma quotient_nonneg r (a c : Z) : 0 <= a -> 0 < c -> 0 <= quotient r a c.
Proof.
  intros Ha Hc. destruct r; simpl; [by apply Z.div_pos|].
  unfold cdiv. apply Z.div_pos; lia.
Qed.

Lemma mul_u64_u128 (a b : Z) : is_u64 a -> is_u64 b -> u128 (a * b) = a * b.
Proof. intros. apply u128_id. unfold_ints. nia. Qed.

Lemma bigDivideUnsigned_quotient (A B C : Z) r :
  is_u64 A -> is_u64 B -> is_u64 C -> 0 < C ->
  bigDivideUnsigned A B C r =
    Ok (quotient r (A * B) C <=? UINT64_MAX, u64 (quotient r (A * B) C)).
Proof.
  intros HA HB HC Hpos. unfold bigDivideUnsigned.
  apply Z.ltb_lt in Hpos as ->. simpl. rewrite mul_u64_u128 by done.
  destruct r; simpl; [done|]. unfold cdiv.
  rewrite (u128_id (A * B + C)) by (unfold_ints; nia).
  destruct (decide (C = 0)) as [->|HC0].
  { by rewrite !Zdiv_0_r. }
  by rewrite (u128_id (A * B + C - 1)) by (unfold_ints; nia).
Qed.

Lemma to_i64_small (x : Z) : 0 <= x <= INT64_MAX -> to_i64 x = x.
Proof.
  intros Hx. unfold to_i64. rewrite u64_id by (unfold_ints; lia).
  destruct (Z.leb_spec x INT64_MAX); [done|lia].
Qed.

Lemma bigDivideUnsigned128_up (a B : Z) :
  is_u128 a -> is_u64 B -> 0 < B -> cdiv a B <= UINT64_MAX ->
  bigDivideUnsigned128 a B ROUND_UP = Ok (true, Some (cdiv a B)).
Proof.
  intros Ha HB Hpos Hq. unfold bigDivideUnsigned128.
  destruct (Z.eqb_spec B 0); [lia|]. pose proof (cdiv_spec a B Hpos).
  destruct (Z.ltb_spec (UINT128_MAX - (B - 1)) a) as [Hlt|Hle].
  { exfalso. unfold_ints. nia. }
  assert (0 <= cdiv a B) by (apply (quotient_nonneg ROUND_UP); unfold_ints; lia).
  assert (u128 (u128 (a + B) - 1) / B = cdiv a B) as Hx.
  { destruct (decide (a + B = UINT128_MAX + 1)) as [E|E].
    - rewrite E. unfold cdiv. rewrite E. done.
    - rewrite (u128_id (a + B)) by (unfold_ints; lia).
      rewrite u128_id by (unfold_ints; lia). done. }
  rewrite Hx, u64_id by (unfold_ints; lia).
  by apply Z.leb_le in Hq as ->.
Qed.

(** *** The Babylonian iteration *)

(** For [x] at or above [s = ceil(sqrt(R+1))], the next iterate, in exact
    arithmetic. *)
Definition next_iter (R x : Z) : Z := (x + cdiv R x + 1) / 2.

Section babylonian.
(** [s] is the ceiling of the square root of [R + 1]. *)
Context (R s : Z) (Hs : 1 <= s) (Hlow : (s - 1) * (s - 1) <= R) (Hhigh : R < s * s).

Lemma cdiv_above (x : Z) : s < x -> cdiv R x <= s - 1.
Proof. intros Hx. apply cdiv_le; [lia|]. nia. Qed.

Lemma cdiv_at : cdiv R s <= s.
Proof. apply cdiv_le; [lia|]. nia. Qed.

(** The iterates never go below the root. *)
Lemma next_iter_ge (x : Z) : s <= x -> s <= next_iter R x.
Proof.
  intros Hx. unfold next_iter. pose proof (cdiv_spec R x ltac:(lia)) as [_ Hc].
  apply Z.div_le_lower_bound; [lia|].
  enough (2 * s - 1 <= x + cdiv R x) by lia.
  destruct (Z.le_gt_cases (2 * s - 1) (x + cdiv R x)) as [|Hlt]; [done|].
  exfalso. assert (x + cdiv R x <= 2 * (s - 1)) as Hle by lia.
  assert (x * (x + cdiv R x) <= x * (2 * (s - 1))) by nia.
  assert ((x - (s - 1)) * (x - (s - 1)) <= 0) by nia. nia.
Qed.

(** Above the root each round at least halves the distance to it. *)
Lemma next_iter_halves (x : Z) : s < x -> next_iter R x - s <= (x - s) / 2.
Proof.
  intros Hx. unfold next_iter. pose proof (cdiv_above x Hx).
  assert (x + cdiv R x + 1 <= x - s + s * 2) as Hle by lia.
  assert ((x + cdiv R x + 1) / 2 <= (x - s + s * 2) / 2)
    by (apply Z.div_le_mono; lia).
  rewrite Z.div_add in * by lia. lia.
Qed.

Lemma next_iter_fix : next_iter R s = s.
Proof.
  pose proof (next_iter_ge s ltac:(lia)). pose proof cdiv_at.
  enough (next_iter R s <= s) by lia. unfold next_iter.
  assert ((s + cdiv R s + 1) / 2 <= (1 + s * 2) / 2) as Hle
    by (apply Z.div_le_mono; lia).
  rewrite Z.div_add in Hle by lia. change (1 / 2) with 0 in Hle. lia.
Qed.

(** The body of the loop computes the next iterate, without overflow. *)
Lemma sqrt_round_next (x : Z) :
  is_u128 R -> s <= x <= UINT64_MAX -> sqrt_round R x = Ok (next_iter R x).
Proof.
  intros HR Hx. unfold sqrt_round.
  assert (cdiv R x <= x) as Hcx.
  { destruct (decide (x = s)) as [->|]; [apply cdiv_at|].
    pose proof (cdiv_above x ltac:(lia)). lia. }
  assert (0 <= cdiv R x)
    by (apply (quotient_nonneg ROUND_UP); unfold_ints; lia).
  rewrite bigDivideUnsigned128_up by (unfold_ints; lia). simpl.
  unfold next_iter.
  assert (0 <= (x + cdiv R x + 1) / 2 <= UINT64_MAX).
  { split; [apply Z.div_pos; lia|].
    transitivity ((1 + UINT64_MAX * 2) / 2);
      [apply Z.div_le_mono; unfold_ints; lia | done]. }
  destruct (Z.leb_spec (UINT64_MAX - x) (cdiv R x)) as [Hov|Hno].
  - rewrite (u128_id (1 + x)) by (unfold_ints; lia).
    rewrite u128_id by (unfold_ints; lia).
    replace (1 + x + cdiv R x) with (x + cdiv R x + 1) by lia.
    by rewrite u64_id by done.
  - rewrite (u64_id (x + cdiv R x)) by (unfold_ints; lia).
    by rewrite u64_id by (unfold_ints; lia).
Qed.

(** From a start whose distance to the root is below [2^k], [k + 2] rounds
    reach the root and notice it. *)
Lemma sqrt_loop_converges (k fuel : nat) (x prev : Z) :
  is_u128 R -> s <= x <= UINT64_MAX -> x - s < 2 ^ Z.of_nat k ->
  (k + 1 <= fuel)%nat -> (x = prev -> x = s) ->
  sqrt_loop fuel R x prev = Ok s.
Proof.
  intros HR. revert fuel x prev.
  assert (forall fuel prev, (1 <= fuel)%nat -> s <= UINT64_MAX ->
    sqrt_loop fuel R s prev = Ok s) as Hroot.
  { intros [|fuel] prev Hf Hmax; [lia|]. simpl.
    destruct (Z.eqb_spec s prev); [done|].
    rewrite sqrt_round_next by (done || lia). simpl. rewrite next_iter_fix.
    destruct fuel; simpl; by rewrite Z.eqb_refl. }
  induction k as [|k IH]; intros fuel x prev Hx Hd Hf Hprev.
  { change (2 ^ Z.of_nat 0) with 1 in Hd. replace x with s by lia.
    apply Hroot; lia. }
  destruct (decide (x = s)) as [->|Hne]; [apply Hroot; lia|].
  destruct fuel as [|fuel]; [lia|]. simpl.
  destruct (Z.eqb_spec x prev) as [E|_]; [by apply Hprev in E|].
  rewrite sqrt_round_next by done. simpl.
  pose proof (next_iter_ge x ltac:(lia)).
  pose proof (next_iter_halves x ltac:(lia)).
  assert ((x - s) / 2 < x - s) by (apply Z.div_lt; lia).
  apply IH; [lia| |lia|lia].
  rewrite Nat2Z.inj_succ, Z.pow_succ_r in Hd by lia.
  assert ((x - s) / 2 < 2 ^ Z.of_nat k) by (apply Z.div_lt_upper_bound; lia).
  lia.
Qed.
End babylonian.

Lemma uint128_bits_log2 (x : Z) :
  0 < x <= UINT128_MAX -> uint128_bits x = Z.log2 x + 1.
Proof.
  intros Hx. unfold uint128_bits, clzll.
  assert (0 <= Z.shiftr x 64 <= UINT64_MAX) as Hsh.
  { rewrite Z.shiftr_div_pow2 by lia. split; [apply Z.div_pos; lia|].
    apply Z.lt_succ_r, Z.div_lt_upper_bound; [lia|]. unfold_ints. lia. }
  rewrite (u64_id (Z.shiftr x 64)) by done.
  destruct (Z.eqb_spec (Z.shiftr x 64) 0) as [E|E]; cbn [negb].
  - rewrite Z.shiftr_div_pow2 in E by lia. apply Z.div_small_iff in E as [E|E]; [|lia..].
    rewrite u64_id by (unfold_ints; lia).
    destruct (Z.eqb_spec x 0); cbn [negb]; lia.
  - rewrite Z.log2_shiftr by lia.
    assert (64 <= Z.log2 x); [|lia].
    apply Z.log2_le_pow2; [lia|].
    destruct (Z.le_gt_cases (2 ^ 64) x) as [|Hlt]; [done|]. exfalso. apply E.
    rewrite Z.shiftr_div_pow2 by lia. apply Z.div_small. lia.
Qed.

(** The seed is at or above the root. *)
Lemma sqrt_seed_ge (R : Z) :
  0 <= R -> R < UINT64_MAX * UINT64_MAX ->
  let n := uint128_bits R / 2 + 1 in
  let x := if 64 <=? n then UINT64_MAX else Z.shiftl 1 n in
  Z.sqrt R + 1 <= x <= UINT64_MAX.
Proof.
  intros HR0 HRm n x. subst x.
  destruct (Z.leb_spec 64 n) as [Hn|Hn].
  { split; [|lia]. enough (Z.sqrt R < UINT64_MAX) by lia.
    apply Z.sqrt_lt_square; unfold_ints; lia. }
  destruct (decide (R = 0)) as [->|HR].
  { subst n. split; vm_compute; congruence. }
  subst n. rewrite uint128_bits_log2 in * by (unfold_ints; lia).
  set (m := (Z.log2 R + 1) / 2 + 1) in *.
  pose proof (Z.log2_nonneg R).
  assert (0 <= (Z.log2 R + 1) / 2) by (apply Z.div_pos; lia).
  rewrite Z.shiftl_1_l. split.
  - enough (Z.sqrt R < 2 ^ m) by lia.
    apply Z.sqrt_lt_square; [lia|apply Z.pow_nonneg; lia|].
    rewrite <- Z.pow_add_r by lia.
    pose proof (Z.log2_spec R ltac:(lia)) as [_ Hup].
    eapply Z.lt_le_trans; [exact Hup|]. apply Z.pow_le_mono_r; [lia|].
    pose proof (Z.div_mod (Z.log2 R + 1) 2 ltac:(lia)).
    pose proof (Z.mod_pos_bound (Z.log2 R + 1) 2 ltac:(lia)). lia.
  - transitivity (2 ^ 63); [apply Z.pow_le_mono_r; lia|]. unfold_ints. lia.
Qed.

Lemma bigSquareRootCeil_spec (a b : Z) :
  is_u64 a -> is_u64 b -> 0 < a * b ->
  bigSquareRootCeil a b = Ok (Z.sqrt (a * b - 1) + 1).
Proof.
  intros Ha Hb Hab. unfold bigSquareRootCeil, bigMultiplyUnsigned.
  replace ((a =? 0) || (b =? 0)) with false
    by (symmetry; apply orb_false_iff; rewrite !Z.eqb_neq; nia).
  rewrite mul_u64_u128 by done. rewrite u128_id by (unfold_ints; nia).
  set (R := a * b - 1).
  assert (0 <= R < UINT64_MAX * UINT64_MAX) by (unfold R; unfold_ints; nia).
  pose proof (sqrt_seed_ge R ltac:(lia) ltac:(lia)) as Hseed. cbv zeta in Hseed.
  pose proof (Z.sqrt_spec R ltac:(lia)) as Hsq. unfold Z.succ in Hsq.
  pose proof (Z.sqrt_nonneg R).
  apply sqrt_loop_converges with (k := 64%nat).
  - lia.
  - replace (Z.sqrt R + 1 - 1) with (Z.sqrt R) by lia. lia.
  - lia.
  - unfold_ints; nia.
  - exact Hseed.
  - change (2 ^ Z.of_nat 64) with (UINT64_MAX + 1). lia.
  - unfold sqrt_fuel. lia.
  - lia.
Qed.

(** ** Properties *)

(** [bigDivideOrThrow] is exact: on non-negative operands and a positive
    divisor it returns the mathematical quotient of the 128-bit product,
    rounded as asked, when that fits [int64_t]; it throws the overflow error
    exactly when it does not, and the assertion error exactly on the other
    operands. *)
Lemma bigDivideOrThrow_exact (A B C : Z) (r : Rounding) :
  is_i64 A -> is_i64 B -> is_i64 C ->
  bigDivideOrThrow A B C r =
    if (0 <=? A) && (0 <=? B) && (0 <? C) then
      if quotient r (A * B) C <=? INT64_MAX then Ok (quotient r (A * B) C)
      else Err BigDivideOverflow
    else Err AssertFailed.
Proof.
  intros HA HB HC. unfold bigDivideOrThrow, bigDivide.
  destruct ((0 <=? A) && (0 <=? B) && (0 <? C)) eqn:E; simpl; [|done]. bprop.
  rewrite !u64_id by (unfold_ints; lia).
  rewrite bigDivideUnsigned_quotient by (unfold_ints; lia). simpl.
  pose proof (quotient_nonneg r (A * B) C ltac:(nia) ltac:(lia)) as Hq.
  set (q := quotient r (A * B) C) in *.
  destruct (Z.leb_spec q UINT64_MAX) as [Hle|Hgt]; simpl.
  - rewrite u64_id by (unfold_ints; lia).
    destruct (Z.leb_spec q INT64_MAX); [|done]. by rewrite to_i64_small by lia.
  - destruct (Z.leb_spec q INT64_MAX); [unfold_ints; lia|done].
Qed.

(** [bigSquareRoot] returns, for every pair of 64-bit operands, the
    integer square root of their 128-bit product: the loop terminates, none
    of its error exits is taken, and the result fits 64 bits. *)
Theorem bigSquareRoot_correct (a b : Z) :
  is_u64 a -> is_u64 b ->
  exists x, bigSquareRoot a b = Ok x /\ is_u64 x /\
    x * x <= a * b < (x + 1) * (x + 1).
Proof.
  intros Ha Hb. unfold bigSquareRoot.
  destruct (decide (a * b = 0)) as [E|E].
  { assert (bigSquareRootCeil a b = Ok 0) as ->.
    { unfold bigSquareRootCeil. destruct (Z.eqb_spec a 0); [done|].
      destruct (Z.eqb_spec b 0); [done|]. nia. }
    exists 0. unfold bigMultiplyUnsigned. simpl. rewrite E.
    split; [done|]. unfold_ints. lia. }
  assert (0 < a * b) by (unfold_ints; nia).
  rewrite bigSquareRootCeil_spec by done. simpl.
  pose proof (Z.sqrt_spec (a * b - 1) ltac:(lia)) as Hsq. unfold Z.succ in Hsq.
  pose proof (Z.sqrt_nonneg (a * b - 1)). set (q := Z.sqrt (a * b - 1)) in *.
  assert (q + 1 <= UINT64_MAX) by (unfold_ints; nia).
  unfold bigMultiplyUnsigned. rewrite !mul_u64_u128 by (done || unfold_ints; lia).
  destruct (Z.leb_spec ((q + 1) * (q + 1)) (a * b)) as [Hle|Hgt].
  - exists (q + 1). split; [done|]. split; [unfold_ints; lia|]. nia.
  - exists q. replace (q + 1 - 1) with q by lia. rewrite u64_id by (unfold_ints; lia).
    split; [done|]. split; [unfold_ints; lia|]. lia.
Qed.

(** [hugeDivide] computes [a * B / C] exactly for a 128-bit [B], even
    though the product may need more than 128 bits: under the code's own
    assertions the flag says whether the quotient fits [int64_t] and, when it
    does, the value written is that quotient.  (The test on [B / C] is the
    early return; it is implied by the other one unless [a = 0].) *)
Lemma hugeDivide_exact (a B C : Z) (r : Rounding) :
  0 <= a <= INT32_MAX -> is_u128 B -> 0 < C <= INT32_MAX * INT64_MAX ->
  hugeDivide a B C r =
    if (B / C <=? INT64_MAX) && (quotient r (a * B) C <=? INT64_MAX)
    then Ok (true, Some (quotient r (a * B) C)) else Ok (false, None).
Proof.
  intros Ha HB HC. unfold hugeDivide.
  destruct (Z.leb_spec 0 a); [|lia]. destruct (Z.eqb_spec C 0); [lia|].
  rewrite u128_id by (unfold_ints; lia).
  destruct (Z.leb_spec C (INT32_MAX * INT64_MAX)); [|lia]. cbn [negb].
  rewrite Z.ltb_antisym.
  destruct (Z.leb_spec (B / C) INT64_MAX) as [HQ|HQ]; simpl; [|done].
  pose proof (Z.div_mod B C ltac:(lia)) as Hdm.
  pose proof (Z.mod_pos_bound B C ltac:(lia)) as Hmod.
  assert (0 <= B / C) by (apply Z.div_pos; unfold_ints; lia).
  rewrite u32_id by (unfold_ints; lia).
  set (Q := B / C) in *. set (M := B mod C) in *.
  assert (0 <= a * Q <= INT32_MAX * INT64_MAX) by (unfold_ints; nia).
  assert (0 <= a * M <= INT32_MAX * (INT32_MAX * INT64_MAX)) by (unfold_ints; nia).
  rewrite !(u128_id (a * Q)), !(u128_id (a * M)) by (unfold_ints; lia).
  assert (quotient r (a * B) C = a * Q + quotient r (a * M) C) as Hquo.
  { rewrite Hdm. destruct r; simpl; unfold cdiv.
    - replace (a * (C * Q + M)) with (a * M + (a * Q) * C) by ring.
      rewrite Z.div_add by lia. lia.
    - replace (a * (C * Q + M) + C - 1) with (a * M + C - 1 + (a * Q) * C) by ring.
      rewrite Z.div_add by lia. lia. }
  rewrite Hquo.
  assert (0 <= quotient r (a * M) C <= INT32_MAX * (INT32_MAX * INT64_MAX)).
  { split; [apply quotient_nonneg; lia|]. destruct r; simpl.
    - apply Z.div_le_upper_bound; nia.
    - apply cdiv_le; nia. }
  assert (match r with
          | ROUND_DOWN => u128 (a * Q + a * M / C)
          | ROUND_UP => u128 (a * Q + u128 (u128 (a * M + C) - 1) / C)
          end = a * Q + quotient r (a * M) C) as ->.
  { destruct r; simpl quotient in *.
    - apply u128_id. unfold_ints; lia.
    - rewrite (u128_id (a * M + C)), (u128_id (a * M + C - 1)) by (unfold_ints; lia).
      apply u128_id. unfold cdiv in *. unfold_ints; lia. }
  set (q := a * Q + quotient r (a * M) C) in *.
  destruct (Z.leb_spec q INT64_MAX); [|done].
  rewrite u64_id by (unfold_ints; lia). by rewrite to_i64_small by lia.
Qed.

(** What a caller sees of [bigDivide]: the flag says whether the quotient fits
    [int64_t]; the value is meaningful only when it does. *)
Lemma bigDivide_flag (A B C : Z) (r : Rounding) :
  0 <= A <= INT64_MAX -> 0 <= B <= INT64_MAX -> 0 < C <= INT64_MAX ->
  exists v, bigDivide A B C r = Ok (quotient r (A * B) C <=? INT64_MAX, v) /\
    (quotient r (A * B) C <= INT64_MAX -> v = Some (quotient r (A * B) C)).
Proof.
  intros HA HB HC. unfold bigDivide.
  replace ((0 <=? A) && (0 <=? B) && (0 <? C)) with true
    by (symmetry; rewrite !andb_true_iff, !Z.leb_le, Z.ltb_lt; lia).
  cbn [negb]. rewrite !u64_id by (unfold_ints; lia).
  rewrite bigDivideUnsigned_quotient by (unfold_ints; lia). simpl.
  pose proof (quotient_nonneg r (A * B) C ltac:(nia) ltac:(lia)).
  set (q := quotient r (A * B) C) in *.
  destruct (Z.leb_spec q UINT64_MAX) as [Hle|Hgt].
  - rewrite u64_id by (unfold_ints; lia). eexists. split; [done|].
    intros. by rewrite to_i64_small by lia.
  - exists None. destruct (Z.leb_spec q INT64_MAX); [unfold_ints; lia|].
    split; [done|lia].
Qed.

(** [bigDivideOrThrow128] is exact when the quotient fits [int64_t]. *)
Lemma bigDivideOrThrow128_down (a B : Z) :
  is_u128 a -> 0 < B <= INT64_MAX -> a / B <= INT64_MAX ->
  bigDivideOrThrow128 a B ROUND_DOWN = Ok (a / B).
Proof.
  intros Ha HB Hq. unfold bigDivideOrThrow128, bigDivide128.
  destruct (Z.ltb_spec 0 B); [|lia]. cbn [negb].
  rewrite (u64_id B) by (unfold_ints; lia). unfold bigDivideUnsigned128.
  destruct (Z.eqb_spec B 0); [lia|]. cbn.
  assert (0 <= a / B) by (apply Z.div_pos; unfold_ints; lia).
  destruct (Z.leb_spec (a / B) UINT64_MAX); [|unfold_ints; lia].
  rewrite u64_id by (unfold_ints; lia).
  destruct (Z.leb_spec (a / B) INT64_MAX); [|lia]. by rewrite to_i64_small by lia.
Qed.

Lemma bigDivideOrThrow_fits (A B C : Z) (r : Rounding) :
  0 <= A <= INT64_MAX -> 0 <= B <= INT64_MAX -> 0 < C <= INT64_MAX ->
  quotient r (A * B) C <= INT64_MAX ->
  bigDivideOrThrow A B C r = Ok (quotient r (A * B) C).
Proof.
  intros HA HB HC Hq. rewrite bigDivideOrThrow_exact by (unfold_ints; lia).
  replace ((0 <=? A) && (0 <=? B) && (0 <? C)) with true
    by (symmetry; rewrite !andb_true_iff, !Z.leb_le, Z.ltb_lt; lia).
  by apply Z.leb_le in Hq as ->.
Qed.

Lemma bigMultiply_exact (a b : Z) :
  0 <= a <= INT64_MAX -> 0 <= b <= INT64_MAX -> bigMultiply a b = Ok (a * b).
Proof.
  intros Ha Hb. unfold bigMultiply, bigMultiplyUnsigned.
  replace ((0 <=? a) && (0 <=? b)) with true
    by (symmetry; rewrite andb_true_iff, !Z.leb_le; lia).
  cbn [negb]. rewrite !u64_id by (unfold_ints; lia).
  by rewrite mul_u64_u128 by (unfold_ints; lia).
Qed.
