(* ===== verification/OfferExchange.v ===== *)
(** * The arithmetic of the exchange

    The part of [src/transactions/OfferExchange.cpp] that looks at numbers
    only: what two crossing offers exchange ([exchangeV2], [exchangeV3],
    [exchangeV10]), how an offer is adjusted to what its owner can honour
    ([adjustOffer]), and what a liquidity pool pays ([exchangeWithPool]).
    "Wheat" is what the offer in the book sells, "sheep" what it buys; a price
    [n / d] is in sheep per wheat.  Exceptions and failed assertions are the
    errors [exch_error]. *)
From stdpp Require Import base tactics numbers.
From Stdlib Require Import ZArith Lia Bool.
From S2P Require Import Prelude Numeric.

Open Scope Z_scope.
Open Scope kin_scope.

(** ** Data *)

Record Price := { price_n : Z; price_d : Z }.

#[global] Instance Price_eq_dec : EqDecision Price.
Proof. solve_decision. Defined.

Inductive RoundingType :=
  | NORMAL
  | PATH_PAYMENT_STRICT_SEND
  | PATH_PAYMENT_STRICT_RECEIVE.

Inductive ExchangeResultType := ER_NORMAL | REDUCED_TO_ZERO | BOGUS.

Record ExchangeResult := {
  x_numWheatReceived : Z;
  x_numSheepSend : Z;
  x_reduced : bool;
}.

Definition exchange_type (r : ExchangeResult) : ExchangeResultType :=
  if negb (x_numWheatReceived r =? 0) && negb (x_numSheepSend r =? 0)
  then ER_NORMAL
  else if x_reduced r then REDUCED_TO_ZERO else BOGUS.

Record ExchangeResultV10 := {
  numWheatReceived : Z;
  numSheepSend : Z;
  wheatStays : bool;
}.

Inductive exch_error :=
  | ExchNumeric (e : num_error)
  | WheatReceiveOutOfBounds
  | SheepSendOutOfBounds
  | FavoredSheepWhenWheatStays
  | FavoredWheatWhenSheepStays
  | ExceededPriceErrorBound
  | InvalidAmountOfSheepSent
  | PoolFeeOutOfRange
  | NonPositiveReserve
  | StrictSendWithBoundedReceive
  | StrictReceiveWithBoundedSend
  | ReceivedTooMuchFromPool
  | FromPoolNegative
  | ToPoolNegative
  | InvalidRoundingType.

Notation exch := (result exch_error).

(** A call of the arithmetic library. *)
Definition num {A : Type} (m : result num_error A) : exch A := res_err ExchNumeric m.

(** The value of an out-parameter after a call that may not have written it. *)
Definition written (old : Z) (new : option Z) : Z :=
  match new with Some v => v | None => old end.

(** ** Crossing two offers *)

Definition exchangeV2 (wheatReceived : Z) (price : Price)
    (maxWheatReceive maxSheepSend : Z) : exch ExchangeResult :=
  let reduced := maxWheatReceive <? wheatReceived in
  let wheatReceived := Z.min wheatReceived maxWheatReceive in
  let? (fits, v) :=
    num (bigDivide wheatReceived (price_n price) (price_d price) ROUND_DOWN) in
  let numSheepSend := if negb fits then INT64_MAX else written 0 v in
  let reduced := reduced || (maxSheepSend <? numSheepSend) in
  let numSheepSend := Z.min numSheepSend maxSheepSend in
  let? numWheatReceived :=
    num (bigDivideOrThrow numSheepSend (price_d price) (price_n price) ROUND_DOWN) in
  Ok {| x_numWheatReceived := numWheatReceived; x_numSheepSend := numSheepSend;
        x_reduced := reduced |}.

Definition exchangeV3 (wheatReceived : Z) (price : Price)
    (maxWheatReceive maxSheepSend : Z) : exch ExchangeResult :=
  let reduced := maxWheatReceive <? wheatReceived in
  let numWheatReceived := Z.min wheatReceived maxWheatReceive in
  let? (fits, v) :=
    num (bigDivide numWheatReceived (price_n price) (price_d price) ROUND_UP) in
  let reduced := if negb fits then true else reduced in
  let numSheepSend := if negb fits then INT64_MAX else written 0 v in
  let reduced := reduced || (maxSheepSend <? numSheepSend) in
  let numSheepSend := Z.min numSheepSend maxSheepSend in
  let? (fits', v') :=
    num (bigDivide numSheepSend (price_d price) (price_n price) ROUND_DOWN) in
  let newWheatReceived := if negb fits' then INT64_MAX else written 0 v' in
  Ok {| x_numWheatReceived := Z.min numWheatReceived newWheatReceived;
        x_numSheepSend := numSheepSend; x_reduced := reduced |}.

Definition checkPriceErrorBound (price : Price) (wheatReceive sheepSend : Z)
    (canFavorWheat : bool) : exch bool :=
  let errN := 100 * price_n price in
  let errD := 100 * price_d price in
  let? lhs := num (bigMultiply errN wheatReceive) in
  let? rhs := num (bigMultiply errD sheepSend) in
  if canFavorWheat && (lhs <? rhs) then Ok true else
  let absDiff := if rhs <? lhs then u128 (lhs - rhs) else u128 (rhs - lhs) in
  let? cap := num (bigMultiply (price_n price) wheatReceive) in
  Ok (absDiff <=? cap).

Definition calculateOfferValue (priceN priceD maxSend maxReceive : Z) : exch Z :=
  let? sendValue := num (bigMultiply maxSend priceN) in
  let? receiveValue := num (bigMultiply maxReceive priceD) in
  Ok (Z.min sendValue receiveValue).

Definition exchangeV10WithoutPriceErrorThresholds (price : Price)
    (maxWheatSend maxWheatReceive maxSheepSend maxSheepReceive : Z)
    (round : RoundingType) : exch ExchangeResultV10 :=
  let n := price_n price in
  let d := price_d price in
  let? wheatValue := calculateOfferValue n d maxWheatSend maxSheepReceive in
  let? sheepValue := calculateOfferValue d n maxSheepSend maxWheatReceive in
  let stays := sheepValue <? wheatValue in
  let? (wheatReceive, sheepSend) :=
    (if stays then
       match round with
       | PATH_PAYMENT_STRICT_SEND =>
           let? w := num (bigDivideOrThrow128 sheepValue n ROUND_DOWN) in
           Ok (w, Z.min maxSheepSend maxSheepReceive)
       | _ =>
           if (d <? n) || (match round with
                           | PATH_PAYMENT_STRICT_RECEIVE => true
                           | _ => false
                           end)
           then
             let? w := num (bigDivideOrThrow128 sheepValue n ROUND_DOWN) in
             let? s := num (bigDivideOrThrow w n d ROUND_UP) in
             Ok (w, s)
           else
             let? s := num (bigDivideOrThrow128 sheepValue d ROUND_DOWN) in
             let? w := num (bigDivideOrThrow s d n ROUND_DOWN) in
             Ok (w, s)
       end
     else
       if d <? n then
         let? w := num (bigDivideOrThrow128 wheatValue n ROUND_DOWN) in
         let? s := num (bigDivideOrThrow w n d ROUND_DOWN) in
         Ok (w, s)
       else
         let? s := num (bigDivideOrThrow128 wheatValue d ROUND_DOWN) in
         let? w := num (bigDivideOrThrow s d n ROUND_UP) in
         Ok (w, s)) in
  if (wheatReceive <? 0) || (Z.min maxWheatReceive maxWheatSend <? wheatReceive)
  then Err WheatReceiveOutOfBounds
  else if (sheepSend <? 0) || (Z.min maxSheepReceive maxSheepSend <? sheepSend)
  then Err SheepSendOutOfBounds
  else Ok {| numWheatReceived := wheatReceive; numSheepSend := sheepSend;
             wheatStays := stays |}.

Definition applyPriceErrorThresholds (price : Price) (wheatReceive sheepSend : Z)
    (stays : bool) (round : RoundingType) : exch ExchangeResultV10 :=
  let? (wheatReceive, sheepSend) :=
    (if (0 <? wheatReceive) && (0 <? sheepSend) then
       let? wheatReceiveValue := num (bigMultiply wheatReceive (price_n price)) in
       let? sheepSendValue := num (bigMultiply sheepSend (price_d price)) in
       if stays && (sheepSendValue <? wheatReceiveValue)
       then Err FavoredSheepWhenWheatStays
       else if negb stays && (wheatReceiveValue <? sheepSendValue)
       then Err FavoredWheatWhenSheepStays
       else
         match round with
         | NORMAL =>
             let? ok := checkPriceErrorBound price wheatReceive sheepSend false in
             if negb ok then Ok (0, 0) else Ok (wheatReceive, sheepSend)
         | _ =>
             let? ok := checkPriceErrorBound price wheatReceive sheepSend true in
             if negb ok then Err ExceededPriceErrorBound
             else Ok (wheatReceive, sheepSend)
         end
     else
       match round with
       | PATH_PAYMENT_STRICT_SEND =>
           if sheepSend =? 0 then Err InvalidAmountOfSheepSent
           else Ok (wheatReceive, sheepSend)
       | _ => Ok (0, 0)
       end) in
  Ok {| numWheatReceived := wheatReceive; numSheepSend := sheepSend;
        wheatStays := stays |}.

Definition exchangeV10 (price : Price)
    (maxWheatSend maxWheatReceive maxSheepSend maxSheepReceive : Z)
    (round : RoundingType) : exch ExchangeResultV10 :=
  let? before :=
    exchangeV10WithoutPriceErrorThresholds price maxWheatSend maxWheatReceive
      maxSheepSend maxSheepReceive round in
  applyPriceErrorThresholds price (numWheatReceived before) (numSheepSend before)
    (wheatStays before) round.

(** The amount an offer is reduced to. *)
Definition adjustOffer (price : Price) (maxWheatSend maxSheepReceive : Z) : exch Z :=
  let? res := exchangeV10 price maxWheatSend INT64_MAX INT64_MAX maxSheepReceive
                NORMAL in
  Ok (numWheatReceived res).

(** ** Exchange with a constant-product pool *)

Definition maxBps : Z := 10000.

(** The out-parameters [toPool] and [fromPool] are passed in and returned. *)
Definition exchangeWithPool (reservesToPool maxSendToPool toPool reservesFromPool
    maxReceiveFromPool fromPool feeBps : Z) (round : RoundingType)
    : exch (bool * Z * Z) :=
  if (feeBps <? 0) || (maxBps <=? feeBps) then Err PoolFeeOutOfRange else
  if (reservesToPool <=? 0) || (reservesFromPool <=? 0) then Err NonPositiveReserve else
  match round with
  | PATH_PAYMENT_STRICT_SEND =>
      if negb (maxReceiveFromPool =? INT64_MAX)
      then Err StrictSendWithBoundedReceive else
      let maxReceiveFromPool := reservesFromPool in
      if INT64_MAX - reservesToPool <? maxSendToPool
      then Ok (false, toPool, fromPool) else
      let toPool := maxSendToPool in
      let? d1 := num (bigMultiply maxBps reservesToPool) in
      let? d2 := num (bigMultiply (maxBps - feeBps) toPool) in
      let denominator := u128 (d1 + d2) in
      let? b := num (bigMultiply reservesFromPool toPool) in
      let? (res, v) := num (hugeDivide (maxBps - feeBps) b denominator ROUND_DOWN) in
      let fromPool := written fromPool v in
      if res && (maxReceiveFromPool <? fromPool) then Err ReceivedTooMuchFromPool
      else if res && (fromPool <? 0) then Err FromPoolNegative
      else Ok (res && negb (fromPool =? 0), toPool, fromPool)
  | PATH_PAYMENT_STRICT_RECEIVE =>
      if negb (maxSendToPool =? INT64_MAX)
      then Err StrictReceiveWithBoundedSend else
      let maxSendToPool := INT64_MAX - reservesToPool in
      if reservesFromPool <=? maxReceiveFromPool
      then Ok (false, toPool, fromPool) else
      let fromPool := maxReceiveFromPool in
      let? b := num (bigMultiply reservesToPool fromPool) in
      let? c := num (bigMultiply (reservesFromPool - fromPool) (maxBps - feeBps)) in
      let? (res, v) := num (hugeDivide maxBps b c ROUND_UP) in
      let toPool := written toPool v in
      if res && (toPool <? 0) then Err ToPoolNegative
      else Ok (res && (toPool <=? maxSendToPool), toPool, fromPool)
  | NORMAL => Err InvalidRoundingType
  end.

(** ** Lemmas *)

(** What the operations that create offers check: prices are positive
    [int32]s, limits non-negative [int64]s. *)
Definition valid_price (p : Price) : Prop :=
  0 < price_n p <= INT32_MAX /\ 0 < price_d p <= INT32_MAX.

Definition amount (x : Z) : Prop := 0 <= x <= INT64_MAX.

Lemma floor_spec (a c : Z) : 0 < c -> c * (a / c) <= a < c * (a / c + 1).
Proof.
  intros Hc. pose proof (Z.div_mod a c ltac:(lia)).
  pose proof (Z.mod_pos_bound a c Hc). lia.
Qed.

Lemma floor_le (a c k : Z) : 0 < c -> a <= c * k -> a / c <= k.
Proof. intros Hc Ha. pose proof (floor_spec a c Hc). nia. Qed.

Lemma cdiv_0 (a c : Z) : 0 < c -> 0 <= a -> (cdiv a c = 0 <-> a = 0).
Proof. intros Hc Ha. pose proof (cdiv_spec a c Hc). split; intros; nia. Qed.

Lemma floor_pos (a c : Z) : 0 < c -> 0 <= a -> 0 <= a / c.
Proof. intros. by apply Z.div_pos. Qed.

Lemma cdiv_pos (a c : Z) : 0 < c -> 0 <= a -> 0 <= cdiv a c.
Proof. intros. by apply (quotient_nonneg ROUND_UP). Qed.

(** Dividing by the smaller of two factors does not lose anything to zero. *)
Lemma floor_scale_0 (a b c : Z) : 0 < c <= b -> 0 <= a -> (a * b / c = 0 <-> a = 0).
Proof.
  intros Hc Ha. pose proof (floor_spec (a * b) c ltac:(lia)). split; intros E.
  - rewrite E in *. nia.
  - rewrite E in *. nia.
Qed.

Section exchange.
Context (p : Price) (Hp : valid_price p).
Local Notation n := (price_n p).
Local Notation d := (price_d p).

Lemma calculateOfferValue_eq (a b x y : Z) :
  amount a -> amount b -> 0 < x <= INT32_MAX -> 0 < y <= INT32_MAX ->
  calculateOfferValue x y a b = Ok (Z.min (a * x) (b * y)).
Proof.
  intros. unfold calculateOfferValue, num, amount in *.
  by rewrite !bigMultiply_exact by (unfold_ints; lia).
Qed.

(** The party whose offer stays in the book is the one rounding favours. *)
Definition favours_stayer (stays : bool) (w s : Z) : Prop :=
  if stays then w * n <= s * d else s * d <= w * n.

(** What the exchange computes before thresholds, for a given value of the
    smaller offer: the reference the code is compared with. *)
Definition raw_amounts (wv sv mss msr : Z) (round : RoundingType) : Z * Z :=
  if sv <? wv then
    match round with
    | PATH_PAYMENT_STRICT_SEND => (sv / n, Z.min mss msr)
    | PATH_PAYMENT_STRICT_RECEIVE => (sv / n, cdiv (sv / n * n) d)
    | NORMAL => if d <? n then (sv / n, cdiv (sv / n * n) d)
                else (sv / d * d / n, sv / d)
    end
  else if d <? n then (wv / n, wv / n * n / d)
  else (cdiv (wv / d * d) n, wv / d).

(** Bounds of a quotient of the exchange by the limits of both parties. *)
Local Ltac qbound :=
  split; [(apply cdiv_pos || apply floor_pos); nia
         |apply Z.min_glb; (apply cdiv_le || apply floor_le); lia].

(** The specification of the amounts exchanged, before thresholds. *)
Definition amounts_ok (mws mwr mss msr wv sv w s : Z) (round : RoundingType) : Prop :=
  0 <= w <= Z.min mwr mws /\ 0 <= s <= Z.min msr mss /\
  favours_stayer (sv <? wv) w s /\
  (round <> PATH_PAYMENT_STRICT_SEND \/ wv <= sv -> (w = 0 <-> s = 0)).

Section limits.
Context (mws mwr mss msr wv sv : Z).
Context (Hws : amount mws) (Hwr : amount mwr) (Hss : amount mss) (Hsr : amount msr).
Context (Hwv : 0 <= wv /\ wv <= mws * n /\ wv <= msr * d).
Context (Hsv : 0 <= sv /\ sv <= mss * d /\ sv <= mwr * n).

(** The offer in the book is the larger one. *)
Lemma raw_amounts_stay (round : RoundingType) :
  sv < wv ->
  let '(w, s) := raw_amounts wv sv mss msr round in
  amounts_ok mws mwr mss msr wv sv w s round.
Proof.
  destruct Hp as [Hn Hd]. unfold amount in *. intros Hlt.
  unfold raw_amounts, amounts_ok, favours_stayer.
  destruct (Z.ltb_spec sv wv); [|lia].
  assert (0 <= sv / n <= Z.min mwr mws) by qbound.
  pose proof (floor_spec sv n ltac:(lia)).
  assert (0 <= cdiv (sv / n * n) d <= Z.min msr mss) by qbound.
  pose proof (cdiv_spec (sv / n * n) d ltac:(lia)).
  assert (cdiv (sv / n * n) d = 0 <-> sv / n = 0) by (rewrite cdiv_0; nia).
  destruct round; [destruct (Z.ltb_spec d n)| |].
  - repeat split; lia || tauto.
  - pose proof (floor_spec sv d ltac:(lia)).
    pose proof (floor_spec (sv / d * d) n ltac:(lia)).
    assert (0 <= sv / d <= Z.min msr mss) by qbound.
    assert (0 <= sv / d * d / n <= Z.min mwr mws) by qbound.
    pose proof (floor_scale_0 (sv / d) d n ltac:(lia) ltac:(lia)).
    repeat split; lia || tauto.
  - assert (sv / n * n <= Z.min mss msr * d)
      by (rewrite <- Z.mul_min_distr_nonneg_r by lia; lia).
    split; [lia|]. split; [lia|]. split; [lia|]. intros [|]; [congruence|lia].
  - repeat split; lia || tauto.
Qed.

(** The offer in the book is the smaller one, or they are equal. *)
Lemma raw_amounts_leave (round : RoundingType) :
  wv <= sv ->
  let '(w, s) := raw_amounts wv sv mss msr round in
  amounts_ok mws mwr mss msr wv sv w s round.
Proof.
  destruct Hp as [Hn Hd]. unfold amount in *. intros Hle.
  unfold raw_amounts, amounts_ok, favours_stayer.
  destruct (Z.ltb_spec sv wv); [lia|]. destruct (Z.ltb_spec d n).
  - pose proof (floor_spec wv n ltac:(lia)).
    pose proof (floor_spec (wv / n * n) d ltac:(lia)).
    assert (0 <= wv / n <= Z.min mwr mws) by qbound.
    assert (0 <= wv / n * n / d <= Z.min msr mss) by qbound.
    pose proof (floor_scale_0 (wv / n) n d ltac:(lia) ltac:(lia)).
    repeat split; lia || tauto.
  - pose proof (floor_spec wv d ltac:(lia)).
    pose proof (cdiv_spec (wv / d * d) n ltac:(lia)).
    assert (0 <= wv / d <= Z.min msr mss) by qbound.
    assert (0 <= cdiv (wv / d * d) n <= Z.min mwr mws) by qbound.
    assert (cdiv (wv / d * d) n = 0 <-> wv / d = 0) by (rewrite cdiv_0; nia).
    repeat split; lia || tauto.
Qed.
End limits.

Lemma raw_amounts_ok (mws mwr mss msr : Z) (round : RoundingType) :
  amount mws -> amount mwr -> amount mss -> amount msr ->
  let wv := Z.min (mws * n) (msr * d) in
  let sv := Z.min (mss * d) (mwr * n) in
  let '(w, s) := raw_amounts wv sv mss msr round in
  amounts_ok mws mwr mss msr wv sv w s round.
Proof.
  destruct Hp as [Hn Hd]. intros H1 H2 H3 H4 wv sv.
  assert (0 <= wv /\ wv <= mws * n /\ wv <= msr * d)
    by (subst wv; unfold amount in *; nia).
  assert (0 <= sv /\ sv <= mss * d /\ sv <= mwr * n)
    by (subst sv; unfold amount in *; nia).
  destruct (Z.lt_ge_cases sv wv);
    [by apply raw_amounts_stay | by apply raw_amounts_leave].
Qed.

(** The code computes the reference amounts, and none of its checks fails. *)
Lemma exchange_raw (mws mwr mss msr : Z) (round : RoundingType) :
  amount mws -> amount mwr -> amount mss -> amount msr ->
  let wv := Z.min (mws * n) (msr * d) in
  let sv := Z.min (mss * d) (mwr * n) in
  exchangeV10WithoutPriceErrorThresholds p mws mwr mss msr round =
    Ok {| numWheatReceived := fst (raw_amounts wv sv mss msr round);
          numSheepSend := snd (raw_amounts wv sv mss msr round);
          wheatStays := sv <? wv |}.
Proof.
  intros H1 H2 H3 H4. cbv zeta.
  pose proof (raw_amounts_ok mws mwr mss msr round H1 H2 H3 H4) as Hok.
  cbv zeta in Hok. destruct Hp as [Hn Hd].
  unfold exchangeV10WithoutPriceErrorThresholds.
  rewrite !calculateOfferValue_eq by done. cbn [res_bind].
  set (wv := Z.min (mws * n) (msr * d)) in *. set (sv := Z.min (mss * d) (mwr * n)) in *.
  assert (is_u128 wv) by (subst wv; unfold amount in *; unfold_ints; nia).
  assert (is_u128 sv) by (subst sv; unfold amount in *; unfold_ints; nia).
  destruct (raw_amounts wv sv mss msr round) as [w s] eqn:E. cbn [fst snd].
  destruct Hok as (Hw & Hs & _). unfold amount in *.
  assert (forall r : exch (Z * Z), r = Ok (w, s) ->
    res_bind r (fun '(wheatReceive, sheepSend) =>
      if (wheatReceive <? 0) || (Z.min mwr mws <? wheatReceive)
      then Err WheatReceiveOutOfBounds
      else if (sheepSend <? 0) || (Z.min msr mss <? sheepSend)
      then Err SheepSendOutOfBounds
      else Ok {| numWheatReceived := wheatReceive; numSheepSend := sheepSend;
                 wheatStays := sv <? wv |}) =
    Ok {| numWheatReceived := w; numSheepSend := s; wheatStays := sv <? wv |}) as Hend.
  { intros r ->. cbn. destruct (Z.ltb_spec w 0); [lia|].
    destruct (Z.ltb_spec (Z.min mwr mws) w); [lia|].
    destruct (Z.ltb_spec s 0); [lia|].
    by destruct (Z.ltb_spec (Z.min msr mss) s); [lia|]. }
  apply Hend. clear Hend. unfold raw_amounts in E.
  destruct (sv <? wv); [destruct round|]; cbn [orb]; rewrite ?orb_false_r, ?orb_true_r;
    try destruct (d <? n); simplify_eq; unfold num;
    rewrite ?bigDivideOrThrow128_down by (unfold_ints; lia); cbn [res_err res_bind];
    rewrite ?bigDivideOrThrow_fits by (cbn [quotient]; unfold_ints; lia); done.
Qed.

(** The effective price [s / w] is within one percent of the price. *)
Definition within_1_percent (w s : Z) : bool :=
  100 * Z.abs (n * w - d * s) <=? n * w.

Lemma checkPriceErrorBound_eq (w s : Z) (favor : bool) :
  amount w -> amount s ->
  checkPriceErrorBound p w s favor =
    Ok (favor && (n * w <? d * s) || within_1_percent w s).
Proof.
  destruct Hp as [Hn Hd]. unfold amount. intros Hw Hs.
  unfold checkPriceErrorBound, num.
  rewrite !bigMultiply_exact by (unfold_ints; lia). cbn [res_err res_bind].
  replace (100 * n * w <? 100 * d * s) with (n * w <? d * s)
    by (destruct (Z.ltb_spec (n * w) (d * s)), (Z.ltb_spec (100 * n * w) (100 * d * s)); lia).
  destruct favor, (Z.ltb_spec (n * w) (d * s)); cbn [andb orb]; try done;
    f_equal; unfold within_1_percent;
    (destruct (Z.ltb_spec (100 * d * s) (100 * n * w));
     [rewrite u128_id by (unfold_ints; nia) | rewrite u128_id by (unfold_ints; nia)]);
    f_equal; lia.
Qed.

(** What the thresholds make of amounts that favour the offer that stays. *)
Lemma applyPriceErrorThresholds_eq (w s : Z) (st : bool) (round : RoundingType) :
  amount w -> amount s -> favours_stayer st w s ->
  applyPriceErrorThresholds p w s st round =
    if (0 <? w) && (0 <? s) then
      match round with
      | NORMAL =>
          if within_1_percent w s
          then Ok {| numWheatReceived := w; numSheepSend := s; wheatStays := st |}
          else Ok {| numWheatReceived := 0; numSheepSend := 0; wheatStays := st |}
      | _ =>
          if (n * w <? d * s) || within_1_percent w s
          then Ok {| numWheatReceived := w; numSheepSend := s; wheatStays := st |}
          else Err ExceededPriceErrorBound
      end
    else
      match round with
      | PATH_PAYMENT_STRICT_SEND =>
          if s =? 0 then Err InvalidAmountOfSheepSent
          else Ok {| numWheatReceived := w; numSheepSend := s; wheatStays := st |}
      | _ => Ok {| numWheatReceived := 0; numSheepSend := 0; wheatStays := st |}
      end.
Proof.
  destruct Hp as [Hn Hd]. intros Hw Hs Hf. unfold applyPriceErrorThresholds.
  destruct ((0 <? w) && (0 <? s)); [|by destruct round, (s =? 0)].
  unfold num. rewrite !bigMultiply_exact by (unfold amount in *; unfold_ints; lia).
  cbn [res_err res_bind]. rewrite !checkPriceErrorBound_eq by done. cbn [res_bind andb orb].
  replace (st && (s * d <? w * n)) with false
    by (destruct st; cbn in *; [destruct (Z.ltb_spec (s * d) (w * n))|]; lia || done).
  replace (negb st && (w * n <? s * d)) with false
    by (destruct st; cbn in *; [|destruct (Z.ltb_spec (w * n) (s * d))]; lia || done).
  destruct round; [by destruct (within_1_percent w s)|..];
    by destruct ((n * w <? d * s) || within_1_percent w s).
Qed.

(** The amounts exchanged when the offer in the book is the smaller one. *)
Definition leave_amounts (wv : Z) : Z * Z :=
  if d <? n then (wv / n, wv / n * n / d) else (cdiv (wv / d * d) n, wv / d).

Lemma raw_amounts_leave_eq (wv sv mss msr : Z) (round : RoundingType) :
  wv <= sv -> raw_amounts wv sv mss msr round = leave_amounts wv.
Proof. intros. unfold raw_amounts. by destruct (Z.ltb_spec sv wv); [lia|]. Qed.

(** An offer reduced to what it would exchange exchanges the same again. *)
Lemma leave_amounts_stable (wv msr : Z) :
  0 <= wv -> wv <= msr * d ->
  leave_amounts (Z.min (fst (leave_amounts wv) * n) (msr * d)) = leave_amounts wv.
Proof.
  destruct Hp as [Hn Hd]. intros H0 Hle. unfold leave_amounts.
  destruct (Z.ltb_spec d n); cbn [fst].
  - pose proof (floor_spec wv n ltac:(lia)). rewrite Z.min_l by lia.
    by rewrite Z.div_mul by lia.
  - pose proof (floor_spec wv d ltac:(lia)).
    pose proof (cdiv_spec (wv / d * d) n ltac:(lia)).
    assert (wv / d <= msr) by (apply floor_le; lia).
    replace (Z.min (cdiv (wv / d * d) n * n) (msr * d) / d) with (wv / d); [done|].
    apply Z.div_unique with (r := Z.min (cdiv (wv / d * d) n * n) (msr * d) - d * (wv / d));
      nia.
Qed.

(** [adjustOffer] crosses the offer with a buyer without limits: the offer
    leaves the book. *)
Lemma adjustOffer_eq (mws msr : Z) :
  amount mws -> amount msr ->
  let '(w, s) := leave_amounts (Z.min (mws * n) (msr * d)) in
  adjustOffer p mws msr = Ok (if within_1_percent w s then w else 0) /\
  0 <= w <= mws /\ 0 <= s <= msr /\ s * d <= w * n /\ (w = 0 <-> s = 0).
Proof.
  intros H1 H2.
  assert (amount INT64_MAX) as H3 by (unfold amount; unfold_ints; lia).
  pose proof (exchange_raw mws INT64_MAX INT64_MAX msr NORMAL H1 H3 H3 H2) as Hex.
  pose proof (raw_amounts_ok mws INT64_MAX INT64_MAX msr NORMAL H1 H3 H3 H2) as Hok.
  cbv zeta in Hex, Hok.
  assert (Z.min (mws * n) (msr * d) <= Z.min (INT64_MAX * d) (INT64_MAX * n)) as Hle
    by (destruct Hp; unfold amount in *; unfold_ints; nia).
  rewrite !raw_amounts_leave_eq in Hex, Hok by done.
  destruct (leave_amounts (Z.min (mws * n) (msr * d))) as [w s].
  destruct Hok as (Hw & Hs & Hf & H0). cbn [fst snd] in Hex.
  unfold favours_stayer in Hf.
  destruct (Z.ltb_spec (Z.min (INT64_MAX * d) (INT64_MAX * n)) (Z.min (mws * n) (msr * d)));
    [lia|].
  unfold amount in *. split; [|repeat split; (lia || tauto)].
  unfold adjustOffer, exchangeV10. rewrite Hex. cbn [res_bind numWheatReceived numSheepSend].
  rewrite applyPriceErrorThresholds_eq by (unfold amount, favours_stayer; cbn; lia).
  destruct (within_1_percent w s) eqn:E; destruct (Z.ltb_spec 0 w), (Z.ltb_spec 0 s);
    cbn; f_equal; lia.
Qed.

(** The offer in the book is the larger one: the thresholds never object, and
    a path payment reaches its goal. *)
Lemma exchange_stays_ok (mws mwr mss msr wv sv : Z) (round : RoundingType) :
  amount mws -> amount mwr -> amount mss -> amount msr ->
  0 < mwr -> 0 < mss ->
  wv <= msr * d -> sv = Z.min (mss * d) (mwr * n) -> sv < wv ->
  (let '(w, s) := raw_amounts wv sv mss msr round in
   amounts_ok mws mwr mss msr wv sv w s round) ->
  exists r,
    applyPriceErrorThresholds p (fst (raw_amounts wv sv mss msr round))
      (snd (raw_amounts wv sv mss msr round)) true round = Ok r /\
    let w := numWheatReceived r in
    let s := numSheepSend r in
    0 <= w <= Z.min mwr mws /\ 0 <= s <= Z.min msr mss /\
    favours_stayer (wheatStays r) w s /\
    if wheatStays r then
      match round with
      | NORMAL => True
      | PATH_PAYMENT_STRICT_SEND =>
          0 < s /\ (w = mwr \/ s = mss /\ mss * d < (w + 1) * n)
      | PATH_PAYMENT_STRICT_RECEIVE =>
          mwr * n <= mss * d -> w = mwr /\ d * (s - 1) < mwr * n
      end
    else w = mws.
Proof.
  destruct Hp as [Hn Hd]. intros H1 H2 H3 H4 Pwr Pss Hwv Hsv Hlt Hok.
  destruct (raw_amounts wv sv mss msr round) as [w s] eqn:E. cbn [fst snd].
  destruct Hok as (Hw & Hs & Hf & _). unfold amount in *.
  destruct (Z.ltb_spec sv wv) as [_|]; [|lia].
  assert (0 <= sv) by (subst sv; lia).
  assert ((n * w <? d * s) || within_1_percent w s = true) as Hb.
  { unfold within_1_percent. cbn in Hf. destruct (Z.ltb_spec (n * w) (d * s)); [done|].
    apply Z.leb_le. nia. }
  rewrite applyPriceErrorThresholds_eq by (unfold amount; (done || lia)). rewrite Hb.
  unfold raw_amounts in E. destruct (Z.ltb_spec sv wv) as [_|]; [|lia].
  destruct round.
  - assert (favours_stayer true 0 0) by (cbn; lia).
    destruct ((0 <? w) && (0 <? s)); [destruct (within_1_percent w s)|];
      (eexists; split; [done|]); cbn; repeat split; (done || lia).
  - injection E as <- <-. assert (0 < msr) by nia.
    exists {| numWheatReceived := sv / n; numSheepSend := Z.min mss msr; wheatStays := true |}.
    split.
    + destruct (Z.ltb_spec 0 (sv / n)), (Z.ltb_spec 0 (Z.min mss msr)); cbn; try done; try lia.
      by destruct (Z.eqb_spec (Z.min mss msr) 0); [lia|].
    + cbn. split; [lia|]. split; [lia|]. split; [done|]. split; [lia|].
      pose proof (floor_spec sv n ltac:(lia)).
      destruct (Z.le_gt_cases (mwr * n) (mss * d)) as [Hc|Hc].
      * left. assert (sv = mwr * n) as -> by lia. by rewrite Z.div_mul by lia.
      * right. assert (mss < msr) by nia. lia.
  - injection E as Ew Es. rewrite Ew in Es.
    pose proof (cdiv_spec (w * n) d ltac:(lia)) as Hc. rewrite Es in Hc.
    assert (mwr * n <= mss * d -> w = mwr).
    { intros. rewrite <- Ew. replace sv with (mwr * n) by lia. by rewrite Z.div_mul by lia. }
    destruct (Z.ltb_spec 0 w), (Z.ltb_spec 0 s); cbn [andb]; eexists; (split; [done|]); cbn;
      repeat split; try done; try lia; intros; nia.
Qed.
End exchange.

(** *** The exchanges of protocols before version 10 *)

(** Both older exchanges succeed, respect the limits and favour the seller of
    wheat, the owner of the offer in the book. *)
Definition old_exchange_ok (p : Price) (wr mwr mss : Z) (r : ExchangeResult) : Prop :=
  0 <= x_numWheatReceived r <= Z.min wr mwr /\ 0 <= x_numSheepSend r <= mss /\
  x_numWheatReceived r * price_n p <= x_numSheepSend r * price_d p.

Section old_exchange.
Context (p : Price) (Hp : valid_price p) (wr mwr mss : Z).
Context (Hwr : amount wr) (Hmwr : amount mwr) (Hmss : amount mss).
Local Notation n := (price_n p).
Local Notation d := (price_d p).

(** A quotient that does not fit is replaced by [INT64_MAX]. *)
Lemma saturated (A B C : Z) (r : Rounding) :
  amount A -> 0 < B <= INT32_MAX -> 0 < C <= INT32_MAX ->
  exists fits v, bigDivide A B C r = Ok (fits, v) /\
    fits = (quotient r (A * B) C <=? INT64_MAX) /\
    (if negb fits then INT64_MAX else written 0 v) = Z.min (quotient r (A * B) C) INT64_MAX.
Proof.
  intros HA HB HC. unfold amount in *.
  destruct (bigDivide_flag A B C r) as (v & Hd & Hv); [unfold_ints; lia..|].
  do 2 eexists. split; [exact Hd|]. split; [done|].
  destruct (Z.leb_spec (quotient r (A * B) C) INT64_MAX); cbn [negb].
  - rewrite Hv by done. cbn. lia.
  - lia.
Qed.

Lemma exchangeV2_ok : exists r, exchangeV2 wr p mwr mss = Ok r /\ old_exchange_ok p wr mwr mss r.
Proof.
  destruct Hp as [Hn Hd]. unfold exchangeV2. unfold amount in *.
  destruct (saturated (Z.min wr mwr) n d ROUND_DOWN) as (fits & v & Hdiv & _ & Hval);
    [unfold amount; lia|lia|lia|].
  unfold num. rewrite Hdiv. cbn [res_err res_bind]. rewrite Hval. cbn [quotient].
  set (q := Z.min wr mwr * n / d) in *.
  assert (0 <= q) by (apply floor_pos; nia).
  pose proof (floor_spec (Z.min wr mwr * n) d ltac:(lia)) as Hq. fold q in Hq.
  set (s := Z.min (Z.min q INT64_MAX) mss).
  assert (0 <= s <= q /\ s <= mss) by lia.
  assert (s * d / n <= Z.min wr mwr) by (apply floor_le; nia).
  rewrite bigDivideOrThrow_fits by (cbn [quotient]; unfold_ints; lia). cbn [res_err res_bind].
  eexists. split; [done|]. unfold old_exchange_ok. cbn.
  pose proof (floor_spec (s * d) n ltac:(lia)).
  assert (0 <= s * d / n) by (apply floor_pos; nia). lia.
Qed.

Lemma exchangeV3_ok : exists r, exchangeV3 wr p mwr mss = Ok r /\ old_exchange_ok p wr mwr mss r.
Proof.
  destruct Hp as [Hn Hd]. unfold exchangeV3. unfold amount in *.
  destruct (saturated (Z.min wr mwr) n d ROUND_UP) as (fits & v & Hdiv & _ & Hval);
    [unfold amount; lia|lia|lia|].
  unfold num. rewrite Hdiv. cbn [res_err res_bind]. rewrite Hval. cbn [quotient].
  set (q := cdiv (Z.min wr mwr * n) d) in *.
  assert (0 <= q) by (apply cdiv_pos; nia).
  set (s := Z.min (Z.min q INT64_MAX) mss).
  assert (0 <= s <= mss) by lia.
  destruct (saturated s d n ROUND_DOWN) as (fits' & v' & Hdiv' & _ & Hval');
    [unfold amount; lia|lia|lia|].
  rewrite Hdiv'. cbn [res_err res_bind]. rewrite Hval'. cbn [quotient].
  eexists. split; [done|]. unfold old_exchange_ok. cbn.
  pose proof (floor_spec (s * d) n ltac:(lia)).
  assert (0 <= s * d / n) by (apply floor_pos; nia).
  split; [unfold_ints; lia|]. split; [lia|].
  assert (Z.min (Z.min wr mwr) (Z.min (s * d / n) INT64_MAX) <= s * d / n) by lia. nia.
Qed.
End old_exchange.

(** *** The pool *)

Lemma le_floor (a c k : Z) : 0 < c -> (k <= a / c <-> c * k <= a).
Proof. intros Hc. pose proof (floor_spec a c Hc). split; nia. Qed.

Lemma cdiv_le_iff (a c k : Z) : 0 < c -> (cdiv a c <= k <-> a <= c * k).
Proof. intros Hc. pose proof (cdiv_spec a c Hc). split; nia. Qed.

Lemma pool_send_best (X Y g x y : Z) :
  0 < X -> 0 < g -> 0 <= x ->
  (maxBps * X + g * x) * (Y - y) >= maxBps * X * Y <->
  y <= g * (Y * x) / (maxBps * X + g * x).
Proof. intros. unfold maxBps. rewrite le_floor by nia. lia. Qed.

Lemma pool_send_range (X Y g x : Z) :
  0 < X -> 0 < Y -> 0 < g -> 0 <= x ->
  0 <= g * (Y * x) / (maxBps * X + g * x) < Y.
Proof.
  intros. unfold maxBps. split; [apply floor_pos; nia|].
  apply Z.div_lt_upper_bound; nia.
Qed.

Lemma pool_receive_best (X Y g x y : Z) :
  0 < g -> y < Y ->
  (maxBps * X + g * x) * (Y - y) >= maxBps * X * Y <->
  cdiv (maxBps * (X * y)) ((Y - y) * g) <= x.
Proof. intros. unfold maxBps. rewrite cdiv_le_iff by nia. lia. Qed.

Section pool.
Context (X Y fee m tp0 fp0 : Z).
Context (HX : 0 < X <= INT64_MAX) (HY : 0 < Y <= INT64_MAX).
Context (Hfee : 0 <= fee < maxBps) (Hm : amount m).

Local Ltac pool_guards :=
  unfold exchangeWithPool;
  destruct (Z.ltb_spec fee 0); [lia|]; destruct (Z.leb_spec maxBps fee); [lia|];
  destruct (Z.leb_spec X 0); [lia|]; destruct (Z.leb_spec Y 0); [lia|];
  cbn [orb]; rewrite Z.eqb_refl; cbn [negb].

Local Ltac products :=
  unfold num; rewrite !bigMultiply_exact by (unfold maxBps, amount in *; unfold_ints; lia);
  cbn [res_err res_bind].

Lemma pool_send_eq :
  exchangeWithPool X m tp0 Y INT64_MAX fp0 fee PATH_PAYMENT_STRICT_SEND =
    if INT64_MAX - X <? m then Ok (false, tp0, fp0) else
    let y := (maxBps - fee) * (Y * m) / (maxBps * X + (maxBps - fee) * m) in
    Ok (negb (y =? 0), m, y).
Proof.
  pool_guards. destruct (Z.ltb_spec (INT64_MAX - X) m); [done|]. products.
  set (C := maxBps * X + (maxBps - fee) * m).
  assert (0 < C <= maxBps * INT64_MAX) by (subst C; unfold maxBps, amount in *; nia).
  rewrite (u128_id C) by (unfold maxBps in *; unfold_ints; lia).
  rewrite hugeDivide_exact by (unfold maxBps, amount in *; unfold_ints; nia).
  pose proof (pool_send_range X Y (maxBps - fee) m ltac:(lia) ltac:(lia) ltac:(lia)
    ltac:(unfold amount in *; lia)) as Hy.
  fold C in Hy. set (y := (maxBps - fee) * (Y * m) / C) in *.
  assert (Y * m / C <= y) as Hq.
  { apply Z.div_le_mono; [lia|]. unfold amount in *. nia. }
  destruct (Z.leb_spec (Y * m / C) INT64_MAX); [|lia].
  cbn [quotient]. fold y. destruct (Z.leb_spec y INT64_MAX); [|lia].
  cbn [andb res_err res_bind written].
  destruct (Z.ltb_spec Y y); [lia|]. destruct (Z.ltb_spec y 0); [lia|]. done.
Qed.

Lemma pool_receive_eq :
  if Y <=? m
  then exchangeWithPool X INT64_MAX tp0 Y m fp0 fee PATH_PAYMENT_STRICT_RECEIVE =
         Ok (false, tp0, fp0)
  else
    let x := cdiv (maxBps * (X * m)) ((Y - m) * (maxBps - fee)) in
    exists x', (x <= INT64_MAX - X -> x' = x) /\
      exchangeWithPool X INT64_MAX tp0 Y m fp0 fee PATH_PAYMENT_STRICT_RECEIVE =
        Ok (x <=? INT64_MAX - X, x', m).
Proof.
  pool_guards. destruct (Z.leb_spec Y m); [done|]. unfold amount in Hm. products.
  set (C := (Y - m) * (maxBps - fee)).
  assert (0 < C <= maxBps * INT64_MAX) by (subst C; unfold maxBps in *; nia).
  rewrite hugeDivide_exact by (unfold maxBps in *; unfold_ints; nia).
  assert (0 <= X * m) by nia. cbn [quotient].
  set (x := cdiv (maxBps * (X * m)) C).
  assert (0 <= x) by (apply cdiv_pos; unfold maxBps; lia).
  assert (X * m / C <= x).
  { subst x. pose proof (cdiv_spec (maxBps * (X * m)) C ltac:(lia)).
    apply floor_le; [lia|]. unfold maxBps in *. lia. }
  destruct (Z.leb_spec x INT64_MAX).
  - destruct (Z.leb_spec (X * m / C) INT64_MAX); [|lia].
    cbn [andb res_err res_bind written]. destruct (Z.ltb_spec x 0); [lia|].
    by exists x.
  - rewrite andb_false_r. cbn [andb res_err res_bind written]. exists tp0.
    destruct (Z.leb_spec x (INT64_MAX - X)); [lia|]. split; [lia|done].
Qed.
End pool.

(** ** Properties *)

(** C32. Crossing two offers under the normal rounding ([exchangeV10] with
    [NORMAL]) always succeeds: for a valid price and any limits no division
    overflows and no sanity check fails; what is exchanged respects the four
    limits; rounding favours the offer that stays in the book, by at most one
    percent of the price; nothing is given for nothing; the amounts are the
    reference amounts when those are within one percent, and zero otherwise. *)
Theorem exchangeV10_normal (p : Price) (mws mwr mss msr : Z) :
  valid_price p -> amount mws -> amount mwr -> amount mss -> amount msr ->
  let wv := Z.min (mws * price_n p) (msr * price_d p) in
  let sv := Z.min (mss * price_d p) (mwr * price_n p) in
  let '(w0, s0) := raw_amounts p wv sv mss msr NORMAL in
  exists w s,
    exchangeV10 p mws mwr mss msr NORMAL =
      Ok {| numWheatReceived := w; numSheepSend := s; wheatStays := sv <? wv |} /\
    0 <= w <= Z.min mwr mws /\ 0 <= s <= Z.min msr mss /\
    favours_stayer p (sv <? wv) w s /\
    100 * Z.abs (price_n p * w - price_d p * s) <= price_n p * w /\
    (w = 0 <-> s = 0) /\
    (w, s) = if within_1_percent p w0 s0 then (w0, s0) else (0, 0).
Proof.
  intros Hp H1 H2 H3 H4 wv sv.
  pose proof (exchange_raw p Hp mws mwr mss msr NORMAL H1 H2 H3 H4) as Hex.
  pose proof (raw_amounts_ok p Hp mws mwr mss msr NORMAL H1 H2 H3 H4) as Hok.
  cbv zeta in Hex, Hok. fold wv sv in Hex, Hok.
  destruct (raw_amounts p wv sv mss msr NORMAL) as [w s].
  destruct Hok as (Hw & Hs & Hf & H0). cbn [fst snd] in Hex.
  unfold exchangeV10. rewrite Hex. cbn [res_bind numWheatReceived numSheepSend wheatStays].
  unfold amount in *. rewrite applyPriceErrorThresholds_eq by (unfold amount; (done || lia)).
  destruct (within_1_percent p w s) eqn:E.
  - exists w, s. unfold within_1_percent in E. bprop.
    assert (w = 0 <-> s = 0) by (apply H0; by left).
    split; [|repeat split; (done || lia)].
    destruct (Z.ltb_spec 0 w), (Z.ltb_spec 0 s); cbn; try done;
      replace w with 0 by lia; replace s with 0 by lia; done.
  - exists 0, 0. split; [by destruct ((0 <? w) && (0 <? s))|].
    repeat split; try lia. unfold favours_stayer. destruct (sv <? wv); lia.
Qed.

Lemma exchangeV10_normal_witness :
  let p := {| price_n := 3; price_d := 2 |} in
  exists w s,
    exchangeV10 p 1000 101 500 1000 NORMAL =
      Ok {| numWheatReceived := w; numSheepSend := s; wheatStays := true |} /\
    w = 101 /\ s = 152.
Proof.
  pose proof (exchangeV10_normal {| price_n := 3; price_d := 2 |} 1000 101 500 1000
    ltac:(split; vm_compute; split; congruence)
    ltac:(split; vm_compute; congruence) ltac:(split; vm_compute; congruence)
    ltac:(split; vm_compute; congruence) ltac:(split; vm_compute; congruence)) as H.
  destruct H as (w & s & Heq & _ & _ & _ & _ & _ & Hws).
  exists w, s. split; [exact Heq|]. vm_compute in Hws. injection Hws as -> ->. done.
Defined.

(** Crossing an offer that has been adjusted and is not empty succeeds in
    every rounding mode, also in path payments, where an excessive rounding
    error would be an exception: the limits hold and rounding favours the offer
    that stays.  If the offer leaves the book it is taken whole.  If it stays,
    a strict-send payment sends something and either has received all it may
    or has sent everything, at the best price that does not favour the sender;
    a strict-receive payment whose sender can afford it receives exactly what
    it asked for, at the least cost. *)
Theorem exchangeV10_adjusted (p : Price) (mws mwr mss msr : Z) (round : RoundingType) :
  valid_price p -> amount mws -> amount mwr -> amount mss -> amount msr ->
  0 < mws -> 0 < mwr -> 0 < mss -> adjustOffer p mws msr = Ok mws ->
  exists r,
    exchangeV10 p mws mwr mss msr round = Ok r /\
    let w := numWheatReceived r in
    let s := numSheepSend r in
    0 <= w <= Z.min mwr mws /\ 0 <= s <= Z.min msr mss /\
    favours_stayer p (wheatStays r) w s /\
    if wheatStays r then
      match round with
      | NORMAL => True
      | PATH_PAYMENT_STRICT_SEND =>
          0 < s /\ (w = mwr \/ s = mss /\ mss * price_d p < (w + 1) * price_n p)
      | PATH_PAYMENT_STRICT_RECEIVE =>
          mwr * price_n p <= mss * price_d p ->
          w = mwr /\ price_d p * (s - 1) < mwr * price_n p
      end
    else w = mws.
Proof.
  intros Hp H1 H2 H3 H4 Pws Pwr Pss Hadj.
  pose proof (exchange_raw p Hp mws mwr mss msr round H1 H2 H3 H4) as Hex.
  pose proof (raw_amounts_ok p Hp mws mwr mss msr round H1 H2 H3 H4) as Hok.
  pose proof (adjustOffer_eq p Hp mws msr H1 H4) as Hle.
  cbv zeta in Hex, Hok.
  set (wv := Z.min (mws * price_n p) (msr * price_d p)) in *.
  set (sv := Z.min (mss * price_d p) (mwr * price_n p)) in *.
  unfold exchangeV10. rewrite Hex. cbn [res_bind numWheatReceived numSheepSend wheatStays].
  destruct (Z.ltb_spec sv wv) as [Hlt|Hge].
  - apply (exchange_stays_ok p Hp mws mwr mss msr wv sv round); (done || subst wv; lia).
  - rewrite raw_amounts_leave_eq in * by done.
    destruct (leave_amounts p wv) as [w s]. destruct Hle as (Hr & Hw & Hs & Hf & Hz).
    rewrite Hadj in Hr. cbn [fst snd] in *. unfold amount in *.
    assert (within_1_percent p w s = true /\ w = mws) as [Hin ->]
      by (destruct (within_1_percent p w s); simplify_eq; lia || done).
    destruct Hok as (? & ? & ? & _).
    rewrite applyPriceErrorThresholds_eq by (unfold amount; (done || lia)).
    destruct (Z.ltb_spec 0 mws); [|lia]. destruct (Z.ltb_spec 0 s); [|lia].
    cbn [andb]. rewrite Hin, orb_true_r.
    eexists. split; [by destruct round|]. done.
Qed.

Lemma exchangeV10_adjusted_witness :
  let p := {| price_n := 2; price_d := 3 |} in
  adjustOffer p 150 INT64_MAX = Ok 150 /\
  exists r, exchangeV10 p 150 101 INT64_MAX INT64_MAX PATH_PAYMENT_STRICT_RECEIVE = Ok r /\
    numWheatReceived r = 101.
Proof.
  assert (adjustOffer {| price_n := 2; price_d := 3 |} 150 INT64_MAX = Ok 150) as Hadj
    by (vm_compute; reflexivity).
  split; [exact Hadj|].
  destruct (exchangeV10_adjusted {| price_n := 2; price_d := 3 |} 150 101 INT64_MAX INT64_MAX
    PATH_PAYMENT_STRICT_RECEIVE
    ltac:(split; vm_compute; split; congruence)
    ltac:(split; vm_compute; congruence) ltac:(split; vm_compute; congruence)
    ltac:(split; vm_compute; congruence) ltac:(split; vm_compute; congruence)
    ltac:(lia) ltac:(lia) ltac:(vm_compute; reflexivity) Hadj) as (r & Hr & _).
  exists r. split; [exact Hr|]. vm_compute in Hr. injection Hr as <-. done.
Defined.

(** [adjustOffer] never fails, never enlarges an offer, leaves an amount
    whose price in sheep the owner can receive, and has no effect on an offer
    that it has already adjusted. *)
Theorem adjustOffer_idempotent (p : Price) (mws msr : Z) :
  valid_price p -> amount mws -> amount msr ->
  exists r, adjustOffer p mws msr = Ok r /\ 0 <= r <= mws /\
    r * price_n p / price_d p <= msr /\
    adjustOffer p r msr = Ok r.
Proof.
  intros Hp H1 H2. pose proof (adjustOffer_eq p Hp mws msr H1 H2) as Hadj.
  set (wv := Z.min (mws * price_n p) (msr * price_d p)) in *.
  assert (0 <= wv /\ wv <= msr * price_d p) as [? ?]
    by (destruct Hp; subst wv; unfold amount in *; nia).
  pose proof (leave_amounts_stable p Hp wv msr ltac:(done) ltac:(done)) as Hst.
  destruct (leave_amounts p wv) as [w s] eqn:E. cbn [fst] in Hst.
  destruct Hadj as (-> & Hw & Hs & Hf & _). eexists. split; [done|].
  destruct (within_1_percent p w s) eqn:Ew.
  - pose proof (adjustOffer_eq p Hp w msr ltac:(unfold amount in *; lia) H2) as Hadj.
    rewrite Hst in Hadj. destruct Hadj as (-> & _). rewrite Ew.
    split; [lia|]. split; [|done]. destruct Hp as [Hn Hd].
    unfold leave_amounts in E. destruct (Z.ltb_spec (price_d p) (price_n p)); simplify_eq.
    + pose proof (floor_spec wv (price_n p) ltac:(lia)).
      apply floor_le; lia.
    + pose proof (floor_spec wv (price_d p) ltac:(lia)).
      pose proof (cdiv_spec (wv / price_d p * price_d p) (price_n p) ltac:(lia)).
      enough (cdiv (wv / price_d p * price_d p) (price_n p) * price_n p / price_d p
              <= wv / price_d p) by lia.
      apply Z.lt_succ_r, Z.div_lt_upper_bound; lia.
  - split; [unfold amount in *; lia|]. destruct Hp as [Hn Hd].
    split; [rewrite Z.mul_0_l, Zdiv_0_l; unfold amount in *; lia|].
    pose proof (adjustOffer_eq p ltac:(by split) 0 msr ltac:(unfold amount; unfold_ints; lia) H2)
      as Hadj.
    clear E Hst. destruct (leave_amounts p _) as [w' s']. destruct Hadj as (-> & ? & _).
    destruct (within_1_percent p w' s'); f_equal; lia.
Qed.

(** C31. A pool never loses by a trade: for positive reserves, a fee below
    100% and the limits a path payment passes, [exchangeWithPool] takes none
    of its error exits; when it trades, the reserves stay positive and within
    [int64_t], and the product of the reserves, with the fee kept out of it,
    does not decrease.  A strict send is paid the most the pool can pay, a
    strict receive costs the least the pool can accept, and the trade is
    refused exactly when no trade is possible. *)
Theorem exchangeWithPool_product (X Y mx tp0 fp0 fee : Z) (send : bool) :
  0 < X <= INT64_MAX -> 0 < Y <= INT64_MAX -> 0 <= fee < maxBps -> amount mx ->
  let ok x y :=
    (maxBps * X + (maxBps - fee) * x) * (Y - y) >= maxBps * X * Y in
  exists res x y,
    (if send
     then exchangeWithPool X mx tp0 Y INT64_MAX fp0 fee PATH_PAYMENT_STRICT_SEND
     else exchangeWithPool X INT64_MAX tp0 Y mx fp0 fee PATH_PAYMENT_STRICT_RECEIVE)
    = Ok (res, x, y) /\
    (res = true ->
       0 <= x /\ X + x <= INT64_MAX /\ 0 <= y < Y /\ ok x y /\
       (X + x) * (Y - y) >= X * Y) /\
    (if send
     then
       (res = true -> x = mx /\ 0 < y /\ forall y', y < y' <= Y -> ~ ok mx y') /\
       (res = false -> INT64_MAX < X + mx \/ forall y', 0 < y' <= Y -> ~ ok mx y')
     else
       (res = true -> y = mx /\ forall x', 0 <= x' < x -> ~ ok x' mx) /\
       (res = false -> Y <= mx \/ forall x', 0 <= x' <= INT64_MAX - X -> ~ ok x' mx)).
Proof.
  intros HX HY Hf Hm ok.
  assert (forall x y, 0 <= x -> 0 <= y < Y -> ok x y -> (X + x) * (Y - y) >= X * Y) as Hprod.
  { intros x y Hx Hy Hok. unfold ok, maxBps in *. nia. }
  destruct send.
  - pose proof (pool_send_eq X Y fee mx tp0 fp0 HX HY Hf Hm) as Heq.
    destruct (Z.ltb_spec (INT64_MAX - X) mx); [do 3 eexists; split; [exact Heq|];
      split; [done|]; split; [done|]; intros _; left; lia|].
    do 3 eexists. split; [exact Heq|].
    set (y := (maxBps - fee) * (Y * mx) / (maxBps * X + (maxBps - fee) * mx)) in *.
    assert (forall y', ok mx y' <-> y' <= y) as Hok
      by (intros; apply pool_send_best; unfold maxBps, amount in *; lia).
    assert (0 <= y < Y) by (apply pool_send_range; unfold maxBps, amount in *; lia).
    pose proof (proj2 (Hok y) ltac:(lia)) as Hoky. unfold amount in Hm.
    split; [intros _; repeat split; try lia; [done|apply Hprod; (done || lia)]|].
    split; intros Hr; bprop; [repeat split; try lia; intros; rewrite Hok; lia|].
    right. intros y' Hy'. rewrite Hok. lia.
  - pose proof (pool_receive_eq X Y fee mx tp0 fp0 HX HY Hf Hm) as Heq.
    destruct (Z.leb_spec Y mx); [do 3 eexists; split; [exact Heq|];
      split; [done|]; split; [done|]; intros _; left; lia|].
    destruct Heq as (x & Hx & Heq). do 3 eexists. split; [exact Heq|].
    unfold amount in Hm.
    set (q := cdiv (maxBps * (X * mx)) ((Y - mx) * (maxBps - fee))) in *.
    assert (forall x', ok x' mx <-> q <= x') as Hok
      by (intros; apply pool_receive_best; unfold maxBps in *; lia).
    assert (0 <= q) by (apply cdiv_pos; unfold maxBps in *; nia).
    split; [|split]; intros Hr; bprop.
    + rewrite Hx in * by lia. assert (ok q mx) by (apply Hok; lia).
      repeat split; try lia; [done|]. apply Hprod; (done || lia).
    + rewrite Hx in * by lia. split; [done|]. intros. rewrite Hok. lia.
    + right. intros x' Hx'. rewrite Hok. lia.
Qed.

Lemma exchangeWithPool_product_witness :
  exists res x y,
    exchangeWithPool 1000000 5000 0 2000000 INT64_MAX 0 30 PATH_PAYMENT_STRICT_SEND
      = Ok (res, x, y) /\ res = true /\ (1000000 + x) * (2000000 - y) >= 1000000 * 2000000.
Proof.
  destruct (exchangeWithPool_product 1000000 2000000 5000 0 0 30 true
    ltac:(unfold_ints; lia) ltac:(unfold_ints; lia) ltac:(unfold maxBps; lia)
    ltac:(unfold amount; unfold_ints; lia)) as (res & x & y & Heq & Hres & _).
  exists res, x, y. assert (res = true) as Hr by (vm_compute in Heq; injection Heq as <- <- <-; done).
  split; [exact Heq|]. split; [exact Hr|]. apply Hres. exact Hr.
Defined.
