(* ===== verification/LedgerEntries.v ===== *)
(** * The entries of the ledger

    The data of [src/xdr/Stellar-ledger-entries.x] and the part of
    [LedgerHeader] ([src/xdr/Stellar-ledger.x]) that the modelled operations
    read or write.  A versioned extension ([union switch (int v)] with a void
    case 0) is an option.  Keys of 32 bytes (accounts, pools, balances) are
    opaque numbers; only their equality and order matter. *)
From stdpp Require Import base tactics numbers countable strings list.
From Stdlib Require Import ZArith Lia Bool.
From S2P Require Import Prelude OfferExchange.

Open Scope Z_scope.

Notation AccountID := Z (only parsing).
Notation PoolID := Z (only parsing).
Notation Hash := Z (only parsing).

Inductive Asset :=
  | ASSET_TYPE_NATIVE
  | ASSET_TYPE_CREDIT_ALPHANUM4 (assetCode : Z) (issuer : AccountID)
  | ASSET_TYPE_CREDIT_ALPHANUM12 (assetCode : Z) (issuer : AccountID).

#[global] Instance Asset_eq_dec : EqDecision Asset.
Proof. solve_decision. Defined.

Definition is_native (a : Asset) : bool :=
  match a with ASSET_TYPE_NATIVE => true | _ => false end.

Inductive TrustLineAsset :=
  | TL_NATIVE
  | TL_ALPHANUM4 (assetCode : Z) (issuer : AccountID)
  | TL_ALPHANUM12 (assetCode : Z) (issuer : AccountID)
  | TL_POOL_SHARE (liquidityPoolID : PoolID).

#[global] Instance TrustLineAsset_eq_dec : EqDecision TrustLineAsset.
Proof. solve_decision. Defined.

Record Liabilities := { buying : Z; selling : Z }.

Record Signer := { signer_key : Z; signer_weight : Z }.

Notation SponsorshipDescriptor := (option AccountID) (only parsing).

Record AccountEntryExtensionV2 := {
  numSponsored : Z;
  numSponsoring : Z;
  signerSponsoringIDs : list SponsorshipDescriptor;
}.

Record AccountEntryExtensionV1 := {
  acc_liabilities : Liabilities;
  acc_ext_v2 : option AccountEntryExtensionV2;
}.

Record AccountEntry := {
  acc_accountID : AccountID;
  acc_balance : Z;
  acc_seqNum : Z;
  acc_numSubEntries : Z;
  acc_inflationDest : option AccountID;
  acc_flags : Z;
  acc_homeDomain : string;
  acc_thresholds : list Z;
  acc_signers : list Signer;
  acc_ext : option AccountEntryExtensionV1;
}.

Record TrustLineEntryExtensionV2 := { liquidityPoolUseCount : Z }.

Record TrustLineEntryExtensionV1 := {
  tl_liabilities : Liabilities;
  tl_ext_v2 : option TrustLineEntryExtensionV2;
}.

Record TrustLineEntry := {
  tl_accountID : AccountID;
  tl_asset : TrustLineAsset;
  tl_balance : Z;
  tl_limit : Z;
  tl_flags : Z;
  tl_ext : option TrustLineEntryExtensionV1;
}.

Record OfferEntry := {
  of_sellerID : AccountID;
  of_offerID : Z;
  of_selling : Asset;
  of_buying : Asset;
  of_amount : Z;
  of_price : Price;
  of_flags : Z;
}.

Record DataEntry := {
  da_accountID : AccountID;
  da_dataName : string;
  da_dataValue : list Z;
}.

Inductive ClaimPredicate :=
  | CLAIM_PREDICATE_UNCONDITIONAL
  | CLAIM_PREDICATE_AND (l : list ClaimPredicate)
  | CLAIM_PREDICATE_OR (l : list ClaimPredicate)
  | CLAIM_PREDICATE_NOT (p : option ClaimPredicate)
  | CLAIM_PREDICATE_BEFORE_ABSOLUTE_TIME (absBefore : Z)
  | CLAIM_PREDICATE_BEFORE_RELATIVE_TIME (relBefore : Z).

Record Claimant := { cl_destination : AccountID; cl_predicate : ClaimPredicate }.

Record ClaimableBalanceEntry := {
  cb_balanceID : Hash;
  cb_claimants : list Claimant;
  cb_asset : Asset;
  cb_amount : Z;
  cb_ext_flags : option Z;
}.

Record LiquidityPoolEntry := {
  lp_liquidityPoolID : PoolID;
  lp_assetA : Asset;
  lp_assetB : Asset;
  lp_fee : Z;
  lp_reserveA : Z;
  lp_reserveB : Z;
  lp_totalPoolShares : Z;
  lp_poolSharesTrustLineCount : Z;
}.

Inductive LedgerEntryData :=
  | ACCOUNT (a : AccountEntry)
  | TRUSTLINE (t : TrustLineEntry)
  | OFFER (o : OfferEntry)
  | DATA (d : DataEntry)
  | CLAIMABLE_BALANCE (c : ClaimableBalanceEntry)
  | LIQUIDITY_POOL (p : LiquidityPoolEntry).

Record LedgerEntry := {
  lastModifiedLedgerSeq : Z;
  le_data : LedgerEntryData;
  le_ext : option SponsorshipDescriptor;   (** [ext.v1().sponsoringID] *)
}.

Inductive LedgerKey :=
  | ACCOUNT_KEY (accountID : AccountID)
  | TRUSTLINE_KEY (accountID : AccountID) (asset : TrustLineAsset)
  | OFFER_KEY (sellerID : AccountID) (offerID : Z)
  | DATA_KEY (accountID : AccountID) (dataName : string)
  | CLAIMABLE_BALANCE_KEY (balanceID : Hash)
  | LIQUIDITY_POOL_KEY (liquidityPoolID : PoolID).

#[global] Instance LedgerKey_eq_dec : EqDecision LedgerKey.
Proof. solve_decision. Defined.

(** [LedgerEntryKey] of [ledger/LedgerHashUtils.h] / [util/types.cpp]. *)
Definition LedgerEntryKey (e : LedgerEntry) : LedgerKey :=
  match le_data e with
  | ACCOUNT a => ACCOUNT_KEY (acc_accountID a)
  | TRUSTLINE t => TRUSTLINE_KEY (tl_accountID t) (tl_asset t)
  | OFFER o => OFFER_KEY (of_sellerID o) (of_offerID o)
  | DATA d => DATA_KEY (da_accountID d) (da_dataName d)
  | CLAIMABLE_BALANCE c => CLAIMABLE_BALANCE_KEY (cb_balanceID c)
  | LIQUIDITY_POOL p => LIQUIDITY_POOL_KEY (lp_liquidityPoolID p)
  end.

Record LedgerHeader := {
  ledgerVersion : Z;
  scpValue_closeTime : Z;
  ledgerSeq : Z;
  totalCoins : Z;
  feePool : Z;
  inflationSeq : Z;
  idPool : Z;
  baseFee : Z;
  basePercentageFee : Z;
  maxFee : Z;
  baseReserve : Z;
  maxTxSetSize : Z;
  header_flags : option Z;   (** [ext.v1().flags] *)
}.

(** ** Protocol versions *)

Definition protocolVersionIsBefore (protocolVersion beforeVersion : Z) : bool :=
  protocolVersion <? beforeVersion.
Definition protocolVersionStartsFrom (protocolVersion fromVersion : Z) : bool :=
  fromVersion <=? protocolVersion.

Lemma version_split (v w : Z) :
  protocolVersionIsBefore v w = negb (protocolVersionStartsFrom v w).
Proof.
  unfold protocolVersionIsBefore, protocolVersionStartsFrom.
  destruct (Z.ltb_spec v w), (Z.leb_spec w v); (done || lia).
Qed.

(** ** Field updates *)

Definition set_acc_balance (b : Z) (a : AccountEntry) : AccountEntry :=
  {| acc_accountID := acc_accountID a; acc_balance := b; acc_seqNum := acc_seqNum a;
     acc_numSubEntries := acc_numSubEntries a; acc_inflationDest := acc_inflationDest a;
     acc_flags := acc_flags a; acc_homeDomain := acc_homeDomain a;
     acc_thresholds := acc_thresholds a; acc_signers := acc_signers a;
     acc_ext := acc_ext a |}.

Definition set_acc_ext (e : option AccountEntryExtensionV1) (a : AccountEntry)
    : AccountEntry :=
  {| acc_accountID := acc_accountID a; acc_balance := acc_balance a;
     acc_seqNum := acc_seqNum a; acc_numSubEntries := acc_numSubEntries a;
     acc_inflationDest := acc_inflationDest a; acc_flags := acc_flags a;
     acc_homeDomain := acc_homeDomain a; acc_thresholds := acc_thresholds a;
     acc_signers := acc_signers a; acc_ext := e |}.

Definition set_tl_balance (b : Z) (t : TrustLineEntry) : TrustLineEntry :=
  {| tl_accountID := tl_accountID t; tl_asset := tl_asset t; tl_balance := b;
     tl_limit := tl_limit t; tl_flags := tl_flags t; tl_ext := tl_ext t |}.

Definition set_tl_ext (e : option TrustLineEntryExtensionV1) (t : TrustLineEntry)
    : TrustLineEntry :=
  {| tl_accountID := tl_accountID t; tl_asset := tl_asset t;
     tl_balance := tl_balance t; tl_limit := tl_limit t; tl_flags := tl_flags t;
     tl_ext := e |}.

Definition set_data (d : LedgerEntryData) (e : LedgerEntry) : LedgerEntry :=
  {| lastModifiedLedgerSeq := lastModifiedLedgerSeq e; le_data := d;
     le_ext := le_ext e |}.
