(* ===== verification/Balances.v ===== *)
(** * Balances, reserves and liabilities

    The part of [src/transactions/TransactionUtils.cpp] (and [addBalance] of
    [src/util/types.cpp]) that moves balances and liabilities of accounts and
    trust lines.  The operations on a [LedgerTxnEntry] return the flag of the
    C++ function and the entry as they leave it; exceptions and failed
    assertions are [Err]. *)
From stdpp Require Import base tactics numbers strings.
From Stdlib Require Import ZArith Lia Bool.
From S2P Require Import Prelude Numeric OfferExchange LedgerEntries.

Open Scope Z_scope.
Open Scope kin_scope.

Inductive tx_error :=
  | TxAssertFailed
  | TxExchange (e : exch_error)
  | InvalidAuthorization
  | UnknownLedgerEntryType
  | LiabilitiesBeforeV10
  | OfferLiabilitiesBeforeV10
  | UnexpectedSponsorshipState
  | UnexpectedAccountState
  | StartingSeqNumOverflow.

Notation tx := (result tx_error).

(** ** Definitions *)

(** [stellar::addBalance(int64_t&, int64_t, int64_t)] of [util/types.cpp]. *)
Definition addBalanceTo (balance delta maxBalance : Z) : tx (bool * Z) :=
  let? _ := ensure (0 <=? balance) TxAssertFailed in
  let? _ := ensure (0 <=? maxBalance) TxAssertFailed in
  if delta =? 0 then Ok (true, balance) else
  if delta <? - balance then Ok (false, balance) else
  if maxBalance - balance <? delta then Ok (false, balance) else
  Ok (true, balance + delta).

Definition no_liabilities : Liabilities := {| buying := 0; selling := 0 |}.

Definition prepareAccountEntryExtensionV1 (ae : AccountEntry) : AccountEntryExtensionV1 :=
  match acc_ext ae with
  | None => {| acc_liabilities := no_liabilities; acc_ext_v2 := None |}
  | Some e => e
  end.

Definition prepareTrustLineEntryExtensionV1 (tl : TrustLineEntry)
    : TrustLineEntryExtensionV1 :=
  match tl_ext tl with
  | None => {| tl_liabilities := no_liabilities; tl_ext_v2 := None |}
  | Some e => e
  end.

Definition AUTHORIZED_FLAG : Z := 1.
Definition AUTHORIZED_TO_MAINTAIN_LIABILITIES_FLAG : Z := 2.
Definition TRUSTLINE_AUTH_FLAGS : Z :=
  Z.lor AUTHORIZED_FLAG AUTHORIZED_TO_MAINTAIN_LIABILITIES_FLAG.

Definition isAuthorized (tl : TrustLineEntry) : bool :=
  negb (Z.land (tl_flags tl) AUTHORIZED_FLAG =? 0).

Definition isAuthorizedToMaintainLiabilitiesUnsafe (flags : Z) : bool :=
  negb (Z.land flags TRUSTLINE_AUTH_FLAGS =? 0).

Definition isAuthorizedToMaintainLiabilities (tl : TrustLineEntry) : bool :=
  match tl_asset tl with
  | TL_POOL_SHARE _ => true
  | _ => isAuthorizedToMaintainLiabilitiesUnsafe (tl_flags tl)
  end.

Definition checkAuthorization (header : LedgerHeader) (tl : TrustLineEntry) : tx bool :=
  if protocolVersionIsBefore (ledgerVersion header) 10 then
    if negb (isAuthorized tl) then Ok false else Ok true
  else if negb (isAuthorizedToMaintainLiabilities tl) then Err InvalidAuthorization
  else Ok true.

Definition getSellingLiabilities (header : LedgerHeader) (le : LedgerEntry) : tx Z :=
  if protocolVersionIsBefore (ledgerVersion header) 10 then Err LiabilitiesBeforeV10 else
  match le_data le with
  | ACCOUNT acc =>
      Ok (match acc_ext acc with None => 0 | Some v1 => selling (acc_liabilities v1) end)
  | TRUSTLINE tl =>
      Ok (match tl_ext tl with None => 0 | Some v1 => selling (tl_liabilities v1) end)
  | _ => Err UnknownLedgerEntryType
  end.

Definition getBuyingLiabilities (header : LedgerHeader) (le : LedgerEntry) : tx Z :=
  if protocolVersionIsBefore (ledgerVersion header) 10 then Err LiabilitiesBeforeV10 else
  match le_data le with
  | ACCOUNT acc =>
      Ok (match acc_ext acc with None => 0 | Some v1 => buying (acc_liabilities v1) end)
  | TRUSTLINE tl =>
      Ok (match tl_ext tl with None => 0 | Some v1 => buying (tl_liabilities v1) end)
  | _ => Err UnknownLedgerEntryType
  end.

(** The overload over counts.  Before version 9 the product is computed, and
    wraps, at 32 bits. *)
Definition getMinBalanceOf (lh : LedgerHeader) (numSubentries sponsoring sponsored : Z)
    : tx Z :=
  if protocolVersionIsBefore (ledgerVersion lh) 14 &&
     (negb (sponsored =? 0) || negb (sponsoring =? 0))
  then Err UnexpectedSponsorshipState else
  if protocolVersionIsBefore (ledgerVersion lh) 9
  then Ok (u32 (u32 (2 + numSubentries) * baseReserve lh))
  else
    let effEntries := 2 + numSubentries + sponsoring - sponsored in
    if effEntries <? 0 then Err UnexpectedAccountState
    else Ok (effEntries * baseReserve lh).

Definition getMinBalance (header : LedgerHeader) (acc : AccountEntry) : tx Z :=
  let '(sponsoring, sponsored) :=
    (if protocolVersionStartsFrom (ledgerVersion header) 14 then
       match acc_ext acc with
       | Some v1 =>
           match acc_ext_v2 v1 with
           | Some v2 => (numSponsoring v2, numSponsored v2)
           | None => (0, 0)
           end
       | None => (0, 0)
       end
     else (0, 0)) in
  getMinBalanceOf header (acc_numSubEntries acc) sponsoring sponsored.

Definition addBalanceSkipAuthorization (header : LedgerHeader) (entry : LedgerEntry)
    (tl : TrustLineEntry) (amount : Z) : tx (bool * LedgerEntry) :=
  let? (ok, newBalance) := addBalanceTo (tl_balance tl) amount (tl_limit tl) in
  if negb ok then Ok (false, entry) else
  let? ok2 :=
    (if protocolVersionStartsFrom (ledgerVersion header) 10 then
       let? s := getSellingLiabilities header entry in
       if newBalance <? s then Ok false else
       let? b := getBuyingLiabilities header entry in
       if tl_limit tl - b <? newBalance then Ok false else Ok true
     else Ok true) in
  if negb ok2 then Ok (false, entry)
  else Ok (true, set_data (TRUSTLINE (set_tl_balance newBalance tl)) entry).

(** [addBalance(LedgerTxnHeader const&, LedgerTxnEntry&, int64_t)]. *)
Definition addBalance (header : LedgerHeader) (entry : LedgerEntry) (delta : Z)
    : tx (bool * LedgerEntry) :=
  match le_data entry with
  | ACCOUNT acc =>
      if delta =? 0 then Ok (true, entry) else
      let? (ok, newBalance) := addBalanceTo (acc_balance acc) delta INT64_MAX in
      if negb ok then Ok (false, entry) else
      let? ok2 :=
        (if protocolVersionStartsFrom (ledgerVersion header) 10 then
           let? minBalance := getMinBalance header acc in
           let? low :=
             (if delta <? 0 then
                let? s := getSellingLiabilities header entry in
                Ok (newBalance - minBalance <? s)
              else Ok false) in
           if (low : bool) then Ok false else
           let? b := getBuyingLiabilities header entry in
           if INT64_MAX - b <? newBalance then Ok false else Ok true
         else Ok true) in
      if negb ok2 then Ok (false, entry)
      else Ok (true, set_data (ACCOUNT (set_acc_balance newBalance acc)) entry)
  | TRUSTLINE tl =>
      if delta =? 0 then Ok (true, entry) else
      let? auth := checkAuthorization header tl in
      if negb auth then Ok (false, entry)
      else addBalanceSkipAuthorization header entry tl delta
  | _ => Err UnknownLedgerEntryType
  end.

Definition set_acc_buying (b : Z) (acc : AccountEntry) : AccountEntry :=
  let v1 := prepareAccountEntryExtensionV1 acc in
  set_acc_ext (Some {| acc_liabilities :=
                         {| buying := b; selling := selling (acc_liabilities v1) |};
                       acc_ext_v2 := acc_ext_v2 v1 |}) acc.

Definition set_acc_selling (s : Z) (acc : AccountEntry) : AccountEntry :=
  let v1 := prepareAccountEntryExtensionV1 acc in
  set_acc_ext (Some {| acc_liabilities :=
                         {| buying := buying (acc_liabilities v1); selling := s |};
                       acc_ext_v2 := acc_ext_v2 v1 |}) acc.

Definition set_tl_buying (b : Z) (tl : TrustLineEntry) : TrustLineEntry :=
  let v1 := prepareTrustLineEntryExtensionV1 tl in
  set_tl_ext (Some {| tl_liabilities :=
                        {| buying := b; selling := selling (tl_liabilities v1) |};
                      tl_ext_v2 := tl_ext_v2 v1 |}) tl.

Definition set_tl_selling (s : Z) (tl : TrustLineEntry) : TrustLineEntry :=
  let v1 := prepareTrustLineEntryExtensionV1 tl in
  set_tl_ext (Some {| tl_liabilities :=
                        {| buying := buying (tl_liabilities v1); selling := s |};
                      tl_ext_v2 := tl_ext_v2 v1 |}) tl.

Definition addBuyingLiabilities (header : LedgerHeader) (entry : LedgerEntry) (delta : Z)
    : tx (bool * LedgerEntry) :=
  let? buyingLiab := getBuyingLiabilities header entry in
  if delta =? 0 then Ok (true, entry) else
  match le_data entry with
  | ACCOUNT acc =>
      let maxLiabilities := INT64_MAX - acc_balance acc in
      let? (res, buyingLiab) := addBalanceTo buyingLiab delta maxLiabilities in
      if (res : bool) then Ok (true, set_data (ACCOUNT (set_acc_buying buyingLiab acc)) entry)
      else Ok (false, entry)
  | TRUSTLINE tl =>
      let? auth := checkAuthorization header tl in
      if negb auth then Ok (false, entry) else
      let maxLiabilities := tl_limit tl - tl_balance tl in
      let? (res, buyingLiab) := addBalanceTo buyingLiab delta maxLiabilities in
      if (res : bool) then Ok (true, set_data (TRUSTLINE (set_tl_buying buyingLiab tl)) entry)
      else Ok (false, entry)
  | _ => Err UnknownLedgerEntryType
  end.

Definition addSellingLiabilities (header : LedgerHeader) (entry : LedgerEntry) (delta : Z)
    : tx (bool * LedgerEntry) :=
  let? sellingLiab := getSellingLiabilities header entry in
  if delta =? 0 then Ok (true, entry) else
  match le_data entry with
  | ACCOUNT acc =>
      let? minBalance := getMinBalance header acc in
      let maxLiabilities := acc_balance acc - minBalance in
      if maxLiabilities <? 0 then Ok (false, entry) else
      let? (res, sellingLiab) := addBalanceTo sellingLiab delta maxLiabilities in
      if (res : bool) then Ok (true, set_data (ACCOUNT (set_acc_selling sellingLiab acc)) entry)
      else Ok (false, entry)
  | TRUSTLINE tl =>
      let? auth := checkAuthorization header tl in
      if negb auth then Ok (false, entry) else
      let maxLiabilities := tl_balance tl in
      let? (res, sellingLiab) := addBalanceTo sellingLiab delta maxLiabilities in
      if (res : bool) then Ok (true, set_data (TRUSTLINE (set_tl_selling sellingLiab tl)) entry)
      else Ok (false, entry)
  | _ => Err UnknownLedgerEntryType
  end.

Definition getAvailableBalance (header : LedgerHeader) (le : LedgerEntry) : tx Z :=
  let? avail :=
    (match le_data le with
     | ACCOUNT acc =>
         let? minBalance := getMinBalance header acc in
         Ok (acc_balance acc - minBalance)
     | TRUSTLINE tl =>
         let? _ := checkAuthorization header tl in
         Ok (tl_balance tl)
     | _ => Err UnknownLedgerEntryType
     end) in
  if protocolVersionStartsFrom (ledgerVersion header) 10 then
    let? s := getSellingLiabilities header le in Ok (avail - s)
  else Ok avail.

Definition getMaxAmountReceive (header : LedgerHeader) (le : LedgerEntry) : tx Z :=
  match le_data le with
  | ACCOUNT acc =>
      if protocolVersionStartsFrom (ledgerVersion header) 10 then
        let? b := getBuyingLiabilities header le in
        Ok (INT64_MAX - (acc_balance acc + b))
      else Ok INT64_MAX
  | TRUSTLINE tl =>
      let? auth := checkAuthorization header tl in
      if negb auth then Ok 0 else
      let amount := tl_limit tl - tl_balance tl in
      if protocolVersionStartsFrom (ledgerVersion header) 10 then
        let? b := getBuyingLiabilities header le in Ok (amount - b)
      else Ok amount
  | _ => Err UnknownLedgerEntryType
  end.

Definition getMinimumLimit (header : LedgerHeader) (le : LedgerEntry)
    (tl : TrustLineEntry) : tx Z :=
  if protocolVersionStartsFrom (ledgerVersion header) 10 then
    let? b := getBuyingLiabilities header le in Ok (tl_balance tl + b)
  else Ok (tl_balance tl).

Definition offerLiabilities (header : LedgerHeader) (oe : OfferEntry)
    : tx ExchangeResultV10 :=
  if protocolVersionIsBefore (ledgerVersion header) 10 then Err OfferLiabilitiesBeforeV10
  else res_err TxExchange
         (exchangeV10WithoutPriceErrorThresholds (of_price oe) (of_amount oe)
            INT64_MAX INT64_MAX INT64_MAX NORMAL).

Definition getOfferBuyingLiabilities (header : LedgerHeader) (oe : OfferEntry) : tx Z :=
  let? res := offerLiabilities header oe in Ok (numSheepSend res).

Definition getOfferSellingLiabilities (header : LedgerHeader) (oe : OfferEntry) : tx Z :=
  let? res := offerLiabilities header oe in Ok (numWheatReceived res).

Definition getStartingSequenceNumber (seq : Z) : tx Z :=
  if INT32_MAX <? seq then Err StartingSeqNumOverflow else Ok (Z.shiftl seq 32).

(** ** What holds of an entry

    From version 10 on, the balance covers the selling liabilities and leaves
    room for the buying liabilities. *)

Definition acc_liab (a : AccountEntry) : Liabilities :=
  acc_liabilities (prepareAccountEntryExtensionV1 a).
Definition tl_liab (t : TrustLineEntry) : Liabilities :=
  tl_liabilities (prepareTrustLineEntryExtensionV1 t).

Definition wf_balances (balance limit : Z) (l : Liabilities) : Prop :=
  0 <= selling l <= balance /\ 0 <= buying l /\ balance + buying l <= limit <= INT64_MAX.

Definition wf_entry (e : LedgerEntry) : Prop :=
  match le_data e with
  | ACCOUNT a => wf_balances (acc_balance a) INT64_MAX (acc_liab a)
  | TRUSTLINE t => wf_balances (tl_balance t) (tl_limit t) (tl_liab t)
  | _ => True
  end.

Inductive balance_op := OpBalance | OpBuying | OpSelling.

Definition run_balance_op (op : balance_op) : LedgerHeader -> LedgerEntry -> Z ->
    tx (bool * LedgerEntry) :=
  match op with
  | OpBalance => addBalance
  | OpBuying => addBuyingLiabilities
  | OpSelling => addSellingLiabilities
  end.

(** ** Lemmas *)

(** Arithmetic over the liabilities of an updated entry. *)
Ltac liab :=
  unfold acc_liab, tl_liab in *; cbn in *;
  unfold prepareAccountEntryExtensionV1, prepareTrustLineEntryExtensionV1 in *;
  cbn in *; lia.

(** [addBalanceTo] is total on non-negative operands, and exact. *)
Lemma addBalanceTo_exact (b delta mx : Z) :
  0 <= b <= mx ->
  addBalanceTo b delta mx =
    if (0 <=? b + delta) && (b + delta <=? mx) then Ok (true, b + delta)
    else Ok (false, b).
Proof.
  intros Hb. unfold addBalanceTo, ensure.
  destruct (Z.leb_spec 0 b); [|lia]. destruct (Z.leb_spec 0 mx); [|lia]. cbn.
  destruct (Z.eqb_spec delta 0) as [->|].
  { rewrite Z.add_0_r. destruct (Z.leb_spec 0 b), (Z.leb_spec b mx); (done || lia). }
  destruct (Z.ltb_spec delta (- b)), (Z.ltb_spec (mx - b) delta),
    (Z.leb_spec 0 (b + delta)), (Z.leb_spec (b + delta) mx); cbn; (done || lia).
Qed.

Section v10.
Context (h : LedgerHeader) (Hv : 10 <= ledgerVersion h) (Hres : 0 <= baseReserve h).

Lemma starts_v10 : protocolVersionStartsFrom (ledgerVersion h) 10 = true.
Proof. by apply Z.leb_le. Qed.

Lemma before_v10 : protocolVersionIsBefore (ledgerVersion h) 10 = false.
Proof. rewrite version_split. by rewrite starts_v10. Qed.

Lemma selling_account (e : LedgerEntry) (a : AccountEntry) :
  le_data e = ACCOUNT a -> getSellingLiabilities h e = Ok (selling (acc_liab a)).
Proof.
  intros E. unfold getSellingLiabilities, acc_liab, prepareAccountEntryExtensionV1.
  rewrite before_v10, E. by destruct (acc_ext a).
Qed.

Lemma buying_account (e : LedgerEntry) (a : AccountEntry) :
  le_data e = ACCOUNT a -> getBuyingLiabilities h e = Ok (buying (acc_liab a)).
Proof.
  intros E. unfold getBuyingLiabilities, acc_liab, prepareAccountEntryExtensionV1.
  rewrite before_v10, E. by destruct (acc_ext a).
Qed.

Lemma selling_trustline (e : LedgerEntry) (t : TrustLineEntry) :
  le_data e = TRUSTLINE t -> getSellingLiabilities h e = Ok (selling (tl_liab t)).
Proof.
  intros E. unfold getSellingLiabilities, tl_liab, prepareTrustLineEntryExtensionV1.
  rewrite before_v10, E. by destruct (tl_ext t).
Qed.

Lemma buying_trustline (e : LedgerEntry) (t : TrustLineEntry) :
  le_data e = TRUSTLINE t -> getBuyingLiabilities h e = Ok (buying (tl_liab t)).
Proof.
  intros E. unfold getBuyingLiabilities, tl_liab, prepareTrustLineEntryExtensionV1.
  rewrite before_v10, E. by destruct (tl_ext t).
Qed.

Lemma checkAuthorization_v10 (t : TrustLineEntry) :
  checkAuthorization h t =
    if isAuthorizedToMaintainLiabilities t then Ok true else Err InvalidAuthorization.
Proof.
  unfold checkAuthorization. rewrite before_v10.
  by destruct (isAuthorizedToMaintainLiabilities t).
Qed.

Lemma getMinBalance_nonneg (a : AccountEntry) (m : Z) : getMinBalance h a = Ok m -> 0 <= m.
Proof.
  unfold getMinBalance, getMinBalanceOf. intros H.
  assert (protocolVersionIsBefore (ledgerVersion h) 9 = false) as E9
    by (apply Z.ltb_ge; lia).
  rewrite E9 in H. repeat case_match; simplify_eq; bprop; nia.
Qed.

(** The reserve depends only on the number of entries and sponsorships. *)
Lemma getMinBalance_ext (a a' : AccountEntry) :
  acc_numSubEntries a' = acc_numSubEntries a ->
  acc_ext_v2 (prepareAccountEntryExtensionV1 a') =
    acc_ext_v2 (prepareAccountEntryExtensionV1 a) ->
  getMinBalance h a' = getMinBalance h a.
Proof.
  unfold getMinBalance, prepareAccountEntryExtensionV1. intros -> H.
  destruct (protocolVersionStartsFrom (ledgerVersion h) 14); [|done].
  destruct (acc_ext a'), (acc_ext a); cbn in H; by rewrite ?H; destruct H.
Qed.

Lemma account_balance_eq (e : LedgerEntry) (a : AccountEntry) (m delta : Z) :
  le_data e = ACCOUNT a -> wf_balances (acc_balance a) INT64_MAX (acc_liab a) ->
  getMinBalance h a = Ok m -> delta <> 0 ->
  addBalance h e delta =
    if (if delta <? 0 then - delta <=? acc_balance a - m - selling (acc_liab a)
        else delta <=? INT64_MAX - (acc_balance a + buying (acc_liab a)))
    then Ok (true, set_data (ACCOUNT (set_acc_balance (acc_balance a + delta) a)) e)
    else Ok (false, e).
Proof.
  intros E Hwf Hm Hd. unfold wf_balances in Hwf. unfold addBalance.
  pose proof (getMinBalance_nonneg a m Hm).
  rewrite E. destruct (Z.eqb_spec delta 0); [done|].
  rewrite addBalanceTo_exact, (selling_account e a E), (buying_account e a E),
    starts_v10, Hm by lia.
  destruct (Z.leb_spec 0 (acc_balance a + delta)), (Z.leb_spec (acc_balance a + delta) INT64_MAX),
    (Z.ltb_spec delta 0); cbn; ztests.
Qed.

Lemma account_buying_eq (e : LedgerEntry) (a : AccountEntry) (delta : Z) :
  le_data e = ACCOUNT a -> wf_balances (acc_balance a) INT64_MAX (acc_liab a) ->
  delta <> 0 ->
  let b := buying (acc_liab a) in
  addBuyingLiabilities h e delta =
    if (0 <=? b + delta) && (acc_balance a + (b + delta) <=? INT64_MAX)
    then Ok (true, set_data (ACCOUNT (set_acc_buying (b + delta) a)) e)
    else Ok (false, e).
Proof.
  intros E Hwf Hd. unfold wf_balances in Hwf. unfold addBuyingLiabilities.
  rewrite (buying_account e a E). cbn [res_bind]. rewrite E.
  destruct (Z.eqb_spec delta 0); [done|].
  rewrite addBalanceTo_exact by lia. ztests.
Qed.

Lemma account_selling_eq (e : LedgerEntry) (a : AccountEntry) (m delta : Z) :
  le_data e = ACCOUNT a -> wf_balances (acc_balance a) INT64_MAX (acc_liab a) ->
  getMinBalance h a = Ok m -> delta <> 0 ->
  let s := selling (acc_liab a) in
  s <= acc_balance a - m \/ 0 < delta ->
  addSellingLiabilities h e delta =
    if (0 <=? s + delta) && (s + delta <=? acc_balance a - m)
    then Ok (true, set_data (ACCOUNT (set_acc_selling (s + delta) a)) e)
    else Ok (false, e).
Proof.
  intros E Hwf Hm Hd s Hs. unfold wf_balances in Hwf. unfold addSellingLiabilities.
  rewrite (selling_account e a E). cbn [res_bind]. rewrite E, Hm. cbn [res_bind].
  fold s in Hwf |- *. destruct (Z.eqb_spec delta 0); [done|].
  destruct (Z.ltb_spec (acc_balance a - m) 0); [ztests|].
  destruct (Z.le_gt_cases s (acc_balance a - m)).
  - rewrite addBalanceTo_exact by lia. ztests.
  - unfold addBalanceTo, ensure. ztests.
Qed.

Lemma trustline_balance_eq (e : LedgerEntry) (t : TrustLineEntry) (delta : Z) :
  le_data e = TRUSTLINE t -> wf_balances (tl_balance t) (tl_limit t) (tl_liab t) ->
  isAuthorizedToMaintainLiabilities t = true -> delta <> 0 ->
  addBalance h e delta =
    if (- delta <=? tl_balance t - selling (tl_liab t)) &&
       (delta <=? tl_limit t - tl_balance t - buying (tl_liab t))
    then Ok (true, set_data (TRUSTLINE (set_tl_balance (tl_balance t + delta) t)) e)
    else Ok (false, e).
Proof.
  intros E Hwf Ha Hd. unfold wf_balances in Hwf.
  unfold addBalance, addBalanceSkipAuthorization.
  rewrite E, checkAuthorization_v10, Ha. destruct (Z.eqb_spec delta 0); [done|].
  cbn [res_bind negb].
  rewrite addBalanceTo_exact, (selling_trustline e t E), (buying_trustline e t E),
    starts_v10 by lia. ztests.
Qed.

Lemma trustline_buying_eq (e : LedgerEntry) (t : TrustLineEntry) (delta : Z) :
  le_data e = TRUSTLINE t -> wf_balances (tl_balance t) (tl_limit t) (tl_liab t) ->
  isAuthorizedToMaintainLiabilities t = true -> delta <> 0 ->
  let b := buying (tl_liab t) in
  addBuyingLiabilities h e delta =
    if (0 <=? b + delta) && (tl_balance t + (b + delta) <=? tl_limit t)
    then Ok (true, set_data (TRUSTLINE (set_tl_buying (b + delta) t)) e)
    else Ok (false, e).
Proof.
  intros E Hwf Ha Hd. unfold wf_balances in Hwf. unfold addBuyingLiabilities.
  rewrite (buying_trustline e t E). cbn [res_bind]. rewrite E, checkAuthorization_v10, Ha.
  destruct (Z.eqb_spec delta 0); [done|]. cbn [res_bind negb].
  rewrite addBalanceTo_exact by lia. ztests.
Qed.

Lemma trustline_selling_eq (e : LedgerEntry) (t : TrustLineEntry) (delta : Z) :
  le_data e = TRUSTLINE t -> wf_balances (tl_balance t) (tl_limit t) (tl_liab t) ->
  isAuthorizedToMaintainLiabilities t = true -> delta <> 0 ->
  let s := selling (tl_liab t) in
  addSellingLiabilities h e delta =
    if (0 <=? s + delta) && (s + delta <=? tl_balance t)
    then Ok (true, set_data (TRUSTLINE (set_tl_selling (s + delta) t)) e)
    else Ok (false, e).
Proof.
  intros E Hwf Ha Hd. unfold wf_balances in Hwf. unfold addSellingLiabilities.
  rewrite (selling_trustline e t E). cbn [res_bind]. rewrite E, checkAuthorization_v10, Ha.
  destruct (Z.eqb_spec delta 0); [done|]. cbn [res_bind negb].
  rewrite addBalanceTo_exact by lia. ztests.
Qed.

Lemma available_account (e : LedgerEntry) (a : AccountEntry) (m : Z) :
  le_data e = ACCOUNT a -> getMinBalance h a = Ok m ->
  getAvailableBalance h e = Ok (acc_balance a - m - selling (acc_liab a)).
Proof.
  intros E Hm. unfold getAvailableBalance.
  by rewrite E, Hm, starts_v10, (selling_account e a E).
Qed.

Lemma available_trustline (e : LedgerEntry) (t : TrustLineEntry) :
  le_data e = TRUSTLINE t -> isAuthorizedToMaintainLiabilities t = true ->
  getAvailableBalance h e = Ok (tl_balance t - selling (tl_liab t)).
Proof.
  intros E Ha. unfold getAvailableBalance.
  by rewrite E, checkAuthorization_v10, Ha, starts_v10, (selling_trustline e t E).
Qed.

Lemma receive_account (e : LedgerEntry) (a : AccountEntry) :
  le_data e = ACCOUNT a ->
  getMaxAmountReceive h e = Ok (INT64_MAX - (acc_balance a + buying (acc_liab a))).
Proof.
  intros E. unfold getMaxAmountReceive. by rewrite E, starts_v10, (buying_account e a E).
Qed.

Lemma receive_trustline (e : LedgerEntry) (t : TrustLineEntry) :
  le_data e = TRUSTLINE t -> isAuthorizedToMaintainLiabilities t = true ->
  getMaxAmountReceive h e = Ok (tl_limit t - tl_balance t - buying (tl_liab t)).
Proof.
  intros E Ha. unfold getMaxAmountReceive.
  by rewrite E, checkAuthorization_v10, Ha, starts_v10, (buying_trustline e t E).
Qed.
End v10.

Section preservation.
Context (h : LedgerHeader) (Hv : 10 <= ledgerVersion h) (Hres : 0 <= baseReserve h).

(** The outcomes a caller may see. *)
Definition balance_outcome (e : LedgerEntry) (r : tx (bool * LedgerEntry)) : Prop :=
  match r with
  | Ok (ok, e') =>
      wf_entry e' /\ LedgerEntryKey e' = LedgerEntryKey e /\ (ok = false -> e' = e)
  | Err x =>
      x = InvalidAuthorization \/ x = UnknownLedgerEntryType \/
      x = UnexpectedAccountState \/ x = UnexpectedSponsorshipState
  end.

#[local] Arguments balance_outcome _ _ : simpl never.

Lemma outcome_same (e : LedgerEntry) (ok : bool) : wf_entry e -> balance_outcome e (Ok (ok, e)).
Proof. done. Qed.

Lemma getMinBalance_errors (a : AccountEntry) (x : tx_error) :
  getMinBalance h a = Err x -> x = UnexpectedAccountState \/ x = UnexpectedSponsorshipState.
Proof.
  unfold getMinBalance, getMinBalanceOf. intros H. repeat case_match; simplify_eq; tauto.
Qed.

Lemma outcome_account (e : LedgerEntry) (a a' : AccountEntry) :
  le_data e = ACCOUNT a -> acc_accountID a' = acc_accountID a ->
  wf_balances (acc_balance a') INT64_MAX (acc_liab a') ->
  balance_outcome e (Ok (true, set_data (ACCOUNT a') e)).
Proof.
  intros E Hid Hwf. unfold balance_outcome, wf_entry, LedgerEntryKey. rewrite E. cbn. by rewrite Hid.
Qed.

Lemma outcome_trustline (e : LedgerEntry) (t t' : TrustLineEntry) :
  le_data e = TRUSTLINE t -> tl_accountID t' = tl_accountID t -> tl_asset t' = tl_asset t ->
  wf_balances (tl_balance t') (tl_limit t') (tl_liab t') ->
  balance_outcome e (Ok (true, set_data (TRUSTLINE t') e)).
Proof.
  intros E Hid Ha Hwf. unfold balance_outcome, wf_entry, LedgerEntryKey. rewrite E. cbn.
  by rewrite Hid, Ha.
Qed.

Lemma account_ops (op : balance_op) (e : LedgerEntry) (a : AccountEntry) (delta : Z) :
  le_data e = ACCOUNT a -> wf_balances (acc_balance a) INT64_MAX (acc_liab a) ->
  delta <> 0 -> balance_outcome e (run_balance_op op h e delta).
Proof.
  intros E Hwf Hd. assert (wf_entry e) as Hwe by (unfold wf_entry; by rewrite E).
  unfold wf_balances in *. destruct op; cbn [run_balance_op].
  - destruct (getMinBalance h a) as [m|x] eqn:Hm.
    + rewrite (account_balance_eq h Hv Hres e a m delta E Hwf Hm Hd).
      pose proof (getMinBalance_nonneg h Hv Hres a m Hm).
      destruct (delta <? 0) eqn:?; case_match; bprop;
        (apply outcome_same || apply (outcome_account e a); try done; unfold wf_balances;
         cbn; unfold acc_liab, prepareAccountEntryExtensionV1 in *; cbn; lia).
    + pose proof (getMinBalance_errors a x Hm). unfold addBalance.
      rewrite E, Hm, addBalanceTo_exact, starts_v10 by lia.
      destruct (Z.eqb_spec delta 0); [done|].
      case_match; cbn; [|done]. unfold balance_outcome; tauto.
  - rewrite (account_buying_eq h Hv e a delta E Hwf Hd).
    case_match; bprop; [|by apply outcome_same].
    apply (outcome_account e a); try done. unfold wf_balances. cbn.
    unfold acc_liab in *. lia.
  - destruct (getMinBalance h a) as [m|x] eqn:Hm.
    + pose proof (getMinBalance_nonneg h Hv Hres a m Hm).
      unfold addSellingLiabilities. rewrite (selling_account h Hv e a E). cbn [res_bind].
      rewrite E, Hm. cbn [res_bind]. destruct (Z.eqb_spec delta 0); [done|].
      unfold addBalanceTo, ensure.
      ztests; (apply outcome_same || apply (outcome_account e a); try done; unfold wf_balances;
         cbn; unfold acc_liab in *; lia).
    + pose proof (getMinBalance_errors a x Hm). unfold addSellingLiabilities.
      rewrite (selling_account h Hv e a E). cbn [res_bind]. rewrite E, Hm.
      destruct (Z.eqb_spec delta 0); [done|]. cbn. unfold balance_outcome; tauto.
Qed.

Lemma trustline_ops (op : balance_op) (e : LedgerEntry) (t : TrustLineEntry) (delta : Z) :
  le_data e = TRUSTLINE t -> wf_balances (tl_balance t) (tl_limit t) (tl_liab t) ->
  delta <> 0 -> balance_outcome e (run_balance_op op h e delta).
Proof.
  intros E Hwf Hd. assert (wf_entry e) as Hwe by (unfold wf_entry; by rewrite E).
  destruct (isAuthorizedToMaintainLiabilities t) eqn:Ha.
  - destruct op; cbn [run_balance_op];
      [rewrite (trustline_balance_eq h Hv e t delta E Hwf Ha Hd)
      |rewrite (trustline_buying_eq h Hv e t delta E Hwf Ha Hd)
      |rewrite (trustline_selling_eq h Hv e t delta E Hwf Ha Hd)];
      unfold wf_balances in *; case_match; bprop; try (by apply outcome_same);
      apply (outcome_trustline e t); try done; unfold wf_balances; cbn;
      liab.
  - destruct op; cbn [run_balance_op];
      [unfold addBalance
      |unfold addBuyingLiabilities; rewrite (buying_trustline h Hv e t E); cbn [res_bind]
      |unfold addSellingLiabilities; rewrite (selling_trustline h Hv e t E); cbn [res_bind]];
      rewrite E, (checkAuthorization_v10 h Hv), Ha; (destruct (Z.eqb_spec delta 0); [done|]);
      cbn; unfold balance_outcome; tauto.
Qed.
End preservation.

(** ** Properties *)

(** C33. Moving balances and liabilities keeps an entry well formed (protocol
    version 10 and later): the balance still covers the selling liabilities and
    leaves room for the buying liabilities below the limit; the entry keeps its
    key; an operation that reports failure leaves the entry as it was; no
    assertion of [addBalance] fails, and the only exceptions are those for
    missing authorization, inconsistent sponsorship counts and entries that
    have no balance. *)
Theorem balance_ops_preserve (h : LedgerHeader) (op : balance_op) (e : LedgerEntry) (delta : Z) :
  10 <= ledgerVersion h -> 0 <= baseReserve h -> wf_entry e ->
  match run_balance_op op h e delta with
  | Ok (ok, e') =>
      wf_entry e' /\ LedgerEntryKey e' = LedgerEntryKey e /\ (ok = false -> e' = e)
  | Err x =>
      x = InvalidAuthorization \/ x = UnknownLedgerEntryType \/
      x = UnexpectedAccountState \/ x = UnexpectedSponsorshipState
  end.
Proof.
  intros Hv Hres Hwf. change (balance_outcome e (run_balance_op op h e delta)).
  destruct (le_data e) eqn:E.
  3-6: destruct op; cbn [run_balance_op];
    unfold addBalance, addBuyingLiabilities, addSellingLiabilities,
      getBuyingLiabilities, getSellingLiabilities;
    rewrite ?(before_v10 h Hv); cbn [res_bind]; rewrite E; unfold balance_outcome; cbn; tauto.
  - unfold wf_entry in Hwf. rewrite E in Hwf.
    destruct (Z.eqb_spec delta 0) as [->|Hd]; [|by apply (account_ops h Hv Hres op e a)].
    destruct op; cbn [run_balance_op];
      unfold addBalance, addBuyingLiabilities, addSellingLiabilities;
      rewrite ?(buying_account h Hv e a E), ?(selling_account h Hv e a E); cbn [res_bind];
      rewrite ?E; apply outcome_same; unfold wf_entry; by rewrite E.
  - unfold wf_entry in Hwf. rewrite E in Hwf.
    destruct (Z.eqb_spec delta 0) as [->|Hd]; [|by apply (trustline_ops h Hv op e t)].
    destruct op; cbn [run_balance_op];
      unfold addBalance, addBuyingLiabilities, addSellingLiabilities;
      rewrite ?(buying_trustline h Hv e t E), ?(selling_trustline h Hv e t E); cbn [res_bind];
      rewrite ?E; apply outcome_same; unfold wf_entry; by rewrite E.
Qed.

Definition example_header : LedgerHeader :=
  {| ledgerVersion := 18; scpValue_closeTime := 1600000000; ledgerSeq := 1000;
     totalCoins := 1000000000000000000; feePool := 500; inflationSeq := 0; idPool := 0;
     baseFee := 100; basePercentageFee := 45; maxFee := 10000000; baseReserve := 5000000;
     maxTxSetSize := 50; header_flags := None |}.

Definition example_account : AccountEntry :=
  {| acc_accountID := 7; acc_balance := 100000000; acc_seqNum := 1; acc_numSubEntries := 2;
     acc_inflationDest := None; acc_flags := 0; acc_homeDomain := EmptyString; acc_thresholds := [1; 0; 0; 0];
     acc_signers := [];
     acc_ext := Some {| acc_liabilities := {| buying := 30; selling := 1000000 |};
                        acc_ext_v2 := None |} |}.

Definition example_entry : LedgerEntry :=
  {| lastModifiedLedgerSeq := 999; le_data := ACCOUNT example_account; le_ext := None |}.

Lemma balance_ops_preserve_witness :
  exists e', addBalance example_header example_entry (-79000000) = Ok (true, e') /\ wf_entry e'.
Proof.
  pose proof (balance_ops_preserve example_header OpBalance example_entry (-79000000)
    ltac:(vm_compute; congruence) ltac:(vm_compute; congruence)
    ltac:(vm_compute; repeat split; congruence)) as H.
  cbn [run_balance_op] in H.
  destruct (addBalance example_header example_entry (-79000000)) as [[ok e']|x] eqn:E;
    [|vm_compute in E; discriminate].
  exists e'. split; [|exact (proj1 H)]. clear H. vm_compute in E. injection E as <- <-.
  reflexivity.
Defined.

Section limits.
Context (h : LedgerHeader) (Hv : 10 <= ledgerVersion h) (Hres : 0 <= baseReserve h).

(** The limits of an entry are the available balance and the room to receive. *)
Definition has_limits (e : LedgerEntry) (avail recv : Z) : Prop :=
  getAvailableBalance h e = Ok avail /\ getMaxAmountReceive h e = Ok recv.

Lemma account_limits (e : LedgerEntry) (a : AccountEntry) (m : Z) :
  le_data e = ACCOUNT a -> getMinBalance h a = Ok m ->
  has_limits e (acc_balance a - m - selling (acc_liab a))
    (INT64_MAX - (acc_balance a + buying (acc_liab a))).
Proof.
  intros E Hm. split; [by apply (available_account h Hv) | by apply (receive_account h Hv)].
Qed.

Lemma trustline_limits (e : LedgerEntry) (t : TrustLineEntry) :
  le_data e = TRUSTLINE t -> isAuthorizedToMaintainLiabilities t = true ->
  has_limits e (tl_balance t - selling (tl_liab t))
    (tl_limit t - tl_balance t - buying (tl_liab t)).
Proof.
  intros E Ha. split; [by apply (available_trustline h Hv) | by apply (receive_trustline h Hv)].
Qed.

Lemma limits_eq (e : LedgerEntry) (a r a' r' : Z) :
  has_limits e a r -> a = a' -> r = r' -> has_limits e a' r'.
Proof. by intros H -> ->. Qed.

(** What one operation does to the limits, and when it succeeds. *)
Definition op_exact (r : tx (bool * LedgerEntry)) (ok : bool) (avail recv : Z) : Prop :=
  exists e', r = Ok (ok, e') /\ (ok = true -> has_limits e' avail recv).

Lemma account_exact (e : LedgerEntry) (a : AccountEntry) (x avail recv : Z) :
  le_data e = ACCOUNT a -> wf_entry e -> 0 < x -> has_limits e avail recv ->
  op_exact (addBalance h e (- x)) (x <=? avail) (avail - x) (recv + x) /\
  op_exact (addBalance h e x) (x <=? recv) (avail + x) (recv - x) /\
  op_exact (addSellingLiabilities h e x) (x <=? avail) (avail - x) recv /\
  op_exact (addBuyingLiabilities h e x) (x <=? recv) avail (recv - x).
Proof.
  intros E Hwf Hx [Hav Hrc]. unfold wf_entry in Hwf. rewrite E in Hwf.
  assert (exists m, getMinBalance h a = Ok m) as [m Hm].
  { unfold getAvailableBalance in Hav. rewrite E in Hav.
    destruct (getMinBalance h a); [eauto|done]. }
  destruct (account_limits e a m E Hm) as [Hav' Hrc']. rewrite Hav in Hav'.
  rewrite Hrc in Hrc'. injection Hav' as Hav'. injection Hrc' as Hrc'.
  assert (forall a', acc_numSubEntries a' = acc_numSubEntries a ->
    acc_ext_v2 (prepareAccountEntryExtensionV1 a') =
      acc_ext_v2 (prepareAccountEntryExtensionV1 a) ->
    has_limits (set_data (ACCOUNT a') e) (acc_balance a' - m - selling (acc_liab a'))
      (INT64_MAX - (acc_balance a' + buying (acc_liab a')))) as Hlim.
  { intros a' H1 H2. apply account_limits; [done|]. by rewrite (getMinBalance_ext h a a'). }
  pose proof (getMinBalance_nonneg h Hv Hres a m Hm).
  unfold op_exact. split; [|split; [|split]].
  - rewrite (account_balance_eq h Hv Hres e a m (- x) E Hwf Hm) by lia.
    destruct (Z.ltb_spec (- x) 0); [|lia]. rewrite Z.opp_involutive, Hav'.
    destruct (x <=? _); eexists; (split; [done|]); [intros _|done].
    eapply limits_eq; [by apply Hlim|..]; liab.
  - rewrite (account_balance_eq h Hv Hres e a m x E Hwf Hm) by lia.
    destruct (Z.ltb_spec x 0); [lia|]. rewrite Hrc'.
    destruct (x <=? _); eexists; (split; [done|]); [intros _|done].
    eapply limits_eq; [by apply Hlim|..]; liab.
  - rewrite (account_selling_eq h Hv e a m x E Hwf Hm) by lia. unfold wf_balances in Hwf.
    replace (x <=? avail) with ((0 <=? selling (acc_liab a) + x) &&
      (selling (acc_liab a) + x <=? acc_balance a - m)) by (ztests; lia).
    case_match; eexists; (split; [done|]); [intros _|done].
    eapply limits_eq; [by apply Hlim|..]; liab.
  - rewrite (account_buying_eq h Hv e a x E Hwf) by lia. unfold wf_balances in Hwf.
    replace (x <=? recv) with ((0 <=? buying (acc_liab a) + x) &&
      (acc_balance a + (buying (acc_liab a) + x) <=? INT64_MAX)) by (ztests; lia).
    case_match; eexists; (split; [done|]); [intros _|done].
    eapply limits_eq; [by apply Hlim|..]; liab.
Qed.

Lemma trustline_exact (e : LedgerEntry) (t : TrustLineEntry) (x avail recv : Z) :
  le_data e = TRUSTLINE t -> wf_entry e -> 0 < x -> has_limits e avail recv ->
  op_exact (addBalance h e (- x)) (x <=? avail) (avail - x) (recv + x) /\
  op_exact (addBalance h e x) (x <=? recv) (avail + x) (recv - x) /\
  op_exact (addSellingLiabilities h e x) (x <=? avail) (avail - x) recv /\
  op_exact (addBuyingLiabilities h e x) (x <=? recv) avail (recv - x).
Proof.
  intros E Hwf Hx [Hav Hrc]. unfold wf_entry in Hwf. rewrite E in Hwf.
  assert (isAuthorizedToMaintainLiabilities t = true) as Ha.
  { unfold getAvailableBalance in Hav. rewrite E, (checkAuthorization_v10 h Hv) in Hav.
    by destruct (isAuthorizedToMaintainLiabilities t). }
  destruct (trustline_limits e t E Ha) as [Hav' Hrc']. rewrite Hav in Hav'.
  rewrite Hrc in Hrc'. injection Hav' as Hav'. injection Hrc' as Hrc'.
  assert (forall t', isAuthorizedToMaintainLiabilities t' = true ->
    has_limits (set_data (TRUSTLINE t') e) (tl_balance t' - selling (tl_liab t'))
      (tl_limit t' - tl_balance t' - buying (tl_liab t'))) as Hlim.
  { intros t' H1. by apply trustline_limits. }
  unfold op_exact. split; [|split; [|split]].
  - rewrite (trustline_balance_eq h Hv e t (- x) E Hwf Ha) by lia. unfold wf_balances in Hwf.
    replace (x <=? avail) with ((- - x <=? tl_balance t - selling (tl_liab t)) &&
       (- x <=? tl_limit t - tl_balance t - buying (tl_liab t))) by (ztests; lia).
    case_match; eexists; (split; [done|]); [intros _|done].
    eapply limits_eq; [by apply Hlim|..]; liab.
  - rewrite (trustline_balance_eq h Hv e t x E Hwf Ha) by lia. unfold wf_balances in Hwf.
    replace (x <=? recv) with ((- x <=? tl_balance t - selling (tl_liab t)) &&
       (x <=? tl_limit t - tl_balance t - buying (tl_liab t))) by (ztests; lia).
    case_match; eexists; (split; [done|]); [intros _|done].
    eapply limits_eq; [by apply Hlim|..]; liab.
  - rewrite (trustline_selling_eq h Hv e t x E Hwf Ha) by lia. unfold wf_balances in Hwf.
    replace (x <=? avail) with ((0 <=? selling (tl_liab t) + x) &&
      (selling (tl_liab t) + x <=? tl_balance t)) by (ztests; lia).
    case_match; eexists; (split; [done|]); [intros _|done].
    eapply limits_eq; [by apply Hlim|..]; liab.
  - rewrite (trustline_buying_eq h Hv e t x E Hwf Ha) by lia. unfold wf_balances in Hwf.
    replace (x <=? recv) with ((0 <=? buying (tl_liab t) + x) &&
      (tl_balance t + (buying (tl_liab t) + x) <=? tl_limit t)) by (ztests; lia).
    case_match; eexists; (split; [done|]); [intros _|done].
    eapply limits_eq; [by apply Hlim|..]; liab.
Qed.
End limits.

(** The limits other operations plan with are exact (version 10 and
    later): an amount can be sent from an account or trust line, or reserved
    by selling liabilities, exactly when it is at most [getAvailableBalance];
    it can be received, or reserved by buying liabilities, exactly when it is
    at most [getMaxAmountReceive]; and afterwards the limits have moved by
    exactly that amount, so that a reservation is neither lost nor doubled. *)
Theorem limits_exact (h : LedgerHeader) (e : LedgerEntry) (x avail recv : Z) :
  10 <= ledgerVersion h -> 0 <= baseReserve h -> wf_entry e -> 0 < x ->
  getAvailableBalance h e = Ok avail -> getMaxAmountReceive h e = Ok recv ->
  op_exact h (addBalance h e (- x)) (x <=? avail) (avail - x) (recv + x) /\
  op_exact h (addBalance h e x) (x <=? recv) (avail + x) (recv - x) /\
  op_exact h (addSellingLiabilities h e x) (x <=? avail) (avail - x) recv /\
  op_exact h (addBuyingLiabilities h e x) (x <=? recv) avail (recv - x).
Proof.
  intros Hv Hres Hwf Hx Hav Hrc. destruct (le_data e) eqn:E.
  3-6: unfold getAvailableBalance in Hav; by rewrite E in Hav.
  - by apply (account_exact h Hv Hres e a).
  - by apply (trustline_exact h Hv e t).
Qed.

Lemma limits_exact_witness :
  getAvailableBalance example_header example_entry = Ok 79000000 /\
  op_exact example_header (addBalance example_header example_entry (-79000000)) true 0
    (INT64_MAX - 100000030 + 79000000).
Proof.
  split; [vm_compute; reflexivity|].
  apply (limits_exact example_header example_entry 79000000 79000000 (INT64_MAX - 100000030));
    vm_compute; repeat split; congruence.
Defined.
