(* ===== verification/Upgrades.v ===== *)
(** * Network upgrades

    [src/herder/Upgrades.cpp]: the parameters a node is armed with, the
    upgrades it proposes for the next ledger, which upgrades are valid, their
    effect on the ledger header, and the loop of [LedgerManagerImpl::closeLedger]
    that applies those decided by consensus.  The XDR encoding of an upgrade
    ([xdr_to_opaque], [xdr_from_opaque]) is library code: a pair of functions
    that round-trip.  The adjustment of ledger entries by [prepareLiabilities]
    and [upgradeFromProtocol15To16] is not part of this model.  Times are in
    seconds. *)
From stdpp Require Import base tactics numbers list sorting.
From Stdlib Require Import ZArith Lia Bool.
From S2P Require Import Prelude LedgerEntries Balances.

Open Scope Z_scope.
Open Scope kin_scope.

(** ** Data *)

Inductive LedgerUpgrade :=
  | LEDGER_UPGRADE_VERSION (newLedgerVersion : Z)
  | LEDGER_UPGRADE_BASE_FEE (newBaseFee : Z)
  | LEDGER_UPGRADE_MAX_TX_SET_SIZE (newMaxTxSetSize : Z)
  | LEDGER_UPGRADE_BASE_RESERVE (newBaseReserve : Z)
  | LEDGER_UPGRADE_BASE_PERCENTAGE_FEE (newBasePercentageFee : Z)
  | LEDGER_UPGRADE_MAX_FEE (newMaxFee : Z)
  | LEDGER_UPGRADE_FLAGS (newFlags : Z).

#[global] Instance LedgerUpgrade_eq_dec : EqDecision LedgerUpgrade.
Proof. solve_decision. Defined.

(** [LedgerUpgradeType]. *)
Definition upgrade_type (u : LedgerUpgrade) : Z :=
  match u with
  | LEDGER_UPGRADE_VERSION _ => 1
  | LEDGER_UPGRADE_BASE_FEE _ => 2
  | LEDGER_UPGRADE_MAX_TX_SET_SIZE _ => 3
  | LEDGER_UPGRADE_BASE_RESERVE _ => 4
  | LEDGER_UPGRADE_BASE_PERCENTAGE_FEE _ => 5
  | LEDGER_UPGRADE_MAX_FEE _ => 6
  | LEDGER_UPGRADE_FLAGS _ => 7
  end.

Definition UpgradeType : Type := list Z.

Record UpgradeParameters := {
  mUpgradeTime : Z;
  mProtocolVersion : option Z;
  mBaseFee : option Z;
  mMaxTxSetSize : option Z;
  mBasePercentageFee : option Z;
  mMaxFee : option Z;
  mBaseReserve : option Z;
  mFlags : option Z;
}.

Inductive upgrade_error :=
  | ProtocolVersionNotSupported   (** [setParameters] *)
  | UnknownUpgradeAtIndex (i : nat)
  | InvalidUpgradeAtIndex (i : nat).

Inductive UpgradeValidity := VALID | XDR_INVALID | INVALID.

Definition UPDGRADE_EXPIRATION_SECONDS : Z := 12 * 3600.
Definition MASK_LEDGER_HEADER_FLAGS : Z := 7.

(** ** Proposing upgrades *)

Definition setParameters (supported : Z) (params : UpgradeParameters)
    : result upgrade_error UpgradeParameters :=
  match mProtocolVersion params with
  | Some v => if supported <? v then Err ProtocolVersionNotSupported else Ok params
  | None => Ok params
  end.

Definition timeForUpgrade (p : UpgradeParameters) (time : Z) : bool :=
  mUpgradeTime p <=? time.

(** [LedgerHeaderUtils::getFlags]. *)
Definition getFlags (h : LedgerHeader) : Z :=
  match header_flags h with Some f => f | None => 0 end.

(** An upgrade for a parameter that is set and differs from the header. *)
Definition pending (param : option Z) (current : Z) (mk : Z -> LedgerUpgrade)
    : list LedgerUpgrade :=
  match param with
  | Some v => if negb (current =? v) then [mk v] else []
  | None => []
  end.

Definition createUpgradesFor (p : UpgradeParameters) (header : LedgerHeader)
    : list LedgerUpgrade :=
  if negb (timeForUpgrade p (scpValue_closeTime header)) then [] else
  pending (mProtocolVersion p) (ledgerVersion header) LEDGER_UPGRADE_VERSION ++
  pending (mBaseFee p) (baseFee header) LEDGER_UPGRADE_BASE_FEE ++
  pending (mMaxTxSetSize p) (maxTxSetSize header) LEDGER_UPGRADE_MAX_TX_SET_SIZE ++
  pending (mBaseReserve p) (baseReserve header) LEDGER_UPGRADE_BASE_RESERVE ++
  pending (mFlags p) (getFlags header) LEDGER_UPGRADE_FLAGS ++
  pending (mBasePercentageFee p) (basePercentageFee header)
    LEDGER_UPGRADE_BASE_PERCENTAGE_FEE ++
  pending (mMaxFee p) (maxFee header) LEDGER_UPGRADE_MAX_FEE ++
  pending (mBasePercentageFee p) (basePercentageFee header)
    LEDGER_UPGRADE_BASE_PERCENTAGE_FEE ++
  pending (mMaxFee p) (maxFee header) LEDGER_UPGRADE_MAX_FEE.

(** ** The effect on the header *)

Definition set_header (v seq fee pct mx res size : Z) (fl : option Z) (h : LedgerHeader)
    : LedgerHeader :=
  {| ledgerVersion := v; scpValue_closeTime := scpValue_closeTime h; ledgerSeq := seq;
     totalCoins := totalCoins h; feePool := feePool h; inflationSeq := inflationSeq h;
     idPool := idPool h; baseFee := fee; basePercentageFee := pct; maxFee := mx;
     baseReserve := res; maxTxSetSize := size; header_flags := fl |}.

(** [setLedgerHeaderFlag] of [TransactionUtils.cpp] makes the extension. *)
Definition applyTo (u : LedgerUpgrade) (h : LedgerHeader) : LedgerHeader :=
  let v := ledgerVersion h in let seq := ledgerSeq h in let fee := baseFee h in
  let pct := basePercentageFee h in let mx := maxFee h in let res := baseReserve h in
  let size := maxTxSetSize h in let fl := header_flags h in
  match u with
  | LEDGER_UPGRADE_VERSION x => set_header x seq fee pct mx res size fl h
  | LEDGER_UPGRADE_BASE_FEE x => set_header v seq x pct mx res size fl h
  | LEDGER_UPGRADE_MAX_TX_SET_SIZE x => set_header v seq fee pct mx res x fl h
  | LEDGER_UPGRADE_BASE_RESERVE x => set_header v seq fee pct mx x size fl h
  | LEDGER_UPGRADE_BASE_PERCENTAGE_FEE x => set_header v seq fee x mx res size fl h
  | LEDGER_UPGRADE_MAX_FEE x => set_header v seq fee pct x res size fl h
  | LEDGER_UPGRADE_FLAGS x => set_header v seq fee pct mx res size (Some x) h
  end.

(** ** Validity *)

Section xdr.
Context (xdr_from_opaque : UpgradeType -> option LedgerUpgrade).

(** The checks of [isValidForApply], on the decoded upgrade. *)
Definition validForApply (upgrade : LedgerUpgrade) (header : LedgerHeader)
    (maxLedgerVersion : Z) : bool :=
  match upgrade with
  | LEDGER_UPGRADE_VERSION newVersion =>
      (newVersion <=? maxLedgerVersion) && (ledgerVersion header <? newVersion)
  | LEDGER_UPGRADE_BASE_FEE x => negb (x =? 0)
  | LEDGER_UPGRADE_MAX_TX_SET_SIZE _ => true
  | LEDGER_UPGRADE_BASE_RESERVE x => negb (x =? 0)
  | LEDGER_UPGRADE_BASE_PERCENTAGE_FEE x => negb (x =? 0)
  | LEDGER_UPGRADE_MAX_FEE x => negb (x =? 0)
  | LEDGER_UPGRADE_FLAGS x =>
      protocolVersionStartsFrom (ledgerVersion header) 18 &&
      (Z.land x (Z.lnot MASK_LEDGER_HEADER_FLAGS) =? 0)
  end.

Definition isValidForApply (opaqueUpgrade : UpgradeType) (header : LedgerHeader)
    (maxLedgerVersion : Z) : UpgradeValidity * option LedgerUpgrade :=
  match xdr_from_opaque opaqueUpgrade with
  | None => (XDR_INVALID, None)
  | Some upgrade =>
      ((if validForApply upgrade header maxLedgerVersion then VALID else INVALID),
       Some upgrade)
  end.

(** A parameter that is set to the value. *)
Definition param_is (param : option Z) (v : Z) : bool :=
  match param with Some w => v =? w | None => false end.

Definition isValidForNomination (p : UpgradeParameters) (upgrade : LedgerUpgrade)
    (header : LedgerHeader) : bool :=
  if negb (timeForUpgrade p (scpValue_closeTime header)) then false else
  match upgrade with
  | LEDGER_UPGRADE_VERSION x => param_is (mProtocolVersion p) x
  | LEDGER_UPGRADE_BASE_FEE x => param_is (mBaseFee p) x
  | LEDGER_UPGRADE_MAX_TX_SET_SIZE x => param_is (mMaxTxSetSize p) x
  | LEDGER_UPGRADE_BASE_RESERVE x => param_is (mBaseReserve p) x
  | LEDGER_UPGRADE_BASE_PERCENTAGE_FEE x => param_is (mBasePercentageFee p) x
  | LEDGER_UPGRADE_MAX_FEE x => param_is (mMaxFee p) x
  | LEDGER_UPGRADE_FLAGS x => param_is (mFlags p) x
  end.

(** Returns the type of the upgrade when it is valid. *)
Definition isValid (p : UpgradeParameters) (upgrade : UpgradeType) (nomination : bool)
    (maxLedgerVersion : Z) (header : LedgerHeader) : option Z :=
  match isValidForApply upgrade header maxLedgerVersion with
  | (VALID, Some lupgrade) =>
      if nomination && negb (isValidForNomination p lupgrade header) then None
      else Some (upgrade_type lupgrade)
  | _ => None
  end.

(** The loop over the upgrades of a value in [HerderSCPDriver::validateValue]:
    each valid, and of strictly increasing types. *)
Fixpoint check_upgrades (p : UpgradeParameters) (nomination : bool)
    (maxLedgerVersion : Z) (header : LedgerHeader) (last : option Z)
    (l : list UpgradeType) : bool :=
  match l with
  | [] => true
  | u :: l' =>
      match isValid p u nomination maxLedgerVersion header with
      | None => false
      | Some ty =>
          if match last with Some t => ty <=? t | None => false end then false
          else check_upgrades p nomination maxLedgerVersion header (Some ty) l'
      end
  end.

(** ** After consensus *)

Definition resetParam (o : option Z) (v : Z) (updated : bool) : option Z * bool :=
  match o with
  | Some w => if w =? v then (None, true) else (o, updated)
  | None => (o, updated)
  end.

Definition with_params (t : Z) (v fee size pct mx res fl : option Z) : UpgradeParameters :=
  {| mUpgradeTime := t; mProtocolVersion := v; mBaseFee := fee; mMaxTxSetSize := size;
     mBasePercentageFee := pct; mMaxFee := mx; mBaseReserve := res; mFlags := fl |}.

Definition removeUpgrade (lu : LedgerUpgrade) (s : UpgradeParameters * bool)
    : UpgradeParameters * bool :=
  let '(p, updated) := s in
  let t := mUpgradeTime p in let v := mProtocolVersion p in let fee := mBaseFee p in
  let size := mMaxTxSetSize p in let pct := mBasePercentageFee p in
  let mx := mMaxFee p in let res := mBaseReserve p in let fl := mFlags p in
  match lu with
  | LEDGER_UPGRADE_VERSION x =>
      let '(o, u) := resetParam v x updated in (with_params t o fee size pct mx res fl, u)
  | LEDGER_UPGRADE_BASE_FEE x =>
      let '(o, u) := resetParam fee x updated in (with_params t v o size pct mx res fl, u)
  | LEDGER_UPGRADE_MAX_TX_SET_SIZE x =>
      let '(o, u) := resetParam size x updated in (with_params t v fee o pct mx res fl, u)
  | LEDGER_UPGRADE_BASE_RESERVE x =>
      let '(o, u) := resetParam res x updated in (with_params t v fee size pct mx o fl, u)
  | LEDGER_UPGRADE_BASE_PERCENTAGE_FEE x =>
      let '(o, u) := resetParam pct x updated in (with_params t v fee size o mx res fl, u)
  | LEDGER_UPGRADE_MAX_FEE x =>
      let '(o, u) := resetParam mx x updated in (with_params t v fee size pct o res fl, u)
  | LEDGER_UPGRADE_FLAGS x =>
      let '(o, u) := resetParam fl x updated in (with_params t v fee size pct mx res o, u)
  end.

Fixpoint removeUpgrades_loop (l : list UpgradeType) (s : UpgradeParameters * bool)
    : UpgradeParameters * bool :=
  match l with
  | [] => s
  | u :: l' =>
      removeUpgrades_loop l'
        (match xdr_from_opaque u with Some lu => removeUpgrade lu s | None => s end)
  end.

Definition is_set (o : option Z) : bool := match o with Some _ => true | None => false end.

Definition removeUpgrades (p : UpgradeParameters) (updates : list UpgradeType)
    (closeTime : Z) : UpgradeParameters * bool :=
  if mUpgradeTime p + UPDGRADE_EXPIRATION_SECONDS <=? closeTime then
    (with_params (mUpgradeTime p) None None None None None None None,
     is_set (mProtocolVersion p) || is_set (mBaseFee p) || is_set (mMaxTxSetSize p) ||
     is_set (mBaseReserve p) || is_set (mFlags p) || is_set (mBasePercentageFee p) ||
     is_set (mMaxFee p))
  else removeUpgrades_loop updates (p, false).

(** The loop of [LedgerManagerImpl::closeLedger] over the decided upgrades. *)
Fixpoint applyUpgrades (i : nat) (l : list UpgradeType) (maxLedgerVersion : Z)
    (h : LedgerHeader) : result upgrade_error LedgerHeader :=
  match l with
  | [] => Ok h
  | u :: l' =>
      match isValidForApply u h maxLedgerVersion with
      | (VALID, Some lupgrade) => applyUpgrades (S i) l' maxLedgerVersion (applyTo lupgrade h)
      | (XDR_INVALID, _) => Err (UnknownUpgradeAtIndex i)
      | _ => Err (InvalidUpgradeAtIndex i)
      end
  end.
End xdr.

(** ** Lemmas *)

(** The field of the header an upgrade sets, the parameter that asks for it,
    and the value. *)
Definition get_of (u : LedgerUpgrade) (h : LedgerHeader) : Z :=
  match u with
  | LEDGER_UPGRADE_VERSION _ => ledgerVersion h
  | LEDGER_UPGRADE_BASE_FEE _ => baseFee h
  | LEDGER_UPGRADE_MAX_TX_SET_SIZE _ => maxTxSetSize h
  | LEDGER_UPGRADE_BASE_RESERVE _ => baseReserve h
  | LEDGER_UPGRADE_BASE_PERCENTAGE_FEE _ => basePercentageFee h
  | LEDGER_UPGRADE_MAX_FEE _ => maxFee h
  | LEDGER_UPGRADE_FLAGS _ => getFlags h
  end.

Definition param_of (u : LedgerUpgrade) (p : UpgradeParameters) : option Z :=
  match u with
  | LEDGER_UPGRADE_VERSION _ => mProtocolVersion p
  | LEDGER_UPGRADE_BASE_FEE _ => mBaseFee p
  | LEDGER_UPGRADE_MAX_TX_SET_SIZE _ => mMaxTxSetSize p
  | LEDGER_UPGRADE_BASE_RESERVE _ => mBaseReserve p
  | LEDGER_UPGRADE_BASE_PERCENTAGE_FEE _ => mBasePercentageFee p
  | LEDGER_UPGRADE_MAX_FEE _ => mMaxFee p
  | LEDGER_UPGRADE_FLAGS _ => mFlags p
  end.

Definition upgrade_value (u : LedgerUpgrade) : Z :=
  match u with
  | LEDGER_UPGRADE_VERSION x | LEDGER_UPGRADE_BASE_FEE x
  | LEDGER_UPGRADE_MAX_TX_SET_SIZE x | LEDGER_UPGRADE_BASE_RESERVE x
  | LEDGER_UPGRADE_BASE_PERCENTAGE_FEE x | LEDGER_UPGRADE_MAX_FEE x
  | LEDGER_UPGRADE_FLAGS x => x
  end.

Lemma get_apply (u w : LedgerUpgrade) (h : LedgerHeader) :
  get_of u (applyTo w h) =
    if upgrade_type w =? upgrade_type u then upgrade_value w else get_of u h.
Proof. by destruct u, w. Qed.

Lemma param_of_type (u w : LedgerUpgrade) (p : UpgradeParameters) :
  upgrade_type u = upgrade_type w -> param_of u p = param_of w p.
Proof. by destruct u, w. Qed.

Lemma upgrade_ext (u w : LedgerUpgrade) :
  upgrade_type u = upgrade_type w -> upgrade_value u = upgrade_value w -> u = w.
Proof. destruct u, w; cbn; intros; by simplify_eq. Qed.

Lemma elem_of_pending (o : option Z) (c : Z) (mk : Z -> LedgerUpgrade) (u : LedgerUpgrade) :
  u ∈ pending o c mk <-> exists v, o = Some v /\ c <> v /\ u = mk v.
Proof.
  unfold pending. destruct o as [v|].
  - destruct (Z.eqb_spec c v); cbn.
    + split; [intros H; by apply elem_of_nil in H|naive_solver].
    + rewrite list_elem_of_singleton. naive_solver.
  - split; [intros H; by apply elem_of_nil in H|naive_solver].
Qed.

(** What is proposed: the parameters that differ from the header. *)
Lemma elem_of_created (p : UpgradeParameters) (h : LedgerHeader) (u : LedgerUpgrade) :
  u ∈ createUpgradesFor p h <->
  timeForUpgrade p (scpValue_closeTime h) = true /\
  param_of u p = Some (upgrade_value u) /\ get_of u h <> upgrade_value u.
Proof.
  unfold createUpgradesFor. destruct (timeForUpgrade p (scpValue_closeTime h)); cbn.
  - rewrite !elem_of_app, !elem_of_pending.
    split.
    + intros H. split; [done|]. destruct_or?; destruct H as (v & ? & ? & ->); done.
    + intros (_ & H1 & H2). destruct u; cbn in *; naive_solver.
  - split; [intros H; by apply elem_of_nil in H|by intros []].
Qed.

Lemma created_nil (p : UpgradeParameters) (h : LedgerHeader) :
  (forall u, timeForUpgrade p (scpValue_closeTime h) = true ->
    param_of u p = Some (upgrade_value u) -> get_of u h = upgrade_value u) ->
  createUpgradesFor p h = [].
Proof.
  intros H. destruct (createUpgradesFor p h) as [|u l] eqn:E; [done|].
  assert (u ∈ createUpgradesFor p h) as Hu by (rewrite E; left).
  apply elem_of_created in Hu as (Ht & H1 & H2). by apply H in H1.
Qed.

Lemma foldl_get (u : LedgerUpgrade) (l : list LedgerUpgrade) (h : LedgerHeader) :
  (forall w, w ∈ l -> upgrade_type w = upgrade_type u -> upgrade_value w = upgrade_value u) ->
  get_of u h = upgrade_value u \/ u ∈ l ->
  get_of u (foldl (flip applyTo) h l) = upgrade_value u.
Proof.
  revert h. induction l as [|w l IH]; intros h Hall Hor; cbn.
  - destruct Hor as [|Hn]; [done|by apply elem_of_nil in Hn].
  - apply IH; [intros; apply Hall; [by right|done]|]. unfold flip. rewrite get_apply.
    destruct (Z.eqb_spec (upgrade_type w) (upgrade_type u)) as [E|E].
    + left. apply Hall; [by left|done].
    + destruct Hor as [?|Hin]; [by left|]. apply elem_of_cons in Hin as [->|]; [done|by right].
Qed.

Section encoding.
Context (xdr_from_opaque : UpgradeType -> option LedgerUpgrade).
Context (xdr_to_opaque : LedgerUpgrade -> UpgradeType).
Context (xdr_roundtrip : forall u, xdr_from_opaque (xdr_to_opaque u) = Some u).

Definition is_version (u : LedgerUpgrade) : bool :=
  match u with LEDGER_UPGRADE_VERSION _ => true | _ => false end.

Lemma validForApply_mono (u : LedgerUpgrade) (h h' : LedgerHeader) (m : Z) :
  is_version u = false -> ledgerVersion h <= ledgerVersion h' ->
  validForApply u h m = true -> validForApply u h' m = true.
Proof.
  destruct u; cbn; try done. intros _ Hle H. bprop.
  unfold protocolVersionStartsFrom in *. bprop.
  apply andb_true_iff. split; [apply Z.leb_le; lia | by apply Z.eqb_eq].
Qed.

Lemma applyUpgrades_valid (l : list LedgerUpgrade) (i : nat) (m : Z) (h : LedgerHeader) :
  Forall (fun u => is_version u = false /\ validForApply u h m = true) l ->
  applyUpgrades xdr_from_opaque i (xdr_to_opaque <$> l) m h = Ok (foldl (flip applyTo) h l).
Proof.
  revert i h. induction l as [|u l IH]; intros i h Hall; [done|].
  apply Forall_cons in Hall as [[Hv Hu] Hl]. cbn. unfold isValidForApply.
  rewrite xdr_roundtrip, Hu. apply IH. eapply Forall_impl; [exact Hl|].
  intros w [? ?]. split; [done|]. eapply validForApply_mono; [done| |done].
  by destruct u.
Qed.

Lemma created_split (p : UpgradeParameters) (h : LedgerHeader) :
  exists rest,
    createUpgradesFor p h =
      (if timeForUpgrade p (scpValue_closeTime h)
       then pending (mProtocolVersion p) (ledgerVersion h) LEDGER_UPGRADE_VERSION else []) ++ rest /\
    Forall (fun u => is_version u = false) rest.
Proof.
  unfold createUpgradesFor. destruct (timeForUpgrade p (scpValue_closeTime h)); cbn.
  - eexists. split; [done|]. apply Forall_forall. intros u.
    rewrite !elem_of_app, !elem_of_pending. intros H. destruct_or?; naive_solver.
  - by exists [].
Qed.

(** Every proposed upgrade that is valid for the header can be applied. *)
Lemma created_apply (p : UpgradeParameters) (h : LedgerHeader) (m : Z) :
  Forall (fun u => validForApply u h m = true) (createUpgradesFor p h) ->
  applyUpgrades xdr_from_opaque 0 (xdr_to_opaque <$> createUpgradesFor p h) m h =
    Ok (foldl (flip applyTo) h (createUpgradesFor p h)).
Proof.
  intros Hall. destruct (created_split p h) as (rest & E & Hrest). rewrite E in *.
  set (vs := if timeForUpgrade p (scpValue_closeTime h) then _ else []) in *.
  assert (vs = [] \/ exists v, vs = [LEDGER_UPGRADE_VERSION v]) as [->|[v ->]].
  { subst vs. unfold pending. repeat case_match; eauto. }
  - apply applyUpgrades_valid. rewrite Forall_forall in *. cbn in *. auto.
  - cbn in *. apply Forall_cons in Hall as [Hv Hall]. unfold isValidForApply.
    rewrite xdr_roundtrip, Hv. apply applyUpgrades_valid. rewrite Forall_forall in *.
    intros u Hu. split; [by apply Hrest|].
    eapply (validForApply_mono u h); [by apply Hrest| |by apply Hall].
    cbn in Hv. bprop. cbn. lia.
Qed.

(** The check of [validateValue]: upgrades that decode, are valid, and come in
    strictly increasing order of type. *)
Lemma check_upgrades_iff (p : UpgradeParameters) (nom : bool) (m : Z) (h : LedgerHeader)
    (last : option Z) (l : list UpgradeType) :
  check_upgrades xdr_from_opaque p nom m h last l = true <->
  exists us, Forall2 (fun o u => xdr_from_opaque o = Some u) l us /\
    Forall (fun u => validForApply u h m = true /\
                     (nom = true -> isValidForNomination p u h = true)) us /\
    StronglySorted Z.lt (upgrade_type <$> us) /\
    (forall t, last = Some t -> Forall (Z.lt t) (upgrade_type <$> us)).
Proof.
  revert last. induction l as [|o l IH]; intros last; cbn.
  { split; [intros _; exists []; repeat split; constructor|done]. }
  unfold isValid, isValidForApply. destruct (xdr_from_opaque o) as [u|] eqn:Ho.
  2:{ split; [done|]. intros (us & H & _). inversion H; congruence. }
  split.
  - destruct (validForApply u h m) eqn:Hv; [|done].
    destruct (nom && negb (isValidForNomination p u h)) eqn:Hn; [done|].
    destruct (match last with Some t => upgrade_type u <=? t | None => false end) eqn:Hb; [done|].
    intros (us & H2 & Hall & Hs & Hlt)%IH. specialize (Hlt _ eq_refl).
    exists (u :: us). split; [by constructor|]. split.
    { constructor; [|done]. split; [done|]. intros ->. cbn in Hn. by apply negb_false_iff in Hn. }
    split; [by constructor|]. intros t ->. bprop. constructor; [done|].
    eapply Forall_impl; [exact Hlt|]. cbn. lia.
  - intros (us & H2 & Hall & Hs & Hlt). inversion H2 as [|? w ? us' Hw H2']; subst.
    rewrite Ho in Hw. injection Hw as <-. apply Forall_cons in Hall as [[Hv Hn] Hall].
    apply StronglySorted_inv in Hs as [Hs Hu]. rewrite Hv.
    assert (nom && negb (isValidForNomination p u h) = false) as ->.
    { destruct nom; [|done]. by rewrite Hn. }
    assert (match last with Some t => upgrade_type u <=? t | None => false end = false) as ->.
    { destruct last as [t|]; [|done]. specialize (Hlt t eq_refl).
      apply Forall_cons in Hlt as [? _]. by apply Z.leb_gt. }
    apply IH. exists us'. repeat split; try done. by intros t [= <-].
Qed.

(** Upgrades that were encoded decode to themselves. *)
Lemma decode_encoded (l us : list LedgerUpgrade) :
  Forall2 (fun o u => xdr_from_opaque o = Some u) (xdr_to_opaque <$> l) us <-> us = l.
Proof.
  split.
  - revert us. induction l as [|u l IH]; intros us H; inversion H as [|? w ? us' Hw H']; subst; [done|].
    rewrite xdr_roundtrip in Hw. injection Hw as <-. by rewrite (IH us' H').
  - intros ->. induction l; constructor; [apply xdr_roundtrip|done].
Qed.

Lemma check_upgrades_sorted (p : UpgradeParameters) (nom : bool) (m : Z) (h : LedgerHeader)
    (last : option Z) (l : list LedgerUpgrade) :
  check_upgrades xdr_from_opaque p nom m h last (xdr_to_opaque <$> l) = true ->
  StronglySorted Z.lt (upgrade_type <$> l).
Proof. intros (us & ->%decode_encoded & _ & Hs & _)%check_upgrades_iff. done. Qed.

Lemma check_upgrades_valid (p : UpgradeParameters) (nom : bool) (m : Z) (h : LedgerHeader)
    (l : list LedgerUpgrade) :
  StronglySorted Z.lt (upgrade_type <$> l) ->
  Forall (fun u => validForApply u h m = true /\
                   (nom = true -> isValidForNomination p u h = true)) l ->
  check_upgrades xdr_from_opaque p nom m h None (xdr_to_opaque <$> l) = true.
Proof.
  intros Hs Hall. apply check_upgrades_iff. exists l. split; [by apply decode_encoded|]. done.
Qed.

Lemma created_nominated (p : UpgradeParameters) (h : LedgerHeader) (u : LedgerUpgrade) :
  u ∈ createUpgradesFor p h -> isValidForNomination p u h = true.
Proof.
  intros Hu. apply elem_of_created in Hu as (Ht & Hp & _).
  unfold isValidForNomination. rewrite Ht. cbn.
  destruct u; cbn in *; rewrite Hp; cbn; apply Z.eqb_refl.
Qed.
End encoding.

(** No fee upgrade of the fork is due. *)
Definition no_fee_upgrade (p : UpgradeParameters) (h : LedgerHeader) : Prop :=
  (forall v, mBasePercentageFee p = Some v -> basePercentageFee h = v) /\
  (forall v, mMaxFee p = Some v -> maxFee h = v).

Lemma pending_none (o : option Z) (c : Z) (mk : Z -> LedgerUpgrade) :
  (forall v, o = Some v -> c = v) -> pending o c mk = [].
Proof. unfold pending. destruct o; [|done]. intros H. by rewrite (H _ eq_refl), Z.eqb_refl. Qed.

Lemma pending_sorted (o : option Z) (c : Z) (mk : Z -> LedgerUpgrade) (t : Z) (l : list LedgerUpgrade) :
  (forall v, upgrade_type (mk v) = t) ->
  StronglySorted Z.lt (upgrade_type <$> l) -> Forall (fun u => t < upgrade_type u) l ->
  StronglySorted Z.lt (upgrade_type <$> pending o c mk ++ l).
Proof.
  intros Hmk Hs Hall. unfold pending. destruct o as [v|]; [|done].
  destruct (negb (c =? v)); [|done]. cbn. constructor; [done|].
  rewrite Hmk. by apply Forall_fmap.
Qed.

Lemma pending_above (o : option Z) (c : Z) (mk : Z -> LedgerUpgrade) (t : Z) (l : list LedgerUpgrade) :
  (forall v, t < upgrade_type (mk v)) -> Forall (fun u => t < upgrade_type u) l ->
  Forall (fun u => t < upgrade_type u) (pending o c mk ++ l).
Proof.
  intros Hmk Hall. apply Forall_app. split; [|done]. apply Forall_forall. intros u Hu.
  apply elem_of_pending in Hu as (v & _ & _ & ->). apply Hmk.
Qed.

Lemma created_sorted (p : UpgradeParameters) (h : LedgerHeader) :
  no_fee_upgrade p h -> StronglySorted Z.lt (upgrade_type <$> createUpgradesFor p h).
Proof.
  intros [H5 H6]. unfold createUpgradesFor. destruct (negb _); [constructor|].
  rewrite (pending_none (mBasePercentageFee p)), (pending_none (mMaxFee p)) by done.
  repeat first [apply (pending_sorted _ _ _ 1); [done| |]
               |apply (pending_sorted _ _ _ 2); [done| |]
               |apply (pending_sorted _ _ _ 3); [done| |]
               |apply (pending_sorted _ _ _ 4); [done| |]
               |apply (pending_sorted _ _ _ 7); [done| |]
               |apply pending_above; [by intros v; cbn|]
               |constructor].
Qed.

Lemma sorted_nodup (l : list Z) : StronglySorted Z.lt l -> NoDup l.
Proof.
  induction 1 as [|x l Hs IH Hf]; constructor; [|done].
  intros Hin. rewrite Forall_forall in Hf. specialize (Hf _ Hin). lia.
Qed.

Lemma pending_due (o : option Z) (c v : Z) (mk : Z -> LedgerUpgrade) :
  o = Some v -> c <> v -> pending o c mk = [mk v].
Proof. intros -> H. unfold pending. by destruct (Z.eqb_spec c v). Qed.

(** A fee upgrade that is due is proposed twice. *)
Lemma created_twice (p : UpgradeParameters) (h : LedgerHeader) :
  timeForUpgrade p (scpValue_closeTime h) = true -> ~ no_fee_upgrade p h ->
  ~ NoDup (upgrade_type <$> createUpgradesFor p h).
Proof.
  intros Ht Hdue Hnd. apply Hdue. unfold createUpgradesFor in Hnd. rewrite Ht in Hnd.
  cbn [negb] in Hnd. rewrite !fmap_app, !NoDup_app in Hnd.
  split; intros v Hp; apply dec_stable; intros Hne.
  - destruct Hnd as (_ & _ & _ & _ & _ & _ & _ & _ & _ & _ & _ & H & _).
    rewrite (pending_due _ _ v _ Hp Hne) in H. apply (H 5); [by left|].
    rewrite !elem_of_app. right; left. by left.
  - destruct Hnd as (_ & _ & _ & _ & _ & _ & _ & _ & _ & _ & _ & _ & _ & H & _).
    rewrite (pending_due _ _ v _ Hp Hne) in H. apply (H 6); [by left|].
    rewrite !elem_of_app. right. by left.
Qed.

Lemma removeUpgrade_param (u lu : LedgerUpgrade) (p : UpgradeParameters) (b : bool) :
  param_of u (fst (removeUpgrade lu (p, b))) =
    if (upgrade_type lu =? upgrade_type u) && param_is (param_of u p) (upgrade_value lu)
    then None else param_of u p.
Proof.
  destruct lu, u; cbn; unfold resetParam, param_is; repeat case_match; bprop; simplify_eq; done.
Qed.

Lemma removeUpgrades_loop_time (dec : UpgradeType -> option LedgerUpgrade)
    (l : list UpgradeType) (s : UpgradeParameters * bool) :
  mUpgradeTime (fst (removeUpgrades_loop dec l s)) = mUpgradeTime (fst s).
Proof.
  revert s. induction l as [|w l IH]; intros [p b]; cbn [removeUpgrades_loop]; [done|].
  rewrite IH. destruct (dec w) as [lu|]; [|done].
  destruct lu; cbn; unfold resetParam; by repeat case_match.
Qed.

Lemma foldl_closeTime (l : list LedgerUpgrade) (h : LedgerHeader) :
  scpValue_closeTime (foldl (flip applyTo) h l) = scpValue_closeTime h.
Proof. revert h. induction l as [|u l IH]; intros h; cbn; [done|]. rewrite IH. by destruct u. Qed.

Lemma foldl_other (u : LedgerUpgrade) (l : list LedgerUpgrade) (h : LedgerHeader) :
  Forall (fun w => upgrade_type w <> upgrade_type u) l ->
  get_of u (foldl (flip applyTo) h l) = get_of u h.
Proof.
  revert h. induction l as [|w l IH]; intros h Hall; cbn; [done|].
  apply Forall_cons in Hall as [Hw Hl]. rewrite IH by done. unfold flip. rewrite get_apply.
  by destruct (Z.eqb_spec (upgrade_type w) (upgrade_type u)).
Qed.

(** What is left of the parameters after an externalized value. *)
Lemma removeUpgrades_loop_param (dec : UpgradeType -> option LedgerUpgrade)
    (enc : LedgerUpgrade -> UpgradeType) (l : list LedgerUpgrade) (s : UpgradeParameters * bool)
    (u : LedgerUpgrade) (x : Z) :
  (forall u, dec (enc u) = Some u) ->
  param_of u (fst (removeUpgrades_loop dec (enc <$> l) s)) = Some x ->
  param_of u (fst s) = Some x /\
  forall w, w ∈ l -> upgrade_type w = upgrade_type u -> upgrade_value w <> x.
Proof.
  intros Hrt. revert s. induction l as [|w l IH]; intros [p b].
  { intros H. split; [done|]. intros w Hw. by apply elem_of_nil in Hw. }
  cbn [fmap list_fmap removeUpgrades_loop]. rewrite Hrt. intros H. apply IH in H as [H Hl]. rewrite removeUpgrade_param in H.
  destruct ((upgrade_type w =? upgrade_type u) && param_is (param_of u p) (upgrade_value w)) eqn:E;
    [done|]. split; [done|].
  intros w' Hw'. apply elem_of_cons in Hw' as [->|Hw']; [|by apply Hl].
  intros Ht. apply andb_false_iff in E as [E|E]; bprop; [done|].
  rewrite H in E. cbn in E. by bprop.
Qed.

(** ** Properties *)

(** When no change of the percentage fee or of the maximum fee is due,
    upgrades work: what a node proposes is accepted by the validators armed
    with the same parameters, applying it succeeds, the header then agrees
    with every parameter, so that nothing more is proposed, and the parameters
    that were voted in are dropped from the node's list. *)
Theorem upgrades_take_effect (dec : UpgradeType -> option LedgerUpgrade)
    (enc : LedgerUpgrade -> UpgradeType) (p : UpgradeParameters) (h : LedgerHeader)
    (maxLedgerVersion : Z) :
  (forall u, dec (enc u) = Some u) ->
  no_fee_upgrade p h ->
  Forall (fun u => validForApply u h maxLedgerVersion = true) (createUpgradesFor p h) ->
  let steps := enc <$> createUpgradesFor p h in
  check_upgrades dec p true maxLedgerVersion h None steps = true /\
  (exists h', applyUpgrades dec 0 steps maxLedgerVersion h = Ok h' /\
     createUpgradesFor p h' = [] /\
     forall u, param_of u p = None -> get_of u h' = get_of u h) /\
  (forall closeTime, createUpgradesFor (fst (removeUpgrades dec p steps closeTime)) h = []).
Proof.
  intros Hrt Hfee Hall steps. subst steps. split; [|split].
  - apply check_upgrades_valid; [done|by apply created_sorted|].
    rewrite Forall_forall in *. intros u Hu. split; [by apply Hall|].
    intros _. by apply created_nominated.
  - eexists. split; [by apply created_apply|]. split.
    + apply created_nil. intros u Ht Hu. rewrite foldl_closeTime in Ht.
      apply foldl_get.
      * intros w Hw Hty. apply elem_of_created in Hw as (_ & Hw & _).
        rewrite (param_of_type w u p Hty) in Hw. by simplify_eq.
      * destruct (decide (get_of u h = upgrade_value u)) as [|Hne]; [by left|].
        right. by apply elem_of_created.
    + intros u Hu. apply foldl_other, Forall_forall. intros w Hw Hty.
      apply elem_of_created in Hw as (_ & Hw & _).
      rewrite (param_of_type w u p Hty) in Hw. by simplify_eq.
  - intros closeTime. apply created_nil. intros u Ht Hu. apply dec_stable. intros Hne.
    unfold removeUpgrades in Hu, Ht. destruct (_ <=? closeTime); [by destruct u|].
    unfold timeForUpgrade in Ht. rewrite removeUpgrades_loop_time in Ht.
    apply removeUpgrades_loop_param in Hu as [Hu Hl]; [|done].
    by apply (Hl u); [apply elem_of_created|..].
Qed.

(** An encoding, for the examples. *)
Definition example_enc (u : LedgerUpgrade) : UpgradeType := [upgrade_type u; upgrade_value u].

Definition example_dec (x : UpgradeType) : option LedgerUpgrade :=
  match x with
  | [1; v] => Some (LEDGER_UPGRADE_VERSION v)
  | [2; v] => Some (LEDGER_UPGRADE_BASE_FEE v)
  | [3; v] => Some (LEDGER_UPGRADE_MAX_TX_SET_SIZE v)
  | [4; v] => Some (LEDGER_UPGRADE_BASE_RESERVE v)
  | [5; v] => Some (LEDGER_UPGRADE_BASE_PERCENTAGE_FEE v)
  | [6; v] => Some (LEDGER_UPGRADE_MAX_FEE v)
  | [7; v] => Some (LEDGER_UPGRADE_FLAGS v)
  | _ => None
  end.

Lemma example_roundtrip (u : LedgerUpgrade) : example_dec (example_enc u) = Some u.
Proof. by destruct u. Qed.

Lemma upgrades_take_effect_witness :
  let p := with_params 1 (Some 18) (Some 200) None (Some 45) None None (Some 1) in
  createUpgradesFor p example_header =
    [LEDGER_UPGRADE_BASE_FEE 200; LEDGER_UPGRADE_FLAGS 1] /\
  exists h', applyUpgrades example_dec 0 (example_enc <$> createUpgradesFor p example_header)
               18 example_header = Ok h' /\ createUpgradesFor p h' = [].
Proof.
  split; [reflexivity|].
  destruct (upgrades_take_effect example_dec example_enc
    (with_params 1 (Some 18) (Some 200) None (Some 45) None None (Some 1))
    example_header 18 example_roundtrip
    ltac:(split; intros v Hv; injection Hv as <- || discriminate Hv; reflexivity)
    ltac:(repeat constructor)) as (_ & (h' & H1 & H2 & _) & _).
  exists h'. split; [exact H1|exact H2].
Defined.

(** C39. A change of the percentage fee or of the maximum fee is proposed twice
    in the same value, after the flags: the two blocks that add those upgrades
    are repeated.  Every validator, whatever its own parameters and in
    nomination as well as after it, refuses such a value, because upgrades must
    come in strictly increasing order of type.  As long as the change is due
    no value proposed by the node is valid, and the change cannot be voted in
    from this list. *)
Theorem fee_upgrades_rejected (dec : UpgradeType -> option LedgerUpgrade)
    (enc : LedgerUpgrade -> UpgradeType) (p : UpgradeParameters) (h : LedgerHeader)
    (p' : UpgradeParameters) (h' : LedgerHeader) (nomination : bool) (maxLedgerVersion : Z) :
  (forall u, dec (enc u) = Some u) ->
  timeForUpgrade p (scpValue_closeTime h) = true ->
  ~ no_fee_upgrade p h ->
  check_upgrades dec p' nomination maxLedgerVersion h' None (enc <$> createUpgradesFor p h)
    = false.
Proof.
  intros Hrt Ht Hdue. apply not_true_is_false. intros H.
  apply (check_upgrades_sorted dec enc Hrt) in H as Hs.
  by apply (created_twice p h Ht Hdue), sorted_nodup.
Qed.

Lemma fee_upgrades_rejected_witness :
  let p := with_params 1 None None None (Some 50) None None None in
  createUpgradesFor p example_header =
    [LEDGER_UPGRADE_BASE_PERCENTAGE_FEE 50; LEDGER_UPGRADE_BASE_PERCENTAGE_FEE 50] /\
  check_upgrades example_dec p true 18 example_header None
    (example_enc <$> createUpgradesFor p example_header) = false.
Proof.
  split; [reflexivity|].
  apply (fee_upgrades_rejected example_dec example_enc
    (with_params 1 None None None (Some 50) None None None) example_header);
    [exact example_roundtrip | reflexivity |].
  intros [H _]. specialize (H 50 eq_refl). discriminate H.
Defined.
