(* ===== verification/Float64.v ===== *)
(** * Double-precision arithmetic

    The operations on [double] the sources use: conversion of an integer,
    multiplication, division (IEEE 754 binary64, round to nearest even, through
    the specification of the standard library) and the conversion back to
    [int64_t] by truncation, which is undefined outside the range of the type
    ([None]).  The lemmas bound the rounding errors. *)
From stdpp Require Import base tactics numbers.
From Stdlib Require Import ZArith Lia Bool SpecFloat.
From S2P Require Import Prelude.

Open Scope Z_scope.

Notation double := spec_float (only parsing).

Definition f64_of_Z (z : Z) : double := binary_normalize 53 1024 z 0 false.
Definition f64_mul : double -> double -> double := SFmul 53 1024.
Definition f64_div : double -> double -> double := SFdiv 53 1024.

Definition f64_trunc (f : double) : option Z :=
  match f with
  | S754_zero _ => Some 0
  | S754_finite s m e =>
      let v := if 0 <=? e then Zpos m * 2 ^ e else Zpos m / 2 ^ (- e) in
      Some (if s then - v else v)
  | _ => None
  end.

Definition f64_to_i64 (f : double) : option Z :=
  match f64_trunc f with
  | Some v => if (- (INT64_MAX + 1) <=? v) && (v <=? INT64_MAX) then Some v else None
  | None => None
  end.

(** ** Shifts and digits *)

Lemma digits2_log2 (p : positive) : Zpos (digits2_pos p) = Z.log2 (Zpos p) + 1.
Proof.
  induction p as [p IH|p IH|]; cbn [digits2_pos]; [| |done].
  - rewrite Pos2Z.inj_succ, IH. replace (Zpos p~1) with (2 * Zpos p + 1) by lia.
    rewrite Z.log2_succ_double by lia. lia.
  - rewrite Pos2Z.inj_succ, IH. replace (Zpos p~0) with (2 * Zpos p) by lia.
    rewrite Z.log2_double by lia. lia.
Qed.

Lemma digits_range (p : positive) :
  2 ^ (Zpos (digits2_pos p) - 1) <= Zpos p < 2 ^ Zpos (digits2_pos p).
Proof.
  rewrite digits2_log2. replace (Z.log2 (Zpos p) + 1 - 1) with (Z.log2 (Zpos p)) by lia.
  rewrite Z.add_1_r. by apply Z.log2_spec.
Qed.

Lemma digits_unique (p : positive) (d : Z) :
  0 < d -> 2 ^ (d - 1) <= Zpos p < 2 ^ d -> Zpos (digits2_pos p) = d.
Proof.
  intros Hd Hp. rewrite digits2_log2.
  enough (Z.log2 (Zpos p) = d - 1) by lia.
  apply Z.log2_unique; [lia|]. replace (Z.succ (d - 1)) with d by lia. done.
Qed.

Lemma iter_pos_nat {A} (f : A -> A) (n : positive) (x : A) :
  iter_pos f n x = Nat.iter (Pos.to_nat n) f x.
Proof.
  revert x. induction n as [n IH|n IH|]; intros x; cbn [iter_pos].
  - rewrite !IH. replace (Pos.to_nat n~1) with (Pos.to_nat n + Pos.to_nat n + 1)%nat by lia.
    rewrite !Nat.iter_add. done.
  - rewrite !IH. replace (Pos.to_nat n~0) with (Pos.to_nat n + Pos.to_nat n)%nat by lia.
    by rewrite Nat.iter_add.
  - done.
Qed.

Lemma shr_1_m (r : shr_record) : 0 <= shr_m r -> shr_m (shr_1 r) = shr_m r / 2.
Proof.
  destruct r as [m b s]. cbn [shr_m]. intros Hm. destruct m as [|[p|p|]|p]; cbn; try done.
  - replace (Zpos p~1) with (1 + Zpos p * 2) by lia. rewrite Z.div_add by lia. done.
  - replace (Zpos p~0) with (Zpos p * 2) by lia. by rewrite Z.div_mul by lia.
Qed.

Lemma shr_iter_m (n : nat) (r : shr_record) :
  0 <= shr_m r -> shr_m (Nat.iter n shr_1 r) = shr_m r / 2 ^ Z.of_nat n.
Proof.
  intros Hm. induction n as [|n IH]; [by rewrite Z.div_1_r|].
  change (Nat.iter (S n) shr_1 r) with (shr_1 (Nat.iter n shr_1 r)).
  rewrite shr_1_m; rewrite IH.
  - rewrite Z.div_div by (try apply Z.pow_nonzero; lia).
    f_equal. rewrite Nat2Z.inj_succ, Z.pow_succ_r by lia. lia.
  - apply Z.div_pos; [done|]. apply Z.pow_pos_nonneg; lia.
Qed.

(** A right shift by [n] bits, or nothing when [n] is not positive. *)
Lemma shr_spec (r : shr_record) (e n : Z) :
  0 <= shr_m r ->
  shr_m (fst (shr r e n)) = shr_m r / 2 ^ Z.max 0 n /\ snd (shr r e n) = e + Z.max 0 n /\
  (n <= 0 -> fst (shr r e n) = r).
Proof.
  intros Hr. destruct n as [|p|p]; cbn [shr fst snd].
  - rewrite Z.div_1_r. split; [done|]. split; [lia|done].
  - rewrite iter_pos_nat, shr_iter_m by done. rewrite positive_nat_Z.
    split; [done|]. split; [done|lia].
  - replace (Z.max 0 (Zneg p)) with 0 by lia. rewrite Z.div_1_r. split; [done|]. split; [lia|done].
Qed.

Lemma shr_loc_m (m : Z) (l : location) : shr_m (shr_record_of_loc m l) = m.
Proof. by destruct l as [|[]]. Qed.

Lemma nearest_range (m : Z) (l : location) : m <= round_nearest_even m l <= m + 1.
Proof. destruct l as [|[]]; cbn; [lia| |lia|lia]. destruct (Z.even m); lia. Qed.

(** Two consecutive shifts of the rounding, for a mantissa of 53 digits or one
    more after the carry. *)
Lemma fexp_normal (x : Z) : -1021 <= x -> fexp 53 1024 x = x - 53.
Proof. unfold fexp, emin. lia. Qed.

Lemma shr_fexp_spec (m e : Z) (l : location) :
  0 < m -> -1021 <= Zdigits2 m + e ->
  let k := Z.max 0 (Zdigits2 m - 53) in
  shr_m (fst (shr_fexp 53 1024 m e l)) = m / 2 ^ k /\
  snd (shr_fexp 53 1024 m e l) = e + k /\
  (Zdigits2 m <= 53 -> fst (shr_fexp 53 1024 m e l) = shr_record_of_loc m l).
Proof.
  intros Hm He k. unfold shr_fexp. rewrite fexp_normal by done.
  replace (Zdigits2 m + e - 53 - e) with (Zdigits2 m - 53) by lia.
  destruct (shr_spec (shr_record_of_loc m l) e (Zdigits2 m - 53)) as (H1 & H2 & H3);
    [rewrite shr_loc_m; lia|].
  rewrite shr_loc_m in H1. split; [done|]. split; [done|]. intros. apply H3. lia.
Qed.

Lemma digits_small (r : Z) : 2 ^ 52 <= r < 2 ^ 53 -> Zdigits2 r = 53.
Proof. intros Hr. destruct r as [|p|p]; [lia| |lia]. cbn. by apply digits_unique. Qed.

(** Renormalising a mantissa between [2^52] and [2^53]. *)
Lemma renormalise (r e1 : Z) :
  2 ^ 52 <= r <= 2 ^ 53 -> -1074 <= e1 <= 900 ->
  exists m' e',
    (let '(mrs, e2) := shr_fexp 53 1024 r e1 loc_Exact in
     match shr_m mrs with
     | Z0 => S754_zero false
     | Zpos m => if Z.leb e2 (1024 - 53) then S754_finite false m e2 else S754_infinity false
     | _ => S754_nan
     end) = S754_finite false m' e' /\
    e1 <= e' /\ Zpos m' * 2 ^ (e' - e1) = r /\ 2 ^ 52 <= Zpos m' < 2 ^ 53.
Proof.
  intros Hr He.
  assert (exists p, 2 ^ 52 <= Zpos p < 2 ^ 53 /\
    (r = Zpos p /\ Zdigits2 r = 53 \/ r = 2 * Zpos p /\ Zdigits2 r = 54)) as (p & Hp & Hcase).
  { destruct (decide (r = 2 ^ 53)) as [->|Hne].
    - exists (2 ^ 52)%positive. split; [lia|]. right. by split.
    - destruct r as [|p|p]; [lia| |lia]. exists p. split; [lia|]. left. split; [done|].
      apply digits_small. lia. }
  destruct (shr_fexp_spec r e1 loc_Exact ltac:(lia)) as (H1 & H2 & _); [lia|].
  destruct (shr_fexp 53 1024 r e1 loc_Exact) as [mrs e2]. cbn [fst snd] in *.
  assert (shr_m mrs = Zpos p) as Hm.
  { rewrite H1. destruct Hcase as [[-> ->]|[-> ->]].
    - change (2 ^ Z.max 0 (53 - 53)) with 1. apply Z.div_1_r.
    - change (2 ^ Z.max 0 (54 - 53)) with 2. rewrite Z.mul_comm. by apply Z.div_mul. }
  rewrite Hm. destruct (Z.leb_spec e2 (1024 - 53)); [|lia].
  exists p, e2. split; [done|]. split; [lia|]. split; [|done].
  destruct Hcase as [[-> Hd]|[-> Hd]]; rewrite Hd in H2.
  - replace (e2 - e1) with 0 by lia. lia.
  - replace (e2 - e1) with 1 by lia. lia.
Qed.

(** ** Rounding

    Away from overflow and underflow, rounding a mantissa of [D] digits moves
    it by at most [2^(D - 53)]; a mantissa of at most 53 digits is exact. *)
Lemma round_aux_spec (m : positive) (e : Z) (l : location) :
  let D := Zpos (digits2_pos m) in
  -1021 <= D + e <= 900 -> 53 <= D \/ l = loc_Exact ->
  exists m' e',
    binary_round_aux 53 1024 false (Zpos m) e l = S754_finite false m' e' /\
    e <= e' /\
    Zpos m - 2 ^ Z.max 0 (D - 53) <= Zpos m' * 2 ^ (e' - e) <= Zpos m + 2 ^ Z.max 0 (D - 53) /\
    (D <= 53 -> l = loc_Exact -> m' = m /\ e' = e) /\
    (53 <= D -> 2 ^ 52 <= Zpos m' < 2 ^ 53).
Proof.
  intros D He Hl. pose proof (digits_range m) as Hdm. fold D in Hdm.
  destruct (shr_fexp_spec (Zpos m) e l ltac:(lia)) as (H1 & H2 & H3); [exact (proj1 He)|].
  change (Zdigits2 (Zpos m)) with D in *. set (k := Z.max 0 (D - 53)) in *.
  unfold binary_round_aux. destruct (shr_fexp 53 1024 (Zpos m) e l) as [mrs e1].
  cbn [fst snd] in *.
  destruct (Z.lt_ge_cases D 53) as [Hlt|Hge].
  - destruct Hl as [Hl| ->]; [lia|]. rewrite H3 by lia. cbn [shr_m shr_record_of_loc].
    replace k with 0 in * by lia. replace e1 with e by lia. cbn [loc_of_shr_record].
    change (round_nearest_even (Zpos m) loc_Exact) with (Zpos m).
    destruct (shr_fexp_spec (Zpos m) e loc_Exact ltac:(lia)) as (_ & H5 & H6); [exact (proj1 He)|].
    change (Zdigits2 (Zpos m)) with D in *.
    destruct (shr_fexp 53 1024 (Zpos m) e loc_Exact) as [mrs2 e2]. cbn [fst snd] in *.
    rewrite H6 by lia. cbn [shr_m shr_record_of_loc]. replace e2 with e by lia.
    destruct (Z.leb_spec e (1024 - 53)); [|lia].
    exists m, e. rewrite Z.sub_diag. split; [done|]. split; [lia|]. split; [lia|].
    split; [done|lia].
  - assert (k = D - 53) as Hk by lia.
    assert (2 ^ 52 <= Zpos m / 2 ^ k < 2 ^ 53) as Hq.
    { assert (0 < 2 ^ k) by (apply Z.pow_pos_nonneg; lia).
      assert (2 ^ (D - 1) = 2 ^ 52 * 2 ^ k) by (rewrite <- Z.pow_add_r by lia; f_equal; lia).
      assert (2 ^ D = 2 ^ 53 * 2 ^ k) by (rewrite <- Z.pow_add_r by lia; f_equal; lia).
      split.
      - apply Z.div_le_lower_bound; lia.
      - apply Z.div_lt_upper_bound; lia. }
    rewrite H1. set (q := Zpos m / 2 ^ k) in *.
    pose proof (nearest_range q (loc_of_shr_record mrs)) as Hr.
    set (r := round_nearest_even q (loc_of_shr_record mrs)) in *.
    destruct (renormalise r e1) as (m' & e' & Heq & He' & Hval & Hm'); [lia|lia|].
    exists m', e'. split; [exact Heq|]. split; [lia|].
    assert (Zpos m' * 2 ^ (e' - e) = r * 2 ^ k) as Hv.
    { rewrite <- Hval. replace (e' - e) with (e' - e1 + k) by lia.
      rewrite Z.pow_add_r by lia. lia. }
    rewrite Hv. assert (0 < 2 ^ k) by (apply Z.pow_pos_nonneg; lia).
    pose proof (Z.div_mod (Zpos m) (2 ^ k) ltac:(lia)) as Hdiv. fold q in Hdiv.
    pose proof (Z.mod_pos_bound (Zpos m) (2 ^ k) ltac:(lia)).
    split; [nia|]. split; [|done].
    intros HD ->. assert (k = 0) as Hk0 by lia.
    assert (r = Zpos m) as Hrm.
    { subst r q. rewrite Hk0, (H3 HD). apply Z.div_1_r. }
    rewrite Hrm in Hval.
    destruct (decide (e' = e1)) as [->|]; [|exfalso].
    + rewrite Z.sub_diag in Hval. split; lia.
    + assert (2 ^ 1 <= 2 ^ (e' - e1)) by (apply Z.pow_le_mono_r; lia).
      assert (Zpos m < 2 ^ 53) by (replace D with 53 in Hdm by lia; lia). nia.
Qed.

(** ** Conversion of integers *)

Lemma nat_iter_xO (n : nat) (m : positive) :
  Zpos (Nat.iter n xO m) = Zpos m * 2 ^ Z.of_nat n.
Proof.
  induction n as [|n IH]; [by rewrite Z.pow_0_r, Z.mul_1_r|].
  change (Nat.iter (S n) xO m) with (xO (Nat.iter n xO m)).
  rewrite Pos2Z.inj_xO, IH, Nat2Z.inj_succ, Z.pow_succ_r by apply Nat2Z.is_nonneg. ring.
Qed.

Lemma pos_iter_xO (m : positive) (d : positive) :
  Zpos (Pos.iter xO m d) = Zpos m * 2 ^ Zpos d.
Proof. rewrite Pos2Nat.inj_iter. etransitivity; [apply nat_iter_xO|]. by rewrite positive_nat_Z. Qed.

(** A positive 63-bit integer as a double: 53 significant bits, relative error
    at most [2^-52], exact below [2^53].  Values are compared scaled by
    [2^52]. *)
Lemma f64_of_Z_spec (z : Z) :
  0 < z <= INT64_MAX ->
  exists m e, f64_of_Z z = S754_finite false m e /\ 2 ^ 52 <= Zpos m < 2 ^ 53 /\
    -52 <= e <= 12 /\
    z * 2 ^ 52 - z <= Zpos m * 2 ^ (e + 52) <= z * 2 ^ 52 + z /\
    (z < 2 ^ 53 -> Zpos m * 2 ^ (e + 52) = z * 2 ^ 52).
Proof.
  intros Hz. destruct z as [|p|p]; [lia| |lia].
  unfold f64_of_Z, binary_normalize, binary_round.
  pose proof (digits_range p) as Hd. set (D := Zpos (digits2_pos p)) in *.
  assert (1 <= D) by lia.
  assert (D <= 63).
  { apply Z.lt_succ_r. apply (Z.pow_lt_mono_r_iff 2); [lia|lia|].
    assert (2 ^ (D - 1) < 2 ^ 63) by (unfold_ints; lia).
    replace (2 ^ D) with (2 * 2 ^ (D - 1)) by (rewrite <- Z.pow_succ_r by lia; f_equal; lia).
    change (2 ^ Z.succ 63) with (2 * 2 ^ 63). lia. }
  rewrite Z.add_0_r, fexp_normal by lia. unfold shl_align. rewrite Z.sub_0_r.
  destruct (Z.lt_ge_cases D 53) as [Hlt|Hge].
  - destruct (D - 53) as [|q|q] eqn:Eq; [lia|lia|].
    set (mz := Pos.iter xO p q). pose proof (pos_iter_xO p q) as Hmz. fold mz in Hmz.
    assert (Zpos mz = Zpos p * 2 ^ (53 - D)) as Hm by (rewrite Hmz; f_equal; f_equal; lia).
    assert (2 ^ 52 <= Zpos mz < 2 ^ 53) as Hr.
    { rewrite Hm.
      replace (2 ^ 52) with (2 ^ (D - 1) * 2 ^ (53 - D)) by (rewrite <- Z.pow_add_r by lia; f_equal; lia).
      replace (2 ^ 53) with (2 ^ D * 2 ^ (53 - D)) by (rewrite <- Z.pow_add_r by lia; f_equal; lia).
      assert (0 < 2 ^ (53 - D)) by (apply Z.pow_pos_nonneg; lia). nia. }
    assert (Zpos (digits2_pos mz) = 53) as Hdz by (by apply digits_unique).
    destruct (round_aux_spec mz (Zneg q) loc_Exact) as (m' & e' & Heq & _ & _ & Hex & _);
      [rewrite Hdz; lia|by right|].
    destruct Hex as [-> ->]; [lia|done|].
    exists mz, (Zneg q). split; [exact Heq|]. split; [done|]. split; [lia|].
    assert (Zpos mz * 2 ^ (Zneg q + 52) = Zpos p * 2 ^ 52) as Hv.
    { rewrite Hm, <- Z.mul_assoc, <- Z.pow_add_r by lia. f_equal. f_equal. lia. }
    rewrite Hv. split; [lia|done].
  - replace (match D - 53 with Zneg d => _ | _ => (p, 0) end) with (p, 0)
      by (destruct (D - 53) eqn:?; (done || lia)).
    destruct (round_aux_spec p 0 loc_Exact) as (m' & e' & Heq & He & Hb & Hex & Hm);
      [fold D; lia|by right|]. fold D in Hb, Hex, Hm.
    rewrite Z.sub_0_r in Hb. replace (Z.max 0 (D - 53)) with (D - 53) in Hb by lia.
    assert (2 ^ (D - 1) = 2 ^ 52 * 2 ^ (D - 53)) as HD1
      by (rewrite <- Z.pow_add_r by lia; f_equal; lia).
    assert (e' <= 12).
    { apply Z.lt_succ_r, (Z.pow_lt_mono_r_iff 2); [lia|lia|].
      assert (2 ^ (D - 53) <= 2 ^ 10) by (apply Z.pow_le_mono_r; lia).
      assert (2 ^ 52 * 2 ^ e' <= Zpos m' * 2 ^ e') by (apply Z.mul_le_mono_nonneg_r; [apply Z.pow_nonneg; lia|lia]).
      unfold_ints. lia. }
    exists m', e'. split; [exact Heq|]. split; [by apply Hm|]. split; [lia|].
    rewrite Z.pow_add_r by lia. split.
    + nia.
    + intros Hlt. assert (D = 53) as HD53.
      { apply Z.le_antisymm; [|done]. apply Z.lt_succ_r, (Z.pow_lt_mono_r_iff 2); [lia|lia|].
        replace (2 ^ D) with (2 * 2 ^ (D - 1)) by (rewrite <- Z.pow_succ_r by lia; f_equal; lia).
        change (2 ^ Z.succ 53) with (2 * 2 ^ 53). lia. }
      destruct Hex as [-> ->]; [lia|done|]. lia.
Qed.

(** ** The rate and its product *)

(** The quotient of two doubles with full mantissas, as the rounding of an
    integer quotient. *)
Lemma f64_div_spec (m1 m2 : positive) (e1 e2 : Z) :
  2 ^ 52 <= Zpos m1 < 2 ^ 53 -> 2 ^ 52 <= Zpos m2 < 2 ^ 53 ->
  -500 <= e1 <= 500 -> -300 <= e2 <= 300 ->
  exists m e, f64_div (S754_finite false m1 e1) (S754_finite false m2 e2) = S754_finite false m e /\
    2 ^ 52 <= Zpos m < 2 ^ 53 /\ e1 - e2 - 53 <= e <= e1 - e2 - 50 /\
    let x := Zpos m * 2 ^ (e - (e1 - e2 - 53)) in
    Zpos m1 * 2 ^ 53 - 3 * Zpos m2 <= x * Zpos m2 <= Zpos m1 * 2 ^ 53 + 3 * Zpos m2.
Proof.
  intros H1 H2 He1 He2. unfold f64_div, SFdiv, SFdiv_core_binary.
  change (Zdigits2 (Zpos m1)) with (Zpos (digits2_pos m1)).
  change (Zdigits2 (Zpos m2)) with (Zpos (digits2_pos m2)).
  rewrite (digits_unique m1 53), (digits_unique m2 53) by done.
  replace (53 + e1 - (53 + e2)) with (e1 - e2) by lia. rewrite fexp_normal by lia.
  replace (Z.min (e1 - e2 - 53) (e1 - e2)) with (e1 - e2 - 53) by lia.
  replace (e1 - e2 - (e1 - e2 - 53)) with 53 by lia. rewrite Z.shiftl_mul_pow2 by lia.
  pose proof (Z_div_mod (Zpos m1 * 2 ^ 53) (Zpos m2) ltac:(lia)) as Hdm.
  destruct (Z.div_eucl (Zpos m1 * 2 ^ 53) (Zpos m2)) as [q r]. destruct Hdm as [Hq Hr].
  assert (2 ^ 52 <= q < 2 ^ 54) as Hqr.
  { split; apply Z.nlt_ge || apply Z.nle_gt; intros Hc.
    - assert (Zpos m2 * (q + 1) <= 2 ^ 53 * 2 ^ 52); [|lia].
      destruct (Z.lt_ge_cases q 0);
        [transitivity 0; [apply Z.mul_nonneg_nonpos|]; lia|]. apply Z.mul_le_mono_nonneg; lia.
    - assert (2 ^ 52 * 2 ^ 54 <= Zpos m2 * q); [|lia]. apply Z.mul_le_mono_nonneg; lia. }
  destruct q as [|q|q]; [lia| |lia].
  assert (Zpos (digits2_pos q) = 53 \/ Zpos (digits2_pos q) = 54) as HD.
  { destruct (Z.lt_ge_cases (Zpos q) (2 ^ 53)); [left|right]; apply digits_unique; lia. }
  destruct (round_aux_spec q (e1 - e2 - 53) (new_location (Zpos m2) r))
    as (m & e & Heq & He & Hb & _ & Hm); [lia|left; lia|].
  exists m, e. split; [exact Heq|]. specialize (Hm ltac:(lia)). split; [done|].
  set (k := e - (e1 - e2 - 53)) in *.
  assert (2 ^ Z.max 0 (Zpos (digits2_pos q) - 53) <= 2)
    by (destruct HD as [-> | ->]; by vm_compute).
  assert (0 < 2 ^ k) by (apply Z.pow_pos_nonneg; lia).
  split; [split; [lia|]|].
  - enough (k < 4) by lia. apply (Z.pow_lt_mono_r_iff 2); [lia|lia|].
    enough (2 ^ 52 * 2 ^ k < 2 ^ 52 * 2 ^ 4) by lia. nia.
  - cbv zeta. nia.
Qed.

Lemma f64_mul_spec (m1 m2 : positive) (e1 e2 : Z) :
  2 ^ 52 <= Zpos m1 < 2 ^ 53 -> 2 ^ 52 <= Zpos m2 < 2 ^ 53 -> -300 <= e1 + e2 <= 300 ->
  exists m e, f64_mul (S754_finite false m1 e1) (S754_finite false m2 e2) = S754_finite false m e /\
    e1 + e2 <= e /\
    Zpos m1 * Zpos m2 - 2 ^ 53 <= Zpos m * 2 ^ (e - (e1 + e2)) <= Zpos m1 * Zpos m2 + 2 ^ 53.
Proof.
  intros H1 H2 He. unfold f64_mul, SFmul. cbn [xorb].
  assert (Zpos (m1 * m2) = Zpos m1 * Zpos m2) as Hm by lia.
  assert (2 ^ 104 <= Zpos (m1 * m2) < 2 ^ 106) as Hr
    by (rewrite Hm; change (2 ^ 104) with (2 ^ 52 * 2 ^ 52);
        change (2 ^ 106) with (2 ^ 53 * 2 ^ 53); nia).
  assert (Zpos (digits2_pos (m1 * m2)) = 105 \/ Zpos (digits2_pos (m1 * m2)) = 106) as HD.
  { destruct (Z.lt_ge_cases (Zpos (m1 * m2)) (2 ^ 105)); [left|right]; apply digits_unique; lia. }
  destruct (round_aux_spec (m1 * m2) (e1 + e2) loc_Exact) as (m & e & Heq & He' & Hb & _);
    [lia|by right|].
  exists m, e. split; [exact Heq|]. split; [done|]. rewrite <- Hm.
  assert (2 ^ Z.max 0 (Zpos (digits2_pos (m1 * m2)) - 53) <= 2 ^ 53)
    by (destruct HD as [-> | ->]; by vm_compute).
  lia.
Qed.

(** Truncation of a positive double, with its value scaled to an integer. *)
Lemma f64_trunc_scaled (m : positive) (e s : Z) :
  0 <= s -> 0 <= e + s -> f64_trunc (S754_finite false m e) = Some (Zpos m * 2 ^ (e + s) / 2 ^ s).
Proof.
  intros Hs He. cbn. f_equal. destruct (Z.leb_spec 0 e).
  - rewrite Z.pow_add_r, Z.mul_assoc, Z.div_mul by (try apply Z.pow_nonzero; lia). done.
  - replace (2 ^ s) with (2 ^ (- e) * 2 ^ (e + s))
      by (rewrite <- Z.pow_add_r by lia; f_equal; lia).
    rewrite Z.div_mul_cancel_r; [done|apply Z.pow_nonzero; lia..].
Qed.

Definition TEN_THOUSAND : positive := 5497558138880000. (** [10000 * 2^39] *)

Lemma f64_10000 : f64_of_Z 10000 = S754_finite false TEN_THOUSAND (-39).
Proof. reflexivity. Qed.

(** The combination of the three relative errors. *)
Lemma errors_combine (t p a b c : Z) :
  0 < t -> 0 < p ->
  t * 2 ^ 52 - t <= a <= t * 2 ^ 52 + t ->
  p * 2 ^ 66 - 30000 * p <= 10000 * b <= p * 2 ^ 66 + 30000 * p ->
  a * b * 2 ^ 51 - a * b <= c * 2 ^ 51 <= a * b * 2 ^ 51 + a * b ->
  t * p * 2 ^ 167 - t * p * 2 ^ 118 <= 10000 * c * 2 ^ 49 <= t * p * 2 ^ 167 + t * p * 2 ^ 118.
Proof.
  intros Ht Hp Ha Hb Hc.
  assert (a * (10000 * b) <= (t * (2 ^ 52 + 1)) * (p * (2 ^ 66 + 30000))) as Hup
    by (apply Z.mul_le_mono_nonneg; lia).
  assert ((t * (2 ^ 52 - 1)) * (p * (2 ^ 66 - 30000)) <= a * (10000 * b)) as Hlo
    by (apply Z.mul_le_mono_nonneg; lia).
  assert (0 < t * p) by nia.
  replace (t * (2 ^ 52 + 1) * (p * (2 ^ 66 + 30000)))
    with (t * p * ((2 ^ 52 + 1) * (2 ^ 66 + 30000))) in Hup by ring.
  replace (t * (2 ^ 52 - 1) * (p * (2 ^ 66 - 30000)))
    with (t * p * ((2 ^ 52 - 1) * (2 ^ 66 - 30000))) in Hlo by ring.
  replace (a * (10000 * b)) with (10000 * (a * b)) in Hup, Hlo by ring.
  set (tp := t * p) in *. set (ab := a * b) in *. clearbody tp ab. lia.
Qed.

(** A share of [p] basis points of [t], computed in doubles and truncated, is
    the exact share up to one unit and a relative error of [2^-49]. *)
Lemma basis_points_close (t p : Z) :
  0 < t <= INT64_MAX -> 0 < p < 2 ^ 32 ->
  exists v, f64_trunc (f64_mul (f64_of_Z t) (f64_div (f64_of_Z p) (f64_of_Z 10000))) = Some v /\
    0 <= v /\ t * p * 2 ^ 49 - t * p - 10000 * 2 ^ 49 < 10000 * v * 2 ^ 49 <= t * p * 2 ^ 49 + t * p.
Proof.
  intros Ht Hp.
  destruct (f64_of_Z_spec t Ht) as (ma & ea & -> & Hma & Hea & Hva & _).
  destruct (f64_of_Z_spec p) as (m1 & e1 & -> & Hm1 & He1 & _ & Hv1); [unfold_ints; lia|].
  specialize (Hv1 ltac:(lia)). rewrite f64_10000.
  destruct (f64_div_spec m1 TEN_THOUSAND e1 (-39)) as (m3 & e3 & -> & Hm3 & He3 & Hx);
    [done|by vm_compute|lia|lia|].
  cbv zeta in Hx. change (Zpos TEN_THOUSAND) with (10000 * 2 ^ 39) in Hx.
  replace (e1 - -39 - 53) with (e1 - 14) in Hx, He3 by lia.
  destruct (f64_mul_spec ma m3 ea e3) as (m4 & e4 & -> & He4 & Hy); [done|done|lia|].
  set (a := Zpos ma * 2 ^ (ea + 52)) in *.
  set (x := Zpos m3 * 2 ^ (e3 - (e1 - 14))) in *.
  set (b := x * 2 ^ (e1 + 52)).
  assert (0 < 2 ^ (e1 + 52)) by (apply Z.pow_pos_nonneg; lia).
  assert (2 ^ (e1 + 52) <= p) by nia.
  assert (p * 2 ^ 66 - 30000 * p <= 10000 * b <= p * 2 ^ 66 + 30000 * p) as Hb.
  { subst b. set (E := 2 ^ (e1 + 52)) in *. clearbody x E.
    assert (p * 2 ^ 66 = Zpos m1 * E * 2 ^ 14) by (rewrite Hv1; ring). nia. }
  set (c := Zpos m4 * 2 ^ (e4 + 118)).
  assert (a * b * 2 ^ 51 - a * b <= c * 2 ^ 51 <= a * b * 2 ^ 51 + a * b) as Hc.
  { set (G := 2 ^ (ea + e3 + 118)). assert (0 < G) by (apply Z.pow_pos_nonneg; lia).
    assert (a * b = Zpos ma * Zpos m3 * G) as ->.
    { subst a b x G. replace (ea + e3 + 118) with ((ea + 52) + ((e3 - (e1 - 14)) + (e1 + 52))) by lia.
      rewrite (Z.pow_add_r 2 (ea + 52)), (Z.pow_add_r 2 (e3 - (e1 - 14)) (e1 + 52)) by lia. ring. }
    assert (c = Zpos m4 * 2 ^ (e4 - (ea + e3)) * G) as ->.
    { subst c G. rewrite <- Z.mul_assoc, <- Z.pow_add_r by lia. f_equal. f_equal. lia. }
    clearbody G. set (Y := Zpos m4 * 2 ^ (e4 - (ea + e3))) in *. clearbody Y.
    assert (2 ^ 104 <= Zpos ma * Zpos m3) by nia. nia. }
  rewrite (f64_trunc_scaled m4 e4 118) by lia. fold c. eexists. split; [done|].
  assert (0 <= c) by (subst c; assert (0 < 2 ^ (e4 + 118)) by (apply Z.pow_pos_nonneg; lia); lia).
  split; [apply Z.div_pos; lia|].
  pose proof (errors_combine t p a b c ltac:(lia) ltac:(lia) Hva Hb Hc) as Hfin.
  pose proof (Z.div_mod c (2 ^ 118) ltac:(lia)).
  pose proof (Z.mod_pos_bound c (2 ^ 118) ltac:(lia)).
  set (v := c / 2 ^ 118) in *. set (tp := t * p) in *. clearbody v tp c. lia.
Qed.
