(* ===== verification/Fees.v ===== *)
(** * Transaction fees

    What a transaction must bid, what it is charged and where the fee goes:
    the fee parts of [src/transactions/TransactionFrame.cpp] and
    [FeeBumpTransactionFrame.cpp] in the build with [_KINESIS] (a percentage of
    the native amount moved, capped), the base fee of a transaction set
    ([src/herder/TxSetFrame.cpp]), the charging of fees
    ([LedgerManagerImpl::processFeesSeqNums]) and the operation that pays the
    fee pool out ([InflationOpFrame.cpp]).

    The model is for protocol version 8 and later (before, accounts were
    cached between calls).  The outcome of a signature check is an argument.
    The ledger is its header and its accounts. *)
From stdpp Require Import base tactics numbers list gmap.
From Stdlib Require Import ZArith Lia Bool.
From S2P Require Import Prelude Numeric OfferExchange LedgerEntries Balances Float64.

Open Scope Z_scope.
Open Scope kin_scope.

(** ** Data *)

Inductive OperationBody :=
  | CREATE_ACCOUNT (destination : AccountID) (startingBalance : Z)
  | PAYMENT (destination : AccountID) (asset : Asset) (amount : Z)
  | PATH_PAYMENT_STRICT_RECEIVE (sendAsset destAsset : Asset) (path : list Asset)
  | PATH_PAYMENT_STRICT_SEND (sendAsset destAsset : Asset) (path : list Asset)
  | OTHER_OPERATION (type : Z).

Record TransactionFrame := {
  tf_isV0 : bool;            (** [ENVELOPE_TYPE_TX_V0] *)
  tf_hasMuxedAccount : bool;
  tf_sourceID : AccountID;
  tf_fee : Z;                (** [uint64] *)
  tf_seqNum : Z;
  tf_timeBounds : option (Z * Z);
  tf_operations : list OperationBody;
}.

Record FeeBumpTransactionFrame := {
  fb_feeSourceID : AccountID;
  fb_fee : Z;                (** [int64] *)
  fb_innerTx : TransactionFrame;
}.

Inductive TransactionFrameBase :=
  | TxFrame (t : TransactionFrame)
  | FeeBumpFrame (f : FeeBumpTransactionFrame).

Inductive fee_error :=
  | FeeConversionUndefined   (** [double] out of the range of [int64_t] *)
  | FeeNumeric (e : num_error)
  | FeeBalances (e : tx_error)
  | UnexpectedDatabaseState
  | UnexpectedAccountSeqNum.

Notation fees := (result fee_error).

(** ** The bid, the minimum and the charge *)

Definition BASIS_POINTS_TO_PERCENT : Z := 10000.

Definition getNumOperations (t : TransactionFrame) : Z := Z.of_nat (length (tf_operations t)).

Definition getFeeBid (t : TransactionFrame) : Z := to_i64 (tf_fee t).

(** The native amount an operation moves. *)
Definition op_amount (op : OperationBody) : Z :=
  match op with
  | CREATE_ACCOUNT _ startingBalance => startingBalance
  | PAYMENT _ asset amount => if is_native asset then amount else 0
  | _ => 0
  end.

(** Fees are [int64_t]s, products and sums included; their overflow is rendered
    as two's complement. *)
Definition totalAmount (ops : list OperationBody) : Z :=
  foldl (fun total op => to_i64 (total + op_amount op)) 0 ops.

Definition getMinFee (header : LedgerHeader) (t : TransactionFrame) : fees Z :=
  let baseFee := to_i64 (baseFee header * Z.max 1 (getNumOperations t)) in
  let rate := f64_div (f64_of_Z (basePercentageFee header)) (f64_of_Z BASIS_POINTS_TO_PERCENT) in
  match f64_to_i64 (f64_mul (f64_of_Z (totalAmount (tf_operations t))) rate) with
  | None => Err FeeConversionUndefined
  | Some accumulatedBasePercentageFee =>
      let totalFee := to_i64 (baseFee + accumulatedBasePercentageFee) in
      let headerMaxFee := to_i64 (maxFee header) in
      Ok (if headerMaxFee <? totalFee then headerMaxFee else totalFee)
  end.

Definition getFee (header : LedgerHeader) (t : TransactionFrame) (baseFee : Z)
    (applying : bool) : Z :=
  if protocolVersionStartsFrom (ledgerVersion header) 11 || negb applying then
    let adjustedFee := to_i64 (baseFee * Z.max 1 (getNumOperations t)) in
    if applying then Z.min (getFeeBid t) adjustedFee else adjustedFee
  else getFeeBid t.

Definition fb_getNumOperations (f : FeeBumpTransactionFrame) : Z :=
  getNumOperations (fb_innerTx f) + 1.

Definition fb_getMinFee (header : LedgerHeader) (f : FeeBumpTransactionFrame) : fees Z :=
  let? innerTxMinFee := getMinFee header (fb_innerTx f) in
  Ok (to_i64 (baseFee header + innerTxMinFee)).

Definition fb_getFee (f : FeeBumpTransactionFrame) (baseFee : Z) (applying : bool) : Z :=
  let adjustedFee := to_i64 (baseFee * Z.max 1 (fb_getNumOperations f)) in
  if applying then Z.min (fb_fee f) adjustedFee else adjustedFee.

(** Dynamic dispatch of [TransactionFrameBase]. *)
Definition base_numOperations (b : TransactionFrameBase) : Z :=
  match b with TxFrame t => getNumOperations t | FeeBumpFrame f => fb_getNumOperations f end.
Definition base_feeBid (b : TransactionFrameBase) : Z :=
  match b with TxFrame t => getFeeBid t | FeeBumpFrame f => fb_fee f end.
Definition base_getMinFee (header : LedgerHeader) (b : TransactionFrameBase) : fees Z :=
  match b with TxFrame t => getMinFee header t | FeeBumpFrame f => fb_getMinFee header f end.
Definition base_getFee (header : LedgerHeader) (b : TransactionFrameBase) (baseFee : Z)
    (applying : bool) : Z :=
  match b with
  | TxFrame t => getFee header t baseFee applying
  | FeeBumpFrame f => fb_getFee f baseFee applying
  end.
Definition base_feeSourceID (b : TransactionFrameBase) : AccountID :=
  match b with TxFrame t => tf_sourceID t | FeeBumpFrame f => fb_feeSourceID f end.

(** ** Transaction sets *)

Definition MAX_OPS_PER_TX : Z := 100.

Definition sizeOp (txs : list TransactionFrameBase) : Z :=
  foldl (fun a tx => a + base_numOperations tx) 0 txs.

(** The lowest bid per operation, rounded up. *)
Fixpoint lowBaseFee (txs : list TransactionFrameBase) (low : Z) : fees Z :=
  match txs with
  | [] => Ok low
  | tx :: txs' =>
      let? txBaseFee := res_err FeeNumeric
        (bigDivideOrThrow (base_feeBid tx) 1 (base_numOperations tx) ROUND_UP) in
      lowBaseFee txs' (Z.min low txBaseFee)
  end.

Definition surgeOpsCutoff (lh : LedgerHeader) : Z :=
  if MAX_OPS_PER_TX <=? maxTxSetSize lh then maxTxSetSize lh - MAX_OPS_PER_TX else 0.

Definition getBaseFee (lh : LedgerHeader) (txs : list TransactionFrameBase) : fees Z :=
  if protocolVersionStartsFrom (ledgerVersion lh) 11 then
    let? low := lowBaseFee txs INT64_MAX in
    if surgeOpsCutoff lh <? sizeOp txs then Ok low else Ok (baseFee lh)
  else Ok (baseFee lh).

Definition getTotalFees (lh : LedgerHeader) (txs : list TransactionFrameBase) : fees Z :=
  let? baseFee := getBaseFee lh txs in
  Ok (foldl (fun t tx => to_i64 (t + base_getFee lh tx baseFee true)) 0 txs).

(** ** Charging the fees *)

Record FeeState := {
  fs_header : LedgerHeader;
  fs_accounts : gmap Z AccountEntry;
}.

Definition set_feePool (x : Z) (h : LedgerHeader) : LedgerHeader :=
  {| ledgerVersion := ledgerVersion h; scpValue_closeTime := scpValue_closeTime h;
     ledgerSeq := ledgerSeq h; totalCoins := totalCoins h; feePool := x;
     inflationSeq := inflationSeq h; idPool := idPool h; baseFee := baseFee h;
     basePercentageFee := basePercentageFee h; maxFee := maxFee h;
     baseReserve := baseReserve h; maxTxSetSize := maxTxSetSize h;
     header_flags := header_flags h |}.

Definition set_acc_seqNum (s : Z) (a : AccountEntry) : AccountEntry :=
  {| acc_accountID := acc_accountID a; acc_balance := acc_balance a; acc_seqNum := s;
     acc_numSubEntries := acc_numSubEntries a; acc_inflationDest := acc_inflationDest a;
     acc_flags := acc_flags a; acc_homeDomain := acc_homeDomain a;
     acc_thresholds := acc_thresholds a; acc_signers := acc_signers a;
     acc_ext := acc_ext a |}.

(** Takes the fee from the account; returns what was taken.  A failure of
    [addBalance] is ignored, as in the code. *)
Definition chargeAccount (acc : AccountEntry) (fee pool : Z) : fees (AccountEntry * Z * Z) :=
  if 0 <? fee then
    let fee := Z.min (acc_balance acc) fee in
    let? (_, newBalance) := res_err FeeBalances
      (addBalanceTo (acc_balance acc) (- fee) INT64_MAX) in
    Ok (set_acc_balance newBalance acc, to_i64 (pool + fee), fee)
  else Ok (acc, pool, fee).

(** Before version 10 sequence numbers are consumed with the fee. *)
Definition takeSeqNum (header : LedgerHeader) (tx : TransactionFrameBase) (acc : AccountEntry)
    : fees AccountEntry :=
  match tx with
  | TxFrame t =>
      if protocolVersionIsBefore (ledgerVersion header) 10 then
        if negb (acc_seqNum acc + 1 =? tf_seqNum t) then Err UnexpectedAccountSeqNum
        else Ok (set_acc_seqNum (tf_seqNum t) acc)
      else Ok acc
  | FeeBumpFrame _ => Ok acc
  end.

(** [processFeeSeqNum] of both kinds of transaction; returns [feeCharged]. *)
Definition processFeeSeqNum (tx : TransactionFrameBase) (baseFee : Z) (s : FeeState)
    : fees (FeeState * Z) :=
  let header := fs_header s in
  let fee := base_getFee header tx baseFee true in
  match fs_accounts s !! base_feeSourceID tx with
  | None => Err UnexpectedDatabaseState
  | Some acc =>
      let? (acc, pool, fee) := chargeAccount acc fee (feePool header) in
      let? acc := takeSeqNum header tx acc in
      Ok ({| fs_header := set_feePool pool header;
             fs_accounts := <[base_feeSourceID tx := acc]> (fs_accounts s) |}, fee)
  end.

Fixpoint processFeesSeqNums (txs : list TransactionFrameBase) (baseFee : Z) (s : FeeState)
    : fees (FeeState * list Z) :=
  match txs with
  | [] => Ok (s, [])
  | tx :: txs' =>
      let? (s', fee) := processFeeSeqNum tx baseFee s in
      let? (s'', charged) := processFeesSeqNums txs' baseFee s' in
      Ok (s'', fee :: charged)
  end.

(** ** Validity: the checks that involve the fee *)

Inductive TransactionResultCode :=
  | txNOT_SUPPORTED | txMISSING_OPERATION | txTOO_EARLY | txTOO_LATE
  | txINSUFFICIENT_FEE | txNO_ACCOUNT | txBAD_SEQ | txBAD_AUTH
  | txINSUFFICIENT_BALANCE.

Inductive ValidationType :=
  | kInvalid | kInvalidUpdateSeqNum | kInvalidPostAuth | kMaybeValid.

Definition isTooEarly (header : LedgerHeader) (t : TransactionFrame) (offset : Z) : bool :=
  match tf_timeBounds t with
  | Some (minTime, _) =>
      negb (minTime =? 0) && (u64 (scpValue_closeTime header + offset) <? minTime)
  | None => false
  end.

Definition isTooLate (header : LedgerHeader) (t : TransactionFrame) (offset : Z) : bool :=
  match tf_timeBounds t with
  | Some (_, maxTime) =>
      negb (maxTime =? 0) && (maxTime <? u64 (scpValue_closeTime header + offset))
  | None => false
  end.

(** [None] when the checks pass. *)
Definition commonValidPreSeqNum (s : FeeState) (t : TransactionFrame) (chargeFee : bool)
    (lowerBoundCloseTimeOffset upperBoundCloseTimeOffset : Z)
    : fees (option TransactionResultCode) :=
  let header := fs_header s in
  let version := ledgerVersion header in
  if (protocolVersionIsBefore version 13 && (negb (tf_isV0 t) || tf_hasMuxedAccount t)) ||
     (protocolVersionStartsFrom version 13 && tf_isV0 t)
  then Ok (Some txNOT_SUPPORTED) else
  if getNumOperations t =? 0 then Ok (Some txMISSING_OPERATION) else
  if isTooEarly header t lowerBoundCloseTimeOffset then Ok (Some txTOO_EARLY) else
  if isTooLate header t upperBoundCloseTimeOffset then Ok (Some txTOO_LATE) else
  let? low := (if (chargeFee : bool)
               then let? m := getMinFee header t in Ok (getFeeBid t <? m)
               else Ok (getFeeBid t <? 0)) in
  if (low : bool) then Ok (Some txINSUFFICIENT_FEE) else
  match fs_accounts s !! tf_sourceID t with
  | None => Ok (Some txNO_ACCOUNT)
  | Some _ => Ok None
  end.

Definition isBadSeq (header : LedgerHeader) (t : TransactionFrame) (seqNum : Z) : fees bool :=
  if seqNum =? INT64_MAX then Ok true else
  if negb (seqNum + 1 =? tf_seqNum t) then Ok true else
  let? start := res_err FeeBalances (getStartingSequenceNumber (ledgerSeq header)) in
  Ok (tf_seqNum t =? start).

(** The account entry as the ledger stores it. *)
Definition account_entry (acc : AccountEntry) : LedgerEntry :=
  {| lastModifiedLedgerSeq := 0; le_data := ACCOUNT acc; le_ext := None |}.

(** What the account must be able to pay: the bid, cut to 32 bits. *)
Definition feeToPay (header : LedgerHeader) (t : TransactionFrame) (applying : bool) : Z :=
  if applying && protocolVersionStartsFrom (ledgerVersion header) 9 then 0
  else u32 (getFeeBid t).

Definition commonValid (s : FeeState) (t : TransactionFrame) (current : Z)
    (applying chargeFee signaturesOk : bool)
    (lowerBoundCloseTimeOffset upperBoundCloseTimeOffset : Z)
    : fees (ValidationType * option TransactionResultCode) :=
  let header := fs_header s in
  let? pre := commonValidPreSeqNum s t chargeFee lowerBoundCloseTimeOffset
                upperBoundCloseTimeOffset in
  match pre with
  | Some code => Ok (kInvalid, Some code)
  | None =>
      match fs_accounts s !! tf_sourceID t with
      | None => Err UnexpectedDatabaseState
      | Some acc =>
          let? bad :=
            (if protocolVersionStartsFrom (ledgerVersion header) 10 || negb applying
             then isBadSeq header t (if current =? 0 then acc_seqNum acc else current)
             else Ok false) in
          if (bad : bool) then Ok (kInvalid, Some txBAD_SEQ) else
          if negb signaturesOk then Ok (kInvalidUpdateSeqNum, Some txBAD_AUTH) else
          let? low :=
            (if (chargeFee : bool) then
               let? avail := res_err FeeBalances
                 (getAvailableBalance header (account_entry acc)) in
               Ok (avail <? feeToPay header t applying)
             else Ok false) in
          if (low : bool) then Ok (kInvalidPostAuth, Some txINSUFFICIENT_BALANCE)
          else Ok (kMaybeValid, None)
      end
  end.

(** [FeeBumpTransactionFrame::commonValidPreSeqNum]: the bid must cover the
    minimum, and at least the same rate as the inner transaction bids. *)
Definition fb_commonValidPreSeqNum (s : FeeState) (f : FeeBumpTransactionFrame)
    : fees (option (TransactionResultCode * option Z)) :=
  let header := fs_header s in
  if protocolVersionIsBefore (ledgerVersion header) 13
  then Ok (Some (txNOT_SUPPORTED, None)) else
  let? minFee := fb_getMinFee header f in
  if fb_fee f <? minFee then Ok (Some (txINSUFFICIENT_FEE, None)) else
  let? innerMinFee := getMinFee header (fb_innerTx f) in
  let? v1 := res_err FeeNumeric (bigMultiply (fb_fee f) innerMinFee) in
  let? v2 := res_err FeeNumeric (bigMultiply (getFeeBid (fb_innerTx f)) minFee) in
  if v1 <? v2 then
    let? (ok, v) := res_err FeeNumeric (bigDivide128 v2 innerMinFee ROUND_UP) in
    Ok (Some (txINSUFFICIENT_FEE, if (ok : bool) then v else Some INT64_MAX))
  else
    match fs_accounts s !! fb_feeSourceID f with
    | None => Ok (Some (txNO_ACCOUNT, None))
    | Some _ => Ok None
    end.

(** ** Paying out the fee pool *)

Definition INFLATION_FREQUENCY : Z := 60 * 60 * 24 * 7.
Definition INFLATION_START_TIME : Z := 1404172800.

Inductive InflationResult := INFLATION_NOT_TIME | INFLATION_SUCCESS (payouts : list (AccountID * Z)).

Definition set_inflation (pool seq : Z) (h : LedgerHeader) : LedgerHeader :=
  {| ledgerVersion := ledgerVersion h; scpValue_closeTime := scpValue_closeTime h;
     ledgerSeq := ledgerSeq h; totalCoins := totalCoins h; feePool := pool;
     inflationSeq := seq; idPool := idPool h; baseFee := baseFee h;
     basePercentageFee := basePercentageFee h; maxFee := maxFee h;
     baseReserve := baseReserve h; maxTxSetSize := maxTxSetSize h;
     header_flags := header_flags h |}.

(** [InflationOpFrame::doApply(Application&, AbstractLedgerTxn&)] of the fork:
    the whole pool goes to one account, derived from the network passphrase.
    The result of [addBalance] is ignored. *)
Definition inflation_doApply (feeDestination : AccountID) (s : FeeState)
    : fees (FeeState * InflationResult) :=
  let lh := fs_header s in
  let inflationTime := INFLATION_START_TIME + inflationSeq lh * INFLATION_FREQUENCY in
  if scpValue_closeTime lh <? inflationTime then Ok (s, INFLATION_NOT_TIME) else
  let amountToDole := feePool lh in
  let lh := set_inflation 0 (u32 (inflationSeq lh + 1)) lh in
  match fs_accounts s !! feeDestination with
  | Some winner =>
      let leftAfterDole := amountToDole - amountToDole in
      let? (_, e) := res_err FeeBalances (addBalance lh (account_entry winner) amountToDole) in
      let winner := match le_data e with ACCOUNT a => a | _ => winner end in
      Ok ({| fs_header := set_inflation (0 + leftAfterDole) (inflationSeq lh) lh;
             fs_accounts := <[feeDestination := winner]> (fs_accounts s) |},
          INFLATION_SUCCESS [(feeDestination, amountToDole)])
  | None =>
      Ok ({| fs_header := set_inflation (0 + amountToDole) (inflationSeq lh) lh;
             fs_accounts := fs_accounts s |}, INFLATION_SUCCESS [])
  end.

(** ** Lemmas *)

(** All native units: what the accounts hold. *)
Definition total_balance (m : gmap Z AccountEntry) : Z :=
  map_fold (fun _ a t => acc_balance a + t) 0 m.

Lemma total_delete (m : gmap Z AccountEntry) (k : Z) (a : AccountEntry) :
  m !! k = Some a -> total_balance m = acc_balance a + total_balance (delete k m).
Proof.
  intros H. unfold total_balance.
  apply (map_fold_delete_L (fun (_ : Z) (a : AccountEntry) (t : Z) => acc_balance a + t) 0 k a m);
    [|done].
  intros. lia.
Qed.

Lemma total_insert (m : gmap Z AccountEntry) (k : Z) (a a' : AccountEntry) :
  m !! k = Some a ->
  total_balance (<[k := a']> m) = total_balance m - acc_balance a + acc_balance a'.
Proof.
  intros H. rewrite (total_delete m k a H).
  rewrite (total_delete (<[k := a']> m) k a') by apply lookup_insert_eq.
  rewrite delete_insert_eq. lia.
Qed.





Lemma acc_seqNum_balance (s : Z) (a : AccountEntry) :
  acc_balance (set_acc_seqNum s a) = acc_balance a.
Proof. done. Qed.







(** *** The minimum fee *)

Lemma totalAmount_sum (ops : list OperationBody) (t : Z) :
  Forall (fun op => 0 <= op_amount op) ops -> 0 <= t ->
  t + foldr Z.add 0 (op_amount <$> ops) <= INT64_MAX ->
  foldl (fun total op => to_i64 (total + op_amount op)) t ops =
    t + foldr Z.add 0 (op_amount <$> ops).
Proof.
  revert t. induction ops as [|op ops IH]; intros t Hall Ht Hsum; cbn in *; [lia|].
  apply Forall_cons in Hall as [Hop Hall].
  assert (0 <= foldr Z.add 0 (op_amount <$> ops)).
  { clear -Hall. induction Hall; cbn; lia. }
  rewrite to_i64_small by lia. rewrite IH; [lia|done|lia|lia].
Qed.

Lemma f64_zero_share (p : Z) :
  0 <= p < 2 ^ 32 ->
  f64_trunc (f64_mul (f64_of_Z 0) (f64_div (f64_of_Z p) (f64_of_Z 10000))) = Some 0.
Proof.
  intros Hp. rewrite f64_10000. destruct (decide (p = 0)) as [->|Hne]; [done|].
  destruct (f64_of_Z_spec p) as (m & e & -> & Hm & He & _); [unfold_ints; lia|].
  by destruct (f64_div_spec m TEN_THOUSAND e (-39)) as (m3 & e3 & -> & _);
    [done|by vm_compute|lia|lia|].
Qed.

Lemma f64_share_zero (t : Z) :
  0 < t <= INT64_MAX ->
  f64_trunc (f64_mul (f64_of_Z t) (f64_div (f64_of_Z 0) (f64_of_Z 10000))) = Some 0.
Proof. intros Ht. by destruct (f64_of_Z_spec t Ht) as (m & e & -> & _). Qed.

(** ** Properties *)

(** The minimum fee of a transaction is what the fork intends, up to the
    rounding of its floating-point arithmetic: the base fee per operation plus
    [basePercentageFee] basis points of the native amount moved by
    CREATE_ACCOUNT and PAYMENT operations, at most [maxFee].  The conversions
    and products in [double] stay in range (for amounts up to [2^62] and rates
    up to 100%), and the percentage is the exact one truncated, up to one unit
    and a relative error of [2^-49]. *)
Theorem minFee_spec (h : LedgerHeader) (t : TransactionFrame) :
  let amount := foldr Z.add 0 (op_amount <$> tf_operations t) in
  let p := basePercentageFee h in
  is_u32 (baseFee h) -> 0 <= p <= BASIS_POINTS_TO_PERCENT -> 0 <= maxFee h <= INT64_MAX ->
  getNumOperations t <= MAX_OPS_PER_TX ->
  Forall (fun op => 0 <= op_amount op) (tf_operations t) -> amount <= 2 ^ 62 ->
  exists share,
    getMinFee h t = Ok (Z.min (maxFee h) (baseFee h * Z.max 1 (getNumOperations t) + share)) /\
    0 <= share /\
    amount * p * 2 ^ 49 - amount * p - 10000 * 2 ^ 49 < 10000 * share * 2 ^ 49
      <= amount * p * 2 ^ 49 + amount * p.
Proof.
  intros amount p Hbf Hp Hmx Hn Hall Ham. unfold BASIS_POINTS_TO_PERCENT, MAX_OPS_PER_TX in *.
  assert (0 <= amount) as Ham0.
  { subst amount. clear -Hall. induction Hall; cbn; lia. }
  assert (totalAmount (tf_operations t) = amount) as Htot.
  { unfold totalAmount. rewrite totalAmount_sum; unfold_ints; fold amount; (done || lia). }
  assert (exists v, f64_trunc (f64_mul (f64_of_Z amount)
    (f64_div (f64_of_Z p) (f64_of_Z BASIS_POINTS_TO_PERCENT))) = Some v /\ 0 <= v /\
    amount * p * 2 ^ 49 - amount * p - 10000 * 2 ^ 49 < 10000 * v * 2 ^ 49
      <= amount * p * 2 ^ 49 + amount * p) as (v & Hv & Hv0 & Hb).
  { destruct (decide (amount = 0)) as [->|];
      [exists 0; split; [apply f64_zero_share; lia|lia]|].
    destruct (decide (p = 0)) as [->|];
      [exists 0; split; [apply f64_share_zero; unfold_ints; lia|lia]|].
    apply basis_points_close; unfold_ints; lia. }
  exists v. split; [|done].
  assert (amount * p <= 2 ^ 62 * 10000) by (apply Z.mul_le_mono_nonneg; lia).
  assert (v <= 2 ^ 62 + 2 ^ 14) by (set (ap := amount * p) in *; clearbody ap; lia).
  unfold getMinFee. fold p. rewrite Htot. unfold f64_to_i64. rewrite Hv.
  destruct (Z.leb_spec (- (INT64_MAX + 1)) v); [|unfold_ints; lia].
  destruct (Z.leb_spec v INT64_MAX); [|unfold_ints; lia]. cbn [andb].
  assert (0 <= baseFee h * Z.max 1 (getNumOperations t) <= 2 ^ 39)
    by (assert (0 <= baseFee h < 2 ^ 32) by (unfold_ints; lia); nia).
  rewrite (to_i64_small (baseFee h * _)) by (unfold_ints; lia).
  rewrite !to_i64_small by (unfold_ints; lia). f_equal.
  destruct (Z.ltb_spec (maxFee h) (baseFee h * Z.max 1 (getNumOperations t) + v)); lia.
Qed.

Definition example_payment (fee x : Z) : TransactionFrame :=
  {| tf_isV0 := false; tf_hasMuxedAccount := false; tf_sourceID := 7; tf_fee := fee;
     tf_seqNum := 2; tf_timeBounds := None;
     tf_operations := [PAYMENT 8 ASSET_TYPE_NATIVE x] |}.

(** 45 basis points of 6000 are 27; the computation in [double] gives 26. *)
Lemma minFee_spec_witness :
  6000 * 45 / 10000 = 27 /\
  getMinFee example_header (example_payment 126 6000) = Ok 126 /\
  exists share, getMinFee example_header (example_payment 126 6000) =
    Ok (Z.min 10000000 (100 * 1 + share)).
Proof.
  split; [reflexivity|]. split; [vm_compute; reflexivity|].
  destruct (minFee_spec example_header (example_payment 126 6000)
    ltac:(vm_compute; split; congruence) ltac:(vm_compute; split; congruence)
    ltac:(vm_compute; split; congruence) ltac:(vm_compute; congruence)
    ltac:(repeat constructor; vm_compute; congruence) ltac:(vm_compute; congruence))
    as (share & H & _).
  exists share. exact H.
Defined.






(** The largest bid, of two operations, under surge pricing: the bid for an
    operation is rounded up, its product overflows, and nothing is charged. *)
Lemma largest_bid_not_charged (s : FeeState) (t : TransactionFrame) (acc : AccountEntry) :
  11 <= ledgerVersion (fs_header s) -> tf_fee t = INT64_MAX -> length (tf_operations t) = 2%nat ->
  surgeOpsCutoff (fs_header s) < 2 -> fs_accounts s !! tf_sourceID t = Some acc ->
  getBaseFee (fs_header s) [TxFrame t] = Ok (2 ^ 62) /\
  exists s', processFeesSeqNums [TxFrame t] (2 ^ 62) s = Ok (s', [- 2 ^ 63]) /\
    feePool (fs_header s') = feePool (fs_header s) /\ fs_accounts s' = fs_accounts s.
Proof.
  intros Hv Hf Hl Hs Hacc.
  assert (protocolVersionStartsFrom (ledgerVersion (fs_header s)) 11 = true) as Hv' by (by apply Z.leb_le).
  assert (getNumOperations t = 2) as Hn by (unfold getNumOperations; by rewrite Hl).
  assert (getFeeBid t = INT64_MAX) as Hb by (unfold getFeeBid; by rewrite Hf).
  split.
  - unfold getBaseFee. rewrite Hv'. cbn [lowBaseFee base_feeBid base_numOperations]. rewrite Hb, Hn.
    replace (bigDivideOrThrow INT64_MAX 1 2 ROUND_UP) with (Ok (2 ^ 62) : result num_error Z)
      by (vm_compute; reflexivity).
    cbn [res_err res_bind]. unfold sizeOp. cbn [foldl base_numOperations]. rewrite Hn.
    destruct (Z.ltb_spec (surgeOpsCutoff (fs_header s)) (0 + 2)); [done|lia].
  - unfold processFeesSeqNums, processFeeSeqNum. cbn [base_getFee base_feeSourceID]. rewrite Hacc.
    assert (getFee (fs_header s) t (2 ^ 62) true = - 2 ^ 63) as ->
      by (unfold getFee; rewrite Hv', Hn, Hb; vm_compute; reflexivity).
    cbn [chargeAccount Z.ltb res_bind]. unfold chargeAccount. cbn.
    assert (10 <= ledgerVersion (fs_header s)) as Hv10 by lia.
    rewrite (before_v10 _ Hv10). cbn. eexists. split; [done|]. cbn.
    split; [done|]. by apply insert_id.
Qed.

Definition example_fee_state : FeeState :=
  {| fs_header := example_header; fs_accounts := {[ 7 := example_account ]} |}.



Lemma to_i64_le (x : Z) : 0 <= x -> to_i64 x <= x.
Proof.
  intros Hx. unfold to_i64. cbv zeta. assert (u64 x <= x) by (apply Z.mod_le; unfold_ints; lia).
  destruct (_ <=? _); unfold_ints; lia.
Qed.

(** The percentage that a transaction must bid is not what it pays: in a
    ledger without surge pricing (version 11 and later) a transaction whose
    minimum fee is above the base fee of its operations is charged less than
    that minimum, whatever it bids. *)
Theorem percentage_fee_not_charged (h : LedgerHeader) (txs : list TransactionFrameBase)
    (t : TransactionFrame) (b m : Z) :
  11 <= ledgerVersion h -> 0 <= baseFee h -> sizeOp txs <= surgeOpsCutoff h ->
  getBaseFee h txs = Ok b -> getMinFee h t = Ok m ->
  baseFee h * Z.max 1 (getNumOperations t) < m ->
  getFee h t b true < m.
Proof.
  intros Hv Hbf Hs Hb Hm Hlt. unfold getBaseFee in Hb.
  assert (protocolVersionStartsFrom (ledgerVersion h) 11 = true) as Hv' by (by apply Z.leb_le).
  rewrite Hv' in Hb. destruct (lowBaseFee txs INT64_MAX); [|done]. cbn in Hb.
  destruct (Z.ltb_spec (surgeOpsCutoff h) (sizeOp txs)); [lia|]. simplify_eq.
  unfold getFee. rewrite Hv'. cbn.
  pose proof (to_i64_le (baseFee h * Z.max 1 (getNumOperations t)) ltac:(nia)). lia.
Qed.

Definition quiet_header : LedgerHeader :=
  {| ledgerVersion := 18; scpValue_closeTime := 1600000000; ledgerSeq := 1000;
     totalCoins := 1000000000000000000; feePool := 500; inflationSeq := 0; idPool := 0;
     baseFee := 100; basePercentageFee := 45; maxFee := 10000000; baseReserve := 5000000;
     maxTxSetSize := 1000; header_flags := None |}.

Lemma percentage_fee_not_charged_witness :
  getMinFee quiet_header (example_payment 45100 10000000) = Ok 45100 /\
  getFee quiet_header (example_payment 45100 10000000) 100 true = 100 /\
  getFee quiet_header (example_payment 45100 10000000) 100 true < 45100.
Proof.
  split; [vm_compute; reflexivity|]. split; [vm_compute; reflexivity|].
  apply (percentage_fee_not_charged quiet_header [TxFrame (example_payment 45100 10000000)]);
    vm_compute; congruence.
Defined.

(** *** The bid and the balance *)

Definition set_fee (fee : Z) (t : TransactionFrame) : TransactionFrame :=
  {| tf_isV0 := tf_isV0 t; tf_hasMuxedAccount := tf_hasMuxedAccount t;
     tf_sourceID := tf_sourceID t; tf_fee := fee; tf_seqNum := tf_seqNum t;
     tf_timeBounds := tf_timeBounds t; tf_operations := tf_operations t |}.

Section bid.
Context (s : FeeState) (t : TransactionFrame) (fee : Z).
Context (Hfee : 0 <= tf_fee t <= fee) (Hmax : fee <= INT64_MAX).

(** Raising the bid does not fail an earlier check. *)
Lemma commonValidPreSeqNum_mono (chargeFee : bool) (lo up : Z) :
  commonValidPreSeqNum s t chargeFee lo up = Ok None ->
  commonValidPreSeqNum s (set_fee fee t) chargeFee lo up = Ok None.
Proof.
  unfold commonValidPreSeqNum.
  change (getNumOperations (set_fee fee t)) with (getNumOperations t).
  change (isTooEarly (fs_header s) (set_fee fee t) lo) with (isTooEarly (fs_header s) t lo).
  change (isTooLate (fs_header s) (set_fee fee t) up) with (isTooLate (fs_header s) t up).
  change (getMinFee (fs_header s) (set_fee fee t)) with (getMinFee (fs_header s) t).
  assert (getFeeBid t = tf_fee t) as -> by (apply to_i64_small; lia).
  assert (getFeeBid (set_fee fee t) = fee) as -> by (apply to_i64_small; lia).
  cbn [tf_isV0 tf_hasMuxedAccount tf_sourceID set_fee].
  repeat (case_match; [done|]).
  destruct chargeFee; cbn [res_bind].
  - destruct (getMinFee (fs_header s) t) as [m|]; [|done]. cbn [res_bind].
    destruct (Z.ltb_spec (tf_fee t) m); [done|]. by destruct (Z.ltb_spec fee m); [lia|].
  - destruct (Z.ltb_spec (tf_fee t) 0); [done|]. by destruct (Z.ltb_spec fee 0); [lia|].
Qed.
End bid.

(** The check that an account can pay what its transaction bids is lost
    for large bids: the bid is cut to 32 bits before it is compared with the
    available balance, so raising a valid bid by any multiple of [2^32] gives
    a transaction that is valid for the same account, however small its
    balance. *)
Theorem fee_bid_truncated (s : FeeState) (t : TransactionFrame) (k current : Z)
    (applying signaturesOk : bool) (lo up : Z) :
  0 <= tf_fee t -> 0 <= k -> tf_fee t + k * 2 ^ 32 <= INT64_MAX ->
  commonValid s t current applying true signaturesOk lo up = Ok (kMaybeValid, None) ->
  commonValid s (set_fee (tf_fee t + k * 2 ^ 32) t) current applying true signaturesOk lo up
    = Ok (kMaybeValid, None).
Proof.
  intros Hf Hk Hmax. unfold commonValid.
  destruct (commonValidPreSeqNum s t true lo up) as [[code|]|] eqn:E; [done| |done].
  rewrite (commonValidPreSeqNum_mono s t (tf_fee t + k * 2 ^ 32)) by (done || lia).
  cbn [res_bind tf_sourceID set_fee].
  assert (feeToPay (fs_header s) (set_fee (tf_fee t + k * 2 ^ 32) t) applying =
    feeToPay (fs_header s) t applying) as ->; [|done].
  unfold feeToPay. case_match; [done|]. unfold getFeeBid. cbn [tf_fee set_fee].
  rewrite !to_i64_small by lia. unfold u32. change (UINT32_MAX + 1) with (2 ^ 32).
  by rewrite Z_mod_plus_full.
Qed.

(** A bid of more than four thousand billion passes the check of an account
    that can spend 79 million. *)
Lemma fee_bid_truncated_witness :
  getAvailableBalance example_header example_entry = Ok 79000000 /\
  commonValid example_fee_state (set_fee (126 + 1000 * 2 ^ 32) (example_payment 126 6000))
    0 false true true 0 0 = Ok (kMaybeValid, None).
Proof.
  split; [vm_compute; reflexivity|].
  apply (fee_bid_truncated example_fee_state (example_payment 126 6000) 1000 0 false true 0 0);
    vm_compute; congruence.
Defined.

(** *** The fee pool *)

(** Paying out the fee pool: before its time nothing changes; without the
    destination account the pool stays as it is; with it the whole pool is
    reported as paid and the pool is empty, but the units arrive only if the
    account has room for them: since a failed [addBalance] is ignored, a pool
    larger than that room is destroyed. *)
Theorem inflation_pays_out (dest : AccountID) (s : FeeState) :
  let h := fs_header s in
  10 <= ledgerVersion h -> 0 <= baseReserve h -> 0 < feePool h ->
  (forall acc, fs_accounts s !! dest = Some acc ->
     wf_entry (account_entry acc) /\ exists m, getMinBalance h acc = Ok m) ->
  exists s' res, inflation_doApply dest s = Ok (s', res) /\
    if scpValue_closeTime h <? INFLATION_START_TIME + inflationSeq h * INFLATION_FREQUENCY
    then s' = s /\ res = INFLATION_NOT_TIME
    else match fs_accounts s !! dest with
         | None => fs_accounts s' = fs_accounts s /\ feePool (fs_header s') = feePool h /\
                   res = INFLATION_SUCCESS []
         | Some acc =>
             let room := INT64_MAX - (acc_balance acc + buying (acc_liab acc)) in
             feePool (fs_header s') = 0 /\ res = INFLATION_SUCCESS [(dest, feePool h)] /\
             total_balance (fs_accounts s') =
               total_balance (fs_accounts s) + (if feePool h <=? room then feePool h else 0)
         end.
Proof.
  intros h Hv Hres Hpool Hacc. unfold inflation_doApply. fold h.
  destruct (scpValue_closeTime h <? _); [by do 2 eexists|].
  destruct (fs_accounts s !! dest) as [acc|] eqn:E; [|by do 2 eexists].
  destruct (Hacc acc eq_refl) as [Hwf [m Hm]]. clear Hacc.
  rewrite (account_balance_eq (set_inflation 0 (u32 (inflationSeq h + 1)) h) Hv Hres
    (account_entry acc) acc m (feePool h) eq_refl Hwf Hm) by lia.
  destruct (Z.ltb_spec (feePool h) 0); [lia|].
  destruct (feePool h <=? _) eqn:Eroom; cbn [res_err res_bind];
    (do 2 eexists; split; [reflexivity|]; cbn [fs_header fs_accounts]; split; [cbn; lia|];
     split; [done|]); rewrite (total_insert _ _ acc) by done; cbn; rewrite ?Eroom; lia.
Qed.

(** The destination has offers out that buy almost all it can hold: the pool of
    500 is lost. *)
Definition crowded_account : AccountEntry :=
  {| acc_accountID := 7; acc_balance := 100000000; acc_seqNum := 1; acc_numSubEntries := 2;
     acc_inflationDest := None; acc_flags := 0; acc_homeDomain := acc_homeDomain example_account;
     acc_thresholds := [1; 0; 0; 0]; acc_signers := [];
     acc_ext := Some {| acc_liabilities := {| buying := INT64_MAX - 100000400; selling := 0 |};
                        acc_ext_v2 := None |} |}.

Definition crowded_state : FeeState :=
  {| fs_header := example_header; fs_accounts := {[ 7 := crowded_account ]} |}.

Lemma inflation_pays_out_witness :
  exists s', inflation_doApply 7 crowded_state = Ok (s', INFLATION_SUCCESS [(7, 500)]) /\
    feePool (fs_header s') = 0 /\
    total_balance (fs_accounts s') = total_balance (fs_accounts crowded_state).
Proof.
  destruct (inflation_pays_out 7 crowded_state ltac:(vm_compute; congruence)
    ltac:(vm_compute; congruence) ltac:(vm_compute; reflexivity)) as (s' & res & H1 & H2).
  { intros acc Hacc. vm_compute in Hacc. injection Hacc as <-.
    split; [vm_compute; repeat split; congruence|]. eexists. vm_compute. reflexivity. }
  exists s'. change (feePool (fs_header s') = 0 /\ res = INFLATION_SUCCESS [(7, 500)] /\
    total_balance (fs_accounts s') = total_balance (fs_accounts crowded_state) + 0) in H2.
  destruct H2 as (Hp & -> & Ht). split; [exact H1|]. split; [exact Hp|].
  rewrite Ht. apply Z.add_0_r.
Defined.
