(* ===== verification/QuorumSet.v ===== *)
(** * Quorum sets

    [SCPQuorumSet] ([src/xdr/Stellar-SCP.x]) and [src/scp/QuorumSetUtils.cpp]:
    the sanity check applied to every quorum set received from the network,
    and the normalisation applied to the local one. *)
From stdpp Require Import base tactics list sorting numbers sets gmap.
From Stdlib Require Import ZArith Lia Bool Permutation.
From S2P Require Import Prelude Containers.

Open Scope Z_scope.

(** A node is its ed25519 public key: the XDR union has one arm, and its
    order is that of the key bytes. *)
Definition NodeID : Type := bytes.

(** [qSet.threshold], [qSet.validators], [qSet.innerSets]. *)
Inductive SCPQuorumSet : Type :=
  mkQSet (threshold : Z) (validators : list NodeID) (innerSets : list SCPQuorumSet).

Definition threshold (q : SCPQuorumSet) : Z := let 'mkQSet t _ _ := q in t.
Definition validators (q : SCPQuorumSet) : list NodeID := let 'mkQSet _ v _ := q in v.
Definition innerSets (q : SCPQuorumSet) : list SCPQuorumSet := let 'mkQSet _ _ i := q in i.

(** Induction that reaches the inner sets. *)
Lemma qset_ind' (P : SCPQuorumSet -> Prop) :
  (forall t v i, Forall P i -> P (mkQSet t v i)) -> forall q, P q.
Proof.
  intros HP. fix IH 1. intros [t v i]. apply HP.
  induction i as [|q i IHi]; constructor; [apply IH | exact IHi].
Qed.

(** All nodes named by a quorum set, in the order [forAllNodes] meets them. *)
Fixpoint qset_nodes (q : SCPQuorumSet) : list NodeID :=
  let 'mkQSet _ v i := q in
  v ++ (fix go (l : list SCPQuorumSet) : list NodeID :=
          match l with [] => [] | x :: l' => qset_nodes x ++ go l' end) i.

Lemma qset_nodes_eq t v i :
  qset_nodes (mkQSet t v i) = v ++ concat (map qset_nodes i).
Proof.
  simpl. f_equal. induction i as [|x i IH]; simpl; [done|]. by rewrite IH.
Qed.

(** A quorum set an XDR message can carry: a 32-bit threshold, and vectors of
    fewer than [2^32] elements, at every level. *)
Inductive representable : SCPQuorumSet -> Prop :=
  representable_intro t v i :
    is_u32 t ->
    Z.of_nat (length v) <= UINT32_MAX -> Z.of_nat (length i) <= UINT32_MAX ->
    Forall representable i -> representable (mkQSet t v i).

(** ** Sanity *)
Module Sanity.

Definition MAXIMUM_QUORUM_NESTING_LEVEL : Z := 4.

(** The error strings. *)
Inductive sanity_error :=
  | NestingLevelExceeded
  | ThresholdNotPositive
  | ThresholdExceedsEntries
  | ThresholdBelowVBlocking
  | DuplicateNode
  | NodeCountOutOfRange.

(** [mKnownNodes] and [mCount]. *)
Record checker := mkChecker { mKnownNodes : list NodeID; mCount : Z }.

(** The loop that inserts the validators in [mKnownNodes]. *)
Fixpoint insert_validators (v : list NodeID) (known : list NodeID)
    : option sanity_error * list NodeID :=
  match v with
  | [] => (None, known)
  | n :: v' =>
      if set_mem n known then (Some DuplicateNode, known)
      else insert_validators v' (set_insert n known)
  end.

(** [None] is the C++ [true]. *)
Fixpoint checkSanity (mExtraChecks : bool) (q : SCPQuorumSet) (depth : Z)
    (c : checker) {struct q} : option sanity_error * checker :=
  let 'mkQSet t v i := q in
  if MAXIMUM_QUORUM_NESTING_LEVEL <? depth then (Some NestingLevelExceeded, c) else
  if t <? 1 then (Some ThresholdNotPositive, c) else
  let totEntries := Z.of_nat (length v) + Z.of_nat (length i) in
  let vBlockingSize := u64 (totEntries - t + 1) in
  let c := mkChecker (mKnownNodes c) (mCount c + Z.of_nat (length v)) in
  if totEntries <? t then (Some ThresholdExceedsEntries, c) else
  if mExtraChecks && (t <? vBlockingSize) then (Some ThresholdBelowVBlocking, c) else
  match insert_validators v (mKnownNodes c) with
  | (Some e, known) => (Some e, mkChecker known (mCount c))
  | (None, known) =>
      (fix go (l : list SCPQuorumSet) (c : checker) : option sanity_error * checker :=
         match l with
         | [] => (None, c)
         | iSet :: l' =>
             match checkSanity mExtraChecks iSet (depth + 1) c with
             | (Some e, c') => (Some e, c')
             | (None, c') => go l' c'
             end
         end) i (mkChecker known (mCount c))
  end.

(** The error string left behind, [None] when the set is sane. *)
Definition sanityError (qSet : SCPQuorumSet) (extraChecks : bool) : option sanity_error :=
  match checkSanity extraChecks qSet 0 (mkChecker [] 0) with
  | (Some e, _) => Some e
  | (None, c) =>
      if (mCount c <? 1) || (1000 <? mCount c) then Some NodeCountOutOfRange else None
  end.

Definition isQuorumSetSane (qSet : SCPQuorumSet) (extraChecks : bool) : bool :=
  match sanityError qSet extraChecks with None => true | Some _ => false end.

(** *** What sanity means *)

Definition entries (q : SCPQuorumSet) : Z :=
  Z.of_nat (length (validators q)) + Z.of_nat (length (innerSets q)).

(** Thresholds and nesting, at every level. *)
Inductive well_formed (extra : bool) : Z -> SCPQuorumSet -> Prop :=
  wf_intro d q :
    d <= MAXIMUM_QUORUM_NESTING_LEVEL ->
    1 <= threshold q <= entries q ->
    (extra = true -> entries q - threshold q + 1 <= threshold q) ->
    Forall (well_formed extra (d + 1)) (innerSets q) ->
    well_formed extra d q.

(** *** Lemmas *)

Lemma insert_validators_spec (v known : list NodeID) :
  match insert_validators v known with
  | (None, known') =>
      NoDup v /\ (forall n, n ∈ v -> n ∉ known) /\
      (forall n, n ∈ known' <-> n ∈ v \/ n ∈ known)
  | (Some e, _) =>
      e = DuplicateNode /\ ~ (NoDup v /\ forall n, n ∈ v -> n ∉ known)
  end.
Proof.
  revert known. induction v as [|n v IH]; intros known; simpl.
  { split; [constructor|]. set_solver. }
  destruct (set_mem n known) eqn:E.
  { apply set_mem_true in E. split; [done|]. set_solver. }
  apply set_mem_false in E. specialize (IH (set_insert n known)).
  destruct (insert_validators v (set_insert n known)) as [[e|] known'].
  - destruct IH as [-> IH]. split; [done|]. intros [Hnd Hin].
    apply NoDup_cons in Hnd as [Hn Hnd]. apply IH. split; [done|].
    intros m Hm. rewrite elem_of_set_insert. set_solver.
  - destruct IH as (Hnd & Hin & Hk). setoid_rewrite elem_of_set_insert in Hin.
    setoid_rewrite elem_of_set_insert in Hk.
    split; [constructor; [|done]; set_solver|]. set_solver.
Qed.

Definition sane_from (extra : bool) (d : Z) (known : list NodeID) (q : SCPQuorumSet) : Prop :=
  well_formed extra d q /\ NoDup (qset_nodes q) /\
  forall n, n ∈ qset_nodes q -> n ∉ known.

(** The state after a successful check. *)
Definition learned (c c' : checker) (ns : list NodeID) : Prop :=
  (forall n, n ∈ mKnownNodes c' <-> n ∈ ns \/ n ∈ mKnownNodes c) /\
  mCount c' = mCount c + Z.of_nat (length ns).

Definition check_spec (extra : bool) (q : SCPQuorumSet) : Prop :=
  forall d c, representable q ->
  match checkSanity extra q d c with
  | (None, c') => sane_from extra d (mKnownNodes c) q /\ learned c c' (qset_nodes q)
  | (Some _, _) => ~ sane_from extra d (mKnownNodes c) q
  end.

(** The loop over the inner sets. *)
Fixpoint check_inner (extra : bool) (l : list SCPQuorumSet) (depth : Z) (c : checker)
    : option sanity_error * checker :=
  match l with
  | [] => (None, c)
  | iSet :: l' =>
      match checkSanity extra iSet depth c with
      | (Some e, c') => (Some e, c')
      | (None, c') => check_inner extra l' depth c'
      end
  end.

Definition inner_sane (extra : bool) (d : Z) (known : list NodeID)
    (l : list SCPQuorumSet) : Prop :=
  Forall (well_formed extra d) l /\ NoDup (concat (map qset_nodes l)) /\
  forall n, n ∈ concat (map qset_nodes l) -> n ∉ known.

Lemma check_inner_spec (extra : bool) (l : list SCPQuorumSet) :
  Forall (check_spec extra) l -> Forall representable l ->
  forall d c,
  match check_inner extra l d c with
  | (None, c') =>
      inner_sane extra d (mKnownNodes c) l /\ learned c c' (concat (map qset_nodes l))
  | (Some _, _) => ~ inner_sane extra d (mKnownNodes c) l
  end.
Proof.
  unfold inner_sane, learned.
  induction 1 as [|q l Hq Hl IH]; intros Hr d c; simpl.
  { split; [split; [constructor|]; split; [constructor|]; set_solver|].
    split; [set_solver|lia]. }
  inversion Hr as [|? ? Hrq Hrl]; subst. specialize (Hq d c Hrq).
  destruct (checkSanity extra q d c) as [[e|] c1].
  - intros (Hwf & Hnd & Hin). apply Hq.
    inversion Hwf; subst. apply NoDup_app in Hnd as (Hnd1 & _ & _).
    split; [done|]. split; [done|]. set_solver.
  - destruct Hq as [(Hwf & Hnd & Hin) [Hk Hc]]. specialize (IH Hrl d c1).
    destruct (check_inner extra l d c1) as [[e|] c2].
    + intros (Hwf' & Hnd' & Hin'). apply IH.
      inversion Hwf'; subst. apply NoDup_app in Hnd' as (_ & Hdis & Hnd').
      split; [done|]. split; [done|]. intros n Hn. rewrite Hk. set_solver.
    + destruct IH as [(Hwf' & Hnd' & Hin') [Hk' Hc']]. setoid_rewrite Hk in Hin'.
      split; [split; [by constructor|]; split|].
      * apply NoDup_app. set_solver.
      * set_solver.
      * split; [|rewrite length_app; lia]. intros n. rewrite Hk', Hk. set_solver.
Qed.

Lemma checkSanity_unfold (extra : bool) t v i (d : Z) (c : checker) :
  representable (mkQSet t v i) ->
  checkSanity extra (mkQSet t v i) d c =
    if MAXIMUM_QUORUM_NESTING_LEVEL <? d then (Some NestingLevelExceeded, c) else
    if t <? 1 then (Some ThresholdNotPositive, c) else
    let n := Z.of_nat (length v) + Z.of_nat (length i) in
    let c := mkChecker (mKnownNodes c) (mCount c + Z.of_nat (length v)) in
    if n <? t then (Some ThresholdExceedsEntries, c) else
    if extra && (t <? n - t + 1) then (Some ThresholdBelowVBlocking, c) else
    match insert_validators v (mKnownNodes c) with
    | (Some e, known) => (Some e, mkChecker known (mCount c))
    | (None, known) => check_inner extra i (d + 1) (mkChecker known (mCount c))
    end.
Proof.
  intros Hr. inversion Hr; subst. cbn [checkSanity].
  destruct (_ <? d); [done|]. destruct (Z.ltb_spec t 1); [done|]. cbv zeta.
  destruct (Z.ltb_spec (Z.of_nat (length v) + Z.of_nat (length i)) t); [done|].
  rewrite u64_id by (unfold_ints; lia). destruct (extra && _); [done|].
  destruct (insert_validators v _) as [[e|] known]; [done|].
  generalize (mkChecker known (mCount (mkChecker (mKnownNodes c)
    (mCount c + Z.of_nat (length v))))). 
  clear. induction i as [|q i IH]; intros c; simpl; [done|].
  destruct (checkSanity extra q (d + 1) c) as [[e|] c']; [done|]. apply IH.
Qed.

Lemma checkSanity_spec (extra : bool) (q : SCPQuorumSet) : check_spec extra q.
Proof.
  induction q as [t v i IH] using qset_ind'. intros d c Hr.
  rewrite checkSanity_unfold by done. inversion Hr as [? ? ? Ht Hv Hi Hri]; subst.
  unfold sane_from. rewrite qset_nodes_eq. cbv zeta.
  destruct (Z.ltb_spec MAXIMUM_QUORUM_NESTING_LEVEL d).
  { intros [Hwf _]. inversion Hwf; subst; lia. }
  destruct (Z.ltb_spec t 1); [intros [Hwf _]; inversion Hwf as [? ? _ Hb]; subst; simpl in Hb; lia|].
  destruct (Z.ltb_spec (Z.of_nat (length v) + Z.of_nat (length i)) t).
  { intros [Hwf _]. inversion Hwf as [? ? _ Hb]; subst. unfold entries in Hb. simpl in Hb. lia. }
  destruct (extra && _) eqn:E.
  { bprop. subst. intros [Hwf _]. inversion Hwf as [? ? _ _ Hb]; subst.
    specialize (Hb eq_refl). unfold entries in Hb. simpl in Hb. lia. }
  pose proof (insert_validators_spec v (mKnownNodes c)) as Hins. simpl mKnownNodes.
  destruct (insert_validators v (mKnownNodes c)) as [[e|] known].
  { destruct Hins as [_ Hins]. intros (_ & Hnd & Hin). apply Hins.
    apply NoDup_app in Hnd as (? & _ & _). split; [done|]. set_solver. }
  destruct Hins as (Hndv & Hinv & Hkv).
  pose proof (check_inner_spec extra i IH Hri (d + 1)
    (mkChecker known (mCount c + Z.of_nat (length v)))) as Hinner. simpl mCount.
  destruct (check_inner _ _ _ _) as [[e|] c']; unfold inner_sane in Hinner; simpl in Hinner.
  - intros (Hwf & Hnd & Hin). apply Hinner. inversion Hwf; subst.
    apply NoDup_app in Hnd as (_ & Hdis & Hnd).
    split; [done|]. split; [done|]. intros n Hn. rewrite Hkv. set_solver.
  - destruct Hinner as [(Hwf & Hnd & Hin) [Hk Hc]]. setoid_rewrite Hkv in Hin.
    split; [split; [|split]|].
    + constructor; simpl; [lia | | | done]; unfold entries; simpl; [lia|].
      intros ->. simpl in E. bprop. lia.
    + apply NoDup_app. set_solver.
    + set_solver.
    + split; [|simpl in Hc; rewrite length_app; lia].
      intros n. rewrite Hk. simpl. rewrite Hkv. set_solver.
Qed.

(** The sanity check accepts exactly the quorum sets that are nested at
    most four levels below the root, whose thresholds lie between one and the
    number of entries at every level (and are no smaller than the
    v-blocking size when the extra checks are on), that name no node twice
    anywhere in the tree, and that name between 1 and 1000 nodes. *)
Theorem isQuorumSetSane_spec (q : SCPQuorumSet) (extra : bool) :
  representable q ->
  isQuorumSetSane q extra = true <->
  well_formed extra 0 q /\ NoDup (qset_nodes q) /\
  (1 <= length (qset_nodes q) <= 1000)%nat.
Proof.
  intros Hr. unfold isQuorumSetSane, sanityError.
  pose proof (checkSanity_spec extra q 0 (mkChecker [] 0) Hr) as Hc.
  unfold sane_from, learned in Hc. simpl in Hc.
  destruct (checkSanity extra q 0 (mkChecker [] 0)) as [[e|] c].
  - split; [done|]. intros (Hwf & Hnd & _). exfalso. apply Hc.
    split; [done|]. split; [done|]. set_solver.
  - destruct Hc as [(Hwf & Hnd & _) [_ Hcount]]. rewrite Hcount.
    destruct (Z.ltb_spec (0 + Z.of_nat (length (qset_nodes q))) 1); simpl; [split; [done|]; lia|].
    destruct (Z.ltb_spec 1000 (0 + Z.of_nat (length (qset_nodes q)))); [split; [done|]; lia|].
    split; [|done]. intros _. split; [done|]. split; [done|]. lia.
Qed.

Definition qset_example : SCPQuorumSet :=
  mkQSet 2 [[1]; [2]] [mkQSet 1 [[3]; [4]] []].
End Sanity.

(** ** Normalisation *)
Module Normalize.

(** The test that merges an inner set into the validators of its parent. *)
Definition is_singleton (q : SCPQuorumSet) : option NodeID :=
  match q with
  | mkQSet t [n] [] => if t =? 1 then Some n else None
  | _ => None
  end.

(** [qSet = qSet.innerSets.back()] when it is the only thing in [qSet]. *)
Definition collapse (t : Z) (v : list NodeID) (i : list SCPQuorumSet) : SCPQuorumSet :=
  match v, i with
  | [], [q] => if t =? 1 then q else mkQSet t v i
  | _, _ => mkQSet t v i
  end.

Definition remove_id (idToRemove : option NodeID) (t : Z) (v : list NodeID)
    : Z * list NodeID :=
  match idToRemove with
  | None => (t, v)
  | Some n =>
      let v' := List.filter (fun m => negb (eqb_of m n)) v in
      (u32 (t - u32 (Z.of_nat (length v - length v'))), v')
  end.

Fixpoint normalizeQSetSimplify (idToRemove : option NodeID) (q : SCPQuorumSet)
    : SCPQuorumSet :=
  let 'mkQSet t v i := q in
  let '(t, v) := remove_id idToRemove t v in
  let '(v, i) :=
    (fix go (l : list SCPQuorumSet) (v : list NodeID) (kept : list SCPQuorumSet) :=
       match l with
       | [] => (v, kept)
       | it :: l' =>
           let it := normalizeQSetSimplify idToRemove it in
           match is_singleton it with
           | Some n => go l' (v ++ [n]) kept
           | None => go l' v (kept ++ [it])
           end
       end) i v [] in
  collapse t v i.

(** [intLexicographicalCompare]. *)
Fixpoint intLexicographicalCompare {A} (comp : A -> A -> Z) (l r : list A) : Z :=
  match l, r with
  | x :: l', y :: r' =>
      let c := comp x y in
      if negb (c =? 0) then c else intLexicographicalCompare comp l' r'
  | [], _ :: _ => -1
  | _ :: _, [] => 1
  | [], [] => 0
  end.

Definition compare_ids (l r : NodeID) : Z :=
  if ltb l r then -1 else if ltb r l then 1 else 0.

Fixpoint qSetCompareInt (l r : SCPQuorumSet) {struct l} : Z :=
  let 'mkQSet lt lv li := l in
  let 'mkQSet rt rv ri := r in
  let res := intLexicographicalCompare compare_ids lv rv in
  if negb (res =? 0) then res else
  let res :=
    (fix go (l r : list SCPQuorumSet) {struct l} : Z :=
       match l, r with
       | x :: l', y :: r' =>
           let c := qSetCompareInt x y in
           if negb (c =? 0) then c else go l' r'
       | [], _ :: _ => -1
       | _ :: _, [] => 1
       | [], [] => 0
       end) li ri in
  if negb (res =? 0) then res else
  if lt <? rt then -1 else if lt =? rt then 0 else 1.

#[global] Instance LtB_qset : LtB SCPQuorumSet := fun l r => qSetCompareInt l r <? 0.

(** [std::sort] for a strict total order, where the sorted sequence is
    unique: insertion sort. *)
Fixpoint sort_insert {A} `{LtB A} (x : A) (l : list A) : list A :=
  match l with
  | [] => [x]
  | y :: l' => if ltb y x then y :: sort_insert x l' else x :: l
  end.

Definition std_sort {A} `{LtB A} (l : list A) : list A := foldr sort_insert [] l.

Fixpoint normalizeQuorumSetReorder (q : SCPQuorumSet) : SCPQuorumSet :=
  let 'mkQSet t v i := q in
  mkQSet t (std_sort v) (std_sort (map normalizeQuorumSetReorder i)).

Definition normalizeQSet (idToRemove : option NodeID) (qSet : SCPQuorumSet)
    : SCPQuorumSet :=
  normalizeQuorumSetReorder (normalizeQSetSimplify idToRemove qSet).

(** *** Sorting *)
Section sorting.
Context {A : Type} `{TotalLt A}.

Definition nondecreasing : list A -> Prop :=
  StronglySorted (fun x y => ltb y x = false).

Lemma sort_insert_perm (x : A) (l : list A) : sort_insert x l ≡ₚ x :: l.
Proof.
  induction l as [|y l IH]; simpl; [done|].
  destruct (ltb y x); [|done]. rewrite IH. constructor.
Qed.

Lemma std_sort_perm (l : list A) : std_sort l ≡ₚ l.
Proof.
  induction l as [|x l IH]; simpl; [done|]. by rewrite sort_insert_perm, IH.
Qed.

Lemma sort_insert_sorted (x : A) (l : list A) :
  nondecreasing l -> nondecreasing (sort_insert x l).
Proof.
  induction 1 as [|y l Hl IH Hall]; simpl; [repeat constructor|].
  destruct (ltb y x) eqn:E.
  - constructor; [done|]. rewrite Forall_forall in Hall |- *. intros z.
    rewrite sort_insert_perm. intros [->|Hz]%elem_of_cons; [by apply ltb_asym|auto].
  - constructor; [by constructor|]. constructor; [done|].
    rewrite Forall_forall in Hall |- *. intros z Hz. specialize (Hall z Hz).
    destruct (ltb z x) eqn:Hzx; [|done].
    by rewrite (ltb_le_trans y z x) in E.
Qed.

Lemma std_sort_sorted (l : list A) : nondecreasing (std_sort l).
Proof.
  induction l as [|x l IH]; simpl; [constructor | by apply sort_insert_sorted].
Qed.

(** Sorting a sorted sequence changes nothing. *)
Lemma std_sort_id (l : list A) : nondecreasing l -> std_sort l = l.
Proof.
  induction 1 as [|x l Hl IH Hall]; simpl; [done|]. rewrite IH.
  destruct l as [|y l]; simpl; [done|]. inversion Hall; subst.
  by match goal with H : ltb y x = false |- _ => rewrite H end.
Qed.
End sorting.

(** *** The order on quorum sets *)

Definition antisym_at {A} (cmp : A -> A -> Z) (x : A) : Prop :=
  forall y, cmp y x = - cmp x y.
Definition eq_at {A} (cmp : A -> A -> Z) (x : A) : Prop :=
  forall y, cmp x y = 0 <-> x = y.

Lemma lex_antisym {A} (cmp : A -> A -> Z) (l r : list A) :
  Forall (antisym_at cmp) l ->
  intLexicographicalCompare cmp r l = - intLexicographicalCompare cmp l r.
Proof.
  intros Hl. revert r. induction Hl as [|x l Hx Hl IH]; intros [|y r]; simpl; try lia.
  specialize (Hx y). destruct (Z.eqb_spec (cmp x y) 0), (Z.eqb_spec (cmp y x) 0);
    cbn [negb]; auto; lia.
Qed.

Lemma lex_eq {A} (cmp : A -> A -> Z) (l r : list A) :
  Forall (eq_at cmp) l -> intLexicographicalCompare cmp l r = 0 <-> l = r.
Proof.
  intros Hl. revert r. induction Hl as [|x l Hx Hl IH]; intros [|y r]; simpl;
    [done | split; [lia | done].. |].
  specialize (Hx y). destruct (Z.eqb_spec (cmp x y) 0) as [E|E]; simpl.
  - apply Hx in E as ->. rewrite IH. naive_solver.
  - split; [done|]. intros [= -> ->]. exfalso. by apply E, Hx.
Qed.

Lemma lex_trans {A} (cmp : A -> A -> Z) (l m r : list A) :
  (forall x, antisym_at cmp x) -> (forall x, eq_at cmp x) ->
  Forall (fun x => forall y z, cmp x y < 0 -> cmp y z < 0 -> cmp x z < 0) l ->
  intLexicographicalCompare cmp l m < 0 -> intLexicographicalCompare cmp m r < 0 ->
  intLexicographicalCompare cmp l r < 0.
Proof.
  intros Ha He Hl. revert m r.
  induction Hl as [|x l Hx Hl IH]; intros [|y m] [|z r]; simpl; try lia.
  destruct (Z.eqb_spec (cmp x y) 0) as [E1|E1]; simpl.
  - apply He in E1 as ->. destruct (Z.eqb_spec (cmp y z) 0); simpl; [apply IH|done].
  - destruct (Z.eqb_spec (cmp y z) 0) as [E2|E2]; simpl.
    + apply He in E2 as ->. by destruct (Z.eqb_spec (cmp x z) 0).
    + intros H1 H2. pose proof (Hx y z H1 H2).
      destruct (Z.eqb_spec (cmp x z) 0); simpl; lia.
Qed.

Lemma compare_ids_antisym x : antisym_at compare_ids x.
Proof.
  intros y. unfold compare_ids. destruct (ltb x y) eqn:E1.
  - by rewrite (ltb_asym _ _ E1).
  - by destruct (ltb y x).
Qed.

Lemma compare_ids_eq x : eq_at compare_ids x.
Proof.
  intros y. unfold compare_ids. destruct (ltb x y) eqn:E1; [|destruct (ltb y x) eqn:E2].
  - split; [lia|]. intros ->. by rewrite ltb_irrefl in E1.
  - split; [lia|]. intros ->. by rewrite ltb_irrefl in E2.
  - split; [|done]. intros _. by apply ltb_total.
Qed.

Lemma compare_ids_trans x y z :
  compare_ids x y < 0 -> compare_ids y z < 0 -> compare_ids x z < 0.
Proof.
  unfold compare_ids. destruct (ltb x y) eqn:E1; [|destruct (ltb y x); lia].
  destruct (ltb y z) eqn:E2; [|destruct (ltb z y); lia].
  by rewrite (ltb_trans _ _ _ E1 E2).
Qed.

Lemma qSetCompareInt_eq lt lv li rt rv ri :
  qSetCompareInt (mkQSet lt lv li) (mkQSet rt rv ri) =
    let r1 := intLexicographicalCompare compare_ids lv rv in
    if negb (r1 =? 0) then r1 else
    let r2 := intLexicographicalCompare qSetCompareInt li ri in
    if negb (r2 =? 0) then r2 else
    if lt <? rt then -1 else if lt =? rt then 0 else 1.
Proof.
  assert (forall li ri,
    (fix go (l r : list SCPQuorumSet) {struct l} : Z :=
       match l, r with
       | x :: l', y :: r' =>
           let c := qSetCompareInt x y in
           if negb (c =? 0) then c else go l' r'
       | [], _ :: _ => -1
       | _ :: _, [] => 1
       | [], [] => 0
       end) li ri = intLexicographicalCompare qSetCompareInt li ri) as Hgo.
  { intros l. induction l as [|x l IH]; intros [|y r]; simpl; try done.
    destruct (qSetCompareInt x y =? 0); simpl; [apply IH|done]. }
  cbn [qSetCompareInt]. cbv zeta. by rewrite Hgo.
Qed.

Lemma qset_antisym q : antisym_at qSetCompareInt q.
Proof.
  induction q as [t v i IH] using qset_ind'. intros [rt rv ri].
  rewrite !qSetCompareInt_eq. cbv zeta.
  rewrite (lex_antisym compare_ids v rv)
    by (apply Forall_true; intros; apply compare_ids_antisym).
  rewrite (lex_antisym qSetCompareInt i ri) by done.
  set (a := intLexicographicalCompare _ v rv). set (b := intLexicographicalCompare _ i ri).
  destruct (Z.eqb_spec a 0), (Z.eqb_spec (- a) 0); cbn [negb]; try lia.
  destruct (Z.eqb_spec b 0), (Z.eqb_spec (- b) 0); cbn [negb]; try lia.
  destruct (Z.ltb_spec rt t), (Z.ltb_spec t rt), (Z.eqb_spec rt t), (Z.eqb_spec t rt); lia.
Qed.

Lemma qset_eq q : eq_at qSetCompareInt q.
Proof.
  induction q as [t v i IH] using qset_ind'. intros [rt rv ri].
  rewrite qSetCompareInt_eq. cbv zeta.
  pose proof (lex_eq compare_ids v rv
    ltac:(apply Forall_true; intros; apply compare_ids_eq)) as Hv.
  pose proof (lex_eq qSetCompareInt i ri IH) as Hi.
  destruct (Z.eqb_spec (intLexicographicalCompare compare_ids v rv) 0) as [E|E]; cbn [negb].
  2: { split; [done|]. intros [= -> -> ->]. exfalso. by apply E, Hv. }
  apply Hv in E as ->.
  destruct (Z.eqb_spec (intLexicographicalCompare qSetCompareInt i ri) 0) as [E|E]; cbn [negb].
  2: { split; [done|]. intros [= -> ->]. exfalso. by apply E, Hi. }
  apply Hi in E as ->. destruct (Z.ltb_spec t rt), (Z.eqb_spec t rt); subst;
    split; intros Hq; try done; try lia; injection Hq; lia.
Qed.

Lemma qset_trans q r s :
  qSetCompareInt q r < 0 -> qSetCompareInt r s < 0 -> qSetCompareInt q s < 0.
Proof.
  revert r s. induction q as [t v i IH] using qset_ind'. intros [rt rv ri] [st sv si].
  rewrite !qSetCompareInt_eq. cbv zeta.
  pose proof (lex_trans compare_ids v rv sv compare_ids_antisym compare_ids_eq
    ltac:(apply Forall_true; intros; by eapply compare_ids_trans)) as Tv.
  pose proof (lex_trans qSetCompareInt i ri si qset_antisym qset_eq IH) as Ti.
  pose proof (lex_eq compare_ids v rv ltac:(apply Forall_true; intros; apply compare_ids_eq)) as Ev.
  pose proof (lex_eq compare_ids rv sv ltac:(apply Forall_true; intros; apply compare_ids_eq)) as Ev'.
  pose proof (lex_eq qSetCompareInt i ri ltac:(apply Forall_true; intros; apply qset_eq)) as Ei.
  pose proof (lex_eq qSetCompareInt ri si ltac:(apply Forall_true; intros; apply qset_eq)) as Ei'.
  destruct (Z.eqb_spec (intLexicographicalCompare compare_ids v rv) 0) as [E1|E1];
    [apply Ev in E1 as ->|]; cbn [negb];
    (destruct (Z.eqb_spec (intLexicographicalCompare compare_ids rv sv) 0) as [E2|E2];
     [apply Ev' in E2 as ->|]; cbn [negb]).
  - destruct (Z.eqb_spec (intLexicographicalCompare qSetCompareInt i ri) 0) as [E3|E3];
      [apply Ei in E3 as ->|]; cbn [negb];
      (destruct (Z.eqb_spec (intLexicographicalCompare qSetCompareInt ri si) 0) as [E4|E4];
       [apply Ei' in E4 as ->|]; cbn [negb]).
    + destruct (Z.ltb_spec t rt), (Z.ltb_spec rt st), (Z.ltb_spec t st),
        (Z.eqb_spec t rt), (Z.eqb_spec rt st), (Z.eqb_spec t st); lia.
    + done.
    + by destruct (Z.eqb_spec (intLexicographicalCompare qSetCompareInt i si) 0).
    + intros H1 H2. specialize (Ti H1 H2).
      destruct (Z.eqb_spec (intLexicographicalCompare qSetCompareInt i si) 0); simpl; lia.
  - done.
  - intros H1 _. destruct (Z.eqb_spec (intLexicographicalCompare compare_ids v sv) 0); done.
  - intros H1 H2. specialize (Tv H1 H2).
    destruct (Z.eqb_spec (intLexicographicalCompare compare_ids v sv) 0); simpl; lia.
Qed.

#[global] Instance TotalLt_qset : TotalLt SCPQuorumSet.
Proof.
  split; unfold ltb, LtB_qset.
  - intros x. by rewrite (proj2 (qset_eq x x) eq_refl).
  - intros x y z ??; bprop. apply Z.ltb_lt. by eapply qset_trans.
  - intros x y ??; bprop. apply qset_eq. pose proof (qset_antisym x y). lia.
Qed.

(** *** Simplification, without the loop's accumulators *)

Definition not_singleton (q : SCPQuorumSet) : bool :=
  match is_singleton q with None => true | Some _ => false end.

Lemma normalizeQSetSimplify_eq (id : option NodeID) t v i :
  normalizeQSetSimplify id (mkQSet t v i) =
    let '(t', v') := remove_id id t v in
    let i' := map (normalizeQSetSimplify id) i in
    collapse t' (v' ++ omap is_singleton i') (List.filter not_singleton i').
Proof.
  assert (forall l v kept,
    (fix go (l : list SCPQuorumSet) (v : list NodeID) (kept : list SCPQuorumSet) :=
       match l with
       | [] => (v, kept)
       | it :: l' =>
           let it := normalizeQSetSimplify id it in
           match is_singleton it with
           | Some n => go l' (v ++ [n]) kept
           | None => go l' v (kept ++ [it])
           end
       end) l v kept =
    (v ++ omap is_singleton (map (normalizeQSetSimplify id) l),
     kept ++ List.filter not_singleton (map (normalizeQSetSimplify id) l))) as Hgo.
  { induction l as [|q l IH]; intros w kept; simpl; [by rewrite !app_nil_r|].
    unfold not_singleton at 1.
    destruct (is_singleton (normalizeQSetSimplify id q)); rewrite IH;
      by rewrite <- ?(assoc_L (++)). }
  cbn [normalizeQSetSimplify]. destruct (remove_id id t v) as [t' v'].
  cbv zeta. by rewrite Hgo.
Qed.

(** The shape simplification establishes: no inner set is a single
    validator, and no set is a wrapper around one inner set. *)
Inductive simplified : SCPQuorumSet -> Prop :=
  simplified_intro t v i :
    (t = 1 -> v = [] -> length i <> 1%nat) ->
    Forall (fun q => is_singleton q = None) i -> Forall simplified i ->
    simplified (mkQSet t v i).

Lemma simplify_simplified (id : option NodeID) (q : SCPQuorumSet) :
  simplified (normalizeQSetSimplify id q).
Proof.
  induction q as [t v i IH] using qset_ind'. rewrite normalizeQSetSimplify_eq.
  destruct (remove_id id t v) as [t' v']. cbv zeta.
  set (i' := map _ i).
  assert (Forall simplified (List.filter not_singleton i')) as Hs.
  { apply List.Forall_forall. intros q [Hq _]%filter_In.
    unfold i' in Hq. apply in_map_iff in Hq as (r & <- & Hr).
    rewrite List.Forall_forall in IH. by apply IH. }
  assert (Forall (fun q => is_singleton q = None) (List.filter not_singleton i')) as Hn.
  { apply List.Forall_forall. intros q [_ Hq]%filter_In.
    unfold not_singleton in Hq. by destruct (is_singleton q). }
  generalize dependent (List.filter not_singleton i'). intros l Hs Hn.
  generalize (v' ++ omap is_singleton i'). intros w. unfold collapse.
  destruct w as [|n w]; [|by constructor].
  destruct l as [|q [|q' l]]; [by constructor| |by constructor].
  destruct (Z.eqb_spec t' 1); [by inversion Hs|]. constructor; [|done..]. lia.
Qed.

Lemma simplify_id (q : SCPQuorumSet) :
  simplified q -> normalizeQSetSimplify None q = q.
Proof.
  induction q as [t v i IH] using qset_ind'. intros Hq.
  inversion Hq as [? ? ? Hw Hn Hs]; subst. rewrite normalizeQSetSimplify_eq. simpl.
  assert (map (normalizeQSetSimplify None) i = i) as ->.
  { clear -IH Hs. induction i as [|q i IHi]; simpl; [done|].
    inversion IH; inversion Hs; subst. f_equal; auto. }
  assert (omap is_singleton i = []) as ->.
  { clear -Hn. induction Hn as [|q i Hq Hn IH]; simpl; [done|]. by rewrite Hq. }
  assert (List.filter not_singleton i = i) as ->.
  { clear -Hn. induction Hn as [|q i Hq Hn IH]; simpl; [done|].
    unfold not_singleton at 1. rewrite Hq. by f_equal. }
  rewrite app_nil_r. unfold collapse.
  destruct v as [|n v]; [|done]. destruct i as [|q [|q' i]]; [done| |done].
  destruct (Z.eqb_spec t 1); [|done]. exfalso. by apply Hw.
Qed.

Lemma is_singleton_reorder (q : SCPQuorumSet) :
  is_singleton q = None -> is_singleton (normalizeQuorumSetReorder q) = None.
Proof.
  destruct q as [t v i]. simpl. intros Hq.
  pose proof (Permutation_length (std_sort_perm v)) as Hv.
  pose proof (Permutation_length (std_sort_perm (map normalizeQuorumSetReorder i))) as Hi.
  rewrite length_map in Hi.
  destruct (std_sort v) as [|n [|m w]]; [done| |done].
  destruct (std_sort (map _ i)) as [|q l]; [|done].
  destruct v as [|n' [|]]; [done| |done]. destruct i; [|done]. by destruct (t =? 1).
Qed.

Lemma reorder_simplified (q : SCPQuorumSet) :
  simplified q -> simplified (normalizeQuorumSetReorder q).
Proof.
  induction q as [t v i IH] using qset_ind'. intros Hq.
  inversion Hq as [? ? ? Hw Hn Hs]; subst. simpl. constructor.
  - intros -> Hv. pose proof (Permutation_length (std_sort_perm v)) as Hlv.
    rewrite Hv in Hlv. rewrite (Permutation_length (std_sort_perm _)), length_map.
    apply Hw; [done|]. by destruct v.
  - rewrite std_sort_perm. apply Forall_fmap. eapply Forall_impl; [exact Hn|].
    intros q. apply is_singleton_reorder.
  - rewrite std_sort_perm. apply Forall_fmap. clear -IH Hs.
    induction IH; inversion Hs; subst; constructor; auto.
Qed.

Lemma reorder_idempotent (q : SCPQuorumSet) :
  normalizeQuorumSetReorder (normalizeQuorumSetReorder q) = normalizeQuorumSetReorder q.
Proof.
  induction q as [t v i IH] using qset_ind'. simpl. f_equal.
  - apply std_sort_id, std_sort_sorted.
  - assert (map normalizeQuorumSetReorder (std_sort (map normalizeQuorumSetReorder i)) =
            std_sort (map normalizeQuorumSetReorder i)) as ->;
      [|apply std_sort_id, std_sort_sorted].
    rewrite <- (map_id (std_sort _)) at 2. apply map_ext_Forall.
    rewrite std_sort_perm. by apply Forall_fmap.
Qed.

(** Normalisation is idempotent: the form computed for the local quorum
    set (singletons merged into the parent's validators, single-entry
    wrappers removed, everything sorted) is a fixed point of the
    normalisation, whatever node was removed first. *)
Theorem normalizeQSet_idempotent (id : option NodeID) (q : SCPQuorumSet) :
  normalizeQSet None (normalizeQSet id q) = normalizeQSet id q.
Proof.
  unfold normalizeQSet at 1 3. rewrite simplify_id.
  - apply reorder_idempotent.
  - apply reorder_simplified, simplify_simplified.
Qed.
End Normalize.
