(* ===== verification/LocalNode.v ===== *)
(** * The local node: slices, v-blocking sets and quorums

    [src/scp/LocalNode.cpp].  The tests every step of the protocol is decided
    by, with the loops, the early returns and the counters (with their widths)
    of the code, and their meaning: a slice is satisfied when at least
    [threshold] entries are; a v-blocking set is one whose complement contains
    no slice; [isQuorum] computes the greatest quorum inside a set. *)
From stdpp Require Import base tactics list sorting numbers sets gmap.
From Stdlib Require Import ZArith Lia Bool Permutation.
From S2P Require Import Prelude Containers Numeric QuorumSet.

Open Scope Z_scope.

(** ** Definitions *)

Definition buildSingletonQSet (nodeID : NodeID) : SCPQuorumSet := mkQSet 1 [nodeID] [].

Definition getSingletonQSet (nodeID : NodeID) : SCPQuorumSet := buildSingletonQSet nodeID.

(** [forAllNodes]; the captured variables of [proc] are the state [S].  Both of
    its loops stop at the first [false]. *)
Section forall_nodes.
Context {S : Type}.

Definition forAll_loop {A} (f : A -> S -> bool * S) : list A -> S -> bool * S :=
  fix go l s :=
    match l with
    | [] => (true, s)
    | x :: l' => let '(b, s) := f x s in if negb b then (false, s) else go l' s
    end.

Fixpoint forAllNodes (proc : NodeID -> S -> bool * S) (qset : SCPQuorumSet) (s : S)
    : bool * S :=
  let 'mkQSet _ v i := qset in
  let '(b, s) := forAll_loop proc v s in
  if negb b then (false, s) else forAll_loop (forAllNodes proc) i s.
End forall_nodes.

(** [releaseAssert] aborts; [bigDivideUnsigned] may throw. *)
Inductive weight_error :=
  | ThresholdAboveTotal
  | WeightOverflow
  | WeightArith (e : num_error).

Definition computeWeight (m total threshold : Z) : result weight_error Z :=
  if negb (threshold <=? total) then Err ThresholdAboveTotal else
  match bigDivideUnsigned m threshold total ROUND_UP with
  | Err e => Err (WeightArith e)
  | Ok (noOverflow, res) => if negb noOverflow then Err WeightOverflow else Ok res
  end.

(** The loop over the inner sets: the first non-zero weight is used. *)
Definition weight_loop (f : SCPQuorumSet -> result weight_error Z) (d n : Z)
    : list SCPQuorumSet -> result weight_error Z :=
  fix go l :=
    match l with
    | [] => Ok 0
    | q :: l' =>
        res_bind (f q) (fun leafW =>
          if negb (leafW =? 0) then computeWeight leafW d n else go l')
    end.

Fixpoint getNodeWeight (nodeID : NodeID) (qset : SCPQuorumSet) : result weight_error Z :=
  let 'mkQSet n v i := qset in
  let d := Z.of_nat (length i) + Z.of_nat (length v) in
  if existsb (fun qsetNode => eqb_of qsetNode nodeID) v
  then computeWeight UINT64_MAX d n
  else weight_loop (getNodeWeight nodeID) d n i.

(** [std::find(nodeSet.begin(), nodeSet.end(), n) != nodeSet.end()]. *)
Definition in_nodes (nodeSet : list NodeID) (n : NodeID) : bool :=
  existsb (fun m => eqb_of m n) nodeSet.

(** The two loops of [isQuorumSliceInternal]: a [uint32] counts down on each
    hit; [None] is the early [return true]. *)
Definition slice_loop {A} (hit : A -> bool) : list A -> Z -> option Z :=
  fix go l thresholdLeft :=
    match l with
    | [] => Some thresholdLeft
    | x :: l' =>
        if hit x then
          let thresholdLeft := u32 (thresholdLeft - 1) in
          if thresholdLeft <=? 0 then None else go l' thresholdLeft
        else go l' thresholdLeft
    end.

Fixpoint isQuorumSliceInternal (qset : SCPQuorumSet) (nodeSet : list NodeID) : bool :=
  let 'mkQSet t v i := qset in
  match slice_loop (in_nodes nodeSet) v t with
  | None => true
  | Some thresholdLeft =>
      match slice_loop (fun inner => isQuorumSliceInternal inner nodeSet) i thresholdLeft with
      | None => true
      | Some _ => false
      end
  end.

Definition isQuorumSlice (qSet : SCPQuorumSet) (nodeSet : list NodeID) : bool :=
  isQuorumSliceInternal qSet nodeSet.

(** The two loops of [isVBlockingInternal]: an [int] counts down. *)
Definition block_loop {A} (hit : A -> bool) : list A -> Z -> option Z :=
  fix go l leftTillBlock :=
    match l with
    | [] => Some leftTillBlock
    | x :: l' =>
        if hit x then
          let leftTillBlock := leftTillBlock - 1 in
          if leftTillBlock <=? 0 then None else go l' leftTillBlock
        else go l' leftTillBlock
    end.

Fixpoint isVBlockingInternal (qset : SCPQuorumSet) (nodeSet : list NodeID) : bool :=
  let 'mkQSet t v i := qset in
  if t =? 0 then false else
  let leftTillBlock :=
    to_i32 (u64 (1 + Z.of_nat (length v) + Z.of_nat (length i) - t)) in
  match block_loop (in_nodes nodeSet) v leftTillBlock with
  | None => true
  | Some leftTillBlock =>
      match block_loop (fun inner => isVBlockingInternal inner nodeSet) i leftTillBlock with
      | None => true
      | Some _ => false
      end
  end.

Definition isVBlocking (qSet : SCPQuorumSet) (nodeSet : list NodeID) : bool :=
  isVBlockingInternal qSet nodeSet.

(** The overloads over a [std::map<NodeID, SCPEnvelopeWrapperPtr>]; [V] is the
    type of the envelopes. *)
Section maps.
Context {V : Type}.

Definition filter_nodes (m : list (NodeID * V)) (filter : V -> bool) : list NodeID :=
  map fst (List.filter (fun p => filter (snd p)) m).

Definition isVBlocking_map (qSet : SCPQuorumSet) (m : list (NodeID * V))
    (filter : V -> bool) : bool :=
  isVBlocking qSet (filter_nodes m filter).

(** One round of the loop of [isQuorum]. *)
Definition quorumFilter (m : list (NodeID * V)) (qfun : V -> option SCPQuorumSet)
    (pNodes : list NodeID) (nodeID : NodeID) : bool :=
  match map_find nodeID m with
  | None => false
  | Some st =>
      match qfun st with
      | Some q => isQuorumSlice q pNodes
      | None => false
      end
  end.

(** [do { .. } while (count != pNodes.size())]; [None]: out of rounds. *)
Fixpoint quorum_loop (fuel : nat) (m : list (NodeID * V))
    (qfun : V -> option SCPQuorumSet) (pNodes : list NodeID) : option (list NodeID) :=
  match fuel with
  | O => None
  | S fuel' =>
      let fNodes := List.filter (quorumFilter m qfun pNodes) pNodes in
      if Nat.eqb (length pNodes) (length fNodes) then Some fNodes
      else quorum_loop fuel' m qfun fNodes
  end.

Definition isQuorum (qSet : SCPQuorumSet) (m : list (NodeID * V))
    (qfun : V -> option SCPQuorumSet) (filter : V -> bool) : bool :=
  let pNodes := filter_nodes m filter in
  match quorum_loop (S (length pNodes)) m qfun pNodes with
  | Some pNodes => isQuorumSlice qSet pNodes
  | None => false
  end.
End maps.

(** *** [findClosestVBlocking] *)

(** The first loop: [None] is the early [return]. *)
Fixpoint closest_validators (nodes : list NodeID) (excluded : option NodeID)
    (v : list NodeID) (leftTillBlock : Z) (res : list NodeID)
    : option (Z * list NodeID) :=
  match v with
  | [] => Some (leftTillBlock, res)
  | n :: v' =>
      if match excluded with None => true | Some e => negb (eqb_of n e) end then
        if negb (set_mem n nodes) then
          let leftTillBlock := u64 (leftTillBlock - 1) in
          if leftTillBlock =? 0 then None
          else closest_validators nodes excluded v' leftTillBlock res
        else closest_validators nodes excluded v' leftTillBlock (res ++ [n])
      else closest_validators nodes excluded v' leftTillBlock res
  end.

(** [std::multiset] ordered by size: an element goes after its equals. *)
Fixpoint multiset_emplace (x : list NodeID) (l : list (list NodeID)) : list (list NodeID) :=
  match l with
  | [] => [x]
  | y :: l' => if Nat.ltb (length x) (length y) then x :: l else y :: multiset_emplace x l'
  end.

(** The last loop. *)
Fixpoint take_subsets (res : list NodeID) (l : list (list NodeID)) (leftTillBlock : Z)
    : list NodeID :=
  match l with
  | [] => res
  | x :: l' =>
      if negb (leftTillBlock =? 0)
      then take_subsets (res ++ x) l' (u64 (leftTillBlock - 1)) else res
  end.

(** The loop over the inner sets. *)
Definition closest_inner (f : SCPQuorumSet -> list NodeID)
    : list SCPQuorumSet -> Z -> list (list NodeID) -> option (Z * list (list NodeID)) :=
  fix go l leftTillBlock resInternals :=
    match l with
    | [] => Some (leftTillBlock, resInternals)
    | inner :: l' =>
        let v := f inner in
        if Nat.eqb (length v) 0 then
          let leftTillBlock := u64 (leftTillBlock - 1) in
          if leftTillBlock =? 0 then None else go l' leftTillBlock resInternals
        else go l' leftTillBlock (multiset_emplace v resInternals)
    end.

Fixpoint findClosestVBlocking (qset : SCPQuorumSet) (nodes : list NodeID)
    (excluded : option NodeID) : list NodeID :=
  let 'mkQSet t v i := qset in
  let leftTillBlock := u64 (1 + Z.of_nat (length v) + Z.of_nat (length i) - t) in
  match closest_validators nodes excluded v leftTillBlock [] with
  | None => []
  | Some (leftTillBlock, res) =>
      match closest_inner (fun inner => findClosestVBlocking inner nodes excluded)
              i leftTillBlock [] with
      | None => []
      | Some (leftTillBlock, resInternals) =>
          let res := if leftTillBlock <? Z.of_nat (length res)
                     then take (Z.to_nat leftTillBlock) res else res in
          let leftTillBlock := u64 (leftTillBlock - Z.of_nat (length res)) in
          take_subsets res resInternals leftTillBlock
      end
  end.

Definition findClosestVBlocking_map {V} (qset : SCPQuorumSet) (m : list (NodeID * V))
    (filter : V -> bool) (excluded : option NodeID) : list NodeID :=
  findClosestVBlocking qset (set_of_list (filter_nodes m filter)) excluded.

(** ** Reference semantics: counting *)

Definition countb {A} (P : A -> bool) (l : list A) : Z := Z.of_nat (length (List.filter P l)).

(** [P] (a set of nodes, as its characteristic function) contains a slice. *)
Fixpoint has_slice (P : NodeID -> bool) (q : SCPQuorumSet) : bool :=
  let 'mkQSet t v i := q in t <=? countb P v + countb (has_slice P) i.

(** Enough entries are blocked by [P] that fewer than [threshold] are left. *)
Fixpoint blocks (P : NodeID -> bool) (q : SCPQuorumSet) : bool :=
  let 'mkQSet t v i := q in
  Z.of_nat (length v) + Z.of_nat (length i) - t + 1 <=? countb P v + countb (blocks P) i.

(** Thresholds are meaningful and the counters of the code can hold them, at
    every level. *)
Inductive proper : SCPQuorumSet -> Prop :=
  proper_intro t v i :
    1 <= t <= Z.of_nat (length v) + Z.of_nat (length i) ->
    Z.of_nat (length v) + Z.of_nat (length i) < INT32_MAX ->
    Forall proper i -> proper (mkQSet t v i).

Section countb.
Context {A : Type}.
Implicit Types P Q : A -> bool.

Lemma countb_nil P : countb P [] = 0.
Proof. done. Qed.

Lemma countb_cons P x l : countb P (x :: l) = (if P x then 1 else 0) + countb P l.
Proof. unfold countb. simpl. destruct (P x); simpl length; lia. Qed.

Lemma countb_nonneg P l : 0 <= countb P l.
Proof. unfold countb. lia. Qed.

Lemma countb_app P l k : countb P (l ++ k) = countb P l + countb P k.
Proof. induction l as [|x l IH]; simpl; [done|]. rewrite !countb_cons, IH. lia. Qed.

Lemma countb_ext P Q l : Forall (fun x => P x = Q x) l -> countb P l = countb Q l.
Proof. induction 1 as [|x l Hx Hl IH]; [done|]. by rewrite !countb_cons, Hx, IH. Qed.

Lemma countb_mono P Q l :
  Forall (fun x => P x = true -> Q x = true) l -> countb P l <= countb Q l.
Proof.
  induction 1 as [|x l Hx Hl IH]; [done|]. rewrite !countb_cons.
  destruct (P x); [rewrite Hx by done|destruct (Q x)]; lia.
Qed.

Lemma countb_negb P l : countb (fun x => negb (P x)) l = Z.of_nat (length l) - countb P l.
Proof.
  induction l as [|x l IH]; [done|]. rewrite !countb_cons, IH.
  simpl length. destruct (P x); simpl; lia.
Qed.

Lemma countb_perm P l k : l ≡ₚ k -> countb P l = countb P k.
Proof.
  induction 1 as [|x l k _ IH|x y l|l k m _ IH1 _ IH2]; rewrite ?countb_cons; lia.
Qed.
End countb.

Lemma countb_map {A B} (P : B -> bool) (f : A -> B) (l : list A) :
  countb P (map f l) = countb (fun x => P (f x)) l.
Proof. induction l as [|x l IH]; simpl; [done|]. by rewrite !countb_cons, IH. Qed.

Lemma slice_loop_count {A} (hit : A -> bool) (l : list A) (left : Z) :
  1 <= left <= UINT32_MAX ->
  slice_loop hit l left =
    if left <=? countb hit l then None else Some (left - countb hit l).
Proof.
  revert left. induction l as [|x l IH]; intros left Hl; simpl.
  { rewrite countb_nil. destruct (Z.leb_spec left 0); [lia|]. f_equal. lia. }
  rewrite countb_cons. destruct (hit x); [|rewrite IH by done; repeat f_equal; lia].
  rewrite u32_id by (unfold_ints; lia). destruct (Z.leb_spec (left - 1) 0).
  - pose proof (countb_nonneg hit l). destruct (Z.leb_spec left (1 + countb hit l)); [done|lia].
  - rewrite IH by lia.
    destruct (Z.leb_spec (left - 1) (countb hit l)), (Z.leb_spec left (1 + countb hit l));
      try lia; [done|]. f_equal. lia.
Qed.

Lemma block_loop_count {A} (hit : A -> bool) (l : list A) (left : Z) :
  1 <= left ->
  block_loop hit l left =
    if left <=? countb hit l then None else Some (left - countb hit l).
Proof.
  revert left. induction l as [|x l IH]; intros left Hl; simpl.
  { rewrite countb_nil. destruct (Z.leb_spec left 0); [lia|]. f_equal. lia. }
  rewrite countb_cons. destruct (hit x); [|rewrite IH by done; repeat f_equal; lia].
  destruct (Z.leb_spec (left - 1) 0).
  - pose proof (countb_nonneg hit l). destruct (Z.leb_spec left (1 + countb hit l)); [done|lia].
  - rewrite IH by lia.
    destruct (Z.leb_spec (left - 1) (countb hit l)), (Z.leb_spec left (1 + countb hit l));
      try lia; [done|]. f_equal. lia.
Qed.

Lemma has_slice_eq P t v i :
  has_slice P (mkQSet t v i) = (t <=? countb P v + countb (has_slice P) i).
Proof. done. Qed.

Lemma blocks_eq P t v i :
  blocks P (mkQSet t v i) =
    (Z.of_nat (length v) + Z.of_nat (length i) - t + 1 <=? countb P v + countb (blocks P) i).
Proof. done. Qed.

Lemma isQuorumSliceInternal_count (q : SCPQuorumSet) (ns : list NodeID) :
  proper q -> isQuorumSliceInternal q ns = has_slice (in_nodes ns) q.
Proof.
  induction q as [t v i IH] using qset_ind'. intros Hp.
  inversion Hp as [? ? ? Ht Hn Hi]; subst. rewrite has_slice_eq. cbn [isQuorumSliceInternal].
  rewrite slice_loop_count by (unfold_ints; lia).
  rewrite <- (countb_ext (fun q => isQuorumSliceInternal q ns) (has_slice (in_nodes ns)) i).
  2: { clear -IH Hi. induction IH; inversion Hi; subst; constructor; auto. }
  set (f := fun q => isQuorumSliceInternal q ns).
  pose proof (countb_nonneg (in_nodes ns) v). pose proof (countb_nonneg f i).
  destruct (Z.leb_spec t (countb (in_nodes ns) v)).
  { symmetry. apply Z.leb_le. lia. }
  rewrite slice_loop_count by (unfold_ints; lia).
  destruct (Z.leb_spec (t - countb (in_nodes ns) v) (countb f i)); symmetry;
    [apply Z.leb_le; lia | apply Z.leb_gt; lia].
Qed.

Lemma to_i32_small (x : Z) : 0 <= x <= INT32_MAX -> to_i32 (u64 x) = x.
Proof.
  intros Hx. rewrite u64_id by (unfold_ints; lia). unfold to_i32.
  rewrite u32_id by (unfold_ints; lia). destruct (Z.leb_spec x INT32_MAX); lia.
Qed.

Lemma isVBlockingInternal_count (q : SCPQuorumSet) (ns : list NodeID) :
  proper q -> isVBlockingInternal q ns = blocks (in_nodes ns) q.
Proof.
  induction q as [t v i IH] using qset_ind'. intros Hp.
  inversion Hp as [? ? ? Ht Hn Hi]; subst. rewrite blocks_eq. cbn [isVBlockingInternal].
  destruct (Z.eqb_spec t 0); [lia|]. rewrite to_i32_small by lia.
  rewrite block_loop_count by lia.
  rewrite <- (countb_ext (fun q => isVBlockingInternal q ns) (blocks (in_nodes ns)) i).
  2: { clear -IH Hi. induction IH; inversion Hi; subst; constructor; auto. }
  set (f := fun q => isVBlockingInternal q ns).
  pose proof (countb_nonneg (in_nodes ns) v). pose proof (countb_nonneg f i).
  set (tot := Z.of_nat (length v) + Z.of_nat (length i)) in *.
  replace (1 + Z.of_nat (length v) + Z.of_nat (length i) - t) with (tot - t + 1) by lia.
  destruct (Z.leb_spec (tot - t + 1) (countb (in_nodes ns) v)).
  { symmetry. apply Z.leb_le. lia. }
  rewrite block_loop_count by lia.
  destruct (Z.leb_spec (tot - t + 1 - countb (in_nodes ns) v) (countb f i)); symmetry;
    [apply Z.leb_le; lia | apply Z.leb_gt; lia].
Qed.

(** A set blocks exactly when its complement has no slice. *)
Lemma blocks_dual (P : NodeID -> bool) (q : SCPQuorumSet) :
  blocks P q = negb (has_slice (fun n => negb (P n)) q).
Proof.
  induction q as [t v i IH] using qset_ind'. rewrite blocks_eq, has_slice_eq.
  rewrite (countb_ext (blocks P) (fun q => negb (has_slice (fun n => negb (P n)) q)) i) by done.
  rewrite !countb_negb, <- Z.ltb_antisym.
  apply eq_bool_prop_intro. rewrite !Is_true_true, Z.leb_le, Z.ltb_lt. lia.
Qed.

(** Only the membership of the nodes a quorum set names matters. *)
Lemma has_slice_ext (P Q : NodeID -> bool) (q : SCPQuorumSet) :
  (forall n, n ∈ qset_nodes q -> P n = Q n) -> has_slice P q = has_slice Q q.
Proof.
  induction q as [t v i IH] using qset_ind'. rewrite qset_nodes_eq. intros Hn.
  rewrite !has_slice_eq. do 2 f_equal.
  - apply countb_ext, Forall_forall. set_solver.
  - apply countb_ext. rewrite Forall_forall in IH |- *. intros q Hq. apply IH; [done|].
    intros n Hnq. apply Hn, elem_of_app. right.
    apply list_elem_of_In, in_concat. exists (qset_nodes q).
    split; [by apply in_map, list_elem_of_In | by apply list_elem_of_In].
Qed.

Lemma has_slice_mono (P Q : NodeID -> bool) (q : SCPQuorumSet) :
  (forall n, P n = true -> Q n = true) -> has_slice P q = true -> has_slice Q q = true.
Proof.
  intros HPQ. induction q as [t v i IH] using qset_ind'. rewrite !has_slice_eq, !Z.leb_le.
  pose proof (countb_mono P Q v ltac:(apply Forall_true; auto)).
  pose proof (countb_mono (has_slice P) (has_slice Q) i IH). lia.
Qed.

Lemma in_nodes_true (ns : list NodeID) (n : NodeID) : in_nodes ns n = true <-> n ∈ ns.
Proof.
  unfold in_nodes. rewrite existsb_exists. setoid_rewrite eqb_of_true.
  rewrite list_elem_of_In. naive_solver.
Qed.

Lemma in_nodes_false (ns : list NodeID) (n : NodeID) : in_nodes ns n = false <-> n ∉ ns.
Proof. rewrite <- in_nodes_true. destruct (in_nodes ns n); split; congruence. Qed.

(** A well-formed quorum set names at least one node. *)
Lemma well_formed_nonempty (extra : bool) (d : Z) (q : SCPQuorumSet) :
  Sanity.well_formed extra d q -> (1 <= length (qset_nodes q))%nat.
Proof.
  revert d. induction q as [t v i IH] using qset_ind'. intros d Hwf.
  inversion Hwf as [? ? Hd Ht _ Hi]; subst. unfold Sanity.entries in Ht. simpl in Ht, Hi.
  rewrite (qset_nodes_eq t v i), length_app.
  destruct v as [|n v]; simpl length; [|lia]. destruct i as [|q i]; simpl in *; [lia|].
  inversion IH as [|? ? Hq]; inversion Hi; subst. rewrite length_app.
  specialize (Hq (d + 1) ltac:(done)). lia.
Qed.

Lemma inner_count_le (extra : bool) (d : Z) (i : list SCPQuorumSet) :
  Forall (Sanity.well_formed extra d) i -> (length i <= length (concat (map qset_nodes i)))%nat.
Proof.
  induction 1 as [|q i Hq Hi IH]; simpl; [lia|]. rewrite length_app.
  apply well_formed_nonempty in Hq. lia.
Qed.

Lemma well_formed_proper (extra : bool) (d : Z) (q : SCPQuorumSet) :
  Sanity.well_formed extra d q -> (length (qset_nodes q) <= 1000)%nat -> proper q.
Proof.
  revert d. induction q as [t v i IH] using qset_ind'. intros d Hwf Hlen.
  inversion Hwf as [? ? Hd Ht _ Hi]; subst. unfold Sanity.entries in Ht. simpl in Ht, Hi.
  rewrite qset_nodes_eq, length_app in Hlen.
  pose proof (inner_count_le extra (d + 1) i Hi).
  constructor; [lia | unfold_ints; lia |].
  assert (length (concat (map qset_nodes i)) <= 1000)%nat as Hl by lia. clear -IH Hi Hl.
  induction i as [|q i IHi]; [constructor|]. simpl in Hl. rewrite length_app in Hl.
  inversion IH as [|? ? Hq ?]; inversion Hi; subst. constructor; [|apply IHi; done || lia].
  eapply Hq; [done|lia].
Qed.

(** Every quorum set that passes the check on network statements is [proper]
    and names no node twice. *)
Definition usable (q : SCPQuorumSet) : Prop := proper q /\ NoDup (qset_nodes q).

Lemma sane_usable (extra : bool) (q : SCPQuorumSet) :
  representable q -> Sanity.isQuorumSetSane q extra = true -> usable q.
Proof.
  intros Hr Hs.
  pose proof (Sanity.checkSanity_spec extra q 0 (Sanity.mkChecker [] 0) Hr) as Hc.
  unfold Sanity.isQuorumSetSane, Sanity.sanityError in Hs.
  destruct (Sanity.checkSanity _ _ _ _) as [[e|] c]; [done|].
  destruct Hc as [(Hwf & Hnd & _) [_ Hcount]]. simpl in Hcount.
  destruct ((Sanity.mCount c <? 1) || (1000 <? Sanity.mCount c)) eqn:E; [done|]. bprop.
  split; [|exact Hnd]. eapply well_formed_proper; [exact Hwf|]. lia.
Qed.

Lemma sane_proper (extra : bool) (q : SCPQuorumSet) :
  representable q -> Sanity.isQuorumSetSane q extra = true -> proper q.
Proof. intros Hr Hs. by destruct (sane_usable extra q Hr Hs). Qed.

Lemma isQuorumSlice_mono (q : SCPQuorumSet) (ns ms : list NodeID) :
  proper q -> ns ⊆ ms -> isQuorumSlice q ns = true -> isQuorumSlice q ms = true.
Proof.
  intros Hp Hsub. unfold isQuorumSlice. rewrite !isQuorumSliceInternal_count by done.
  apply has_slice_mono. intros n. rewrite !in_nodes_true. apply Hsub.
Qed.

Lemma isVBlocking_mono (q : SCPQuorumSet) (ns ms : list NodeID) :
  proper q -> ns ⊆ ms -> isVBlocking q ns = true -> isVBlocking q ms = true.
Proof.
  intros Hp Hsub. unfold isVBlocking. rewrite !isVBlockingInternal_count by done.
  rewrite !blocks_dual, !negb_true_iff. intros Hn. apply not_true_iff_false. intros Hs.
  apply not_true_iff_false in Hn. apply Hn. revert Hs. apply has_slice_mono.
  intros n. rewrite !negb_true_iff, !in_nodes_false. set_solver.
Qed.

(** *** The loop of [isQuorum] *)
Section quorum.
Context {V : Type} (m : list (NodeID * V)) (qfun : V -> option SCPQuorumSet).
(** The quorum sets in use passed the sanity check. *)
Context (Hproper : forall st q, qfun st = Some q -> proper q).

(** [U] is a quorum: every member's own quorum set has a slice inside. *)
Definition quorum_set (U : list NodeID) : Prop :=
  forall n, n ∈ U -> exists st q,
    map_find n m = Some st /\ qfun st = Some q /\ isQuorumSlice q U = true.

Lemma quorumFilter_true (p : list NodeID) (n : NodeID) :
  quorumFilter m qfun p n = true <-> exists st q,
    map_find n m = Some st /\ qfun st = Some q /\ isQuorumSlice q p = true.
Proof.
  unfold quorumFilter. split.
  - intros Hf. destruct (map_find n m) as [st|] eqn:E1; [|done].
    destruct (qfun st) as [q|] eqn:E2; [|done]. by exists st, q.
  - intros (st & q & -> & -> & Hq). done.
Qed.

Lemma filter_full {A} (f : A -> bool) (l : list A) :
  length l = length (List.filter f l) -> List.filter f l = l.
Proof.
  induction l as [|x l IH]; simpl; [done|]. destruct (f x); simpl; intros Hl.
  - f_equal. apply IH. lia.
  - pose proof (filter_length_le f l). lia.
Qed.

Lemma quorum_loop_sound (fuel : nat) (p p' : list NodeID) :
  quorum_loop fuel m qfun p = Some p' -> quorum_set p' /\ p' ⊆ p.
Proof.
  revert p. induction fuel as [|fuel IH]; intros p; simpl; [done|].
  destruct (Nat.eqb_spec (length p) (length (List.filter (quorumFilter m qfun p) p))) as [E|E].
  - intros [= <-]. apply filter_full in E as Hp. rewrite Hp.
    split; [|done]. intros n Hn. apply quorumFilter_true.
    rewrite <- Hp in Hn. apply list_elem_of_In, filter_In in Hn. apply Hn.
  - intros [Hq Hsub]%IH. split; [done|]. intros n Hn%Hsub.
    apply list_elem_of_In, filter_In in Hn as [Hn _]. by apply list_elem_of_In.
Qed.

Lemma quorum_loop_complete (fuel : nat) (p U : list NodeID) :
  (length p < fuel)%nat -> quorum_set U -> U ⊆ p ->
  exists p', quorum_loop fuel m qfun p = Some p' /\ U ⊆ p'.
Proof.
  revert p. induction fuel as [|fuel IH]; intros p Hf HU Hsub; [lia|]. simpl.
  assert (U ⊆ List.filter (quorumFilter m qfun p) p) as Hsub'.
  { intros n Hn. apply list_elem_of_In, filter_In. split; [by apply list_elem_of_In, Hsub|].
    apply quorumFilter_true. destruct (HU n Hn) as (st & q & Hst & Hq & Hs).
    exists st, q. split; [done|]. split; [done|].
    eapply isQuorumSlice_mono; [by eapply Hproper | exact Hsub | done]. }
  destruct (Nat.eqb_spec (length p) (length (List.filter (quorumFilter m qfun p) p))) as [E|E].
  - by eexists.
  - apply IH; [|done..]. pose proof (filter_length_le (quorumFilter m qfun p) p). lia.
Qed.

Lemma isQuorum_greatest (qSet : SCPQuorumSet) (filter : V -> bool) :
  proper qSet ->
  isQuorum qSet m qfun filter = true <->
  exists U, U ⊆ filter_nodes m filter /\ quorum_set U /\ isQuorumSlice qSet U = true.
Proof.
  intros Hp. unfold isQuorum. set (p := filter_nodes m filter). split.
  - destruct (quorum_loop _ _ _ p) as [p'|] eqn:E; [|done]. intros Hq.
    apply quorum_loop_sound in E as [HU Hsub]. by exists p'.
  - intros (U & Hsub & HU & Hq).
    destruct (quorum_loop_complete (S (length p)) p U ltac:(lia) HU Hsub) as (p' & -> & Hp').
    by eapply isQuorumSlice_mono.
Qed.

(** [isQuorum] decides the existence of a quorum: it answers [true]
    exactly when some set [U] of nodes, all of whose latest statements pass
    the filter, is a quorum for its own members and contains a slice of the
    given quorum set.  The loop always terminates within the rounds the
    model gives it. *)
Theorem isQuorum_spec (qSet : SCPQuorumSet) (filter : V -> bool) :
  proper qSet ->
  isQuorum qSet m qfun filter = true <->
  exists U, U ⊆ filter_nodes m filter /\ quorum_set U /\ isQuorumSlice qSet U = true.
Proof. apply isQuorum_greatest. Qed.
End quorum.

(** Three nodes, each trusting any two; statements are just "in favour". *)
Definition three_nodes : SCPQuorumSet := mkQSet 2 [[1]; [2]; [3]] [].

Lemma three_nodes_distinct : NoDup (qset_nodes three_nodes).
Proof. by apply (bool_decide_unpack _). Qed.

Lemma three_nodes_proper : proper three_nodes.
Proof. constructor; [simpl; lia | simpl; unfold_ints; lia | constructor]. Qed.

Lemma isQuorum_spec_witness :
  isQuorum three_nodes [([1], true); ([2], false); ([3], true)]
    (fun _ => Some three_nodes) (fun b => b) = true.
Proof.
  apply (isQuorum_spec [([1], true); ([2], false); ([3], true)] (fun _ => Some three_nodes)).
  - intros st q [= <-]. exact three_nodes_proper.
  - exact three_nodes_proper.
  - exists [[1]; [3]]. split; [|split].
    + intros n Hn. exact Hn.
    + intros n Hn. apply quorumFilter_true.
      repeat (apply elem_of_cons in Hn as [->|Hn]; [reflexivity|]).
      by apply not_elem_of_nil in Hn.
    + reflexivity.
Defined.

(** Duality: for a sane quorum set, a set of nodes is v-blocking exactly
    when the nodes of the quorum set outside it contain no slice. *)
Theorem isVBlocking_dual (q : SCPQuorumSet) (extra : bool) (ns : list NodeID) :
  representable q -> Sanity.isQuorumSetSane q extra = true ->
  isVBlocking q ns =
    negb (isQuorumSlice q (List.filter (fun n => negb (in_nodes ns n)) (qset_nodes q))).
Proof.
  intros Hr Hs. assert (proper q) as Hp by (by eapply sane_proper).
  unfold isVBlocking, isQuorumSlice.
  rewrite isVBlockingInternal_count, isQuorumSliceInternal_count by done.
  rewrite blocks_dual. f_equal. apply has_slice_ext. intros n Hn.
  apply eq_bool_prop_intro. rewrite !Is_true_true, in_nodes_true, list_elem_of_In, filter_In,
    <- list_elem_of_In. naive_solver.
Qed.

Lemma three_nodes_representable : representable three_nodes.
Proof. constructor; [unfold_ints; lia | simpl; unfold_ints; lia.. | constructor]. Qed.

Lemma isVBlocking_dual_witness :
  isVBlocking three_nodes [[2]; [3]] = true /\ isVBlocking three_nodes [[2]] = false.
Proof.
  split.
  - rewrite (isVBlocking_dual three_nodes true [[2]; [3]] three_nodes_representable);
      reflexivity.
  - rewrite (isVBlocking_dual three_nodes true [[2]] three_nodes_representable); reflexivity.
Defined.

(** *** Normalisation does not change the trust a quorum set expresses *)

Lemma has_slice_singleton (P : NodeID -> bool) (q : SCPQuorumSet) (n : NodeID) :
  Normalize.is_singleton q = Some n -> has_slice P q = P n.
Proof.
  destruct q as [t [|m [|]] [|]]; simpl; try done.
  destruct (Z.eqb_spec t 1) as [->|]; [|done]. intros [= ->].
  rewrite countb_cons, countb_nil. by destruct (P n).
Qed.

Lemma has_slice_split (P : NodeID -> bool) (l : list SCPQuorumSet) :
  countb (has_slice P) l =
    countb P (omap Normalize.is_singleton l) +
    countb (has_slice P) (List.filter Normalize.not_singleton l).
Proof.
  induction l as [|q l IH]; csimpl; [done|]. rewrite countb_cons, IH.
  unfold Normalize.not_singleton at 2.
  destruct (Normalize.is_singleton q) as [n|] eqn:E; csimpl; rewrite countb_cons; [|lia].
  rewrite (has_slice_singleton P q n E). lia.
Qed.

Lemma has_slice_collapse (P : NodeID -> bool) t v i :
  has_slice P (Normalize.collapse t v i) = has_slice P (mkQSet t v i).
Proof.
  unfold Normalize.collapse. destruct v as [|n v]; [|done].
  destruct i as [|q [|]]; [done| |done]. destruct (Z.eqb_spec t 1) as [->|]; [|done].
  rewrite has_slice_eq, countb_cons, !countb_nil. by destruct (has_slice P q).
Qed.

Lemma has_slice_simplify (P : NodeID -> bool) (q : SCPQuorumSet) :
  has_slice P (Normalize.normalizeQSetSimplify None q) = has_slice P q.
Proof.
  induction q as [t v i IH] using qset_ind'. rewrite Normalize.normalizeQSetSimplify_eq.
  simpl Normalize.remove_id. cbv zeta. cbn match.
  rewrite has_slice_collapse, !has_slice_eq, countb_app, <- Z.add_assoc, <- has_slice_split.
  rewrite countb_map. do 2 f_equal. by apply countb_ext.
Qed.

Lemma has_slice_reorder (P : NodeID -> bool) (q : SCPQuorumSet) :
  has_slice P (Normalize.normalizeQuorumSetReorder q) = has_slice P q.
Proof.
  induction q as [t v i IH] using qset_ind'.
  cbn [Normalize.normalizeQuorumSetReorder]. rewrite !has_slice_eq.
  rewrite !(countb_perm _ _ _ (Normalize.std_sort_perm _)), countb_map.
  do 2 f_equal. by apply countb_ext.
Qed.

(** The entries of a set survive simplification. *)
Lemma singletons_split (l : list SCPQuorumSet) :
  (length (omap Normalize.is_singleton l) + length (List.filter Normalize.not_singleton l) =
   length l)%nat.
Proof.
  induction l as [|q l IH]; csimpl; [done|]. unfold Normalize.not_singleton at 1.
  destruct (Normalize.is_singleton q); csimpl; lia.
Qed.

Lemma filter_Forall {A} (P : A -> Prop) (f : A -> bool) (l : list A) :
  Forall P l -> Forall P (List.filter f l).
Proof. induction 1; simpl; [constructor|]. case_match; by constructor || done. Qed.

(** Normalisation keeps the nodes. *)
Lemma singletons_nodes (l : list SCPQuorumSet) :
  omap Normalize.is_singleton l ++
    concat (map qset_nodes (List.filter Normalize.not_singleton l)) ≡ₚ
  concat (map qset_nodes l).
Proof.
  induction l as [|q l IH]; csimpl; [done|]. unfold Normalize.not_singleton at 1.
  destruct (Normalize.is_singleton q) as [n|] eqn:E; csimpl.
  - destruct q as [t [|x [|]] [|]]; try done. cbn in E. destruct (t =? 1); [|done].
    injection E as ->. rewrite qset_nodes_eq. cbn. by rewrite IH.
  - rewrite <- IH. by rewrite !app_assoc, (Permutation_app_comm (qset_nodes q)).
Qed.

Lemma concat_perm (f g : SCPQuorumSet -> list NodeID) (l : list SCPQuorumSet) :
  Forall (fun q => f q ≡ₚ g q) l -> concat (map f l) ≡ₚ concat (map g l).
Proof. induction 1 as [|q l Hq _ IH]; simpl; [done|]. by rewrite Hq, IH. Qed.

Lemma nodes_simplify (q : SCPQuorumSet) :
  qset_nodes (Normalize.normalizeQSetSimplify None q) ≡ₚ qset_nodes q.
Proof.
  induction q as [t v i IH] using qset_ind'. rewrite Normalize.normalizeQSetSimplify_eq.
  simpl Normalize.remove_id. cbv zeta. cbn match. set (i' := map _ i).
  assert (forall w l, qset_nodes (Normalize.collapse t w l) = qset_nodes (mkQSet t w l)) as Hc.
  { intros w l. unfold Normalize.collapse. destruct w; [|done]. destruct l as [|x [|]]; try done.
    destruct (t =? 1); [|done]. rewrite qset_nodes_eq. cbn. by rewrite app_nil_r. }
  rewrite Hc, !qset_nodes_eq, <- app_assoc, singletons_nodes. unfold i'.
  rewrite map_map. by rewrite (concat_perm _ qset_nodes).
Qed.

Lemma nodes_reorder (q : SCPQuorumSet) :
  qset_nodes (Normalize.normalizeQuorumSetReorder q) ≡ₚ qset_nodes q.
Proof.
  induction q as [t v i IH] using qset_ind'. cbn [Normalize.normalizeQuorumSetReorder].
  rewrite !qset_nodes_eq, (Normalize.std_sort_perm v). f_equiv.
  rewrite (Normalize.std_sort_perm (map _ i)), map_map. by apply concat_perm.
Qed.

Lemma proper_simplify (q : SCPQuorumSet) :
  proper q -> proper (Normalize.normalizeQSetSimplify None q).
Proof.
  induction q as [t v i IH] using qset_ind'. intros Hp.
  inversion Hp as [? ? ? Ht Hn Hi]; subst. rewrite Normalize.normalizeQSetSimplify_eq.
  simpl Normalize.remove_id. cbv zeta. cbn match.
  set (i' := map _ i).
  assert (Forall proper i') as Hi'.
  { unfold i'. apply Forall_fmap. clear -IH Hi.
    induction IH; inversion Hi; subst; constructor; auto. }
  pose proof (singletons_split i') as Hlen. unfold i' in Hlen at 3. rewrite length_map in Hlen.
  assert (Forall proper (List.filter Normalize.not_singleton i')) as Hk by by apply filter_Forall.
  assert (proper (mkQSet t (v ++ omap Normalize.is_singleton i')
    (List.filter Normalize.not_singleton i'))) as Hq.
  { constructor; rewrite ?length_app; [lia..|done]. }
  revert Hk Hq. generalize (v ++ omap Normalize.is_singleton i').
  generalize (List.filter Normalize.not_singleton i'). unfold Normalize.collapse.
  intros l w Hk Hq. destruct w as [|]; [|done]. destruct l as [|q [|]]; [done| |done].
  destruct (t =? 1); [|done]. by inversion Hk.
Qed.

Lemma proper_reorder (q : SCPQuorumSet) :
  proper q -> proper (Normalize.normalizeQuorumSetReorder q).
Proof.
  induction q as [t v i IH] using qset_ind'. intros Hp.
  inversion Hp as [? ? ? Ht Hn Hi]; subst. cbn [Normalize.normalizeQuorumSetReorder].
  constructor;
    try (rewrite (Permutation_length (Normalize.std_sort_perm v)),
           (Permutation_length (Normalize.std_sort_perm (map _ i))), length_map; lia).
  rewrite Normalize.std_sort_perm. apply Forall_fmap. clear -IH Hi.
  induction IH; inversion Hi; subst; constructor; auto.
Qed.

(** Normalising a sane quorum set keeps its meaning: the same sets of nodes
    contain a slice of it, and the same sets are v-blocking. *)
Theorem normalizeQSet_preserves_slices (q : SCPQuorumSet) (extra : bool) (ns : list NodeID) :
  representable q -> Sanity.isQuorumSetSane q extra = true ->
  isQuorumSlice (Normalize.normalizeQSet None q) ns = isQuorumSlice q ns /\
  isVBlocking (Normalize.normalizeQSet None q) ns = isVBlocking q ns.
Proof.
  intros Hr Hs. assert (proper q) as Hp by (by eapply sane_proper).
  unfold isQuorumSlice, isVBlocking, Normalize.normalizeQSet.
  assert (proper (Normalize.normalizeQuorumSetReorder (Normalize.normalizeQSetSimplify None q)))
    by (by apply proper_reorder, proper_simplify).
  rewrite !isQuorumSliceInternal_count, !isVBlockingInternal_count, !blocks_dual by done.
  by rewrite !has_slice_reorder, !has_slice_simplify.
Qed.

Definition nested_qset : SCPQuorumSet :=
  mkQSet 2 [[2]; [1]] [mkQSet 1 [[3]] []; mkQSet 1 [] [mkQSet 2 [[5]; [4]] []]].

(** *** Node weights *)

Lemma computeWeight_exact (w total t : Z) :
  is_u64 w -> 0 <= t <= total -> 0 < total -> is_u64 total ->
  computeWeight w total t = Ok (cdiv (w * t) total).
Proof.
  intros Hw Ht Hpos Htot. unfold computeWeight.
  destruct (Z.leb_spec t total); [|lia]. cbn [negb].
  rewrite bigDivideUnsigned_quotient by (unfold_ints; lia). simpl quotient.
  assert (cdiv (w * t) total <= w) by (apply cdiv_le; unfold_ints; nia).
  assert (0 <= cdiv (w * t) total) by (apply (quotient_nonneg ROUND_UP); unfold_ints; nia).
  destruct (Z.leb_spec (cdiv (w * t) total) UINT64_MAX); [|unfold_ints; lia]. cbn [negb].
  by rewrite u64_id by (unfold_ints; lia).
Qed.

Lemma computeWeight_range (w total t : Z) :
  1 <= w <= UINT64_MAX -> 1 <= t <= total -> is_u64 total ->
  exists x, computeWeight w total t = Ok x /\ 1 <= x <= w.
Proof.
  intros Hw Ht Htot. exists (cdiv (w * t) total).
  rewrite computeWeight_exact by (unfold_ints; lia). split; [done|]. split.
  - pose proof (cdiv_spec (w * t) total ltac:(lia)).
    destruct (Z.le_gt_cases 1 (cdiv (w * t) total)); [done|]. exfalso. nia.
  - apply cdiv_le; nia.
Qed.

(** The weight of a node is always computed (no assertion fails and no
    arithmetic overflows), is a 64-bit number, and is non-zero exactly for the
    nodes the quorum set names. *)
Theorem getNodeWeight_total (n : NodeID) (q : SCPQuorumSet) :
  proper q ->
  exists w, getNodeWeight n q = Ok w /\ 0 <= w <= UINT64_MAX /\
    (w <> 0 <-> n ∈ qset_nodes q).
Proof.
  induction q as [t v i IH] using qset_ind'. intros Hp.
  inversion Hp as [? ? ? Ht Hn Hi]; subst. cbn [getNodeWeight]. rewrite qset_nodes_eq.
  set (d := Z.of_nat (length i) + Z.of_nat (length v)).
  change (existsb (fun qsetNode => eqb_of qsetNode n) v) with (in_nodes v n).
  destruct (in_nodes v n) eqn:E.
  { apply in_nodes_true in E.
    destruct (computeWeight_range UINT64_MAX d t) as (w & -> & Hw); [unfold_ints; lia..|].
    exists w. split; [done|]. split; [lia|]. split; [set_solver | lia]. }
  apply in_nodes_false in E.
  enough (exists w, weight_loop (getNodeWeight n) d t i = Ok w /\ 0 <= w <= UINT64_MAX /\
    (w <> 0 <-> n ∈ concat (map qset_nodes i))) as (w & ? & ? & Hw).
  { exists w. split; [done|]. split; [done|]. rewrite Hw. set_solver. }
  assert (1 <= t <= d /\ is_u64 d) as [Htd Hd] by (unfold_ints; lia).
  clearbody d. clear E Ht Hn Hp. induction IH as [|q i Hq _ IHi]; simpl.
  { exists 0. split; [done|]. split; [unfold_ints; lia|]. set_solver. }
  inversion Hi as [|? ? Hpq Hi']; subst. destruct (Hq Hpq) as (w & -> & Hw & Hiff). simpl.
  destruct (Z.eqb_spec w 0) as [->|Hne]; cbn [negb].
  - destruct (IHi Hi') as (w' & -> & Hw' & Hiff'). exists w'. split; [done|].
    split; [done|]. rewrite Hiff', elem_of_app. rewrite <- Hiff. tauto.
  - destruct (computeWeight_range w d t) as (w' & -> & Hw'); [lia|done..|].
    exists w'. split; [done|]. split; [lia|]. rewrite elem_of_app, <- Hiff. lia.
Qed.

(** *** Quorum sets without the local node

    [updateRoundLeaders] weighs the nodes of its quorum set after taking itself
    out of it; thresholds may then be zero. *)

Inductive weighable : SCPQuorumSet -> Prop :=
  weighable_intro t v i :
    0 <= t <= Z.of_nat (length v) + Z.of_nat (length i) ->
    Z.of_nat (length v) + Z.of_nat (length i) < INT32_MAX ->
    Forall weighable i -> weighable (mkQSet t v i).

Lemma computeWeight_bounded (w total t : Z) :
  0 <= w <= UINT64_MAX -> 0 <= t <= total -> 0 < total -> is_u64 total ->
  exists x, computeWeight w total t = Ok x /\ 0 <= x <= UINT64_MAX.
Proof.
  intros Hw Ht Hpos Htot. exists (cdiv (w * t) total).
  rewrite computeWeight_exact by (unfold_ints; lia). split; [done|]. split.
  - apply (quotient_nonneg ROUND_UP); unfold_ints; nia.
  - etrans; [apply (cdiv_le _ _ w); nia|lia].
Qed.

Lemma getNodeWeight_weighable (n : NodeID) (q : SCPQuorumSet) :
  weighable q -> exists w, getNodeWeight n q = Ok w /\ 0 <= w <= UINT64_MAX.
Proof.
  induction q as [t v i IH] using qset_ind'. intros Hp.
  inversion Hp as [? ? ? Ht Hn Hi]; subst. cbn [getNodeWeight].
  change (existsb (fun qsetNode => eqb_of qsetNode n) v) with (in_nodes v n).
  set (d := Z.of_nat (length i) + Z.of_nat (length v)).
  assert (is_u64 d /\ 0 <= t <= d) as [Hd Htd] by (unfold_ints; lia).
  destruct (in_nodes v n) eqn:E.
  { apply in_nodes_true in E. apply computeWeight_bounded; [unfold_ints; lia|done| |done].
    destruct v; [by apply not_elem_of_nil in E|]. unfold d. cbn [length]. lia. }
  assert (i <> [] -> 0 < d) as Hpos by (unfold d; destruct i; [done|cbn [length]; lia]).
  clearbody d. clear -IH Hi Hd Htd Hpos. induction IH as [|q i Hq _ IHi]; simpl.
  { exists 0. split; [done|unfold_ints; lia]. }
  inversion Hi as [|? ? Hpq Hi']; subst. destruct (Hq Hpq) as (w & -> & Hw). simpl.
  destruct (Z.eqb_spec w 0) as [->|Hne]; cbn [negb].
  - apply IHi; [done|]. intros _. by apply Hpos.
  - apply computeWeight_bounded; [done|done|by apply Hpos|done].
Qed.

Lemma weighable_collapse (t : Z) (v : list NodeID) (i : list SCPQuorumSet) :
  weighable (mkQSet t v i) -> weighable (Normalize.collapse t v i).
Proof.
  intros Hw. unfold Normalize.collapse. destruct v; [|done]. destruct i as [|q [|]]; [done| |done].
  destruct (t =? 1); [|done]. inversion Hw as [? ? ? _ _ Hi]; subst. by inversion Hi.
Qed.

(** A node occurs once, so its removal takes one from the threshold. *)
Lemma remove_id_bounds (id : NodeID) (t : Z) (v v' : list NodeID) (t' : Z) (m : nat) :
  NoDup v -> 1 <= t <= Z.of_nat (length v + m) -> Z.of_nat (length v + m) < INT32_MAX ->
  Normalize.remove_id (Some id) t v = (t', v') ->
  0 <= t' <= Z.of_nat (length v' + m) /\ Z.of_nat (length v' + m) < INT32_MAX.
Proof.
  intros Hnd Ht Hm [= <- <-].
  assert (length v <= S (length (List.filter (fun m => negb (eqb_of m id)) v)))%nat as Hone.
  { clear -Hnd. induction Hnd as [|x v Hx Hnd IH]; simpl; [lia|].
    destruct (eqb_of x id) eqn:E; simpl; [|lia]. apply eqb_of_true in E as ->.
    enough (List.filter (fun m => negb (eqb_of m id)) v = v) as -> by lia.
    clear -Hx. induction v as [|y v IH]; simpl; [done|].
    destruct (eqb_of y id) eqn:E; simpl; [apply eqb_of_true in E; set_solver|].
    f_equal. apply IH. set_solver. }
  pose proof (filter_length_le (fun m => negb (eqb_of m id)) v).
  set (k := length (List.filter _ v)) in *. rewrite !u32_id; unfold_ints; try lia.
  rewrite u32_id; unfold_ints; lia.
Qed.

Lemma NoDup_inner (v : list NodeID) (i : list SCPQuorumSet) (t : Z) :
  NoDup (qset_nodes (mkQSet t v i)) -> NoDup v /\ Forall (fun q => NoDup (qset_nodes q)) i.
Proof.
  rewrite qset_nodes_eq. intros (Hv & _ & Hi)%NoDup_app. split; [done|].
  induction i as [|q i IH]; simpl in Hi; [constructor|].
  apply NoDup_app in Hi as (? & _ & ?). constructor; auto.
Qed.

Lemma weighable_without (id : NodeID) (q : SCPQuorumSet) :
  proper q -> NoDup (qset_nodes q) -> weighable (Normalize.normalizeQSetSimplify (Some id) q).
Proof.
  induction q as [t v i IH] using qset_ind'. intros Hp [Hv Hd]%NoDup_inner.
  inversion Hp as [? ? ? Ht Hn Hi]; subst. rewrite Normalize.normalizeQSetSimplify_eq.
  destruct (Normalize.remove_id (Some id) t v) as [t' v'] eqn:Er. cbv zeta.
  set (i' := map _ i). apply weighable_collapse.
  destruct (remove_id_bounds id t v v' t' (length i) Hv ltac:(lia) ltac:(lia) Er) as [H1 H2].
  pose proof (singletons_split i') as Hs. unfold i' in Hs at 3. rewrite length_map in Hs.
  constructor; rewrite ?length_app; [lia..|].
  apply filter_Forall. unfold i'. apply Forall_fmap. clear -IH Hi Hd.
  induction IH; inversion Hi; inversion Hd; subst; constructor; auto.
Qed.

Lemma weighable_reorder (q : SCPQuorumSet) :
  weighable q -> weighable (Normalize.normalizeQuorumSetReorder q).
Proof.
  induction q as [t v i IH] using qset_ind'. intros Hp.
  inversion Hp as [? ? ? Ht Hn Hi]; subst. cbn [Normalize.normalizeQuorumSetReorder].
  constructor;
    try (rewrite (Permutation_length (Normalize.std_sort_perm v)),
           (Permutation_length (Normalize.std_sort_perm (map _ i))), length_map; lia).
  rewrite Normalize.std_sort_perm. apply Forall_fmap. clear -IH Hi.
  induction IH; inversion Hi; subst; constructor; auto.
Qed.

(** Normalising keeps a quorum set usable, and taking the local node out of it
    leaves a set that can be weighed. *)
Lemma usable_normalize (q : SCPQuorumSet) : usable q -> usable (Normalize.normalizeQSet None q).
Proof.
  intros [Hp Hd]. split; [by apply proper_reorder, proper_simplify|].
  unfold Normalize.normalizeQSet. by rewrite nodes_reorder, nodes_simplify.
Qed.

Lemma usable_weighable (id : NodeID) (q : SCPQuorumSet) :
  usable q -> weighable (Normalize.normalizeQSet (Some id) q).
Proof. intros [Hp Hd]. by apply weighable_reorder, weighable_without. Qed.

(** The weights used to elect leaders are always computed: for a sane
    quorum set from which the local node has been taken out, no assertion of
    the weight computation fails and no arithmetic overflows, although some
    thresholds may have become zero. *)
Theorem leader_weights_total (q : SCPQuorumSet) (extra : bool) (localID n : NodeID) :
  representable q -> Sanity.isQuorumSetSane q extra = true ->
  exists w, getNodeWeight n (Normalize.normalizeQSet (Some localID) q) = Ok w /\
    0 <= w <= UINT64_MAX.
Proof.
  intros Hr Hs. apply getNodeWeight_weighable, usable_weighable. by eapply sane_usable.
Qed.
