(* ===== verification/Statement.v ===== *)
(** * SCP messages

    The XDR types of [src/xdr/Stellar-SCP.x], the order and compatibility of
    ballots, and the functions of [BallotProtocol], [NominationProtocol] and
    [Slot] that only look at statements. *)
From stdpp Require Import base tactics list sorting numbers sets gmap.
From Stdlib Require Import ZArith Lia Bool.
From S2P Require Import Prelude Containers QuorumSet.

Open Scope Z_scope.

Definition Hash : Type := bytes.
Definition Value : Type := bytes.
Definition Signature : Type := bytes.

Record SCPBallot := mkBallot { counter : Z; value : Value }.

Record Prepare := mkPrepare {
  p_quorumSetHash : Hash;
  p_ballot : SCPBallot;
  p_prepared : option SCPBallot;
  p_preparedPrime : option SCPBallot;
  p_nC : Z;
  p_nH : Z
}.

Record Confirm := mkConfirm {
  c_ballot : SCPBallot;
  c_nPrepared : Z;
  c_nCommit : Z;
  c_nH : Z;
  c_quorumSetHash : Hash
}.

Record Externalize := mkExternalize {
  e_commit : SCPBallot;
  e_nH : Z;
  e_commitQuorumSetHash : Hash
}.

Record SCPNomination := mkNomination {
  n_quorumSetHash : Hash;
  n_votes : list Value;
  n_accepted : list Value
}.

Inductive SCPPledges :=
  | SCP_ST_PREPARE (p : Prepare)
  | SCP_ST_CONFIRM (c : Confirm)
  | SCP_ST_EXTERNALIZE (e : Externalize)
  | SCP_ST_NOMINATE (n : SCPNomination).

Record SCPStatement := mkStatement {
  nodeID : NodeID;
  slotIndex : Z;
  pledges : SCPPledges
}.

Record SCPEnvelope := mkEnvelope { statement : SCPStatement; signature : Signature }.

#[global] Instance SCPBallot_eq_dec : EqDecision SCPBallot.
Proof. solve_decision. Defined.
#[global] Instance Prepare_eq_dec : EqDecision Prepare.
Proof. solve_decision. Defined.
#[global] Instance Confirm_eq_dec : EqDecision Confirm.
Proof. solve_decision. Defined.
#[global] Instance Externalize_eq_dec : EqDecision Externalize.
Proof. solve_decision. Defined.
#[global] Instance SCPNomination_eq_dec : EqDecision SCPNomination.
Proof. solve_decision. Defined.
#[global] Instance SCPPledges_eq_dec : EqDecision SCPPledges.
Proof. solve_decision. Defined.
#[global] Instance SCPStatement_eq_dec : EqDecision SCPStatement.
Proof. solve_decision. Defined.
#[global] Instance SCPEnvelope_eq_dec : EqDecision SCPEnvelope.
Proof. solve_decision. Defined.

(** The value of [SCPStatementType]. *)
Definition type_of (pl : SCPPledges) : Z :=
  match pl with
  | SCP_ST_PREPARE _ => 0
  | SCP_ST_CONFIRM _ => 1
  | SCP_ST_EXTERNALIZE _ => 2
  | SCP_ST_NOMINATE _ => 3
  end.

(** ** Ballots *)

Definition compareBallots (b1 b2 : SCPBallot) : Z :=
  if counter b1 <? counter b2 then -1
  else if counter b2 <? counter b1 then 1
  else if ltb (value b1) (value b2) then -1
  else if ltb (value b2) (value b1) then 1
  else 0.

(** The overload on pointers. *)
Definition compareBallots_ptr (b1 b2 : option SCPBallot) : Z :=
  match b1, b2 with
  | Some b1, Some b2 => compareBallots b1 b2
  | Some _, None => 1
  | None, Some _ => -1
  | None, None => 0
  end.

Definition areBallotsCompatible (b1 b2 : SCPBallot) : bool := eqb_of (value b1) (value b2).

Definition areBallotsLessAndIncompatible (b1 b2 : SCPBallot) : bool :=
  (compareBallots b1 b2 <=? 0) && negb (areBallotsCompatible b1 b2).

Definition areBallotsLessAndCompatible (b1 b2 : SCPBallot) : bool :=
  (compareBallots b1 b2 <=? 0) && areBallotsCompatible b1 b2.

(** The order of [std::set<SCPBallot>] (XDR field order: counter, value). *)
#[global] Instance LtB_ballot : LtB SCPBallot := fun b1 b2 =>
  if counter b1 <? counter b2 then true
  else if counter b2 <? counter b1 then false
  else ltb (value b1) (value b2).

Lemma ltb_compareBallots (b1 b2 : SCPBallot) : ltb b1 b2 = (compareBallots b1 b2 <? 0).
Proof.
  unfold ltb, LtB_ballot, compareBallots.
  destruct (counter b1 <? counter b2); [done|].
  destruct (counter b2 <? counter b1); [done|].
  destruct (ltb (value b1) (value b2)); [done|]. by destruct (ltb (value b2) (value b1)).
Qed.

(** ** Statements *)

Definition getWorkingBallot (st : SCPStatement) : SCPBallot :=
  match pledges st with
  | SCP_ST_PREPARE p => p_ballot p
  | SCP_ST_CONFIRM con => mkBallot (c_nCommit con) (value (c_ballot con))
  | SCP_ST_EXTERNALIZE e => e_commit e
  | SCP_ST_NOMINATE _ => mkBallot 0 []
  end.

(** [Slot::getCompanionQuorumSetHashFromStatement]. *)
Definition getCompanionQuorumSetHashFromStatement (st : SCPStatement) : Hash :=
  match pledges st with
  | SCP_ST_PREPARE p => p_quorumSetHash p
  | SCP_ST_CONFIRM c => c_quorumSetHash c
  | SCP_ST_EXTERNALIZE e => e_commitQuorumSetHash e
  | SCP_ST_NOMINATE n => n_quorumSetHash n
  end.

(** [BallotProtocol::isNewerStatement].  Both statements are ballot
    statements; the last arm is never reached from the ballot protocol. *)
Definition isNewerStatement (oldst st : SCPStatement) : bool :=
  if negb (type_of (pledges oldst) =? type_of (pledges st))
  then type_of (pledges oldst) <? type_of (pledges st)
  else
    match pledges oldst, pledges st with
    | SCP_ST_EXTERNALIZE _, SCP_ST_EXTERNALIZE _ => false
    | SCP_ST_CONFIRM oldC, SCP_ST_CONFIRM c =>
        let compBallot := compareBallots (c_ballot oldC) (c_ballot c) in
        if compBallot <? 0 then true
        else if compBallot =? 0 then
          if c_nPrepared oldC =? c_nPrepared c then c_nH oldC <? c_nH c
          else c_nPrepared oldC <? c_nPrepared c
        else false
    | SCP_ST_PREPARE oldPrep, SCP_ST_PREPARE prep =>
        let compBallot := compareBallots (p_ballot oldPrep) (p_ballot prep) in
        if compBallot <? 0 then true
        else if compBallot =? 0 then
          let compBallot := compareBallots_ptr (p_prepared oldPrep) (p_prepared prep) in
          if compBallot <? 0 then true
          else if compBallot =? 0 then
            let compBallot :=
              compareBallots_ptr (p_preparedPrime oldPrep) (p_preparedPrime prep) in
            if compBallot <? 0 then true
            else if compBallot =? 0 then p_nH oldPrep <? p_nH prep
            else false
          else false
        else false
    | _, _ => false
    end.

Definition opt_list {A} (o : option A) : list A :=
  match o with Some a => [a] | None => [] end.

(** [BallotProtocol::getStatementValues]. *)
Definition getStatementValues (st : SCPStatement) : list Value :=
  match pledges st with
  | SCP_ST_PREPARE prep =>
      set_of_list
        ((if negb (counter (p_ballot prep) =? 0) then [value (p_ballot prep)] else []) ++
         map value (opt_list (p_prepared prep)) ++
         map value (opt_list (p_preparedPrime prep)))
  | SCP_ST_CONFIRM c => [value (c_ballot c)]
  | SCP_ST_EXTERNALIZE e => [value (e_commit e)]
  | SCP_ST_NOMINATE _ => []
  end.

(** [hasPreparedBallot]: does the statement accept the ballot as prepared? *)
Definition hasPreparedBallot (ballot : SCPBallot) (st : SCPStatement) : bool :=
  match pledges st with
  | SCP_ST_PREPARE p =>
      match p_prepared p with
      | Some b => areBallotsLessAndCompatible ballot b
      | None => false
      end ||
      match p_preparedPrime p with
      | Some b => areBallotsLessAndCompatible ballot b
      | None => false
      end
  | SCP_ST_CONFIRM c =>
      areBallotsLessAndCompatible ballot (mkBallot (c_nPrepared c) (value (c_ballot c)))
  | SCP_ST_EXTERNALIZE e => areBallotsCompatible ballot (e_commit e)
  | SCP_ST_NOMINATE _ => false
  end.

(** The first predicate of [attemptAcceptPrepared]: a vote to prepare. *)
Definition votesPrepared (ballot : SCPBallot) (st : SCPStatement) : bool :=
  match pledges st with
  | SCP_ST_PREPARE p => areBallotsLessAndCompatible ballot (p_ballot p)
  | SCP_ST_CONFIRM c => areBallotsCompatible ballot (c_ballot c)
  | SCP_ST_EXTERNALIZE e => areBallotsCompatible ballot (e_commit e)
  | SCP_ST_NOMINATE _ => false
  end.

Definition Interval : Type := Z * Z.

(** [commitPredicate]: does the statement accept committing the interval? *)
Definition commitPredicate (ballot : SCPBallot) (check : Interval) (st : SCPStatement) : bool :=
  match pledges st with
  | SCP_ST_PREPARE _ => false
  | SCP_ST_CONFIRM c =>
      if areBallotsCompatible ballot (c_ballot c)
      then (c_nCommit c <=? fst check) && (snd check <=? c_nH c) else false
  | SCP_ST_EXTERNALIZE e =>
      if areBallotsCompatible ballot (e_commit e)
      then counter (e_commit e) <=? fst check else false
  | SCP_ST_NOMINATE _ => false
  end.

(** The voting predicate of [attemptAcceptCommit]. *)
Definition votesCommit (ballot : SCPBallot) (cur : Interval) (st : SCPStatement) : bool :=
  match pledges st with
  | SCP_ST_PREPARE p =>
      if areBallotsCompatible ballot (p_ballot p) then
        if negb (p_nC p =? 0)
        then (p_nC p <=? fst cur) && (snd cur <=? p_nH p) else false
      else false
  | SCP_ST_CONFIRM c =>
      if areBallotsCompatible ballot (c_ballot c) then c_nCommit c <=? fst cur else false
  | SCP_ST_EXTERNALIZE e =>
      if areBallotsCompatible ballot (e_commit e)
      then counter (e_commit e) <=? fst cur else false
  | SCP_ST_NOMINATE _ => false
  end.

Definition statementBallotCounter (st : SCPStatement) : Z :=
  match pledges st with
  | SCP_ST_PREPARE p => counter (p_ballot p)
  | SCP_ST_CONFIRM c => counter (c_ballot c)
  | SCP_ST_EXTERNALIZE _ => UINT32_MAX
  | SCP_ST_NOMINATE _ => 0
  end.

(** The ballots a statement suggests as candidates: [hintBallots]. *)
Definition hintBallots (hint : SCPStatement) : list SCPBallot :=
  match pledges hint with
  | SCP_ST_PREPARE prep =>
      set_of_list (p_ballot prep :: opt_list (p_prepared prep) ++ opt_list (p_preparedPrime prep))
  | SCP_ST_CONFIRM con =>
      set_of_list [mkBallot (c_nPrepared con) (value (c_ballot con));
                   mkBallot UINT32_MAX (value (c_ballot con))]
  | SCP_ST_EXTERNALIZE ext => [mkBallot UINT32_MAX (value (e_commit ext))]
  | SCP_ST_NOMINATE _ => []
  end.

(** What one statement adds to the candidates for [topVote]. *)
Definition candidatesFrom (topVote : SCPBallot) (st : SCPStatement) : list SCPBallot :=
  match pledges st with
  | SCP_ST_PREPARE prep =>
      List.filter (fun b => areBallotsLessAndCompatible b topVote)
        (p_ballot prep :: opt_list (p_prepared prep) ++ opt_list (p_preparedPrime prep))
  | SCP_ST_CONFIRM con =>
      if areBallotsCompatible topVote (c_ballot con) then
        topVote ::
        (if c_nPrepared con <? counter topVote
         then [mkBallot (c_nPrepared con) (value topVote)] else [])
      else []
  | SCP_ST_EXTERNALIZE ext =>
      if areBallotsCompatible topVote (e_commit ext) then [topVote] else []
  | SCP_ST_NOMINATE _ => []
  end.

(** What one statement adds to the commit boundaries for [ballot]. *)
Definition commitBoundariesFrom (ballot : SCPBallot) (st : SCPStatement) : list Z :=
  match pledges st with
  | SCP_ST_PREPARE p =>
      if areBallotsCompatible ballot (p_ballot p) then
        if negb (p_nC p =? 0) then [p_nC p; p_nH p] else []
      else []
  | SCP_ST_CONFIRM c =>
      if areBallotsCompatible ballot (c_ballot c) then [c_nCommit c; c_nH c] else []
  | SCP_ST_EXTERNALIZE e =>
      if areBallotsCompatible ballot (e_commit e)
      then [counter (e_commit e); e_nH e; UINT32_MAX] else []
  | SCP_ST_NOMINATE _ => []
  end.

(** [findExtendedInterval]: the boundaries are visited from the top. *)
Fixpoint findExtendedInterval (candidate : Interval) (rboundaries : list Z)
    (pred : Interval -> bool) : Interval :=
  match rboundaries with
  | [] => candidate
  | b :: rest =>
      if fst candidate =? 0 then
        let cur := (b, b) in
        if pred cur then findExtendedInterval cur rest pred
        else findExtendedInterval candidate rest pred
      else if snd candidate <? b then findExtendedInterval candidate rest pred
      else
        let cur := (b, snd candidate) in
        if pred cur then findExtendedInterval cur rest pred else candidate
  end.

(** ** Lemmas: the order of ballots *)

#[global] Instance TotalLt_ballot : TotalLt SCPBallot.
Proof.
  split; unfold ltb, LtB_ballot.
  - intros x. rewrite Z.ltb_irrefl. apply ltb_irrefl.
  - intros x y z.
    destruct (Z.ltb_spec (counter x) (counter y)), (Z.ltb_spec (counter y) (counter x)),
      (Z.ltb_spec (counter y) (counter z)), (Z.ltb_spec (counter z) (counter y)),
      (Z.ltb_spec (counter x) (counter z)), (Z.ltb_spec (counter z) (counter x));
      intros Hxy Hyz; try done; try lia. by eapply ltb_trans.
  - intros [cx vx] [cy vy]. simpl.
    destruct (Z.ltb_spec cx cy), (Z.ltb_spec cy cx); intros ??; try done; try lia.
    f_equal; [lia | by apply ltb_total].
Qed.

Lemma compare_lt (b1 b2 : SCPBallot) : compareBallots b1 b2 < 0 <-> ltb b1 b2 = true.
Proof. by rewrite ltb_compareBallots, Z.ltb_lt. Qed.

Lemma compare_antisym (b1 b2 : SCPBallot) : compareBallots b2 b1 = - compareBallots b1 b2.
Proof.
  unfold compareBallots.
  destruct (Z.ltb_spec (counter b1) (counter b2)), (Z.ltb_spec (counter b2) (counter b1));
    try done; try lia.
  destruct (ltb (value b1) (value b2)) eqn:E.
  - by rewrite (ltb_asym _ _ E).
  - by destruct (ltb (value b2) (value b1)).
Qed.

Lemma compare_eq (b1 b2 : SCPBallot) : compareBallots b1 b2 = 0 <-> b1 = b2.
Proof.
  split.
  - intros E. apply ltb_total; rewrite ltb_compareBallots; [by rewrite E|].
    by rewrite (compare_antisym b1 b2), E.
  - intros ->. unfold compareBallots. by rewrite Z.ltb_irrefl, ltb_irrefl.
Qed.

Lemma compare_refl (b : SCPBallot) : compareBallots b b = 0.
Proof. by apply compare_eq. Qed.

Lemma compare_le_trans (a b c : SCPBallot) :
  compareBallots a b <= 0 -> compareBallots b c <= 0 -> compareBallots a c <= 0.
Proof.
  intros Hab Hbc. destruct (Z.eq_dec (compareBallots a b) 0) as [->%compare_eq|]; [done|].
  destruct (Z.eq_dec (compareBallots b c) 0) as [<-%compare_eq|]; [done|].
  enough (compareBallots a c < 0) by lia. apply compare_lt.
  apply (ltb_trans a b c); apply compare_lt; lia.
Qed.

Lemma compare_lt_le_trans (a b c : SCPBallot) :
  compareBallots a b < 0 -> compareBallots b c <= 0 -> compareBallots a c < 0.
Proof.
  intros Hab Hbc. pose proof (compare_le_trans a b c ltac:(lia) Hbc) as Hac.
  enough (compareBallots a c <> 0) by lia. intros ->%compare_eq.
  pose proof (compare_antisym b c). lia.
Qed.

Lemma compare_le_lt_trans (a b c : SCPBallot) :
  compareBallots a b <= 0 -> compareBallots b c < 0 -> compareBallots a c < 0.
Proof.
  intros Hab Hbc. pose proof (compare_le_trans a b c Hab ltac:(lia)) as Hac.
  enough (compareBallots a c <> 0) by lia. intros ->%compare_eq.
  pose proof (compare_antisym b c). lia.
Qed.

Lemma compare_le_counter (b1 b2 : SCPBallot) :
  compareBallots b1 b2 <= 0 -> counter b1 <= counter b2.
Proof.
  unfold compareBallots. destruct (Z.ltb_spec (counter b1) (counter b2)); [lia|].
  destruct (Z.ltb_spec (counter b2) (counter b1)); lia.
Qed.

(** Between compatible ballots the order is that of the counters. *)
Lemma compare_compatible (b1 b2 : SCPBallot) :
  value b1 = value b2 -> compareBallots b1 b2 <= 0 <-> counter b1 <= counter b2.
Proof.
  intros E. split; [apply compare_le_counter|]. intros Hc. unfold compareBallots.
  rewrite E, ltb_irrefl.
  destruct (Z.ltb_spec (counter b1) (counter b2)); [lia|].
  destruct (Z.ltb_spec (counter b2) (counter b1)); lia.
Qed.

Lemma compatible_true (b1 b2 : SCPBallot) :
  areBallotsCompatible b1 b2 = true <-> value b1 = value b2.
Proof. unfold areBallotsCompatible. apply eqb_of_true. Qed.

Lemma compatible_false (b1 b2 : SCPBallot) :
  areBallotsCompatible b1 b2 = false <-> value b1 <> value b2.
Proof. unfold areBallotsCompatible. apply eqb_of_false. Qed.

Lemma less_compatible_true (b1 b2 : SCPBallot) :
  areBallotsLessAndCompatible b1 b2 = true <->
  compareBallots b1 b2 <= 0 /\ value b1 = value b2.
Proof.
  unfold areBallotsLessAndCompatible. by rewrite andb_true_iff, Z.leb_le, compatible_true.
Qed.

Lemma less_incompatible_true (b1 b2 : SCPBallot) :
  areBallotsLessAndIncompatible b1 b2 = true <->
  compareBallots b1 b2 <= 0 /\ value b1 <> value b2.
Proof.
  unfold areBallotsLessAndIncompatible.
  by rewrite andb_true_iff, Z.leb_le, negb_true_iff, compatible_false.
Qed.

(** ** Lemmas: intervals *)

(** The high bound is not below the low one, and a non-empty result satisfies
    the predicate. *)
Lemma findExtendedInterval_bounds (c : Interval) (l : list Z) (pred : Interval -> bool) :
  fst c <= snd c -> (fst c <> 0 -> pred c = true) ->
  let r := findExtendedInterval c l pred in
  fst r <= snd r /\ (fst r <> 0 -> pred r = true).
Proof.
  revert c. induction l as [|b l IH]; intros c Hc Hp; simpl; [done|].
  destruct (Z.eqb_spec (fst c) 0) as [E|E].
  - destruct (pred (b, b)) eqn:Eb; apply IH; simpl; auto; lia.
  - destruct (Z.ltb_spec (snd c) b); [by apply IH|].
    destruct (pred (b, snd c)) eqn:Eb; [|auto]. apply IH; simpl; auto; lia.
Qed.

(** ** Lemmas: the order of statements *)

(** What two statements are compared by: type, [b], [p], [p'] and [h]; a
    CONFIRM statement only carries the counter of [p], an EXTERNALIZE
    statement is alone. *)
Definition statement_key (st : SCPStatement)
    : Z * (SCPBallot * (option SCPBallot * (option SCPBallot * Z))) :=
  match pledges st with
  | SCP_ST_PREPARE p => (0, (p_ballot p, (p_prepared p, (p_preparedPrime p, p_nH p))))
  | SCP_ST_CONFIRM c => (1, (c_ballot c, (Some (mkBallot (c_nPrepared c) []), (None, c_nH c))))
  | SCP_ST_EXTERNALIZE _ => (2, (mkBallot 0 [], (None, (None, 0))))
  | SCP_ST_NOMINATE _ => (3, (mkBallot 0 [], (None, (None, 0))))
  end.

Lemma ltb_ballot_compare {T} (b1 b2 : SCPBallot) (e : T) (t : T) (f : T) :
  (if ltb b1 b2 then t else if ltb b2 b1 then f else e) =
  (if compareBallots b1 b2 <? 0 then t else if compareBallots b1 b2 =? 0 then e else f).
Proof.
  rewrite !ltb_compareBallots, (compare_antisym b1 b2).
  destruct (Z.ltb_spec (compareBallots b1 b2) 0); [done|].
  destruct (Z.ltb_spec (- compareBallots b1 b2) 0), (Z.eqb_spec (compareBallots b1 b2) 0);
    done || lia.
Qed.

Lemma ltb_optballot_compare {T} (b1 b2 : option SCPBallot) (e : T) (t : T) (f : T) :
  (if ltb b1 b2 then t else if ltb b2 b1 then f else e) =
  (if compareBallots_ptr b1 b2 <? 0 then t
   else if compareBallots_ptr b1 b2 =? 0 then e else f).
Proof.
  destruct b1 as [b1|], b2 as [b2|]; simpl; try done. apply ltb_ballot_compare.
Qed.

Lemma isNewerStatement_key (o n : SCPStatement) :
  isNewerStatement o n = ltb (statement_key o) (statement_key n).
Proof.
  unfold isNewerStatement, statement_key.
  destruct (pledges o) as [p|c|e|m], (pledges n) as [p'|c'|e'|m']; try done;
    rewrite !ltb_pair; unfold type_of; simpl.
  - rewrite ltb_ballot_compare, !ltb_optballot_compare. done.
  - rewrite ltb_ballot_compare. destruct (_ <? 0); [done|]. destruct (_ =? 0); [|done].
    unfold ltb at 1 3, LtB_option. unfold ltb, LtB_ballot. simpl.
    destruct (Z.eqb_spec (c_nPrepared c) (c_nPrepared c')) as [->|Hne].
    + by rewrite Z.ltb_irrefl.
    + destruct (Z.ltb_spec (c_nPrepared c) (c_nPrepared c')),
        (Z.ltb_spec (c_nPrepared c') (c_nPrepared c)); done || lia.
Qed.

(** "Newer" is a strict order on the statements of a node: no statement
    is newer than itself, the relation is transitive, and two statements that
    are not ordered agree on everything the order looks at (type, ballot,
    prepared ballots and high counter). *)
Theorem isNewerStatement_strict_order (a b c : SCPStatement) :
  isNewerStatement a a = false /\
  (isNewerStatement a b = true -> isNewerStatement b c = true -> isNewerStatement a c = true) /\
  (isNewerStatement a b = false -> isNewerStatement b a = false ->
   statement_key a = statement_key b).
Proof.
  rewrite !isNewerStatement_key. split; [apply ltb_irrefl|]. split.
  - apply ltb_trans.
  - apply ltb_total.
Qed.
