(* ===== verification/SlotState.v ===== *)
(** * The state of a slot

    [Slot] ([src/scp/Slot.h]) with the two protocols it owns, [BallotProtocol]
    and [NominationProtocol]; the local node; the driver ([SCPDriver], an
    abstract class: a record of functions here); and the log of the calls made
    to the driver. *)
From stdpp Require Import base tactics list sorting numbers sets gmap.
From Stdlib Require Import ZArith Lia Bool.
From S2P Require Import Prelude Containers QuorumSet LocalNode Statement.

Open Scope Z_scope.

(** ** The driver *)

Inductive ValidationLevel :=
  | kInvalidValue
  | kMaybeValidValue
  | kFullyValidatedValue.

#[global] Instance ValidationLevel_eq_dec : EqDecision ValidationLevel.
Proof. solve_decision. Defined.

(** Their integer values: [0], [1] and [2]. *)
Definition level_rank (l : ValidationLevel) : Z :=
  match l with kInvalidValue => 0 | kMaybeValidValue => 1 | kFullyValidatedValue => 2 end.

Definition level_min (a b : ValidationLevel) : ValidationLevel :=
  if level_rank b <? level_rank a then b else a.

(** The virtual functions the protocols call.  [hashNode] and [hashValue] are
    [computeHashNode] and [computeValueHash]; [now] is the clock used to
    stamp the statement history. *)
Record SCPDriver := mkDriver {
  validateValue : Z -> Value -> bool -> ValidationLevel;
  extractValidValue : Z -> Value -> option Value;
  combineCandidates : Z -> list Value -> option Value;
  getQSet : Hash -> option SCPQuorumSet;
  signEnvelope : SCPStatement -> Signature;
  hashNode : Z -> Value -> bool -> Z -> NodeID -> Z;
  hashValue : Z -> Value -> Z -> Value -> Z;
  now : Z
}.

Definition MAX_TIMEOUT_SECONDS : Z := 30 * 60.

(** [SCPDriver::computeTimeout], in seconds. *)
Definition computeTimeout (roundNumber : Z) : Z :=
  if MAX_TIMEOUT_SECONDS <? roundNumber then MAX_TIMEOUT_SECONDS else roundNumber.

(** [LocalNode]: the identity and quorum set of this node. *)
Record LocalNode := mkLocalNode {
  mNodeID : NodeID;
  mIsValidator : bool;
  mQSet : SCPQuorumSet;
  mQSetHash : Hash
}.

(** What a slot refers to: its index, the local node and the driver. *)
Record SlotEnv := mkSlotEnv {
  mSlotIndex : Z;
  localNode : LocalNode;
  driver : SCPDriver
}.

(** An [SCPEnvelopeWrapperPtr]: the envelope and the identity of the wrapper,
    which [sendLatestEnvelope] compares. *)
Record EnvelopeWrapper := mkWrapper { ptr : Z; envelope : SCPEnvelope }.

Definition getStatement (e : EnvelopeWrapper) : SCPStatement := statement (envelope e).

Inductive timerIDs := NOMINATION_TIMER | BALLOT_PROTOCOL_TIMER.

(** Calls to the driver that have an effect outside the slot. *)
Inductive Effect :=
  | EmitEnvelope (e : SCPEnvelope)
  | ValueExternalized (slot : Z) (v : Value)
  | NominatingValue (slot : Z) (v : Value)
  | UpdatedCandidateValue (slot : Z) (v : Value)
  | StartedBallotProtocol (slot : Z) (b : SCPBallot)
  | AcceptedBallotPrepared (slot : Z) (b : SCPBallot)
  | ConfirmedBallotPrepared (slot : Z) (b : SCPBallot)
  | AcceptedCommit (slot : Z) (b : SCPBallot)
  | BallotDidHearFromQuorum (slot : Z) (b : SCPBallot)
  | SetupTimer (slot : Z) (timer : timerIDs) (seconds : Z).

Inductive SCPPhase := SCP_PHASE_PREPARE | SCP_PHASE_CONFIRM | SCP_PHASE_EXTERNALIZE.

#[global] Instance SCPPhase_eq_dec : EqDecision SCPPhase.
Proof. solve_decision. Defined.

Definition phase_rank (p : SCPPhase) : Z :=
  match p with
  | SCP_PHASE_PREPARE => 0 | SCP_PHASE_CONFIRM => 1 | SCP_PHASE_EXTERNALIZE => 2
  end.

Record HistoricalStatement := mkHistorical {
  mWhen : Z;
  mStatement : SCPStatement;
  mValidated : bool
}.

(** Members of [BallotProtocol]: whether a quorum was heard from, [b], [p], [p'],
    [h], [c], the latest message of each node, the phase, the value to use for
    new ballots, the depth of nested [advanceSlot] calls, the number of timer
    expirations, and the last envelope created and emitted. *)
Record BallotState := mkBallotState {
  mHeardFromQuorum : bool;
  mCurrentBallot : option SCPBallot;
  mPrepared : option SCPBallot;
  mPreparedPrime : option SCPBallot;
  mHighBallot : option SCPBallot;
  mCommit : option SCPBallot;
  mLatestEnvelopes : list (NodeID * EnvelopeWrapper);
  mPhase : SCPPhase;
  mValueOverride : option Value;
  mCurrentMessageLevel : Z;
  mTimerExpCount : Z;
  mLastEnvelope : option EnvelopeWrapper;
  mLastEnvelopeEmit : option EnvelopeWrapper
}.

(** Members of [NominationProtocol]; the sets of values are ordered. *)
Record NominationState := mkNominationState {
  mRoundNumber : Z;
  mVotes : list Value;
  mAccepted : list Value;
  mCandidates : list Value;
  mLatestNominations : list (NodeID * EnvelopeWrapper);
  nLastEnvelope : option EnvelopeWrapper;
  mRoundLeaders : list NodeID;
  mNominationStarted : bool;
  mLatestCompositeCandidate : option Value;
  mPreviousValue : Value;
  nTimerExpCount : Z
}.

(** Members of [Slot].  [effects] is the log of driver calls, oldest first;
    [nextPtr] is the identity the next envelope wrapper gets. *)
Record SlotState := mkSlotState {
  bp : BallotState;
  np : NominationState;
  mStatementsHistory : list HistoricalStatement;
  mFullyValidated : bool;
  mGotVBlocking : bool;
  effects : list Effect;
  nextPtr : Z
}.

Definition set_mHeardFromQuorum (x : bool) (b : BallotState) : BallotState :=
  mkBallotState
    x (mCurrentBallot b) (mPrepared b) (mPreparedPrime b) (mHighBallot b) (mCommit
    b) (mLatestEnvelopes b) (mPhase b) (mValueOverride b) (mCurrentMessageLevel b)
    (mTimerExpCount b) (mLastEnvelope b) (mLastEnvelopeEmit b).
Definition set_mCurrentBallot (x : option SCPBallot) (b : BallotState) : BallotState :=
  mkBallotState
    (mHeardFromQuorum b) x (mPrepared b) (mPreparedPrime b) (mHighBallot b) (mCommit
    b) (mLatestEnvelopes b) (mPhase b) (mValueOverride b) (mCurrentMessageLevel b)
    (mTimerExpCount b) (mLastEnvelope b) (mLastEnvelopeEmit b).
Definition set_mPrepared (x : option SCPBallot) (b : BallotState) : BallotState :=
  mkBallotState
    (mHeardFromQuorum b) (mCurrentBallot b) x (mPreparedPrime b) (mHighBallot b)
    (mCommit b) (mLatestEnvelopes b) (mPhase b) (mValueOverride b)
    (mCurrentMessageLevel b) (mTimerExpCount b) (mLastEnvelope b) (mLastEnvelopeEmit
    b).
Definition set_mPreparedPrime (x : option SCPBallot) (b : BallotState) : BallotState :=
  mkBallotState
    (mHeardFromQuorum b) (mCurrentBallot b) (mPrepared b) x (mHighBallot b) (mCommit
    b) (mLatestEnvelopes b) (mPhase b) (mValueOverride b) (mCurrentMessageLevel b)
    (mTimerExpCount b) (mLastEnvelope b) (mLastEnvelopeEmit b).
Definition set_mHighBallot (x : option SCPBallot) (b : BallotState) : BallotState :=
  mkBallotState
    (mHeardFromQuorum b) (mCurrentBallot b) (mPrepared b) (mPreparedPrime b) x
    (mCommit b) (mLatestEnvelopes b) (mPhase b) (mValueOverride b)
    (mCurrentMessageLevel b) (mTimerExpCount b) (mLastEnvelope b) (mLastEnvelopeEmit
    b).
Definition set_mCommit (x : option SCPBallot) (b : BallotState) : BallotState :=
  mkBallotState
    (mHeardFromQuorum b) (mCurrentBallot b) (mPrepared b) (mPreparedPrime b)
    (mHighBallot b) x (mLatestEnvelopes b) (mPhase b) (mValueOverride b)
    (mCurrentMessageLevel b) (mTimerExpCount b) (mLastEnvelope b) (mLastEnvelopeEmit
    b).
Definition set_mLatestEnvelopes (x : list (NodeID * EnvelopeWrapper)) (b : BallotState) : BallotState :=
  mkBallotState
    (mHeardFromQuorum b) (mCurrentBallot b) (mPrepared b) (mPreparedPrime b)
    (mHighBallot b) (mCommit b) x (mPhase b) (mValueOverride b)
    (mCurrentMessageLevel b) (mTimerExpCount b) (mLastEnvelope b) (mLastEnvelopeEmit
    b).
Definition set_mPhase (x : SCPPhase) (b : BallotState) : BallotState :=
  mkBallotState
    (mHeardFromQuorum b) (mCurrentBallot b) (mPrepared b) (mPreparedPrime b)
    (mHighBallot b) (mCommit b) (mLatestEnvelopes b) x (mValueOverride b)
    (mCurrentMessageLevel b) (mTimerExpCount b) (mLastEnvelope b) (mLastEnvelopeEmit
    b).
Definition set_mValueOverride (x : option Value) (b : BallotState) : BallotState :=
  mkBallotState
    (mHeardFromQuorum b) (mCurrentBallot b) (mPrepared b) (mPreparedPrime b)
    (mHighBallot b) (mCommit b) (mLatestEnvelopes b) (mPhase b) x
    (mCurrentMessageLevel b) (mTimerExpCount b) (mLastEnvelope b) (mLastEnvelopeEmit
    b).
Definition set_mCurrentMessageLevel (x : Z) (b : BallotState) : BallotState :=
  mkBallotState
    (mHeardFromQuorum b) (mCurrentBallot b) (mPrepared b) (mPreparedPrime b)
    (mHighBallot b) (mCommit b) (mLatestEnvelopes b) (mPhase b) (mValueOverride b) x
    (mTimerExpCount b) (mLastEnvelope b) (mLastEnvelopeEmit b).
Definition set_mTimerExpCount (x : Z) (b : BallotState) : BallotState :=
  mkBallotState
    (mHeardFromQuorum b) (mCurrentBallot b) (mPrepared b) (mPreparedPrime b)
    (mHighBallot b) (mCommit b) (mLatestEnvelopes b) (mPhase b) (mValueOverride b)
    (mCurrentMessageLevel b) x (mLastEnvelope b) (mLastEnvelopeEmit b).
Definition set_mLastEnvelope (x : option EnvelopeWrapper) (b : BallotState) : BallotState :=
  mkBallotState
    (mHeardFromQuorum b) (mCurrentBallot b) (mPrepared b) (mPreparedPrime b)
    (mHighBallot b) (mCommit b) (mLatestEnvelopes b) (mPhase b) (mValueOverride b)
    (mCurrentMessageLevel b) (mTimerExpCount b) x (mLastEnvelopeEmit b).
Definition set_mLastEnvelopeEmit (x : option EnvelopeWrapper) (b : BallotState) : BallotState :=
  mkBallotState
    (mHeardFromQuorum b) (mCurrentBallot b) (mPrepared b) (mPreparedPrime b)
    (mHighBallot b) (mCommit b) (mLatestEnvelopes b) (mPhase b) (mValueOverride b)
    (mCurrentMessageLevel b) (mTimerExpCount b) (mLastEnvelope b) x.

Definition set_mRoundNumber (x : Z) (n : NominationState) : NominationState :=
  mkNominationState
    x (mVotes n) (mAccepted n) (mCandidates n) (mLatestNominations n) (nLastEnvelope
    n) (mRoundLeaders n) (mNominationStarted n) (mLatestCompositeCandidate n)
    (mPreviousValue n) (nTimerExpCount n).
Definition set_mVotes (x : list Value) (n : NominationState) : NominationState :=
  mkNominationState
    (mRoundNumber n) x (mAccepted n) (mCandidates n) (mLatestNominations n)
    (nLastEnvelope n) (mRoundLeaders n) (mNominationStarted n)
    (mLatestCompositeCandidate n) (mPreviousValue n) (nTimerExpCount n).
Definition set_mAccepted (x : list Value) (n : NominationState) : NominationState :=
  mkNominationState
    (mRoundNumber n) (mVotes n) x (mCandidates n) (mLatestNominations n)
    (nLastEnvelope n) (mRoundLeaders n) (mNominationStarted n)
    (mLatestCompositeCandidate n) (mPreviousValue n) (nTimerExpCount n).
Definition set_mCandidates (x : list Value) (n : NominationState) : NominationState :=
  mkNominationState
    (mRoundNumber n) (mVotes n) (mAccepted n) x (mLatestNominations n)
    (nLastEnvelope n) (mRoundLeaders n) (mNominationStarted n)
    (mLatestCompositeCandidate n) (mPreviousValue n) (nTimerExpCount n).
Definition set_mLatestNominations (x : list (NodeID * EnvelopeWrapper)) (n : NominationState) : NominationState :=
  mkNominationState
    (mRoundNumber n) (mVotes n) (mAccepted n) (mCandidates n) x (nLastEnvelope n)
    (mRoundLeaders n) (mNominationStarted n) (mLatestCompositeCandidate n)
    (mPreviousValue n) (nTimerExpCount n).
Definition set_nLastEnvelope (x : option EnvelopeWrapper) (n : NominationState) : NominationState :=
  mkNominationState
    (mRoundNumber n) (mVotes n) (mAccepted n) (mCandidates n) (mLatestNominations n)
    x (mRoundLeaders n) (mNominationStarted n) (mLatestCompositeCandidate n)
    (mPreviousValue n) (nTimerExpCount n).
Definition set_mRoundLeaders (x : list NodeID) (n : NominationState) : NominationState :=
  mkNominationState
    (mRoundNumber n) (mVotes n) (mAccepted n) (mCandidates n) (mLatestNominations n)
    (nLastEnvelope n) x (mNominationStarted n) (mLatestCompositeCandidate n)
    (mPreviousValue n) (nTimerExpCount n).
Definition set_mNominationStarted (x : bool) (n : NominationState) : NominationState :=
  mkNominationState
    (mRoundNumber n) (mVotes n) (mAccepted n) (mCandidates n) (mLatestNominations n)
    (nLastEnvelope n) (mRoundLeaders n) x (mLatestCompositeCandidate n)
    (mPreviousValue n) (nTimerExpCount n).
Definition set_mLatestCompositeCandidate (x : option Value) (n : NominationState) : NominationState :=
  mkNominationState
    (mRoundNumber n) (mVotes n) (mAccepted n) (mCandidates n) (mLatestNominations n)
    (nLastEnvelope n) (mRoundLeaders n) (mNominationStarted n) x (mPreviousValue n)
    (nTimerExpCount n).
Definition set_mPreviousValue (x : Value) (n : NominationState) : NominationState :=
  mkNominationState
    (mRoundNumber n) (mVotes n) (mAccepted n) (mCandidates n) (mLatestNominations n)
    (nLastEnvelope n) (mRoundLeaders n) (mNominationStarted n)
    (mLatestCompositeCandidate n) x (nTimerExpCount n).
Definition set_nTimerExpCount (x : Z) (n : NominationState) : NominationState :=
  mkNominationState
    (mRoundNumber n) (mVotes n) (mAccepted n) (mCandidates n) (mLatestNominations n)
    (nLastEnvelope n) (mRoundLeaders n) (mNominationStarted n)
    (mLatestCompositeCandidate n) (mPreviousValue n) x.

Definition set_bp (x : BallotState) (s : SlotState) : SlotState :=
  mkSlotState
    x (np s) (mStatementsHistory s) (mFullyValidated s) (mGotVBlocking s) (effects
    s) (nextPtr s).
Definition set_np (x : NominationState) (s : SlotState) : SlotState :=
  mkSlotState
    (bp s) x (mStatementsHistory s) (mFullyValidated s) (mGotVBlocking s) (effects
    s) (nextPtr s).
Definition set_mStatementsHistory (x : list HistoricalStatement) (s : SlotState) : SlotState :=
  mkSlotState
    (bp s) (np s) x (mFullyValidated s) (mGotVBlocking s) (effects s) (nextPtr s).
Definition set_mFullyValidated (x : bool) (s : SlotState) : SlotState :=
  mkSlotState
    (bp s) (np s) (mStatementsHistory s) x (mGotVBlocking s) (effects s) (nextPtr s).
Definition set_mGotVBlocking (x : bool) (s : SlotState) : SlotState :=
  mkSlotState
    (bp s) (np s) (mStatementsHistory s) (mFullyValidated s) x (effects s) (nextPtr
    s).
Definition set_effects (x : list Effect) (s : SlotState) : SlotState :=
  mkSlotState
    (bp s) (np s) (mStatementsHistory s) (mFullyValidated s) (mGotVBlocking s) x
    (nextPtr s).
Definition set_nextPtr (x : Z) (s : SlotState) : SlotState :=
  mkSlotState
    (bp s) (np s) (mStatementsHistory s) (mFullyValidated s) (mGotVBlocking s)
    (effects s) x.

(** The constructors. *)
Definition initBallotState : BallotState :=
  mkBallotState false None None None None None [] SCP_PHASE_PREPARE None 0 0 None None.

Definition initNominationState : NominationState :=
  mkNominationState 0 [] [] [] [] None [] false None [] 0.

Definition initSlot (env : SlotEnv) : SlotState :=
  mkSlotState initBallotState initNominationState [] (mIsValidator (localNode env)) false [] 0.

(** ** Errors and the monad *)

(** The assertions of the ballot and nomination protocols ([dbgAssert] aborts
    the process: the program is not compiled with [NDEBUG]). *)
Inductive assertion :=
  | A_UpdateNotBelowCurrent   (** updateCurrentValue: current <= ballot *)
  | A_BumpNotExternalized     (** bumpToBallot: phase is not EXTERNALIZE *)
  | A_BumpMonotone            (** bumpToBallot: ballot >= current *)
  | A_CounterNotZero          (** checkInvariants: b.counter != 0 *)
  | A_PreparedPrimeBelow      (** checkInvariants: p' < p, incompatible *)
  | A_HighBelowCurrent        (** checkInvariants: h <= b, compatible *)
  | A_CommitBelowHigh         (** checkInvariants: c <= h <= b, compatible *)
  | A_PhaseNeedsCommit        (** checkInvariants: CONFIRM and later have c *)
  | A_PhaseNeedsHigh          (** checkInvariants: EXTERNALIZE has h *)
  | A_PreparedMatchesCommit   (** attemptAcceptPrepared: c ~ candidate *)
  | A_ClearCommitInPrepare    (** setAcceptPrepared: c cleared in PREPARE only *)
  | A_CommitNotSet            (** setConfirmPrepared: c was not set *)
  | A_StatementType           (** a NOMINATE statement where a ballot one is due *)
  | A_SlotIndex               (** the statement is for this slot *)
  | A_PreviousValueNotEmpty   (** hashNode, hashValue *)
  | A_NotValidator.           (** SCP::nominate: the node is a validator *)

(** Pointers that are dereferenced without a test. *)
Inductive pointer :=
  | P_CurrentBallot | P_Prepared | P_HighBallot | P_Commit | P_CompositeCandidate.

Inductive scp_error :=
  | DbgAbort (a : assertion)
  | NullDeref (p : pointer)
  | MaxTransitions      (** "maximum number of transitions reached in advanceSlot" *)
  | BadStateBallot      (** "moved to a bad state (ballot protocol)" *)
  | BadStateNomination  (** "moved to a bad state (nomination)" *)
  | CannotSetState      (** setStateFromEnvelope after the start *)
  | WeightError (e : weight_error)
  | OutOfFuel.          (** a bound of the model, see the theorems *)

Definition M : Type -> Type := ST SlotState scp_error.

Definition bget {A} (f : BallotState -> A) : M A := gets (fun s => f (bp s)).
Definition bset (f : BallotState -> BallotState) : M unit :=
  modify (fun s => set_bp (f (bp s)) s).
Definition nget {A} (f : NominationState -> A) : M A := gets (fun s => f (np s)).
Definition nset (f : NominationState -> NominationState) : M unit :=
  modify (fun s => set_np (f (np s)) s).
Definition effect (e : Effect) : M unit :=
  modify (fun s => set_effects (effects s ++ [e]) s).
Definition dbgAssert (b : bool) (a : assertion) : M unit := check b (DbgAbort a).
Definition dbgAbort {A} (a : assertion) : M A := fail (DbgAbort a).
Definition must {A} (p : option A) (w : pointer) : M A := deref p (NullDeref w).

(** [SCPDriver::wrapEnvelope]: [std::make_shared]. *)
Definition wrapEnvelope (e : SCPEnvelope) : M EnvelopeWrapper :=
  fun s => Ok (mkWrapper (nextPtr s) e, set_nextPtr (nextPtr s + 1) s).

Inductive EnvelopeState := INVALID | VALID.

#[global] Instance EnvelopeState_eq_dec : EqDecision EnvelopeState.
Proof. solve_decision. Defined.

Inductive QuorumInfoNodeState := AGREE | MISSING | DELAYED | DISAGREE | NO_INFO.

#[global] Instance QuorumInfoNodeState_eq_dec : EqDecision QuorumInfoNodeState.
Proof. solve_decision. Defined.
