(* ===== verification/FederatedVoting.v ===== *)
(** * Slot helpers and federated voting

    The functions of [src/scp/Slot.cpp] that the two protocols call back into:
    quorum sets of statements, federated accept and ratify, envelope creation,
    the statement history and the v-blocking flag. *)
From stdpp Require Import base tactics list sorting numbers sets gmap.
From Stdlib Require Import ZArith Lia Bool.
From S2P Require Import Prelude Containers QuorumSet LocalNode Statement SlotState.

Open Scope Z_scope.
Open Scope kin_scope.

Section slot.
Context (env : SlotEnv).

Abbreviation localID := (mNodeID (localNode env)).
Abbreviation localQSet := (mQSet (localNode env)).

(** [None] is the null pointer: the quorum set is not known to the driver. *)
Definition getQuorumSetFromStatement (st : SCPStatement) : option SCPQuorumSet :=
  match pledges st with
  | SCP_ST_EXTERNALIZE _ => Some (getSingletonQSet (nodeID st))
  | SCP_ST_PREPARE p => getQSet (driver env) (p_quorumSetHash p)
  | SCP_ST_CONFIRM c => getQSet (driver env) (c_quorumSetHash c)
  | SCP_ST_NOMINATE n => getQSet (driver env) (n_quorumSetHash n)
  end.

(** The map of latest envelopes as [isVBlocking] and [isQuorum] see it. *)
Definition on_statement (f : SCPStatement -> bool) (e : EnvelopeWrapper) : bool :=
  f (getStatement e).

Definition federatedAccept (voted accepted : SCPStatement -> bool)
    (envs : list (NodeID * EnvelopeWrapper)) : bool :=
  if isVBlocking_map localQSet envs (on_statement accepted) then true else
  let ratifyFilter := fun st => accepted st || voted st in
  isQuorum localQSet envs (fun e => getQuorumSetFromStatement (getStatement e))
    (on_statement ratifyFilter).

Definition federatedRatify (voted : SCPStatement -> bool)
    (envs : list (NodeID * EnvelopeWrapper)) : bool :=
  isQuorum localQSet envs (fun e => getQuorumSetFromStatement (getStatement e))
    (on_statement voted).

(** [Slot::createEnvelope]: the statement is completed and signed. *)
Definition createEnvelope (pl : SCPPledges) : SCPEnvelope :=
  let mySt := mkStatement localID (mSlotIndex env) pl in
  mkEnvelope mySt (signEnvelope (driver env) mySt).

Definition recordStatement (st : SCPStatement) : M unit :=
  modify (fun s => set_mStatementsHistory
    (mStatementsHistory s ++ [mkHistorical (now (driver env)) st (mFullyValidated s)]) s).

Definition setFullyValidated (b : bool) : M unit := modify (set_mFullyValidated b).

Definition stopNomination : M unit := nset (set_mNominationStarted false).

(** [BallotProtocol::getLatestMessage] and [NominationProtocol::getLatestMessage]. *)
Definition ballot_getLatestMessage (s : SlotState) (id : NodeID) : option SCPEnvelope :=
  envelope <$> map_find id (mLatestEnvelopes (bp s)).

Definition nomination_getLatestMessage (s : SlotState) (id : NodeID) : option SCPEnvelope :=
  envelope <$> map_find id (mLatestNominations (np s)).

Definition getLatestMessage (s : SlotState) (id : NodeID) : option SCPEnvelope :=
  match ballot_getLatestMessage s id with
  | Some m => Some m
  | None => nomination_getLatestMessage s id
  end.

Definition maybeSetGotVBlocking : M unit :=
  let! s := get in
  if mGotVBlocking s then ret tt else
  let nodes :=
    snd (forAllNodes (fun id nodes =>
           (true, if isSome (getLatestMessage s id) then nodes ++ [id] else nodes))
         localQSet []) in
  modify (set_mGotVBlocking (isVBlocking localQSet nodes)).

(** [NominationProtocol::getLatestCompositeCandidate], through [Slot]. *)
Definition getLatestCompositeCandidate : M (option Value) := nget mLatestCompositeCandidate.
End slot.

(** ** Federated voting means what it should *)

Section federated.
Context (env : SlotEnv).
Abbreviation localQSet := (mQSet (localNode env)).
Context (Hlocal : proper localQSet).
Context (Hdriver : forall h q, getQSet (driver env) h = Some q -> proper q).

Lemma singleton_proper (n : NodeID) : proper (getSingletonQSet n).
Proof. constructor; [simpl; lia | simpl; unfold_ints; lia | constructor]. Qed.

Lemma statement_qset_proper (st : SCPStatement) (q : SCPQuorumSet) :
  getQuorumSetFromStatement env st = Some q -> proper q.
Proof.
  unfold getQuorumSetFromStatement. destruct (pledges st); try apply Hdriver.
  intros [= <-]. apply singleton_proper.
Qed.

(** A set of nodes [U] agrees on a predicate and is a quorum that convinces
    the local node. *)
Definition agreeing_quorum (envs : list (NodeID * EnvelopeWrapper))
    (f : SCPStatement -> bool) (U : list NodeID) : Prop :=
  (forall n, n ∈ U -> exists e, (n, e) ∈ envs /\ f (getStatement e) = true) /\
  quorum_set envs (fun e => getQuorumSetFromStatement env (getStatement e)) U /\
  isQuorumSlice localQSet U = true.

Lemma filter_nodes_spec {V} (m : list (NodeID * V)) (f : V -> bool) (n : NodeID) :
  n ∈ filter_nodes m f <-> exists v, (n, v) ∈ m /\ f v = true.
Proof.
  unfold filter_nodes. rewrite list_elem_of_In, in_map_iff. split.
  - intros ([n' v] & <- & [Hin Hf]%filter_In). exists v. by rewrite list_elem_of_In.
  - intros (v & Hin & Hf). exists (n, v). split; [done|]. apply filter_In.
    by rewrite <- list_elem_of_In.
Qed.

Lemma federatedRatify_iff (envs : list (NodeID * EnvelopeWrapper))
    (voted : SCPStatement -> bool) :
  federatedRatify env voted envs = true <-> exists U, agreeing_quorum envs voted U.
Proof.
  unfold federatedRatify. rewrite isQuorum_greatest;
    [|intros e q; apply statement_qset_proper | done].
  unfold agreeing_quorum, on_statement. split; intros (U & Hsub & HU & Hs); exists U;
    (split; [|done]); intros n Hn; [by apply filter_nodes_spec, Hsub |].
  apply filter_nodes_spec. by apply Hsub.
Qed.

(** The abstract accept rule: either a v-blocking set accepts, or a quorum
    votes for it or accepts it. *)
Definition accept_rule (envs : list (NodeID * EnvelopeWrapper))
    (voted accepted : SCPStatement -> bool) : Prop :=
  isVBlocking localQSet (filter_nodes envs (on_statement accepted)) = true \/
  exists U, agreeing_quorum envs (fun st => accepted st || voted st) U.

Lemma federatedAccept_rule (envs : list (NodeID * EnvelopeWrapper))
    (voted accepted : SCPStatement -> bool) :
  federatedAccept env voted accepted envs = true <-> accept_rule envs voted accepted.
Proof.
  unfold federatedAccept, accept_rule, isVBlocking_map.
  destruct (isVBlocking _ _); [naive_solver|].
  rewrite <- (federatedRatify_iff envs (fun st => accepted st || voted st)).
  change (isQuorum _ _ _ _) with (federatedRatify env (fun st => accepted st || voted st) envs).
  naive_solver.
Qed.
(** C30. Federated voting is exact: [federatedRatify] holds exactly when a
    quorum that contains a slice of the local quorum set has all its latest
    statements satisfying the predicate; [federatedAccept] holds exactly when
    either a v-blocking set accepts, or such a quorum votes or accepts. *)
Theorem federated_voting_spec (envs : list (NodeID * EnvelopeWrapper))
    (voted accepted : SCPStatement -> bool) :
  (federatedRatify env voted envs = true <-> exists U, agreeing_quorum envs voted U) /\
  (federatedAccept env voted accepted envs = true <-> accept_rule envs voted accepted).
Proof. split; [apply federatedRatify_iff | apply federatedAccept_rule]. Qed.
End federated.

(** A three-node network with a common quorum set of threshold two. *)
Definition example_driver : SCPDriver :=
  mkDriver (fun _ _ _ => kFullyValidatedValue) (fun _ v => Some v)
    (fun _ vs => last vs) (fun _ => Some three_nodes) (fun _ => [])
    (fun _ _ _ _ id => match id with x :: _ => x | [] => 0 end) (fun _ _ _ _ => 0) 0.

Definition example_env : SlotEnv :=
  mkSlotEnv 7 (mkLocalNode [1] true three_nodes [0]) example_driver.

Definition example_prepare (id : Z) (n : Z) : NodeID * EnvelopeWrapper :=
  ([id], mkWrapper id (mkEnvelope (mkStatement [id] 7
    (SCP_ST_PREPARE (mkPrepare [0] (mkBallot n [5]) None None 0 0))) [])).

Lemma federated_voting_spec_witness :
  federatedRatify example_env (votesPrepared (mkBallot 1 [5]))
    [example_prepare 1 1; example_prepare 3 2] = true /\
  ((exists U, agreeing_quorum example_env [example_prepare 1 1; example_prepare 3 2]
              (votesPrepared (mkBallot 1 [5])) U) /\
   accept_rule example_env [example_prepare 1 1; example_prepare 3 2]
     (votesPrepared (mkBallot 1 [5])) (hasPreparedBallot (mkBallot 1 [5]))).
Proof.
  split; [vm_compute; reflexivity|].
  split; apply (federated_voting_spec example_env) with
    (voted := votesPrepared (mkBallot 1 [5])) (accepted := hasPreparedBallot (mkBallot 1 [5]));
    try apply three_nodes_proper; try (vm_compute; reflexivity);
    intros h q [= <-]; apply three_nodes_proper.
Defined.
