(* ===== verification/BallotProtocol.v ===== *)
(** * The ballot protocol

    [src/scp/BallotProtocol.cpp], function by function, in the state-and-error
    monad over [SlotState].  The protocol feeds its own statements back through
    [Slot::processEnvelope]; that call is the parameter [processSelf] of the
    handlers, and the recursion is closed at the end of the file.  The code
    bounds the recursion itself ([MAX_ADVANCE_SLOT_RECURSION]). *)
From stdpp Require Import base tactics list sorting numbers sets gmap.
From Stdlib Require Import ZArith Lia Bool.
From S2P Require Import Prelude Containers QuorumSet LocalNode Statement SlotState.
From S2P Require Import FederatedVoting.

Open Scope Z_scope.
Open Scope kin_scope.

Definition MAX_ADVANCE_SLOT_RECURSION : Z := 50.

(** Rounds given to the [do .. while (didBump)] loop of [advanceSlot]; the
    theorems show that they are never used up. *)
Definition BUMP_FUEL : nat := 5.

Section ballot.
Context (env : SlotEnv).

Abbreviation localID := (mNodeID (localNode env)).
Abbreviation localQSet := (mQSet (localNode env)).
Abbreviation slot := (mSlotIndex env).

(** ** Sanity and validation *)

(** [isNewerStatement(nodeID, st)]. *)
Definition isNewerStatementFor (b : BallotState) (id : NodeID) (st : SCPStatement) : bool :=
  match map_find id (mLatestEnvelopes b) with
  | None => true
  | Some oldp => isNewerStatement (getStatement oldp) st
  end.

Definition recordEnvelope (e : EnvelopeWrapper) : M unit :=
  let st := getStatement e in
  bset (fun b => set_mLatestEnvelopes (map_set (nodeID st) e (mLatestEnvelopes b)) b) ;;!
  recordStatement env st.

(** The shape checks on the pledges; [None] is the [dbgAbort] of the default
    case. *)
Definition arePledgesSane (pl : SCPPledges) (self : bool) : option bool :=
  match pl with
  | SCP_ST_PREPARE p =>
      Some (
        (self || (0 <? counter (p_ballot p))) &&
        match p_preparedPrime p, p_prepared p with
        | Some pp, Some pr => areBallotsLessAndIncompatible pp pr
        | _, _ => true
        end &&
        ((p_nH p =? 0) ||
         match p_prepared p with Some pr => p_nH p <=? counter pr | None => false end) &&
        ((p_nC p =? 0) ||
         (negb (p_nH p =? 0) && (p_nH p <=? counter (p_ballot p)) && (p_nC p <=? p_nH p))))
  | SCP_ST_CONFIRM c =>
      Some ((0 <? counter (c_ballot c)) && (c_nH c <=? counter (c_ballot c)) &&
            (c_nCommit c <=? c_nH c))
  | SCP_ST_EXTERNALIZE e =>
      Some ((0 <? counter (e_commit e)) && (counter (e_commit e) <=? e_nH e))
  | SCP_ST_NOMINATE _ => None
  end.

Definition isStatementSane (st : SCPStatement) (self : bool) : M bool :=
  match getQuorumSetFromStatement env st with
  | None => ret false
  | Some qSet =>
      if negb (Sanity.isQuorumSetSane qSet false) then ret false else
      match arePledgesSane (pledges st) self with
      | Some res => ret res
      | None => dbgAbort A_StatementType
      end
  end.

Definition validateValues (st : SCPStatement) : ValidationLevel :=
  let values := getStatementValues st in
  match values with
  | [] => kInvalidValue
  | _ =>
      fold_left (fun lv v =>
        if 0 <? level_rank lv
        then level_min (validateValue (driver env) slot v false) lv else lv)
        values kFullyValidatedValue
  end.

(** ** State queries *)

Definition inPrepareOrConfirm (p : SCPPhase) : bool :=
  match p with SCP_PHASE_PREPARE | SCP_PHASE_CONFIRM => true | SCP_PHASE_EXTERNALIZE => false end.

Definition isPhase (p q : SCPPhase) : bool := bool_decide (p = q).

Definition statements (b : BallotState) : list SCPStatement :=
  map (fun p => getStatement (snd p)) (mLatestEnvelopes b).

Definition getPrepareCandidates (b : BallotState) (hint : SCPStatement) : list SCPBallot :=
  set_of_list
    (concat (map (fun topVote => concat (map (candidatesFrom topVote) (statements b)))
                 (rev (hintBallots hint)))).

Definition getCommitBoundariesFromStatements (b : BallotState) (ballot : SCPBallot) : list Z :=
  set_of_list (concat (map (commitBoundariesFrom ballot) (statements b))).

Definition hasVBlockingSubsetStrictlyAheadOf (m : list (NodeID * EnvelopeWrapper)) (n : Z)
    : bool :=
  isVBlocking_map localQSet m (on_statement (fun st => n <? statementBallotCounter st)).

(** [checkInvariants]. *)
Definition checkInvariants : M unit :=
  let! b := bget id in
  match mCurrentBallot b with
  | Some cur => dbgAssert (negb (counter cur =? 0)) A_CounterNotZero
  | None => ret tt
  end ;;!
  match mPrepared b, mPreparedPrime b with
  | Some p, Some pp => dbgAssert (areBallotsLessAndIncompatible pp p) A_PreparedPrimeBelow
  | _, _ => ret tt
  end ;;!
  match mHighBallot b with
  | Some h =>
      dbgAssert (isSome (mCurrentBallot b)) A_HighBelowCurrent ;;!
      let! cur := must (mCurrentBallot b) P_CurrentBallot in
      dbgAssert (areBallotsLessAndCompatible h cur) A_HighBelowCurrent
  | None => ret tt
  end ;;!
  match mCommit b with
  | Some c =>
      dbgAssert (isSome (mCurrentBallot b)) A_CommitBelowHigh ;;!
      let! h := must (mHighBallot b) P_HighBallot in
      dbgAssert (areBallotsLessAndCompatible c h) A_CommitBelowHigh ;;!
      let! cur := must (mCurrentBallot b) P_CurrentBallot in
      dbgAssert (areBallotsLessAndCompatible h cur) A_CommitBelowHigh
  | None => ret tt
  end ;;!
  match mPhase b with
  | SCP_PHASE_PREPARE => ret tt
  | SCP_PHASE_CONFIRM => dbgAssert (isSome (mCommit b)) A_PhaseNeedsCommit
  | SCP_PHASE_EXTERNALIZE =>
      dbgAssert (isSome (mCommit b)) A_PhaseNeedsCommit ;;!
      dbgAssert (isSome (mHighBallot b)) A_PhaseNeedsHigh
  end.

(** ** Emission *)

Definition createStatement (phase : SCPPhase) : M SCPPledges :=
  checkInvariants ;;!
  let! b := bget id in
  let qHash := mQSetHash (localNode env) in
  match phase with
  | SCP_PHASE_PREPARE =>
      ret (SCP_ST_PREPARE (mkPrepare qHash
        (default (mkBallot 0 []) (mCurrentBallot b))
        (mPrepared b) (mPreparedPrime b)
        (match mCommit b with Some c => counter c | None => 0 end)
        (match mHighBallot b with Some h => counter h | None => 0 end)))
  | SCP_PHASE_CONFIRM =>
      let! cur := must (mCurrentBallot b) P_CurrentBallot in
      let! p := must (mPrepared b) P_Prepared in
      let! c := must (mCommit b) P_Commit in
      let! h := must (mHighBallot b) P_HighBallot in
      ret (SCP_ST_CONFIRM (mkConfirm cur (counter p) (counter c) (counter h) qHash))
  | SCP_PHASE_EXTERNALIZE =>
      let! c := must (mCommit b) P_Commit in
      let! h := must (mHighBallot b) P_HighBallot in
      ret (SCP_ST_EXTERNALIZE (mkExternalize c (counter h) qHash))
  end.

(** [mLastEnvelope != mLastEnvelopeEmit] compares wrappers. *)
Definition sendLatestEnvelope : M unit :=
  let! s := get in
  let b := bp s in
  match mLastEnvelope b with
  | Some last =>
      if (mCurrentMessageLevel b =? 0) && mFullyValidated s then
        if match mLastEnvelopeEmit b with
           | None => true
           | Some e => negb (ptr last =? ptr e)
           end
        then
          bset (set_mLastEnvelopeEmit (Some last)) ;;!
          effect (EmitEnvelope (envelope last))
        else ret tt
      else ret tt
  | None => ret tt
  end.

Section self.
(** [mSlot.processEnvelope(envW, true)]. *)
Context (processSelf : EnvelopeWrapper -> M EnvelopeState).

Definition emitCurrentStateStatement : M unit :=
  let! phase := bget mPhase in
  let! pl := createStatement phase in
  let envelope := createEnvelope env pl in
  let! b := bget id in
  let canEmit := isSome (mCurrentBallot b) in
  let same := match map_find localID (mLatestEnvelopes b) with
              | None => false
              | Some lastEnv => bool_decide (SlotState.envelope lastEnv = envelope)
              end in
  if same then ret tt else
  let! envW := wrapEnvelope envelope in
  let! res := processSelf envW in
  if bool_decide (res = VALID) then
    let! last := bget mLastEnvelope in
    if canEmit && match last with
                  | None => true
                  | Some l => isNewerStatement (getStatement l) (statement envelope)
                  end
    then bset (set_mLastEnvelope (Some envW)) ;;! sendLatestEnvelope
    else ret tt
  else fail BadStateBallot.

(** ** The current ballot *)

Definition startBallotProtocolTimer : M unit :=
  let! cur := bget mCurrentBallot in
  let! cur := must cur P_CurrentBallot in
  effect (SetupTimer slot BALLOT_PROTOCOL_TIMER (computeTimeout (counter cur))).

Definition stopBallotProtocolTimer : M unit :=
  effect (SetupTimer slot BALLOT_PROTOCOL_TIMER 0).

Definition bumpToBallot (ballot : SCPBallot) (check : bool) : M unit :=
  let! b := bget id in
  dbgAssert (negb (isPhase (mPhase b) SCP_PHASE_EXTERNALIZE)) A_BumpNotExternalized ;;!
  (if check then
     dbgAssert (match mCurrentBallot b with
                | None => true
                | Some cur => 0 <=? compareBallots ballot cur
                end) A_BumpMonotone
   else ret tt) ;;!
  let gotBumped := match mCurrentBallot b with
                   | None => true
                   | Some cur => negb (counter cur =? counter ballot)
                   end in
  (if isSome (mCurrentBallot b) then ret tt
   else effect (StartedBallotProtocol slot ballot)) ;;!
  bset (set_mCurrentBallot (Some ballot)) ;;!
  match mHighBallot b with
  | Some h =>
      if negb (areBallotsCompatible ballot h)
      then bset (fun b => set_mCommit None (set_mHighBallot None b))
      else ret tt
  | None => ret tt
  end ;;!
  (if gotBumped then bset (set_mHeardFromQuorum false) else ret tt).

Definition updateCurrentIfNeeded (h : SCPBallot) : M bool :=
  let! cur := bget mCurrentBallot in
  if match cur with None => true | Some cur => compareBallots cur h <? 0 end
  then bumpToBallot h true ;;! ret true
  else ret false.

Definition updateCurrentValue (ballot : SCPBallot) : M bool :=
  let! b := bget id in
  if negb (inPrepareOrConfirm (mPhase b)) then ret false else
  match mCurrentBallot b with
  | None =>
      bumpToBallot ballot true ;;!
      checkInvariants ;;! ret true
  | Some cur =>
      dbgAssert (compareBallots cur ballot <=? 0) A_UpdateNotBelowCurrent ;;!
      if match mCommit b with
         | Some c => negb (areBallotsCompatible c ballot)
         | None => false
         end
      then ret false
      else
        let comp := compareBallots cur ballot in
        if comp <? 0 then
          bumpToBallot ballot true ;;! checkInvariants ;;! ret true
        else if 0 <? comp then ret false
        else checkInvariants ;;! ret false
  end.

Definition checkHeardFromQuorum : M unit :=
  let! b := bget id in
  match mCurrentBallot b with
  | None => ret tt
  | Some cur =>
      if isQuorum localQSet (mLatestEnvelopes b)
           (fun e => getQuorumSetFromStatement env (getStatement e))
           (on_statement (fun st =>
              match pledges st with
              | SCP_ST_PREPARE p => counter cur <=? counter (p_ballot p)
              | _ => true
              end))
      then
        let oldHQ := mHeardFromQuorum b in
        bset (set_mHeardFromQuorum true) ;;!
        (if negb oldHQ then
           effect (BallotDidHearFromQuorum slot cur) ;;!
           (if negb (isPhase (mPhase b) SCP_PHASE_EXTERNALIZE)
            then startBallotProtocolTimer else ret tt)
         else ret tt) ;;!
        (if isPhase (mPhase b) SCP_PHASE_EXTERNALIZE then stopBallotProtocolTimer else ret tt)
      else
        bset (set_mHeardFromQuorum false) ;;! stopBallotProtocolTimer
  end.

(** [bumpState(value, n)]. *)
Definition bumpState_n (val : Value) (n : Z) : M bool :=
  let! b := bget id in
  if negb (inPrepareOrConfirm (mPhase b)) then ret false else
  let newb := mkBallot n (match mValueOverride b with Some z => z | None => val end) in
  let! updated := updateCurrentValue newb in
  (if updated then emitCurrentStateStatement ;;! checkHeardFromQuorum else ret tt) ;;!
  ret updated.

(** [bumpState(value, force)]; the counter is a [uint32]. *)
Definition bumpState (val : Value) (force : bool) : M bool :=
  let! cur := bget mCurrentBallot in
  if negb force && isSome cur then ret false else
  let n := match cur with Some cur => u32 (counter cur + 1) | None => 1 end in
  bumpState_n val n.

Definition valueEmpty (v : option Value) : bool :=
  match v with Some (_ :: _) => false | _ => true end.

Definition abandonBallot (n : Z) : M bool :=
  let! v := getLatestCompositeCandidate in
  let! cur := bget mCurrentBallot in
  let v := if valueEmpty v
           then match cur with Some cur => Some (value cur) | None => v end else v in
  match v with
  | Some (x :: val) =>
      if n =? 0 then bumpState (x :: val) true else bumpState_n (x :: val) n
  | _ => ret false
  end.

Definition ballotProtocolTimerExpired : M unit :=
  bset (fun b => set_mTimerExpCount (mTimerExpCount b + 1) b) ;;!
  let! _ := abandonBallot 0 in ret tt.

(** ** Accepting and confirming prepared *)

(** [setPrepared]: [p] and [p'] are the two highest prepared and incompatible
    ballots. *)
Definition setPrepared (ballot : SCPBallot) : M bool :=
  let! b := bget id in
  match mPrepared b with
  | Some p =>
      let comp := compareBallots p ballot in
      if comp <? 0 then
        (if negb (areBallotsCompatible p ballot)
         then bset (set_mPreparedPrime (Some p)) else ret tt) ;;!
        bset (set_mPrepared (Some ballot)) ;;! ret true
      else if 0 <? comp then
        if match mPreparedPrime b with
           | None => true
           | Some pp => (compareBallots pp ballot <? 0) && negb (areBallotsCompatible p ballot)
           end
        then bset (set_mPreparedPrime (Some ballot)) ;;! ret true
        else ret false
      else ret false
  | None => bset (set_mPrepared (Some ballot)) ;;! ret true
  end.

Definition setAcceptPrepared (ballot : SCPBallot) : M bool :=
  let! didWork := setPrepared ballot in
  let! b := bget id in
  let! didWork :=
    match mCommit b, mHighBallot b with
    | Some _, Some h =>
        if match mPrepared b with
           | Some p => areBallotsLessAndIncompatible h p | None => false end ||
           match mPreparedPrime b with
           | Some pp => areBallotsLessAndIncompatible h pp | None => false end
        then
          dbgAssert (isPhase (mPhase b) SCP_PHASE_PREPARE) A_ClearCommitInPrepare ;;!
          bset (set_mCommit None) ;;! ret true
        else ret didWork
    | _, _ => ret didWork
    end in
  (if didWork then
     effect (AcceptedBallotPrepared slot ballot) ;;! emitCurrentStateStatement
   else ret tt) ;;!
  ret didWork.

(** The loop of [attemptAcceptPrepared], from the highest candidate down. *)
Fixpoint acceptPrepared_loop (candidates : list SCPBallot) : M bool :=
  match candidates with
  | [] => ret false
  | ballot :: rest =>
      let! b := bget id in
      let! skip :=
        (if isPhase (mPhase b) SCP_PHASE_CONFIRM then
           let! p := must (mPrepared b) P_Prepared in
           if negb (areBallotsLessAndCompatible p ballot) then ret true
           else
             let! c := must (mCommit b) P_Commit in
             dbgAssert (areBallotsCompatible c ballot) A_PreparedMatchesCommit ;;! ret false
         else ret false) in
      if skip then acceptPrepared_loop rest else
      if match mPreparedPrime b with
         | Some pp => compareBallots ballot pp <=? 0
         | None => false
         end
      then acceptPrepared_loop rest else
      if match mPrepared b with
         | Some p => areBallotsLessAndCompatible ballot p
         | None => false
         end
      then acceptPrepared_loop rest else
      if federatedAccept env (votesPrepared ballot) (hasPreparedBallot ballot)
           (mLatestEnvelopes b)
      then setAcceptPrepared ballot
      else acceptPrepared_loop rest
  end.

Definition attemptAcceptPrepared (hint : SCPStatement) : M bool :=
  let! b := bget id in
  if negb (inPrepareOrConfirm (mPhase b)) then ret false else
  acceptPrepared_loop (rev (getPrepareCandidates b hint)).

Definition setConfirmPrepared (newC newH : SCPBallot) : M bool :=
  bset (set_mValueOverride (Some (value newH))) ;;!
  let! b := bget id in
  let! didWork :=
    if match mCurrentBallot b with
       | None => true
       | Some cur => areBallotsCompatible cur newH
       end
    then
      let! didWork :=
        (if match mHighBallot b with
            | None => true
            | Some h => 0 <? compareBallots newH h
            end
         then bset (set_mHighBallot (Some newH)) ;;! ret true
         else ret false) in
      let! didWork :=
        (if negb (counter newC =? 0) then
           dbgAssert (negb (isSome (mCommit b))) A_CommitNotSet ;;!
           bset (set_mCommit (Some newC)) ;;! ret true
         else ret didWork) in
      (if didWork then effect (ConfirmedBallotPrepared slot newH) else ret tt) ;;!
      ret didWork
    else ret false in
  let! bumped := updateCurrentIfNeeded newH in
  let didWork := bumped || didWork in
  (if didWork then emitCurrentStateStatement else ret tt) ;;!
  ret didWork.

(** The first loop of [attemptConfirmPrepared]: the new [h], with the
    candidates from it on. *)
Fixpoint find_newH (high : option SCPBallot) (ratified : SCPBallot -> bool)
    (candidates : list SCPBallot) : option (SCPBallot * list SCPBallot) :=
  match candidates with
  | [] => None
  | ballot :: rest =>
      if match high with Some h => 0 <=? compareBallots h ballot | None => false end then None
      else if ratified ballot then Some (ballot, candidates)
      else find_newH high ratified rest
  end.

(** The second loop: the lowest [c] reached without a gap. *)
Fixpoint find_newC (b newH newC : SCPBallot) (ratified : SCPBallot -> bool)
    (candidates : list SCPBallot) : SCPBallot :=
  match candidates with
  | [] => newC
  | ballot :: rest =>
      if compareBallots ballot b <? 0 then newC
      else if negb (areBallotsLessAndCompatible ballot newH)
      then find_newC b newH newC ratified rest
      else if ratified ballot then find_newC b newH ballot ratified rest
      else newC
  end.

Definition attemptConfirmPrepared (hint : SCPStatement) : M bool :=
  let! b := bget id in
  if negb (isPhase (mPhase b) SCP_PHASE_PREPARE) then ret false else
  if negb (isSome (mPrepared b)) then ret false else
  let ratified := fun ballot =>
    federatedRatify env (hasPreparedBallot ballot) (mLatestEnvelopes b) in
  match find_newH (mHighBallot b) ratified (rev (getPrepareCandidates b hint)) with
  | None => ret false
  | Some (newH, cur) =>
      let cb := default (mkBallot 0 []) (mCurrentBallot b) in
      let newC :=
        if negb (isSome (mCommit b)) &&
           match mPrepared b with
           | Some p => negb (areBallotsLessAndIncompatible newH p) | None => true end &&
           match mPreparedPrime b with
           | Some pp => negb (areBallotsLessAndIncompatible newH pp) | None => true end
        then find_newC cb newH (mkBallot 0 []) ratified cur
        else mkBallot 0 [] in
      setConfirmPrepared newC newH
  end.

(** ** Accepting and confirming commit *)

Definition setAcceptCommit (c h : SCPBallot) : M bool :=
  bset (set_mValueOverride (Some (value h))) ;;!
  let! b := bget id in
  let! didWork :=
    (if match mHighBallot b, mCommit b with
        | Some hb, Some cb =>
            negb (compareBallots hb h =? 0) || negb (compareBallots cb c =? 0)
        | _, _ => true
        end
     then bset (fun b => set_mHighBallot (Some h) (set_mCommit (Some c) b)) ;;! ret true
     else ret false) in
  let! didWork :=
    (if isPhase (mPhase b) SCP_PHASE_PREPARE then
       bset (set_mPhase SCP_PHASE_CONFIRM) ;;!
       match mCurrentBallot b with
       | Some cur =>
           if negb (areBallotsLessAndCompatible h cur) then bumpToBallot h false else ret tt
       | None => ret tt
       end ;;!
       bset (set_mPreparedPrime None) ;;! ret true
     else ret didWork) in
  (if didWork then
     let! high := bget mHighBallot in
     let! high := must high P_HighBallot in
     updateCurrentIfNeeded high ;;!
     effect (AcceptedCommit slot h) ;;!
     emitCurrentStateStatement
   else ret tt) ;;!
  ret didWork.

(** The value to commit that the statement suggests. *)
Definition commitHint (hint : SCPStatement) : option SCPBallot :=
  match pledges hint with
  | SCP_ST_PREPARE prep =>
      if negb (p_nC prep =? 0) then Some (mkBallot (p_nH prep) (value (p_ballot prep))) else None
  | SCP_ST_CONFIRM con => Some (mkBallot (c_nH con) (value (c_ballot con)))
  | SCP_ST_EXTERNALIZE ext => Some (mkBallot (e_nH ext) (value (e_commit ext)))
  | SCP_ST_NOMINATE _ => None
  end.

Definition attemptAcceptCommit (hint : SCPStatement) : M bool :=
  let! b := bget id in
  if negb (inPrepareOrConfirm (mPhase b)) then ret false else
  match commitHint hint with
  | None => ret false
  | Some ballot =>
      let! stop :=
        (if isPhase (mPhase b) SCP_PHASE_CONFIRM then
           let! h := must (mHighBallot b) P_HighBallot in
           ret (negb (areBallotsCompatible ballot h))
         else ret false) in
      if stop then ret false else
      let pred := fun cur =>
        federatedAccept env (votesCommit ballot cur) (commitPredicate ballot cur)
          (mLatestEnvelopes b) in
      let boundaries := getCommitBoundariesFromStatements b ballot in
      match boundaries with
      | [] => ret false
      | _ =>
          let candidate := findExtendedInterval (0, 0) (rev boundaries) pred in
          if negb (fst candidate =? 0) then
            let! go :=
              (if isPhase (mPhase b) SCP_PHASE_CONFIRM then
                 let! h := must (mHighBallot b) P_HighBallot in
                 ret (counter h <? snd candidate)
               else ret true) in
            if go
            then setAcceptCommit (mkBallot (fst candidate) (value ballot))
                                 (mkBallot (snd candidate) (value ballot))
            else ret false
          else ret false
      end
  end.

Definition setConfirmCommit (c h : SCPBallot) : M bool :=
  bset (set_mCommit (Some c)) ;;!
  bset (set_mHighBallot (Some h)) ;;!
  updateCurrentIfNeeded h ;;!
  bset (set_mPhase SCP_PHASE_EXTERNALIZE) ;;!
  emitCurrentStateStatement ;;!
  stopNomination ;;!
  let! c := bget mCommit in
  let! c := must c P_Commit in
  effect (ValueExternalized slot (value c)) ;;!
  ret true.

Definition attemptConfirmCommit (hint : SCPStatement) : M bool :=
  let! b := bget id in
  if negb (isPhase (mPhase b) SCP_PHASE_CONFIRM) then ret false else
  match mHighBallot b, mCommit b with
  | Some _, Some c =>
      match pledges hint with
      | SCP_ST_PREPARE _ | SCP_ST_NOMINATE _ => ret false
      | _ =>
          match commitHint hint with
          | None => ret false
          | Some ballot =>
              if negb (areBallotsCompatible ballot c) then ret false else
              let boundaries := getCommitBoundariesFromStatements b ballot in
              let pred := fun cur =>
                federatedRatify env (commitPredicate ballot cur) (mLatestEnvelopes b) in
              let candidate := findExtendedInterval (0, 0) (rev boundaries) pred in
              if negb (fst candidate =? 0)
              then setConfirmCommit (mkBallot (fst candidate) (value ballot))
                                    (mkBallot (snd candidate) (value ballot))
              else ret false
          end
      end
  | _, _ => ret false
  end.

(** ** Bumping the counter *)

(** The loop over [allCounters]. *)
Fixpoint bump_counters (m : list (NodeID * EnvelopeWrapper)) (allCounters : list Z)
    : option Z :=
  match allCounters with
  | [] => None
  | n :: rest =>
      if negb (hasVBlockingSubsetStrictlyAheadOf m n) then Some n else bump_counters m rest
  end.

Definition attemptBump : M bool :=
  let! b := bget id in
  if inPrepareOrConfirm (mPhase b) then
    let localCounter := match mCurrentBallot b with Some cur => counter cur | None => 0 end in
    if negb (hasVBlockingSubsetStrictlyAheadOf (mLatestEnvelopes b) localCounter)
    then ret false
    else
      let allCounters :=
        set_of_list (List.filter (fun c => localCounter <? c)
                       (map statementBallotCounter (statements b))) in
      match bump_counters (mLatestEnvelopes b) allCounters with
      | Some n => abandonBallot n
      | None => ret false
      end
  else ret false.

(** ** The main loop *)

(** [do { didBump = attemptBump(); didWork = didBump || didWork; } while (didBump)]. *)
Fixpoint bump_loop (fuel : nat) (didWork : bool) : M bool :=
  match fuel with
  | O => fail OutOfFuel
  | S fuel' =>
      let! didBump := attemptBump in
      if didBump then bump_loop fuel' true else ret didWork
  end.

Definition setMessageLevel (f : Z -> Z) : M unit :=
  bset (fun b => set_mCurrentMessageLevel (f (mCurrentMessageLevel b)) b).

Definition advanceSlot (hint : SCPStatement) : M unit :=
  setMessageLevel (fun l => l + 1) ;;!
  let! level := bget mCurrentMessageLevel in
  check (negb (MAX_ADVANCE_SLOT_RECURSION <=? level)) MaxTransitions ;;!
  let! w1 := attemptAcceptPrepared hint in
  let! w2 := attemptConfirmPrepared hint in
  let! w3 := attemptAcceptCommit hint in
  let! w4 := attemptConfirmCommit hint in
  let didWork := w4 || (w3 || (w2 || w1)) in
  let! level := bget mCurrentMessageLevel in
  let! didWork :=
    (if level =? 1 then
       let! didWork := bump_loop BUMP_FUEL didWork in
       checkHeardFromQuorum ;;! ret didWork
     else ret didWork) in
  setMessageLevel (fun l => l - 1) ;;!
  if didWork then sendLatestEnvelope else ret tt.

(** [BallotProtocol::processEnvelope]. *)
Definition ballot_processEnvelope (e : EnvelopeWrapper) (self : bool) : M EnvelopeState :=
  let st := getStatement e in
  dbgAssert (slotIndex st =? slot) A_SlotIndex ;;!
  let! sane := isStatementSane st self in
  if negb sane then ret INVALID else
  let! b := bget id in
  if negb (isNewerStatementFor b (nodeID st) st) then ret INVALID else
  let validationRes := validateValues st in
  if bool_decide (validationRes = kInvalidValue) then ret INVALID else
  if negb (isPhase (mPhase b) SCP_PHASE_EXTERNALIZE) then
    (if bool_decide (validationRes = kMaybeValidValue)
     then setFullyValidated false else ret tt) ;;!
    recordEnvelope e ;;!
    advanceSlot st ;;!
    ret VALID
  else
    let! c := must (mCommit b) P_Commit in
    if eqb_of (value c) (value (getWorkingBallot st)) then
      recordEnvelope e ;;! ret VALID
    else ret INVALID.
End self.

(** ** Closing the recursion *)

(** [Slot::processEnvelope] for a ballot statement: the v-blocking flag is
    updated after a valid message from a new node.  The ballot protocol calls
    it on the statements it creates, so the definition is recursive; [fuel]
    bounds the nesting. *)
Fixpoint slot_processBallot (fuel : nat) (e : EnvelopeWrapper) (self : bool)
    : M EnvelopeState :=
  match fuel with
  | O => fail OutOfFuel
  | S fuel' =>
      let st := getStatement e in
      dbgAssert (slotIndex st =? slot) A_SlotIndex ;;!
      let! s := get in
      let prev := isSome (getLatestMessage s (nodeID st)) in
      let! res := ballot_processEnvelope (fun e => slot_processBallot fuel' e true) e self in
      (if negb prev && bool_decide (res = VALID) then maybeSetGotVBlocking env else ret tt) ;;!
      ret res
  end.

(** Every nested call but the last raises [mCurrentMessageLevel], and the code
    stops at [MAX_ADVANCE_SLOT_RECURSION] levels. *)
Definition BALLOT_FUEL : nat := 52.

Definition processSelf : EnvelopeWrapper -> M EnvelopeState :=
  fun e => slot_processBallot BALLOT_FUEL e true.

(** ** Restoring the state *)

Definition setStateFromEnvelope (e : EnvelopeWrapper) : M unit :=
  let! cur := bget mCurrentBallot in
  if isSome cur then fail CannotSetState else
  recordEnvelope e ;;!
  bset (set_mLastEnvelope (Some e)) ;;!
  bset (set_mLastEnvelopeEmit (Some e)) ;;!
  match pledges (getStatement e) with
  | SCP_ST_PREPARE prep =>
      let b := p_ballot prep in
      bumpToBallot b true ;;!
      (if isSome (p_prepared prep) then bset (set_mPrepared (p_prepared prep)) else ret tt) ;;!
      (if isSome (p_preparedPrime prep)
       then bset (set_mPreparedPrime (p_preparedPrime prep)) else ret tt) ;;!
      (if negb (p_nH prep =? 0)
       then bset (set_mHighBallot (Some (mkBallot (p_nH prep) (value b)))) else ret tt) ;;!
      (if negb (p_nC prep =? 0)
       then bset (set_mCommit (Some (mkBallot (p_nC prep) (value b)))) else ret tt) ;;!
      bset (set_mPhase SCP_PHASE_PREPARE)
  | SCP_ST_CONFIRM c =>
      let v := value (c_ballot c) in
      bumpToBallot (c_ballot c) true ;;!
      bset (set_mPrepared (Some (mkBallot (c_nPrepared c) v))) ;;!
      bset (set_mHighBallot (Some (mkBallot (c_nH c) v))) ;;!
      bset (set_mCommit (Some (mkBallot (c_nCommit c) v))) ;;!
      bset (set_mPhase SCP_PHASE_CONFIRM)
  | SCP_ST_EXTERNALIZE ext =>
      let v := value (e_commit ext) in
      bumpToBallot (mkBallot UINT32_MAX v) true ;;!
      bset (set_mPrepared (Some (mkBallot UINT32_MAX v))) ;;!
      bset (set_mHighBallot (Some (mkBallot (e_nH ext) v))) ;;!
      bset (set_mCommit (Some (e_commit ext))) ;;!
      bset (set_mPhase SCP_PHASE_EXTERNALIZE)
  | SCP_ST_NOMINATE _ => dbgAbort A_StatementType
  end.

(** ** Queries *)

(** [processCurrentState]: [f] is applied to the envelopes in node order until
    it answers [false]; the envelopes it is applied to, and the answer. *)
Fixpoint visit_envelopes (f : SCPEnvelope -> bool) (l : list SCPEnvelope)
    : list SCPEnvelope * bool :=
  match l with
  | [] => ([], true)
  | e :: l' =>
      if f e then let '(seen, ok) := visit_envelopes f l' in (e :: seen, ok)
      else ([e], false)
  end.

(** Messages of this node are only given out when the slot is fully
    validated. *)
Definition shareable (s : SlotState) (forceSelf : bool) (id : NodeID) : bool :=
  forceSelf || negb (eqb_of id localID) || mFullyValidated s.

Definition ballot_processCurrentState (s : SlotState) (f : SCPEnvelope -> bool)
    (forceSelf : bool) : list SCPEnvelope * bool :=
  visit_envelopes f
    (map (fun p => envelope (snd p))
         (List.filter (fun p => shareable s forceSelf (fst p)) (mLatestEnvelopes (bp s)))).

Definition getExternalizingState (s : SlotState) : result scp_error (list SCPEnvelope) :=
  if isPhase (mPhase (bp s)) SCP_PHASE_EXTERNALIZE then
    match mCommit (bp s) with
    | None => Err (NullDeref P_Commit)
    | Some c =>
        Ok (map (fun p => envelope (snd p))
          (List.filter (fun p =>
             if negb (eqb_of (fst p) localID)
             then areBallotsCompatible (getWorkingBallot (getStatement (snd p))) c
             else mFullyValidated s) (mLatestEnvelopes (bp s))))
    end
  else Ok [].

Definition NUM_TIMEOUTS_THRESHOLD_FOR_REPORTING : Z := 2.

(** [BallotProtocol::getState]. *)
Definition ballot_getState (s : SlotState) (n : NodeID) (selfAlreadyMovedOn : bool)
    : QuorumInfoNodeState :=
  let b := bp s in
  if eqb_of n localID then AGREE else
  match map_find n (mLatestEnvelopes b) with
  | None =>
      if (NUM_TIMEOUTS_THRESHOLD_FOR_REPORTING <=? mTimerExpCount b) || selfAlreadyMovedOn
      then MISSING else NO_INFO
  | Some e =>
      match mLastEnvelopeEmit b with
      | None => AGREE
      | Some lastEmit =>
          let st := getStatement e in
          let externalized :=
            match pledges st with SCP_ST_EXTERNALIZE _ => true | _ => false end in
          let confirmedCommit :=
            match pledges st with
            | SCP_ST_CONFIRM c => counter (c_ballot c) =? UINT32_MAX | _ => false end in
          let state :=
            if isPhase (mPhase b) SCP_PHASE_EXTERNALIZE &&
               (negb externalized || negb confirmedCommit) && selfAlreadyMovedOn
            then DELAYED else AGREE in
          let selfAcceptedConfirm := negb (isPhase (mPhase b) SCP_PHASE_PREPARE) in
          let otherAcceptedConfirm :=
            match pledges st with
            | SCP_ST_CONFIRM _ | SCP_ST_EXTERNALIZE _ => true | _ => false end in
          if selfAcceptedConfirm && otherAcceptedConfirm &&
             negb (areBallotsCompatible (getWorkingBallot st)
                     (getWorkingBallot (getStatement lastEmit)))
          then DISAGREE else state
      end
  end.
End ballot.
