(* ===== verification/BallotInvariant.v ===== *)
(** * Ballot protocol: invariant and evolution

    The invariant of [BallotProtocol]'s members, the way they may evolve, and
    what the candidate computations return.  [BallotSafety] shows that every
    operation respects them. *)
From stdpp Require Import base tactics list sorting numbers sets gmap.
From Stdlib Require Import ZArith Lia Bool.
From S2P Require Import Prelude Containers QuorumSet LocalNode Statement SlotState.
From S2P Require Import FederatedVoting BallotProtocol.

Open Scope Z_scope.
Open Scope kin_scope.

(** ** Machine integers in statements *)

Definition ballot_u32 (b : SCPBallot) : Prop := is_u32 (counter b).
Definition opt_u32 (o : option SCPBallot) : Prop := forall b, o = Some b -> ballot_u32 b.

(** A statement of the ballot protocol whose fields are [uint32]. *)
Definition ballot_statement (st : SCPStatement) : Prop :=
  match pledges st with
  | SCP_ST_PREPARE p =>
      ballot_u32 (p_ballot p) /\ opt_u32 (p_prepared p) /\ opt_u32 (p_preparedPrime p) /\
      is_u32 (p_nC p) /\ is_u32 (p_nH p)
  | SCP_ST_CONFIRM c =>
      ballot_u32 (c_ballot c) /\ is_u32 (c_nPrepared c) /\ is_u32 (c_nCommit c) /\
      is_u32 (c_nH c)
  | SCP_ST_EXTERNALIZE e => ballot_u32 (e_commit e) /\ is_u32 (e_nH e)
  | SCP_ST_NOMINATE _ => False
  end.

(** ** The invariant *)

(** What [checkInvariants] tests, without the test on the counter of [b], and
    what it does not: [p'] comes with [p] and is only used in the PREPARE phase, and the latest
    messages are ballot statements, one per node. *)
Record core (b : BallotState) : Prop := mkCore {
  core_cur_u32 : opt_u32 (mCurrentBallot b);
  core_prepared_u32 : opt_u32 (mPrepared b);
  core_prime_u32 : opt_u32 (mPreparedPrime b);
  core_high_u32 : opt_u32 (mHighBallot b);
  core_commit_u32 : opt_u32 (mCommit b);
  core_ordered : ordered (mLatestEnvelopes b);
  core_envelopes : forall id e, (id, e) ∈ mLatestEnvelopes b ->
    ballot_statement (getStatement e);
  core_prime : forall pp, mPreparedPrime b = Some pp ->
    exists p, mPrepared b = Some p /\ areBallotsLessAndIncompatible pp p = true;
  core_high : forall h, mHighBallot b = Some h ->
    exists cur, mCurrentBallot b = Some cur /\ areBallotsLessAndCompatible h cur = true;
  core_commit : forall c, mCommit b = Some c ->
    exists h, mHighBallot b = Some h /\ areBallotsLessAndCompatible c h = true;
  core_phase : mPhase b <> SCP_PHASE_PREPARE ->
    isSome (mCommit b) = true /\ mPreparedPrime b = None
}.

(** Between two operations, moreover: [b] never has a null counter, and a node
    in the CONFIRM phase has a prepared ballot. *)
Record quiet (b : BallotState) : Prop := mkQuiet {
  quiet_core : core b;
  quiet_counter : forall cur, mCurrentBallot b = Some cur -> counter cur <> 0;
  quiet_prepared : mPhase b = SCP_PHASE_CONFIRM -> isSome (mPrepared b) = true
}.

(** The members the invariant is about. *)
Definition view (b : BallotState) :=
  (mCurrentBallot b, mPrepared b, mPreparedPrime b, mHighBallot b, mCommit b,
   mLatestEnvelopes b, mPhase b).

Lemma core_view (b b' : BallotState) : view b' = view b -> core b -> core b'.
Proof.
  unfold view. intros [= E1 E2 E3 E4 E5 E6 E7] [].
  constructor; rewrite ?E1, ?E2, ?E3, ?E4, ?E5, ?E6, ?E7; auto.
Qed.

Lemma quiet_view (b b' : BallotState) : view b' = view b -> quiet b -> quiet b'.
Proof.
  intros E [Hc H1 H2]. pose proof (core_view _ _ E Hc).
  unfold view in E. injection E as E1 E2 E3 E4 E5 E6 E7.
  constructor; rewrite ?E1, ?E2, ?E7; auto.
Qed.

Lemma quiet_init : quiet initBallotState.
Proof.
  split; [|done|done]. constructor; try done; [constructor|].
  intros id e []%not_elem_of_nil.
Qed.

(** ** Evolution *)

Definition cur_le (o o' : option SCPBallot) : Prop :=
  match o, o' with
  | None, _ => True
  | Some b, Some b' => compareBallots b b' <= 0
  | Some _, None => False
  end.

Definition curCounter (o : option SCPBallot) : Z :=
  match o with Some b => counter b | None => 0 end.

#[global] Instance cur_le_preorder : PreOrder cur_le.
Proof.
  split.
  - intros [b|]; simpl; [by rewrite compare_refl | done].
  - intros [a|] [b|] [c|]; simpl; try done. apply compare_le_trans.
Qed.

Lemma cur_le_counter (o o' : option SCPBallot) :
  cur_le o o' -> opt_u32 o' -> curCounter o <= curCounter o'.
Proof.
  destruct o as [b|], o' as [b'|]; simpl; try done; [by intros ?%compare_le_counter|].
  intros _ Hu. specialize (Hu _ eq_refl). unfold ballot_u32 in Hu. unfold_ints; lia.
Qed.

Definition ballots (b : BallotState) :=
  (mCurrentBallot b, mPrepared b, mPreparedPrime b, mHighBallot b, mCommit b).

(** The values announced to the driver as externalized. *)
Definition announced (l : list Effect) : list Value :=
  omap (fun e => match e with ValueExternalized _ v => Some v | _ => None end) l.

Lemma announced_app (l l' : list Effect) : announced (l ++ l') = announced l ++ announced l'.
Proof. apply omap_app. Qed.

(** The ballot messages handed to the driver for the network. *)
Definition sent_ballot (e : Effect) : option SCPEnvelope :=
  match e with
  | EmitEnvelope x => match pledges (statement x) with SCP_ST_NOMINATE _ => None | _ => Some x end
  | _ => None
  end.

Definition sent (l : list Effect) : list SCPEnvelope := omap sent_ballot l.

Lemma sent_app (l l' : list Effect) : sent (l ++ l') = sent l ++ sent l'.
Proof. apply omap_app. Qed.

(** ** What a node says, and what it relies on *)

(** A node in its network: its identity, the hash of its quorum set, the
    environments it runs in, and the statements that were delivered to it. *)
Record Setting := mkSetting {
  party : NodeID;
  partyHash : Hash;
  partyEnv : SlotEnv -> Prop;
  heard : SCPStatement -> Prop
}.

Section voice.
Context (C : Setting).

Definition belongs (env : SlotEnv) : Prop :=
  mNodeID (localNode env) = party C /\ mQSetHash (localNode env) = partyHash C /\ partyEnv C env.

(** The node stands by what it said: its statements name its quorum set, and
    the commits they accept are those of its state. *)
Definition says (s : SlotState) (st : SCPStatement) : Prop :=
  match pledges st with
  | SCP_ST_PREPARE p => p_quorumSetHash p = partyHash C
  | SCP_ST_CONFIRM c =>
      c_quorumSetHash c = partyHash C /\ mPhase (bp s) <> SCP_PHASE_PREPARE /\
      exists b, mCommit (bp s) = Some b /\ value b = value (c_ballot c)
  | SCP_ST_EXTERNALIZE e =>
      mPhase (bp s) = SCP_PHASE_EXTERNALIZE /\
      exists b, mCommit (bp s) = Some b /\ value b = value (e_commit e)
  | SCP_ST_NOMINATE _ => True
  end.

(** A message the node may count: one it heard or its own. *)
Definition entry (s : SlotState) (id : NodeID) (e : EnvelopeWrapper) : Prop :=
  nodeID (getStatement e) = id /\
  (heard C (getStatement e) \/ id = party C /\ says s (getStatement e)).

(** A quorum accepted the commit the node holds. *)
Definition justified (s : SlotState) : Prop :=
  exists env envs ballot i c, belongs env /\ ordered envs /\
    (forall id e, (id, e) ∈ envs -> entry s id e) /\
    federatedRatify env (commitPredicate ballot i) envs = true /\
    mCommit (bp s) = Some c /\ value c = value ballot.

Record voice (s : SlotState) : Prop := mkVoice {
  voice_latest : forall id e, (id, e) ∈ mLatestEnvelopes (bp s) -> entry s id e;
  voice_last : forall e, mLastEnvelope (bp s) = Some e -> says s (getStatement e);
  voice_sent : forall e, e ∈ sent (effects s) -> says s (statement e);
  voice_justified : mPhase (bp s) = SCP_PHASE_EXTERNALIZE -> justified s
}.

(** Nothing that was said is taken back. *)
Definition persists (s s' : SlotState) : Prop :=
  phase_rank (mPhase (bp s)) <= phase_rank (mPhase (bp s')) /\
  forall c, mPhase (bp s) <> SCP_PHASE_PREPARE -> mCommit (bp s) = Some c ->
    exists c', mCommit (bp s') = Some c' /\ value c' = value c.

Lemma says_persists (s s' : SlotState) (st : SCPStatement) :
  persists s s' -> says s st -> says s' st.
Proof.
  intros [Hp Hc]. unfold says. destruct (pledges st) as [p|c|e|n]; try done.
  - intros (Hh & Hn & b & Eb & Ev). destruct (Hc b Hn Eb) as (b' & Eb' & Ev').
    split; [done|]. split; [|exists b'; by rewrite Ev'].
    intros E. rewrite E in Hp. by destruct (mPhase (bp s)).
  - intros (E & b & Eb & Ev). destruct (Hc b) as (b' & Eb' & Ev'); [by rewrite E|done|].
    split; [|exists b'; by rewrite Ev']. rewrite E in Hp. by destruct (mPhase (bp s')).
Qed.

Lemma entry_persists (s s' : SlotState) (id : NodeID) (e : EnvelopeWrapper) :
  persists s s' -> entry s id e -> entry s' id e.
Proof.
  intros Hp [Hid [Hh|[Hi Hs]]]; split; auto. right. split; [done|]. by eapply says_persists.
Qed.

Lemma justified_persists (s s' : SlotState) :
  persists s s' -> mPhase (bp s) = SCP_PHASE_EXTERNALIZE -> justified s -> justified s'.
Proof.
  intros Hp E (env & envs & ballot & i & c & Hb & Ho & He & Hr & Ec & Ev).
  destruct (proj2 Hp c) as (c' & Ec' & Ev'); [by rewrite E|done|].
  exists env, envs, ballot, i, c'. split_and!; try done; [|by rewrite Ev'].
  intros id e Hin. eapply entry_persists; eauto.
Qed.

(** A step that says nothing new. *)
Lemma voice_carry (s s' : SlotState) :
  persists s s' -> mLatestEnvelopes (bp s') = mLatestEnvelopes (bp s) ->
  mLastEnvelope (bp s') = mLastEnvelope (bp s) -> sent (effects s') = sent (effects s) ->
  (mPhase (bp s') = SCP_PHASE_EXTERNALIZE -> mPhase (bp s) = SCP_PHASE_EXTERNALIZE) ->
  voice s -> voice s'.
Proof.
  intros Hp E1 E2 E3 Hx [V1 V2 V3 V4]. constructor; rewrite ?E1, ?E2, ?E3.
  - intros id e Hin. eapply entry_persists; eauto.
  - intros e He. eapply says_persists; eauto.
  - intros e He. eapply says_persists; eauto.
  - intros E. apply Hx in E. eapply justified_persists; eauto.
Qed.

(** A step that leaves the members of [view] alone. *)
Lemma voice_view (s s' : SlotState) :
  view (bp s') = view (bp s) -> mLastEnvelope (bp s') = mLastEnvelope (bp s) ->
  sent (effects s') = sent (effects s) -> voice s -> voice s'.
Proof.
  unfold view. intros [= E1 E2 E3 E4 E5 E6 E7] H1 H2. apply voice_carry; try done.
  - split; [by rewrite E7|]. intros c _ Hc. exists c. by rewrite E5.
  - by rewrite E7.
Qed.
End voice.

(** ** How a slot changes *)

Section evolution.
Context {C : Setting} (who : list NodeID).

(** How a slot changes while it processes messages: the phase only moves
    forward; [b] only grows, unless the node leaves the PREPARE phase; once a
    commit is accepted its value is kept; an externalized slot is frozen; only
    the messages of the nodes [who] are replaced; the history only grows; the
    value is announced when the slot externalizes, exactly once; and the node
    keeps standing by what it says. *)
Record evolves (s s' : SlotState) : Prop := mkEvolves {
  ev_phase : phase_rank (mPhase (bp s)) <= phase_rank (mPhase (bp s'));
  ev_cur : (mPhase (bp s) = SCP_PHASE_PREPARE -> mPhase (bp s') = SCP_PHASE_PREPARE) ->
    cur_le (mCurrentBallot (bp s)) (mCurrentBallot (bp s'));
  ev_commit : forall c, mPhase (bp s) <> SCP_PHASE_PREPARE -> mCommit (bp s) = Some c ->
    exists c', mCommit (bp s') = Some c' /\ value c' = value c;
  ev_frozen : mPhase (bp s) = SCP_PHASE_EXTERNALIZE -> ballots (bp s') = ballots (bp s);
  ev_others : forall id, id ∉ who ->
    map_find id (mLatestEnvelopes (bp s')) = map_find id (mLatestEnvelopes (bp s));
  ev_level : mCurrentMessageLevel (bp s') = mCurrentMessageLevel (bp s);
  ev_history : mStatementsHistory s `prefix_of` mStatementsHistory s';
  ev_announced : announced (effects s') = announced (effects s) ++
    (if isPhase (mPhase (bp s)) SCP_PHASE_EXTERNALIZE then [] else
     if isPhase (mPhase (bp s')) SCP_PHASE_EXTERNALIZE
     then map value (opt_list (mCommit (bp s'))) else []);
  ev_nomination : np s' = np s \/ np s' = set_mNominationStarted false (np s);
  ev_voice : voice C s -> voice C s'
}.

Lemma phase_rank_inj (p q : SCPPhase) : phase_rank p = phase_rank q -> p = q.
Proof. by destruct p, q. Qed.

Lemma evolves_externalized (s s' : SlotState) :
  evolves s s' -> mPhase (bp s) = SCP_PHASE_EXTERNALIZE -> mPhase (bp s') = SCP_PHASE_EXTERNALIZE.
Proof. intros [Hp _ _ _ _ _ _ _ _ _] E. rewrite E in Hp. by destruct (mPhase (bp s')). Qed.

#[global] Instance evolves_preorder : PreOrder evolves.
Proof.
  split.
  - intros s. constructor; try done; eauto.
    unfold isPhase. by repeat case_bool_decide; rewrite app_nil_r.
  - intros s1 s2 s3 H1 H2.
    pose proof (evolves_externalized _ _ H1) as X1.
    pose proof (evolves_externalized _ _ H2) as X2.
    destruct H1 as [P1 C1 M1 F1 O1 L1 Y1 A1 N1 V1], H2 as [P2 C2 M2 F2 O2 L2 Y2 A2 N2 V2].
    assert (mPhase (bp s3) = SCP_PHASE_PREPARE -> mPhase (bp s2) = SCP_PHASE_PREPARE) as Hback.
    { intros E. rewrite E in P2. by destruct (mPhase (bp s2)). }
    assert (mPhase (bp s1) <> SCP_PHASE_PREPARE -> mPhase (bp s2) <> SCP_PHASE_PREPARE) as Hfwd.
    { intros Hn E. rewrite E in P1. by destruct (mPhase (bp s1)). }
    constructor.
    + lia.
    + intros Hp. etrans; [apply C1 | apply C2]; [by intros E; apply Hback, Hp|].
      intros E2. apply Hp. destruct (mPhase (bp s1)) eqn:E1; [done| |]; by apply Hfwd in E2.
    + intros c Hp Hc. destruct (M1 c Hp Hc) as (c' & Hc' & E).
      destruct (M2 c' (Hfwd Hp) Hc') as (c'' & Hc'' & E'). exists c''. by rewrite E'.
    + intros E. rewrite F2, F1; auto.
    + intros id Hid. by rewrite O2, O1.
    + by rewrite L2.
    + by etrans.
    + rewrite A2, A1, <- app_assoc. f_equal. unfold isPhase.
      destruct (bool_decide_reflect (mPhase (bp s1) = SCP_PHASE_EXTERNALIZE)) as [E1|E1].
      { by rewrite bool_decide_true by auto. }
      destruct (bool_decide_reflect (mPhase (bp s2) = SCP_PHASE_EXTERNALIZE)) as [E2|E2].
      { rewrite bool_decide_true by auto. rewrite app_nil_r.
        specialize (F2 E2). unfold ballots in F2. by injection F2 as _ _ _ _ ->. }
      done.
    + destruct N1 as [E1|E1], N2 as [E2|E2]; rewrite E1 in E2; auto.
    + auto.
Qed.
End evolution.

Lemma evolves_persists {C : Setting} (who : list NodeID) (s s' : SlotState) :
  evolves (C := C) who s s' -> persists s s'.
Proof. intros []. by split. Qed.

Lemma evolves_mono {C : Setting} (who who' : list NodeID) (s s' : SlotState) :
  who ⊆ who' -> evolves (C := C) who s s' -> evolves (C := C) who' s s'.
Proof. intros Hsub []. constructor; auto. Qed.

(** A step that leaves the messages alone and does not externalize. *)
Lemma evolves_local {C : Setting} (who : list NodeID) (s s' : SlotState) :
  phase_rank (mPhase (bp s)) <= phase_rank (mPhase (bp s')) ->
  mPhase (bp s) <> SCP_PHASE_EXTERNALIZE -> mPhase (bp s') <> SCP_PHASE_EXTERNALIZE ->
  ((mPhase (bp s) = SCP_PHASE_PREPARE -> mPhase (bp s') = SCP_PHASE_PREPARE) ->
   cur_le (mCurrentBallot (bp s)) (mCurrentBallot (bp s'))) ->
  (forall c, mPhase (bp s) <> SCP_PHASE_PREPARE -> mCommit (bp s) = Some c ->
   exists c', mCommit (bp s') = Some c' /\ value c' = value c) ->
  mLatestEnvelopes (bp s') = mLatestEnvelopes (bp s) ->
  mCurrentMessageLevel (bp s') = mCurrentMessageLevel (bp s) ->
  mStatementsHistory s' = mStatementsHistory s ->
  announced (effects s') = announced (effects s) -> np s' = np s ->
  sent (effects s') = sent (effects s) -> mLastEnvelope (bp s') = mLastEnvelope (bp s) ->
  evolves (C := C) who s s'.
Proof.
  intros H1 H2 H3 H4 H5 H6 H7 H8 H9 H10 H11 H12. constructor; auto.
  - done.
  - by rewrite H6.
  - by rewrite H8.
  - unfold isPhase. rewrite !bool_decide_false by done. by rewrite app_nil_r.
  - by apply voice_carry.
Qed.

(** A step that does not touch the members of [view]. *)
Lemma evolves_aside {C : Setting} (who : list NodeID) (s s' : SlotState) :
  view (bp s') = view (bp s) ->
  mCurrentMessageLevel (bp s') = mCurrentMessageLevel (bp s) ->
  mStatementsHistory s' = mStatementsHistory s ->
  announced (effects s') = announced (effects s) ->
  (np s' = np s \/ np s' = set_mNominationStarted false (np s)) ->
  (voice C s -> voice C s') ->
  evolves (C := C) who s s'.
Proof.
  unfold view. intros [= E1 E2 E3 E4 E5 E6 E7] H7 H8 H9 H10 H11. constructor; auto.
  - by rewrite E7.
  - intros _. by rewrite E1.
  - intros c _ Hc. exists c. by rewrite E5.
  - intros _. unfold ballots. congruence.
  - by rewrite E6.
  - by rewrite H8.
  - unfold isPhase. rewrite E7, H9. by case_bool_decide; rewrite app_nil_r.
Qed.

(** ** What the candidate computations return *)

Lemma u32_0 : is_u32 0.
Proof. unfold_ints; lia. Qed.

Lemma u32_max : is_u32 UINT32_MAX.
Proof. unfold_ints; lia. Qed.

#[export] Hint Resolve u32_0 u32_max : kin.

Lemma opt_list_elem {A} (o : option A) (x : A) : x ∈ opt_list o <-> o = Some x.
Proof. destruct o; set_solver. Qed.

Lemma hintBallots_u32 (hint : SCPStatement) (b : SCPBallot) :
  ballot_statement hint -> b ∈ hintBallots hint -> ballot_u32 b.
Proof.
  unfold ballot_statement, hintBallots. destruct (pledges hint) as [p|c|e|n]; [| | |done].
  - intros (H1 & H2 & H3 & _). rewrite elem_of_set_of_list, elem_of_cons, elem_of_app,
      !opt_list_elem. intros [->|[?|?]]; auto.
  - intros (H1 & H2 & _). rewrite elem_of_set_of_list. intros Hb.
    apply list_elem_of_In in Hb as [<-|[<-|[]]]; unfold ballot_u32; simpl; auto with kin.
  - intros _ ->%list_elem_of_singleton. unfold ballot_u32; simpl; auto with kin.
Qed.

Lemma candidatesFrom_u32 (top : SCPBallot) (st : SCPStatement) (b : SCPBallot) :
  ballot_statement st -> ballot_u32 top -> b ∈ candidatesFrom top st -> ballot_u32 b.
Proof.
  unfold ballot_statement, candidatesFrom. destruct (pledges st) as [p|c|e|n]; [| | |done].
  - intros (H1 & H2 & H3 & _) _. rewrite list_elem_of_In, filter_In, <- list_elem_of_In.
    rewrite elem_of_cons, elem_of_app, !opt_list_elem. intros [[->|[?|?]] _]; auto.
  - intros (H1 & H2 & _) Ht. destruct (areBallotsCompatible _ _); [|by intros ?%not_elem_of_nil].
    rewrite elem_of_cons. intros [->|Hb]; [done|].
    destruct (_ <? _); [|by apply not_elem_of_nil in Hb].
    apply list_elem_of_singleton in Hb as ->. done.
  - intros _ Ht. destruct (areBallotsCompatible _ _); [|by intros ?%not_elem_of_nil].
    by intros ->%list_elem_of_singleton.
Qed.

Lemma elem_of_concat_map {A B} (f : A -> list B) (l : list A) (y : B) :
  y ∈ concat (map f l) <-> exists x, x ∈ l /\ y ∈ f x.
Proof.
  rewrite list_elem_of_In, in_concat. split.
  - intros (z & (x & <- & Hx)%in_map_iff & Hy). exists x. by rewrite !list_elem_of_In.
  - intros (x & Hx & Hy). exists (f x). rewrite in_map_iff.
    split; [exists x|]; by rewrite <- !list_elem_of_In.
Qed.

Lemma statements_typed (b : BallotState) (st : SCPStatement) :
  core b -> st ∈ statements b -> ballot_statement st.
Proof.
  intros Hc. unfold statements. rewrite list_elem_of_In, in_map_iff.
  intros ([id e] & <- & Hin). eapply core_envelopes; [done|]. by apply list_elem_of_In.
Qed.

Lemma getPrepareCandidates_u32 (b : BallotState) (hint : SCPStatement) (x : SCPBallot) :
  core b -> ballot_statement hint -> x ∈ getPrepareCandidates b hint -> ballot_u32 x.
Proof.
  intros Hc Hh. unfold getPrepareCandidates. rewrite elem_of_set_of_list, elem_of_concat_map.
  intros (top & Htop & Hx). apply elem_of_concat_map in Hx as (st & Hst & Hx).
  rewrite list_elem_of_In, <- in_rev, <- list_elem_of_In in Htop.
  eauto using candidatesFrom_u32, statements_typed, hintBallots_u32.
Qed.

Lemma commitBoundaries_u32 (b : BallotState) (ballot : SCPBallot) :
  core b -> Forall is_u32 (getCommitBoundariesFromStatements b ballot).
Proof.
  intros Hc. apply Forall_forall. intros x. unfold getCommitBoundariesFromStatements.
  rewrite elem_of_set_of_list, elem_of_concat_map.
  intros (st & Hst%(statements_typed _ _ Hc) & Hx). revert Hst Hx.
  unfold ballot_statement, commitBoundariesFrom.
  destruct (pledges st) as [p|c|e|n]; [| | |done];
    destruct (areBallotsCompatible _ _); try (by intros _ ?%not_elem_of_nil).
  - intros (_ & _ & _ & H1 & H2). destruct (negb _); [|by intros ?%not_elem_of_nil].
    intros Hx. apply list_elem_of_In in Hx as [<-|[<-|[]]]; done.
  - intros (_ & _ & H1 & H2) Hx. apply list_elem_of_In in Hx as [<-|[<-|[]]]; done.
  - intros (H1 & H2) Hx. apply list_elem_of_In in Hx as [<-|[<-|[<-|[]]]]; auto with kin.
Qed.

Lemma findExtendedInterval_in (P : Z -> Prop) (c : Interval) (l : list Z)
    (pred : Interval -> bool) :
  P (fst c) -> P (snd c) -> Forall P l ->
  let r := findExtendedInterval c l pred in P (fst r) /\ P (snd r).
Proof.
  intros H1 H2 Hl. revert c H1 H2. induction Hl as [|b l Hb Hl IH]; intros c H1 H2; [done|].
  simpl. destruct (_ =? _); [destruct (pred _); auto|].
  destruct (_ <? _); [auto|]. destruct (pred _); auto.
Qed.

(** The interval the commit handlers work with. *)
Lemma commit_interval (b : BallotState) (ballot : SCPBallot) (pred : Interval -> bool) :
  core b ->
  let r := findExtendedInterval (0, 0) (rev (getCommitBoundariesFromStatements b ballot)) pred in
  is_u32 (fst r) /\ is_u32 (snd r) /\ fst r <= snd r /\ (fst r <> 0 -> pred r = true).
Proof.
  intros Hc r.
  destruct (findExtendedInterval_in is_u32 (0, 0)
    (rev (getCommitBoundariesFromStatements b ballot)) pred) as [H1 H2]; [apply u32_0..| |].
  { apply Forall_rev, commitBoundaries_u32, Hc. }
  destruct (findExtendedInterval_bounds (0, 0)
    (rev (getCommitBoundariesFromStatements b ballot)) pred) as [H3 H4]; [done..|].
  done.
Qed.

Lemma find_newH_spec (high : option SCPBallot) (ratified : SCPBallot -> bool)
    (l : list SCPBallot) (newH : SCPBallot) (rest : list SCPBallot) :
  find_newH high ratified l = Some (newH, rest) ->
  newH ∈ l /\ ratified newH = true /\ rest ⊆ l /\
  (forall h, high = Some h -> compareBallots h newH < 0).
Proof.
  induction l as [|x l IH]; simpl; [done|]. intros H.
  destruct high as [h|].
  - destruct (Z.leb_spec 0 (compareBallots h x)); [done|].
    destruct (ratified x) eqn:Hr.
    + injection H as -> <-. split; [set_solver|]. split; [done|]. split; [done|].
      by intros ? [= <-].
    + destruct (IH H) as (? & ? & ? & ?). split; [set_solver|]. split; [done|].
      split; [set_solver|done].
  - destruct (ratified x) eqn:Hr.
    + injection H as -> <-. split; [set_solver|]. done.
    + destruct (IH H) as (? & ? & ? & ?). split; [set_solver|]. split; [done|].
      split; [set_solver|done].
Qed.

Lemma find_newC_spec (b newH newC : SCPBallot) (ratified : SCPBallot -> bool)
    (l : list SCPBallot) :
  let c := find_newC b newH newC ratified l in
  c = newC \/ (c ∈ l /\ areBallotsLessAndCompatible c newH = true /\ ratified c = true).
Proof.
  revert newC. induction l as [|x l IH]; intros newC; simpl; [by left|].
  destruct (_ <? 0); [by left|].
  destruct (areBallotsLessAndCompatible x newH) eqn:E; simpl.
  - destruct (ratified x) eqn:Hr; [|by left].
    destruct (IH x) as [->|(? & ? & ?)]; right; set_solver.
  - destruct (IH newC) as [->|(? & ? & ?)]; [by left|right; set_solver].
Qed.

Lemma commitHint_u32 (hint : SCPStatement) (b : SCPBallot) :
  ballot_statement hint -> commitHint hint = Some b -> ballot_u32 b.
Proof.
  unfold ballot_statement, commitHint, ballot_u32.
  destruct (pledges hint) as [p|c|e|n]; [| | |done].
  - intros (_ & _ & _ & _ & H). destruct (negb _); [|done]. by intros [= <-].
  - by intros (_ & _ & _ & H) [= <-].
  - by intros (_ & H) [= <-].
Qed.
