(* ===== verification/BallotSafety.v ===== *)
(** * Ballot protocol: every operation respects the invariant

    Operation by operation: from a state that satisfies the invariant, the
    code either returns in such a state, evolved as [evolves] allows, or stops
    with one of the errors of [allowed]. *)
From stdpp Require Import base tactics list sorting numbers sets gmap.
From Stdlib Require Import ZArith Lia Bool.
From S2P Require Import Prelude Containers QuorumSet LocalNode Statement SlotState.
From S2P Require Import FederatedVoting BallotProtocol BallotInvariant.

Open Scope Z_scope.
Open Scope kin_scope.

(** The only ways the processing of a message can stop: too many nested
    transitions, a statement of its own the node does not accept, a ballot
    with a null counter, and (in the CONFIRM phase) no prepared ballot or a
    prepared ballot that contradicts the commit. *)
Definition allowed (e : scp_error) : Prop :=
  match e with
  | MaxTransitions | BadStateBallot => True
  | DbgAbort A_CounterNotZero | DbgAbort A_PreparedMatchesCommit => True
  | NullDeref P_Prepared => True
  | _ => False
  end.

(** ** Symbolic execution *)

Ltac proj :=
  cbn [bp np mStatementsHistory mFullyValidated mGotVBlocking effects nextPtr
       set_bp set_np set_mStatementsHistory set_mFullyValidated set_mGotVBlocking
       set_effects set_nextPtr
       mHeardFromQuorum mCurrentBallot mPrepared mPreparedPrime mHighBallot mCommit
       mLatestEnvelopes mPhase mValueOverride mCurrentMessageLevel mTimerExpCount
       mLastEnvelope mLastEnvelopeEmit
       set_mHeardFromQuorum set_mCurrentBallot set_mPrepared set_mPreparedPrime
       set_mHighBallot set_mCommit set_mLatestEnvelopes set_mPhase set_mValueOverride
       set_mCurrentMessageLevel set_mTimerExpCount set_mLastEnvelope set_mLastEnvelopeEmit
       isSome negb id] in *.

Lemma wp_bget {A} (E : scp_error -> Prop) (f : BallotState -> A) (Q : A -> SlotState -> Prop)
    (s : SlotState) : Q (f (bp s)) s -> wp E (bget f) Q s.
Proof. done. Qed.

Lemma wp_bset (E : scp_error -> Prop) (f : BallotState -> BallotState)
    (Q : unit -> SlotState -> Prop) (s : SlotState) :
  Q tt (set_bp (f (bp s)) s) -> wp E (bset f) Q s.
Proof. done. Qed.

Lemma wp_effect (E : scp_error -> Prop) (e : Effect) (Q : unit -> SlotState -> Prop)
    (s : SlotState) : Q tt (set_effects (effects s ++ [e]) s) -> wp E (effect e) Q s.
Proof. done. Qed.

Lemma wp_must {A} (E : scp_error -> Prop) (o : option A) (p : pointer)
    (Q : A -> SlotState -> Prop) (s : SlotState) :
  (o = None -> E (NullDeref p)) -> (forall a, o = Some a -> Q a s) -> wp E (must o p) Q s.
Proof. unfold wp. destruct o; simpl; auto. Qed.

(** One step of the code: sequencing, reading, writing. *)
Ltac wp_step :=
  lazymatch goal with
  | |- wp _ (bind _ _) _ _ => apply wp_bind
  | |- wp _ (ret _) _ _ => apply wp_ret
  | |- wp _ (bget _) _ _ => apply wp_bget
  | |- wp _ (bset _) _ _ => apply wp_bset
  | |- wp _ (effect _) _ _ => apply wp_effect
  | |- wp _ get _ _ => apply wp_get
  | |- wp _ (gets _) _ _ => apply wp_gets
  | |- wp _ (modify _) _ _ => apply wp_modify
  | |- wp _ (fail _) _ _ => apply wp_fail
  end; cbv beta.

(** A conditional of the code. *)
Ltac wp_if H :=
  match goal with
  | |- wp _ (if ?c then _ else _) _ _ => destruct c eqn:H
  | |- wp _ (bind (if ?c then _ else _) _) _ _ => destruct c eqn:H
  end.

Ltac wps := repeat (wp_step; proj).

(** ** The facts about the state that the operations share *)

Section safety.
Context (env : SlotEnv).
Abbreviation localID := (mNodeID (localNode env)).
Abbreviation slot := (mSlotIndex env).
(** The node in its network. *)
Context (C : Setting) (Hbelongs : belongs C env).

(** The last statement the node recorded for itself is not ahead of [b]. *)
Definition own (s : SlotState) : Prop :=
  forall e, map_find localID (mLatestEnvelopes (bp s)) = Some e ->
    mPhase (bp s) = SCP_PHASE_EXTERNALIZE \/
    statementBallotCounter (getStatement e) <= curCounter (mCurrentBallot (bp s)).

(** A statement the node makes in state [s]. *)
Definition own_statement (s : SlotState) (st : SCPStatement) : Prop :=
  nodeID st = localID /\ slotIndex st = slot /\ ballot_statement st /\
  (mPhase (bp s) = SCP_PHASE_EXTERNALIZE \/
   statementBallotCounter st <= curCounter (mCurrentBallot (bp s))) /\ says C s st.

Abbreviation step := (evolves (C := C) [localID]).

(** [checkInvariants] only stops on a null counter. *)
Lemma checkInvariants_run (Err : scp_error -> Prop) (s : SlotState) :
  core (bp s) ->
  (forall cur, mCurrentBallot (bp s) = Some cur -> counter cur = 0 ->
   Err (DbgAbort A_CounterNotZero)) ->
  wp Err checkInvariants (fun _ s' => s' = s /\
    forall cur, mCurrentBallot (bp s) = Some cur -> counter cur <> 0) s.
Proof.
  intros Hc HE. unfold checkInvariants. wps.
  assert (forall h, mHighBallot (bp s) = Some h -> isSome (mCurrentBallot (bp s)) = true /\
    forall cur, mCurrentBallot (bp s) = Some cur -> areBallotsLessAndCompatible h cur = true) as Hh.
  { intros h (cur & -> & ?)%(core_high _ Hc). split; [done|]. by intros ? [= <-]. }
  assert (forall c, mCommit (bp s) = Some c -> isSome (mHighBallot (bp s)) = true /\
    forall h, mHighBallot (bp s) = Some h -> areBallotsLessAndCompatible c h = true) as Hco.
  { intros c (h & -> & ?)%(core_commit _ Hc). split; [done|]. by intros ? [= <-]. }
  pose proof (core_prime _ Hc) as Hp. pose proof (core_phase _ Hc) as Hph.
  apply (wp_mono _ _ (fun _ s' => s' = s /\
    forall cur, mCurrentBallot (bp s) = Some cur -> counter cur <> 0)).
  { destruct (mCurrentBallot (bp s)) as [cur|]; [|by wps].
    apply wp_check_or; intros Hz; bprop; [by eapply HE|]. split; [done|].
    by intros ? [= <-]. }
  intros _ ? [-> Hcur]. wps.
  apply (wp_mono _ _ (fun _ s' => s' = s)).
  { destruct (mPrepared (bp s)), (mPreparedPrime (bp s)) as [pp|]; wps; try done.
    destruct (Hp _ eq_refl) as (? & [= <-] & ?). by apply wp_check. }
  intros _ ? ->. wps. apply (wp_mono _ _ (fun _ s' => s' = s)).
  { destruct (mHighBallot (bp s)) as [h|]; [|by wps]. destruct (Hh _ eq_refl) as [Hi Hl].
    wps. apply wp_check; [done|]. wps. apply wp_must; [by intros E; rewrite E in Hi|].
    intros cur E. apply wp_check; auto. }
  intros _ ? ->. wps. apply (wp_mono _ _ (fun _ s' => s' = s)).
  { destruct (mCommit (bp s)) as [c|]; [|by wps]. destruct (Hco _ eq_refl) as [Hi Hl].
    destruct (mHighBallot (bp s)) as [h|]; [|done]. destruct (Hh _ eq_refl) as [Hi' Hl'].
    wps. apply wp_check; [done|]. wps. apply wp_must; [done|]. intros ? [= <-]. wps.
    apply wp_check; [auto|]. wps. apply wp_must; [by intros E; rewrite E in Hi'|].
    intros cur E. apply wp_check; auto. }
  intros _ ? ->. wps. destruct (mPhase (bp s)) eqn:Ep; [by wps | |].
  - apply wp_check; [by apply Hph|done].
  - destruct Hph as [Hi _]; [done|]. wps. apply wp_check; [done|]. wps.
    apply wp_check; [|done]. destruct (mCommit (bp s)); [|done]. by eapply Hco.
Qed.

Lemma checkInvariants_quiet (s : SlotState) :
  quiet (bp s) -> checkInvariants s = Ok (tt, s).
Proof.
  intros Hq. pose proof (checkInvariants_run (fun _ => False) s (quiet_core _ Hq)) as Hw.
  unfold wp in Hw. destruct (checkInvariants s) as [[[] s']|e].
  - destruct Hw as [-> _]; [|done]. intros cur Ecur Hz. by apply (quiet_counter _ Hq cur).
  - exfalso. apply Hw. intros cur Ecur Hz. by apply (quiet_counter _ Hq cur).
Qed.

Lemma checkInvariants_spec (s : SlotState) :
  core (bp s) ->
  wp allowed checkInvariants (fun _ s' => s' = s /\
    forall cur, mCurrentBallot (bp s) = Some cur -> counter cur <> 0) s.
Proof. intros Hc. by apply checkInvariants_run. Qed.

Lemma createStatement_spec (s : SlotState) :
  core (bp s) ->
  wp allowed (createStatement env (mPhase (bp s))) (fun pl s' => s' = s /\ quiet (bp s) /\
    own_statement s (mkStatement localID slot pl)) s.
Proof.
  intros Hc. unfold createStatement. wps.
  eapply wp_mono; [by apply checkInvariants_spec|]. intros _ ? [-> Hcur].
  pose proof (core_cur_u32 _ Hc) as U1. pose proof (core_prepared_u32 _ Hc) as U2.
  pose proof (core_prime_u32 _ Hc) as U3. pose proof (core_high_u32 _ Hc) as U4.
  pose proof (core_commit_u32 _ Hc) as U5. pose proof (core_phase _ Hc) as Hph.
  wps. unfold own_statement, ballot_statement, statementBallotCounter, says.
  pose proof (proj1 (proj2 Hbelongs)) as Hhash. destruct (mPhase (bp s)) eqn:Ep; wps.
  - split; [done|]. split; [by constructor; [|done|congruence]|].
    do 2 (split; [done|]). cbn [pledges p_ballot p_prepared p_preparedPrime p_nC p_nH].
    split; [split_and!; auto|split; [|done]].
    + destruct (mCurrentBallot (bp s)); simpl; [by apply U1|]. unfold ballot_u32; auto with kin.
    + destruct (mCommit (bp s)); [by apply U5|]. auto with kin.
    + destruct (mHighBallot (bp s)); [by apply U4|]. auto with kin.
    + right. by destruct (mCurrentBallot (bp s)).
  - destruct (Hph ltac:(done)) as [Hi Hpp].
    destruct (mCommit (bp s)) as [c|] eqn:Ec; [|done].
    destruct (core_commit _ Hc _ Ec) as (h & Eh & [_ V1]%less_compatible_true).
    destruct (core_high _ Hc _ Eh) as (cur & Ecur & [_ V2]%less_compatible_true).
    rewrite Eh, Ecur in *.
    apply wp_must; [done|]. intros ? [= <-]. wps.
    apply wp_must; [done|]. intros p Epr. wps.
    apply wp_must; [done|]. intros ? [= <-]. wps.
    apply wp_must; [done|]. intros ? [= <-]. wps.
    split; [done|]. split; [constructor; [done|by rewrite Ecur|by rewrite Epr]|].
    do 2 (split; [done|]). cbn. split; [|split; [by right|]].
    { split_and!; [by apply U1|by apply U2|by apply U5|by apply U4]. }
    split_and!; [done..|]. exists c. by rewrite V1.
  - destruct (Hph ltac:(done)) as [Hi Hpp].
    destruct (mCommit (bp s)) as [c|] eqn:Ec; [|done].
    destruct (core_commit _ Hc _ Ec) as (h & Eh & _). rewrite Eh in *.
    apply wp_must; [done|]. intros ? [= <-]. wps.
    apply wp_must; [done|]. intros ? [= <-]. wps.
    split; [done|]. split; [constructor; [done|done|by rewrite Ep]|].
    do 2 (split; [done|]). cbn. split; [split; [by apply U5|by apply U4]|].
    split; [by left|]. split; [done|]. by exists c.
Qed.

Lemma sendLatestEnvelope_spec (s : SlotState) :
  wp allowed sendLatestEnvelope (fun _ s' =>
    view (bp s') = view (bp s) /\ step s s') s.
Proof.
  unfold sendLatestEnvelope. wps.
  destruct (mLastEnvelope (bp s)) as [last|] eqn:El; [|by wps].
  wp_if Hl; [|by wps]. wp_if He; [|by wps].
  wps. split; [done|]. apply evolves_aside; proj; auto.
  - rewrite announced_app. cbn. by rewrite app_nil_r.
  - intros [V1 V2 V3 V4]. constructor; proj; try done. intros e.
    rewrite sent_app, elem_of_app. intros [?|Hin]; [by apply V3|].
    apply list_elem_of_omap in Hin as (x & ->%list_elem_of_singleton & Hx). cbn in Hx.
    enough (e = envelope last) as -> by by apply (V2 last).
    destruct (pledges _); congruence.
Qed.

(** ** Operations that feed statements back *)

Section self.
(** [processSelf] as the operations at nesting level [L] rely on it. *)
Context (processSelf : EnvelopeWrapper -> M EnvelopeState) (L : Z).
Context (Hself : forall e s, quiet (bp s) -> mCurrentMessageLevel (bp s) = L ->
  own_statement s (getStatement e) ->
  wp allowed (processSelf e) (fun r s' =>
    quiet (bp s') /\ step s s' /\ (r = VALID -> own s')) s).

Lemma own_view (s s' : SlotState) : view (bp s') = view (bp s) -> own s -> own s'.
Proof.
  unfold own, view. intros [= E1 E2 E3 E4 E5 E6 E7]. by rewrite E1, E6, E7.
Qed.

(** An emission ends in a quiet state. *)
Lemma emit_spec (s : SlotState) :
  core (bp s) -> mCurrentMessageLevel (bp s) = L ->
  wp allowed (emitCurrentStateStatement env processSelf) (fun _ s' =>
    quiet (bp s') /\ step s s' /\ own s') s.
Proof.
  intros Hc HL. unfold emitCurrentStateStatement. wps.
  eapply wp_mono; [by apply createStatement_spec|]. intros pl ? (-> & Hq & Hown). wps.
  wp_if Hsame; wps.
  { split; [done|]. split; [done|]. intros e He. rewrite He in Hsame. bprop.
    unfold getStatement. rewrite Hsame. destruct Hown as (_ & _ & _ & Ho & _). exact Ho. }
  apply wp_bind. unfold wrapEnvelope, wp at 1. cbv beta.
  set (s1 := set_nextPtr _ s). wps.
  eapply wp_mono; [apply Hself; [exact Hq | exact HL | exact Hown]|]. intros r s2 (Hq2 & Hst & Hr).
  assert (step s s2) as Hst2 by (etrans; [|exact Hst]; apply evolves_aside; auto; by apply voice_view).
  destruct (bool_decide_reflect (r = VALID)) as [->|]; [|by wps]. wps.
  destruct (_ && _); wps; [|auto].
  eapply wp_mono; [apply sendLatestEnvelope_spec|]. intros _ s3 [Hv Hst3].
  change (view (bp s3) = view (bp s2)) in Hv. split; [by eapply quiet_view|].
  split; [|by eapply own_view; [|auto]]. etrans; [exact Hst2|].
  etrans; [|exact Hst3]. apply evolves_aside; auto. intros [V1 V2 V3 V4].
  constructor; proj; try done. intros ? [= <-].
  exact (says_persists C s s2 _ (evolves_persists _ _ _ Hst2)
    (proj2 (proj2 (proj2 (proj2 Hown))))).
Qed.

(** ** The current ballot *)

Definition bumped (b : BallotState) (ballot : SCPBallot) : BallotState :=
  let keep := match mHighBallot b with Some h => areBallotsCompatible ballot h | None => true end in
  let same := match mCurrentBallot b with Some cur => counter cur =? counter ballot | None => false end in
  mkBallotState (mHeardFromQuorum b && same) (Some ballot) (mPrepared b) (mPreparedPrime b)
    (if keep then mHighBallot b else None) (if keep then mCommit b else None)
    (mLatestEnvelopes b) (mPhase b) (mValueOverride b) (mCurrentMessageLevel b)
    (mTimerExpCount b) (mLastEnvelope b) (mLastEnvelopeEmit b).

(** What a bump leaves alone besides the ballots. *)
Definition aside (s s' : SlotState) : Prop :=
  np s' = np s /\ mStatementsHistory s' = mStatementsHistory s /\
  announced (effects s') = announced (effects s) /\ sent (effects s') = sent (effects s) /\
  mLastEnvelope (bp s') = mLastEnvelope (bp s).

#[global] Instance aside_preorder : PreOrder aside.
Proof.
  split; [done|]. unfold aside. intros s1 s2 s3 (?&?&?&?&?) (?&?&?&?&?). split_and!; congruence.
Qed.

Lemma aside_effect (s : SlotState) (e : Effect) :
  announced [e] = [] -> sent [e] = [] -> aside s (set_effects (effects s ++ [e]) s).
Proof.
  intros H1 H2. split; [done|]. split; [done|]. proj.
  by rewrite announced_app, sent_app, H1, H2, !app_nil_r.
Qed.

Lemma bumpToBallot_spec (s : SlotState) (ballot : SCPBallot) (check : bool) :
  mPhase (bp s) <> SCP_PHASE_EXTERNALIZE ->
  (check = true -> cur_le (mCurrentBallot (bp s)) (Some ballot)) ->
  wp allowed (bumpToBallot env ballot check) (fun _ s' =>
    bp s' = bumped (bp s) ballot /\ aside s s') s.
Proof.
  intros Hp Hle. unfold bumpToBallot. wps.
  apply wp_check; [unfold isPhase; by rewrite bool_decide_false|]. wps.
  apply (wp_mono _ _ (fun _ s' => s' = s)).
  { destruct check; [|by wps]. apply wp_check; [|done].
    specialize (Hle eq_refl). destruct (mCurrentBallot (bp s)); simpl in *; [|done].
    apply Z.leb_le. rewrite compare_antisym. lia. }
  intros _ ? ->. wps.
  apply (wp_mono _ _ (fun _ s' => bp s' = bp s /\ aside s s')).
  { destruct (isSome _); wps; [done|]. split; [done|]. by apply aside_effect. }
  intros _ s1 (E1 & E2 & E3 & E4 & E5 & E6). wps. rewrite !E1. unfold bumped.
  destruct (mCurrentBallot (bp s)) as [cur|] eqn:Ecur;
    [destruct (counter cur =? counter ballot) eqn:Ec|];
    (destruct (mHighBallot (bp s)) as [h|] eqn:Eh;
      [destruct (areBallotsCompatible ballot h) eqn:Eco|]);
    wps; rewrite ?E1; (split; [|by split_and!]); destruct (bp s); proj; subst;
    by rewrite ?andb_true_r, ?andb_false_r.
Qed.

Lemma core_bumped (b : BallotState) (ballot : SCPBallot) :
  core b -> cur_le (mCurrentBallot b) (Some ballot) -> ballot_u32 ballot ->
  (mPhase b <> SCP_PHASE_PREPARE -> forall c, mCommit b = Some c -> value c = value ballot) ->
  core (bumped b ballot).
Proof.
  intros Hc Hle Hu Hv.
  set (keep := match mHighBallot b with Some h => areBallotsCompatible ballot h | None => true end).
  assert (forall c h, mCommit b = Some c -> mHighBallot b = Some h -> value c = value h) as Hch.
  { intros c h Ec Eh. destruct (core_commit _ Hc _ Ec) as (h' & Eh' & Hl).
    apply less_compatible_true in Hl as [_ ?]. congruence. }
  constructor; unfold bumped; fold keep; proj; try apply Hc.
  - by intros ? [= <-].
  - destruct keep; [apply Hc|done].
  - destruct keep; [apply Hc|done].
  - intros h Eh. exists ballot. split; [done|]. unfold keep in Eh.
    destruct (mHighBallot b) as [h0|] eqn:Eh0; [|done].
    destruct (areBallotsCompatible ballot h0) eqn:Eco; [|done]. injection Eh as <-.
    apply less_compatible_true. apply compatible_true in Eco. split; [|done].
    destruct (core_high _ Hc _ Eh0) as (cur & Ecur & [Hl _]%less_compatible_true).
    rewrite Ecur in Hle. by eapply compare_le_trans.
  - destruct keep; [apply Hc|done].
  - intros Hp. destruct (core_phase _ Hc Hp) as [Hi Hpp]. split; [|done].
    enough (keep = true) as -> by done. unfold keep.
    destruct (mHighBallot b) as [h|] eqn:Eh; [|done]. apply compatible_true.
    destruct (mCommit b) as [c|] eqn:Ec; [|done].
    rewrite <- (Hv Hp c eq_refl). by apply Hch.
Qed.

Lemma bumped_step (s s' : SlotState) (ballot : SCPBallot) :
  mPhase (bp s) <> SCP_PHASE_EXTERNALIZE -> core (bp s') ->
  bp s' = bumped (bp s) ballot -> cur_le (mCurrentBallot (bp s)) (Some ballot) ->
  aside s s' -> step s s'.
Proof.
  intros Hp Hc' E Hle (H1 & H2 & H3 & H4 & H5).
  assert (mPhase (bp s') = mPhase (bp s)) as Ep by by rewrite E.
  apply evolves_local; try done.
  - by rewrite Ep.
  - by rewrite Ep.
  - intros _. by rewrite E.
  - intros c Hc0 Hc1. destruct (core_phase _ Hc') as [Hi _]; [by rewrite Ep|].
    rewrite E in Hi |- *. unfold bumped in *. proj.
    case_match; [by exists c|done].
  - by rewrite E.
  - by rewrite E.
Qed.

Lemma updateCurrentIfNeeded_spec (s : SlotState) (h : SCPBallot) :
  mPhase (bp s) <> SCP_PHASE_EXTERNALIZE ->
  wp allowed (updateCurrentIfNeeded env h) (fun r s' =>
    if r then bp s' = bumped (bp s) h /\ cur_le (mCurrentBallot (bp s)) (Some h) /\ aside s s'
    else s' = s /\ exists cur, mCurrentBallot (bp s) = Some cur /\ compareBallots h cur <= 0) s.
Proof.
  intros Hp. unfold updateCurrentIfNeeded. wps. wp_if Hn; wps.
  - assert (cur_le (mCurrentBallot (bp s)) (Some h)) as Hle.
    { destruct (mCurrentBallot (bp s)); simpl in *; [|done]. bprop. lia. }
    eapply wp_mono; [by apply bumpToBallot_spec|]. intros _ s' (E & ?). by wps.
  - split; [done|]. destruct (mCurrentBallot (bp s)) as [cur|]; [|done]. exists cur.
    split; [done|]. bprop. rewrite compare_antisym. lia.
Qed.

Lemma updateCurrentValue_spec (s : SlotState) (ballot : SCPBallot) :
  core (bp s) -> ballot_u32 ballot -> cur_le (mCurrentBallot (bp s)) (Some ballot) ->
  wp allowed (updateCurrentValue env ballot) (fun r s' =>
    if r then core (bp s') /\ step s s' /\ mCurrentBallot (bp s') = Some ballot /\
      mPhase (bp s') = mPhase (bp s) /\ mPhase (bp s) <> SCP_PHASE_EXTERNALIZE
    else s' = s) s.
Proof.
  intros Hc Hu Hle. unfold updateCurrentValue. wps. wp_if Hph; wps; [done|].
  assert (mPhase (bp s) <> SCP_PHASE_EXTERNALIZE) as Hp by by destruct (mPhase (bp s)).
  assert (forall (H : forall c, mCommit (bp s) = Some c -> value c = value ballot),
    wp allowed (bumpToBallot env ballot true ;;! checkInvariants ;;! ret true) (fun r s' =>
      if r then core (bp s') /\ step s s' /\ mCurrentBallot (bp s') = Some ballot /\
        mPhase (bp s') = mPhase (bp s) /\ mPhase (bp s) <> SCP_PHASE_EXTERNALIZE
      else s' = s) s) as Hbump.
  { intros Hv. wps. eapply wp_mono; [by apply bumpToBallot_spec|]. intros _ s1 (E & Ha).
    assert (core (bp s1)) as Hc1 by (rewrite E; by apply core_bumped). wps.
    eapply wp_mono; [by apply checkInvariants_spec|]. intros _ ? [-> _]. wps.
    split; [done|]. split; [by eapply bumped_step|]. by rewrite E. }
  destruct (mCurrentBallot (bp s)) as [cur|] eqn:Ecur.
  - wps. apply wp_check; [by apply Z.leb_le|]. wps. wp_if Hcomm; wps; [done|].
    wp_if Hlt.
    + apply Hbump. intros c Ec. rewrite Ec in Hcomm. bprop. by apply compatible_true.
    + wp_if Hgt; wps; [done|].
      eapply wp_mono; [by apply checkInvariants_spec|]. intros _ ? [-> _]. by wps.
  - apply Hbump. intros c (h & (? & ? & _)%(core_high _ Hc) & _)%(core_commit _ Hc). congruence.
Qed.

Lemma startBallotProtocolTimer_spec (s : SlotState) :
  isSome (mCurrentBallot (bp s)) = true ->
  wp allowed (startBallotProtocolTimer env) (fun _ s' => bp s' = bp s /\ aside s s') s.
Proof.
  intros Hi. unfold startBallotProtocolTimer. wps.
  apply wp_must; [by intros E; rewrite E in Hi|]. intros cur _. wps.
  split; [done|]. by apply aside_effect.
Qed.

Lemma stopBallotProtocolTimer_spec (s : SlotState) :
  wp allowed (stopBallotProtocolTimer env) (fun _ s' => bp s' = bp s /\ aside s s') s.
Proof.
  unfold stopBallotProtocolTimer. wps. split; [done|]. by apply aside_effect.
Qed.


Lemma aside_step (s s' : SlotState) :
  view (bp s') = view (bp s) -> mCurrentMessageLevel (bp s') = mCurrentMessageLevel (bp s) ->
  aside s s' -> step s s'.
Proof.
  intros H1 H2 (? & ? & ? & ? & ?). apply evolves_aside; auto. by apply voice_view.
Qed.

Lemma checkHeardFromQuorum_spec (s : SlotState) :
  wp allowed (checkHeardFromQuorum env) (fun _ s' => view (bp s') = view (bp s) /\ step s s') s.
Proof.
  set (Q := fun (_ : unit) s' => view (bp s') = view (bp s) /\
    mCurrentMessageLevel (bp s') = mCurrentMessageLevel (bp s) /\ aside s s').
  apply (wp_mono _ _ Q); [|intros _ s' (?&?&?); split; [done|by apply aside_step]].
  unfold checkHeardFromQuorum. wps.
  destruct (mCurrentBallot (bp s)) as [cur|] eqn:Ecur; wps; [|done].
  wp_if Hq; wps.
  2:{ eapply wp_mono; [apply stopBallotProtocolTimer_spec|]. intros [] s2 [E Ha].
      unfold Q. rewrite E. split; [done|]. split; [done|]. by etrans; [|exact Ha]. }
  set (s1 := set_bp _ s). assert (Q tt s1) as HQ1 by done. clearbody s1.
  apply (wp_mono _ _ (fun _ s' => Q tt s')).
  - wp_if Ho; wps; [|done]. set (s2 := set_effects _ s1).
    assert (Q tt s2) as HQ2.
    { destruct HQ1 as (?&?&?). split; [done|]. split; [done|]. etrans; [done|].
      by apply aside_effect. }
    clearbody s2. wp_if Hp; wps; [|done].
    eapply wp_mono; [apply startBallotProtocolTimer_spec|].
    { destruct HQ2 as ([= -> _ _ _ _ _ _] & _ & _). by rewrite Ecur. }
    intros [] s3 [E Ha]. destruct HQ2 as (?&?&?). unfold Q. rewrite E.
    split; [done|]. split; [done|]. by etrans.
  - intros [] s2 HQ2. wps. wp_if Hp; wps; [|done].
    eapply wp_mono; [apply stopBallotProtocolTimer_spec|].
    intros [] s3 [E Ha]. destruct HQ2 as (?&?&?). unfold Q. rewrite E.
    split; [done|]. split; [done|]. by etrans.
Qed.

(** The outcome of an operation that reports whether it did something. *)
Definition worked (s : SlotState) (r : bool) (s' : SlotState) : Prop :=
  quiet (bp s') /\ step s s' /\ (own s \/ r = true -> own s').

Lemma worked_nothing (s : SlotState) : quiet (bp s) -> worked s false s.
Proof. intros Hq. split; [done|]. split; [done|]. by intros [?|?]. Qed.

(** Bumping to counter [n]: it succeeds with [b] at [n] or beyond, unless the
    phase changed on the way. *)
Lemma bumpState_n_spec (s : SlotState) (val : Value) (n : Z) :
  quiet (bp s) -> mCurrentMessageLevel (bp s) = L -> is_u32 n ->
  (forall cur, mCurrentBallot (bp s) = Some cur -> counter cur < n) ->
  wp allowed (bumpState_n env processSelf val n) (fun r s' => worked s r s' /\
    (r = true -> (mPhase (bp s) = SCP_PHASE_PREPARE -> mPhase (bp s') = SCP_PHASE_PREPARE) ->
     n <= curCounter (mCurrentBallot (bp s')))) s.
Proof.
  intros Hq HL Hn Hlt. unfold bumpState_n. wps.
  wp_if Hph; wps; [split; [by apply worked_nothing|done]|].
  set (newb := mkBallot n _).
  eapply wp_mono; [apply updateCurrentValue_spec; [apply Hq|done|]|].
  { destruct (mCurrentBallot (bp s)) as [cur|]; simpl; [|done]. specialize (Hlt _ eq_refl).
    unfold compareBallots, newb; simpl. by rewrite (proj2 (Z.ltb_lt _ _)). }
  intros [] s1; cycle 1.
  { intros ->. wps. split; [by apply worked_nothing|done]. }
  intros (Hc1 & Hst1 & Ecur & Ep & Hne). wps.
  eapply wp_mono; [apply emit_spec; [done|by rewrite (ev_level _ _ _ Hst1)]|].
  intros _ s2 (Hq2 & Hst2 & Ho2). wps.
  eapply wp_mono; [apply checkHeardFromQuorum_spec|]. intros _ s3 [Hv Hst3]. wps.
  assert (quiet (bp s3)) as Hq3 by by eapply quiet_view.
  split.
  - split; [done|]. split; [by etrans; [|etrans]|]. intros _. by eapply own_view.
  - intros _ Hp. assert (step s1 s3) as Hst by by etrans.
    change n with (curCounter (Some newb)). rewrite <- Ecur.
    apply cur_le_counter; [|apply Hq3]. apply Hst. by rewrite Ep.
Qed.

Lemma bumpState_spec (s : SlotState) (val : Value) (force : bool) :
  quiet (bp s) -> mCurrentMessageLevel (bp s) = L ->
  curCounter (mCurrentBallot (bp s)) < UINT32_MAX ->
  wp allowed (bumpState env processSelf val force) (worked s) s.
Proof.
  intros Hq HL Hmax. unfold bumpState. wps. wp_if Hf; wps; [by apply worked_nothing|].
  pose proof (core_cur_u32 _ (quiet_core _ Hq)) as Hu.
  eapply wp_mono; [apply bumpState_n_spec; try done|by intros r s' []].
  - destruct (mCurrentBallot (bp s)); auto with kin. unfold_ints; lia.
  - intros cur Ecur. rewrite Ecur in *. specialize (Hu _ eq_refl). unfold ballot_u32 in Hu.
    simpl in Hmax. rewrite u32_id; unfold_ints; lia.
Qed.

Lemma abandonBallot_spec (s : SlotState) (n : Z) :
  quiet (bp s) -> mCurrentMessageLevel (bp s) = L -> is_u32 n -> n <> 0 ->
  (forall cur, mCurrentBallot (bp s) = Some cur -> counter cur < n) ->
  wp allowed (abandonBallot env processSelf n) (fun r s' => worked s r s' /\
    (r = true -> (mPhase (bp s) = SCP_PHASE_PREPARE -> mPhase (bp s') = SCP_PHASE_PREPARE) ->
     n <= curCounter (mCurrentBallot (bp s')))) s.
Proof.
  intros Hq HL Hn Hz Hlt. unfold abandonBallot, getLatestCompositeCandidate, nget. wps.
  assert (n =? 0 = false) as -> by by apply Z.eqb_neq.
  match goal with |- wp _ (match ?v with _ => _ end) _ _ => destruct v as [[|x val]|] end;
    try (wps; split; [by apply worked_nothing|done]).
  by apply bumpState_n_spec.
Qed.

(** The timer and the outside caller use counter [0]: the next one. *)
Lemma abandonBallot_next_spec (s : SlotState) :
  quiet (bp s) -> mCurrentMessageLevel (bp s) = L ->
  curCounter (mCurrentBallot (bp s)) < UINT32_MAX ->
  wp allowed (abandonBallot env processSelf 0) (worked s) s.
Proof.
  intros Hq HL Hlt. unfold abandonBallot, getLatestCompositeCandidate, nget. wps.
  match goal with |- wp _ (match ?v with _ => _ end) _ _ => destruct v as [[|x val]|] end;
    try (wps; by apply worked_nothing).
  by apply bumpState_spec.
Qed.

(** ** Accepting prepared *)

(** A step that only changes [p] and [p']. *)
Lemma prepared_step (s s' : SlotState) :
  mPhase (bp s) <> SCP_PHASE_EXTERNALIZE ->
  mPhase (bp s') = mPhase (bp s) -> mCurrentBallot (bp s') = mCurrentBallot (bp s) ->
  (mPhase (bp s) <> SCP_PHASE_PREPARE -> mCommit (bp s') = mCommit (bp s)) ->
  mLatestEnvelopes (bp s') = mLatestEnvelopes (bp s) ->
  mCurrentMessageLevel (bp s') = mCurrentMessageLevel (bp s) ->
  aside s s' -> step s s'.
Proof.
  intros H0 H1 H2 H3 H4 H5 (H6 & H7 & H8 & H9 & H10). apply evolves_local; try done.
  - by rewrite H1.
  - by rewrite H1.
  - intros _. by rewrite H2.
  - intros c Hp Hc. exists c. by rewrite H3.
Qed.

(** A ballot that may be accepted as prepared: [p] does not cover it, and in
    the CONFIRM phase it extends [p] and has the value of the commit. *)
Definition preparable (b : BallotState) (ballot : SCPBallot) : Prop :=
  ballot_u32 ballot /\ mPhase b <> SCP_PHASE_EXTERNALIZE /\
  forall p, mPrepared b = Some p ->
    areBallotsLessAndCompatible ballot p = false /\
    (mPhase b = SCP_PHASE_CONFIRM -> areBallotsLessAndCompatible p ballot = true).

Lemma setPrepared_spec (s : SlotState) (ballot : SCPBallot) :
  core (bp s) -> preparable (bp s) ballot ->
  wp allowed (setPrepared ballot) (fun r s' =>
    if r then
      core (bp s') /\ step s s' /\ mPhase (bp s') = mPhase (bp s) /\
      mCommit (bp s') = mCommit (bp s) /\ mHighBallot (bp s') = mHighBallot (bp s) /\
      (mPhase (bp s) = SCP_PHASE_CONFIRM -> forall p, mPrepared (bp s') = Some p ->
       value p = value ballot)
    else s' = s) s.
Proof.
  intros Hc (Hu & Hne & Hpr). unfold setPrepared. wps.
  pose proof (core_phase _ Hc) as Hph. pose proof (core_prime _ Hc) as Hpp.
  destruct (mPrepared (bp s)) as [p|] eqn:Ep; cycle 1.
  { wps. split; [|split; [by apply prepared_step|split_and!; try done; by intros _ ? [= <-]]].
    constructor; proj; try apply Hc; [by intros ? [= <-]|].
    intros pp Epp. by destruct (Hpp _ Epp) as (? & ? & _). }
  destruct (Hpr _ eq_refl) as [Hcov Hconf]. wp_if Hlt; bprop.
  - apply wp_bind.
    apply (wp_mono _ _ (fun _ s1 => (areBallotsCompatible p ballot = true /\ s1 = s) \/
      (areBallotsCompatible p ballot = false /\ s1 = set_bp (set_mPreparedPrime (Some p) (bp s)) s))).
    { wp_if Hco; wps; bprop; auto. }
    intros _ s1 Hs1. wps.
    assert (mPhase (bp s) = SCP_PHASE_CONFIRM -> areBallotsCompatible p ballot = true) as Hcc.
    { intros E. apply compatible_true. by apply Hconf, less_compatible_true in E as [_ ?]. }
    destruct Hs1 as [[Hco ->]|[Hco ->]]; proj;
      (split; [|split; [by apply prepared_step|split_and!; try done; by intros _ ? [= <-]]]).
    + constructor; proj; try apply Hc; [by intros ? [= <-]|].
      intros pp Epp. exists ballot. split; [done|]. destruct (Hpp _ Epp) as (? & [= <-] & Hl).
      apply less_incompatible_true in Hl as [Hl Hv]. apply compatible_true in Hco.
      apply less_incompatible_true. split; [|congruence].
      eapply compare_le_trans; [done|lia].
    + constructor; proj; try apply Hc; [by intros ? [= <-]| |  |].
      * rewrite <- Ep. apply Hc.
      * intros ? [= <-]. exists ballot. split; [done|]. apply less_incompatible_true.
        split; [lia|by apply compatible_false].
      * intros Hn. destruct (mPhase (bp s)); [done| |done]. by rewrite Hcc in Hco.
  - wp_if Hgt; wps; [|done]. wp_if Hpr'; wps; [|done]. bprop.
    assert (compareBallots ballot p < 0) as Hbp by (rewrite compare_antisym; lia).
    assert (value ballot <> value p) as Hv.
    { intros Hv. apply not_true_iff_false in Hcov. apply Hcov, less_compatible_true.
      split; [lia|done]. }
    assert (mPhase (bp s) <> SCP_PHASE_CONFIRM) as Hnc.
    { intros E. apply Hconf, less_compatible_true in E as [? ?]. lia. }
    split; [|split; [by apply prepared_step|by split_and!]].
    constructor; proj; try apply Hc; [by intros ? [= <-]| |].
    + intros ? [= <-]. exists p. split; [done|]. apply less_incompatible_true. split; [lia|done].
    + by destruct (mPhase (bp s)).
Qed.

Lemma emit_worked (s s1 : SlotState) :
  mCurrentMessageLevel (bp s) = L -> core (bp s1) -> step s s1 ->
  wp allowed (emitCurrentStateStatement env processSelf) (fun _ s2 => worked s true s2) s1.
Proof.
  intros HL Hc Hst. eapply wp_mono; [apply emit_spec; [done|by rewrite (ev_level _ _ _ Hst)]|].
  intros _ s2 (Hq & Hst2 & Ho). split; [done|]. split; [by etrans|done].
Qed.

Lemma step_effect (s : SlotState) (e : Effect) :
  announced [e] = [] -> sent [e] = [] -> step s (set_effects (effects s ++ [e]) s).
Proof. intros. by apply aside_step, aside_effect. Qed.

Lemma less_incompatible_false (b1 b2 : SCPBallot) :
  value b1 = value b2 -> areBallotsLessAndIncompatible b1 b2 = false.
Proof.
  intros E. apply not_true_iff_false. by intros [_ ?]%less_incompatible_true.
Qed.

Lemma setAcceptPrepared_spec (s : SlotState) (ballot : SCPBallot) :
  quiet (bp s) -> mCurrentMessageLevel (bp s) = L -> preparable (bp s) ballot ->
  (mPhase (bp s) = SCP_PHASE_CONFIRM -> forall c, mCommit (bp s) = Some c -> value c = value ballot) ->
  wp allowed (setAcceptPrepared env processSelf ballot) (worked s) s.
Proof.
  intros Hq HL Hpr Hcm. unfold setAcceptPrepared. wps.
  eapply wp_mono; [apply setPrepared_spec; [apply Hq|done]|].
  intros r s1 Hr.
  assert (core (bp s1) /\ step s s1 /\ mPhase (bp s1) = mPhase (bp s) /\
    mCommit (bp s1) = mCommit (bp s) /\ mHighBallot (bp s1) = mHighBallot (bp s) /\
    (mPhase (bp s) = SCP_PHASE_CONFIRM -> forall p, mPrepared (bp s1) = Some p ->
     r = true -> value p = value ballot) /\ (r = false -> s1 = s))
    as (Hc1 & Hst1 & Ep & Ec & Eh & Hv & Hf).
  { destruct r; [naive_solver|]. subst. split; [apply Hq|]. by split_and!. }
  clear Hr. wps.
  apply (wp_mono _ _ (fun d s2 => core (bp s2) /\ step s s2 /\ (d = false -> s2 = s))).
  - destruct (mCommit (bp s1)) as [c|] eqn:Ec1; [|wps; auto].
    destruct (mHighBallot (bp s1)) as [h|] eqn:Eh1; [|wps; auto].
    wp_if Hcl; [|wps; auto]. wps.
    assert (mPhase (bp s1) = SCP_PHASE_PREPARE) as Ep1.
    { destruct (mPhase (bp s1)) eqn:E1; [done| |by destruct Hpr as (_ & ? & _)].
      exfalso. destruct (core_phase _ Hc1) as [_ Epp]; [by rewrite E1|]. rewrite Epp in Hcl.
      rewrite orb_false_r in Hcl. destruct (mPrepared (bp s1)) as [p|] eqn:Epr; [|done].
      destruct (core_commit _ Hc1 _ Ec1) as (? & [= <-]%(eq_trans (eq_sym Eh1)) & Hl).
      apply less_compatible_true in Hl as [_ Hl].
      destruct r.
      - rewrite less_incompatible_false in Hcl; [done|].
        rewrite (Hv ltac:(congruence) p eq_refl eq_refl), <- Hl. by apply Hcm; congruence.
      - destruct Hpr as (_ & _ & Hpr). specialize (Hf eq_refl). subst s1.
        destruct (Hpr _ Epr) as [_ Hpv]. specialize (Hpv E1).
        apply less_compatible_true in Hpv as [_ Hpv].
        rewrite less_incompatible_false in Hcl; [done|].
        rewrite Hpv, <- Hl. by apply Hcm; congruence. }
    apply wp_check; [unfold isPhase; by rewrite bool_decide_true|]. wps.
    split; [|split; [|done]].
    + constructor; proj; try apply Hc1; done.
    + etrans; [exact Hst1|]. apply prepared_step; proj; try done; rewrite Ep1; done.
  - intros d s2 (Hc2 & Hst2 & Hd). wps. destruct d; wps.
    + eapply wp_mono; [apply emit_worked with (s := s); [done|done|]|by intros; wps].
      etrans; [exact Hst2|by apply step_effect].
    + rewrite Hd by done. by apply worked_nothing.
Qed.

Lemma acceptPrepared_loop_spec (s : SlotState) (l : list SCPBallot) :
  quiet (bp s) -> mCurrentMessageLevel (bp s) = L ->
  mPhase (bp s) <> SCP_PHASE_EXTERNALIZE -> (forall b, b ∈ l -> ballot_u32 b) ->
  wp allowed (acceptPrepared_loop env processSelf l) (worked s) s.
Proof.
  intros Hq HL Hne Hu. induction l as [|ballot l IH]; simpl.
  { wps. by apply worked_nothing. }
  assert (wp allowed (acceptPrepared_loop env processSelf l) (worked s) s) as Hrest.
  { apply IH. intros b Hb. apply Hu. set_solver. }
  wps. apply (wp_mono _ _ (fun skip s' => s' = s /\ (skip = false ->
    mPhase (bp s) = SCP_PHASE_CONFIRM -> (forall p, mPrepared (bp s) = Some p ->
      areBallotsLessAndCompatible p ballot = true) /\
      forall c, mCommit (bp s) = Some c -> value c = value ballot))).
  { unfold isPhase. wp_if Hp; wps; bprop; [|done].
    apply wp_must; [done|]. intros p Ep. wp_if Hl; wps; [done|].
    destruct (core_phase _ (quiet_core _ Hq)) as [Hi _]; [by rewrite Hp|].
    apply wp_must; [by intros E; rewrite E in Hi|]. intros c Ec. wps.
    apply wp_check_or; [done|]. intros Hco%compatible_true. wps. split; [done|].
    intros _ _. bprop. rewrite Ep, Ec. split; by intros ? [= <-]. }
  intros skip ? [-> Hskip]. wps. destruct skip; [done|]. specialize (Hskip eq_refl).
  wp_if Hpp; [done|]. wp_if Hcov; [done|]. wp_if Hacc; [|done].
  apply setAcceptPrepared_spec; try done.
  - split; [apply Hu; set_solver|]. split; [done|]. intros p Ep. rewrite Ep in Hcov.
    split; [done|]. intros E. by apply Hskip.
  - intros E. by apply Hskip.
Qed.

Lemma attemptAcceptPrepared_spec (s : SlotState) (hint : SCPStatement) :
  quiet (bp s) -> mCurrentMessageLevel (bp s) = L -> ballot_statement hint ->
  wp allowed (attemptAcceptPrepared env processSelf hint) (worked s) s.
Proof.
  intros Hq HL Hh. unfold attemptAcceptPrepared. wps.
  wp_if Hp; wps; [by apply worked_nothing|].
  apply acceptPrepared_loop_spec; try done; [by destruct (mPhase (bp s))|].
  intros b. rewrite list_elem_of_In, <- in_rev, <- list_elem_of_In.
  apply getPrepareCandidates_u32; [apply Hq|done].
Qed.

(** ** Confirming prepared *)

(** The state after [h] (and possibly [c]) are set, before [b] follows. *)
Definition raised (s : SlotState) (h : SCPBallot) (s' : SlotState) : Prop :=
  mPrepared (bp s') = mPrepared (bp s) /\
  mLatestEnvelopes (bp s') = mLatestEnvelopes (bp s) /\
  mCurrentMessageLevel (bp s') = mCurrentMessageLevel (bp s) /\ aside s s' /\
  mHighBallot (bp s') = Some h /\
  forall c, mCommit (bp s') = Some c -> ballot_u32 c /\ areBallotsLessAndCompatible c h = true.

(** Once [b] has followed [h], the invariant is back. *)
Lemma core_raised (s s1 : SlotState) (b2 : BallotState) (h cur : SCPBallot) :
  core (bp s) -> raised s h s1 -> ballot_u32 h -> ballot_u32 cur ->
  areBallotsLessAndCompatible h cur = true ->
  mCurrentBallot b2 = Some cur -> mHighBallot b2 = Some h -> mCommit b2 = mCommit (bp s1) ->
  mPrepared b2 = mPrepared (bp s1) -> mLatestEnvelopes b2 = mLatestEnvelopes (bp s1) ->
  (mPhase b2 = SCP_PHASE_PREPARE /\ mPreparedPrime b2 = mPreparedPrime (bp s) \/
   mPreparedPrime b2 = None /\ isSome (mCommit b2) = true) ->
  core b2.
Proof.
  intros Hc (E2 & E3 & E4 & Ha & Eh & Hcm) Hu Hu' Hl F1 F2 F3 F4 F5 F6.
  constructor; rewrite ?F1, ?F2, ?F3, ?F4, ?F5, ?E2, ?E3; try apply Hc.
  - by intros ? [= <-].
  - destruct F6 as [[_ ->]|[-> _]]; [apply Hc|done].
  - by intros ? [= <-].
  - intros c Ec. by apply Hcm.
  - destruct F6 as [[_ ->]|[-> _]]; [apply Hc|done].
  - intros ? [= <-]. by exists cur.
  - intros c Ec. exists h. split; [done|]. by apply Hcm.
  - intros Hp. destruct F6 as [[? _]|[? ?]]; [done|]. by rewrite <- F3.
Qed.

Lemma bumped_raised (b : BallotState) (h : SCPBallot) :
  mHighBallot b = Some h ->
  mHighBallot (bumped b h) = Some h /\ mCommit (bumped b h) = mCommit b.
Proof.
  intros E. unfold bumped. proj. rewrite E.
  assert (areBallotsCompatible h h = true) as -> by by apply compatible_true. done.
Qed.

Lemma less_compatible_refl (b : SCPBallot) : areBallotsLessAndCompatible b b = true.
Proof. apply less_compatible_true. by rewrite compare_refl. Qed.

(** [setConfirmPrepared] up to the emission: both [h] and [b] are set. *)
Lemma raise_step (s s1 : SlotState) (h : SCPBallot) :
  core (bp s) -> raised s h s1 -> ballot_u32 h ->
  mPhase (bp s) = SCP_PHASE_PREPARE -> mPhase (bp s1) = SCP_PHASE_PREPARE ->
  mPreparedPrime (bp s1) = mPreparedPrime (bp s) ->
  mCurrentBallot (bp s1) = mCurrentBallot (bp s) ->
  (forall cur, mCurrentBallot (bp s) = Some cur -> value cur = value h) ->
  wp allowed (updateCurrentIfNeeded env h) (fun _ s2 => core (bp s2) /\ step s s2) s1.
Proof.
  intros Hc Hr Hu Ep Ep1 Epp E1 Hv. pose proof Hr as (E2 & E3 & E4 & Ha & Eh & Hcm).
  assert (step s s1) as Hst.
  { destruct Ha as (?&?&?&?&?). apply evolves_local; rewrite ?Ep1, ?Ep, ?E1; done. }
  eapply wp_mono; [apply updateCurrentIfNeeded_spec; by rewrite Ep1|].
  intros [] s2.
  - intros (Eb & Hle & Ha2). destruct (bumped_raised _ _ Eh) as [F2 F3]. rewrite <- Eb in *.
    assert (core (bp s2)) as Hc2.
    { eapply core_raised with (cur := h); try done; try (rewrite Eb; done).
      { apply less_compatible_refl. }
      left. rewrite Eb. unfold bumped. proj. by rewrite Epp. }
    split; [done|]. etrans; [exact Hst|]. eapply bumped_step; try done. by rewrite Ep1.
  - intros (-> & cur & Ecur & Hle). split; [|done].
    eapply core_raised with (cur := cur); try done.
    + apply (core_cur_u32 _ Hc). by rewrite <- E1.
    + apply less_compatible_true. split; [done|]. symmetry. apply Hv. by rewrite <- E1.
    + by left.
Qed.

Lemma setConfirmPrepared_spec (s : SlotState) (newC newH : SCPBallot) :
  quiet (bp s) -> mCurrentMessageLevel (bp s) = L -> mPhase (bp s) = SCP_PHASE_PREPARE ->
  ballot_u32 newH -> (forall h, mHighBallot (bp s) = Some h -> compareBallots h newH < 0) ->
  (counter newC <> 0 -> mCommit (bp s) = None /\ ballot_u32 newC /\
    areBallotsLessAndCompatible newC newH = true) ->
  wp allowed (setConfirmPrepared env processSelf newC newH) (worked s) s.
Proof.
  intros Hq HL Ep Hu Hh HC. unfold setConfirmPrepared. wps.
  assert (match mHighBallot (bp s) with Some h => 0 <? compareBallots newH h | None => true end
    = true) as Hraise.
  { destruct (mHighBallot (bp s)) as [h|]; [|done]. specialize (Hh _ eq_refl).
    apply Z.ltb_lt. rewrite compare_antisym. lia. }
  wp_if Hco; wps.
  - (* b is compatible *)
    assert (forall cur, mCurrentBallot (bp s) = Some cur -> value cur = value newH) as Hv.
    { intros cur Ecur. rewrite Ecur in Hco. by apply compatible_true. }
    rewrite Hraise. wps. set (s1 := set_bp _ s).
    apply (wp_mono _ _ (fun d s2 => d = true /\ raised s newH s2 /\
      mPhase (bp s2) = SCP_PHASE_PREPARE /\ mPreparedPrime (bp s2) = mPreparedPrime (bp s) /\
      mCurrentBallot (bp s2) = mCurrentBallot (bp s))).
    { wp_if Hz; wps.
      - bprop. destruct (HC Hz) as (Ecm & Huc & Hlc).
        apply wp_check; [by rewrite Ecm|]. wps. split; [done|]. split; [|done].
        split_and!; try done. by intros ? [= <-].
      - split; [done|]. split; [|done]. split_and!; try done. intros c Ec.
        split; [by apply (core_commit_u32 _ (quiet_core _ Hq))|].
        destruct (core_commit _ (quiet_core _ Hq) _ Ec) as (h & Eh & Hl).
        destruct (core_high _ (quiet_core _ Hq) _ Eh) as (cur & Ecur & Hl').
        apply less_compatible_true in Hl as [? ?]. apply less_compatible_true in Hl' as [? ?].
        apply less_compatible_true. split; [|specialize (Hv _ Ecur); congruence].
        eapply compare_le_trans; [done|]. specialize (Hh _ Eh). lia. }
    intros d s2 (-> & Hr & Ep2 & Epp2 & Ecur2). wps.
    eapply wp_mono; [apply (raise_step s); try done; [apply Hq|]|].
    { destruct Hr as (?&?&?&?&?&?). split_and!; try done. etrans; [done|by apply aside_effect]. }
    intros bumped s3 [Hc3 Hst3]. wps. rewrite orb_true_r. wps.
    eapply wp_mono; [by apply emit_worked|]. by intros; wps.
  - (* b is not compatible: h and c are left alone *)
    set (s1 := set_bp _ s). assert (mPhase (bp s1) = SCP_PHASE_PREPARE) as Ep1 by done.
    eapply wp_mono; [apply updateCurrentIfNeeded_spec; by rewrite Ep1|].
    intros [] s2; cycle 1.
    { intros [-> _]. wps. split; [apply quiet_view with (bp s); [done|exact Hq]|].
      split; [by apply aside_step|]. by intros [?|?]. }
    intros (Eb & Hle & Ha). wps.
    assert (core (bp s2)) as Hc2.
    { rewrite Eb. apply core_bumped; try done. apply (core_view (bp s)); [done|apply Hq]. }
    eapply wp_mono; [apply emit_worked with (s := s); try done|by intros; wps].
    etrans; [by apply (aside_step _ s1)|]. eapply bumped_step; try done. by rewrite Ep1.
Qed.

Lemma attemptConfirmPrepared_spec (s : SlotState) (hint : SCPStatement) :
  quiet (bp s) -> mCurrentMessageLevel (bp s) = L -> ballot_statement hint ->
  wp allowed (attemptConfirmPrepared env processSelf hint) (worked s) s.
Proof.
  intros Hq HL Hst. unfold attemptConfirmPrepared, isPhase. wps.
  wp_if Hp; wps; [by apply worked_nothing|]. bprop.
  wp_if Hpr; wps; [by apply worked_nothing|].
  destruct (find_newH _ _ _) as [[newH cur]|] eqn:EH; [|wps; by apply worked_nothing].
  apply find_newH_spec in EH as (Hin & Hrat & Hsub & Hh).
  assert (forall b, b ∈ rev (getPrepareCandidates (bp s) hint) -> ballot_u32 b) as Hu.
  { intros b. rewrite list_elem_of_In, <- in_rev, <- list_elem_of_In.
    apply getPrepareCandidates_u32; [apply Hq|done]. }
  apply setConfirmPrepared_spec; try done; [by apply Hu|].
  match goal with |- context [if ?g then _ else _] => destruct g eqn:Hg end; [|done].
  bprop. intros Hz. split; [by destruct (mCommit (bp s))|].
  match goal with |- context [find_newC ?b ?h ?c ?r ?l] =>
    destruct (find_newC_spec b h c r l) as [E|(Hin' & Hl & _)] end; [by rewrite E in Hz|].
  split; [|done]. apply Hu. set_solver.
Qed.

(** ** Accepting and confirming commit *)

(** In the CONFIRM phase, [b] follows [h]. *)
Lemma confirm_step (s s1 : SlotState) (h : SCPBallot) :
  core (bp s) -> raised s h s1 -> ballot_u32 h -> step s s1 ->
  mPhase (bp s1) = SCP_PHASE_CONFIRM -> mPreparedPrime (bp s1) = None ->
  isSome (mCommit (bp s1)) = true ->
  (forall cur, mCurrentBallot (bp s1) = Some cur -> ballot_u32 cur /\ value cur = value h) ->
  wp allowed (updateCurrentIfNeeded env h) (fun _ s2 => core (bp s2) /\ step s s2 /\
    mPhase (bp s2) = SCP_PHASE_CONFIRM /\ mCommit (bp s2) = mCommit (bp s1) /\
    mHighBallot (bp s2) = Some h) s1.
Proof.
  intros Hc Hr Hu Hst Ep1 Epp Hi Hcur. pose proof Hr as (E2 & E3 & E4 & Ha & Eh & Hcm).
  eapply wp_mono; [apply updateCurrentIfNeeded_spec; by rewrite Ep1|].
  intros [] s2.
  - intros (Eb & Hle & Ha2). destruct (bumped_raised _ _ Eh) as [F2 F3]. rewrite <- Eb in *.
    assert (core (bp s2)) as Hc2.
    { eapply core_raised with (cur := h); try done; try (rewrite Eb; done).
      { apply less_compatible_refl. }
      right. rewrite F3. by rewrite Eb. }
    split; [done|]. split; [|by rewrite Eb at 1].
    etrans; [exact Hst|]. eapply bumped_step; try done. by rewrite Ep1.
  - intros (-> & cur & Ecur & Hle). split; [|done]. destruct (Hcur _ Ecur) as [Hu' Hv].
    eapply core_raised with (cur := cur); try done; [|by right].
    by apply less_compatible_true.
Qed.

(** The commit handlers only use ballots of the same value as [b] once the
    node is in the CONFIRM phase. *)
Definition committable (b : BallotState) (c h : SCPBallot) : Prop :=
  ballot_u32 c /\ ballot_u32 h /\ areBallotsLessAndCompatible c h = true /\
  (mPhase b = SCP_PHASE_CONFIRM -> forall h0, mHighBallot b = Some h0 -> value h = value h0).

Lemma committable_cur (b : BallotState) (c h cur : SCPBallot) :
  core b -> mPhase b = SCP_PHASE_CONFIRM -> committable b c h ->
  mCurrentBallot b = Some cur -> value cur = value h.
Proof.
  intros Hc Ep (_ & _ & _ & Hv) Ecur. destruct (core_phase _ Hc) as [Hi _]; [by rewrite Ep|].
  destruct (mCommit b) as [c0|] eqn:Ec; [|done].
  destruct (core_commit _ Hc _ Ec) as (h0 & Eh & _).
  destruct (core_high _ Hc _ Eh) as (cur0 & Ecur0 & [_ Hl]%less_compatible_true).
  rewrite (Hv Ep _ Eh). congruence.
Qed.

Lemma committable_commit (b : BallotState) (c h c0 : SCPBallot) :
  core b -> mPhase b = SCP_PHASE_CONFIRM -> committable b c h ->
  mCommit b = Some c0 -> value c = value c0.
Proof.
  intros Hc Ep (_ & _ & [_ Hl]%less_compatible_true & Hv) Ec.
  destruct (core_commit _ Hc _ Ec) as (h0 & Eh & [_ Hl0]%less_compatible_true).
  rewrite Hl, (Hv Ep _ Eh). done.
Qed.

(** [c] and [h] are set, and the node is in the CONFIRM phase with [b] on the
    same value. *)
Definition committed (s : SlotState) (c h : SCPBallot) (s1 : SlotState) : Prop :=
  raised s h s1 /\ step s s1 /\ mPhase (bp s1) = SCP_PHASE_CONFIRM /\
  mPreparedPrime (bp s1) = None /\ mCommit (bp s1) = Some c /\
  (forall cur, mCurrentBallot (bp s1) = Some cur -> ballot_u32 cur /\ value cur = value h).

(** Setting [c] and [h] in the CONFIRM phase. *)
Lemma committed_confirm (s s1 : SlotState) (c h : SCPBallot) :
  core (bp s) -> mPhase (bp s) = SCP_PHASE_CONFIRM -> committable (bp s) c h ->
  mPhase (bp s1) = SCP_PHASE_CONFIRM -> mCurrentBallot (bp s1) = mCurrentBallot (bp s) ->
  mPrepared (bp s1) = mPrepared (bp s) -> mPreparedPrime (bp s1) = mPreparedPrime (bp s) ->
  mCommit (bp s1) = Some c -> mHighBallot (bp s1) = Some h ->
  mLatestEnvelopes (bp s1) = mLatestEnvelopes (bp s) ->
  mCurrentMessageLevel (bp s1) = mCurrentMessageLevel (bp s) -> aside s s1 ->
  committed s c h s1.
Proof.
  intros Hc Ep Hcm E0 E1 E2 E3 E4 E5 E6 E7 Ha. pose proof Hcm as (Huc & Huh & Hl & Hv).
  split; [split_and!; try done; rewrite E4; by intros ? [= <-]|].
  split; [|split_and!; try done].
  - destruct Ha as (?&?&?&?&?). apply evolves_local; rewrite ?Ep, ?E0, ?E1; try done.
    intros c0 _ Ec. exists c. split; [done|]. by eapply committable_commit.
  - rewrite E3. apply (core_phase _ Hc). by rewrite Ep.
  - rewrite E1. intros cur Ecur. split; [by apply (core_cur_u32 _ Hc)|].
    by eapply committable_cur.
Qed.

(** Leaving the PREPARE phase: [b] is moved to [h] when it is not on it. *)
Lemma committed_prepare (s s1 : SlotState) (c h : SCPBallot) :
  core (bp s) -> mPhase (bp s) = SCP_PHASE_PREPARE -> committable (bp s) c h ->
  mCurrentBallot (bp s1) = mCurrentBallot (bp s) -> mPrepared (bp s1) = mPrepared (bp s) ->
  mCommit (bp s1) = Some c -> mHighBallot (bp s1) = Some h ->
  mLatestEnvelopes (bp s1) = mLatestEnvelopes (bp s) ->
  mCurrentMessageLevel (bp s1) = mCurrentMessageLevel (bp s) -> aside s s1 ->
  wp allowed
    (bset (set_mPhase SCP_PHASE_CONFIRM) ;;!
     match mCurrentBallot (bp s) with
     | Some cur =>
         if negb (areBallotsLessAndCompatible h cur) then bumpToBallot env h false else ret tt
     | None => ret tt
     end ;;!
     bset (set_mPreparedPrime None) ;;! ret true) (fun d s2 => d = true /\ committed s c h s2) s1.
Proof.
  intros Hc Ep (Huc & Huh & Hl & _) E1 E2 E4 E5 E6 E7 Ha. wps.
  apply (wp_mono _ _ (fun _ s2 => mPhase (bp s2) = SCP_PHASE_CONFIRM /\
    mPrepared (bp s2) = mPrepared (bp s) /\ mCommit (bp s2) = Some c /\
    mHighBallot (bp s2) = Some h /\ mLatestEnvelopes (bp s2) = mLatestEnvelopes (bp s) /\
    mCurrentMessageLevel (bp s2) = mCurrentMessageLevel (bp s) /\ aside s s2 /\
    (forall cur, mCurrentBallot (bp s2) = Some cur -> ballot_u32 cur /\ value cur = value h))).
  - set (s1' := set_bp _ s1).
    destruct (mCurrentBallot (bp s)) as [cur|] eqn:Ecur; cycle 1.
    { wps. split_and!; try done. unfold s1'. proj. by rewrite E1. }
    wp_if Hn; wps; bprop.
    + eapply wp_mono; [by apply bumpToBallot_spec|]. intros _ s2 (Eb & Ha2).
      assert (mHighBallot (bp s1') = Some h) as Eh1 by done.
      destruct (bumped_raised _ _ Eh1) as [F2 F3]. rewrite <- Eb in F2, F3.
      split_and!; try (by rewrite Eb); try done.
      * by rewrite F3.
      * etrans; [exact Ha|exact Ha2].
      * rewrite Eb. by intros ? [= <-].
    + split_and!; try done. unfold s1'. proj. rewrite E1. intros ? [= <-].
      apply less_compatible_true in Hn as [_ ?].
      split; [by apply (core_cur_u32 _ Hc)|done].
  - intros _ s2 (F0 & F2 & F4 & F5 & F6 & F7 & Ha2 & Hcur). wps. split; [done|].
    split; [split_and!; try done; proj; rewrite F4; by intros ? [= <-]|].
    split; [|by split_and!].
    destruct Ha2 as (?&?&?&?&?). apply evolves_local; proj; rewrite ?Ep, ?F0; try done.
    by intros Hx; specialize (Hx eq_refl).
Qed.

Lemma setAcceptCommit_spec (s : SlotState) (c h : SCPBallot) :
  quiet (bp s) -> mCurrentMessageLevel (bp s) = L ->
  mPhase (bp s) <> SCP_PHASE_EXTERNALIZE -> committable (bp s) c h ->
  wp allowed (setAcceptCommit env processSelf c h) (worked s) s.
Proof.
  intros Hq HL Hne Hcm. pose proof (quiet_core _ Hq) as Hc. unfold setAcceptCommit. wps.
  set (s0 := set_bp _ s).
  apply (wp_mono _ _ (fun d s1 => mPhase (bp s1) = mPhase (bp s) /\
    mCurrentBallot (bp s1) = mCurrentBallot (bp s) /\
    mPrepared (bp s1) = mPrepared (bp s) /\ mPreparedPrime (bp s1) = mPreparedPrime (bp s) /\
    mCommit (bp s1) = Some c /\ mHighBallot (bp s1) = Some h /\
    mLatestEnvelopes (bp s1) = mLatestEnvelopes (bp s) /\
    mCurrentMessageLevel (bp s1) = mCurrentMessageLevel (bp s) /\ aside s s1 /\
    (d = false -> view (bp s1) = view (bp s)))).
  { wp_if Hd; wps; [by split_and!|].
    destruct (mHighBallot (bp s)) as [hb|] eqn:Eh, (mCommit (bp s)) as [cb|] eqn:Ec; try done.
    apply orb_false_iff in Hd as [Hd1 Hd2]. bprop.
    apply compare_eq in Hd1 as ->. apply compare_eq in Hd2 as ->. by split_and!. }
  intros d s1 (E0 & E1 & E2 & E3 & E4 & E5 & E6 & E7 & Ha & Hd). wps.
  apply (wp_mono _ _ (fun (d : bool) s2 => if d then committed s c h s2 else
    view (bp s2) = view (bp s) /\ mCurrentMessageLevel (bp s2) = mCurrentMessageLevel (bp s) /\
    aside s s2)).
  { unfold isPhase. wp_if Hp; bprop.
    - eapply wp_mono; [by apply (committed_prepare s s1 c h)|]. by intros ? ? [-> ?].
    - wps. assert (mPhase (bp s) = SCP_PHASE_CONFIRM) as Ep by by destruct (mPhase (bp s)).
      destruct d; [|by auto]. apply committed_confirm; try done. by rewrite E0. }
  intros [] s2; cycle 1.
  { intros (Hv & Hl & Ha2). wps. split; [by eapply quiet_view|].
    split; [by apply aside_step|]. intros [?|?]; [by eapply own_view|done]. }
  intros (Hr & Hst & Ep & Epp & Ec & Hcur). wps. pose proof Hr as (_&_&_&_& Eh &_).
  apply wp_must; [by rewrite Eh|]. rewrite Eh. intros ? [= <-]. wps.
  eapply wp_mono; [apply (confirm_step s s2); try done; [apply Hcm|by rewrite Ec]|].
  intros _ s3 (Hc3 & Hst3 & Ep3 & _). wps.
  eapply wp_mono; [apply emit_worked with (s := s); try done|by intros; wps].
  etrans; [exact Hst3|by apply step_effect].
Qed.

Lemma attemptAcceptCommit_spec (s : SlotState) (hint : SCPStatement) :
  quiet (bp s) -> mCurrentMessageLevel (bp s) = L ->
  wp allowed (attemptAcceptCommit env processSelf hint) (worked s) s.
Proof.
  intros Hq HL. pose proof (quiet_core _ Hq) as Hc. unfold attemptAcceptCommit, isPhase. wps.
  wp_if Hp; wps; [by apply worked_nothing|].
  destruct (commitHint hint) as [ballot|]; [|wps; by apply worked_nothing].
  assert (mPhase (bp s) = SCP_PHASE_CONFIRM -> exists h, mHighBallot (bp s) = Some h) as Hh.
  { intros E. destruct (core_phase _ Hc) as [Hi _]; [by rewrite E|].
    destruct (mCommit (bp s)) as [c|] eqn:Ec; [|done].
    destruct (core_commit _ Hc _ Ec) as (h & ? & _). eauto. }
  wps. apply (wp_mono _ _ (fun stop s' => s' = s /\ (stop = false ->
    mPhase (bp s) = SCP_PHASE_CONFIRM -> forall h, mHighBallot (bp s) = Some h ->
    value ballot = value h))).
  { wp_if Hcf; bprop; wps; [|done]. apply wp_must; [by destruct (Hh Hcf) as (? & ->)|].
    intros h Eh. wps. split; [done|]. intros Hv _ ? Eh'. bprop.
    apply compatible_true in Hv. congruence. }
  intros stop ? [-> Hv]. wps. destruct stop; wps; [by apply worked_nothing|].
  specialize (Hv eq_refl).
  match goal with |- context [findExtendedInterval _ _ ?f] => set (pred := f) end.
  destruct (commit_interval (bp s) ballot pred Hc) as (U1 & U2 & Hle & _).
  destruct (getCommitBoundariesFromStatements (bp s) ballot) as [|x l];
    [wps; by apply worked_nothing|].
  wp_if Hz; wps; [|by apply worked_nothing]. bprop.
  apply (wp_mono _ _ (fun _ s' => s' = s)).
  { wp_if Hcf; bprop; wps; [|done]. apply wp_must; [by destruct (Hh Hcf) as (? & ->)|].
    intros h Eh. by wps. }
  intros go ? ->. destruct go; wps; [|by apply worked_nothing].
  apply setAcceptCommit_spec; try done; [by destruct (mPhase (bp s))|].
  split; [done|]. split; [done|]. split; [|done].
  apply less_compatible_true. split; [|done]. by apply compare_compatible.
Qed.

(** A quorum accepted the commit [c]. *)
Definition ratified_commit (s : SlotState) (c : SCPBallot) : Prop :=
  exists ballot i, value c = value ballot /\
    federatedRatify env (commitPredicate ballot i) (mLatestEnvelopes (bp s)) = true.

(** Externalizing a ratified commit. *)
Lemma voice_externalize (s s2 : SlotState) (c : SCPBallot) :
  core (bp s) -> step s s2 -> mPhase (bp s2) = SCP_PHASE_CONFIRM -> mCommit (bp s2) = Some c ->
  ratified_commit s c -> voice C s ->
  voice C (set_bp (set_mPhase SCP_PHASE_EXTERNALIZE (bp s2)) s2).
Proof.
  intros Hc Hst Ep Ec (ballot & i & Ev & Hr) Hv. set (s3 := set_bp _ s2).
  assert (persists s2 s3) as H23 by (split; [by proj; rewrite Ep|by eauto]).
  assert (persists s s3) as H3.
  { destruct (evolves_persists _ _ _ Hst) as [P1 P2], H23 as [Q1 Q2]. split; [lia|].
    intros c0 Hp Hc0. destruct (P2 c0 Hp Hc0) as (c' & Hc' & E). by exists c'. }
  destruct (ev_voice _ _ _ Hst Hv) as [V1 V2 V3 _]. constructor; proj.
  - intros id e He. apply (entry_persists C s2 s3); auto.
  - intros e He. apply (says_persists C s2 s3); auto.
  - intros e He. apply (says_persists C s2 s3); auto.
  - intros _. exists env, (mLatestEnvelopes (bp s)), ballot, i, c.
    split_and!; try done; [apply Hc|].
    intros id e He. eapply entry_persists; [exact H3|]. by apply Hv.
Qed.

(** The whole of an externalization: [s2] is the state before the phase
    changes, [s4] the state after the emission. *)
Lemma externalize_step (s s2 s4 s5 : SlotState) (c : SCPBallot) :
  core (bp s) -> mPhase (bp s) = SCP_PHASE_CONFIRM -> step s s2 ->
  mPhase (bp s2) = SCP_PHASE_CONFIRM -> mCommit (bp s2) = Some c -> ratified_commit s c ->
  step (set_bp (set_mPhase SCP_PHASE_EXTERNALIZE (bp s2)) s2) s4 ->
  bp s5 = bp s4 -> np s5 = set_mNominationStarted false (np s4) ->
  mStatementsHistory s5 = mStatementsHistory s4 ->
  announced (effects s5) = announced (effects s4) ++ [value c] ->
  sent (effects s5) = sent (effects s4) ->
  step s s5 /\ mCommit (bp s5) = Some c /\ mPhase (bp s5) = SCP_PHASE_EXTERNALIZE.
Proof.
  intros Hcore Ep H2 Ep2 Ec Hrat H4 Eb En Ey Ea Es.
  pose proof (evolves_externalized _ _ _ H4 eq_refl) as Ep4.
  pose proof (ev_frozen _ _ _ H4 eq_refl) as F4. unfold ballots in F4. proj.
  injection F4 as F1 _ _ _ F5.
  split; [|by rewrite Eb, F5, Ep4]. constructor; rewrite ?Eb, ?Ep4.
  - by rewrite Ep.
  - intros _. rewrite F1. apply H2. by rewrite Ep.
  - intros c0 Hp Hc0. destruct (ev_commit _ _ _ H2 c0 Hp Hc0) as (c' & Ec' & Hv).
    exists c'. by rewrite F5.
  - by rewrite Ep.
  - intros id Hid. rewrite (ev_others _ _ _ H4), <- (ev_others _ _ _ H2); done.
  - rewrite (ev_level _ _ _ H4). apply (ev_level _ _ _ H2).
  - rewrite Ey. etrans; [apply H2|]. apply (ev_history _ _ _ H4).
  - rewrite Ea, (ev_announced _ _ _ H4). proj. rewrite (ev_announced _ _ _ H2), Ep, Ep2, F5, Ec.
    cbn. by rewrite !app_nil_r.
  - right. rewrite En. destruct (ev_nomination _ _ _ H4) as [-> | ->];
      destruct (ev_nomination _ _ _ H2) as [E | E]; proj; by rewrite E.
  - intros Hv. eapply voice_view; [by rewrite Eb|by rewrite Eb|done|].
    apply (ev_voice _ _ _ H4). by eapply voice_externalize.
Qed.

Lemma setConfirmCommit_spec (s : SlotState) (c h : SCPBallot) :
  quiet (bp s) -> mCurrentMessageLevel (bp s) = L ->
  mPhase (bp s) = SCP_PHASE_CONFIRM -> committable (bp s) c h -> ratified_commit s c ->
  wp allowed (setConfirmCommit env processSelf c h) (worked s) s.
Proof.
  intros Hq HL Ep Hcm Hrat. pose proof (quiet_core _ Hq) as Hc. unfold setConfirmCommit. wps.
  set (s1 := set_bp _ _).
  assert (committed s c h s1) as (Hr & Hst1 & Ep1 & Epp1 & Ec1 & Hcur1)
    by by apply committed_confirm.
  eapply wp_mono; [apply (confirm_step s s1); try done; apply Hcm|].
  intros _ s2 (Hc2 & Hst2 & Ep2 & Ec2 & Eh2). rewrite Ec1 in Ec2. wps.
  set (s3 := set_bp _ s2).
  assert (core (bp s3)) as Hc3.
  { constructor; proj; try apply Hc2. intros _. apply (core_phase _ Hc2). by rewrite Ep2. }
  eapply wp_mono; [apply emit_spec; [done|]|].
  { change (mCurrentMessageLevel (bp s2) = L). by rewrite (ev_level _ _ _ Hst2). }
  intros _ s4 (Hq4 & Hst4 & Ho4). unfold stopNomination, nset. wps.
  set (s5 := set_np _ s4).
  assert (mCommit (bp s4) = Some c) as Ec4.
  { pose proof (ev_frozen _ _ _ Hst4 eq_refl) as F. unfold ballots in F.
    injection F as _ _ _ _ F. rewrite F. done. }
  apply wp_must; [by rewrite Ec4|]. rewrite Ec4. intros ? [= <-]. wps.
  set (s6 := set_effects _ s5).
  assert (announced (effects s6) = announced (effects s4) ++ [value c]) as Ea
    by apply announced_app.
  assert (sent (effects s6) = sent (effects s4)) as Es
    by (unfold s6; proj; by rewrite sent_app, app_nil_r).
  destruct (externalize_step s s2 s4 s6 c) as (Hst6 & _ & _); done.
Qed.

Lemma attemptConfirmCommit_spec (s : SlotState) (hint : SCPStatement) :
  quiet (bp s) -> mCurrentMessageLevel (bp s) = L ->
  wp allowed (attemptConfirmCommit env processSelf hint) (worked s) s.
Proof.
  intros Hq HL. pose proof (quiet_core _ Hq) as Hc. unfold attemptConfirmCommit, isPhase. wps.
  wp_if Hp; wps; [by apply worked_nothing|]. bprop.
  destruct (mHighBallot (bp s)) as [h|] eqn:Eh; [|wps; by apply worked_nothing].
  destruct (mCommit (bp s)) as [c|] eqn:Ec; [|wps; by apply worked_nothing].
  destruct (core_commit _ Hc _ Ec) as (? & [= <-]%(eq_trans (eq_sym Eh)) & Hl).
  apply less_compatible_true in Hl as [_ Hl].
  assert (forall ballot, areBallotsCompatible ballot c = true -> forall pred,
    let i := findExtendedInterval (0, 0) (rev (getCommitBoundariesFromStatements (bp s) ballot)) pred in
    committable (bp s) (mkBallot (fst i) (value ballot)) (mkBallot (snd i) (value ballot))) as Hcm.
  { intros ballot Hco pred i. destruct (commit_interval (bp s) ballot pred Hc) as (U1 & U2 & Hle & _).
    split; [done|]. split; [done|]. split.
    - apply less_compatible_true. split; [|done]. by apply compare_compatible.
    - intros _ ? [= <-]%(eq_trans (eq_sym Eh)). apply compatible_true in Hco. simpl. congruence. }
  assert (forall ballot,
    let pred := fun cur =>
      federatedRatify env (commitPredicate ballot cur) (mLatestEnvelopes (bp s)) in
    let i := findExtendedInterval (0, 0) (rev (getCommitBoundariesFromStatements (bp s) ballot)) pred in
    fst i <> 0 -> ratified_commit s (mkBallot (fst i) (value ballot))) as Hrat.
  { intros ballot pred i Hi. exists ballot, i. split; [done|].
    by apply (commit_interval (bp s) ballot pred Hc). }
  destruct (pledges hint); try (wps; by apply worked_nothing);
    (destruct (commitHint hint) as [ballot|]; [|wps; by apply worked_nothing]);
    (wp_if Hco; wps; [by apply worked_nothing|]); bprop;
    (wp_if Hz; wps; [|by apply worked_nothing]);
    bprop; apply setConfirmCommit_spec; auto.
Qed.

(** ** Bumping the counter *)

Lemma bump_counters_spec (m : list (NodeID * EnvelopeWrapper)) (l : list Z) (n : Z) :
  bump_counters env m l = Some n ->
  n ∈ l /\ hasVBlockingSubsetStrictlyAheadOf env m n = false.
Proof.
  induction l as [|x l IH]; simpl; [done|].
  destruct (hasVBlockingSubsetStrictlyAheadOf env m x) eqn:E; simpl.
  - intros Hn. destruct (IH Hn). split; [set_solver|done].
  - intros [= <-]. split; [set_solver|done].
Qed.

Lemma statementBallotCounter_u32 (st : SCPStatement) :
  ballot_statement st -> is_u32 (statementBallotCounter st).
Proof.
  unfold ballot_statement, statementBallotCounter.
  destruct (pledges st); [intros (?&_); done|intros (?&_); done|auto with kin|done].
Qed.

Lemma attemptBump_spec (s : SlotState) :
  quiet (bp s) -> mCurrentMessageLevel (bp s) = L ->
  wp allowed (attemptBump env processSelf) (fun r s' => worked s r s' /\
    (r = true -> (mPhase (bp s) = SCP_PHASE_PREPARE -> mPhase (bp s') = SCP_PHASE_PREPARE) ->
     exists n, n <= curCounter (mCurrentBallot (bp s')) /\
       hasVBlockingSubsetStrictlyAheadOf env (mLatestEnvelopes (bp s)) n = false)) s.
Proof.
  intros Hq HL. pose proof (quiet_core _ Hq) as Hc. unfold attemptBump. wps.
  wp_if Hp; wps; [|split; [by apply worked_nothing|done]].
  wp_if Hv; wps; [split; [by apply worked_nothing|done]|].
  change (match mCurrentBallot (bp s) with Some cur => counter cur | None => 0 end)
    with (curCounter (mCurrentBallot (bp s))).
  destruct (bump_counters _ _ _) as [n|] eqn:Hn; [|wps; split; [by apply worked_nothing|done]].
  apply bump_counters_spec in Hn as [Hin Hn].
  rewrite elem_of_set_of_list, list_elem_of_In, filter_In, in_map_iff in Hin.
  destruct Hin as [(st & <- & Hst) Hlt]. bprop.
  rewrite <- list_elem_of_In in Hst. apply (statements_typed _ _ Hc) in Hst.
  apply statementBallotCounter_u32 in Hst.
  pose proof (core_cur_u32 _ Hc) as Hu.
  eapply wp_mono; [apply abandonBallot_spec; try done|].
  - destruct (mCurrentBallot (bp s)) as [cur|]; simpl in *; [|lia].
    specialize (Hu _ eq_refl). unfold ballot_u32 in Hu. unfold_ints; lia.
  - intros cur Ecur. by rewrite Ecur in Hlt.
  - intros r s' [Hw Hx]. split; [done|]. intros Hr Hp'. eauto.
Qed.

(** No more bump is due. *)
Definition settled (s : SlotState) : Prop :=
  mPhase (bp s) = SCP_PHASE_EXTERNALIZE \/
  hasVBlockingSubsetStrictlyAheadOf env (mLatestEnvelopes (bp s))
    (curCounter (mCurrentBallot (bp s))) = false.

Lemma attemptBump_settled (s : SlotState) :
  settled s -> attemptBump env processSelf s = Ok (false, s).
Proof.
  unfold settled, attemptBump, curCounter, bind, bget, gets, id. intros [->|E]; [done|].
  rewrite E. by destruct (mPhase (bp s)).
Qed.

Context (Hlocal : proper (mQSet (localNode env))).

(** After a bump to a counter with no v-blocking set ahead of it, the slot is
    settled: the other nodes have not moved, and this node is not ahead of
    itself. *)
Lemma bumped_settled (s s' : SlotState) (n : Z) :
  quiet (bp s) -> quiet (bp s') -> step s s' -> own s' ->
  n <= curCounter (mCurrentBallot (bp s')) ->
  hasVBlockingSubsetStrictlyAheadOf env (mLatestEnvelopes (bp s)) n = false -> settled s'.
Proof.
  intros Hq Hq' Hst Ho Hle Hn. unfold settled.
  destruct (decide (mPhase (bp s') = SCP_PHASE_EXTERNALIZE)) as [E|E]; [by left|right].
  apply not_true_iff_false. intros Hb. apply not_true_iff_false in Hn. apply Hn. revert Hb.
  unfold hasVBlockingSubsetStrictlyAheadOf, isVBlocking_map. apply isVBlocking_mono; [done|].
  intros id. rewrite !filter_nodes_spec. intros (e & Hin & Hlt). exists e.
  apply map_find_elem in Hin; [|apply Hq']. unfold on_statement in *. bprop.
  destruct (decide (id = localID)) as [->|Hid].
  { destruct (Ho _ Hin) as [?|?]; [done|lia]. }
  rewrite (ev_others _ _ _ Hst) in Hin by set_solver.
  split; [apply map_find_elem; [apply Hq|done]|]. apply Z.ltb_lt. lia.
Qed.

Lemma bump_loop_settled (fuel : nat) (s : SlotState) (d : bool) :
  settled s -> bump_loop env processSelf (S fuel) d s = Ok (d, s).
Proof.
  intros Hs. cbn [bump_loop]. unfold bind. by rewrite attemptBump_settled.
Qed.

(** What [advanceSlot] needs to know of its parts. *)
Definition kept (s s' : SlotState) : Prop :=
  quiet (bp s') /\ step s s' /\ (own s -> own s').

Lemma kept_trans (s1 s2 s3 : SlotState) : kept s1 s2 -> kept s2 s3 -> kept s1 s3.
Proof. intros (_ & H1 & O1) (Q2 & H2 & O2). split; [done|]. split; [by etrans|auto]. Qed.

Lemma worked_kept (s s' : SlotState) (r : bool) : worked s r s' -> kept s s'.
Proof. intros (? & ? & ?). split; [done|]. split; [done|auto]. Qed.

Lemma kept_level (s s' : SlotState) :
  kept s s' -> mCurrentMessageLevel (bp s) = L -> mCurrentMessageLevel (bp s') = L.
Proof. intros (_ & Hst & _) <-. apply Hst. Qed.

(** A successful bump: outside the PREPARE phase the slot is settled. *)
Lemma attemptBump_progress (s : SlotState) :
  quiet (bp s) -> mCurrentMessageLevel (bp s) = L ->
  wp allowed (attemptBump env processSelf) (fun r s' => kept s s' /\
    (r = true -> settled s' \/
      (mPhase (bp s) = SCP_PHASE_PREPARE /\ mPhase (bp s') <> SCP_PHASE_PREPARE))) s.
Proof.
  intros Hq HL. eapply wp_mono; [by apply attemptBump_spec|].
  intros r s' [Hw Hn]. split; [by eapply worked_kept|]. intros ->.
  destruct Hw as (Hq' & Hst & Ho). specialize (Hn eq_refl). specialize (Ho (or_intror eq_refl)).
  destruct (decide (mPhase (bp s) = SCP_PHASE_PREPARE)) as [Ep|Ep].
  - destruct (decide (mPhase (bp s') = SCP_PHASE_PREPARE)) as [Ep'|Ep']; [left|by right].
    destruct Hn as (n & Hle & Hn); [done|]. by apply (bumped_settled s s' n).
  - left. destruct Hn as (n & Hle & Hn); [done|]. by apply (bumped_settled s s' n).
Qed.

(** Outside the PREPARE phase one bump is enough. *)
Lemma bump_loop_confirm (fuel : nat) (s : SlotState) (d : bool) :
  quiet (bp s) -> mCurrentMessageLevel (bp s) = L -> mPhase (bp s) <> SCP_PHASE_PREPARE ->
  wp allowed (bump_loop env processSelf (S (S fuel)) d) (fun _ s' => kept s s') s.
Proof.
  intros Hq HL Hp. change (bump_loop env processSelf (S (S fuel)) d) with
    (let! didBump := attemptBump env processSelf in
     if didBump then bump_loop env processSelf (S fuel) true else ret d).
  wps. eapply wp_mono; [by apply attemptBump_progress|].
  intros [] s1 [Hw Hn]; [|by wps]. destruct (Hn eq_refl) as [Hs|[? _]]; [|done].
  unfold wp. by rewrite bump_loop_settled.
Qed.

(** In the PREPARE phase the first bump may lead to the CONFIRM phase. *)
Lemma bump_loop_spec (fuel : nat) (s : SlotState) (d : bool) :
  quiet (bp s) -> mCurrentMessageLevel (bp s) = L ->
  wp allowed (bump_loop env processSelf (S (S (S fuel))) d) (fun _ s' => kept s s') s.
Proof.
  intros Hq HL. change (bump_loop env processSelf (S (S (S fuel))) d) with
    (let! didBump := attemptBump env processSelf in
     if didBump then bump_loop env processSelf (S (S fuel)) true else ret d).
  wps. eapply wp_mono; [by apply attemptBump_progress|].
  intros [] s1 [Hw Hn]; [|by wps]. destruct (Hn eq_refl) as [Hs|[_ Hp]].
  - unfold wp. by rewrite bump_loop_settled.
  - eapply wp_mono; [apply bump_loop_confirm; [apply Hw|by eapply kept_level|done]|].
    intros r s2 Hk. by eapply kept_trans.
Qed.

(** ** The main loop *)

Lemma setMessageLevel_kept (s s' : SlotState) (f g : Z -> Z) :
  kept (set_bp (set_mCurrentMessageLevel (f (mCurrentMessageLevel (bp s))) (bp s)) s) s' ->
  g (f (mCurrentMessageLevel (bp s))) = mCurrentMessageLevel (bp s) ->
  kept s (set_bp (set_mCurrentMessageLevel (g (mCurrentMessageLevel (bp s'))) (bp s')) s').
Proof.
  intros (Hq & Hst & Ho) E. split; [by apply (quiet_view (bp s'))|]. split; [|exact Ho].
  destruct Hst as [P Cu M F O Lv Y A N V]. proj. constructor; proj; try done.
  - by rewrite Lv, E.
  - intros Hv. eapply voice_view; [..|apply V]; try done. by eapply voice_view; [..|exact Hv].
Qed.

Lemma advanceSlot_spec (s : SlotState) (hint : SCPStatement) :
  quiet (bp s) -> mCurrentMessageLevel (bp s) + 1 = L -> ballot_statement hint ->
  wp allowed (advanceSlot env processSelf hint) (fun _ s' => kept s s') s.
Proof.
  intros Hq HL Hh. unfold advanceSlot, setMessageLevel. wps.
  set (s0 := set_bp _ s). assert (quiet (bp s0)) as Hq0 by by apply (quiet_view (bp s)).
  assert (mCurrentMessageLevel (bp s0) = L) as HL0 by done.
  apply wp_check_or; [done|]. intros _. wps.
  eapply wp_mono; [by apply attemptAcceptPrepared_spec|]. intros w1 s1 H1%worked_kept.
  pose proof (kept_level _ _ H1 HL0) as HL1. wps.
  eapply wp_mono; [apply attemptConfirmPrepared_spec; [apply H1|done..]|].
  intros w2 s2 H2%worked_kept. pose proof (kept_level _ _ H2 HL1) as HL2. wps.
  eapply wp_mono; [apply attemptAcceptCommit_spec; [apply H2|done..]|].
  intros w3 s3 H3%worked_kept. pose proof (kept_level _ _ H3 HL2) as HL3. wps.
  eapply wp_mono; [apply attemptConfirmCommit_spec; [apply H3|done..]|].
  intros w4 s4 H4%worked_kept. pose proof (kept_level _ _ H4 HL3) as HL4. wps.
  apply (wp_mono _ _ (fun _ s5 => kept s0 s5)).
  { assert (kept s0 s4) as H04 by eauto using kept_trans.
    wp_if Hl; wps; [|done].
    eapply wp_mono; [apply bump_loop_spec; [apply H4|done]|]. intros d s5 H5. wps.
    eapply wp_mono; [apply checkHeardFromQuorum_spec|]. intros _ s6 [Hv6 Hst6]. wps.
    eapply kept_trans; [exact H04|]. eapply kept_trans; [exact H5|].
    split; [eapply quiet_view; [done|apply H5]|]. split; [done|]. by apply own_view. }
  intros d s5 H5. wps.
  assert (kept s (set_bp (set_mCurrentMessageLevel (mCurrentMessageLevel (bp s5) - 1) (bp s5)) s5))
    as H6 by (apply (setMessageLevel_kept s s5 (fun l => l + 1) (fun l => l - 1)); [done|lia]).
  destruct d; wps; [|done]. eapply wp_mono; [apply sendLatestEnvelope_spec|].
  intros _ s7 [Hv Hst7]. eapply kept_trans; [exact H6|].
  split; [eapply quiet_view; [done|apply H6]|]. split; [done|]. by apply own_view.
Qed.
End self.

(** ** Processing a message *)

(** A message from the network, or this node's own. *)
Definition trusted (s : SlotState) (st : SCPStatement) : Prop :=
  heard C st \/ own_statement s st.

Lemma trusted_entry (s : SlotState) (e : EnvelopeWrapper) :
  trusted s (getStatement e) -> entry C s (nodeID (getStatement e)) e.
Proof.
  intros [Hh|(Hid & _ & _ & _ & Hs)]; split; auto. right. split; [|done].
  rewrite Hid. apply Hbelongs.
Qed.

(** Recording a message replaces the latest one of its author. *)
Lemma recordEnvelope_spec (s : SlotState) (e : EnvelopeWrapper) :
  quiet (bp s) -> ballot_statement (getStatement e) -> trusted s (getStatement e) ->
  wp allowed (recordEnvelope env e) (fun _ s' =>
    quiet (bp s') /\ evolves (C := C) [nodeID (getStatement e)] s s' /\
    mCurrentBallot (bp s') = mCurrentBallot (bp s) /\ mPhase (bp s') = mPhase (bp s) /\
    mLatestEnvelopes (bp s') =
      map_set (nodeID (getStatement e)) e (mLatestEnvelopes (bp s))) s.
Proof.
  intros Hq Ht Htr%trusted_entry. unfold recordEnvelope, recordStatement. wps. split_and!; try done.
  - destruct Hq as [Hc Hz Hp]. constructor; proj; [|done|done].
    constructor; proj; try apply Hc; [by apply ordered_map_set, Hc|].
    intros id e'. rewrite <- map_find_elem by by apply ordered_map_set, Hc.
    rewrite map_find_set. destruct (eqb_of id _); [by intros [= <-]|].
    rewrite map_find_elem by apply Hc. apply Hc.
  - constructor; proj; auto; try done.
    + intros c _ Hc. by exists c.
    + intros id Hid. rewrite map_find_set.
      assert (eqb_of id (nodeID (getStatement e)) = false) as ->; [|done].
      apply eqb_of_false. set_solver.
    + by apply prefix_app_r.
    + unfold isPhase. by case_bool_decide; rewrite app_nil_r.
    + intros [V1 V2 V3 V4]. constructor; proj; try done. intros id e'.
      rewrite <- map_find_elem by apply ordered_map_set, Hq. rewrite map_find_set.
      destruct (eqb_of id _) eqn:E; [apply eqb_of_true in E as ->; by intros [= <-]|].
      rewrite map_find_elem by apply Hq. apply V1.
Qed.

(** Outcome of [processEnvelope] on a message of [who]. *)
Definition processed (s : SlotState) (st : SCPStatement) (r : EnvelopeState) (s' : SlotState)
    : Prop :=
  quiet (bp s') /\ evolves (C := C) [nodeID st; localID] s s' /\
  (r = VALID -> own_statement s st -> own s').

Lemma processed_invalid (s : SlotState) (st : SCPStatement) :
  quiet (bp s) -> processed s st INVALID s.
Proof. intros Hq. by split_and!. Qed.

Lemma recorded_own (s s' : SlotState) (e : EnvelopeWrapper) :
  mCurrentBallot (bp s') = mCurrentBallot (bp s) -> mPhase (bp s') = mPhase (bp s) ->
  mLatestEnvelopes (bp s') = map_set (nodeID (getStatement e)) e (mLatestEnvelopes (bp s)) ->
  own_statement s (getStatement e) -> own s'.
Proof.
  intros E1 E2 E3 (Hid & _ & _ & Ho & _). intros e'. rewrite E3, map_find_set, Hid, eqb_of_refl.
  intros [= <-]. by rewrite E1, E2.
Qed.

Lemma ballot_processEnvelope_spec (pself : EnvelopeWrapper -> M EnvelopeState)
    (s : SlotState) (e : EnvelopeWrapper) (self : bool) :
  (forall s1, quiet (bp s1) -> mCurrentMessageLevel (bp s1) = mCurrentMessageLevel (bp s) ->
   wp allowed (advanceSlot env pself (getStatement e)) (fun _ s' => kept s1 s') s1) ->
  quiet (bp s) -> ballot_statement (getStatement e) -> slotIndex (getStatement e) = slot ->
  trusted s (getStatement e) ->
  wp allowed (ballot_processEnvelope env pself e self) (processed s (getStatement e)) s.
Proof.
  intros Hadv Hq Ht Hi Htr. set (st := getStatement e) in *. unfold ballot_processEnvelope. wps.
  apply wp_check; [by apply Z.eqb_eq|]. wps.
  apply (wp_mono _ _ (fun _ s' => s' = s)).
  { unfold isStatementSane, arePledgesSane. destruct (getQuorumSetFromStatement env _); [|by wps].
    wp_if Hs; [by wps|]. unfold ballot_statement in Ht. fold st.
    destruct (pledges st); by wps. }
  intros sane ? ->. wps. wp_if Hs; wps; [by apply processed_invalid|].
  wp_if Hnew; wps; [by apply processed_invalid|]. wp_if Hval; wps; [by apply processed_invalid|].
  wp_if Hp; wps.
  - apply (wp_mono _ _ (fun _ s1 => bp s1 = bp s /\ aside s s1)).
    { unfold setFullyValidated. wp_if Hm; by wps. }
    intros _ s1 [Eb Ha]. wps.
    eapply wp_mono; [apply recordEnvelope_spec; [by rewrite Eb|done|]|].
    { destruct Htr as [?|Hown]; [by left|right]. unfold own_statement, says in *. by rewrite Eb. }
    intros _ s2 (Hq2 & Hst2 & E1 & E2 & E3). wps. fold st in Hst2, E3.
    eapply wp_mono; [apply Hadv; [done|]|].
    { rewrite (ev_level _ _ _ Hst2). by rewrite Eb. }
    intros _ s3 (Hq3 & Hst3 & Ho3). wps. split; [done|]. split.
    + assert (step s s1) as Hst1 by (apply aside_step; by rewrite ?Eb).
      etrans; [eapply evolves_mono; [|exact Hst1]; set_solver|].
      etrans; [eapply evolves_mono; [|exact Hst2]; set_solver|].
      eapply evolves_mono; [|exact Hst3]. set_solver.
    + intros _ Hown. apply Ho3. rewrite Eb in *. by apply (recorded_own s s2 e).
  - destruct (core_phase _ (quiet_core _ Hq)) as [Hci _].
    { unfold isPhase in Hp. bprop. by rewrite Hp. }
    apply wp_must; [by intros E; rewrite E in Hci|]. intros c Ec.
    wp_if Hv; wps; [|by apply processed_invalid].
    eapply wp_mono; [by apply recordEnvelope_spec|].
    intros _ s2 (Hq2 & Hst2 & E1 & E2 & E3). wps. split; [done|]. split.
    + eapply evolves_mono; [|exact Hst2]. set_solver.
    + intros _ Hown. by apply (recorded_own s s2 e).
Qed.

(** At the nesting limit [advanceSlot] stops. *)
Lemma advanceSlot_limit (pself : EnvelopeWrapper -> M EnvelopeState) (s : SlotState)
    (hint : SCPStatement) (Q : unit -> SlotState -> Prop) :
  MAX_ADVANCE_SLOT_RECURSION <= mCurrentMessageLevel (bp s) + 1 ->
  wp allowed (advanceSlot env pself hint) Q s.
Proof.
  intros Hl. unfold advanceSlot, setMessageLevel. wps.
  apply wp_check_or; [done|]. intros Hn. bprop. lia.
Qed.

Context (Hlocal : proper (mQSet (localNode env))).

(** Each nested call starts one level deeper, so [fuel] never runs out. *)
Lemma slot_processBallot_spec (fuel : nat) (s : SlotState) (e : EnvelopeWrapper) (self : bool) :
  quiet (bp s) -> ballot_statement (getStatement e) -> slotIndex (getStatement e) = slot ->
  trusted s (getStatement e) ->
  0 <= mCurrentMessageLevel (bp s) < MAX_ADVANCE_SLOT_RECURSION ->
  MAX_ADVANCE_SLOT_RECURSION - mCurrentMessageLevel (bp s) <= Z.of_nat fuel ->
  wp allowed (slot_processBallot env fuel e self) (processed s (getStatement e)) s.
Proof.
  revert s e self. induction fuel as [|fuel IH]; intros s e self Hq Ht Hi Htr HL Hf; [lia|].
  cbn [slot_processBallot]. wps. apply wp_check; [by apply Z.eqb_eq|]. wps.
  eapply wp_mono; [apply ballot_processEnvelope_spec; try done|].
  - intros s1 Hq1 HL1.
    destruct (Z_le_gt_dec MAX_ADVANCE_SLOT_RECURSION (mCurrentMessageLevel (bp s1) + 1));
      [by apply advanceSlot_limit|].
    apply (advanceSlot_spec _ (mCurrentMessageLevel (bp s1) + 1)); try done.
    intros e' s2 Hq2 HL2 Hown. pose proof Hown as (Hid & Hi' & Ht' & _).
    eapply wp_mono; [apply IH; try done; [by right|lia..]|].
    intros r s3 (Hq3 & Hst3 & Ho3). rewrite Hid in Hst3. split; [done|].
    split; [|auto]. eapply evolves_mono; [|exact Hst3]. set_solver.
  - intros r s1 Hpr. wps. unfold maybeSetGotVBlocking. wp_if Hprev; wps; [|done].
    wp_if Hg; wps; [done|]. destruct Hpr as (H1 & H2 & H3). split; [done|]. split; [|done].
    etrans; [exact H2|]. apply evolves_aside; auto. by apply voice_view.
Qed.

(** [processSelf] as the outside callers use it: at level [0]. *)
Lemma processSelf_spec (e : EnvelopeWrapper) (s : SlotState) :
  quiet (bp s) -> mCurrentMessageLevel (bp s) = 0 -> own_statement s (getStatement e) ->
  wp allowed (processSelf env e) (fun r s' =>
    quiet (bp s') /\ step s s' /\ (r = VALID -> own s')) s.
Proof.
  intros Hq HL Hown. pose proof Hown as (Hid & Hi & Ht & _). unfold processSelf.
  eapply wp_mono; [apply slot_processBallot_spec; try done; [by right|by rewrite HL..]|].
  intros r s' (H1 & H2 & H3). rewrite Hid in H2. split; [done|]. split; [|auto].
  eapply evolves_mono; [|exact H2]. set_solver.
Qed.

(** ** The calls from outside *)

(** Besides the errors of [allowed], asking for the next counter stops when
    the counter is already the largest one: it wraps to zero. *)
Definition allowed_at (s : SlotState) (e : scp_error) : Prop :=
  allowed e \/
  (e = DbgAbort A_UpdateNotBelowCurrent /\ curCounter (mCurrentBallot (bp s)) = UINT32_MAX).

(** At the largest counter, a forced bump does nothing or stops. *)
Lemma bumpState_max (pself : EnvelopeWrapper -> M EnvelopeState) (s : SlotState) (val : Value)
    (force : bool) (cur : SCPBallot) :
  mCurrentBallot (bp s) = Some cur -> counter cur = UINT32_MAX ->
  bumpState env pself val force s = Ok (false, s) \/
  bumpState env pself val force s = Err (DbgAbort A_UpdateNotBelowCurrent).
Proof.
  intros Ecur Hmax. unfold bumpState, bumpState_n, updateCurrentValue, bind, bget, gets.
  rewrite Ecur. destruct force; cbn [negb andb isSome]; [|by left].
  cbn [id]. destruct (inPrepareOrConfirm (mPhase (bp s))) eqn:Ep; cbn [negb]; [|by left].
  rewrite Ep. cbn [negb]. rewrite Ecur. right. rewrite Hmax.
  change (u32 (UINT32_MAX + 1)) with 0. unfold dbgAssert, check, compareBallots.
  cbn [counter]. by rewrite Hmax.
Qed.

Lemma bumpState_outside (s : SlotState) (val : Value) (force : bool) :
  quiet (bp s) -> mCurrentMessageLevel (bp s) = 0 ->
  wp (allowed_at s) (bumpState env (processSelf env) val force) (fun _ s' =>
    quiet (bp s') /\ step s s') s.
Proof.
  intros Hq HL. pose proof (core_cur_u32 _ (quiet_core _ Hq)) as Hu.
  destruct (Z.eq_dec (curCounter (mCurrentBallot (bp s))) UINT32_MAX) as [Hmax|Hmax].
  - destruct (mCurrentBallot (bp s)) as [cur|] eqn:Ecur; [|done].
    destruct (bumpState_max (processSelf env) s val force cur Ecur Hmax) as [E|E];
      unfold wp; rewrite E; [done|]. right. by rewrite Ecur.
  - eapply wp_weaken; [|by left].
    eapply wp_mono; [eapply bumpState_spec; [apply processSelf_spec|done|done|]|].
    + destruct (mCurrentBallot (bp s)) as [cur|]; simpl in *; [|unfold_ints; lia].
      specialize (Hu _ eq_refl). unfold ballot_u32 in Hu. unfold_ints; lia.
    + by intros r s' (? & ? & _).
Qed.

Lemma timer_outside (s : SlotState) :
  quiet (bp s) -> mCurrentMessageLevel (bp s) = 0 ->
  wp (allowed_at s) (ballotProtocolTimerExpired env (processSelf env)) (fun _ s' =>
    quiet (bp s') /\ step s s') s.
Proof.
  intros Hq HL. unfold ballotProtocolTimerExpired, abandonBallot, getLatestCompositeCandidate, nget.
  wps. set (s1 := set_bp _ s).
  assert (step s s1) as Hst by by apply aside_step.
  assert (quiet (bp s1)) as Hq1 by by apply (quiet_view (bp s)).
  match goal with |- wp _ (match ?v with _ => _ end) _ _ => destruct v as [[|x val]|] end;
    try (wps; done).
  eapply wp_mono; [apply (bumpState_outside s1); done|].
  intros r s' [Hq' Hst']. wps. split; [done|]. by etrans.
Qed.
End safety.
