(* ===== verification/BallotTheorems.v ===== *)
(** * Ballot protocol: what a slot guarantees

    The slot as a transition system: it receives ballot messages, its timer
    expires, the application proposes values, and the nomination protocol
    changes its own state in between. *)
From stdpp Require Import base tactics list sorting numbers sets gmap.
From Stdlib Require Import ZArith Lia Bool.
From S2P Require Import Prelude Containers QuorumSet LocalNode Statement SlotState.
From S2P Require Import FederatedVoting BallotProtocol BallotInvariant BallotSafety.

Open Scope Z_scope.
Open Scope kin_scope.

(** What can happen to a slot. *)
Inductive event :=
  | Receive (e : EnvelopeWrapper)
  | TimerExpired
  | BumpState (val : Value) (force : bool).

Definition handle (env : SlotEnv) (ev : event) : M unit :=
  match ev with
  | Receive e => let! _ := slot_processBallot env BALLOT_FUEL e false in ret tt
  | TimerExpired => ballotProtocolTimerExpired env (processSelf env)
  | BumpState val force => let! _ := bumpState env (processSelf env) val force in ret tt
  end.

Section run.
(** The node and the slot; the driver and the quorum set of the node may change
    from one event to the next. *)
Context (self : NodeID) (index : Z).

Definition hosted (env : SlotEnv) : Prop :=
  mNodeID (localNode env) = self /\ mSlotIndex env = index /\ proper (mQSet (localNode env)).

(** [SCP::receiveEnvelope] hands a message to the slot it is for; the message
    was decoded from XDR. *)
Definition deliverable (ev : event) : Prop :=
  match ev with
  | Receive e => ballot_statement (getStatement e) /\ slotIndex (getStatement e) = index
  | _ => True
  end.

(** The nomination protocol leaves the ballot state alone. *)
Definition nominates (s s' : SlotState) : Prop :=
  bp s' = bp s /\ mStatementsHistory s `prefix_of` mStatementsHistory s' /\
  announced (effects s') = announced (effects s) /\ sent (effects s') = sent (effects s).

Inductive next (s s' : SlotState) : Prop :=
  | next_event env ev : hosted env -> deliverable ev -> handle env ev s = Ok (tt, s') -> next s s'
  | next_nomination : nominates s s' -> next s s'.

Inductive reachable : SlotState -> Prop :=
  | reach_init env : hosted env -> reachable (initSlot env)
  | reach_next s s' : reachable s -> next s s' -> reachable s'.

(** ** One event *)

Lemma handle_heard (C : Setting) (env : SlotEnv) (ev : event) (s : SlotState) :
  belongs C env -> (forall e, ev = Receive e -> heard C (getStatement e)) ->
  hosted env -> deliverable ev -> quiet (bp s) -> mCurrentMessageLevel (bp s) = 0 ->
  wp (allowed_at s) (handle env ev) (fun _ s' =>
    quiet (bp s') /\ exists who, evolves (C := C) who s s') s.
Proof.
  intros HC Hh (_ & Ei & Hp) Hd Hq HL. destruct ev as [e| |val force]; cbn [handle].
  - destruct Hd as [Ht Hi]. rewrite <- Ei in Hi. wps. eapply wp_weaken; [|by left].
    eapply wp_mono; [apply (slot_processBallot_spec env C HC); try done;
      [by left; apply Hh|by rewrite HL..]|].
    intros r s' (Hq' & Hst & _). wps. eauto.
  - eapply wp_mono; [by apply (timer_outside env C HC)|]. intros _ s' []. eauto.
  - wps. eapply wp_mono; [by apply (bumpState_outside env C HC)|]. intros r s' []. wps. eauto.
Qed.

(** With nothing assumed of the messages. *)
Definition anywhere (env : SlotEnv) : Setting :=
  mkSetting (mNodeID (localNode env)) (mQSetHash (localNode env)) (fun _ => True) (fun _ => True).

Lemma handle_spec (env : SlotEnv) (ev : event) (s : SlotState) :
  hosted env -> deliverable ev -> quiet (bp s) -> mCurrentMessageLevel (bp s) = 0 ->
  wp (allowed_at s) (handle env ev) (fun _ s' =>
    quiet (bp s') /\ exists who, evolves (C := anywhere env) who s s') s.
Proof. intros. by apply handle_heard. Qed.

(** What holds in every reachable state. *)
Record sound (s : SlotState) : Prop := mkSound {
  sound_quiet : quiet (bp s);
  sound_level : mCurrentMessageLevel (bp s) = 0;
  sound_announced : announced (effects s) =
    if isPhase (mPhase (bp s)) SCP_PHASE_EXTERNALIZE
    then map value (opt_list (mCommit (bp s))) else []
}.

(** How the ballot state moves, whatever the messages. *)
Record moves (s s' : SlotState) : Prop := mkMoves {
  mv_phase : phase_rank (mPhase (bp s)) <= phase_rank (mPhase (bp s'));
  mv_cur : (mPhase (bp s) = SCP_PHASE_PREPARE -> mPhase (bp s') = SCP_PHASE_PREPARE) ->
    cur_le (mCurrentBallot (bp s)) (mCurrentBallot (bp s'));
  mv_commit : forall c, mPhase (bp s) <> SCP_PHASE_PREPARE -> mCommit (bp s) = Some c ->
    exists c', mCommit (bp s') = Some c' /\ value c' = value c;
  mv_frozen : mPhase (bp s) = SCP_PHASE_EXTERNALIZE -> ballots (bp s') = ballots (bp s);
  mv_history : mStatementsHistory s `prefix_of` mStatementsHistory s'
}.

#[global] Instance moves_preorder : PreOrder moves.
Proof.
  split; [by constructor; eauto|].
  intros s1 s2 s3 [P1 C1 M1 F1 Y1] [P2 C2 M2 F2 Y2].
  assert (mPhase (bp s1) <> SCP_PHASE_PREPARE -> mPhase (bp s2) <> SCP_PHASE_PREPARE) as Hfwd.
  { intros Hn E. rewrite E in P1. by destruct (mPhase (bp s1)). }
  constructor.
  - lia.
  - intros Hp. etrans; [apply C1 | apply C2].
    + intros E. apply Hp in E. rewrite E in P2. by destruct (mPhase (bp s2)).
    + intros E2. apply Hp. destruct (mPhase (bp s1)) eqn:E1; [done| |]; by apply Hfwd in E2.
  - intros c Hp Hc. destruct (M1 c Hp Hc) as (c' & Hc' & E).
    destruct (M2 c' (Hfwd Hp) Hc') as (c'' & Hc'' & E'). exists c''. by rewrite E'.
  - intros E. rewrite F2, F1; auto. rewrite E in P1. by destruct (mPhase (bp s2)).
  - by etrans.
Qed.

Lemma evolves_moves {C : Setting} (who : list NodeID) (s s' : SlotState) :
  evolves (C := C) who s s' -> moves s s'.
Proof. intros []. by constructor. Qed.

Lemma next_sound (s s' : SlotState) : next s s' -> sound s -> sound s' /\ moves s s'.
Proof.
  intros [env ev Hh Hd E|(Eb & Hy & Ea & _)] [Hq HL Ha].
  - destruct (wp_ok _ _ _ _ _ _ (handle_spec env ev s Hh Hd Hq HL) E) as (Hq' & who & Hst).
    split; [|by eapply evolves_moves]. constructor; [done|by rewrite (ev_level _ _ _ Hst)|].
    rewrite (ev_announced _ _ _ Hst), Ha. unfold isPhase.
    destruct (bool_decide_reflect (mPhase (bp s) = SCP_PHASE_EXTERNALIZE)) as [E1|E1].
    + rewrite bool_decide_true by by eapply evolves_externalized.
      pose proof (ev_frozen _ _ _ Hst E1) as F. unfold ballots in F.
      injection F as _ _ _ _ ->. by rewrite app_nil_r.
    + done.
  - split.
    + constructor; rewrite ?Eb, ?Ea; done.
    + constructor; rewrite ?Eb; try done. eauto.
Qed.

Lemma reachable_sound (s : SlotState) : reachable s -> sound s.
Proof.
  induction 1 as [env Hh|s s' Hr IH Hn]; [|by eapply next_sound].
  constructor; [apply quiet_init|done|done].
Qed.

Lemma steps_moves (s s' : SlotState) : sound s -> rtc next s s' -> sound s' /\ moves s s'.
Proof.
  intros Hs. induction 1 as [s|s s1 s' Hn _ IH]; [done|].
  destruct (next_sound _ _ Hn Hs) as [Hs1 Hm1]. destruct (IH Hs1) as [Hs' Hm'].
  split; [done|]. by etrans.
Qed.

(** ** The theorems *)

(** C15. No event can break a slot: from any reachable state, whatever ballot
    message is delivered, on a timeout or when a value is proposed, the code
    terminates, and either returns in a state that satisfies the invariant, or
    stops for one of the reasons in [allowed_at]: more than fifty nested
    transitions, its own statement refused by the driver, a ballot with counter
    zero, a prepared ballot missing or contradicting an accepted commit, or a
    counter at its maximum.  In particular none of the other assertions of the
    protocol fails and no other null pointer is used. *)
Theorem ballot_events_safe (env : SlotEnv) (ev : event) (s : SlotState) :
  reachable s -> hosted env -> deliverable ev ->
  match handle env ev s with
  | Ok (_, s') => reachable s' /\ quiet (bp s')
  | Err e => allowed_at s e
  end.
Proof.
  intros Hr Hh Hd. pose proof (reachable_sound _ Hr) as [Hq HL _].
  pose proof (handle_spec env ev s Hh Hd Hq HL) as Hw. unfold wp in Hw.
  destruct (handle env ev s) as [[[] s']|e] eqn:E; [|done]. destruct Hw as [Hq' _].
  split; [|done]. eapply reach_next; [done|]. by eapply next_event.
Qed.

(** C16. Agreement of a slot with itself: once it has accepted a commit, the
    value it commits to never changes, whatever happens later; once it has
    externalized, all its ballots are fixed; the phase and (from the CONFIRM
    phase on) the current ballot never go back. *)
Theorem commit_is_irrevocable (s s' : SlotState) (c : SCPBallot) :
  reachable s -> rtc next s s' ->
  mPhase (bp s) <> SCP_PHASE_PREPARE -> mCommit (bp s) = Some c ->
  phase_rank (mPhase (bp s)) <= phase_rank (mPhase (bp s')) /\
  cur_le (mCurrentBallot (bp s)) (mCurrentBallot (bp s')) /\
  (exists c', mCommit (bp s') = Some c' /\ value c' = value c) /\
  (mPhase (bp s) = SCP_PHASE_EXTERNALIZE -> ballots (bp s') = ballots (bp s)).
Proof.
  intros Hr Hst Hp Hc. destruct (steps_moves _ _ (reachable_sound _ Hr) Hst) as [_ []].
  split_and!; auto. apply mv_cur0. done.
Qed.

(** C29. The driver is told the externalized value exactly when the slot
    externalizes, once, and the value is that of the commit. *)
Theorem externalized_exactly_once (s : SlotState) :
  reachable s ->
  announced (effects s) =
    (if isPhase (mPhase (bp s)) SCP_PHASE_EXTERNALIZE
     then map value (opt_list (mCommit (bp s))) else []) /\
  (mPhase (bp s) = SCP_PHASE_EXTERNALIZE -> exists c, mCommit (bp s) = Some c).
Proof.
  intros Hr. pose proof (reachable_sound _ Hr) as [Hq _ Ha]. split.
  - done.
  - intros E. destruct (core_phase _ (quiet_core _ Hq)) as [Hi _]; [by rewrite E|].
    destruct (mCommit (bp s)); [eauto|done].
Qed.

(** The assertions of [checkInvariants] hold in every reachable state:
    [b] has a positive counter, [p'] is below [p] and incompatible with it,
    [c <= h <= b] and all three carry the same value, and [c] and [h] are set
    from the CONFIRM phase on. *)
Theorem reachable_invariants (s : SlotState) :
  reachable s -> checkInvariants s = Ok (tt, s).
Proof.
  intros Hr. apply checkInvariants_quiet. apply (reachable_sound _ Hr).
Qed.
End run.

(** ** A run

    Node 1 of three nodes, any two of which are a quorum, agrees on a value
    with node 2. *)

Fixpoint run (env : SlotEnv) (evs : list event) (s : SlotState) : result scp_error SlotState :=
  match evs with
  | [] => Ok s
  | ev :: evs' =>
      match handle env ev s with
      | Ok (_, s') => run env evs' s'
      | Err e => Err e
      end
  end.

Lemma run_next (self : NodeID) (index : Z) (env : SlotEnv) (evs : list event) (s s' : SlotState) :
  hosted self index env -> Forall (deliverable index) evs -> run env evs s = Ok s' ->
  rtc (next self index) s s'.
Proof.
  intros Hh Hd. revert s. induction Hd as [|ev evs Hev _ IH]; intros s; cbn [run].
  { by intros [= <-]. }
  destruct (handle env ev s) as [[[] s1]|] eqn:E; [|done]. intros Hr.
  eapply rtc_l; [by eapply next_event|]. by apply IH.
Qed.

Lemma rtc_reachable (self : NodeID) (index : Z) (s s' : SlotState) :
  reachable self index s -> rtc (next self index) s s' -> reachable self index s'.
Proof. intros Hr. induction 1; [done|]. apply IHrtc. by eapply reach_next. Qed.

Definition example_message (id : Z) (pl : SCPPledges) : event :=
  Receive (mkWrapper (-1) (mkEnvelope (mkStatement [id] 7 pl) [])).

Definition example_ballot : SCPBallot := mkBallot 1 [5].

(** Up to the CONFIRM phase. *)
Definition example_accept : list event :=
  [ BumpState [5] true;
    example_message 2 (SCP_ST_PREPARE (mkPrepare [0] example_ballot None None 0 0));
    example_message 2 (SCP_ST_PREPARE (mkPrepare [0] example_ballot (Some example_ballot) None 0 0));
    example_message 2 (SCP_ST_PREPARE (mkPrepare [0] example_ballot (Some example_ballot) None 1 1)) ].

Definition example_confirm : event :=
  example_message 2 (SCP_ST_CONFIRM (mkConfirm example_ballot 1 1 1 [0])).

Definition state_of (r : result scp_error SlotState) : SlotState :=
  match r with Ok s => s | Err _ => initSlot example_env end.

Definition example_confirmed : SlotState :=
  state_of (run example_env example_accept (initSlot example_env)).

Definition example_externalized : SlotState :=
  state_of (run example_env [example_confirm] example_confirmed).

Lemma example_hosted : hosted [1] 7 example_env.
Proof. split_and!; [done..|apply three_nodes_proper]. Qed.

Lemma example_deliverable (ev : event) :
  ev ∈ example_confirm :: example_accept -> deliverable 7 ev.
Proof.
  intros H. apply list_elem_of_In in H. cbn in H.
  repeat (destruct H as [<-|H]; [cbn; unfold ballot_statement, opt_u32, ballot_u32; cbn|]);
    try done; split_and!; try done; try (intros ? [= <-]); unfold_ints; cbn; lia.
Qed.

Lemma example_confirmed_reachable : reachable [1] 7 example_confirmed.
Proof.
  apply (rtc_reachable _ _ (initSlot example_env)).
  - apply reach_init, example_hosted.
  - apply (run_next _ _ example_env example_accept); [apply example_hosted| |by vm_compute].
    apply Forall_forall. intros ev Hev. apply example_deliverable. by right.
Qed.

Lemma example_externalized_next : rtc (next [1] 7) example_confirmed example_externalized.
Proof.
  apply (run_next _ _ example_env [example_confirm]); [apply example_hosted| |by vm_compute].
  apply Forall_forall. intros ev ->%list_elem_of_singleton. apply example_deliverable. by left.
Qed.

Lemma ballot_events_safe_witness :
  (exists s', handle example_env example_confirm example_confirmed = Ok (tt, s')) /\
  match handle example_env example_confirm example_confirmed with
  | Ok (_, s') => reachable [1] 7 s' /\ quiet (bp s')
  | Err e => allowed_at example_confirmed e
  end.
Proof.
  split; [eexists; vm_compute; reflexivity|].
  apply (ballot_events_safe [1] 7).
  - apply example_confirmed_reachable.
  - apply example_hosted.
  - apply example_deliverable. by left.
Defined.

Lemma commit_is_irrevocable_witness :
  mPhase (bp example_confirmed) = SCP_PHASE_CONFIRM /\
  mPhase (bp example_externalized) = SCP_PHASE_EXTERNALIZE /\
  exists c', mCommit (bp example_externalized) = Some c' /\ value c' = [5].
Proof.
  split; [vm_compute; reflexivity|]. split; [vm_compute; reflexivity|].
  apply (commit_is_irrevocable [1] 7 example_confirmed example_externalized example_ballot).
  - apply example_confirmed_reachable.
  - apply example_externalized_next.
  - vm_compute; discriminate.
  - vm_compute; reflexivity.
Defined.

Lemma externalized_exactly_once_witness :
  announced (effects example_externalized) = [[5]] /\
  (mPhase (bp example_externalized) = SCP_PHASE_EXTERNALIZE ->
   exists c, mCommit (bp example_externalized) = Some c).
Proof.
  split; [vm_compute; reflexivity|]. apply (externalized_exactly_once [1] 7).
  apply (rtc_reachable _ _ example_confirmed);
    [apply example_confirmed_reachable|apply example_externalized_next].
Defined.
