(* ===== verification/BallotDecisions.v ===== *)
(** * Ballot protocol: why it decides, and how it is restored

    The handlers of [advanceSlot] only act on what federated voting allows;
    the interval a commit handler works with is the best one; a slot restored
    from its own last message is the slot that made it.  The end of the file
    holds runs that show where the code stops. *)
From stdpp Require Import base tactics list sorting numbers sets gmap.
From Stdlib Require Import ZArith Lia Bool.
From S2P Require Import Prelude Containers QuorumSet LocalNode Statement SlotState.
From S2P Require Import FederatedVoting BallotProtocol BallotInvariant BallotSafety BallotTheorems.

Open Scope Z_scope.
Open Scope kin_scope.

(** ** The interval *)

(** The rest of the search once [hi] is fixed: [lo] is the last boundary
    reached before the predicate fails. *)
Lemma extend_down (pred : Interval -> bool) (l : list Z) (lo hi : Z) :
  StronglySorted Z.gt l -> Forall (fun b => 0 < b < lo) l -> 0 < lo <= hi ->
  let r := findExtendedInterval (lo, hi) l pred in
  snd r = hi /\ (fst r = lo \/ fst r ∈ l) /\ fst r <= lo /\
  (forall b, b ∈ l -> fst r <= b -> pred (b, hi) = true) /\
  (forall b, b ∈ l -> b < fst r ->
   exists b', b' ∈ l /\ b <= b' < fst r /\ pred (b', hi) = false).
Proof.
  revert lo. induction l as [|x l IH]; intros lo Hs Hl Hlo.
  { cbn. split_and!; auto; [lia|..]; intros b []%not_elem_of_nil. }
  inversion Hs as [|? ? Hs' Hx]; subst. inversion Hl as [|? ? Hxl Hl']; subst.
  rewrite Forall_forall in Hx. cbn [findExtendedInterval fst snd].
  destruct (Z.eqb_spec lo 0); [lia|]. destruct (Z.ltb_spec hi x); [lia|].
  destruct (pred (x, hi)) eqn:Ep.
  - destruct (IH x) as (E & Hin & Hle & Hok & Hmax); [done| |lia|].
    { apply Forall_forall. intros b Hb. rewrite Forall_forall in Hl'.
      specialize (Hx _ Hb). specialize (Hl' _ Hb). lia. }
    cbv zeta. split_and!; [done| |lia| |].
    + right. destruct Hin as [->|Hin]; set_solver.
    + intros b [->|Hb]%elem_of_cons; [done|auto].
    + intros b [->|Hb]%elem_of_cons Hlt; [lia|].
      destruct (Hmax b Hb Hlt) as (b' & Hb' & ?). exists b'. split; [set_solver|done].
  - cbn. split_and!; [done|by left|lia| |].
    + intros b [->|Hb]%elem_of_cons ?; [lia|]. specialize (Hx _ Hb). lia.
    + intros b Hb _. exists x. split; [set_solver|]. split; [|done].
      apply elem_of_cons in Hb as [->|Hb]; [lia|]. specialize (Hx _ Hb). lia.
Qed.

(** What [findExtendedInterval] promises on the boundaries [l]. *)
Definition best_interval (pred : Interval -> bool) (l : list Z) (r : Interval) : Prop :=
  (r = (0, 0) /\ forall b, b ∈ l -> pred (b, b) = false) \/
  (fst r ∈ l /\ snd r ∈ l /\ fst r <= snd r /\
   pred (snd r, snd r) = true /\ (forall b, b ∈ l -> snd r < b -> pred (b, b) = false) /\
   (forall b, b ∈ l -> fst r <= b <= snd r -> pred (b, snd r) = true) /\
   (forall b, b ∈ l -> b < fst r ->
    exists b', b' ∈ l /\ b <= b' < fst r /\ pred (b', snd r) = false)).

Lemma find_down (pred : Interval -> bool) (l : list Z) :
  StronglySorted Z.gt l -> Forall (fun b => 0 < b) l ->
  best_interval pred l (findExtendedInterval (0, 0) l pred).
Proof.
  induction l as [|x l IH]; intros Hs Hl.
  { left. split; [done|]. intros b []%not_elem_of_nil. }
  inversion Hs as [|? ? Hs' Hx]; subst. inversion Hl as [|? ? Hx0 Hl']; subst.
  assert (forall b, b ∈ l -> 0 < b < x) as Hbelow.
  { rewrite Forall_forall in Hx, Hl'. intros b Hb. specialize (Hx _ Hb).
    specialize (Hl' _ Hb). lia. }
  cbn [findExtendedInterval fst]. rewrite Z.eqb_refl. destruct (pred (x, x)) eqn:Ep.
  - destruct (extend_down pred l x x) as (E & Hin & Hle & Hok & Hmax); [done| |lia|].
    { by apply Forall_forall. }
    right. rewrite E. split_and!; [| |lia|done| | |].
    + destruct Hin as [->|Hin]; set_solver.
    + set_solver.
    + intros b [->|Hb]%elem_of_cons ?; [lia|]. specialize (Hbelow _ Hb). lia.
    + intros b [->|Hb]%elem_of_cons ?; [done|]. apply Hok; [done|lia].
    + intros b [->|Hb]%elem_of_cons Hlt; [lia|].
      destruct (Hmax b Hb Hlt) as (b' & Hb' & ?). exists b'. split; [set_solver|done].
  - destruct (IH Hs' Hl') as [[E Hn]|(H1 & H2 & H3 & H4 & H5 & H6 & H7)].
    + left. split; [done|]. intros b [->|Hb]%elem_of_cons; [done|auto].
    + right. split_and!; [set_solver..|lia|done| | |].
      * intros b [->|Hb]%elem_of_cons ?; [done|auto].
      * intros b [->|Hb]%elem_of_cons ?; [|auto]. specialize (Hbelow _ H2). lia.
      * intros b [->|Hb]%elem_of_cons Hlt; [specialize (Hbelow _ H1); lia|].
        destruct (H7 b Hb Hlt) as (b' & Hb' & ?). exists b'. split; [set_solver|done].
Qed.

Lemma rev_increasing (l : list Z) : increasing l -> StronglySorted Z.gt (rev l).
Proof.
  induction 1 as [|x l Hs IH Hx]; simpl; [constructor|].
  rewrite Forall_forall in Hx. revert IH.
  enough (forall m, (forall b, b ∈ m -> x < b) -> StronglySorted Z.gt m ->
    StronglySorted Z.gt (m ++ [x])) as Hk.
  { apply Hk. intros b. rewrite list_elem_of_In, <- in_rev, <- list_elem_of_In.
    intros Hb. apply Hx in Hb. unfold ltb, LtB_Z in Hb. by bprop. }
  intros m Hm. induction 1 as [|y m Hm' IHm Hy]; simpl; [repeat constructor|].
  constructor; [apply IHm; set_solver|]. apply Forall_app. split; [done|].
  constructor; [|done]. specialize (Hm y). set_solver by lia.
Qed.

(** The interval search finds the best interval: its upper end is the
    highest boundary that satisfies the predicate on its own, its lower end is
    the lowest boundary reached from there without a failure, and there is no
    interval exactly when no boundary satisfies the predicate. *)
Theorem findExtendedInterval_best (pred : Interval -> bool) (boundaries : list Z) :
  let l := set_of_list boundaries in
  Forall (fun b => 0 < b) boundaries ->
  best_interval pred l (findExtendedInterval (0, 0) (rev l) pred).
Proof.
  intros l Hpos.
  assert (forall b, b ∈ rev l <-> b ∈ l) as Hrev.
  { intros b. by rewrite list_elem_of_In, <- in_rev, <- list_elem_of_In. }
  assert (best_interval pred (rev l) (findExtendedInterval (0, 0) (rev l) pred)) as Hb.
  { apply find_down; [apply rev_increasing, increasing_set_of_list|].
    apply Forall_forall. intros b. rewrite Hrev. unfold l. rewrite elem_of_set_of_list.
    rewrite Forall_forall in Hpos. apply Hpos. }
  unfold best_interval in *. setoid_rewrite Hrev in Hb. exact Hb.
Qed.

(** ** The decisions *)

Lemma wp_run {A} (m : M A) (s : SlotState) :
  wp (fun _ => True) m (fun r s' => m s = Ok (r, s')) s.
Proof. unfold wp. by destruct (m s) as [[a s']|]. Qed.

Lemma run_true (m : M bool) (s s' : SlotState) (Q : SlotState -> Prop) :
  wp (fun _ => True) m (fun r s' => r = true -> Q s') s -> m s = Ok (true, s') -> Q s'.
Proof. unfold wp. intros H E. rewrite E in H. by apply H. Qed.

Lemma elem_of_rev {A} (x : A) (l : list A) : x ∈ rev l <-> x ∈ l.
Proof. by rewrite list_elem_of_In, <- in_rev, <- list_elem_of_In. Qed.

Section decisions.
Context (env : SlotEnv) (pself : EnvelopeWrapper -> M EnvelopeState).

(** What each handler does when it reports work, in terms of the tests of
    [federatedAccept] and [federatedRatify]. *)
Lemma acceptPrepared_loop_decides (l : list SCPBallot) (s : SlotState) :
  wp (fun _ => True) (acceptPrepared_loop env pself l) (fun r s' => r = true ->
    exists ballot, ballot ∈ l /\
      federatedAccept env (votesPrepared ballot) (hasPreparedBallot ballot)
        (mLatestEnvelopes (bp s)) = true /\
      setAcceptPrepared env pself ballot s = Ok (true, s')) s.
Proof.
  induction l as [|ballot l IH]; cbn [acceptPrepared_loop]; wps; [done|].
  assert (wp (fun _ => True) (acceptPrepared_loop env pself l) (fun r s' => r = true ->
    exists b, b ∈ ballot :: l /\
      federatedAccept env (votesPrepared b) (hasPreparedBallot b) (mLatestEnvelopes (bp s)) = true /\
      setAcceptPrepared env pself b s = Ok (true, s')) s) as Hrest.
  { eapply wp_mono; [exact IH|]. intros r s' H Hr. destruct (H Hr) as (b & Hb & ?).
    exists b. split; [set_solver|done]. }
  apply (wp_mono _ _ (fun _ s' => s' = s)).
  { wp_if Hp; wps; [|done]. apply wp_must; [done|]. intros p Ep. wp_if Hl; wps; [done|].
    apply wp_must; [done|]. intros c Ec. wps. apply wp_check_or; [done|]. intros _. by wps. }
  intros skip ? ->. destruct skip; [done|]. wp_if Hpp; [done|]. wp_if Hc; [done|].
  wp_if Ha; [|done]. eapply wp_mono; [apply wp_run|]. intros r s' Hrun ->.
  exists ballot. split; [set_solver|done].
Qed.

Lemma attemptAcceptPrepared_decides (hint : SCPStatement) (s s' : SlotState) :
  attemptAcceptPrepared env pself hint s = Ok (true, s') ->
  exists ballot, ballot ∈ getPrepareCandidates (bp s) hint /\
    federatedAccept env (votesPrepared ballot) (hasPreparedBallot ballot)
      (mLatestEnvelopes (bp s)) = true /\
    setAcceptPrepared env pself ballot s = Ok (true, s').
Proof.
  intros Hrun. pattern s'. eapply run_true; [|exact Hrun]. cbv beta. clear Hrun.
  unfold attemptAcceptPrepared. wps. wp_if Hp; wps; [done|].
  eapply wp_mono; [apply acceptPrepared_loop_decides|]. intros r s1 H Hr.
  destruct (H Hr) as (b & Hb & ?). exists b. by rewrite elem_of_rev in Hb.
Qed.

Lemma attemptConfirmPrepared_decides (hint : SCPStatement) (s s' : SlotState) :
  attemptConfirmPrepared env pself hint s = Ok (true, s') ->
  exists newC newH,
    federatedRatify env (hasPreparedBallot newH) (mLatestEnvelopes (bp s)) = true /\
    (counter newC <> 0 -> areBallotsLessAndCompatible newC newH = true /\
     federatedRatify env (hasPreparedBallot newC) (mLatestEnvelopes (bp s)) = true) /\
    setConfirmPrepared env pself newC newH s = Ok (true, s').
Proof.
  intros Hrun. pattern s'. eapply run_true; [|exact Hrun]. cbv beta. clear Hrun.
  unfold attemptConfirmPrepared. wps. wp_if Hp; wps; [done|]. wp_if Hpr; wps; [done|].
  destruct (find_newH _ _ _) as [[newH cur]|] eqn:EH; [|by wps].
  apply find_newH_spec in EH as (_ & Hrat & _ & _).
  match goal with |- wp _ (setConfirmPrepared _ _ ?c _) _ _ => set (newC := c) end.
  eapply wp_mono; [apply wp_run|]. intros r s1 E ->. exists newC, newH. split; [done|].
  split; [|done]. intros Hz. unfold newC in *.
  match type of Hz with context [if ?g then _ else _] => destruct g end; [|done].
  match type of Hz with context [find_newC ?b ?h ?c ?r ?l] =>
    destruct (find_newC_spec b h c r l) as [E'|(_ & Hl & Hr)] end; [by rewrite E' in Hz|done].
Qed.

Lemma attemptAcceptCommit_decides (hint : SCPStatement) (s s' : SlotState) :
  core (bp s) -> attemptAcceptCommit env pself hint s = Ok (true, s') ->
  exists ballot lo hi, commitHint hint = Some ballot /\ 0 < lo <= hi /\
    federatedAccept env (votesCommit ballot (lo, hi)) (commitPredicate ballot (lo, hi))
      (mLatestEnvelopes (bp s)) = true /\
    setAcceptCommit env pself (mkBallot lo (value ballot)) (mkBallot hi (value ballot)) s =
      Ok (true, s').
Proof.
  intros Hc Hrun.
  pattern s'. eapply run_true; [|exact Hrun]. cbv beta. clear Hrun.
  unfold attemptAcceptCommit. wps. wp_if Hp; wps; [done|].
  destruct (commitHint hint) as [ballot|]; [|by wps]. wps.
  apply (wp_mono _ _ (fun _ s' => s' = s)).
  { wp_if Hcf; wps; [|done]. apply wp_must; [done|]. intros h Eh. by wps. }
  intros stop ? ->. wps. destruct stop; wps; [done|].
  match goal with |- context [findExtendedInterval _ _ ?f] => set (pred := f) end.
  destruct (commit_interval (bp s) ballot pred Hc) as ((? & _) & _ & Hle & Hpred).
  destruct (getCommitBoundariesFromStatements (bp s) ballot) as [|x l]; [by wps|].
  set (i := findExtendedInterval _ _ pred) in *.
  wp_if Hz; wps; [|done]. bprop. specialize (Hpred Hz).
  apply (wp_mono _ _ (fun _ s' => s' = s)).
  { wp_if Hcf; wps; [|done]. apply wp_must; [done|]. intros h Eh. by wps. }
  intros go ? ->. destruct go; wps; [|done].
  eapply wp_mono; [apply wp_run|]. intros r s1 E ->. exists ballot, (fst i), (snd i).
  rewrite <- surjective_pairing. split; [done|]. split; [lia|done].
Qed.

Lemma attemptConfirmCommit_decides (hint : SCPStatement) (s s' : SlotState) :
  core (bp s) -> attemptConfirmCommit env pself hint s = Ok (true, s') ->
  exists ballot lo hi, commitHint hint = Some ballot /\ 0 < lo <= hi /\
    federatedRatify env (commitPredicate ballot (lo, hi)) (mLatestEnvelopes (bp s)) = true /\
    setConfirmCommit env pself (mkBallot lo (value ballot)) (mkBallot hi (value ballot)) s =
      Ok (true, s').
Proof.
  intros Hc Hrun.
  pattern s'. eapply run_true; [|exact Hrun]. cbv beta. clear Hrun.
  unfold attemptConfirmCommit. wps. wp_if Hp; wps; [done|].
  destruct (mHighBallot (bp s)) as [h|]; [|by wps].
  destruct (mCommit (bp s)) as [c|]; [|by wps].
  destruct (pledges hint); try (by wps);
    (destruct (commitHint hint) as [ballot|]; [|by wps]); (wp_if Hco; wps; [done|]);
    match goal with |- context [findExtendedInterval _ _ ?f] => set (pred := f) end;
    destruct (commit_interval (bp s) ballot pred Hc) as ((? & _) & _ & Hle & Hpred);
    set (i := findExtendedInterval _ _ pred) in *;
    (wp_if Hz; wps; [|done]); bprop; specialize (Hpred Hz);
    (eapply wp_mono; [apply wp_run|]); intros r s1 E ->; exists ballot, (fst i), (snd i);
    rewrite <- surjective_pairing; (split; [done|]); (split; [lia|done]).
Qed.
End decisions.

Section justified.
Context (env : SlotEnv) (pself : EnvelopeWrapper -> M EnvelopeState).
Context (Hlocal : proper (mQSet (localNode env))).
Context (Hdriver : forall h q, getQSet (driver env) h = Some q -> proper q).

Lemma ratify_quorum (f : SCPStatement -> bool) (envs : list (NodeID * EnvelopeWrapper)) :
  federatedRatify env f envs = true -> exists U, agreeing_quorum env envs f U.
Proof. by apply federatedRatify_iff. Qed.

(** Decisions on prepared ballots are justified: the node accepts a ballot
    as prepared only when a v-blocking set accepted it or a quorum votes for
    it or accepts it, and confirms [h] (and [c]) as prepared only when a quorum
    accepted them. *)
Theorem prepared_justified (hint : SCPStatement) (s s' : SlotState) :
  (attemptAcceptPrepared env pself hint s = Ok (true, s') ->
   exists ballot, ballot ∈ getPrepareCandidates (bp s) hint /\
     accept_rule env (mLatestEnvelopes (bp s)) (votesPrepared ballot) (hasPreparedBallot ballot) /\
     setAcceptPrepared env pself ballot s = Ok (true, s')) /\
  (attemptConfirmPrepared env pself hint s = Ok (true, s') ->
   exists newC newH,
     (exists U, agreeing_quorum env (mLatestEnvelopes (bp s)) (hasPreparedBallot newH) U) /\
     (counter newC <> 0 -> areBallotsLessAndCompatible newC newH = true /\
      exists U, agreeing_quorum env (mLatestEnvelopes (bp s)) (hasPreparedBallot newC) U) /\
     setConfirmPrepared env pself newC newH s = Ok (true, s')).
Proof.
  split.
  - intros (b & Hb & Ha & Hs)%attemptAcceptPrepared_decides. exists b.
    split; [done|]. split; [|done]. by apply federatedAccept_rule.
  - intros (c & h & Hh & Hc & Hs)%attemptConfirmPrepared_decides. exists c, h.
    split; [by apply ratify_quorum|]. split; [|done]. intros Hz.
    destruct (Hc Hz) as [Hl Hr]. split; [done|]. by apply ratify_quorum.
Qed.

(** C27. Decisions on commits are justified: the node accepts an interval of
    commits only when a v-blocking set accepted it or a quorum votes for it or
    accepts it, and externalizes only when a quorum accepted the interval; the
    interval is not empty and carries the value of the statement that led to
    it. *)
Theorem commit_justified (hint : SCPStatement) (s s' : SlotState) :
  core (bp s) ->
  (attemptAcceptCommit env pself hint s = Ok (true, s') ->
   exists ballot lo hi, commitHint hint = Some ballot /\ 0 < lo <= hi /\
     accept_rule env (mLatestEnvelopes (bp s)) (votesCommit ballot (lo, hi))
       (commitPredicate ballot (lo, hi)) /\
     setAcceptCommit env pself (mkBallot lo (value ballot)) (mkBallot hi (value ballot)) s =
       Ok (true, s')) /\
  (attemptConfirmCommit env pself hint s = Ok (true, s') ->
   exists ballot lo hi, commitHint hint = Some ballot /\ 0 < lo <= hi /\
     (exists U, agreeing_quorum env (mLatestEnvelopes (bp s)) (commitPredicate ballot (lo, hi)) U) /\
     setConfirmCommit env pself (mkBallot lo (value ballot)) (mkBallot hi (value ballot)) s =
       Ok (true, s')).
Proof.
  intros Hc. split.
  - intros (b & lo & hi & Hh & Hlo & Ha & Hs)%attemptAcceptCommit_decides; [|done].
    exists b, lo, hi. split; [done|]. split; [done|]. split; [|done]. by apply federatedAccept_rule.
  - intros (b & lo & hi & Hh & Hlo & Ha & Hs)%attemptConfirmCommit_decides; [|done].
    exists b, lo, hi. split; [done|]. split; [done|]. split; [|done]. by apply ratify_quorum.
Qed.
End justified.

(** ** Restoring a slot from its last message *)

Lemma ballot_eta (b : SCPBallot) (v : Value) : value b = v -> b = mkBallot (counter b) v.
Proof. destruct b. by intros <-. Qed.

(** [h] and [c] carry the value of [b]. *)
Lemma core_values (b : BallotState) (cur : SCPBallot) :
  core b -> mCurrentBallot b = Some cur ->
  (forall h, mHighBallot b = Some h -> value h = value cur) /\
  (forall c, mCommit b = Some c -> value c = value cur).
Proof.
  intros Hc Ecur.
  assert (forall h, mHighBallot b = Some h -> value h = value cur) as Hh.
  { intros h (cur' & E & [_ ?]%less_compatible_true)%(core_high _ Hc). congruence. }
  split; [done|]. intros c (h & Eh & [_ ?]%less_compatible_true)%(core_commit _ Hc).
  rewrite <- (Hh _ Eh). done.
Qed.

Lemma createStatement_quiet (env : SlotEnv) (s : SlotState) :
  quiet (bp s) -> exists pl, createStatement env (mPhase (bp s)) s = Ok (pl, s).
Proof.
  intros Hq. pose proof (quiet_core _ Hq) as Hc. unfold createStatement, bind.
  rewrite checkInvariants_quiet by done. unfold bget, gets.
  pose proof (core_phase _ Hc) as Hph. pose proof (quiet_prepared _ Hq) as Hpr.
  destruct (mPhase (bp s)); [by eexists| |];
    (destruct (Hph ltac:(done)) as [Hi _]; destruct (mCommit (bp s)) as [c|] eqn:Ec; [|done]);
    destruct (core_commit _ Hc _ Ec) as (h & Eh & _);
    destruct (core_high _ Hc _ Eh) as (cur & Ecur & _); unfold id; rewrite ?Eh, ?Ecur, ?Ec.
  - destruct (mPrepared (bp s)); [by eexists|by specialize (Hpr eq_refl)].
  - by eexists.
Qed.

(** [setStateFromEnvelope] in a fresh slot, by kind of statement. *)
Lemma restore_prepare (env : SlotEnv) (e : EnvelopeWrapper) (p : Prepare) :
  pledges (getStatement e) = SCP_ST_PREPARE p ->
  exists s', setStateFromEnvelope env e (initSlot env) = Ok (tt, s') /\
    mPhase (bp s') = SCP_PHASE_PREPARE /\ ballots (bp s') =
      (Some (p_ballot p), p_prepared p, p_preparedPrime p,
       if p_nH p =? 0 then None else Some (mkBallot (p_nH p) (value (p_ballot p))),
       if p_nC p =? 0 then None else Some (mkBallot (p_nC p) (value (p_ballot p)))).
Proof.
  intros E. unfold setStateFromEnvelope, bind. cbn. rewrite E. cbn.
  destruct (p_prepared p), (p_preparedPrime p), (p_nH p =? 0), (p_nC p =? 0);
    (eexists; split; [reflexivity|]); done.
Qed.

Lemma restore_confirm (env : SlotEnv) (e : EnvelopeWrapper) (c : Confirm) :
  pledges (getStatement e) = SCP_ST_CONFIRM c ->
  exists s', setStateFromEnvelope env e (initSlot env) = Ok (tt, s') /\
    mPhase (bp s') = SCP_PHASE_CONFIRM /\ ballots (bp s') =
      (Some (c_ballot c), Some (mkBallot (c_nPrepared c) (value (c_ballot c))), None,
       Some (mkBallot (c_nH c) (value (c_ballot c))),
       Some (mkBallot (c_nCommit c) (value (c_ballot c)))).
Proof.
  intros E. unfold setStateFromEnvelope, bind. cbn. rewrite E. cbn. by eexists.
Qed.

Lemma restore_externalize (env : SlotEnv) (e : EnvelopeWrapper) (x : Externalize) :
  pledges (getStatement e) = SCP_ST_EXTERNALIZE x ->
  exists s', setStateFromEnvelope env e (initSlot env) = Ok (tt, s') /\
    mPhase (bp s') = SCP_PHASE_EXTERNALIZE /\ ballots (bp s') =
      (Some (mkBallot UINT32_MAX (value (e_commit x))),
       Some (mkBallot UINT32_MAX (value (e_commit x))), None,
       Some (mkBallot (e_nH x) (value (e_commit x))), Some (e_commit x)).
Proof.
  intros E. unfold setStateFromEnvelope, bind. cbn. rewrite E. cbn. by eexists.
Qed.

(** What a node that restarts from the message made in state [b] restores. *)
Definition restored (b : BallotState) : SCPPhase * (option SCPBallot * option SCPBallot *
    option SCPBallot * option SCPBallot * option SCPBallot) :=
  (mPhase b,
   match mPhase b, mCommit b with
   | SCP_PHASE_EXTERNALIZE, Some c =>
       (Some (mkBallot UINT32_MAX (value c)), Some (mkBallot UINT32_MAX (value c)), None,
        mHighBallot b, mCommit b)
   | _, _ => ballots b
   end).

Lemma opt_counter_eta (o : option SCPBallot) (v : Value) :
  (forall b, o = Some b -> counter b <> 0 /\ value b = v) ->
  (if match o with Some b => counter b | None => 0 end =? 0 then None
   else Some (mkBallot (match o with Some b => counter b | None => 0 end) v)) = o.
Proof.
  destruct o as [b|]; intros H; [|done]. destruct (H _ eq_refl) as [Hz <-].
  rewrite (proj2 (Z.eqb_neq _ _) Hz). by destruct b.
Qed.

(** C38. Round trip: the message a node makes in any quiet state of an active
    slot (with positive counters in [h] and [c] and, in the CONFIRM phase, [p]
    on the value of [b]) restores that state in a fresh slot: the phase and
    all ballots, except that an externalized slot restarts with [b] and [p] at
    the largest counter. *)
Theorem restore_roundtrip (env : SlotEnv) (s : SlotState) (cur : SCPBallot) (n : Z) :
  quiet (bp s) -> mCurrentBallot (bp s) = Some cur ->
  (forall b, mHighBallot (bp s) = Some b \/ mCommit (bp s) = Some b -> counter b <> 0) ->
  (forall p, mPhase (bp s) = SCP_PHASE_CONFIRM -> mPrepared (bp s) = Some p ->
   value p = value cur) ->
  exists pl s', createStatement env (mPhase (bp s)) s = Ok (pl, s) /\
    setStateFromEnvelope env (mkWrapper n (createEnvelope env pl)) (initSlot env) = Ok (tt, s') /\
    (mPhase (bp s'), ballots (bp s')) = restored (bp s).
Proof.
  intros Hq Ecur Hnz Hp. destruct (createStatement_quiet env s Hq) as [pl Hpl].
  pose proof (quiet_core _ Hq) as Hc. destruct (core_values _ _ Hc Ecur) as [Hh Hcv].
  exists pl. rewrite Hpl. revert Hpl. unfold createStatement, bind.
  rewrite checkInvariants_quiet by done. unfold bget, gets, id. rewrite Ecur.
  pose proof (core_phase _ Hc) as Hph. pose proof (quiet_prepared _ Hq) as Hpr.
  destruct (mPhase (bp s)) eqn:Ep.
  - intros [= <-].
    match goal with |- context [mkWrapper n ?x] =>
      destruct (restore_prepare env (mkWrapper n x) _ eq_refl) as (s' & E & E1 & E2) end.
    exists s'. split; [done|]. split; [exact E|]. unfold restored. rewrite Ep, E1, E2.
    cbn [p_ballot p_prepared p_preparedPrime p_nH p_nC default].
    rewrite !opt_counter_eta by eauto. unfold ballots. by rewrite Ecur.
  - destruct (Hph ltac:(done)) as [Hi Hpp].
    destruct (mCommit (bp s)) as [c|] eqn:Ec; [|done].
    destruct (core_commit _ Hc _ Ec) as (h & Eh & _). rewrite Eh.
    specialize (Hpr eq_refl). destruct (mPrepared (bp s)) as [p|] eqn:Epr; [|done].
    intros [= <-].
    match goal with |- context [mkWrapper n ?x] =>
      destruct (restore_confirm env (mkWrapper n x) _ eq_refl) as (s' & E & E1 & E2) end.
    exists s'. split; [done|]. split; [exact E|]. unfold restored. rewrite Ep, E1, E2.
    cbn [c_ballot c_nPrepared c_nH c_nCommit].
    rewrite <- !ballot_eta by eauto. unfold ballots. by rewrite Ecur, Epr, Hpp, Eh, Ec.
  - destruct (Hph ltac:(done)) as [Hi Hpp].
    destruct (mCommit (bp s)) as [c|] eqn:Ec; [|done].
    destruct (core_commit _ Hc _ Ec) as (h & Eh & _). rewrite Eh. intros [= <-].
    match goal with |- context [mkWrapper n ?x] =>
      destruct (restore_externalize env (mkWrapper n x) _ eq_refl) as (s' & E & E1 & E2) end.
    exists s'. split; [done|]. split; [exact E|]. unfold restored. rewrite Ep, Ec, E1, E2, Eh.
    cbn [e_commit e_nH]. rewrite <- ballot_eta; [done|].
    rewrite (Hh _ Eh). symmetry. by apply Hcv.
Qed.

(** ** Witnesses *)

(** The state in which node 1 decides: the CONFIRM message of node 2 is
    recorded. *)
Definition example_decide : SlotState :=
  match recordEnvelope example_env
          (mkWrapper (-1) (mkEnvelope (mkStatement [2] 7
             (SCP_ST_CONFIRM (mkConfirm example_ballot 1 1 1 [0]))) [])) example_confirmed with
  | Ok (_, s) => s
  | Err _ => example_confirmed
  end.

Lemma example_decide_quiet : quiet (bp example_decide).
Proof.
  pose proof (reachable_sound _ _ _ example_confirmed_reachable) as [Hq _ _].
  eapply (wp_ok _ _ (fun _ s' => quiet (bp s')) example_confirmed).
  - eapply wp_mono; [apply (recordEnvelope_spec example_env (anywhere example_env)
      ltac:(done) _ (mkWrapper (-1) (mkEnvelope (mkStatement [2] 7
        (SCP_ST_CONFIRM (mkConfirm example_ballot 1 1 1 [0]))) []))); [done| |by left]|].
    + unfold ballot_statement, ballot_u32; cbn; unfold_ints; lia.
    + by intros _ s' [].
  - reflexivity.
Qed.

Lemma example_driver_proper (h : Hash) (q : SCPQuorumSet) :
  getQSet (driver example_env) h = Some q -> proper q.
Proof. intros [= <-]. apply three_nodes_proper. Qed.

Lemma commit_justified_witness :
  exists s', attemptConfirmCommit example_env (processSelf example_env)
    (mkStatement [2] 7 (SCP_ST_CONFIRM (mkConfirm example_ballot 1 1 1 [0]))) example_decide =
      Ok (true, s') /\
  exists ballot lo hi, commitHint
      (mkStatement [2] 7 (SCP_ST_CONFIRM (mkConfirm example_ballot 1 1 1 [0]))) = Some ballot /\
    0 < lo <= hi /\
    (exists U, agreeing_quorum example_env (mLatestEnvelopes (bp example_decide))
       (commitPredicate ballot (lo, hi)) U) /\
    setConfirmCommit example_env (processSelf example_env) (mkBallot lo (value ballot))
      (mkBallot hi (value ballot)) example_decide = Ok (true, s').
Proof.
  eexists. split; [vm_compute; reflexivity|].
  eapply commit_justified.
  - apply three_nodes_proper.
  - apply example_driver_proper.
  - apply example_decide_quiet.
  - vm_compute; reflexivity.
Defined.

(** Node 1 has voted, and now hears the vote of node 2. *)
Definition example_vote : SlotState :=
  match recordEnvelope example_env
          (mkWrapper (-1) (mkEnvelope (mkStatement [2] 7
             (SCP_ST_PREPARE (mkPrepare [0] example_ballot None None 0 0))) []))
          (state_of (run example_env [BumpState [5] true] (initSlot example_env))) with
  | Ok (_, s) => s
  | Err _ => example_confirmed
  end.

Lemma restore_roundtrip_witness :
  exists pl s', createStatement example_env (mPhase (bp example_confirmed)) example_confirmed =
      Ok (pl, example_confirmed) /\
    setStateFromEnvelope example_env (mkWrapper 0 (createEnvelope example_env pl))
      (initSlot example_env) = Ok (tt, s') /\
    (mPhase (bp s'), ballots (bp s')) = restored (bp example_confirmed).
Proof.
  apply (restore_roundtrip example_env example_confirmed example_ballot 0).
  - apply (reachable_sound [1] 7), example_confirmed_reachable.
  - vm_compute; reflexivity.
  - intros b [H|H]; vm_compute in H; injection H as <-; vm_compute; discriminate.
  - intros p _ H. vm_compute in H. injection H as <-. vm_compute; reflexivity.
Defined.

(** ** Where the code stops *)

(** All three nodes are needed: any one of them is v-blocking. *)
Definition unanimous : SCPQuorumSet := mkQSet 3 [[1]; [2]; [3]] [].

Definition unanimous_env : SlotEnv :=
  mkSlotEnv 7 (mkLocalNode [1] true unanimous [0])
    (mkDriver (fun _ _ _ => kFullyValidatedValue) (fun _ v => Some v) (fun _ vs => last vs)
       (fun _ => Some unanimous) (fun _ => [])
       (fun _ _ _ _ id => match id with x :: _ => x | [] => 0 end) (fun _ _ _ _ => 0) 0).

Definition prepare_max (id : Z) : event :=
  example_message id
    (SCP_ST_PREPARE (mkPrepare [0] (mkBallot UINT32_MAX [5]) None None 0 0)).

(** A node whose counter was driven to the maximum stops on the next timeout:
    the counter wraps to zero in [bumpState] and the assertion of
    [updateCurrentValue] fails. *)
Theorem timeout_at_max_counter_aborts :
  run unanimous_env [BumpState [5] true; prepare_max 2; prepare_max 3; TimerExpired]
    (initSlot unanimous_env) = Err (DbgAbort A_UpdateNotBelowCurrent).
Proof. vm_compute. reflexivity. Qed.

(** A node that trusts node 2 alone. *)
Definition follower_env : SlotEnv :=
  mkSlotEnv 7 (mkLocalNode [1] true (mkQSet 1 [[2]] []) [0])
    (mkDriver (fun _ _ _ => kFullyValidatedValue) (fun _ v => Some v) (fun _ vs => last vs)
       (fun _ => Some (mkQSet 1 [[2]] [])) (fun _ => [])
       (fun _ _ _ _ id => match id with x :: _ => x | [] => 0 end) (fun _ _ _ _ => 0) 0).

(** A CONFIRM message with [nPrepared = 0] passes [isStatementSane] and makes
    a node that has not started yet move to a ballot with counter zero, which
    [checkInvariants] refuses. *)
Theorem zero_prepared_aborts :
  run follower_env
    [example_message 2 (SCP_ST_CONFIRM (mkConfirm (mkBallot 1 [5]) 0 0 0 [0]))]
    (initSlot follower_env) = Err (DbgAbort A_CounterNotZero).
Proof. vm_compute. reflexivity. Qed.

(** [getState] of an externalized slot the node has moved on from: a node it
    has heard from is reported as delayed, or as disagreeing, even when it
    externalized the same value. *)
Theorem getState_externalized_delayed (env : SlotEnv) (s : SlotState) (n : NodeID)
    (e lastEmit : EnvelopeWrapper) :
  mPhase (bp s) = SCP_PHASE_EXTERNALIZE -> n <> mNodeID (localNode env) ->
  map_find n (mLatestEnvelopes (bp s)) = Some e -> mLastEnvelopeEmit (bp s) = Some lastEmit ->
  ballot_getState env s n true = DELAYED \/ ballot_getState env s n true = DISAGREE.
Proof.
  intros Hp Hn He Hl. unfold ballot_getState. rewrite He, Hl, Hp.
  assert (eqb_of n (mNodeID (localNode env)) = false) as -> by by apply eqb_of_false.
  destruct (pledges (getStatement e)); cbn -[areBallotsCompatible];
    try destruct (counter _ =? _); cbn -[areBallotsCompatible];
    try destruct (areBallotsCompatible _ _); auto.
Qed.
