(* ===== verification/HerderValues.v ===== *)
(** * The values of consensus

    The functions of [src/herder/HerderSCPDriver.cpp] that implement the
    driver's view of values: [validateValue], [extractValidValue] and
    [combineCandidates], over the state of the herder they read
    ([src/herder/HerderImpl.cpp]), with the guards of
    [TxSetFrame::checkValid] and the memory of its last verdict.  Signatures,
    hashes, XDR and the check of the single transactions ([checkOrTrim]) are
    functions of the environment. *)
From stdpp Require Import base tactics list numbers sorting gmap.
From Stdlib Require Import ZArith Lia Bool.
From S2P Require Import Prelude Containers Numeric LedgerEntries Balances Upgrades Fees.
From S2P Require Import QuorumSet Statement SlotState.

Open Scope Z_scope.
Open Scope kin_scope.

(** ** Data *)

Record LedgerCloseValueSignature := {
  lc_nodeID : NodeID;
  lc_signature : Signature;
}.

(** [sv_ext] is [None] for [STELLAR_VALUE_BASIC]. *)
Record StellarValue := {
  sv_txSetHash : Hash;
  sv_closeTime : Z;
  sv_upgrades : list UpgradeType;
  sv_ext : option LedgerCloseValueSignature;
}.

Record TxSetFrame := {
  mPreviousLedgerHash : Hash;
  mTransactions : list TransactionFrameBase;
}.

Inductive HerderState :=
  | HERDER_BOOTING_STATE
  | HERDER_SYNCING_STATE
  | HERDER_TRACKING_NETWORK_STATE.

(** What the functions read: the last closed ledger, the clock, the state of
    the herder, the upgrades the node is armed with, the transaction sets it
    has, and the functions of other parts. *)
Record HerderEnv := {
  he_lcl : LedgerHeader;
  he_lclHash : Hash;
  he_timeNow : Z;
  he_state : HerderState;
  he_consensusIndex : Z;
  he_consensusCloseTime : Z;
  he_upgrades : UpgradeParameters;
  he_protocolVersion : Z;
  he_getTxSet : Hash -> option TxSetFrame;
  he_checkOrTrim : TxSetFrame -> Z -> Z -> bool;
  he_fullHash : TransactionFrameBase -> Hash;
  he_verifySig : NodeID -> Signature -> Hash -> Z -> bool;
  he_sha256 : Value -> Hash;
  he_decode : Value -> option StellarValue;
  he_encode : StellarValue -> option Value;
  he_decodeUpgrade : UpgradeType -> option LedgerUpgrade;
  he_encodeUpgrade : LedgerUpgrade -> UpgradeType;
}.

Inductive herder_error :=
  | HerderBooting              (** [releaseAssert] on the state *)
  | ConsensusIndexTooLarge     (** [releaseAssert] on the index *)
  | LclAheadOfTracking
  | InvalidUpgradeStep
  | NoHighestTxSet
  | XdrError
  | HerderFees (e : fee_error).

(** [mValid] of the transaction sets, by their hashes: the ledger it was
    computed for, and the verdict. *)
Notation ValidCache := (gmap Hash (Hash * bool)) (only parsing).
Notation Hd := (ST (gmap Hash (Hash * bool)) herder_error).

Definition MAX_TIME_SLIP_SECONDS : Z := 60.

Section herder.
Context (env : HerderEnv).

(** ** Transaction sets *)

(** [TxSetFrame::size]. *)
Definition txset_size (lh : LedgerHeader) (t : TxSetFrame) : Z :=
  if protocolVersionStartsFrom (ledgerVersion lh) 11 then sizeOp (mTransactions t)
  else Z.of_nat (length (mTransactions t)).

(** [std::is_sorted]. *)
Fixpoint is_sorted (l : list TransactionFrameBase) : bool :=
  match l with
  | a :: (b :: _) as l' => negb (ltb (he_fullHash env b) (he_fullHash env a)) && is_sorted l'
  | _ => true
  end.

(** [TxSetFrame::checkValid], of the transaction set with hash [h]. *)
Definition txset_checkValid (h : Hash) (t : TxSetFrame) (lower upper : Z) : Hd bool :=
  let! cache := get in
  let lcl := he_lclHash env in
  let verdict (b : bool) : Hd bool := modify (fun m => <[h := (lcl, b)]> m) ;;! ret b in
  let compute :=
    if negb (bool_decide (lcl = mPreviousLedgerHash t)) then verdict false
    else if maxTxSetSize (he_lcl env) <? txset_size (he_lcl env) t then verdict false
    else if negb (is_sorted (mTransactions t)) then verdict false
    else verdict (he_checkOrTrim env t lower upper) in
  match cache !! h with
  | Some (l, b) => if bool_decide (l = lcl) then ret b else compute
  | None => compute
  end.

(** ** The herder *)

Definition isTracking : bool :=
  match he_state env with HERDER_TRACKING_NETWORK_STATE => true | _ => false end.

Definition trackingConsensusLedgerIndex : result herder_error Z :=
  match he_state env with
  | HERDER_BOOTING_STATE => Err HerderBooting
  | _ =>
      if negb (he_consensusIndex env <=? UINT32_MAX) then Err ConsensusIndexTooLarge
      else if he_consensusIndex env <? ledgerSeq (he_lcl env) then Err LclAheadOfTracking
      else Ok (he_consensusIndex env)
  end.

Definition nextConsensusLedgerIndex : result herder_error Z :=
  let? i := trackingConsensusLedgerIndex in Ok (u32 (i + 1)).

Definition trackingConsensusCloseTime : result herder_error Z :=
  match he_state env with
  | HERDER_BOOTING_STATE => Err HerderBooting
  | _ => Ok (he_consensusCloseTime env)
  end.

Definition verifyStellarValueSignature (sig : LedgerCloseValueSignature) (sv : StellarValue) : bool :=
  he_verifySig env (lc_nodeID sig) (lc_signature sig) (sv_txSetHash sv) (sv_closeTime sv).

(** ** Validating values *)

Definition checkCloseTime (lastCloseTime : Z) (b : StellarValue) : bool :=
  if sv_closeTime b <=? lastCloseTime then false
  else if u64 (he_timeNow env + MAX_TIME_SLIP_SECONDS) <? sv_closeTime b then false
  else true.

(** A computation that does not touch the transaction sets. *)
Definition pure_step {A} (m : result herder_error A) : Hd A :=
  fun s => match m with Ok a => Ok (a, s) | Err e => Err e end.

(** A value for another ledger than the next one. *)
Definition validateOtherSlot (slotIndex : Z) (b : StellarValue) : result herder_error ValidationLevel :=
  let lcl := he_lcl env in
  let lastCloseTime := scpValue_closeTime lcl in
  let bad :=
    if slotIndex =? ledgerSeq lcl then negb (sv_closeTime b =? lastCloseTime)
    else if slotIndex <? ledgerSeq lcl then lastCloseTime <=? sv_closeTime b
    else negb (checkCloseTime lastCloseTime b) in
  if bad then Ok kInvalidValue else
  if negb isTracking then Ok kMaybeValidValue else
  let? next := nextConsensusLedgerIndex in
  if slotIndex <? next then Ok kMaybeValidValue else
  if next <? slotIndex then Ok kInvalidValue else
  let? lastCloseTime := trackingConsensusCloseTime in
  if negb (checkCloseTime lastCloseTime b) then Ok kInvalidValue else
  Ok kMaybeValidValue.

Definition validateValueHelper (slotIndex : Z) (b : StellarValue) : Hd ValidationLevel :=
  match sv_ext b with
  | None => ret kInvalidValue
  | Some sig =>
      if negb (verifyStellarValueSignature sig b) then ret kInvalidValue else
      let lcl := he_lcl env in
      let lastCloseTime := scpValue_closeTime lcl in
      if negb (slotIndex =? u32 (ledgerSeq lcl + 1)) then pure_step (validateOtherSlot slotIndex b) else
      if negb (checkCloseTime lastCloseTime b) then ret kInvalidValue else
      let closeTimeOffset := u64 (sv_closeTime b - lastCloseTime) in
      match he_getTxSet env (sv_txSetHash b) with
      | None => ret kInvalidValue
      | Some txSet =>
          let! ok := txset_checkValid (sv_txSetHash b) txSet closeTimeOffset closeTimeOffset in
          if (ok : bool) then ret kFullyValidatedValue else ret kInvalidValue
      end
  end.

Definition herder_validateValue (slotIndex : Z) (value : Value) (nomination : bool)
    : Hd ValidationLevel :=
  match he_decode env value with
  | None => ret kInvalidValue
  | Some b =>
      let! res := validateValueHelper slotIndex b in
      match res with
      | kInvalidValue => ret kInvalidValue
      | _ =>
          if check_upgrades (he_decodeUpgrade env) (he_upgrades env) nomination
               (he_protocolVersion env) (he_lcl env) None (sv_upgrades b)
          then ret res else ret kInvalidValue
      end
  end.

Definition set_upgrades (u : list UpgradeType) (b : StellarValue) : StellarValue :=
  {| sv_txSetHash := sv_txSetHash b; sv_closeTime := sv_closeTime b; sv_upgrades := u;
     sv_ext := sv_ext b |}.

Definition wrapStellarValue (sv : StellarValue) : result herder_error Value :=
  match he_encode env sv with Some v => Ok v | None => Err XdrError end.

Definition likes (u : UpgradeType) : bool :=
  isSome (isValid (he_decodeUpgrade env) (he_upgrades env) u true (he_protocolVersion env)
            (he_lcl env)).

Definition herder_extractValidValue (slotIndex : Z) (value : Value) : Hd (option Value) :=
  match he_decode env value with
  | None => ret None
  | Some b =>
      let! level := validateValueHelper slotIndex b in
      match level with
      | kFullyValidatedValue =>
          let! v := pure_step (wrapStellarValue (set_upgrades (List.filter likes (sv_upgrades b)) b)) in
          ret (Some v)
      | _ => ret None
      end
  end.

(** ** Combining candidates *)

(** A second upgrade of a type: the highest is kept. *)
Definition merge_upgrade (cl l : LedgerUpgrade) : result herder_error LedgerUpgrade :=
  match cl, l with
  | LEDGER_UPGRADE_VERSION a, LEDGER_UPGRADE_VERSION b => Ok (LEDGER_UPGRADE_VERSION (Z.max a b))
  | LEDGER_UPGRADE_BASE_FEE a, LEDGER_UPGRADE_BASE_FEE b => Ok (LEDGER_UPGRADE_BASE_FEE (Z.max a b))
  | LEDGER_UPGRADE_MAX_TX_SET_SIZE a, LEDGER_UPGRADE_MAX_TX_SET_SIZE b =>
      Ok (LEDGER_UPGRADE_MAX_TX_SET_SIZE (Z.max a b))
  | LEDGER_UPGRADE_BASE_RESERVE a, LEDGER_UPGRADE_BASE_RESERVE b =>
      Ok (LEDGER_UPGRADE_BASE_RESERVE (Z.max a b))
  | _, _ => Err InvalidUpgradeStep
  end.

Fixpoint collect_upgrades (l : list UpgradeType) (upgrades : list (Z * LedgerUpgrade))
    : result herder_error (list (Z * LedgerUpgrade)) :=
  match l with
  | [] => Ok upgrades
  | u :: l' =>
      match he_decodeUpgrade env u with
      | None => Err XdrError
      | Some lupgrade =>
          let? m :=
            match map_find (upgrade_type lupgrade) upgrades with
            | None => Ok lupgrade
            | Some clUpgrade => merge_upgrade clUpgrade lupgrade
            end in
          collect_upgrades l' (map_set (upgrade_type lupgrade) m upgrades)
      end
  end.

Definition xor_hash (a b : Hash) : Hash := zip_with Z.lxor a b.

(** The first loop: the decoded values, the hash and the upgrades. *)
Fixpoint collect_candidates (l : list Value) (values : list StellarValue) (hash : Hash)
    (upgrades : list (Z * LedgerUpgrade))
    : result herder_error (list StellarValue * Hash * list (Z * LedgerUpgrade)) :=
  match l with
  | [] => Ok (values, hash, upgrades)
  | c :: l' =>
      match he_decode env c with
      | None => Err XdrError
      | Some sv =>
          let? upgrades := collect_upgrades (sv_upgrades sv) upgrades in
          collect_candidates l' (values ++ [sv]) (xor_hash hash (he_sha256 env c)) upgrades
      end
  end.

Definition lessThanXored (l r x : Hash) : bool := ltb (xor_hash x l) (xor_hash x r).

(** Is the first one lower? *)
Definition compareTxSets (l r : option TxSetFrame) (lh rh : Hash) (header : LedgerHeader) (s : Hash)
    : result herder_error bool :=
  match l, r with
  | None, _ => Ok (isSome r)
  | Some _, None => Ok false
  | Some l, Some r =>
      let lSize := txset_size header l in
      let rSize := txset_size header r in
      if lSize <? rSize then Ok true else
      if rSize <? lSize then Ok false else
      if protocolVersionStartsFrom (ledgerVersion header) 11 then
        let? lFee := res_err HerderFees (getTotalFees header (mTransactions l)) in
        let? rFee := res_err HerderFees (getTotalFees header (mTransactions r)) in
        if lFee <? rFee then Ok true else
        if rFee <? lFee then Ok false else
        Ok (lessThanXored lh rh s)
      else Ok (lessThanXored lh rh s)
  end.

(** The second loop: the best candidate so far, with its transaction set. *)
Fixpoint pick_highest (l : list StellarValue) (s : Hash) (highest : option (StellarValue * TxSetFrame))
    : result herder_error (option (StellarValue * TxSetFrame)) :=
  match l with
  | [] => Ok highest
  | sv :: l' =>
      let? better :=
        match he_getTxSet env (sv_txSetHash sv) with
        | None => Ok None
        | Some cTxSet =>
            if bool_decide (mPreviousLedgerHash cTxSet = he_lclHash env) then
              match highest with
              | None => Ok (Some cTxSet)
              | Some (hv, ht) =>
                  let? lt := compareTxSets (Some ht) (Some cTxSet) (sv_txSetHash hv) (sv_txSetHash sv)
                    (he_lcl env) s in
                  Ok (if (lt : bool) then Some cTxSet else None)
              end
            else Ok None
        end in
      pick_highest l' s match better with Some t => Some (sv, t) | None => highest end
  end.

Definition herder_combineCandidates (candidates : list Value) : result herder_error Value :=
  let? (values, hash, upgrades) := collect_candidates candidates [] (replicate 32 0) [] in
  let? highest := pick_highest values hash None in
  match highest with
  | None => Err NoHighestTxSet
  | Some (comp, _) => wrapStellarValue (set_upgrades (he_encodeUpgrade env <$> upgrades.*2) comp)
  end.
End herder.

(** ** What is fully validated *)

Section theorems.
Context (env : HerderEnv).
Abbreviation dec := (he_decodeUpgrade env).
Abbreviation lcl := (he_lcl env).

(** The verdict on a transaction set in a given state. *)
Definition txset_verdict (cache : ValidCache) (h : Hash) (t : TxSetFrame) (offset : Z) : bool :=
  let fresh :=
    bool_decide (he_lclHash env = mPreviousLedgerHash t) &&
    (txset_size lcl t <=? maxTxSetSize lcl) && is_sorted env (mTransactions t) &&
    he_checkOrTrim env t offset offset in
  match cache !! h with
  | Some (l, b) => if bool_decide (l = he_lclHash env) then b else fresh
  | None => fresh
  end.

Lemma txset_checkValid_eq (s : ValidCache) (h : Hash) (t : TxSetFrame) (offset : Z) :
  exists s', txset_checkValid env h t offset offset s = Ok (txset_verdict s h t offset, s') /\
    s' !! h = Some (he_lclHash env, txset_verdict s h t offset).
Proof.
  unfold txset_checkValid, txset_verdict, bind, get, modify, ret.
  set (fresh := bool_decide (he_lclHash env = _) && _ && _ && _).
  assert (exists s', (if negb (bool_decide (he_lclHash env = mPreviousLedgerHash t))
      then Ok (false, <[h := (he_lclHash env, false)]> s)
      else if maxTxSetSize lcl <? txset_size lcl t then Ok (false, <[h := (he_lclHash env, false)]> s)
      else if negb (is_sorted env (mTransactions t)) then Ok (false, <[h := (he_lclHash env, false)]> s)
      else Ok (he_checkOrTrim env t offset offset,
               <[h := (he_lclHash env, he_checkOrTrim env t offset offset)]> s)) =
      (Ok (fresh, s') : result herder_error _) /\
      s' !! h = Some (he_lclHash env, fresh)) as Hfresh.
  { unfold fresh. case_bool_decide; cbn.
    2:{ eexists. split; [done|]. by rewrite lookup_insert_eq. }
    rewrite Z.ltb_antisym. destruct (txset_size lcl t <=? maxTxSetSize lcl); cbn.
    2:{ eexists. split; [done|]. by rewrite lookup_insert_eq. }
    destruct (is_sorted env (mTransactions t)); cbn;
      (eexists; split; [done|]; by rewrite lookup_insert_eq). }
  destruct (s !! h) as [[l b]|] eqn:Hs.
  - destruct (decide (l = he_lclHash env)) as [->|Hl]; [rewrite bool_decide_true by done; by exists s|].
    rewrite bool_decide_false by done.
    destruct Hfresh as (s' & Hf & Hs'). exists s'. split; [|done]. rewrite <- Hf.
    repeat case_match; done.
  - destruct Hfresh as (s' & Hf & Hs'). exists s'. split; [|done]. rewrite <- Hf.
    repeat case_match; done.
Qed.

(** A value the node can check against its own ledger, and finds good. *)
Definition good_value (s : ValidCache) (slot : Z) (b : StellarValue) : Prop :=
  exists sig t, sv_ext b = Some sig /\ verifyStellarValueSignature env sig b = true /\
    slot = u32 (ledgerSeq lcl + 1) /\
    scpValue_closeTime lcl < sv_closeTime b <= u64 (he_timeNow env + MAX_TIME_SLIP_SECONDS) /\
    he_getTxSet env (sv_txSetHash b) = Some t /\
    txset_verdict s (sv_txSetHash b) t (u64 (sv_closeTime b - scpValue_closeTime lcl)) = true.

Lemma checkCloseTime_iff (last : Z) (b : StellarValue) :
  checkCloseTime env last b = true <->
  last < sv_closeTime b <= u64 (he_timeNow env + MAX_TIME_SLIP_SECONDS).
Proof. unfold checkCloseTime. ztests; split; (done || lia). Qed.

Lemma otherSlot_not_full (slot : Z) (b : StellarValue) :
  validateOtherSlot env slot b <> Ok kFullyValidatedValue.
Proof.
  unfold validateOtherSlot. destruct (if slot =? _ then _ else _); [done|].
  destruct (negb (isTracking env)); [done|].
  destruct (nextConsensusLedgerIndex env); [|done]. cbn.
  destruct (_ <? _); [done|]. destruct (_ <? _); [done|].
  destruct (trackingConsensusCloseTime env); [|done]. cbn. by destruct (negb _).
Qed.

Lemma validateValueHelper_full (s : ValidCache) (slot : Z) (b : StellarValue) :
  (exists s', validateValueHelper env slot b s = Ok (kFullyValidatedValue, s')) <->
  good_value s slot b.
Proof.
  unfold validateValueHelper, good_value. destruct (sv_ext b) as [sig|].
  2:{ split; [by intros (? & ?)|by intros (? & ? & ? & _)]. }
  destruct (verifyStellarValueSignature env sig b) eqn:Hsig; cbn [negb].
  2:{ split; [by intros (? & ?)|]. intros (? & ? & [= <-] & ? & _). congruence. }
  destruct (Z.eqb_spec slot (u32 (ledgerSeq lcl + 1))) as [Hs|Hs]; cbn [negb].
  2:{ split; [|by intros (? & ? & _ & _ & ? & _)]. intros (s' & H). unfold pure_step in H.
      destruct (validateOtherSlot env slot b) as [l|] eqn:E; [|done]. injection H as -> _.
      by apply otherSlot_not_full in E. }
  destruct (checkCloseTime env (scpValue_closeTime lcl) b) eqn:Hc; cbn [negb].
  2:{ split; [by intros (? & ?)|]. intros (? & ? & _ & _ & _ & Ht & _).
      apply checkCloseTime_iff in Ht. congruence. }
  apply checkCloseTime_iff in Hc. destruct (he_getTxSet env (sv_txSetHash b)) as [t|] eqn:Ht.
  2:{ split; [by intros (? & ?)|]. by intros (? & ? & _ & _ & _ & _ & ? & _). }
  unfold bind. destruct (txset_checkValid_eq s (sv_txSetHash b) t
    (u64 (sv_closeTime b - scpValue_closeTime lcl))) as (s1 & -> & _).
  destruct (txset_verdict _ _ _ _) eqn:Hv; unfold ret.
  - split; [|by exists s1]. intros _. by exists sig, t.
  - split; [by intros (? & ?)|]. intros (? & ? & _ & _ & _ & _ & [= <-] & ?). congruence.
Qed.

Lemma validateValue_full (s : ValidCache) (slot : Z) (v : Value) (nom : bool) :
  (exists s', herder_validateValue env slot v nom s = Ok (kFullyValidatedValue, s')) <->
  exists b, he_decode env v = Some b /\ good_value s slot b /\
    check_upgrades dec (he_upgrades env) nom (he_protocolVersion env) lcl None (sv_upgrades b) = true.
Proof.
  unfold herder_validateValue. destruct (he_decode env v) as [b|].
  2:{ split; [by intros (? & ?)|by intros (? & ? & _)]. }
  pose proof (validateValueHelper_full s slot b) as Hh. unfold bind.
  destruct (check_upgrades _ _ _ _ _ _ _) eqn:Hc;
    destruct (validateValueHelper env slot b s) as [[[] s1]|] eqn:E; unfold ret; split;
    try (by intros (? & ?)); try (intros (b' & [= <-] & Hg & ?); try congruence;
      apply Hh in Hg as (? & ?); congruence).
  - intros _. exists b. split; [done|]. split; [|done]. apply Hh. eauto.
  - intros _. eauto.
Qed.

(** ** Collecting upgrades *)

(** The types whose upgrades are not merged. *)
Definition exclusive (us : list LedgerUpgrade) : list Z :=
  List.filter (fun t => 5 <=? t) (upgrade_type <$> us).

Lemma merge_upgrade_ok (cl l : LedgerUpgrade) :
  upgrade_type cl = upgrade_type l -> upgrade_type l < 5 ->
  exists u, merge_upgrade cl l = Ok u /\ (u = cl \/ u = l) /\
    upgrade_value cl <= upgrade_value u /\ upgrade_value l <= upgrade_value u.
Proof.
  destruct cl as [a|a|a|a|a|a|a], l as [b|b|b|b|b|b|b]; cbn; intros; try lia;
    (eexists; split; [done|]; cbn; destruct (Z.max_spec a b) as [[? ->]|[? ->]];
     (split; [by auto|lia])).
Qed.

Lemma merge_upgrade_err (cl l : LedgerUpgrade) :
  5 <= upgrade_type l -> merge_upgrade cl l = Err InvalidUpgradeStep.
Proof. destruct cl, l; cbn; (done || lia). Qed.

(** The map [m] holds the highest of the upgrades [seen] of each type. *)
Record collected (seen : list LedgerUpgrade) (m : list (Z * LedgerUpgrade)) : Prop := {
  col_ordered : ordered m;
  col_seen : forall t u, (t, u) ∈ m -> upgrade_type u = t /\ u ∈ seen;
  col_highest : forall u, u ∈ seen -> exists w, (upgrade_type u, w) ∈ m /\
    upgrade_value u <= upgrade_value w;
}.

Lemma collected_set (seen : list LedgerUpgrade) (m : list (Z * LedgerUpgrade)) (u w : LedgerUpgrade) :
  collected seen m -> upgrade_type w = upgrade_type u -> upgrade_value u <= upgrade_value w ->
  (w = u \/ w ∈ seen) ->
  (forall x, map_find (upgrade_type u) m = Some x -> upgrade_value x <= upgrade_value w) ->
  collected (seen ++ [u]) (map_set (upgrade_type u) w m).
Proof.
  intros [Ho Hs Hh] Ht Hv Hw Hx.
  assert (ordered (map_set (upgrade_type u) w m)) as Ho' by (by apply ordered_map_set).
  assert (forall t x, (t, x) ∈ map_set (upgrade_type u) w m <->
    (t = upgrade_type u /\ x = w) \/ (t <> upgrade_type u /\ (t, x) ∈ m)) as Hin.
  { intros t x. rewrite <- !map_find_elem, map_find_set by done.
    destruct (eqb_of t (upgrade_type u)) eqn:E.
    - apply eqb_of_true in E. naive_solver.
    - apply eqb_of_false in E. naive_solver. }
  split; [done| |].
  - intros t x [[-> ->]|[_ Hm]]%Hin.
    + split; [done|]. rewrite elem_of_app, list_elem_of_singleton. naive_solver.
    + destruct (Hs t x Hm). split; [done|]. rewrite elem_of_app. by left.
  - intros x. rewrite elem_of_app, list_elem_of_singleton. intros [Hx'| ->].
    + destruct (Hh x Hx') as (y & Hy & Hle). destruct (decide (upgrade_type x = upgrade_type u)) as [E|E].
      * exists w. split; [apply Hin; by left|]. rewrite E in Hy. apply map_find_elem in Hy; [|done].
        apply Hx in Hy. lia.
      * exists y. split; [apply Hin; by right|done].
    + exists w. split; [apply Hin; by left|done].
Qed.

Lemma exclusive_cons (u : LedgerUpgrade) (us : list LedgerUpgrade) :
  exclusive (u :: us) = (if 5 <=? upgrade_type u then [upgrade_type u] else []) ++ exclusive us.
Proof. unfold exclusive. cbn. by destruct (5 <=? upgrade_type u). Qed.

Lemma exclusive_app (us ws : list LedgerUpgrade) :
  exclusive (us ++ ws) = exclusive us ++ exclusive ws.
Proof. unfold exclusive. by rewrite fmap_app, List.filter_app. Qed.

Lemma elem_of_exclusive (u : LedgerUpgrade) (us : list LedgerUpgrade) :
  u ∈ us -> 5 <= upgrade_type u -> upgrade_type u ∈ exclusive us.
Proof.
  intros Hu Ht. apply list_elem_of_In, filter_In. split; [|by apply Z.leb_le].
  apply list_elem_of_In. by apply list_elem_of_fmap_2.
Qed.

(** The loop over the upgrades: it succeeds exactly when no type that is not
    merged comes twice. *)
Lemma collect_upgrades_spec (l : list UpgradeType) (us seen : list LedgerUpgrade)
    (m : list (Z * LedgerUpgrade)) :
  Forall2 (fun o u => dec o = Some u) l us -> collected seen m ->
  (NoDup (exclusive (seen ++ us)) ->
    exists m', collect_upgrades env l m = Ok m' /\ collected (seen ++ us) m') /\
  (NoDup (exclusive seen) -> ~ NoDup (exclusive (seen ++ us)) ->
    collect_upgrades env l m = Err InvalidUpgradeStep).
Proof.
  intros H2. revert seen m. induction H2 as [|o u l us Ho H2 IH]; intros seen m Hc.
  { rewrite app_nil_r. split; [|done]. by exists m. }
  cbn. rewrite Ho. replace (seen ++ u :: us) with ((seen ++ [u]) ++ us) by (by rewrite <- app_assoc).
  destruct (map_find (upgrade_type u) m) as [cl|] eqn:Hf.
  - pose proof (map_find_elem (upgrade_type u) cl m (col_ordered _ _ Hc)) as [Hcl _].
    specialize (Hcl Hf). destruct (col_seen _ _ Hc _ _ Hcl) as [Hty Hin].
    destruct (Z.ltb_spec (upgrade_type u) 5) as [H5|H5].
    + destruct (merge_upgrade_ok cl u Hty H5) as (w & -> & Hw & Hv1 & Hv2). cbn.
      assert (exclusive (seen ++ [u]) = exclusive seen) as He.
      { rewrite exclusive_app, exclusive_cons. by rewrite (proj2 (Z.leb_gt _ _)), app_nil_r by lia. }
      destruct (IH (seen ++ [u]) (map_set (upgrade_type u) w m)) as [I1 I2].
      { apply collected_set; [done| |done| |].
        - destruct Hw as [-> | ->]; done.
        - destruct Hw as [-> | ->]; auto.
        - rewrite Hf. by intros x [= <-]. }
      split; [done|]. intros Hn Hnn. apply I2; [by rewrite He|done].
    + rewrite merge_upgrade_err by done. cbn. split; [|done]. intros Hn. exfalso.
      rewrite exclusive_app in Hn. apply NoDup_app in Hn as (Hn & _ & _).
      rewrite exclusive_app, exclusive_cons, (proj2 (Z.leb_le _ _)) in Hn by lia.
      apply NoDup_app in Hn as (_ & Hn & _). apply (Hn (upgrade_type u)); [|left].
      rewrite <- Hty. apply elem_of_exclusive; [done|lia].
  - cbn. destruct (IH (seen ++ [u]) (map_set (upgrade_type u) u m)) as [I1 I2].
    { apply collected_set; [done|done|lia|by left|]. by rewrite Hf. }
    split; [done|]. intros Hn Hnn. apply I2; [|done].
    rewrite exclusive_app, exclusive_cons. destruct (Z.leb_spec 5 (upgrade_type u)); [|by rewrite app_nil_r].
    cbn. apply NoDup_app. split; [done|]. split; [|apply NoDup_singleton].
    intros x Hx ->%list_elem_of_singleton. apply list_elem_of_In, filter_In in Hx as [Hx _].
    apply list_elem_of_In, list_elem_of_fmap in Hx as (d & Hd & Hds).
    destruct (col_highest _ _ Hc d Hds) as (w & Hw & _). rewrite <- Hd in Hw.
    apply map_find_elem in Hw; [congruence|by apply (col_ordered _ _ Hc)].
Qed.

Lemma collect_upgrades_app (l1 l2 : list UpgradeType) (m : list (Z * LedgerUpgrade)) :
  collect_upgrades env (l1 ++ l2) m =
  let? m1 := collect_upgrades env l1 m in collect_upgrades env l2 m1.
Proof.
  revert m. induction l1 as [|o l1 IH]; intros m; cbn; [done|].
  destruct (dec o) as [u|]; [|done]. destruct (match map_find _ _ with Some _ => _ | None => _ end); cbn;
    [apply IH|done].
Qed.

(** The loop over the candidates. *)
Lemma collect_candidates_spec (l : list Value) (svs values : list StellarValue) (hash : Hash)
    (m : list (Z * LedgerUpgrade)) :
  Forall2 (fun c sv => he_decode env c = Some sv) l svs ->
  exists hash', collect_candidates env l values hash m =
    let? m' := collect_upgrades env (concat (sv_upgrades <$> svs)) m in
    Ok (values ++ svs, hash', m').
Proof.
  intros H2. revert values hash m. induction H2 as [|c sv l svs Hc H2 IH]; intros values hash m.
  { exists hash. cbn. by rewrite app_nil_r. }
  cbn. rewrite Hc, collect_upgrades_app.
  destruct (collect_upgrades env (sv_upgrades sv) m) as [m1|e]; cbn; [|by exists hash].
  destruct (IH (values ++ [sv]) (xor_hash hash (he_sha256 env c)) m1) as (h' & ->).
  exists h'. by rewrite <- app_assoc.
Qed.

(** ** The transaction set of the composite *)

(** A transaction whose fee can be computed: it has operations and its bid is
    a non-negative [int64_t]. *)
Definition priced (tx : TransactionFrameBase) : Prop :=
  0 < base_numOperations tx <= INT64_MAX /\ 0 <= base_feeBid tx <= INT64_MAX.

Lemma getTotalFees_ok (lh : LedgerHeader) (txs : list TransactionFrameBase) :
  Forall priced txs -> exists f, getTotalFees lh txs = Ok f.
Proof.
  intros Hp.
  assert (forall low, exists b, lowBaseFee txs low = Ok b) as Hlow.
  { induction Hp as [|tx txs [Hn Hb] _ IH]; intros low; cbn; [by exists low|].
    rewrite bigDivideOrThrow_exact by (unfold_ints; lia).
    replace ((0 <=? base_feeBid tx) && (0 <=? 1) && (0 <? base_numOperations tx)) with true
      by (symmetry; rewrite !andb_true_iff, Z.ltb_lt, !Z.leb_le; lia).
    destruct (Z.leb_spec (quotient ROUND_UP (base_feeBid tx * 1) (base_numOperations tx)) INT64_MAX)
      as [|Hq]; [apply IH|]. exfalso.
    unfold quotient in Hq. rewrite Z.mul_1_r in Hq.
    pose proof (cdiv_spec (base_feeBid tx) (base_numOperations tx) ltac:(lia)). nia. }
  unfold getTotalFees, getBaseFee. destruct (Hlow INT64_MAX) as (b & ->). cbn.
  repeat case_match; eauto.
Qed.

Definition in_reach (sv : StellarValue) : Prop :=
  exists t, he_getTxSet env (sv_txSetHash sv) = Some t /\ mPreviousLedgerHash t = he_lclHash env /\
    Forall priced (mTransactions t).

Lemma compareTxSets_ok (l r : TxSetFrame) (lh rh s : Hash) :
  Forall priced (mTransactions l) -> Forall priced (mTransactions r) ->
  exists b, compareTxSets (Some l) (Some r) lh rh lcl s = Ok b.
Proof.
  intros Hl Hr. destruct (getTotalFees_ok lcl _ Hl) as (f & Hf), (getTotalFees_ok lcl _ Hr) as (g & Hg).
  unfold compareTxSets. rewrite Hf, Hg. cbn. repeat case_match; eauto.
Qed.

Lemma pick_highest_spec (svs : list StellarValue) (s : Hash)
    (highest : option (StellarValue * TxSetFrame)) :
  Forall in_reach svs ->
  (forall sv t, highest = Some (sv, t) -> Forall priced (mTransactions t)) ->
  exists r, pick_highest env svs s highest = Ok r /\
    (r = highest \/ exists sv t, r = Some (sv, t) /\ sv ∈ svs) /\
    (svs <> [] \/ highest <> None -> r <> None).
Proof.
  intros Hall. revert highest. induction Hall as [|sv svs (t & Ht & Hp & Hpr) _ IH]; intros highest Hh.
  { exists highest. cbn. split; [done|]. split; [by left|]. naive_solver. }
  cbn [pick_highest]. rewrite Ht, bool_decide_true by done.
  assert (exists better : option TxSetFrame, match highest with
    | Some (hv, ht) =>
        let? lt := compareTxSets (Some ht) (Some t) (sv_txSetHash hv) (sv_txSetHash sv) lcl s in
        Ok (if (lt : bool) then Some t else None)
    | None => Ok (Some t)
    end = Ok better /\ (better = Some t \/ better = None /\ highest <> None)) as (better & -> & Hb).
  { destruct highest as [[hv ht]|]; [|by exists (Some t); auto].
    destruct (compareTxSets_ok ht t (sv_txSetHash hv) (sv_txSetHash sv) s) as (b & ->);
      [by eapply Hh|done|]. cbn. exists (if b then Some t else None). destruct b; auto. }
  cbn [res_bind]. destruct (IH match better with Some x => Some (sv, x) | None => highest end) as (r & Hr & Hor & Hne).
  { intros sv' t'. destruct Hb as [->|[-> _]]; [by intros [= <- <-]|apply Hh]. }
  exists r. split; [done|]. split.
  - destruct Hor as [->|(sv' & t' & -> & Hin)].
    + destruct Hb as [->|[-> _]]; [|by left]. right. exists sv, t. split; [done|left].
    + right. exists sv', t'. split; [done|by right].
  - intros _. apply Hne. right. destruct Hb as [->|[-> ?]]; done.
Qed.

(** What the candidates bring: each is fully validated (with [nom], the checks
    of nomination), and its transactions have fees. *)
Definition candidate (s : ValidCache) (slot : Z) (nom : bool) (c : Value) : Prop :=
  (exists s', herder_validateValue env slot c nom s = Ok (kFullyValidatedValue, s')) /\
  forall b t, he_decode env c = Some b -> he_getTxSet env (sv_txSetHash b) = Some t ->
    Forall priced (mTransactions t).

(** What is remembered of transaction sets was once checked. *)
Definition cache_ok (s : ValidCache) : Prop :=
  forall h t, s !! h = Some (he_lclHash env, true) -> he_getTxSet env h = Some t ->
    mPreviousLedgerHash t = he_lclHash env.

Lemma verdict_previous (s : ValidCache) (h : Hash) (t : TxSetFrame) (offset : Z) :
  cache_ok s -> he_getTxSet env h = Some t -> txset_verdict s h t offset = true ->
  mPreviousLedgerHash t = he_lclHash env.
Proof.
  intros Hs Ht. unfold txset_verdict.
  assert (forall x, bool_decide (he_lclHash env = mPreviousLedgerHash t) && x = true ->
    mPreviousLedgerHash t = he_lclHash env) as Hp.
  { intros x. rewrite andb_true_iff, bool_decide_eq_true. naive_solver. }
  destruct (s !! h) as [[l b]|] eqn:Hc; [|rewrite <- !andb_assoc; apply Hp].
  destruct (decide (l = he_lclHash env)) as [->|Hne].
  - rewrite bool_decide_true by done. intros ->. by apply (Hs h t).
  - rewrite bool_decide_false, <- !andb_assoc by done. apply Hp.
Qed.

Lemma cache_ok_checkValid (s s' : ValidCache) (h : Hash) (t : TxSetFrame) (offset : Z) (b : bool) :
  cache_ok s -> he_getTxSet env h = Some t ->
  txset_checkValid env h t offset offset s = Ok (b, s') -> cache_ok s'.
Proof.
  intros Hs Ht Hrun h' t' Hc Ht'.
  destruct (txset_checkValid_eq s h t offset) as (s1 & E & Hs1). rewrite E in Hrun.
  injection Hrun as <- <-. destruct (decide (h' = h)) as [->|Hne].
  - rewrite Hs1 in Hc. injection Hc as Hv. rewrite Ht in Ht'. injection Ht' as <-.
    by apply (verdict_previous s h t offset).
  - apply (Hs h' t'); [|done]. rewrite <- Hc. symmetry. clear -E Hne.
    unfold txset_checkValid, bind, get, modify, ret in E.
    repeat case_match; simplify_eq; by rewrite ?lookup_insert_ne.
Qed.

(** The upgrades the candidates carry, decoded. *)
Definition carry (candidates : list Value) (us : list LedgerUpgrade) : Prop :=
  exists svs, Forall2 (fun c sv => he_decode env c = Some sv) candidates svs /\
    Forall2 (fun o u => dec o = Some u) (concat (sv_upgrades <$> svs)) us.

Lemma candidates_decode (s : ValidCache) (slot : Z) (nom : bool) (l : list Value) :
  cache_ok s -> Forall (candidate s slot nom) l ->
  exists svs us, Forall2 (fun c sv => he_decode env c = Some sv) l svs /\
    Forall2 (fun o u => dec o = Some u) (concat (sv_upgrades <$> svs)) us /\
    Forall (good_value s slot) svs /\ Forall in_reach svs /\
    Forall (fun u => validForApply u lcl (he_protocolVersion env) = true) us.
Proof.
  intros Hs. induction 1 as [|c l [Hv Ht] _ IH].
  { exists [], []. repeat split; constructor. }
  destruct IH as (svs & us & H1 & H2 & H3 & H4 & H5).
  apply validateValue_full in Hv as (b & Hb & Hg & Hc).
  apply check_upgrades_iff in Hc as (ws & Hw & Hval & _). exists (b :: svs), (ws ++ us).
  split; [by constructor|]. split; [by apply Forall2_app|]. split; [by constructor|]. split.
  - constructor; [|done]. destruct Hg as (_ & t & _ & _ & _ & _ & Hts & Hv).
    exists t. split; [done|]. split; [by eapply verdict_previous|by apply (Ht b)].
  - apply Forall_app. split; [|done]. eapply Forall_impl; [exact Hval|]. by intros ? [? _].
Qed.
End theorems.

(** ** Theorems *)

(** The XDR library: encoded values decode to themselves, and a value with at
    most six upgrades can be encoded. *)
Record codec_ok (env : HerderEnv) : Prop := {
  codec_value : forall sv v, he_encode env sv = Some v -> he_decode env v = Some sv;
  codec_room : forall c b ups, he_decode env c = Some b -> (length ups <= 6)%nat ->
    is_Some (he_encode env (set_upgrades ups b));
  codec_upgrade : forall u, he_decodeUpgrade env (he_encodeUpgrade env u) = Some u;
}.

Lemma forall2_functional {A B} (f : A -> option B) (l : list A) (x y : list B) :
  Forall2 (fun a b => f a = Some b) l x -> Forall2 (fun a b => f a = Some b) l y -> x = y.
Proof.
  intros Hx. revert y. induction Hx as [|a b l x Hb _ IH]; intros y Hy;
    inversion Hy as [|? b' ? y' Hb' Hy']; subst; [done|].
  rewrite (IH y' Hy'). congruence.
Qed.

(** Seven types leave room for six upgrades when one is missing. *)
Lemma six_types (l : list Z) (t : Z) :
  NoDup l -> Forall (fun x => 1 <= x <= 7) l -> 1 <= t <= 7 -> t ∉ l -> (length l <= 6)%nat.
Proof.
  intros Hnd Hall Ht Hn. assert (length (t :: l) <= length (seqZ 1 7))%nat as H.
  { apply submseteq_length, NoDup_submseteq; [by constructor|]. intros x.
    rewrite elem_of_cons, elem_of_seqZ. intros [->|Hx]; [lia|].
    rewrite Forall_forall in Hall. specialize (Hall x Hx). lia. }
  rewrite length_seqZ in H. cbn in H. lia.
Qed.

Lemma collected_types (us : list LedgerUpgrade) (m : list (Z * LedgerUpgrade)) :
  collected us m -> upgrade_type <$> m.*2 = map_keys m /\ StronglySorted Z.lt (map_keys m).
Proof.
  intros [Ho Hs _]. split.
  - unfold map_keys. clear Ho. induction m as [|[t u] m IH]; cbn; [done|].
    f_equal; [apply (Hs t u); left|]. apply IH. intros t' u' Hin. apply Hs. by right.
  - unfold ordered, increasing in Ho. induction Ho as [|k l _ IH Hall]; constructor; [done|].
    eapply Forall_impl; [exact Hall|]. intros x. by apply Z.ltb_lt.
Qed.

(** The value keeps its verdict when its upgrades are replaced: they are not
    signed. *)
Lemma good_value_upgrades (env : HerderEnv) (s : ValidCache) (slot : Z) (b : StellarValue)
    (ups : list UpgradeType) :
  good_value env s slot b -> good_value env s slot (set_upgrades ups b).
Proof. intros (sig & t & H). exists sig, t. done. Qed.

(** What [combineCandidates] builds. *)
Lemma combine_spec (env : HerderEnv) (s : ValidCache) (slot : Z) (nom : bool)
    (candidates : list Value) (us : list LedgerUpgrade) :
  cache_ok env s -> candidates <> [] -> Forall (candidate env s slot nom) candidates ->
  carry env candidates us -> NoDup (exclusive us) ->
  Forall (fun u => validForApply u (he_lcl env) (he_protocolVersion env) = true) us /\
  exists m c b0, herder_combineCandidates env candidates =
      wrapStellarValue env (set_upgrades (he_encodeUpgrade env <$> m.*2) b0) /\
    collected us m /\ c ∈ candidates /\ he_decode env c = Some b0 /\ good_value env s slot b0.
Proof.
  intros Hs Hne Hall (svs & H1 & H2) Hnd.
  destruct (candidates_decode env s slot nom candidates Hs Hall)
    as (svs' & us' & H1' & H2' & Hgood & Hreach & Hvalid).
  rewrite <- (forall2_functional _ _ _ _ H1 H1') in *. clear svs' H1'.
  rewrite <- (forall2_functional _ _ _ _ H2 H2') in *. clear us' H2'. split; [done|].
  destruct (collect_upgrades_spec env _ us [] [] H2) as [Hcol _].
  { split; [constructor|by intros ? ? ?%not_elem_of_nil|by intros ? ?%not_elem_of_nil]. }
  destruct (Hcol Hnd) as (m & Hm & Hc).
  destruct (collect_candidates_spec env candidates svs [] (replicate 32 0) [] H1) as (h & Hcc).
  destruct (pick_highest_spec env svs h None Hreach ltac:(done)) as (r & Hr & Hor & Hsome).
  assert (svs <> []) as Hsvs by (intros ->; by inversion H1; subst).
  destruct Hor as [->|(b0 & t0 & -> & Hb0)]; [by destruct (Hsome (or_introl Hsvs))|].
  pose proof Hb0 as (i & Hi)%list_elem_of_lookup.
  destruct (Forall2_lookup_r _ _ _ _ _ H1 Hi) as (c & Hci & Hdec).
  exists m, c, b0. split; [|split; [done|]].
  - unfold herder_combineCandidates. rewrite Hcc, Hm. cbn. by rewrite Hr.
  - split; [by eapply list_elem_of_lookup_2|]. split; [done|].
    rewrite Forall_forall in Hgood. by apply Hgood.
Qed.

(** The upgrades of the composite. *)
Lemma collected_upgrades (us : list LedgerUpgrade) (m : list (Z * LedgerUpgrade)) (t : Z) :
  collected us m -> 1 <= t <= 7 -> t ∉ upgrade_type <$> us ->
  (length m.*2 <= 6)%nat /\ StronglySorted Z.lt (upgrade_type <$> m.*2) /\
  (forall w, w ∈ m.*2 -> w ∈ us) /\
  (forall u, u ∈ us -> exists w, w ∈ m.*2 /\ upgrade_type w = upgrade_type u /\
     upgrade_value u <= upgrade_value w).
Proof.
  intros Hc Ht Htn. destruct (collected_types us m Hc) as [Hty Hsort].
  assert (forall w, w ∈ m.*2 -> w ∈ us) as Hsub.
  { intros u Hu. apply list_elem_of_fmap in Hu as ([t' u'] & -> & Hin).
    by apply (col_seen _ _ Hc t' u'). }
  split; [|split; [by rewrite Hty|split; [done|]]].
  - rewrite <- (length_fmap upgrade_type), Hty.
    apply (six_types _ t); [by apply sorted_nodup| |done|]; rewrite <- Hty.
    + apply Forall_fmap, Forall_true. intros []; cbn; lia.
    + intros (w & -> & Hw)%list_elem_of_fmap. by apply Htn, list_elem_of_fmap_2, Hsub.
  - intros u Hu. destruct (col_highest _ _ Hc u Hu) as (w & Hw & Hle). exists w.
    split; [by apply (list_elem_of_fmap_2 snd m (upgrade_type u, w))|]. split; [|done].
    by apply (col_seen _ _ Hc _ w).
Qed.

(** The composite of valid candidates is valid: if the node has fully
    validated every candidate (under the rules of nomination or of ballots),
    no upgrade of a type that is not merged comes twice and not all seven types
    come together, then [combineCandidates] returns a value, which every such
    node fully validates: it is one of the candidates, with its transaction
    set, close time and signature, and with the upgrades of all candidates, the
    highest of each type, in order. *)
Theorem combineCandidates_valid (env : HerderEnv) (s : ValidCache) (slot : Z) (nom : bool)
    (candidates : list Value) (us : list LedgerUpgrade) :
  codec_ok env -> cache_ok env s -> candidates <> [] ->
  Forall (candidate env s slot nom) candidates -> carry env candidates us ->
  NoDup (exclusive us) -> (exists t, 1 <= t <= 7 /\ t ∉ upgrade_type <$> us) ->
  exists v b, herder_combineCandidates env candidates = Ok v /\ he_decode env v = Some b /\
    (exists s', herder_validateValue env slot v false s = Ok (kFullyValidatedValue, s')) /\
    (exists c b0, c ∈ candidates /\ he_decode env c = Some b0 /\
       b = set_upgrades (sv_upgrades b) b0) /\
    exists ws, Forall2 (fun o u => he_decodeUpgrade env o = Some u) (sv_upgrades b) ws /\
      (forall w, w ∈ ws -> w ∈ us) /\
      (forall u, u ∈ us -> exists w, w ∈ ws /\ upgrade_type w = upgrade_type u /\
         upgrade_value u <= upgrade_value w).
Proof.
  intros [Hval Hroom Hup] Hs Hne Hall Hcarry Hnd (t & Ht & Htn).
  destruct (combine_spec env s slot nom candidates us Hs Hne Hall Hcarry Hnd)
    as (Hvalid & m & c & b0 & Hcomb & Hc & Hin & Hdec & Hgood).
  destruct (collected_upgrades us m t Hc Ht Htn) as (Hlen & Hsort & Hsub & Hhigh).
  destruct (Hroom c b0 (he_encodeUpgrade env <$> m.*2) Hdec) as (v & Hv); [by rewrite length_fmap|].
  pose proof (Hval _ _ Hv) as Hdv. eexists v, _. split.
  { rewrite Hcomb. unfold wrapStellarValue. by rewrite Hv. }
  split; [exact Hdv|]. split; [|split].
  - apply validateValue_full. eexists. split; [exact Hdv|]. split; [by apply good_value_upgrades|].
    apply (check_upgrades_valid _ _ Hup); [done|].
    rewrite Forall_forall in Hvalid |- *. intros u Hu. split; [by apply Hvalid, Hsub|done].
  - exists c, b0. split; [done|]. split; [done|]. by destruct b0.
  - exists m.*2. split; [by apply (decode_encoded _ _ Hup)|]. done.
Qed.

(** Two candidates with an upgrade of the flags, the percentage fee or the
    maximum fee stop every node that has both: although each candidate is fully
    valid, [combineCandidates] throws, because it merges only the first four
    types of upgrades. *)
Theorem combineCandidates_throws (env : HerderEnv) (s : ValidCache) (slot : Z)
    (l1 l2 l3 : list Value) (c1 c2 : Value) (b1 b2 : StellarValue) (o1 o2 : UpgradeType)
    (u1 u2 : LedgerUpgrade) :
  cache_ok env s -> Forall (candidate env s slot true) (l1 ++ c1 :: l2 ++ c2 :: l3) ->
  he_decode env c1 = Some b1 -> he_decode env c2 = Some b2 ->
  o1 ∈ sv_upgrades b1 -> o2 ∈ sv_upgrades b2 ->
  he_decodeUpgrade env o1 = Some u1 -> he_decodeUpgrade env o2 = Some u2 ->
  upgrade_type u1 = upgrade_type u2 -> 5 <= upgrade_type u1 ->
  herder_combineCandidates env (l1 ++ c1 :: l2 ++ c2 :: l3) = Err InvalidUpgradeStep.
Proof.
  intros Hs Hall Hb1 Hb2 Ho1 Ho2 Hu1 Hu2 Hty H5.
  destruct (candidates_decode env s slot true _ Hs Hall) as (svs & us & H1 & H2 & _).
  destruct (collect_candidates_spec env _ svs [] (replicate 32 0) [] H1) as (h & Hcc).
  destruct (collect_upgrades_spec env _ us [] [] H2) as [_ Herr].
  { split; [constructor|by intros ? ? ?%not_elem_of_nil|by intros ? ?%not_elem_of_nil]. }
  unfold herder_combineCandidates. rewrite Hcc, Herr; [done|constructor|]. cbn [app].
  apply Forall2_app_inv_l in H1 as (k1 & k & _ & Hk & ->).
  apply Forall2_cons_inv_l in Hk as (b1' & k' & Hb1' & Hk & ->).
  apply Forall2_app_inv_l in Hk as (k2 & k'' & _ & Hk & ->).
  apply Forall2_cons_inv_l in Hk as (b2' & k3 & Hb2' & _ & ->).
  rewrite Hb1 in Hb1'. injection Hb1' as <-. rewrite Hb2 in Hb2'. injection Hb2' as <-.
  rewrite fmap_app, fmap_cons, fmap_app, fmap_cons, concat_app in H2. cbn [concat] in H2.
  rewrite concat_app in H2. cbn [concat] in H2.
  apply Forall2_app_inv_l in H2 as (x1 & y & _ & H2 & ->).
  apply Forall2_app_inv_l in H2 as (x2 & y' & Hx2 & H2 & ->).
  apply Forall2_app_inv_l in H2 as (x3 & y'' & _ & H2 & ->).
  apply Forall2_app_inv_l in H2 as (x4 & x5 & Hx4 & _ & ->).
  assert (forall o u k x, Forall2 (fun o u => he_decodeUpgrade env o = Some u) k x ->
    o ∈ k -> he_decodeUpgrade env o = Some u -> u ∈ x) as Hin.
  { intros o u k x Hk Ho Hu. apply list_elem_of_lookup in Ho as (i & Hi).
    destruct (Forall2_lookup_l _ _ _ _ _ Hk Hi) as (w & Hw & E). rewrite Hu in E. injection E as <-.
    by eapply list_elem_of_lookup_2. }
  rewrite !exclusive_app. intros (_ & _ & Hn)%NoDup_app. apply NoDup_app in Hn as (_ & Hn & _).
  apply (Hn (upgrade_type u1)).
  - apply elem_of_exclusive; [by apply (Hin o1 u1 _ _ Hx2)|done].
  - rewrite !elem_of_app. right; left. rewrite Hty.
    apply elem_of_exclusive; [by apply (Hin o2 u2 _ _ Hx4)|lia].
Qed.

(** The verdict on a transaction set is remembered for the ledger and not
    for the close time: of two values for the next ledger with the same
    transaction set, both signed and with an acceptable close time, the second
    gets the verdict of the first, even if its transactions would be judged
    differently at its own close time (a transaction whose time bounds exclude
    it, say). *)
Theorem txset_verdict_remembered (env : HerderEnv) (s s1 : ValidCache) (slot : Z)
    (b1 b2 : StellarValue) (sig1 sig2 : LedgerCloseValueSignature) (t : TxSetFrame)
    (l : ValidationLevel) :
  slot = u32 (ledgerSeq (he_lcl env) + 1) ->
  sv_txSetHash b2 = sv_txSetHash b1 -> he_getTxSet env (sv_txSetHash b1) = Some t ->
  sv_ext b1 = Some sig1 -> verifyStellarValueSignature env sig1 b1 = true ->
  sv_ext b2 = Some sig2 -> verifyStellarValueSignature env sig2 b2 = true ->
  checkCloseTime env (scpValue_closeTime (he_lcl env)) b1 = true ->
  checkCloseTime env (scpValue_closeTime (he_lcl env)) b2 = true ->
  validateValueHelper env slot b1 s = Ok (l, s1) ->
  validateValueHelper env slot b2 s1 = Ok (l, s1).
Proof.
  intros -> Hh Ht He1 Hs1 He2 Hs2 Hc1 Hc2. unfold validateValueHelper, bind.
  rewrite He1, Hs1, He2, Hs2, Hc1, Hc2, Z.eqb_refl, Hh, Ht. cbn [negb].
  destruct (txset_checkValid_eq env s (sv_txSetHash b1) t
    (u64 (sv_closeTime b1 - scpValue_closeTime (he_lcl env)))) as (s' & -> & Hs').
  assert (s1 = s' -> forall o,
    txset_checkValid env (sv_txSetHash b1) t o o s1 = Ok (txset_verdict env s (sv_txSetHash b1) t
      (u64 (sv_closeTime b1 - scpValue_closeTime (he_lcl env))), s1)) as Hmem.
  { intros -> o. unfold txset_checkValid, bind, get. rewrite Hs'. by rewrite bool_decide_true. }
  destruct (txset_verdict _ _ _ _ _); unfold ret; intros [= <- ->]; by rewrite Hmem.
Qed.

(** [extractValidValue] repairs a proposal: from a value that is fully valid
    but for its upgrades it makes the same value with the upgrades this node
    wants and no others, in the same order; if those come in increasing order
    of type the result is fully valid in nomination; and a value that is fully
    valid as it stands is returned unchanged. *)
Theorem extractValidValue_repairs (env : HerderEnv) (s s1 : ValidCache) (slot : Z) (v : Value)
    (b : StellarValue) :
  codec_ok env -> he_decode env v = Some b -> (length (sv_upgrades b) <= 6)%nat ->
  validateValueHelper env slot b s = Ok (kFullyValidatedValue, s1) ->
  exists v' b', herder_extractValidValue env slot v s = Ok (Some v', s1) /\
    he_decode env v' = Some b' /\ b' = set_upgrades (List.filter (likes env) (sv_upgrades b)) b /\
    (forall us, Forall2 (fun o u => he_decodeUpgrade env o = Some u) (sv_upgrades b') us ->
       StronglySorted Z.lt (upgrade_type <$> us) ->
       exists s2, herder_validateValue env slot v' true s = Ok (kFullyValidatedValue, s2)) /\
    (forall s2, herder_validateValue env slot v true s = Ok (kFullyValidatedValue, s2) -> b' = b).
Proof.
  intros [Hval Hroom Hup] Hb Hlen Hv.
  destruct (Hroom v b (List.filter (likes env) (sv_upgrades b)) Hb) as (v' & Hv').
  { etrans; [apply List.filter_length_le|done]. }
  eexists v', _. split.
  { unfold herder_extractValidValue, bind, pure_step, wrapStellarValue, ret. by rewrite Hb, Hv, Hv'. }
  split; [exact (Hval _ _ Hv')|]. split; [done|]. split.
  - intros us Hus Hsort. apply validateValue_full. eexists. split; [exact (Hval _ _ Hv')|]. split.
    { apply good_value_upgrades, validateValueHelper_full. eauto. }
    apply check_upgrades_iff. exists us. split; [done|]. split; [|done]. cbn in Hus.
    apply Forall_forall. intros u Hu. apply list_elem_of_lookup in Hu as (i & Hi).
    destruct (Forall2_lookup_r _ _ _ _ _ Hus Hi) as (o & Ho%list_elem_of_lookup_2 & Hou).
    apply list_elem_of_In, filter_In in Ho as [_ Ho]. unfold likes, isValid, isValidForApply in Ho.
    rewrite Hou in Ho. destruct (validForApply u _ _); [|done]. split; [done|]. intros _.
    by destruct (isValidForNomination _ u _).
  - intros s2 Hfull. assert (exists s', herder_validateValue env slot v true s =
      Ok (kFullyValidatedValue, s')) as Hex by eauto.
    apply validateValue_full in Hex as (b0 & Hb0 & _ & Hc). rewrite Hb in Hb0. injection Hb0 as <-.
    apply check_upgrades_iff in Hc as (us & Hus & Hall & _).
    assert (List.filter (likes env) (sv_upgrades b) = sv_upgrades b) as ->; [|by destruct b].
    clear -Hus Hall. induction Hus as [|o u l us Ho _ IH]; cbn; [done|].
    apply Forall_cons in Hall as [[Hu Hn] Hall]. rewrite (IH Hall).
    unfold likes, isValid, isValidForApply. by rewrite Ho, Hu, (Hn eq_refl).
Qed.

(** ** An example *)

#[global] Instance lcSignature_eq_dec : EqDecision LedgerCloseValueSignature.
Proof. solve_decision. Defined.
#[global] Instance StellarValue_eq_dec : EqDecision StellarValue.
Proof. solve_decision. Defined.

#[global] Program Instance lcSignature_countable : Countable LedgerCloseValueSignature :=
  inj_countable' (fun x => (lc_nodeID x, lc_signature x))
    (fun '(n, g) => {| lc_nodeID := n; lc_signature := g |}) _.
Next Obligation. by intros []. Qed.
#[global] Program Instance StellarValue_countable : Countable StellarValue :=
  inj_countable' (fun x => (sv_txSetHash x, sv_closeTime x, sv_upgrades x, sv_ext x))
    (fun '(h, t, u, e) => {| sv_txSetHash := h; sv_closeTime := t; sv_upgrades := u; sv_ext := e |}) _.
Next Obligation. by intros []. Qed.

Definition example_encode (sv : StellarValue) : option Value :=
  if (6 <? length (sv_upgrades sv))%nat then None else Some [Z.pos (encode sv)].

Definition example_decode (v : Value) : option StellarValue :=
  match v with [Z.pos p] => countable.decode p | _ => None end.

(** A node armed with an upgrade of the flags; transactions are valid until
    five seconds after the last ledger. *)
Definition example_herder : HerderEnv := {|
  he_lcl := quiet_header;
  he_lclHash := [7];
  he_timeNow := 1600000005;
  he_state := HERDER_TRACKING_NETWORK_STATE;
  he_consensusIndex := 1000;
  he_consensusCloseTime := 1600000000;
  he_upgrades := with_params 0 None (Some 200) None None None None (Some 1);
  he_protocolVersion := 18;
  he_getTxSet := fun h =>
    if bool_decide (h = [10])
    then Some {| mPreviousLedgerHash := [7]; mTransactions := [TxFrame (example_payment 126 6000)] |}
    else if bool_decide (h = [11])
    then Some {| mPreviousLedgerHash := [7];
                 mTransactions := [TxFrame (example_payment 126 6000); TxFrame (example_payment 200 10)] |}
    else None;
  he_checkOrTrim := fun _ lower _ => lower <=? 5;
  he_fullHash := fun _ => [0];
  he_verifySig := fun _ _ _ _ => true;
  he_sha256 := fun v => replicate 32 (Z.of_nat (length v));
  he_decode := example_decode;
  he_encode := example_encode;
  he_decodeUpgrade := example_dec;
  he_encodeUpgrade := example_enc;
|}.

Definition example_value (h : Hash) (offset : Z) (us : list LedgerUpgrade) : StellarValue :=
  {| sv_txSetHash := h; sv_closeTime := 1600000000 + offset; sv_upgrades := example_enc <$> us;
     sv_ext := Some {| lc_nodeID := [1]; lc_signature := [] |} |}.

Definition example_candidate (h : Hash) (offset : Z) (us : list LedgerUpgrade) : Value :=
  [Z.pos (encode (example_value h offset us))].

Lemma example_candidate_decode (h : Hash) (offset : Z) (us : list LedgerUpgrade) :
  he_decode example_herder (example_candidate h offset us) = Some (example_value h offset us).
Proof. apply decode_encode. Qed.

Lemma example_codec : codec_ok example_herder.
Proof.
  split.
  - intros sv v. cbn. unfold example_encode. destruct (_ <? _)%nat; [done|].
    intros [= <-]. apply decode_encode.
  - intros c b ups _ Hl. change (is_Some (example_encode (set_upgrades ups b))). unfold example_encode.
    rewrite (proj2 (Nat.ltb_ge _ _)) by done. eauto.
  - apply example_roundtrip.
Qed.

Lemma example_cache : cache_ok example_herder ∅.
Proof. intros h t. by rewrite lookup_empty. Qed.

(** Candidates with the transaction sets of the example. *)
Lemma example_is_candidate (h : Hash) (offset : Z) (us : list LedgerUpgrade) :
  (h = [10] \/ h = [11]) -> 0 < offset <= 5 ->
  check_upgrades example_dec (he_upgrades example_herder) true 18 quiet_header None
    (example_enc <$> us) = true ->
  candidate example_herder ∅ 1001 true (example_candidate h offset us).
Proof.
  intros Hh Ho Hu. split.
  - apply validateValue_full. exists (example_value h offset us).
    split; [apply example_candidate_decode|]. split; [|exact Hu].
    assert (exists t, he_getTxSet example_herder h = Some t /\
      bool_decide ([7] = mPreviousLedgerHash t) && (txset_size quiet_header t <=? 1000) &&
      is_sorted example_herder (mTransactions t) = true) as (t & Ht & Hok).
    { destruct Hh as [-> | ->]; by eexists. }
    eexists _, t. split; [done|]. split; [done|]. split; [done|].
    split; [change (u64 (he_timeNow example_herder + MAX_TIME_SLIP_SECONDS)) with 1600000065; cbn; lia|].
    split; [exact Ht|]. unfold txset_verdict. rewrite lookup_empty.
    apply andb_true_iff. split; [exact Hok|]. cbn [he_checkOrTrim example_herder].
    change (u64 (1600000000 + offset - 1600000000) <=? 5 = true).
    apply Z.leb_le. rewrite u64_id; unfold_ints; lia.
  - intros b t Hb. rewrite example_candidate_decode in Hb. injection Hb as <-. cbn [sv_txSetHash example_value].
    assert (forall f a, 0 <= f <= INT64_MAX -> priced (TxFrame (example_payment f a))) as Hp.
    { intros f a Hf. split; [change (0 < 1 <= INT64_MAX); unfold_ints; lia|].
      change (0 <= to_i64 f <= INT64_MAX). unfold to_i64.
      rewrite u64_id by (unfold_ints; lia). by rewrite (proj2 (Z.leb_le _ _)) by lia. }
    destruct Hh as [-> | ->]; intros [= <-]; repeat constructor; apply Hp; unfold_ints; lia.
Qed.

Definition two_proposals : list Value :=
  [example_candidate [10] 3 [LEDGER_UPGRADE_BASE_FEE 200];
   example_candidate [11] 4 [LEDGER_UPGRADE_BASE_FEE 200; LEDGER_UPGRADE_FLAGS 1]].

Lemma combineCandidates_valid_witness :
  herder_combineCandidates example_herder two_proposals =
    Ok (example_candidate [11] 4 [LEDGER_UPGRADE_BASE_FEE 200; LEDGER_UPGRADE_FLAGS 1]) /\
  exists v b, herder_combineCandidates example_herder two_proposals = Ok v /\
    he_decode example_herder v = Some b /\
    exists s', herder_validateValue example_herder 1001 v false ∅ = Ok (kFullyValidatedValue, s').
Proof.
  split; [vm_compute; reflexivity|].
  destruct (combineCandidates_valid example_herder ∅ 1001 true two_proposals
    [LEDGER_UPGRADE_BASE_FEE 200; LEDGER_UPGRADE_BASE_FEE 200; LEDGER_UPGRADE_FLAGS 1]
    example_codec example_cache) as (v & b & H1 & H2 & H3 & _).
  - discriminate.
  - repeat constructor; apply example_is_candidate; first [lia | reflexivity | auto].
  - exists [example_value [10] 3 [LEDGER_UPGRADE_BASE_FEE 200];
            example_value [11] 4 [LEDGER_UPGRADE_BASE_FEE 200; LEDGER_UPGRADE_FLAGS 1]].
    split; [|repeat constructor].
    repeat (apply Forall2_cons; split; [apply example_candidate_decode|]). constructor.
  - apply (bool_decide_unpack _). reflexivity.
  - exists 1. split; [lia|]. apply (bool_decide_unpack _). reflexivity.
  - exists v, b. auto.
Defined.

Lemma combineCandidates_throws_witness :
  let c1 := example_candidate [10] 3 [LEDGER_UPGRADE_FLAGS 1] in
  let c2 := example_candidate [11] 4 [LEDGER_UPGRADE_FLAGS 1] in
  herder_combineCandidates example_herder [c1; c2] = Err InvalidUpgradeStep.
Proof.
  intros c1 c2.
  apply (combineCandidates_throws example_herder ∅ 1001 [] [] [] c1 c2
    (example_value [10] 3 [LEDGER_UPGRADE_FLAGS 1]) (example_value [11] 4 [LEDGER_UPGRADE_FLAGS 1])
    [7; 1] [7; 1] (LEDGER_UPGRADE_FLAGS 1) (LEDGER_UPGRADE_FLAGS 1) example_cache).
  - repeat constructor; apply example_is_candidate; first [lia | reflexivity | auto].
  - apply example_candidate_decode.
  - apply example_candidate_decode.
  - left.
  - left.
  - reflexivity.
  - reflexivity.
  - reflexivity.
  - cbn. lia.
Defined.

(** At ten seconds the transactions have expired: alone the second value is
    invalid, after the first one it is valid. *)
Lemma txset_verdict_remembered_witness :
  let first := example_value [10] 3 [] in
  let second := example_value [10] 10 [] in
  let remembered := <[[10] := ([7], true)]> ∅ in
  validateValueHelper example_herder 1001 second ∅ =
    Ok (kInvalidValue, <[[10] := ([7], false)]> ∅) /\
  validateValueHelper example_herder 1001 first ∅ = Ok (kFullyValidatedValue, remembered) /\
  validateValueHelper example_herder 1001 second remembered =
    Ok (kFullyValidatedValue, remembered).
Proof.
  intros first second remembered.
  split; [vm_compute; reflexivity|]. split; [vm_compute; reflexivity|].
  apply (txset_verdict_remembered example_herder ∅ remembered 1001 first second
    {| lc_nodeID := [1]; lc_signature := [] |} {| lc_nodeID := [1]; lc_signature := [] |}
    {| mPreviousLedgerHash := [7]; mTransactions := [TxFrame (example_payment 126 6000)] |});
    try reflexivity.
Defined.

Lemma extractValidValue_repairs_witness :
  let v := example_candidate [10] 3 [LEDGER_UPGRADE_BASE_FEE 300; LEDGER_UPGRADE_FLAGS 1] in
  exists v' s', herder_extractValidValue example_herder 1001 v ∅ = Ok (Some v', s') /\
    he_decode example_herder v' = Some (example_value [10] 3 [LEDGER_UPGRADE_FLAGS 1]).
Proof.
  intros v.
  destruct (extractValidValue_repairs example_herder ∅ (<[[10] := ([7], true)]> ∅) 1001 v
    (example_value [10] 3 [LEDGER_UPGRADE_BASE_FEE 300; LEDGER_UPGRADE_FLAGS 1])
    example_codec (example_candidate_decode _ _ _) ltac:(cbn; lia) ltac:(vm_compute; reflexivity))
    as (v' & b' & H1 & H2 & H3 & _).
  exists v', (<[[10] := ([7], true)]> ∅). split; [exact H1|]. rewrite H2, H3. reflexivity.
Defined.
