(* ===== verification/NominationProtocol.v ===== *)
(** * The nomination protocol

    [src/scp/NominationProtocol.cpp], function by function.  Like the ballot
    protocol it feeds its own statements back through [Slot::processEnvelope];
    that call is the parameter [processNom] of the handlers, and the recursion
    is closed at the end of the file. *)
From stdpp Require Import base tactics list sorting numbers sets gmap.
From Stdlib Require Import ZArith Lia Bool.
From S2P Require Import Prelude Containers QuorumSet LocalNode Statement SlotState.
From S2P Require Import FederatedVoting BallotProtocol.

Open Scope Z_scope.
Open Scope kin_scope.

(** ** Statements *)

(** [std::includes]: is the sorted range [l2] contained in the sorted range
    [l1]? *)
Fixpoint std_includes {A} `{LtB A} (l1 l2 : list A) : bool :=
  match l2 with
  | [] => true
  | y :: l2' =>
      match l1 with
      | [] => false
      | x :: l1' =>
          if ltb y x then false
          else if negb (ltb x y) then std_includes l1' l2'
          else std_includes l1' l2
      end
  end.

(** The answer and [notEqual]. *)
Definition isSubsetHelper (p v : list Value) : bool * bool :=
  if (length p <=? length v)%nat then
    let res := std_includes v p in
    (res, if res then negb (length p =? length v)%nat else true)
  else (false, true).

Definition isNewerNomination (oldst st : SCPNomination) : bool :=
  let '(sub, g) := isSubsetHelper (n_votes oldst) (n_votes st) in
  if sub then
    let grows := g in
    let '(sub', g') := isSubsetHelper (n_accepted oldst) (n_accepted st) in
    if sub' then grows || g' else false
  else false.

(** [pledges.nominate()]; the messages of the protocol are NOMINATE
    statements. *)
Definition nomination_of (st : SCPStatement) : option SCPNomination :=
  match pledges st with SCP_ST_NOMINATE n => Some n | _ => None end.

Definition isNewerNominationFor (n : NominationState) (id : NodeID) (st : SCPNomination) : bool :=
  match map_find id (mLatestNominations n) with
  | None => true
  | Some oldp =>
      match nomination_of (getStatement oldp) with
      | Some old => isNewerNomination old st
      | None => false
      end
  end.

(** [std::adjacent_find] of a pair that is not increasing finds nothing. *)
Fixpoint strictly_increasing (l : list Value) : bool :=
  match l with
  | x :: ((y :: _) as l') => ltb x y && strictly_increasing l'
  | _ => true
  end.

Definition isSane (nom : SCPNomination) : bool :=
  negb (length (n_votes nom) + length (n_accepted nom) =? 0)%nat &&
  strictly_increasing (n_votes nom) && strictly_increasing (n_accepted nom).

(** Does the statement vote for, or accept, the value? *)
Definition votePredicate (v : Value) (st : SCPStatement) : bool :=
  match pledges st with SCP_ST_NOMINATE n => set_mem v (n_votes n) | _ => false end.

Definition acceptPredicate (v : Value) (st : SCPStatement) : bool :=
  match pledges st with SCP_ST_NOMINATE n => set_mem v (n_accepted n) | _ => false end.

(** The values [applyAll] visits, in order. *)
Definition applyAll_values (nom : SCPNomination) : list Value :=
  n_votes nom ++ List.filter (fun a => negb (set_mem a (n_votes nom))) (n_accepted nom).

Definition nomination_getStatementValues (st : SCPStatement) : list Value :=
  match nomination_of st with Some nom => applyAll_values nom | None => [] end.

Section nomination.
Context (env : SlotEnv).
Abbreviation localID := (mNodeID (localNode env)).
Abbreviation slot := (mSlotIndex env).

Definition nomination_validateValue (v : Value) : ValidationLevel :=
  validateValue (driver env) slot v true.

Definition nomination_extractValidValue (v : Value) : option Value :=
  extractValidValue (driver env) slot v.

Definition nomination_recordEnvelope (e : EnvelopeWrapper) : M unit :=
  let st := getStatement e in
  nset (fun n => set_mLatestNominations (map_set (nodeID st) e (mLatestNominations n)) n) ;;!
  recordStatement env st.

(** ** Leaders and priorities *)

Definition nomination_hashNode (isPriority : bool) (nodeID : NodeID) : M Z :=
  let! n := nget id in
  dbgAssert (negb (bool_decide (mPreviousValue n = []))) A_PreviousValueNotEmpty ;;!
  ret (hashNode (driver env) slot (mPreviousValue n) isPriority (mRoundNumber n) nodeID).

Definition nomination_hashValue (v : Value) : M Z :=
  let! n := nget id in
  dbgAssert (negb (bool_decide (mPreviousValue n = []))) A_PreviousValueNotEmpty ;;!
  ret (hashValue (driver env) slot (mPreviousValue n) (mRoundNumber n) v).

(** An exception of [getNodeWeight]. *)
Definition lift_weight (r : result weight_error Z) : M Z :=
  match r with Ok w => ret w | Err e => fail (WeightError e) end.

Definition getNodePriority (nodeID : NodeID) (qset : SCPQuorumSet) : M Z :=
  let! w := (if eqb_of nodeID localID then ret UINT64_MAX
             else lift_weight (getNodeWeight nodeID qset)) in
  if 0 <? w then
    let! h := nomination_hashNode false nodeID in
    if h <=? w then nomination_hashNode true nodeID else ret 0
  else ret 0.

(** The nodes [forAllNodes] visits, in order. *)
Definition visited (q : SCPQuorumSet) : list NodeID :=
  snd (forAllNodes (fun n acc => (true, acc ++ [n])) q []).

(** The scan for the nodes of highest priority. *)
Fixpoint scan_leaders (qset : SCPQuorumSet) (nodes : list NodeID) (topPriority : Z)
    (newRoundLeaders : list NodeID) : M (list NodeID) :=
  match nodes with
  | [] => ret newRoundLeaders
  | cur :: rest =>
      let! w := getNodePriority cur qset in
      let '(top, leaders) :=
        if topPriority <? w then (w, []) else (topPriority, newRoundLeaders) in
      let leaders := if (w =? top) && (0 <? w) then set_insert cur leaders else leaders in
      scan_leaders qset rest top leaders
  end.

(** The loop of [updateRoundLeaders]; [fuel] bounds the fast timeouts. *)
Fixpoint leaders_loop (fuel : nat) (myQSet : SCPQuorumSet) (maxLeaderCount : Z) : M unit :=
  let! n := nget id in
  if Z.of_nat (length (mRoundLeaders n)) <? maxLeaderCount then
    let! topPriority := getNodePriority localID myQSet in
    let! newLeaders := scan_leaders myQSet (visited myQSet) topPriority [localID] in
    let all := fold_left (fun s x => set_insert x s) newLeaders (mRoundLeaders n) in
    nset (set_mRoundLeaders all) ;;!
    if negb (length all =? length (mRoundLeaders n))%nat then ret tt
    else
      nset (fun n => set_mRoundNumber (mRoundNumber n + 1) n) ;;!
      match fuel with
      | O => fail OutOfFuel
      | S fuel' => leaders_loop fuel' myQSet maxLeaderCount
      end
  else ret tt.

Definition updateRoundLeaders (fuel : nat) : M unit :=
  let myQSet := Normalize.normalizeQSet (Some localID) (mQSet (localNode env)) in
  leaders_loop fuel myQSet (1 + Z.of_nat (length (visited myQSet))).

(** ** Votes *)

(** [getNewValueFromNomination]: the values in order, with the best vote so
    far. *)
Fixpoint pick_value (values : list Value) (newHash : Z) (newVote : option Value)
    : M (option Value) :=
  match values with
  | [] => ret newVote
  | v :: rest =>
      let valueToNominate :=
        if bool_decide (nomination_validateValue v = kFullyValidatedValue) then Some v
        else nomination_extractValidValue v in
      match valueToNominate with
      | Some x =>
          let! votes := nget mVotes in
          if set_mem x votes then pick_value rest newHash newVote
          else
            let! curHash := nomination_hashValue x in
            if newHash <=? curHash then pick_value rest curHash (Some x)
            else pick_value rest newHash newVote
      | None => pick_value rest newHash newVote
      end
  end.

Definition getNewValueFromNomination (nom : SCPNomination) : M (option Value) :=
  pick_value (applyAll_values nom) 0 None.

(** Promote votes of the statement to accepted. *)
Fixpoint promote_votes (votes : list Value) (modified : bool) : M bool :=
  match votes with
  | [] => ret modified
  | v :: rest =>
      let! n := nget id in
      if set_mem v (mAccepted n) then promote_votes rest modified
      else if federatedAccept env (votePredicate v) (acceptPredicate v) (mLatestNominations n) then
        if bool_decide (nomination_validateValue v = kFullyValidatedValue) then
          nset (fun n => set_mVotes (set_insert v (mVotes n))
                           (set_mAccepted (set_insert v (mAccepted n)) n)) ;;!
          promote_votes rest true
        else
          match nomination_extractValidValue v with
          | Some toVote =>
              if set_mem toVote (mVotes n) then promote_votes rest modified
              else
                nset (set_mVotes (set_insert toVote (mVotes n))) ;;!
                promote_votes rest true
          | None => promote_votes rest modified
          end
      else promote_votes rest modified
  end.

(** Promote accepted values to candidates. *)
Fixpoint promote_accepted (accepted : list Value) (newCandidates : bool) : M bool :=
  match accepted with
  | [] => ret newCandidates
  | a :: rest =>
      let! n := nget id in
      if set_mem a (mCandidates n) then promote_accepted rest newCandidates
      else if federatedRatify env (acceptPredicate a) (mLatestNominations n) then
        nset (set_mCandidates (set_insert a (mCandidates n))) ;;!
        promote_accepted rest true
      else promote_accepted rest newCandidates
  end.

Section self.
(** [mSlot.processEnvelope(envW, true)] on a nomination. *)
Context (processNom : EnvelopeWrapper -> M EnvelopeState).

Definition emitNomination : M unit :=
  let! n := nget id in
  let nom := mkNomination (mQSetHash (localNode env)) (mVotes n) (mAccepted n) in
  let envelope := createEnvelope env (SCP_ST_NOMINATE nom) in
  let! envW := wrapEnvelope envelope in
  let! res := processNom envW in
  if bool_decide (res = VALID) then
    let! last := nget nLastEnvelope in
    if match last with
       | None => true
       | Some l =>
           match nomination_of (getStatement l) with
           | Some old => isNewerNomination old nom
           | None => false
           end
       end
    then
      nset (set_nLastEnvelope (Some envW)) ;;!
      let! valid := gets mFullyValidated in
      if valid then effect (EmitEnvelope envelope) else ret tt
    else ret tt
  else fail BadStateNomination.

(** Take a vote from a round leader. *)
Definition takeVote (nom : SCPNomination) : M bool :=
  let! newVote := getNewValueFromNomination nom in
  match newVote with
  | Some v =>
      nset (fun n => set_mVotes (set_insert v (mVotes n)) n) ;;!
      effect (NominatingValue slot v) ;;!
      ret true
  | None => ret false
  end.

(** [NominationProtocol::processEnvelope]. *)
Definition nomination_processEnvelope (e : EnvelopeWrapper) : M EnvelopeState :=
  let st := getStatement e in
  match nomination_of st with
  | None => dbgAbort A_StatementType
  | Some nom =>
      let! n := nget id in
      if negb (isNewerNominationFor n (nodeID st) nom) then ret INVALID else
      if negb (isSane nom) then ret INVALID else
      nomination_recordEnvelope e ;;!
      let! started := nget mNominationStarted in
      (if started then
         let! modified := promote_votes (n_votes nom) false in
         let! accepted := nget mAccepted in
         let! newCandidates := promote_accepted accepted false in
         let! n := nget id in
         let! modified :=
           (if bool_decide (mCandidates n = []) && set_mem (nodeID st) (mRoundLeaders n)
            then let! took := takeVote nom in ret (took || modified)
            else ret modified) in
         (if modified then emitNomination else ret tt) ;;!
         (if newCandidates then
            let! candidates := nget mCandidates in
            let composite := combineCandidates (driver env) slot candidates in
            nset (set_mLatestCompositeCandidate composite) ;;!
            let! v := must composite P_CompositeCandidate in
            effect (UpdatedCandidateValue slot v) ;;!
            let! _ := bumpState env (processSelf env) v false in ret tt
          else ret tt)
       else ret tt) ;;!
      ret VALID
  end.

(** Votes taken from the latest nominations of the leaders. *)
Fixpoint take_leaders (leaders : list NodeID) (updated : bool) : M bool :=
  match leaders with
  | [] => ret updated
  | leader :: rest =>
      let! n := nget id in
      match map_find leader (mLatestNominations n) with
      | None => take_leaders rest updated
      | Some e =>
          match nomination_of (getStatement e) with
          | None => dbgAbort A_StatementType
          | Some nom =>
              let! took := takeVote nom in
              take_leaders rest (took || updated)
          end
      end
  end.

(** [NominationProtocol::nominate]; [fuel] bounds the fast timeouts. *)
Definition nominate (fuel : nat) (val previousValue : Value) (timedout : bool) : M bool :=
  (if timedout then nset (fun n => set_nTimerExpCount (nTimerExpCount n + 1) n) else ret tt) ;;!
  let! started := nget mNominationStarted in
  if timedout && negb started then ret false else
  nset (set_mNominationStarted true) ;;!
  nset (set_mPreviousValue previousValue) ;;!
  nset (fun n => set_mRoundNumber (mRoundNumber n + 1) n) ;;!
  updateRoundLeaders fuel ;;!
  let! n := nget id in
  let timeout := computeTimeout (u32 (mRoundNumber n)) in
  let! updated :=
    (if set_mem localID (mRoundLeaders n) then
       if set_mem val (mVotes n) then ret false
       else
         nset (set_mVotes (set_insert val (mVotes n))) ;;!
         effect (NominatingValue slot val) ;;! ret true
     else ret false) in
  let! updated := take_leaders (mRoundLeaders n) updated in
  effect (SetupTimer slot NOMINATION_TIMER timeout) ;;!
  (if updated then emitNomination else ret tt) ;;!
  ret updated.
End self.

(** ** Closing the recursion *)

(** [Slot::processEnvelope] on a nomination; [fuel] bounds the nesting: every
    nested call carries more votes or accepted values than the previous one. *)
Fixpoint slot_processNomination (fuel : nat) (e : EnvelopeWrapper) : M EnvelopeState :=
  match fuel with
  | O => fail OutOfFuel
  | S fuel' =>
      let st := getStatement e in
      dbgAssert (slotIndex st =? slot) A_SlotIndex ;;!
      let! s := get in
      let prev := isSome (getLatestMessage s (nodeID st)) in
      let! res := nomination_processEnvelope (slot_processNomination fuel') e in
      (if negb prev && bool_decide (res = VALID) then maybeSetGotVBlocking env else ret tt) ;;!
      ret res
  end.

(** ** Restoring and reporting *)

Definition nomination_setStateFromEnvelope (e : EnvelopeWrapper) : M unit :=
  let! started := nget mNominationStarted in
  if started then fail CannotSetState else
  nomination_recordEnvelope e ;;!
  match nomination_of (getStatement e) with
  | None => dbgAbort A_StatementType
  | Some nom =>
      nset (fun n => set_mAccepted
        (fold_left (fun s x => set_insert x s) (n_accepted nom) (mAccepted n)) n) ;;!
      nset (fun n => set_mVotes
        (fold_left (fun s x => set_insert x s) (n_votes nom) (mVotes n)) n) ;;!
      nset (set_nLastEnvelope (Some e))
  end.

Definition nomination_processCurrentState (s : SlotState) (f : SCPEnvelope -> bool)
    (forceSelf : bool) : list SCPEnvelope * bool :=
  visit_envelopes f
    (map (fun p => envelope (snd p))
         (List.filter (fun p => shareable env s forceSelf (fst p)) (mLatestNominations (np s)))).

(** [NominationProtocol::getState]. *)
Definition nomination_getState (s : SlotState) (n : NodeID) (selfAlreadyMovedOn : bool)
    : QuorumInfoNodeState :=
  let b := np s in
  if eqb_of n localID then AGREE else
  let enoughTimeHasPassed :=
    (NUM_TIMEOUTS_THRESHOLD_FOR_REPORTING <=? nTimerExpCount b) || selfAlreadyMovedOn in
  match map_find n (mLatestNominations b) with
  | None => if enoughTimeHasPassed then MISSING else NO_INFO
  | Some e =>
      match enoughTimeHasPassed, nLastEnvelope b with
      | true, Some l =>
          match nomination_of (getStatement e), nomination_of (getStatement l) with
          | Some other, Some mine =>
              let '(isSubset, notEq) := isSubsetHelper (n_accepted other) (n_accepted mine) in
              if isSubset then if notEq then DELAYED else AGREE else DISAGREE
          | _, _ => AGREE
          end
      | _, _ => AGREE
      end
  end.
End nomination.
