(* ===== verification/NominationSafety.v ===== *)
(** * Nomination protocol: invariant and safety

    The order of nominations, what the promotions do, the invariant of the
    nomination state, and the proof that every operation respects it,
    terminates, and acts on the ballot protocol only through [bumpState]. *)
From stdpp Require Import base tactics list sorting numbers sets gmap.
From Stdlib Require Import ZArith Lia Bool.
From S2P Require Import Prelude Containers QuorumSet LocalNode Statement SlotState.
From S2P Require Import FederatedVoting BallotProtocol BallotInvariant BallotSafety BallotTheorems.
From S2P Require Import NominationProtocol.

Open Scope Z_scope.
Open Scope kin_scope.

(** ** The order of nominations *)

Lemma std_includes_subset {A} `{TotalLt A} (l1 l2 : list A) :
  increasing l1 -> increasing l2 -> std_includes l1 l2 = true <-> l2 ⊆ l1.
Proof.
  intros H1. revert l2. induction H1 as [|x l1 Hs1 IH Hx]; intros l2 H2.
  { destruct l2 as [|y l2]; cbn; [set_solver|]. split; [done|].
    intros Hsub. specialize (Hsub y). set_solver. }
  destruct H2 as [|y l2 Hs2 Hy]; cbn; [set_solver|].
  rewrite Forall_forall in Hx. rewrite Forall_forall in Hy.
  destruct (ltb_trichotomy x y) as [Hlt|[->|Hlt]].
  - rewrite (ltb_asym _ _ Hlt), Hlt. cbn [negb]. rewrite IH by (constructor; [done|by apply Forall_forall]).
    split; [set_solver|]. intros Hsub z Hz.
    assert (z <> x) by (intros ->; apply elem_of_cons in Hz as [->|Hz];
      [by rewrite ltb_irrefl in Hlt|];
      apply Hy in Hz; apply ltb_asym in Hz; congruence).
    specialize (Hsub z Hz). set_solver.
  - rewrite ltb_irrefl. cbn [negb]. rewrite IH by done. split; [set_solver|].
    intros Hsub z Hz. specialize (Hsub z). apply Hy in Hz as Hlt.
    assert (z <> y) by (intros ->; by rewrite ltb_irrefl in Hlt). set_solver.
  - rewrite Hlt. split; [done|]. intros Hsub. specialize (Hsub y).
    assert (y ∈ x :: l1) as [->|Hin]%elem_of_cons by (apply Hsub; set_solver).
    + by rewrite ltb_irrefl in Hlt.
    + apply Hx in Hin. apply ltb_asym in Hin. congruence.
Qed.

Lemma increasing_incl_length {A} `{TotalLt A} (l1 l2 : list A) :
  increasing l1 -> l1 ⊆ l2 -> (length l1 <= length l2)%nat.
Proof.
  intros Hs Hsub. apply increasing_NoDup in Hs.
  apply (NoDup_incl_length (l := l1) (l' := l2)).
  - by apply NoDup_ListNoDup.
  - intros x. rewrite <- !list_elem_of_In. apply Hsub.
Qed.

Lemma increasing_same {A} `{TotalLt A} (l1 l2 : list A) :
  increasing l1 -> increasing l2 -> l1 ⊆ l2 -> l2 ⊆ l1 -> l1 = l2.
Proof.
  intros H1. revert l2. induction H1 as [|x l1 Hs1 IH Hx]; intros l2 H2 Ha Hb.
  { destruct l2 as [|y l2]; [done|]. specialize (Hb y). set_solver. }
  destruct H2 as [|y l2 Hs2 Hy]; [specialize (Ha x); set_solver|].
  rewrite Forall_forall in Hx, Hy.
  assert (x = y) as ->.
  { assert (x ∈ y :: l2) as [->|Hxy]%elem_of_cons by (apply Ha; set_solver); [done|].
    assert (y ∈ x :: l1) as [->|Hyx]%elem_of_cons by (apply Hb; set_solver); [done|].
    apply Hx in Hyx. apply Hy, ltb_asym in Hxy. congruence. }
  f_equal. apply IH; [done| |].
  - intros z Hz. assert (z ∈ y :: l2) as [->|?]%elem_of_cons by (apply Ha; set_solver); [|done].
    apply Hx in Hz. by rewrite ltb_irrefl in Hz.
  - intros z Hz. assert (z ∈ y :: l1) as [->|?]%elem_of_cons by (apply Hb; set_solver); [|done].
    apply Hy in Hz. by rewrite ltb_irrefl in Hz.
Qed.

Lemma increasing_strict_length {A} `{TotalLt A} (l1 l2 : list A) :
  increasing l1 -> increasing l2 -> l1 ⊆ l2 -> ~ l2 ⊆ l1 -> (length l1 < length l2)%nat.
Proof.
  intros H1 H2 Hsub Hn. pose proof (increasing_incl_length _ _ H1 Hsub).
  destruct (Nat.eq_dec (length l1) (length l2)) as [E|]; [|lia]. exfalso. apply Hn.
  intros x. rewrite !list_elem_of_In. apply NoDup_length_incl.
  - apply NoDup_ListNoDup. by apply increasing_NoDup.
  - lia.
  - intros y. rewrite <- !list_elem_of_In. apply Hsub.
Qed.

Lemma isSubsetHelper_spec (p v : list Value) :
  increasing p -> increasing v ->
  fst (isSubsetHelper p v) = true <-> p ⊆ v.
Proof.
  intros Hp Hv. unfold isSubsetHelper. destruct (Nat.leb_spec (length p) (length v)); cbn [fst].
  - by apply std_includes_subset.
  - split; [done|]. intros Hsub. apply increasing_incl_length in Hsub; [lia|done].
Qed.

Lemma isSubsetHelper_notEqual (p v : list Value) :
  increasing p -> increasing v -> fst (isSubsetHelper p v) = true ->
  snd (isSubsetHelper p v) = negb (length p =? length v)%nat.
Proof.
  intros Hp Hv. unfold isSubsetHelper. destruct (Nat.leb_spec (length p) (length v)); [|done].
  cbn [fst snd]. by intros ->.
Qed.

(** The votes and accepted values of a sane nomination are sorted sets. *)
Definition sorted_nom (nom : SCPNomination) : Prop :=
  increasing (n_votes nom) /\ increasing (n_accepted nom).

Lemma strictly_increasing_spec (l : list Value) : strictly_increasing l = true <-> increasing l.
Proof.
  induction l as [|x l IH]; [by split; constructor|]. destruct l as [|y l].
  { by split; repeat constructor. }
  change (strictly_increasing (x :: y :: l)) with (ltb x y && strictly_increasing (y :: l)).
  rewrite andb_true_iff, IH. split.
  - intros [Hxy Hs]. constructor; [done|]. inversion Hs as [|? ? Hs' Hy]; subst.
    constructor; [done|]. eapply Forall_impl; [exact Hy|]. intros z Hz. by eapply ltb_trans.
  - intros Hs. inversion Hs as [|? ? Hs' Hx]; subst. inversion Hx; subst. done.
Qed.

Lemma isSane_spec (nom : SCPNomination) :
  isSane nom = true <-> sorted_nom nom /\ ~ (n_votes nom = [] /\ n_accepted nom = []).
Proof.
  unfold isSane, sorted_nom. rewrite !andb_true_iff, !strictly_increasing_spec, negb_true_iff,
    Nat.eqb_neq. destruct (n_votes nom), (n_accepted nom); cbn; naive_solver lia.
Qed.

Definition nom_size (nom : SCPNomination) : nat :=
  (length (n_votes nom) + length (n_accepted nom))%nat.

Lemma isNewerNomination_spec (o n : SCPNomination) :
  sorted_nom o -> sorted_nom n ->
  isNewerNomination o n = true <->
  n_votes o ⊆ n_votes n /\ n_accepted o ⊆ n_accepted n /\ (nom_size o < nom_size n)%nat.
Proof.
  intros [Ho1 Ho2] [Hn1 Hn2]. unfold isNewerNomination, nom_size.
  pose proof (isSubsetHelper_spec _ _ Ho1 Hn1) as S1.
  pose proof (isSubsetHelper_spec _ _ Ho2 Hn2) as S2.
  pose proof (isSubsetHelper_notEqual _ _ Ho1 Hn1) as N1.
  pose proof (isSubsetHelper_notEqual _ _ Ho2 Hn2) as N2.
  destruct (isSubsetHelper (n_votes o) (n_votes n)) as [r1 g1], (isSubsetHelper
    (n_accepted o) (n_accepted n)) as [r2 g2]; cbn [fst snd] in *.
  destruct r1; [|split; [done|]; intros (?%S1 & _); done].
  destruct r2; [|split; [done|]; intros (_ & ?%S2 & _); done].
  rewrite N1, N2 by done.
  assert (n_votes o ⊆ n_votes n) as V by by apply S1.
  assert (n_accepted o ⊆ n_accepted n) as W by by apply S2.
  apply increasing_incl_length in V as ?; [|done].
  apply increasing_incl_length in W as ?; [|done].
  rewrite orb_true_iff, !negb_true_iff, !Nat.eqb_neq. split; [intros []; split_and!; auto; lia|].
  intros (_ & _ & ?). lia.
Qed.

(** Newer nominations: on sane statements, [isNewerNomination] is exactly
    growth of the two sets of values (no value is dropped and some value is
    added), hence a strict order. *)
Theorem isNewerNomination_grows (a b c : SCPNomination) :
  isSane a = true -> isSane b = true -> isSane c = true ->
  (isNewerNomination a b = true <->
   n_votes a ⊆ n_votes b /\ n_accepted a ⊆ n_accepted b /\
   ~ (n_votes b ⊆ n_votes a /\ n_accepted b ⊆ n_accepted a)) /\
  isNewerNomination a a = false /\
  (isNewerNomination a b = true -> isNewerNomination b c = true ->
   isNewerNomination a c = true).
Proof.
  intros [Ha _]%isSane_spec [Hb _]%isSane_spec [Hc _]%isSane_spec.
  rewrite <- not_true_iff_false, !isNewerNomination_spec by done. unfold nom_size. split; [|split].
  - destruct Ha as [Ha1 Ha2], Hb as [Hb1 Hb2]. split.
    + intros (V & W & Hlt). split_and!; [done..|]. intros [V' W'].
      rewrite (increasing_same _ _ Ha1 Hb1 V V'), (increasing_same _ _ Ha2 Hb2 W W') in Hlt. lia.
    + intros (V & W & Hn). split_and!; [done..|].
      pose proof (increasing_incl_length _ _ Ha1 V). pose proof (increasing_incl_length _ _ Ha2 W).
      destruct (decide (n_votes b ⊆ n_votes a)) as [V'|V'].
      * assert (~ n_accepted b ⊆ n_accepted a) as W' by naive_solver.
        pose proof (increasing_strict_length _ _ Ha2 Hb2 W W'). lia.
      * pose proof (increasing_strict_length _ _ Ha1 Hb1 V V'). lia.
  - intros (_ & _ & ?). lia.
  - intros (? & ? & ?) (? & ? & ?). split_and!; [by etrans..|lia].
Qed.

(** ** The invariant *)

(** A nomination message with values in [Vs]. *)
Definition nom_within (Vs : list Value) (e : EnvelopeWrapper) (nom : SCPNomination) : Prop :=
  nomination_of (getStatement e) = Some nom /\ sorted_nom nom /\
  n_votes nom ⊆ Vs /\ n_accepted nom ⊆ Vs.

Section invariant.
(** The values that occur in the messages of the slot and those the driver
    makes of them. *)
Context (Vs : list Value) (localID : NodeID).

Record nominv (n : NominationState) : Prop := mkNominv {
  ni_votes : increasing (mVotes n);
  ni_accepted : increasing (mAccepted n);
  ni_candidates : increasing (mCandidates n);
  ni_accepted_votes : mAccepted n ⊆ mVotes n;
  ni_candidates_accepted : mCandidates n ⊆ mAccepted n;
  ni_within : mVotes n ⊆ Vs;
  ni_latest : forall id e, map_find id (mLatestNominations n) = Some e ->
    exists nom, nom_within Vs e nom;
  ni_own : forall e nom, map_find localID (mLatestNominations n) = Some e ->
    nomination_of (getStatement e) = Some nom ->
    n_votes nom ⊆ mVotes n /\ n_accepted nom ⊆ mAccepted n;
  ni_previous : mNominationStarted n = true -> mPreviousValue n <> []
}.

(** How the nomination state evolves: nothing is taken back. *)
Definition ngrows (n n' : NominationState) : Prop :=
  mVotes n ⊆ mVotes n' /\ mAccepted n ⊆ mAccepted n' /\ mCandidates n ⊆ mCandidates n'.

#[global] Instance ngrows_preorder : PreOrder ngrows.
Proof.
  split; [done|]. intros n1 n2 n3 (?&?&?) (?&?&?). split_and!; by etrans.
Qed.

(** Room left for more votes and accepted values. *)
Definition room (n : NominationState) : nat :=
  (2 * length Vs - length (mVotes n) - length (mAccepted n))%nat.

Lemma nominv_bounds (n : NominationState) :
  nominv n -> (length (mVotes n) <= length Vs /\ length (mAccepted n) <= length Vs)%nat.
Proof.
  intros Hn. split; (apply increasing_incl_length; [apply Hn|]); [apply Hn|].
  etrans; apply Hn.
Qed.

(** Stopping the nomination keeps the invariant. *)
Lemma nominv_stop (n : NominationState) :
  nominv n -> nominv (set_mNominationStarted false n).
Proof. intros []. by constructor. Qed.

Lemma length_set_insert_new {A} `{TotalLt A} (x : A) (l : list A) :
  x ∉ l -> length (set_insert x l) = S (length l).
Proof.
  induction l as [|y l IH]; cbn; [done|]. intros Hx.
  destruct (ltb x y) eqn:E1; [done|]. destruct (ltb y x) eqn:E2; cbn.
  - rewrite IH; [done|set_solver].
  - assert (x = y) as -> by by apply ltb_total. set_solver.
Qed.

Lemma set_insert_sub {A} `{TotalLt A} (x : A) (l m : list A) :
  x ∈ m -> l ⊆ m -> set_insert x l ⊆ m.
Proof. intros Hx Hl y Hy. apply elem_of_set_insert in Hy as [->|?]; [done|by apply Hl]. Qed.

Lemma sub_set_insert {A} `{TotalLt A} (x : A) (l : list A) : l ⊆ set_insert x l.
Proof. intros y Hy. apply elem_of_set_insert. by right. Qed.

(** Adding a vote, an accepted value, a candidate. *)
Lemma nominv_vote (n : NominationState) (v : Value) :
  nominv n -> v ∈ Vs -> nominv (set_mVotes (set_insert v (mVotes n)) n).
Proof.
  intros [] Hv. constructor; cbn; try done.
  - by apply increasing_set_insert.
  - etrans; [done|apply sub_set_insert].
  - by apply set_insert_sub.
  - intros e nom He Hnom. destruct (ni_own0 e nom He Hnom). split; [|done].
    etrans; [done|apply sub_set_insert].
Qed.

Lemma nominv_accept (n : NominationState) (v : Value) :
  nominv n -> v ∈ Vs ->
  nominv (set_mVotes (set_insert v (mVotes n)) (set_mAccepted (set_insert v (mAccepted n)) n)).
Proof.
  intros [] Hv. constructor; cbn; try done.
  - by apply increasing_set_insert.
  - by apply increasing_set_insert.
  - apply set_insert_sub; [apply elem_of_set_insert; by left|].
    etrans; [done|apply sub_set_insert].
  - etrans; [done|apply sub_set_insert].
  - by apply set_insert_sub.
  - intros e nom He Hnom. destruct (ni_own0 e nom He Hnom).
    split; (etrans; [done|apply sub_set_insert]).
Qed.

Lemma nominv_candidate (n : NominationState) (v : Value) :
  nominv n -> v ∈ mAccepted n -> nominv (set_mCandidates (set_insert v (mCandidates n)) n).
Proof.
  intros [] Hv. constructor; cbn; try done.
  - by apply increasing_set_insert.
  - by apply set_insert_sub.
Qed.

(** Recording a message of another node, or the current state as one's own. *)
Lemma nominv_record (n : NominationState) (e : EnvelopeWrapper) (nom : SCPNomination) :
  nominv n -> nom_within Vs e nom ->
  (nodeID (getStatement e) = localID -> n_votes nom ⊆ mVotes n /\ n_accepted nom ⊆ mAccepted n) ->
  nominv (set_mLatestNominations
    (map_set (nodeID (getStatement e)) e (mLatestNominations n)) n).
Proof.
  intros [] Hw Hown. constructor; cbn; try done.
  - intros id e'. rewrite map_find_set. destruct (eqb_of id _); [|apply ni_latest0].
    intros [= <-]. by exists nom.
  - intros e' nom'. rewrite map_find_set.
    destruct (eqb_of localID (nodeID (getStatement e))) eqn:E; [|apply ni_own0].
    apply eqb_of_true in E. intros [= <-] Hnom'. destruct Hw as [Hnom _].
    assert (nom' = nom) as -> by congruence. by apply Hown.
Qed.
End invariant.

(** ** The operations *)

(** How the handlers can stop: as the ballot protocol does, or because the
    driver combines the candidates to nothing. *)
Definition nom_allowed (e : scp_error) : Prop :=
  allowed e \/ e = NullDeref P_CompositeCandidate.

Lemma wp_eq {S R A} (E : R -> Prop) (m : ST S R A) (Q : A -> S -> Prop) (s : S) :
  wp E m Q s -> wp E m (fun a s' => Q a s' /\ m s = Ok (a, s')) s.
Proof. unfold wp. by destruct (m s) as [[a s']|]. Qed.

Lemma wp_nget {A} (E : scp_error -> Prop) (f : NominationState -> A) (Q : A -> SlotState -> Prop)
    (s : SlotState) : Q (f (np s)) s -> wp E (nget f) Q s.
Proof. done. Qed.

Lemma wp_nset (E : scp_error -> Prop) (f : NominationState -> NominationState)
    (Q : unit -> SlotState -> Prop) (s : SlotState) :
  Q tt (set_np (f (np s)) s) -> wp E (nset f) Q s.
Proof. done. Qed.

Ltac nproj :=
  cbn [bp np mStatementsHistory mFullyValidated mGotVBlocking effects nextPtr
       set_bp set_np set_mStatementsHistory set_mFullyValidated set_mGotVBlocking
       set_effects set_nextPtr
       mRoundNumber mVotes mAccepted mCandidates mLatestNominations nLastEnvelope
       mRoundLeaders mNominationStarted mLatestCompositeCandidate mPreviousValue nTimerExpCount
       set_mRoundNumber set_mVotes set_mAccepted set_mCandidates set_mLatestNominations
       set_nLastEnvelope set_mRoundLeaders set_mNominationStarted
       set_mLatestCompositeCandidate set_mPreviousValue set_nTimerExpCount
       isSome negb id] in *.

Ltac nwps :=
  repeat (first [wp_step
                | lazymatch goal with
                  | |- wp _ (nget _) _ _ => apply wp_nget
                  | |- wp _ (nset _) _ _ => apply wp_nset
                  end; cbv beta]; nproj).

(** What the local steps of the protocol leave alone. *)
Definition same_rest (n n' : NominationState) : Prop :=
  mLatestNominations n' = mLatestNominations n /\ mNominationStarted n' = mNominationStarted n /\
  mPreviousValue n' = mPreviousValue n /\ mRoundLeaders n' = mRoundLeaders n.

#[global] Instance same_rest_preorder : PreOrder same_rest.
Proof. split; [done|]. intros n1 n2 n3 (?&?&?&?) (?&?&?&?). split_and!; congruence. Qed.

#[global] Instance nominates_preorder : PreOrder nominates.
Proof.
  split; [done|]. intros s1 s2 s3 (?&?&?&?) (?&?&?&?).
  split_and!; [congruence|by etrans|congruence..].
Qed.

Definition size (n : NominationState) : nat := (length (mVotes n) + length (mAccepted n))%nat.

Lemma nominates_np (s : SlotState) (n : NominationState) : nominates s (set_np n s).
Proof. done. Qed.

Lemma nominates_effect (s : SlotState) (e : Effect) :
  announced [e] = [] -> sent [e] = [] -> nominates s (set_effects (effects s ++ [e]) s).
Proof.
  intros He Hs. split_and!; [done..| |]; nproj.
  - by rewrite announced_app, He, app_nil_r.
  - by rewrite sent_app, Hs, app_nil_r.
Qed.

Lemma cons_subset {A} (x : A) (l X : list A) : x :: l ⊆ X -> x ∈ X /\ l ⊆ X.
Proof. intros H. split; [apply H; by left|]. intros y Hy. apply H. by right. Qed.

Section ops.
Context (env : SlotEnv) (Vs : list Value).
Abbreviation localID := (mNodeID (localNode env)).
Abbreviation slot := (mSlotIndex env).

(** The driver's variations of the values are among [Vs]. *)
Context (Hclosed : forall v x, v ∈ Vs -> nomination_extractValidValue env v = Some x -> x ∈ Vs).

Abbreviation ninv := (nominv Vs localID).

(** A local step: the ballot state is untouched, the invariant is kept, and
    the sets of values only grow. *)
Definition local (s s' : SlotState) : Prop :=
  nominates s s' /\ ninv (np s') /\ ngrows (np s) (np s') /\ same_rest (np s) (np s').

Lemma local_refl (s : SlotState) : ninv (np s) -> local s s.
Proof. by intros ?. Qed.

Lemma local_trans (s1 s2 s3 : SlotState) : local s1 s2 -> local s2 s3 -> local s1 s3.
Proof. intros (?&?&?&?) (?&?&?&?). split_and!; try done; by etrans. Qed.

Lemma ngrows_size (n n' : NominationState) :
  ninv n -> ngrows n n' -> (size n <= size n')%nat.
Proof.
  intros Hn (Hv & Ha & _). unfold size.
  pose proof (increasing_incl_length _ _ (ni_votes _ _ _ Hn) Hv).
  pose proof (increasing_incl_length _ _ (ni_accepted _ _ _ Hn) Ha). lia.
Qed.

Lemma add_vote_local (s : SlotState) (v : Value) :
  ninv (np s) -> v ∈ Vs -> v ∉ mVotes (np s) ->
  local s (set_np (set_mVotes (set_insert v (mVotes (np s))) (np s)) s) /\
  (size (np s) < size (set_mVotes (set_insert v (mVotes (np s))) (np s)))%nat.
Proof.
  intros Hn Hv Hnew. split.
  - split_and!; try done; [by apply nominv_vote|]. split_and!; try done. apply sub_set_insert.
  - unfold size. nproj. rewrite length_set_insert_new by done. lia.
Qed.

Lemma promote_votes_spec (E : scp_error -> Prop) (votes : list Value) (modified : bool)
    (s : SlotState) :
  ninv (np s) -> votes ⊆ Vs ->
  wp E (promote_votes env votes modified) (fun r s' => local s s' /\
    (r = true -> modified = true \/ (size (np s) < size (np s'))%nat)) s.
Proof.
  revert modified s. induction votes as [|v votes IH]; intros modified s Hn Hsub;
    cbn [promote_votes]; nwps.
  { split; [by apply local_refl|auto]. }
  apply cons_subset in Hsub as [Hv Hsub'].
  wp_if Hacc; [by apply IH|]. wp_if Hfed; [|by apply IH].
  (* the state after a change, and the rest of the loop *)
  assert (forall s1, local s s1 -> (size (np s) < size (np s1))%nat ->
    wp E (promote_votes env votes true) (fun r s' => local s s' /\
      (r = true -> modified = true \/ (size (np s) < size (np s'))%nat)) s1) as Hrest.
  { intros s1 Hl1 Hlt. eapply wp_mono; [apply IH; [apply Hl1|done]|]. intros r s2 [Hl2 _].
    split; [by eapply local_trans|]. intros _. right.
    destruct Hl1 as (_ & Hn1 & _), Hl2 as (_ & _ & Hg2 & _).
    pose proof (ngrows_size _ _ Hn1 Hg2). lia. }
  wp_if Hval; nwps.
  - apply Hrest.
    + split_and!; try done; [by apply nominv_accept|].
      split_and!; try done; apply sub_set_insert.
    + apply set_mem_false in Hacc. unfold size. nproj.
      rewrite (length_set_insert_new v (mAccepted _)) by done.
      pose proof (increasing_incl_length (mVotes (np s)) _ (ni_votes _ _ _ Hn)
        (sub_set_insert v (mVotes (np s)))). lia.
  - destruct (nomination_extractValidValue env v) as [x|] eqn:Ex; [|by apply IH].
    wp_if Hx; [by apply IH|]. nwps. apply set_mem_false in Hx.
    destruct (add_vote_local s x Hn (Hclosed _ _ Hv Ex) Hx). by apply Hrest.
Qed.

Lemma promote_accepted_spec (E : scp_error -> Prop) (accepted : list Value) (found : bool)
    (s : SlotState) :
  ninv (np s) -> accepted ⊆ mAccepted (np s) ->
  wp E (promote_accepted env accepted found) (fun _ s' => local s s' /\
    size (np s') = size (np s)) s.
Proof.
  revert found s. induction accepted as [|a accepted IH]; intros found s Hn Hsub;
    cbn [promote_accepted]; nwps.
  { split; [by apply local_refl|done]. }
  apply cons_subset in Hsub as [Ha Hsub'].
  wp_if Hc; [by apply IH|]. wp_if Hfed; [|by apply IH]. nwps.
  set (s1 := set_np _ s).
  assert (local s s1) as Hl1.
  { split_and!; try done; [by apply nominv_candidate|].
    split_and!; try done. apply sub_set_insert. }
  eapply wp_mono; [apply IH; [apply Hl1|done]|]. intros r s2 [Hl2 Hs2].
  split; [by eapply local_trans|done].
Qed.

Lemma pick_value_spec (E : scp_error -> Prop) (values : list Value) (h : Z) (best : option Value)
    (s : SlotState) :
  mPreviousValue (np s) <> [] -> values ⊆ Vs ->
  (forall x, best = Some x -> x ∈ Vs /\ x ∉ mVotes (np s)) ->
  wp E (pick_value env values h best) (fun r s' => s' = s /\
    forall x, r = Some x -> x ∈ Vs /\ x ∉ mVotes (np s)) s.
Proof.
  intros Hp. revert h best. induction values as [|v values IH]; intros h best Hsub Hb;
    cbn [pick_value]; nwps; [done|].
  apply cons_subset in Hsub as [Hv Hsub'].
  match goal with |- wp _ (match ?o with _ => _ end) _ _ =>
    assert (forall x, o = Some x -> x ∈ Vs) as Ho; [|destruct o as [x|]; [|by apply IH]] end.
  { case_bool_decide; [by intros ? [= <-]|]. intros x. by apply Hclosed. }
  nwps. wp_if Hm; [by apply IH|]. apply set_mem_false in Hm.
  unfold nomination_hashValue. nwps.
  apply wp_check; [by rewrite bool_decide_false|]. nwps.
  wp_if Hh; apply IH; auto. intros ? [= <-]. auto.
Qed.

Lemma applyAll_values_sub (nom : SCPNomination) :
  n_votes nom ⊆ Vs -> n_accepted nom ⊆ Vs -> applyAll_values nom ⊆ Vs.
Proof.
  intros Hv Ha x. unfold applyAll_values. rewrite elem_of_app. intros [?|Hx]; [by apply Hv|].
  rewrite list_elem_of_In, filter_In, <- list_elem_of_In in Hx. by apply Ha, Hx.
Qed.

Lemma takeVote_spec (E : scp_error -> Prop) (nom : SCPNomination) (s : SlotState) :
  ninv (np s) -> mPreviousValue (np s) <> [] -> n_votes nom ⊆ Vs -> n_accepted nom ⊆ Vs ->
  wp E (takeVote env nom) (fun r s' => local s s' /\
    (r = true -> (size (np s) < size (np s'))%nat)) s.
Proof.
  intros Hn Hp Hv Ha. unfold takeVote, getNewValueFromNomination. nwps.
  eapply wp_mono; [apply pick_value_spec; [done|by apply applyAll_values_sub|done]|].
  intros [x|] s' [-> Hx]; nwps; [|split; [by apply local_refl|done]].
  destruct (Hx _ eq_refl) as [Hin Hnew]. destruct (add_vote_local s x Hn Hin Hnew) as [Hl Hlt].
  split; [|intros _; exact Hlt]. destruct Hl as (Hm & Hl). split; [|exact Hl].
  etrans; [exact Hm|]. by apply (nominates_effect (set_np _ s)).
Qed.

(** ** Emission and processing *)

Context (Hlocal : proper (mQSet (localNode env))).

Abbreviation steps := (rtc (next localID slot)).

(** What holds between two operations of the slot. *)
Definition good (s : SlotState) : Prop :=
  quiet (bp s) /\ mCurrentMessageLevel (bp s) = 0 /\ ninv (np s).

(** An operation keeps the slot good, is a run of the transition system of the
    ballot protocol, takes no value back, and the node stands by what it says. *)
Definition progress (s s' : SlotState) : Prop :=
  good s' /\ steps s s' /\ ngrows (np s) (np s') /\
  forall C, belongs C env -> voice C s -> voice C s'.

Lemma env_hosted : hosted localID slot env.
Proof. done. Qed.

Lemma progress_refl (s : SlotState) : good s -> progress s s.
Proof. by intros ?. Qed.

Lemma progress_trans (s1 s2 s3 : SlotState) : progress s1 s2 -> progress s2 s3 -> progress s1 s3.
Proof.
  intros (_ & ? & ? & ?) (? & ? & ? & ?). split; [done|]. split_and!; [by etrans..|auto].
Qed.

Lemma nominates_progress (s s' : SlotState) :
  good s -> nominates s s' -> ninv (np s') -> ngrows (np s) (np s') -> progress s s'.
Proof.
  intros (Hq & HL & _) Hn Hi Hg. pose proof Hn as (Eb & _ & _ & Es).
  split; [split_and!; rewrite ?Eb; done|]. split_and!; [|done|].
  - apply rtc_once. by apply next_nomination.
  - intros C _. apply voice_view; by rewrite ?Eb.
Qed.

Lemma local_progress (s s' : SlotState) : good s -> local s s' -> progress s s'.
Proof. intros Hg (? & ? & ? & _). by apply nominates_progress. Qed.

(** A bump that is not forced only starts the ballot protocol. *)
Lemma bumpState_progress (s : SlotState) (v : Value) :
  good s -> wp allowed (bumpState env (processSelf env) v false) (fun _ s' => progress s s') s.
Proof.
  intros (Hq & HL & Hn).
  assert (forall C, belongs C env ->
    wp allowed (bumpState env (processSelf env) v false) (fun _ s' =>
      quiet (bp s') /\ evolves (C := C) [localID] s s') s) as Hw.
  { intros C HC. destruct (mCurrentBallot (bp s)) as [cur|] eqn:Ecur.
    - unfold bumpState. wps. rewrite Ecur. by wps.
    - eapply wp_mono; [eapply (bumpState_spec env C HC);
        [by apply (processSelf_spec env C HC)|done|done|by rewrite Ecur]|].
      by intros r s' (? & ? & _). }
  eapply wp_mono; [exact (wp_eq _ _ _ _ (Hw (anywhere env) ltac:(done)))|].
  intros r s' [[Hq' Hst] Hrun]. split; [split_and!; [done|by rewrite (ev_level _ _ _ Hst)|]|].
  - destruct (ev_nomination _ _ _ Hst) as [-> | ->]; [done|by apply nominv_stop].
  - split_and!.
    + apply rtc_once. apply (next_event _ _ _ _ env (BumpState v false)); [done..|].
      cbn [handle]. unfold bind. by rewrite Hrun.
    + by destruct (ev_nomination _ _ _ Hst) as [-> | ->].
    + intros C HC. destruct (wp_ok _ _ _ _ _ _ (Hw C HC) Hrun) as [_ Hst']. apply Hst'.
Qed.

(** The statement a node makes of its votes, and that it is new. *)
Definition own_nomination (s : SlotState) (e : EnvelopeWrapper) : Prop :=
  nodeID (getStatement e) = localID /\ slotIndex (getStatement e) = slot /\
  exists h, nomination_of (getStatement e) =
    Some (mkNomination h (mVotes (np s)) (mAccepted (np s))).

Definition unsaid (s : SlotState) : Prop :=
  (0 < size (np s))%nat /\
  forall e nom, map_find localID (mLatestNominations (np s)) = Some e ->
    nomination_of (getStatement e) = Some nom -> (nom_size nom < size (np s))%nat.

Section self.
Context (processNom : EnvelopeWrapper -> M EnvelopeState) (K : nat).
Context (Hself : forall e s, good s -> own_nomination s e -> unsaid s ->
  (room Vs (np s) < K)%nat ->
  wp nom_allowed (processNom e) (fun r s' => r = VALID /\ progress s s') s).

Lemma emitNomination_spec (s : SlotState) :
  good s -> unsaid s -> (room Vs (np s) < K)%nat ->
  wp nom_allowed (emitNomination env processNom) (fun _ s' => progress s s') s.
Proof.
  intros Hg Hu HK. unfold emitNomination. nwps. apply wp_bind.
  unfold wrapEnvelope, wp at 1. cbv beta. set (s1 := set_nextPtr _ s). nwps.
  assert (progress s s1) as H1 by (apply nominates_progress; try done; apply Hg).
  eapply wp_mono; [apply (Hself _ s1); [apply H1| |exact Hu|exact HK]|].
  { split; [done|]. split; [done|]. by eexists. }
  intros r s2 [-> H2]. rewrite bool_decide_true by done. nwps.
  assert (progress s s2) as H02 by by eapply progress_trans.
  wp_if Hnew; nwps; [|done]. wp_if Hval; nwps.
  all: eapply progress_trans; [exact H02|].
  - apply nominates_progress; try done; [apply H2| |].
    + by apply (nominates_effect (set_np _ s2)).
    + destruct H2 as [(_ & _ & []) _]. by constructor.
  - apply nominates_progress; try done; [apply H2|].
    destruct H2 as [(_ & _ & []) _]. by constructor.
Qed.

(** A message to process: values in [Vs], and either from another node or
    the statement this node makes of its current votes. *)
Definition incoming (s : SlotState) (e : EnvelopeWrapper) (nom : SCPNomination) : Prop :=
  nomination_of (getStatement e) = Some nom /\ n_votes nom ⊆ Vs /\ n_accepted nom ⊆ Vs /\
  slotIndex (getStatement e) = slot /\
  (nodeID (getStatement e) <> localID \/ (own_nomination s e /\ unsaid s)).

Lemma own_sorted (n : NominationState) (h : Hash) :
  ninv n -> sorted_nom (mkNomination h (mVotes n) (mAccepted n)).
Proof. intros Hn. split; apply Hn. Qed.

(** The statement of a node about itself is always accepted. *)
Lemma own_valid (s : SlotState) (e : EnvelopeWrapper) (nom : SCPNomination) :
  ninv (np s) -> nomination_of (getStatement e) = Some nom -> own_nomination s e -> unsaid s ->
  isNewerNominationFor (np s) (nodeID (getStatement e)) nom = true /\ isSane nom = true.
Proof.
  intros Hn Hnom (Hid & _ & h & Eh) [Hpos Hu]. assert (nom = mkNomination h (mVotes (np s))
    (mAccepted (np s))) as -> by congruence. split.
  - unfold isNewerNominationFor. rewrite Hid. destruct (map_find _ _) as [old|] eqn:Eo; [|done].
    destruct (ni_latest _ _ _ Hn _ _ Eo) as (onom & Hon & Hsort & _). rewrite Hon.
    apply isNewerNomination_spec; [done|by apply own_sorted|].
    destruct (ni_own _ _ _ Hn _ _ Eo Hon). split_and!; [done..|]. by apply (Hu old onom).
  - apply isSane_spec. split; [by apply own_sorted|]. unfold size in Hpos.
    cbn. intros [E1 E2]. rewrite E1, E2 in Hpos. cbn in Hpos. lia.
Qed.

(** After the message is recorded, a change is something new to say. *)
Lemma changed_unsaid (s1 s4 : SlotState) :
  ninv (np s1) -> same_rest (np s1) (np s4) -> (size (np s1) < size (np s4))%nat -> unsaid s4.
Proof.
  intros Hn (El & _) Hlt. split; [lia|]. rewrite El. intros e nom He Hnom.
  destruct (ni_latest _ _ _ Hn _ _ He) as (nom' & Hn' & [S1 S2] & _).
  assert (nom' = nom) as -> by congruence.
  destruct (ni_own _ _ _ Hn _ _ He Hnom) as [V W]. unfold nom_size, size in *.
  pose proof (increasing_incl_length _ _ S1 V). pose proof (increasing_incl_length _ _ S2 W). lia.
Qed.

Lemma room_decreases (n n' : NominationState) :
  ninv n' -> (size n < size n')%nat -> (room Vs n' < room Vs n)%nat.
Proof.
  intros Hn'. pose proof (nominv_bounds _ _ _ Hn'). unfold size, room. lia.
Qed.

(** The candidates are combined and the ballot protocol is started. *)
Lemma candidates_spec (s : SlotState) :
  good s ->
  wp nom_allowed
    (let! candidates := nget mCandidates in
     let composite := combineCandidates (driver env) slot candidates in
     nset (set_mLatestCompositeCandidate composite) ;;!
     let! v := must composite P_CompositeCandidate in
     effect (UpdatedCandidateValue slot v) ;;!
     let! _ := bumpState env (processSelf env) v false in ret tt) (fun _ s' => progress s s') s.
Proof.
  intros Hg. nwps. apply wp_must; [by right|]. intros v _. nwps.
  match goal with |- wp _ _ _ ?x => set (s1 := x) end.
  assert (progress s s1) as H1.
  { apply nominates_progress; [done| | |done].
    - by apply (nominates_effect (set_np _ s)).
    - destruct Hg as (_ & _ & []). by constructor. }
  eapply wp_mono; [eapply wp_weaken; [apply (bumpState_progress s1), H1|by left]|].
  intros r s2 H2. nwps. by eapply progress_trans.
Qed.

Lemma nomination_processEnvelope_spec (s : SlotState) (e : EnvelopeWrapper) (nom : SCPNomination) :
  good s -> incoming s e nom -> (room Vs (np s) <= K)%nat ->
  wp nom_allowed (nomination_processEnvelope env processNom e) (fun r s' =>
    progress s s' /\ (own_nomination s e -> unsaid s -> r = VALID)) s.
Proof.
  intros Hg (Hnom & Hv & Ha & _ & Hwho) HK. pose proof Hg as (_ & _ & Hn).
  unfold nomination_processEnvelope. rewrite Hnom. nwps.
  wp_if Hnew; nwps; [|wp_if Hsane; nwps]; bprop.
  1,2: split; [by apply progress_refl|]; intros Ho Hu;
    destruct (own_valid s e nom Hn Hnom Ho Hu); congruence.
  unfold nomination_recordEnvelope, recordStatement. nwps.
  match goal with |- wp _ _ _ ?x => set (s1 := x) end.
  apply isSane_spec in Hsane as [Hsort _].
  assert (progress s s1) as H1.
  { apply nominates_progress; [done|split_and!; [done|by apply prefix_app_r|done..]| |done].
    apply (nominv_record _ _ _ _ nom); [done|by split_and!|]. intros Hid.
    destruct Hwho as [?|[(_ & _ & h & Eh) _]]; [done|].
    assert (nom = mkNomination h (mVotes (np s)) (mAccepted (np s))) as -> by congruence. done. }
  pose proof H1 as [Hg1 _]. pose proof Hg1 as (_ & _ & Hn1).
  apply (wp_mono _ _ (fun _ s' => progress s s')); [|intros _ s' ?; by nwps].
  wp_if Hst; nwps; [|done].
  assert (mPreviousValue (np s1) <> []) as Hp1 by by apply Hn1.
  eapply wp_mono; [by apply promote_votes_spec|]. intros m2 s2 [H2 Hm2]. nwps.
  eapply wp_mono; [apply promote_accepted_spec; [apply H2|done]|]. intros m3 s3 [H3 Hs3]. nwps.
  assert (local s1 s3) as H13 by by eapply local_trans.
  apply (wp_mono _ _ (fun m s4 => local s1 s4 /\ (m = true -> (size (np s1) < size (np s4))%nat))).
  { wp_if Hlead; nwps.
    - eapply wp_mono; [apply takeVote_spec; [apply H3|by destruct H13 as (_&_&_&_&_&->&_)|done..]|].
      intros r s4 [H4 Hr]. nwps. split; [by eapply local_trans|]. intros Hor.
      destruct H4 as (_ & _ & Hg4 & _). pose proof (ngrows_size (np s3) (np s4)
        ltac:(apply H3) Hg4). destruct r; [specialize (Hr eq_refl)|]; destruct m2;
        try (destruct (Hm2 eq_refl) as [?|?]; [done|]); try done;
        destruct H13 as (_ & _ & Hg13 & _); pose proof (ngrows_size _ _ Hn1 Hg13); lia.
    - split; [done|]. intros ->. destruct (Hm2 eq_refl) as [?|?]; [done|]. by rewrite Hs3. }
  intros m s4 [H4 Hm4]. nwps.
  assert (progress s s4) as H04 by (eapply progress_trans; [exact H1|by apply local_progress]).
  apply (wp_mono _ _ (fun _ s5 => progress s s5)).
  { destruct m; nwps; [|done]. specialize (Hm4 eq_refl).
    eapply wp_mono; [apply emitNomination_spec; [apply H04| |]|].
    - eapply changed_unsaid; [exact Hn1|apply H4|done].
    - pose proof (room_decreases _ _ ltac:(apply H4) Hm4).
      change (room Vs (np s1)) with (room Vs (np s)) in *. lia.
    - intros ? s5 H5. by eapply progress_trans. }
  intros _ s5 H5. nwps. destruct m3; [|by nwps].
  eapply wp_mono; [apply candidates_spec, H5|]. intros ? s6 H6. by eapply progress_trans.
Qed.
End self.

(** Every nested call leaves less room: the recursion ends. *)
Lemma slot_processNomination_spec (fuel : nat) (s : SlotState) (e : EnvelopeWrapper)
    (nom : SCPNomination) :
  good s -> incoming s e nom -> (room Vs (np s) < fuel)%nat ->
  wp nom_allowed (slot_processNomination env fuel e) (fun r s' =>
    progress s s' /\ (own_nomination s e -> unsaid s -> r = VALID)) s.
Proof.
  revert s e nom. induction fuel as [|fuel IH]; intros s e nom Hg Hin HK; [lia|].
  cbn [slot_processNomination]. nwps.
  apply wp_check; [apply Z.eqb_eq, Hin|]. nwps.
  eapply wp_mono; [eapply nomination_processEnvelope_spec with (K := fuel); try done|].
  - intros e' s' Hg' Ho' Hu' HK'. pose proof Ho' as (Hid & Hi & h & Eh).
    eapply wp_mono; [eapply IH; [done| |done]|].
    + split_and!; [exact Eh| | |done|by right]; cbn; [apply Hg'|]. etrans; apply Hg'.
    + intros r s2 [H2 Hr]. split; [by apply Hr|done].
  - lia.
  - intros r s1 [H1 Hr]. nwps. unfold maybeSetGotVBlocking.
    apply (wp_mono _ _ (fun _ s2 => progress s s2)); [|intros _ s2 ?; by nwps].
    wp_if Hp; nwps; [|done]. wp_if Hgv; nwps; [done|].
    eapply progress_trans; [exact H1|]. apply nominates_progress; try done; apply H1.
Qed.

(** ** Starting a round *)

(** Choosing leaders may moreover need more rounds than given. *)
Definition round_allowed (e : scp_error) : Prop := nom_allowed e \/ e = OutOfFuel.

(** The leaders chosen for a round are this node or nodes of its quorum set,
    and no leader is dropped. *)
Definition led (q : SCPQuorumSet) (n n' : NominationState) : Prop :=
  mRoundLeaders n ⊆ mRoundLeaders n' /\
  (forall id, id ∈ mRoundLeaders n' -> id ∈ mRoundLeaders n \/ id = localID \/ id ∈ visited q) /\
  (length (mRoundLeaders n) < length (mRoundLeaders n') \/
   1 + length (visited q) <= length (mRoundLeaders n'))%nat.

Definition same_values (n n' : NominationState) : Prop :=
  mVotes n' = mVotes n /\ mAccepted n' = mAccepted n /\ mCandidates n' = mCandidates n /\
  mLatestNominations n' = mLatestNominations n /\
  mNominationStarted n' = mNominationStarted n /\ mPreviousValue n' = mPreviousValue n.

Lemma getNodePriority_spec (s : SlotState) (id : NodeID) (q : SCPQuorumSet) :
  weighable q -> mPreviousValue (np s) <> [] ->
  wp round_allowed (getNodePriority env id q) (fun _ s' => s' = s) s.
Proof.
  intros Hq Hp. unfold getNodePriority. nwps. apply (wp_mono _ _ (fun _ s' => s' = s)).
  { wp_if Hid; nwps; [done|]. unfold lift_weight.
    destruct (getNodeWeight_weighable id q Hq) as (w & -> & _). by nwps. }
  intros w s' ->. assert (forall b, wp round_allowed (nomination_hashNode env b id)
    (fun _ s' => s' = s) s) as Hh.
  { intros b. unfold nomination_hashNode. nwps.
    apply wp_check; [by rewrite bool_decide_false|]. by nwps. }
  wp_if Hw; nwps; [|done]. eapply wp_mono; [apply Hh|]. intros h s' ->.
  wp_if Hle; [apply Hh|by nwps].
Qed.

Lemma scan_leaders_spec (s : SlotState) (q : SCPQuorumSet) (nodes : list NodeID) (top : Z)
    (found : list NodeID) :
  weighable q -> mPreviousValue (np s) <> [] ->
  wp round_allowed (scan_leaders env q nodes top found) (fun r s' => s' = s /\
    forall id, id ∈ r -> id ∈ found \/ id ∈ nodes) s.
Proof.
  intros Hq Hp. revert top found. induction nodes as [|n nodes IH]; intros top found;
    cbn [scan_leaders]; nwps; [auto|].
  eapply wp_mono; [by apply getNodePriority_spec|]. intros w s' ->.
  destruct (top <? w); (eapply wp_mono; [apply IH|]); cbv beta;
    intros r s' [-> Hr]; (split; [done|]); intros id Hid; apply Hr in Hid as [Hid|Hid];
    try (right; by right); destruct (_ && _); try (by left);
    try (apply elem_of_set_insert in Hid as [->|Hid]); try (right; by left); try (by left);
    by apply not_elem_of_nil in Hid.
Qed.

Lemma length_set_insert_le {A} `{LtB A} (x : A) (l : list A) :
  (length l <= length (set_insert x l))%nat.
Proof.
  induction l as [|y l IH]; cbn; [lia|]. destruct (ltb x y); [cbn; lia|].
  destruct (ltb y x); cbn; lia.
Qed.

Lemma length_inserts_le {A} `{LtB A} (new l : list A) :
  (length l <= length (fold_left (fun s x => set_insert x s) new l))%nat.
Proof.
  revert l. induction new as [|x new IH]; intros l; cbn; [lia|].
  pose proof (length_set_insert_le x l). specialize (IH (set_insert x l)). lia.
Qed.

(** The leaders after one round of the search. *)
Lemma led_round (q : SCPQuorumSet) (n n' : NominationState) (new : list NodeID) :
  (forall id, id ∈ new -> id ∈ [localID] \/ id ∈ visited q) ->
  led q (set_mRoundLeaders (fold_left (fun s x => set_insert x s) new (mRoundLeaders n)) n) n' \/
  ((length (mRoundLeaders n) <
    length (fold_left (fun s x => set_insert x s) new (mRoundLeaders n)))%nat /\
   mRoundLeaders n' = fold_left (fun s x => set_insert x s) new (mRoundLeaders n)) ->
  led q n n'.
Proof.
  intros Hnew. pose proof (length_inserts_le new (mRoundLeaders n)) as Hlen. unfold led. nproj.
  set (all := fold_left _ new _) in *.
  assert (forall id, id ∈ all <-> id ∈ new \/ id ∈ mRoundLeaders n) as Hall
    by (intros id; apply set_of_list_spec).
  assert (forall id, id ∈ all -> id ∈ mRoundLeaders n \/ id = localID \/ id ∈ visited q) as Horg.
  { intros id [Hid|?]%Hall; [|by left]. right. apply Hnew in Hid as [Hid|?]; [left|by right].
    by apply list_elem_of_singleton in Hid. }
  intros [(Hsub & Ho & Hl)|[Hlt ->]].
  - split_and!.
    + intros id Hid. apply Hsub, Hall. by right.
    + intros id Hid. apply Ho in Hid as [?%Horg|?]; auto.
    + lia.
  - split_and!; [intros id Hid; apply Hall; by right|done|lia].
Qed.

Lemma leaders_loop_spec (fuel : nat) (q : SCPQuorumSet) (s : SlotState) :
  weighable q -> mPreviousValue (np s) <> [] ->
  wp round_allowed (leaders_loop env fuel q (1 + Z.of_nat (length (visited q)))) (fun _ s' =>
    nominates s s' /\ same_values (np s) (np s') /\ led q (np s) (np s')) s.
Proof.
  intros Hq. revert s. induction fuel as [|fuel IH]; intros s Hp; cbn [leaders_loop]; nwps;
    (wp_if Hlt; bprop; nwps; [|split_and!; try done; split_and!; auto; right; lia]);
    (eapply wp_mono; [by apply getNodePriority_spec|]); intros top s' ->; nwps;
    (eapply wp_mono; [by apply scan_leaders_spec|]); intros new s' [-> Hnew]; nwps;
    (wp_if Hg; nwps; bprop).
  1,3: split_and!; try done; apply (led_round q _ _ new); [done|right]; nproj;
    apply Nat.eqb_neq in Hg; pose proof (length_inserts_le new (mRoundLeaders (np s)));
    (split; [lia|done]).
  - by right.
  - eapply wp_mono; [by apply IH|]. intros _ s2 (Hn & Hv & Hl). split_and!; [|done|].
    + etrans; [|exact Hn]. done.
    + apply (led_round q _ _ new); [done|by left].
Qed.

Lemma take_leaders_spec (E : scp_error -> Prop) (leaders : list NodeID) (updated : bool)
    (s : SlotState) :
  ninv (np s) -> mPreviousValue (np s) <> [] ->
  wp E (take_leaders env leaders updated) (fun r s' => local s s' /\
    (r = true -> updated = true \/ (size (np s) < size (np s'))%nat)) s.
Proof.
  revert updated s. induction leaders as [|l leaders IH]; intros updated s Hn Hp;
    cbn [take_leaders]; nwps; [split; [by apply local_refl|auto]|].
  destruct (map_find l _) as [e|] eqn:El; [|by apply IH].
  destruct (ni_latest _ _ _ Hn _ _ El) as (nom & Hnom & _ & Hv & Ha). rewrite Hnom. nwps.
  eapply wp_mono; [by apply takeVote_spec|]. intros took s1 [H1 Ht]. nwps.
  eapply wp_mono; [apply IH; [apply H1|by destruct H1 as (_&_&_&_&_&->&_)]|].
  intros r s2 [H2 Hr]. split; [by eapply local_trans|]. intros ->.
  destruct H1 as (_ & Hn1 & Hg1 & _), H2 as (_ & Hn2 & Hg2 & _).
  pose proof (ngrows_size _ _ Hn Hg1). pose proof (ngrows_size _ _ Hn1 Hg2).
  destruct (Hr eq_refl) as [Hor|?]; [|right; lia].
  apply orb_true_iff in Hor as [->|?]; [|by left]. specialize (Ht eq_refl). right. lia.
Qed.

Lemma same_values_inv (n n' : NominationState) : ninv n -> same_values n n' -> ninv n'.
Proof.
  intros [] (E1 & E2 & E3 & E4 & E5 & E6).
  constructor; rewrite ?E1, ?E2, ?E3, ?E4, ?E5, ?E6; done.
Qed.

Lemma nominate_spec (fuelR : nat) (processNom : EnvelopeWrapper -> M EnvelopeState) (K : nat)
    (s : SlotState) (val previousValue : Value) (timedout : bool) :
  (forall e s, good s -> own_nomination s e -> unsaid s -> (room Vs (np s) < K)%nat ->
   wp nom_allowed (processNom e) (fun r s' => r = VALID /\ progress s s') s) ->
  NoDup (qset_nodes (mQSet (localNode env))) ->
  good s -> val ∈ Vs -> previousValue <> [] -> (room Vs (np s) <= K)%nat ->
  wp round_allowed (nominate env processNom fuelR val previousValue timedout) (fun _ s' =>
    progress s s') s.
Proof.
  intros Hself Hnd Hg Hv Hp HK. unfold nominate. nwps.
  apply (wp_mono _ _ (fun _ s1 => exists x, s1 = set_np (set_nTimerExpCount x (np s)) s)).
  { destruct timedout; nwps; eauto. exists (nTimerExpCount (np s)). by destruct s, np. }
  intros _ s1 [x ->]. nwps. set (s1 := set_np _ s).
  assert (progress s s1) as H1.
  { apply nominates_progress; try done. destruct Hg as (_ & _ & []). by constructor. }
  wp_if Ht; nwps; [done|]. unfold updateRoundLeaders.
  match goal with |- wp _ _ _ ?y => set (s2 := y) end.
  assert (progress s s2) as H2.
  { apply nominates_progress; try done. destruct Hg as (_ & _ & []). by constructor. }
  eapply wp_mono; [apply leaders_loop_spec; [by apply usable_weighable|done]|]. intros _ s3 (Hn3 & Hv3 & Hl3). nwps.
  assert (ninv (np s3)) as Hi3 by (eapply same_values_inv; [apply H2|done]).
  assert (size (np s3) = size (np s2)) as Es3
    by (destruct Hv3 as (E1 & E2 & _); unfold size; by rewrite E1, E2).
  assert (progress s2 s3) as H23.
  { apply nominates_progress; [apply H2|done..|]. destruct Hv3 as (E1 & E2 & E3 & _).
    unfold ngrows. by rewrite E1, E2, E3. }
  assert (mPreviousValue (np s3) <> []) as Hp3 by (by destruct Hv3 as (_&_&_&_&_&->)).
  apply (wp_mono _ _ (fun u s4 => local s3 s4 /\ (u = true -> (size (np s3) < size (np s4))%nat))).
  { wp_if Hlead; nwps; [|split; [by apply local_refl|done]].
    wp_if Hmem; nwps; [split; [by apply local_refl|done]|]. apply set_mem_false in Hmem.
    destruct (add_vote_local s3 val Hi3 Hv Hmem) as [(Hm & Hl) Hlt].
    split; [|intros _; exact Hlt]. split; [|exact Hl]. etrans; [exact Hm|].
    by apply (nominates_effect (set_np _ s3)). }
  intros u s4 [H4 Hu]. nwps.
  eapply wp_mono; [apply take_leaders_spec; [apply H4|by destruct H4 as (_&_&_&_&_&->&_)]|].
  intros u5 s5 [H5 Hu5]. nwps. set (s6 := set_effects _ s5).
  assert (local s3 s5) as H35 by by eapply local_trans.
  assert (local s3 s6) as H36.
  { destruct H35 as (Hm & Hr). split; [|exact Hr]. etrans; [exact Hm|].
    by apply nominates_effect. }
  assert (progress s s6) as H06.
  { eapply progress_trans; [exact H2|]. eapply progress_trans; [exact H23|].
    apply local_progress; [apply H23|done]. }
  apply (wp_mono _ _ (fun _ s7 => progress s s7)); [|intros _ s7 ?; by nwps].
  destruct u5; nwps; [|done].
  assert (size (np s3) < size (np s6))%nat as Hlt.
  { change (np s6) with (np s5). destruct H4 as (_ & Hn4 & Hg4 & _), H5 as (_ & _ & Hg5 & _).
    pose proof (ngrows_size _ _ Hi3 Hg4). pose proof (ngrows_size _ _ Hn4 Hg5).
    destruct (Hu5 eq_refl) as [->|?]; [|lia]. specialize (Hu eq_refl). lia. }
  eapply wp_mono; [eapply wp_weaken; [eapply emitNomination_spec with (K := K); [done|apply H06| |]|by left]|].
  - eapply changed_unsaid; [exact Hi3|apply H36|done].
  - pose proof (room_decreases _ _ ltac:(apply H36) Hlt).
    assert (room Vs (np s3) = room Vs (np s)) by
      (destruct Hv3 as (E1 & E2 & _); unfold room; by rewrite E1, E2). lia.
  - intros ? s7 H7. by eapply progress_trans.
Qed.

Lemma processNomination_self (fuel : nat) (e : EnvelopeWrapper) (s : SlotState) :
  good s -> own_nomination s e -> unsaid s -> (room Vs (np s) < fuel)%nat ->
  wp nom_allowed (slot_processNomination env fuel e) (fun r s' => r = VALID /\ progress s s') s.
Proof.
  intros Hg Ho Hu HK. pose proof Ho as (Hid & Hi & h & Eh).
  eapply wp_mono; [eapply slot_processNomination_spec; [done| |done]|].
  - split_and!; [exact Eh| | |done|by right]; cbn; [apply Hg|]. etrans; apply Hg.
  - intros r s2 [H2 Hr]. split; [by apply Hr|done].
Qed.
End ops.
