(* ===== verification/Slot.v ===== *)
(** * The slot

    The rest of [src/scp/Slot.cpp]: dispatch of messages to the two protocols,
    restoring, and the queries. *)
From stdpp Require Import base tactics list sorting numbers sets gmap.
From Stdlib Require Import ZArith Lia Bool.
From S2P Require Import Prelude Containers QuorumSet LocalNode Statement SlotState.
From S2P Require Import FederatedVoting BallotProtocol NominationProtocol.

Open Scope Z_scope.
Open Scope kin_scope.

Definition isNomination (st : SCPStatement) : bool :=
  match pledges st with SCP_ST_NOMINATE _ => true | _ => false end.

Section slot.
Context (env : SlotEnv).
Abbreviation localID := (mNodeID (localNode env)).
Abbreviation slot := (mSlotIndex env).

(** [Slot::processEnvelope]; [fuel] bounds the nesting of nominations. *)
Definition slot_processEnvelope (fuel : nat) (e : EnvelopeWrapper) (self : bool)
    : M EnvelopeState :=
  if isNomination (getStatement e) then slot_processNomination env fuel e
  else slot_processBallot env BALLOT_FUEL e self.

Definition slot_abandonBallot : M bool := abandonBallot env (processSelf env) 0.

Definition slot_bumpState (val : Value) (force : bool) : M bool :=
  bumpState env (processSelf env) val force.

Definition slot_nominate (fuel : nat) (val previousValue : Value) (timedout : bool) : M bool :=
  nominate env (slot_processNomination env fuel) fuel val previousValue timedout.

(** [Slot::setStateFromEnvelope]: only for messages of this node and slot. *)
Definition slot_setStateFromEnvelope (e : EnvelopeWrapper) : M unit :=
  let st := getStatement e in
  if eqb_of (nodeID st) localID && (slotIndex st =? slot) then
    let! s := get in
    let prev := isSome (getLatestMessage s (nodeID st)) in
    (if isNomination st then nomination_setStateFromEnvelope env e
     else setStateFromEnvelope env e) ;;!
    (if negb prev then maybeSetGotVBlocking env else ret tt)
  else ret tt.

(** The last messages of this node, when the slot is fully validated. *)
Definition getLatestMessagesSend (s : SlotState) : list SCPEnvelope :=
  if mFullyValidated s then
    map envelope (opt_list (nLastEnvelope (np s))) ++
    map envelope (opt_list (mLastEnvelopeEmit (bp s)))
  else [].

(** The envelopes [f] is applied to. *)
Definition slot_processCurrentState (s : SlotState) (f : SCPEnvelope -> bool) (forceSelf : bool)
    : list SCPEnvelope :=
  let '(seen, ok) := nomination_processCurrentState env s f forceSelf in
  if ok then seen ++ fst (ballot_processCurrentState env s f forceSelf) else seen.

Definition getEntireCurrentState (s : SlotState) : list SCPEnvelope :=
  slot_processCurrentState s (fun _ => true) true.

Definition slot_isNewerNominationOrBallotSt (oldSt newSt : SCPStatement) : bool :=
  match nomination_of oldSt, nomination_of newSt with
  | Some old, Some new => isNewerNomination old new
  | None, None => isNewerStatement oldSt newSt
  | _, _ => false
  end.

Definition slot_getStatementValues (st : SCPStatement) : list Value :=
  if isNomination st then nomination_getStatementValues st else getStatementValues st.

Definition slot_getState (s : SlotState) (node : NodeID) (selfAlreadyMovedOn : bool)
    : QuorumInfoNodeState :=
  let b := ballot_getState env s node selfAlreadyMovedOn in
  if bool_decide (b = NO_INFO) then nomination_getState env s node selfAlreadyMovedOn else b.
End slot.
