(* ===== verification/SlotTheorems.v ===== *)
(** * The slot: nomination and ballots together

    The whole slot as a transition system.  Every event of the slot is a run of
    the transition system of the ballot protocol ([BallotTheorems.next]), so
    the guarantees of the ballot protocol hold for the slot; the nomination
    protocol adds its own. *)
From stdpp Require Import base tactics list sorting numbers sets gmap.
From Stdlib Require Import ZArith Lia Bool.
From S2P Require Import Prelude Containers QuorumSet LocalNode Statement SlotState.
From S2P Require Import FederatedVoting BallotProtocol BallotInvariant BallotSafety BallotTheorems.
From S2P Require Import NominationProtocol NominationSafety Slot.

Open Scope Z_scope.
Open Scope kin_scope.

Inductive slot_event :=
  | SReceive (e : EnvelopeWrapper)
  | SNominate (val previousValue : Value) (timedout : bool)
  | SStopNomination
  | SBallotTimer
  | SBumpState (val : Value) (force : bool).

Definition slot_handle (env : SlotEnv) (fuel : nat) (ev : slot_event) : M unit :=
  match ev with
  | SReceive e => let! _ := slot_processEnvelope env fuel e false in ret tt
  | SNominate val previousValue timedout =>
      let! _ := slot_nominate env fuel val previousValue timedout in ret tt
  | SStopNomination => stopNomination
  | SBallotTimer => ballotProtocolTimerExpired env (processSelf env)
  | SBumpState val force => let! _ := slot_bumpState env val force in ret tt
  end.

(** How each event can stop. *)
Definition slot_allowed (ev : slot_event) (s : SlotState) (e : scp_error) : Prop :=
  match ev with
  | SReceive _ => nom_allowed e
  | SNominate _ _ _ => round_allowed e
  | SStopNomination => False
  | SBallotTimer | SBumpState _ _ => allowed_at s e
  end.

Section slot.
(** The node, the slot, and the values that occur. *)
Context (self : NodeID) (index : Z) (Vs : list Value).

(** An environment for this node and slot: its quorum set names no node twice,
    and its driver turns values of [Vs] into values of [Vs]. *)
Definition fits (env : SlotEnv) : Prop :=
  hosted self index env /\ NoDup (qset_nodes (mQSet (localNode env))) /\
  forall v x, v ∈ Vs -> nomination_extractValidValue env v = Some x -> x ∈ Vs.

(** The messages of other nodes; the application does not deliver a node's own
    messages back to it. *)
Definition slot_deliverable (ev : slot_event) : Prop :=
  match ev with
  | SReceive e =>
      slotIndex (getStatement e) = index /\
      match nomination_of (getStatement e) with
      | Some nom => nodeID (getStatement e) <> self /\ n_votes nom ⊆ Vs /\ n_accepted nom ⊆ Vs
      | None => ballot_statement (getStatement e)
      end
  | SNominate val previousValue _ => val ∈ Vs /\ previousValue <> []
  | _ => True
  end.

(** Enough for the nesting of nominations. *)
Definition slot_fuel : nat := S (2 * length Vs).

Definition slot_good (s : SlotState) : Prop :=
  quiet (bp s) /\ mCurrentMessageLevel (bp s) = 0 /\ nominv Vs self (np s).

Definition slot_progress (s s' : SlotState) : Prop :=
  slot_good s' /\ rtc (next self index) s s' /\ ngrows (np s) (np s').

Inductive slot_next (s s' : SlotState) : Prop :=
  | slot_step env ev : fits env -> slot_deliverable ev ->
      slot_handle env slot_fuel ev s = Ok (tt, s') -> slot_next s s'.

Inductive slot_reachable : SlotState -> Prop :=
  | slot_reach_init env : fits env -> slot_reachable (initSlot env)
  | slot_reach_next s s' : slot_reachable s -> slot_next s s' -> slot_reachable s'.

Lemma nominv_init : nominv Vs self initNominationState.
Proof.
  constructor; cbn; try constructor; try done; intros x Hx; by apply not_elem_of_nil in Hx.
Qed.

(** The node stands by what it says, in every network where it hears [st]. *)
Definition stands (env : SlotEnv) (st : option SCPStatement) (s s' : SlotState) : Prop :=
  forall C, belongs C env -> (forall x, st = Some x -> heard C x) -> voice C s -> voice C s'.

(** An event of the ballot protocol. *)
Lemma ballot_event_progress (env : SlotEnv) (ev : event) (s : SlotState) :
  hosted self index env -> deliverable index ev -> slot_good s ->
  wp (allowed_at s) (handle env ev) (fun _ s' => slot_progress s s' /\
    stands env (match ev with Receive e => Some (getStatement e) | _ => None end) s s') s.
Proof.
  intros Hh Hd (Hq & HL & Hn).
  eapply wp_mono; [exact (wp_eq _ _ _ _ (handle_spec self index env ev s Hh Hd Hq HL))|].
  intros [] s' [(Hq' & who & Hst) Hrun]. split; cycle 1.
  { intros C HC Hheard.
    assert (forall e, ev = Receive e -> heard C (getStatement e)) as He
      by (intros e ->; by apply Hheard).
    pose proof (handle_heard self index C env ev s HC He Hh Hd Hq HL) as Hw.
    destruct (wp_ok _ _ _ _ _ _ Hw Hrun) as (_ & who' & Hst'). apply Hst'. }
  assert (nominv Vs self (np s') /\ ngrows (np s) (np s')) as [Hn' Hg].
  { destruct (ev_nomination _ _ _ Hst) as [-> | ->]; [done|]. split; [by apply nominv_stop|done]. }
  split; [split_and!; [done|by rewrite (ev_level _ _ _ Hst)|done]|]. split; [|done].
  apply rtc_once. by eapply next_event.
Qed.

Lemma receive_ballot (env : SlotEnv) (e : EnvelopeWrapper) (s : SlotState) :
  hosted self index env -> ballot_statement (getStatement e) ->
  slotIndex (getStatement e) = index -> slot_good s ->
  wp allowed (handle env (Receive e)) (fun _ s' =>
    slot_progress s s' /\ stands env (Some (getStatement e)) s s') s.
Proof.
  intros Hh Ht Hi Hg. pose proof Hg as (Hq & HL & _). pose proof Hh as (_ & Ei & Hp).
  pose proof (ballot_event_progress env (Receive e) s Hh ltac:(done) Hg) as Hw.
  assert (wp allowed (handle env (Receive e)) (fun _ _ => True) s) as Ha.
  { cbn [handle]. wps. eapply wp_mono; [apply (slot_processBallot_spec env (anywhere env)); try done|by intros; wps].
    - by rewrite Hi.
    - by left.
    - by rewrite HL.
    - by rewrite HL. }
  unfold wp in *. by destruct (handle env (Receive e) s) as [[[] s']|].
Qed.

(** The statement an event brings. *)
Definition received (ev : slot_event) : option SCPStatement :=
  match ev with SReceive e => Some (getStatement e) | _ => None end.

Lemma slot_handle_spec (env : SlotEnv) (ev : slot_event) (s : SlotState) :
  fits env -> slot_deliverable ev -> slot_good s ->
  wp (slot_allowed ev s) (slot_handle env slot_fuel ev) (fun _ s' =>
    slot_progress s s' /\ stands env (received ev) s s') s.
Proof.
  intros (Hh & Hnd & Hcl) Hd Hg. pose proof Hh as (Eid & Ei & Hp).
  assert (good env Vs s) as Hg' by (unfold good; by rewrite Eid).
  assert (forall st s1 s2, progress env Vs s1 s2 -> slot_progress s1 s2 /\ stands env st s1 s2)
    as Hpr.
  { intros st s1 s2 (H1 & H2 & H3 & H4). rewrite Eid, Ei in H2. unfold good in H1.
    rewrite Eid in H1. split; [done|]. intros C HC _. by apply H4. }
  assert (forall n, room Vs n < slot_fuel)%nat as HK by (intros n; unfold room, slot_fuel; lia).
  destruct ev as [e|val prev timedout| | |val force]; cbn [slot_handle slot_allowed].
  - destruct Hd as [Hi Hd]. unfold slot_processEnvelope, isNomination, nomination_of in *.
    destruct (pledges (getStatement e)) as [p|c|x|nom] eqn:Epl.
    1-3: eapply wp_weaken; [exact (receive_ballot env e s Hh Hd Hi Hg)|by left].
    wps. destruct Hd as (Hid & Hv & Ha).
    eapply wp_mono; [eapply slot_processNomination_spec with (nom := nom); try done|].
    + split_and!; try done; [unfold nomination_of; by rewrite Epl|by rewrite Ei|].
      left. by rewrite Eid.
    + intros r s' [H _]. wps. by apply Hpr.
  - destruct Hd as [Hv Hprev]. unfold slot_nominate. wps.
    eapply wp_mono; [eapply nominate_spec with (K := slot_fuel); try done|].
    + intros e' s' ? ? ? ?. by eapply processNomination_self.
    + specialize (HK (np s)). lia.
    + intros r s' H. wps. by apply Hpr.
  - unfold stopNomination, nset. wps. destruct Hg as (Hq & HL & Hn).
    split; [split; [split_and!; [done..|by apply nominv_stop]|]|].
    { split; [|done]. apply rtc_once. by apply next_nomination. }
    intros C _ _. by apply voice_view.
  - apply (ballot_event_progress env TimerExpired); done.
  - apply (ballot_event_progress env (BumpState val force)); done.
Qed.

Lemma slot_next_progress (s s' : SlotState) : slot_next s s' -> slot_good s -> slot_progress s s'.
Proof.
  intros [env ev Hf Hd E] Hg.
  exact (proj1 (wp_ok _ _ _ _ _ _ (slot_handle_spec env ev s Hf Hd Hg) E)).
Qed.

Lemma slot_reachable_good (s : SlotState) :
  slot_reachable s -> slot_good s /\ reachable self index s.
Proof.
  induction 1 as [env [Hh _]|s s' _ [IH Hr] Hn].
  - split; [|by apply reach_init]. split_and!; [apply quiet_init|done|apply nominv_init].
  - destruct (slot_next_progress _ _ Hn IH) as (Hg & Hst & _). split; [done|].
    by eapply rtc_reachable.
Qed.

Lemma slot_steps_progress (s s' : SlotState) :
  slot_good s -> rtc slot_next s s' -> slot_progress s s'.
Proof.
  intros Hg. induction 1 as [s|s s1 s' Hn _ IH]; [done|].
  destruct (slot_next_progress _ _ Hn Hg) as (Hg1 & Hs1 & Hv1).
  destruct (IH Hg1) as (Hg' & Hs' & Hv'). split; [done|]. split; by etrans.
Qed.

(** C28. The slot refines the ballot protocol's transition system: whatever the
    events (messages of either protocol, nominations, timeouts), a run of the
    slot is a run of the ballot protocol in which the nomination protocol only
    acts by proposing values. *)
Theorem slot_refines_ballot (s s' : SlotState) :
  slot_reachable s -> rtc slot_next s s' ->
  reachable self index s /\ rtc (next self index) s s' /\ quiet (bp s').
Proof.
  intros Hr Hst. destruct (slot_reachable_good _ Hr) as [Hg Hb].
  destruct (slot_steps_progress _ _ Hg Hst) as ((Hq & _) & Hrun & _). done.
Qed.

(** C37. No event stops a slot unexpectedly: from any reachable state, every
    event returns in a good state, or stops for one of the reasons listed in
    [slot_allowed].  The nesting of nominations never exceeds [slot_fuel] and a
    node never refuses its own nomination; the weights used to elect leaders are
    always computed; only the election itself, when the application nominates,
    may exhaust its bound, since its end depends on the hashes of the driver. *)
Theorem slot_events_safe (env : SlotEnv) (ev : slot_event) (s : SlotState) :
  slot_reachable s -> fits env -> slot_deliverable ev ->
  match slot_handle env slot_fuel ev s with
  | Ok (_, s') => slot_reachable s' /\ slot_good s'
  | Err e => slot_allowed ev s e
  end.
Proof.
  intros Hr Hf Hd. destruct (slot_reachable_good _ Hr) as [Hg _].
  pose proof (slot_handle_spec env ev s Hf Hd Hg) as Hw. unfold wp in Hw.
  destruct (slot_handle env slot_fuel ev s) as [[[] s']|e] eqn:E; [|done].
  split; [|apply Hw]. eapply slot_reach_next; [done|]. by econstructor.
Qed.

(** Nomination is monotone: in every reachable state the candidates are
    accepted and the accepted values are voted for (each a sorted set), and no
    vote, accepted value or candidate is ever taken back. *)
Theorem nomination_monotone (s s' : SlotState) :
  slot_reachable s -> rtc slot_next s s' ->
  mCandidates (np s') ⊆ mAccepted (np s') /\ mAccepted (np s') ⊆ mVotes (np s') /\
  increasing (mVotes (np s')) /\ increasing (mAccepted (np s')) /\
  increasing (mCandidates (np s')) /\ ngrows (np s) (np s').
Proof.
  intros Hr Hst. destruct (slot_reachable_good _ Hr) as [Hg _].
  destruct (slot_steps_progress _ _ Hg Hst) as ((_ & _ & Hn) & _ & Hgr).
  split_and!; [apply Hn..|done].
Qed.
End slot.

(** ** Decisions on nominated values *)

Section promotion.
Context (env : SlotEnv).
Context (Hlocal : proper (mQSet (localNode env))).
Context (Hdriver : forall h q, getQSet (driver env) h = Some q -> proper q).

Lemma promote_votes_decides (votes : list Value) (modified : bool) (s : SlotState) :
  wp (fun _ => False) (promote_votes env votes modified) (fun _ s' =>
    mLatestNominations (np s') = mLatestNominations (np s) /\
    forall v, v ∈ mAccepted (np s') -> v ∈ mAccepted (np s) \/
      (v ∈ votes /\ nomination_validateValue env v = kFullyValidatedValue /\
       accept_rule env (mLatestNominations (np s)) (votePredicate v) (acceptPredicate v))) s.
Proof.
  revert modified s. induction votes as [|x votes IH]; intros modified s; cbn [promote_votes]; nwps.
  { split; [done|auto]. }
  assert (forall m s1, mLatestNominations (np s1) = mLatestNominations (np s) ->
    (forall v, v ∈ mAccepted (np s1) -> v ∈ mAccepted (np s) \/
      (v = x /\ nomination_validateValue env v = kFullyValidatedValue /\
       accept_rule env (mLatestNominations (np s)) (votePredicate v) (acceptPredicate v))) ->
    wp (fun _ => False) (promote_votes env votes m) (fun _ s' =>
      mLatestNominations (np s') = mLatestNominations (np s) /\
      forall v, v ∈ mAccepted (np s') -> v ∈ mAccepted (np s) \/
        (v ∈ x :: votes /\ nomination_validateValue env v = kFullyValidatedValue /\
         accept_rule env (mLatestNominations (np s)) (votePredicate v) (acceptPredicate v))) s1)
    as Hrest.
  { intros m s1 El Hacc. eapply wp_mono; [apply IH|]. intros r s2 [El2 H2]. rewrite El in *.
    split; [done|]. intros v [Hv|(Hv & Hval & Hr)]%H2.
    - apply Hacc in Hv as [?|(-> & ? & ?)]; [by left|right]. split; [by left|done].
    - right. split; [by right|done]. }
  wp_if Hm; [apply Hrest; auto|]. wp_if Hf; [|apply Hrest; auto].
  apply federatedAccept_rule in Hf; [|done..]. wp_if Hv; nwps; bprop.
  - apply Hrest; [done|]. nproj. intros v [->|?]%elem_of_set_insert; [right|by left]. done.
  - destruct (nomination_extractValidValue env x) as [y|]; [|apply Hrest; auto].
    wp_if Hy; [apply Hrest; auto|]. nwps. apply Hrest; auto.
Qed.

Lemma promote_accepted_decides (accepted : list Value) (found : bool) (s : SlotState) :
  wp (fun _ => False) (promote_accepted env accepted found) (fun _ s' =>
    mLatestNominations (np s') = mLatestNominations (np s) /\
    forall v, v ∈ mCandidates (np s') -> v ∈ mCandidates (np s) \/
      (v ∈ accepted /\
       exists U, agreeing_quorum env (mLatestNominations (np s)) (acceptPredicate v) U)) s.
Proof.
  revert found s. induction accepted as [|x l IH]; intros found s; cbn [promote_accepted]; nwps.
  { split; [done|auto]. }
  assert (forall m s1, mLatestNominations (np s1) = mLatestNominations (np s) ->
    (forall v, v ∈ mCandidates (np s1) -> v ∈ mCandidates (np s) \/
      (v = x /\ exists U, agreeing_quorum env (mLatestNominations (np s)) (acceptPredicate v) U)) ->
    wp (fun _ => False) (promote_accepted env l m) (fun _ s' =>
      mLatestNominations (np s') = mLatestNominations (np s) /\
      forall v, v ∈ mCandidates (np s') -> v ∈ mCandidates (np s) \/
        (v ∈ x :: l /\
         exists U, agreeing_quorum env (mLatestNominations (np s)) (acceptPredicate v) U)) s1)
    as Hrest.
  { intros m s1 El Hacc. eapply wp_mono; [apply IH|]. intros r s2 [El2 H2]. rewrite El in *.
    split; [done|]. intros v [Hv|(Hv & Hr)]%H2.
    - apply Hacc in Hv as [?|(-> & ?)]; [by left|right]. split; [by left|done].
    - right. split; [by right|done]. }
  wp_if Hm; [apply Hrest; auto|]. wp_if Hf; [|apply Hrest; auto].
  apply federatedRatify_iff in Hf; [|done..]. nwps.
  apply Hrest; [done|]. nproj. intros v [->|?]%elem_of_set_insert; [right|by left]. done.
Qed.

(** Decisions on nominated values are justified: the promotion of votes
    never fails and accepts a value only if it is fully valid and a v-blocking
    set accepted it or a quorum votes for or accepts it; the promotion of
    accepted values makes a value a candidate only if a quorum accepted it. *)
Theorem nomination_justified (votes accepted : list Value) (s : SlotState) :
  (exists r s', promote_votes env votes false s = Ok (r, s') /\
    forall v, v ∈ mAccepted (np s') -> v ∈ mAccepted (np s) \/
      (v ∈ votes /\ nomination_validateValue env v = kFullyValidatedValue /\
       accept_rule env (mLatestNominations (np s)) (votePredicate v) (acceptPredicate v))) /\
  (exists r s', promote_accepted env accepted false s = Ok (r, s') /\
    forall v, v ∈ mCandidates (np s') -> v ∈ mCandidates (np s) \/
      (v ∈ accepted /\
       exists U, agreeing_quorum env (mLatestNominations (np s)) (acceptPredicate v) U)).
Proof.
  pose proof (promote_votes_decides votes false s) as Hv.
  pose proof (promote_accepted_decides accepted false s) as Ha. unfold wp in *. split.
  - destruct (promote_votes env votes false s) as [[r s']|]; [|done]. destruct Hv. eauto.
  - destruct (promote_accepted env accepted false s) as [[r s']|]; [|done]. destruct Ha. eauto.
Qed.
End promotion.

(** ** A run

    Node 1 follows the leader, node 3, until a value is a candidate and the
    ballot protocol starts. *)

Fixpoint slot_run (env : SlotEnv) (fuel : nat) (evs : list slot_event) (s : SlotState)
    : result scp_error SlotState :=
  match evs with
  | [] => Ok s
  | ev :: evs' =>
      match slot_handle env fuel ev s with
      | Ok (_, s') => slot_run env fuel evs' s'
      | Err e => Err e
      end
  end.

Lemma slot_run_next (self : NodeID) (index : Z) (Vs : list Value) (env : SlotEnv)
    (evs : list slot_event) (s s' : SlotState) :
  fits self index Vs env -> Forall (slot_deliverable self index Vs) evs ->
  slot_run env (slot_fuel Vs) evs s = Ok s' -> rtc (slot_next self index Vs) s s'.
Proof.
  intros Hf Hd. revert s. induction Hd as [|ev evs Hev _ IH]; intros s; cbn [slot_run].
  { by intros [= <-]. }
  destruct (slot_handle env _ ev s) as [[[] s1]|] eqn:E; [|done]. intros Hr.
  eapply rtc_l; [by eapply slot_step|]. by apply IH.
Qed.

Definition example_nomination (id : Z) (votes accepted : list Value) : slot_event :=
  SReceive (mkWrapper (-1) (mkEnvelope
    (mkStatement [id] 7 (SCP_ST_NOMINATE (mkNomination [0] votes accepted))) [])).

Definition example_slot_events : list slot_event :=
  [ SNominate [5] [9] false;
    example_nomination 3 [[5]] [];
    example_nomination 3 [[5]] [[5]] ].

Definition example_slot : SlotState :=
  state_of (slot_run example_env (slot_fuel [[5]]) example_slot_events (initSlot example_env)).

Lemma example_fits : fits [1] 7 [[5]] example_env.
Proof.
  split; [apply example_hosted|]. split; [apply three_nodes_distinct|].
  intros v x Hv [= <-]. done.
Qed.

Lemma example_slot_deliverable (ev : slot_event) :
  ev ∈ example_slot_events -> slot_deliverable [1] 7 [[5]] ev.
Proof.
  intros H. apply list_elem_of_In in H. cbn in H.
  repeat (destruct H as [<-|H]; [cbn|]); try done; split_and!; try done; set_solver.
Qed.

Lemma example_slot_run : rtc (slot_next [1] 7 [[5]]) (initSlot example_env) example_slot.
Proof.
  apply (slot_run_next _ _ _ example_env example_slot_events); [apply example_fits| |by vm_compute].
  apply Forall_forall. apply example_slot_deliverable.
Qed.

Lemma example_init_reachable : slot_reachable [1] 7 [[5]] (initSlot example_env).
Proof. apply slot_reach_init, example_fits. Qed.

Lemma slot_refines_ballot_witness :
  mCurrentBallot (bp example_slot) = Some (mkBallot 1 [5]) /\
  reachable [1] 7 (initSlot example_env) /\
  rtc (next [1] 7) (initSlot example_env) example_slot /\ quiet (bp example_slot).
Proof.
  split; [vm_compute; reflexivity|].
  apply (slot_refines_ballot [1] 7 [[5]]);
    [apply example_init_reachable|apply example_slot_run].
Defined.

Lemma slot_events_safe_witness :
  (exists s', slot_handle example_env (slot_fuel [[5]]) (SNominate [5] [9] false)
    (initSlot example_env) = Ok (tt, s')) /\
  match slot_handle example_env (slot_fuel [[5]]) (SNominate [5] [9] false)
    (initSlot example_env) with
  | Ok (_, s') => slot_reachable [1] 7 [[5]] s' /\ slot_good [1] [[5]] s'
  | Err e => slot_allowed (SNominate [5] [9] false) (initSlot example_env) e
  end.
Proof.
  split; [eexists; vm_compute; reflexivity|].
  apply (slot_events_safe [1] 7 [[5]]).
  - apply example_init_reachable.
  - apply example_fits.
  - apply example_slot_deliverable. by left.
Defined.

Lemma nomination_monotone_witness :
  mCandidates (np example_slot) = [[5]] /\
  mCandidates (np example_slot) ⊆ mAccepted (np example_slot).
Proof.
  split; [vm_compute; reflexivity|].
  apply (nomination_monotone [1] 7 [[5]] (initSlot example_env) example_slot);
    [apply example_init_reachable|apply example_slot_run].
Defined.

Lemma nomination_justified_witness :
  exists r s', promote_votes example_env [[5]] false example_slot = Ok (r, s') /\
    forall v, v ∈ mAccepted (np s') -> v ∈ mAccepted (np example_slot) \/
      (v ∈ [[5]] /\ nomination_validateValue example_env v = kFullyValidatedValue /\
       accept_rule example_env (mLatestNominations (np example_slot)) (votePredicate v)
         (acceptPredicate v)).
Proof.
  apply (nomination_justified example_env) with (accepted := []);
    [apply three_nodes_proper|]. intros h q [= <-]. apply three_nodes_proper.
Defined.
