(* ===== verification/Network.v ===== *)
(** * Agreement of the network

    The nodes of a network running one slot.  Correct nodes run the code of
    this development; the others say anything.  A message in the name of a
    correct node is one that node handed to its driver; nothing is assumed
    about order, delay, loss or repetition.  If any two quorums share a
    correct node, no two correct nodes externalize different values. *)
From stdpp Require Import functions base tactics list sorting numbers sets gmap.
From Stdlib Require Import ZArith Lia Bool.
From S2P Require Import Prelude Containers QuorumSet LocalNode Statement SlotState.
From S2P Require Import FederatedVoting BallotProtocol BallotInvariant BallotSafety BallotTheorems.
From S2P Require Import NominationProtocol NominationSafety Slot SlotTheorems.

Open Scope Z_scope.
Open Scope kin_scope.

(** The setting of a node matters to [voice] only through what it hears. *)
Lemma voice_mono (C C' : Setting) (s : SlotState) :
  party C' = party C -> partyHash C' = partyHash C -> partyEnv C' = partyEnv C ->
  (forall st, heard C st -> heard C' st) -> voice C s -> voice C' s.
Proof.
  intros E1 E2 E3 Hh [V1 V2 V3 V4].
  assert (forall st, says C s st -> says C' s st) as Hs
    by (intros st; unfold says; by rewrite E2).
  assert (forall id e, entry C s id e -> entry C' s id e) as He.
  { intros id e [Hid [?|[Hi ?]]]; (split; [done|]); [by left; auto|right].
    split; [by rewrite E1|auto]. }
  constructor; auto. intros Hp.
  destruct (V4 Hp) as (env & envs & ballot & i & c & Hb & Ho & Hen & Hr).
  exists env, envs, ballot, i, c. split_and!; try apply Hr; auto.
  unfold belongs. by rewrite E1, E2, E3.
Qed.

Lemma voice_init (C : Setting) (env : SlotEnv) : voice C (initSlot env).
Proof. constructor; cbn; try done. all: intros ? * H; by apply not_elem_of_nil in H. Qed.

(** A run of the slot takes nothing back. *)
Lemma progress_persists (self : NodeID) (index : Z) (Vs : list Value) (s s' : SlotState) :
  reachable self index s -> slot_progress self index Vs s s' -> persists s s'.
Proof.
  intros Hr (_ & Hst & _).
  destruct (steps_moves _ _ _ _ (reachable_sound _ _ _ Hr) Hst) as [_ []]. by split.
Qed.

Section network.
Context (honest : NodeID -> Prop) {Hdec : forall v, Decision (honest v)}.
(** The quorum sets of the nodes, their hashes, the slot and its values. *)
Context (qset : NodeID -> SCPQuorumSet) (qhash : NodeID -> Hash).
Context (index : Z) (Vs : list Value).
Context (Hproper : forall v, honest v -> proper (qset v)).

(** The environments node [v] runs in: its own quorum set, and a driver that
    finds the quorum sets of correct nodes under their hashes. *)
Definition node_env (v : NodeID) (env : SlotEnv) : Prop :=
  fits v index Vs env /\ mQSet (localNode env) = qset v /\ mQSetHash (localNode env) = qhash v /\
  forall w q, honest w -> getQSet (driver env) (qhash w) = Some q -> q = qset w.

Abbreviation network := (NodeID -> SlotState).

(** What may reach node [v]: ballot messages of correct nodes are messages
    they sent. *)
Definition net_deliverable (n : network) (v : NodeID) (ev : slot_event) : Prop :=
  slot_deliverable v index Vs ev /\
  match ev with
  | SReceive e =>
      honest (nodeID (getStatement e)) -> isNomination (getStatement e) = false ->
      envelope e ∈ sent (effects (n (nodeID (getStatement e))))
  | _ => True
  end.

Inductive net_next (n : network) : network -> Prop :=
  | net_step v env ev s' : honest v -> node_env v env -> net_deliverable n v ev ->
      slot_handle env (slot_fuel Vs) ev (n v) = Ok (tt, s') -> net_next n (<[v := s']> n).

Inductive net_reachable : network -> Prop :=
  | net_init n : (forall v, honest v -> exists env, node_env v env /\ n v = initSlot env) ->
      net_reachable n
  | net_more n n' : net_reachable n -> net_next n n' -> net_reachable n'.

(** A quorum of the network: every correct member has a slice inside.  Nothing
    is asked of the others, so this includes every quorum they could claim. *)
Definition quorum (U : list NodeID) : Prop :=
  forall w, w ∈ U -> honest w -> isQuorumSlice (qset w) U = true.

(** Any two quorums of correct nodes share a correct node. *)
Definition quorum_intersection : Prop :=
  forall U1 U2, quorum U1 -> quorum U2 ->
    (exists a, a ∈ U1 /\ honest a) -> (exists b, b ∈ U2 /\ honest b) ->
    exists w, honest w /\ w ∈ U1 /\ w ∈ U2.

(** ** What correct nodes say *)

Definition speaker (v : NodeID) : Setting :=
  mkSetting v (qhash v) (fun _ => True) (fun _ => True).

Definition said (n : network) (st : SCPStatement) : Prop :=
  honest (nodeID st) -> says (speaker (nodeID st)) (n (nodeID st)) st.

Definition setting (n : network) (v : NodeID) : Setting :=
  mkSetting v (qhash v) (node_env v) (said n).

(** Node [w] holds a commit on the value [x]. *)
Definition holds (n : network) (x : Value) (w : NodeID) : Prop :=
  mPhase (bp (n w)) <> SCP_PHASE_PREPARE /\
  exists c, mCommit (bp (n w)) = Some c /\ value c = x.

(** The decision of [v] is backed by a quorum of the network. *)
Definition backing (n : network) (x : Value) (v : NodeID) (U : list NodeID) : Prop :=
  v ∈ U /\ quorum U /\ forall w, w ∈ U -> honest w -> holds n x w.

Definition backed (n : network) (v : NodeID) : Prop :=
  mPhase (bp (n v)) = SCP_PHASE_EXTERNALIZE ->
  exists c U, mCommit (bp (n v)) = Some c /\ backing n (value c) v U.

Record net_inv (n : network) : Prop := mkNetInv {
  net_slots : forall v, honest v -> slot_reachable v index Vs (n v);
  net_voice : forall v, honest v -> voice (setting n v) (n v);
  net_backed : forall v, honest v -> backed n v
}.

Definition net_persists (n n' : network) : Prop := forall v, honest v -> persists (n v) (n' v).

Lemma said_persists (n n' : network) (st : SCPStatement) :
  net_persists n n' -> said n st -> said n' st.
Proof. intros Hp Hs Hh. eapply says_persists; [by apply Hp|by apply Hs]. Qed.

Lemma holds_persists (n n' : network) (x : Value) (w : NodeID) :
  net_persists n n' -> honest w -> holds n x w -> holds n' x w.
Proof.
  intros Hp Hw (Hn & c & Ec & Ev). destruct (Hp w Hw) as [P1 P2].
  destruct (P2 c Hn Ec) as (c' & Ec' & Ev'). split; [|exists c'; by rewrite Ev'].
  intros E. rewrite E in P1. by destruct (mPhase (bp (n w))).
Qed.

Lemma backed_persists (n n' : network) (v : NodeID) :
  net_persists n n' -> n' v = n v -> honest v -> backed n v -> backed n' v.
Proof.
  intros Hp Ev Hv Hb. unfold backed in *. rewrite Ev. intros (c & U & Ec & Hin & Hq & Hh)%Hb.
  exists c, U. split; [done|]. split; [done|]. split; [done|]. intros w Hw Hhw.
  eapply holds_persists; eauto.
Qed.

(** ** Gathering a quorum *)

Lemma slice_mono (v : NodeID) (U U' : list NodeID) :
  honest v -> U ⊆ U' -> isQuorumSlice (qset v) U = true -> isQuorumSlice (qset v) U' = true.
Proof. intros Hv. by apply isQuorumSlice_mono, Hproper. Qed.

(** The members of [U] each have a slice in [U] or a quorum of their own. *)
Lemma gather (P : NodeID -> Prop) (U l : list NodeID) :
  (forall w, w ∈ l -> honest w -> isQuorumSlice (qset w) U = true \/
    exists X, w ∈ X /\ quorum X /\ forall x, x ∈ X -> honest x -> P x) ->
  exists X, quorum X /\ (forall x, x ∈ X -> honest x -> P x) /\
    forall w, w ∈ l -> honest w -> isQuorumSlice (qset w) U = true \/ w ∈ X.
Proof.
  induction l as [|w l IH]; intros Hl.
  { exists []. split_and!; intros ? H; by apply not_elem_of_nil in H. }
  destruct IH as (X & Hq & HP & Hc); [intros; apply Hl; [by right|done]|].
  destruct (decide (honest w)) as [Hw|Hw]; cycle 1.
  { exists X. split_and!; [done..|]. intros x [->|Hx]%elem_of_cons Hhx; [done|auto]. }
  destruct (Hl w ltac:(by left) Hw) as [Hs|(Y & HwY & HqY & HPY)].
  { exists X. split_and!; [done..|]. intros x [->|Hx]%elem_of_cons Hhx; [by left|auto]. }
  exists (X ++ Y). split_and!.
  - intros x [Hx|Hx]%elem_of_app Hhx; (eapply slice_mono; [done| |by auto]); set_solver.
  - intros x [Hx|Hx]%elem_of_app Hhx; auto.
  - intros x [->|Hx]%elem_of_cons Hhx; [right; set_solver|].
    destruct (Hc x Hx Hhx); [by left|right; set_solver].
Qed.

(** What a statement that passes [commitPredicate] commits to. *)
Lemma commitPredicate_says (C : Setting) (s : SlotState) (st : SCPStatement) (b : SCPBallot)
    (i : Interval) :
  commitPredicate b i st = true -> says C s st ->
  mPhase (bp s) <> SCP_PHASE_PREPARE /\
  (exists c, mCommit (bp s) = Some c /\ value c = value b) /\
  (mPhase (bp s) = SCP_PHASE_EXTERNALIZE \/
   exists con, pledges st = SCP_ST_CONFIRM con /\ c_quorumSetHash con = partyHash C).
Proof.
  unfold commitPredicate, says. destruct (pledges st) as [p|con|ext|nom]; try done; intros Hc.
  - destruct (areBallotsCompatible b (c_ballot con)) eqn:E; [|done]. apply compatible_true in E.
    intros (Hh & Hp & c & Ec & Ev). split; [done|]. split; [|right; eauto]. exists c. by rewrite E.
  - destruct (areBallotsCompatible b (e_commit ext)) eqn:E; [|done]. apply compatible_true in E.
    intros (Hp & c & Ec & Ev). split; [by rewrite Hp|]. split; [|by left]. exists c. by rewrite E.
Qed.

(** The statement a node counts, whoever it is from. *)
Lemma entry_said (n : network) (v : NodeID) (w : NodeID) (e : EnvelopeWrapper) :
  honest w -> entry (setting n v) (n v) w e -> says (speaker w) (n w) (getStatement e).
Proof. intros Hw [Hid [Hs|[-> Hs]]]; [|exact Hs]. rewrite <- Hid. apply Hs. by rewrite Hid. Qed.

(** A decision is backed as soon as it is taken, if those it relies on are. *)
Lemma justified_backed (n : network) (v : NodeID) :
  honest v -> (forall w, honest w -> w <> v -> backed n w) ->
  justified (setting n v) (n v) -> mPhase (bp (n v)) <> SCP_PHASE_PREPARE ->
  exists c U, mCommit (bp (n v)) = Some c /\ backing n (value c) v U.
Proof.
  intros Hv Hothers (env & envs & ballot & i & c & Hb & Ho & Hen & Hr & Ec & Ev) Hp.
  destruct Hb as (_ & _ & _ & Eq & _ & Hget). cbn [partyEnv setting] in *.
  unfold federatedRatify, isQuorum in Hr. rewrite Eq in Hr.
  destruct (quorum_loop _ _ _ _) as [U|] eqn:EU; [|done].
  apply quorum_loop_sound in EU as [HU Hsub].
  assert (forall w, w ∈ U -> exists e, map_find w envs = Some e /\
    entry (setting n v) (n v) w e /\ commitPredicate ballot i (getStatement e) = true /\
    exists q, getQuorumSetFromStatement env (getStatement e) = Some q /\
      isQuorumSlice q U = true) as Hmem.
  { intros w Hw. destruct (HU w Hw) as (e & q & He & Hq & Hs).
    apply Hsub, filter_nodes_spec in Hw as (e' & He' & Hc).
    apply (map_find_elem _ _ _ Ho) in He' as Hf. assert (e' = e) as -> by congruence.
    exists e. split_and!; [done|by apply Hen|done|eauto]. }
  assert (forall w, w ∈ U -> honest w -> holds n (value c) w) as Hholds.
  { intros w Hw Hhw. destruct (Hmem w Hw) as (e & _ & He & Hc & _).
    destruct (commitPredicate_says _ _ _ _ _ Hc (entry_said n v w e Hhw He)) as (H1 & H2 & _).
    split; [done|]. by rewrite Ev. }
  destruct (gather (holds n (value c)) U (List.filter (fun w => negb (eqb_of w v)) U))
    as (X & HqX & HX & Hcov).
  { intros w [Hw Hne]%list_elem_of_In%filter_In Hhw. apply list_elem_of_In in Hw. bprop.
    apply eqb_of_false in Hne. destruct (Hmem w Hw) as (e & _ & He & Hc & q & Hq & Hs).
    destruct (commitPredicate_says _ _ _ _ _ Hc (entry_said n v w e Hhw He))
      as (_ & (c' & Ec' & Ev') & [Hx|(con & Epl & Hh)]).
    - right. destruct (Hothers w Hhw Hne Hx) as (c'' & Y & Ec'' & HwY & HqY & HY).
      exists Y. split_and!; [done..|]. assert (value c'' = value c) as <- by congruence. done.
    - left. unfold getQuorumSetFromStatement in Hq. rewrite Epl in Hq.
      cbn [partyHash speaker] in Hh. rewrite Hh in Hq. by rewrite <- (Hget w q Hhw Hq). }
  exists c, (v :: U ++ X). split; [done|]. split; [by left|]. split.
  - intros w Hw Hhw. destruct (decide (w = v)) as [->|Hne].
    { eapply slice_mono; [done| |exact Hr]. set_solver. }
    assert (isQuorumSlice (qset w) U = true \/ w ∈ X) as [Hs|HwX].
    { apply elem_of_cons in Hw as [?|[Hw|Hw]%elem_of_app]; [done| |by right].
      apply Hcov; [|done]. apply list_elem_of_In, filter_In. split; [by apply list_elem_of_In|].
      apply negb_true_iff. by apply eqb_of_false. }
    + eapply slice_mono; [done| |exact Hs]. set_solver.
    + eapply slice_mono; [done| |by apply HqX]. set_solver.
  - intros w [->|[Hw|Hw]%elem_of_app]%elem_of_cons Hhw; [|by apply Hholds|by apply HX].
    split; [done|]. by exists c.
Qed.

(** ** The invariant of the network *)

Lemma net_inv_init (n : network) :
  (forall v, honest v -> exists env, node_env v env /\ n v = initSlot env) -> net_inv n.
Proof.
  intros Hi. constructor; intros v Hv; destruct (Hi v Hv) as (env & Henv & E).
  - rewrite E. apply slot_reach_init, Henv.
  - rewrite E. apply voice_init.
  - unfold backed. by rewrite E.
Qed.

(** A message that may be delivered was said. *)
Lemma deliverable_said (n : network) (v : NodeID) (e : EnvelopeWrapper) :
  net_inv n -> net_deliverable n v (SReceive e) -> said n (getStatement e).
Proof.
  intros Hn [_ Hd] Hh. destruct (isNomination (getStatement e)) eqn:En.
  - unfold isNomination in En. unfold says. by destruct (pledges (getStatement e)).
  - exact (voice_sent _ _ (net_voice n Hn _ Hh) _ (Hd Hh eq_refl)).
Qed.

Lemma net_next_inv (n n' : network) : net_inv n -> net_next n n' -> net_inv n'.
Proof.
  intros Hn [v env ev s' Hv Henv Hd E]. pose proof (net_slots n Hn v Hv) as Hr.
  destruct (slot_reachable_good _ _ _ _ Hr) as [Hg Hrb].
  destruct (wp_ok _ _ _ _ _ _
    (slot_handle_spec _ _ _ env ev (n v) (proj1 Henv) (proj1 Hd) Hg) E) as [Hpr Hst].
  assert (net_persists n (<[v := s']> n)) as Hp.
  { intros w Hw. destruct (decide (w = v)) as [->|Hne].
    - rewrite fn_lookup_insert. by eapply progress_persists.
    - rewrite fn_lookup_insert_ne by done. by split; [|eauto]. }
  assert (forall w s, voice (setting n w) s -> voice (setting (<[v := s']> n) w) s) as Hmono.
  { intros w s. apply voice_mono; try done. intros st. by apply said_persists. }
  assert (forall w, honest w -> voice (setting (<[v := s']> n) w) ((<[v := s']> n : network) w))
    as Hvoice.
  { intros w Hw. destruct (decide (w = v)) as [->|Hne].
    - rewrite fn_lookup_insert. apply Hmono, Hst; [|intros st Est|exact (net_voice n Hn v Hv)].
      + pose proof Henv as (((Hid & _) & _) & _ & Hh & _). exact (conj Hid (conj Hh Henv)).
      + destruct ev as [e| | | |]; try done. injection Est as <-. by apply (deliverable_said n v).
    - rewrite fn_lookup_insert_ne by done. by apply Hmono, (net_voice n Hn). }
  assert (forall w, honest w -> w <> v -> backed (<[v := s']> n) w) as Hb.
  { intros w Hw Hne. apply (backed_persists n); [done|by apply fn_lookup_insert_ne|done|].
    by apply (net_backed n Hn). }
  constructor; [| exact Hvoice |]; intros w Hw; (destruct (decide (w = v)) as [->|Hne]; [|]).
  - rewrite fn_lookup_insert. eapply slot_reach_next; [done|]. eapply slot_step; [apply Henv|apply Hd|done].
  - rewrite fn_lookup_insert_ne by done. by apply (net_slots n Hn).
  - intros Hx. apply justified_backed; [done..|by apply voice_justified, Hx; apply Hvoice|].
    by rewrite Hx.
  - by apply Hb.
Qed.

Lemma net_reachable_inv (n : network) : net_reachable n -> net_inv n.
Proof. induction 1; [by apply net_inv_init|by eapply net_next_inv]. Qed.

(** What a node announced is the commit of an externalized slot. *)
Lemma announced_decided (n : network) (v : NodeID) (x : Value) :
  net_inv n -> honest v -> x ∈ announced (effects (n v)) ->
  exists U, backing n x v U.
Proof.
  intros Hn Hv Hx. destruct (slot_reachable_good _ _ _ _ (net_slots n Hn v Hv)) as [_ Hr].
  rewrite (sound_announced _ (reachable_sound _ _ _ Hr)) in Hx. unfold isPhase in Hx.
  case_bool_decide as E; [|by apply not_elem_of_nil in Hx].
  destruct (net_backed n Hn v Hv E) as (c & U & Ec & HU). rewrite Ec in Hx.
  apply list_elem_of_singleton in Hx as ->. by exists U.
Qed.

(** C26. Decisions are backed: a value a correct node announces as externalized
    is held as accepted commit by every correct member of a quorum of the
    network that contains the node. *)
Theorem decision_backed (n : network) (v : NodeID) (x : Value) :
  net_reachable n -> honest v -> x ∈ announced (effects (n v)) ->
  exists U, v ∈ U /\ quorum U /\ forall w, w ∈ U -> honest w -> holds n x w.
Proof. intros Hr. by apply announced_decided, net_reachable_inv. Qed.

(** Decisions backed by intersecting quorums are equal. *)
Lemma backed_agree (n : network) (a b : NodeID) (x y : Value) (Ua Ub : list NodeID) :
  quorum_intersection -> honest a -> honest b -> backing n x a Ua -> backing n y b Ub -> x = y.
Proof.
  intros Hqi Ha Hb (HaU & HqA & HA) (HbU & HqB & HB).
  destruct (Hqi Ua Ub HqA HqB) as (w & Hw & HwA & HwB); [eauto..|].
  destruct (HA w HwA Hw) as (_ & c1 & E1 & V1). destruct (HB w HwB Hw) as (_ & c2 & E2 & V2).
  congruence.
Qed.

(** C1. Agreement: if any two quorums of the network share a correct node, then
    any two values announced to the drivers of correct nodes as externalized in
    the slot are equal, whatever the other nodes say and however messages are
    delivered. *)
Theorem agreement (n : network) (a b : NodeID) (x y : Value) :
  quorum_intersection -> net_reachable n -> honest a -> honest b ->
  x ∈ announced (effects (n a)) -> y ∈ announced (effects (n b)) -> x = y.
Proof.
  intros Hqi Hr Ha Hb Hx Hy. apply net_reachable_inv in Hr.
  destruct (announced_decided n a x Hr Ha Hx) as (Ua & HA).
  destruct (announced_decided n b y Hr Hb Hy) as (Ub & HB).
  by apply (backed_agree n a b x y Ua Ub).
Qed.
End network.

(** ** A run

    Four nodes, any three of which are a quorum; node 4 is not correct.  The
    correct nodes propose a value and pass on the messages they send. *)

Definition run_driver (q : SCPQuorumSet) : SCPDriver :=
  mkDriver (fun _ _ _ => kFullyValidatedValue) (fun _ v => Some v) (fun _ vs => last vs)
    (fun _ => Some q) (fun _ => [])
    (fun _ _ _ _ id => match id with x :: _ => x | [] => 0 end) (fun _ _ _ _ => 0) 0.

(** All nodes have the quorum set [q]. *)
Definition run_env (q : SCPQuorumSet) (v : NodeID) : SlotEnv :=
  mkSlotEnv 7 (mkLocalNode v true q [0]) (run_driver q).

Definition correct (v : NodeID) : Prop := v ∈ [[1]; [2]; [3] : NodeID].

(** Either an event that is not a message of a correct node, or node [v]
    receives the last message node [w] sent. *)
Inductive action :=
  | Act (v : NodeID) (ev : slot_event)
  | Forward (w v : NodeID).

Definition u32b (x : Z) : bool := (0 <=? x) && (x <=? UINT32_MAX).

Definition ballot_statementb (st : SCPStatement) : bool :=
  let ob (o : option SCPBallot) := match o with Some b => u32b (counter b) | None => true end in
  match pledges st with
  | SCP_ST_PREPARE p =>
      u32b (counter (p_ballot p)) && ob (p_prepared p) && ob (p_preparedPrime p) &&
      u32b (p_nC p) && u32b (p_nH p)
  | SCP_ST_CONFIRM c =>
      u32b (counter (c_ballot c)) && u32b (c_nPrepared c) && u32b (c_nCommit c) && u32b (c_nH c)
  | SCP_ST_EXTERNALIZE e => u32b (counter (e_commit e)) && u32b (e_nH e)
  | SCP_ST_NOMINATE _ => false
  end.

Lemma u32b_true (x : Z) : u32b x = true -> is_u32 x.
Proof. unfold u32b, is_u32. intros ?. bprop. lia. Qed.

Lemma ballot_statementb_true (st : SCPStatement) :
  ballot_statementb st = true -> ballot_statement st.
Proof.
  unfold ballot_statementb, ballot_statement, ballot_u32, opt_u32, ballot_u32.
  destruct (pledges st); [| | |done]; intros ?; bprop; split_and!; try (by apply u32b_true); try done;
    intros b E; rewrite E in *; by apply u32b_true.
Qed.

Definition action_event (n : NodeID -> SlotState) (a : action) : option (NodeID * slot_event) :=
  match a with
  | Act v (SBumpState x f) => Some (v, SBumpState x f)
  | Act v (SReceive e) =>
      if eqb_of (nodeID (getStatement e)) [4] && (slotIndex (getStatement e) =? 7) &&
         ballot_statementb (getStatement e)
      then Some (v, SReceive e) else None
  | Act _ _ => None
  | Forward w v =>
      match last (sent (effects (n w))) with
      | Some x =>
          if eqb_of (nodeID (statement x)) w && (slotIndex (statement x) =? 7) &&
             ballot_statementb (statement x)
          then Some (v, SReceive (mkWrapper (-1) x)) else None
      | None => None
      end
  end.

Fixpoint net_run (q : SCPQuorumSet) (l : list action) (n : NodeID -> SlotState) : option (NodeID -> SlotState) :=
  match l with
  | [] => Some n
  | a :: l' =>
      match action_event n a with
      | Some (v, ev) =>
          if set_mem v [[1]; [2]; [3]] then
            match slot_handle (run_env q v) (slot_fuel [[5]]) ev (n v) with
            | Ok (_, s') => net_run q l' (<[v := s']> n)
            | Err _ => None
            end
          else None
      | None => None
      end
  end.

Abbreviation run_reachable q := (net_reachable correct (fun _ => q) (fun _ => [0]) 7 [[5]]).

Lemma run_node_env (q : SCPQuorumSet) (v : NodeID) :
  usable q -> node_env correct (fun _ => q) (fun _ => [0]) 7 [[5]] v (run_env q v).
Proof.
  intros [Hq Hnd]. split; [split; [split_and!; [done..|apply Hq]|split]|].
  - exact Hnd.
  - by intros x y Hx [= <-].
  - split_and!; try done. by intros w q' _ [= <-].
Qed.

Lemma action_deliverable (n : NodeID -> SlotState) (a : action) (v : NodeID) (ev : slot_event) :
  action_event n a = Some (v, ev) -> net_deliverable correct 7 [[5]] n v ev.
Proof.
  assert (forall e, ballot_statementb (getStatement e) = true ->
    isNomination (getStatement e) = false /\
    match nomination_of (getStatement e) with
    | Some nom => nodeID (getStatement e) <> v /\ n_votes nom ⊆ [[5]] /\ n_accepted nom ⊆ [[5]]
    | None => ballot_statement (getStatement e)
    end) as Hb.
  { intros e H. apply ballot_statementb_true in H as H'. unfold nomination_of, isNomination.
    unfold ballot_statementb in H. by destruct (pledges (getStatement e)). }
  unfold action_event. destruct a as [v' []|w v']; try done.
  - destruct (_ && _) eqn:E; [|done]. intros [= <- <-]. bprop.
    destruct (Hb e) as [_ H2]; [done|]. split; [done|]. intros Hc _.
    match goal with H : eqb_of _ _ = true |- _ => apply eqb_of_true in H; rewrite H in Hc end.
    unfold correct in Hc. apply list_elem_of_In in Hc. cbn in Hc. naive_solver.
  - by intros [= <- <-].
  - destruct (last _) as [x|] eqn:El; [|done]. destruct (_ && _) eqn:E; [|done].
    intros [= <- <-]. bprop. destruct (Hb (mkWrapper (-1) x)) as [_ H2]; [done|].
    match goal with H : eqb_of _ _ = true |- _ => apply eqb_of_true in H as Hw end.
    split; [done|]. intros _ _. unfold getStatement. cbn [envelope]. rewrite Hw.
    apply last_Some in El as [l ->]. set_solver.
Qed.

Lemma net_run_reachable (q : SCPQuorumSet) (l : list action) (n n' : NodeID -> SlotState) :
  usable q -> run_reachable q n -> net_run q l n = Some n' -> run_reachable q n'.
Proof.
  intros Hq. revert n. induction l as [|a l IH]; intros n Hr; cbn [net_run]; [by intros [= <-]|].
  destruct (action_event n a) as [[v ev]|] eqn:Ea; [|done].
  destruct (set_mem v _) eqn:Ev; [|done]. apply set_mem_true in Ev.
  destruct (slot_handle _ _ _ _) as [[[] s']|] eqn:E; [|done]. apply IH.
  eapply net_more; [exact Hr|]. eapply net_step; [done|by apply run_node_env| |done].
  by eapply action_deliverable.
Qed.

Definition exchange : list action :=
  [Forward [1] [2]; Forward [1] [3]; Forward [2] [1]; Forward [2] [3]; Forward [3] [1];
   Forward [3] [2]].

Definition liar (v : NodeID) : action :=
  Act v (SReceive (mkWrapper (-1) (mkEnvelope (mkStatement [4] 7
    (SCP_ST_PREPARE (mkPrepare [0] (mkBallot 1 [6]) None None 0 0))) []))).

Definition four_actions : list action :=
  [Act [1] (SBumpState [5] true); Act [2] (SBumpState [5] true); Act [3] (SBumpState [5] true);
   liar [1]; liar [3]] ++ exchange ++ exchange ++ exchange ++ exchange.

Definition run_start (q : SCPQuorumSet) (v : NodeID) : SlotState := initSlot (run_env q v).

Definition run_end (q : SCPQuorumSet) (l : list action) : NodeID -> SlotState :=
  default (run_start q) (net_run q l (run_start q)).

Lemma run_end_reachable (q : SCPQuorumSet) (l : list action) :
  usable q -> isSome (net_run q l (run_start q)) = true -> run_reachable q (run_end q l).
Proof.
  intros Hq H. apply (net_run_reachable q l (run_start q)); [done| |].
  - apply net_init. intros v _. exists (run_env q v). split; [by apply run_node_env|done].
  - unfold run_end. by destruct (net_run q l (run_start q)).
Qed.

Definition four_nodes : SCPQuorumSet := mkQSet 3 [[1]; [2]; [3]; [4]] [].

Lemma four_proper : proper four_nodes.
Proof. constructor; [simpl; lia|simpl; unfold_ints; lia|constructor]. Qed.

Definition four_end : NodeID -> SlotState := run_end four_nodes four_actions.

Lemma four_end_reachable : run_reachable four_nodes four_end.
Proof.
  apply run_end_reachable; [|vm_compute; reflexivity].
  split; [apply four_proper|by apply (bool_decide_unpack _)].
Qed.

(** Any two quorums of three out of four nodes share two of them, one of which
    is correct. *)
Lemma four_intersection : quorum_intersection correct (fun _ => four_nodes).
Proof.
  intros U1 U2 H1 H2 (a & HaU & Ha) (b & HbU & Hb).
  specialize (H1 a HaU Ha). specialize (H2 b HbU Hb).
  assert (forall v U, v ∈ [[1]; [2]; [3] : NodeID] -> in_nodes U v = true ->
    correct v /\ v ∈ U) as Hin by (intros v U Hv Hn; split; [done|by apply in_nodes_true]).
  unfold isQuorumSlice in H1, H2. cbn in H1, H2.
  destruct (in_nodes U1 [1]) eqn:A1, (in_nodes U2 [1]) eqn:B1;
    [exists [1]; edestruct (Hin [1] U1), (Hin [1] U2); [set_solver..|done]| | |];
  (destruct (in_nodes U1 [2]) eqn:A2, (in_nodes U2 [2]) eqn:B2;
    [exists [2]; edestruct (Hin [2] U1), (Hin [2] U2); [set_solver..|done]| | |]);
  (destruct (in_nodes U1 [3]) eqn:A3, (in_nodes U2 [3]) eqn:B3;
    [exists [3]; edestruct (Hin [3] U1), (Hin [3] U2); [set_solver..|done]| | |]);
  destruct (in_nodes U1 [4]), (in_nodes U2 [4]); cbn in H1, H2; done.
Qed.

Lemma agreement_witness :
  announced (effects (four_end [1])) = [[5]] /\ announced (effects (four_end [2])) = [[5]] /\
  forall x y, x ∈ announced (effects (four_end [1])) -> y ∈ announced (effects (four_end [2])) ->
    x = y.
Proof.
  split; [vm_compute; reflexivity|]. split; [vm_compute; reflexivity|]. intros x y.
  apply (agreement correct (fun _ => four_nodes) (fun _ => [0]) 7 [[5]]).
  - intros v _. apply four_proper.
  - apply four_intersection.
  - apply four_end_reachable.
  - unfold correct. set_solver.
  - unfold correct. set_solver.
Defined.

Lemma decision_backed_witness :
  announced (effects (four_end [1])) = [[5]] /\
  exists U, [1] ∈ U /\ quorum correct (fun _ => four_nodes) U /\
    forall w, w ∈ U -> correct w -> holds four_end [5] w.
Proof.
  split; [vm_compute; reflexivity|].
  apply (decision_backed correct (fun _ => four_nodes) (fun _ => [0]) 7 [[5]]).
  - intros v _. apply four_proper.
  - apply four_end_reachable.
  - unfold correct. set_solver.
  - assert (announced (effects (four_end [1])) = [[5]]) as -> by (vm_compute; reflexivity).
    set_solver.
Defined.
