(* ===== verification/SCP.v ===== *)
(** * SCP: the slots of a node

    [src/scp/SCP.cpp]: the slots the node knows, created on demand and purged
    when they are old, and the operations of the application on them. *)
From stdpp Require Import base tactics list sorting numbers sets gmap.
From Stdlib Require Import ZArith Lia Bool.
From S2P Require Import Prelude Containers QuorumSet LocalNode Statement SlotState.
From S2P Require Import FederatedVoting BallotProtocol NominationProtocol Slot.

Open Scope Z_scope.
Open Scope kin_scope.

(** Members of [SCP]. *)
Record SCP := mkSCP {
  scpLocalNode : LocalNode;
  mKnownSlots : list (Z * SlotState)
}.

Definition set_mKnownSlots (x : list (Z * SlotState)) (c : SCP) : SCP := mkSCP (scpLocalNode c) x.

Definition N : Type -> Type := ST SCP scp_error.

(** The [LocalNode] constructor; [getHashOf] is the driver's hash of a quorum
    set. *)
Definition newLocalNode (getHashOf : SCPQuorumSet -> Hash) (nodeID : NodeID)
    (isValidator : bool) (qSet : SCPQuorumSet) : LocalNode :=
  let q := Normalize.normalizeQSet None qSet in
  mkLocalNode nodeID isValidator q (getHashOf q).

Definition updateQuorumSet (getHashOf : SCPQuorumSet -> Hash) (qSet : SCPQuorumSet)
    (l : LocalNode) : LocalNode :=
  mkLocalNode (mNodeID l) (mIsValidator l) qSet (getHashOf qSet).

Definition newSCP (getHashOf : SCPQuorumSet -> Hash) (nodeID : NodeID) (isValidator : bool)
    (qSetLocal : SCPQuorumSet) : SCP :=
  mkSCP (newLocalNode getHashOf nodeID isValidator qSetLocal) [].

Section scp.
Context (drv : SCPDriver).

(** What the slot of index [i] refers to. *)
Definition slotEnv (c : SCP) (i : Z) : SlotEnv := mkSlotEnv i (scpLocalNode c) drv.

(** [getSlot(i, false)]. *)
Definition findSlot (c : SCP) (i : Z) : option SlotState := map_find i (mKnownSlots c).

(** [getSlot(i, true)]: the slot is created and stored when it is not known. *)
Definition getSlot (i : Z) : N SlotState :=
  let! c := get in
  match findSlot c i with
  | Some s => ret s
  | None =>
      let s := initSlot (slotEnv c i) in
      modify (set_mKnownSlots (map_set i s (mKnownSlots c))) ;;! ret s
  end.

(** Run an operation on slot [i], which is known; the slot is updated in
    place. *)
Definition onSlot {A} (i : Z) (s : SlotState) (op : SlotEnv -> M A) : N A :=
  let! c := get in
  match op (slotEnv c i) s with
  | Ok (a, s') => modify (fun c => set_mKnownSlots (map_set i s' (mKnownSlots c)) c) ;;! ret a
  | Err e => fail e
  end.

Definition receiveEnvelope (fuel : nat) (e : EnvelopeWrapper) : N EnvelopeState :=
  let i := slotIndex (getStatement e) in
  let! s := getSlot i in
  onSlot i s (fun env => slot_processEnvelope env fuel e false).

Definition scp_nominate (fuel : nat) (i : Z) (val previousValue : Value) : N bool :=
  let! c := get in
  check (mIsValidator (scpLocalNode c)) (DbgAbort A_NotValidator) ;;!
  let! s := getSlot i in
  onSlot i s (fun env => slot_nominate env fuel val previousValue false).

Definition scp_stopNomination (i : Z) : N unit :=
  let! c := get in
  match findSlot c i with
  | Some s => onSlot i s (fun _ => stopNomination)
  | None => ret tt
  end.

Definition updateLocalQuorumSet (getHashOf : SCPQuorumSet -> Hash) (qSet : SCPQuorumSet)
    : N unit :=
  modify (fun c => mkSCP (updateQuorumSet getHashOf qSet (scpLocalNode c)) (mKnownSlots c)).

(** The loop of [purgeSlots], from the lowest slot. *)
Fixpoint purge (maxSlotIndex : Z) (l : list (Z * SlotState)) : list (Z * SlotState) :=
  match l with
  | (i, s) :: l' => if i <? maxSlotIndex then purge maxSlotIndex l' else l
  | [] => []
  end.

Definition purgeSlots (maxSlotIndex : Z) : N unit :=
  modify (fun c => set_mKnownSlots (purge maxSlotIndex (mKnownSlots c)) c).

Definition scp_setStateFromEnvelope (i : Z) (e : EnvelopeWrapper) : N unit :=
  let! s := getSlot i in
  onSlot i s (fun env => slot_setStateFromEnvelope env e).

(** ** Queries *)

Definition NUM_SLOTS_TO_CHECK_FOR_REPORTING : nat := 2.

(** The loop of [getState], with [k] counting up to [n]. *)
Fixpoint getState_loop (c : SCP) (node : NodeID) (i : Z) (n : nat) (k : Z)
    : QuorumInfoNodeState :=
  match n with
  | O => MISSING
  | S n' =>
      if i <=? k then MISSING else
      match findSlot c (i - k) with
      | Some s =>
          let st := slot_getState (slotEnv c (i - k)) s node (0 <? k) in
          if bool_decide (st = NO_INFO) then getState_loop c node i n' (k + 1) else st
      | None => getState_loop c node i n' (k + 1)
      end
  end.

Definition scp_getState (c : SCP) (node : NodeID) (i : Z) : QuorumInfoNodeState :=
  getState_loop c node i NUM_SLOTS_TO_CHECK_FOR_REPORTING 0.

Definition isSlotFullyValidated (c : SCP) (i : Z) : bool :=
  match findSlot c i with Some s => mFullyValidated s | None => false end.

Definition gotVBlocking (c : SCP) (i : Z) : bool :=
  match findSlot c i with Some s => mGotVBlocking s | None => false end.

Definition getKnownSlotsCount (c : SCP) : Z := Z.of_nat (length (mKnownSlots c)).

Definition getCumulativeStatemtCount (c : SCP) : Z :=
  fold_left (fun n p => n + Z.of_nat (length (mStatementsHistory (snd p)))) (mKnownSlots c) 0.

Definition scp_getLatestMessagesSend (c : SCP) (i : Z) : list SCPEnvelope :=
  match findSlot c i with Some s => getLatestMessagesSend s | None => [] end.

Definition scp_empty (c : SCP) : bool := match mKnownSlots c with [] => true | _ => false end.

Definition scp_processCurrentState (c : SCP) (i : Z) (f : SCPEnvelope -> bool)
    (forceSelf : bool) : list SCPEnvelope :=
  match findSlot c i with
  | Some s => slot_processCurrentState (slotEnv c i) s f forceSelf
  | None => []
  end.

(** The indices [f] is applied to, until it answers [false]. *)
Fixpoint visit_slots (f : Z -> bool) (l : list Z) : list Z :=
  match l with
  | [] => []
  | i :: l' => if f i then i :: visit_slots f l' else [i]
  end.

Definition processSlotsAscendingFrom (c : SCP) (startingSlot : Z) (f : Z -> bool) : list Z :=
  visit_slots f (List.filter (fun i => startingSlot <=? i) (map_keys (mKnownSlots c))).

Definition processSlotsDescendingFrom (c : SCP) (startingSlot : Z) (f : Z -> bool) : list Z :=
  visit_slots f (rev (List.filter (fun i => i <=? startingSlot) (map_keys (mKnownSlots c)))).

(** The latest message of a node, from the highest slot down. *)
Definition scp_getLatestMessage (c : SCP) (node : NodeID) : option SCPEnvelope :=
  hd_error (omap (fun p => getLatestMessage (snd p) node) (rev (mKnownSlots c))).

Definition scp_isNewerNominationOrBallotSt (c : SCP) (oldSt newSt : SCPStatement) : bool :=
  if negb (slotIndex oldSt =? slotIndex newSt) || negb (eqb_of (nodeID oldSt) (nodeID newSt))
  then false
  else match findSlot c (slotIndex oldSt) with
       | Some _ => slot_isNewerNominationOrBallotSt oldSt newSt
       | None => false
       end.

Definition scp_getExternalizingState (c : SCP) (i : Z) : result scp_error (list SCPEnvelope) :=
  match findSlot c i with
  | Some s => getExternalizingState (slotEnv c i) s
  | None => Ok []
  end.
End scp.
