(* ===== verification/SCPTheorems.v ===== *)
(** * A node: all its slots together

    The node as a transition system over [SCP]: slots are created on demand,
    never disturb each other, and each of them follows the transition system
    of [SlotTheorems] until it is purged. *)
From stdpp Require Import base tactics list sorting numbers sets gmap.
From Stdlib Require Import ZArith Lia Bool.
From S2P Require Import Prelude Containers QuorumSet LocalNode Statement SlotState.
From S2P Require Import FederatedVoting BallotProtocol BallotInvariant BallotSafety BallotTheorems.
From S2P Require Import NominationProtocol NominationSafety Slot SlotTheorems SCP.

Open Scope Z_scope.
Open Scope kin_scope.

(** What can happen to a node.  A timer acts on the slot that set it up, if it
    is still known. *)
Inductive scp_event :=
  | EReceive (e : EnvelopeWrapper)
  | ENominate (i : Z) (val previousValue : Value)
  | EStopNomination (i : Z)
  | ENominationTimer (i : Z) (val previousValue : Value)
  | EBallotTimer (i : Z)
  | EPurgeSlots (maxSlotIndex : Z)
  | EUpdateQuorumSet (getHashOf : SCPQuorumSet -> Hash) (qSet : SCPQuorumSet).

(** The slot an event is for. *)
Definition event_slot (ev : scp_event) : option Z :=
  match ev with
  | EReceive e => Some (slotIndex (getStatement e))
  | ENominate i _ _ | EStopNomination i | ENominationTimer i _ _ | EBallotTimer i => Some i
  | EPurgeSlots _ | EUpdateQuorumSet _ _ => None
  end.

(** The same event, for the slot. *)
Definition event_of (ev : scp_event) : option slot_event :=
  match ev with
  | EReceive e => Some (SReceive e)
  | ENominate _ val prev => Some (SNominate val prev false)
  | ENominationTimer _ val prev => Some (SNominate val prev true)
  | EStopNomination _ => Some SStopNomination
  | EBallotTimer _ => Some SBallotTimer
  | EPurgeSlots _ | EUpdateQuorumSet _ _ => None
  end.

(** A timer of slot [i]. *)
Definition scp_timer (drv : SCPDriver) (i : Z) (op : SlotEnv -> M unit) : N unit :=
  let! c := get in
  match findSlot c i with
  | Some s => onSlot drv i s op
  | None => ret tt
  end.

Definition scp_handle (drv : SCPDriver) (fuel : Z -> nat) (ev : scp_event) : N unit :=
  match ev with
  | EReceive e =>
      let! _ := receiveEnvelope drv (fuel (slotIndex (getStatement e))) e in ret tt
  | ENominate i val prev => let! _ := scp_nominate drv (fuel i) i val prev in ret tt
  | EStopNomination i => scp_stopNomination drv i
  | ENominationTimer i val prev =>
      scp_timer drv i (fun env => slot_handle env (fuel i) (SNominate val prev true))
  | EBallotTimer i => scp_timer drv i (fun env => slot_handle env (fuel i) SBallotTimer)
  | EPurgeSlots m => purgeSlots m
  | EUpdateQuorumSet h q => updateLocalQuorumSet h q
  end.

(** Slots are purged from the lowest index on. *)
Lemma purge_find (m i : Z) (l : list (Z * SlotState)) :
  ordered l -> map_find i (purge m l) = if i <? m then None else map_find i l.
Proof.
  unfold ordered. induction l as [|[k s] l IH]; cbn [purge map_find map_keys map fst].
  { by destruct (i <? m). }
  intros Ho. inversion Ho as [|? ? Ho' Hall]; subst. destruct (k <? m) eqn:Hk.
  - rewrite IH by done. destruct (i <? m) eqn:Hi; [done|]. bprop.
    destruct (eqb_of i k) eqn:E; [|done]. apply eqb_of_true in E. lia.
  - bprop. destruct (i <? m) eqn:Hi; [|done]. bprop. cbn [map_find].
    destruct (eqb_of i k) eqn:E; [apply eqb_of_true in E; lia|].
    destruct (map_find i l) eqn:Ef; [|done]. apply map_find_Some_key in Ef.
    rewrite Forall_forall in Hall. apply Hall in Ef. unfold ltb, LtB_Z in Ef. bprop. lia.
Qed.

Lemma purge_suffix (m : Z) (l : list (Z * SlotState)) : purge m l `suffix_of` l.
Proof.
  induction l as [|[k s] l IH]; cbn [purge]; [done|].
  destruct (k <? m); [by apply suffix_cons_r|done].
Qed.

Lemma increasing_suffix (l1 l2 : list Z) : l1 `suffix_of` l2 -> increasing l2 -> increasing l1.
Proof.
  intros [k ->]. unfold increasing. induction k as [|x k IH]; [done|].
  cbn. intros Hs. apply IH. by inversion Hs.
Qed.

Lemma purge_ordered (m : Z) (l : list (Z * SlotState)) : ordered l -> ordered (purge m l).
Proof.
  unfold ordered, map_keys. apply increasing_suffix.
  destruct (purge_suffix m l) as [k E]. exists (map fst k). by rewrite <- map_app, <- E.
Qed.

(** Running an operation for its effect. *)
Lemma wp_void {S R A} (E : R -> Prop) (m : ST S R A) (Q : unit -> S -> Prop) (s : S) :
  wp E (let! _ := m in ret tt) Q s <-> wp E m (fun _ s' => Q tt s') s.
Proof. unfold wp, bind, ret. by destruct (m s) as [[]|]. Qed.

Section scp.
(** The node, and the values that occur in each slot. *)
Context (self : NodeID) (Vs : Z -> list Value).

Definition scp_fuel (i : Z) : nat := slot_fuel (Vs i).

Definition hosts (c : SCP) : Prop :=
  mNodeID (scpLocalNode c) = self /\ usable (mQSet (scpLocalNode c)).

Definition closed (drv : SCPDriver) : Prop :=
  forall i v x, v ∈ Vs i -> extractValidValue drv i v = Some x -> x ∈ Vs i.

Definition scp_deliverable (ev : scp_event) : Prop :=
  match event_slot ev, event_of ev with
  | Some i, Some sev => slot_deliverable self i (Vs i) sev
  | _, _ => match ev with EUpdateQuorumSet _ q => usable q | _ => True end
  end.

(** What holds of a node: its slots are in order and each is in a reachable
    state of its own transition system. *)
Definition scp_good (c : SCP) : Prop :=
  hosts c /\ ordered (mKnownSlots c) /\
  forall i s, findSlot c i = Some s -> slot_reachable self i (Vs i) s.

(** How an event can stop: for the reasons of the slot, or because a node that
    is not a validator was asked to nominate. *)
Definition scp_allowed (drv : SCPDriver) (ev : scp_event) (c : SCP) (e : scp_error) : Prop :=
  (exists i sev, event_slot ev = Some i /\ event_of ev = Some sev /\
    slot_allowed sev (default (initSlot (slotEnv drv c i)) (findSlot c i)) e) \/
  (mIsValidator (scpLocalNode c) = false /\ e = DbgAbort A_NotValidator /\
   exists i val prev, ev = ENominate i val prev).

(** [c'] is [c] after an event for slot [i]. *)
Definition advanced (i : Z) (c c' : SCP) : Prop :=
  scpLocalNode c' = scpLocalNode c /\
  (forall j, j <> i -> findSlot c' j = findSlot c j) /\
  forall s, findSlot c i = Some s ->
    exists s', findSlot c' i = Some s' /\ rtc (slot_next self i (Vs i)) s s'.

Lemma findSlot_set (i j : Z) (s : SlotState) (c : SCP) :
  findSlot (set_mKnownSlots (map_set i s (mKnownSlots c)) c) j =
    if bool_decide (j = i) then Some s else findSlot c j.
Proof.
  unfold findSlot. cbn [mKnownSlots set_mKnownSlots]. rewrite map_find_set.
  destruct (bool_decide_reflect (j = i)) as [->|Hn]; [by rewrite eqb_of_refl|].
  by apply eqb_of_false in Hn as ->.
Qed.

Lemma fits_slotEnv (drv : SCPDriver) (c : SCP) (i : Z) :
  closed drv -> hosts c -> fits self i (Vs i) (slotEnv drv c i).
Proof. intros Hcl [Hid [Hp Hd]]. split; [done|]. split; [done|]. intros v x. apply Hcl. Qed.

(** Storing a reachable state of slot [i]. *)
Lemma scp_good_set (i : Z) (s : SlotState) (c : SCP) :
  scp_good c -> slot_reachable self i (Vs i) s ->
  scp_good (set_mKnownSlots (map_set i s (mKnownSlots c)) c).
Proof.
  intros (Hh & Ho & Hr) Hs. split; [done|]. split; [by apply ordered_map_set|].
  intros j s'. rewrite findSlot_set.
  destruct (bool_decide_reflect (j = i)) as [->|]; [by intros [= <-]|apply Hr].
Qed.

Lemma getSlot_spec (drv : SCPDriver) (E : scp_error -> Prop) (i : Z) (c : SCP) :
  closed drv -> scp_good c ->
  wp E (getSlot drv i) (fun s c1 => scp_good c1 /\ findSlot c1 i = Some s /\ advanced i c c1 /\
    s = default (initSlot (slotEnv drv c i)) (findSlot c i)) c.
Proof.
  intros Hcl Hg. unfold getSlot, wp, bind, get, modify, ret.
  destruct (findSlot c i) as [s|] eqn:Ef; [split_and!; [done..| |done]|].
  - split; [done|]. split; [done|]. intros s1 E1. exists s1. done.
  - assert (slot_reachable self i (Vs i) (initSlot (slotEnv drv c i))) as Hs.
    { apply slot_reach_init, fits_slotEnv; [done|apply Hg]. }
    split; [by apply scp_good_set|]. rewrite findSlot_set, bool_decide_true by done.
    split_and!; [done| |done]. split; [done|]. split; [|congruence].
    intros j Hj. by rewrite findSlot_set, bool_decide_false.
Qed.

Lemma onSlot_spec {A} (drv : SCPDriver) (E : scp_error -> Prop) (i : Z) (s : SlotState)
    (op : SlotEnv -> M A) (c : SCP) :
  scp_good c -> findSlot c i = Some s ->
  wp E (op (slotEnv drv c i)) (fun _ s' => slot_next self i (Vs i) s s') s ->
  wp E (onSlot drv i s op) (fun _ c' => scp_good c' /\ advanced i c c') c.
Proof.
  intros Hg Ef Hop. unfold wp, onSlot, bind, get, modify, ret in *.
  destruct (op (slotEnv drv c i) s) as [[a s']|]; [|done]. split.
  - apply scp_good_set; [done|]. eapply slot_reach_next; [|done]. by apply Hg.
  - split; [done|]. split.
    + intros j Hj. by rewrite findSlot_set, bool_decide_false.
    + intros s1 E1. rewrite findSlot_set, bool_decide_true by done. exists s'.
      split; [done|]. assert (s1 = s) as -> by congruence. by apply rtc_once.
Qed.

(** An event of the slot, in the terms of the node. *)
Lemma slot_event_spec (drv : SCPDriver) (i : Z) (sev : slot_event) (s : SlotState) (c : SCP) :
  closed drv -> scp_good c -> findSlot c i = Some s -> slot_deliverable self i (Vs i) sev ->
  wp (slot_allowed sev s) (slot_handle (slotEnv drv c i) (scp_fuel i) sev)
     (fun _ s' => slot_next self i (Vs i) s s') s.
Proof.
  intros Hcl Hg Ef Hd. pose proof (fits_slotEnv drv c i Hcl (proj1 Hg)) as Hf.
  assert (slot_good self (Vs i) s) as Hs
    by (eapply slot_reachable_good; apply Hg; exact Ef).
  eapply wp_mono; [exact (wp_eq _ _ _ _ (slot_handle_spec _ _ _ _ sev s Hf Hd Hs))|].
  intros [] s' [_ E]. by eapply slot_step.
Qed.

Lemma advanced_trans (i : Z) (c1 c2 c3 : SCP) :
  advanced i c1 c2 -> advanced i c2 c3 -> advanced i c1 c3.
Proof.
  intros (E1 & O1 & S1) (E2 & O2 & S2). split; [congruence|]. split.
  - intros j Hj. by rewrite O2, O1.
  - intros s Hs. destruct (S1 s Hs) as (s' & Hs' & R1). destruct (S2 s' Hs') as (s'' & Hs'' & R2).
    exists s''. split; [done|]. by etrans.
Qed.

(** The operations that create the slot they are for. *)
Lemma on_demand_spec {A} (drv : SCPDriver) (i : Z) (sev : slot_event) (op : SlotEnv -> M A)
    (ev : scp_event) (c : SCP) :
  closed drv -> scp_good c -> slot_deliverable self i (Vs i) sev ->
  event_slot ev = Some i -> event_of ev = Some sev ->
  (forall env, slot_handle env (scp_fuel i) sev = (let! _ := op env in ret tt)) ->
  wp (scp_allowed drv ev c) (let! s := getSlot drv i in onSlot drv i s op)
     (fun _ c' => scp_good c' /\ advanced i c c') c.
Proof.
  intros Hcl Hg Hd Ei Es Hop. apply wp_bind.
  eapply wp_mono; [by apply getSlot_spec|]. intros s c1 (Hg1 & Ef & Ha & Es').
  eapply wp_mono; [apply onSlot_spec; [done..|]|].
  - eapply wp_weaken; [apply (wp_void _ _ (fun _ s' => slot_next self i (Vs i) s s'));
      rewrite <- Hop; by eapply slot_event_spec|].
    intros e He. left. exists i, sev. by rewrite <- Es'.
  - intros a c' [Hg' Ha']. split; [done|]. by eapply advanced_trans.
Qed.

(** The operations that act on a known slot. *)
Lemma known_spec (drv : SCPDriver) (i : Z) (sev : slot_event) (ev : scp_event) (c : SCP) :
  closed drv -> scp_good c -> slot_deliverable self i (Vs i) sev ->
  event_slot ev = Some i -> event_of ev = Some sev ->
  wp (scp_allowed drv ev c) (scp_timer drv i (fun env => slot_handle env (scp_fuel i) sev))
     (fun _ c' => scp_good c' /\ advanced i c c') c.
Proof.
  intros Hcl Hg Hd Ei Es. unfold scp_timer. apply wp_bind, wp_get.
  destruct (findSlot c i) as [s|] eqn:Ef.
  - apply onSlot_spec; [done..|]. eapply wp_weaken; [by eapply slot_event_spec|].
    intros e He. left. exists i, sev. by rewrite Ef.
  - apply wp_ret. split; [done|]. split; [done|]. split; [done|congruence].
Qed.

(** What an event does to the slots. *)
Definition event_effect (ev : scp_event) (c c' : SCP) : Prop :=
  match ev with
  | EPurgeSlots m => forall j, findSlot c' j = if j <? m then None else findSlot c j
  | EUpdateQuorumSet _ q => mKnownSlots c' = mKnownSlots c /\ mQSet (scpLocalNode c') = q
  | _ => exists i, event_slot ev = Some i /\ advanced i c c'
  end.

Lemma scp_handle_spec (drv : SCPDriver) (ev : scp_event) (c : SCP) :
  closed drv -> scp_good c -> scp_deliverable ev ->
  wp (scp_allowed drv ev c) (scp_handle drv scp_fuel ev)
     (fun _ c' => scp_good c' /\ event_effect ev c c') c.
Proof.
  intros Hcl Hg Hd.
  assert (forall i, event_slot ev = Some i ->
    wp (scp_allowed drv ev c) (scp_handle drv scp_fuel ev)
      (fun _ c' => scp_good c' /\ advanced i c c') c ->
    match ev with EPurgeSlots _ | EUpdateQuorumSet _ _ => False | _ => True end ->
    wp (scp_allowed drv ev c) (scp_handle drv scp_fuel ev)
      (fun _ c' => scp_good c' /\ event_effect ev c c') c) as Hslot.
  { intros i Ei H Hk. eapply wp_mono; [exact H|]. intros [] c' [Hg' Ha]. split; [done|].
    destruct ev; try done; eexists; eauto. }
  destruct ev as [e|i val prev|i|i val prev|i|m|h q]; cbn [scp_handle].
  - eapply Hslot; [done| |done]. cbn [scp_handle]. apply wp_void. unfold receiveEnvelope.
    by eapply (on_demand_spec _ _ (SReceive e)).
  - eapply Hslot; [done| |done]. cbn [scp_handle]. apply wp_void. unfold scp_nominate.
    apply wp_bind, wp_get, wp_bind, wp_check_or.
    + intros Hv. right. eauto 10.
    + intros _. by eapply (on_demand_spec _ _ (SNominate val prev false)).
  - eapply Hslot; [done| |done]. by apply (known_spec drv i SStopNomination (EStopNomination i)).
  - eapply Hslot; [done| |done].
    by apply (known_spec drv i (SNominate val prev true) (ENominationTimer i val prev)).
  - eapply Hslot; [done| |done]. by apply (known_spec drv i SBallotTimer (EBallotTimer i)).
  - destruct Hg as (Hh & Ho & Hr). unfold purgeSlots. apply wp_modify.
    assert (forall j, map_find j (purge m (mKnownSlots c)) =
      if j <? m then None else map_find j (mKnownSlots c)) as Hf by (intros; by apply purge_find).
    split; [|exact Hf]. split; [done|]. split; [by apply purge_ordered|].
    intros i s. unfold findSlot. cbn [mKnownSlots set_mKnownSlots]. rewrite Hf.
    destruct (i <? m); [done|]. apply Hr.
  - destruct Hg as ((Hid & _) & Ho & Hr). unfold updateLocalQuorumSet. apply wp_modify.
    split; [|done]. by split.
Qed.

(** A step of the node. *)
Inductive scp_next (c c' : SCP) : Prop :=
  | scp_step drv ev : closed drv -> scp_deliverable ev ->
      scp_handle drv scp_fuel ev c = Ok (tt, c') -> scp_next c c'.

(** A step that does not purge slot [i]. *)
Inductive scp_keep (i : Z) (c c' : SCP) : Prop :=
  | keep_step drv ev : closed drv -> scp_deliverable ev ->
      (forall m, ev = EPurgeSlots m -> m <= i) ->
      scp_handle drv scp_fuel ev c = Ok (tt, c') -> scp_keep i c c'.

Inductive scp_reachable : SCP -> Prop :=
  | scp_reach_init h isValidator q extra :
      representable q -> Sanity.isQuorumSetSane q extra = true ->
      scp_reachable (newSCP h self isValidator q)
  | scp_reach_next c c' : scp_reachable c -> scp_next c c' -> scp_reachable c'.

Lemma newSCP_good (h : SCPQuorumSet -> Hash) (isValidator : bool) (q : SCPQuorumSet) :
  usable q -> scp_good (newSCP h self isValidator q).
Proof.
  intros Hu. split_and!; [split; [done|by apply usable_normalize]|constructor|done].
Qed.

Lemma scp_reachable_good (c : SCP) : scp_reachable c -> scp_good c.
Proof.
  induction 1 as [h b q x Hr Hs|c c' _ IH [drv ev Hcl Hd E]].
  { apply newSCP_good. by eapply sane_usable. }
  exact (proj1 (wp_ok _ _ _ _ _ _ (scp_handle_spec drv ev c Hcl IH Hd) E)).
Qed.

(** A step moves a slot along its transition system. *)
Lemma scp_keep_slot (i : Z) (c c' : SCP) (s : SlotState) :
  scp_good c -> scp_keep i c c' -> findSlot c i = Some s ->
  scp_good c' /\ exists s', findSlot c' i = Some s' /\ rtc (slot_next self i (Vs i)) s s'.
Proof.
  intros Hg [drv ev Hcl Hd Hm E] Es.
  destruct (wp_ok _ _ _ _ _ _ (scp_handle_spec drv ev c Hcl Hg Hd) E) as [Hg' He].
  split; [done|].
  assert (forall k, advanced k c c' ->
    exists s', findSlot c' i = Some s' /\ rtc (slot_next self i (Vs i)) s s') as Hadv.
  { intros k (_ & Ho & Hs). destruct (decide (i = k)) as [->|Hn]; [by apply Hs|].
    rewrite Ho by done. by exists s. }
  destruct ev; cbn [event_effect] in He; try (destruct He as (k & _ & Ha); by eapply Hadv).
  - rewrite He. rewrite (proj2 (Z.ltb_ge _ _)) by by apply Hm. by exists s.
  - unfold findSlot in *. destruct He as [-> _]. by exists s.
Qed.

Lemma scp_keep_run (i : Z) (c c' : SCP) (s : SlotState) :
  scp_good c -> rtc (scp_keep i) c c' -> findSlot c i = Some s ->
  scp_good c' /\ exists s', findSlot c' i = Some s' /\ rtc (slot_next self i (Vs i)) s s'.
Proof.
  intros Hg Hr. revert s Hg. induction Hr as [c|c c1 c' Hk _ IH]; intros s Hg Es.
  { split; [done|]. by exists s. }
  destruct (scp_keep_slot i c c1 s Hg Hk Es) as (Hg1 & s1 & Es1 & R1).
  destruct (IH s1 Hg1 Es1) as (Hg' & s' & Es' & R2).
  split; [done|]. exists s'. split; [done|]. by etrans.
Qed.

(** ** The theorems *)

(** No event breaks a node: from any reachable state, a message for any
    slot, a nomination, a timer, a purge or a change of quorum set either
    returns in a state where the known slots are in order and each of them is
    reachable in its own transition system, with the slots the event is not
    for untouched; or stops for a reason of the slot it is for (or because a
    node that does not validate nominates). *)
Theorem scp_events_safe (drv : SCPDriver) (ev : scp_event) (c : SCP) :
  scp_reachable c -> closed drv -> scp_deliverable ev ->
  match scp_handle drv scp_fuel ev c with
  | Ok (_, c') => scp_good c' /\ event_effect ev c c'
  | Err e => scp_allowed drv ev c e
  end.
Proof.
  intros Hr Hcl Hd. exact (scp_handle_spec drv ev c Hcl (scp_reachable_good c Hr) Hd).
Qed.

(** Decisions last: as long as slot [i] is not purged, whatever happens to
    the node, the slot stays known, follows its own transition system, and the
    value it has committed to does not change; once it has externalized, none
    of its ballots changes. *)
Theorem decision_outlives_other_slots (i : Z) (c c' : SCP) (s : SlotState) (b : SCPBallot) :
  scp_reachable c -> findSlot c i = Some s ->
  mPhase (bp s) <> SCP_PHASE_PREPARE -> mCommit (bp s) = Some b ->
  rtc (scp_keep i) c c' ->
  exists s', findSlot c' i = Some s' /\ rtc (slot_next self i (Vs i)) s s' /\
    (exists b', mCommit (bp s') = Some b' /\ value b' = value b) /\
    (mPhase (bp s) = SCP_PHASE_EXTERNALIZE -> ballots (bp s') = ballots (bp s)).
Proof.
  intros Hr Es Hp Hb Hrun. pose proof (scp_reachable_good c Hr) as Hg.
  destruct (scp_keep_run i c c' s Hg Hrun Es) as (_ & s' & Es' & R). exists s'.
  destruct (slot_reachable_good _ _ _ s (proj2 (proj2 Hg) i s Es)) as [Hs Hrs].
  destruct (slot_steps_progress _ _ _ s s' Hs R) as (_ & R' & _).
  destruct (steps_moves _ _ s s' (reachable_sound _ _ s Hrs) R') as [_ Hm].
  split_and!; [done..|exact (mv_commit _ _ Hm b Hp Hb)|exact (mv_frozen _ _ Hm)].
Qed.

(** [purgeSlots] forgets exactly the slots below the bound, and keeps the
    others unchanged and in order. *)
Theorem purgeSlots_spec (m : Z) (c : SCP) :
  scp_reachable c ->
  exists c', purgeSlots m c = Ok (tt, c') /\
    (forall j, findSlot c' j = if j <? m then None else findSlot c j) /\
    mKnownSlots c' `suffix_of` mKnownSlots c /\ ordered (mKnownSlots c').
Proof.
  intros Hr. destruct (scp_reachable_good c Hr) as (_ & Ho & _). eexists. split; [reflexivity|].
  split_and!; [intros j; by apply purge_find|apply purge_suffix|by apply purge_ordered].
Qed.
End scp.

(** [SCP::getState] never answers [NO_INFO], as its callers assume; a node
    is [MISSING] only if neither slot [i] nor slot [i - 1] has a state for it
    (or has it as missing), and the answer is that of the latest of the two
    slots that has one. *)
Lemma getState_informative (drv : SCPDriver) (c : SCP) (node : NodeID) (i : Z) :
  let at_ k := match findSlot c (i - k) with
               | Some s => slot_getState (slotEnv drv c (i - k)) s node (0 <? k)
               | None => NO_INFO
               end in
  scp_getState drv c node i <> NO_INFO /\
  scp_getState drv c node i =
    (if i <=? 0 then MISSING else
     if bool_decide (at_ 0 = NO_INFO)
     then if (i <=? 1) || bool_decide (at_ 1 = NO_INFO) then MISSING else at_ 1
     else at_ 0).
Proof.
  intros at_. unfold scp_getState, NUM_SLOTS_TO_CHECK_FOR_REPORTING, getState_loop.
  assert (forall k, at_ k = match findSlot c (i - k) with
    | Some s => slot_getState (slotEnv drv c (i - k)) s node (0 <? k)
    | None => NO_INFO end) as Eat by done.
  clearbody at_. replace (0 + 1) with 1 by done. rewrite !Eat. clear Eat.
  destruct (i <=? 0); [done|].
  destruct (findSlot c (i - 0)); destruct (i <=? 1); destruct (findSlot c (i - 1));
    repeat (match goal with |- context [bool_decide ?P] => destruct (bool_decide_reflect P) end);
    cbn [orb]; split; congruence.
Qed.

(** ** A run

    Node 1 nominates in slot 7, agrees with the others on a value and
    externalizes it; then slot 8 starts and the slots below 7 are purged. *)

Definition example_values (i : Z) : list Value := if i =? 7 then [[5]] else [[6]].

Definition scp_message (id i : Z) (pl : SCPPledges) : scp_event :=
  EReceive (mkWrapper (-1) (mkEnvelope (mkStatement [id] i pl) [])).

Definition example_decide : list scp_event :=
  [ ENominate 7 [5] [9];
    scp_message 3 7 (SCP_ST_NOMINATE (mkNomination [0] [[5]] []));
    scp_message 3 7 (SCP_ST_NOMINATE (mkNomination [0] [[5]] [[5]]));
    scp_message 2 7 (SCP_ST_PREPARE (mkPrepare [0] example_ballot (Some example_ballot) None 0 0));
    scp_message 2 7 (SCP_ST_PREPARE (mkPrepare [0] example_ballot (Some example_ballot) None 1 1));
    scp_message 2 7 (SCP_ST_CONFIRM (mkConfirm example_ballot 1 1 1 [0])) ].

Definition example_later : list scp_event :=
  [ ENominate 8 [6] [5];
    EPurgeSlots 7;
    scp_message 3 8 (SCP_ST_NOMINATE (mkNomination [0] [[6]] []));
    EUpdateQuorumSet (fun _ => [1]) three_nodes;
    EStopNomination 7 ].

Fixpoint scp_run (drv : SCPDriver) (fuel : Z -> nat) (evs : list scp_event) (c : SCP)
    : result scp_error SCP :=
  match evs with
  | [] => Ok c
  | ev :: evs' =>
      match scp_handle drv fuel ev c with
      | Ok (_, c') => scp_run drv fuel evs' c'
      | Err e => Err e
      end
  end.

Definition scp_of (r : result scp_error SCP) : SCP :=
  match r with Ok c => c | Err _ => newSCP (fun _ => [0]) [1] false three_nodes end.

Definition example_start : SCP := newSCP (fun _ => [0]) [1] true three_nodes.
Definition example_decided : SCP :=
  scp_of (scp_run example_driver (scp_fuel example_values) example_decide example_start).
Definition example_after : SCP :=
  scp_of (scp_run example_driver (scp_fuel example_values) example_later example_decided).

Lemma example_closed : closed example_values example_driver.
Proof. by intros i v x Hv [= <-]. Qed.

Lemma example_scp_deliverable (ev : scp_event) :
  ev ∈ example_decide ++ example_later -> scp_deliverable [1] example_values ev.
Proof.
  intros H. apply list_elem_of_In in H. cbn in H.
  repeat (destruct H as [<-|H];
    [cbn; unfold ballot_statement, opt_u32, ballot_u32; cbn|]);
    try done; try (split; [apply three_nodes_proper|apply three_nodes_distinct]);
    split_and!; try done;
    try (intros ? [= <-]); try set_solver; unfold_ints; cbn; lia.
Qed.

Lemma scp_run_next (self : NodeID) (Vs : Z -> list Value) (drv : SCPDriver)
    (evs : list scp_event) (c c' : SCP) :
  closed Vs drv -> Forall (scp_deliverable self Vs) evs ->
  scp_run drv (scp_fuel Vs) evs c = Ok c' -> rtc (scp_next self Vs) c c'.
Proof.
  intros Hcl Hd. revert c. induction Hd as [|ev evs Hev _ IH]; intros c; cbn [scp_run].
  { by intros [= <-]. }
  destruct (scp_handle drv _ ev c) as [[[] c1]|] eqn:E; [|done]. intros Hr.
  eapply rtc_l; [by eapply scp_step|]. by apply IH.
Qed.

Lemma scp_run_keep (self : NodeID) (Vs : Z -> list Value) (i : Z) (drv : SCPDriver)
    (evs : list scp_event) (c c' : SCP) :
  closed Vs drv -> Forall (scp_deliverable self Vs) evs ->
  Forall (fun ev => forall m, ev = EPurgeSlots m -> m <= i) evs ->
  scp_run drv (scp_fuel Vs) evs c = Ok c' -> rtc (scp_keep self Vs i) c c'.
Proof.
  intros Hcl Hd. revert c. induction Hd as [|ev evs Hev _ IH]; intros c Hm; cbn [scp_run].
  { by intros [= <-]. }
  inversion Hm; subst.
  destruct (scp_handle drv _ ev c) as [[[] c1]|] eqn:E; [|done]. intros Hr.
  eapply rtc_l; [by eapply keep_step|]. by apply IH.
Qed.

Lemma example_start_reachable : scp_reachable [1] example_values example_start.
Proof. by apply (scp_reach_init _ _ _ _ _ true three_nodes_representable). Qed.

Lemma example_decided_reachable : scp_reachable [1] example_values example_decided.
Proof.
  assert (rtc (scp_next [1] example_values) example_start example_decided) as Hr.
  { apply (scp_run_next _ _ example_driver example_decide); [apply example_closed| |by vm_compute].
    apply Forall_forall. intros ev Hev. apply example_scp_deliverable.
    apply elem_of_app. by left. }
  generalize example_start_reachable. induction Hr as [|c c1 c' Hn _ IH]; [done|].
  intros Hc. apply IH. by eapply scp_reach_next.
Qed.

Lemma scp_events_safe_witness :
  match scp_handle example_driver (scp_fuel example_values) (EPurgeSlots 7) example_decided with
  | Ok (_, c') => scp_good [1] example_values c' /\
      event_effect [1] example_values (EPurgeSlots 7) example_decided c'
  | Err e => scp_allowed example_driver (EPurgeSlots 7) example_decided e
  end.
Proof.
  apply (scp_events_safe [1] example_values).
  - apply example_decided_reachable.
  - apply example_closed.
  - apply example_scp_deliverable. set_solver.
Defined.

Definition example_slot7 : SlotState :=
  default (initSlot example_env) (findSlot example_decided 7).

Lemma decision_outlives_other_slots_witness :
  mPhase (bp example_slot7) = SCP_PHASE_EXTERNALIZE /\
  exists s', findSlot example_after 7 = Some s' /\
    rtc (slot_next [1] 7 (example_values 7)) example_slot7 s' /\
    (exists b', mCommit (bp s') = Some b' /\ value b' = [5]) /\
    (mPhase (bp example_slot7) = SCP_PHASE_EXTERNALIZE ->
     ballots (bp s') = ballots (bp example_slot7)).
Proof.
  split; [vm_compute; reflexivity|].
  apply (decision_outlives_other_slots [1] example_values 7 example_decided example_after
    example_slot7 example_ballot).
  - apply example_decided_reachable.
  - vm_compute. reflexivity.
  - vm_compute. discriminate.
  - vm_compute. reflexivity.
  - apply (scp_run_keep _ _ _ example_driver example_later);
      [apply example_closed| | |by vm_compute].
    + apply Forall_forall. intros ev Hev. apply example_scp_deliverable, elem_of_app. by right.
    + repeat constructor; try done; intros m [= <-]; lia.
Defined.

(** A purged slot is forgotten: a late message for it starts a fresh slot,
    which knows nothing of what was externalized.  The callers of the code
    purge only slots they no longer accept messages for. *)
Lemma purged_slot_restarts :
  let evs := [EPurgeSlots 8; scp_message 2 7
    (SCP_ST_PREPARE (mkPrepare [0] (mkBallot 1 [4]) None None 0 0))] in
  let c := scp_of (scp_run example_driver (scp_fuel example_values) evs example_decided) in
  isSlotFullyValidated example_decided 7 = true /\
  option_map (fun s => mCommit (bp s)) (findSlot example_decided 7) = Some (Some example_ballot) /\
  option_map (fun s => mCommit (bp s)) (findSlot c 7) = Some None.
Proof. vm_compute. done. Qed.
