(* ===== verification/QuorumTracker.v ===== *)
(** * Tracking the transitive quorum

    [src/herder/QuorumTracker.cpp]: the nodes a node depends on, directly or
    through the quorum sets of others, with their distance and the members of
    the local quorum set that are closest to them; and the handlers of
    [src/herder/PendingEnvelopes.cpp] that keep it up to date. *)
From stdpp Require Import base tactics list numbers sets gmap fin_sets relations.
From Stdlib Require Import ZArith Lia Bool.
From S2P Require Import Prelude Containers QuorumSet LocalNode Statement.

Open Scope Z_scope.
Open Scope kin_scope.

(** ** Data *)

(** A [SCPQuorumSetPtr] that is not null: pointers are compared, not what they
    point to. *)
Record QSetPtr := { qs_ptr : Z; qs_set : SCPQuorumSet }.

Record NodeInfo := {
  mQuorumSet : option QSetPtr;
  mDistance : Z;
  mClosestValidators : gset NodeID;
}.

Notation TrackerMap := (gmap NodeID NodeInfo) (only parsing).

Inductive tracker_error :=
  | NullQSet                   (** [releaseAssertOrThrow(qSet)] *)
  | DistanceAssertion          (** [releaseAssertOrThrow(newDist == ...)] *)
  | ExpandFailed               (** thrown by [rebuild] *)
  | NodeNotInMap               (** thrown by [rebuild] *)
  | NotInQuorum                (** the assertion of [findClosestValidators] *)
  | TrackerOutOfFuel.

Notation Tr := (ST (gmap NodeID NodeInfo) tracker_error).

(** ** Operations of the tracker *)

Definition isNodeDefinitelyInQuorum (m : TrackerMap) (id : NodeID) : bool :=
  bool_decide (is_Some (m !! id)).

Definition add_closest (newDist : Z) (id qNode : NodeID) (m : TrackerMap) (i : NodeInfo)
    : NodeInfo :=
  {| mQuorumSet := mQuorumSet i; mDistance := mDistance i;
     mClosestValidators :=
       if newDist =? 1 then mClosestValidators i ∪ {[qNode]}
       else mClosestValidators i ∪ default ∅ (mClosestValidators <$> m !! id) |}.

(** The function [expand] passes to [forAllNodes]; [nodeInfo] is a reference
    into the map.  The exception of its assertion is kept beside the map. *)
Definition expand_node (id : NodeID) (newDist : Z) (qNode : NodeID)
    (s : result tracker_error (gmap NodeID NodeInfo))
    : bool * result tracker_error (gmap NodeID NodeInfo) :=
  match s with
  | Err e => (false, Err e)
  | Ok m =>
      let add i := (true, Ok (<[qNode := add_closest newDist id qNode m i]> m)) in
      match m !! qNode with
      | None => add {| mQuorumSet := None; mDistance := newDist; mClosestValidators := ∅ |}
      | Some info =>
          if mDistance info <? newDist then (true, Ok m)
          else if isSome (mQuorumSet info) then (false, Ok m)
          else if newDist <? mDistance info then
            add {| mQuorumSet := mQuorumSet info; mDistance := newDist; mClosestValidators := ∅ |}
          else if negb (newDist =? mDistance info) then (false, Err DistanceAssertion)
          else add info
      end
  end.

Definition expand (id : NodeID) (qSet : option QSetPtr) : Tr bool :=
  let! q := deref qSet NullQSet in
  let! m := get in
  match m !! id with
  | None => ret false
  | Some nodeInfo =>
      match mQuorumSet nodeInfo with
      | Some old => ret (qs_ptr old =? qs_ptr q)
      | None =>
          let m := <[id := {| mQuorumSet := Some q; mDistance := mDistance nodeInfo;
                              mClosestValidators := mClosestValidators nodeInfo |}]> m in
          let '(b, r) := forAllNodes (expand_node id (mDistance nodeInfo + 1)) (qs_set q) (Ok m) in
          match r with
          | Err e => fail e
          | Ok m => modify (fun _ => m) ;;! ret b
          end
      end
  end.

(** The breadth-first search, with the backlog. *)
Fixpoint rebuild_loop (fuel : nat) (lookup : NodeID -> option QSetPtr) (backlog : list NodeID)
    : Tr unit :=
  match backlog with
  | [] => ret tt
  | node :: rest =>
      match fuel with
      | O => fail TrackerOutOfFuel
      | S fuel' =>
          let! m := get in
          match m !! node with
          | None => fail NodeNotInMap
          | Some info =>
              if isSome (mQuorumSet info) then rebuild_loop fuel' lookup rest else
              match lookup node with
              | None => rebuild_loop fuel' lookup rest
              | Some q =>
                  let rest := snd (forAllNodes (fun id l => (true, l ++ [id])) (qs_set q) rest) in
                  let! success := expand node (Some q) in
                  check success ExpandFailed ;;!
                  rebuild_loop fuel' lookup rest
              end
          end
      end
  end.

Definition rebuild (fuel : nat) (mLocalNodeID : NodeID) (lookup : NodeID -> option QSetPtr)
    : Tr unit :=
  modify (fun _ => {[ mLocalNodeID :=
    {| mQuorumSet := None; mDistance := 0; mClosestValidators := ∅ |} ]}) ;;!
  rebuild_loop fuel lookup [mLocalNodeID].

Definition findClosestValidators (m : TrackerMap) (nodeOutsideQset : NodeID)
    : result tracker_error (gset NodeID) :=
  if negb (isNodeDefinitelyInQuorum m nodeOutsideQset) then Err NotInQuorum
  else Ok (default ∅ (mClosestValidators <$> m !! nodeOutsideQset)).

(** ** The handlers of [PendingEnvelopes] *)

Record PendingTracker := {
  mQuorumTracker : gmap NodeID NodeInfo;
  mRebuildQuorum : bool;
}.

(** Where [rebuildQuorumTrackerState] finds quorum sets: the local node, the
    latest message of a node, or else what the database remembers. *)
Record QuorumSources := {
  localNodeID : NodeID;
  localQuorumSetHash : Hash;
  latestMessage : NodeID -> option SCPStatement;
  getNodeQuorumSet : NodeID -> option Hash;
  qsetOfHash : Hash -> option QSetPtr;
}.

Definition tracker_lookup (src : QuorumSources) (id : NodeID) : option QSetPtr :=
  if bool_decide (id = localNodeID src) then qsetOfHash src (localQuorumSetHash src)
  else
    let res := latestMessage src id ≫= fun st =>
      qsetOfHash src (getCompanionQuorumSetHashFromStatement st) in
    match res with
    | Some q => Some q
    | None => getNodeQuorumSet src id ≫= qsetOfHash src
    end.

Section pending.
Context (fuel : nat) (mLocalNodeID : NodeID).

Definition rebuildQuorumTrackerState (lookup : NodeID -> option QSetPtr) (p : PendingTracker)
    : result tracker_error PendingTracker :=
  let? (_, m) := rebuild fuel mLocalNodeID lookup (mQuorumTracker p) in
  Ok {| mQuorumTracker := m; mRebuildQuorum := mRebuildQuorum p |}.

Definition pending_isNodeDefinitelyInQuorum (lookup : NodeID -> option QSetPtr) (node : NodeID)
    (p : PendingTracker) : result tracker_error (bool * PendingTracker) :=
  let? p :=
    (if mRebuildQuorum p then
       let? p := rebuildQuorumTrackerState lookup p in
       Ok {| mQuorumTracker := mQuorumTracker p; mRebuildQuorum := false |}
     else Ok p) in
  Ok (isNodeDefinitelyInQuorum (mQuorumTracker p) node, p).

Definition forceRebuildQuorum (p : PendingTracker) : PendingTracker :=
  {| mQuorumTracker := mQuorumTracker p; mRebuildQuorum := true |}.

(** The envelope is from [id]; [qset] is what [getQSet] finds for its hash. *)
Definition envelopeProcessed (id : NodeID) (qset : option QSetPtr) (p : PendingTracker)
    : result tracker_error PendingTracker :=
  let? (b, m) := expand id qset (mQuorumTracker p) in
  Ok {| mQuorumTracker := m; mRebuildQuorum := mRebuildQuorum p || negb b |}.
End pending.

(** ** Walking over the nodes of a quorum set *)

Section walk.
Context {S : Type} (proc : NodeID -> S -> bool * S).

Lemma forAll_loop_app {A} (f : A -> S -> bool * S) (l1 l2 : list A) (s : S) :
  forAll_loop f (l1 ++ l2) s =
  let '(b, s) := forAll_loop f l1 s in if negb b then (false, s) else forAll_loop f l2 s.
Proof.
  revert s. induction l1 as [|x l1 IH]; intros s; cbn; [done|].
  destruct (f x s) as [[] s1]; cbn; [apply IH|done].
Qed.

Lemma forAllNodes_loop (q : SCPQuorumSet) (s : S) :
  forAllNodes proc q s = forAll_loop proc (qset_nodes q) s.
Proof.
  revert s. induction q as [t v i IH] using qset_ind'. intros s.
  rewrite qset_nodes_eq, forAll_loop_app. cbn [forAllNodes].
  destruct (forAll_loop proc v s) as [[] s1]; cbn [negb]; [|done].
  revert s1. induction IH as [|q i Hq _ IHi]; intros s1; cbn [map concat]; [done|].
  rewrite forAll_loop_app. cbn [forAll_loop]. rewrite <- Hq.
  destruct (forAllNodes proc q s1) as [[] s2]; cbn; [apply IHi|done].
Qed.
End walk.

Lemma backlog_nodes (q : SCPQuorumSet) (l : list NodeID) :
  snd (forAllNodes (fun id l => (true, l ++ [id])) q l) = l ++ qset_nodes q.
Proof.
  rewrite forAllNodes_loop. revert l.
  induction (qset_nodes q) as [|x ns IH]; intros l; cbn; [by rewrite app_nil_r|].
  by rewrite IH, <- app_assoc.
Qed.

(** ** What [expand] does to the map *)

Definition out (i : NodeInfo) : list NodeID :=
  match mQuorumSet i with Some q => qset_nodes (qs_set q) | None => [] end.

Definition with_qset (q : QSetPtr) (i : NodeInfo) : NodeInfo :=
  {| mQuorumSet := Some q; mDistance := mDistance i;
     mClosestValidators := mClosestValidators i |}.

(** The paths through an expanded node [id] with data [i] give these closest
    validators to the node [n] it names. *)
Definition through (i : NodeInfo) (n : NodeID) : gset NodeID :=
  if mDistance i =? 0 then {[n]} else mClosestValidators i.

(** The entry of a node [n] named by an expanded node with data [i]. *)
Definition reached (i : NodeInfo) (n : NodeID) (o : option NodeInfo) : NodeInfo :=
  let fresh :=
    {| mQuorumSet := None; mDistance := mDistance i + 1; mClosestValidators := through i n |} in
  match o with
  | None => fresh
  | Some j =>
      if mDistance j <=? mDistance i then j
      else if mDistance i + 1 <? mDistance j then fresh
      else {| mQuorumSet := mQuorumSet j; mDistance := mDistance j;
              mClosestValidators := mClosestValidators j ∪ through i n |}
  end.

(** An entry that may not change any more, but would. *)
Definition blocked (i : NodeInfo) (o : option NodeInfo) : bool :=
  match o with
  | None => false
  | Some j => (mDistance i <? mDistance j) && isSome (mQuorumSet j)
  end.

Section expansion.
Context (id : NodeID) (i : NodeInfo).

Lemma reached_idem (n : NodeID) (o : option NodeInfo) :
  reached i n (Some (reached i n o)) = reached i n o.
Proof. destruct o as [j|]; unfold reached; ztests; cbn in *; try lia; f_equal; set_solver. Qed.

Lemma blocked_reached (n : NodeID) (o : option NodeInfo) :
  blocked i o = false -> blocked i (Some (reached i n o)) = false.
Proof. unfold blocked, reached. destruct o as [j|]; ztests; by rewrite ?andb_false_r. Qed.

(** One call of the function. *)
Lemma expand_node_spec (m : TrackerMap) (n : NodeID) :
  0 <= mDistance i -> m !! id = Some i ->
  expand_node id (mDistance i + 1) n (Ok m) =
  if blocked i (m !! n) then (false, Ok m) else (true, Ok (<[n := reached i n (m !! n)]> m)).
Proof.
  intros Hd Hi.
  assert (forall j, add_closest (mDistance i + 1) id n m j =
    {| mQuorumSet := mQuorumSet j; mDistance := mDistance j;
       mClosestValidators := mClosestValidators j ∪ through i n |}) as Hadd.
  { intros j. unfold add_closest, through. rewrite Hi. cbn.
    destruct (Z.eqb_spec (mDistance i + 1) 1), (Z.eqb_spec (mDistance i) 0); try lia; done. }
  unfold expand_node, blocked, reached.
  destruct (m !! n) as [j|] eqn:Hj; rewrite !Hadd; cbn.
  - destruct (mQuorumSet j) as [q|] eqn:Hq; ztests; rewrite ?insert_id by done; try done.
    do 3 f_equal. by rewrite union_empty_l_L.
  - do 3 f_equal. by rewrite union_empty_l_L.
Qed.

(** All calls: they succeed unless an entry is blocked. *)
Lemma expand_nodes_spec (l : list NodeID) (m : TrackerMap) :
  0 <= mDistance i -> m !! id = Some i ->
  exists m', forAll_loop (expand_node id (mDistance i + 1)) l (Ok m) =
    (forallb (fun n => negb (blocked i (m !! n))) l, Ok m') /\
  (forallb (fun n => negb (blocked i (m !! n))) l = true -> forall n, m' !! n =
    if bool_decide (n ∈ l) then Some (reached i n (m !! n)) else m !! n).
Proof.
  intros Hd. revert m. induction l as [|x l IH]; intros m Hi.
  { exists m. split; [done|]. intros _ n. by rewrite bool_decide_false by apply not_elem_of_nil. }
  cbn [forAll_loop forallb]. rewrite (expand_node_spec m x Hd Hi).
  destruct (blocked i (m !! x)) eqn:Hx; cbn [negb andb]; [by exists m|].
  set (m1 := <[x := reached i x (m !! x)]> m).
  assert (m1 !! id = Some i) as Hi1.
  { unfold m1. destruct (decide (x = id)) as [->|]; [|by rewrite lookup_insert_ne].
    rewrite lookup_insert_eq, Hi. f_equal. unfold reached. by rewrite (proj2 (Z.leb_le _ _)) by lia. }
  destruct (IH m1 Hi1) as (m' & Hm' & Hl).
  assert (forall n, blocked i (m1 !! n) = blocked i (m !! n)) as Hb.
  { intros n. unfold m1. destruct (decide (x = n)) as [<-|]; [|by rewrite lookup_insert_ne].
    by rewrite lookup_insert_eq, Hx, blocked_reached. }
  assert (forallb (fun n => negb (blocked i (m1 !! n))) l =
          forallb (fun n => negb (blocked i (m !! n))) l) as Hf.
  { clear -Hb. induction l as [|y l IHl]; cbn; [done|]. by rewrite Hb, IHl. }
  rewrite Hf in *. exists m'. split; [done|]. intros Ht n. rewrite (Hl Ht). unfold m1.
  destruct (decide (x = n)) as [<-|Hne].
  - rewrite lookup_insert_eq, reached_idem. rewrite (bool_decide_true (x ∈ x :: l)) by left.
    by destruct (bool_decide _).
  - rewrite lookup_insert_ne by done.
    by rewrite (bool_decide_ext (n ∈ x :: l) (n ∈ l)) by (rewrite elem_of_cons; naive_solver).
Qed.
End expansion.

(** ** Consistency

    The map agrees with the quorum sets recorded in it: distances and closest
    validators come from the nodes one step nearer to the local node. *)
Record consistent (local : NodeID) (m : TrackerMap) : Prop := {
  con_local : exists i, m !! local = Some i;
  con_dist : forall n i, m !! n = Some i -> 0 <= mDistance i /\ (mDistance i = 0 <-> n = local);
  con_parent : forall n i, m !! n = Some i -> n <> local ->
    exists a j, m !! a = Some j /\ n ∈ out j /\ mDistance i = mDistance j + 1;
  con_child : forall a j n, m !! a = Some j -> n ∈ out j ->
    exists i, m !! n = Some i /\ mDistance i <= mDistance j + 1;
  con_closest : forall n i v, m !! n = Some i -> v ∈ mClosestValidators i <->
    exists a j, m !! a = Some j /\ n ∈ out j /\ mDistance i = mDistance j + 1 /\ v ∈ through j n;
}.

Lemma out_expanded (i : NodeInfo) (n : NodeID) : n ∈ out i -> isSome (mQuorumSet i) = true.
Proof. unfold out. destruct (mQuorumSet i); [done|]. by intros ?%not_elem_of_nil. Qed.

Section preservation.
Context (local id : NodeID) (i0 : NodeInfo) (q : QSetPtr) (m m' : TrackerMap).
Context (Hcon : consistent local m).
Context (Hid : m !! id = Some i0) (Hq0 : mQuorumSet i0 = None).
Abbreviation i := (with_qset q i0).
Abbreviation L := (qset_nodes (qs_set q)).
Abbreviation m1 := (<[id := i]> m).
Context (Hfree : forall n, n ∈ L -> blocked i (m1 !! n) = false).
Context (Hm' : forall n, m' !! n =
  if bool_decide (n ∈ L) then Some (reached i n (m1 !! n)) else m1 !! n).

(** The entries after the expansion. *)
Inductive entry (n : NodeID) (j' : NodeInfo) : Prop :=
  | entry_kept : m1 !! n = Some j' -> (n ∈ L -> mDistance j' <= mDistance i) -> entry n j'
  | entry_fresh : n ∈ L -> mQuorumSet j' = None -> mDistance j' = mDistance i + 1 ->
      mClosestValidators j' = through i n ->
      (forall j, m1 !! n = Some j -> mQuorumSet j = None /\ mDistance i + 1 < mDistance j) ->
      entry n j'
  | entry_wider j : n ∈ L -> m1 !! n = Some j -> mQuorumSet j' = None ->
      mDistance j' = mDistance i + 1 -> mDistance j = mDistance i + 1 ->
      mClosestValidators j' = mClosestValidators j ∪ through i n -> entry n j'.

Lemma m'_entry (n : NodeID) (j' : NodeInfo) : m' !! n = Some j' -> entry n j'.
Proof.
  rewrite Hm'. case_bool_decide as Hn; [|by intros Hj; apply entry_kept].
  specialize (Hfree n Hn). destruct (m1 !! n) as [j|] eqn:Hj; cbn [reached].
  - unfold blocked in Hfree.
    destruct (Z.leb_spec (mDistance j) (mDistance i)); [by intros [= <-]; apply entry_kept|].
    rewrite (proj2 (Z.ltb_lt (mDistance i) (mDistance j))) in Hfree by lia. cbn in Hfree.
    destruct (mQuorumSet j) eqn:Hqj; [done|].
    destruct (Z.ltb_spec (mDistance i + 1) (mDistance j)); intros [= <-].
    + apply entry_fresh; try done. rewrite Hj. by intros ? [= <-].
    + apply (entry_wider n _ j); cbn in *; try done; lia.
  - intros [= <-]. apply entry_fresh; try done. by rewrite Hj.
Qed.

Lemma m1_entry (a : NodeID) (j : NodeInfo) :
  m1 !! a = Some j -> a = id /\ j = i \/ a <> id /\ m !! a = Some j.
Proof.
  destruct (decide (a = id)) as [->|Hne].
  - rewrite lookup_insert_eq. intros [= <-]. by left.
  - rewrite lookup_insert_ne by done. by right.
Qed.

(** What was there stays, no further away; expanded entries do not change. *)
Lemma m1_stays (n : NodeID) (j : NodeInfo) :
  m1 !! n = Some j -> exists j', m' !! n = Some j' /\ mDistance j' <= mDistance j /\
    (isSome (mQuorumSet j) = true -> j' = j).
Proof.
  intros Hj. rewrite Hm', Hj. case_bool_decide as Hn; [|by exists j].
  specialize (Hfree n Hn). rewrite Hj in Hfree. eexists. split; [done|]. revert Hfree.
  unfold blocked, reached. destruct (isSome (mQuorumSet j)) eqn:E; ztests.
Qed.

Lemma m_stays (n : NodeID) (j : NodeInfo) :
  m !! n = Some j -> exists j', m' !! n = Some j' /\ mDistance j' <= mDistance j /\
    (isSome (mQuorumSet j) = true -> j' = j).
Proof.
  intros Hj. destruct (decide (n = id)) as [->|Hne].
  - rewrite Hid in Hj. injection Hj as <-.
    destruct (m1_stays id i) as (j' & ? & ? & ?); [by rewrite lookup_insert_eq|].
    exists j'. by rewrite Hq0.
  - apply m1_stays. by rewrite lookup_insert_ne.
Qed.

Lemma named_reached (n : NodeID) :
  n ∈ L -> exists j', m' !! n = Some j' /\ mDistance j' <= mDistance i + 1.
Proof.
  intros Hn. rewrite Hm', bool_decide_true by done. eexists. split; [done|].
  unfold reached. destruct (m1 !! n); ztests.
Qed.

Lemma id_stays : m' !! id = Some i.
Proof.
  destruct (m1_stays id i) as (j' & Hj' & _ & E); [by rewrite lookup_insert_eq|].
  by rewrite Hj', E.
Qed.

(** Who names a node. *)
Lemma parents (n : NodeID) (P : NodeInfo -> Prop) :
  (exists a j, m' !! a = Some j /\ n ∈ out j /\ P j) <->
  (exists a j, m !! a = Some j /\ n ∈ out j /\ P j) \/ n ∈ L /\ P i.
Proof.
  split.
  - intros (a & j & Hj & Hn & HP).
    assert (m1 !! a = Some j) as Hj1.
    { destruct (m'_entry a j Hj) as [|? E|? ? ? E]; [done| |];
        apply out_expanded in Hn; by rewrite E in Hn. }
    destruct (m1_entry a j Hj1) as [[-> ->]|[_ ?]]; [by right|left; eauto].
  - intros [(a & j & Hj & Hn & HP)|[Hn HP]].
    + destruct (m_stays a j Hj) as (j' & Hj' & _ & E). exists a, j.
      rewrite Hj', (E (out_expanded j n Hn)). done.
    + exists id, i. split; [apply id_stays|done].
Qed.

(** A known node that [m] names from distance [d] is not further than [d + 1]. *)
Lemma parent_in_m (n : NodeID) (a : NodeID) (j : NodeInfo) :
  m !! a = Some j -> n ∈ out j ->
  exists k, m1 !! n = Some k /\ mDistance k <= mDistance j + 1.
Proof.
  intros Hj Hn. destruct (con_child _ _ Hcon a j n Hj Hn) as (k & Hk & Hle).
  destruct (decide (n = id)) as [->|Hne].
  - rewrite lookup_insert_eq. rewrite Hid in Hk. injection Hk as <-. by exists i.
  - rewrite lookup_insert_ne by done. by exists k.
Qed.

(** Distances and closest validators of [m1] are those of [m]. *)
Lemma m1_old (n : NodeID) (k : NodeInfo) :
  m1 !! n = Some k -> exists k0, m !! n = Some k0 /\ mDistance k0 = mDistance k /\
    mClosestValidators k0 = mClosestValidators k.
Proof.
  intros [[-> ->]|[_ Hk]]%m1_entry; [by exists i0|by exists k].
Qed.

Lemma preserved_closest (n : NodeID) (j' : NodeInfo) (v : NodeID) :
  m' !! n = Some j' -> v ∈ mClosestValidators j' <->
    exists a j, m' !! a = Some j /\ n ∈ out j /\ mDistance j' = mDistance j + 1 /\ v ∈ through j n.
Proof.
  intros Hj'. rewrite (parents n (fun j => mDistance j' = mDistance j + 1 /\ v ∈ through j n)).
  destruct (m'_entry n j' Hj') as [Hk Hd|Hn _ Hd Hc Hold|k Hn Hk _ Hd Hdk Hc].
  - destruct (m1_old n j' Hk) as (k0 & Hk0 & Ed & Ec).
    rewrite <- Ec, <- Ed, (con_closest _ _ Hcon n k0 v Hk0). split; [by left|].
    intros [?|(Hn & ? & _)]; [done|]. specialize (Hd Hn). lia.
  - rewrite Hc. split; [by right|]. intros [(a & j & Hj & Hna & Hdj & _)|(_ & _ & ?)]; [|done].
    destruct (parent_in_m n a j Hj Hna) as (k & Hk & Hle). destruct (Hold k Hk). lia.
  - destruct (m1_old n k Hk) as (k0 & Hk0 & Ed & Ec).
    rewrite Hc, elem_of_union, <- Ec, (con_closest _ _ Hcon n k0 v Hk0).
    replace (mDistance j') with (mDistance k0) by lia.
    split; intros [?|H]; [by left| |by left|]; right; [|by destruct H as (_ & _ & ?)].
    split; [done|]. split; [lia|done].
Qed.

Lemma preserved : consistent local m'.
Proof.
  assert (0 <= mDistance i) as Hd0 by (by apply (con_dist _ _ Hcon id i0)).
  destruct (con_local _ _ Hcon) as (il & Hil).
  split.
  - destruct (m_stays local il Hil) as (j' & ? & _). eauto.
  - intros n j' Hj'. destruct (m'_entry n j' Hj') as [Hk _|Hn _ Hd _ Hold|k Hn Hk _ Hd Hdk _].
    + destruct (m1_old n j' Hk) as (k0 & Hk0 & <- & _). by apply (con_dist _ _ Hcon).
    + split; [lia|]. split; [lia|]. intros ->.
      destruct (m_stays local il Hil) as (x & Hx & Hle & _).
      assert (mDistance il = 0) by (by apply (con_dist _ _ Hcon local il Hil)).
      rewrite Hj' in Hx. injection Hx as <-. lia.
    + destruct (m1_old n k Hk) as (k0 & Hk0 & Ed & _).
      pose proof (con_dist _ _ Hcon n k0 Hk0). replace (mDistance j') with (mDistance k0) by lia. done.
  - intros n j' Hj' Hne.
    apply (parents n (fun j => mDistance j' = mDistance j + 1)).
    destruct (m'_entry n j' Hj') as [Hk _|Hn _ Hd _ _|k Hn Hk _ Hd _ _]; [|by right..].
    destruct (m1_old n j' Hk) as (k0 & Hk0 & <- & _). left. by apply (con_parent _ _ Hcon).
  - intros a j n Hj Hn.
    assert (exists a j0, m' !! a = Some j0 /\ n ∈ out j0 /\ j0 = j) as Hp by eauto.
    apply (parents n (fun j0 => j0 = j)) in Hp as [(b & j0 & Hj0 & Hn0 & ->)|[HnL <-]].
    + destruct (con_child _ _ Hcon b j n Hj0 Hn0) as (k & Hk & Hle).
      destruct (m_stays n k Hk) as (k' & Hk' & Hle' & _). exists k'. split; [done|lia].
    + by apply named_reached.
  - intros n j' v. apply preserved_closest.
Qed.
End preservation.

(** [expand] of a known node without a quorum set. *)
Lemma expand_fresh (local id : NodeID) (i0 : NodeInfo) (q : QSetPtr) (m : TrackerMap) :
  consistent local m -> m !! id = Some i0 -> mQuorumSet i0 = None ->
  let i := with_qset q i0 in
  let free := forallb (fun n => negb (blocked i (<[id := i]> m !! n))) (qset_nodes (qs_set q)) in
  exists m', expand id (Some q) m = Ok (free, m') /\
  (free = true -> consistent local m' /\ forall n, m' !! n =
     if bool_decide (n ∈ qset_nodes (qs_set q))
     then Some (reached i n (<[id := i]> m !! n)) else <[id := i]> m !! n).
Proof.
  intros Hcon Hid Hq0 i free.
  assert (0 <= mDistance i) as Hd by (by apply (con_dist _ _ Hcon id i0)).
  destruct (expand_nodes_spec id i (qset_nodes (qs_set q)) (<[id := i]> m) Hd) as (m' & Hm' & Hl).
  { by rewrite lookup_insert_eq. }
  exists m'. split.
  - unfold expand, bind, get, deref, ret. rewrite Hid, Hq0, forAllNodes_loop.
    change (mDistance i0) with (mDistance i). fold (with_qset q i0).
    change {| mQuorumSet := Some q; mDistance := mDistance i;
              mClosestValidators := mClosestValidators i0 |} with i.
    by rewrite Hm'.
  - intros Hf. split; [|by apply Hl].
    apply (preserved local id i0 q m m' Hcon Hid Hq0); [|by apply Hl].
    intros n Hn. unfold free in Hf. rewrite forallb_forall in Hf.
    apply negb_true_iff, Hf. by apply list_elem_of_In.
Qed.

(** ** What the tracker should know *)

Definition knows (lookup : NodeID -> option QSetPtr) (a b : NodeID) : Prop :=
  exists p, lookup a = Some p /\ b ∈ qset_nodes (qs_set p).

(** The map holds the nodes the local node depends on, each with its quorum
    set, its distance, and the members of the local quorum set on the shortest
    paths to it. *)
Definition tracks (local : NodeID) (lookup : NodeID -> option QSetPtr) (m : TrackerMap) : Prop :=
  (forall n, is_Some (m !! n) <-> rtc (knows lookup) local n) /\
  forall n i, m !! n = Some i -> mQuorumSet i = lookup n /\
    exists d, mDistance i = Z.of_nat d /\ nsteps (knows lookup) d local n /\
      (forall k, nsteps (knows lookup) k local n -> d <= k)%nat /\
      forall v, v ∈ mClosestValidators i <->
        d <> 0%nat /\ knows lookup local v /\ nsteps (knows lookup) (pred d) v n.

Definition complete (local : NodeID) (lookup : NodeID -> option QSetPtr) (m : TrackerMap) : Prop :=
  consistent local m /\ forall n i, m !! n = Some i -> mQuorumSet i = lookup n.

Section complete.
Context (local : NodeID) (lookup : NodeID -> option QSetPtr) (m : TrackerMap).
Context (Hcon : consistent local m).
Context (Hall : forall n i, m !! n = Some i -> mQuorumSet i = lookup n).

Lemma out_knows (a n : NodeID) (j : NodeInfo) : m !! a = Some j -> n ∈ out j <-> knows lookup a n.
Proof.
  intros Hj. unfold out, knows. rewrite (Hall a j Hj). destruct (lookup a) as [p|].
  - split; [by exists p|]. by intros (? & [= <-] & ?).
  - split; [by intros ?%not_elem_of_nil|]. by intros (? & ? & _).
Qed.

Lemma distance_path (d : nat) (n : NodeID) (i : NodeInfo) :
  m !! n = Some i -> mDistance i = Z.of_nat d -> nsteps (knows lookup) d local n.
Proof.
  revert n i. induction d as [|d IH]; intros n i Hi Hd.
  - apply (con_dist _ _ Hcon n i Hi) in Hd as ->. constructor.
  - destruct (con_parent _ _ Hcon n i Hi) as (a & j & Hj & Hn & E).
    { intros ->. assert (mDistance i = 0) by (by apply (con_dist _ _ Hcon local i)). lia. }
    apply (nsteps_r d local a n); [apply (IH a j Hj); lia|by apply (out_knows a n j)].
Qed.

Lemma path_distance (k : nat) (n : NodeID) :
  nsteps (knows lookup) k local n -> exists i, m !! n = Some i /\ mDistance i <= Z.of_nat k.
Proof.
  revert n. induction k as [|k IH]; intros n Hn.
  - inversion Hn; subst. destruct (con_local _ _ Hcon) as (i & Hi). exists i. split; [done|].
    assert (mDistance i = 0) by (by apply (con_dist _ _ Hcon n i)). lia.
  - apply nsteps_inv_r in Hn as (a & Ha & Hn). destruct (IH a Ha) as (j & Hj & Hle).
    apply (out_knows a n j Hj) in Hn. destruct (con_child _ _ Hcon a j n Hj Hn) as (i & Hi & ?).
    exists i. split; [done|lia].
Qed.

Lemma closest_paths (d : nat) (n : NodeID) (i : NodeInfo) (v : NodeID) :
  m !! n = Some i -> mDistance i = Z.of_nat d ->
  v ∈ mClosestValidators i <->
    d <> 0%nat /\ knows lookup local v /\ nsteps (knows lookup) (pred d) v n.
Proof.
  revert n i v. induction d as [|d IH]; intros n i v Hi Hd; rewrite (con_closest _ _ Hcon n i v Hi).
  { split; [|by intros [? _]]. intros (a & j & Hj & _ & E & _).
    pose proof (con_dist _ _ Hcon a j Hj). lia. }
  cbn [pred]. split.
  - intros (a & j & Hj & Hn & E & Hv). split; [done|]. unfold through in Hv.
    pose proof (con_dist _ _ Hcon a j Hj) as [_ Hz]. apply (out_knows a n j Hj) in Hn.
    destruct (Z.eqb_spec (mDistance j) 0) as [H0|H0].
    + apply elem_of_singleton in Hv as ->. apply Hz in H0 as E0. subst a. split; [done|].
      assert (d = 0)%nat as -> by lia. constructor.
    + apply (IH a j v Hj) in Hv as (Hd' & Hv & Hp); [|lia]. split; [done|].
      destruct d as [|d]; [done|]. by apply (nsteps_r d v a n).
  - intros (_ & Hv & Hp). destruct d as [|d].
    + inversion Hp; subst. destruct (con_local _ _ Hcon) as (il & Hil).
      pose proof (proj2 (proj2 (con_dist _ _ Hcon local il Hil)) eq_refl) as E.
      exists local, il. split; [done|]. split; [by apply (out_knows local n il Hil)|].
      split; [lia|]. unfold through. rewrite E. by apply elem_of_singleton.
    + apply nsteps_inv_r in Hp as (a & Ha & Hn).
      destruct (path_distance (S d) a) as (j & Hj & Hle); [by econstructor|].
      pose proof Hn as Hn'. apply (out_knows a n j Hj) in Hn'.
      destruct (con_child _ _ Hcon a j n Hj Hn') as (i' & Hi' & Hle').
      rewrite Hi in Hi'. injection Hi' as <-.
      exists a, j. split; [done|]. split; [done|]. split; [lia|]. unfold through.
      destruct (Z.eqb_spec (mDistance j) 0); [lia|]. apply (IH a j v Hj); [lia|]. done.
Qed.

Lemma complete_tracks : tracks local lookup m.
Proof.
  assert (forall n i, m !! n = Some i -> exists d, mDistance i = Z.of_nat d) as Hnat.
  { intros n i Hi. exists (Z.to_nat (mDistance i)).
    pose proof (con_dist _ _ Hcon n i Hi). lia. }
  split.
  - intros n. split.
    + intros (i & Hi). destruct (Hnat n i Hi) as (d & Hd).
      apply rtc_nsteps. exists d. by apply (distance_path d n i).
    + intros (k & Hk)%rtc_nsteps. destruct (path_distance k n Hk) as (i & ? & _). eauto.
  - intros n i Hi. split; [by apply Hall|]. destruct (Hnat n i Hi) as (d & Hd). exists d.
    split; [done|]. split; [by apply (distance_path d n i)|]. split.
    + intros k Hk. destruct (path_distance k n Hk) as (i' & Hi' & Hle).
      rewrite Hi in Hi'. injection Hi' as <-. lia.
    + intros v. by apply closest_paths.
Qed.
End complete.

(** There is one such map. *)
Lemma tracks_unique (local : NodeID) (lookup : NodeID -> option QSetPtr) (m1 m2 : TrackerMap) :
  tracks local lookup m1 -> tracks local lookup m2 -> m1 = m2.
Proof.
  intros [D1 T1] [D2 T2]. apply map_eq. intros n.
  destruct (m1 !! n) as [i|] eqn:H1, (m2 !! n) as [j|] eqn:H2.
  - destruct (T1 n i H1) as (Q1 & d1 & E1 & P1 & L1 & C1).
    destruct (T2 n j H2) as (Q2 & d2 & E2 & P2 & L2 & C2).
    assert (d1 = d2) as -> by (apply L1 in P2; apply L2 in P1; lia).
    destruct i, j; cbn in *. f_equal. f_equal; [congruence..|].
    apply set_eq. intros v. by rewrite C1, C2.
  - assert (is_Some (m2 !! n)) as [? ?] by (apply D2, D1; eauto). congruence.
  - assert (is_Some (m1 !! n)) as [? ?] by (apply D1, D2; eauto). congruence.
  - done.
Qed.

(** ** The breadth-first search *)

(** The nodes that can be found are in the finite set [U]. *)
Record bounded (local : NodeID) (lookup : NodeID -> option QSetPtr) (U : list NodeID) : Prop := {
  bounded_nodup : NoDup U;
  bounded_local : local ∈ U;
  bounded_closed : forall a b, a ∈ U -> knows lookup a b -> b ∈ U;
}.

Definition degree (lookup : NodeID -> option QSetPtr) (n : NodeID) : nat :=
  match lookup n with Some p => length (qset_nodes (qs_set p)) | None => 0 end.

(** The rounds the search needs: every node is pushed once for every time it is
    named. *)
Definition rebuild_rounds (lookup : NodeID -> option QSetPtr) (U : list NodeID) : nat :=
  S (sum_list (degree lookup <$> U)).

Section bfs.
Context (local : NodeID) (lookup : NodeID -> option QSetPtr) (U : list NodeID).
Context (HU : bounded local lookup U).

Definition expanded (m : TrackerMap) (n : NodeID) : bool := isSome (m !! n ≫= mQuorumSet).

Definition unexplored (m : TrackerMap) : nat :=
  sum_list ((fun n => if expanded m n then 0%nat else degree lookup n) <$> U).

(** The search is at distance [k]: [B1] is the rest of the backlog of that
    distance, [B2] what has been pushed since. *)
Record bfs (k : Z) (B1 B2 : list NodeID) (m : TrackerMap) : Prop := {
  bfs_con : consistent local m;
  bfs_old : forall n i p, m !! n = Some i -> mQuorumSet i = Some p ->
    lookup n = Some p /\ mDistance i <= k;
  bfs_far : forall n i, m !! n = Some i -> mDistance i <= k + 1 /\ n ∈ U;
  bfs_fresh : forall n i p, m !! n = Some i -> mQuorumSet i = None -> lookup n = Some p ->
    k <= mDistance i /\ n ∈ B1 ++ B2 /\ (mDistance i = k -> n ∈ B1);
  bfs_near : forall n i, n ∈ B1 -> m !! n = Some i -> mDistance i <= k;
  bfs_known : forall n, n ∈ B1 ++ B2 -> is_Some (m !! n);
}.

Lemma bfs_shift (k : Z) (B2 : list NodeID) (m : TrackerMap) :
  bfs k [] B2 m -> bfs (k + 1) B2 [] m.
Proof.
  intros [Hc Ho Hf Hr Hn Hk]. rewrite app_nil_l in *. split.
  - done.
  - intros n i p Hi Hp. destruct (Ho n i p Hi Hp). split; [done|lia].
  - intros n i Hi. destruct (Hf n i Hi). split; [lia|done].
  - intros n i p Hi Hq Hl. destruct (Hr n i p Hi Hq Hl) as (? & Hin & Hz).
    rewrite app_nil_r. destruct (decide (mDistance i = k)) as [E|]; [|by split; [lia|]].
    by apply Hz in E as ?%not_elem_of_nil.
  - intros n i _ Hi. by destruct (Hf n i Hi).
  - by rewrite app_nil_r.
Qed.

Lemma bfs_skip (k : Z) (n : NodeID) (i : NodeInfo) (B1 B2 : list NodeID) (m : TrackerMap) :
  bfs k (n :: B1) B2 m -> m !! n = Some i ->
  isSome (mQuorumSet i) = true \/ lookup n = None -> bfs k B1 B2 m.
Proof.
  intros [Hc Ho Hf Hr Hn Hk] Hi Hs. split; try done.
  - intros x j p Hj Hq Hl. destruct (Hr x j p Hj Hq Hl) as (? & Hin & Hz).
    assert (x <> n) as Hne.
    { intros ->. rewrite Hi in Hj. injection Hj as ->. rewrite Hq in Hs. destruct Hs; [done|congruence]. }
    split; [done|]. cbn in Hin. rewrite elem_of_cons in Hin. split; [naive_solver|].
    intros [->|?]%Hz%elem_of_cons; done.
  - intros x j Hx. apply Hn. by right.
  - intros x Hx. apply Hk. by right.
Qed.

Lemma unexplored_expand (n : NodeID) (m m' : TrackerMap) :
  n ∈ U -> expanded m n = false -> expanded m' n = true ->
  (forall x, x <> n -> expanded m' x = expanded m x) ->
  unexplored m = (unexplored m' + degree lookup n)%nat.
Proof.
  intros Hn H0 H1 Hx. pose proof (bounded_nodup _ _ _ HU) as Hnd. unfold unexplored. revert Hn Hnd.
  assert (forall l : list NodeID, n ∉ l ->
    (fun x => if expanded m' x then 0%nat else degree lookup x) <$> l =
    (fun x => if expanded m x then 0%nat else degree lookup x) <$> l) as Hl.
  { intros l Hl. apply list_fmap_ext. intros j x Hj. rewrite Hx; [done|].
    intros ->. apply Hl. by eapply list_elem_of_lookup_2. }
  clear HU. induction U as [|x l IH]; [by intros ?%not_elem_of_nil|].
  rewrite elem_of_cons, NoDup_cons. intros [->|Hn] [Hni Hnd]; cbn.
  - rewrite H0, H1, (Hl l Hni). lia.
  - rewrite (Hx x) by (intros ->; done). rewrite (IH Hn Hnd). lia.
Qed.

(** Expanding the next node of the backlog: it cannot fail. *)
Lemma bfs_expand (k : Z) (n : NodeID) (i0 : NodeInfo) (q : QSetPtr) (B1 B2 : list NodeID)
    (m : TrackerMap) :
  bfs k (n :: B1) B2 m -> m !! n = Some i0 -> mQuorumSet i0 = None -> lookup n = Some q ->
  exists m', expand n (Some q) m = Ok (true, m') /\ bfs k B1 (B2 ++ qset_nodes (qs_set q)) m' /\
    unexplored m = (unexplored m' + length (qset_nodes (qs_set q)))%nat.
Proof.
  intros Hb Hi Hq0 Hl. pose proof Hb as [Hc Ho Hf Hr Hn Hk].
  destruct (Hr n i0 q Hi Hq0 Hl) as (Hk0 & _ & _).
  assert (mDistance i0 = k) as Hd by (specialize (Hn n i0 ltac:(left) Hi); lia).
  destruct (expand_fresh local n i0 q m Hc Hi Hq0) as (m' & Hm' & Hok).
  set (i := with_qset q i0) in *.
  assert (mDistance i = k) as Hdi by done.
  assert (forall x, blocked i (<[n := i]> m !! x) = false) as Hfree.
  { intros x. destruct (decide (x = n)) as [->|Hne].
    - rewrite lookup_insert_eq. unfold blocked. by rewrite Z.ltb_irrefl.
    - rewrite lookup_insert_ne by done. destruct (m !! x) as [j|] eqn:Hj; [|done].
      unfold blocked. destruct (mQuorumSet j) as [p|] eqn:Hp; [|by rewrite andb_false_r].
      destruct (Ho x j p Hj Hp). by rewrite (proj2 (Z.ltb_ge _ _)) by lia. }
  assert (forallb (fun x => negb (blocked i (<[n := i]> m !! x))) (qset_nodes (qs_set q)) = true)
    as Hall by (apply forallb_forall; intros; by rewrite Hfree).
  rewrite Hall in Hm'. destruct (Hok Hall) as [Hc' Hlk]. clear Hok. exists m'. split; [done|].
  assert (forall x j', m' !! x = Some j' -> x = n /\ j' = i \/
    x <> n /\ (exists j, m !! x = Some j /\ mQuorumSet j' = mQuorumSet j /\
                         mDistance j' = mDistance j) \/
    x <> n /\ m !! x = None /\ mQuorumSet j' = None /\ mDistance j' = k + 1 /\
      x ∈ qset_nodes (qs_set q)) as Hent.
  { intros x j' Hj'.
    destruct (m'_entry n i0 q m m' (fun x _ => Hfree x) Hlk x j' Hj')
      as [Hx _|Hx Hq Hdx _ Hold|j Hx Hj Hq Hdx Hdj _].
    - apply m1_entry in Hx as [?|[? ?]]; [by left|]. right; left. eauto.
    - destruct (decide (x = n)) as [->|Hne].
      { rewrite lookup_insert_eq in Hold. by destruct (Hold i eq_refl). }
      rewrite lookup_insert_ne in Hold by done. destruct (m !! x) as [j|] eqn:Hj.
      + destruct (Hold j eq_refl), (Hf x j Hj). cbn in *. lia.
      + right; right. split_and!; try done. cbn in *. lia.
    - apply m1_entry in Hj as [[-> ->]|[Hne Hj]]; [cbn in *; lia|]. right; left. split; [done|].
      exists j. split; [done|]. split; [|congruence].
      specialize (Hfree x). rewrite lookup_insert_ne, Hj in Hfree by done. unfold blocked in Hfree.
      rewrite (proj2 (Z.ltb_lt _ _)) in Hfree by (cbn in *; lia). cbn in Hfree.
      by destruct (mQuorumSet j). }
  assert (m' !! n = Some i) as Hni by (by apply (id_stays n i0 q m m' (fun x _ => Hfree x) Hlk)).
  assert (forall x, is_Some (m !! x) -> is_Some (m' !! x)) as Hdom.
  { intros x (j & Hj).
    destruct (m_stays n i0 q m m' Hi Hq0 (fun x _ => Hfree x) Hlk x j Hj) as (? & ? & _). eauto. }
  split; [split; [done|..]|].
  - intros x j' p Hj' Hp. destruct (Hent x j' Hj') as [[-> ->]|[(Hne & j & Hj & Eq & Ed)|(_ & _ & E & _)]].
    + cbn in Hp. injection Hp as <-. split; [done|lia].
    + rewrite Ed. apply (Ho x j p Hj). congruence.
    + congruence.
  - intros x j' Hj'. destruct (Hent x j' Hj') as [[-> ->]|[(Hne & j & Hj & Eq & Ed)|(_ & _ & E & Ed & Hx)]].
    + split; [lia|]. by apply (Hf n i0).
    + rewrite Ed. by apply Hf.
    + split; [lia|]. apply (bounded_closed _ _ _ HU n x); [by apply (Hf n i0)|by exists q].
  - intros x j' p Hj' Hqx Hlx.
    destruct (Hent x j' Hj') as [[-> ->]|[(Hne & j & Hj & Eq & Ed)|(Hne & _ & E & Ed & Hx)]]; [done| |].
    + destruct (Hr x j p Hj) as (? & Hin & Hz); [congruence|done|]. rewrite Ed. split; [done|].
      cbn in Hin. rewrite elem_of_cons in Hin. split.
      * destruct Hin as [?|Hin]; [done|]. rewrite app_assoc. apply elem_of_app. by left.
      * intros [->|?]%Hz%elem_of_cons; done.
    + split; [lia|]. split; [|lia]. rewrite !elem_of_app. auto.
  - intros x j' Hx Hj'. destruct (Hent x j' Hj') as [[-> ->]|[(Hne & j & Hj & Eq & Ed)|(_ & E & _)]]; [lia| |].
    + rewrite Ed. apply (Hn x j); [by right|done].
    + destruct (Hk x) as (? & ?); [apply elem_of_app; left; by right|congruence].
  - intros x. rewrite app_assoc, elem_of_app. intros [Hx|Hx].
    + apply Hdom, Hk. by right.
    + destruct (named_reached n i0 q m m' Hlk x Hx) as (? & ? & _). eauto.
  - replace (length (qset_nodes (qs_set q))) with (degree lookup n) by (unfold degree; by rewrite Hl).
    apply unexplored_expand; unfold expanded; rewrite ?Hi, ?Hni; cbn; rewrite ?Hq0; try done.
    + by apply (Hf n i0).
    + intros x Hne. destruct (m' !! x) as [j'|] eqn:Hj'; cbn.
      * destruct (Hent x j' Hj') as [[-> _]|[(_ & j & -> & -> & _)|(_ & -> & -> & _)]]; done.
      * destruct (m !! x) as [j|] eqn:Hj; [|done].
        destruct (Hdom x) as (? & ?); [eauto|congruence].
Qed.

Lemma rebuild_loop_spec (fuel : nat) (k : Z) (B1 B2 : list NodeID) (m : TrackerMap) :
  bfs k B1 B2 m -> (length (B1 ++ B2) + unexplored m <= fuel)%nat ->
  exists m', rebuild_loop fuel lookup (B1 ++ B2) m = Ok (tt, m') /\ complete local lookup m'.
Proof.
  revert k B1 B2 m. induction fuel as [|fuel IH]; intros k B1 B2 m Hb Hf.
  all: assert (B1 ++ B2 = [] -> exists m', rebuild_loop 0 lookup [] m = Ok (tt, m') /\
         complete local lookup m') as Hend
    by (intros Hn; exists m; split; [done|]; destruct Hb as [Hc Ho _ Hr _ _]; split; [done|];
        intros n i Hi; destruct (mQuorumSet i) as [p|] eqn:Hp;
        [by destruct (Ho n i p Hi Hp)|]; destruct (lookup n) as [p|] eqn:Hl; [|done];
        destruct (Hr n i p Hi Hp Hl) as (_ & Hin & _); rewrite Hn in Hin;
        by apply not_elem_of_nil in Hin).
  - destruct (B1 ++ B2) as [|x l]; [by apply Hend|]. cbn in Hf. lia.
  - assert (forall k n B1 B2, bfs k (n :: B1) B2 m ->
      (length ((n :: B1) ++ B2) + unexplored m <= S fuel)%nat ->
      exists m', rebuild_loop (S fuel) lookup ((n :: B1) ++ B2) m = Ok (tt, m') /\
        complete local lookup m') as Hstep.
    { clear k B1 B2 Hb Hf Hend. intros k n B1 B2 Hb Hf.
      destruct (bfs_known _ _ _ _ Hb n) as (i & Hi); [left|].
      cbn [app] in *. cbn [rebuild_loop length] in *. unfold bind, get. rewrite Hi.
      destruct (mQuorumSet i) as [p|] eqn:Hp; cbn [isSome].
      { apply (IH k); [|lia]. apply (bfs_skip k n i); [done..|]. left. by rewrite Hp. }
      destruct (lookup n) as [q|] eqn:Hl.
      - destruct (bfs_expand k n i q B1 B2 m Hb Hi Hp Hl) as (m' & -> & Hb' & Hpend).
        cbn [check]. rewrite backlog_nodes, <- app_assoc. apply (IH k); [done|].
        rewrite app_assoc, length_app. lia.
      - apply (IH k); [|lia]. apply (bfs_skip k n i); [done..|]. by right. }
    destruct B1 as [|n B1]; [|by apply (Hstep k)].
    destruct B2 as [|n B2]; [by apply Hend|].
    apply bfs_shift in Hb. replace ([] ++ n :: B2) with ((n :: B2) ++ []) in * by apply app_nil_r.
    by apply (Hstep (k + 1)).
Qed.

Lemma rebuild_spec (fuel : nat) (m0 : TrackerMap) :
  (rebuild_rounds lookup U <= fuel)%nat ->
  exists m, rebuild fuel local lookup m0 = Ok (tt, m) /\ complete local lookup m.
Proof.
  intros Hf. set (i := {| mQuorumSet := None; mDistance := 0; mClosestValidators := ∅ |}).
  assert (forall n j, ({[local := i]} : gmap NodeID NodeInfo) !! n = Some j -> n = local /\ j = i) as Hs.
  { intros n j. rewrite lookup_singleton_Some. naive_solver. }
  apply (rebuild_loop_spec fuel 0 [local] []).
  - split; [split|..].
    + exists i. by rewrite lookup_singleton_eq.
    + intros n j [-> ->]%Hs. done.
    + intros n j [-> ->]%Hs. done.
    + intros a j n [-> ->]%Hs Hn. by apply not_elem_of_nil in Hn.
    + intros n j v [-> ->]%Hs. split; [by intros ?%elem_of_empty|].
      intros (a & j & [-> ->]%Hs & Hn & _). by apply not_elem_of_nil in Hn.
    + intros n j p [-> ->]%Hs Hp. done.
    + intros n j [-> ->]%Hs. split; [cbn; lia|]. apply (bounded_local _ _ _ HU).
    + intros n j p [-> ->]%Hs _ _. split; [done|]. split; [left|]. intros _. left.
    + intros n j _ [-> ->]%Hs. done.
    + intros n ->%list_elem_of_singleton. rewrite lookup_singleton_eq. eauto.
  - cbn [length app]. unfold rebuild_rounds in Hf. fold i.
    assert (unexplored {[local := i]} <= sum_list (degree lookup <$> U))%nat; [|lia].
    unfold unexplored. clear. generalize ({[local := i]} : gmap NodeID NodeInfo). intros m.
    induction U as [|n l IH]; cbn; [lia|]. destruct (expanded m n); lia.
Qed.
End bfs.

(** Rebuilding the tracker terminates and is exact: whatever the tracker
    held, and for any assignment of quorum sets that names finitely many nodes,
    the search returns without an exception within the given number of rounds;
    the map it leaves holds exactly the nodes the local node depends on,
    directly or through others, with their quorum sets, their distances along
    the shortest paths, and as closest validators the members of the local
    quorum set on those shortest paths. *)
Theorem rebuild_correct (fuel : nat) (local : NodeID) (lookup : NodeID -> option QSetPtr)
    (U : list NodeID) (m0 : TrackerMap) :
  bounded local lookup U -> (rebuild_rounds lookup U <= fuel)%nat ->
  exists m, rebuild fuel local lookup m0 = Ok (tt, m) /\ tracks local lookup m.
Proof.
  intros HU Hf. destruct (rebuild_spec local lookup U HU fuel m0 Hf) as (m & Hm & Hc & Hall).
  exists m. split; [done|by apply complete_tracks].
Qed.

(** ** The tracker of a node over time *)

(** What the quorum sets recorded in the map say is true of [lookup]. *)
Definition sound (local : NodeID) (lookup : NodeID -> option QSetPtr) (m : TrackerMap) : Prop :=
  consistent local m /\
  forall n i p, m !! n = Some i -> mQuorumSet i = Some p -> lookup n = Some p.

Lemma sound_reachable (local : NodeID) (lookup : NodeID -> option QSetPtr) (m : TrackerMap)
    (n : NodeID) (i : NodeInfo) :
  sound local lookup m -> m !! n = Some i -> rtc (knows lookup) local n.
Proof.
  intros [Hc Hs].
  assert (forall d n i, m !! n = Some i -> mDistance i = Z.of_nat d -> rtc (knows lookup) local n)
    as H.
  { clear n i. induction d as [|d IH]; intros n i Hi Hd.
    - by apply (con_dist _ _ Hc n i Hi) in Hd as ->.
    - destruct (con_parent _ _ Hc n i Hi) as (a & j & Hj & Hn & E).
      { intros ->. assert (mDistance i = 0) by (by apply (con_dist _ _ Hc local i)). lia. }
      apply (rtc_r _ a); [apply (IH a j Hj); lia|].
      unfold out in Hn. destruct (mQuorumSet j) as [p|] eqn:Hp; [|by apply not_elem_of_nil in Hn].
      exists p. eauto. }
  intros Hi. apply (H (Z.to_nat (mDistance i)) n i Hi).
  pose proof (con_dist _ _ Hc n i Hi). lia.
Qed.

(** The quorum set of the last message of [id] is [q]. *)
Definition learn (id : NodeID) (q : QSetPtr) (lookup : NodeID -> option QSetPtr) (n : NodeID)
    : option QSetPtr :=
  if bool_decide (n = id) then Some q else lookup n.

(** A pointer stands for one object. *)
Definition valid_ptr (heap : Z -> SCPQuorumSet) (p : QSetPtr) : Prop := qs_set p = heap (qs_ptr p).

Lemma same_ptr (heap : Z -> SCPQuorumSet) (p q : QSetPtr) :
  valid_ptr heap p -> valid_ptr heap q -> qs_ptr p = qs_ptr q -> p = q.
Proof. destruct p, q; unfold valid_ptr; cbn. congruence. Qed.

(** [expand] keeps the map sound when it succeeds. *)
Lemma expand_sound (local id : NodeID) (q : QSetPtr) (lookup : NodeID -> option QSetPtr)
    (heap : Z -> SCPQuorumSet) (m : TrackerMap) :
  sound local lookup m -> valid_ptr heap q -> (forall n p, lookup n = Some p -> valid_ptr heap p) ->
  exists b m', expand id (Some q) m = Ok (b, m') /\ (b = true -> sound local (learn id q lookup) m').
Proof.
  intros [Hc Hs] Hq Hh.
  destruct (m !! id) as [i0|] eqn:Hid; [destruct (mQuorumSet i0) as [old|] eqn:Hq0|].
  - exists (qs_ptr old =? qs_ptr q), m. unfold expand, bind, deref, get, ret.
    rewrite Hid, Hq0. split; [done|]. intros Hp%Z.eqb_eq. split; [done|]. intros n i p Hi Hpi.
    unfold learn. pose proof (Hs _ _ _ Hid Hq0) as Hl. case_bool_decide; [subst n|by eapply Hs].
    rewrite (same_ptr heap old q) in Hq0; [congruence|by eapply Hh|done|done].
  - destruct (expand_fresh local id i0 q m Hc Hid Hq0) as (m' & Hm' & Hok).
    eexists _, m'. split; [exact Hm'|]. intros Hf. destruct (Hok Hf) as [Hc' Hlk]. split; [done|].
    intros n j' p Hj' Hp. unfold learn.
    assert (forall n, n ∈ qset_nodes (qs_set q) ->
      blocked (with_qset q i0) (<[id := with_qset q i0]> m !! n) = false) as Hfree.
    { intros x Hx. rewrite forallb_forall in Hf. by apply negb_true_iff, Hf, list_elem_of_In. }
    destruct (m'_entry id i0 q m m' Hfree Hlk n j' Hj') as [Hk _|_ E _ _ _|k _ _ E _ _ _];
      [|congruence..].
    apply m1_entry in Hk as [[-> ->]|[Hne Hk]].
    + rewrite bool_decide_true by done. cbn in Hp. congruence.
    + rewrite bool_decide_false by done. by eapply Hs.
  - exists false, m. unfold expand, bind, deref, get, ret. by rewrite Hid.
Qed.

(** What happens to the tracker: a message is processed, whose quorum set
    becomes what [lookup] finds for its sender; the quorum sets known change in
    some other way, which [forceRebuildQuorum] announces; a node is asked for. *)
Inductive tracker_event :=
  | Processed (id : NodeID) (q : QSetPtr)
  | Forced (lookup : NodeID -> option QSetPtr)
  | Asked (n : NodeID).

Definition known_after (ev : tracker_event) (lookup : NodeID -> option QSetPtr)
    : NodeID -> option QSetPtr :=
  match ev with Processed id q => learn id q lookup | Forced l => l | Asked _ => lookup end.

(** An answer, with what was known when it was given and whether a rebuild was
    due. *)
Record reply := {
  reply_known : NodeID -> option QSetPtr; reply_due : bool;
  reply_node : NodeID; reply_in : bool;
}.

Fixpoint run_tracker (fuel : nat) (local : NodeID) (evs : list tracker_event)
    (lookup : NodeID -> option QSetPtr) (p : PendingTracker) : result tracker_error (list reply) :=
  match evs with
  | [] => Ok []
  | ev :: evs =>
      let? (r, p') :=
        match ev with
        | Processed id q => let? p' := envelopeProcessed id (Some q) p in Ok ([], p')
        | Forced _ => Ok ([], forceRebuildQuorum p)
        | Asked n =>
            let? (b, p') := pending_isNodeDefinitelyInQuorum fuel local lookup n p in
            Ok ([{| reply_known := lookup; reply_due := mRebuildQuorum p;
                    reply_node := n; reply_in := b |}], p')
        end in
      let? rs := run_tracker fuel local evs (known_after ev lookup) p' in
      Ok (r ++ rs)
  end.

(** What is known names nodes of [U] only, and pointers are what they seem. *)
Fixpoint good_run (fuel : nat) (local : NodeID) (U : list NodeID) (heap : Z -> SCPQuorumSet)
    (evs : list tracker_event) (lookup : NodeID -> option QSetPtr) : Prop :=
  bounded local lookup U /\ (rebuild_rounds lookup U <= fuel)%nat /\
  (forall n p, lookup n = Some p -> valid_ptr heap p) /\
  match evs with
  | [] => True
  | ev :: evs => good_run fuel local U heap evs (known_after ev lookup)
  end.

Lemma good_run_bounded (fuel : nat) (local : NodeID) (U : list NodeID) (heap : Z -> SCPQuorumSet)
    (evs : list tracker_event) (lookup : NodeID -> option QSetPtr) :
  good_run fuel local U heap evs lookup ->
  bounded local lookup U /\ (rebuild_rounds lookup U <= fuel)%nat /\
  (forall n p, lookup n = Some p -> valid_ptr heap p).
Proof. destruct evs; cbn; naive_solver. Qed.

(** [expand] never throws on a quorum set that is there, whatever the map. *)
Lemma expand_node_total (id : NodeID) (d : Z) (n : NodeID) (m : TrackerMap) :
  exists b m', expand_node id d n (Ok m) = (b, Ok m').
Proof.
  unfold expand_node. destruct (m !! n) as [i|]; [|eauto].
  destruct (mQuorumSet i); ztests; eauto.
Qed.

Lemma expand_total (id : NodeID) (q : QSetPtr) (m : TrackerMap) :
  exists b m', expand id (Some q) m = Ok (b, m').
Proof.
  unfold expand, bind, deref, get, ret. destruct (m !! id) as [i|]; [|eauto].
  destruct (mQuorumSet i); [eauto|]. rewrite forAllNodes_loop.
  generalize (<[id := {| mQuorumSet := Some q; mDistance := mDistance i;
    mClosestValidators := mClosestValidators i |}]> m).
  induction (qset_nodes (qs_set q)) as [|n l IH]; intros m1; cbn [forAll_loop]; [eauto|].
  destruct (expand_node_total id (mDistance i + 1) n m1) as (b & m2 & ->).
  destruct b; cbn [negb]; [apply IH|eauto].
Qed.

Definition reply_ok (local : NodeID) (r : reply) : Prop :=
  (reply_in r = true -> rtc (knows (reply_known r)) local (reply_node r)) /\
  (reply_due r = true -> rtc (knows (reply_known r)) local (reply_node r) -> reply_in r = true).

(** A question is answered, from a sound map. *)
Lemma asked_spec (fuel : nat) (local : NodeID) (lookup : NodeID -> option QSetPtr)
    (U : list NodeID) (n : NodeID) (p : PendingTracker) :
  bounded local lookup U -> (rebuild_rounds lookup U <= fuel)%nat ->
  (mRebuildQuorum p = false -> sound local lookup (mQuorumTracker p)) ->
  exists b p', pending_isNodeDefinitelyInQuorum fuel local lookup n p = Ok (b, p') /\
    (mRebuildQuorum p' = false -> sound local lookup (mQuorumTracker p')) /\
    reply_ok local {| reply_known := lookup; reply_due := mRebuildQuorum p;
                      reply_node := n; reply_in := b |}.
Proof.
  intros HU Hf Hs. unfold pending_isNodeDefinitelyInQuorum, rebuildQuorumTrackerState.
  destruct (mRebuildQuorum p) eqn:Hr.
  - destruct (rebuild_spec local lookup U HU fuel (mQuorumTracker p) Hf) as (m & -> & Hc & Hall).
    assert (sound local lookup m) as Hm.
    { split; [done|]. intros x i q Hi Hq. rewrite <- Hq. symmetry. by apply Hall. }
    destruct (complete_tracks local lookup m Hc Hall) as [Hdom _].
    eexists _, _. split; [done|]. split; [done|]. unfold isNodeDefinitelyInQuorum.
    split; cbn; rewrite bool_decide_eq_true; [|intros _]; apply Hdom.
  - eexists _, p. split; [done|]. split; [by intros; apply Hs|]. split; [|done]. cbn.
    unfold isNodeDefinitelyInQuorum. rewrite bool_decide_eq_true. intros (i & Hi).
    by apply (sound_reachable local lookup (mQuorumTracker p) n i); [apply Hs|].
Qed.

(** What [isNodeDefinitelyInQuorum] says of a node is true for sure: from
    the state in which a node starts, whatever messages are processed, whatever
    rebuilds are forced and whatever nodes are asked for, no call throws; every
    node said to be in the quorum is one the local node depends on, directly or
    through others, by the quorum sets known at that moment; and when a rebuild
    was due the answer is exact. *)
Theorem quorum_membership_sound (fuel : nat) (local : NodeID) (U : list NodeID)
    (heap : Z -> SCPQuorumSet) (evs : list tracker_event) (lookup : NodeID -> option QSetPtr)
    (m : TrackerMap) :
  good_run fuel local U heap evs lookup ->
  exists rs,
    run_tracker fuel local evs lookup {| mQuorumTracker := m; mRebuildQuorum := true |} = Ok rs /\
    Forall (reply_ok local) rs.
Proof.
  set (p := {| mQuorumTracker := m; mRebuildQuorum := true |}).
  assert (mRebuildQuorum p = false -> sound local lookup (mQuorumTracker p)) as Hp by done.
  generalize dependent p. clear m. revert lookup.
  induction evs as [|ev evs IH]; intros lookup p Hp Hg; [by exists []|].
  pose proof (good_run_bounded _ _ _ _ _ _ Hg) as (HU & Hf & Hh). destruct Hg as (_ & _ & _ & Hg).
  assert (forall r p', (mRebuildQuorum p' = false ->
      sound local (known_after ev lookup) (mQuorumTracker p')) -> Forall (reply_ok local) r ->
    exists rs, (let? rs := run_tracker fuel local evs (known_after ev lookup) p' in Ok (r ++ rs))
      = Ok rs /\ Forall (reply_ok local) rs) as Hnext.
  { intros r p' Hp' Hr. destruct (IH _ p' Hp' Hg) as (rs & -> & Hrs). eexists. split; [done|].
    by apply Forall_app. }
  cbn [run_tracker]. destruct ev as [id q|l|n].
  - unfold envelopeProcessed. destruct (expand_total id q (mQuorumTracker p)) as (b & m' & E).
    rewrite E. apply Hnext; [|done]. cbn. intros [Hr Hb]%orb_false_iff.
    destruct (expand_sound local id q lookup heap (mQuorumTracker p)) as (b' & m'' & E' & Hs);
      [by apply Hp| |done|].
    { destruct (good_run_bounded _ _ _ _ _ _ Hg) as (_ & _ & Hh'). apply (Hh' id).
      cbn. unfold learn. by rewrite bool_decide_true. }
    rewrite E in E'. injection E' as <- <-. apply Hs. by apply negb_false_iff.
  - apply Hnext; done.
  - destruct (asked_spec fuel local lookup U n p HU Hf Hp) as (b & p' & -> & Hp' & Hr).
    apply Hnext; [done|]. by constructor.
Qed.

(** ** An example *)

(** A finite assignment of quorum sets to nodes. *)
Definition lookup_in (l : list (NodeID * QSetPtr)) (n : NodeID) : option QSetPtr :=
  snd <$> List.find (fun e => bool_decide (e.1 = n)) l.

(** A decidable form of [bounded]. *)
Lemma bounded_check (local : NodeID) (lookup : NodeID -> option QSetPtr) (U : list NodeID) :
  bool_decide (NoDup U) && bool_decide (local ∈ U) &&
  forallb (fun a => match lookup a with
                    | Some p => forallb (fun b => bool_decide (b ∈ U)) (qset_nodes (qs_set p))
                    | None => true
                    end) U = true -> bounded local lookup U.
Proof.
  rewrite !andb_true_iff, !bool_decide_eq_true, forallb_forall. intros [[Hnd Hl] Hc]. split; [done..|].
  intros a b Ha%list_elem_of_In (p & Hp & Hb). specialize (Hc a Ha). rewrite Hp in Hc.
  rewrite forallb_forall in Hc. by apply list_elem_of_In, Hc, bool_decide_eq_true in Hb.
Qed.

Definition example_heap (p : Z) : SCPQuorumSet :=
  if p =? 0 then mkQSet 2 [[1]; [2]] [] else if p =? 1 then mkQSet 1 [[3]; [0]] []
  else mkQSet 1 [[4]] [mkQSet 1 [[2]] []].

Definition example_ptr (p : Z) : QSetPtr := {| qs_ptr := p; qs_set := example_heap p |}.

Definition example_nodes : list NodeID := [[0]; [1]; [2]; [3]; [4]].

Definition example_known : NodeID -> option QSetPtr := lookup_in [([0], example_ptr 0)].

Lemma learn_valid (id : NodeID) (p : Z) (lookup : NodeID -> option QSetPtr) :
  (forall n q, lookup n = Some q -> valid_ptr example_heap q) ->
  forall n q, learn id (example_ptr p) lookup n = Some q -> valid_ptr example_heap q.
Proof. intros H n q. unfold learn. case_bool_decide; [by intros [= <-]|apply H]. Qed.

Lemma example_valid : forall n q, example_known n = Some q -> valid_ptr example_heap q.
Proof.
  intros n q. unfold example_known, lookup_in. cbn. case_bool_decide; [|done]. by intros [= <-].
Qed.

Lemma rebuild_correct_witness :
  exists m, rebuild 10 [0] (learn [1] (example_ptr 1) example_known) ∅ = Ok (tt, m) /\
    tracks [0] (learn [1] (example_ptr 1) example_known) m.
Proof.
  apply (rebuild_correct 10 [0] _ example_nodes).
  - apply bounded_check. reflexivity.
  - apply Nat.leb_le. reflexivity.
Defined.

Definition example_run : list tracker_event :=
  [Asked [3]; Processed [1] (example_ptr 1); Asked [3]; Processed [3] (example_ptr 2);
   Asked [4]; Processed [4] (example_ptr 0); Asked [1]; Processed [3] (example_ptr 0); Asked [4]].

Lemma quorum_membership_sound_witness :
  let start := {| mQuorumTracker := ∅; mRebuildQuorum := true |} in
  (forall rs, run_tracker 20 [0] example_run example_known start = Ok rs ->
    (fun r => (reply_due r, reply_in r)) <$> rs =
    [(true, false); (false, true); (false, true); (false, true); (true, false)]) /\
  exists rs, run_tracker 20 [0] example_run example_known start = Ok rs /\ Forall (reply_ok [0]) rs.
Proof.
  split.
  - vm_compute. by intros rs [= <-].
  - apply (quorum_membership_sound 20 [0] example_nodes example_heap).
    cbn [good_run example_run known_after].
    repeat match goal with
    | |- _ /\ _ => split
    | |- bounded _ _ _ => apply bounded_check; reflexivity
    | |- True => exact I
    | |- (_ <= _)%nat => apply Nat.leb_le; reflexivity
    | |- forall _ _, _ -> _ => repeat apply learn_valid; exact example_valid
    end.
Defined.
