(* ===== verification/BitSet.v ===== *)
(** * Bit sets

    [src/util/BitSet.h]: sets of small natural numbers.  A set is modelled by
    its members; the words that hold them and the cached count are not. *)
From stdpp Require Import base tactics list sorting numbers sets gmap fin_sets.
From Stdlib Require Import Lia.
From S2P Require Import Prelude.

Open Scope nat_scope.

Definition BitSet : Type := gset nat.

(** [max]: 0 for the empty set, for which the code does not call it. *)
Definition bs_max (s : BitSet) : nat := max_list (elements s).

(** The members in the order of the loops
    [for (size_t i = 0; s.nextSet(i); ++i)]. *)
Definition bits (s : BitSet) : list nat := filter (.∈ s) (seq 0 (S (bs_max s))).

Definition count (s : BitSet) : nat := size s.
Definition bs_empty (s : BitSet) : bool := bool_decide (s = ∅).
Definition intersectionCount (s t : BitSet) : nat := size (s ∩ t).
Definition isSubsetEq (s t : BitSet) : bool := bool_decide (s ⊆ t).

(** ** Lemmas *)

Lemma bs_max_ge (s : BitSet) (x : nat) : x ∈ s -> x <= bs_max s.
Proof. intros Hx. by apply max_list_elem_of_le, elem_of_elements. Qed.

Lemma elem_of_bits (s : BitSet) (x : nat) : x ∈ bits s <-> x ∈ s.
Proof.
  unfold bits. rewrite list_elem_of_filter, elem_of_seq. split; [naive_solver|].
  intros Hx. split; [done|]. pose proof (bs_max_ge s x Hx). lia.
Qed.

Lemma NoDup_bits (s : BitSet) : NoDup (bits s).
Proof. apply NoDup_filter, NoDup_seq. Qed.

Lemma max_list_elem (l : list nat) : l <> [] -> max_list l ∈ l.
Proof.
  induction l as [|x l IH]; [done|]. intros _. change (x `max` max_list l ∈ x :: l).
  destruct (Nat.max_spec x (max_list l)) as [[Hlt E]|[_ E]]; rewrite E; [|by left].
  right. apply IH. by destruct l; cbn in Hlt; [lia|].
Qed.

Lemma bs_max_elem (s : BitSet) : s <> ∅ -> bs_max s ∈ s.
Proof.
  intros Hs. apply elem_of_elements, max_list_elem. intros E. apply Hs. by apply leibniz_equiv, elements_empty_inv.
Qed.

Lemma bs_empty_true (s : BitSet) : bs_empty s = true <-> s = ∅.
Proof. apply bool_decide_eq_true. Qed.

Lemma bs_empty_false (s : BitSet) : bs_empty s = false <-> s <> ∅.
Proof. apply bool_decide_eq_false. Qed.

Lemma isSubsetEq_true (s t : BitSet) : isSubsetEq s t = true <-> s ⊆ t.
Proof. apply bool_decide_eq_true. Qed.
