(* ===== verification/Tarjan.v ===== *)
(** * Strongly connected components

    [src/util/TarjanSCCCalculator.cpp]: Tarjan's algorithm, as the code has it:
    the arrays of indices and low links, the stack, and the components in the
    order they are found.  The main result is that these are exactly the classes
    of mutual reachability of the graph. *)
From stdpp Require Import base tactics list sorting numbers sets gmap fin_sets relations.
From Stdlib Require Import ZArith Lia.
From S2P Require Import Prelude BitSet.

Open Scope Z_scope.
Open Scope kin_scope.

(** ** The algorithm *)

Record SCCNode := mkSCCNode { mIndex : Z; mLowLink : Z; mOnStack : bool }.

(** [mStack] with its top first. *)
Record TarjanSCCCalculator := mkTarjan {
  mNodes : list SCCNode;
  mStack : list nat;
  nextIndex : Z;
  mSCCs : list BitSet;
}.

Inductive tarjan_error :=
  | NodeOutOfRange      (** [mNodes.at] *)
  | StackEmpty          (** [mStack.back] of an empty vector *)
  | TarjanOutOfFuel.

Notation T := (ST TarjanSCCCalculator tarjan_error).

Definition set_nodes (l : list SCCNode) (s : TarjanSCCCalculator) : TarjanSCCCalculator :=
  mkTarjan l (mStack s) (nextIndex s) (mSCCs s).
Definition set_stack (l : list nat) (s : TarjanSCCCalculator) : TarjanSCCCalculator :=
  mkTarjan (mNodes s) l (nextIndex s) (mSCCs s).

Definition node_at (i : nat) : T SCCNode :=
  let! s := get in deref (mNodes s !! i) NodeOutOfRange.

Definition update_node (i : nat) (f : SCCNode -> SCCNode) : T unit :=
  let! v := node_at i in modify (fun s => set_nodes (<[i := f v]> (mNodes s)) s).

Definition set_low (x : Z) (v : SCCNode) : SCCNode := mkSCCNode (mIndex v) x (mOnStack v).
Definition set_onStack (b : bool) (v : SCCNode) : SCCNode :=
  mkSCCNode (mIndex v) (mLowLink v) b.

(** A [for] loop over a list. *)
Fixpoint for_each {S E A} (f : A -> ST S E unit) (l : list A) : ST S E unit :=
  match l with
  | [] => ret tt
  | x :: l' => f x ;;! for_each f l'
  end.

(** The lines that open a node. *)
Definition open_node (i : nat) : T unit :=
  let! s := get in
  update_node i (fun _ => mkSCCNode (nextIndex s) (nextIndex s) true) ;;!
  modify (fun s => mkTarjan (mNodes s) (i :: mStack s) (nextIndex s + 1) (mSCCs s)).

(** The body of the loop over the successors of [i]. *)
Definition visit_succ (rec : nat -> T unit) (i j : nat) : T unit :=
  let! w := node_at j in
  if mIndex w =? -1 then
    rec j ;;!
    let! v := node_at i in
    let! w := node_at j in
    update_node i (set_low (Z.min (mLowLink v) (mLowLink w)))
  else if mOnStack w then
    let! v := node_at i in
    update_node i (set_low (Z.min (mLowLink v) (mIndex w)))
  else ret tt.

(** The [do .. while (j != i)] loop, over the stack. *)
Fixpoint pop_scc (i : nat) (stack : list nat) (newScc : BitSet) : T BitSet :=
  match stack with
  | [] => fail StackEmpty
  | j :: stack' =>
      modify (set_stack stack') ;;!
      update_node j (set_onStack false) ;;!
      if bool_decide (j = i) then ret ({[j]} ∪ newScc)
      else pop_scc i stack' ({[j]} ∪ newScc)
  end.

Section tarjan.
Context (getNodeSuccessors : nat -> BitSet).

Fixpoint scc (fuel : nat) (i : nat) : T unit :=
  match fuel with
  | O => fail TarjanOutOfFuel
  | S fuel' =>
      open_node i ;;!
      for_each (visit_succ (scc fuel') i) (bits (getNodeSuccessors i)) ;;!
      let! v := node_at i in
      if mLowLink v =? mIndex v then
        let! s := get in
        let! newScc := pop_scc i (mStack s) {[i]} in
        modify (fun s => mkTarjan (mNodes s) (mStack s) (nextIndex s) (mSCCs s ++ [newScc]))
      else ret tt
  end.

(** Recursion is at most as deep as the graph has nodes. *)
Definition calculateSCCs (graphSize : nat) : T unit :=
  modify (fun _ => mkTarjan (replicate graphSize (mkSCCNode (-1) (-1) false)) [] 0 []) ;;!
  for_each (fun i =>
    let! v := node_at i in
    if mIndex v =? -1 then scc graphSize i else ret tt) (seq 0 graphSize).
End tarjan.

Definition noSCCs : TarjanSCCCalculator := mkTarjan [] [] 0 [].

(** ** Correctness *)

(** The arrays as functions. *)
Definition idx (s : TarjanSCCCalculator) (v : nat) : Z :=
  match mNodes s !! v with Some x => mIndex x | None => -1 end.
Definition low (s : TarjanSCCCalculator) (v : nat) : Z :=
  match mNodes s !! v with Some x => mLowLink x | None => -1 end.
Definition ons (s : TarjanSCCCalculator) (v : nat) : bool :=
  match mNodes s !! v with Some x => mOnStack x | None => false end.

Notation wpT := (wp (fun _ : tarjan_error => False)).

Lemma wp_for_each {S E A} (F : E -> Prop) (f : A -> ST S E unit) (I : list A -> S -> Prop)
    (l done : list A) (s : S) :
  (forall x d l' s, l = d ++ x :: l' -> I (done ++ d) s ->
     wp F (f x) (fun _ s' => I (done ++ d ++ [x]) s') s) ->
  I done s -> wp F (for_each f l) (fun _ s' => I (done ++ l) s') s.
Proof.
  revert done s. induction l as [|x l IH]; intros done s Hf Hs; cbn.
  { by rewrite app_nil_r. }
  apply wp_bind. eapply wp_mono.
  { apply (Hf x [] l s); [done|]. by rewrite app_nil_r. }
  cbn. intros _ s1 H1. rewrite (app_assoc done [x] l : done ++ x :: l = _).
  apply IH; [|done]. intros y d l' s2 -> H2. rewrite <- !app_assoc in *.
  apply (Hf y (x :: d) l' s2); [done|]. done.
Qed.

Lemma wp_update_node (i : nat) (f : SCCNode -> SCCNode) (v : SCCNode)
    (Q : unit -> TarjanSCCCalculator -> Prop) (s : TarjanSCCCalculator) :
  mNodes s !! i = Some v -> Q tt (set_nodes (<[i := f v]> (mNodes s)) s) ->
  wpT (update_node i f) Q s.
Proof. intros Hv HQ. unfold wp, update_node, node_at, bind, get. cbn. by rewrite Hv. Qed.

Lemma wp_node_at (i : nat) (v : SCCNode)
    (Q : SCCNode -> TarjanSCCCalculator -> Prop) (s : TarjanSCCCalculator) :
  mNodes s !! i = Some v -> Q v s -> wpT (node_at i) Q s.
Proof. intros Hv HQ. unfold wp, node_at, bind, get. cbn. by rewrite Hv. Qed.

(** A field of the array after an update. *)
Lemma lookup_update {A} (f : SCCNode -> A) (d : A) (l : list SCCNode) (i v : nat) (x : SCCNode) :
  (i < length l)%nat ->
  match <[i := x]> l !! v with Some y => f y | None => d end =
    if decide (v = i) then f x else match l !! v with Some y => f y | None => d end.
Proof.
  intros Hi. case_decide as E; [subst; by rewrite list_lookup_insert_eq|].
  by rewrite list_lookup_insert_ne.
Qed.

Section correctness.
Context (n : nat) (succ : nat -> BitSet).
Context (Hsucc : forall v w, w ∈ succ v -> (w < n)%nat).

Definition edge (v w : nat) : Prop := w ∈ succ v.
Notation reach := (rtc edge).

Definition visited (s : TarjanSCCCalculator) (v : nat) : Prop := 0 <= idx s v.

(** [v] is in a component already found. *)
Definition closed (s : TarjanSCCCalculator) (v : nat) : Prop := visited s v /\ v ∉ mStack s.

Definition strong_component (C : BitSet) : Prop :=
  exists r, (r < n)%nat /\ forall v, v ∈ C <-> (v < n)%nat /\ reach r v /\ reach v r.

(** [gs]: the nodes whose calls are in progress. *)
Record inv (gs : list nat) (s : TarjanSCCCalculator) : Prop := {
  inv_length : length (mNodes s) = n;
  inv_next : 0 <= nextIndex s;
  inv_idx : forall v, idx s v = -1 \/ 0 <= idx s v < nextIndex s;
  inv_ons : forall v, ons s v = true <-> v ∈ mStack s;
  inv_stack : forall v, v ∈ mStack s -> visited s v;
  inv_sorted : StronglySorted (fun a b => idx s b < idx s a) (mStack s);
  inv_sccs : forall v, (exists C, C ∈ mSCCs s /\ v ∈ C) <-> closed s v;
  inv_class : Forall strong_component (mSCCs s);
  inv_distinct : NoDup (mSCCs s);
  inv_closed : forall v w, closed s v -> edge v w -> closed s w;
  inv_black : forall v w, v ∈ mStack s -> v ∉ gs -> edge v w -> visited s w;
  inv_gray : forall g, g ∈ gs -> g ∈ mStack s;
  inv_up : forall g v, g ∈ gs -> v ∈ mStack s -> idx s g <= idx s v -> reach g v;
  inv_down : forall v, v ∈ mStack s -> exists g, g ∈ gs /\ idx s g <= idx s v /\ reach v g;
  inv_order : forall l1 C l2 v w, mSCCs s = l1 ++ C :: l2 -> v ∈ C -> edge v w ->
    w ∈ C \/ exists D, D ∈ l1 /\ w ∈ D;
}.

(** What a call leaves alone. *)
Record keeps (s s' : TarjanSCCCalculator) : Prop := {
  keeps_idx : forall v, visited s v -> idx s' v = idx s v;
  keeps_low : forall v, visited s v -> low s' v = low s v;
  keeps_new : forall v, idx s v = -1 -> idx s' v = -1 \/ nextIndex s <= idx s' v;
  keeps_next : nextIndex s <= nextIndex s';
}.

Lemma keeps_refl (s : TarjanSCCCalculator) : keeps s s.
Proof. split; try done. by left. Qed.

Lemma visited_or (gs : list nat) (s : TarjanSCCCalculator) (v : nat) :
  inv gs s -> idx s v = -1 \/ visited s v.
Proof. intros Hs. destruct (inv_idx _ _ Hs v); [by left|right]. unfold visited; lia. Qed.

Lemma keeps_trans (gs : list nat) (s1 s2 s3 : TarjanSCCCalculator) :
  inv gs s2 -> keeps s1 s2 -> keeps s2 s3 -> keeps s1 s3.
Proof.
  intros Hs [I1 L1 N1 M1] [I2 L2 N2 M2]. split; [| | |lia].
  - intros v Hv. rewrite I2, I1; [done..|]. unfold visited in *. by rewrite I1.
  - intros v Hv. rewrite L2, L1; [done..|]. unfold visited in *. by rewrite I1.
  - intros v Hv. destruct (visited_or gs s2 v Hs) as [H2|H2].
    + destruct (N2 v H2); [by left|right; lia].
    + rewrite I2 by done. destruct (N1 v Hv); [by left|right; lia].
Qed.

Lemma lookup_node (gs : list nat) (s : TarjanSCCCalculator) (v : nat) :
  inv gs s -> (v < n)%nat ->
  exists x, mNodes s !! v = Some x /\ mIndex x = idx s v /\ mLowLink x = low s v /\
    mOnStack x = ons s v.
Proof.
  intros Hs Hv. rewrite <- (inv_length _ _ Hs) in Hv.
  apply lookup_lt_is_Some_2 in Hv as [x Hx]. exists x. unfold idx, low, ons. by rewrite Hx.
Qed.

Lemma visited_lt (gs : list nat) (s : TarjanSCCCalculator) (v : nat) :
  inv gs s -> visited s v -> (v < n)%nat.
Proof.
  intros Hs Hv. rewrite <- (inv_length _ _ Hs). unfold visited, idx in Hv.
  destruct (mNodes s !! v) eqn:E; [|lia]. by apply lookup_lt_Some in E.
Qed.

Lemma stack_inj (gs : list nat) (s : TarjanSCCCalculator) (a b : nat) :
  inv gs s -> a ∈ mStack s -> b ∈ mStack s -> idx s a = idx s b -> a = b.
Proof.
  intros Hs. pose proof (inv_sorted _ _ Hs) as Hsort. revert Hsort.
  induction (mStack s) as [|x l IH]; intros Hsort Ha Hb E; [by apply not_elem_of_nil in Ha|].
  apply StronglySorted_inv in Hsort as [Hsort Hall]. rewrite Forall_forall in Hall.
  apply elem_of_cons in Ha as [->|Ha], Hb as [->|Hb]; [done| | |by apply IH].
  - specialize (Hall b Hb). lia.
  - specialize (Hall a Ha). lia.
Qed.

Lemma sorted_app (R : nat -> nat -> Prop) (l k : list nat) :
  StronglySorted R (l ++ k) -> StronglySorted R k /\ forall a b, a ∈ l -> b ∈ k -> R a b.
Proof.
  induction l as [|x l IH]; cbn; [intros H; split; [done|set_solver]|].
  intros [Hs Hall]%StronglySorted_inv. destruct (IH Hs) as [Hk Hlk]. split; [done|].
  rewrite Forall_forall in Hall. intros a b [->|Ha]%elem_of_cons Hb; [|by apply Hlk].
  apply Hall. set_solver.
Qed.

Lemma sorted_ext (R R' : nat -> nat -> Prop) (l : list nat) :
  (forall a b, a ∈ l -> b ∈ l -> R a b -> R' a b) -> StronglySorted R l -> StronglySorted R' l.
Proof.
  intros HR. induction 1 as [|x l Hl IH Hall]; constructor.
  - apply IH. intros a b Ha Hb. apply HR; by right.
  - rewrite Forall_forall in *. intros y Hy. apply HR; [by left|by right|by apply Hall].
Qed.

(** What is above and below a node of the stack. *)
Lemma stack_split (gs : list nat) (s : TarjanSCCCalculator) (i : nat) (seg rest : list nat) :
  inv gs s -> mStack s = seg ++ i :: rest ->
  (forall v, v ∈ seg -> idx s i < idx s v) /\ (forall v, v ∈ rest -> idx s v < idx s i) /\
  (forall v, v ∈ mStack s <-> v ∈ seg \/ v = i \/ v ∈ rest).
Proof.
  intros Hs Hst. pose proof (inv_sorted _ _ Hs) as Hsort. rewrite Hst in *. split; [|split].
  - intros v Hv. destruct (sorted_app _ seg (i :: rest) Hsort) as [_ H]. apply H; [done|by left].
  - intros v Hv. apply sorted_app in Hsort as [Hsort _].
    apply StronglySorted_inv in Hsort as [_ Hall]. rewrite Forall_forall in Hall. by apply Hall.
  - intros v. by rewrite elem_of_app, elem_of_cons.
Qed.

(** The low link is not part of the invariant. *)
Lemma inv_set_low (gs : list nat) (s : TarjanSCCCalculator) (i : nat) (x : SCCNode) (z : Z) :
  inv gs s -> mNodes s !! i = Some x ->
  let s' := set_nodes (<[i := set_low z x]> (mNodes s)) s in
  inv gs s' /\ (forall v, idx s' v = idx s v) /\ mStack s' = mStack s /\
  nextIndex s' = nextIndex s /\
  forall v, low s' v = if decide (v = i) then z else low s v.
Proof.
  intros Hs Hx s'. pose proof (lookup_lt_Some _ _ _ Hx) as Hlt.
  assert (forall v, idx s' v = idx s v) as Hidx.
  { intros v. unfold idx, s'. cbn. rewrite lookup_update by done.
    case_decide; [subst; by rewrite Hx|done]. }
  assert (forall v, ons s' v = ons s v) as Hons.
  { intros v. unfold ons, s'. cbn. rewrite lookup_update by done.
    case_decide; [subst; by rewrite Hx|done]. }
  split; [|split; [done|]; split; [done|]; split; [done|]].
  - destruct Hs as [I1 I2 I3 I4 I5 I6 I7 I8 I9 I10 I11 I12 I13 I14 I15].
    unfold closed, visited in *. constructor; cbn; unfold closed, visited; try done;
      repeat setoid_rewrite Hidx; repeat setoid_rewrite Hons; try done.
    + by rewrite length_insert.
    + revert I6. apply sorted_ext. intros a b _ _. by rewrite !Hidx.
  - intros v. unfold low, s'. cbn. by rewrite lookup_update by done.
Qed.

Lemma open_node_spec (gs : list nat) (s : TarjanSCCCalculator) (i : nat) :
  inv gs s -> (i < n)%nat -> idx s i = -1 -> (forall g, g ∈ gs -> reach g i) ->
  wpT (open_node i) (fun _ s1 =>
    inv (i :: gs) s1 /\ keeps s s1 /\ idx s1 i = nextIndex s /\ low s1 i = nextIndex s /\
    mStack s1 = i :: mStack s) s.
Proof.
  intros Hs Hi Hid Hg. destruct (lookup_node gs s i Hs Hi) as (x & Hx & _).
  apply wp_bind, wp_get, wp_bind. eapply wp_update_node; [done|]. apply wp_modify.
  set (s1 := mkTarjan _ _ _ _).
  assert (i < length (mNodes s))%nat as Hlt by (by rewrite (inv_length _ _ Hs)).
  assert (forall v, idx s1 v = if decide (v = i) then nextIndex s else idx s v) as Hidx
    by (intros v; apply (lookup_update mIndex (-1)); done).
  assert (forall v, low s1 v = if decide (v = i) then nextIndex s else low s v) as Hlow
    by (intros v; apply (lookup_update mLowLink (-1)); done).
  assert (forall v, ons s1 v = if decide (v = i) then true else ons s v) as Hons
    by (intros v; apply (lookup_update mOnStack false); done).
  assert (forall v, visited s v -> v <> i /\ idx s1 v = idx s v) as Hold.
  { intros v Hv. unfold visited in Hv. rewrite Hidx.
    case_decide; [subst; lia|done]. }
  assert (i ∉ mStack s) as Hni.
  { intros Hin%(inv_stack _ _ Hs). unfold visited in Hin. lia. }
  pose proof (inv_next _ _ Hs) as Hnx.
  assert (forall v, closed s1 v <-> closed s v) as Hclosed.
  { intros v. unfold closed, visited. rewrite Hidx. cbn. rewrite not_elem_of_cons.
    case_decide; [subst; rewrite Hid; split; [naive_solver|]; intros [? _]; lia|naive_solver]. }
  split; [|split; [|rewrite Hidx, Hlow, !decide_True by done; done]].
  - pose proof Hs as [I1 I2 I3 I4 I5 I6 I7 I8 I9 I10 I11 I12 I13 I14 I15].
    constructor; cbn [mStack mSCCs nextIndex s1 set_nodes].
    + cbn. by rewrite length_insert.
    + lia.
    + intros v. rewrite Hidx. case_decide; [right; lia|]. destruct (I3 v); [by left|right; lia].
    + intros v. rewrite Hons, elem_of_cons. case_decide; [naive_solver|]. rewrite I4. naive_solver.
    + intros v [->|Hv]%elem_of_cons; unfold visited; [rewrite Hidx, decide_True by done; lia|].
      destruct (Hold v) as [_ ->]; by apply I5.
    + constructor.
      * revert I6. apply sorted_ext. intros a b Ha Hb.
        destruct (Hold a (I5 a Ha)) as [_ ->], (Hold b (I5 b Hb)) as [_ ->]. done.
      * apply Forall_forall. intros b Hb. destruct (Hold b (I5 b Hb)) as [_ ->].
        rewrite Hidx, decide_True by done. specialize (I5 b Hb). unfold visited in I5.
        destruct (I3 b); lia.
    + intros v. by rewrite I7, Hclosed.
    + done.
    + done.
    + intros v w. rewrite !Hclosed. apply I10.
    + intros v w [->|Hv]%elem_of_cons Hng Hvw; [set_solver|].
      assert (visited s w) as Hw by (eapply I11; [done| |done]; set_solver).
      unfold visited. destruct (Hold w Hw) as [_ ->]. done.
    + set_solver.
    + intros g v Hgg Hvv Hle.
      apply elem_of_cons in Hvv as [->|Hvv].
      { apply elem_of_cons in Hgg as [->|Hgg]; [done|by apply Hg]. }
      destruct (Hold v (I5 v Hvv)) as [_ Ev]. rewrite Ev in Hle.
      apply elem_of_cons in Hgg as [->|Hgg].
      { rewrite Hidx, decide_True in Hle by done. specialize (I5 v Hvv).
        unfold visited in I5. destruct (I3 v); lia. }
      apply I13; [done..|]. by destruct (Hold g (I5 g (I12 g Hgg))) as [_ <-].
    + intros v [->|Hv]%elem_of_cons; [exists i; split; [by left|done]|].
      destruct (I14 v Hv) as (g & Hgg & Hle & Hr). exists g. split; [by right|].
      destruct (Hold v (I5 v Hv)) as [_ ->], (Hold g (I5 g (I12 g Hgg))) as [_ ->]. done.
    + exact I15.
  - split.
    + intros v Hv. by apply Hold.
    + intros v Hv. rewrite Hlow, decide_False by (by apply Hold). done.
    + intros v Hv. rewrite Hidx. case_decide; [right; lia|by left].
    + cbn. lia.
Qed.

(** The pop loop empties the stack down to [i]. *)
Lemma pop_scc_spec (i : nat) (seg rest : list nat) (acc : BitSet) (s : TarjanSCCCalculator) :
  mStack s = seg ++ i :: rest -> i ∉ seg ->
  (forall v, v ∈ mStack s -> (v < length (mNodes s))%nat) ->
  wpT (pop_scc i (mStack s) acc) (fun C s' =>
    (forall v, v ∈ C <-> v ∈ acc \/ v ∈ seg \/ v = i) /\
    mStack s' = rest /\ nextIndex s' = nextIndex s /\ mSCCs s' = mSCCs s /\
    length (mNodes s') = length (mNodes s) /\
    (forall v, idx s' v = idx s v /\ low s' v = low s v) /\
    (forall v, ons s' v = if decide (v ∈ seg \/ v = i) then false else ons s v)) s.
Proof.
  intros Hst. rewrite Hst. revert s Hst acc.
  induction seg as [|j seg IH]; intros s Hst acc Hi Hlt; cbn [app pop_scc] in *.
  - apply wp_bind, wp_modify, wp_bind.
    destruct (lookup_lt_is_Some_2 (mNodes s) i) as [x Hx]; [apply Hlt; by left|].
    eapply wp_update_node; [done|]. rewrite bool_decide_true by done. apply wp_ret.
    pose proof (lookup_lt_Some _ _ _ Hx) as Hil.
    split; [intros v; rewrite elem_of_union, elem_of_singleton, elem_of_nil; tauto|].
    split; [done|]. split; [done|]. split; [done|].
    split; [cbn; by rewrite length_insert|]. split.
    + intros v. unfold idx, low. cbn. rewrite !(lookup_update _ (-1)) by done.
      case_decide; [subst; by rewrite Hx|done].
    + intros v. unfold ons. cbn. rewrite (lookup_update _ false) by done.
      repeat case_decide; (done || (rewrite ?elem_of_nil in *; tauto)).
  - apply wp_bind, wp_modify, wp_bind.
    destruct (lookup_lt_is_Some_2 (mNodes s) j) as [x Hx]; [apply Hlt; by left|].
    pose proof (lookup_lt_Some _ _ _ Hx) as Hjl.
    eapply wp_update_node; [done|]. rewrite bool_decide_false by (intros ->; apply Hi; by left).
    set (s1 := set_nodes _ _). eapply wp_mono.
    { apply (IH s1); [done|by intros ?; apply Hi; right|]. intros v Hv. cbn. rewrite length_insert. apply Hlt.
      by right. }
    cbn. intros C s' (HC & H1 & H2 & H3 & H4 & H5 & H6).
    split; [intros v; rewrite HC, elem_of_union, elem_of_singleton, elem_of_cons; tauto|].
    split; [done|]. split; [done|]. split; [done|].
    split; [rewrite H4; cbn; by rewrite length_insert|]. split.
    + intros v. destruct (H5 v) as [-> ->]. unfold idx, low. cbn.
      rewrite !(lookup_update _ (-1)) by done. case_decide; [subst; by rewrite Hx|done].
    + intros v. rewrite H6. unfold ons. cbn. rewrite (lookup_update _ false) by done.
      repeat case_decide; (done || (rewrite ?elem_of_cons in *; tauto)).
Qed.

(** Nothing leads out of the components already found. *)
Lemma closed_reach (gs : list nat) (s : TarjanSCCCalculator) (v w : nat) :
  inv gs s -> closed s v -> reach v w -> closed s w.
Proof.
  intros Hs Hv Hr. induction Hr as [|v u w Hvu _ IH]; [done|].
  apply IH. by eapply (inv_closed _ _ Hs).
Qed.

(** A node [i] of the stack, and what is above it: no call below [i] is in
    progress in it, and its edges stay above [low]. *)
Record segment (gs : list nat) (s : TarjanSCCCalculator) (i : nat) (seg rest : list nat)
    (low : Z) : Prop := {
  seg_inv : inv (i :: gs) s;
  seg_stack : mStack s = seg ++ i :: rest;
  seg_gray : forall g, g ∈ gs -> g ∈ rest;
  seg_edges : forall x y, x ∈ seg \/ x = i -> edge x y ->
    visited s y /\ (y ∈ mStack s -> low <= idx s y);
}.

Section segment.
Context (gs : list nat) (s : TarjanSCCCalculator) (i : nat) (seg rest : list nat) (l : Z).
Context (Hseg : segment gs s i seg rest l).

Lemma segment_split :
  (forall v, v ∈ seg -> idx s i < idx s v) /\ (forall v, v ∈ rest -> idx s v < idx s i) /\
  (forall v, v ∈ mStack s <-> v ∈ seg \/ v = i \/ v ∈ rest).
Proof. eapply stack_split; apply Hseg. Qed.

Lemma segment_gray (g : nat) : g ∈ gs -> idx s g < idx s i.
Proof. intros Hg. apply segment_split. by apply (seg_gray _ _ _ _ _ _ Hseg). Qed.

Section closing.
Context (Hl : l = idx s i).

(** Paths from the segment end in it or in a component already found. *)
Lemma segment_reach (x y : nat) :
  reach x y -> x ∈ seg \/ x = i -> (y ∈ seg \/ y = i) \/ closed s y.
Proof.
  destruct segment_split as (_ & Hrest & Hin).
  intros Hr. induction Hr as [|x u y Hxu Hr IH]; intros Hx; [by left|].
  destruct (seg_edges _ _ _ _ _ _ Hseg x u Hx Hxu) as [Hvis Hlow]. rewrite Hl in Hlow.
  destruct (decide (u ∈ mStack s)) as [Hu|Hu].
  - specialize (Hlow Hu). apply Hin in Hu as [?|[?|Hu]]; [by apply IH; left|by apply IH; right|].
    specialize (Hrest u Hu). lia.
  - right. eapply closed_reach; [apply (seg_inv _ _ _ _ _ _ Hseg)|by split|done].
Qed.

Lemma segment_component (C : BitSet) :
  (forall v, v ∈ C <-> v ∈ seg \/ v = i) -> strong_component C.
Proof.
  intros HC. pose proof (seg_inv _ _ _ _ _ _ Hseg) as Hs.
  destruct segment_split as (Hab & Hrest & Hin).
  assert (i ∈ mStack s) as Hi by (apply Hin; tauto).
  exists i. split; [eapply visited_lt, (inv_stack _ _ Hs); done|].
  intros v. rewrite HC. split.
  - intros Hv. assert (v ∈ mStack s) as Hvs by (apply Hin; tauto).
    assert (idx s i <= idx s v) as Hle by (destruct Hv as [Hv| ->]; [apply Hab in Hv; lia|lia]).
    split; [eapply visited_lt, (inv_stack _ _ Hs); done|].
    split; [by apply (inv_up _ _ Hs); [left|..]|].
    destruct (inv_down _ _ Hs v Hvs) as (g & Hg & Hgle & Hr).
    apply elem_of_cons in Hg as [->|Hg]; [done|]. exfalso.
    pose proof (segment_gray g Hg) as Hlt.
    destruct (segment_reach v g Hr Hv) as [[Hgs| ->]|[_ Hgs]]; [apply Hab in Hgs; lia|lia|].
    apply Hgs. by apply (inv_gray _ _ Hs); right.
  - intros (_ & Hiv & Hvi). destruct (segment_reach i v Hiv (or_intror eq_refl)) as [?|Hcl];
      [done|]. exfalso. by destruct (closed_reach _ _ _ _ Hs Hcl Hvi) as [_ []].
Qed.

(** Popping the segment keeps the invariant. *)
Lemma pop_inv (s' : TarjanSCCCalculator) (C : BitSet) :
  (forall v, v ∈ C <-> v ∈ seg \/ v = i) -> mStack s' = rest -> nextIndex s' = nextIndex s ->
  mSCCs s' = mSCCs s ++ [C] -> length (mNodes s') = length (mNodes s) ->
  (forall v, idx s' v = idx s v) ->
  (forall v, ons s' v = if decide (v ∈ seg \/ v = i) then false else ons s v) ->
  inv gs s'.
Proof.
  intros HC Hst Hnx Hscc Hlen Hidx Hons. pose proof (seg_inv _ _ _ _ _ _ Hseg) as Hs.
  pose proof (segment_component C HC) as HSC.
  destruct segment_split as (Hab & Hrest & Hin).
  pose proof Hs as [I1 I2 I3 I4 I5 I6 I7 I8 I9 I10 I11 I12 I13 I14 I15].
  assert (forall v, v ∈ rest -> v ∈ mStack s) as Hsub by (intros v Hv; apply Hin; tauto).
  assert (forall v, v ∈ C -> v ∉ rest) as Hcr.
  { intros v [Hv| ->]%HC Hvr; specialize (Hrest _ Hvr); [apply Hab in Hv|]; lia. }
  assert (forall v, closed s' v <-> closed s v \/ v ∈ C) as Hcl.
  { intros v. unfold closed, visited. rewrite Hidx, Hst, Hin. split.
    - intros [Hv Hr]. destruct (decide (v ∈ C)) as [|Hn]; [by right|left].
      rewrite HC in Hn. tauto.
    - intros [Hv|Hv]; [tauto|]. split; [|by apply Hcr]. apply I5, Hin.
      apply HC in Hv. tauto. }
  constructor.
  - by rewrite Hlen.
  - by rewrite Hnx.
  - intros v. by rewrite Hidx, Hnx.
  - intros v. rewrite Hons, Hst. case_decide as E.
    + split; [done|]. intros Hr. exfalso. by apply HC, Hcr in E.
    + rewrite I4, Hin. naive_solver.
  - intros v Hv. unfold visited. rewrite Hidx. apply I5, Hsub. by rewrite <- Hst.
  - rewrite Hst. rewrite (seg_stack _ _ _ _ _ _ Hseg) in I6.
    apply sorted_app in I6 as [[I6 _]%StronglySorted_inv _]. revert I6.
    apply sorted_ext. intros a b _ _. by rewrite !Hidx.
  - intros v. rewrite Hcl, <- I7, Hscc. setoid_rewrite elem_of_app.
    setoid_rewrite list_elem_of_singleton. naive_solver.
  - rewrite Hscc. apply Forall_app. split; [done|by constructor].
  - rewrite Hscc. apply NoDup_app. split; [done|]. split; [|apply NoDup_singleton].
    intros D HD ->%list_elem_of_singleton. assert (i ∈ C) as Hi by (apply HC; tauto).
    assert (closed s i) as [_ Hni] by (apply I7; eauto). apply Hni, Hin. tauto.
  - intros v w. rewrite !Hcl. intros [Hv|Hv] Hvw; [left; by eapply I10|].
    destruct (segment_reach v w) as [H|H]; [by apply rtc_once|by apply HC| |by left].
    right. by apply HC.
  - intros v w Hv Hng Hvw. unfold visited. rewrite Hidx. rewrite Hst in Hv.
    apply (I11 v w); [by apply Hsub| |done]. intros [->|?]%elem_of_cons; [|done].
    apply (Hcr i); [|done]. apply HC. tauto.
  - intros g Hg. rewrite Hst. by apply (seg_gray _ _ _ _ _ _ Hseg).
  - intros g v Hg Hv. rewrite !Hidx. rewrite Hst in Hv. apply I13; [by right|by apply Hsub].
  - intros v Hv. rewrite Hst in Hv. destruct (I14 v (Hsub v Hv)) as (g & Hg & Hle & Hr).
    exists g. rewrite !Hidx. apply elem_of_cons in Hg as [->|Hg]; [|done].
    specialize (Hrest v Hv). lia.
  - intros l1 D l2 v w. rewrite Hscc. destruct l2 as [|E l2 _] using rev_ind.
    + intros [<- [= <-]]%app_inj_tail Hv%HC Hvw.
      destruct (segment_reach v w) as [H|H]; [by apply rtc_once|done|left; by apply HC|].
      right. by apply I7.
    + rewrite (app_assoc l1 (D :: l2) [E] : l1 ++ D :: l2 ++ [E] = _).
      intros [E1 _]%app_inj_tail. exact (I15 l1 D l2 v w E1).
Qed.
End closing.

(** A node that reaches below itself stays on the stack. *)
Lemma keep_inv (w : nat) :
  w ∈ mStack s -> idx s w < idx s i -> reach i w -> inv gs s.
Proof.
  intros Hw Hlt Hr. pose proof (seg_inv _ _ _ _ _ _ Hseg) as Hs.
  destruct segment_split as (Hab & Hrest & Hin).
  pose proof Hs as [I1 I2 I3 I4 I5 I6 I7 I8 I9 I10 I11 I12 I13 I14 I15].
  constructor; try done.
  - intros v u Hv Hng Hvu. destruct (decide (v = i)) as [->|Hne].
    + by apply (seg_edges _ _ _ _ _ _ Hseg i u); [right|].
    + apply (I11 v u); [done| |done]. by intros [?|?]%elem_of_cons.
  - intros g Hg. apply I12. by right.
  - intros g v Hg. apply I13. by right.
  - intros v Hv. destruct (I14 v Hv) as (g & Hg & Hle & Hrv).
    apply elem_of_cons in Hg as [->|Hg]; [|by exists g].
    destruct (I14 w Hw) as (g & Hg & Hle' & Hrw).
    apply elem_of_cons in Hg as [->|Hg]; [lia|]. exists g. split; [done|]. split; [lia|].
    by etrans; [|etrans].
Qed.
End segment.

(** *** The calls *)

Definition unvisited (s : TarjanSCCCalculator) : nat :=
  length (filter (fun v => idx s v = -1) (seq 0 n)).

Lemma unvisited_le (s s' : TarjanSCCCalculator) :
  (forall v, idx s' v = -1 -> idx s v = -1) -> (unvisited s' <= unvisited s)%nat.
Proof.
  intros H. unfold unvisited. induction (seq 0 n) as [|v l IH]; [done|].
  rewrite !filter_cons. repeat case_decide; cbn; try lia. exfalso. auto.
Qed.

Lemma unvisited_lt (s s' : TarjanSCCCalculator) (i : nat) :
  (forall v, idx s' v = -1 -> idx s v = -1) -> (i < n)%nat -> idx s i = -1 -> idx s' i <> -1 ->
  (unvisited s' < unvisited s)%nat.
Proof.
  intros H Hi Hs Hs'. unfold unvisited.
  assert (i ∈ seq 0 n) as Hin by (apply elem_of_seq; lia). revert Hin.
  assert (forall l, (length (filter (fun v => idx s' v = (-1)%Z) l) <=
    length (filter (fun v => idx s v = (-1)%Z) l))%nat) as Hle.
  { induction l as [|v l IH]; [done|].
    rewrite !filter_cons. repeat case_decide; cbn; try lia. exfalso. auto. }
  induction (seq 0 n) as [|v l IH]; [by intros ?%not_elem_of_nil|].
  rewrite !filter_cons. intros [->|Hin]%elem_of_cons.
  - rewrite decide_False, decide_True by done. cbn. specialize (Hle l). lia.
  - specialize (IH Hin). repeat case_decide; cbn; try lia. exfalso. auto.
Qed.

Lemma keeps_unvisited (gs : list nat) (s s' : TarjanSCCCalculator) (v : nat) :
  inv gs s -> keeps s s' -> idx s' v = -1 -> idx s v = -1.
Proof.
  intros Hs Hk Hv. destruct (visited_or gs s v Hs) as [?|Hvis]; [done|].
  pose proof (keeps_idx _ _ Hk v Hvis) as E. unfold visited in Hvis. lia.
Qed.

(** The outcome of a call on [i]. *)
Record call_post (gs : list nat) (s : TarjanSCCCalculator) (i : nat)
    (s' : TarjanSCCCalculator) : Prop := {
  post_inv : inv gs s';
  post_keeps : keeps s s';
  post_idx : idx s' i = nextIndex s;
  post_le : low s' i <= idx s' i;
  post_stack : exists seg, mStack s' = seg ++ mStack s /\
    (forall x, x ∈ seg -> idx s x = -1) /\
    forall x y, x ∈ seg -> edge x y -> y ∈ mStack s' -> low s' i <= idx s' y;
  post_low : (i ∉ mStack s' /\ low s' i = idx s' i) \/
    exists w, w ∈ mStack s' /\ idx s' w = low s' i /\ reach i w;
}.

(** The state of a call on [i], started in [s], that has seen the successors [d]. *)
Record in_call (gs : list nat) (s : TarjanSCCCalculator) (i : nat) (d : list nat)
    (s1 : TarjanSCCCalculator) : Prop := {
  call_inv : inv (i :: gs) s1;
  call_keeps : keeps s s1;
  call_idx : idx s1 i = nextIndex s;
  call_stack : exists seg, mStack s1 = seg ++ i :: mStack s /\
    forall x y, x ∈ seg -> edge x y -> y ∈ mStack s1 -> low s1 i <= idx s1 y;
  call_le : low s1 i <= idx s1 i;
  call_low : exists w, w ∈ mStack s1 /\ idx s1 w = low s1 i /\ reach i w;
  call_done : forall y, y ∈ d -> visited s1 y /\ (y ∈ mStack s1 -> low s1 i <= idx s1 y);
}.

(** Lowering the low link of [i]. *)
Lemma in_call_low (gs : list nat) (s : TarjanSCCCalculator) (i : nat) (d : list nat)
    (s1 : TarjanSCCCalculator) (x : SCCNode) (z : Z) :
  inv gs s -> idx s i = -1 ->
  in_call gs s i d s1 -> mNodes s1 !! i = Some x -> z <= low s1 i ->
  (exists w, w ∈ mStack s1 /\ idx s1 w = z /\ reach i w) ->
  in_call gs s i d (set_nodes (<[i := set_low z x]> (mNodes s1)) s1).
Proof.
  intros Hs Hi [C1 C2 C3 C4 C5 C6 C7] Hx Hz Hw.
  destruct (inv_set_low _ s1 i x z C1 Hx) as (Hinv & Hidx & Hst & Hnx & Hlow).
  set (s2 := set_nodes _ _) in *.
  assert (low s2 i = z) as Hli by (rewrite Hlow, decide_True by done; done).
  constructor; rewrite ?Hidx, ?Hst, ?Hli; try done.
  - destruct C2 as [K1 K2 K3 K4]. constructor; intros *; rewrite ?Hidx, ?Hnx; auto.
    intros Hv. rewrite Hlow, decide_False; [by apply K2|].
    intros ->. unfold visited in Hv. lia.
  - destruct C4 as (seg & Hseg & He). exists seg. split; [done|].
    intros a b Ha Hab Hb. rewrite Hidx. specialize (He a b Ha Hab Hb). lia.
  - lia.
  - destruct Hw as (w & ? & ? & ?). exists w. by rewrite Hidx.
  - intros y Hy. destruct (C7 y Hy) as [Hv Hl]. unfold visited. rewrite Hidx. split; [done|].
    intros Hin. specialize (Hl Hin). lia.
Qed.

(** A nested call. *)
Lemma in_call_nested (gs : list nat) (s : TarjanSCCCalculator) (i j : nat) (d : list nat)
    (s1 s2 : TarjanSCCCalculator) :
  inv gs s -> idx s i = -1 -> in_call gs s i d s1 -> edge i j ->
  call_post (i :: gs) s1 j s2 ->
  low s2 i = low s1 i /\
  forall x, mNodes s2 !! i = Some x ->
  in_call gs s i (d ++ [j])
    (set_nodes (<[i := set_low (Z.min (low s1 i) (low s2 j)) x]> (mNodes s2)) s2).
Proof.
  intros Hs Hid [C1 C2 C3 C4 C5 C6 C7] Hij [P1 P2 P3 Hlej P4 P5].
  destruct C4 as (seg & Hseg & He), P4 as (seg2 & Hseg2 & Hnew & He2).
  assert (i ∈ mStack s1) as Hi1 by (rewrite Hseg, elem_of_app, elem_of_cons; tauto).
  assert (visited s1 i) as Hvi by (by apply (inv_stack _ _ C1)).
  pose proof (keeps_idx _ _ P2 i Hvi) as Ei. pose proof (keeps_low _ _ P2 i Hvi) as El.
  split; [done|]. intros x Hx.
  assert (forall v, v ∈ mStack s1 -> v ∈ mStack s2 /\ idx s2 v = idx s1 v) as Hkeep.
  { intros v Hv. split; [rewrite Hseg2, elem_of_app; tauto|].
    apply (keeps_idx _ _ P2). by apply (inv_stack _ _ C1). }
  assert (forall y, visited s1 y -> y ∈ mStack s2 -> y ∈ mStack s1 /\ idx s2 y = idx s1 y) as Hback.
  { intros y Hy Hin. rewrite Hseg2 in Hin. apply elem_of_app in Hin as [Hin|Hin];
      [|split; [done|by apply Hkeep]].
    specialize (Hnew y Hin). unfold visited in Hy. lia. }
  assert (forall a, a ∈ seg -> a ∉ i :: gs) as Hdisj.
  { destruct (stack_split _ s1 i seg _ C1 Hseg) as (Hab & Hbe & _).
    intros a Ha%Hab [->|Hg]%elem_of_cons; [lia|].
    apply (inv_gray _ _ Hs), Hbe in Hg. lia. }
  destruct (inv_set_low _ s2 i x (Z.min (low s1 i) (low s2 j)) P1 Hx)
    as (Hinv & Hidx & Hst & Hnx & Hlow).
  set (s3 := set_nodes _ _) in *.
  assert (low s3 i = Z.min (low s1 i) (low s2 j)) as Hli by (rewrite Hlow, decide_True; done).
  constructor; rewrite ?Hst, ?Hidx, ?Hli; try done.
  - pose proof (keeps_trans _ s s1 s2 C1 C2 P2) as [K1 K2 K3 K4].
    constructor; intros *; rewrite ?Hidx, ?Hnx; auto.
    intros Hv. rewrite Hlow, decide_False; [by apply K2|].
    intros ->. unfold visited in Hv. lia.
  - by rewrite Ei.
  - exists (seg2 ++ seg). split; [by rewrite Hseg2, Hseg, app_assoc|].
    intros a b Ha Hab Hb. rewrite Hidx. apply elem_of_app in Ha as [Ha|Ha].
    + specialize (He2 a b Ha Hab Hb). lia.
    + destruct (Hback b) as [Hb1 ->]; [|done|specialize (He a b Ha Hab Hb1); lia].
      apply (inv_black _ _ C1 a b); [rewrite Hseg, elem_of_app; tauto| |done].
      by apply Hdisj.
  - lia.
  - destruct (Z.le_gt_cases (low s1 i) (low s2 j)) as [Hle|Hgt].
    + destruct C6 as (w & Hw & Ew & Hr). exists w. destruct (Hkeep w Hw) as [? E].
      rewrite Hidx, E. split; [done|]. split; [lia|done].
    + destruct P5 as [[_ E]|(w & Hw & Ew & Hr)]; [|exists w; rewrite Hidx; split; [done|];
        split; [lia|by eapply rtc_l]].
      exfalso. destruct (inv_idx _ _ C1 i) as [?|[_ ?]]; unfold visited in Hvi; lia.
  - intros y [Hy|Hy]%elem_of_app; unfold visited; rewrite Hidx.
    + destruct (C7 y Hy) as [Hv Hl]. rewrite (keeps_idx _ _ P2 y Hv). split; [done|].
      intros Hin. destruct (Hback y Hv Hin) as [Hin1 _]. specialize (Hl Hin1). lia.
    + apply list_elem_of_singleton in Hy as ->. rewrite P3.
      pose proof (inv_next _ _ C1). split; [done|]. intros _. lia.
Qed.

(** What a recursive call promises to the loop over successors. *)
Definition rec_spec (fuel : nat) : Prop :=
  forall gs s i, inv gs s -> (i < n)%nat -> idx s i = -1 -> (forall g, g ∈ gs -> reach g i) ->
  (unvisited s <= fuel)%nat -> wpT (scc succ fuel i) (fun _ s' => call_post gs s i s') s.

Lemma visit_succ_spec (fuel : nat) (gs : list nat) (s : TarjanSCCCalculator) (i j : nat)
    (d : list nat) (s1 : TarjanSCCCalculator) :
  rec_spec fuel -> inv gs s -> (i < n)%nat -> idx s i = -1 -> edge i j ->
  (unvisited s <= S fuel)%nat -> in_call gs s i d s1 ->
  wpT (visit_succ (scc succ fuel) i j) (fun _ s2 => in_call gs s i (d ++ [j]) s2) s1.
Proof.
  intros IH Hs Hi Hid Hij Hf HC. pose proof (call_inv _ _ _ _ _ HC) as H1.
  assert (j < n)%nat as Hj by (by eapply Hsucc).
  destruct (lookup_node _ s1 i H1 Hi) as (vi & Hvi & Evi & Lvi & Ovi).
  destruct (lookup_node _ s1 j H1 Hj) as (w & Hw & Ew & Lw & Ow).
  apply wp_bind. eapply wp_node_at; [done|]. rewrite Ew.
  destruct (Z.eqb_spec (idx s1 j) (-1)) as [Hnew|Hold].
  - apply wp_bind. eapply wp_mono.
    { apply (IH (i :: gs) s1 j H1 Hj Hnew).
      - destruct (call_stack _ _ _ _ _ HC) as (seg & Hst & _).
        intros g Hg. apply rtc_r with i; [|done]. apply (inv_up _ _ H1); [done| |].
        { rewrite Hst, elem_of_app, elem_of_cons. tauto. }
        apply elem_of_cons in Hg as [->|Hg]; [done|].
        destruct (stack_split _ s1 i seg _ H1 Hst) as (_ & Hbe & _).
        apply (inv_gray _ _ Hs), Hbe in Hg. lia.
      - enough (unvisited s1 < unvisited s)%nat by lia.
        apply (unvisited_lt s s1 i); [|done|done|].
        + intros v. eapply keeps_unvisited; [done|]. apply (call_keeps _ _ _ _ _ HC).
        + rewrite (call_idx _ _ _ _ _ HC). pose proof (inv_next _ _ Hs). lia. }
    cbn beta. intros _ s2 Hp. pose proof (post_inv _ _ _ _ Hp) as H2.
    destruct (in_call_nested gs s i j d s1 s2 Hs Hid HC Hij Hp) as [El Hn].
    destruct (lookup_node _ s2 i H2 Hi) as (vi2 & Hvi2 & Evi2 & Lvi2 & _).
    destruct (lookup_node _ s2 j H2 Hj) as (w2 & Hw2 & Ew2 & Lw2 & _).
    apply wp_bind. eapply wp_node_at; [done|]. apply wp_bind. eapply wp_node_at; [done|].
    eapply wp_update_node; [done|]. rewrite Lvi2, Lw2, El. by apply Hn.
  - destruct HC as [C1 C2 C3 C4 C5 C6 C7] eqn:EC.
    assert (visited s1 j) as Hvj by (by destruct (visited_or _ s1 j H1)).
    rewrite Ow. destruct (ons s1 j) eqn:Eo.
    + apply (inv_ons _ _ H1) in Eo. apply wp_bind. eapply wp_node_at; [done|].
      eapply wp_update_node; [done|]. rewrite Lvi.
      assert (in_call gs s i d (set_nodes
        (<[i := set_low (Z.min (low s1 i) (idx s1 j)) vi]> (mNodes s1)) s1)) as [D1 D2 D3 D4 D5 D6 D7].
      { apply in_call_low; [done|done|done|done|lia|].
        destruct (Z.le_gt_cases (low s1 i) (idx s1 j)).
        - destruct C6 as (u & ? & ? & ?). exists u. split; [done|]. split; [lia|done].
        - exists j. split; [done|]. split; [lia|by apply rtc_once]. }
      destruct (inv_set_low _ s1 i vi (Z.min (low s1 i) (idx s1 j)) H1 Hvi)
        as (_ & Hidx & Hst & _ & Hlow).
      constructor; try done. intros y [Hy|Hy]%elem_of_app; [by apply D7|].
      apply list_elem_of_singleton in Hy as ->. unfold visited. rewrite Hidx, Hlow, decide_True by done.
      split; [done|]. intros _. lia.
    + apply wp_ret. constructor; try done. intros y [Hy|Hy]%elem_of_app; [by apply C7|].
      apply list_elem_of_singleton in Hy as ->. split; [done|]. intros Hin.
      apply (inv_ons _ _ H1) in Hin. congruence.
Qed.

(** The loop is over all successors: the segment above [i] is complete. *)
Lemma in_call_segment (gs : list nat) (s : TarjanSCCCalculator) (i : nat)
    (s1 : TarjanSCCCalculator) :
  inv gs s -> in_call gs s i (bits (succ i)) s1 ->
  exists seg, segment gs s1 i seg (mStack s) (low s1 i).
Proof.
  intros Hs [C1 C2 C3 (seg & Hst & He) C5 C6 C7]. exists seg.
  destruct (stack_split _ s1 i seg _ C1 Hst) as (Hab & Hbe & Hin).
  constructor; [done|done|apply (inv_gray _ _ Hs)|].
  intros x y [Hx| ->] Hxy; [|apply C7; by apply elem_of_bits].
  split; [|by apply (He x y)]. apply (inv_black _ _ C1 x y); [apply Hin; tauto| |done].
  intros [->|Hg]%elem_of_cons; [apply Hab in Hx; lia|].
  apply (inv_gray _ _ Hs), Hbe in Hg. apply Hab in Hx. lia.
Qed.

Lemma scc_spec (fuel : nat) : rec_spec fuel.
Proof.
  induction fuel as [|fuel IH]; intros gs s i Hs Hi Hid Hg Hf.
  { exfalso. enough (unvisited s <> 0)%nat by lia. intros E0. unfold unvisited in E0.
    apply length_zero_iff_nil in E0. assert (i ∈ filter (fun v => idx s v = -1) (seq 0 n)) as Hin
      by (apply list_elem_of_filter; split; [done|apply elem_of_seq; lia]).
    rewrite E0 in Hin. by apply not_elem_of_nil in Hin. }
  cbn [scc]. apply wp_bind. eapply wp_mono; [by apply open_node_spec|].
  cbn beta. intros _ s0 (H0 & K0 & E0 & L0 & St0). apply wp_bind. eapply wp_mono.
  { apply (wp_for_each _ (visit_succ (scc succ fuel) i) (in_call gs s i) (bits (succ i)) [] s0).
    - cbn [app]. intros j d l s1 Hl HC. apply visit_succ_spec; try done.
      apply elem_of_bits. rewrite Hl, elem_of_app, elem_of_cons. tauto.
    - constructor; [done|done|done| |lia| |].
      + exists []. split; [done|]. intros ? ? ?%not_elem_of_nil. done.
      + exists i. rewrite St0. split; [by left|]. split; [lia|done].
      + intros y ?%not_elem_of_nil. done. }
  cbn [app]. intros _ s1 HC. pose proof (call_inv _ _ _ _ _ HC) as H1.
  destruct (lookup_node _ s1 i H1 Hi) as (v & Hv & Ev & Lv & _).
  destruct (in_call_segment gs s i s1 Hs HC) as (seg & Hseg).
  pose proof (seg_stack _ _ _ _ _ _ Hseg) as Hst.
  destruct (stack_split _ s1 i seg _ H1 Hst) as (Hab & Hbe & Hin).
  apply wp_bind. eapply wp_node_at; [done|]. rewrite Ev, Lv.
  pose proof (call_le _ _ _ _ _ HC). pose proof (call_idx _ _ _ _ _ HC) as Ci.
  destruct (Z.eqb_spec (low s1 i) (idx s1 i)) as [El|El].
  - apply wp_bind, wp_get, wp_bind. eapply wp_mono.
    { apply (pop_scc_spec i seg (mStack s)); [done|intros Hx%Hab; lia|].
      intros u Hu. rewrite (inv_length _ _ H1). eapply visited_lt, (inv_stack _ _ H1); done. }
    intros C s2 (HCC & S1 & S2 & S3 & S4 & S5 & S6). apply wp_modify. set (s3 := mkTarjan _ _ _ _).
    assert (forall u, idx s3 u = idx s1 u) as Hidx by (intros u; apply S5).
    assert (forall u, low s3 u = low s1 u) as Hlow by (intros u; apply S5).
    constructor; rewrite ?Hidx, ?Hlow; try done.
    + apply (pop_inv gs s1 i seg (mStack s) (low s1 i) Hseg El s3 C); try done; cbn.
      * intros u. rewrite HCC, elem_of_singleton. tauto.
      * by rewrite S3.
    + destruct (call_keeps _ _ _ _ _ HC) as [K1 K2 K3 K4].
      constructor; intros *; rewrite ?Hidx, ?Hlow; auto. cbn. by rewrite S2.
    + exists []. split; [done|]. split; [by intros x ?%not_elem_of_nil|by intros x y ?%not_elem_of_nil].
    + left. split; [|done]. cbn. rewrite S1. intros Hx%Hbe. lia.
  - apply wp_ret. destruct (call_low _ _ _ _ _ HC) as (w & Hw & Ew & Hr).
    constructor; try done.
    + apply (keep_inv gs s1 i seg (mStack s) (low s1 i) Hseg w); [done|lia|done].
    + apply (call_keeps _ _ _ _ _ HC).
    + exists (seg ++ [i]). split; [by rewrite Hst, <- app_assoc|].
      assert (forall x, x ∈ seg ++ [i] -> x ∈ seg \/ x = i) as Hsi
        by (intros x; rewrite elem_of_app, list_elem_of_singleton; tauto).
      split; [|intros x y Hx%Hsi Hxy; by apply (seg_edges _ _ _ _ _ _ Hseg x y)].
      intros x Hx%Hsi. destruct (visited_or _ s x Hs) as [|Hvx]; [done|exfalso].
      pose proof (keeps_idx _ _ (call_keeps _ _ _ _ _ HC) x Hvx) as Ex.
      destruct (inv_idx _ _ Hs x) as [?|[_ ?]]; [unfold visited in Hvx; lia|].
      destruct Hx as [Hx%Hab| ->]; lia.
    + right. by exists w.
Qed.

(** *** The whole graph *)

Lemma inv_start (s : TarjanSCCCalculator) :
  mNodes s = replicate n (mkSCCNode (-1) (-1) false) -> mStack s = [] -> nextIndex s = 0 ->
  mSCCs s = [] -> inv [] s /\ forall v, idx s v = -1.
Proof.
  intros Hn Hst Hnx Hscc.
  assert (forall v, idx s v = -1) as Hidx.
  { intros v. unfold idx. rewrite Hn. destruct (_ !! v) as [x|] eqn:E; [|done].
    by apply lookup_replicate in E as [-> _]. }
  assert (forall v, ~ closed s v) as Hcl.
  { intros v [Hv _]. unfold visited in Hv. rewrite Hidx in Hv. lia. }
  assert (forall (v : nat) (P : Prop), v ∈ [] -> P) as Hnil by (by intros v P ?%not_elem_of_nil).
  split; [|done]. constructor; rewrite ?Hst, ?Hscc, ?Hnx.
  - rewrite Hn. apply length_replicate.
  - done.
  - by left.
  - intros v. unfold ons. rewrite Hn. split; [|apply Hnil].
    destruct (_ !! v) as [x|] eqn:E; [|done]. by apply lookup_replicate in E as [-> _].
  - intros v H. exact (Hnil _ _ H).
  - constructor.
  - intros v. split; [intros (C & HC%not_elem_of_nil & _); done|intros H; by apply Hcl in H].
  - constructor.
  - constructor.
  - intros v w H. by apply Hcl in H.
  - intros v w H. exact (Hnil _ _ H).
  - intros v H. exact (Hnil _ _ H).
  - intros g v H. exact (Hnil _ _ H).
  - intros v H. exact (Hnil _ _ H).
  - by intros [] C l2 v w.
Qed.

Lemma unvisited_all (s : TarjanSCCCalculator) : (unvisited s <= n)%nat.
Proof.
  unfold unvisited. etrans; [apply length_filter|]. by rewrite length_seq.
Qed.

Lemma calculateSCCs_ok (s0 : TarjanSCCCalculator) :
  wpT (calculateSCCs succ n) (fun _ s => inv [] s /\ forall v, (v < n)%nat -> visited s v) s0.
Proof.
  unfold calculateSCCs. apply wp_bind, wp_modify. set (s1 := mkTarjan _ _ _ _).
  destruct (inv_start s1) as [H1 E1]; [done..|].
  eapply wp_mono.
  { apply (wp_for_each _ _ (fun d s => inv [] s /\ forall v, v ∈ d -> visited s v) (seq 0 n) [] s1).
    - cbn [app]. intros i d l s Hl [Hs Hd].
      assert (i < n)%nat as Hi.
      { assert (i ∈ seq 0 n) as Hin by (rewrite Hl, elem_of_app, elem_of_cons; tauto).
        apply elem_of_seq in Hin. lia. }
      destruct (lookup_node _ s i Hs Hi) as (x & Hx & Ex & _).
      apply wp_bind. eapply wp_node_at; [done|]. rewrite Ex.
      destruct (Z.eqb_spec (idx s i) (-1)) as [E|E].
      + eapply wp_mono; [apply (scc_spec n [] s i); try done; [by intros g ?%not_elem_of_nil|]|].
        { apply unvisited_all. }
        cbn beta. intros _ s2 Hp. split; [apply (post_inv _ _ _ _ Hp)|].
        intros v [Hv|Hv]%elem_of_app; unfold visited.
        * rewrite (keeps_idx _ _ (post_keeps _ _ _ _ Hp)); by apply Hd.
        * apply list_elem_of_singleton in Hv as ->. rewrite (post_idx _ _ _ _ Hp).
          apply (inv_next _ _ Hs).
      + apply wp_ret. split; [done|]. intros v [Hv|Hv]%elem_of_app; [by apply Hd|].
        apply list_elem_of_singleton in Hv as ->. by destruct (visited_or _ s i Hs).
    - split; [done|]. by intros v ?%not_elem_of_nil. }
  cbn [app]. intros _ s [Hs Hv]. split; [done|]. intros v Hlt. apply Hv, elem_of_seq. lia.
Qed.

(** C35. Tarjan's algorithm is correct and terminates: on any graph it runs
    without leaving its arrays or its stack, and the components it lists are
    distinct, each is a class of mutual reachability, every node is in one of
    them, and they come in reverse topological order: an edge leads to the same
    component or to one found before. *)
Theorem calculateSCCs_correct (s0 : TarjanSCCCalculator) :
  exists s, calculateSCCs succ n s0 = Ok (tt, s) /\
    NoDup (mSCCs s) /\
    (forall C, C ∈ mSCCs s -> exists r, (r < n)%nat /\
       forall v, v ∈ C <-> (v < n)%nat /\ rtc edge r v /\ rtc edge v r) /\
    (forall v, (v < n)%nat -> exists C, C ∈ mSCCs s /\ v ∈ C) /\
    (forall l1 C l2 v w, mSCCs s = l1 ++ C :: l2 -> v ∈ C -> edge v w ->
       w ∈ C \/ exists D, D ∈ l1 /\ w ∈ D).
Proof.
  pose proof (calculateSCCs_ok s0) as H. unfold wp in H.
  destruct (calculateSCCs succ n s0) as [[[] s]|]; [|done].
  destruct H as [Hs Hv]. exists s. split; [done|]. split; [apply (inv_distinct _ _ Hs)|].
  split; [by apply Forall_forall, (inv_class _ _ Hs)|]. split; [|apply (inv_order _ _ Hs)].
  intros v Hlt. apply (inv_sccs _ _ Hs). split; [by apply Hv|].
  intros Hin. destruct (inv_down _ _ Hs v Hin) as (g & Hg & _). by apply not_elem_of_nil in Hg.
Qed.
End correctness.

(** A cycle of three nodes, one of which points to a fourth. *)
Definition example_graph (v : nat) : BitSet :=
  match v with 0 => {[1]} | 1 => {[2]} | 2 => {[0; 3]} | _ => ∅ end%nat.

Lemma example_graph_range (v w : nat) : w ∈ example_graph v -> (w < 4)%nat.
Proof.
  destruct v as [|[|[|v]]]; cbn; rewrite ?elem_of_union, ?elem_of_singleton, ?elem_of_empty; lia.
Qed.

Lemma calculateSCCs_correct_witness :
  exists s, calculateSCCs example_graph 4 noSCCs = Ok (tt, s) /\
    mSCCs s = [{[3%nat]}; {[0%nat; 1%nat; 2%nat]}] /\ NoDup (mSCCs s).
Proof.
  destruct (calculateSCCs_correct 4 example_graph example_graph_range noSCCs)
    as (s & H1 & H2 & _).
  exists s. split; [exact H1|]. split; [|exact H2].
  vm_compute in H1. injection H1 as <-. reflexivity.
Defined.
