(* ===== verification/RandomEvictionCache.v ===== *)
(** * A cache with random eviction

    [src/util/RandomEvictionCache.h]: a bounded map that evicts the less
    recently used of two random entries.  Pointers to map elements are the keys
    of the elements; a pointer to an erased element is an error.  Draws of
    [rand_uniform] are a function of their number and bound. *)
From stdpp Require Import base tactics list numbers sets gmap.
From Stdlib Require Import Lia.
From S2P Require Import Prelude.

Open Scope nat_scope.
Open Scope kin_scope.

(** The [k]-th call of [rand_uniform(0, hi)]. *)
Definition RandomEngine : Type := nat -> nat -> nat.

Definition uniform (rand : RandomEngine) : Prop := forall k hi, rand k hi <= hi.

Inductive cache_error :=
  | IndexOutOfRange       (** [mValuePtrs.at] *)
  | DanglingPointer
  | NoSuchKey             (** [get] *)
  | CacheOutOfFuel.

Section cache.
Context {K V : Type} `{Countable K}.

Record Counters := { mHits : nat; mMisses : nat; mInserts : nat; mUpdates : nat; mEvicts : nat }.

Record CacheValue := { mLastAccess : nat; mValue : V }.

Record RandomEvictionCache := {
  mMaxSize : nat;
  mGeneration : nat;
  mValueMap : gmap K CacheValue;
  mValuePtrs : list K;
  mCounters : Counters;
}.

Definition emptyCache (maxSize : nat) : RandomEvictionCache :=
  {| mMaxSize := maxSize; mGeneration := 0; mValueMap := ∅; mValuePtrs := [];
     mCounters := {| mHits := 0; mMisses := 0; mInserts := 0; mUpdates := 0; mEvicts := 0 |} |}.

Definition with_cache (c : RandomEvictionCache) (gen : nat) (m : gmap K CacheValue)
    (ptrs : list K) (cnt : Counters) : RandomEvictionCache :=
  {| mMaxSize := mMaxSize c; mGeneration := gen; mValueMap := m; mValuePtrs := ptrs;
     mCounters := cnt |}.

Definition add_counts (c : Counters) (h mi i u e : nat) : Counters :=
  {| mHits := mHits c + h; mMisses := mMisses c + mi; mInserts := mInserts c + i;
     mUpdates := mUpdates c + u; mEvicts := mEvicts c + e |}.

(** [std::swap(ptrs[i], ptrs.back()); ptrs.pop_back()]. *)
Definition swap_pop (i : nat) (ptrs : list K) : list K :=
  match last ptrs with
  | Some b => removelast (<[i := b]> ptrs)
  | None => ptrs
  end.

(** Returns the cache and the number of draws made so far. *)
Definition evictOne (rand : RandomEngine) (draws : nat) (c : RandomEvictionCache)
    : result cache_error (RandomEvictionCache * nat) :=
  let sz := length (mValuePtrs c) in
  if sz =? 0 then Ok (c, draws) else
  let i1 := rand draws (sz - 1) in
  let i2 := rand (S draws) (sz - 1) in
  match mValuePtrs c !! i1, mValuePtrs c !! i2 with
  | Some k1, Some k2 =>
      match mValueMap c !! k1, mValueMap c !! k2 with
      | Some v1, Some v2 =>
          let '(victim, i) := if mLastAccess v1 <? mLastAccess v2 then (k1, i1) else (k2, i2) in
          Ok (with_cache c (mGeneration c) (delete victim (mValueMap c))
                (swap_pop i (mValuePtrs c)) (add_counts (mCounters c) 0 0 0 0 1),
              S (S draws))
      | _, _ => Err DanglingPointer
      end
  | _, _ => Err IndexOutOfRange
  end.

Definition put (rand : RandomEngine) (draws : nat) (k : K) (v : V) (c : RandomEvictionCache)
    : result cache_error (RandomEvictionCache * nat) :=
  let gen := S (mGeneration c) in
  let newValue := {| mLastAccess := gen; mValue := v |} in
  match mValueMap c !! k with
  | None =>
      let c := with_cache c gen (<[k := newValue]> (mValueMap c)) (mValuePtrs c ++ [k])
                 (add_counts (mCounters c) 0 0 1 0 0) in
      if mMaxSize c <? length (mValuePtrs c) then evictOne rand draws c else Ok (c, draws)
  | Some _ =>
      Ok (with_cache c gen (<[k := newValue]> (mValueMap c)) (mValuePtrs c)
            (add_counts (mCounters c) 0 0 0 1 0), draws)
  end.

Definition cache_exists (k : K) (countMisses : bool) (c : RandomEvictionCache)
    : bool * RandomEvictionCache :=
  let miss := match mValueMap c !! k with None => true | Some _ => false end in
  (negb miss,
   if miss && countMisses
   then with_cache c (mGeneration c) (mValueMap c) (mValuePtrs c)
          (add_counts (mCounters c) 0 1 0 0 0)
   else c).

Definition clear (c : RandomEvictionCache) : RandomEvictionCache :=
  with_cache c (mGeneration c) ∅ [] (mCounters c).

(** The inner loop of [erase_if] at index [i]. *)
Fixpoint erase_at (fuel : nat) (f : V -> bool) (i : nat) (m : gmap K CacheValue) (ptrs : list K)
    : result cache_error (gmap K CacheValue * list K) :=
  match fuel with
  | O => Err CacheOutOfFuel
  | S fuel' =>
      match ptrs !! i with
      | None => Ok (m, ptrs)
      | Some k =>
          match m !! k with
          | None => Err DanglingPointer
          | Some v =>
              if f (mValue v) then erase_at fuel' f i (delete k m) (swap_pop i ptrs)
              else Ok (m, ptrs)
          end
      end
  end.

Fixpoint erase_loop (fuel : nat) (f : V -> bool) (i : nat) (m : gmap K CacheValue) (ptrs : list K)
    : result cache_error (gmap K CacheValue * list K) :=
  match fuel with
  | O => Err CacheOutOfFuel
  | S fuel' =>
      if i <? length ptrs then
        let? (m, ptrs) := erase_at (S (length ptrs)) f i m ptrs in
        erase_loop fuel' f (S i) m ptrs
      else Ok (m, ptrs)
  end.

Definition erase_if (f : V -> bool) (c : RandomEvictionCache)
    : result cache_error RandomEvictionCache :=
  let? (m, ptrs) := erase_loop (S (length (mValuePtrs c))) f 0 (mValueMap c) (mValuePtrs c) in
  Ok (with_cache c (mGeneration c) m ptrs (mCounters c)).

Definition maybeGet (k : K) (c : RandomEvictionCache) : option V * RandomEvictionCache :=
  match mValueMap c !! k with
  | Some cv =>
      let gen := S (mGeneration c) in
      (Some (mValue cv),
       with_cache c gen (<[k := {| mLastAccess := gen; mValue := mValue cv |}]> (mValueMap c))
         (mValuePtrs c) (add_counts (mCounters c) 1 0 0 0 0))
  | None =>
      (None, with_cache c (mGeneration c) (mValueMap c) (mValuePtrs c)
               (add_counts (mCounters c) 0 1 0 0 0))
  end.

Definition cache_get (k : K) (c : RandomEvictionCache)
    : result cache_error V * RandomEvictionCache :=
  let '(r, c) := maybeGet k c in
  (match r with Some v => Ok v | None => Err NoSuchKey end, c).

(** ** Correctness *)

(** The pointers are the keys of the map, each once. *)
Definition consistent (m : gmap K CacheValue) (ptrs : list K) : Prop :=
  NoDup ptrs /\ forall k, k ∈ ptrs <-> is_Some (m !! k).

(** A cache that holds some of the values of the map [spec]. *)
Record cache_ok (spec : K -> option V) (c : RandomEvictionCache) : Prop := {
  ok_consistent : consistent (mValueMap c) (mValuePtrs c);
  ok_size : length (mValuePtrs c) <= mMaxSize c;
  ok_values : forall k v, mValueMap c !! k = Some v -> spec k = Some (mValue v);
}.

Lemma swap_pop_perm (i : nat) (ptrs : list K) (k : K) :
  ptrs !! i = Some k -> k :: swap_pop i ptrs ≡ₚ ptrs.
Proof.
  intros Hi. unfold swap_pop. destruct ptrs as [|b l _] using rev_ind; [done|].
  rewrite last_snoc. pose proof (lookup_lt_Some _ _ _ Hi) as Hlt. rewrite length_app in Hlt.
  cbn in Hlt. destruct (decide (i = length l)) as [->|Hne].
  - rewrite list_lookup_middle in Hi by done. simplify_eq.
    rewrite list_insert_id by (by rewrite list_lookup_middle). rewrite removelast_last.
    by rewrite Permutation_app_comm.
  - rewrite lookup_app_l in Hi by lia. rewrite insert_app_l by lia. rewrite removelast_last.
    rewrite (insert_take_drop l i b) by lia.
    assert (l ≡ₚ k :: take i l ++ drop (S i) l) as Hl
      by (by rewrite Permutation_middle, take_drop_middle).
    rewrite <- Permutation_middle, perm_swap, (Permutation_app_comm l [b]). cbn.
    by rewrite <- Hl.
Qed.

Lemma consistent_delete (m : gmap K CacheValue) (ptrs : list K) (i : nat) (k : K) :
  consistent m ptrs -> ptrs !! i = Some k -> consistent (delete k m) (swap_pop i ptrs).
Proof.
  intros [Hnd Hin] Hi. pose proof (swap_pop_perm i ptrs k Hi) as Hp.
  assert (NoDup (k :: swap_pop i ptrs)) as [Hk Hnd']%NoDup_cons by (by rewrite Hp).
  assert (forall k', k' ∈ ptrs <-> k' = k \/ k' ∈ swap_pop i ptrs) as Hin'
    by (intros k'; rewrite <- elem_of_cons; by rewrite Hp).
  split; [done|]. intros k'. rewrite lookup_delete_is_Some, <- Hin, Hin'.
  split; [|naive_solver]. intros Hk'. split; [|by right]. by intros ->.
Qed.

Lemma swap_pop_length (i : nat) (ptrs : list K) (k : K) :
  ptrs !! i = Some k -> S (length (swap_pop i ptrs)) = length ptrs.
Proof. intros Hi. exact (Permutation_length (swap_pop_perm i ptrs k Hi)). Qed.

Lemma consistent_lookup (m : gmap K CacheValue) (ptrs : list K) (i : nat) (k : K) :
  consistent m ptrs -> ptrs !! i = Some k -> is_Some (m !! k).
Proof. intros [_ Hin] Hi. apply Hin. by eapply list_elem_of_lookup_2. Qed.

(** Eviction removes one entry. *)
Lemma evictOne_ok (rand : RandomEngine) (draws : nat) (c : RandomEvictionCache) :
  uniform rand -> consistent (mValueMap c) (mValuePtrs c) -> mValuePtrs c <> [] ->
  exists c' d k, evictOne rand draws c = Ok (c', d) /\
    consistent (mValueMap c') (mValuePtrs c') /\ mValueMap c' = delete k (mValueMap c) /\
    S (length (mValuePtrs c')) = length (mValuePtrs c) /\ mMaxSize c' = mMaxSize c.
Proof.
  intros Hr Hc Hne. unfold evictOne.
  assert (length (mValuePtrs c) <> 0) as Hlen by (by destruct (mValuePtrs c)).
  destruct (Nat.eqb_spec (length (mValuePtrs c)) 0); [done|].
  set (i1 := rand draws _). set (i2 := rand (S draws) _).
  pose proof (Hr draws (length (mValuePtrs c) - 1)) as B1.
  pose proof (Hr (S draws) (length (mValuePtrs c) - 1)) as B2.
  destruct (lookup_lt_is_Some_2 (mValuePtrs c) i1) as [k1 E1]; [subst i1; lia|].
  destruct (lookup_lt_is_Some_2 (mValuePtrs c) i2) as [k2 E2]; [subst i2; lia|].
  rewrite E1, E2.
  destruct (consistent_lookup _ _ _ _ Hc E1) as [v1 ->].
  destruct (consistent_lookup _ _ _ _ Hc E2) as [v2 ->].
  destruct (mLastAccess v1 <? mLastAccess v2); (do 3 eexists; split; [reflexivity|]; cbn;
    split; [by eapply consistent_delete|]; split; [done|]; split; [by eapply swap_pop_length|done]).
Qed.

(** The ghost map after a [put]. *)
Definition spec_put (k : K) (v : V) (spec : K -> option V) : K -> option V :=
  fun k' => if decide (k' = k) then Some v else spec k'.

Lemma put_ok (rand : RandomEngine) (draws : nat) (k : K) (v : V) (spec : K -> option V)
    (c : RandomEvictionCache) :
  uniform rand -> cache_ok spec c ->
  exists c' d, put rand draws k v c = Ok (c', d) /\ cache_ok (spec_put k v spec) c' /\
    mMaxSize c' = mMaxSize c.
Proof.
  intros Hr [[Hnd Hin] Hsz Hval]. unfold put.
  assert (forall k' v', <[k := {| mLastAccess := S (mGeneration c); mValue := v |}]> (mValueMap c)
    !! k' = Some v' -> spec_put k v spec k' = Some (mValue v')) as Hval'.
  { intros k' v'. unfold spec_put. case_decide as E.
    - subst. rewrite lookup_insert_eq. by intros [= <-].
    - rewrite lookup_insert_ne by done. apply Hval. }
  destruct (mValueMap c !! k) as [old|] eqn:E.
  - do 2 eexists. split; [reflexivity|]. split; [|done]. constructor; cbn; [|done|done].
    split; [done|]. intros k'. rewrite Hin, lookup_insert_is_Some. split; [|naive_solver].
    intros Hk'. destruct (decide (k = k')); [by left|by right].
  - set (c1 := with_cache _ _ _ _ _).
    assert (consistent (mValueMap c1) (mValuePtrs c1)) as Hc1.
    { split; cbn.
      - apply NoDup_app. split; [done|]. split; [|apply NoDup_singleton].
        intros k' Hk' ->%list_elem_of_singleton. apply Hin in Hk' as [? ?]. congruence.
      - intros k'. rewrite elem_of_app, list_elem_of_singleton, Hin, lookup_insert_is_Some.
        split; [intros [?| ->]; [|by left]|naive_solver].
        destruct (decide (k = k')); [by left|by right]. }
    destruct (Nat.ltb_spec (mMaxSize c1) (length (mValuePtrs c1))) as [Hlt|Hge].
    + destruct (evictOne_ok rand draws c1 Hr Hc1) as (c2 & d & k2 & -> & Hc2 & Hm & Hl & Hmx).
      { cbn. by destruct (mValuePtrs c). }
      do 2 eexists. split; [reflexivity|]. split; [|by rewrite Hmx]. constructor; [done| |].
      * rewrite Hmx. cbn in Hl |- *. rewrite length_app in Hl. cbn in Hl. lia.
      * intros k' v'. rewrite Hm. intros [_ ?]%lookup_delete_Some. by apply Hval'.
    + do 2 eexists. split; [reflexivity|]. split; [|done]. by constructor.
Qed.

Lemma maybeGet_ok (k : K) (spec : K -> option V) (c : RandomEvictionCache) :
  cache_ok spec c ->
  cache_ok spec (snd (maybeGet k c)) /\ mMaxSize (snd (maybeGet k c)) = mMaxSize c /\
  (forall v, fst (maybeGet k c) = Some v -> spec k = Some v).
Proof.
  intros [[Hnd Hin] Hsz Hval]. unfold maybeGet. destruct (mValueMap c !! k) as [cv|] eqn:E; cbn.
  - split; [|split; [done|]; intros v [= <-]; by apply Hval]. constructor; cbn; [|done|].
    + split; [done|]. intros k'. rewrite Hin, lookup_insert_is_Some. split; [|naive_solver].
      intros Hk'. destruct (decide (k = k')); [by left|by right].
    + intros k' v'. destruct (decide (k' = k)) as [->|].
      * rewrite lookup_insert_eq. intros [= <-]. cbn. by apply Hval.
      * rewrite lookup_insert_ne by done. apply Hval.
  - split; [by constructor|]. by split.
Qed.

(** *** Erasing by predicate *)

Lemma swap_pop_take (i : nat) (ptrs : list K) :
  i < length ptrs -> take i (swap_pop i ptrs) = take i ptrs.
Proof.
  intros Hi. unfold swap_pop. destruct ptrs as [|b l _] using rev_ind; [done|].
  rewrite last_snoc. rewrite length_app in Hi. cbn in Hi.
  destruct (decide (i = length l)) as [->|Hne].
  - rewrite list_insert_id by (by rewrite list_lookup_middle). rewrite removelast_last.
    by rewrite take_app_length, firstn_all.
  - rewrite insert_app_l by lia. rewrite removelast_last, take_insert_ge by lia.
    rewrite take_app_le by lia. done.
Qed.

(** [m'] lacks entries of [m] that satisfy [f], and no others. *)
Definition erased (f : V -> bool) (m m' : gmap K CacheValue) : Prop :=
  forall k, m' !! k = m !! k \/ m' !! k = None /\ exists v, m !! k = Some v /\ f (mValue v) = true.

Lemma erased_trans (f : V -> bool) (m1 m2 m3 : gmap K CacheValue) :
  erased f m1 m2 -> erased f m2 m3 -> erased f m1 m3.
Proof.
  intros H12 H23 k. destruct (H23 k) as [E|[E (v & Ev & Hf)]]; rewrite E.
  - apply H12.
  - right. split; [done|]. destruct (H12 k) as [E'|[E' _]]; [|congruence].
    exists v. by rewrite <- E'.
Qed.

Definition kept (f : V -> bool) (m : gmap K CacheValue) (k : K) : Prop :=
  forall v, m !! k = Some v -> f (mValue v) = false.

Lemma erase_at_ok (fuel : nat) (f : V -> bool) (i : nat) (m : gmap K CacheValue) (ptrs : list K) :
  consistent m ptrs -> i <= length ptrs < fuel + i ->
  exists m' ptrs', erase_at fuel f i m ptrs = Ok (m', ptrs') /\ consistent m' ptrs' /\
    erased f m m' /\ length ptrs' <= length ptrs /\ take i ptrs' = take i ptrs /\
    (forall k, ptrs' !! i = Some k -> kept f m' k).
Proof.
  revert m ptrs. induction fuel as [|fuel IH]; intros m ptrs Hc Hf; [lia|]. cbn [erase_at].
  assert (erased f m m) as Hrefl by (by left).
  destruct (ptrs !! i) as [k|] eqn:E.
  2: { exists m, ptrs. split; [done|]. split; [done|]. split; [done|]. split; [done|].
       split; [done|]. congruence. }
  destruct (consistent_lookup _ _ _ _ Hc E) as [v Ev]. rewrite Ev.
  destruct (f (mValue v)) eqn:Ef.
  - pose proof (swap_pop_length i ptrs k E) as Hl. pose proof (lookup_lt_Some _ _ _ E) as Hlt.
    destruct (IH (delete k m) (swap_pop i ptrs)) as (m' & p' & -> & Hc' & He & Hle & Ht & Hk);
      [by eapply consistent_delete|lia|].
    exists m', p'. split; [done|]. split; [done|]. split; [|split; [lia|]].
    + eapply erased_trans; [|done]. intros k'. destruct (decide (k' = k)) as [->|].
      * right. rewrite lookup_delete_eq. eauto.
      * left. by rewrite lookup_delete_ne.
    + split; [by rewrite Ht, swap_pop_take|done].
  - exists m, ptrs. split; [done|]. split; [done|]. split; [done|]. split; [done|].
    split; [done|]. rewrite E. intros k' [= <-] v'. rewrite Ev. by intros [= <-].
Qed.

Lemma erase_loop_ok (fuel : nat) (f : V -> bool) (i : nat) (m : gmap K CacheValue) (ptrs : list K) :
  consistent m ptrs -> length ptrs < fuel + i -> i <= length ptrs ->
  Forall (kept f m) (take i ptrs) ->
  exists m' ptrs', erase_loop fuel f i m ptrs = Ok (m', ptrs') /\ consistent m' ptrs' /\
    erased f m m' /\ length ptrs' <= length ptrs /\ Forall (kept f m') ptrs'.
Proof.
  revert i m ptrs. induction fuel as [|fuel IH]; intros i m ptrs Hc Hf Hi Hall; [lia|].
  cbn [erase_loop]. destruct (Nat.ltb_spec i (length ptrs)) as [Hlt|Hge].
  - destruct (erase_at_ok (S (length ptrs)) f i m ptrs Hc) as (m1 & p1 & -> & Hc1 & He & Hle & Ht & Hk);
      [lia|]. cbn [res_bind].
    assert (i <= length p1) as Hi1.
    { apply (f_equal length) in Ht. rewrite !length_take in Ht. lia. }
    assert (forall k, kept f m k -> kept f m1 k) as Hkeep.
    { intros k Hkk v Hv. destruct (He k) as [E|[E _]]; [|congruence]. apply Hkk. by rewrite <- E. }
    assert (Forall (kept f m1) (take i p1)) as Hall1.
    { rewrite Ht. eapply Forall_impl; [exact Hall|done]. }
    destruct (decide (i < length p1)) as [Hlt1|Hge1].
    + destruct (IH (S i) m1 p1 Hc1) as (m2 & p2 & -> & Hc2 & He2 & Hle2 & Hall2); [lia|lia| |].
      * destruct (lookup_lt_is_Some_2 p1 i Hlt1) as [k Ek].
        rewrite (take_S_r _ _ _ Ek). apply Forall_app. split; [done|].
        constructor; [by apply Hk|constructor].
      * exists m2, p2. split; [done|]. split; [done|]. split; [by eapply erased_trans|].
        split; [lia|done].
    + destruct fuel as [|fuel]; [lia|]. cbn [erase_loop].
      destruct (Nat.ltb_spec (S i) (length p1)); [lia|].
      exists m1, p1. split; [done|]. split; [done|]. split; [done|]. split; [lia|].
      by rewrite firstn_all2 in Hall1 by lia.
  - exists m, ptrs. split; [done|]. split; [done|]. split; [by left|]. split; [done|].
    by rewrite firstn_all2 in Hall by lia.
Qed.

(** *** Sequences of operations *)

Inductive cache_op :=
  | OpPut (k : K) (v : V)
  | OpGet (k : K)
  | OpExists (k : K) (countMisses : bool)
  | OpClear
  | OpEraseIf (f : V -> bool).

Definition run_op (rand : RandomEngine) (o : cache_op) (s : RandomEvictionCache * nat)
    : result cache_error (RandomEvictionCache * nat) :=
  let '(c, d) := s in
  match o with
  | OpPut k v => put rand d k v c
  | OpGet k => Ok (snd (maybeGet k c), d)
  | OpExists k b => Ok (snd (cache_exists k b c), d)
  | OpClear => Ok (clear c, d)
  | OpEraseIf f => let? c := erase_if f c in Ok (c, d)
  end.

Fixpoint run_ops (rand : RandomEngine) (l : list cache_op) (s : RandomEvictionCache * nat)
    : result cache_error (RandomEvictionCache * nat) :=
  match l with
  | [] => Ok s
  | o :: l' => let? s := run_op rand o s in run_ops rand l' s
  end.

(** The map without a bound that the operations describe. *)
Definition spec_op (o : cache_op) (spec : K -> option V) : K -> option V :=
  match o with
  | OpPut k v => spec_put k v spec
  | OpGet _ | OpExists _ _ => spec
  | OpClear => fun _ => None
  | OpEraseIf f => fun k =>
      match spec k with Some v => if f v then None else Some v | None => None end
  end.

Lemma run_op_ok (rand : RandomEngine) (o : cache_op) (spec : K -> option V)
    (c : RandomEvictionCache) (d : nat) :
  uniform rand -> cache_ok spec c ->
  exists c' d', run_op rand o (c, d) = Ok (c', d') /\ cache_ok (spec_op o spec) c' /\
    mMaxSize c' = mMaxSize c.
Proof.
  intros Hr Hc. destruct o as [k v|k|k b| |f]; cbn [run_op spec_op].
  - by apply put_ok.
  - do 2 eexists. split; [reflexivity|]. by destruct (maybeGet_ok k spec c Hc) as (? & ? & _).
  - do 2 eexists. split; [reflexivity|]. unfold cache_exists. cbn.
    destruct Hc as [H1 H2 H3]. by case_match; case_match.
  - do 2 eexists. split; [reflexivity|]. split; [|done]. constructor; cbn; [|lia|done].
    split; [constructor|]. intros k. rewrite lookup_empty. split; [by intros ?%not_elem_of_nil|].
    by intros [].
  - unfold erase_if. destruct Hc as [H1 H2 H3].
    destruct (erase_loop_ok (S (length (mValuePtrs c))) f 0 (mValueMap c) (mValuePtrs c) H1)
      as (m & p & -> & Hc & He & Hle & Hall); [lia|lia|constructor|]. cbn [res_bind].
    do 2 eexists. split; [reflexivity|]. split; [|done]. constructor; cbn; [done|lia|].
    intros k v Hv. destruct (He k) as [E|[E _]]; [|congruence].
    rewrite (H3 k v) by congruence. rewrite Forall_forall in Hall.
    rewrite (Hall k) with v; [done| |done]. apply Hc. by eexists.
Qed.
Lemma cache_ok_empty (maxSize : nat) : cache_ok (fun _ => None) (emptyCache maxSize).
Proof.
  constructor; [|cbn; lia|done]. split; [constructor|]. intros k. cbn. rewrite lookup_empty.
  split; [by intros ?%not_elem_of_nil|by intros []].
Qed.
End cache.

Arguments RandomEvictionCache : clear implicits.
Arguments RandomEvictionCache K V {_ _}.
Arguments CacheValue : clear implicits.
Arguments cache_op : clear implicits.

(** The cache refines the unbounded map: whatever operations are made in
    whatever order and whatever is drawn when entries are evicted, no pointer
    dangles, the number of entries never exceeds the bound, and every value the
    cache holds is the last one put for its key and not erased since. *)
Theorem cache_refines_map {K V : Type} `{Countable K} (rand : RandomEngine) (maxSize : nat)
    (ops : list (cache_op K V)) :
  uniform rand ->
  exists c d, run_ops rand ops (emptyCache maxSize, 0) = Ok (c, d) /\
    length (mValuePtrs c) <= maxSize /\
    (forall k, is_Some (mValueMap c !! k) <-> k ∈ mValuePtrs c) /\
    forall k v, fst (maybeGet k c) = Some v ->
      foldl (fun spec o => spec_op o spec) (fun _ => None) ops k = Some v.
Proof.
  intros Hr. enough (forall spec (c : RandomEvictionCache K V) d, cache_ok spec c ->
    exists c' d', run_ops rand ops (c, d) = Ok (c', d') /\ mMaxSize c' = mMaxSize c /\
      cache_ok (foldl (fun spec o => spec_op o spec) spec ops) c') as Hrun.
  { destruct (Hrun (fun _ => None) (emptyCache maxSize) 0 (cache_ok_empty maxSize)) as (c & d & E & Hm & Hc).
    exists c, d. split; [done|]. pose proof (ok_size _ _ Hc) as Hsz. rewrite Hm in Hsz.
    split; [done|]. split; [intros k; symmetry; apply (ok_consistent _ _ Hc)|].
    intros k v Hk. by apply (maybeGet_ok k _ c Hc). }
  induction ops as [|o ops IH]; intros spec c d Hc; [by exists c, d|]. cbn [run_ops foldl].
  destruct (run_op_ok rand o spec c d Hr Hc) as (c1 & d1 & -> & Hc1 & Hm1). cbn [res_bind].
  destruct (IH _ c1 d1 Hc1) as (c2 & d2 & -> & Hm2 & Hc2). exists c2, d2.
  split; [done|]. split; [by rewrite Hm2|done].
Qed.

(** Three insertions in a cache of two entries. *)
Definition example_rand : RandomEngine := fun k hi => Nat.min (k mod 2) hi.

Lemma example_rand_uniform : uniform example_rand.
Proof. intros k hi. unfold example_rand. lia. Qed.

Lemma cache_refines_map_witness :
  exists c d, run_ops example_rand [OpPut 1 10; OpPut 2 20; OpGet 1; OpPut 3 30]
      (@emptyCache nat nat _ _ 2, 0) = Ok (c, d) /\
    mValuePtrs c = [1; 3] /\ length (mValuePtrs c) <= 2.
Proof.
  destruct (cache_refines_map example_rand 2
    [OpPut 1 10; OpPut 2 20; OpGet 1; OpPut 3 30] example_rand_uniform) as (c & d & E & Hl & _).
  exists c, d. split; [exact E|]. split; [|exact Hl].
  vm_compute in E. injection E as <- <-. reflexivity.
Defined.
