(* ===== verification/QuorumIntersection.v ===== *)
(** * The quorum intersection checker

    [src/herder/QuorumIntersectionCheckerImpl.cpp]: given the quorum sets of a
    network, decide whether any two quorums intersect, by a search over the
    strongly connected component that holds the quorums.  The statistics the
    search logs are left out, except the number of calls, at which the
    interruption flag is read.  Draws of random numbers and the moments at
    which another thread sets the flag are parameters. *)
From stdpp Require Import base tactics list sorting numbers sets gmap fin_sets.
From Stdlib Require Import ZArith Lia Bool.
From S2P Require Import Prelude Containers QuorumSet LocalNode BitSet Tarjan RandomEvictionCache.

Open Scope Z_scope.
Open Scope kin_scope.

(** ** Data *)

(** [mThreshold], [mNodes], [mInnerSets], [mAllSuccessors]. *)
Inductive QBitSet : Type :=
  mkQBitSet (threshold : Z) (nodes : BitSet) (innerSets : list QBitSet) (allSuccessors : BitSet).

Definition qb_threshold (q : QBitSet) : Z := let 'mkQBitSet t _ _ _ := q in t.
Definition qb_nodes (q : QBitSet) : BitSet := let 'mkQBitSet _ v _ _ := q in v.
Definition qb_inner (q : QBitSet) : list QBitSet := let 'mkQBitSet _ _ i _ := q in i.
Definition qb_succ (q : QBitSet) : BitSet := let 'mkQBitSet _ _ _ s := q in s.

Definition getSuccessors (nodes : BitSet) (inner : list QBitSet) : BitSet :=
  foldl (fun out i => out ∪ qb_succ i) nodes inner.

(** The constructor. *)
Definition makeQBitSet (threshold : Z) (nodes : BitSet) (innerSets : list QBitSet) : QBitSet :=
  mkQBitSet threshold nodes innerSets (getSuccessors nodes innerSets).

Notation QGraph := (list QBitSet) (only parsing).

(** What the constructor of the checker computes. *)
Record Checker := {
  mBitNumPubKeys : list NodeID;
  mPubKeyBitNums : gmap NodeID nat;
  mGraph : list QBitSet;
  mTSC_SCCs : list BitSet;
}.

(** What the search changes. *)
Record QicState := {
  mCachedQuorums : RandomEvictionCache BitSet bool;
  mDraws : nat;
  mCallsStarted : nat;
  mPotentialSplit : list NodeID * list NodeID;
}.

Inductive qic_error :=
  | InterruptedException
  | GraphOutOfRange            (** [mGraph.at], [inDegrees.at], [mBitNumPubKeys.at] *)
  | QicAssertion               (** [releaseAssert] *)
  | QicCache (e : cache_error)
  | QicTarjan (e : tarjan_error)
  | QicOutOfFuel.

Notation Q := (ST QicState qic_error).

(** A step that does not touch the state. *)
Definition lift {A} (m : result qic_error A) : Q A :=
  fun s => match m with Ok a => Ok (a, s) | Err e => Err e end.

(** ** Slices and quorums *)

(** The loop over the inner sets. *)
Definition inner_loop {A} (sat : A -> bool) : list A -> Z -> Z -> bool :=
  fix go l innerThreshold innerFailLimit :=
    match l with
    | [] => false
    | inner :: l' =>
        if sat inner then
          let innerThreshold := innerThreshold - 1 in
          if innerThreshold =? 0 then true else go l' innerThreshold innerFailLimit
        else
          let innerFailLimit := innerFailLimit - 1 in
          if innerFailLimit =? 0 then false else go l' innerThreshold innerFailLimit
    end.

Fixpoint containsQuorumSlice (bs : BitSet) (qbs : QBitSet) : bool :=
  let 'mkQBitSet mThreshold mNodes mInnerSets mAllSuccessors := qbs in
  let intersecting := Z.of_nat (intersectionCount bs mNodes) in
  if mThreshold <=? intersecting then true else
  let innerThreshold := mThreshold - intersecting in
  if Z.of_nat (length mInnerSets) <? innerThreshold then false else
  if Z.of_nat (intersectionCount bs mAllSuccessors) <? mThreshold then false else
  let innerFailLimit := Z.of_nat (length mInnerSets) - innerThreshold + 1 in
  inner_loop (containsQuorumSlice bs) mInnerSets innerThreshold innerFailLimit.

Definition containsQuorumSliceForNode (G : QGraph) (bs : BitSet) (node : nat)
    : result qic_error bool :=
  if negb (bool_decide (node ∈ bs)) then Ok false else
  match G !! node with
  | Some qbs => Ok (containsQuorumSlice bs qbs)
  | None => Err GraphOutOfRange
  end.

(** One pass over the set. *)
Fixpoint contract_pass (G : QGraph) (l : list nat) (filtered : BitSet)
    : result qic_error BitSet :=
  match l with
  | [] => Ok filtered
  | i :: l' =>
      let? have := containsQuorumSliceForNode G filtered i in
      contract_pass G l' (if (have : bool) then filtered else filtered ∖ {[i]})
  end.

Fixpoint contract_loop (fuel : nat) (G : QGraph) (nodes : BitSet) : result qic_error BitSet :=
  match fuel with
  | O => Err QicOutOfFuel
  | S fuel' =>
      let? filtered := contract_pass G (bits nodes) nodes in
      if (count filtered =? count nodes)%nat || bs_empty filtered then Ok filtered
      else contract_loop fuel' G filtered
  end.

Definition contractToMaximalQuorum (G : QGraph) (nodes : BitSet) : result qic_error BitSet :=
  contract_loop (S (count nodes)) G nodes.

(** ** The search *)

Section search.
Context (rand : RandomEngine) (interrupted : nat -> bool) (qic : Checker).

Definition set_cache (c : RandomEvictionCache BitSet bool) (d : nat) (s : QicState) : QicState :=
  {| mCachedQuorums := c; mDraws := d; mCallsStarted := mCallsStarted s;
     mPotentialSplit := mPotentialSplit s |}.
Definition set_draws (d : nat) (s : QicState) : QicState := set_cache (mCachedQuorums s) d s.
Definition set_calls (k : nat) (s : QicState) : QicState :=
  {| mCachedQuorums := mCachedQuorums s; mDraws := mDraws s; mCallsStarted := k;
     mPotentialSplit := mPotentialSplit s |}.
Definition set_split (p : list NodeID * list NodeID) (s : QicState) : QicState :=
  {| mCachedQuorums := mCachedQuorums s; mDraws := mDraws s;
     mCallsStarted := mCallsStarted s; mPotentialSplit := p |}.

Definition isAQuorum (nodes : BitSet) : Q bool :=
  let! s := get in
  let '(pRes, c) := maybeGet nodes (mCachedQuorums s) in
  modify (set_cache c (mDraws s)) ;;!
  match pRes with
  | None =>
      let! q := lift (contractToMaximalQuorum (mGraph qic) nodes) in
      let result := negb (bs_empty q) in
      let! (c, d) := lift (res_err QicCache (put rand (mDraws s) nodes result c)) in
      modify (set_cache c d) ;;!
      ret result
  | Some res => ret res
  end.

(** The loop of [isMinimalQuorum]: is there a quorum without one of the bits? *)
Fixpoint minimal_loop (nodes : BitSet) (l : list nat) : Q bool :=
  match l with
  | [] => ret true
  | i :: l' =>
      let! sub := isAQuorum (nodes ∖ {[i]}) in
      if (sub : bool) then ret false else minimal_loop nodes l'
  end.

Definition isMinimalQuorum (nodes : BitSet) : Q bool :=
  let! m := lift (contractToMaximalQuorum (mGraph qic) nodes) in
  check (bool_decide (m = nodes)) QicAssertion ;;!
  if bs_empty nodes then ret false else minimal_loop nodes (bits nodes).

Definition pubKeys (nodes : BitSet) : result qic_error (list NodeID) :=
  match mapM (fun i => mBitNumPubKeys qic !! i) (bits nodes) with
  | Some l => Ok l
  | None => Err GraphOutOfRange
  end.

Definition noteFoundDisjointQuorums (nodes disj : BitSet) : Q unit :=
  let! l1 := lift (pubKeys nodes) in
  let! l2 := lift (pubKeys disj) in
  modify (set_split (l1, l2)).

Definition hasDisjointQuorum (scanSCC nodes : BitSet) : Q bool :=
  let! disj := lift (contractToMaximalQuorum (mGraph qic) (scanSCC ∖ nodes)) in
  when (negb (bs_empty disj)) (noteFoundDisjointQuorums nodes disj) ;;!
  ret (negb (bs_empty disj)).

(** The variables of [pickSplitNode]. *)
Record Pick := {
  inDegrees : list nat;
  maxNode : nat;
  maxCount : nat;
  maxDegree : nat;
  pickDraws : nat;
}.

(** An edge to [j]. *)
Definition pick_edge (j : nat) (p : Pick) : result qic_error Pick :=
  match inDegrees p !! j with
  | None => Err GraphOutOfRange
  | Some d =>
      let currDegree := S d in
      let deg := <[j := currDegree]> (inDegrees p) in
      if (maxDegree p <=? currDegree)%nat then
        if (currDegree =? maxDegree p)%nat then
          let count := S (maxCount p) in
          let keep := (rand (pickDraws p) count =? 0)%nat in
          Ok {| inDegrees := deg; maxNode := if keep then maxNode p else j; maxCount := count;
                maxDegree := maxDegree p; pickDraws := S (pickDraws p) |}
        else
          Ok {| inDegrees := deg; maxNode := j; maxCount := 1; maxDegree := currDegree;
                pickDraws := pickDraws p |}
      else
        Ok {| inDegrees := deg; maxNode := maxNode p; maxCount := maxCount p;
              maxDegree := maxDegree p; pickDraws := pickDraws p |}
  end.

Fixpoint pick_edges (l : list nat) (p : Pick) : result qic_error Pick :=
  match l with [] => Ok p | j :: l' => let? p := pick_edge j p in pick_edges l' p end.

Fixpoint pick_nodes (remaining : BitSet) (l : list nat) (p : Pick) : result qic_error Pick :=
  match l with
  | [] => Ok p
  | i :: l' =>
      match mGraph qic !! i with
      | None => Err GraphOutOfRange
      | Some q =>
          let? p := pick_edges (bits (qb_succ q ∩ remaining)) p in
          pick_nodes remaining l' p
      end
  end.

Definition pickSplitNode (remaining : BitSet) : Q nat :=
  let! s := get in
  check (negb (bs_empty remaining)) QicAssertion ;;!
  let! p := lift (pick_nodes remaining (bits remaining)
    {| inDegrees := replicate (length (mGraph qic)) 0%nat; maxNode := bs_max remaining;
       maxCount := 1; maxDegree := 0; pickDraws := mDraws s |}) in
  modify (set_draws (pickDraws p)) ;;!
  ret (maxNode p).

Definition maxCommit (scanSCC : BitSet) : nat := (count scanSCC / 2)%nat.

(** Each level of the recursion removes a node from [remaining]. *)
Fixpoint anyMinQuorumHasDisjointQuorum (fuel : nat) (scanSCC committed remaining : BitSet)
    : Q bool :=
  match fuel with
  | O => fail QicOutOfFuel
  | S fuel' =>
      let! s := get in
      check (negb (interrupted (mCallsStarted s))) InterruptedException ;;!
      modify (set_calls (S (mCallsStarted s))) ;;!
      if (maxCommit scanSCC <? count committed)%nat then ret false else
      let! committedQuorum := lift (contractToMaximalQuorum (mGraph qic) committed) in
      if negb (bs_empty committedQuorum) then
        let! minimal := isMinimalQuorum committedQuorum in
        if (minimal : bool) then hasDisjointQuorum scanSCC committedQuorum else ret false
      else
      let! extensionQuorum := lift (contractToMaximalQuorum (mGraph qic) (committed ∪ remaining)) in
      if bs_empty extensionQuorum then ret false else
      if negb (isSubsetEq committed extensionQuorum) then ret false else
      if bs_empty remaining then ret false else
      let! split := pickSplitNode remaining in
      let remaining := remaining ∖ {[split]} in
      let! first := anyMinQuorumHasDisjointQuorum fuel' scanSCC committed remaining in
      if (first : bool) then ret true
      else anyMinQuorumHasDisjointQuorum fuel' scanSCC ({[split]} ∪ committed) remaining
  end.

(** The first stage: [scanSCC] and [foundDisjoint]. *)
Fixpoint scan_sccs (l : list BitSet) (scanSCC : BitSet) : Q (BitSet * bool) :=
  match l with
  | [] => ret (scanSCC, false)
  | scc :: l' =>
      let! q := lift (contractToMaximalQuorum (mGraph qic) scc) in
      if bs_empty q then scan_sccs l' scanSCC
      else if bs_empty scanSCC then scan_sccs l' scc
      else
        let! q0 := lift (contractToMaximalQuorum (mGraph qic) scanSCC) in
        noteFoundDisjointQuorums q0 q ;;!
        ret (scanSCC, true)
  end.

Definition networkEnjoysQuorumIntersection : Q bool :=
  let! (scanSCC, foundDisjoint) := scan_sccs (mTSC_SCCs qic) ∅ in
  if bs_empty scanSCC then ret true else
  if (foundDisjoint : bool) then ret false else
  let! found := anyMinQuorumHasDisjointQuorum (S (count scanSCC)) scanSCC ∅ scanSCC in
  ret (negb found).
End search.

(** ** Building the graph *)

(** [QuorumTracker::QuorumMap], in the order its iterators go: the nodes, and
    their quorum sets when they are known. *)
Notation QuorumMap := (list (NodeID * option SCPQuorumSet)) (only parsing).

Definition validator_bits (nums : gmap NodeID nat) (v : list NodeID) : BitSet :=
  foldl (fun nodeBits n =>
    match nums !! n with Some i => {[i]} ∪ nodeBits | None => nodeBits end) ∅ v.

Fixpoint convertSCPQuorumSet (nums : gmap NodeID nat) (sqs : SCPQuorumSet) : QBitSet :=
  let 'mkQSet t v i := sqs in
  makeQBitSet t (validator_bits nums v) (map (convertSCPQuorumSet nums) i).

(** The first loop of [buildGraph]. *)
Fixpoint assign_bits (qmap : QuorumMap) (nums : gmap NodeID nat) (keys : list NodeID)
    : gmap NodeID nat * list NodeID :=
  match qmap with
  | [] => (nums, keys)
  | (n, Some _) :: qmap' =>
      assign_bits qmap'
        (match nums !! n with None => <[n := length keys]> nums | Some _ => nums end)
        (keys ++ [n])
  | (_, None) :: qmap' => assign_bits qmap' nums keys
  end.

(** The second loop. *)
Fixpoint convert_all (nums : gmap NodeID nat) (qmap : QuorumMap) (graph : QGraph)
    : result qic_error QGraph :=
  match qmap with
  | [] => Ok graph
  | (n, Some q) :: qmap' =>
      match nums !! n with
      | None => Err QicAssertion
      | Some nodeNum =>
          let? _ := ensure (nodeNum =? length graph)%nat QicAssertion in
          convert_all nums qmap' (graph ++ [convertSCPQuorumSet nums q])
      end
  | (_, None) :: qmap' => convert_all nums qmap' graph
  end.

Definition graph_successors (G : QGraph) (i : nat) : BitSet :=
  match G !! i with Some q => qb_succ q | None => ∅ end.

(** The constructor: [buildGraph] and [buildSCCs]. *)
Definition createChecker (qmap : QuorumMap) : result qic_error Checker :=
  let '(nums, keys) := assign_bits qmap ∅ [] in
  let? graph := convert_all nums qmap [] in
  let? (_, tsc) := res_err QicTarjan
    (calculateSCCs (graph_successors graph) (length graph) noSCCs) in
  Ok {| mBitNumPubKeys := keys; mPubKeyBitNums := nums; mGraph := graph;
        mTSC_SCCs := mSCCs tsc |}.

Definition MAX_CACHED_QUORUMS_SIZE : nat := Z.to_nat 65535.

Definition initialQicState : QicState :=
  {| mCachedQuorums := emptyCache MAX_CACHED_QUORUMS_SIZE; mDraws := 0; mCallsStarted := 0;
     mPotentialSplit := ([], []) |}.

(** [QuorumIntersectionChecker::create] and [networkEnjoysQuorumIntersection]. *)
Definition checkQuorumIntersection (rand : RandomEngine) (interrupted : nat -> bool)
    (qmap : QuorumMap) : result qic_error (bool * QicState) :=
  let? qic := createChecker qmap in
  networkEnjoysQuorumIntersection rand interrupted qic initialQicState.

