(* ===== verification/IntersectionTheorems.v ===== *)
(** * Correctness of the quorum intersection checker

    The checker of [QuorumIntersection.v] answers correctly: its fast test for
    slices agrees with [LocalNode::isQuorumSlice], contraction finds the
    largest quorum inside a set, minimal quorums lie in one component, and the
    search over that component misses no pair of disjoint quorums. *)
From stdpp Require Import base tactics list sorting numbers sets gmap fin_sets.
From Stdlib Require Import ZArith Lia Bool.
From S2P Require Import Prelude Containers QuorumSet LocalNode BitSet Tarjan.
From S2P Require Import RandomEvictionCache QuorumIntersection.

Open Scope Z_scope.
Open Scope kin_scope.

(** ** Slices *)

Lemma qbitset_ind' (P : QBitSet -> Prop) :
  (forall t v i s, Forall P i -> P (mkQBitSet t v i s)) -> forall q, P q.
Proof.
  intros HP. fix IH 1. intros [t v i s]. apply HP.
  induction i as [|q i IHi]; constructor; [apply IH | exact IHi].
Qed.

(** The rule for slices, without shortcuts. *)
Fixpoint qb_slice (bs : BitSet) (q : QBitSet) : bool :=
  let 'mkQBitSet t v i _ := q in
  t <=? Z.of_nat (size (bs ∩ v)) + countb (qb_slice bs) i.

Definition union_succ (l : list QBitSet) : BitSet := ⋃ map qb_succ l.

Fixpoint disjoint_succ (l : list QBitSet) : Prop :=
  match l with [] => True | q :: l' => qb_succ q ## union_succ l' /\ disjoint_succ l' end.

(** Positive thresholds, and no node named twice. *)
Inductive wf_qb : QBitSet -> Prop :=
  wf_qb_intro t v i s :
    1 <= t -> Forall wf_qb i -> s = v ∪ union_succ i -> v ## union_succ i -> disjoint_succ i ->
    wf_qb (mkQBitSet t v i s).

Lemma size_split (bs A B : BitSet) :
  A ## B -> size (bs ∩ (A ∪ B)) = (size (bs ∩ A) + size (bs ∩ B))%nat.
Proof.
  intros Hd. rewrite <- size_union by set_solver. f_equal. set_solver.
Qed.

(** Every entry that counts has a node of its own in the set. *)
Lemma hits_bound (bs : BitSet) (q : QBitSet) :
  wf_qb q ->
  Z.of_nat (size (bs ∩ qb_nodes q)) + countb (qb_slice bs) (qb_inner q)
    <= Z.of_nat (size (bs ∩ qb_succ q)).
Proof.
  induction q as [t v i s IH] using qbitset_ind'. intros Hwf.
  inversion Hwf as [? ? ? ? Ht Hi -> Hd Hdi]; subst. cbn.
  rewrite size_split by done.
  enough (countb (qb_slice bs) i <= Z.of_nat (size (bs ∩ union_succ i))) by lia.
  clear Hwf Hd Ht. revert IH. induction Hi as [|q i Hq Hi IHi]; intros IH; [unfold countb; cbn; lia|].
  inversion IH as [|? ? Hq' IH']; subst. destruct Hdi as [Hqd Hdi].
  rewrite countb_cons. change (union_succ (q :: i)) with (qb_succ q ∪ union_succ i).
  rewrite size_split by done. specialize (IHi Hdi IH'). specialize (Hq' Hq).
  destruct (qb_slice bs q) eqn:E; [|lia].
  inversion Hq as [t' v' i' s' Ht' _ _ _ _]; subst. cbn in E, Hq'. apply Z.leb_le in E. cbn. lia.
Qed.

Lemma inner_loop_count {A} (sat : A -> bool) (l : list A) (it fl : Z) :
  1 <= it -> fl = Z.of_nat (length l) - it + 1 -> 1 <= fl ->
  inner_loop sat l it fl = (it <=? countb sat l).
Proof.
  revert it fl. induction l as [|x l IH]; intros it fl Hit Hfl Hfl1; [cbn in *; lia|].
  cbn [inner_loop]. rewrite countb_cons. cbn [length] in Hfl.
  assert (countb sat l <= Z.of_nat (length l)).
  { unfold countb. pose proof (filter_length_le sat l). lia. }
  pose proof (countb_nonneg sat l). destruct (sat x).
  - destruct (Z.eqb_spec (it - 1) 0); [symmetry; apply Z.leb_le; lia|].
    fold (inner_loop sat l (it - 1) fl). rewrite IH by lia.
    apply eq_bool_prop_intro. rewrite !Is_true_true, !Z.leb_le. lia.
  - destruct (Z.eqb_spec (fl - 1) 0); [symmetry; apply Z.leb_gt; lia|].
    fold (inner_loop sat l it (fl - 1)). rewrite IH by lia. by rewrite Z.add_0_l.
Qed.

(** The shortcuts of [containsQuorumSlice] are right. *)
Lemma containsQuorumSlice_slice (bs : BitSet) (q : QBitSet) :
  wf_qb q -> containsQuorumSlice bs q = qb_slice bs q.
Proof.
  induction q as [t v i s IH] using qbitset_ind'. intros Hwf.
  pose proof (hits_bound bs _ Hwf) as Hb. cbn in Hb.
  inversion Hwf as [? ? ? ? Ht Hi Hs Hd Hdi]; subst s. cbn [containsQuorumSlice qb_slice].
  unfold intersectionCount.
  assert (countb (containsQuorumSlice bs) i = countb (qb_slice bs) i) as Hc.
  { apply countb_ext. clear -IH Hi. induction IH; inversion Hi; subst; constructor; auto. }
  pose proof (countb_nonneg (qb_slice bs) i).
  assert (countb (qb_slice bs) i <= Z.of_nat (length i)).
  { unfold countb. pose proof (filter_length_le (qb_slice bs) i). lia. }
  set (hit := Z.of_nat (size (bs ∩ v))) in *.
  destruct (Z.leb_spec t hit); [symmetry; apply Z.leb_le; lia|].
  destruct (Z.ltb_spec (Z.of_nat (length i)) (t - hit)); [symmetry; apply Z.leb_gt; lia|].
  destruct (Z.ltb_spec (Z.of_nat (size (bs ∩ (v ∪ union_succ i)))) t);
    [symmetry; apply Z.leb_gt; lia|].
  rewrite inner_loop_count by lia. rewrite Hc.
  apply eq_bool_prop_intro. rewrite !Is_true_true, !Z.leb_le. lia.
Qed.

(** Only the nodes it names matter to a set, and more nodes never hurt. *)
Lemma qb_slice_mono (X Y : BitSet) (q : QBitSet) :
  wf_qb q -> X ∩ qb_succ q ⊆ Y -> qb_slice X q = true -> qb_slice Y q = true.
Proof.
  induction q as [t v i s IH] using qbitset_ind'. intros Hwf HXY.
  inversion Hwf as [? ? ? ? Ht Hi -> Hd Hdi]; subst. cbn in *. rewrite !Z.leb_le.
  assert (size (X ∩ v) <= size (Y ∩ v))%nat by (apply subseteq_size; set_solver).
  enough (countb (qb_slice X) i <= countb (qb_slice Y) i) by lia.
  apply countb_mono. apply Forall_forall. intros q Hq. rewrite Forall_forall in IH, Hi.
  apply IH; [done|by apply Hi|]. assert (qb_succ q ⊆ union_succ i); [|set_solver].
  unfold union_succ. intros x Hx. apply elem_of_union_list. exists (qb_succ q).
  split; [by apply list_elem_of_fmap_2|done].
Qed.

(** ** Contraction *)

Section graph.
Context (G : list QBitSet) (HG : Forall wf_qb G).

Definition in_range (X : BitSet) : Prop := forall i, i ∈ X -> (i < length G)%nat.

Definition slice_for (X : BitSet) (i : nat) : bool :=
  match G !! i with Some q => qb_slice X q | None => false end.

(** A quorum, possibly empty. *)
Definition bquorum (X : BitSet) : Prop := forall i, i ∈ X -> slice_for X i = true.

Lemma graph_wf (i : nat) (q : QBitSet) : G !! i = Some q -> wf_qb q.
Proof. intros Hi. rewrite Forall_forall in HG. apply HG. by eapply list_elem_of_lookup_2. Qed.

Lemma bquorum_range (X : BitSet) : bquorum X -> in_range X.
Proof.
  intros HX i Hi. specialize (HX i Hi). unfold slice_for in HX.
  destruct (G !! i) eqn:E; [|done]. by apply lookup_lt_Some in E.
Qed.

Lemma slice_for_mono (X Y : BitSet) (i : nat) :
  X ∩ graph_successors G i ⊆ Y -> slice_for X i = true -> slice_for Y i = true.
Proof.
  unfold slice_for, graph_successors. destruct (G !! i) as [q|] eqn:E; [|done].
  intros HXY. apply qb_slice_mono; [by eapply graph_wf|done].
Qed.

Lemma bquorum_empty : bquorum ∅.
Proof. set_solver. Qed.

Lemma sliceForNode_ok (bs : BitSet) (i : nat) :
  (i < length G)%nat ->
  containsQuorumSliceForNode G bs i = Ok (bool_decide (i ∈ bs) && slice_for bs i).
Proof.
  intros Hi. unfold containsQuorumSliceForNode, slice_for.
  destruct (bool_decide (i ∈ bs)); [|done]. cbn [negb].
  destruct (lookup_lt_is_Some_2 G i Hi) as [q Hq]. rewrite Hq.
  by rewrite containsQuorumSlice_slice by (by eapply graph_wf).
Qed.

Lemma contract_pass_ok (l : list nat) (X : BitSet) :
  (forall i, i ∈ l -> (i < length G)%nat) ->
  exists F, contract_pass G l X = Ok F /\ F ⊆ X /\
    (forall Q, bquorum Q -> Q ⊆ X -> Q ⊆ F) /\
    (F = X -> forall i, i ∈ l -> i ∈ X -> slice_for X i = true).
Proof.
  revert X. induction l as [|i l IH]; intros X Hl; cbn [contract_pass].
  { exists X. split; [done|]. split; [done|]. split; [auto|]. by intros _ i ?%not_elem_of_nil. }
  rewrite sliceForNode_ok by (apply Hl; by left). cbn [res_bind].
  assert (forall i, i ∈ l -> (i < length G)%nat) as Hl' by (intros j Hj; apply Hl; by right).
  destruct (bool_decide (i ∈ X) && slice_for X i) eqn:E.
  - destruct (IH X Hl') as (F & -> & HF & HQ & Hall). exists F. split; [done|].
    split; [done|]. split; [done|]. intros -> j [->|Hj]%elem_of_cons Hin; [by bprop|by apply Hall].
  - destruct (IH (X ∖ {[i]}) Hl') as (F & -> & HF & HQ & Hall). exists F. split; [done|].
    split; [set_solver|]. split.
    + intros Q HQq HQX. apply HQ; [done|]. intros j Hj. apply elem_of_difference.
      split; [by apply HQX|]. intros ->%elem_of_singleton.
      apply andb_false_iff in E as [E|E]; [apply bool_decide_eq_false in E; by apply E, HQX|].
      assert (slice_for X i = true); [|congruence].
      eapply slice_for_mono; [|by apply HQq]. set_solver.
    + intros EF j Hj Hin. destruct (decide (i ∈ X)) as [Hi|Hi].
      * exfalso. rewrite <- EF in Hi. apply HF in Hi. set_solver.
      * assert (X ∖ {[i]} = X) as EX by set_solver. rewrite EX in Hall.
        apply elem_of_cons in Hj as [->|Hj]; [done|]. by apply Hall.
Qed.

(** Contraction finds the largest quorum. *)
Definition max_quorum (X F : BitSet) : Prop :=
  F ⊆ X /\ bquorum F /\ forall Q, bquorum Q -> Q ⊆ X -> Q ⊆ F.

Lemma contract_loop_ok (fuel : nat) (X : BitSet) :
  in_range X -> (size X < fuel)%nat ->
  exists F, contract_loop fuel G X = Ok F /\ max_quorum X F.
Proof.
  revert X. induction fuel as [|fuel IH]; intros X Hr Hf; [lia|]. cbn [contract_loop].
  destruct (contract_pass_ok (bits X) X) as (F & -> & HF & HQ & Hall).
  { intros i Hi%elem_of_bits. by apply Hr. }
  cbn [res_bind]. unfold count. destruct (Nat.eqb_spec (size F) (size X)) as [E|E]; cbn [orb].
  - exists F. split; [done|]. assert (F = X) as EF.
    { apply leibniz_equiv, set_subseteq_size_equiv; [done|lia]. }
    subst F. split; [done|]. split; [|auto]. intros i Hi. apply Hall; [done| |done].
    by apply elem_of_bits.
  - destruct (bs_empty F) eqn:Ee.
    + apply bs_empty_true in Ee as ->. exists ∅. split; [done|]. split; [set_solver|].
      split; [apply bquorum_empty|done].
    + pose proof (subseteq_size F X HF). destruct (IH F) as (F' & -> & HF' & Hq & Hm).
      { intros i Hi. by apply Hr, HF. }
      { lia. }
      exists F'. split; [done|]. split; [set_solver|]. split; [done|]. auto.
Qed.

Lemma contract_ok (X : BitSet) :
  in_range X -> exists F, contractToMaximalQuorum G X = Ok F /\ max_quorum X F.
Proof. intros Hr. apply contract_loop_ok; [done|]. unfold count. lia. Qed.

Lemma max_quorum_empty (X Q : BitSet) : max_quorum X ∅ -> bquorum Q -> Q ⊆ X -> Q = ∅.
Proof. intros (_ & _ & Hm) HQ HX. specialize (Hm Q HQ HX). set_solver. Qed.

(** *** Minimal quorums *)

Definition min_quorum (M : BitSet) : Prop :=
  M <> ∅ /\ bquorum M /\ forall Q, bquorum Q -> Q ⊆ M -> Q <> ∅ -> Q = M.

(** A quorum is minimal, or has a quorum without one of its nodes. *)
Lemma min_or_smaller (X : BitSet) :
  X <> ∅ -> bquorum X -> min_quorum X \/ exists Q, bquorum Q /\ Q <> ∅ /\ Q ⊂ X.
Proof.
  intros Hne HX.
  assert (forall l : list nat, (forall i, i ∈ l -> i ∈ X) ->
    (forall i Q, i ∈ l -> bquorum Q -> Q ⊆ X ∖ {[i]} -> Q = ∅) \/
    exists Q, bquorum Q /\ Q <> ∅ /\ Q ⊂ X) as Hl.
  { induction l as [|i l IH]; intros Hin; [left; by intros ? ? ?%not_elem_of_nil|].
    destruct IH as [Hall|?]; [intros j Hj; apply Hin; by right| |by right].
    destruct (contract_ok (X ∖ {[i]})) as (F & _ & HF).
    { intros j Hj. apply (bquorum_range X HX). set_solver. }
    destruct (decide (F = ∅)) as [->|HFne].
    - left. intros j Q [->|Hj]%elem_of_cons HQ HQX; [by eapply max_quorum_empty|by eapply Hall].
    - right. exists F. destruct HF as (HFX & HFq & _). split; [done|]. split; [done|].
      specialize (Hin i ltac:(by left)). set_solver. }
  destruct (Hl (elements X)) as [Hall|?]; [by intros i ?%elem_of_elements| |by right].
  left. split; [done|]. split; [done|]. intros Q HQ HQX HQne.
  destruct (decide (Q = X)) as [|Hn]; [done|exfalso].
  assert (exists i, i ∈ X /\ i ∉ Q) as (i & Hi & HiQ).
  { destruct (decide (X ∖ Q = ∅)) as [E|E].
    - exfalso. apply Hn, (anti_symm (⊆)); [done|]. by apply empty_difference_subseteq_L.
    - apply set_choose_L in E as [i Hi]. exists i. by apply elem_of_difference in Hi. }
  apply HQne. apply (Hall i Q); [by apply elem_of_elements|done|]. clear -HQX HiQ. set_solver.
Qed.

Lemma min_exists (X : BitSet) :
  X <> ∅ -> bquorum X -> exists M, M ⊆ X /\ min_quorum M.
Proof.
  induction (set_wf X) as [X _ IH]. intros Hne HX.
  destruct (min_or_smaller X Hne HX) as [Hm|(Q & HQ & HQne & HQX)]; [by exists X|].
  destruct (IH Q HQX HQne HQ) as (M & HM & Hmin). exists M. split; [set_solver|done].
Qed.

(** *** Components *)

(** The first element of a list with a property. *)
Lemma first_split {A} (P : A -> Prop) `{forall x, Decision (P x)} (l : list A) (x : A) :
  x ∈ l -> P x -> exists l1 y l2, l = l1 ++ y :: l2 /\ P y /\ forall z, z ∈ l1 -> ~ P z.
Proof.
  induction l as [|y l IH]; [by intros ?%not_elem_of_nil|]. intros Hx HP.
  destruct (decide (P y)) as [Hy|Hy].
  { exists [], y, l. split; [done|]. split; [done|]. by intros z ?%not_elem_of_nil. }
  apply elem_of_cons in Hx as [->|Hx]; [done|].
  destruct (IH Hx HP) as (l1 & z & l2 & -> & Hz & Hl1). exists (y :: l1), z, l2.
  split; [done|]. split; [done|]. by intros u [->|Hu]%elem_of_cons; [|apply Hl1].
Qed.

(** What the checker uses of the components: they cover the graph, and an edge
    leads to the same component or to an earlier one. *)
Record components (sccs : list BitSet) : Prop := {
  comp_range : forall C, C ∈ sccs -> in_range C;
  comp_cover : forall v, (v < length G)%nat -> exists C, C ∈ sccs /\ v ∈ C;
  comp_order : forall l1 C l2 v w, sccs = l1 ++ C :: l2 -> v ∈ C ->
    w ∈ graph_successors G v -> w ∈ C \/ exists D, D ∈ l1 /\ w ∈ D;
  comp_disjoint : forall l1 C l2 D, sccs = l1 ++ C :: l2 -> D ∈ l1 -> D ## C;
}.

Lemma min_in_component (sccs : list BitSet) (M : BitSet) :
  components sccs -> min_quorum M -> exists C, C ∈ sccs /\ M ⊆ C.
Proof.
  intros Hc (Hne & Hq & Hmin). apply set_choose_L in Hne as Hx. destruct Hx as [x Hx].
  destruct (comp_cover _ Hc x) as (C0 & HC0 & HxC); [by apply (bquorum_range M)|].
  destruct (first_split (fun C => M ∩ C <> ∅) sccs C0 HC0) as (l1 & C & l2 & E & HC & Hl1).
  { apply (non_empty_inhabited_L x). by apply elem_of_intersection. }
  exists C. split; [rewrite E; apply elem_of_app; right; by left|].
  assert (M ∩ C = M) as EM; [|rewrite <- EM; apply intersection_subseteq_r].
  apply Hmin; [|apply intersection_subseteq_l|done].
  intros i [HiM HiC]%elem_of_intersection.
  apply (slice_for_mono M); [|by apply Hq]. intros w [HwM Hw]%elem_of_intersection.
  apply elem_of_intersection. split; [done|].
  destruct (comp_order _ Hc l1 C l2 i w E HiC Hw) as [?|(D & HD & HwD)]; [done|exfalso].
  apply (Hl1 D HD). apply (non_empty_inhabited_L w). by apply elem_of_intersection.
Qed.
End graph.

(** ** The search *)

Lemma wp_lift {A} (E : qic_error -> Prop) (m : result qic_error A) (a : A)
    (Q : A -> QicState -> Prop) (s : QicState) :
  m = Ok a -> Q a s -> wp E (lift m) Q s.
Proof. intros -> HQ. exact HQ. Qed.

Section search.
Context (rand : RandomEngine) (Hrand : uniform rand) (interrupted : nat -> bool).
Context (qic : Checker).
Notation G := (mGraph qic).
Context (HG : Forall wf_qb G) (Hkeys : length (mBitNumPubKeys qic) = length G).

(** The only exception is the interruption. *)
Definition interruption (e : qic_error) : Prop :=
  e = InterruptedException /\ exists k, interrupted k = true.

Notation wpQ := (wp interruption).

Definition is_q (X : BitSet) : option bool :=
  match contractToMaximalQuorum G X with Ok F => Some (negb (bs_empty F)) | Err _ => None end.

(** The cache holds right answers. *)
Definition state_ok (s : QicState) : Prop := cache_ok is_q (mCachedQuorums s).

Definition quiet (s s' : QicState) : Prop :=
  state_ok s' /\ mPotentialSplit s' = mPotentialSplit s.

Lemma cache_ok_ext (f g : BitSet -> option bool) (c : RandomEvictionCache BitSet bool) :
  (forall X, f X = g X) -> cache_ok f c -> cache_ok g c.
Proof. intros Hfg [H1 H2 H3]. constructor; [done|done|]. intros k v Hk. rewrite <- Hfg. auto. Qed.

(** A set contains a quorum. *)
Definition has_quorum (X : BitSet) : Prop := exists F, F ⊆ X /\ bquorum G F /\ F <> ∅.

Lemma max_quorum_has (X F : BitSet) : max_quorum G X F -> F <> ∅ <-> has_quorum X.
Proof.
  intros (H1 & H2 & H3). split; [intros Hne; by exists F|].
  intros (F' & HX & HF & Hne) ->. apply Hne. specialize (H3 F' HF HX). set_solver.
Qed.

Lemma isAQuorum_ok (X : BitSet) (s : QicState) :
  in_range G X -> state_ok s ->
  wpQ (isAQuorum rand qic X) (fun b s' => quiet s s' /\ (b = true <-> has_quorum X)) s.
Proof.
  intros Hr Hs. unfold isAQuorum. destruct (contract_ok G HG X Hr) as (F & HF & Hmax).
  assert (is_q X = Some (negb (bs_empty F))) as Hq by (unfold is_q; by rewrite HF).
  assert (negb (bs_empty F) = true <-> has_quorum X) as Hb.
  { rewrite negb_true_iff, bs_empty_false. by apply max_quorum_has. }
  apply wp_bind, wp_get. destruct (maybeGet_ok X _ _ Hs) as (Hc & _ & Hv).
  destruct (maybeGet X (mCachedQuorums s)) as [r c] eqn:E. cbn in Hc, Hv.
  apply wp_bind, wp_modify. destruct r as [b|].
  - apply wp_ret. specialize (Hv b eq_refl). split; [done|]. rewrite Hv in Hq. by simplify_eq.
  - apply wp_bind. eapply wp_lift; [done|]. apply wp_bind.
    destruct (put_ok rand (mDraws s) X (negb (bs_empty F)) _ c Hrand Hc) as (c' & d & Ep & Hc' & _).
    eapply wp_lift; [by rewrite Ep|]. apply wp_bind, wp_modify, wp_ret.
    split; [|done]. split; [|done]. unfold state_ok. cbn.
    eapply cache_ok_ext; [|exact Hc']. intros Y. unfold spec_put.
    case_decide; [subst; by rewrite Hq|done].
Qed.

Lemma minimal_loop_ok (X : BitSet) (l : list nat) (s : QicState) :
  in_range G X -> state_ok s ->
  wpQ (minimal_loop rand qic X l) (fun b s' => quiet s s' /\
    (b = true <-> forall i, i ∈ l -> ~ has_quorum (X ∖ {[i]}))) s.
Proof.
  intros Hr. revert s. induction l as [|i l IH]; intros s Hs; cbn [minimal_loop].
  { apply wp_ret. split; [done|]. split; [by intros _ i ?%not_elem_of_nil|done]. }
  apply wp_bind. eapply wp_mono.
  { apply isAQuorum_ok; [|done]. intros j Hj. apply Hr. set_solver. }
  cbn beta. intros b s1 [[Hs1 Hp1] Hb]. destruct b.
  - apply wp_ret. split; [done|]. split; [done|]. intros Hall. exfalso.
    apply (Hall i); [by left|by apply Hb].
  - eapply wp_mono; [by apply IH|]. cbn beta. intros b s2 [[Hs2 Hp2] Hb2].
    split; [split; [done|congruence]|]. rewrite Hb2. split.
    + intros Hall j [->|Hj]%elem_of_cons; [|by apply Hall]. intros Hh. by apply Hb in Hh.
    + intros Hall j Hj. apply Hall. by right.
Qed.

Lemma isMinimalQuorum_ok (X : BitSet) (s : QicState) :
  bquorum G X -> X <> ∅ -> state_ok s ->
  wpQ (isMinimalQuorum rand qic X) (fun b s' => quiet s s' /\ (b = true <-> min_quorum G X)) s.
Proof.
  intros HX Hne Hs. pose proof (bquorum_range G X HX) as Hr. unfold isMinimalQuorum.
  destruct (contract_ok G HG X Hr) as (F & HF & HF1 & HF2 & HF3).
  apply wp_bind. eapply wp_lift; [done|].
  assert (F = X) as -> by (apply (anti_symm (⊆)); auto).
  apply wp_bind, wp_check; [by apply bool_decide_eq_true|].
  apply bs_empty_false in Hne as He. rewrite He.
  eapply wp_mono; [by apply minimal_loop_ok|]. cbn beta. intros b s1 [Hq Hb]. split; [done|].
  rewrite Hb. split.
  - intros Hall. destruct (min_or_smaller G HG X Hne HX) as [?|(Q & HQ & HQne & HQX)]; [done|].
    exfalso. assert (exists i, i ∈ X /\ i ∉ Q) as (i & Hi & HiQ).
    { destruct (set_choose_or_empty (X ∖ Q)) as [[i Hi]|E];
        [exists i; by apply elem_of_difference in Hi|].
      exfalso. destruct HQX as [_ HnX]. apply HnX, empty_difference_subseteq, E. }
    apply (Hall i); [by apply elem_of_bits|]. exists Q. split; [|done].
    destruct HQX as [HQX _]. clear -HQX HiQ. set_solver.
  - intros (_ & _ & Hmin) i Hi%elem_of_bits (Q & HQX & HQ & HQne).
    assert (Q = X) as -> by (apply Hmin; [done| |done]; clear -HQX; set_solver).
    clear -HQX Hi. set_solver.
Qed.

(** *** The node to split on *)

Definition pick_ok (R : BitSet) (p : Pick) : Prop :=
  length (inDegrees p) = length G /\ maxNode p ∈ R.

Lemma pick_edges_ok (R : BitSet) (l : list nat) (p : Pick) :
  in_range G R -> (forall j, j ∈ l -> j ∈ R) -> pick_ok R p ->
  exists p', pick_edges rand l p = Ok p' /\ pick_ok R p'.
Proof.
  intros HR. revert p. induction l as [|j l IH]; intros p Hl [Hlen Hmax]; [by exists p|].
  cbn [pick_edges]. assert (j ∈ R) as Hj by (apply Hl; by left).
  assert (exists p1, pick_edge rand j p = Ok p1 /\ pick_ok R p1) as (p1 & -> & Hp1).
  { unfold pick_edge. destruct (lookup_lt_is_Some_2 (inDegrees p) j) as [d ->].
    { rewrite Hlen. by apply HR. }
    repeat case_match; (eexists; split; [reflexivity|]); split; cbn; rewrite ?length_insert; done. }
  cbn [res_bind]. apply IH; [|done]. intros i Hi. apply Hl. by right.
Qed.

Lemma pick_nodes_ok (R : BitSet) (l : list nat) (p : Pick) :
  in_range G R -> (forall j, j ∈ l -> j ∈ R) -> pick_ok R p ->
  exists p', pick_nodes rand qic R l p = Ok p' /\ pick_ok R p'.
Proof.
  intros HR. revert p. induction l as [|i l IH]; intros p Hl Hp; [by exists p|].
  cbn [pick_nodes]. destruct (lookup_lt_is_Some_2 G i) as [q ->]; [apply HR, Hl; by left|].
  destruct (pick_edges_ok R (bits (qb_succ q ∩ R)) p HR) as (p1 & -> & Hp1); [|done|].
  { intros j Hj%elem_of_bits. by apply elem_of_intersection in Hj as [_ Hj]. }
  cbn [res_bind]. apply IH; [|done]. intros j Hj. apply Hl. by right.
Qed.

Lemma pickSplitNode_ok (R : BitSet) (s : QicState) :
  in_range G R -> R <> ∅ -> state_ok s ->
  wpQ (pickSplitNode rand qic R) (fun i s' => quiet s s' /\ i ∈ R) s.
Proof.
  intros HR Hne Hs. unfold pickSplitNode. apply wp_bind, wp_get, wp_bind, wp_check.
  { by apply negb_true_iff, bs_empty_false. }
  edestruct (pick_nodes_ok R (bits R)) as (p & Hp & _ & Hmax); [done|by intros j ?%elem_of_bits| |].
  2: { apply wp_bind. eapply wp_lift; [exact Hp|]. apply wp_bind, wp_modify, wp_ret.
       by split; [split|]. }
  split; cbn; [apply length_replicate|by apply bs_max_elem].
Qed.

(** *** Reported splits *)

Definition names (X : BitSet) : list NodeID :=
  omap (fun i => mBitNumPubKeys qic !! i) (bits X).

(** Two disjoint quorums. *)
Definition disjoint_quorums (A B : BitSet) : Prop :=
  bquorum G A /\ bquorum G B /\ A <> ∅ /\ B <> ∅ /\ A ## B.

Definition split_ok (s : QicState) : Prop :=
  exists A B, disjoint_quorums A B /\ mPotentialSplit s = (names A, names B).

Lemma pubKeys_ok (X : BitSet) : in_range G X -> pubKeys qic X = Ok (names X).
Proof.
  intros HX. unfold pubKeys, names.
  assert (forall l : list nat, (forall i, i ∈ l -> (i < length G)%nat) ->
    mapM (fun i => mBitNumPubKeys qic !! i) l = Some (omap (fun i => mBitNumPubKeys qic !! i) l)) as Hl.
  { induction l as [|i l IH]; intros Hl; [done|]. cbn.
    destruct (lookup_lt_is_Some_2 (mBitNumPubKeys qic) i) as [k Ek].
    { rewrite Hkeys. apply Hl. by left. }
    rewrite Ek. cbn. rewrite IH by (intros j Hj; apply Hl; by right). done. }
  rewrite Hl; [done|]. intros i Hi%elem_of_bits. by apply HX.
Qed.

Lemma note_ok (A B : BitSet) (s : QicState) :
  disjoint_quorums A B -> state_ok s ->
  wpQ (noteFoundDisjointQuorums qic A B) (fun _ s' => state_ok s' /\ split_ok s') s.
Proof.
  intros HAB Hs. pose proof HAB as (HA & HB & _). unfold noteFoundDisjointQuorums.
  apply wp_bind. eapply wp_lift; [by apply pubKeys_ok, bquorum_range|].
  apply wp_bind. eapply wp_lift; [by apply pubKeys_ok, bquorum_range|].
  apply wp_modify. split; [done|]. by exists A, B.
Qed.

Lemma hasDisjointQuorum_ok (scan X : BitSet) (s : QicState) :
  in_range G scan -> bquorum G X -> X <> ∅ -> state_ok s ->
  wpQ (hasDisjointQuorum qic scan X) (fun b s' => state_ok s' /\
    (b = true <-> has_quorum (scan ∖ X)) /\ (b = true -> split_ok s')) s.
Proof.
  intros Hr HX Hne Hs. unfold hasDisjointQuorum.
  destruct (contract_ok G HG (scan ∖ X)) as (F & HF & Hmax).
  { intros i Hi. apply Hr. clear -Hi. set_solver. }
  apply wp_bind. eapply wp_lift; [done|]. apply wp_bind.
  pose proof (max_quorum_has _ _ Hmax) as Hh. destruct Hmax as (HF1 & HF2 & _).
  destruct (bs_empty F) eqn:E; cbn [negb when].
  - apply wp_ret, wp_ret. split; [done|]. split; [|done]. split; [done|]. intros H.
    apply bs_empty_true in E. by apply Hh in H.
  - apply bs_empty_false in E. eapply wp_mono; [apply note_ok; [|done]|].
    { split; [done|]. split; [done|]. split; [done|]. split; [done|].
      clear -HF1. set_solver. }
    cbn beta. intros _ s1 [Hs1 Hsp]. apply wp_ret. split; [done|]. split; [|done].
    split; [by intros _; apply Hh|done].
Qed.

(** *** The enumeration *)

(** A minimal quorum of at most half the nodes, with a quorum in its complement. *)
Definition witness (scan M : BitSet) : Prop :=
  min_quorum G M /\ (size M <= maxCommit scan)%nat /\ has_quorum (scan ∖ M).

Lemma enumerate_ok (fuel : nat) (scan C R : BitSet) (s : QicState) :
  in_range G scan -> C ∪ R ⊆ scan -> (size R < fuel)%nat -> state_ok s ->
  wpQ (anyMinQuorumHasDisjointQuorum rand interrupted qic fuel scan C R) (fun b s' =>
    state_ok s' /\ (b = true -> split_ok s') /\
    (forall M, C ⊆ M -> M ⊆ C ∪ R -> witness scan M -> b = true)) s.
Proof.
  intros Hr. revert C R s. induction fuel as [|fuel IH]; intros C R s Hsub Hf Hs; [lia|].
  cbn [anyMinQuorumHasDisjointQuorum]. apply wp_bind, wp_get, wp_bind, wp_check_or.
  { intros Hi%negb_false_iff. split; [done|]. by eexists. }
  intros _. apply wp_bind, wp_modify. set (s1 := set_calls _ _).
  assert (state_ok s1) as Hs1 by exact Hs.
  assert (in_range G C) as HrC by (intros i Hi; apply Hr, Hsub; clear -Hi; set_solver).
  assert (in_range G (C ∪ R)) as HrP by (intros i Hi; by apply Hr, Hsub).
  destruct (Nat.ltb_spec (maxCommit scan) (count C)) as [Hbig|Hsmall].
  { apply wp_ret. split; [done|]. split; [done|]. intros M HCM _ (_ & HM & _).
    apply subseteq_size in HCM. unfold count in Hbig. lia. }
  destruct (contract_ok G HG C HrC) as (F & HF & Hmax).
  apply wp_bind. eapply wp_lift; [done|].
  pose proof (max_quorum_has _ _ Hmax) as HhC. pose proof Hmax as (HF1 & HF2 & HF3).
  destruct (bs_empty F) eqn:EF; cbn [negb].
  2: { apply bs_empty_false in EF. apply wp_bind. eapply wp_mono; [by apply isMinimalQuorum_ok|].
       cbn beta. intros mi s2 [[Hs2 _] Hmi].
       assert (forall M, C ⊆ M -> witness scan M -> M = F /\ min_quorum G F) as HMF.
       { intros M HCM (Hmin & _ & _). assert (F = M) as <-; [|done].
         apply Hmin; [done| |done]. by etrans. }
       destruct mi.
       - eapply wp_mono; [by apply hasDisjointQuorum_ok|]. cbn beta.
         intros b s3 (Hs3 & Hb & Hsp). split; [done|]. split; [done|].
         intros M HCM _ HM. apply Hb. destruct (HMF M HCM HM) as [<- _]. apply HM.
       - apply wp_ret. split; [done|]. split; [done|]. intros M HCM _ HM.
         destruct (HMF M HCM HM) as [_ Hmin]. by apply Hmi in Hmin. }
  apply bs_empty_true in EF. subst F.
  destruct (contract_ok G HG (C ∪ R) HrP) as (P & HP & HP1 & HP2 & HP3).
  apply wp_bind. eapply wp_lift; [done|].
  assert (forall M, C ⊆ M -> M ⊆ C ∪ R -> witness scan M -> M ⊆ P /\ M <> ∅) as HMP.
  { intros M _ HMR ((Hne & HMq & _) & _). split; [by apply HP3|done]. }
  destruct (bs_empty P) eqn:EP.
  { apply bs_empty_true in EP. subst P. apply wp_ret. split; [done|]. split; [done|].
    intros M HCM HMR HM. destruct (HMP M HCM HMR HM) as [HM0 Hne]. exfalso. apply Hne.
    clear -HM0. set_solver. }
  destruct (isSubsetEq C P) eqn:ES; cbn [negb].
  2: { apply wp_ret. split; [done|]. split; [done|]. intros M HCM HMR HM.
       destruct (HMP M HCM HMR HM) as [HM0 _]. exfalso. apply not_true_iff_false in ES.
       apply ES, isSubsetEq_true. by etrans. }
  destruct (bs_empty R) eqn:ER.
  { apply bs_empty_true in ER. subst R. apply wp_ret. split; [done|]. split; [done|].
    intros M HCM HMR HM. exfalso. assert (M = C) as -> by (clear -HCM HMR; set_solver).
    destruct HM as ((Hne & HMq & _) & _). apply Hne. specialize (HF3 C HMq). clear -HF3. set_solver. }
  apply bs_empty_false in ER. apply wp_bind. eapply wp_mono.
  { apply pickSplitNode_ok; [|done|done]. intros i Hi. apply HrP. clear -Hi. set_solver. }
  cbn beta. intros i s2 [[Hs2 _] Hi]. apply wp_bind.
  assert (size (R ∖ {[i]}) < fuel)%nat as Hf'.
  { assert (size (R ∖ {[i]}) < size R)%nat; [|lia]. apply subset_size. clear -Hi. set_solver. }
  eapply wp_mono; [apply (IH C (R ∖ {[i]}) s2); [clear -Hsub; set_solver|done|done]|].
  cbn beta. intros b1 s3 (Hs3 & Hsp3 & Hall3). destruct b1.
  { apply wp_ret. split; [done|]. split; [by apply Hsp3|]. done. }
  eapply wp_mono;
    [apply (IH ({[i]} ∪ C) (R ∖ {[i]}) s3); [clear -Hsub Hi; set_solver|done|done]|].
  cbn beta. intros b2 s4 (Hs4 & Hsp4 & Hall4). split; [done|]. split; [done|].
  intros M HCM HMR HM. destruct (decide (i ∈ M)) as [HiM|HiM].
  - apply (Hall4 M); [clear -HCM HiM; set_solver| |done].
    intros x Hx. destruct (decide (x = i)); [set_solver|]. specialize (HMR x Hx). set_solver.
  - exfalso. enough (false = true) by done. apply (Hall3 M); [done| |done].
    intros x Hx. specialize (HMR x Hx). destruct (decide (x = i)) as [->|]; [done|]. set_solver.
Qed.

(** *** The two stages *)

Context (Hcomp : components G (mTSC_SCCs qic)).

(** Only the component [scan], if any, has quorums. *)
Definition sole (l : list BitSet) (scan : BitSet) : Prop :=
  (forall C, C ∈ l -> has_quorum C -> C = scan) /\
  (scan <> ∅ -> scan ∈ l /\ has_quorum scan).

Lemma has_quorum_ne (X : BitSet) : has_quorum X -> X <> ∅.
Proof. intros (F & HF & _ & Hne) ->. apply Hne. clear -HF. set_solver. Qed.

Lemma scan_sccs_ok (d l : list BitSet) (scan : BitSet) (s : QicState) :
  mTSC_SCCs qic = d ++ l -> sole d scan -> state_ok s ->
  wpQ (scan_sccs qic l scan) (fun '(scan', found) s' => state_ok s' /\
    (if (found : bool) then scan' <> ∅ /\ split_ok s' else sole (mTSC_SCCs qic) scan')) s.
Proof.
  revert d scan s. induction l as [|C l IH]; intros d scan s E Hsole Hs; cbn [scan_sccs].
  { apply wp_ret. split; [done|]. by rewrite E, app_nil_r. }
  assert (C ∈ mTSC_SCCs qic) as HC by (rewrite E, elem_of_app; right; by left).
  destruct (contract_ok G HG C (comp_range _ _ Hcomp C HC)) as (F & HF & Hmax).
  apply wp_bind. eapply wp_lift; [done|]. pose proof (max_quorum_has _ _ Hmax) as Hh.
  destruct Hsole as [Hs1 Hs2].
  assert (forall D, D ∈ d ++ [C] -> D ∈ d \/ D = C) as Hd
    by (intros D; rewrite elem_of_app, list_elem_of_singleton; tauto).
  destruct (bs_empty F) eqn:EF.
  { apply bs_empty_true in EF. apply (IH (d ++ [C])); [by rewrite <- app_assoc| |done].
    split; [intros D [HD| ->]%Hd HDq; [by apply Hs1|by apply Hh in HDq]|].
    intros Hne. destruct (Hs2 Hne) as [Hin ?]. rewrite elem_of_app. by split; [left|]. }
  apply bs_empty_false in EF. destruct (bs_empty scan) eqn:ES.
  { apply bs_empty_true in ES. subst scan.
    apply (IH (d ++ [C])); [by rewrite <- app_assoc| |done].
    split; [intros D [HD| ->]%Hd HDq; [|done]|intros _; rewrite elem_of_app, list_elem_of_singleton;
      split; [by right|by apply Hh]].
    exfalso. apply (has_quorum_ne D HDq). by apply Hs1. }
  apply bs_empty_false in ES. destruct (Hs2 ES) as [Hin Hq].
  assert (scan ∈ mTSC_SCCs qic) as Hin' by (rewrite E, elem_of_app; by left).
  destruct (contract_ok G HG scan (comp_range _ _ Hcomp scan Hin')) as (F0 & HF0 & Hmax0).
  apply wp_bind. eapply wp_lift; [done|]. apply wp_bind.
  assert (F0 <> ∅) as HF0ne by (by apply (max_quorum_has _ _ Hmax0)).
  pose proof (comp_disjoint _ _ Hcomp d C l scan E Hin) as Hdis.
  destruct Hmax as (M1 & M2 & _), Hmax0 as (N1 & N2 & _).
  eapply wp_mono; [apply note_ok; [|done]|].
  { split; [done|]. split; [done|]. split; [done|]. split; [done|]. clear -M1 N1 Hdis. set_solver. }
  cbn beta. intros _ s1 [Hs1' Hsp]. apply wp_ret. split; [done|]. done.
Qed.

(** Disjoint quorums of the graph are disjoint minimal quorums of [scan]. *)
Lemma disjoint_in_scan (scan A B : BitSet) :
  sole (mTSC_SCCs qic) scan -> disjoint_quorums A B ->
  exists M N, min_quorum G M /\ min_quorum G N /\ M ## N /\ M ⊆ scan /\ N ⊆ scan.
Proof.
  intros [Hsole _] (HA & HB & HAne & HBne & Hdis).
  destruct (min_exists G HG A HAne HA) as (M & HMA & HM).
  destruct (min_exists G HG B HBne HB) as (N & HNB & HN). exists M, N.
  assert (forall X, min_quorum G X -> X ⊆ scan) as Hscan.
  { intros X HX. destruct (min_in_component G HG _ X Hcomp HX) as (C & HC & HXC).
    rewrite <- (Hsole C HC); [done|]. exists X. split; [done|]. by destruct HX as (? & ? & _). }
  split; [done|]. split; [done|]. split; [clear -HMA HNB Hdis; set_solver|]. auto.
Qed.

Lemma witness_in_scan (scan M N : BitSet) :
  min_quorum G M -> min_quorum G N -> M ## N -> M ⊆ scan -> N ⊆ scan ->
  (size M <= size N)%nat -> witness scan M.
Proof.
  intros HM HN Hdis HMs HNs Hle. split; [done|]. split.
  - unfold maxCommit, count. apply Nat.div_le_lower_bound; [done|].
    assert (size (M ∪ N) <= size scan)%nat as Hsz by (apply subseteq_size; set_solver).
    rewrite size_union in Hsz by done. lia.
  - exists N. destruct HN as (? & ? & _). split; [|done]. clear -Hdis HNs. set_solver.
Qed.

Lemma network_ok (s : QicState) :
  state_ok s ->
  wpQ (networkEnjoysQuorumIntersection rand interrupted qic) (fun b s' =>
    (b = true <-> ~ exists A B, disjoint_quorums A B) /\ (b = false -> split_ok s')) s.
Proof.
  intros Hs. unfold networkEnjoysQuorumIntersection. apply wp_bind.
  eapply wp_mono; [apply (scan_sccs_ok [] (mTSC_SCCs qic) ∅ s); [done| |done]|].
  { split; [by intros C ?%not_elem_of_nil|done]. }
  assert (forall s', split_ok s' -> exists A B, disjoint_quorums A B) as Hex
    by (intros s' (A & B & HAB & _); eauto).
  cbn beta. intros [scan found] s1 [Hs1 Hfound]. destruct found.
  { destruct Hfound as [Hne Hsp]. apply bs_empty_false in Hne. rewrite Hne. apply wp_ret.
    split; [|done]. split; [done|]. intros Hno. exfalso. apply Hno. by eapply Hex. }
  destruct (bs_empty scan) eqn:ES.
  { apply bs_empty_true in ES. subst scan. apply wp_ret. split; [|done]. split; [|done].
    intros _ (A & B & HAB). destruct (disjoint_in_scan ∅ A B Hfound HAB)
      as (M & N & (Hne & _) & _ & _ & HM & _). apply Hne. clear -HM. set_solver. }
  apply bs_empty_false in ES. pose proof Hfound as [_ Hin]. destruct (Hin ES) as [Hin' _].
  pose proof (comp_range _ _ Hcomp scan Hin') as Hr. apply wp_bind.
  eapply wp_mono; [apply (enumerate_ok (S (count scan)) scan ∅ scan s1 Hr)|].
  { clear. set_solver. }
  { unfold count. lia. }
  { done. }
  cbn beta. intros b s2 (Hs2 & Hsp & Hall). apply wp_ret. destruct b; cbn [negb].
  - split; [|by intros _; apply Hsp]. split; [done|]. intros Hno. exfalso. apply Hno.
    eapply Hex. by apply Hsp.
  - split; [|done]. split; [|done]. intros _ (A & B & HAB).
    destruct (disjoint_in_scan scan A B Hfound HAB) as (M & N & HM & HN & Hdis & HMs & HNs).
    enough (false = true) by done.
    destruct (Nat.le_ge_cases (size M) (size N)).
    + apply (Hall M); [clear; set_solver|clear -HMs; set_solver|by apply (witness_in_scan scan M N)].
    + apply (Hall N); [clear; set_solver|clear -HNs; set_solver|by apply (witness_in_scan scan N M)].
Qed.
End search.

(** ** From quorum sets to the graph *)

(** The nodes whose quorum sets are known. *)
Definition live (qmap : list (NodeID * option SCPQuorumSet)) : list (NodeID * SCPQuorumSet) :=
  omap (fun '(n, o) => match o with Some q => Some (n, q) | None => None end) qmap.

(** [nums] and [keys] are inverse to each other. *)
Definition numbering (nums : gmap NodeID nat) (keys : list NodeID) : Prop :=
  forall n i, nums !! n = Some i <-> keys !! i = Some n.

Lemma assign_bits_ok (qmap : list (NodeID * option SCPQuorumSet)) (nums : gmap NodeID nat)
    (keys : list NodeID) :
  numbering nums keys -> NoDup (keys ++ (live qmap).*1) ->
  exists nums', assign_bits qmap nums keys = (nums', keys ++ (live qmap).*1) /\
    numbering nums' (keys ++ (live qmap).*1).
Proof.
  revert nums keys. induction qmap as [|[n [q|]] qmap IH]; intros nums keys Hn Hnd; cbn [assign_bits].
  - exists nums. by rewrite app_nil_r.
  - change ((live ((n, Some q) :: qmap)).*1) with ([n] ++ (live qmap).*1) in *.
    assert (n ∉ keys) as Hni.
    { apply NoDup_app in Hnd as (_ & Hd & _). intros Hin. apply (Hd n Hin). by left. }
    assert (nums !! n = None) as ->.
    { destruct (nums !! n) as [i|] eqn:E; [|done]. apply Hn in E.
      exfalso. by apply Hni, (list_elem_of_lookup_2 _ i). }
    rewrite app_assoc in Hnd |- *. apply IH; [|done].
    intros m i. rewrite lookup_snoc_Some. destruct (decide (m = n)) as [->|Hne].
    + rewrite lookup_insert_eq. split; [intros [= <-]; by right|].
      intros [[_ Hk]|[-> _]]; [|done]. exfalso. by apply Hni, (list_elem_of_lookup_2 _ i).
    + rewrite lookup_insert_ne by done. rewrite (Hn m i). split; [|naive_solver].
      intros Hk. left. split; [by eapply lookup_lt_Some|done].
  - change (live ((n, None) :: qmap)) with (live qmap) in *. by apply IH.
Qed.

Lemma convert_all_ok (nums : gmap NodeID nat) (qmap : list (NodeID * option SCPQuorumSet))
    (graph : list QBitSet) (pre : list NodeID) :
  numbering nums (pre ++ (live qmap).*1) -> length pre = length graph ->
  convert_all nums qmap graph = Ok (graph ++ (convertSCPQuorumSet nums <$> (live qmap).*2)).
Proof.
  revert graph pre. induction qmap as [|[n [q|]] qmap IH]; intros graph pre Hn Hl; cbn [convert_all].
  - by rewrite app_nil_r.
  - change (live ((n, Some q) :: qmap)) with ((n, q) :: live qmap) in *. cbn in Hn |- *.
    assert (nums !! n = Some (length graph)) as ->.
    { apply Hn. rewrite <- Hl. by rewrite list_lookup_middle. }
    rewrite Nat.eqb_refl. cbn [ensure res_bind].
    rewrite (IH _ (pre ++ [n])).
    + by rewrite <- app_assoc.
    + by rewrite <- app_assoc.
    + rewrite !length_app. cbn. lia.
  - change (live ((n, None) :: qmap)) with (live qmap) in *. by apply (IH _ pre).
Qed.

Section convert.
Context (nums : gmap NodeID nat) (keys : list NodeID) (Hnums : numbering nums keys).

Lemma nums_inj (m n : NodeID) (i : nat) : nums !! m = Some i -> nums !! n = Some i -> m = n.
Proof. intros Hm%Hnums Hn%Hnums. congruence. Qed.

Lemma elem_of_validator_bits (v : list NodeID) (i : nat) :
  i ∈ validator_bits nums v <-> exists n, n ∈ v /\ nums !! n = Some i.
Proof.
  unfold validator_bits.
  assert (forall X : BitSet, i ∈ foldl (fun nodeBits n => match nums !! n with
    Some i => {[i]} ∪ nodeBits | None => nodeBits end) X v <->
    i ∈ X \/ exists n, n ∈ v /\ nums !! n = Some i) as H.
  { induction v as [|n v IH]; intros X; cbn.
    - split; [by left|]. intros [?|(n & ?%not_elem_of_nil & _)]; done.
    - rewrite IH. setoid_rewrite elem_of_cons. destruct (nums !! n) as [j|] eqn:E;
        [rewrite elem_of_union, elem_of_singleton|]; naive_solver. }
  rewrite H. set_solver.
Qed.

Lemma foldl_succ (v : BitSet) (l : list QBitSet) : getSuccessors v l = v ∪ union_succ l.
Proof.
  unfold getSuccessors, union_succ. revert v. induction l as [|q l IH]; intros v; cbn; [set_solver|].
  rewrite IH. set_solver.
Qed.

Lemma elem_of_union_succ (l : list QBitSet) (i : nat) :
  i ∈ union_succ l <-> exists q, q ∈ l /\ i ∈ qb_succ q.
Proof.
  unfold union_succ. rewrite elem_of_union_list. split.
  - intros (X & HX & Hi). apply list_elem_of_fmap in HX as (q & -> & Hq). by exists q.
  - intros (q & Hq & Hi). exists (qb_succ q). split; [by apply list_elem_of_fmap_2|done].
Qed.

(** The successors are the numbers of the nodes named. *)
Lemma elem_of_qb_succ (q : SCPQuorumSet) (i : nat) :
  i ∈ qb_succ (convertSCPQuorumSet nums q) <-> exists n, n ∈ qset_nodes q /\ nums !! n = Some i.
Proof.
  revert i. induction q as [t v l IH] using qset_ind'. intros i.
  cbn [convertSCPQuorumSet makeQBitSet qb_succ].
  rewrite foldl_succ, elem_of_union, elem_of_validator_bits, elem_of_union_succ, qset_nodes_eq.
  setoid_rewrite elem_of_app. rewrite Forall_forall in IH. split.
  - intros [(n & Hn & E)|(q & Hq & Hi)]; [by exists n; split; [left|]|].
    apply list_elem_of_fmap in Hq as (q' & -> & Hq'). apply (IH q' Hq') in Hi as (n & Hn & E).
    exists n. split; [|done]. right. apply list_elem_of_In, in_concat. exists (qset_nodes q').
    split; [by apply in_map, list_elem_of_In|by apply list_elem_of_In].
  - intros (n & [Hn|Hn] & E); [left; by exists n|right].
    apply list_elem_of_In, in_concat in Hn as (ns & Hns & Hn).
    apply in_map_iff in Hns as (q' & <- & Hq'). apply list_elem_of_In in Hq', Hn.
    exists (convertSCPQuorumSet nums q'). split; [by apply list_elem_of_fmap_2|].
    apply IH; [done|]. by exists n.
Qed.

(** The nodes of a bit set. *)
Definition in_bits (X : BitSet) (n : NodeID) : bool :=
  match nums !! n with Some i => bool_decide (i ∈ X) | None => false end.

Lemma size_validator_bits (X : BitSet) (v : list NodeID) :
  NoDup v -> Z.of_nat (size (X ∩ validator_bits nums v)) = countb (in_bits X) v.
Proof.
  induction 1 as [|n v Hn Hnd IH].
  { cbn. rewrite intersection_empty_r_L, size_empty. done. }
  rewrite countb_cons, <- IH. unfold in_bits.
  destruct (nums !! n) as [i|] eqn:E.
  - assert (i ∉ validator_bits nums v) as Hi.
    { rewrite elem_of_validator_bits. intros (m & Hm & Em). by rewrite (nums_inj n m i) in Hn. }
    assert (validator_bits nums (n :: v) = {[i]} ∪ validator_bits nums v) as ->.
    { apply set_eq. intros j. rewrite elem_of_union, elem_of_singleton, !elem_of_validator_bits.
      setoid_rewrite elem_of_cons. split; [intros (m & [->|Hm] & Em)|intros [->|(m & Hm & Em)]];
        [left; congruence|right; by exists m|by exists n; split; [left|]|by exists m; split; [right|]]. }
    case_bool_decide as Hix.
    + rewrite intersection_union_l_L. assert (X ∩ {[i]} = {[i]}) as -> by set_solver.
      rewrite size_union by set_solver. rewrite size_singleton. lia.
    + rewrite intersection_union_l_L. assert (X ∩ {[i]} = ∅) as -> by set_solver.
      by rewrite union_empty_l_L.
  - rewrite Z.add_0_l. do 2 f_equal. apply set_eq. intros j.
    rewrite !elem_of_intersection, !elem_of_validator_bits. setoid_rewrite elem_of_cons.
    naive_solver.
Qed.

Lemma inner_nodes_NoDup (t : Z) (v : list NodeID) (l : list SCPQuorumSet) :
  NoDup (qset_nodes (mkQSet t v l)) ->
  NoDup v /\ Forall (fun q => NoDup (qset_nodes q)) l /\
  (forall n, n ∈ v -> n ∉ concat (map qset_nodes l)) /\ NoDup (concat (map qset_nodes l)).
Proof.
  rewrite qset_nodes_eq. intros (Hv & Hd & Hl)%NoDup_app. split; [done|]. split; [|done].
  clear -Hl. induction l as [|q l IH]; [constructor|]. cbn in Hl.
  apply NoDup_app in Hl as (Hq & _ & Hl). constructor; [done|]. by apply IH.
Qed.

Lemma convert_slice (X : BitSet) (q : SCPQuorumSet) :
  NoDup (qset_nodes q) -> qb_slice X (convertSCPQuorumSet nums q) = has_slice (in_bits X) q.
Proof.
  induction q as [t v l IH] using qset_ind'. intros (Hv & Hl & _)%inner_nodes_NoDup.
  rewrite has_slice_eq. cbn [convertSCPQuorumSet makeQBitSet qb_slice].
  rewrite size_validator_bits by done. do 2 f_equal.
  rewrite countb_map. apply countb_ext. rewrite Forall_forall in *. auto.
Qed.

Lemma elem_of_union_convert (l : list SCPQuorumSet) (i : nat) :
  i ∈ union_succ (map (convertSCPQuorumSet nums) l) <->
  exists n, n ∈ concat (map qset_nodes l) /\ nums !! n = Some i.
Proof.
  induction l as [|q l IH]; cbn [map concat].
  - change (union_succ []) with (∅ : BitSet). split; [set_solver|].
    by intros (n & ?%not_elem_of_nil & _).
  - change (union_succ (convertSCPQuorumSet nums q :: map (convertSCPQuorumSet nums) l)) with
      (qb_succ (convertSCPQuorumSet nums q) ∪ union_succ (map (convertSCPQuorumSet nums) l)).
    rewrite elem_of_union, IH, elem_of_qb_succ. setoid_rewrite elem_of_app. naive_solver.
Qed.

Lemma convert_wf (q : SCPQuorumSet) : usable q -> wf_qb (convertSCPQuorumSet nums q).
Proof.
  induction q as [t v l IH] using qset_ind'. intros [Hp Hnd].
  inversion Hp as [? ? ? Ht Hn Hpl]; subst.
  apply inner_nodes_NoDup in Hnd as (Hv & Hl & Hvl & Hcl).
  cbn [convertSCPQuorumSet makeQBitSet]. constructor; [lia| |apply foldl_succ| |].
  - rewrite Forall_map. rewrite Forall_forall in *. intros q Hq. apply IH; [done|].
    split; [by apply Hpl|by apply Hl].
  - intros i (m & Hm & Em)%elem_of_validator_bits (n & Hnn & En)%elem_of_union_convert.
    rewrite (nums_inj m n i) in Hm by done. by apply (Hvl n).
  - clear -Hcl Hnums. induction l as [|q l IH]; [done|]. cbn [map concat] in *.
    apply NoDup_app in Hcl as (_ & Hd & Hcl). split; [|by apply IH].
    intros i (m & Hm & Em)%elem_of_qb_succ (n & Hnn & En)%elem_of_union_convert.
    rewrite (nums_inj m n i) in Hm by done. by apply (Hd n).
Qed.
End convert.

(** ** The network *)

Section network.
Context (qmap : list (NodeID * option SCPQuorumSet)).
Context (Hnodup : NoDup qmap.*1) (Husable : forall n q, (n, Some q) ∈ qmap -> usable q).

(** A quorum among the nodes whose quorum sets are known. *)
Definition net_quorum (U : list NodeID) : Prop :=
  forall n, n ∈ U -> exists q, (n, Some q) ∈ qmap /\ isQuorumSlice q U = true.

Lemma elem_of_live (n : NodeID) (q : SCPQuorumSet) : (n, q) ∈ live qmap <-> (n, Some q) ∈ qmap.
Proof.
  unfold live. rewrite list_elem_of_omap. split.
  - intros ([m [q'|]] & Hin & E); by simplify_eq.
  - intros Hin. by exists (n, Some q).
Qed.

Lemma live_nodup : NoDup (live qmap).*1.
Proof.
  clear Husable. induction qmap as [|[n o] l IH]; [constructor|].
  apply NoDup_cons in Hnodup as [Hn Hl]. specialize (IH Hl). destruct o as [q|]; [|done].
  change ((live ((n, Some q) :: l)).*1) with (n :: (live l).*1). constructor; [|done].
  intros Hin. apply Hn. apply list_elem_of_fmap in Hin as ([m q'] & E0 & Hin). cbn in E0. subst m.
  unfold live in Hin. apply list_elem_of_omap in Hin as ([m' [q''|]] & Hin & E); [|done].
  injection E as -> ->. by apply (list_elem_of_fmap_2 fst l (n, Some q')).
Qed.

(** The checker the constructor builds. *)
Record built (qic : Checker) : Prop := {
  built_numbering : numbering (mPubKeyBitNums qic) (mBitNumPubKeys qic);
  built_keys : mBitNumPubKeys qic = (live qmap).*1;
  built_graph : mGraph qic = convertSCPQuorumSet (mPubKeyBitNums qic) <$> (live qmap).*2;
  built_components : components (mGraph qic) (mTSC_SCCs qic);
}.

Lemma createChecker_ok : exists qic, createChecker qmap = Ok qic /\ built qic.
Proof.
  unfold createChecker.
  destruct (assign_bits_ok qmap ∅ []) as (nums & -> & Hn); [|apply live_nodup|].
  { intros n i. by rewrite lookup_empty, lookup_nil. }
  cbn [app] in *. rewrite (convert_all_ok nums qmap [] []) by done. cbn [app res_bind].
  set (G := convertSCPQuorumSet nums <$> (live qmap).*2).
  assert (forall v w, w ∈ graph_successors G v -> (w < length G)%nat) as Hsucc.
  { intros v w. unfold graph_successors. destruct (G !! v) as [q|] eqn:E; [|by intros ?%elem_of_empty].
    unfold G in E. rewrite list_lookup_fmap in E. destruct ((live qmap).*2 !! v); [|done].
    cbn in E. injection E as <-. intros Hw.
    apply (elem_of_qb_succ nums _ Hn) in Hw as (n & _ & Hw). apply Hn in Hw.
    apply lookup_lt_Some in Hw. unfold G. by rewrite !length_fmap in *. }
  pose proof (calculateSCCs_ok (length G) (graph_successors G) Hsucc noSCCs) as Hscc.
  unfold wp in Hscc. destruct (calculateSCCs _ _ _) as [[[] tsc]|]; [|done].
  destruct Hscc as [Hs Hv]. cbn [res_err res_bind]. eexists. split; [reflexivity|].
  constructor; cbn; [done|done|done|].
  assert (forall v C, C ∈ mSCCs tsc -> v ∈ C -> visited tsc v) as Hvis.
  { intros v C HC HvC. assert (closed tsc v) as [? _]; [|done].
    apply (inv_sccs _ _ _ _ Hs). eauto. }
  constructor.
  - intros C HC v HvC. eapply visited_lt; [done|by eapply Hvis].
  - intros v Hlt. apply (inv_sccs _ _ _ _ Hs). split; [by apply Hv|].
    intros Hin. destruct (inv_down _ _ _ _ Hs v Hin) as (g & Hg & _). by apply not_elem_of_nil in Hg.
  - apply (inv_order _ _ _ _ Hs).
  - intros l1 C l2 D E HD x HxD HxC.
    pose proof (inv_distinct _ _ _ _ Hs) as Hnd. pose proof (inv_class _ _ _ _ Hs) as Hcl.
    rewrite E in Hnd, Hcl. apply NoDup_app in Hnd as (_ & Hnd & _). apply (Hnd D HD).
    apply Forall_app in Hcl as [Hcl1 [HclC _]%Forall_cons]. rewrite Forall_forall in Hcl1.
    destruct (Hcl1 D HD) as (r & _ & Hr), HclC as (r' & _ & Hr').
    enough (D = C) as -> by (by left). apply set_eq. intros v. rewrite Hr, Hr'.
    apply Hr in HxD as (_ & Hrx & Hxr). apply Hr' in HxC as (_ & Hrx' & Hxr').
    assert (rtc (edge (graph_successors G)) r r') as H1 by (by etrans).
    assert (rtc (edge (graph_successors G)) r' r) as H2 by (by etrans).
    split; intros (? & ? & ?); (split; [done|]); split; by etrans.
Qed.

Section built.
Context (qic : Checker) (Hb : built qic).
Notation nums := (mPubKeyBitNums qic).
Notation G := (mGraph qic).

Lemma live_lookup (n : NodeID) (q : SCPQuorumSet) (i : nat) :
  (n, q) ∈ live qmap -> nums !! n = Some i -> live qmap !! i = Some (n, q).
Proof.
  intros Hin Hi. apply (built_numbering _ Hb) in Hi. rewrite (built_keys _ Hb) in Hi.
  apply list_elem_of_lookup_1 in Hin as [j Hj].
  enough (i = j) as -> by done. apply (NoDup_lookup _ _ _ _ live_nodup Hi).
  by rewrite list_lookup_fmap, Hj.
Qed.

Lemma live_num (n : NodeID) (q : SCPQuorumSet) :
  (n, q) ∈ live qmap -> exists i, nums !! n = Some i.
Proof.
  intros Hin. apply list_elem_of_lookup_1 in Hin as [j Hj]. exists j.
  apply (built_numbering _ Hb). rewrite (built_keys _ Hb), list_lookup_fmap, Hj. done.
Qed.

Lemma graph_usable (n : NodeID) (q : SCPQuorumSet) (i : nat) :
  live qmap !! i = Some (n, q) -> usable q.
Proof.
  intros Hi. apply (Husable n). apply elem_of_live. by eapply list_elem_of_lookup_2.
Qed.

Lemma slice_for_live (n : NodeID) (q : SCPQuorumSet) (i : nat) (X : BitSet) :
  live qmap !! i = Some (n, q) -> slice_for G X i = has_slice (in_bits nums X) q.
Proof.
  intros Hi. unfold slice_for. rewrite (built_graph _ Hb), list_lookup_fmap, list_lookup_fmap, Hi.
  cbn. eapply convert_slice; [apply (built_numbering _ Hb)|]. by eapply graph_usable.
Qed.

Lemma graph_all_wf : Forall wf_qb G.
Proof.
  rewrite (built_graph _ Hb), !Forall_fmap. apply Forall_forall. intros [n q] Hin. cbn.
  eapply convert_wf; [apply (built_numbering _ Hb)|]. apply (Husable n). by apply elem_of_live.
Qed.

Lemma built_length : length (mBitNumPubKeys qic) = length G.
Proof. rewrite (built_keys _ Hb), (built_graph _ Hb), !length_fmap. done. Qed.

(** A list of nodes as a bit set. *)
Definition to_bits (U : list NodeID) : BitSet := list_to_set (omap (fun n => nums !! n) U).

Lemma elem_of_to_bits (U : list NodeID) (i : nat) :
  i ∈ to_bits U <-> exists n, n ∈ U /\ nums !! n = Some i.
Proof. unfold to_bits. rewrite elem_of_list_to_set, list_elem_of_omap. done. Qed.

Lemma elem_of_names (X : BitSet) (n : NodeID) :
  n ∈ names qic X <-> exists i, i ∈ X /\ nums !! n = Some i.
Proof.
  unfold names. rewrite list_elem_of_omap. setoid_rewrite elem_of_bits. split.
  - intros (i & Hi & E). exists i. split; [done|]. by apply (built_numbering _ Hb).
  - intros (i & Hi & E). exists i. split; [done|]. by apply (built_numbering _ Hb).
Qed.

(** The members of a quorum set are the same in both forms. *)
Lemma slice_agrees (U : list NodeID) (X : BitSet) (q : SCPQuorumSet) :
  usable q -> (forall n, in_bits nums X n = in_nodes U n) ->
  has_slice (in_bits nums X) q = isQuorumSlice q U.
Proof.
  intros [Hp _] Heq. unfold isQuorumSlice. rewrite isQuorumSliceInternal_count by done.
  apply has_slice_ext. auto.
Qed.

Lemma net_to_bits (U : list NodeID) :
  net_quorum U -> bquorum G (to_bits U) /\ (U <> [] -> to_bits U <> ∅).
Proof.
  intros HU.
  assert (forall n, n ∈ U -> exists i, nums !! n = Some i) as Hnum.
  { intros n Hn. destruct (HU n Hn) as (q & Hq & _). eapply live_num. by apply elem_of_live. }
  assert (forall n, in_bits nums (to_bits U) n = in_nodes U n) as Heq.
  { intros n. apply eq_bool_prop_intro. rewrite !Is_true_true, in_nodes_true. unfold in_bits. split.
    - destruct (nums !! n) as [i|] eqn:E; [|done]. rewrite bool_decide_eq_true, elem_of_to_bits.
      intros (m & Hm & Em). by rewrite (nums_inj _ _ (built_numbering _ Hb) n m i).
    - intros Hn. destruct (Hnum n Hn) as [i E]. rewrite E. apply bool_decide_eq_true, elem_of_to_bits.
      by exists n. }
  split.
  - intros i (n & Hn & E)%elem_of_to_bits. destruct (HU n Hn) as (q & Hq & Hs).
    apply elem_of_live in Hq. pose proof (live_lookup n q i Hq E) as Hl.
    rewrite (slice_for_live n q i _ Hl), (slice_agrees U) by (done || by eapply graph_usable). done.
  - destruct U as [|n U]; [done|]. intros _. destruct (Hnum n ltac:(by left)) as [i E].
    apply (non_empty_inhabited_L i). apply elem_of_to_bits. exists n. split; [by left|done].
Qed.

Lemma bits_to_net (X : BitSet) :
  bquorum G X -> net_quorum (names qic X) /\ (X <> ∅ -> names qic X <> []).
Proof.
  intros HX.
  assert (forall i, i ∈ X -> exists n q, live qmap !! i = Some (n, q) /\ nums !! n = Some i) as Hlive.
  { intros i Hi. apply (bquorum_range G X HX) in Hi. rewrite <- built_length in Hi.
    rewrite (built_keys _ Hb), length_fmap in Hi.
    apply lookup_lt_is_Some_2 in Hi as [[n q] E]. exists n, q. split; [done|].
    apply (built_numbering _ Hb). by rewrite (built_keys _ Hb), list_lookup_fmap, E. }
  assert (forall n, in_bits nums X n = in_nodes (names qic X) n) as Heq.
  { intros n. apply eq_bool_prop_intro. rewrite !Is_true_true, in_nodes_true, elem_of_names.
    unfold in_bits. destruct (nums !! n) as [i|]; [rewrite bool_decide_eq_true|]; naive_solver. }
  split.
  - intros n (i & Hi & E)%elem_of_names. destruct (Hlive i Hi) as (m & q & Hl & Em).
    assert (m = n) as -> by (by eapply (nums_inj _ _ (built_numbering _ Hb))).
    exists q. split; [apply elem_of_live; by eapply list_elem_of_lookup_2|].
    rewrite <- (slice_agrees (names qic X) X) by (done || by eapply graph_usable).
    rewrite <- (slice_for_live n q i X Hl). by apply HX.
  - intros Hne. apply set_choose_L in Hne as [i Hi]. destruct (Hlive i Hi) as (n & q & _ & En).
    intros E0. apply (not_elem_of_nil n). rewrite <- E0. apply elem_of_names. by exists i.
Qed.
End built.

(** Any two quorums of nodes whose quorum sets are known share a node. *)
Definition intersecting : Prop :=
  forall U1 U2, net_quorum U1 -> net_quorum U2 -> U1 <> [] -> U2 <> [] ->
    exists n, n ∈ U1 /\ n ∈ U2.

Lemma check_ok (rand : RandomEngine) (interrupted : nat -> bool) :
  uniform rand ->
  match checkQuorumIntersection rand interrupted qmap with
  | Ok (b, s) =>
      (b = true <-> intersecting) /\
      (b = false -> exists U1 U2, mPotentialSplit s = (U1, U2) /\ net_quorum U1 /\ net_quorum U2 /\
         U1 <> [] /\ U2 <> [] /\ forall n, n ∈ U1 -> n ∉ U2)
  | Err e => e = InterruptedException /\ exists k, interrupted k = true
  end.
Proof.
  intros Hrand. unfold checkQuorumIntersection.
  destruct createChecker_ok as (qic & -> & Hb). cbn [res_bind].
  pose proof (network_ok rand Hrand interrupted qic (graph_all_wf qic Hb) (built_length qic Hb)
    (built_components _ Hb) initialQicState) as Hn.
  unfold wp in Hn. destruct (networkEnjoysQuorumIntersection _ _ _ _) as [[b s]|e].
  2: { apply Hn. constructor; [|cbn; lia|done]. split; [constructor|]. intros k.
       cbn. rewrite lookup_empty. split; [by intros ?%not_elem_of_nil|by intros []]. }
  destruct Hn as [Hiff Hsplit].
  { constructor; [|cbn; lia|done]. split; [constructor|]. intros k.
    cbn. rewrite lookup_empty. split; [by intros ?%not_elem_of_nil|by intros []]. }
  assert (b = false -> exists U1 U2, mPotentialSplit s = (U1, U2) /\ net_quorum U1 /\ net_quorum U2 /\
    U1 <> [] /\ U2 <> [] /\ forall n, n ∈ U1 -> n ∉ U2) as Hno.
  { intros Eb. destruct (Hsplit Eb) as (A & B & (HA & HB & HAne & HBne & Hd) & E).
    destruct (bits_to_net qic Hb A HA) as [NA NAne], (bits_to_net qic Hb B HB) as [NB NBne].
    exists (names qic A), (names qic B). split; [done|]. split; [done|]. split; [done|].
    split; [auto|]. split; [auto|].
    intros n (i & Hi & Ei)%(elem_of_names qic Hb) (j & Hj & Ej)%(elem_of_names qic Hb).
    assert (i = j) as -> by congruence. by apply (Hd j). }
  split; [|done]. split.
  - intros Eb U1 U2 H1 H2 Hne1 Hne2.
    destruct (decide (Exists (fun n => n ∈ U2) U1)) as [Hex|Hex]; [by apply Exists_exists in Hex|].
    exfalso. apply Hiff in Eb. apply Eb. exists (to_bits qic U1), (to_bits qic U2).
    destruct (net_to_bits qic Hb U1 H1) as [B1 N1], (net_to_bits qic Hb U2 H2) as [B2 N2].
    split; [done|]. split; [done|]. split; [auto|]. split; [auto|].
    intros i (n & Hn & En)%elem_of_to_bits (m & Hm & Em)%elem_of_to_bits.
    apply Hex, Exists_exists. exists n. split; [done|].
    by rewrite (nums_inj _ _ (built_numbering _ Hb) n m i).
  - intros Hint. destruct b; [done|]. exfalso.
    destruct (Hno eq_refl) as (U1 & U2 & _ & H1 & H2 & Hne1 & Hne2 & Hd).
    destruct (Hint U1 U2) as (n & Hn1 & Hn2); [done..|]. by apply (Hd n).
Qed.
End network.

(** The quorum sets passed the sanity check. *)
Definition all_sane (qmap : list (NodeID * option SCPQuorumSet)) : Prop :=
  forall n q, (n, Some q) ∈ qmap -> representable q /\ Sanity.isQuorumSetSane q false = true.

Lemma all_sane_usable (qmap : list (NodeID * option SCPQuorumSet)) :
  all_sane qmap -> forall n q, (n, Some q) ∈ qmap -> usable q.
Proof. intros Hs n q Hin. destruct (Hs n q Hin). by eapply sane_usable. Qed.

(** ** Properties *)

(** C14. The quorum intersection checker is correct: for any map of sane quorum
    sets, whatever random numbers it draws, it returns an answer unless it is
    interrupted; the answer is [true] exactly when any two quorums of nodes with
    known quorum sets (by the test [LocalNode::isQuorumSlice] of the protocol)
    share a node; and when it is [false] the split it reports consists of two
    disjoint quorums. *)
Theorem checker_correct (rand : RandomEngine) (interrupted : nat -> bool)
    (qmap : list (NodeID * option SCPQuorumSet)) :
  uniform rand -> (forall k, interrupted k = false) -> NoDup qmap.*1 -> all_sane qmap ->
  exists b s, checkQuorumIntersection rand interrupted qmap = Ok (b, s) /\
    (b = true <-> forall U1 U2, net_quorum qmap U1 -> net_quorum qmap U2 -> U1 <> [] -> U2 <> [] ->
       exists n, n ∈ U1 /\ n ∈ U2) /\
    (b = false -> exists U1 U2, mPotentialSplit s = (U1, U2) /\
       net_quorum qmap U1 /\ net_quorum qmap U2 /\ U1 <> [] /\ U2 <> [] /\
       forall n, n ∈ U1 -> n ∉ U2).
Proof.
  intros Hr Hi Hnd Hs.
  pose proof (check_ok qmap Hnd (all_sane_usable qmap Hs) rand interrupted Hr) as Hc.
  destruct (checkQuorumIntersection rand interrupted qmap) as [[b s]|e].
  - exists b, s. split; [done|]. exact Hc.
  - destruct Hc as [_ [k Hk]]. by rewrite Hi in Hk.
Qed.

(** Four nodes that trust any [t] of themselves. *)
Definition four_trusting (t : Z) : list (NodeID * option SCPQuorumSet) :=
  (fun n => (n, Some (mkQSet t [[1]; [2]; [3]; [4]] []))) <$> [[1]; [2]; [3]; [4]].

Lemma four_trusting_ok (t : Z) :
  1 <= t <= 4 -> NoDup (four_trusting t).*1 /\ all_sane (four_trusting t).
Proof.
  intros Ht. split; [by apply (bool_decide_unpack _)|].
  intros n q Hin. apply list_elem_of_fmap in Hin as (m & [= -> ->] & _).
  split; [constructor; cbn; unfold_ints; (lia || constructor)|].
  assert (t = 1 \/ t = 2 \/ t = 3 \/ t = 4) as [->|[->|[->| ->]]] by lia; reflexivity.
Qed.

(** The answer and the split. *)
Definition answer (r : result qic_error (bool * QicState)) : option (bool * (list NodeID * list NodeID)) :=
  match r with Ok (b, s) => Some (b, mPotentialSplit s) | Err _ => None end.

(** Threshold 3 of 4 intersects; threshold 2 splits in two halves. *)
Lemma checker_correct_witness :
  answer (checkQuorumIntersection example_rand (fun _ => false) (four_trusting 3)) =
    Some (true, ([], [])) /\
  answer (checkQuorumIntersection example_rand (fun _ => false) (four_trusting 2)) =
    Some (false, ([[1]; [2]], [[3]; [4]])) /\
  net_quorum (four_trusting 2) [[1]; [2]] /\ net_quorum (four_trusting 2) [[3]; [4]].
Proof.
  split; [vm_compute; reflexivity|].
  assert (answer (checkQuorumIntersection example_rand (fun _ => false) (four_trusting 2)) =
    Some (false, ([[1]; [2]], [[3]; [4]]))) as E by (vm_compute; reflexivity).
  split; [exact E|].
  destruct (four_trusting_ok 2 ltac:(lia)) as [H1 H2].
  destruct (checker_correct example_rand (fun _ => false) (four_trusting 2) example_rand_uniform
    ltac:(reflexivity) H1 H2) as (b & s & Hc & _ & Hsplit).
  rewrite Hc in E. cbn in E. injection E as -> Es.
  destruct (Hsplit eq_refl) as (U1 & U2 & Es' & Hq1 & Hq2 & _). rewrite Es in Es'.
  injection Es' as <- <-. split; [exact Hq1|exact Hq2].
Defined.
