(* ===== verification/CheckedNetwork.v ===== *)
(** * Agreement of a checked network

    The quorum intersection checker and the consensus protocol together: a
    network whose quorum sets pass the checker agrees.  The quorum sets the
    checker is given are those the nodes run with, and the nodes they name are
    among them and correct. *)
From stdpp Require Import functions base tactics list sorting numbers sets gmap.
From Stdlib Require Import ZArith Lia Bool.
From S2P Require Import Prelude Containers QuorumSet LocalNode Statement SlotState.
From S2P Require Import BallotProtocol BallotInvariant BallotSafety BallotTheorems.
From S2P Require Import Slot SlotTheorems Network.
From S2P Require Import RandomEvictionCache QuorumIntersection IntersectionTheorems.

Open Scope Z_scope.
Open Scope kin_scope.

Section checked.
Context (honest : NodeID -> Prop) {Hdec : forall v, Decision (honest v)}.
Context (qset : NodeID -> SCPQuorumSet).
Context (qmap : list (NodeID * option SCPQuorumSet)).
Context (Hsane : all_sane qmap) (Hnodup : NoDup qmap.*1).

(** The map lists the correct nodes with the quorum sets they run with. *)
Definition tracks : Prop :=
  forall v, honest v <-> exists q, (v, Some q) ∈ qmap /\ q = qset v.

(** The nodes named by quorum sets are correct. *)
Definition closed_network : Prop :=
  forall v w, honest v -> w ∈ qset_nodes (qset v) -> honest w.

Lemma checked_intersection (rand : RandomEngine) (interrupted : nat -> bool) (s : QicState) :
  uniform rand -> tracks -> closed_network ->
  checkQuorumIntersection rand interrupted qmap = Ok (true, s) ->
  quorum_intersection honest qset.
Proof.
  intros Hr Htr Hcl Hc.
  pose proof (check_ok qmap Hnodup (all_sane_usable qmap Hsane) rand interrupted Hr) as Hok.
  rewrite Hc in Hok. destruct Hok as [[Hint _] _]. specialize (Hint eq_refl).
  assert (forall U, quorum honest qset U -> (exists a, a ∈ U /\ honest a) ->
    net_quorum qmap (filter honest U) /\ filter honest U <> []) as Hq.
  { intros U HU (a & Ha & Hha). split.
    - intros n [Hn HnU]%list_elem_of_filter. apply Htr in Hn as Hq.
      destruct Hq as (q & Hq & ->). exists (qset n). split; [done|].
      pose proof (all_sane_usable qmap Hsane _ _ Hq) as [Hp _].
      specialize (HU n HnU Hn). unfold isQuorumSlice in HU |- *.
      rewrite isQuorumSliceInternal_count in HU |- * by done.
      rewrite <- HU. apply has_slice_ext. intros w Hw.
      apply eq_bool_prop_intro. rewrite !Is_true_true, !in_nodes_true, list_elem_of_filter.
      split; [naive_solver|]. intros Hin. split; [by eapply Hcl|done].
    - intros E. apply (not_elem_of_nil a). rewrite <- E. by apply list_elem_of_filter. }
  intros U1 U2 H1 H2 Hx1 Hx2.
  destruct (Hq U1 H1 Hx1) as [N1 E1], (Hq U2 H2 Hx2) as [N2 E2].
  destruct (Hint _ _ N1 N2 E1 E2) as (w & [Hw Hw1]%list_elem_of_filter & [_ Hw2]%list_elem_of_filter).
  by exists w.
Qed.

Context (qhash : NodeID -> Hash) (index : Z) (Vs : list Value).

(** C2. The checker protects the network: if the quorum intersection checker
    accepts the quorum sets the nodes run with, and the nodes these name are
    correct, then no two nodes ever announce different values for a slot,
    however messages are delayed, lost, repeated or reordered. *)
Theorem checked_network_agrees (rand : RandomEngine) (interrupted : nat -> bool) (s : QicState)
    (n : NodeID -> SlotState) (a b : NodeID) (x y : Value) :
  uniform rand -> tracks -> closed_network ->
  checkQuorumIntersection rand interrupted qmap = Ok (true, s) ->
  net_reachable honest qset qhash index Vs n -> honest a -> honest b ->
  x ∈ announced (effects (n a)) -> y ∈ announced (effects (n b)) -> x = y.
Proof.
  intros Hr Htr Hcl Hc Hn Ha Hb Hx Hy.
  pose proof (checked_intersection rand interrupted s Hr Htr Hcl Hc) as Hqi.
  assert (forall v, honest v -> proper (qset v)) as Hp.
  { intros v (q & Hin & ->)%Htr. by eapply all_sane_usable. }
  apply (net_reachable_inv honest qset qhash index Vs Hp) in Hn.
  destruct (announced_decided honest qset qhash index Vs n a x Hn Ha Hx) as (Ua & HA).
  destruct (announced_decided honest qset qhash index Vs n b y Hn Hb Hy) as (Ub & HB).
  by apply (backed_agree honest qset n a b x y Ua Ub).
Qed.
End checked.

(** ** A checked network

    Three nodes that trust any two of themselves. *)

Definition three_map : list (NodeID * option SCPQuorumSet) :=
  (fun n => (n, Some three_nodes)) <$> [[1]; [2]; [3]].

Lemma three_map_sane : all_sane three_map.
Proof.
  intros n q Hin. apply list_elem_of_fmap in Hin as (m & [= -> ->] & _).
  split; [apply three_nodes_representable|reflexivity].
Qed.

Lemma three_map_nodup : NoDup three_map.*1.
Proof. by apply (bool_decide_unpack _). Qed.

Lemma three_map_tracks : tracks correct (fun _ => three_nodes) three_map.
Proof.
  intros v. unfold correct, three_map. split.
  - intros Hv. exists three_nodes. split; [|done].
    exact (list_elem_of_fmap_2 (fun n => (n, Some three_nodes)) _ v Hv).
  - intros (q & Hin & _). apply list_elem_of_fmap in Hin as (m & [= -> ->] & Hm). done.
Qed.

Definition three_actions : list action :=
  [Act [1] (SBumpState [5] true); Act [2] (SBumpState [5] true); Act [3] (SBumpState [5] true)] ++
  exchange ++ exchange ++ exchange ++ exchange.

Lemma checked_network_agrees_witness :
  answer (checkQuorumIntersection example_rand (fun _ => false) three_map) = Some (true, ([], [])) /\
  announced (effects (run_end three_nodes three_actions [1])) = [[5]] /\
  forall x y, x ∈ announced (effects (run_end three_nodes three_actions [1])) ->
    y ∈ announced (effects (run_end three_nodes three_actions [3])) -> x = y.
Proof.
  assert (answer (checkQuorumIntersection example_rand (fun _ => false) three_map) =
    Some (true, ([], []))) as E by (vm_compute; reflexivity).
  split; [exact E|]. split; [vm_compute; reflexivity|].
  destruct (checkQuorumIntersection example_rand (fun _ => false) three_map) as [[b s]|e] eqn:Ec;
    [|discriminate].
  cbn in E. injection E as -> _. intros x y.
  apply (checked_network_agrees correct (fun _ => three_nodes) three_map three_map_sane
    three_map_nodup (fun _ => [0]) 7 [[5]] example_rand (fun _ => false) s
    (run_end three_nodes three_actions) [1] [3]).
  - exact example_rand_uniform.
  - exact three_map_tracks.
  - intros v w _ Hw. exact Hw.
  - exact Ec.
  - apply run_end_reachable; [split; [apply three_nodes_proper|apply three_nodes_distinct]|].
    vm_compute. reflexivity.
  - unfold correct. clear. set_solver.
  - unfold correct. clear. set_solver.
Defined.
