(* ===== verification/Bucket.v ===== *)
(** * Buckets

    [src/bucket/Bucket.cpp] with the iterators it reads and writes buckets
    with ([BucketInputIterator.cpp], [BucketOutputIterator.cpp]) and the order
    of [LedgerCmp.h].  A bucket is the sequence of the records of its file; the
    empty bucket has no file.  The counters of merge events are left out. *)
From stdpp Require Import base tactics list numbers sorting strings.
From Stdlib Require Import ZArith Lia Bool Ascii.
From S2P Require Import Prelude Containers LedgerEntries.

Open Scope Z_scope.
Open Scope kin_scope.

(** ** The order of entries *)

Definition string_code (s : string) : list Z :=
  (fun c => Z.of_N (N_of_ascii c)) <$> String.list_ascii_of_string s.

(** The discriminant and the fields that [operator<] compares, in turn. *)
Definition asset_code (a : TrustLineAsset) : list Z :=
  match a with
  | TL_NATIVE => [0]
  | TL_ALPHANUM4 c i => [1; c; i]
  | TL_ALPHANUM12 c i => [2; c; i]
  | TL_POOL_SHARE p => [3; p]
  end.

Definition key_code (k : LedgerKey) : list Z :=
  match k with
  | ACCOUNT_KEY a => [0; a]
  | TRUSTLINE_KEY a asset => 1 :: a :: asset_code asset
  | OFFER_KEY s o => [2; s; o]
  | DATA_KEY a n => 3 :: a :: string_code n
  | CLAIMABLE_BALANCE_KEY b => [4; b]
  | LIQUIDITY_POOL_KEY p => [5; p]
  end.

(** [LedgerEntryIdCmp]: the type first, then the fields of the key. *)
#[global] Instance LtB_LedgerKey : LtB LedgerKey := fun a b => ltb (key_code a) (key_code b).

Inductive BucketEntry :=
  | METAENTRY (ledgerVersion : Z)
  | LIVEENTRY (liveEntry : LedgerEntry)
  | DEADENTRY (deadEntry : LedgerKey)
  | INITENTRY (liveEntry : LedgerEntry).

(** What identifies an entry; a METAENTRY sorts below all others. *)
Definition entry_key (e : BucketEntry) : option LedgerKey :=
  match e with
  | METAENTRY _ => None
  | LIVEENTRY l | INITENTRY l => Some (LedgerEntryKey l)
  | DEADENTRY k => Some k
  end.

Definition BucketEntryIdCmp (a b : BucketEntry) : bool := ltb (entry_key a) (entry_key b).

Notation Bucket := (list BucketEntry) (only parsing).

Inductive bucket_error :=
  | UnsupportedEntryType       (** [checkProtocolLegality] *)
  | MultipleMeta
  | MetaAfterOthers
  | MetaAfterInitial           (** [BucketOutputIterator::put] *)
  | OutputOutOfOrder           (** its assertion *)
  | DuplicateKeys              (** the assertion of [convertToBucketEntry] *)
  | ProtocolTooHigh
  | ShadowsNotSupported
  | OldNonDeadNewInit
  | OldInitNewNonDead
  | MergeShutdown
  | NullEntry                  (** an exhausted iterator is read *)
  | ShadowsInFuture            (** the constructor of [FutureBucket] *)
  | BadFutureState             (** an assertion on the state of a future *)
  | BadLevel                   (** [mLevels.at] *)
  | BadLedger                  (** the assertion of [addBatch] on its ledger *)
  | BadShadows                 (** its assertions on the shadows *)
  | ClearFutureOldSnap         (** [restartMerges] *)
  | MissingBucket              (** [assumeState], [loadCompleteLedgerState] *)
  | MissingDeadEntry           (** [loadEntriesFromBucket] *)
  | UnexpectedEntry
  | MergeOutOfFuel.

Notation bk := (result bucket_error).

Definition FIRST_PROTOCOL_SUPPORTING_INITENTRY_AND_METAENTRY : Z := 11.
Definition FIRST_PROTOCOL_SHADOWS_REMOVED : Z := 12.

Definition checkProtocolLegality (entry : BucketEntry) (protocolVersion : Z) : bk unit :=
  if protocolVersionIsBefore protocolVersion FIRST_PROTOCOL_SUPPORTING_INITENTRY_AND_METAENTRY &&
     match entry with INITENTRY _ | METAENTRY _ => true | _ => false end
  then Err UnsupportedEntryType else Ok tt.

(** ** Reading *)

Record BucketInputIterator := {
  mIn : list BucketEntry;
  mEntryPtr : option BucketEntry;
  mMetadata : Z;
  mSeenMetadata : bool;
  mSeenOtherEntries : bool;
}.

Fixpoint loadEntry (l : list BucketEntry) (version : Z) (seenMeta seenOther : bool)
    : bk BucketInputIterator :=
  match l with
  | [] => Ok {| mIn := []; mEntryPtr := None; mMetadata := version; mSeenMetadata := seenMeta;
                mSeenOtherEntries := seenOther |}
  | e :: l' =>
      match e with
      | METAENTRY v =>
          if seenMeta then Err MultipleMeta
          else if seenOther then Err MetaAfterOthers
          else loadEntry l' v true seenOther
      | _ =>
          let? _ := (if seenMeta then checkProtocolLegality e version else Ok tt) in
          Ok {| mIn := l'; mEntryPtr := Some e; mMetadata := version; mSeenMetadata := seenMeta;
                mSeenOtherEntries := true |}
      end
  end.

(** The constructor; without metadata a bucket is of version 0. *)
Definition openBucket (b : Bucket) : bk BucketInputIterator := loadEntry b 0 false false.

(** [operator++]. *)
Definition nextEntry (it : BucketInputIterator) : bk BucketInputIterator :=
  loadEntry (mIn it) (mMetadata it) (mSeenMetadata it) (mSeenOtherEntries it).

Definition getBucketVersion (b : Bucket) : bk Z := let? it := openBucket b in Ok (mMetadata it).

(** ** Writing *)

Record BucketOutputIterator := {
  mKeepDeadEntries : bool;
  mMeta : Z;
  mPutMeta : bool;
  mBuf : option BucketEntry;
  mOut : list BucketEntry;
}.

Definition set_out (putMeta : bool) (buf : option BucketEntry) (l : list BucketEntry)
    (o : BucketOutputIterator) : BucketOutputIterator :=
  {| mKeepDeadEntries := mKeepDeadEntries o; mMeta := mMeta o; mPutMeta := putMeta; mBuf := buf;
     mOut := l |}.

Definition putEntry (e : BucketEntry) (o : BucketOutputIterator) : bk BucketOutputIterator :=
  let? _ := checkProtocolLegality e (mMeta o) in
  if match e with METAENTRY _ => mPutMeta o | _ => false end then Err MetaAfterInitial else
  if negb (mKeepDeadEntries o) && match e with DEADENTRY _ => true | _ => false end then Ok o else
  match mBuf o with
  | Some b =>
      if BucketEntryIdCmp e b then Err OutputOutOfOrder
      else Ok (set_out (mPutMeta o) (Some e) (if BucketEntryIdCmp b e then mOut o ++ [b] else mOut o) o)
  | None => Ok (set_out (mPutMeta o) (Some e) (mOut o) o)
  end.

(** The constructor writes the metadata. *)
Definition openOutput (keepDeadEntries : bool) (version : Z) : bk BucketOutputIterator :=
  let o := {| mKeepDeadEntries := keepDeadEntries; mMeta := version; mPutMeta := false;
              mBuf := None; mOut := [] |} in
  if protocolVersionStartsFrom version FIRST_PROTOCOL_SUPPORTING_INITENTRY_AND_METAENTRY then
    let? o := putEntry (METAENTRY version) o in Ok (set_out true (mBuf o) (mOut o) o)
  else Ok o.

Definition getBucket (o : BucketOutputIterator) : Bucket :=
  match mBuf o with Some b => mOut o ++ [b] | None => mOut o end.

(** ** Fresh buckets *)

Definition entry_le (a b : BucketEntry) : Prop := BucketEntryIdCmp b a = false.
#[global] Instance entry_le_dec : RelDecision entry_le.
Proof. unfold entry_le. solve_decision. Defined.

(** [std::adjacent_find]. *)
Fixpoint strictly_sorted (l : list BucketEntry) : bool :=
  match l with
  | a :: (b :: _) as l' => BucketEntryIdCmp a b && strictly_sorted l'
  | _ => true
  end.

Definition convertToBucketEntry (useInit : bool) (initEntries liveEntries : list LedgerEntry)
    (deadEntries : list LedgerKey) : bk (list BucketEntry) :=
  let bucket := merge_sort entry_le
    (((if useInit then INITENTRY else LIVEENTRY) <$> initEntries) ++
     (LIVEENTRY <$> liveEntries) ++ (DEADENTRY <$> deadEntries)) in
  if negb (strictly_sorted bucket) then Err DuplicateKeys else Ok bucket.

Fixpoint put_all (l : list BucketEntry) (o : BucketOutputIterator) : bk BucketOutputIterator :=
  match l with [] => Ok o | e :: l' => let? o := putEntry e o in put_all l' o end.

Definition fresh (protocolVersion : Z) (initEntries liveEntries : list LedgerEntry)
    (deadEntries : list LedgerKey) : bk Bucket :=
  let useInit := protocolVersionStartsFrom protocolVersion
    FIRST_PROTOCOL_SUPPORTING_INITENTRY_AND_METAENTRY in
  let? entries := convertToBucketEntry useInit initEntries liveEntries deadEntries in
  let? out := openOutput true protocolVersion in
  let? out := put_all entries out in
  Ok (getBucket out).

(** ** Merging *)

(** The loop that advances a shadow, and whether it hides the entry. *)
Fixpoint scan_shadow (fuel : nat) (entry : BucketEntry) (si : BucketInputIterator)
    : bk (bool * BucketInputIterator) :=
  match mEntryPtr si with
  | Some s =>
      if BucketEntryIdCmp s entry then
        match fuel with
        | O => Err MergeOutOfFuel
        | S fuel' => let? si := nextEntry si in scan_shadow fuel' entry si
        end
      else Ok (negb (BucketEntryIdCmp entry s), si)
  | None => Ok (false, si)
  end.

Fixpoint scan_shadows (entry : BucketEntry) (l : list BucketInputIterator)
    : bk (bool * list BucketInputIterator) :=
  match l with
  | [] => Ok (false, [])
  | si :: l' =>
      let? (hidden, si) := scan_shadow (length (mIn si)) entry si in
      if (hidden : bool) then Ok (true, si :: l')
      else let? (hidden, l') := scan_shadows entry l' in Ok (hidden, si :: l')
  end.

Definition maybePut (entry : BucketEntry) (keepShadowedLifecycleEntries : bool)
    (s : BucketOutputIterator * list BucketInputIterator)
    : bk (BucketOutputIterator * list BucketInputIterator) :=
  let '(out, shadowIterators) := s in
  if keepShadowedLifecycleEntries &&
     match entry with INITENTRY _ | DEADENTRY _ => true | _ => false end
  then let? out := putEntry entry out in Ok (out, shadowIterators)
  else
    let? (hidden, shadowIterators) := scan_shadows entry shadowIterators in
    if (hidden : bool) then Ok (out, shadowIterators)
    else let? out := putEntry entry out in Ok (out, shadowIterators).

Definition calculateMergeProtocolVersion (maxProtocolVersion oldVersion newVersion : Z)
    (shadowVersions : list Z) : bk (Z * bool) :=
  let protocolVersion := foldl (fun v sv =>
    if protocolVersionIsBefore sv FIRST_PROTOCOL_SHADOWS_REMOVED then Z.max sv v else v)
    (Z.max oldVersion newVersion) shadowVersions in
  if maxProtocolVersion <? protocolVersion then Err ProtocolTooHigh else
  let keep := negb (protocolVersionIsBefore protocolVersion
    FIRST_PROTOCOL_SUPPORTING_INITENTRY_AND_METAENTRY) in
  if protocolVersionIsBefore protocolVersion FIRST_PROTOCOL_SHADOWS_REMOVED
  then Ok (protocolVersion, keep)
  else match shadowVersions with [] => Ok (protocolVersion, keep) | _ => Err ShadowsNotSupported end.

(** The iterators and the output of a merge. *)
Record MergeState := {
  ms_oi : BucketInputIterator;
  ms_ni : BucketInputIterator;
  ms_out : BucketOutputIterator * list BucketInputIterator;
}.

Definition mergeCasesWithDefaultAcceptance (protocolVersion : Z) (keep : bool) (s : MergeState)
    : bk (bool * MergeState) :=
  let takeOld o :=
    let? _ := checkProtocolLegality o protocolVersion in
    let? out := maybePut o keep (ms_out s) in
    let? oi := nextEntry (ms_oi s) in
    Ok (true, {| ms_oi := oi; ms_ni := ms_ni s; ms_out := out |}) in
  let takeNew n :=
    let? _ := checkProtocolLegality n protocolVersion in
    let? out := maybePut n keep (ms_out s) in
    let? ni := nextEntry (ms_ni s) in
    Ok (true, {| ms_oi := ms_oi s; ms_ni := ni; ms_out := out |}) in
  match mEntryPtr (ms_oi s), mEntryPtr (ms_ni s) with
  | None, None => Err NullEntry
  | Some o, None => takeOld o
  | None, Some n => takeNew n
  | Some o, Some n =>
      if BucketEntryIdCmp o n then takeOld o
      else if BucketEntryIdCmp n o then takeNew n
      else Ok (false, s)
  end.

(** What two entries of the same key become. *)
Definition mergeEntries (oldEntry newEntry : BucketEntry) : bk (option BucketEntry) :=
  match newEntry with
  | INITENTRY x =>
      match oldEntry with DEADENTRY _ => Ok (Some (LIVEENTRY x)) | _ => Err OldNonDeadNewInit end
  | _ =>
      match oldEntry with
      | INITENTRY _ =>
          match newEntry with
          | LIVEENTRY y => Ok (Some (INITENTRY y))
          | DEADENTRY _ => Ok None
          | _ => Err OldInitNewNonDead
          end
      | _ => Ok (Some newEntry)
      end
  end.

Definition mergeCasesWithEqualKeys (protocolVersion : Z) (keep : bool) (s : MergeState)
    : bk MergeState :=
  match mEntryPtr (ms_oi s), mEntryPtr (ms_ni s) with
  | Some oldEntry, Some newEntry =>
      let? _ := checkProtocolLegality oldEntry protocolVersion in
      let? _ := checkProtocolLegality newEntry protocolVersion in
      let? merged := mergeEntries oldEntry newEntry in
      let? out := match merged with Some e => maybePut e keep (ms_out s) | None => Ok (ms_out s) end in
      let? oi := nextEntry (ms_oi s) in
      let? ni := nextEntry (ms_ni s) in
      Ok {| ms_oi := oi; ms_ni := ni; ms_out := out |}
  | _, _ => Err NullEntry
  end.

(** The loop; [checks] counts the times the shutdown flag has been read. *)
Fixpoint merge_loop (isShutdown : nat -> bool) (fuel : nat) (protocolVersion : Z) (keep : bool)
    (iter checks : nat) (s : MergeState) : bk MergeState :=
  match mEntryPtr (ms_oi s), mEntryPtr (ms_ni s) with
  | None, None => Ok s
  | _, _ =>
      match fuel with
      | O => Err MergeOutOfFuel
      | S fuel' =>
          let due := (1000 <=? S iter)%nat in
          if due && isShutdown checks then Err MergeShutdown else
          let iter := if due then 0%nat else S iter in
          let checks := if due then S checks else checks in
          let? (done, s) := mergeCasesWithDefaultAcceptance protocolVersion keep s in
          let? s := (if (done : bool) then Ok s else mergeCasesWithEqualKeys protocolVersion keep s) in
          merge_loop isShutdown fuel' protocolVersion keep iter checks s
      end
  end.

Fixpoint openAll (l : list Bucket) : bk (list BucketInputIterator) :=
  match l with
  | [] => Ok []
  | b :: l' => let? it := openBucket b in let? its := openAll l' in Ok (it :: its)
  end.

(** [Bucket::merge]. *)
Definition bucket_merge (isShutdown : nat -> bool) (maxProtocolVersion : Z)
    (oldBucket newBucket : Bucket) (shadows : list Bucket) (keepDeadEntries : bool) : bk Bucket :=
  let? oi := openBucket oldBucket in
  let? ni := openBucket newBucket in
  let? shadowIterators := openAll shadows in
  let? (protocolVersion, keep) := calculateMergeProtocolVersion maxProtocolVersion
    (mMetadata oi) (mMetadata ni) (mMetadata <$> shadowIterators) in
  let? out := openOutput keepDeadEntries protocolVersion in
  let? s := merge_loop isShutdown (S (length oldBucket + length newBucket)) protocolVersion keep 0 0
    {| ms_oi := oi; ms_ni := ni; ms_out := (out, shadowIterators) |} in
  Ok (getBucket (fst (ms_out s))).
