(* ===== verification/BucketMerge.v ===== *)
(** * What merging buckets does

    The meaning of a bucket as a step from one ledger state to the next, and the
    proof that a merge composes the meanings of its inputs.  Buckets are those
    written since shadows were removed: metadata first, then entries in strictly
    increasing order of their keys. *)
From stdpp Require Import base tactics list numbers sorting strings sets.
From Stdlib Require Import ZArith Lia Bool Ascii.
From S2P Require Import Prelude Containers LedgerEntries Bucket.

Open Scope Z_scope.
Open Scope kin_scope.

(** ** The order of keys *)

Lemma string_code_inj (s1 s2 : string) : string_code s1 = string_code s2 -> s1 = s2.
Proof.
  unfold string_code. intros H.
  rewrite <- (String.string_of_list_ascii_of_string s1), <- (String.string_of_list_ascii_of_string s2).
  f_equal. revert H. apply list_fmap_eq_inj. intros a b Hab%N2Z.inj.
  by rewrite <- (ascii_N_embedding a), <- (ascii_N_embedding b), Hab.
Qed.

Lemma key_code_inj (a b : LedgerKey) : key_code a = key_code b -> a = b.
Proof.
  destruct a as [| ? []| | | |], b as [| ? []| | | |]; simpl; intros H; simplify_eq; try done.
  f_equal. by apply string_code_inj.
Qed.

#[global] Instance TotalLt_LedgerKey : TotalLt LedgerKey.
Proof.
  split; unfold ltb, LtB_LedgerKey.
  - intros x. apply ltb_irrefl.
  - intros x y z. apply ltb_trans.
  - intros x y ??. by apply key_code_inj, ltb_total.
Qed.

Definition entry_lt (a b : BucketEntry) : Prop := BucketEntryIdCmp a b = true.

#[global] Instance entry_lt_trans : Transitive entry_lt.
Proof. intros x y z. unfold entry_lt, BucketEntryIdCmp. apply ltb_trans. Qed.

Lemma cmp_irrefl (a b : BucketEntry) : entry_key a = entry_key b -> BucketEntryIdCmp a b = false.
Proof. unfold BucketEntryIdCmp. intros ->. apply ltb_irrefl. Qed.

Lemma cmp_total (a b : BucketEntry) :
  BucketEntryIdCmp a b = false -> BucketEntryIdCmp b a = false -> entry_key a = entry_key b.
Proof. unfold BucketEntryIdCmp. apply ltb_total. Qed.

Lemma cmp_asym (a b : BucketEntry) : entry_lt a b -> BucketEntryIdCmp b a = false.
Proof. unfold entry_lt, BucketEntryIdCmp. apply ltb_asym. Qed.

(** Entries other than metadata. *)
Definition keyed (e : BucketEntry) : Prop := is_Some (entry_key e).

Definition entries_ok (l : list BucketEntry) : Prop :=
  StronglySorted entry_lt l /\ Forall keyed l.

(** A bucket of protocol 12 or later, or the empty bucket. *)
Inductive bucket_ok : Bucket -> Prop :=
  | bucket_ok_empty : bucket_ok []
  | bucket_ok_meta v l :
      FIRST_PROTOCOL_SHADOWS_REMOVED <= v -> entries_ok l -> bucket_ok (METAENTRY v :: l).

Definition version (b : Bucket) : Z :=
  match b with METAENTRY v :: _ => v | _ => 0 end.

Definition entries (b : Bucket) : list BucketEntry :=
  match b with METAENTRY _ :: l => l | l => l end.

(** ** The meaning of a bucket *)

Fixpoint bucket_get (k : LedgerKey) (l : list BucketEntry) : option BucketEntry :=
  match l with
  | [] => None
  | e :: l' => if decide (entry_key e = Some k) then Some e else bucket_get k l'
  end.

(** What an entry does to the state of its key: an INITENTRY creates it, a
    LIVEENTRY updates it, a DEADENTRY erases it; anything else is undefined. *)
Definition entry_step (e : option BucketEntry) (s : option LedgerEntry)
    : option (option LedgerEntry) :=
  match e, s with
  | None, _ => Some s
  | Some (INITENTRY x), None => Some (Some x)
  | Some (LIVEENTRY x), Some _ => Some (Some x)
  | Some (DEADENTRY _), Some _ => Some None
  | _, _ => None
  end.

Definition LedgerState : Type := LedgerKey -> option LedgerEntry.

Definition acts (b : Bucket) (f g : LedgerState) : Prop :=
  forall k, entry_step (bucket_get k b) (f k) = Some (g k).

(** What two entries of a key become in a merge. *)
Definition merged_entry (o n : option BucketEntry) : option (option BucketEntry) :=
  match o, n with
  | None, e | e, None => Some e
  | Some x, Some y => match mergeEntries x y with Ok e => Some e | Err _ => None end
  end.

Lemma merged_entry_step (o n : option BucketEntry) (s t u : option LedgerEntry) :
  entry_step o s = Some t -> entry_step n t = Some u ->
  exists e, merged_entry o n = Some e /\ entry_step e s = Some u.
Proof.
  destruct o as [[]|], n as [[]|], s, t, u; simpl; intros; simplify_eq; eauto.
Qed.

(** ** Lookups *)

Lemma bucket_get_key (k : LedgerKey) (l : list BucketEntry) (e : BucketEntry) :
  bucket_get k l = Some e -> e ∈ l /\ entry_key e = Some k.
Proof.
  induction l as [|a l IH]; simpl; [done|]. case_decide; [|set_solver].
  intros [= ->]. set_solver.
Qed.

(** No entry of [l] is of a key below that of [e]. *)
Lemma bucket_get_below (k : LedgerKey) (e : BucketEntry) (l : list BucketEntry) :
  Forall (entry_lt e) l -> entry_key e = Some k -> bucket_get k l = None.
Proof.
  intros Hall He. destruct (bucket_get k l) as [x|] eqn:E; [|done].
  apply bucket_get_key in E as [Hx Hk]. rewrite Forall_forall in Hall. apply Hall in Hx.
  unfold entry_lt in Hx. by rewrite cmp_irrefl in Hx by congruence.
Qed.

Lemma entries_ok_cons (e : BucketEntry) (l : list BucketEntry) :
  entries_ok (e :: l) <-> Forall (entry_lt e) l /\ keyed e /\ entries_ok l.
Proof.
  unfold entries_ok. split.
  - intros [Hs Hk]. inversion Hs; inversion Hk; subst. done.
  - intros (?&?&?&?). split; by constructor.
Qed.

(** ** The input iterators *)

(** [it] stands before the entries [l]. *)
Definition reads (it : BucketInputIterator) (l : list BucketEntry) : Prop :=
  match l with
  | [] => mEntryPtr it = None
  | e :: l' => mEntryPtr it = Some e /\ mIn it = l' /\
      (mSeenMetadata it = true -> FIRST_PROTOCOL_SHADOWS_REMOVED <= mMetadata it)
  end.

Lemma legal_since (e : BucketEntry) (v : Z) :
  FIRST_PROTOCOL_SHADOWS_REMOVED <= v -> checkProtocolLegality e v = Ok tt.
Proof.
  unfold checkProtocolLegality, protocolVersionIsBefore,
    FIRST_PROTOCOL_SUPPORTING_INITENTRY_AND_METAENTRY, FIRST_PROTOCOL_SHADOWS_REMOVED.
  intros Hv. by rewrite (proj2 (Z.ltb_ge v 11)) by lia.
Qed.

Lemma loadEntry_reads (l : list BucketEntry) (v : Z) (other : bool) :
  FIRST_PROTOCOL_SHADOWS_REMOVED <= v -> Forall keyed l ->
  exists it, loadEntry l v true other = Ok it /\ reads it l /\ mMetadata it = v /\
    mSeenMetadata it = true.
Proof.
  intros Hv Hl. destruct Hl as [|e l He Hl]; simpl; [by eexists|].
  destruct e; [by destruct He| | |]; simpl; rewrite legal_since by done; simpl; by eexists.
Qed.

Lemma nextEntry_reads (it : BucketInputIterator) (e : BucketEntry) (l : list BucketEntry) :
  reads it (e :: l) -> Forall keyed l -> mSeenMetadata it = true ->
  exists it', nextEntry it = Ok it' /\ reads it' l /\ mSeenMetadata it' = true.
Proof.
  intros (?&Hin&Hv) Hl Hs. unfold nextEntry. rewrite Hin, Hs.
  destruct (loadEntry_reads l (mMetadata it) (mSeenOtherEntries it) (Hv Hs) Hl)
    as (it'&?&?&?&?). eauto.
Qed.

Lemma openBucket_reads (b : Bucket) :
  bucket_ok b -> exists it, openBucket b = Ok it /\ reads it (entries b) /\
    mMetadata it = version b /\ (b <> [] -> mSeenMetadata it = true).
Proof.
  intros [|v l Hv [_ Hl]]; [by eexists|]. unfold openBucket. simpl.
  destruct (loadEntry_reads l v false Hv Hl) as (it&?&?&?&?). eauto.
Qed.

Lemma getBucketVersion_ok (b : Bucket) : bucket_ok b -> getBucketVersion b = Ok (version b).
Proof.
  intros Hb. unfold getBucketVersion. destruct (openBucket_reads b Hb) as (it&->&_&Hv&_).
  simpl. by rewrite Hv.
Qed.

(** ** The output iterator *)

(** The metadata has been put, and [E] is what the bucket would hold. *)
Record writes (v : Z) (kd : bool) (o : BucketOutputIterator) (E : list BucketEntry) : Prop := {
  writes_v : mMeta o = v;
  writes_kd : mKeepDeadEntries o = kd;
  writes_put : mPutMeta o = true;
  writes_all : exists b, mBuf o = Some b /\ E = mOut o ++ [b];
}.

Lemma getBucket_writes (v : Z) (kd : bool) (o : BucketOutputIterator) (E : list BucketEntry) :
  writes v kd o E -> getBucket o = E.
Proof. intros [_ _ _ (b&Hb&->)]. unfold getBucket. by rewrite Hb. Qed.

(** Whether the output keeps the entry. *)
Definition kept (kd : bool) (e : BucketEntry) : bool :=
  kd || match e with DEADENTRY _ => false | _ => true end.

Lemma putEntry_writes (v : Z) (kd : bool) (o : BucketOutputIterator) (E : list BucketEntry)
    (e : BucketEntry) :
  FIRST_PROTOCOL_SHADOWS_REMOVED <= v -> writes v kd o E -> keyed e -> Forall (fun x => entry_lt x e) E ->
  exists o', putEntry e o = Ok o' /\ writes v kd o' (E ++ (if kept kd e then [e] else [])).
Proof.
  intros Hv [Hm Hk Hp (b&Hb&->)] He Hall. unfold putEntry. rewrite legal_since by (by rewrite Hm).
  simpl. assert (match e with METAENTRY _ => mPutMeta o | _ => false end = false) as ->
    by (destruct e; [by destruct He| | |]; done).
  rewrite Hk. destruct (kept kd e) eqn:Hkept.
  - assert (negb kd && match e with DEADENTRY _ => true | _ => false end = false) as ->
      by (unfold kept in Hkept; destruct kd, e; done).
    rewrite Hb. apply Forall_app in Hall as [_ Hb']. rewrite Forall_singleton in Hb'.
    rewrite (cmp_asym _ _ Hb'), Hb'. eexists. split; [done|]. split; simpl; try done.
    by eexists.
  - assert (negb kd && match e with DEADENTRY _ => true | _ => false end = true) as ->
      by (unfold kept in Hkept; destruct kd, e; done).
    rewrite app_nil_r. eexists. split; [done|]. split; eauto.
Qed.

Lemma openOutput_writes (kd : bool) (v : Z) :
  FIRST_PROTOCOL_SHADOWS_REMOVED <= v -> exists o, openOutput kd v = Ok o /\ writes v kd o [METAENTRY v].
Proof.
  intros Hv. unfold openOutput, protocolVersionStartsFrom.
  rewrite (proj2 (Z.leb_le _ _)) by
    (unfold FIRST_PROTOCOL_SHADOWS_REMOVED, FIRST_PROTOCOL_SUPPORTING_INITENTRY_AND_METAENTRY in *; lia).
  unfold putEntry. simpl. rewrite legal_since by done. simpl. rewrite andb_false_r. simpl.
  eexists. split; [done|]. split; simpl; try done. by eexists.
Qed.

(** ** The loop of a merge *)

(** One turn: what is left of the old and the new entries, and what is put. *)
Inductive merge_step : list BucketEntry -> list BucketEntry -> option BucketEntry ->
    list BucketEntry -> list BucketEntry -> Prop :=
  | take_old o os ns : Forall (entry_lt o) ns -> merge_step (o :: os) ns (Some o) os ns
  | take_new n os ns : Forall (entry_lt n) os -> merge_step os (n :: ns) (Some n) os ns
  | take_both o os n ns e :
      entry_key o = entry_key n -> mergeEntries o n = Ok e ->
      merge_step (o :: os) (n :: ns) e os ns.

Definition kept_entry (kd : bool) (e : option BucketEntry) : option BucketEntry :=
  match e with Some x => if kept kd x then Some x else None | None => None end.

Lemma mergeEntries_key (o n e : BucketEntry) :
  mergeEntries o n = Ok (Some e) -> entry_key o = entry_key n -> entry_key e = entry_key n.
Proof. destruct n, o; simpl; intros; simplify_eq; simpl; congruence. Qed.

Lemma lt_all (a b : BucketEntry) (l : list BucketEntry) :
  entry_lt a b -> Forall (entry_lt b) l -> Forall (entry_lt a) (b :: l).
Proof.
  intros Hab Hl. constructor; [done|]. eapply Forall_impl; [done|]. intros x Hx. by trans b.
Qed.

(** The entry put, and the heads taken, are below all that is left. *)
Lemma merge_step_below (os ns os' ns' : list BucketEntry) (p : option BucketEntry) (e : BucketEntry) :
  entries_ok os -> entries_ok ns -> merge_step os ns p os' ns' -> p = Some e ->
  keyed e /\ Forall (entry_lt e) (os' ++ ns') /\
  exists x, x ∈ os ++ ns /\ entry_key x = entry_key e.
Proof.
  intros Ho Hn Hs ->. inversion Hs as [? ? ? Hl|? ? ? Hl|o ? n ? ? Hk He]; subst.
  - apply entries_ok_cons in Ho as (?&?&?). rewrite Forall_app. set_solver.
  - apply entries_ok_cons in Hn as (?&?&?). rewrite Forall_app. set_solver.
  - apply entries_ok_cons in Ho as (Ho&?&?), Hn as (Hn&?&?).
    pose proof (mergeEntries_key _ _ _ He Hk) as Hke. unfold keyed, entry_lt, BucketEntryIdCmp in *.
    rewrite Hke, Forall_app. split_and!; [done| |done|].
    + eapply Forall_impl; [exact Ho|]. simpl. intros x. by rewrite Hk.
    + exists n. set_solver.
Qed.

Lemma merge_step_ok (os ns os' ns' : list BucketEntry) (p : option BucketEntry) :
  merge_step os ns p os' ns' -> entries_ok os -> entries_ok ns ->
  entries_ok os' /\ entries_ok ns' /\
  os' `sublist_of` os /\ ns' `sublist_of` ns /\ (length os' + length ns' < length os + length ns)%nat.
Proof.
  intros Hs Ho Hn. destruct Hs; rewrite ?entries_ok_cons in *; simpl;
    (split_and!; [tauto|tauto| | |lia]); by repeat constructor.
Qed.

Lemma bucket_get_hit (kd : bool) (k : LedgerKey) (x : BucketEntry) (L : list BucketEntry) :
  entry_key x = Some k -> bucket_get k L = None ->
  bucket_get k (option_list (kept_entry kd (Some x)) ++ L) = kept_entry kd (Some x).
Proof. intros ??. simpl. destruct (kept kd x); simpl; by rewrite ?decide_True. Qed.

Lemma bucket_get_miss (kd : bool) (k : LedgerKey) (x : BucketEntry) (L : list BucketEntry) :
  entry_key x <> Some k ->
  bucket_get k (option_list (kept_entry kd (Some x)) ++ L) = bucket_get k L.
Proof. intros ?. simpl. destruct (kept kd x); simpl; by rewrite ?decide_False. Qed.

(** What a turn leaves to be looked up later. *)
Lemma merge_step_get (kd : bool) (k : LedgerKey) (os ns os' ns' L : list BucketEntry)
    (p e : option BucketEntry) :
  entries_ok os -> entries_ok ns -> merge_step os ns p os' ns' ->
  merged_entry (bucket_get k os) (bucket_get k ns) = Some e ->
  (forall e', merged_entry (bucket_get k os') (bucket_get k ns') = Some e' ->
     bucket_get k L = kept_entry kd e') ->
  bucket_get k (option_list (kept_entry kd p) ++ L) = kept_entry kd e.
Proof.
  intros Ho Hn Hs Hm HL. inversion Hs as [o ? ? Hl|n ? ? Hl|o ? n ? ? Hk He]; subst;
    cbn [bucket_get] in *.
  - apply entries_ok_cons in Ho as (Ho&_&_). destruct (decide (entry_key o = Some k)) as [Hk|Hk].
    + rewrite (bucket_get_below _ _ _ Hl Hk) in Hm, HL.
      rewrite (bucket_get_below _ _ _ Ho Hk) in HL. simplify_eq/=.
      apply bucket_get_hit; [done|]. by rewrite (HL None).
    + rewrite bucket_get_miss by done. by apply HL.
  - apply entries_ok_cons in Hn as (Hn&_&_). destruct (decide (entry_key n = Some k)) as [Hk|Hk].
    + rewrite (bucket_get_below _ _ _ Hl Hk) in Hm, HL.
      rewrite (bucket_get_below _ _ _ Hn Hk) in HL. simplify_eq/=.
      apply bucket_get_hit; [done|]. by rewrite (HL None).
    + rewrite bucket_get_miss by done. by apply HL.
  - apply entries_ok_cons in Ho as (Ho&_&_), Hn as (Hn&_&_). rewrite Hk in Hm.
    destruct (decide (entry_key n = Some k)) as [Hkn|Hkn].
    + rewrite (bucket_get_below _ _ _ Hn Hkn) in HL.
      rewrite (bucket_get_below _ _ _ Ho (eq_trans Hk Hkn)) in HL. simpl in Hm, HL.
      rewrite He in Hm. simplify_eq. destruct e as [x|]; simpl; [|by apply (HL None)].
      apply bucket_get_hit; [by rewrite (mergeEntries_key _ _ _ He Hk)|]. by rewrite (HL None).
    + destruct p as [x|]; [|by apply HL]. rewrite bucket_get_miss; [by apply HL|].
      by rewrite (mergeEntries_key _ _ _ He Hk).
Qed.

(** The iterators and the output of a merge without shadows. *)
Record merging (v : Z) (kd : bool) (s : MergeState) (os ns E : list BucketEntry) : Prop := {
  mg_v : FIRST_PROTOCOL_SHADOWS_REMOVED <= v;
  mg_oi : reads (ms_oi s) os;
  mg_ni : reads (ms_ni s) ns;
  mg_os : os <> [] -> mSeenMetadata (ms_oi s) = true;
  mg_ns : ns <> [] -> mSeenMetadata (ms_ni s) = true;
  mg_old : entries_ok os;
  mg_new : entries_ok ns;
  mg_out : writes v kd (fst (ms_out s)) E;
  mg_shadows : snd (ms_out s) = [];
  mg_order : forall x y, x ∈ E -> y ∈ os ++ ns -> entry_lt x y;
}.

Lemma maybePut_writes (v : Z) (kd keep : bool) (out : BucketOutputIterator) (E : list BucketEntry)
    (e : BucketEntry) :
  FIRST_PROTOCOL_SHADOWS_REMOVED <= v -> writes v kd out E -> keyed e -> Forall (fun x => entry_lt x e) E ->
  exists out', maybePut e keep (out, []) = Ok (out', []) /\
    writes v kd out' (E ++ option_list (kept_entry kd (Some e))).
Proof.
  intros Hv Hw He Hall. destruct (putEntry_writes v kd out E e Hv Hw He Hall) as (o'&Hp&Hw').
  exists o'. split.
  - unfold maybePut. simpl. rewrite Hp. by destruct (keep && _).
  - simpl. by destruct (kept kd e).
Qed.

Lemma merging_next (v : Z) (kd : bool) (s : MergeState) (os ns E os' ns' : list BucketEntry)
    (p : option BucketEntry) (oi ni : BucketInputIterator) (out : BucketOutputIterator) :
  merging v kd s os ns E -> merge_step os ns p os' ns' ->
  reads oi os' -> reads ni ns' -> (os' <> [] -> mSeenMetadata oi = true) ->
  (ns' <> [] -> mSeenMetadata ni = true) -> writes v kd out (E ++ option_list (kept_entry kd p)) ->
  merging v kd {| ms_oi := oi; ms_ni := ni; ms_out := (out, []) |} os' ns'
    (E ++ option_list (kept_entry kd p)).
Proof.
  intros Hm Hs ?????. destruct (merge_step_ok _ _ _ _ _ Hs (mg_old _ _ _ _ _ _ Hm) (mg_new _ _ _ _ _ _ Hm))
    as (?&?&Ho&Hn&_).
  split; simpl; try done; [by apply Hm|]. intros x y [Hx|Hx]%elem_of_app Hy.
  - apply (mg_order _ _ _ _ _ _ Hm); [done|]. apply elem_of_app in Hy.
    rewrite elem_of_app. destruct Hy; [left|right]; eapply elem_of_submseteq;
      [done|by apply sublist_submseteq|done|by apply sublist_submseteq].
  - destruct p as [e|]; simpl in Hx; [|by apply not_elem_of_nil in Hx].
    destruct (kept kd e); [|by apply not_elem_of_nil in Hx]. apply list_elem_of_singleton in Hx as ->.
    destruct (merge_step_below _ _ _ _ _ e (mg_old _ _ _ _ _ _ Hm) (mg_new _ _ _ _ _ _ Hm) Hs eq_refl)
      as (_&Hall&_). rewrite Forall_forall in Hall. by apply Hall.
Qed.

Lemma merging_put (v : Z) (kd keep : bool) (s : MergeState) (os ns E : list BucketEntry) (e x : BucketEntry) :
  merging v kd s os ns E -> x ∈ os ++ ns -> entry_key x = entry_key e -> keyed e ->
  exists out, maybePut e keep (ms_out s) = Ok (out, []) /\
    writes v kd out (E ++ option_list (kept_entry kd (Some e))).
Proof.
  intros Hm Hx Hk He. destruct (ms_out s) as [out sh] eqn:Ho.
  pose proof (mg_shadows _ _ _ _ _ _ Hm) as Hsh. pose proof (mg_out _ _ _ _ _ _ Hm) as Hw.
  rewrite Ho in Hsh, Hw. simpl in Hsh, Hw. subst sh.
  apply (maybePut_writes v kd keep); [by apply Hm|done|done|]. apply Forall_forall. intros y Hy.
  pose proof (mg_order _ _ _ _ _ _ Hm y x Hy Hx) as Hlt. unfold entry_lt, BucketEntryIdCmp in *. congruence.
Qed.

Lemma next_old (v : Z) (kd : bool) (s : MergeState) (o : BucketEntry) (os ns E : list BucketEntry) :
  merging v kd s (o :: os) ns E ->
  exists oi, nextEntry (ms_oi s) = Ok oi /\ reads oi os /\ mSeenMetadata oi = true.
Proof.
  intros Hm. eapply nextEntry_reads; [by apply Hm|by apply (entries_ok_cons o), Hm|by apply Hm].
Qed.

Lemma next_new (v : Z) (kd : bool) (s : MergeState) (n : BucketEntry) (os ns E : list BucketEntry) :
  merging v kd s os (n :: ns) E ->
  exists ni, nextEntry (ms_ni s) = Ok ni /\ reads ni ns /\ mSeenMetadata ni = true.
Proof.
  intros Hm. eapply nextEntry_reads; [by apply Hm|by apply (entries_ok_cons n), Hm|by apply Hm].
Qed.

(** A turn that takes the old, or the new, entry. *)
Lemma accept_old (v : Z) (kd keep : bool) (s : MergeState) (o : BucketEntry) (os ns E : list BucketEntry) :
  merging v kd s (o :: os) ns E -> Forall (entry_lt o) ns ->
  exists s', mergeCasesWithDefaultAcceptance v keep s = Ok (true, s') /\
    merging v kd s' os ns (E ++ option_list (kept_entry kd (Some o))).
Proof.
  intros Hm Hlt. destruct (next_old _ _ _ _ _ _ _ Hm) as (oi&Hoi&Hr&Hseen).
  destruct (merging_put v kd keep s _ _ _ o o Hm) as (out&Hp&Hw);
    [set_solver|done|by apply (entries_ok_cons o os), Hm|].
  pose proof (mg_oi _ _ _ _ _ _ Hm) as (Ho&_&_). pose proof (mg_ni _ _ _ _ _ _ Hm) as Hni.
  exists {| ms_oi := oi; ms_ni := ms_ni s; ms_out := (out, []) |}. split.
  - unfold mergeCasesWithDefaultAcceptance. rewrite Ho, (legal_since o v), Hp, Hoi by apply Hm.
    destruct ns as [|n ns]; simpl in Hni; [by rewrite Hni|]. destruct Hni as (->&_).
    apply Forall_cons in Hlt as [-> _]. done.
  - eapply merging_next; [done|by apply take_old|done..|by apply Hm|done].
Qed.

Lemma accept_new (v : Z) (kd keep : bool) (s : MergeState) (n : BucketEntry) (os ns E : list BucketEntry) :
  merging v kd s os (n :: ns) E -> Forall (entry_lt n) os ->
  exists s', mergeCasesWithDefaultAcceptance v keep s = Ok (true, s') /\
    merging v kd s' os ns (E ++ option_list (kept_entry kd (Some n))).
Proof.
  intros Hm Hlt. destruct (next_new _ _ _ _ _ _ _ Hm) as (ni&Hni&Hr&Hseen).
  destruct (merging_put v kd keep s _ _ _ n n Hm) as (out&Hp&Hw);
    [set_solver|done|by apply (entries_ok_cons n ns), Hm|].
  pose proof (mg_ni _ _ _ _ _ _ Hm) as (Hn&_&_). pose proof (mg_oi _ _ _ _ _ _ Hm) as Hoi.
  exists {| ms_oi := ms_oi s; ms_ni := ni; ms_out := (out, []) |}. split.
  - unfold mergeCasesWithDefaultAcceptance. rewrite Hn, (legal_since n v), Hp, Hni by apply Hm.
    destruct os as [|o os]; simpl in Hoi; [by rewrite Hoi|]. destruct Hoi as (->&_).
    apply Forall_cons in Hlt as [Hlt _]. by rewrite (cmp_asym _ _ Hlt), Hlt.
  - eapply merging_next; [done|by apply take_new|done..|by apply Hm|done|done].
Qed.

(** A turn on two entries of the same key. *)
Lemma accept_both (v : Z) (kd keep : bool) (s : MergeState) (o n : BucketEntry)
    (os ns E : list BucketEntry) (e : option BucketEntry) :
  merging v kd s (o :: os) (n :: ns) E -> entry_key o = entry_key n -> mergeEntries o n = Ok e ->
  exists s', mergeCasesWithDefaultAcceptance v keep s = Ok (false, s) /\
    mergeCasesWithEqualKeys v keep s = Ok s' /\
    merging v kd s' os ns (E ++ option_list (kept_entry kd e)).
Proof.
  intros Hm Hk He. destruct (next_old _ _ _ _ _ _ _ Hm) as (oi&Hoi&Hr&Hseen).
  destruct (next_new _ _ _ _ _ _ _ Hm) as (ni&Hni&Hr'&Hseen').
  pose proof (mg_oi _ _ _ _ _ _ Hm) as (Ho&_&_). pose proof (mg_ni _ _ _ _ _ _ Hm) as (Hn&_&_).
  assert (exists out, match e with Some x => maybePut x keep (ms_out s) | None => Ok (ms_out s) end
      = Ok (out, []) /\ writes v kd out (E ++ option_list (kept_entry kd e))) as (out&Hp&Hw).
  { destruct e as [x|].
    - pose proof (mergeEntries_key _ _ _ He Hk) as Hx. eapply (merging_put _ _ _ _ _ _ _ _ n);
        [done|set_solver|done|]. unfold keyed. rewrite Hx. by apply (entries_ok_cons n ns), Hm.
    - exists (fst (ms_out s)). simpl. rewrite app_nil_r. split; [|by apply Hm].
      pose proof (mg_shadows _ _ _ _ _ _ Hm) as <-. by destruct (ms_out s). }
  exists {| ms_oi := oi; ms_ni := ni; ms_out := (out, []) |}. split_and!.
  - unfold mergeCasesWithDefaultAcceptance. by rewrite Ho, Hn, !cmp_irrefl by done.
  - unfold mergeCasesWithEqualKeys. rewrite Ho, Hn, !legal_since by apply Hm. simpl.
    rewrite He. simpl. by rewrite Hp, Hoi, Hni.
  - by eapply merging_next; [|by apply take_both|..].
Qed.

(** Every key has a merged entry. *)
Definition compatible (os ns : list BucketEntry) : Prop :=
  forall k, is_Some (merged_entry (bucket_get k os) (bucket_get k ns)).

Lemma merge_turn (v : Z) (kd keep : bool) (s : MergeState) (os ns E : list BucketEntry) :
  merging v kd s os ns E -> compatible os ns -> os ++ ns <> [] ->
  exists s' p os' ns', (let? (done, s) := mergeCasesWithDefaultAcceptance v keep s in
      if (done : bool) then Ok s else mergeCasesWithEqualKeys v keep s) = Ok s' /\
    merge_step os ns p os' ns' /\
    merging v kd s' os' ns' (E ++ option_list (kept_entry kd p)).
Proof.
  intros Hm Hc Hne.
  assert (forall a l b, entry_lt a b -> entries_ok (b :: l) -> Forall (entry_lt a) (b :: l)) as Hbelow.
  { intros a l b Hab (?&_)%entries_ok_cons. by apply lt_all. }
  assert (forall o os', os = o :: os' -> Forall (entry_lt o) ns ->
    exists s' p os' ns', (let? (done, s) := mergeCasesWithDefaultAcceptance v keep s in
      if (done : bool) then Ok s else mergeCasesWithEqualKeys v keep s) = Ok s' /\
    merge_step os ns p os' ns' /\ merging v kd s' os' ns' (E ++ option_list (kept_entry kd p))) as Hold.
  { intros o os' -> Hl. destruct (accept_old v kd keep s o os' ns E Hm Hl) as (s'&Hs&?).
    exists s', (Some o), os', ns. rewrite Hs. split_and!; [done|by apply take_old|done]. }
  assert (forall n ns', ns = n :: ns' -> Forall (entry_lt n) os ->
    exists s' p os' ns', (let? (done, s) := mergeCasesWithDefaultAcceptance v keep s in
      if (done : bool) then Ok s else mergeCasesWithEqualKeys v keep s) = Ok s' /\
    merge_step os ns p os' ns' /\ merging v kd s' os' ns' (E ++ option_list (kept_entry kd p))) as Hnew.
  { intros n ns' -> Hl. destruct (accept_new v kd keep s n os ns' E Hm Hl) as (s'&Hs&?).
    exists s', (Some n), os, ns'. rewrite Hs. split_and!; [done|by apply take_new|done]. }
  pose proof (mg_old _ _ _ _ _ _ Hm) as Ho. pose proof (mg_new _ _ _ _ _ _ Hm) as Hn.
  destruct os as [|o os], ns as [|n ns]; [done|by eapply Hnew|by eapply Hold|].
  destruct (BucketEntryIdCmp o n) eqn:E1; [by eapply Hold; [|apply Hbelow]|].
  destruct (BucketEntryIdCmp n o) eqn:E2; [by eapply Hnew; [|apply Hbelow]|].
  pose proof (cmp_total _ _ E1 E2) as Hk.
  apply entries_ok_cons in Ho as (_&[k Hko]&_). destruct (Hc k) as [e He]. cbn [bucket_get] in He.
  rewrite !decide_True in He by congruence. simpl in He.
  destruct (mergeEntries o n) as [x|] eqn:Hx; simplify_eq.
  destruct (accept_both v kd keep s o n os ns E e Hm Hk Hx) as (s'&Hs1&Hs2&?).
  exists s', e, os, ns. rewrite Hs1. split_and!; [done|by apply take_both|done].
Qed.

Lemma compatible_step (os ns os' ns' : list BucketEntry) (p : option BucketEntry) :
  entries_ok os -> entries_ok ns -> merge_step os ns p os' ns' -> compatible os ns ->
  compatible os' ns'.
Proof.
  intros Ho Hn Hs Hc k. specialize (Hc k). destruct Hs as [o os ns Hl|n os ns Hl|o os n ns ? Hk He];
    cbn [bucket_get] in Hc.
  - apply entries_ok_cons in Ho as (Ho&_). case_decide as Hd; [|done].
    by rewrite (bucket_get_below _ _ _ Hl Hd), (bucket_get_below _ _ _ Ho Hd).
  - apply entries_ok_cons in Hn as (Hn&_). case_decide as Hd; [|done].
    by rewrite (bucket_get_below _ _ _ Hl Hd), (bucket_get_below _ _ _ Hn Hd).
  - apply entries_ok_cons in Ho as (Ho&_), Hn as (Hn&_). rewrite Hk in Hc. case_decide as Hd; [|done].
    by rewrite (bucket_get_below _ _ _ Ho (eq_trans Hk Hd)), (bucket_get_below _ _ _ Hn Hd).
Qed.

(** What a whole merge puts for the entries [os] and [ns]. *)
Record merge_of (kd : bool) (os ns L : list BucketEntry) : Prop := {
  mo_ok : entries_ok L;
  mo_keys : forall e, e ∈ L -> exists x, x ∈ os ++ ns /\ entry_key x = entry_key e;
  mo_get : forall k e, merged_entry (bucket_get k os) (bucket_get k ns) = Some e ->
    bucket_get k L = kept_entry kd e;
}.

Lemma merge_of_nil (kd : bool) : merge_of kd [] [] [].
Proof.
  split; [split; constructor|intros e He; by apply not_elem_of_nil in He|].
  intros k e He. simpl in He. by simplify_eq.
Qed.

Lemma merge_of_step (kd : bool) (os ns os' ns' L : list BucketEntry) (p : option BucketEntry) :
  entries_ok os -> entries_ok ns -> merge_step os ns p os' ns' -> merge_of kd os' ns' L ->
  merge_of kd os ns (option_list (kept_entry kd p) ++ L).
Proof.
  intros Ho Hn Hs HL. destruct (merge_step_ok _ _ _ _ _ Hs Ho Hn) as (_&_&Hso&Hsn&_).
  assert (forall x, x ∈ os' ++ ns' -> x ∈ os ++ ns) as Hsub.
  { intros x Hx. eapply elem_of_submseteq; [done|]. by apply submseteq_app; apply sublist_submseteq. }
  split.
  - destruct p as [e|]; simpl; [|by apply HL]. destruct (kept kd e); simpl; [|by apply HL].
    destruct (merge_step_below _ _ _ _ _ e Ho Hn Hs eq_refl) as (?&Hall&_).
    apply entries_ok_cons. split_and!; [|done|by apply HL]. rewrite Forall_forall in Hall |- *.
    intros x Hx. destruct (mo_keys _ _ _ _ HL x Hx) as (y&Hy&Hk). specialize (Hall y Hy).
    unfold entry_lt, BucketEntryIdCmp in *. by rewrite <- Hk.
  - intros x [Hx|Hx]%elem_of_app.
    + destruct p as [e|]; simpl in Hx; [|by apply not_elem_of_nil in Hx].
      destruct (kept kd e); [|by apply not_elem_of_nil in Hx]. apply list_elem_of_singleton in Hx as ->.
      by apply (merge_step_below _ _ _ _ _ e Ho Hn Hs eq_refl).
    + destruct (mo_keys _ _ _ _ HL x Hx) as (y&Hy&Hk). eauto.
  - intros k e He. eapply merge_step_get; [exact Ho|exact Hn|exact Hs|exact He|]. apply HL.
Qed.

Lemma merge_loop_ok (isShutdown : nat -> bool) (v : Z) (kd keep : bool) (fuel iter checks : nat)
    (s : MergeState) (os ns E : list BucketEntry) :
  (forall n, isShutdown n = false) -> merging v kd s os ns E -> compatible os ns ->
  (length os + length ns < fuel)%nat ->
  exists s' L, merge_loop isShutdown fuel v keep iter checks s = Ok s' /\
    getBucket (fst (ms_out s')) = E ++ L /\ merge_of kd os ns L.
Proof.
  intros Hsd. revert iter checks s os ns E. induction fuel as [|fuel IH];
    intros iter checks s os ns E Hm Hc Hf; [lia|].
  pose proof (mg_oi _ _ _ _ _ _ Hm) as Hoi. pose proof (mg_ni _ _ _ _ _ _ Hm) as Hni.
  destruct (decide (os ++ ns = [])) as [[-> ->]%app_nil|Hne].
  { simpl in Hoi, Hni. cbn [merge_loop]. rewrite Hoi, Hni. exists s, []. split_and!; [done| |apply merge_of_nil].
    rewrite app_nil_r. by eapply getBucket_writes, Hm. }
  destruct (merge_turn v kd keep s os ns E Hm Hc Hne) as (s1&p&os'&ns'&Hturn&Hs&Hm1).
  pose proof (mg_old _ _ _ _ _ _ Hm) as Ho. pose proof (mg_new _ _ _ _ _ _ Hm) as Hn.
  destruct (merge_step_ok _ _ _ _ _ Hs Ho Hn) as (_&_&_&_&Hlen).
  assert (forall i c, exists s' L, merge_loop isShutdown fuel v keep i c s1 = Ok s' /\
    getBucket (fst (ms_out s')) = E ++ L /\ merge_of kd os ns L) as Hrest.
  { intros i c. destruct (IH i c s1 os' ns' _ Hm1) as (s'&L&Hl&Hb&HL);
      [exact (compatible_step _ _ _ _ _ Ho Hn Hs Hc)|lia|]. exists s', (option_list (kept_entry kd p) ++ L).
    rewrite app_assoc. split_and!; [done|done|exact (merge_of_step _ _ _ _ _ _ _ Ho Hn Hs HL)]. }
  assert (merge_loop isShutdown (S fuel) v keep iter checks s =
    let due := (1000 <=? S iter)%nat in
    merge_loop isShutdown fuel v keep (if due then 0%nat else S iter) (if due then S checks else checks) s1)
    as ->; [|apply Hrest].
  cbn [merge_loop]. rewrite Hsd, andb_false_r.
  assert (forall A (x y : A), match mEntryPtr (ms_oi s), mEntryPtr (ms_ni s) with
    | None, None => x | _, _ => y end = y) as Hsome.
  { intros A x y. destruct os, ns; [by destruct Hne| | |]; simpl in Hoi, Hni; destruct_and?;
      by repeat match goal with H : mEntryPtr _ = _ |- _ => rewrite H; clear H end. }
  rewrite Hsome. clear Hsome.
  destruct (mergeCasesWithDefaultAcceptance v keep s) as [[[] s2]|]; simpl in Hturn; simplify_eq; simpl;
    [done|]. by rewrite Hturn.
Qed.

(** ** [Bucket::merge] *)

Lemma entries_ok_entries (b : Bucket) : bucket_ok b -> entries_ok (entries b).
Proof. intros [|]; [split; constructor|done]. Qed.

Lemma bucket_get_entries (k : LedgerKey) (b : Bucket) : bucket_get k b = bucket_get k (entries b).
Proof. by destruct b as [|[] b]. Qed.

Lemma entries_length (b : Bucket) : (length (entries b) <= length b)%nat.
Proof. destruct b as [|[] b]; simpl; lia. Qed.

Lemma entries_nonempty (b : Bucket) : entries b <> [] -> b <> [].
Proof. by intros H ->. Qed.

Lemma bucket_merge_entries (isShutdown : nat -> bool) (maxProtocolVersion : Z) (old new : Bucket)
    (kd : bool) :
  (forall n, isShutdown n = false) -> bucket_ok old -> bucket_ok new ->
  FIRST_PROTOCOL_SHADOWS_REMOVED <= Z.max (version old) (version new) <= maxProtocolVersion ->
  compatible old new ->
  exists L, bucket_merge isShutdown maxProtocolVersion old new [] kd =
      Ok (METAENTRY (Z.max (version old) (version new)) :: L) /\
    merge_of kd (entries old) (entries new) L.
Proof.
  intros Hsd Ho Hn [Hv Hmax] Hc. set (v := Z.max (version old) (version new)) in *.
  destruct (openBucket_reads old Ho) as (oi&Hoi&Hro&Hvo&Hso).
  destruct (openBucket_reads new Hn) as (ni&Hni&Hrn&Hvn&Hsn).
  destruct (openOutput_writes kd v Hv) as (out&Hout&Hw).
  assert (calculateMergeProtocolVersion maxProtocolVersion (version old) (version new) [] =
    Ok (v, true)) as Hcalc.
  { unfold calculateMergeProtocolVersion, protocolVersionIsBefore,
      FIRST_PROTOCOL_SUPPORTING_INITENTRY_AND_METAENTRY. simpl. fold v.
    unfold FIRST_PROTOCOL_SHADOWS_REMOVED in Hv. rewrite (proj2 (Z.ltb_ge _ _)) by lia.
    rewrite (proj2 (Z.ltb_ge v 11)) by lia. by destruct (v <? _). }
  assert (merging v kd {| ms_oi := oi; ms_ni := ni; ms_out := (out, []) |} (entries old) (entries new)
    [METAENTRY v]) as Hm.
  { split; simpl; auto using entries_ok_entries, entries_nonempty. intros x y ->%list_elem_of_singleton Hy.
    assert (keyed y) as [k Hk]; [|unfold entry_lt, BucketEntryIdCmp; by rewrite Hk].
    apply elem_of_app in Hy. pose proof (proj2 (entries_ok_entries _ Ho)) as H1.
    pose proof (proj2 (entries_ok_entries _ Hn)) as H2. rewrite Forall_forall in H1, H2. naive_solver. }
  destruct (merge_loop_ok isShutdown v kd true (S (length old + length new)) 0 0 _ _ _ _ Hsd Hm)
    as (s'&L&Hl&Hb&HL).
  - intros k. rewrite <- !bucket_get_entries. apply Hc.
  - pose proof (entries_length old). pose proof (entries_length new). lia.
  - exists L. split; [|done]. unfold bucket_merge. rewrite Hoi, Hni.
    cbn [res_bind openAll fmap list_fmap]. rewrite Hvo, Hvn, Hcalc. cbn [res_bind]. rewrite Hout.
    cbn [res_bind]. rewrite Hl. cbn [res_bind]. by rewrite Hb.
Qed.

Lemma acts_compatible (old new : Bucket) (f g h : LedgerState) :
  acts old f g -> acts new g h -> compatible old new.
Proof.
  intros Hf Hg k. destruct (merged_entry_step _ _ _ _ _ (Hf k) (Hg k)) as (e&He&_). by eexists.
Qed.

(** What remains after a merge of buckets that can follow one another: a bucket
    that does what they do one after the other. *)
Lemma bucket_merge_acts (isShutdown : nat -> bool) (maxProtocolVersion : Z) (old new : Bucket)
    (kd : bool) (f g h : LedgerState) :
  (forall n, isShutdown n = false) -> bucket_ok old -> bucket_ok new -> new <> [] ->
  Z.max (version old) (version new) <= maxProtocolVersion ->
  acts old f g -> acts new g h -> (kd = false -> forall k, f k = None) ->
  exists R, bucket_merge isShutdown maxProtocolVersion old new [] kd = Ok R /\ bucket_ok R /\
    version R = Z.max (version old) (version new) /\ acts R f h.
Proof.
  intros Hsd Ho Hn Hne Hmax Hf Hg Hkd.
  assert (FIRST_PROTOCOL_SHADOWS_REMOVED <= Z.max (version old) (version new)) as Hv.
  { destruct Hn; simpl; [done|lia]. }
  destruct (bucket_merge_entries isShutdown maxProtocolVersion old new kd) as (L&Hm&HL);
    [done..|by eapply acts_compatible|].
  eexists. split; [exact Hm|]. split; [by constructor; [|apply HL]|]. split; [done|]. intros k.
  destruct (merged_entry_step _ _ _ _ _ (Hf k) (Hg k)) as (e&He&Hstep).
  rewrite bucket_get_entries. simpl. rewrite (mo_get _ _ _ _ HL k e) by (by rewrite <- !bucket_get_entries).
  destruct e as [x|]; [|done]. simpl. destruct (kept kd x) eqn:Hx; [done|].
  unfold kept in Hx. destruct kd; [done|]. destruct x; try done. by rewrite Hkd in Hstep.
Qed.

(** ** Fresh buckets *)

Record Batch := {
  initEntries : list LedgerEntry;
  liveEntries : list LedgerEntry;
  deadEntries : list LedgerKey;
}.

Definition batch_keys (b : Batch) : list LedgerKey :=
  (LedgerEntryKey <$> initEntries b) ++ (LedgerEntryKey <$> liveEntries b) ++ deadEntries b.

(** A batch that can follow the state [f]: one change for a key, creations of
    absent keys, updates and deletions of present ones. *)
Record batch_fits (b : Batch) (f : LedgerState) : Prop := {
  bf_nodup : NoDup (batch_keys b);
  bf_init : forall e, e ∈ initEntries b -> f (LedgerEntryKey e) = None;
  bf_live : forall e, e ∈ liveEntries b -> is_Some (f (LedgerEntryKey e));
  bf_dead : forall k, k ∈ deadEntries b -> is_Some (f k);
}.

Fixpoint find_key (k : LedgerKey) (l : list LedgerEntry) : option LedgerEntry :=
  match l with
  | [] => None
  | e :: l' => if decide (LedgerEntryKey e = k) then Some e else find_key k l'
  end.

(** The state after the batch. *)
Definition batch_step (b : Batch) (f : LedgerState) : LedgerState := fun k =>
  match find_key k (initEntries b ++ liveEntries b) with
  | Some e => Some e
  | None => if decide (k ∈ deadEntries b) then None else f k
  end.

Lemma find_key_elem (k : LedgerKey) (l : list LedgerEntry) (e : LedgerEntry) :
  NoDup (LedgerEntryKey <$> l) -> find_key k l = Some e <-> e ∈ l /\ LedgerEntryKey e = k.
Proof.
  induction l as [|x l IH]; simpl; [set_solver|]. intros [Hx Hl]%NoDup_cons.
  rewrite elem_of_cons. case_decide as Hk; [|rewrite IH by done; naive_solver].
  split; [intros [= ->]; by eauto|]. intros [[->|He] Hek]; [done|]. destruct Hx.
  apply list_elem_of_fmap. exists e. split; congruence.
Qed.

Lemma bucket_get_elem (k : LedgerKey) (l : list BucketEntry) (e : BucketEntry) :
  entries_ok l -> bucket_get k l = Some e <-> e ∈ l /\ entry_key e = Some k.
Proof.
  induction l as [|x l IH]; simpl; [set_solver|]. intros (Hx&_&Hl)%entries_ok_cons.
  rewrite elem_of_cons. case_decide as Hk; [|rewrite IH by done; naive_solver].
  split; [intros [= ->]; by eauto|]. intros [[->|He] Hek]; [done|].
  rewrite Forall_forall in Hx. apply Hx in He. unfold entry_lt in He.
  by rewrite cmp_irrefl in He by congruence.
Qed.

#[global] Instance entry_le_total : Total entry_le.
Proof.
  intros x y. unfold entry_le. destruct (BucketEntryIdCmp y x) eqn:E; [right|by left].
  by apply cmp_asym.
Qed.

#[global] Instance entry_le_trans : Transitive entry_le.
Proof.
  intros x y z. unfold entry_le, BucketEntryIdCmp. intros Hxy Hyz.
  destruct (ltb (entry_key z) (entry_key x)) eqn:E; [|done].
  destruct (ltb_trichotomy (entry_key x) (entry_key y)) as [H|[H|H]]; [|congruence|congruence].
  by rewrite (ltb_trans _ _ _ E H) in Hyz.
Qed.

Lemma sorted_strict (l : list BucketEntry) :
  StronglySorted entry_le l -> NoDup (entry_key <$> l) -> StronglySorted entry_lt l.
Proof.
  induction 1 as [|x l Hs IH Hall]; simpl; [constructor|]. intros [Hx Hl]%NoDup_cons.
  constructor; [by apply IH|]. rewrite Forall_forall in Hall |- *. intros y Hy.
  destruct (BucketEntryIdCmp x y) eqn:E; [done|]. destruct Hx. apply list_elem_of_fmap. exists y.
  split; [|done]. apply cmp_total; [done|]. by apply Hall.
Qed.

Lemma strictly_sorted_true (l : list BucketEntry) :
  StronglySorted entry_lt l -> strictly_sorted l = true.
Proof.
  induction 1 as [|x l Hs IH Hall]; [done|]. destruct l as [|y l]; [done|].
  apply Forall_cons in Hall as [Hxy _]. cbn [strictly_sorted]. rewrite Hxy. apply IH.
Qed.

Definition batch_entries (b : Batch) : list BucketEntry :=
  (INITENTRY <$> initEntries b) ++ (LIVEENTRY <$> liveEntries b) ++ (DEADENTRY <$> deadEntries b).

Lemma batch_entries_keys (b : Batch) : entry_key <$> batch_entries b = Some <$> batch_keys b.
Proof.
  unfold batch_entries, batch_keys. rewrite !fmap_app, <- !list_fmap_compose. done.
Qed.

Lemma convertToBucketEntry_ok (b : Batch) :
  NoDup (batch_keys b) ->
  exists l, convertToBucketEntry true (initEntries b) (liveEntries b) (deadEntries b) = Ok l /\
    entries_ok l /\ l ≡ₚ batch_entries b.
Proof.
  intros Hnd. unfold convertToBucketEntry. fold (batch_entries b).
  set (l := merge_sort entry_le (batch_entries b)).
  assert (l ≡ₚ batch_entries b) as Hp by apply merge_sort_Permutation.
  assert (StronglySorted entry_lt l) as Hs.
  { apply sorted_strict; [by apply StronglySorted_merge_sort; apply _|].
    rewrite Hp, batch_entries_keys. apply NoDup_fmap_2; [apply _|done]. }
  exists l. rewrite strictly_sorted_true by done. split_and!; [done| |done]. split; [done|].
  apply Forall_forall. intros e He. rewrite Hp in He. apply (list_elem_of_fmap_2 entry_key) in He.
  rewrite batch_entries_keys in He. apply list_elem_of_fmap in He as (k&Hk&_). by eexists.
Qed.

Lemma put_all_writes (v : Z) (l : list BucketEntry) (o : BucketOutputIterator) (E : list BucketEntry) :
  FIRST_PROTOCOL_SHADOWS_REMOVED <= v -> writes v true o E -> entries_ok l ->
  (forall x y, x ∈ E -> y ∈ l -> entry_lt x y) ->
  exists o', put_all l o = Ok o' /\ writes v true o' (E ++ l).
Proof.
  intros Hv. revert o E. induction l as [|e l IH]; intros o E Hw Hl Ho; simpl.
  { exists o. by rewrite app_nil_r. }
  apply entries_ok_cons in Hl as (Hall&He&Hl). rewrite Forall_forall in Hall.
  destruct (putEntry_writes v true o E e Hv Hw He) as (o1&Hp&Hw1).
  { apply Forall_forall. intros x Hx. apply Ho; set_solver. }
  rewrite Hp. simpl. simpl in Hw1. destruct (IH o1 _ Hw1 Hl) as (o2&?&?); [set_solver|].
  exists o2. rewrite cons_middle, app_assoc. done.
Qed.

Lemma batch_entry_step (b : Batch) (f : LedgerState) (l : list BucketEntry) :
  entries_ok l -> l ≡ₚ batch_entries b -> batch_fits b f -> acts l f (batch_step b f).
Proof.
  intros Hl Hp Hf k. destruct (bucket_get k l) as [x|] eqn:Hx.
  - apply bucket_get_elem in Hx as [Hx Hk]; [|done]. rewrite Hp in Hx. unfold batch_step.
    assert (NoDup (LedgerEntryKey <$> (initEntries b ++ liveEntries b))) as Hnd.
    { pose proof (bf_nodup _ _ Hf) as Hnd. unfold batch_keys in Hnd. rewrite app_assoc in Hnd.
      apply NoDup_app in Hnd as (Hnd&_). by rewrite fmap_app. }
    unfold batch_entries in Hx. rewrite !elem_of_app, !list_elem_of_fmap in Hx.
    destruct Hx as [(e&->&He)|[(e&->&He)|(d&->&Hd)]]; simpl in Hk; simplify_eq; simpl.
    + rewrite (proj2 (find_key_elem _ _ e Hnd)) by set_solver. by rewrite (bf_init _ _ Hf).
    + rewrite (proj2 (find_key_elem _ _ e Hnd)) by set_solver. by destruct (bf_live _ _ Hf e He) as [? ->].
    + destruct (bf_dead _ _ Hf k Hd) as [? ->]. destruct (find_key k _) as [e|] eqn:E.
      * apply find_key_elem in E as [He <-]; [|done]. pose proof (bf_nodup _ _ Hf) as Hdup.
        unfold batch_keys in Hdup. rewrite app_assoc in Hdup. apply NoDup_app in Hdup as (_&Hd'&_).
        destruct (Hd' (LedgerEntryKey e)); [|done]. rewrite <- fmap_app. by apply list_elem_of_fmap_2.
      * by rewrite decide_True.
  - unfold batch_step. assert (k ∉ batch_keys b) as Hk.
    { intros Hk. apply (list_elem_of_fmap_2 Some) in Hk. rewrite <- batch_entries_keys, <- Hp in Hk.
      apply list_elem_of_fmap in Hk as (e&Hke&He). by rewrite (proj2 (bucket_get_elem k l e Hl)) in Hx. }
    unfold batch_keys in Hk. rewrite !elem_of_app in Hk. simpl.
    destruct (find_key k _) as [e|] eqn:E; [|by rewrite decide_False by tauto].
    exfalso. apply Hk. assert (e ∈ initEntries b ++ liveEntries b /\ LedgerEntryKey e = k) as [He <-].
    { clear -E. induction (initEntries b ++ liveEntries b) as [|x l IH]; simpl in E; [done|].
      case_decide; [|set_solver]. simplify_eq. set_solver. }
    apply elem_of_app in He as [?|?]; [left|right; left]; by apply list_elem_of_fmap_2.
Qed.

Lemma fresh_acts (p : Z) (b : Batch) (f : LedgerState) :
  FIRST_PROTOCOL_SHADOWS_REMOVED <= p -> batch_fits b f ->
  exists R, fresh p (initEntries b) (liveEntries b) (deadEntries b) = Ok R /\ bucket_ok R /\
    R <> [] /\ version R = p /\ acts R f (batch_step b f).
Proof.
  intros Hp Hf. destruct (convertToBucketEntry_ok b) as (l&Hl&Hok&Hperm); [by apply Hf|].
  destruct (openOutput_writes true p Hp) as (o&Ho&Hw).
  destruct (put_all_writes p l o _ Hp Hw Hok) as (o'&Hall&Hw').
  { intros x y ->%list_elem_of_singleton Hy. pose proof (proj2 Hok) as Hk.
    rewrite Forall_forall in Hk. destruct (Hk y Hy) as [k Hyk].
    unfold entry_lt, BucketEntryIdCmp. by rewrite Hyk. }
  exists (METAENTRY p :: l). split_and!; [|by constructor|done|done|].
  - unfold fresh, protocolVersionStartsFrom. rewrite (proj2 (Z.leb_le _ _)) by
      (unfold FIRST_PROTOCOL_SHADOWS_REMOVED, FIRST_PROTOCOL_SUPPORTING_INITENTRY_AND_METAENTRY in *; lia).
    rewrite Hl. simpl. rewrite Ho. simpl. rewrite Hall. simpl. by rewrite (getBucket_writes _ _ _ _ Hw').
  - intros k. rewrite bucket_get_entries. by apply batch_entry_step.
Qed.
