(* ===== verification/BucketList.v ===== *)
(** * The bucket list

    [src/bucket/BucketList.cpp] and [FutureBucket.cpp]: eleven levels of two
    buckets, the merges that run between the ledgers at which a level spills,
    and the batch of a closed ledger; and from [BucketManagerImpl.cpp] and
    [HistoryArchive.cpp] what a node keeps of the list over a restart.  The hash
    of a bucket is the bucket it names; [stored] says whether its file exists.
    A merge runs in the background: a future holds what its task captured, and
    the task's outcome is computed when the future is resolved. *)
From stdpp Require Import base tactics list numbers.
From Stdlib Require Import ZArith Lia Bool.
From S2P Require Import Prelude Containers LedgerEntries Bucket.

Open Scope Z_scope.
Open Scope kin_scope.

Definition kNumLevels : nat := 11.

(** ** The arithmetic of levels

    The assertion [level < kNumLevels] holds at every call: a level is an index
    of [mLevels]. *)

Definition levelSize (level : nat) : Z := u32 (Z.shiftl 1 (2 * (Z.of_nat level + 1))).
Definition levelHalf (level : nat) : Z := Z.shiftr (levelSize level) 1.
Definition mask (v m : Z) : Z := Z.land v (u32 (Z.lnot (u32 (m - 1)))).

Definition levelShouldSpill (ledger : Z) (level : nat) : bool :=
  if Nat.eqb level (kNumLevels - 1) then false
  else (ledger =? mask ledger (levelHalf level)) || (ledger =? mask ledger (levelSize level)).

Definition keepDeadEntries (level : nat) : bool := Nat.ltb level (kNumLevels - 1).

Definition shouldMergeWithEmptyCurr (ledger : Z) (level : nat) : bool :=
  match level with
  | O => false
  | S below =>
      let mergeStartLedger := mask ledger (levelHalf below) in
      let nextChangeLedger := u32 (mergeStartLedger + levelHalf below) in
      levelShouldSpill nextChangeLedger level
  end.

(** ** Futures *)

Inductive FutureBucket :=
  | FB_CLEAR
  | FB_HASH_OUTPUT (output : Bucket)
  | FB_HASH_INPUTS (curr snap : Bucket) (shadows : list Bucket)
  | FB_LIVE_OUTPUT (output : Bucket)
  | FB_LIVE_INPUTS (curr snap : Bucket) (shadows : list Bucket) (maxProtocolVersion : Z) (level : nat).

Definition isLive (f : FutureBucket) : bool :=
  match f with FB_LIVE_INPUTS _ _ _ _ _ | FB_LIVE_OUTPUT _ => true | _ => false end.
Definition isMerging (f : FutureBucket) : bool :=
  match f with FB_LIVE_INPUTS _ _ _ _ _ => true | _ => false end.
Definition hasHashes (f : FutureBucket) : bool :=
  match f with FB_HASH_INPUTS _ _ _ | FB_HASH_OUTPUT _ => true | _ => false end.
Definition isClear (f : FutureBucket) : bool := match f with FB_CLEAR => true | _ => false end.

(** The constructor that starts a merge. *)
Definition startFuture (curr snap : Bucket) (shadows : list Bucket) (maxProtocolVersion : Z)
    (level : nat) : bk FutureBucket :=
  let? version := getBucketVersion snap in
  if protocolVersionStartsFrom version FIRST_PROTOCOL_SHADOWS_REMOVED &&
     match shadows with [] => false | _ => true end
  then Err ShadowsInFuture
  else Ok (FB_LIVE_INPUTS curr snap shadows maxProtocolVersion level).

Definition resolve (isShutdown : nat -> bool) (f : FutureBucket) : bk (Bucket * FutureBucket) :=
  match f with
  | FB_LIVE_OUTPUT output => Ok (output, f)
  | FB_LIVE_INPUTS curr snap shadows maxProtocolVersion level =>
      let? output := bucket_merge isShutdown maxProtocolVersion curr snap shadows
        (keepDeadEntries level) in
      Ok (output, FB_LIVE_OUTPUT output)
  | _ => Err BadFutureState
  end.

(** [getBucketByHash]: the hash of the empty bucket is zero. *)
Definition getBucketByHash (stored : Bucket -> bool) (b : Bucket) : bk Bucket :=
  match b with
  | [] => Ok []
  | _ => if stored b then Ok b else Err MissingBucket
  end.

Fixpoint getBucketsByHash (stored : Bucket -> bool) (l : list Bucket) : bk (list Bucket) :=
  match l with
  | [] => Ok []
  | b :: l' =>
      let? b := getBucketByHash stored b in
      let? l' := getBucketsByHash stored l' in
      Ok (b :: l')
  end.

Definition makeLive (stored : Bucket -> bool) (maxProtocolVersion : Z) (level : nat)
    (f : FutureBucket) : bk FutureBucket :=
  match f with
  | FB_HASH_OUTPUT output => let? b := getBucketByHash stored output in Ok (FB_LIVE_OUTPUT b)
  | FB_HASH_INPUTS curr snap shadows =>
      let? curr := getBucketByHash stored curr in
      let? snap := getBucketByHash stored snap in
      let? shadows := getBucketsByHash stored shadows in
      Ok (FB_LIVE_INPUTS curr snap shadows maxProtocolVersion level)
  | _ => Err BadFutureState
  end.

(** [save] and then [load]. *)
Definition saved (f : FutureBucket) : FutureBucket :=
  match f with
  | FB_LIVE_INPUTS curr snap shadows _ _ => FB_HASH_INPUTS curr snap shadows
  | FB_LIVE_OUTPUT output => FB_HASH_OUTPUT output
  | _ => f
  end.

(** ** Levels *)

Record BucketLevel := {
  mLevel : nat;
  mNextCurr : FutureBucket;
  mCurr : Bucket;
  mSnap : Bucket;
}.

Definition newLevel (i : nat) : BucketLevel :=
  {| mLevel := i; mNextCurr := FB_CLEAR; mCurr := []; mSnap := [] |}.

Definition setNext (f : FutureBucket) (l : BucketLevel) : BucketLevel :=
  {| mLevel := mLevel l; mNextCurr := f; mCurr := mCurr l; mSnap := mSnap l |}.

(** [setCurr] also clears the future. *)
Definition setCurr (b : Bucket) (l : BucketLevel) : BucketLevel :=
  {| mLevel := mLevel l; mNextCurr := FB_CLEAR; mCurr := b; mSnap := mSnap l |}.

Definition setSnap (b : Bucket) (l : BucketLevel) : BucketLevel :=
  {| mLevel := mLevel l; mNextCurr := mNextCurr l; mCurr := mCurr l; mSnap := b |}.

Definition commit (isShutdown : nat -> bool) (l : BucketLevel) : bk BucketLevel :=
  let? l := (if isLive (mNextCurr l) then
    let? (b, _) := resolve isShutdown (mNextCurr l) in Ok (setCurr b l) else Ok l) in
  let? _ := ensure (negb (isMerging (mNextCurr l))) BadFutureState in Ok l.

Definition prepare (currLedger currLedgerProtocol : Z) (snap : Bucket) (shadows : list Bucket)
    (l : BucketLevel) : bk BucketLevel :=
  let? _ := ensure (negb (isMerging (mNextCurr l))) BadFutureState in
  let curr := if shouldMergeWithEmptyCurr currLedger (mLevel l) then [] else mCurr l in
  let? version := getBucketVersion snap in
  let shadowsBasedOnProtocol :=
    if protocolVersionStartsFrom version FIRST_PROTOCOL_SHADOWS_REMOVED then [] else shadows in
  let? next := startFuture curr snap shadowsBasedOnProtocol currLedgerProtocol (mLevel l) in
  Ok (setNext next l).

(** The new snap and the level. *)
Definition level_snap (l : BucketLevel) : Bucket * BucketLevel :=
  (mCurr l, {| mLevel := mLevel l; mNextCurr := mNextCurr l; mCurr := []; mSnap := mCurr l |}).

(** ** The list *)

Notation BucketList := (list BucketLevel) (only parsing).

Definition newBucketList : BucketList := newLevel <$> seq 0 kNumLevels.

(** [pop_back], twice. *)
Definition pop_two (shadows : list Bucket) : bk (list Bucket) :=
  if (2 <=? length shadows)%nat then Ok (take (length shadows - 2) shadows) else Err BadShadows.

(** One turn of the loop over the levels: level [below] spills into the next. *)
Definition spill_level (isShutdown : nat -> bool) (currLedger currLedgerProtocol : Z) (below : nat)
    (shadows : list Bucket) (bl : BucketList) : bk BucketList :=
  match bl !! below, bl !! S below with
  | Some lower, Some upper =>
      let '(snap, lower) := level_snap lower in
      let bl := <[below := lower]> bl in
      let? upper := commit isShutdown upper in
      let? upper := prepare currLedger currLedgerProtocol snap shadows upper in
      Ok (<[S below := upper]> bl)
  | _, _ => Err BadLevel
  end.

(** The loop, from level [i] down to 1. *)
Fixpoint spill_levels (isShutdown : nat -> bool) (currLedger currLedgerProtocol : Z) (i : nat)
    (shadows : list Bucket) (bl : BucketList) : bk (list Bucket * BucketList) :=
  match i with
  | O => Ok (shadows, bl)
  | S below =>
      let? shadows := pop_two shadows in
      let? bl := (if levelShouldSpill currLedger below
        then spill_level isShutdown currLedger currLedgerProtocol below shadows bl else Ok bl) in
      spill_levels isShutdown currLedger currLedgerProtocol below shadows bl
  end.

(** [ready] says which merges have completed. *)
Fixpoint resolve_ready (isShutdown : nat -> bool) (ready : nat -> bool) (bl : BucketList)
    : bk BucketList :=
  match bl with
  | [] => Ok []
  | l :: bl' =>
      let? l := (if isMerging (mNextCurr l) && ready (mLevel l)
        then let? (_, f) := resolve isShutdown (mNextCurr l) in Ok (setNext f l) else Ok l) in
      let? bl' := resolve_ready isShutdown ready bl' in Ok (l :: bl')
  end.

Definition resolveAnyReadyFutures := resolve_ready.

Definition futuresAllResolved (maxLevel : nat) (bl : BucketList) : bk bool :=
  if (maxLevel <? length bl)%nat
  then Ok (forallb (fun l => negb (isMerging (mNextCurr l))) (take (S maxLevel) bl))
  else Err BadLevel.

(** The first level that does not spill, or the last one. *)
Fixpoint first_not_spilling (currLedger : Z) (fuel i : nat) : nat :=
  match fuel with
  | O => i
  | S fuel' =>
      if levelShouldSpill currLedger i then first_not_spilling currLedger fuel' (S i) else i
  end.

Definition getMaxMergeLevel (currLedger : Z) (bl : BucketList) : nat :=
  first_not_spilling currLedger (length bl - 1) 0.

Definition addBatch (isShutdown : nat -> bool) (pessimize : bool) (ready : nat -> bool)
    (currLedger currLedgerProtocol : Z) (initEntries liveEntries : list LedgerEntry)
    (deadEntries : list LedgerKey) (bl : BucketList) : bk BucketList :=
  let? _ := ensure (0 <? currLedger) BadLedger in
  let shadows := concat ((fun l => [mCurr l; mSnap l]) <$> bl) in
  let? shadows := pop_two shadows in
  let? (shadows, bl) :=
    spill_levels isShutdown currLedger currLedgerProtocol (length bl - 1) shadows bl in
  let? _ := ensure (match shadows with [] => true | _ => false end) BadShadows in
  match bl with
  | [] => Err BadLevel
  | level0 :: rest =>
      let? batch := fresh currLedgerProtocol initEntries liveEntries deadEntries in
      let? level0 := prepare currLedger currLedgerProtocol batch shadows level0 in
      let? level0 := commit isShutdown level0 in
      let bl := level0 :: rest in
      if pessimize then Ok bl else resolveAnyReadyFutures isShutdown ready bl
  end.

(** [restartMerges], from level [i] on; [below] is the level before it. *)
Fixpoint restart_from (stored : Bucket -> bool) (maxProtocolVersion ledger : Z) (i : nat)
    (below : option BucketLevel) (bl : BucketList) : bk BucketList :=
  match bl with
  | [] => Ok []
  | level :: bl' =>
      let next := mNextCurr level in
      if hasHashes next && negb (isLive next) then
        let? f := makeLive stored maxProtocolVersion i next in
        let level := setNext f level in
        let? bl' := restart_from stored maxProtocolVersion ledger (S i) (Some level) bl' in
        Ok (level :: bl')
      else
        match i, below with
        | S j, Some lower =>
            if isClear next then
              let snap := mSnap lower in
              match snap with
              | [] => Ok bl   (* an untouched level: the function returns *)
              | _ =>
                  let? version := getBucketVersion snap in
                  if protocolVersionIsBefore version FIRST_PROTOCOL_SHADOWS_REMOVED
                  then Err ClearFutureOldSnap
                  else
                    let mergeStartLedger := mask ledger (levelHalf j) in
                    let? level := prepare mergeStartLedger version snap [] level in
                    let? bl' := restart_from stored maxProtocolVersion ledger (S i) (Some level) bl' in
                    Ok (level :: bl')
              end
            else
              let? bl' := restart_from stored maxProtocolVersion ledger (S i) (Some level) bl' in
              Ok (level :: bl')
        | _, _ =>
            let? bl' := restart_from stored maxProtocolVersion ledger (S i) (Some level) bl' in
            Ok (level :: bl')
        end
  end.

Definition restartMerges (stored : Bucket -> bool) (maxProtocolVersion ledger : Z) (bl : BucketList)
    : bk BucketList :=
  restart_from stored maxProtocolVersion ledger 0 None bl.

(** ** What is kept of the list *)

Record HistoryStateBucket := {
  hs_curr : Bucket;
  hs_next : FutureBucket;
  hs_snap : Bucket;
}.

Record HistoryArchiveState := {
  currentLedger : Z;
  currentBuckets : list HistoryStateBucket;
}.

(** The constructor from a bucket list. *)
Definition newHAS (ledgerSeq : Z) (bl : BucketList) : HistoryArchiveState :=
  {| currentLedger := ledgerSeq;
     currentBuckets := (fun l => {| hs_curr := mCurr l; hs_next := mNextCurr l;
       hs_snap := mSnap l |}) <$> bl |}.

(** [toString] and then [fromString]. *)
Definition has_roundtrip (h : HistoryArchiveState) : HistoryArchiveState :=
  {| currentLedger := currentLedger h;
     currentBuckets := (fun b => {| hs_curr := hs_curr b; hs_next := saved (hs_next b);
       hs_snap := hs_snap b |}) <$> currentBuckets h |}.

(** The loop of [prepareForPublish]; [prev] is the level below. *)
Fixpoint publish_levels (stored : Bucket -> bool) (maxProtocolVersion : Z) (i : nat)
    (prev : HistoryStateBucket) (l : list HistoryStateBucket) : bk (list HistoryStateBucket) :=
  match l with
  | [] => Ok []
  | level :: l' =>
      let? snap := getBucketByHash stored (hs_snap prev) in
      let? version := getBucketVersion snap in
      let? next :=
        (if negb (isClear (hs_next level)) &&
            protocolVersionStartsFrom version FIRST_PROTOCOL_SHADOWS_REMOVED
         then Ok FB_CLEAR
         else if hasHashes (hs_next level) && negb (isLive (hs_next level))
         then makeLive stored maxProtocolVersion i (hs_next level)
         else Ok (hs_next level)) in
      let level := {| hs_curr := hs_curr level; hs_next := next; hs_snap := hs_snap level |} in
      let? l' := publish_levels stored maxProtocolVersion (S i) level l' in
      Ok (level :: l')
  end.

Definition prepareForPublish (stored : Bucket -> bool) (maxProtocolVersion : Z)
    (h : HistoryArchiveState) : bk HistoryArchiveState :=
  match currentBuckets h with
  | [] => Err BadLevel
  | level0 :: rest =>
      let? _ := ensure (isClear (hs_next level0)) BadFutureState in
      let? rest := publish_levels stored maxProtocolVersion 1 level0 rest in
      Ok {| currentLedger := currentLedger h; currentBuckets := level0 :: rest |}
  end.

Fixpoint assume_levels (stored : Bucket -> bool) (i : nat) (l : list HistoryStateBucket)
    : bk BucketList :=
  match l with
  | [] => Ok []
  | b :: l' =>
      let? curr := getBucketByHash stored (hs_curr b) in
      let? snap := getBucketByHash stored (hs_snap b) in
      let level := setNext (hs_next b) (setSnap snap (setCurr curr (newLevel i))) in
      let? l' := assume_levels stored (S i) l' in
      Ok (level :: l')
  end.

(** [assumeState]: every field of the levels but their index is overwritten. *)
Definition assumeState (stored : Bucket -> bool) (maxProtocolVersion : Z) (h : HistoryArchiveState)
    : bk BucketList :=
  let? bl := assume_levels stored 0 (currentBuckets h) in
  restartMerges stored maxProtocolVersion (currentLedger h) bl.

(** ** Reading the ledger from the buckets *)

Notation LedgerMap := (list (LedgerKey * LedgerEntry)) (only parsing).

Fixpoint load_entries (fuel : nat) (it : BucketInputIterator) (m : LedgerMap) : bk LedgerMap :=
  match mEntryPtr it with
  | None => Ok m
  | Some e =>
      match fuel with
      | O => Err MergeOutOfFuel
      | S fuel' =>
          let? m :=
            match e with
            | LIVEENTRY x | INITENTRY x => Ok (map_set (LedgerEntryKey x) x m)
            | DEADENTRY k =>
                if isSome (map_find k m) then Ok (map_erase k m) else Err MissingDeadEntry
            | METAENTRY _ => Err UnexpectedEntry
            end in
          let? it := nextEntry it in
          load_entries fuel' it m
      end
  end.

Definition loadEntriesFromBucket (b : Bucket) (m : LedgerMap) : bk LedgerMap :=
  let? it := openBucket b in load_entries (length b) it m.

Fixpoint load_buckets (stored : Bucket -> bool) (l : list Bucket) (m : LedgerMap) : bk LedgerMap :=
  match l with
  | [] => Ok m
  | b :: l' =>
      let? m := match b with
        | [] => Ok m
        | _ => let? b := getBucketByHash stored b in loadEntriesFromBucket b m
        end in
      load_buckets stored l' m
  end.

(** The buckets of the levels, the oldest first. *)
Definition oldest_first (l : list HistoryStateBucket) : list Bucket :=
  concat (reverse ((fun b => [hs_snap b; hs_curr b]) <$> l)).

Definition loadCompleteLedgerState (stored : Bucket -> bool) (h : HistoryArchiveState)
    : bk LedgerMap :=
  load_buckets stored (oldest_first (currentBuckets h)) [].

(** [mergeBuckets]. *)
Definition mergeBuckets (stored : Bucket -> bool) (LEDGER_PROTOCOL_VERSION : Z)
    (h : HistoryArchiveState) : bk Bucket :=
  let? ledgerMap := loadCompleteLedgerState stored h in
  let? out := openOutput false LEDGER_PROTOCOL_VERSION in
  let? out := put_all ((fun p => LIVEENTRY (snd p)) <$> ledgerMap) out in
  Ok (getBucket out).
