(* ===== verification/BucketLevels.v ===== *)
(** * When levels spill, and what the sequence of buckets means

    The arithmetic of [levelHalf], [mask] and [levelShouldSpill], and the state
    of the ledger as a sequence of buckets from the oldest to the newest. *)
From stdpp Require Import base tactics list numbers sorting sets.
From Stdlib Require Import ZArith Lia Bool Znumtheory.
From S2P Require Import Prelude Containers LedgerEntries Bucket BucketMerge BucketList.

Open Scope Z_scope.
Open Scope kin_scope.

(** ** Spills *)

Lemma mask_multiple (v k : Z) :
  is_u32 v -> 0 <= k < 32 -> mask v (2 ^ k) = 2 ^ k * (v / 2 ^ k).
Proof.
  intros Hv Hk. unfold mask, u32, is_u32, UINT32_MAX in *.
  change (4294967295 + 1) with (2 ^ 32).
  assert (0 < 2 ^ k < 2 ^ 32) as Hp
    by (split; [apply Z.pow_pos_nonneg|apply Z.pow_lt_mono_r]; lia).
  rewrite (Z.mod_small (2 ^ k - 1)) by lia.
  rewrite <- Z.land_ones, (Z.land_comm (Z.lnot _)), Z.land_assoc, Z.land_ones by lia.
  rewrite (Z.mod_small v) by lia.
  replace (2 ^ k - 1) with (Z.ones k) by (rewrite Z.ones_equiv; lia).
  rewrite <- Z.ldiff_land, Z.ldiff_ones_r, Z.shiftl_mul_pow2, Z.shiftr_div_pow2 by lia. lia.
Qed.

Lemma levelSize_pow (l : nat) : (l < kNumLevels)%nat -> levelSize l = 2 ^ (2 * Z.of_nat l + 2).
Proof. unfold kNumLevels. intros H. do 11 (destruct l as [|l]; [reflexivity|]). lia. Qed.

Lemma levelHalf_pow (l : nat) : (l < kNumLevels)%nat -> levelHalf l = 2 ^ (2 * Z.of_nat l + 1).
Proof. unfold kNumLevels. intros H. do 11 (destruct l as [|l]; [reflexivity|]). lia. Qed.

Lemma levelHalf_S (l : nat) : (S l < kNumLevels)%nat -> levelHalf (S l) = 4 * levelHalf l.
Proof.
  intros H. rewrite !levelHalf_pow by lia.
  replace (2 * Z.of_nat (S l) + 1) with ((2 * Z.of_nat l + 1) + 2) by lia.
  rewrite Z.pow_add_r by lia. lia.
Qed.

Lemma levelHalf_bounds (l : nat) :
  (l < kNumLevels)%nat -> 2 <= levelHalf l <= 2097152.
Proof. unfold kNumLevels. intros H. do 11 (destruct l as [|l]; [vm_compute; done|]). lia. Qed.

Lemma mask_half (v : Z) (l : nat) :
  is_u32 v -> (l < kNumLevels)%nat -> mask v (levelHalf l) = levelHalf l * (v / levelHalf l).
Proof.
  intros Hv Hl. rewrite levelHalf_pow by done. apply mask_multiple; [done|].
  unfold kNumLevels in Hl. lia.
Qed.

(** The multiples of half the level's size. *)
Lemma levelShouldSpill_iff (t : Z) (l : nat) :
  is_u32 t -> (l < kNumLevels - 1)%nat ->
  levelShouldSpill t l = true <-> (levelHalf l | t).
Proof.
  intros Ht Hl. unfold levelShouldSpill.
  rewrite (proj2 (Nat.eqb_neq l (kNumLevels - 1))) by lia.
  rewrite mask_half by (done || lia). rewrite levelSize_pow by lia.
  rewrite mask_multiple by (done || (unfold kNumLevels in Hl; lia)).
  rewrite orb_true_iff, !Z.eqb_eq. split.
  - intros [H|H]; rewrite H; [by apply Z.divide_factor_l|].
    apply Z.divide_mul_l. rewrite levelHalf_pow by lia. exists 2.
    replace (2 * Z.of_nat l + 2) with (1 + (2 * Z.of_nat l + 1)) by lia.
    rewrite Z.pow_add_r by lia. lia.
  - intros [q ->]. left. pose proof (levelHalf_bounds l). rewrite Z.div_mul by lia. lia.
Qed.

Lemma spill_last (t : Z) : levelShouldSpill t 10 = false.
Proof. done. Qed.

(** A level that spills does so when all levels below do. *)
Lemma spill_below (t : Z) (l : nat) :
  is_u32 t -> levelShouldSpill t (S l) = true -> (S l < kNumLevels - 1)%nat ->
  levelShouldSpill t l = true.
Proof.
  intros Ht H Hl. apply levelShouldSpill_iff in H; [|done..]. apply levelShouldSpill_iff; [done|lia|].
  rewrite levelHalf_S in H by (unfold kNumLevels in *; lia). destruct H as [q ->]. exists (q * 4). lia.
Qed.

(** A future started at the last spill of the level below at [t - 1] takes an
    empty curr exactly when the level itself spills at [t]. *)
Lemma empty_curr_next (t : Z) (l : nat) :
  0 < t -> is_u32 t -> (l < kNumLevels - 1)%nat -> levelShouldSpill t l = true ->
  shouldMergeWithEmptyCurr (t - 1) (S l) = levelShouldSpill t (S l).
Proof.
  intros H0 Ht Hl [q Hq]%levelShouldSpill_iff; [|done..]. unfold shouldMergeWithEmptyCurr. f_equal.
  pose proof (levelHalf_bounds l ltac:(lia)) as Hb.
  rewrite mask_half by (unfold is_u32 in *; lia).
  replace ((t - 1) / levelHalf l) with (q - 1).
  - replace (levelHalf l * (q - 1) + levelHalf l) with t by lia. unfold u32. apply Z.mod_small.
    unfold is_u32 in Ht. lia.
  - apply Z.div_unique with (levelHalf l - 1); lia.
Qed.

(** Between spills of the level below nothing changes. *)
Lemma empty_curr_same (t : Z) (l : nat) :
  0 < t -> is_u32 t -> (l < kNumLevels - 1)%nat -> levelShouldSpill t l = false ->
  shouldMergeWithEmptyCurr t (S l) = shouldMergeWithEmptyCurr (t - 1) (S l) /\
  t <> levelHalf l /\ t <> 2 * levelHalf l.
Proof.
  intros H0 Ht Hl Hs. pose proof (levelHalf_bounds l ltac:(lia)) as Hb.
  assert (~ (levelHalf l | t)) as Hnd.
  { intros Hd. apply levelShouldSpill_iff in Hd; [congruence|done..]. }
  split_and!; [|intros ->; apply Hnd; by exists 1; lia|intros ->; apply Hnd; by exists 2; lia].
  unfold shouldMergeWithEmptyCurr. rewrite !mask_half by (done || (unfold is_u32 in *; lia)).
  replace ((t - 1) / levelHalf l) with (t / levelHalf l); [done|].
  pose proof (Z.mod_pos_bound t (levelHalf l)). pose proof (Z.div_mod t (levelHalf l)).
  assert (t mod levelHalf l <> 0) by (intros Hz; by apply Hnd, Z.mod_divide; lia).
  apply Z.div_unique with (t mod levelHalf l - 1); lia.
Qed.

(** ** Sequences of buckets *)

Definition empty_state : LedgerState := fun _ => None.

(** From [f] through the buckets, the oldest first, to [g]. *)
Inductive acts_all : list Bucket -> LedgerState -> LedgerState -> Prop :=
  | acts_all_nil f g : (forall k, f k = g k) -> acts_all [] f g
  | acts_all_cons b l f g h : acts b f g -> acts_all l g h -> acts_all (b :: l) f h.

Lemma acts_ext (b : Bucket) (f f' g g' : LedgerState) :
  (forall k, f k = f' k) -> (forall k, g k = g' k) -> acts b f g -> acts b f' g'.
Proof. intros Hf Hg Ha k. rewrite <- Hf, <- Hg. apply Ha. Qed.

Lemma acts_all_ext (l : list Bucket) (f f' g g' : LedgerState) :
  (forall k, f k = f' k) -> (forall k, g k = g' k) -> acts_all l f g -> acts_all l f' g'.
Proof.
  intros Hf Hg Ha. revert f' g' Hf Hg. induction Ha as [f g Heq|b l f g h Hb Hl IH]; intros f' g' Hf Hg.
  - constructor. intros k. by rewrite <- Hf, <- Hg.
  - apply acts_all_cons with g; [by eapply acts_ext|]. by apply IH.
Qed.

Lemma acts_all_app (l1 l2 : list Bucket) (f h : LedgerState) :
  acts_all (l1 ++ l2) f h <-> exists g, acts_all l1 f g /\ acts_all l2 g h.
Proof.
  revert f. induction l1 as [|b l1 IH]; intros f; simpl; split.
  - intros Ha. exists f. split; [by constructor|done].
  - intros (g&Hg&Ha). inversion Hg; subst. by eapply acts_all_ext; [|..|done].
  - inversion 1 as [|? ? ? g ? Hb Hl]; subst. apply IH in Hl as (g'&?&?). exists g'. split; [|done].
    by apply acts_all_cons with g.
  - intros (g&Hg&Ha). inversion Hg as [|? ? ? g' ? Hb Hl]; subst. apply acts_all_cons with g'; [done|].
    apply IH. eauto.
Qed.

Lemma acts_empty (f g : LedgerState) : acts [] f g <-> forall k, f k = g k.
Proof. split; intros H k; specialize (H k); simpl in *; congruence. Qed.

Lemma acts_all_one (b : Bucket) (f g : LedgerState) : acts_all [b] f g <-> acts b f g.
Proof.
  split.
  - inversion 1 as [|? ? ? h ? Hb Hn]; subst. inversion Hn; subst. by eapply acts_ext; [| |done].
  - intros Ha. by apply acts_all_cons with g; [|constructor].
Qed.

(** A newer bucket is of no older protocol, unless empty. *)
Definition newer (a b : Bucket) : Prop := b = [] \/ version a <= version b.

(** A sequence that leads from the empty ledger to [f], of buckets up to
    protocol [p]. *)
Record stack_ok (p : Z) (f : LedgerState) (l : list Bucket) : Prop := {
  so_ok : Forall bucket_ok l;
  so_max : Forall (fun b => version b <= p) l;
  so_newer : StronglySorted newer l;
  so_acts : acts_all l empty_state f;
}.

Lemma StronglySorted_app_iff {A} (R : A -> A -> Prop) (l1 l2 : list A) :
  StronglySorted R (l1 ++ l2) <->
  StronglySorted R l1 /\ StronglySorted R l2 /\ forall x y, x ∈ l1 -> y ∈ l2 -> R x y.
Proof.
  induction l1 as [|a l1 IH]; simpl.
  { split; [intros H; split_and!; [constructor|done|set_solver]|tauto]. }
  split.
  - inversion 1 as [|? ? Hs Hall]; subst. apply IH in Hs as (?&?&?).
    rewrite Forall_app, !Forall_forall in Hall. destruct Hall as [Ha1 Ha2].
    split_and!; [constructor; [done|]; by apply Forall_forall|done|set_solver].
  - intros (Hs&?&Hr). inversion Hs as [|? ? Hs' Hall]; subst. constructor.
    + apply IH. set_solver.
    + rewrite Forall_app, !Forall_forall in *. set_solver.
Qed.

Lemma bucket_ok_version (b : Bucket) :
  bucket_ok b -> b = [] /\ version b = 0 \/ b <> [] /\ FIRST_PROTOCOL_SHADOWS_REMOVED <= version b.
Proof. intros [|]; [by left|by right]. Qed.

(** Empty buckets come and go. *)
Lemma stack_ok_empty (p : Z) (f : LedgerState) (l1 l2 : list Bucket) :
  0 <= p -> stack_ok p f (l1 ++ [] :: l2) <-> stack_ok p f (l1 ++ l2).
Proof.
  intros Hp. split; intros [Hok Hmax Hnew Hact].
  - apply Forall_app in Hok as [? [? ?]%Forall_cons], Hmax as [? [? ?]%Forall_cons].
    apply StronglySorted_app_iff in Hnew as (?&Hs&?). inversion Hs; subst.
    split; [by apply Forall_app..| |].
    + apply StronglySorted_app_iff. split_and!; [done..|set_solver].
    + apply acts_all_app in Hact as (g&?&Hl). apply acts_all_app. exists g. split; [done|].
      inversion Hl as [|? ? ? g' ? Hb ?]; subst. rewrite acts_empty in Hb.
      by eapply acts_all_ext; [| |done].
  - apply Forall_app in Hok as [? ?], Hmax as [? ?].
    apply StronglySorted_app_iff in Hnew as (?&?&?). split.
    + apply Forall_app; split; [done|]. constructor; [constructor|done].
    + apply Forall_app; split; [done|]. by constructor.
    + apply StronglySorted_app_iff. split_and!; [done| |].
      * constructor; [done|]. apply Forall_forall. intros b Hb. 
        assert (bucket_ok b) as Hbo by (rewrite Forall_forall in *; auto).
        destruct (bucket_ok_version b Hbo) as [[-> _]|[_ Hv]]; [by left|right].
        unfold FIRST_PROTOCOL_SHADOWS_REMOVED in Hv. simpl. lia.
      * intros x y Hx [->|Hy]%elem_of_cons; [by left|auto].
    + apply acts_all_app in Hact as (g&?&?). apply acts_all_app. exists g. split; [done|].
      apply acts_all_cons with g; [by apply acts_empty|done].
Qed.

(** ** The outcome of a merge *)

(** The merge of [c] and [s] into level [i], whenever it is run. *)
Definition merge_out (c s : Bucket) (i : nat) : bk Bucket :=
  bucket_merge (fun _ => false) (Z.max (version c) (version s)) c s [] (keepDeadEntries i).

Lemma merge_loop_shutdown (sd : nat -> bool) (fuel : nat) (v : Z) (keep : bool) (iter checks : nat)
    (s : MergeState) :
  (forall n, sd n = false) ->
  merge_loop sd fuel v keep iter checks s = merge_loop (fun _ => false) fuel v keep iter checks s.
Proof.
  intros Hsd. revert iter checks s. induction fuel as [|fuel IH]; intros iter checks s; [done|].
  cbn [merge_loop]. rewrite Hsd, andb_false_r.
  destruct (mergeCasesWithDefaultAcceptance v keep s) as [[[] s2]|]; simpl; rewrite ?IH; try done.
  destruct (mergeCasesWithEqualKeys v keep s2); simpl; by rewrite ?IH.
Qed.

Lemma merge_out_max (sd : nat -> bool) (p : Z) (c s : Bucket) (i : nat) :
  (forall n, sd n = false) -> bucket_ok c -> bucket_ok s -> Z.max (version c) (version s) <= p ->
  bucket_merge sd p c s [] (keepDeadEntries i) = merge_out c s i.
Proof.
  intros Hsd Hc Hs Hp. unfold merge_out, bucket_merge.
  destruct (openBucket_reads c Hc) as (oi&->&_&Hvo&_).
  destruct (openBucket_reads s Hs) as (ni&->&_&Hvn&_).
  cbn [res_bind openAll fmap list_fmap]. rewrite Hvo, Hvn. unfold calculateMergeProtocolVersion.
  cbn [foldl]. cbv zeta.
  rewrite (proj2 (Z.ltb_ge p _)) by lia. rewrite Z.ltb_irrefl.
  destruct (protocolVersionIsBefore _ FIRST_PROTOCOL_SHADOWS_REMOVED); cbn [res_bind];
    destruct (openOutput _ _) as [out|]; cbn [res_bind]; [|done| |done]; by rewrite merge_loop_shutdown.
Qed.

(** Two adjacent buckets of a sequence merge into one that does the same. *)
Lemma stack_ok_merge (p : Z) (f : LedgerState) (l1 l2 : list Bucket) (c s : Bucket) (i : nat) :
  stack_ok p f (l1 ++ c :: s :: l2) -> s <> [] ->
  (keepDeadEntries i = false -> Forall (eq []) l1) ->
  exists m, merge_out c s i = Ok m /\ m <> [] /\ stack_ok p f (l1 ++ m :: l2).
Proof.
  intros [Hok Hmax Hnew Hact] Hs Hkd.
  apply Forall_app in Hok as [Ho1 [Hc [Hos Ho2]%Forall_cons]%Forall_cons].
  apply Forall_app in Hmax as [Hm1 [Hmc [Hms Hm2]%Forall_cons]%Forall_cons].
  apply acts_all_app in Hact as (g&Hg&Ha). inversion Ha as [|? ? ? g1 ? Hac Ha']; subst.
  inversion Ha' as [|? ? ? g2 ? Has Ha2]; subst.
  destruct (bucket_merge_acts (fun _ => false) (Z.max (version c) (version s)) c s (keepDeadEntries i) g g1 g2)
    as (m&Hm&Hmo&Hmv&Hma); [done..| |].
  { intros Hk k. specialize (Hkd Hk). clear -Hg Hkd. revert Hg. change None with (empty_state k).
    generalize empty_state. induction Hkd as [|b l1 <- Hkd IH]; intros e Hg; inversion Hg as [|? ? ? e' ? Hb]; subst;
      [done|]. rewrite acts_empty in Hb. rewrite Hb. by apply IH. }
  exists m. assert (FIRST_PROTOCOL_SHADOWS_REMOVED <= version s) as Hvs.
  { by destruct (bucket_ok_version s Hos) as [[? ?]|[_ ?]]. }
  unfold FIRST_PROTOCOL_SHADOWS_REMOVED in Hvs.
  split_and!; [done|intros ->; simpl in Hmv; lia|]. split.
  - apply Forall_app. split; [done|]. by constructor.
  - apply Forall_app. split; [done|]. constructor; [lia|done].
  - apply StronglySorted_app_iff in Hnew as (Hn1&Hn2&Hr). inversion Hn2 as [|? ? Hn3 Hcl]; subst.
    inversion Hn3 as [|? ? Hn4 Hsl]; subst. apply Forall_cons in Hcl as [_ Hcl].
    apply StronglySorted_app_iff. split_and!; [done| |].
    + constructor; [done|]. rewrite Forall_forall in *. intros x Hx. unfold newer in *.
      destruct (Hcl x Hx) as [?|?]; [by left|]. destruct (Hsl x Hx) as [?|?]; [by left|]. right. lia.
    + intros x y Hx [->|Hy]%elem_of_cons; [|apply Hr; set_solver].
      destruct (Hr x s Hx ltac:(set_solver)) as [?|?]; [done|]. right. lia.
  - apply acts_all_app. exists g. split; [done|]. by apply acts_all_cons with g2.
Qed.

(** The newer bucket also merges alone. *)
Lemma stack_ok_alone (p : Z) (f : LedgerState) (l1 l2 : list Bucket) (s : Bucket) (i : nat) :
  stack_ok p f (l1 ++ s :: l2) -> s <> [] -> keepDeadEntries i = true ->
  exists m, merge_out [] s i = Ok m.
Proof.
  intros Hst Hs Hk. destruct (stack_ok_merge (Z.max 0 p) f l1 l2 [] s i) as (m&?&_); [| |congruence|by exists m].
  - apply stack_ok_empty; [lia|]. destruct Hst as [? Hm ??]. split; [done| |done..].
    eapply Forall_impl; [exact Hm|]. simpl. lia.
  - done.
Qed.
