(* ===== verification/BucketListTheorems.v ===== *)
(** * The bucket list is the ledger

    Read from its oldest bucket to its newest, the list holds exactly the
    ledger: after any sequence of batches, whenever the merges complete and
    however often the node restarts. *)
From stdpp Require Import base tactics list numbers sorting sets.
From Stdlib Require Import ZArith Lia Bool.
From S2P Require Import Prelude Containers LedgerEntries Bucket BucketMerge BucketList BucketLevels.

Open Scope Z_scope.
Open Scope kin_scope.

#[local] Arguments shouldMergeWithEmptyCurr : simpl never.
#[local] Arguments levelShouldSpill : simpl never.

(** ** The buckets of a list, without its futures *)

Definition core (bl : BucketList) : list (Bucket * Bucket) := (fun l => (mSnap l, mCurr l)) <$> bl.

Definition view (c : list (Bucket * Bucket)) : list Bucket :=
  concat (reverse ((fun p => [p.1; p.2]) <$> c)).

Lemma view_app (c1 c2 : list (Bucket * Bucket)) : view (c1 ++ c2) = view c2 ++ view c1.
Proof. unfold view. by rewrite fmap_app, reverse_app, concat_app. Qed.

Lemma view_cons (s c : Bucket) (l : list (Bucket * Bucket)) : view ((s, c) :: l) = view l ++ [s; c].
Proof. exact (view_app [(s, c)] l). Qed.

Lemma adjacent {A} (l : list A) (i : nat) (a b : A) :
  l !! i = Some a -> l !! S i = Some b ->
  exists pre post, l = pre ++ a :: b :: post /\ length pre = i /\
    forall a' b', <[S i := b']> (<[i := a']> l) = pre ++ a' :: b' :: post.
Proof.
  intros Ha Hb. apply list_elem_of_split_length in Ha as (pre&post&->&Hi).
  destruct post as [|b' post].
  - rewrite lookup_app_r in Hb by lia. replace (S i - length pre)%nat with 1%nat in Hb by lia. done.
  - rewrite lookup_app_r in Hb by lia. replace (S i - length pre)%nat with 1%nat in Hb by lia.
    simpl in Hb. simplify_eq. exists pre, post. split_and!; [done..|]. intros a' b'.
    rewrite insert_app_r_alt by lia. replace (length pre - length pre)%nat with 0%nat by lia. simpl.
    rewrite insert_app_r_alt by lia. by replace (S (length pre) - length pre)%nat with 1%nat by lia.
Qed.

(** ** What the futures are *)

(** [f] is the merge of [c] and [s] into level [i], running or done. *)
Definition future_of (f : FutureBucket) (c s : Bucket) (i : nat) : Prop :=
  (exists p, f = FB_LIVE_INPUTS c s [] p i /\ Z.max (version c) (version s) <= p) \/
  (exists m, f = FB_LIVE_OUTPUT m /\ merge_out c s i = Ok m).

Lemma resolve_future (sd : nat -> bool) (f : FutureBucket) (c s m : Bucket) (i : nat) :
  (forall n, sd n = false) -> bucket_ok c -> bucket_ok s -> future_of f c s i ->
  merge_out c s i = Ok m -> isLive f = true /\ resolve sd f = Ok (m, FB_LIVE_OUTPUT m).
Proof.
  intros Hsd Hc Hs [(p&->&Hp)|(m'&->&Hm')] Hm; simpl.
  - by rewrite merge_out_max, Hm.
  - rewrite Hm in Hm'. by simplify_eq.
Qed.

(** Level [i] and the one above it, after ledger [t]. *)
Record pair_ok (t : Z) (i : nat) (lower upper : BucketLevel) : Prop := {
  po_before : t < levelHalf i -> mSnap lower = [] /\ mNextCurr upper = FB_CLEAR;
  po_after : levelHalf i <= t -> mSnap lower <> [] /\
    future_of (mNextCurr upper) (if shouldMergeWithEmptyCurr t (S i) then [] else mCurr upper)
      (mSnap lower) (S i);
  po_curr : 2 * levelHalf i <= t -> mCurr upper <> [];
}.

(** The same before level [i] spills at ledger [t], the levels above having
    spilled. *)
Record pair_due (t : Z) (i : nat) (lower upper : BucketLevel) : Prop := {
  pd_before : t <= levelHalf i -> mSnap lower = [] /\ mNextCurr upper = FB_CLEAR;
  pd_after : levelHalf i < t -> mSnap lower <> [] /\
    future_of (mNextCurr upper) (mCurr upper) (mSnap lower) (S i);
}.

Definition pair_next (t : Z) (i : nat) (lower upper : BucketLevel) : Prop :=
  if levelShouldSpill t i then pair_due t i lower upper else pair_ok t i lower upper.

Lemma pair_next_same (t : Z) (i : nat) (lower upper : BucketLevel) :
  0 < t -> is_u32 t -> (i < kNumLevels - 1)%nat -> levelShouldSpill t (S i) = false ->
  pair_ok (t - 1) i lower upper -> pair_next t i lower upper.
Proof.
  intros H0 Ht Hi Hs [Hb Ha Hc]. unfold pair_next. destruct (levelShouldSpill t i) eqn:E.
  - split; [intros ?; apply Hb; lia|]. intros ?. rewrite empty_curr_next, Hs in Ha by done. apply Ha. lia.
  - destruct (empty_curr_same t i H0 Ht Hi E) as (He&?&?).
    split; intros; rewrite ?He; [apply Hb|apply Ha|apply Hc]; lia.
Qed.

Lemma pair_next_snapped (t : Z) (i : nat) (lower upper : BucketLevel) :
  0 < t -> is_u32 t -> (S i < kNumLevels - 1)%nat -> levelShouldSpill t (S i) = true ->
  pair_ok (t - 1) i lower upper -> pair_next t i lower (level_snap upper).2.
Proof.
  intros H0 Ht Hi Hs [Hb Ha Hc]. unfold pair_next.
  assert (levelShouldSpill t i = true) as Hi' by (by apply spill_below). rewrite Hi'.
  rewrite empty_curr_next, Hs in Ha by (done || lia).
  split; simpl; intros; [apply Hb|apply Ha]; lia.
Qed.

(** ** Invariants *)

Record list_inv (p t : Z) (f : LedgerState) (bl : BucketList) : Prop := {
  li_length : length bl = kNumLevels;
  li_level : forall i l, bl !! i = Some l -> mLevel l = i;
  li_pairs : forall i lower upper, bl !! i = Some lower -> bl !! S i = Some upper ->
    pair_ok t i lower upper;
  li_zero : forall l, bl !! 0%nat = Some l -> mNextCurr l = FB_CLEAR /\ (1 <= t -> mCurr l <> []);
  li_last : forall l, bl !! 10%nat = Some l -> mSnap l = [];
  li_stack : stack_ok p f (view (core bl));
}.

(** In the loop of [addBatch] at ledger [t], before the turn that spills level
    [j - 1]. *)
Record loop_inv (p t : Z) (f : LedgerState) (j : nat) (bl : BucketList) : Prop := {
  lo_length : length bl = kNumLevels;
  lo_level : forall i l, bl !! i = Some l -> mLevel l = i;
  lo_done : forall i lower upper, bl !! i = Some lower -> bl !! S i = Some upper ->
    (j <= i)%nat -> pair_ok t i lower upper;
  lo_next : forall i lower upper, bl !! i = Some lower -> bl !! S i = Some upper ->
    S i = j -> pair_next t i lower upper;
  lo_todo : forall i lower upper, bl !! i = Some lower -> bl !! S i = Some upper ->
    (S i < j)%nat -> pair_ok (t - 1) i lower upper;
  lo_zero : forall l, bl !! 0%nat = Some l -> mNextCurr l = FB_CLEAR /\
    ((0 < j)%nat -> 1 <= t - 1 -> mCurr l <> []);
  lo_last : forall l, bl !! 10%nat = Some l -> mSnap l = [];
  lo_stack : stack_ok p f (view (core bl));
}.

(** A turn without a spill. *)
Lemma loop_keep (p t : Z) (f : LedgerState) (i : nat) (bl : BucketList) :
  0 < t -> is_u32 t -> (i < kNumLevels - 1)%nat -> levelShouldSpill t i = false ->
  loop_inv p t f (S i) bl -> loop_inv p t f i bl.
Proof.
  intros H0 Ht Hi Hs [Hlen Hlev Hd Hn Ht' Hz Hl Hst]. split; try done.
  - intros k lower upper Hlo Hup Hk. destruct (decide (k = i)) as [->|]; [|eapply Hd; [done..|lia]].
    specialize (Hn i lower upper Hlo Hup eq_refl). unfold pair_next in Hn. by rewrite Hs in Hn.
  - intros k lower upper Hlo Hup Hk. apply pair_next_same; [done..|unfold kNumLevels in *; lia|by rewrite Hk|].
    eapply Ht'; [done..|lia].
  - intros k lower upper Hlo Hup Hk. eapply Ht'; [done..|lia].
  - intros l Hl0. destruct (Hz l Hl0) as [? Hz']. split; [done|]. intros ?. apply Hz'. lia.
Qed.

(** What the curr of the level above becomes when level [i] spills. *)
Definition committed (t : Z) (i : nat) (cu sl : Bucket) : Bucket :=
  if levelHalf i <? t then match merge_out cu sl (S i) with Ok m => m | Err _ => [] end else cu.

Definition core_spill (t : Z) (i : nat) (c : list (Bucket * Bucket)) : list (Bucket * Bucket) :=
  match c !! i, c !! S i with
  | Some (sl, cl), Some (su, cu) => <[S i := (su, committed t i cu sl)]> (<[i := (cl, [])]> c)
  | _, _ => c
  end.

Lemma core_lookup (bl : BucketList) (i : nat) :
  core bl !! i = (fun l => (mSnap l, mCurr l)) <$> bl !! i.
Proof. unfold core. by rewrite list_lookup_fmap. Qed.

(** ** A spill *)

Section spill.
Context (isShutdown : nat -> bool) (never : forall n, isShutdown n = false).

Lemma commit_due (p t : Z) (f : LedgerState) (i : nat) (lower upper : BucketLevel) (l1 l2 : list Bucket) :
  0 <= p -> pair_due t i lower upper ->
  stack_ok p f (l1 ++ mSnap upper :: mCurr upper :: mSnap lower :: mCurr lower :: l2) ->
  (keepDeadEntries (S i) = false -> Forall (eq []) (l1 ++ [mSnap upper])) ->
  exists u, commit isShutdown upper = Ok u /\ mNextCurr u = FB_CLEAR /\ mSnap u = mSnap upper /\
    mLevel u = mLevel upper /\ mCurr u = committed t i (mCurr upper) (mSnap lower) /\
    (levelHalf i < t -> mCurr u <> []) /\
    stack_ok p f (l1 ++ mSnap upper :: mCurr u :: mCurr lower :: [] :: l2).
Proof.
  intros Hp [Hb Ha] Hst Hkd. unfold committed. destruct (Z.ltb_spec (levelHalf i) t) as [Hlt|Hge].
  - destruct (Ha Hlt) as [Hs Hf]. rewrite cons_middle, app_assoc in Hst.
    destruct (stack_ok_merge p f _ _ _ _ (S i) Hst Hs Hkd) as (m&Hm&Hne&Hst').
    pose proof (so_ok _ _ _ Hst) as Hok. rewrite Forall_app, !Forall_cons in Hok.
    destruct Hok as (_&Hoc&Hos&_).
    destruct (resolve_future isShutdown _ _ _ m (S i) never Hoc Hos Hf Hm) as [Hlive Hres].
    exists (setCurr m upper). unfold commit. rewrite Hlive, Hres. simpl. split_and!; try done.
    + by rewrite Hm.
    + pose proof (stack_ok_empty p f (l1 ++ [mSnap upper; m; mCurr lower]) l2 Hp) as He.
      rewrite <- app_assoc in Hst'. repeat rewrite <- app_assoc in He. by apply He.
  - destruct (Hb Hge) as [Hs Hf]. exists upper. unfold commit. rewrite Hf. simpl. rewrite Hf. simpl.
    split_and!; try done; [lia|]. rewrite Hs in Hst.
    pose proof (stack_ok_empty p f (l1 ++ [mSnap upper; mCurr upper]) (mCurr lower :: l2) Hp) as He1.
    pose proof (stack_ok_empty p f (l1 ++ [mSnap upper; mCurr upper; mCurr lower]) l2 Hp) as He2.
    repeat rewrite <- app_assoc in He1. repeat rewrite <- app_assoc in He2. by apply He2, He1.
Qed.

Lemma prepare_ok (t p : Z) (snap : Bucket) (shadows : list Bucket) (l : BucketLevel) :
  bucket_ok snap -> snap <> [] -> mNextCurr l = FB_CLEAR ->
  prepare t p snap shadows l =
    Ok (setNext (FB_LIVE_INPUTS (if shouldMergeWithEmptyCurr t (mLevel l) then [] else mCurr l) snap []
      p (mLevel l)) l).
Proof.
  intros Hok Hne Hn. unfold prepare, startFuture. rewrite Hn. simpl.
  rewrite getBucketVersion_ok by done. simpl. destruct (bucket_ok_version snap Hok) as [[? _]|[_ Hv]]; [done|].
  unfold protocolVersionStartsFrom. by rewrite (proj2 (Z.leb_le _ _)) by done.
Qed.

(** The level that spills is not empty. *)
Lemma spill_curr (p t : Z) (f : LedgerState) (i : nat) (bl : BucketList) (lower : BucketLevel) :
  0 < t -> is_u32 t -> (i < kNumLevels - 1)%nat -> levelShouldSpill t i = true ->
  loop_inv p t f (S i) bl -> bl !! i = Some lower -> levelHalf i <= t /\ mCurr lower <> [].
Proof.
  intros H0 Ht Hi Hs [Hlen _ _ _ Htd Hz _ _] Hlo.
  apply levelShouldSpill_iff in Hs as Hdiv; [|done..]. apply Z.divide_pos_le in Hdiv; [|done].
  split; [done|]. destruct i as [|i].
  - apply (Hz lower Hlo); [lia|]. pose proof (levelHalf_bounds 0 ltac:(unfold kNumLevels; lia)). lia.
  - destruct (lookup_lt_is_Some_2 bl i) as [ll Hll]; [unfold kNumLevels in *; lia|].
    eapply po_curr; [apply (Htd i ll lower Hll Hlo); lia|].
    rewrite levelHalf_S in Hdiv by (unfold kNumLevels in *; lia).
    pose proof (levelHalf_bounds i ltac:(unfold kNumLevels in *; lia)). lia.
Qed.

(** The list with level [i] snapped and the level above replaced. *)
Lemma loop_spilled (p t : Z) (f : LedgerState) (i : nat) (bl : BucketList)
    (lower upper u : BucketLevel) :
  0 < t -> is_u32 t -> (i < kNumLevels - 1)%nat -> levelShouldSpill t i = true ->
  loop_inv p t f (S i) bl -> bl !! i = Some lower -> bl !! S i = Some upper ->
  mLevel u = mLevel upper -> mSnap u = mSnap upper -> pair_ok t i (level_snap lower).2 u ->
  stack_ok p f (view (core (<[S i := u]> (<[i := (level_snap lower).2]> bl)))) ->
  loop_inv p t f i (<[S i := u]> (<[i := (level_snap lower).2]> bl)).
Proof.
  intros H0 Ht Hi Hs [Hlen Hlev Hd Hn Htd Hz Hl _] Hlo Hup Hul Hus Hpair Hst.
  set (bl' := <[S i := u]> (<[i := (level_snap lower).2]> bl)) in *.
  assert (forall k l, bl' !! k = Some l -> k = S i /\ l = u \/ k = i /\ l = (level_snap lower).2 \/
    k <> i /\ k <> S i /\ bl !! k = Some l) as Hget.
  { intros k l. unfold bl'. destruct (decide (k = S i)) as [->|Hk1].
    - rewrite list_lookup_insert_eq by (rewrite length_insert; unfold kNumLevels in *; lia). naive_solver.
    - rewrite list_lookup_insert_ne by done. destruct (decide (k = i)) as [->|Hk2].
      + rewrite list_lookup_insert_eq by (unfold kNumLevels in *; lia). naive_solver.
      + rewrite list_lookup_insert_ne by done. auto. }
  split; [unfold bl'; by rewrite !length_insert| | | | | | |done].
  - intros k l [[-> ->]|[[-> ->]|(_&_&Hk)]]%Hget; [rewrite Hul|simpl|]; by apply Hlev.
  - intros k lo up Hlk Huk Hki. apply Hget in Hlk, Huk.
    destruct Hlk as [[-> ->]|[[-> ->]|(?&?&Hlk)]]; destruct Huk as [[? ->]|[[? ->]|(?&?&Huk)]]; try lia.
    + destruct (Hd (S i) upper up Hup Huk ltac:(lia)) as [Hb1 Ha1 Hc1].
      split; rewrite ?Hus; [exact Hb1|exact Ha1|exact Hc1].
    + done.
    + apply (Hd k); [done..|lia].
  - intros k lo up Hlk Huk Hki. apply Hget in Hlk, Huk.
    destruct Hlk as [[? ->]|[[? ->]|(?&?&Hlk)]]; [lia..|].
    destruct Huk as [[? ->]|[[? ->]|(?&?&Huk)]]; [lia| |lia].
    apply pair_next_snapped; rewrite ?Hki; try done. apply Htd; [done|by rewrite Hki|lia].
  - intros k lo up Hlk Huk Hki. apply Hget in Hlk, Huk.
    destruct Hlk as [[? ->]|[[? ->]|(?&?&Hlk)]]; [lia..|].
    destruct Huk as [[? ->]|[[? ->]|(?&?&Huk)]]; [lia..|]. by apply Htd; [| |lia].
  - intros l [[? ->]|[[? ->]|(?&?&Hk)]]%Hget; [lia| |].
    + split; [|lia]. apply (Hz lower). congruence.
    + destruct (Hz l Hk). split; [done|]. intros. auto with lia.
  - intros l [[? ->]|[[? ->]|(?&?&Hk)]]%Hget; [|unfold kNumLevels in *; lia|by apply Hl].
    rewrite Hus. apply Hl. congruence.
Qed.

Lemma view_pair (pre post : list BucketLevel) (l u : BucketLevel) :
  view (core (pre ++ l :: u :: post)) =
  view (core post) ++ mSnap u :: mCurr u :: mSnap l :: mCurr l :: view (core pre).
Proof.
  unfold core. rewrite fmap_app, !fmap_cons, view_app, !view_cons. by rewrite <- !app_assoc.
Qed.

Lemma spill_level_ok (p t : Z) (f : LedgerState) (i : nat) (shadows : list Bucket) (bl : BucketList) :
  0 <= p -> 0 < t -> is_u32 t -> (i < kNumLevels - 1)%nat -> levelShouldSpill t i = true ->
  loop_inv p t f (S i) bl ->
  exists bl', spill_level isShutdown t p i shadows bl = Ok bl' /\ loop_inv p t f i bl' /\
    core bl' = core_spill t i (core bl).
Proof.
  intros Hp H0 Ht Hi Hs Hinv. pose proof Hinv as [Hlen Hlev _ Hn _ _ Hl Hst].
  destruct (lookup_lt_is_Some_2 bl i) as [lower Hlo]; [unfold kNumLevels in *; lia|].
  destruct (lookup_lt_is_Some_2 bl (S i)) as [upper Hup]; [unfold kNumLevels in *; lia|].
  destruct (adjacent _ _ _ _ Hlo Hup) as (pre&post&Hbl&Hpre&Hins).
  assert (pair_due t i lower upper) as Hdue.
  { specialize (Hn i lower upper Hlo Hup eq_refl). unfold pair_next in Hn. by rewrite Hs in Hn. }
  destruct (spill_curr p t f i bl lower H0 Ht Hi Hs Hinv Hlo) as [Hht Hcl].
  rewrite Hbl, view_pair in Hst.
  destruct (commit_due p t f i lower upper _ _ Hp Hdue Hst) as (u&Hcommit&Hun&Hus&Hulev&Huc&Hune&Hst').
  { intros Hk. unfold keepDeadEntries in Hk. apply Nat.ltb_ge in Hk.
    assert (i = 9%nat) as Hi9 by (unfold kNumLevels in *; lia).
    rewrite (Hl upper) by (by rewrite Hi9 in Hup).
    assert (post = []) as ->; [|by constructor].
    apply nil_length_inv. rewrite Hbl, length_app in Hlen. simpl in Hlen. unfold kNumLevels in Hlen. lia. }
  pose proof (so_ok _ _ _ Hst) as Hok. rewrite Forall_app, !Forall_cons in Hok.
  destruct Hok as (_&_&_&_&Hcok&_).
  pose proof (so_max _ _ _ Hst') as Hmax. rewrite Forall_app, !Forall_cons in Hmax.
  destruct Hmax as (_&_&Hm1&Hm2&_). cbn beta in Hm1, Hm2.
  set (next := FB_LIVE_INPUTS (if shouldMergeWithEmptyCurr t (mLevel u) then [] else mCurr u)
    (mCurr lower) [] p (mLevel u)).
  exists (<[S i := setNext next u]> (<[i := (level_snap lower).2]> bl)). split_and!.
  - unfold spill_level. rewrite Hlo, Hup. simpl. rewrite Hcommit. simpl.
    by rewrite (prepare_ok t p (mCurr lower) shadows u Hcok Hcl Hun).
  - eapply loop_spilled; [done..| |by rewrite Hins, view_pair; simpl; rewrite Hus].
    pose proof (levelHalf_bounds i ltac:(lia)). split; simpl; intros; [lia| |apply Hune; lia].
    split; [done|]. left. exists p. unfold next. rewrite Hulev, (Hlev (S i) upper Hup).
    split; [done|]. destruct (shouldMergeWithEmptyCurr t (S i)); [change (version []) with 0|]; lia.
  - unfold core_spill. rewrite !core_lookup, Hlo, Hup. simpl. unfold core.
    rewrite !list_fmap_insert. simpl. by rewrite Hus, Huc.
Qed.

Lemma pop_two_length (l : list Bucket) (n : nat) :
  length l = (2 * S n)%nat -> exists l', pop_two l = Ok l' /\ length l' = (2 * n)%nat.
Proof.
  intros Hl. unfold pop_two. rewrite (proj2 (Nat.leb_le 2 (length l))) by lia.
  eexists. split; [done|]. rewrite length_take. lia.
Qed.

Fixpoint core_spills (t : Z) (i : nat) (c : list (Bucket * Bucket)) : list (Bucket * Bucket) :=
  match i with
  | O => c
  | S below => core_spills t below (if levelShouldSpill t below then core_spill t below c else c)
  end.

Lemma spill_levels_ok (p t : Z) (f : LedgerState) (i : nat) (shadows : list Bucket) (bl : BucketList) :
  0 <= p -> 0 < t -> is_u32 t -> (i <= kNumLevels - 1)%nat -> length shadows = (2 * i)%nat ->
  loop_inv p t f i bl ->
  exists bl', spill_levels isShutdown t p i shadows bl = Ok ([], bl') /\ loop_inv p t f 0 bl' /\
    core bl' = core_spills t i (core bl).
Proof.
  intros Hp H0 Ht. revert shadows bl. induction i as [|i IH]; intros shadows bl Hi Hlen Hinv.
  { apply nil_length_inv in Hlen as ->. by exists bl. }
  destruct (pop_two_length shadows i Hlen) as (sh&Hpop&Hsh). cbn [spill_levels core_spills].
  rewrite Hpop. cbn [res_bind]. destruct (levelShouldSpill t i) eqn:Hs.
  - destruct (spill_level_ok p t f i sh bl Hp H0 Ht ltac:(lia) Hs Hinv) as (bl1&Hbl1&Hinv1&<-).
    rewrite Hbl1. cbn [res_bind]. apply IH; [lia|done..].
  - apply IH; [lia|done|]. apply loop_keep; [done..|lia|done|done].
Qed.

(** ** A batch *)

Lemma stack_ok_push (p p' : Z) (f g : LedgerState) (l : list Bucket) (b : Bucket) :
  p <= p' -> stack_ok p f l -> bucket_ok b -> version b = p' -> acts b f g -> stack_ok p' g (l ++ [b]).
Proof.
  intros Hp [Hok Hmax Hnew Hact] Hb Hv Ha. split.
  - apply Forall_app. split; [done|]. by constructor.
  - apply Forall_app. split; [|by constructor; [lia|]]. eapply Forall_impl; [exact Hmax|]. simpl. lia.
  - apply StronglySorted_app_iff. split_and!; [done|by repeat constructor|].
    intros x y Hx ->%list_elem_of_singleton. right. rewrite Forall_forall in Hmax. specialize (Hmax x Hx).
    simpl in Hmax. lia.
  - apply acts_all_app. exists f. split; [done|]. by apply acts_all_one.
Qed.

Lemma stack_ok_weaken (p p' : Z) (f : LedgerState) (l : list Bucket) :
  p <= p' -> stack_ok p f l -> stack_ok p' f l.
Proof.
  intros Hp [? Hmax ??]. split; [done| |done..]. eapply Forall_impl; [exact Hmax|]. simpl. lia.
Qed.

(** At the end of the loop level 0 takes the new bucket. *)
Lemma level_zero_ok (p p' t : Z) (f g : LedgerState) (l : BucketLevel) (rest : BucketList) (b : Bucket)
    (shadows : list Bucket) :
  0 <= p -> p <= p' -> 0 < t -> loop_inv p t f 0 (l :: rest) -> bucket_ok b -> b <> [] -> version b = p' ->
  acts b f g ->
  exists m, (let? l := prepare t p' b shadows l in commit isShutdown l) = Ok (setCurr m l) /\
    merge_out (mCurr l) b 0 = Ok m /\ list_inv p' t g (setCurr m l :: rest).
Proof.
  intros Hp Hp' H0 [Hlen Hlev Hd _ _ Hz Hl Hst] Hb Hne Hv Ha.
  unfold core in Hst. rewrite fmap_cons, view_cons in Hst.
  pose proof (stack_ok_push p p' f g _ b Hp' Hst Hb Hv Ha) as Hst'.
  rewrite <- app_assoc in Hst'. simpl in Hst'.
  destruct (stack_ok_merge p' g (view (core rest) ++ [mSnap l]) [] (mCurr l) b 0) as (m&Hm&Hmne&Hst'');
    [by rewrite <- app_assoc|done|done|].
  rewrite <- app_assoc in Hst''. simpl in Hst''. destruct (Hz l eq_refl) as [Hnext _].
  pose proof (so_max _ _ _ Hst') as Hmax. rewrite Forall_app, !Forall_cons in Hmax.
  destruct Hmax as (_&_&Hmc&_&_). cbn beta in Hmc.
  pose proof (so_ok _ _ _ Hst') as Hok. rewrite Forall_app, !Forall_cons in Hok. destruct Hok as (_&_&Hoc&_&_).
  exists m. split_and!; [|done|].
  - rewrite (prepare_ok t p' b shadows l Hb Hne Hnext). cbn [res_bind]. rewrite (Hlev 0%nat l eq_refl).
    unfold shouldMergeWithEmptyCurr, commit. simpl. rewrite (merge_out_max isShutdown p' _ _ 0) by (done || lia).
    rewrite Hm. simpl. done.
  - split; [done| | | | |].
    + intros [|i] x; simpl; [intros [= <-]; simpl; apply (Hlev 0%nat l eq_refl)|]. apply (Hlev (S i)).
    + intros [|i] lo up Hlo Hup.
      * simpl in Hlo. simplify_eq. destruct (Hd 0%nat l up eq_refl Hup ltac:(lia)) as [H1 H2 H3].
        split; [exact H1|exact H2|exact H3].
      * apply (Hd (S i)); [exact Hlo|exact Hup|lia].
    + intros x [= <-]. simpl. done.
    + intros x Hx. apply Hl. exact Hx.
    + unfold core. rewrite fmap_cons, view_cons. exact Hst''.
Qed.

(** ** Resolved futures *)

(** The same buckets, and a future that stands for the same merge. *)
Record same_level (p : Z) (l l' : BucketLevel) : Prop := {
  sl_level : mLevel l' = mLevel l;
  sl_curr : mCurr l' = mCurr l;
  sl_snap : mSnap l' = mSnap l;
  sl_clear : mNextCurr l = FB_CLEAR -> mNextCurr l' = FB_CLEAR;
  sl_future : forall c s i, Z.max (version c) (version s) <= p ->
    future_of (mNextCurr l) c s i -> future_of (mNextCurr l') c s i;
}.

(** What is known of a level and the one above it from the sequence. *)
Record pair_sound (p : Z) (lower upper : BucketLevel) : Prop := {
  ps_curr : bucket_ok (mCurr upper);
  ps_snap : bucket_ok (mSnap lower);
  ps_newer : newer (mCurr upper) (mSnap lower);
  ps_max : version (mCurr upper) <= p /\ version (mSnap lower) <= p;
}.

Lemma list_inv_sound (p t : Z) (f : LedgerState) (bl : BucketList) (i : nat) (lower upper : BucketLevel) :
  list_inv p t f bl -> bl !! i = Some lower -> bl !! S i = Some upper -> pair_sound p lower upper.
Proof.
  intros [_ _ _ _ _ Hst] Hlo Hup. destruct (adjacent _ _ _ _ Hlo Hup) as (pre&post&->&_&_).
  rewrite view_pair in Hst. destruct Hst as [Hok Hmax Hnew _].
  rewrite Forall_app, !Forall_cons in Hok, Hmax. apply StronglySorted_app_iff in Hnew as (_&Hnew&_).
  inversion Hnew as [|? ? Hn _]; subst. inversion Hn as [|? ? _ Hc]; subst.
  apply Forall_cons in Hc as [Hc _]. split; tauto.
Qed.

Lemma list_inv_same (p t : Z) (f : LedgerState) (bl bl' : BucketList) :
  0 <= p -> list_inv p t f bl -> Forall2 (same_level p) bl bl' -> list_inv p t f bl' /\ core bl' = core bl.
Proof.
  intros Hp Hinv Hall. pose proof Hinv as [Hlen Hlev Hpairs Hz Hl Hst].
  assert (core bl' = core bl) as Hcore.
  { unfold core. clear -Hall. induction Hall as [|l l' bl bl' [_ Hc Hs _ _] _ IH]; [done|].
    by rewrite !fmap_cons, IH, Hc, Hs. }
  assert (forall i l', bl' !! i = Some l' -> exists l, bl !! i = Some l /\ same_level p l l') as Hget.
  { intros i l' Hl'. eapply Forall2_lookup_r in Hall; [|done]. naive_solver. }
  split; [|done]. split.
  - by rewrite <- (Forall2_length _ _ _ Hall).
  - intros i l' (l&Hil&Hs)%Hget. rewrite (sl_level _ _ _ Hs). by apply Hlev.
  - intros i lo' up' (lo&Hlo&Slo)%Hget (up&Hup&Sup)%Hget.
    destruct (Hpairs i lo up Hlo Hup) as [Hb Ha Hc]. destruct (list_inv_sound _ _ _ _ _ _ _ Hinv Hlo Hup).
    split; rewrite ?(sl_snap _ _ _ Slo), ?(sl_curr _ _ _ Sup); [| |done].
    + intros Ht. destruct (Hb Ht). split; [done|]. by apply (sl_clear _ _ _ Sup).
    + intros Ht. destruct (Ha Ht) as [? Hf]. split; [done|]. apply (sl_future _ _ _ Sup); [|done].
      destruct (shouldMergeWithEmptyCurr t (S i)); [change (version []) with 0|]; lia.
  - intros l' (l&Hil&Hs)%Hget. rewrite (sl_curr _ _ _ Hs). destruct (Hz l Hil) as [Hn ?].
    split; [|done]. by apply (sl_clear _ _ _ Hs).
  - intros l' (l&Hil&Hs)%Hget. rewrite (sl_snap _ _ _ Hs). by apply Hl.
  - by rewrite Hcore.
Qed.

(** Every merge that runs succeeds. *)
Lemma future_merges (p t : Z) (f : LedgerState) (bl : BucketList) (i : nat) (lower upper : BucketLevel) :
  0 <= p -> list_inv p t f bl -> bl !! i = Some lower -> bl !! S i = Some upper -> levelHalf i <= t ->
  exists m, merge_out (if shouldMergeWithEmptyCurr t (S i) then [] else mCurr upper) (mSnap lower) (S i) = Ok m.
Proof.
  intros Hp [Hlen Hlev Hpairs _ Hl Hst] Hlo Hup Ht.
  destruct (po_after _ _ _ _ (Hpairs i lower upper Hlo Hup) Ht) as [Hs _].
  destruct (adjacent _ _ _ _ Hlo Hup) as (pre&post&Hbl&Hpre&_). rewrite Hbl, view_pair in Hst.
  destruct (shouldMergeWithEmptyCurr t (S i)) eqn:He.
  - eapply (stack_ok_alone p f (view (core post) ++ [mSnap upper; mCurr upper])); [|done|].
    + rewrite <- app_assoc. exact Hst.
    + apply Nat.ltb_lt. destruct (decide (S i = 10)%nat) as [Hi|].
      * rewrite Hi in He. unfold shouldMergeWithEmptyCurr in He. by rewrite spill_last in He.
      * apply lookup_lt_Some in Hup. unfold kNumLevels in *. lia.
  - destruct (stack_ok_merge p f (view (core post) ++ [mSnap upper]) (mCurr lower :: view (core pre))
      (mCurr upper) (mSnap lower) (S i)) as (m&Hm&_); [by rewrite <- app_assoc|done| |by exists m].
    intros Hk. apply Nat.ltb_ge in Hk. pose proof (lookup_lt_Some _ _ _ Hup) as Hlt.
    assert (S i = 10)%nat as Hi by (unfold kNumLevels in *; lia). rewrite (Hl upper) by (by rewrite <- Hi).
    assert (post = []) as ->; [|by constructor].
    apply nil_length_inv. rewrite Hbl, length_app in Hlen. simpl in Hlen. unfold kNumLevels in Hlen. lia.
Qed.

Lemma resolve_ready_ok (p t : Z) (f : LedgerState) (ready : nat -> bool) (bl : BucketList) :
  0 <= p -> list_inv p t f bl ->
  exists bl', resolveAnyReadyFutures isShutdown ready bl = Ok bl' /\ Forall2 (same_level p) bl bl'.
Proof.
  intros Hp Hinv.
  assert (forall i l, bl !! i = Some l -> isMerging (mNextCurr l) = true ->
    exists m, resolve isShutdown (mNextCurr l) = Ok (m, FB_LIVE_OUTPUT m) /\
      same_level p l (setNext (FB_LIVE_OUTPUT m) l)) as Hone.
  { intros [|i] l Hil Hm; [destruct (li_zero _ _ _ _ Hinv l Hil) as [Hn _]; by rewrite Hn in Hm|].
    destruct (lookup_lt_is_Some_2 bl i) as [lower Hlo]; [apply lookup_lt_Some in Hil; lia|].
    destruct (li_pairs _ _ _ _ Hinv i lower l Hlo Hil) as [Hb Ha _].
    destruct (list_inv_sound _ _ _ _ _ _ _ Hinv Hlo Hil).
    destruct (Z.lt_ge_cases t (levelHalf i)) as [Ht|Ht];
      [destruct (Hb Ht) as [_ Hn]; by rewrite Hn in Hm|]. destruct (Ha Ht) as [Hs Hf].
    destruct (future_merges _ _ _ _ _ _ _ Hp Hinv Hlo Hil Ht) as [m Hmo].
    assert (bucket_ok (if shouldMergeWithEmptyCurr t (S i) then [] else mCurr l)) as Hcok
      by (destruct (shouldMergeWithEmptyCurr t (S i)); [constructor|done]).
    destruct (resolve_future isShutdown _ _ _ m (S i) never Hcok ps_snap0 Hf Hmo) as [_ Hres].
    exists m. split; [done|]. split; simpl; try done; [by intros Hn; rewrite Hn in Hm|].
    intros c s k Hv [(q&Hq&Hqv)|(m'&Hq&_)]; [|by rewrite Hq in Hm]. right. exists m. split; [done|].
    destruct Hf as [(q'&Hq'&_)|(m'&Hq'&_)]; [|by rewrite Hq' in Hm].
    rewrite Hq' in Hq. simplify_eq. done. }
  clear Hinv. unfold resolveAnyReadyFutures. induction bl as [|l bl IH]; simpl; [by exists []|].
  destruct IH as (bl'&Hbl'&Hall); [intros i x Hx; by apply (Hone (S i))|].
  destruct (isMerging (mNextCurr l)) eqn:Hm; simpl.
  - destruct (Hone 0%nat l eq_refl Hm) as (m&Hres&Hsame). destruct (ready (mLevel l)); simpl.
    + rewrite Hres. simpl. rewrite Hbl'. simpl. eexists. split; [done|]. by constructor.
    + rewrite Hbl'. simpl. eexists. split; [done|]. by constructor.
  - rewrite Hbl'. simpl. eexists. split; [done|]. by constructor.
Qed.
End spill.
