(* ===== verification/BucketListRefinement.v ===== *)
(** * The ledger a bucket list holds

    Batches, restarts from what the node saved and restarts from what it
    published, read back by [loadCompleteLedgerState]. *)
From stdpp Require Import base tactics list numbers sorting sets strings.
From Stdlib Require Import ZArith Lia Bool.
From S2P Require Import Prelude Containers LedgerEntries Bucket BucketMerge BucketList BucketLevels.
From S2P Require Import BucketListTheorems.

Open Scope Z_scope.
Open Scope kin_scope.

#[local] Arguments shouldMergeWithEmptyCurr : simpl never.
#[local] Arguments levelShouldSpill : simpl never.
#[local] Arguments spill_levels : simpl never.

(** ** Batches *)

(** The buckets after the batch of ledger [t], from the buckets before. *)
Definition core_add (t p : Z) (b : Batch) (c : list (Bucket * Bucket)) : list (Bucket * Bucket) :=
  match core_spills t (kNumLevels - 1) c, fresh p (initEntries b) (liveEntries b) (deadEntries b) with
  | (s, c0) :: rest, Ok batch => (s, match merge_out c0 batch 0 with Ok m => m | Err _ => [] end) :: rest
  | c', _ => c'
  end.

Lemma list_inv_weaken (p p' t : Z) (f : LedgerState) (bl : BucketList) :
  p <= p' -> list_inv p t f bl -> list_inv p' t f bl.
Proof. intros Hp [????? Hst]. split; try done. by eapply stack_ok_weaken. Qed.

Lemma loop_start (p t : Z) (f : LedgerState) (bl : BucketList) :
  0 < t -> is_u32 t -> list_inv p (t - 1) f bl -> loop_inv p t f (kNumLevels - 1) bl.
Proof.
  intros H0 Ht [Hlen Hlev Hpairs Hz Hl Hst]. split; try done.
  - intros i lower upper _ Hup Hi. apply lookup_lt_Some in Hup. lia.
  - intros i lower upper Hlo Hup Hi. apply pair_next_same; [done..|lia|by rewrite Hi|]. by apply Hpairs.
  - intros i lower upper Hlo Hup Hi. by apply Hpairs.
  - intros l Hl0. destruct (Hz l Hl0). split; [done|]. auto.
Qed.

Lemma shadows_length (bl : BucketList) :
  length (concat ((fun l => [mCurr l; mSnap l]) <$> bl)) = (2 * length bl)%nat.
Proof. induction bl as [|l bl IH]; [done|]. rewrite fmap_cons. cbn [concat app length]. rewrite IH. lia. Qed.

Lemma addBatch_ok (isShutdown : nat -> bool) (pessimize : bool) (ready : nat -> bool) (t p p' : Z)
    (f : LedgerState) (b : Batch) (bl : BucketList) :
  (forall n, isShutdown n = false) -> 0 < t -> is_u32 t -> 0 <= p <= p' ->
  FIRST_PROTOCOL_SHADOWS_REMOVED <= p' -> batch_fits b f -> list_inv p (t - 1) f bl ->
  exists bl', addBatch isShutdown pessimize ready t p' (initEntries b) (liveEntries b) (deadEntries b) bl =
      Ok bl' /\ list_inv p' t (batch_step b f) bl' /\ core bl' = core_add t p' b (core bl).
Proof.
  intros Hsd H0 Ht Hp Hp' Hb Hinv. apply (list_inv_weaken p p') in Hinv; [|lia].
  destruct (pop_two_length (concat ((fun l => [mCurr l; mSnap l]) <$> bl)) (kNumLevels - 1))
    as (sh&Hpop&Hsh); [rewrite shadows_length, (li_length _ _ _ _ Hinv); done|].
  destruct (spill_levels_ok isShutdown Hsd p' t f (kNumLevels - 1) sh bl) as (bl1&Hsp&Hinv1&Hcore);
    [lia|done..|by apply loop_start|].
  destruct (fresh_acts p' b f Hp' Hb) as (batch&Hfresh&Hbok&Hbne&Hbv&Hba).
  destruct bl1 as [|l rest]; [by destruct Hinv1|].
  destruct (level_zero_ok isShutdown Hsd p' p' t f (batch_step b f) l rest batch []) as (m&Hm&Hmo&Hinv2);
    [lia..|done|done|done|done|done|done|].
  assert (exists bl', (if pessimize then Ok (setCurr m l :: rest)
    else resolveAnyReadyFutures isShutdown ready (setCurr m l :: rest)) = Ok bl' /\
    Forall2 (same_level p') (setCurr m l :: rest) bl') as (bl'&Hbl'&Hsame).
  { destruct pessimize; [|by eapply resolve_ready_ok; [done|lia|]]. eexists. split; [done|].
    by apply Forall_Forall2_diag, Forall_true. }
  exists bl'. destruct (list_inv_same p' t _ _ _ ltac:(lia) Hinv2 Hsame) as [Hinv3 Hcore3].
  split_and!; [|done|].
  - unfold addBatch. rewrite (proj2 (Z.ltb_lt 0 t)) by done. cbn [ensure res_bind]. rewrite Hpop.
    cbn [res_bind]. rewrite (li_length _ _ _ _ Hinv), Hsp. cbn [res_bind ensure]. rewrite Hfresh.
    cbn [res_bind]. destruct (prepare t p' batch [] l) as [l1|]; [|done]. cbn [res_bind] in Hm |- *.
    rewrite Hm. cbn [res_bind]. exact Hbl'.
  - rewrite Hcore3. unfold core_add. rewrite <- Hcore, Hfresh. unfold core. rewrite !fmap_cons. simpl.
    by rewrite Hmo.
Qed.

(** ** Restarts *)

Section restart.
Context (stored : Bucket -> bool) (kept_files : forall b, stored b = true).

Lemma getBucketByHash_ok (b : Bucket) : getBucketByHash stored b = Ok b.
Proof. unfold getBucketByHash. destruct b; [done|]. by rewrite kept_files. Qed.

(** The level as it is read back, its future saved or cleared. *)
Record kept_level (l l0 : BucketLevel) : Prop := {
  kl_level : mLevel l0 = mLevel l;
  kl_curr : mCurr l0 = mCurr l;
  kl_snap : mSnap l0 = mSnap l;
  kl_next : mNextCurr l0 = saved (mNextCurr l) \/ mNextCurr l0 = FB_CLEAR;
}.

Definition same_buckets (l l' : BucketLevel) : Prop :=
  mLevel l' = mLevel l /\ mCurr l' = mCurr l /\ mSnap l' = mSnap l.

Lemma empty_curr_mask (t : Z) (i : nat) :
  is_u32 t -> (i < kNumLevels)%nat ->
  shouldMergeWithEmptyCurr (mask t (levelHalf i)) (S i) = shouldMergeWithEmptyCurr t (S i).
Proof.
  intros Ht Hi. unfold shouldMergeWithEmptyCurr. pose proof (levelHalf_bounds i Hi).
  rewrite (mask_half t) by done. unfold is_u32 in *.
  pose proof (Z.mul_div_le t (levelHalf i) ltac:(lia)).
  pose proof (Z.div_pos t (levelHalf i) ltac:(lia) ltac:(lia)).
  rewrite mask_half by (done || (unfold is_u32; nia)).
  replace (levelHalf i * (t / levelHalf i) / levelHalf i) with (t / levelHalf i); [done|].
  by rewrite Z.mul_comm, Z.div_mul by lia.
Qed.

(** The levels from [i] on have not been reached yet. *)
Lemma restart_untouched (t : Z) (i : nat) (lower lower' : BucketLevel) (bl bl0 : BucketList) :
  (i + length bl < kNumLevels)%nat ->
  (forall k lo up, (lower :: bl) !! k = Some lo -> bl !! k = Some up -> pair_ok t (i + k) lo up) ->
  Forall2 kept_level bl bl0 -> mSnap lower' = mSnap lower -> t < levelHalf i ->
  forall k lo up, (lower' :: bl0) !! k = Some lo -> bl0 !! k = Some up -> pair_ok t (i + k) lo up.
Proof.
  intros Hi Hpairs Hall Hsnap Ht k lo up Hlo Hup.
  assert (2 <= levelHalf i <= levelHalf (i + k)) as Hle.
  { apply lookup_lt_Some in Hup. rewrite <- (Forall2_length _ _ _ Hall) in Hup.
    split; [apply levelHalf_bounds; lia|]. rewrite !levelHalf_pow by lia. apply Z.pow_le_mono_r; lia. }
  destruct (Forall2_lookup_r _ _ _ _ _ Hall Hup) as (u&Hu&Hku).
  assert (exists l, (lower :: bl) !! k = Some l /\ mSnap lo = mSnap l) as (l&Hl&Hls).
  { destruct k as [|k]; simpl in *; [simplify_eq; by exists lower|].
    destruct (Forall2_lookup_r _ _ _ _ _ Hall Hlo) as (l&?&[]). eauto. }
  destruct (Hpairs k l u Hl Hu) as [Hb _ _]. destruct Hb as [Hs Hn]; [lia|].
  split; [|lia|lia]. intros _. split; [congruence|].
  destruct (kl_next _ _ Hku) as [Hx|Hx]; rewrite Hx; [by rewrite Hn|done].
Qed.

(** A level whose merge is due gets it back. *)
Lemma restart_one (p t maxP : Z) (i : nat) (lower lower' u u0 : BucketLevel) (bl0 : BucketList) :
  is_u32 t -> 0 <= p <= maxP -> (S i < kNumLevels)%nat -> mLevel u = S i -> pair_ok t i lower u ->
  pair_sound p lower u -> kept_level u u0 -> mSnap lower' = mSnap lower -> levelHalf i <= t ->
  exists f, future_of f (if shouldMergeWithEmptyCurr t (S i) then [] else mCurr u) (mSnap lower) (S i) /\
    restart_from stored maxP t (S i) (Some lower') (u0 :: bl0) =
    let? bl' := restart_from stored maxP t (S (S i)) (Some (setNext f u0)) bl0 in
    Ok (setNext f u0 :: bl').
Proof.
  intros Ht Hp Hi Hlev Hpair [Hcok Hsok Hnew [Hcm Hsm]] Hk Hsnap Hge.
  destruct (po_after _ _ _ _ Hpair Hge) as [Hsne Hf].
  destruct (kl_next _ _ Hk) as [Hx|Hx].
  - destruct Hf as [(q&Hq&Hqv)|(m&Hq&Hqm)].
    + eexists. split; [left; exists maxP; split; [reflexivity|]|].
      * destruct (shouldMergeWithEmptyCurr t (S i)); [change (version []) with 0 in *|]; lia.
      * cbn [restart_from]. rewrite Hx, Hq. simpl. by rewrite !getBucketByHash_ok.
    + exists (FB_LIVE_OUTPUT m). split; [right; by exists m|].
      cbn [restart_from]. rewrite Hx, Hq. simpl. by rewrite getBucketByHash_ok.
  - pose proof (prepare_ok (mask t (levelHalf i)) (version (mSnap lower)) (mSnap lower) [] u0 Hsok Hsne Hx)
      as Hprep. rewrite (kl_level _ _ Hk), Hlev in Hprep.
    rewrite empty_curr_mask, (kl_curr _ _ Hk) in Hprep by (done || lia).
    destruct (bucket_ok_version _ Hsok) as [[? _]|[_ Hv]]; [done|].
    eexists. split; [left; exists (version (mSnap lower)); split; [reflexivity|]|].
    + destruct Hnew as [?|Hnew]; [done|]. unfold FIRST_PROTOCOL_SHADOWS_REMOVED in Hv.
      destruct (shouldMergeWithEmptyCurr t (S i)); [change (version []) with 0|]; lia.
    + cbn [restart_from]. rewrite Hx. simpl. rewrite Hsnap, getBucketVersion_ok by done. simpl.
      unfold protocolVersionIsBefore. rewrite (proj2 (Z.ltb_ge _ _)) by done. rewrite Hprep. simpl.
      by destruct (mSnap lower).
Qed.

Lemma restart_from_ok (p t maxP : Z) (i : nat) (lower lower' : BucketLevel) (bl bl0 : BucketList) :
  is_u32 t -> 0 <= p <= maxP -> (i + length bl < kNumLevels)%nat ->
  (forall k l, bl !! k = Some l -> mLevel l = S (i + k)) ->
  (forall k lo up, (lower :: bl) !! k = Some lo -> bl !! k = Some up ->
     pair_ok t (i + k) lo up /\ pair_sound p lo up) ->
  Forall2 kept_level bl bl0 -> mSnap lower' = mSnap lower ->
  exists bl', restart_from stored maxP t (S i) (Some lower') bl0 = Ok bl' /\
    Forall2 same_buckets bl bl' /\
    forall k lo up, (lower' :: bl') !! k = Some lo -> bl' !! k = Some up -> pair_ok t (i + k) lo up.
Proof.
  intros Ht Hp. revert i lower lower' bl0. induction bl as [|u bl IH];
    intros i lower lower' bl0 Hi Hlev Hpairs Hall Hsnap.
  { inversion Hall; subst. by exists []. }
  inversion Hall as [|? u0 ? bl0' Hk Hall']; subst.
  destruct (Hpairs 0%nat lower u eq_refl eq_refl) as [Hpair Hsound]. rewrite Nat.add_0_r in Hpair.
  destruct (Z.lt_ge_cases t (levelHalf i)) as [Hlt|Hge].
  { destruct (po_before _ _ _ _ Hpair Hlt) as [Hs Hn]. exists (u0 :: bl0'). split_and!.
    - cbn [restart_from]. assert (mNextCurr u0 = FB_CLEAR) as Hn0.
      { destruct (kl_next _ _ Hk) as [Hx|Hx]; rewrite Hx; [by rewrite Hn|done]. }
      rewrite Hn0. simpl. by rewrite Hsnap, Hs.
    - eapply Forall2_impl; [exact Hall|]. by intros ?? [].
    - eapply restart_untouched; [done| |done|done|done]. intros. by apply Hpairs. }
  destruct (po_after _ _ _ _ Hpair Hge) as [Hsne _].
  assert (forall f, future_of f (if shouldMergeWithEmptyCurr t (S i) then [] else mCurr u) (mSnap lower) (S i) ->
    pair_ok t i lower' (setNext f u0)) as Hpair'.
  { intros f' Hf'. split; [lia| |].
    - intros _. simpl. rewrite Hsnap, (kl_curr _ _ Hk). done.
    - simpl. rewrite (kl_curr _ _ Hk). apply Hpair. }
  destruct (restart_one p t maxP i lower lower' u u0 bl0') as (f&Hff&Heq);
    [done|done|simpl in Hi; lia|by rewrite (Hlev 0%nat u eq_refl), Nat.add_0_r|done..|].
  rewrite Heq. destruct (IH (S i) u (setNext f u0) bl0') as (bl'&Hbl'&Hsame&Hpairs').
  - simpl in Hi. lia.
  - intros k l Hl. rewrite (Hlev (S k) l Hl). lia.
  - intros k lo up Hlo Hup. replace (S i + k)%nat with (i + S k)%nat by lia. by apply (Hpairs (S k)).
  - done.
  - apply (kl_snap _ _ Hk).
  - rewrite Hbl'. exists (setNext f u0 :: bl'). split_and!; [done| |].
    + constructor; [|done]. destruct Hk. by split_and!.
    + intros [|k] lo up Hlo Hup; [|replace (i + S k)%nat with (S i + k)%nat by lia; by apply Hpairs'].
      simpl in Hlo, Hup. simplify_eq. rewrite Nat.add_0_r. by apply Hpair'.
Qed.

(** ** What is saved and what is published *)

Definition kept_bucket (l : BucketLevel) (h : HistoryStateBucket) : Prop :=
  hs_curr h = mCurr l /\ hs_snap h = mSnap l /\
  (hs_next h = saved (mNextCurr l) \/ hs_next h = FB_CLEAR).

Lemma assume_levels_ok (i : nat) (bl : BucketList) (l : list HistoryStateBucket) :
  (forall k x, bl !! k = Some x -> mLevel x = (i + k)%nat) -> Forall2 kept_bucket bl l ->
  exists bl0, assume_levels stored i l = Ok bl0 /\ Forall2 kept_level bl bl0.
Proof.
  intros Hlev Hall. revert i Hlev. induction Hall as [|x h bl l (Hc&Hs&Hn) Hall IH]; intros i Hlev;
    simpl; [by exists []|].
  rewrite !getBucketByHash_ok. simpl. destruct (IH (S i)) as (bl0&Hbl0&Hall0).
  { intros k y Hy. rewrite (Hlev (S k) y Hy). lia. }
  rewrite Hbl0. simpl. eexists. split; [done|]. constructor; [|done].
  split; simpl; [by rewrite (Hlev 0%nat x eq_refl), Nat.add_0_r|done..].
Qed.

(** A list read back from levels that were saved, or whose futures were
    cleared, is as good as the one that was written. *)
Lemma assumeState_ok (p t maxP : Z) (f : LedgerState) (bl : BucketList) (h : HistoryArchiveState) :
  is_u32 t -> 0 <= p <= maxP -> list_inv p t f bl -> currentLedger h = t ->
  Forall2 kept_bucket bl (currentBuckets h) ->
  exists bl', assumeState stored maxP h = Ok bl' /\ list_inv p t f bl' /\ core bl' = core bl.
Proof.
  intros Ht Hp Hinv Hl Hall. pose proof Hinv as [Hlen Hlev Hpairs Hz Hlast Hst].
  destruct (assume_levels_ok 0 bl (currentBuckets h)) as (bl0&Hbl0&Hkept); [done..|].
  destruct Hkept as [|l l0 rest rest0 Hk Hkept]; [done|].
  destruct (restart_from_ok p t maxP 0 l l0 rest rest0) as (rest'&Hrest&Hsame&Hpairs').
  { done. } { done. } { simpl in Hlen. lia. } { intros k x Hx. by rewrite (Hlev (S k) x Hx). }
  { intros k lo up Hlo Hup. split; [by apply Hpairs|]. by eapply list_inv_sound. }
  { done. } { apply Hk. }
  assert (mNextCurr l0 = FB_CLEAR) as Hn0.
  { destruct (Hz l eq_refl) as [Hn _]. destruct (kl_next _ _ Hk) as [Hx|Hx]; rewrite Hx; [by rewrite Hn|done]. }
  assert (Forall2 same_buckets (l :: rest) (l0 :: rest')) as Hsame'.
  { constructor; [|done]. destruct Hk. by split_and!. }
  assert (core (l0 :: rest') = core (l :: rest)) as Hcore.
  { unfold core. clear -Hsame'. induction Hsame' as [|x y xs ys (_&Hc&Hs) _ IH]; [done|].
    by rewrite !fmap_cons, IH, Hc, Hs. }
  exists (l0 :: rest'). split_and!; [| |done].
  - unfold assumeState. rewrite Hbl0. cbn [res_bind]. rewrite Hl. unfold restartMerges.
    cbn [restart_from]. rewrite Hn0. cbn [hasHashes andb]. by rewrite Hrest.
  - split; [by rewrite <- (Forall2_length _ _ _ Hsame')| | | | |by rewrite Hcore].
    + intros k x Hx. destruct (Forall2_lookup_r _ _ _ _ _ Hsame' Hx) as (y&Hy&(Hl'&_&_)).
      rewrite Hl'. by apply Hlev.
    + intros k lo up Hlo Hup. by apply (Hpairs' k).
    + intros x [= <-]. split; [done|]. rewrite (kl_curr _ _ Hk). by apply Hz.
    + intros x Hx. destruct (Forall2_lookup_r _ _ _ _ _ Hsame' Hx) as (y&Hy&(_&_&Hs)).
      rewrite Hs. by apply Hlast.
Qed.

Lemma saved_kept (t : Z) (bl : BucketList) :
  Forall2 kept_bucket bl (currentBuckets (has_roundtrip (newHAS t bl))).
Proof.
  simpl. induction bl as [|l bl IH]; [constructor|]. rewrite !fmap_cons. constructor; [|done].
  split_and!; [done|done|by left].
Qed.

Lemma saved_twice (f : FutureBucket) : saved (saved f) = saved f.
Proof. by destruct f. Qed.

(** Publishing clears the futures. *)
Lemma publish_levels_ok (p t maxP : Z) (i : nat) (lower : BucketLevel) (prev : HistoryStateBucket)
    (bl : BucketList) (l : list HistoryStateBucket) :
  (forall k lo up, (lower :: bl) !! k = Some lo -> bl !! k = Some up ->
     pair_ok t (i + k) lo up /\ pair_sound p lo up) ->
  hs_snap prev = mSnap lower -> Forall2 kept_bucket bl l ->
  exists l', publish_levels stored maxP (S i) prev l = Ok l' /\
    Forall2 (fun x h => kept_bucket x h /\ hs_next h = FB_CLEAR) bl l'.
Proof.
  intros Hpairs Hprev Hall. revert i lower prev Hpairs Hprev.
  induction Hall as [|u h bl l (Hc&Hs&Hn) Hall IH]; intros i lower prev Hpairs Hprev; simpl; [by exists []|].
  destruct (Hpairs 0%nat lower u eq_refl eq_refl) as [Hpair Hsound]. rewrite Nat.add_0_r in Hpair.
  rewrite getBucketByHash_ok. simpl. rewrite Hprev, getBucketVersion_ok by apply Hsound. simpl.
  assert ((if negb (isClear (hs_next h)) &&
      protocolVersionStartsFrom (version (mSnap lower)) FIRST_PROTOCOL_SHADOWS_REMOVED then Ok FB_CLEAR
    else if hasHashes (hs_next h) && negb (isLive (hs_next h)) then makeLive stored maxP (S i) (hs_next h)
    else Ok (hs_next h)) = Ok FB_CLEAR) as ->.
  { destruct Hn as [Hn|Hn]; rewrite Hn; [|done].
    destruct (Z.lt_ge_cases t (levelHalf i)) as [Hlt|Hge].
    - destruct (po_before _ _ _ _ Hpair Hlt) as [_ Hx]. by rewrite Hx.
    - destruct (po_after _ _ _ _ Hpair Hge) as [Hsne Hf].
      destruct (bucket_ok_version _ (ps_snap _ _ _ Hsound)) as [[? _]|[_ Hv]]; [done|].
      unfold protocolVersionStartsFrom. rewrite (proj2 (Z.leb_le _ _)) by done.
      by destruct Hf as [(q&->&_)|(m&->&_)]. }
  cbn [res_bind]. destruct (IH (S i) u {| hs_curr := hs_curr h; hs_next := FB_CLEAR; hs_snap := hs_snap h |})
    as (l'&Hl'&Hall').
  - intros k lo up Hlo Hup. replace (S i + k)%nat with (i + S k)%nat by lia. by apply (Hpairs (S k)).
  - done.
  - rewrite Hl'. simpl. eexists. split; [done|]. constructor; [|done]. split; [|done].
    split_and!; [done|done|by right].
Qed.

Lemma prepareForPublish_ok (p t maxP : Z) (f : LedgerState) (bl : BucketList) :
  list_inv p t f bl ->
  exists h, prepareForPublish stored maxP (has_roundtrip (newHAS t bl)) = Ok h /\ currentLedger h = t /\
    Forall2 kept_bucket bl (currentBuckets h) /\ Forall (fun b => hs_next b = FB_CLEAR) (currentBuckets h).
Proof.
  intros Hinv. pose proof Hinv as [Hlen Hlev Hpairs Hz Hlast Hst]. unfold prepareForPublish.
  pose proof (saved_kept t bl) as Hall. destruct Hall as [|l h bl rest Hk Hall]; [done|].
  destruct (Hz l eq_refl) as [Hn _].
  assert (hs_next h = FB_CLEAR) as Hh.
  { destruct Hk as (_&_&[Hx|Hx]); rewrite Hx; [by rewrite Hn|done]. }
  rewrite Hh. cbn [isClear ensure res_bind].
  destruct (publish_levels_ok p t maxP 0 l h bl rest) as (l'&Hl'&Hall').
  - intros k lo up Hlo Hup. split; [by apply Hpairs|]. by eapply list_inv_sound.
  - apply Hk.
  - done.
  - rewrite Hl'. cbn [res_bind]. eexists. split; [done|]. simpl. split; [done|]. split.
    + constructor; [done|]. eapply Forall2_impl; [exact Hall'|]. by intros ?? [? _].
    + constructor; [done|]. clear -Hall'. induction Hall' as [|? ? ? ? [_ ?]]; by constructor.
Qed.
End restart.

(** ** Reading the ledger back *)

(** [m] is the map of the state [f]. *)
Definition represents (m : LedgerMap) (f : LedgerState) : Prop :=
  ordered m /\ forall k, map_find k m = f k.

Lemma represents_ext (m : LedgerMap) (f g : LedgerState) :
  (forall k, f k = g k) -> represents m f -> represents m g.
Proof. intros Hfg [Ho Hm]. split; [done|]. intros k. by rewrite Hm. Qed.

Lemma represents_set (m : LedgerMap) (f g : LedgerState) (k : LedgerKey) (x : LedgerEntry) :
  represents m f -> g k = Some x -> (forall k', k' <> k -> g k' = f k') -> represents (map_set k x m) g.
Proof.
  intros [Ho Hm] Hk Hne. split; [by apply ordered_map_set|]. intros k'. rewrite map_find_set.
  destruct (eqb_of k' k) eqn:E.
  - by apply eqb_of_true in E as ->.
  - apply eqb_of_false in E. by rewrite Hm, Hne.
Qed.

Lemma represents_erase (m : LedgerMap) (f g : LedgerState) (k : LedgerKey) :
  represents m f -> g k = None -> (forall k', k' <> k -> g k' = f k') -> represents (map_erase k m) g.
Proof.
  intros [Ho Hm] Hk Hne. split; [by apply ordered_map_erase|]. intros k'. rewrite map_find_erase by done.
  destruct (eqb_of k' k) eqn:E.
  - by apply eqb_of_true in E as ->.
  - apply eqb_of_false in E. by rewrite Hm, Hne.
Qed.

(** The state after the first entry of a bucket only. *)
Lemma acts_first (e : BucketEntry) (l : list BucketEntry) (k : LedgerKey) (f g : LedgerState) :
  entries_ok (e :: l) -> entry_key e = Some k -> acts (e :: l) f g ->
  let f' := fun k' => if decide (k' = k) then g k else f k' in acts l f' g.
Proof.
  intros (Hall&_&_)%entries_ok_cons Hk Ha f' k'. unfold f'. specialize (Ha k'). cbn [bucket_get] in Ha.
  destruct (decide (k' = k)) as [->|Hne].
  - by rewrite (bucket_get_below _ _ _ Hall Hk).
  - by rewrite decide_False in Ha by congruence.
Qed.

Lemma load_entries_ok (fuel : nat) (it : BucketInputIterator) (l : list BucketEntry) (m : LedgerMap)
    (f g : LedgerState) :
  (length l <= fuel)%nat -> reads it l -> (l <> [] -> mSeenMetadata it = true) -> entries_ok l ->
  represents m f -> acts l f g -> exists m', load_entries fuel it m = Ok m' /\ represents m' g.
Proof.
  revert it l m f. induction fuel as [|fuel IH]; intros it l m f Hfuel Hr Hseen Hok Hm Ha.
  - destruct l; [|simpl in Hfuel; lia]. simpl in Hr. cbn [load_entries]. rewrite Hr. exists m. split; [done|].
    by eapply represents_ext; [apply acts_empty|].
  - destruct l as [|e l].
    { simpl in Hr. cbn [load_entries]. rewrite Hr. exists m. split; [done|].
      by eapply represents_ext; [apply acts_empty|]. }
    pose proof Hok as (Hall&[k Hk]&Hl)%entries_ok_cons.
    destruct (nextEntry_reads it e l Hr (proj2 Hl) (Hseen ltac:(done))) as (it'&Hnext&Hr'&Hseen').
    pose proof (acts_first e l k f g Hok Hk Ha) as Ha'. cbv zeta in Ha'. destruct Hr as (He&_&_).
    specialize (Ha k). cbn [bucket_get] in Ha. rewrite decide_True in Ha by done.
    cbn [load_entries]. rewrite He.
    assert (forall m1, represents m1 (fun k' => if decide (k' = k) then g k else f k') ->
      exists m', (let? it := nextEntry it in load_entries fuel it m1) = Ok m' /\ represents m' g) as Hrest.
    { intros m1 Hm1. rewrite Hnext. cbn [res_bind]. simpl in Hfuel.
      by eapply (IH it' l m1); [lia|done|done|done| |]. }
    assert (forall k', k' <> k -> (if decide (k' = k) then g k else f k') = f k') as Hother
      by (intros; by rewrite decide_False).
    destruct e as [|x|d|x]; simpl in Hk; simplify_eq; cbn [res_bind].
    + apply Hrest. eapply represents_set; [done| |exact Hother]. rewrite decide_True by done.
      simpl in Ha. destruct (f _); by simplify_eq.
    + rewrite (proj2 Hm k). simpl in Ha. destruct (f k) eqn:Hfk; simplify_eq. simpl. apply Hrest.
      eapply represents_erase; [done| |exact Hother]. by rewrite decide_True.
    + apply Hrest. eapply represents_set; [done| |exact Hother]. rewrite decide_True by done.
      simpl in Ha. destruct (f _); by simplify_eq.
Qed.

Lemma loadEntriesFromBucket_ok (b : Bucket) (m : LedgerMap) (f g : LedgerState) :
  bucket_ok b -> represents m f -> acts b f g ->
  exists m', loadEntriesFromBucket b m = Ok m' /\ represents m' g.
Proof.
  intros Hb Hm Ha. unfold loadEntriesFromBucket. destruct (openBucket_reads b Hb) as (it&->&Hr&_&Hseen).
  eapply (load_entries_ok _ it (entries b) m f g); [apply entries_length|done| |by apply entries_ok_entries|done|].
  - intros He. by apply Hseen, entries_nonempty.
  - intros k. rewrite <- bucket_get_entries. apply Ha.
Qed.

Lemma load_buckets_ok (stored : Bucket -> bool) (l : list Bucket) (m : LedgerMap) (f g : LedgerState) :
  (forall b, stored b = true) -> Forall bucket_ok l -> represents m f -> acts_all l f g ->
  exists m', load_buckets stored l m = Ok m' /\ represents m' g.
Proof.
  intros Hst Hok Hm Ha. revert m Hok Hm. induction Ha as [f g Hfg|b l f g h Hb Hl IH]; intros m Hok Hm; simpl.
  { exists m. split; [done|]. by eapply represents_ext. }
  apply Forall_cons in Hok as [Hbo Hok]. destruct b as [|e b].
  - simpl. apply IH; [done|]. eapply represents_ext; [|done]. by apply acts_empty.
  - destruct (loadEntriesFromBucket_ok (e :: b) m f g Hbo Hm Hb) as (m1&Hm1&Hr1).
    cbn [getBucketByHash]. rewrite Hst. cbn [res_bind]. rewrite Hm1. cbn [res_bind]. by apply IH.
Qed.

Lemma loadCompleteLedgerState_ok (stored : Bucket -> bool) (p t : Z) (f : LedgerState) (bl : BucketList) :
  (forall b, stored b = true) -> list_inv p t f bl ->
  exists m, loadCompleteLedgerState stored (newHAS t bl) = Ok m /\ represents m f.
Proof.
  intros Hst Hinv. destruct (li_stack _ _ _ _ Hinv) as [Hok _ _ Ha]. unfold loadCompleteLedgerState.
  replace (oldest_first (currentBuckets (newHAS t bl))) with (view (core bl)).
  - eapply load_buckets_ok; [done|done| |done]. split; [constructor|done].
  - unfold oldest_first, view, core, newHAS. simpl. by rewrite <- !list_fmap_compose.
Qed.

(** ** A node's list over time *)

(** A ledger is closed; the node stops and starts from what it saved; or a
    node starts from what was published. *)
Inductive NodeEvent :=
  | CloseLedger (protocol : Z) (batch : Batch) (pessimize : bool) (ready : nat -> bool)
  | RestartSaved (maxProtocolVersion : Z)
  | RestartPublished (configVersion maxProtocolVersion : Z).

Definition node_step (stored : Bucket -> bool) (isShutdown : nat -> bool) (s : Z * BucketList)
    (e : NodeEvent) : bk (Z * BucketList) :=
  let '(t, bl) := s in
  match e with
  | CloseLedger p b pessimize ready =>
      let? bl := addBatch isShutdown pessimize ready (t + 1) p (initEntries b) (liveEntries b)
        (deadEntries b) bl in Ok (t + 1, bl)
  | RestartSaved maxP =>
      let? bl := assumeState stored maxP (has_roundtrip (newHAS t bl)) in Ok (t, bl)
  | RestartPublished configP maxP =>
      let? h := prepareForPublish stored configP (has_roundtrip (newHAS t bl)) in
      let? bl := assumeState stored maxP (has_roundtrip h) in Ok (t, bl)
  end.

Fixpoint node_run (stored : Bucket -> bool) (isShutdown : nat -> bool) (s : Z * BucketList)
    (l : list NodeEvent) : bk (Z * BucketList) :=
  match l with
  | [] => Ok s
  | e :: l' => let? s := node_step stored isShutdown s e in node_run stored isShutdown s l'
  end.

(** What the events do to the ledger: from ledger [t], protocol [p] and state
    [f] to the state [g]. *)
Inductive ledger_run : Z -> Z -> LedgerState -> list NodeEvent -> LedgerState -> Prop :=
  | ledger_run_nil t p f : ledger_run t p f [] f
  | ledger_run_close t p f p' b pessimize ready l g :
      t + 1 <= UINT32_MAX -> p <= p' -> batch_fits b f ->
      ledger_run (t + 1) p' (batch_step b f) l g ->
      ledger_run t p f (CloseLedger p' b pessimize ready :: l) g
  | ledger_run_saved t p f maxP l g :
      p <= maxP -> ledger_run t p f l g -> ledger_run t p f (RestartSaved maxP :: l) g
  | ledger_run_published t p f configP maxP l g :
      p <= maxP -> ledger_run t p f l g -> ledger_run t p f (RestartPublished configP maxP :: l) g.

(** The buckets after the events. *)
Fixpoint core_run (t : Z) (l : list NodeEvent) (c : list (Bucket * Bucket)) : list (Bucket * Bucket) :=
  match l with
  | [] => c
  | CloseLedger p b _ _ :: l' => core_run (t + 1) l' (core_add (t + 1) p b c)
  | _ :: l' => core_run t l' c
  end.

Lemma node_run_ok (stored : Bucket -> bool) (isShutdown : nat -> bool) (t p : Z) (f g : LedgerState)
    (l : list NodeEvent) (bl : BucketList) :
  (forall b, stored b = true) -> (forall n, isShutdown n = false) -> is_u32 t ->
  FIRST_PROTOCOL_SHADOWS_REMOVED <= p -> ledger_run t p f l g -> list_inv p t f bl ->
  exists t' p' bl', node_run stored isShutdown (t, bl) l = Ok (t', bl') /\ list_inv p' t' g bl' /\
    core bl' = core_run t l (core bl).
Proof.
  intros Hst Hsd Ht Hp Hrun. revert bl Ht Hp.
  induction Hrun as [t p f|t p f p' b pess ready l g Hmax Hp' Hb _ IH|t p f maxP l g Hmax _ IH|
    t p f configP maxP l g Hmax _ IH]; intros bl Ht Hp Hinv; cbn [node_run node_step core_run].
  - by exists t, p, bl.
  - unfold is_u32, FIRST_PROTOCOL_SHADOWS_REMOVED in *.
    destruct (addBatch_ok isShutdown pess ready (t + 1) p p' f b bl) as (bl1&Hadd&Hinv1&<-);
      [done|lia|unfold is_u32; lia|lia|unfold FIRST_PROTOCOL_SHADOWS_REMOVED; lia|done|by replace (t + 1 - 1) with t by lia|].
    rewrite Hadd. cbn [res_bind]. apply IH; [lia..|done].
  - unfold FIRST_PROTOCOL_SHADOWS_REMOVED in Hp.
    destruct (assumeState_ok stored Hst p t maxP f bl (has_roundtrip (newHAS t bl))) as (bl1&Has&Hinv1&Hc);
      [done|lia|done|done|apply saved_kept|]. rewrite Has. cbn [res_bind]. rewrite <- Hc. by apply IH.
  - unfold FIRST_PROTOCOL_SHADOWS_REMOVED in Hp.
    destruct (prepareForPublish_ok stored Hst p t configP f bl Hinv) as (h&Hh&Hl&Hk&Hcl).
    rewrite Hh. cbn [res_bind].
    destruct (assumeState_ok stored Hst p t maxP f bl (has_roundtrip h)) as (bl1&Has&Hinv1&Hc);
      [done|lia|done|done| |].
    { simpl. clear -Hk Hcl. revert Hcl. induction Hk as [|x y xs ys (?&?&_) _ IH]; intros Hcl; [constructor|].
      apply Forall_cons in Hcl as [Hy Hcl]. rewrite fmap_cons. constructor; [|by apply IH].
      split_and!; [done|done|]. right. simpl. by rewrite Hy. }
    rewrite Has. cbn [res_bind]. rewrite <- Hc. by apply IH.
Qed.

Lemma list_inv_new : list_inv 12 0 empty_state newBucketList.
Proof.
  assert (forall i l, newBucketList !! i = Some l -> l = newLevel i) as Hget.
  { intros i l. unfold newBucketList. rewrite list_lookup_fmap. intros (k&Hk&->)%fmap_Some.
    by apply lookup_seq in Hk as [-> _]. }
  split.
  - done.
  - by intros i l ->%Hget.
  - intros i lower upper Hlo Hup. pose proof (lookup_lt_Some _ _ _ Hup) as Hlt.
    apply Hget in Hlo as ->, Hup as ->. change (length newBucketList) with kNumLevels in Hlt.
    pose proof (levelHalf_bounds i ltac:(lia)). split; [done|lia|lia].
  - intros l ->%Hget. split; [done|lia].
  - by intros l ->%Hget.
  - split.
    + vm_compute. repeat constructor.
    + repeat (constructor; [done|]). constructor.
    + repeat (constructor; [|repeat constructor; by left]). constructor.
    + repeat (eapply acts_all_cons; [by apply acts_empty|]). by constructor.
Qed.

(** ** The claims *)

(** C4. The bucket list is the ledger: start from an empty list and let ledgers be
    closed, in order and under protocols from 12 on, with batches that fit the
    ledger (creations of absent keys, updates and deletions of present ones, one
    change for a key), and the node restart at any time from what it saved or from
    what was published. (Before protocol 11 a deletion outlives, in
    the merged buckets, the creation it undoes, and the reload can throw on it.)  Then no
    operation throws, and loading the complete ledger
    state from the buckets, oldest first, gives exactly the map of the ledger. *)
Theorem bucket_list_refines (stored : Bucket -> bool) (isShutdown : nat -> bool) (l : list NodeEvent)
    (g : LedgerState) :
  (forall b, stored b = true) -> (forall n, isShutdown n = false) ->
  ledger_run 0 FIRST_PROTOCOL_SHADOWS_REMOVED empty_state l g ->
  exists t bl m, node_run stored isShutdown (0, newBucketList) l = Ok (t, bl) /\
    loadCompleteLedgerState stored (newHAS t bl) = Ok m /\ ordered m /\ forall k, map_find k m = g k.
Proof.
  intros Hst Hsd Hrun.
  destruct (node_run_ok stored isShutdown 0 FIRST_PROTOCOL_SHADOWS_REMOVED empty_state g l newBucketList)
    as (t&p&bl&Hn&Hinv&_); [done|done|done|done|done|apply list_inv_new|].
  destruct (loadCompleteLedgerState_ok stored p t g bl Hst Hinv) as (m&Hm&Ho&Hf).
  exists t, bl, m. done.
Qed.

(** The ledgers closed by a sequence of events. *)
Definition closes (l : list NodeEvent) : list (Z * Batch) :=
  omap (fun e => match e with CloseLedger p b _ _ => Some (p, b) | _ => None end) l.

Lemma core_run_closes (l1 l2 : list NodeEvent) (t : Z) (c : list (Bucket * Bucket)) :
  closes l1 = closes l2 -> core_run t l1 c = core_run t l2 c.
Proof.
  assert (forall l t c, core_run t l c =
    (fix go t (l : list (Z * Batch)) c := match l with
      | [] => c | (p, b) :: l' => go (t + 1) l' (core_add (t + 1) p b c) end) t (closes l) c) as Hgo.
  { intros l. induction l as [|[p b ? ?|?|? ?] l IH]; intros t' c'; simpl; [done|apply IH..]. }
  intros Hc. by rewrite !Hgo, Hc.
Qed.

(** C24. Every node has the same buckets: two runs that close the same ledgers, under
    protocols from 12 on and with batches that fit the ledger, end with the same curr and snap in every level, hence with the same bucket list
    hash in their headers, whenever their merges completed, whether they resolved
    them early, and wherever they restarted. *)
Theorem bucket_list_deterministic (stored : Bucket -> bool) (isShutdown : nat -> bool)
    (l1 l2 : list NodeEvent) (g1 g2 : LedgerState) :
  (forall b, stored b = true) -> (forall n, isShutdown n = false) ->
  ledger_run 0 FIRST_PROTOCOL_SHADOWS_REMOVED empty_state l1 g1 ->
  ledger_run 0 FIRST_PROTOCOL_SHADOWS_REMOVED empty_state l2 g2 -> closes l1 = closes l2 ->
  exists t1 bl1 t2 bl2, node_run stored isShutdown (0, newBucketList) l1 = Ok (t1, bl1) /\
    node_run stored isShutdown (0, newBucketList) l2 = Ok (t2, bl2) /\ core bl1 = core bl2.
Proof.
  intros Hst Hsd H1 H2 Hc.
  destruct (node_run_ok stored isShutdown 0 FIRST_PROTOCOL_SHADOWS_REMOVED empty_state g1 l1 newBucketList)
    as (t1&p1&bl1&Hn1&_&Hc1); [done|done|done|done|done|apply list_inv_new|].
  destruct (node_run_ok stored isShutdown 0 FIRST_PROTOCOL_SHADOWS_REMOVED empty_state g2 l2 newBucketList)
    as (t2&p2&bl2&Hn2&_&Hc2); [done|done|done|done|done|apply list_inv_new|].
  exists t1, bl1, t2, bl2. split_and!; [done|done|]. rewrite Hc1, Hc2. by apply core_run_closes.
Qed.

(** *** An example: a data entry that is created, updated and erased *)

Definition example_data (v : Z) : LedgerEntry :=
  {| lastModifiedLedgerSeq := v;
     le_data := DATA {| da_accountID := 7; da_dataName := EmptyString; da_dataValue := [v] |};
     le_ext := None |}.

Definition example_create : Batch :=
  {| initEntries := [example_data 1]; liveEntries := []; deadEntries := [] |}.
Definition example_update : Batch :=
  {| initEntries := []; liveEntries := [example_data 2]; deadEntries := [] |}.
Definition example_erase : Batch :=
  {| initEntries := []; liveEntries := []; deadEntries := [LedgerEntryKey (example_data 1)] |}.

Lemma example_create_fits (f : LedgerState) :
  f (LedgerEntryKey (example_data 1)) = None -> batch_fits example_create f.
Proof.
  intros Hf. split; simpl; [|by intros e ->%list_elem_of_singleton|set_solver|set_solver].
  apply NoDup_singleton.
Qed.

Lemma example_update_fits (f : LedgerState) :
  is_Some (f (LedgerEntryKey (example_data 1))) -> batch_fits example_update f.
Proof.
  intros Hf. split; simpl; [apply NoDup_singleton|set_solver|by intros e ->%list_elem_of_singleton|set_solver].
Qed.

Lemma example_erase_fits (f : LedgerState) :
  is_Some (f (LedgerEntryKey (example_data 1))) -> batch_fits example_erase f.
Proof.
  intros Hf. split; simpl; [apply NoDup_singleton|set_solver|set_solver|by intros e ->%list_elem_of_singleton].
Qed.

Definition example_events (ready : nat -> bool) : list NodeEvent :=
  [CloseLedger 12 example_create false ready; CloseLedger 12 example_update true ready;
   RestartSaved 13; CloseLedger 13 example_erase false ready; RestartPublished 13 13;
   CloseLedger 13 example_create false ready].

Lemma example_run (ready : nat -> bool) :
  ledger_run 0 FIRST_PROTOCOL_SHADOWS_REMOVED empty_state (example_events ready)
    (batch_step example_create (batch_step example_erase (batch_step example_update
      (batch_step example_create empty_state)))).
Proof.
  unfold FIRST_PROTOCOL_SHADOWS_REMOVED, UINT32_MAX.
  constructor; [unfold UINT32_MAX; lia|lia|by apply example_create_fits|].
  constructor; [unfold UINT32_MAX; lia|lia|by apply example_update_fits; eexists|].
  constructor; [lia|]. constructor; [unfold UINT32_MAX; lia|lia|by apply example_erase_fits; eexists|].
  constructor; [lia|]. constructor; [unfold UINT32_MAX; lia|lia|by apply example_create_fits|].
  constructor.
Qed.

Lemma bucket_list_refines_witness :
  exists t bl m, node_run (fun _ => true) (fun _ => false) (0, newBucketList) (example_events (fun _ => true)) =
      Ok (t, bl) /\
    loadCompleteLedgerState (fun _ => true) (newHAS t bl) = Ok m /\
    map_find (LedgerEntryKey (example_data 1)) m = Some (example_data 1).
Proof.
  destruct (bucket_list_refines (fun _ => true) (fun _ => false) (example_events (fun _ => true)) _
    ltac:(done) ltac:(done) (example_run _)) as (t&bl&m&Hn&Hm&_&Hf).
  exists t, bl, m. split; [exact Hn|]. split; [exact Hm|]. rewrite Hf. reflexivity.
Defined.

Lemma bucket_list_deterministic_witness :
  exists t1 bl1 t2 bl2,
    node_run (fun _ => true) (fun _ => false) (0, newBucketList) (example_events (fun _ => true)) = Ok (t1, bl1) /\
    node_run (fun _ => true) (fun _ => false) (0, newBucketList) (example_events (fun _ => false)) = Ok (t2, bl2) /\
    core bl1 = core bl2.
Proof.
  apply (bucket_list_deterministic (fun _ => true) (fun _ => false) (example_events (fun _ => true))
    (example_events (fun _ => false)) _ _ ltac:(done) ltac:(done) (example_run _) (example_run _)).
  reflexivity.
Defined.
