(* ===== verification/LedgerTxn.v ===== *)
(** * Ledger transactions

    [src/ledger/LedgerTxn.cpp]: transactions nested in one another over the
    ledger in the database, with the order book each keeps of its recorded
    offers.  Only the innermost transaction is used while it is open; what a
    handle ([LedgerTxnEntry]) does to its entry is an operation on the key.

    The tables of the database are a map from keys to entries, the bulk
    statements and the queries for the best offers act on it; the caches in
    front of it are left out.  The maps of a transaction from keys are ordered
    by key here, where the sources leave the order of iteration open; the maps
    from pairs of assets are functions.  [keyHint] only spares lookups. *)
From stdpp Require Import base tactics list numbers.
From Stdlib Require Import ZArith Lia Bool SpecFloat.
From S2P Require Import Prelude Containers OfferExchange LedgerEntries Float64 Bucket BucketMerge.

Open Scope Z_scope.
Open Scope kin_scope.

(** ** Entries and keys *)

Inductive InternalLedgerKey :=
  | LEDGER_ENTRY_KEY (k : LedgerKey)
  | SPONSORSHIP_KEY (sponsoredID : AccountID)
  | SPONSORSHIP_COUNTER_KEY (sponsoringID : AccountID).

Inductive InternalLedgerEntry :=
  | LEDGER_ENTRY (e : LedgerEntry)
  | SPONSORSHIP (sponsoredID sponsoringID : AccountID)
  | SPONSORSHIP_COUNTER (sponsoringID : AccountID) (numSponsoring : Z).

Definition toKey (e : InternalLedgerEntry) : InternalLedgerKey :=
  match e with
  | LEDGER_ENTRY e => LEDGER_ENTRY_KEY (LedgerEntryKey e)
  | SPONSORSHIP a _ => SPONSORSHIP_KEY a
  | SPONSORSHIP_COUNTER a _ => SPONSORSHIP_COUNTER_KEY a
  end.

#[global] Instance InternalLedgerKey_eq_dec : EqDecision InternalLedgerKey.
Proof. solve_decision. Defined.

Definition internal_code (k : InternalLedgerKey) : list Z :=
  match k with
  | LEDGER_ENTRY_KEY k => 0 :: key_code k
  | SPONSORSHIP_KEY a => [1; a]
  | SPONSORSHIP_COUNTER_KEY a => [2; a]
  end.

#[global] Instance LtB_InternalLedgerKey : LtB InternalLedgerKey :=
  fun a b => ltb (internal_code a) (internal_code b).

Definition offer_of (e : InternalLedgerEntry) : option OfferEntry :=
  match e with
  | LEDGER_ENTRY l => match le_data l with OFFER o => Some o | _ => None end
  | _ => None
  end.

Definition isOfferKey (k : InternalLedgerKey) : bool :=
  match k with LEDGER_ENTRY_KEY (OFFER_KEY _ _) => true | _ => false end.

(** ** Errors *)

Inductive ltx_abort :=
  | MergeDeleteNonLive       (** the exceptions of [mergeFrom], in a [noexcept] function *)
  | MergeInitIntoLive
  | MergeSetDeletedToLive
  | MergeDeleteDeleted
  | ParentHasActive
  | RootReadOnly
  | DeletedRowMissing        (** a bulk delete found fewer rows than keys *)
  | NotAnOffer               (** an offer key with another entry: a bad union access *)
  | SealHasChild.

Inductive ltx_error :=
  | HasChild
  | IsSealed
  | NotSealed
  | NotExact
  | KeyExists
  | KeyMissing
  | KeyActive
  | KeyNotActive
  | HeaderActive
  | HeaderNotActive
  | ActiveEntries
  | InvalidOrderBook
  | PreviousMissing          (** the assertion of [getChanges] *)
  | DifferentAssets          (** the assertions of [isBetterOffer] *)
  | NoTransaction            (** no transaction is open *)
  | OutOfFuel
  | Aborts (r : ltx_abort).

Notation ltx := (result ltx_error).

(** ** Versions of an entry *)

(** A [LedgerEntryPtr] with its state; only a deleted one is null. *)
Inductive LedgerEntryPtr :=
  | INIT (e : InternalLedgerEntry)
  | LIVE (e : InternalLedgerEntry)
  | DELETED.

Definition ptr_get (p : LedgerEntryPtr) : option InternalLedgerEntry :=
  match p with INIT e | LIVE e => Some e | DELETED => None end.
Definition isDeleted (p : LedgerEntryPtr) : bool := match p with DELETED => true | _ => false end.
Definition isInit (p : LedgerEntryPtr) : bool := match p with INIT _ => true | _ => false end.

Definition mergeFrom (self entryPtr : LedgerEntryPtr) : ltx LedgerEntryPtr :=
  match self, entryPtr with
  | INIT _, DELETED => Err (Aborts MergeDeleteNonLive)
  | INIT _, (INIT e | LIVE e) => Ok (INIT e)
  | LIVE _, INIT _ => Err (Aborts MergeInitIntoLive)
  | LIVE _, (LIVE _ | DELETED) => Ok entryPtr
  | DELETED, INIT e => Ok (LIVE e)
  | DELETED, LIVE _ => Err (Aborts MergeSetDeletedToLive)
  | DELETED, DELETED => Err (Aborts MergeDeleteDeleted)
  end.

(** ** Offers *)

Record OfferDescriptor := { od_price : Price; od_offerID : Z }.

Definition price_double (p : Price) : double := f64_div (f64_of_Z (price_n p)) (f64_of_Z (price_d p)).

Definition isBetterOffer (lhs rhs : OfferDescriptor) : bool :=
  let lhsPrice := price_double (od_price lhs) in
  let rhsPrice := price_double (od_price rhs) in
  if SFltb lhsPrice rhsPrice then true
  else if SFeqb lhsPrice rhsPrice then od_offerID lhs <? od_offerID rhs
  else false.

Definition descriptor (o : OfferEntry) : OfferDescriptor :=
  {| od_price := of_price o; od_offerID := of_offerID o |}.

(** [isBetterOffer] on two entries. *)
Definition isBetterEntry (lhs rhs : OfferEntry) : ltx bool :=
  if bool_decide (of_buying lhs = of_buying rhs) && bool_decide (of_selling lhs = of_selling rhs)
  then Ok (isBetterOffer (descriptor lhs) (descriptor rhs)) else Err DifferentAssets.

(** A [std::map] ordered by [isBetterOffer]: [emplace], [find] and [erase],
    [begin], [upper_bound]. *)
Notation OrderBook := (list (OfferDescriptor * LedgerKey)) (only parsing).

Fixpoint ob_emplace (d : OfferDescriptor) (k : LedgerKey) (l : OrderBook) : OrderBook :=
  match l with
  | [] => [(d, k)]
  | (d', k') :: l' =>
      if isBetterOffer d d' then (d, k) :: l
      else if isBetterOffer d' d then (d', k') :: ob_emplace d k l' else l
  end.

Fixpoint ob_erase (d : OfferDescriptor) (l : OrderBook) : OrderBook :=
  match l with
  | [] => []
  | (d', k') :: l' =>
      if isBetterOffer d d' then l
      else if isBetterOffer d' d then (d', k') :: ob_erase d l' else l'
  end.

Fixpoint ob_upper_bound (d : OfferDescriptor) (l : OrderBook) : option (OfferDescriptor * LedgerKey) :=
  match l with
  | [] => None
  | (d', k') :: l' => if isBetterOffer d d' then Some (d', k') else ob_upper_bound d l'
  end.

Definition MultiOrderBook : Type := Asset -> Asset -> OrderBook.
Definition WorstBestOfferMap : Type := Asset -> Asset -> option (option OfferDescriptor).

Definition upd2 {A} (b s : Asset) (x : A) (f : Asset -> Asset -> A) : Asset -> Asset -> A :=
  fun b' s' => if decide (b' = b /\ s' = s) then x else f b' s'.

(** ** Transactions *)

Inductive LedgerTxnConsistency := EXACT | EXTRA_DELETES.

(** Whether the handle of an active entry can change it. *)
Inductive ActiveKind := ActiveMutable | ActiveConst.

Notation EntryMap := (list (InternalLedgerKey * LedgerEntryPtr)) (only parsing).

Record Txn := mkTxn {
  mHeader : LedgerHeader;
  mActiveHeader : bool;
  mEntry : EntryMap;
  mActive : list (InternalLedgerKey * ActiveKind);
  mShouldUpdateLastModified : bool;
  mIsSealed : bool;
  mConsistency : LedgerTxnConsistency;
  mMultiOrderBook : MultiOrderBook;
  mWorstBestOffer : WorstBestOfferMap;
}.

Definition set_mHeader (h : LedgerHeader) (t : Txn) : Txn :=
  mkTxn h (mActiveHeader t) (mEntry t) (mActive t) (mShouldUpdateLastModified t) (mIsSealed t)
    (mConsistency t) (mMultiOrderBook t) (mWorstBestOffer t).
Definition set_mActiveHeader (b : bool) (t : Txn) : Txn :=
  mkTxn (mHeader t) b (mEntry t) (mActive t) (mShouldUpdateLastModified t) (mIsSealed t)
    (mConsistency t) (mMultiOrderBook t) (mWorstBestOffer t).
Definition set_mEntry (m : EntryMap) (t : Txn) : Txn :=
  mkTxn (mHeader t) (mActiveHeader t) m (mActive t) (mShouldUpdateLastModified t) (mIsSealed t)
    (mConsistency t) (mMultiOrderBook t) (mWorstBestOffer t).
Definition set_mActive (l : list (InternalLedgerKey * ActiveKind)) (t : Txn) : Txn :=
  mkTxn (mHeader t) (mActiveHeader t) (mEntry t) l (mShouldUpdateLastModified t) (mIsSealed t)
    (mConsistency t) (mMultiOrderBook t) (mWorstBestOffer t).
Definition set_mIsSealed (b : bool) (t : Txn) : Txn :=
  mkTxn (mHeader t) (mActiveHeader t) (mEntry t) (mActive t) (mShouldUpdateLastModified t) b
    (mConsistency t) (mMultiOrderBook t) (mWorstBestOffer t).
Definition set_mConsistency (c : LedgerTxnConsistency) (t : Txn) : Txn :=
  mkTxn (mHeader t) (mActiveHeader t) (mEntry t) (mActive t) (mShouldUpdateLastModified t) (mIsSealed t)
    c (mMultiOrderBook t) (mWorstBestOffer t).
Definition set_mMultiOrderBook (b : MultiOrderBook) (t : Txn) : Txn :=
  mkTxn (mHeader t) (mActiveHeader t) (mEntry t) (mActive t) (mShouldUpdateLastModified t) (mIsSealed t)
    (mConsistency t) b (mWorstBestOffer t).
Definition set_mWorstBestOffer (w : WorstBestOfferMap) (t : Txn) : Txn :=
  mkTxn (mHeader t) (mActiveHeader t) (mEntry t) (mActive t) (mShouldUpdateLastModified t) (mIsSealed t)
    (mConsistency t) (mMultiOrderBook t) w.

(** The database, and whether an SQL transaction is open. *)
Record Root := {
  root_header : LedgerHeader;
  root_entries : list (LedgerKey * LedgerEntry);
  root_transaction : bool;
}.

(** The open transactions, the innermost first. *)
Record Ledger := { lt_root : Root; lt_txns : list Txn }.

Definition throwIfSealed (t : Txn) : ltx unit := ensure (negb (mIsSealed t)) IsSealed.

(** ** Reading *)

Definition root_newest (r : Root) (k : InternalLedgerKey) : option InternalLedgerEntry :=
  match k with
  | LEDGER_ENTRY_KEY k => LEDGER_ENTRY <$> map_find k (root_entries r)
  | _ => None
  end.

Fixpoint getNewestVersion (r : Root) (l : list Txn) (k : InternalLedgerKey)
    : option InternalLedgerEntry :=
  match l with
  | [] => root_newest r k
  | t :: l' =>
      match map_find k (mEntry t) with
      | Some p => ptr_get p
      | None => getNewestVersion r l' k
      end
  end.

Definition getHeader (r : Root) (l : list Txn) : LedgerHeader :=
  match l with [] => root_header r | t :: _ => mHeader t end.

(** ** Recording *)

Definition removeFromOrderBookIfExists (o : OfferEntry) (m : MultiOrderBook) : MultiOrderBook :=
  upd2 (of_buying o) (of_selling o) (ob_erase (descriptor o) (m (of_buying o) (of_selling o))) m.

Definition addToOrderBook (o : OfferEntry) (k : LedgerKey) (m : MultiOrderBook) : MultiOrderBook :=
  upd2 (of_buying o) (of_selling o) (ob_emplace (descriptor o) k (m (of_buying o) (of_selling o))) m.

Definition recordEntry (key : InternalLedgerKey) (lePtr : LedgerEntryPtr) (m : EntryMap)
    : ltx EntryMap :=
  match map_find key m with
  | None => Ok (map_set key lePtr m)
  | Some old =>
      if isDeleted lePtr && isInit old then Ok (map_erase key m)
      else let? p := mergeFrom old lePtr in Ok (map_set key p m)
  end.

(** The offer of a version, if the version exists. *)
Definition ptr_offer (p : LedgerEntryPtr) : ltx (option OfferEntry) :=
  match ptr_get p with
  | None => Ok None
  | Some e => match offer_of e with Some o => Ok (Some o) | None => Err (Aborts NotAnOffer) end
  end.

Definition updateEntry (key : InternalLedgerKey) (lePtr : LedgerEntryPtr) (effectiveActive : bool)
    (t : Txn) : ltx Txn :=
  match key with
  | LEDGER_ENTRY_KEY (OFFER_KEY _ _ as k) =>
      let? old := match map_find key (mEntry t) with Some p => ptr_offer p | None => Ok None end in
      let book := match old with
        | Some o => removeFromOrderBookIfExists o (mMultiOrderBook t) | None => mMultiOrderBook t end in
      let? new := (if effectiveActive then Ok None else ptr_offer lePtr) in
      let book := match new with Some o => addToOrderBook o k book | None => book end in
      let? m := recordEntry key lePtr (mEntry t) in
      Ok (set_mEntry m (set_mMultiOrderBook book t))
  | _ => let? m := recordEntry key lePtr (mEntry t) in Ok (set_mEntry m t)
  end.

Definition updateEntryIfRecorded (key : InternalLedgerKey) (effectiveActive : bool) (t : Txn)
    : ltx Txn :=
  if negb (isOfferKey key) then Ok t else
  match map_find key (mEntry t) with
  | Some p => updateEntry key p effectiveActive t
  | None => Ok t
  end.

Definition isWorseThan (lhs rhs : option OfferDescriptor) : bool :=
  match rhs, lhs with
  | None, _ => false
  | Some _, None => true
  | Some r, Some l => isBetterOffer r l
  end.

Definition updateWorstBestOffer (b s : Asset) (d : option OfferDescriptor) (t : Txn) : Txn :=
  if match mWorstBestOffer t b s with None => true | Some w => isWorseThan d w end
  then set_mWorstBestOffer (upd2 b s (Some d) (mWorstBestOffer t)) t else t.

(** [forAllWorstBestOffers] with [updateWorstBestOffer]; the pairs are
    independent of one another. *)
Definition mergeWorstBestOffers (child self : WorstBestOfferMap) : WorstBestOfferMap :=
  fun b s =>
    match child b s with
    | None => self b s
    | Some d =>
        if match self b s with None => true | Some w => isWorseThan d w end
        then Some d else self b s
    end.

(** ** The innermost transaction *)

Definition active_find (k : InternalLedgerKey) (l : list (InternalLedgerKey * ActiveKind))
    : option ActiveKind := snd <$> find (fun p => bool_decide (fst p = k)) l.
Definition active_erase (k : InternalLedgerKey) (l : list (InternalLedgerKey * ActiveKind)) :=
  filter (fun p => fst p <> k) l.

(** An operation on the transaction at [depth], the innermost being 0; the
    others have a child, which is [withChild] for the operation. *)
Definition onTop {A} (withChild : ltx_error) (depth : nat) (f : Root -> list Txn -> Txn -> ltx (A * Txn))
    (s : Ledger) : ltx (A * Ledger) :=
  match lt_txns s with
  | [] => Err NoTransaction
  | t :: l =>
      if (length (t :: l) <=? depth)%nat then Err NoTransaction
      else if (0 <? depth)%nat then Err withChild
      else let? (a, t) := f (lt_root s) l t in Ok (a, {| lt_root := lt_root s; lt_txns := t :: l |})
  end.

Definition create (entry : InternalLedgerEntry) (r : Root) (l : list Txn) (t : Txn) : ltx (unit * Txn) :=
  let? _ := throwIfSealed t in
  let key := toKey entry in
  match getNewestVersion r (t :: l) key with
  | Some _ => Err KeyExists
  | None =>
      let t := set_mActive ((key, ActiveMutable) :: mActive t) t in
      let? t := updateEntry key (INIT entry) true t in Ok (tt, t)
  end.

Definition createWithoutLoading (entry : InternalLedgerEntry) (r : Root) (l : list Txn) (t : Txn)
    : ltx (unit * Txn) :=
  let? _ := throwIfSealed t in
  let key := toKey entry in
  match active_find key (mActive t) with
  | Some _ => Err KeyActive
  | None => let? t := updateEntry key (INIT entry) false t in Ok (tt, t)
  end.

Definition updateWithoutLoading (entry : InternalLedgerEntry) (r : Root) (l : list Txn) (t : Txn)
    : ltx (unit * Txn) :=
  let? _ := throwIfSealed t in
  let key := toKey entry in
  match active_find key (mActive t) with
  | Some _ => Err KeyActive
  | None => let? t := updateEntry key (LIVE entry) false t in Ok (tt, t)
  end.

Definition deactivate (key : InternalLedgerKey) (t : Txn) : ltx Txn :=
  match active_find key (mActive t) with
  | None => Err KeyNotActive
  | Some _ =>
      let? t := updateEntryIfRecorded key false t in
      Ok (set_mActive (active_erase key (mActive t)) t)
  end.

Definition erase (key : InternalLedgerKey) (r : Root) (l : list Txn) (t : Txn) : ltx (unit * Txn) :=
  let? _ := throwIfSealed t in
  match getNewestVersion r (t :: l) key with
  | None => Err KeyMissing
  | Some _ =>
      let? t := updateEntry key DELETED false t in
      Ok (tt, set_mActive (active_erase key (mActive t)) t)
  end.

Definition eraseWithoutLoading (key : InternalLedgerKey) (r : Root) (l : list Txn) (t : Txn)
    : ltx (unit * Txn) :=
  let? _ := throwIfSealed t in
  let? t := updateEntry key DELETED false t in
  Ok (tt, set_mConsistency EXTRA_DELETES (set_mActive (active_erase key (mActive t)) t)).

Definition load (key : InternalLedgerKey) (r : Root) (l : list Txn) (t : Txn)
    : ltx (option InternalLedgerEntry * Txn) :=
  let? _ := throwIfSealed t in
  match active_find key (mActive t) with
  | Some _ => Err KeyActive
  | None =>
      match getNewestVersion r (t :: l) key with
      | None => Ok (None, t)
      | Some newest =>
          let current := match map_find key (mEntry t) with Some p => p | None => LIVE newest end in
          let t := set_mActive ((key, ActiveMutable) :: mActive t) t in
          let? t := updateEntry key current true t in Ok (Some newest, t)
      end
  end.

Definition loadWithoutRecord (key : InternalLedgerKey) (r : Root) (l : list Txn) (t : Txn)
    : ltx (option InternalLedgerEntry * Txn) :=
  let? _ := throwIfSealed t in
  match active_find key (mActive t) with
  | Some _ => Err KeyActive
  | None =>
      match getNewestVersion r (t :: l) key with
      | None => Ok (None, t)
      | Some newest =>
          let t := set_mActive ((key, ActiveConst) :: mActive t) t in
          let? t := updateEntryIfRecorded key true t in Ok (Some newest, t)
      end
  end.

(** [LedgerTxnEntry::current], assigned through a handle that is still active. *)
Definition assignCurrent (key : InternalLedgerKey) (e : InternalLedgerEntry) (t : Txn) : ltx Txn :=
  match active_find key (mActive t), map_find key (mEntry t) with
  | Some ActiveMutable, Some (INIT _) => Ok (set_mEntry (map_set key (INIT e) (mEntry t)) t)
  | Some ActiveMutable, Some (LIVE _) => Ok (set_mEntry (map_set key (LIVE e) (mEntry t)) t)
  | _, _ => Err KeyNotActive
  end.

Definition loadHeader (t : Txn) : ltx (LedgerHeader * Txn) :=
  let? _ := throwIfSealed t in
  if mActiveHeader t then Err HeaderActive else Ok (mHeader t, set_mActiveHeader true t).

(** [LedgerTxnHeader::current], assigned through an active handle. *)
Definition assignHeader (h : LedgerHeader) (t : Txn) : ltx Txn :=
  if mActiveHeader t then Ok (set_mHeader h t) else Err HeaderNotActive.

Definition deactivateHeader (t : Txn) : ltx Txn :=
  if mActiveHeader t then Ok (set_mActiveHeader false t) else Err HeaderNotActive.

(** ** Opening and closing *)

Definition newTxn (h : LedgerHeader) (shouldUpdateLastModified : bool) : Txn :=
  mkTxn h false [] [] shouldUpdateLastModified false EXACT (fun _ _ => []) (fun _ _ => None).

Fixpoint deactivateAll (l : list (InternalLedgerKey * ActiveKind)) (t : Txn) : ltx Txn :=
  match l with
  | [] => Ok t
  | (k, _) :: l' => let? t := updateEntryIfRecorded k false t in deactivateAll l' t
  end.

(** [addChild] of a transaction. *)
Definition addChild (t : Txn) : ltx Txn :=
  let? _ := throwIfSealed t in
  let? t := deactivateAll (mActive t) t in
  Ok (set_mActiveHeader false (set_mActive [] t)).

(** The constructor, of a child of the transaction at [depth] or, when none is
    open, of the root. *)
Definition openTxn (depth : nat) (shouldUpdateLastModified readWrite : bool) (s : Ledger) : ltx Ledger :=
  match lt_txns s with
  | [] =>
      Ok {| lt_root := {| root_header := root_header (lt_root s); root_entries := root_entries (lt_root s);
                          root_transaction := readWrite |};
            lt_txns := [newTxn (root_header (lt_root s)) shouldUpdateLastModified] |}
  | t :: l =>
      if (0 <? depth)%nat then Err HasChild
      else
        let child := newTxn (mHeader t) shouldUpdateLastModified in
        let? t := addChild t in
        Ok {| lt_root := lt_root s; lt_txns := child :: t :: l |}
  end.

Definition stamp (h : LedgerHeader) (e : InternalLedgerEntry) : InternalLedgerEntry :=
  match e with
  | LEDGER_ENTRY l => LEDGER_ENTRY {| lastModifiedLedgerSeq := ledgerSeq h; le_data := le_data l;
                                      le_ext := le_ext l |}
  | _ => e
  end.

Definition stampPtr (h : LedgerHeader) (p : LedgerEntryPtr) : LedgerEntryPtr :=
  match p with INIT e => INIT (stamp h e) | LIVE e => LIVE (stamp h e) | DELETED => DELETED end.

Definition maybeUpdateLastModified (t : Txn) : Txn :=
  if mShouldUpdateLastModified t
  then set_mEntry ((fun p => (fst p, stampPtr (mHeader t) (snd p))) <$> mEntry t) t else t.

(** [maybeUpdateLastModifiedThenInvokeThenSeal]: what is done in between reads
    the entries of the result. *)
Definition seal (t : Txn) : Txn :=
  if mIsSealed t then t
  else set_mIsSealed true (set_mActiveHeader false (set_mActive [] (set_mMultiOrderBook (fun _ _ => [])
         (maybeUpdateLastModified t)))).

Definition joinConsistencyLevels (c1 c2 : LedgerTxnConsistency) : LedgerTxnConsistency :=
  match c1 with EXACT => c2 | EXTRA_DELETES => EXTRA_DELETES end.

Fixpoint updateEntries (m : EntryMap) (t : Txn) : ltx Txn :=
  match m with
  | [] => Ok t
  | (k, p) :: m' => let? t := updateEntry k p false t in updateEntries m' t
  end.

(** [commitChild] of a transaction. *)
Definition commitChild (child self : Txn) : ltx Txn :=
  let self := set_mConsistency (joinConsistencyLevels (mConsistency self) (mConsistency child)) self in
  if negb (match mActive self with [] => true | _ => false end) then Err (Aborts ParentHasActive) else
  let? self := updateEntries (mEntry child) self in
  Ok (set_mHeader (mHeader child)
       (set_mWorstBestOffer (mergeWorstBestOffers (mWorstBestOffer child) (mWorstBestOffer self)) self)).

(** [bulkApply]: the changes of entries of the ledger, to the tables. *)
Fixpoint bulkApply (cons : LedgerTxnConsistency) (m : EntryMap) (db : list (LedgerKey * LedgerEntry))
    : ltx (list (LedgerKey * LedgerEntry)) :=
  match m with
  | [] => Ok db
  | (LEDGER_ENTRY_KEY k, p) :: m' =>
      let? db :=
        match p with
        | INIT (LEDGER_ENTRY e) | LIVE (LEDGER_ENTRY e) => Ok (map_set k e db)
        | DELETED =>
            match map_find k db, cons with
            | None, EXACT => Err (Aborts DeletedRowMissing)
            | _, _ => Ok (map_erase k db)
            end
        | _ => Ok db
        end in
      bulkApply cons m' db
  | _ :: m' => bulkApply cons m' db
  end.

(** [commitChild] of the root. *)
Definition rootCommitChild (child : Txn) (r : Root) : ltx Root :=
  if negb (root_transaction r) then Err (Aborts RootReadOnly) else
  let? db := bulkApply (mConsistency child) (mEntry child) (root_entries r) in
  Ok {| root_header := mHeader child; root_entries := db; root_transaction := false |}.

Definition commit (depth : nat) (s : Ledger) : ltx Ledger :=
  match lt_txns s with
  | [] => Err NoTransaction
  | t :: l =>
      if (length (t :: l) <=? depth)%nat then Err NoTransaction
      else if (0 <? depth)%nat then Err (Aborts SealHasChild)
      else
        let t := seal t in
        match l with
        | [] => let? r := rootCommitChild t (lt_root s) in Ok {| lt_root := r; lt_txns := [] |}
        | p :: l' => let? p := commitChild t p in Ok {| lt_root := lt_root s; lt_txns := p :: l' |}
        end
  end.

(** [rollback], of the children first. *)
Definition rollback (depth : nat) (s : Ledger) : ltx Ledger :=
  if (length (lt_txns s) <=? depth)%nat then Err NoTransaction else
  let l := drop (S depth) (lt_txns s) in
  let r := lt_root s in
  Ok {| lt_root := match l with
          | [] => {| root_header := root_header r; root_entries := root_entries r; root_transaction := false |}
          | _ => r
          end;
        lt_txns := l |}.

(** ** What has changed *)

Inductive LedgerEntryChange :=
  | LEDGER_ENTRY_CREATED (e : LedgerEntry)
  | LEDGER_ENTRY_UPDATED (e : LedgerEntry)
  | LEDGER_ENTRY_REMOVED (k : LedgerKey)
  | LEDGER_ENTRY_STATE (e : LedgerEntry).

Fixpoint entryChanges (r : Root) (l : list Txn) (m : EntryMap) : ltx (list LedgerEntryChange) :=
  match m with
  | [] => Ok []
  | (LEDGER_ENTRY_KEY k, p) :: m' =>
      let? c :=
        match p with
        | INIT (LEDGER_ENTRY e) => Ok [LEDGER_ENTRY_CREATED e]
        | INIT _ => Ok []
        | _ =>
            match getNewestVersion r l (LEDGER_ENTRY_KEY k) with
            | Some (LEDGER_ENTRY previous) =>
                Ok (LEDGER_ENTRY_STATE previous ::
                    match p with
                    | DELETED => [LEDGER_ENTRY_REMOVED k]
                    | INIT (LEDGER_ENTRY e) | LIVE (LEDGER_ENTRY e) => [LEDGER_ENTRY_UPDATED e]
                    | _ => []
                    end)
            | _ => Err PreviousMissing
            end
        end in
      let? cs := entryChanges r l m' in Ok (c ++ cs)
  | _ :: m' => entryChanges r l m'
  end.

Definition getChanges (r : Root) (l : list Txn) (t : Txn) : ltx (list LedgerEntryChange * Txn) :=
  match mConsistency t with
  | EXTRA_DELETES => Err NotExact
  | EXACT => let t := seal t in let? c := entryChanges r l (mEntry t) in Ok (c, t)
  end.

(** Each recorded key with its current and its previous entry. *)
Definition getDelta (r : Root) (l : list Txn) (t : Txn)
    : ltx (list (InternalLedgerKey * (option InternalLedgerEntry * option InternalLedgerEntry)) *
           (LedgerHeader * LedgerHeader) * Txn) :=
  match mConsistency t with
  | EXTRA_DELETES => Err NotExact
  | EXACT =>
      let t := seal t in
      Ok ((fun p => (fst p, (ptr_get (snd p), getNewestVersion r l (fst p)))) <$> mEntry t,
          (mHeader t, getHeader r l), t)
  end.

Fixpoint classify (m : EntryMap) : Batch :=
  match m with
  | [] => {| initEntries := []; liveEntries := []; deadEntries := [] |}
  | (LEDGER_ENTRY_KEY k, p) :: m' =>
      let b := classify m' in
      match p with
      | INIT (LEDGER_ENTRY e) =>
          {| initEntries := e :: initEntries b; liveEntries := liveEntries b; deadEntries := deadEntries b |}
      | LIVE (LEDGER_ENTRY e) =>
          {| initEntries := initEntries b; liveEntries := e :: liveEntries b; deadEntries := deadEntries b |}
      | DELETED =>
          {| initEntries := initEntries b; liveEntries := liveEntries b; deadEntries := k :: deadEntries b |}
      | _ => b
      end
  | _ :: m' => classify m'
  end.

Definition getAllEntries (r : Root) (l : list Txn) (t : Txn) : ltx (Batch * Txn) :=
  let t := seal t in Ok (classify (mEntry t), t).

Definition unsealHeader (f : LedgerHeader -> LedgerHeader) (t : Txn) : ltx Txn :=
  if negb (mIsSealed t) then Err NotSealed
  else if mActiveHeader t then Err HeaderActive
  else Ok (set_mHeader (f (mHeader t)) t).

Definition hasSponsorshipEntry (t : Txn) : ltx bool :=
  match mConsistency t with
  | EXTRA_DELETES => Err NotExact
  | EXACT => Ok (existsb (fun p => match fst p with LEDGER_ENTRY_KEY _ => false | _ => true end) (mEntry t))
  end.

(** ** The best offer *)

(** The query of the database: the offers of the pair, the best one that is
    worse than the bound. *)
Definition db_offers (buying selling : Asset) (db : list (LedgerKey * LedgerEntry)) : list (LedgerEntry * OfferEntry) :=
  omap (fun p => match le_data (snd p) with
    | OFFER o => if bool_decide (of_buying o = buying /\ of_selling o = selling) then Some (snd p, o) else None
    | _ => None
    end) db.

Definition within (worseThan : option OfferDescriptor) (o : OfferEntry) : bool :=
  match worseThan with None => true | Some d => isBetterOffer d (descriptor o) end.

Fixpoint best_of (l : list (LedgerEntry * OfferEntry)) : option (LedgerEntry * OfferEntry) :=
  match l with
  | [] => None
  | x :: l' =>
      match best_of l' with
      | Some y => if isBetterOffer (descriptor (snd y)) (descriptor (snd x)) then Some y else Some x
      | None => Some x
      end
  end.

Definition rootBestOffer (buying selling : Asset) (worseThan : option OfferDescriptor) (r : Root)
    : option LedgerEntry :=
  fst <$> best_of (filter (fun p => within worseThan (snd p) = true) (db_offers buying selling (root_entries r))).

Definition entry_offer (e : LedgerEntry) : ltx OfferEntry :=
  match le_data e with OFFER o => Ok o | _ => Err (Aborts NotAnOffer) end.

(** The recorded entry an order book refers to. *)
Definition bookEntry (m : EntryMap) (p : option (OfferDescriptor * LedgerKey)) : ltx (option LedgerEntry) :=
  match p with
  | None => Ok None
  | Some (_, k) =>
      match map_find (LEDGER_ENTRY_KEY k) m with
      | Some (INIT (LEDGER_ENTRY e)) | Some (LIVE (LEDGER_ENTRY e)) => Ok (Some e)
      | _ => Err InvalidOrderBook
      end
  end.

(** The loop over the offers of the parent. *)
Fixpoint skipRecorded (fuel : nat) (next : OfferDescriptor -> ltx (option LedgerEntry)) (m : EntryMap)
    (selfBest parentBest : option LedgerEntry) : ltx (option LedgerEntry) :=
  match parentBest with
  | None => Ok selfBest
  | Some pe =>
      let? po := entry_offer pe in
      let? better := match selfBest with
        | None => Ok true
        | Some se => let? so := entry_offer se in isBetterEntry po so
        end in
      if (better : bool) then
        if isSome (map_find (LEDGER_ENTRY_KEY (LedgerEntryKey pe)) m) then
          match fuel with
          | O => Err OutOfFuel
          | S fuel' =>
              let? pb := next (descriptor po) in skipRecorded fuel' next m selfBest pb
          end
        else Ok parentBest
      else Ok selfBest
  end.

(** Both overloads; without a bound the worst best offer is consulted. *)
Fixpoint getBestOffer (r : Root) (l : list Txn) (buying selling : Asset)
    (worseThan : option OfferDescriptor) : ltx (option LedgerEntry) :=
  match l with
  | [] => Ok (rootBestOffer buying selling worseThan r)
  | t :: l' =>
      if negb (match mActive t with [] => true | _ => false end) then Err ActiveEntries else
      let offers := mMultiOrderBook t buying selling in
      let? selfBest := bookEntry (mEntry t)
        (match worseThan with None => head offers | Some d => ob_upper_bound d offers end) in
      let? parentBest :=
        match worseThan with
        | Some _ => getBestOffer r l' buying selling worseThan
        | None =>
            match mWorstBestOffer t buying selling with
            | Some (Some d) => getBestOffer r l' buying selling (Some d)
            | Some None => Ok None
            | None => getBestOffer r l' buying selling None
            end
        end in
      skipRecorded (length (mEntry t)) (fun d => getBestOffer r l' buying selling (Some d)) (mEntry t)
        selfBest parentBest
  end.

Definition loadBestOffer (buying selling : Asset) (r : Root) (l : list Txn) (t : Txn)
    : ltx (option LedgerEntry * Txn) :=
  let? _ := throwIfSealed t in
  let? le := getBestOffer r (t :: l) buying selling None in
  match le with
  | None => Ok (None, updateWorstBestOffer buying selling None t)
  | Some e =>
      let? (_, t) := load (LEDGER_ENTRY_KEY (LedgerEntryKey e)) r l t in
      let? o := entry_offer e in
      Ok (Some e, updateWorstBestOffer buying selling (Some (descriptor o)) t)
  end.
