(* ===== verification/LedgerTxnSpec.v ===== *)
(** * The specification of nested ledger transactions

    A transaction is a complete copy of the ledger it was opened on, with the
    set of the keys that were written or loaded for writing; committing it
    replaces the copy of the parent, rolling it back drops it.  [exec] runs the
    operations of [LedgerTxn] as a client calls them, [abs_exec] those of the
    specification. *)
From stdpp Require Import base tactics list numbers sets.
From Stdlib Require Import ZArith Lia Bool.
From S2P Require Import Prelude Containers OfferExchange LedgerEntries Float64 Bucket BucketMerge LedgerTxn.

Open Scope Z_scope.
Open Scope kin_scope.

(** ** Operations *)

(** The handles of a transaction that has a child are not active any more, so
    what is done through a handle is done to the innermost transaction.  An
    entry is assigned through the handle of its own key. *)
Inductive LtxOp :=
  | OpOpen (depth : nat) (shouldUpdateLastModified readWrite : bool)
  | OpCreate (depth : nat) (e : InternalLedgerEntry)
  | OpLoad (depth : nat) (k : InternalLedgerKey)
  | OpLoadWithoutRecord (depth : nat) (k : InternalLedgerKey)
  | OpErase (depth : nat) (k : InternalLedgerKey)
  | OpAssign (e : InternalLedgerEntry)
  | OpDeactivate (k : InternalLedgerKey)
  | OpLoadHeader (depth : nat)
  | OpAssignHeader (h : LedgerHeader)
  | OpDeactivateHeader
  | OpLoadBestOffer (depth : nat) (buying selling : Asset)
  | OpHasSponsorshipEntry (depth : nat)
  | OpGetChanges (depth : nat)
  | OpGetDelta (depth : nat)
  | OpGetAllEntries (depth : nat)
  | OpUnsealHeader (depth : nat) (f : LedgerHeader -> LedgerHeader)
  | OpCommit (depth : nat)
  | OpRollback (depth : nat).

Inductive LtxRet :=
  | RetUnit
  | RetBool (b : bool)
  | RetEntry (e : option InternalLedgerEntry)
  | RetHeader (h : LedgerHeader)
  | RetOffer (e : option LedgerEntry)
  | RetChanges (c : list LedgerEntryChange)
  | RetDelta (d : list (InternalLedgerKey * (option InternalLedgerEntry * option InternalLedgerEntry)))
      (h : LedgerHeader * LedgerHeader)
  | RetBatch (b : Batch).

(** A result of an operation as a result of the run. *)
Definition returns {A B S} (f : A -> B) (x : ltx (A * S)) : ltx (B * S) :=
  let? (a, s) := x in Ok (f a, s).

Definition silent {T} (f : T -> ltx T) (r : Root) (l : list Txn) (t : T) : ltx (unit * T) :=
  let? t := f t in Ok (tt, t).

Definition exec (op : LtxOp) (s : Ledger) : ltx (LtxRet * Ledger) :=
  match op with
  | OpOpen d u w => let? s := openTxn d u w s in Ok (RetUnit, s)
  | OpCreate d e => returns (fun _ => RetUnit) (onTop HasChild d (create e) s)
  | OpLoad d k => returns RetEntry (onTop HasChild d (load k) s)
  | OpLoadWithoutRecord d k => returns RetEntry (onTop HasChild d (loadWithoutRecord k) s)
  | OpErase d k => returns (fun _ => RetUnit) (onTop HasChild d (erase k) s)
  | OpAssign e =>
      returns (fun _ => RetUnit) (onTop HasChild 0 (silent (assignCurrent (toKey e) e)) s)
  | OpDeactivate k => returns (fun _ => RetUnit) (onTop HasChild 0 (silent (deactivate k)) s)
  | OpLoadHeader d => returns RetHeader (onTop HasChild d (fun _ _ => loadHeader) s)
  | OpAssignHeader h => returns (fun _ => RetUnit) (onTop HasChild 0 (silent (assignHeader h)) s)
  | OpDeactivateHeader => returns (fun _ => RetUnit) (onTop HasChild 0 (silent deactivateHeader) s)
  | OpLoadBestOffer d b sl => returns RetOffer (onTop HasChild d (loadBestOffer b sl) s)
  | OpHasSponsorshipEntry d =>
      returns RetBool (onTop HasChild d (fun _ _ t => let? b := hasSponsorshipEntry t in Ok (b, t)) s)
  | OpGetChanges d => returns RetChanges (onTop (Aborts SealHasChild) d getChanges s)
  | OpGetDelta d =>
      returns (fun x => RetDelta (fst x) (snd x)) (onTop (Aborts SealHasChild) d getDelta s)
  | OpGetAllEntries d => returns RetBatch (onTop (Aborts SealHasChild) d getAllEntries s)
  | OpUnsealHeader d f => returns (fun _ => RetUnit) (onTop NotSealed d (silent (unsealHeader f)) s)
  | OpCommit d => let? s := commit d s in Ok (RetUnit, s)
  | OpRollback d => let? s := rollback d s in Ok (RetUnit, s)
  end.

(** ** The specification *)

Notation Snapshot := (list (InternalLedgerKey * InternalLedgerEntry)) (only parsing).

Record ATxn := mkATxn {
  a_map : Snapshot;
  a_touched : list InternalLedgerKey;
  a_header : LedgerHeader;
  a_headerActive : bool;
  a_active : list (InternalLedgerKey * ActiveKind);
  a_stamps : bool;
  a_sealed : bool;
}.

Record ALedger := {
  al_map : Snapshot;
  al_header : LedgerHeader;
  al_writable : bool;
  al_txns : list ATxn;
}.

Definition a_set_active (l : list (InternalLedgerKey * ActiveKind)) (a : ATxn) : ATxn :=
  mkATxn (a_map a) (a_touched a) (a_header a) (a_headerActive a) l (a_stamps a) (a_sealed a).
Definition a_set_header (h : LedgerHeader) (active : bool) (a : ATxn) : ATxn :=
  mkATxn (a_map a) (a_touched a) h active (a_active a) (a_stamps a) (a_sealed a).

(** The key gets the entry, or none. *)
Definition put (k : InternalLedgerKey) (e : option InternalLedgerEntry) (m : Snapshot) : Snapshot :=
  match e with Some e => map_set k e m | None => map_erase k m end.

Definition a_write (k : InternalLedgerKey) (e : option InternalLedgerEntry) (a : ATxn) : ATxn :=
  mkATxn (put k e (a_map a)) (set_insert k (a_touched a)) (a_header a) (a_headerActive a) (a_active a)
    (a_stamps a) (a_sealed a).

Definition a_unsealed (a : ATxn) : ltx unit := ensure (negb (a_sealed a)) IsSealed.

Definition a_create (e : InternalLedgerEntry) (a : ATxn) : ltx (unit * ATxn) :=
  let? _ := a_unsealed a in
  match map_find (toKey e) (a_map a) with
  | Some _ => Err KeyExists
  | None => Ok (tt, a_write (toKey e) (Some e) (a_set_active ((toKey e, ActiveMutable) :: a_active a) a))
  end.

Definition a_erase (k : InternalLedgerKey) (a : ATxn) : ltx (unit * ATxn) :=
  let? _ := a_unsealed a in
  match map_find k (a_map a) with
  | None => Err KeyMissing
  | Some _ => Ok (tt, a_write k None (a_set_active (active_erase k (a_active a)) a))
  end.

Definition a_load (record : bool) (k : InternalLedgerKey) (a : ATxn)
    : ltx (option InternalLedgerEntry * ATxn) :=
  let? _ := a_unsealed a in
  match active_find k (a_active a) with
  | Some _ => Err KeyActive
  | None =>
      match map_find k (a_map a) with
      | None => Ok (None, a)
      | Some e =>
          let kind := if record then ActiveMutable else ActiveConst in
          let a := a_set_active ((k, kind) :: a_active a) a in
          Ok (Some e, if record then a_write k (Some e) a else a)
      end
  end.

Definition a_assign (e : InternalLedgerEntry) (a : ATxn) : ltx (unit * ATxn) :=
  match active_find (toKey e) (a_active a) with
  | Some ActiveMutable => Ok (tt, a_write (toKey e) (Some e) a)
  | _ => Err KeyNotActive
  end.

Definition a_deactivate (k : InternalLedgerKey) (a : ATxn) : ltx (unit * ATxn) :=
  match active_find k (a_active a) with
  | Some _ => Ok (tt, a_set_active (active_erase k (a_active a)) a)
  | None => Err KeyNotActive
  end.

Definition a_loadHeader (a : ATxn) : ltx (LedgerHeader * ATxn) :=
  let? _ := a_unsealed a in
  if a_headerActive a then Err HeaderActive else Ok (a_header a, a_set_header (a_header a) true a).

Definition a_assignHeader (h : LedgerHeader) (a : ATxn) : ltx (unit * ATxn) :=
  if a_headerActive a then Ok (tt, a_set_header h true a) else Err HeaderNotActive.

Definition a_deactivateHeader (a : ATxn) : ltx (unit * ATxn) :=
  if a_headerActive a then Ok (tt, a_set_header (a_header a) false a) else Err HeaderNotActive.

Definition a_unsealHeader (f : LedgerHeader -> LedgerHeader) (a : ATxn) : ltx (unit * ATxn) :=
  if negb (a_sealed a) then Err NotSealed
  else if a_headerActive a then Err HeaderActive
  else Ok (tt, a_set_header (f (a_header a)) false a).

(** The best of all the offers of the pair. *)
Definition snapshot_best (buying selling : Asset) (m : Snapshot) : option (LedgerEntry * OfferEntry) :=
  best_of (omap (fun p => match snd p with
    | LEDGER_ENTRY e =>
        match le_data e with
        | OFFER o => if bool_decide (of_buying o = buying /\ of_selling o = selling) then Some (e, o) else None
        | _ => None
        end
    | _ => None
    end) m).

Definition a_loadBestOffer (buying selling : Asset) (a : ATxn) : ltx (option LedgerEntry * ATxn) :=
  let? _ := a_unsealed a in
  if negb (match a_active a with [] => true | _ => false end) then Err ActiveEntries else
  match snapshot_best buying selling (a_map a) with
  | None => Ok (None, a)
  | Some (e, _) =>
      let? (_, a) := a_load true (LEDGER_ENTRY_KEY (LedgerEntryKey e)) a in Ok (Some e, a)
  end.

(** The entries that were touched carry the ledger they were closed in. *)
Definition a_seal (a : ATxn) : ATxn :=
  if a_sealed a then a
  else mkATxn
    (if a_stamps a
     then (fun p => (fst p, if set_mem (fst p) (a_touched a) then stamp (a_header a) (snd p) else snd p))
            <$> a_map a
     else a_map a)
    (a_touched a) (a_header a) false [] (a_stamps a) true.

(** The touched keys with what they have now and what they had, where there is
    something. *)
Definition a_delta (parent : Snapshot) (a : ATxn)
    : list (InternalLedgerKey * (option InternalLedgerEntry * option InternalLedgerEntry)) :=
  omap (fun k => pair k <$>
    match map_find k (a_map a), map_find k parent with
    | None, None => None
    | e, o => Some (e, o)
    end) (a_touched a).

Definition change_of (p : InternalLedgerKey * (option InternalLedgerEntry * option InternalLedgerEntry))
    : list LedgerEntryChange :=
  match p with
  | (LEDGER_ENTRY_KEY _, (Some (LEDGER_ENTRY e), None)) => [LEDGER_ENTRY_CREATED e]
  | (LEDGER_ENTRY_KEY _, (Some (LEDGER_ENTRY e), Some (LEDGER_ENTRY o))) =>
      [LEDGER_ENTRY_STATE o; LEDGER_ENTRY_UPDATED e]
  | (LEDGER_ENTRY_KEY k, (None, Some (LEDGER_ENTRY o))) => [LEDGER_ENTRY_STATE o; LEDGER_ENTRY_REMOVED k]
  | _ => []
  end.

Definition batch_of (d : list (InternalLedgerKey * (option InternalLedgerEntry * option InternalLedgerEntry)))
    : Batch :=
  {| initEntries := omap (fun p => match p with
       | (LEDGER_ENTRY_KEY _, (Some (LEDGER_ENTRY e), None)) => Some e | _ => None end) d;
     liveEntries := omap (fun p => match p with
       | (LEDGER_ENTRY_KEY _, (Some (LEDGER_ENTRY e), Some _)) => Some e | _ => None end) d;
     deadEntries := omap (fun p => match p with
       | (LEDGER_ENTRY_KEY k, (None, Some _)) => Some k | _ => None end) d |}.

Definition isLedgerKey (k : InternalLedgerKey) : bool :=
  match k with LEDGER_ENTRY_KEY _ => true | _ => false end.

Definition abs_onTop {A} (withChild : ltx_error) (depth : nat)
    (f : Snapshot -> LedgerHeader -> ATxn -> ltx (A * ATxn)) (s : ALedger) : ltx (A * ALedger) :=
  match al_txns s with
  | [] => Err NoTransaction
  | a :: l =>
      if (length (a :: l) <=? depth)%nat then Err NoTransaction
      else if (0 <? depth)%nat then Err withChild
      else
        let parent := match l with [] => al_map s | p :: _ => a_map p end in
        let header := match l with [] => al_header s | p :: _ => a_header p end in
        let? (x, a) := f parent header a in
        Ok (x, {| al_map := al_map s; al_header := al_header s; al_writable := al_writable s;
                  al_txns := a :: l |})
  end.

Definition abs_open (depth : nat) (stamps writable : bool) (s : ALedger) : ltx ALedger :=
  match al_txns s with
  | [] => Ok {| al_map := al_map s; al_header := al_header s; al_writable := writable;
                al_txns := [mkATxn (al_map s) [] (al_header s) false [] stamps false] |}
  | a :: l =>
      if (0 <? depth)%nat then Err HasChild
      else
        let? _ := a_unsealed a in
        Ok {| al_map := al_map s; al_header := al_header s; al_writable := al_writable s;
              al_txns := mkATxn (a_map a) [] (a_header a) false [] stamps false ::
                         a_set_header (a_header a) false (a_set_active [] a) :: l |}
  end.

Definition abs_commit (depth : nat) (s : ALedger) : ltx ALedger :=
  match al_txns s with
  | [] => Err NoTransaction
  | a :: l =>
      if (length (a :: l) <=? depth)%nat then Err NoTransaction
      else if (0 <? depth)%nat then Err (Aborts SealHasChild)
      else
        let a := a_seal a in
        match l with
        | [] =>
            if al_writable s
            then Ok {| al_map := filter (fun p => isLedgerKey (fst p) = true) (a_map a);
                       al_header := a_header a; al_writable := false; al_txns := [] |}
            else Err (Aborts RootReadOnly)
        | p :: l' =>
            Ok {| al_map := al_map s; al_header := al_header s; al_writable := al_writable s;
                  al_txns := mkATxn (a_map a) (foldr set_insert (a_touched p) (a_touched a)) (a_header a)
                               false [] (a_stamps p) false :: l' |}
        end
  end.

Definition abs_rollback (depth : nat) (s : ALedger) : ltx ALedger :=
  if (length (al_txns s) <=? depth)%nat then Err NoTransaction else
  let l := drop (S depth) (al_txns s) in
  Ok {| al_map := al_map s; al_header := al_header s;
        al_writable := match l with [] => false | _ => al_writable s end; al_txns := l |}.

Definition abs_exec (op : LtxOp) (s : ALedger) : ltx (LtxRet * ALedger) :=
  match op with
  | OpOpen d u w => let? s := abs_open d u w s in Ok (RetUnit, s)
  | OpCreate d e => returns (fun _ => RetUnit) (abs_onTop HasChild d (fun _ _ => a_create e) s)
  | OpLoad d k => returns RetEntry (abs_onTop HasChild d (fun _ _ => a_load true k) s)
  | OpLoadWithoutRecord d k => returns RetEntry (abs_onTop HasChild d (fun _ _ => a_load false k) s)
  | OpErase d k => returns (fun _ => RetUnit) (abs_onTop HasChild d (fun _ _ => a_erase k) s)
  | OpAssign e => returns (fun _ => RetUnit) (abs_onTop HasChild 0 (fun _ _ => a_assign e) s)
  | OpDeactivate k => returns (fun _ => RetUnit) (abs_onTop HasChild 0 (fun _ _ => a_deactivate k) s)
  | OpLoadHeader d => returns RetHeader (abs_onTop HasChild d (fun _ _ => a_loadHeader) s)
  | OpAssignHeader h => returns (fun _ => RetUnit) (abs_onTop HasChild 0 (fun _ _ => a_assignHeader h) s)
  | OpDeactivateHeader => returns (fun _ => RetUnit) (abs_onTop HasChild 0 (fun _ _ => a_deactivateHeader) s)
  | OpLoadBestOffer d b sl => returns RetOffer (abs_onTop HasChild d (fun _ _ => a_loadBestOffer b sl) s)
  | OpHasSponsorshipEntry d =>
      returns RetBool (abs_onTop HasChild d (fun parent _ a =>
        Ok (existsb (fun p => negb (isLedgerKey (fst p))) (a_delta parent a), a)) s)
  | OpGetChanges d =>
      returns RetChanges (abs_onTop (Aborts SealHasChild) d (fun parent _ a =>
        let a := a_seal a in Ok (concat (change_of <$> a_delta parent a), a)) s)
  | OpGetDelta d =>
      returns (fun x => RetDelta (fst x) (snd x)) (abs_onTop (Aborts SealHasChild) d (fun parent header a =>
        let a := a_seal a in Ok (a_delta parent a, (a_header a, header), a)) s)
  | OpGetAllEntries d =>
      returns RetBatch (abs_onTop (Aborts SealHasChild) d (fun parent _ a =>
        let a := a_seal a in Ok (batch_of (a_delta parent a), a)) s)
  | OpUnsealHeader d f => returns (fun _ => RetUnit) (abs_onTop NotSealed d (fun _ _ => a_unsealHeader f) s)
  | OpCommit d => let? s := abs_commit d s in Ok (RetUnit, s)
  | OpRollback d => let? s := abs_rollback d s in Ok (RetUnit, s)
  end.

(** ** Runs *)

(** The results of a sequence of operations: an exception leaves the state as
    it was, an abort ends the run. *)
Section runs.
Context {S : Type} (step : LtxOp -> S -> ltx (LtxRet * S)).

Fixpoint run (ops : list LtxOp) (s : S) : list (ltx LtxRet) * S :=
  match ops with
  | [] => ([], s)
  | op :: ops' =>
      match step op s with
      | Ok (x, s') => let '(xs, s'') := run ops' s' in (Ok x :: xs, s'')
      | Err (Aborts r) => ([Err (Aborts r)], s)
      | Err e => let '(xs, s'') := run ops' s in (Err e :: xs, s'')
      end
  end.
End runs.
