(* ===== verification/LedgerTxnTheorems.v ===== *)
(** * What nested ledger transactions do

    The recorded versions of a transaction (created, live or deleted) against
    the state of its parent, and the refinement of the whole stack by a stack of
    complete states. *)
From stdpp Require Import base tactics list numbers sets.
From Stdlib Require Import ZArith Lia Bool.
From S2P Require Import Prelude Containers OfferExchange LedgerEntries Float64 Bucket BucketMerge LedgerTxn LedgerTxnSpec.

Open Scope Z_scope.
Open Scope kin_scope.

Lemma internal_code_inj (a b : InternalLedgerKey) : internal_code a = internal_code b -> a = b.
Proof.
  destruct a, b; simpl; intros H; simplify_eq; try done. f_equal. by apply key_code_inj.
Qed.

#[global] Instance TotalLt_InternalLedgerKey : TotalLt InternalLedgerKey.
Proof.
  split; unfold ltb, LtB_InternalLedgerKey.
  - intros x. apply ltb_irrefl.
  - intros x y z. apply ltb_trans.
  - intros x y ??. by apply internal_code_inj, ltb_total.
Qed.

(** ** Versions over a parent *)

Definition View : Type := InternalLedgerKey -> option InternalLedgerEntry.

Definition overlay (m : EntryMap) (f : View) : View := fun k =>
  match map_find k m with Some p => ptr_get p | None => f k end.

(** A version recorded over what the parent has. *)
Definition version_ok (f : View) (k : InternalLedgerKey) (p : LedgerEntryPtr) : Prop :=
  match p with
  | INIT e => f k = None /\ toKey e = k
  | LIVE e => is_Some (f k) /\ toKey e = k
  | DELETED => is_Some (f k)
  end.

(** The version of an entry that was [old] and is [new]. *)
Definition version_of (old new : option InternalLedgerEntry) : option LedgerEntryPtr :=
  match old, new with
  | None, None => None
  | None, Some e => Some (INIT e)
  | Some _, Some e => Some (LIVE e)
  | Some _, None => Some DELETED
  end.

Definition versions_ok (f : View) (m : EntryMap) : Prop :=
  ordered m /\ forall k p, map_find k m = Some p -> version_ok f k p.

(** A change that can be made where the key has the state [cur]. *)
Definition change_ok (cur : option InternalLedgerEntry) (k : InternalLedgerKey) (p : LedgerEntryPtr)
    : Prop :=
  match p with
  | INIT e => cur = None /\ toKey e = k
  | LIVE e => is_Some cur /\ toKey e = k
  | DELETED => is_Some cur
  end.

(** Cases on what the parent has. *)
Ltac parent_cases :=
  destruct_and?;
  repeat match goal with H : is_Some (_ _) |- _ => destruct H | H : is_Some None |- _ => by destruct H end.

Ltac parent_rewrite :=
  repeat match goal with
  | H : ?f ?k = Some _ |- context [version_of (?f ?k) _] => rewrite H
  | H : ?f ?k = None |- context [version_of (?f ?k) _] => rewrite H
  end.

Lemma version_of_get (f : View) (k : InternalLedgerKey) (p : LedgerEntryPtr) :
  version_ok f k p -> version_of (f k) (ptr_get p) = Some p.
Proof.
  destruct p; simpl; intros H; parent_cases; by parent_rewrite.
Qed.

Lemma versions_ok_set (f : View) (m : EntryMap) (k : InternalLedgerKey) (p : LedgerEntryPtr) :
  versions_ok f m -> version_ok f k p -> versions_ok f (map_set k p m).
Proof.
  intros [Ho Hm] Hp. split; [by apply ordered_map_set|]. intros k' p'. rewrite map_find_set.
  destruct (eqb_of k' k) eqn:E; [|by apply Hm]. apply eqb_of_true in E as ->. by intros [= <-].
Qed.

(** Recording a change makes it, whatever was recorded. *)
Lemma recordEntry_ok (f : View) (m : EntryMap) (k : InternalLedgerKey) (p : LedgerEntryPtr) :
  versions_ok f m -> change_ok (overlay m f k) k p ->
  exists m', recordEntry k p m = Ok m' /\ ordered m' /\
    forall k', map_find k' m' = if decide (k' = k) then version_of (f k) (ptr_get p) else map_find k' m.
Proof.
  intros Hm Hp. unfold recordEntry. unfold overlay in Hp at 1.
  assert (forall p', version_of (f k) (ptr_get p) = Some p' ->
    exists m', Ok (E := ltx_error) (map_set k p' m) = Ok m' /\ ordered m' /\
      forall k', map_find k' m' = if decide (k' = k) then version_of (f k) (ptr_get p) else map_find k' m)
    as Hset.
  { intros p' Hp'. eexists. split; [done|]. split; [by apply ordered_map_set, Hm|]. intros k'.
    rewrite map_find_set, Hp'. destruct (decide (k' = k)) as [->|Hne]; [by rewrite eqb_of_refl|].
    by rewrite (proj2 (eqb_of_false k' k) Hne). }
  destruct (map_find k m) as [q|] eqn:Hq; [|by apply Hset, version_of_get; destruct p].
  pose proof (proj2 Hm k q Hq) as Hqo.
  destruct q as [e|e|], p as [x|x|]; simpl in Hp, Hqo, Hset |- *;
    parent_cases; try congruence; try (apply Hset; by parent_rewrite).
  eexists. split; [done|]. split; [by apply ordered_map_erase, Hm|]. intros k'.
  rewrite map_find_erase by apply Hm.
  destruct (decide (k' = k)) as [->|Hne]; [by rewrite eqb_of_refl; parent_rewrite|].
  by rewrite (proj2 (eqb_of_false k' k) Hne).
Qed.

Lemma map_set_same (k : InternalLedgerKey) (p : LedgerEntryPtr) (m : EntryMap) :
  ordered m -> map_find k m = Some p -> map_set k p m = m.
Proof.
  intros Ho Hk. apply ordered_ext; [by apply ordered_map_set|done|]. intros k'. rewrite map_find_set.
  destruct (eqb_of k' k) eqn:E; [|done]. by apply eqb_of_true in E as ->.
Qed.

(** Recording again what is recorded changes nothing. *)
Lemma recordEntry_again (m : EntryMap) (k : InternalLedgerKey) (p : LedgerEntryPtr) :
  ordered m -> map_find k m = Some p -> isDeleted p = false -> recordEntry k p m = Ok m.
Proof.
  intros Ho Hk Hd. unfold recordEntry. rewrite Hk, Hd. simpl.
  destruct p; simpl in *; [| |done]; by rewrite map_set_same.
Qed.

Lemma offer_key_offer (e : InternalLedgerEntry) (s o : Z) :
  toKey e = LEDGER_ENTRY_KEY (OFFER_KEY s o) ->
  exists x, offer_of e = Some x /\ of_sellerID x = s /\ of_offerID x = o.
Proof.
  destruct e as [[? d ?]| |]; simpl; [|done..]. unfold LedgerEntryKey. simpl.
  destruct d; simpl; intros H; simplify_eq. eauto.
Qed.

Lemma ptr_offer_ok (k : InternalLedgerKey) (p : LedgerEntryPtr) :
  isOfferKey k = true -> (forall e, ptr_get p = Some e -> toKey e = k) ->
  ptr_offer p = Ok (match ptr_get p with Some e => offer_of e | None => None end).
Proof.
  intros Hk Hp. unfold ptr_offer. destruct (ptr_get p) as [e|] eqn:He; [|done].
  specialize (Hp e eq_refl). destruct k as [[]| |]; try done.
  by destruct (offer_key_offer e _ _ Hp) as (x&->&_).
Qed.

Lemma version_key (f : View) (m : EntryMap) (k : InternalLedgerKey) (p : LedgerEntryPtr) (e : InternalLedgerEntry) :
  versions_ok f m -> map_find k m = Some p -> ptr_get p = Some e -> toKey e = k.
Proof.
  intros [_ Hm] Hp He. specialize (Hm k p Hp). destruct p; simpl in *; simplify_eq; tauto.
Qed.

(** The order book after a change of an offer. *)
Definition new_book (k : InternalLedgerKey) (p : LedgerEntryPtr) (active : bool) (t : Txn) : MultiOrderBook :=
  match k with
  | LEDGER_ENTRY_KEY (OFFER_KEY _ _ as lk) =>
      let offer q := match ptr_get q with Some e => offer_of e | None => None end in
      let book := match map_find k (mEntry t) with
        | Some q => match offer q with
          | Some o => removeFromOrderBookIfExists o (mMultiOrderBook t) | None => mMultiOrderBook t end
        | None => mMultiOrderBook t end in
      match (if active then None else offer p) with Some o => addToOrderBook o lk book | None => book end
  | _ => mMultiOrderBook t
  end.

Lemma set_mMultiOrderBook_same (t : Txn) : set_mMultiOrderBook (mMultiOrderBook t) t = t.
Proof. by destruct t. Qed.

(** [updateEntry] records the version and keeps the book in step. *)
Lemma updateEntry_record (f : View) (k : InternalLedgerKey) (p : LedgerEntryPtr) (active : bool) (t : Txn)
    (m : EntryMap) :
  versions_ok f (mEntry t) -> (forall e, ptr_get p = Some e -> toKey e = k) ->
  recordEntry k p (mEntry t) = Ok m ->
  updateEntry k p active t = Ok (set_mEntry m (set_mMultiOrderBook (new_book k p active t) t)).
Proof.
  intros Hm Hp Hr. destruct (isOfferKey k) eqn:Hk.
  - destruct k as [[]| |]; try done. unfold updateEntry, new_book. rewrite Hr.
    assert (match map_find (LEDGER_ENTRY_KEY (OFFER_KEY sellerID offerID)) (mEntry t) with
      | Some q => ptr_offer q | None => Ok None end =
      Ok (match map_find (LEDGER_ENTRY_KEY (OFFER_KEY sellerID offerID)) (mEntry t) with
        | Some q => match ptr_get q with Some e => offer_of e | None => None end | None => None end)) as ->.
    { destruct (map_find _ _) as [q|] eqn:Hq; [|done].
      apply (ptr_offer_ok (LEDGER_ENTRY_KEY (OFFER_KEY sellerID offerID))); [done|].
      intros e He. by eapply version_key. }
    rewrite (ptr_offer_ok _ p Hk Hp). cbn [res_bind].
    by destruct active, (map_find _ _).
  - destruct k as [[]| |]; try done; unfold updateEntry, new_book; rewrite Hr; cbn [res_bind];
      by rewrite set_mMultiOrderBook_same.
Qed.

Lemma change_key (cur : option InternalLedgerEntry) (k : InternalLedgerKey) (p : LedgerEntryPtr)
    (e : InternalLedgerEntry) :
  change_ok cur k p -> ptr_get p = Some e -> toKey e = k.
Proof. destruct p; simpl; intros; simplify_eq; tauto. Qed.

Lemma updateEntry_ok (f : View) (k : InternalLedgerKey) (p : LedgerEntryPtr) (active : bool) (t : Txn) :
  versions_ok f (mEntry t) -> change_ok (overlay (mEntry t) f k) k p ->
  exists m, updateEntry k p active t = Ok (set_mEntry m (set_mMultiOrderBook (new_book k p active t) t)) /\
    ordered m /\
    forall k', map_find k' m = if decide (k' = k) then version_of (f k) (ptr_get p) else map_find k' (mEntry t).
Proof.
  intros Hm Hp. destruct (recordEntry_ok f (mEntry t) k p Hm Hp) as (m&Hr&Hm'&Hv). exists m.
  split; [|done]. apply (updateEntry_record f); [done| |done]. intros e. by eapply change_key.
Qed.

(** Refreshing a recorded version only touches the book. *)
Lemma updateEntry_again (f : View) (k : InternalLedgerKey) (p : LedgerEntryPtr) (active : bool) (t : Txn) :
  versions_ok f (mEntry t) -> map_find k (mEntry t) = Some p -> isDeleted p = false ->
  updateEntry k p active t = Ok (set_mMultiOrderBook (new_book k p active t) t).
Proof.
  intros Hm Hk Hd. rewrite (updateEntry_record f k p active t (mEntry t)).
  - by destruct t.
  - done.
  - intros e. by eapply version_key.
  - by apply recordEntry_again; [apply Hm| |].
Qed.

Definition refreshed (k : InternalLedgerKey) (active : bool) (t : Txn) : Txn :=
  match map_find k (mEntry t) with
  | Some p => set_mMultiOrderBook (new_book k p active t) t
  | None => t
  end.

Lemma updateEntryIfRecorded_ok (f : View) (k : InternalLedgerKey) (active : bool) (t : Txn) :
  versions_ok f (mEntry t) -> (forall p, map_find k (mEntry t) = Some p -> isDeleted p = false) ->
  updateEntryIfRecorded k active t = Ok (if isOfferKey k then refreshed k active t else t).
Proof.
  intros Hm Hd. unfold updateEntryIfRecorded, refreshed. destruct (isOfferKey k); simpl; [|done].
  destruct (map_find k (mEntry t)) as [p|] eqn:Hp; [|done]. by eapply updateEntry_again; [| |apply Hd].
Qed.

(** ** One transaction *)

(** The recorded versions are what distinguishes the copy of a transaction from
    the state of its parent, on the keys it touched. *)
Record core_sim (f : View) (t : Txn) (a : ATxn) : Prop := {
  cs_ordered : ordered (mEntry t);
  cs_map : ordered (a_map a);
  cs_touched : increasing (a_touched a);
  cs_entry : forall k, map_find k (mEntry t) =
    if decide (k ∈ a_touched a) then version_of (f k) (map_find k (a_map a)) else None;
  cs_rest : forall k, k ∉ a_touched a -> map_find k (a_map a) = f k;
  cs_keys : forall k e, map_find k (a_map a) = Some e -> toKey e = k;
  cs_header : a_header a = mHeader t;
  cs_headerActive : a_headerActive a = mActiveHeader t;
  cs_stamps : a_stamps a = mShouldUpdateLastModified t;
  cs_sealed : a_sealed a = mIsSealed t;
  cs_exact : mConsistency t = EXACT;
}.

(** An active entry exists; one that can be changed is recorded. *)
Record active_sim (t : Txn) (a : ATxn) : Prop := {
  as_active : a_active a = mActive t;
  as_exists : forall k kind, (k, kind) ∈ mActive t -> is_Some (map_find k (a_map a));
  as_recorded : forall k, (k, ActiveMutable) ∈ mActive t -> k ∈ a_touched a;
}.

Definition txn_sim (f : View) (t : Txn) (a : ATxn) : Prop := core_sim f t a /\ active_sim t a.

Lemma overlay_sim (f : View) (t : Txn) (a : ATxn) (k : InternalLedgerKey) :
  core_sim f t a -> overlay (mEntry t) f k = map_find k (a_map a).
Proof.
  intros Hs. unfold overlay. rewrite (cs_entry _ _ _ Hs). case_decide as Hk.
  - by destruct (f k), (map_find k (a_map a)).
  - by rewrite (cs_rest _ _ _ Hs).
Qed.

Lemma versions_sim (f : View) (t : Txn) (a : ATxn) : core_sim f t a -> versions_ok f (mEntry t).
Proof.
  intros Hs. split; [apply Hs|]. intros k p. rewrite (cs_entry _ _ _ Hs). case_decide as Hk; [|done].
  pose proof (cs_keys _ _ _ Hs k) as Hkey. unfold version_ok.
  destruct (f k), (map_find k (a_map a)) as [e|]; simpl; intros [= <-]; eauto.
Qed.

Lemma map_find_put (k k' : InternalLedgerKey) (e : option InternalLedgerEntry)
    (m : list (InternalLedgerKey * InternalLedgerEntry)) :
  ordered m -> map_find k' (put k e m) = if decide (k' = k) then e else map_find k' m.
Proof.
  intros Hm. destruct e; simpl; [rewrite map_find_set|rewrite map_find_erase by done];
    (destruct (decide (k' = k)) as [->|Hne]; [by rewrite eqb_of_refl|]);
    by rewrite (proj2 (eqb_of_false k' k) Hne).
Qed.

Lemma ordered_put (k : InternalLedgerKey) (e : option InternalLedgerEntry)
    (m : list (InternalLedgerKey * InternalLedgerEntry)) : ordered m -> ordered (put k e m).
Proof. destruct e; [apply ordered_map_set|apply ordered_map_erase]. Qed.

Lemma core_sim_active (f : View) (t : Txn) (a : ATxn) (l l' : list (InternalLedgerKey * ActiveKind)) :
  core_sim f t a -> core_sim f (set_mActive l t) (a_set_active l' a).
Proof. by intros []. Qed.

(** What is written is recorded. *)
Lemma sim_write (f : View) (k : InternalLedgerKey) (p : LedgerEntryPtr) (m : EntryMap) (b : MultiOrderBook)
    (t : Txn) (a : ATxn) :
  core_sim f t a -> (forall e, ptr_get p = Some e -> toKey e = k) -> ordered m ->
  (forall k', map_find k' m = if decide (k' = k) then version_of (f k) (ptr_get p) else map_find k' (mEntry t)) ->
  core_sim f (set_mEntry m (set_mMultiOrderBook b t)) (a_write k (ptr_get p) a).
Proof.
  intros Hs Hp Ho Hm. pose proof Hs as []. split; try done; simpl.
  - by apply ordered_put.
  - by apply increasing_set_insert.
  - intros k'. rewrite Hm, cs_entry0, map_find_put by done. destruct (decide (k' = k)) as [->|Hne].
    + rewrite decide_True; [done|]. apply elem_of_set_insert. auto.
    + apply decide_ext. rewrite elem_of_set_insert. tauto.
  - intros k' Hk'. rewrite elem_of_set_insert in Hk'. rewrite map_find_put by done.
    rewrite decide_False by tauto. apply cs_rest0. tauto.
  - intros k' e. rewrite map_find_put by done. case_decide as E; [|apply cs_keys0]. subst k'. apply Hp.
Qed.

Lemma updateEntry_sim (f : View) (k : InternalLedgerKey) (p : LedgerEntryPtr) (active : bool) (t : Txn)
    (a : ATxn) :
  core_sim f t a -> change_ok (map_find k (a_map a)) k p ->
  exists m, updateEntry k p active t = Ok (set_mEntry m (set_mMultiOrderBook (new_book k p active t) t)) /\
    core_sim f (set_mEntry m (set_mMultiOrderBook (new_book k p active t) t)) (a_write k (ptr_get p) a).
Proof.
  intros Hs Hp. rewrite <- (overlay_sim f t a) in Hp by done.
  destruct (updateEntry_ok f k p active t) as (m&Hu&Ho&Hm); [by eapply versions_sim|done|].
  exists m. split; [done|]. apply sim_write; try done. intros e. by eapply change_key.
Qed.

(** ** The operations on one transaction *)

Definition sim_res {A T U : Type} (R : T -> U -> Prop) (x : ltx (A * T)) (y : ltx (A * U)) : Prop :=
  match x, y with
  | Ok (v, t), Ok (w, a) => v = w /\ R t a
  | Err e, Err e' => e = e'
  | _, _ => False
  end.

Lemma active_find_elem (k : InternalLedgerKey) (l : list (InternalLedgerKey * ActiveKind)) (x : ActiveKind) :
  active_find k l = Some x -> (k, x) ∈ l.
Proof.
  unfold active_find. intros ([k' y]&Hf&->)%fmap_Some. apply find_some in Hf as [Hin Hk].
  simpl in *. apply bool_decide_eq_true in Hk as ->. by apply list_elem_of_In.
Qed.

Lemma elem_of_active_erase (k k' : InternalLedgerKey) (x : ActiveKind) (l : list (InternalLedgerKey * ActiveKind)) :
  (k', x) ∈ active_erase k l <-> k' <> k /\ (k', x) ∈ l.
Proof. unfold active_erase. by rewrite list_elem_of_filter. Qed.

Lemma active_sim_set (t : Txn) (a : ATxn) (l : list (InternalLedgerKey * ActiveKind)) :
  a_active a = l -> mActive t = l ->
  (forall k kind, (k, kind) ∈ l -> is_Some (map_find k (a_map a)) /\ (kind = ActiveMutable -> k ∈ a_touched a)) ->
  active_sim t a.
Proof.
  intros Ha Ht Hl. split; [congruence| |]; rewrite Ht; [intros; by eapply Hl|].
  intros k Hk. by apply (Hl k ActiveMutable).
Qed.

Lemma active_sim_nil (t : Txn) (a : ATxn) : mActive t = [] -> a_active a = [] -> active_sim t a.
Proof. intros Ht Ha. apply (active_sim_set _ _ []); [done..|]. by intros k x Hk%elem_of_nil. Qed.

(** The active entries after a write that leaves [l] active. *)
Lemma active_write (k : InternalLedgerKey) (e : option InternalLedgerEntry) (t t' : Txn) (a : ATxn)
    (l : list (InternalLedgerKey * ActiveKind)) :
  ordered (a_map a) -> active_sim t a -> mActive t' = l ->
  (forall k' x, (k', x) ∈ l -> k' = k /\ is_Some e \/ k' <> k /\ (k', x) ∈ mActive t) ->
  active_sim t' (a_write k e (a_set_active l a)).
Proof.
  intros Ho [_ Hex Hrec] Ht' Hl. apply (active_sim_set _ _ l); [done..|]. intros k' x Hk'. simpl.
  rewrite map_find_put, elem_of_set_insert by done.
  destruct (Hl k' x Hk') as [[-> He]|[Hne Hin]].
  - rewrite decide_True by done. auto.
  - rewrite decide_False by done. split; [by eapply Hex|]. intros ->. right. by apply Hrec.
Qed.

Section txn.
Context (r : Root) (l : list Txn) (t : Txn) (a : ATxn).
Let f : View := getNewestVersion r l.
Context (Hs : txn_sim f t a).

Lemma newest_sim (k : InternalLedgerKey) : getNewestVersion r (t :: l) k = map_find k (a_map a).
Proof. apply (overlay_sim f t a k), Hs. Qed.

Lemma unsealed_sim : throwIfSealed t = a_unsealed a.
Proof. unfold throwIfSealed, a_unsealed. by rewrite (cs_sealed _ _ _ (proj1 Hs)). Qed.

Lemma active_key_exists (k : InternalLedgerKey) (x : ActiveKind) :
  active_find k (mActive t) = Some x -> is_Some (map_find k (a_map a)).
Proof. intros Hx%active_find_elem. by eapply as_exists; [apply Hs|]. Qed.

Lemma create_sim (e : InternalLedgerEntry) : sim_res (txn_sim f) (create e r l t) (a_create e a).
Proof.
  unfold create, a_create. rewrite unsealed_sim. destruct (a_unsealed a); [|done]. cbn [res_bind].
  rewrite newest_sim. destruct (map_find (toKey e) (a_map a)) as [x|] eqn:Hx; [done|].
  destruct Hs as [Hc Ha].
  destruct (updateEntry_sim f (toKey e) (INIT e) true (set_mActive ((toKey e, ActiveMutable) :: mActive t) t)
    (a_set_active ((toKey e, ActiveMutable) :: a_active a) a)) as (m&->&Hm);
    [by apply core_sim_active|by simpl|].
  cbn [res_bind]. split; [done|]. split; [done|]. rewrite (as_active _ _ Ha) in *.
  apply (active_write _ _ t); [apply Hc|done|done|].
  intros k' x [[= -> ->]|Hin]%elem_of_cons; [by left; eauto|]. right. split; [|done]. intros ->.
  destruct (as_exists _ _ Ha _ _ Hin) as [? Hy]. congruence.
Qed.

Lemma erase_sim (k : InternalLedgerKey) : sim_res (txn_sim f) (erase k r l t) (a_erase k a).
Proof.
  unfold erase, a_erase. rewrite unsealed_sim. destruct (a_unsealed a); [|done]. cbn [res_bind].
  rewrite newest_sim. destruct (map_find k (a_map a)) as [x|] eqn:Hx; [|done]. destruct Hs as [Hc Ha].
  destruct (updateEntry_sim f k DELETED false t a Hc) as (m&->&Hm); [by rewrite Hx; eexists|].
  cbn [res_bind]. split; [done|]. split.
  - by apply (core_sim_active _ _ _ (active_erase k (mActive t)) (active_erase k (a_active a))) in Hm.
  - rewrite (as_active _ _ Ha). apply (active_write _ _ t); [apply Hc|done|done|].
    intros k' y [Hne Hin]%elem_of_active_erase. auto.
Qed.

Definition current_version (k : InternalLedgerKey) (e : InternalLedgerEntry) : LedgerEntryPtr :=
  match map_find k (mEntry t) with Some p => p | None => LIVE e end.

Lemma current_version_get (k : InternalLedgerKey) (e : InternalLedgerEntry) :
  map_find k (a_map a) = Some e -> ptr_get (current_version k e) = Some e.
Proof.
  intros He. unfold current_version. rewrite (cs_entry _ _ _ (proj1 Hs)), He.
  destruct (decide (k ∈ a_touched a)); [by destruct (f k)|done].
Qed.
End txn.

(** Loading records what is there. *)
Lemma load_record (f : View) (k : InternalLedgerKey) (e : InternalLedgerEntry) (t : Txn) (a : ATxn) :
  core_sim f t a -> map_find k (a_map a) = Some e ->
  exists m, updateEntry k (current_version t k e) true t =
      Ok (set_mEntry m (set_mMultiOrderBook (new_book k (current_version t k e) true t) t)) /\
    core_sim f (set_mEntry m (set_mMultiOrderBook (new_book k (current_version t k e) true t) t))
      (a_write k (Some e) a).
Proof.
  intros Hs He. pose proof (cs_keys _ _ _ Hs k e He) as Hk. unfold current_version.
  destruct (map_find k (mEntry t)) as [p|] eqn:Hp.
  - assert (ptr_get p = Some e /\ version_of (f k) (Some e) = Some p) as [Hg Hv].
    { rewrite (cs_entry _ _ _ Hs), He in Hp. case_decide; [|done]. split; [|done].
      by destruct (f k); simplify_eq/=. }
    exists (mEntry t). assert (core_sim f (set_mEntry (mEntry t)
      (set_mMultiOrderBook (new_book k p true t) t)) (a_write k (ptr_get p) a)) as Hsim.
    { apply sim_write; [done|congruence|apply Hs|]. intros k'. case_decide as E; [|done]. subst k'.
      rewrite Hp. congruence. }
    rewrite Hg in Hsim. split; [|done].
    rewrite (updateEntry_again f); [by destruct t|by eapply versions_sim|done|by destruct p].
  - apply (updateEntry_sim f k (LIVE e) true t a); [done|]. rewrite He. simpl. eauto.
Qed.

(** Refreshing the order book changes nothing else. *)
Definition book_of (k : InternalLedgerKey) (active : bool) (t : Txn) : MultiOrderBook :=
  if isOfferKey k then mMultiOrderBook (refreshed k active t) else mMultiOrderBook t.

Lemma refresh_sim (f : View) (k : InternalLedgerKey) (active : bool) (t : Txn) (a : ATxn) :
  core_sim f t a -> is_Some (map_find k (a_map a)) ->
  updateEntryIfRecorded k active t = Ok (set_mMultiOrderBook (book_of k active t) t).
Proof.
  intros Hs [e He]. rewrite (updateEntryIfRecorded_ok f); [|by eapply versions_sim|].
  - unfold book_of, refreshed. destruct (isOfferKey k); [|by rewrite set_mMultiOrderBook_same].
    by destruct (map_find k (mEntry t)); [|rewrite set_mMultiOrderBook_same].
  - intros p. rewrite (cs_entry _ _ _ Hs), He. case_decide; [|done]. by destruct (f k); intros [= <-].
Qed.

Lemma core_sim_book (f : View) (t : Txn) (a : ATxn) (b : MultiOrderBook) :
  core_sim f t a -> core_sim f (set_mMultiOrderBook b t) a.
Proof. by intros []. Qed.
#[local] Hint Resolve core_sim_book core_sim_active : core.

Section txn2.
Context (r : Root) (l : list Txn) (t : Txn) (a : ATxn).
Let f : View := getNewestVersion r l.
Context (Hs : txn_sim f t a).

Lemma load_sim (k : InternalLedgerKey) : sim_res (txn_sim f) (load k r l t) (a_load true k a).
Proof.
  unfold load, a_load. rewrite (unsealed_sim _ _ _ _ Hs). destruct (a_unsealed a); [|done]. cbn [res_bind].
  destruct Hs as [Hc Ha]. rewrite (as_active _ _ Ha).
  destruct (active_find k (mActive t)) as [x|] eqn:Hx; [done|].
  rewrite (newest_sim _ _ _ _ Hs). destruct (map_find k (a_map a)) as [e|] eqn:He; [|done].
  destruct (load_record f k e (set_mActive ((k, ActiveMutable) :: mActive t) t)
    (a_set_active ((k, ActiveMutable) :: mActive t) a)) as (m&Hu&Hm); [by apply core_sim_active|done|].
  unfold current_version in *. simpl in Hu. rewrite Hu. cbn [res_bind]. split; [done|]. split; [done|].
  apply (active_write _ _ t); [apply Hc|done|done|].
  intros k' y [[= -> ->]|Hin]%elem_of_cons; [by left; eauto|].
  destruct (decide (k' = k)) as [->|Hne]; [|by right]. left; eauto.
Qed.

Lemma loadWithoutRecord_sim (k : InternalLedgerKey) :
  sim_res (txn_sim f) (loadWithoutRecord k r l t) (a_load false k a).
Proof.
  unfold loadWithoutRecord, a_load. rewrite (unsealed_sim _ _ _ _ Hs). destruct (a_unsealed a); [|done].
  cbn [res_bind]. destruct Hs as [Hc Ha]. rewrite (as_active _ _ Ha).
  destruct (active_find k (mActive t)) as [x|] eqn:Hx; [done|].
  rewrite (newest_sim _ _ _ _ Hs). destruct (map_find k (a_map a)) as [e|] eqn:He; [|done].
  rewrite (refresh_sim f k true _ (a_set_active ((k, ActiveConst) :: mActive t) a));
    [|by apply core_sim_active|by simpl; eauto].
  cbn [res_bind]. split; [done|]. split; [by apply core_sim_book, core_sim_active|].
  apply (active_sim_set _ _ ((k, ActiveConst) :: mActive t)); [done..|]. simpl.
  intros k' y [[= -> ->]|Hin]%elem_of_cons; [by rewrite He; eauto|].
  split; [by eapply as_exists|]. intros ->. by eapply as_recorded.
Qed.

Lemma deactivate_sim (k : InternalLedgerKey) :
  sim_res (txn_sim f) (silent (deactivate k) r l t) (a_deactivate k a).
Proof.
  unfold silent, deactivate, a_deactivate. destruct Hs as [Hc Ha]. rewrite (as_active _ _ Ha).
  destruct (active_find k (mActive t)) as [x|] eqn:Hx; [|done].
  rewrite (refresh_sim f k false t a) by (done || by eapply active_key_exists).
  cbn [res_bind]. split; [done|]. split; [by apply core_sim_active, core_sim_book|].
  apply (active_sim_set _ _ (active_erase k (mActive t))); [done..|].
  intros k' y [Hne Hin]%elem_of_active_erase. simpl. split; [by eapply as_exists|]. intros ->. by eapply as_recorded.
Qed.

Lemma assign_sim (e : InternalLedgerEntry) :
  sim_res (txn_sim f) (silent (assignCurrent (toKey e) e) r l t) (a_assign e a).
Proof.
  unfold silent, assignCurrent, a_assign. destruct Hs as [Hc Ha]. rewrite (as_active _ _ Ha).
  destruct (active_find (toKey e) (mActive t)) as [[]|] eqn:Hx; [|done..].
  apply active_find_elem in Hx.
  destruct (as_exists _ _ Ha _ _ Hx) as [o Ho]. pose proof (as_recorded _ _ Ha _ Hx) as Ht.
  assert (forall p, version_of (f (toKey e)) (Some e) = Some p -> txn_sim f
    (set_mEntry (map_set (toKey e) p (mEntry t)) t) (a_write (toKey e) (Some e) a)) as Hset.
  { intros p Hp. split.
    - assert (ptr_get p = Some e) as He by (by destruct (f (toKey e)); simplify_eq/=).
      rewrite <- He. pose proof (sim_write f (toKey e) p (map_set (toKey e) p (mEntry t)) (mMultiOrderBook t) t a)
        as Hw. rewrite set_mMultiOrderBook_same in Hw. apply Hw; [done|congruence| |].
      + by apply ordered_map_set, Hc.
      + intros k'. rewrite map_find_set, He, Hp. destruct (decide (k' = toKey e)) as [->|Hne];
          [by rewrite eqb_of_refl|]. by rewrite (proj2 (eqb_of_false _ _) Hne).
    - replace (a_write (toKey e) (Some e) a) with (a_write (toKey e) (Some e) (a_set_active (mActive t) a))
        by (by rewrite <- (as_active _ _ Ha); destruct a).
      apply (active_write _ _ t); [apply Hc|done|done|].
      intros k' y Hin. destruct (decide (k' = toKey e)); [left; eauto|by right]. }
  rewrite (cs_entry _ _ _ Hc), decide_True, Ho by done.
  destruct (f (toKey e)) as [q|] eqn:Hf; simpl; (split; [done|]); apply Hset; done.
Qed.
End txn2.

(** ** Sealing and what has changed *)

Lemma map_find_fmap {K V W : Type} `{TotalLt K} (g : K -> V -> W) (k : K) (m : list (K * V)) :
  map_find k ((fun p => (fst p, g (fst p) (snd p))) <$> m) = g k <$> map_find k m.
Proof.
  induction m as [|[k1 v] m IH]; [done|]. rewrite fmap_cons. simpl. destruct (eqb_of k k1) eqn:E; [|done].
  by apply eqb_of_true in E as ->.
Qed.

Lemma ordered_fmap {K V W : Type} `{TotalLt K} (g : K -> V -> W) (m : list (K * V)) :
  ordered m -> ordered ((fun p => (fst p, g (fst p) (snd p))) <$> m).
Proof.
  unfold ordered, map_keys. intros Hm. rewrite <- list_fmap_compose.
  by rewrite (list_fmap_ext _ fst m) by done.
Qed.

Lemma map_find_omap {K V : Type} `{TotalLt K} (g : K -> option V) (k : K) (l : list K) :
  increasing l -> map_find k (omap (fun k => pair k <$> g k) l) = if set_mem k l then g k else None.
Proof.
  induction l as [|x l IH]; intros Hl; [done|]. inversion Hl as [|? ? Hl' Hall]; subst. simpl.
  specialize (IH Hl'). destruct (eqb_of k x) eqn:E; simpl.
  - apply eqb_of_true in E as ->. destruct (g x); simpl; [by rewrite eqb_of_refl|]. etransitivity; [exact IH|].
    assert (set_mem x l = false) as ->; [|done]. apply set_mem_false. intros Hx.
    rewrite Forall_forall in Hall. apply Hall in Hx. by rewrite ltb_irrefl in Hx.
  - destruct (g x); simpl; [by rewrite E|done].
Qed.

Lemma ordered_omap {K V : Type} `{TotalLt K} (g : K -> option V) (l : list K) :
  increasing l -> ordered (omap (fun k => pair k <$> g k) l).
Proof.
  unfold ordered, map_keys. induction l as [|x l IH]; intros Hl; [constructor|].
  inversion Hl as [|? ? Hl' Hall]; subst. simpl. destruct (g x); simpl; [|by apply IH].
  constructor; [by apply IH|]. rewrite Forall_forall in Hall |- *. intros y Hy. apply Hall.
  apply list_elem_of_fmap in Hy as ([y' w]&->&Hy). apply list_elem_of_omap in Hy as (z&Hz&Hw).
  destruct (g z); by simplify_eq/=.
Qed.

Lemma toKey_stamp (h : LedgerHeader) (e : InternalLedgerEntry) : toKey (stamp h e) = toKey e.
Proof. by destruct e. Qed.

Lemma version_stamp (h : LedgerHeader) (o e : option InternalLedgerEntry) :
  stampPtr h <$> version_of o e = version_of o (stamp h <$> e).
Proof. by destruct o, e. Qed.

Lemma stamp_find (a : ATxn) (k : InternalLedgerKey) :
  map_find k ((fun p => (fst p, if set_mem (fst p) (a_touched a) then stamp (a_header a) (snd p) else snd p))
    <$> a_map a) =
  if decide (k ∈ a_touched a) then stamp (a_header a) <$> map_find k (a_map a) else map_find k (a_map a).
Proof.
  pose proof (map_find_fmap (fun k e => if set_mem k (a_touched a) then stamp (a_header a) e else e) k (a_map a))
    as ->. case_decide as Hk.
  - apply set_mem_true in Hk as ->. done.
  - apply set_mem_false in Hk as ->. by destruct (map_find k (a_map a)).
Qed.

Lemma seal_sim (f : View) (t : Txn) (a : ATxn) : txn_sim f t a -> txn_sim f (seal t) (a_seal a).
Proof.
  intros [Hc Ha]. unfold seal, a_seal. rewrite (cs_sealed _ _ _ Hc).
  destruct (mIsSealed t) eqn:Hsealed; [done|]. split; [|by apply active_sim_nil].
  pose proof Hc as []. split; try done; unfold maybeUpdateLastModified; rewrite ?cs_stamps0; simpl.
  - destruct (mShouldUpdateLastModified t); [|done]. by apply (ordered_fmap (fun _ => stampPtr (mHeader t))).
  - destruct (mShouldUpdateLastModified t); [|done].
    by apply (ordered_fmap (fun k e => if set_mem k (a_touched a) then stamp (a_header a) e else e)).
  - intros k. destruct (mShouldUpdateLastModified t); simpl; [|done]. rewrite stamp_find, <- cs_header0.
    rewrite (map_find_fmap (fun _ => stampPtr (a_header a))), cs_entry0. case_decide; [|done].
    apply version_stamp.
  - intros k Hk. destruct (mShouldUpdateLastModified t); [|by apply cs_rest0].
    rewrite stamp_find, decide_False by done. by apply cs_rest0.
  - intros k e. destruct (mShouldUpdateLastModified t); [|by apply cs_keys0].
    rewrite stamp_find. case_decide; [|by apply cs_keys0].
    intros (x&Hx&->)%fmap_Some. rewrite toKey_stamp. by apply cs_keys0.
  - destruct (mShouldUpdateLastModified t) eqn:?; simpl; congruence.
  - destruct (mShouldUpdateLastModified t) eqn:?; simpl; congruence.
  - destruct (mShouldUpdateLastModified t) eqn:?; simpl; congruence.
Qed.

(** What is recorded, with what the parent has, is the difference. *)
Definition recorded_delta (f : View) (m : EntryMap) :=
  (fun p => (fst p, (ptr_get (snd p), f (fst p)))) <$> m.

Lemma delta_sim (f : View) (parent : list (InternalLedgerKey * InternalLedgerEntry)) (t : Txn) (a : ATxn) :
  core_sim f t a -> (forall k, map_find k parent = f k) ->
  recorded_delta f (mEntry t) = a_delta parent a.
Proof.
  intros Hs Hp. apply ordered_ext.
  - apply (ordered_fmap (fun k p => (ptr_get p, f k))), Hs.
  - apply ordered_omap, Hs.
  - intros k. unfold recorded_delta. rewrite (map_find_fmap (fun k p => (ptr_get p, f k))).
    unfold a_delta.
    rewrite (map_find_omap (fun k => match map_find k (a_map a), map_find k parent with
      | None, None => None | e, o => Some (e, o) end)) by apply Hs.
    rewrite (cs_entry _ _ _ Hs), Hp. case_decide as Hk.
    + apply set_mem_true in Hk as ->. by destruct (map_find k (a_map a)), (f k).
    + apply set_mem_false in Hk as ->. done.
Qed.

Definition view_ok (f : View) : Prop := forall k e, f k = Some e -> toKey e = k.

Lemma toKey_ledger (e : InternalLedgerEntry) (k : LedgerKey) :
  toKey e = LEDGER_ENTRY_KEY k -> exists x, e = LEDGER_ENTRY x.
Proof. destruct e; [eauto|done..]. Qed.

Lemma entryChanges_delta (r : Root) (l : list Txn) (m : EntryMap) :
  view_ok (getNewestVersion r l) -> versions_ok (getNewestVersion r l) m ->
  entryChanges r l m = Ok (concat (change_of <$> recorded_delta (getNewestVersion r l) m)).
Proof.
  intros Hf [Ho Hm]. set (f := getNewestVersion r l) in *.
  assert (forall k p, (k, p) ∈ m -> version_ok f k p) as Hall by (intros; by apply Hm, map_find_elem).
  clear Ho Hm. induction m as [|[k p] m IH]; [done|].
  unfold recorded_delta in *. rewrite !fmap_cons. cbn [concat fst snd].
  assert (version_ok f k p) as Hp by (apply Hall; set_solver).
  specialize (IH ltac:(intros; apply Hall; set_solver)). destruct k as [k| |]; simpl; [|done..].
  fold f. rewrite IH. clear IH.
  destruct p as [e|e|]; simpl in Hp; destruct_and?.
  - destruct (toKey_ledger e k) as [x ->]; [done|]. replace (f (LEDGER_ENTRY_KEY k)) with (@None InternalLedgerEntry).
    done.
  - destruct (toKey_ledger e k) as [x ->]; [done|]. destruct H as [o Hfo]. rewrite Hfo.
    destruct (toKey_ledger o k) as [y ->]; [by apply Hf|]. done.
  - destruct Hp as [o Hfo]. rewrite Hfo. destruct (toKey_ledger o k) as [y ->]; [by apply Hf|]. done.
Qed.

Lemma classify_delta (f : View) (m : EntryMap) :
  versions_ok f m -> classify m = batch_of (recorded_delta f m).
Proof.
  intros [Ho Hm].
  assert (forall k p, (k, p) ∈ m -> version_ok f k p) as Hall by (intros; by apply Hm, map_find_elem).
  clear Ho Hm. induction m as [|[k p] m IH]; [done|]. unfold recorded_delta in *. rewrite fmap_cons.
  assert (version_ok f k p) as Hp by (apply Hall; set_solver).
  specialize (IH ltac:(intros; apply Hall; set_solver)). unfold batch_of in *.
  destruct k as [k| |]; simpl; [|by rewrite IH..]. rewrite IH. clear IH.
  destruct p as [e|e|]; simpl in Hp; destruct_and?.
  - destruct (toKey_ledger e k) as [x ->]; [done|]. replace (f (LEDGER_ENTRY_KEY k)) with (@None InternalLedgerEntry).
    done.
  - destruct (toKey_ledger e k) as [x ->]; [done|]. destruct H as [o Hfo]. by rewrite Hfo.
  - destruct Hp as [o Hfo]. by rewrite Hfo.
Qed.
