(* ===== verification/LedgerTxnOffers.v ===== *)
(** * The best offer of a ledger transaction

    The order books of the open transactions and the bounds they keep on their
    parents' offers, and that [getBestOffer] finds the best offer of the state
    the transactions make up together. *)
From stdpp Require Import base tactics list numbers sets sorting.
From Stdlib Require Import ZArith Lia Bool SpecFloat.
From S2P Require Import Prelude Containers OfferExchange LedgerEntries Float64 Bucket BucketMerge LedgerTxn LedgerTxnSpec LedgerTxnTheorems.

Open Scope Z_scope.
Open Scope kin_scope.

(** ** The order of offers *)

Definition price_ok (p : Price) : Prop := 0 < price_n p <= INT32_MAX /\ 0 < price_d p <= INT32_MAX.

Lemma price_double_finite (p : Price) :
  price_ok p -> exists m e, price_double p = S754_finite false m e.
Proof.
  intros [Hn Hd]. unfold price_double.
  destruct (f64_of_Z_spec (price_n p)) as (m1&e1&->&H1&He1&_); [unfold_ints; lia|].
  destruct (f64_of_Z_spec (price_d p)) as (m2&e2&->&H2&He2&_); [unfold_ints; lia|].
  destruct (f64_div_spec m1 m2 e1 e2) as (m&e&->&_); [lia..|]. eauto.
Qed.

(** Exponent, mantissa and identifier. *)
Definition offer_code (d : OfferDescriptor) : list Z :=
  match price_double (od_price d) with
  | S754_finite _ m e => [e; Zpos m; od_offerID d]
  | _ => []
  end.

Lemma isBetterOffer_code (d1 d2 : OfferDescriptor) :
  price_ok (od_price d1) -> price_ok (od_price d2) ->
  isBetterOffer d1 d2 = ltb (offer_code d1) (offer_code d2).
Proof.
  intros H1 H2. unfold isBetterOffer, offer_code.
  destruct (price_double_finite _ H1) as (m1&e1&->), (price_double_finite _ H2) as (m2&e2&->).
  unfold ltb, LtB_list. simpl. unfold SFltb, SFeqb, SFcompare, ltb, LtB_Z.
  destruct (Z.compare_spec e1 e2) as [->|Hlt|Hgt].
  - rewrite Z.ltb_irrefl. change (Pos.compare_cont Eq m1 m2) with (Pos.compare m1 m2).
    destruct (Pos.compare_spec m1 m2) as [->|Hm|Hm].
    + rewrite Z.ltb_irrefl.
      destruct (Z.ltb_spec (od_offerID d1) (od_offerID d2)), (Z.ltb_spec (od_offerID d2) (od_offerID d1)); done.
    + by rewrite (proj2 (Z.ltb_lt (Zpos m1) (Zpos m2))) by lia.
    + rewrite (proj2 (Z.ltb_ge (Zpos m1) (Zpos m2))) by lia.
      by rewrite (proj2 (Z.ltb_lt (Zpos m2) (Zpos m1))) by lia.
  - by rewrite (proj2 (Z.ltb_lt e1 e2)) by lia.
  - rewrite (proj2 (Z.ltb_ge e1 e2)) by lia. by rewrite (proj2 (Z.ltb_lt e2 e1)) by lia.
Qed.

Lemma offer_code_id (d1 d2 : OfferDescriptor) :
  price_ok (od_price d1) -> price_ok (od_price d2) -> offer_code d1 = offer_code d2 ->
  od_offerID d1 = od_offerID d2.
Proof.
  intros H1 H2. unfold offer_code.
  destruct (price_double_finite _ H1) as (m1&e1&->), (price_double_finite _ H2) as (m2&e2&->). congruence.
Qed.

Notation better x y := (isBetterOffer (descriptor x) (descriptor y)).

(** ** Order books as sorted lists *)

Section book.
Implicit Types (d : OfferDescriptor) (b : list (OfferDescriptor * LedgerKey)).

Definition desc_ok d : Prop := price_ok (od_price d).

Definition book_sorted b : Prop :=
  StronglySorted (fun x y => isBetterOffer (fst x) (fst y) = true) b /\ Forall (fun x => desc_ok (fst x)) b.

Definition same_place d d' : Prop := offer_code d = offer_code d'.

Lemma book_sorted_cons x b :
  book_sorted (x :: b) <-> desc_ok (fst x) /\ book_sorted b /\
    forall y, y ∈ b -> ltb (offer_code (fst x)) (offer_code (fst y)) = true.
Proof.
  unfold book_sorted. rewrite Forall_cons. split.
  - intros (Hs&Hx&Hb). inversion Hs as [|? ? Hs' Hall]; subst. split_and!; [done..|].
    rewrite Forall_forall in Hall, Hb. intros y Hy. rewrite <- isBetterOffer_code; [auto|done|by apply Hb].
  - intros (Hx&(Hs&Hb)&Hall). split; [|done]. constructor; [done|]. rewrite Forall_forall in Hb |- *.
    intros y Hy. rewrite isBetterOffer_code; [by apply Hall|done|by apply Hb].
Qed.

Lemma ob_erase_ok d b :
  desc_ok d -> book_sorted b ->
  book_sorted (ob_erase d b) /\ forall x, x ∈ ob_erase d b <-> x ∈ b /\ ~ same_place (fst x) d.
Proof.
  intros Hd. induction b as [|[d' k'] b IH]; intros Hb; [simpl; set_solver|].
  apply book_sorted_cons in Hb as (Hd'&Hb&Hall). simpl in *. specialize (IH Hb) as [IHs IHx].
  rewrite !isBetterOffer_code by done. unfold same_place in *.
  destruct (ltb (offer_code d) (offer_code d')) eqn:E1; [|destruct (ltb (offer_code d') (offer_code d)) eqn:E2].
  - split; [apply book_sorted_cons; done|]. intros x. split; [|tauto]. intros Hx. split; [done|].
    apply elem_of_cons in Hx as [->|Hx]; simpl; intros Heq.
    + rewrite Heq, ltb_irrefl in E1. done.
    + specialize (Hall _ Hx). rewrite Heq in Hall. by rewrite (ltb_asym _ _ Hall) in E1.
  - split.
    + apply book_sorted_cons. split_and!; [done..|]. intros y [Hy _]%IHx. by apply Hall.
    + intros x. rewrite !elem_of_cons, IHx. split; [|tauto]. intros [->|?]; [|tauto]. split; [auto|].
      simpl. intros Heq. by rewrite Heq, ltb_irrefl in E2.
  - pose proof (ltb_total _ _ E1 E2) as Heq. split; [done|]. intros x. rewrite elem_of_cons. split.
    + intros Hx. split; [auto|]. intros Heq'. specialize (Hall _ Hx). simpl in Hall.
      by rewrite Heq', Heq, ltb_irrefl in Hall.
    + intros [[->|?] Hne]; [|done]. simpl in Hne. congruence.
Qed.

Lemma ob_emplace_ok d (k : LedgerKey) b :
  desc_ok d -> book_sorted b -> (forall x, x ∈ b -> ~ same_place (fst x) d) ->
  book_sorted (ob_emplace d k b) /\ forall x, x ∈ ob_emplace d k b <-> x = (d, k) \/ x ∈ b.
Proof.
  intros Hd. induction b as [|[d' k'] b IH]; intros Hb Hno.
  { simpl. split; [|set_solver]. apply book_sorted_cons. split_and!; [done..|]. set_solver. }
  pose proof Hb as (Hd'&Hb'&Hall)%book_sorted_cons. simpl in *.
  destruct (IH Hb') as [IHs IHx]; [intros; apply Hno; set_solver|]. clear IH.
  rewrite !isBetterOffer_code by done. unfold same_place in *.
  destruct (ltb (offer_code d) (offer_code d')) eqn:E1; [|destruct (ltb (offer_code d') (offer_code d)) eqn:E2].
  - split; [|set_solver]. apply book_sorted_cons. split_and!; [done..|]. intros y [->|Hy]%elem_of_cons; [done|].
    by eapply ltb_trans; [|apply Hall].
  - split; [|set_solver]. apply book_sorted_cons. split_and!; [done..|].
    intros y [->|Hy]%IHx; [done|]. by apply Hall.
  - destruct (Hno (d', k')); [set_solver|]. simpl. symmetry. by apply ltb_total.
Qed.

(** The first element past a bound. *)
Lemma ob_upper_bound_ok d b :
  desc_ok d -> book_sorted b ->
  match ob_upper_bound d b with
  | Some x => x ∈ b /\ isBetterOffer d (fst x) = true /\
      forall y, y ∈ b -> isBetterOffer d (fst y) = true -> isBetterOffer (fst y) (fst x) = false
  | None => forall y, y ∈ b -> isBetterOffer d (fst y) = false
  end.
Proof.
  intros Hd. induction b as [|[d' k'] b IH]; intros Hb; [simpl; set_solver|].
  pose proof Hb as (Hd'&Hb'&Hall)%book_sorted_cons. specialize (IH Hb'). simpl in *.
  destruct (isBetterOffer d d') eqn:E.
  - split_and!; [set_solver|done|]. simpl. intros y [->|Hy]%elem_of_cons _; simpl.
    + rewrite isBetterOffer_code by done. apply ltb_irrefl.
    + destruct Hb as [_ Hok]. rewrite Forall_forall in Hok.
      rewrite isBetterOffer_code; [|apply Hok; set_solver|done]. by apply ltb_asym, Hall.
  - destruct (ob_upper_bound d b) as [x|].
    + destruct IH as (?&?&IH). split_and!; [set_solver|done|]. intros y [->|Hy]%elem_of_cons Hdy; [|by apply IH].
      simpl in Hdy. congruence.
    + intros y [->|Hy]%elem_of_cons; [done|by apply IH].
Qed.

Lemma book_head b :
  book_sorted b ->
  match head b with
  | Some x => x ∈ b /\ forall y, y ∈ b -> isBetterOffer (fst y) (fst x) = false
  | None => b = []
  end.
Proof.
  destruct b as [|[d' k'] b]; [done|]. intros Hb. pose proof Hb as (Hd'&Hb'&Hall)%book_sorted_cons.
  simpl. split; [set_solver|]. intros y [->|Hy]%elem_of_cons; simpl.
  - rewrite isBetterOffer_code by done. apply ltb_irrefl.
  - destruct Hb as [_ Hok]. rewrite Forall_forall in Hok.
    rewrite isBetterOffer_code; [|apply Hok; set_solver|done]. by apply ltb_asym, Hall.
Qed.
End book.

(** ** The order book of a transaction *)

(** The key of an offer, from its entry. *)
Lemma offer_toKey (e : InternalLedgerEntry) (o : OfferEntry) :
  offer_of e = Some o -> toKey e = LEDGER_ENTRY_KEY (OFFER_KEY (of_sellerID o) (of_offerID o)).
Proof.
  destruct e as [[? d ?]| |]; simpl; [|done..]. unfold LedgerEntryKey. simpl. destruct d; intros H; by simplify_eq/=.
Qed.

Lemma upd2_same {A} (b s : Asset) (x : A) (f : Asset -> Asset -> A) : upd2 b s x f b s = x.
Proof. unfold upd2. by rewrite decide_True. Qed.

Lemma upd2_other {A} (b s b' s' : Asset) (x : A) (f : Asset -> Asset -> A) :
  ~ (b' = b /\ s' = s) -> upd2 b s x f b' s' = f b' s'.
Proof. intros Hne. unfold upd2. by rewrite decide_False. Qed.

Section owner.
(** An offer identifier is given to one seller. *)
Context (owner : Z -> AccountID).

Definition offer_wf (o : OfferEntry) : Prop := of_sellerID o = owner (of_offerID o) /\ price_ok (of_price o).
Definition entry_wf (e : InternalLedgerEntry) : Prop := forall o, offer_of e = Some o -> offer_wf o.

Lemma same_place_key (o1 o2 : OfferEntry) (e1 e2 : InternalLedgerEntry) :
  offer_of e1 = Some o1 -> offer_of e2 = Some o2 -> offer_wf o1 -> offer_wf o2 ->
  same_place (descriptor o1) (descriptor o2) -> toKey e1 = toKey e2.
Proof.
  intros H1 H2 [Hs1 Hp1] [Hs2 Hp2] Hsame. apply offer_code_id in Hsame; [|done..]. simpl in Hsame.
  rewrite (offer_toKey _ _ H1), (offer_toKey _ _ H2). congruence.
Qed.

Definition entries_wf (m : EntryMap) : Prop :=
  forall k p e, map_find k m = Some p -> ptr_get p = Some e -> toKey e = k /\ entry_wf e.

(** The offer [k] is recorded with this descriptor, for this pair. *)
Definition recorded_offer (m : EntryMap) (b s : Asset) (d : OfferDescriptor) (k : LedgerKey) : Prop :=
  exists p e o, map_find (LEDGER_ENTRY_KEY k) m = Some p /\ ptr_get p = Some e /\ offer_of e = Some o /\
    of_buying o = b /\ of_selling o = s /\ descriptor o = d.

(** The books hold the recorded offers that are not active. *)
Definition book_inv (act : InternalLedgerKey -> Prop) (m : EntryMap) (B : MultiOrderBook) : Prop :=
  forall b s, book_sorted (B b s) /\
    forall d k, (d, k) ∈ B b s <-> recorded_offer m b s d k /\ ~ act (LEDGER_ENTRY_KEY k).

Lemma book_inv_ext (act act' : InternalLedgerKey -> Prop) (m m' : EntryMap) (B : MultiOrderBook) :
  book_inv act m B ->
  (forall b s d k, recorded_offer m b s d k /\ ~ act (LEDGER_ENTRY_KEY k) <->
     recorded_offer m' b s d k /\ ~ act' (LEDGER_ENTRY_KEY k)) ->
  book_inv act' m' B.
Proof. intros HB He b s. destruct (HB b s) as [Hs Hx]. split; [done|]. intros d k. by rewrite Hx. Qed.

(** Two recorded offers at the same place are one. *)
Lemma recorded_place (m : EntryMap) (b s : Asset) (d : OfferDescriptor) (k : LedgerKey) (o : OfferEntry)
    (e : InternalLedgerEntry) :
  entries_wf m -> recorded_offer m b s d k -> offer_of e = Some o -> offer_wf o ->
  same_place d (descriptor o) -> LEDGER_ENTRY_KEY k = toKey e.
Proof.
  intros Hm (p&e'&o'&Hp&He'&Ho'&_&_&<-) He Ho Hsame. destruct (Hm _ _ _ Hp He') as [<- Hwf].
  by apply (same_place_key o' o); [| |apply Hwf| |].
Qed.

(** Taking the offer of a key out of the books. *)
Lemma book_remove (act : InternalLedgerKey -> Prop) (m : EntryMap) (B : MultiOrderBook)
    (k : InternalLedgerKey) (e : InternalLedgerEntry) (p : LedgerEntryPtr) (o : OfferEntry) :
  book_inv act m B -> entries_wf m -> map_find k m = Some p -> ptr_get p = Some e -> offer_of e = Some o ->
  book_inv (fun k' => k' = k \/ act k') m (removeFromOrderBookIfExists o B).
Proof.
  intros HB Hm Hp He Ho b s. destruct (Hm _ _ _ Hp He) as [Hk Hwf]. specialize (Hwf o Ho).
  unfold removeFromOrderBookIfExists. destruct (decide (b = of_buying o /\ s = of_selling o)) as [[-> ->]|Hne].
  - rewrite upd2_same. destruct (HB (of_buying o) (of_selling o)) as [Hs Hx].
    destruct (ob_erase_ok (descriptor o) (B (of_buying o) (of_selling o))) as [Hs' Hx'];
      [apply Hwf|done|]. split; [done|]. intros d k'. rewrite Hx', Hx. simpl. split.
    + intros ((Hr&Ha)&Hne). split; [done|]. intros [<-|?]; [|done]. apply Hne.
      destruct Hr as (p'&e'&o'&Hp'&He'&Ho'&_&_&<-). simplify_eq. done.
    + intros (Hr&Ha). split; [tauto|]. intros Hsame. apply Ha. left.
      rewrite <- Hk. by eapply recorded_place.
  - rewrite upd2_other by done. destruct (HB b s) as [Hs Hx]. split; [done|]. intros d k'. rewrite Hx.
    split; [|tauto]. intros (Hr&Ha). split; [done|]. intros [Hk'|?]; [|done]. apply Hne.
    destruct Hr as (p'&e'&o'&Hp'&He'&Ho'&<-&<-&_). rewrite Hk' in Hp'. simplify_eq. done.
Qed.

(** Putting the offer of a key in, where the key is in no book. *)
Lemma book_add (act : InternalLedgerKey -> Prop) (m m' : EntryMap) (B : MultiOrderBook) (k : LedgerKey)
    (e : InternalLedgerEntry) (p : LedgerEntryPtr) (o : OfferEntry) :
  book_inv (fun k' => k' = LEDGER_ENTRY_KEY k \/ act k') m B -> entries_wf m ->
  toKey e = LEDGER_ENTRY_KEY k -> entry_wf e -> offer_of e = Some o ->
  (forall k', k' <> LEDGER_ENTRY_KEY k -> map_find k' m' = map_find k' m) ->
  map_find (LEDGER_ENTRY_KEY k) m' = Some p -> ptr_get p = Some e ->
  book_inv (fun k' => k' <> LEDGER_ENTRY_KEY k /\ act k') m' (addToOrderBook o k B).
Proof.
  intros HB Hm Hk Hwf Ho Hother Hp He b s. specialize (Hwf o Ho). unfold addToOrderBook.
  assert (forall b s d k', LEDGER_ENTRY_KEY k' <> LEDGER_ENTRY_KEY k ->
    recorded_offer m' b s d k' <-> recorded_offer m b s d k') as Hsame.
  { intros b' s' d k' Hne. unfold recorded_offer. by rewrite Hother by done. }
  assert (forall b s d, recorded_offer m' b s d k <->
    of_buying o = b /\ of_selling o = s /\ descriptor o = d) as Hself.
  { intros b' s' d. split; [|by intros; exists p, e, o].
    intros (p'&e'&o'&Hp'&He'&Ho'&?&?&?). simplify_eq. done. }
  destruct (decide (b = of_buying o /\ s = of_selling o)) as [[-> ->]|Hne].
  - rewrite upd2_same. destruct (HB (of_buying o) (of_selling o)) as [Hs Hx].
    destruct (ob_emplace_ok (descriptor o) k (B (of_buying o) (of_selling o))) as [Hs' Hx'];
      [apply Hwf|done| |].
    { intros [d k'] [Hr Ha]%Hx Hpl. apply Ha. left. rewrite <- Hk. by eapply recorded_place. }
    split; [done|]. intros d k'. rewrite Hx', Hx. clear Hx Hx'.
    destruct (decide (k' = k)) as [->|Hkne].
    + rewrite Hself. naive_solver.
    + rewrite Hsame by congruence. naive_solver.
  - rewrite upd2_other by done. destruct (HB b s) as [Hs Hx]. split; [done|]. intros d k'. rewrite Hx.
    destruct (decide (k' = k)) as [->|Hkne]; [rewrite Hself|rewrite Hsame by congruence]; naive_solver.
Qed.

(** A key without a recorded offer is in no book. *)
Lemma book_absent (act : InternalLedgerKey -> Prop) (m : EntryMap) (B : MultiOrderBook) (k : InternalLedgerKey) :
  book_inv act m B -> (forall b s d k', LEDGER_ENTRY_KEY k' = k -> ~ recorded_offer m b s d k') ->
  book_inv (fun k' => k' = k \/ act k') m B.
Proof.
  intros HB Hno. eapply book_inv_ext; [done|]. intros b s d k'. split; [|tauto]. intros [Hr Ha].
  split; [done|]. intros [Hk|?]; [|done]. by eapply Hno.
Qed.

(** The books without the key, after its version has changed. *)
Lemma book_carry (act act' : InternalLedgerKey -> Prop) (m m' : EntryMap) (B : MultiOrderBook) (k : InternalLedgerKey) :
  book_inv (fun k' => k' = k \/ act k') m B ->
  (forall k', k' <> k -> map_find k' m' = map_find k' m) ->
  (forall k', k' <> k -> act' k' <-> act k') ->
  act' k \/ (forall b s d k', LEDGER_ENTRY_KEY k' = k -> ~ recorded_offer m' b s d k') ->
  book_inv act' m' B.
Proof.
  intros HB Hother Hact Hk. eapply book_inv_ext; [exact HB|]. intros b s d k'.
  destruct (decide (LEDGER_ENTRY_KEY k' = k)) as [Hkk|Hne].
  - split; [tauto|]. intros [Hr Ha]. destruct Hk as [Hk|Hk]; [by rewrite Hkk in Ha|by destruct (Hk b s d k')].
  - unfold recorded_offer. rewrite Hother, Hact by done. tauto.
Qed.

(** The books once the recorded offer of the key is taken out. *)
Definition book_without (k : InternalLedgerKey) (t : Txn) : MultiOrderBook :=
  match map_find k (mEntry t) with
  | Some q => match (match ptr_get q with Some e => offer_of e | None => None end) with
    | Some o => removeFromOrderBookIfExists o (mMultiOrderBook t) | None => mMultiOrderBook t end
  | None => mMultiOrderBook t
  end.

Lemma book_without_inv (act : InternalLedgerKey -> Prop) (k : InternalLedgerKey) (t : Txn) :
  book_inv act (mEntry t) (mMultiOrderBook t) -> entries_wf (mEntry t) ->
  book_inv (fun k' => k' = k \/ act k') (mEntry t) (book_without k t).
Proof.
  intros HB Hm. unfold book_without. destruct (map_find k (mEntry t)) as [q|] eqn:Hq.
  - destruct (ptr_get q) as [e|] eqn:He; [destruct (offer_of e) as [o|] eqn:Ho|].
    + by eapply book_remove.
    + apply book_absent; [done|]. intros b s d k' <- (?&?&?&?&?&?&_). by simplify_eq.
    + apply book_absent; [done|]. intros b s d k' <- (?&?&?&?&?&?&_). by simplify_eq.
  - apply book_absent; [done|]. intros b s d k' <- (?&?&?&?&?&?&_). by simplify_eq.
Qed.

Lemma not_an_offer (m : EntryMap) (k : InternalLedgerKey) (b s : Asset) (d : OfferDescriptor) (k' : LedgerKey) :
  (forall q e, map_find k m = Some q -> ptr_get q = Some e -> toKey e = k) -> isOfferKey k = false ->
  LEDGER_ENTRY_KEY k' = k -> ~ recorded_offer m b s d k'.
Proof.
  intros Hm Hk <- (q&e&o&Hq&He&Ho&_). specialize (Hm q e Hq He). rewrite (offer_toKey _ _ Ho) in Hm.
  by rewrite <- Hm in Hk.
Qed.

(** A change of a recorded version, with the book kept in step. *)
Lemma new_book_inv (act : InternalLedgerKey -> Prop) (k : InternalLedgerKey) (p : LedgerEntryPtr) (active : bool)
    (t : Txn) (m : EntryMap) :
  book_inv act (mEntry t) (mMultiOrderBook t) -> entries_wf (mEntry t) ->
  (forall e, ptr_get p = Some e -> toKey e = k /\ entry_wf e) ->
  (forall k', k' <> k -> map_find k' m = map_find k' (mEntry t)) ->
  (forall e, (exists q, map_find k m = Some q /\ ptr_get q = Some e) <-> ptr_get p = Some e) ->
  book_inv (fun k' => k' = k /\ active = true \/ k' <> k /\ act k') m (new_book k p active t).
Proof.
  intros HB Hm Hp Hother Hself.
  assert (forall q e, map_find k m = Some q -> ptr_get q = Some e -> ptr_get p = Some e) as Hrec
    by (intros q e ??; apply Hself; eauto).
  destruct (isOfferKey k) eqn:Hk.
  - pose proof (book_without_inv act k t HB Hm) as HB1. destruct k as [k| |]; try done.
    replace (new_book (LEDGER_ENTRY_KEY k) p active t) with
      (match (if active then None else match ptr_get p with Some e => offer_of e | None => None end) with
       | Some o => addToOrderBook o k (book_without (LEDGER_ENTRY_KEY k) t)
       | None => book_without (LEDGER_ENTRY_KEY k) t end) by (by destruct k).
    destruct (if active then None else _) as [o|] eqn:Hnew.
    + destruct active; [done|]. destruct (ptr_get p) as [e|] eqn:He; [|done].
      destruct (proj2 (Hself e) eq_refl) as (q&Hq&Hqe). destruct (Hp e eq_refl) as [Hke Hwf].
      eapply book_inv_ext; [by eapply (book_add act (mEntry t) m)|]. naive_solver.
    + eapply book_carry; [done|done|naive_solver|]. destruct active; [by left; left|]. right.
      intros b s d k' [= ->] (q&e&o&Hq&He&Ho&_). rewrite (Hrec q e Hq He), Ho in Hnew. done.
  - replace (new_book k p active t) with (mMultiOrderBook t) by (by destruct k as [[]| |]).
    apply (book_carry act _ (mEntry t) _ _ k); [|done|naive_solver|].
    + apply book_absent; [done|]. intros b s d k'. apply not_an_offer; [|done].
      intros q e Hq He. by apply (Hm k q).
    + right. intros b s d k'. apply not_an_offer; [|done]. intros q e Hq He. by apply Hp, (Hrec q).
Qed.

(** ** The best offer of a state *)

Definition view_wf (v : View) : Prop := forall k e, v k = Some e -> toKey e = k /\ entry_wf e.

Definition view_offer (v : View) (b s : Asset) (e : LedgerEntry) (o : OfferEntry) : Prop :=
  v (LEDGER_ENTRY_KEY (LedgerEntryKey e)) = Some (LEDGER_ENTRY e) /\ le_data e = OFFER o /\
  of_buying o = b /\ of_selling o = s.

(** The best offer of the pair past a bound. *)
Definition is_best (v : View) (b s : Asset) (w : option OfferDescriptor) (res : option LedgerEntry) : Prop :=
  match res with
  | None => forall e o, view_offer v b s e o -> within w o = false
  | Some e => exists o, view_offer v b s e o /\ within w o = true /\
      forall e' o', view_offer v b s e' o' -> within w o' = true -> better o' o = false
  end.

Definition bound_ok (w : option OfferDescriptor) : Prop := match w with Some d => desc_ok d | None => True end.

Lemma view_offer_wf (v : View) (b s : Asset) (e : LedgerEntry) (o : OfferEntry) :
  view_wf v -> view_offer v b s e o -> offer_wf o.
Proof. intros Hv (He&Ho&_). apply (Hv _ _ He). simpl. by rewrite Ho. Qed.

Lemma better_irrefl (o : OfferEntry) : offer_wf o -> better o o = false.
Proof. intros [_ Ho]. rewrite isBetterOffer_code by done. apply ltb_irrefl. Qed.

Lemma better_asym (o1 o2 : OfferEntry) : offer_wf o1 -> offer_wf o2 -> better o1 o2 = true -> better o2 o1 = false.
Proof. intros [_ H1] [_ H2]. rewrite !isBetterOffer_code by done. apply ltb_asym. Qed.

Lemma better_trans (o1 o2 o3 : OfferEntry) :
  offer_wf o1 -> offer_wf o2 -> offer_wf o3 -> better o1 o2 = true -> better o2 o3 = true -> better o1 o3 = true.
Proof. intros [_ H1] [_ H2] [_ H3]. rewrite !isBetterOffer_code by done. apply ltb_trans. Qed.

(** Not better than what is not better. *)
Lemma better_false_trans (o1 o2 o3 : OfferEntry) :
  offer_wf o1 -> offer_wf o2 -> offer_wf o3 -> better o1 o2 = false -> better o2 o3 = false -> better o1 o3 = false.
Proof.
  intros [_ H1] [_ H2] [_ H3]. rewrite !isBetterOffer_code by done. intros H12 H23.
  destruct (ltb (offer_code (descriptor o1)) (offer_code (descriptor o3))) eqn:E; [|done].
  rewrite (ltb_le_trans (offer_code (descriptor o2)) (offer_code (descriptor o1))
    (offer_code (descriptor o3))) in H23 by done. done.
Qed.

(** Past an offer that is past the bound. *)
Lemma within_trans (w : option OfferDescriptor) (o o' : OfferEntry) :
  bound_ok w -> offer_wf o -> offer_wf o' -> within w o = true -> better o o' = true -> within w o' = true.
Proof.
  destruct w as [d|]; [|done]. simpl. intros Hd [_ Ho] [_ Ho'].
  rewrite !isBetterOffer_code by done. apply ltb_trans.
Qed.

Lemma is_best_unique (v : View) (b s : Asset) (w : option OfferDescriptor) (x y : option LedgerEntry) :
  view_wf v -> is_best v b s w x -> is_best v b s w y -> x = y.
Proof.
  intros Hv. destruct x as [e|], y as [e'|]; simpl; [|..|done].
  - intros (o&He&Hw&Hb) (o'&He'&Hw'&Hb'). specialize (Hb _ _ He' Hw'). specialize (Hb' _ _ He Hw).
    pose proof (view_offer_wf _ _ _ _ _ Hv He) as Hwf. pose proof (view_offer_wf _ _ _ _ _ Hv He') as Hwf'.
    rewrite isBetterOffer_code in Hb, Hb' by (apply Hwf || apply Hwf').
    destruct He as (He&Ho&_), He' as (He'&Ho'&_).
    assert (toKey (LEDGER_ENTRY e) = toKey (LEDGER_ENTRY e')) as Hk.
    { apply (same_place_key o o'); simpl; [by rewrite Ho|by rewrite Ho'|done..|]. by apply ltb_total. }
    simpl in Hk. rewrite Hk in He. congruence.
  - intros (o&He&Hw&_) Hno. by rewrite (Hno e o He) in Hw.
  - intros Hno (o&He&Hw&_). by rewrite (Hno e' o He) in Hw.
Qed.

Lemma best_of_ok (l : list (LedgerEntry * OfferEntry)) :
  (forall x, x ∈ l -> offer_wf (snd x)) ->
  match best_of l with
  | None => l = []
  | Some x => x ∈ l /\ forall y, y ∈ l -> better (snd y) (snd x) = false
  end.
Proof.
  induction l as [|x l IH]; intros Hwf; [done|]. simpl. specialize (IH ltac:(intros; apply Hwf; set_solver)).
  assert (offer_wf (snd x)) as Hx by (apply Hwf; set_solver).
  destruct (best_of l) as [y|]; [|subst l; split; [set_solver|]; intros z ->%list_elem_of_singleton;
    by apply better_irrefl].
  destruct IH as [Hy IH]. assert (offer_wf (snd y)) as Hywf by (apply Hwf; set_solver).
  destruct (better (snd y) (snd x)) eqn:E.
  - split; [set_solver|]. intros z [->|Hz]%elem_of_cons; [by apply better_asym|by apply IH].
  - split; [set_solver|]. intros z [->|Hz]%elem_of_cons; [by apply better_irrefl|].
    apply (better_false_trans _ (snd y)); [apply Hwf; set_solver|done|done|by apply IH|done].
Qed.

(** What the database has. *)
Definition root_ok (r : Root) : Prop :=
  ordered (root_entries r) /\
  forall k e, map_find k (root_entries r) = Some e -> LedgerEntryKey e = k /\ entry_wf (LEDGER_ENTRY e).

Lemma root_view_wf (r : Root) : root_ok r -> view_wf (root_newest r).
Proof.
  intros [_ Hr] [k| |] e; simpl; [|done..]. intros (x&Hx&->)%fmap_Some. destruct (Hr k x Hx) as [<- ?]. done.
Qed.

Lemma elem_of_db_offers (r : Root) (b s : Asset) (e : LedgerEntry) (o : OfferEntry) :
  root_ok r -> (e, o) ∈ db_offers b s (root_entries r) <-> view_offer (root_newest r) b s e o.
Proof.
  intros [Ho Hr]. unfold db_offers, view_offer, root_newest. rewrite list_elem_of_omap. split.
  - intros ([k x]&Hin&Hx). simpl in Hx. apply map_find_elem in Hin; [|done]. destruct (Hr k x Hin) as [<- _].
    destruct (le_data x) eqn:Hd; try done. case_bool_decide; simplify_eq. rewrite Hin. naive_solver.
  - intros (Hf&Hd&Hb&Hs). apply fmap_Some in Hf as (x&Hx&[= <-]). exists (LedgerEntryKey e, e).
    split; [by apply map_find_elem|]. simpl. rewrite Hd. by rewrite bool_decide_true by done.
Qed.

Lemma rootBest_ok (r : Root) (b s : Asset) (w : option OfferDescriptor) :
  root_ok r -> is_best (root_newest r) b s w (rootBestOffer b s w r).
Proof.
  intros Hr. unfold rootBestOffer.
  pose proof (best_of_ok (filter (fun p => within w (snd p) = true) (db_offers b s (root_entries r)))) as Hbest.
  destruct (best_of _) as [[e o]|]; simpl.
  - destruct Hbest as [Hin Hbest].
    { intros [e' o'] [_ Hin]%list_elem_of_filter. apply elem_of_db_offers in Hin; [|done].
      by eapply view_offer_wf; [apply root_view_wf|]. }
    apply list_elem_of_filter in Hin as [Hw Hin]. exists o. split; [by apply elem_of_db_offers|].
    split; [done|]. intros e' o' Ho' Hw'. apply (Hbest (e', o')). apply list_elem_of_filter.
    split; [done|]. by apply elem_of_db_offers.
  - intros e o Ho. apply not_true_is_false. intros Hw.
    assert ((e, o) ∈ filter (fun p => within w (snd p) = true) (db_offers b s (root_entries r))) as Hin.
    { apply list_elem_of_filter. split; [done|]. by apply elem_of_db_offers. }
    rewrite Hbest in Hin; [set_solver|]. intros [e' o'] [_ Hin']%list_elem_of_filter.
    apply elem_of_db_offers in Hin'; [|done]. by eapply view_offer_wf; [apply root_view_wf|].
Qed.

(** ** The offers of a transaction over its parent *)

Lemma filter_shorter {A} (P Q : A -> bool) (l : list A) (x : A) :
  (forall y, y ∈ l -> P y = true -> Q y = true) -> x ∈ l -> Q x = true -> P x = false ->
  (length (filter (fun y => P y = true) l) < length (filter (fun y => Q y = true) l))%nat.
Proof.
  intros HPQ Hx HQ HP. induction l as [|y l IH]; [by apply elem_of_nil in Hx|].
  rewrite !filter_cons.
  assert (length (filter (fun y => P y = true) l) <= length (filter (fun y => Q y = true) l))%nat as Hle.
  { clear -HPQ. induction l as [|z l IH]; [done|]. rewrite !filter_cons.
    specialize (IH ltac:(intros; apply HPQ; set_solver)).
    destruct (decide (P z = true)) as [Hz|]; [rewrite decide_True by (apply HPQ; [set_solver|done]); simpl; lia|].
    destruct (decide (Q z = true)); simpl; lia. }
  apply elem_of_cons in Hx as [<-|Hx].
  - rewrite decide_False, decide_True by congruence. simpl. lia.
  - specialize (IH ltac:(intros; apply HPQ; set_solver) Hx).
    destruct (decide (P y = true)) as [Hy|]; [rewrite decide_True by (apply HPQ; [set_solver|done]); simpl; lia|].
    destruct (decide (Q y = true)); simpl; lia.
Qed.

Section layer.
Context (f : View) (m : EntryMap) (b s : Asset).
Context (Hf : view_wf f) (Hm : entries_wf m) (Ho : ordered m).

Lemma overlay_wf : view_wf (overlay m f).
Proof.
  intros k e. unfold overlay. destruct (map_find k m) as [p|] eqn:Hp; [by apply Hm|apply Hf].
Qed.

(** The best recorded offer past a bound. *)
Definition self_best (w : option OfferDescriptor) (res : option LedgerEntry) : Prop :=
  match res with
  | None => forall e o, view_offer (overlay m f) b s e o ->
      is_Some (map_find (LEDGER_ENTRY_KEY (LedgerEntryKey e)) m) -> within w o = false
  | Some e => exists o, view_offer (overlay m f) b s e o /\ within w o = true /\
      is_Some (map_find (LEDGER_ENTRY_KEY (LedgerEntryKey e)) m) /\
      forall e' o', view_offer (overlay m f) b s e' o' -> within w o' = true ->
        is_Some (map_find (LEDGER_ENTRY_KEY (LedgerEntryKey e')) m) -> better o' o = false
  end.

Lemma overlay_cases (e : LedgerEntry) (o : OfferEntry) :
  view_offer (overlay m f) b s e o ->
  (is_Some (map_find (LEDGER_ENTRY_KEY (LedgerEntryKey e)) m)) \/
  (map_find (LEDGER_ENTRY_KEY (LedgerEntryKey e)) m = None /\ view_offer f b s e o).
Proof.
  intros (He&Hrest). unfold overlay in He. destruct (map_find _ m) as [p|] eqn:Hp; [left; eauto|].
  right. split; [done|]. split; [done|done].
Qed.

Lemma unrecorded_offer (e : LedgerEntry) (o : OfferEntry) :
  view_offer f b s e o -> map_find (LEDGER_ENTRY_KEY (LedgerEntryKey e)) m = None ->
  view_offer (overlay m f) b s e o.
Proof. intros (He&Hrest) Hn. split; [|done]. unfold overlay. by rewrite Hn. Qed.

(** How many recorded entries are offers of the parent past the bound. *)
Definition pending (w : option OfferDescriptor) (p : InternalLedgerKey * LedgerEntryPtr) : bool :=
  match f (fst p) with
  | Some (LEDGER_ENTRY e) =>
      match le_data e with
      | OFFER o => bool_decide (of_buying o = b /\ of_selling o = s) && within w o
      | _ => false
      end
  | _ => false
  end.

Lemma pending_true (w : option OfferDescriptor) (p : InternalLedgerKey * LedgerEntryPtr) :
  pending w p = true -> exists e o, toKey (LEDGER_ENTRY e) = fst p /\ view_offer f b s e o /\ within w o = true.
Proof.
  unfold pending. destruct (f (fst p)) as [[e| |]|] eqn:He; try done.
  destruct (le_data e) as [| |o| | |] eqn:Ho'; try done. rewrite andb_true_iff, bool_decide_eq_true.
  intros [[Hb Hs] Hw]. exists e, o. destruct (Hf _ _ He) as [Hk _]. split_and!; [done| |done].
  simpl in Hk. unfold view_offer. by rewrite Hk.
Qed.

Lemma pending_offer (w : option OfferDescriptor) (q : LedgerEntryPtr) (e : LedgerEntry) (o : OfferEntry) :
  view_offer f b s e o -> pending w (LEDGER_ENTRY_KEY (LedgerEntryKey e), q) = within w o.
Proof. intros (He&Hd&Hb&Hs). unfold pending. simpl. rewrite He, Hd. by rewrite bool_decide_true by done. Qed.

(** The best recorded offer is the best where no other of the parent is better. *)
Lemma self_wins (w : option OfferDescriptor) (self : option LedgerEntry) :
  self_best w self ->
  (forall e o, view_offer f b s e o -> within w o = true ->
     map_find (LEDGER_ENTRY_KEY (LedgerEntryKey e)) m = None ->
     match self with
     | None => False
     | Some se => forall so, le_data se = OFFER so -> better o so = false
     end) ->
  is_best (overlay m f) b s w self.
Proof.
  intros Hself Hno. destruct self as [se|]; simpl in *.
  - destruct Hself as (so&Hse&Hw&_&Hbest). exists so. split_and!; [done..|]. intros e o Heo Hwo.
    destruct (overlay_cases e o Heo) as [Hr|[Hr Hfo]]; [by eapply Hbest|].
    eapply Hno; [done..|]. apply Hse.
  - intros e o Heo. apply not_true_is_false. intros Hwo.
    destruct (overlay_cases e o Heo) as [Hr|[Hr Hfo]]; [|by eapply Hno].
    by rewrite (Hself e o) in Hwo.
Qed.

(** The best of the parent's offers that is not recorded, where it is better. *)
Lemma parent_wins (w w' : option OfferDescriptor) (self : option LedgerEntry) (pe : LedgerEntry) (po : OfferEntry) :
  self_best w self -> view_offer f b s pe po -> within w po = true ->
  map_find (LEDGER_ENTRY_KEY (LedgerEntryKey pe)) m = None ->
  (forall e o, view_offer f b s e o -> within w' o = true -> better o po = false) ->
  (forall e o, view_offer f b s e o -> within w o = true ->
     map_find (LEDGER_ENTRY_KEY (LedgerEntryKey e)) m = None -> within w' o = true) ->
  match self with None => True | Some se => forall so, le_data se = OFFER so -> better po so = true end ->
  is_best (overlay m f) b s w (Some pe).
Proof.
  intros Hself Hpe Hw Hn Hbest Hcov Hbetter. exists po. split_and!; [by apply unrecorded_offer|done|].
  intros e o Heo Hwo. destruct (overlay_cases e o Heo) as [Hr|[Hr Hfo]]; [|by eapply Hbest; [|eapply Hcov]].
  destruct self as [se|]; simpl in *; [|by rewrite (Hself e o) in Hwo].
  destruct Hself as (so&Hse&_&_&Hsb). specialize (Hbetter so (proj1 (proj2 Hse))).
  pose proof (view_offer_wf _ _ _ _ _ Hf Hpe) as Hpwf. pose proof (view_offer_wf _ _ _ _ _ overlay_wf Hse) as Hswf.
  pose proof (view_offer_wf _ _ _ _ _ overlay_wf Heo) as Howf.
  apply (better_false_trans _ so); [done..|by eapply Hsb|by apply better_asym].
Qed.

(** Of two offers of a state one is better. *)
Lemma better_total (v : View) (e e' : LedgerEntry) (o o' : OfferEntry) :
  view_wf v -> view_offer v b s e o -> view_offer v b s e' o' -> LedgerEntryKey e <> LedgerEntryKey e' ->
  better o o' = false -> better o' o = true.
Proof.
  intros Hv He He' Hne Hb. pose proof (view_offer_wf _ _ _ _ _ Hv He) as [Hs1 Hp1].
  pose proof (view_offer_wf _ _ _ _ _ Hv He') as [Hs2 Hp2]. apply not_false_is_true. intros Hb'. apply Hne.
  destruct He as (_&Hd&_), He' as (_&Hd'&_).
  enough (toKey (LEDGER_ENTRY e) = toKey (LEDGER_ENTRY e')) as Hk by (by simplify_eq/=).
  apply (same_place_key o o'); [simpl; by rewrite Hd|simpl; by rewrite Hd'|done..|].
  rewrite isBetterOffer_code in Hb, Hb' by done. by apply ltb_total.
Qed.

Lemma skipRecorded_eq (fuel : nat) (next : OfferDescriptor -> ltx (option LedgerEntry))
    (self : option LedgerEntry) (pe : LedgerEntry) (po : OfferEntry) :
  le_data pe = OFFER po -> of_buying po = b -> of_selling po = s ->
  match self with None => True | Some se => exists so, le_data se = OFFER so /\ of_buying so = b /\ of_selling so = s end ->
  skipRecorded fuel next m self (Some pe) =
    if match self with
       | None => true
       | Some se => match le_data se with OFFER so => better po so | _ => true end
       end
    then
      if isSome (map_find (LEDGER_ENTRY_KEY (LedgerEntryKey pe)) m) then
        match fuel with
        | O => Err OutOfFuel
        | S fuel' => let? pb := next (descriptor po) in skipRecorded fuel' next m self pb
        end
      else Ok (Some pe)
    else Ok self.
Proof.
  intros Hd Hb Hs Hself.
  destruct fuel; simpl; unfold entry_offer; rewrite Hd; simpl; (destruct self as [se|]; [|done]);
    destruct Hself as (so&Hso&Hb'&Hs'); rewrite Hso; simpl; unfold isBetterEntry;
    by rewrite !bool_decide_true by congruence.
Qed.

(** The loop over the parent's offers ends at the best of both. *)
Lemma skipRecorded_ok (next : OfferDescriptor -> ltx (option LedgerEntry)) (w : option OfferDescriptor)
    (self : option LedgerEntry) :
  self_best w self ->
  (forall d, desc_ok d -> exists res, next d = Ok res /\ is_best f b s (Some d) res) ->
  forall fuel w' parent,
  bound_ok w' -> is_best f b s w' parent ->
  (forall o, offer_wf o -> within w' o = true -> within w o = true) ->
  (forall e o, view_offer f b s e o -> within w o = true ->
     map_find (LEDGER_ENTRY_KEY (LedgerEntryKey e)) m = None -> within w' o = true) ->
  (length (filter (fun p => pending w' p = true) m) <= fuel)%nat ->
  exists res, skipRecorded fuel next m self parent = Ok res /\ is_best (overlay m f) b s w res.
Proof.
  intros Hself Hnext. induction fuel as [fuel IH] using lt_wf_ind.
  intros w' [pe|] Hw' Hpar Hin Hcov Hfuel; simpl in Hpar.
  2:{ exists self. split; [by destruct fuel|]. apply self_wins; [done|]. intros e o Hfo Hwo Hn. exfalso.
      specialize (Hcov e o Hfo Hwo Hn). by rewrite (Hpar e o Hfo) in Hcov. }
  destruct Hpar as (po&Hpe&Hwp&Hbest). pose proof (view_offer_wf _ _ _ _ _ Hf Hpe) as Hpwf.
  assert (match self with None => True | Some se => exists so, view_offer (overlay m f) b s se so end) as Hse
    by (destruct self as [se|]; [destruct Hself as (so&?&_); eauto|done]).
  rewrite (skipRecorded_eq fuel next self pe po);
    [|apply Hpe..|destruct self as [se|]; [destruct Hse as (so&_&?); eauto|done]].
  destruct (match self with None => true | Some _ => _ end) eqn:Hbetter.
  - destruct (map_find (LEDGER_ENTRY_KEY (LedgerEntryKey pe)) m) as [q|] eqn:Hq; cbn [isSome].
    + assert (length (filter (fun p => pending (Some (descriptor po)) p = true) m) <
        length (filter (fun p => pending w' p = true) m))%nat as Hless.
      { apply (filter_shorter _ _ _ (LEDGER_ENTRY_KEY (LedgerEntryKey pe), q)).
        - intros [k p] _ (e&o&Hk&Hfo&Hwo)%pending_true. simpl in Hk. rewrite <- Hk.
          rewrite (pending_offer _ _ e o) by done. apply (within_trans _ po); [done|done| |done|done].
          by eapply view_offer_wf.
        - by apply map_find_elem.
        - by rewrite (pending_offer _ _ pe po).
        - rewrite (pending_offer _ _ pe po) by done. by apply better_irrefl. }
      destruct fuel as [|fuel]; [lia|]. destruct (Hnext (descriptor po)) as (pb&->&Hpb); [apply Hpwf|].
      cbn [res_bind]. apply (IH fuel (Nat.lt_succ_diag_r fuel) (Some (descriptor po)));
        [apply Hpwf|done| | |lia].
      * intros o Ho' Hwo. apply Hin; [done|]. by apply (within_trans _ po).
      * intros e o Hfo Hwo Hn. specialize (Hcov e o Hfo Hwo Hn). simpl.
        apply (better_total f e pe); [done..| |by eapply Hbest]. congruence.
    + exists (Some pe). split; [done|]. apply (parent_wins w w' self pe po); [done|done|by apply Hin|done|done|done|].
      destruct self as [se|]; [|done]. intros so Hso. by rewrite Hso in Hbetter.
  - exists self. split; [done|]. apply self_wins; [done|]. destruct self as [se|]; [|done].
    intros e o Hfo Hwo Hn so Hso. rewrite Hso in Hbetter. destruct Hse as (so'&Hse).
    assert (so' = so) as -> by (destruct Hse as (_&Hd&_); congruence).
    apply (better_false_trans _ po); [by eapply view_offer_wf|done| | |done].
    + by eapply view_offer_wf; [apply overlay_wf|].
    + eapply Hbest; [done|]. by eapply Hcov.
Qed.
End layer.

(** ** The open transactions *)

(** Past a recorded worst best offer; after the last one nothing is. *)
Definition past (w : option OfferDescriptor) (o : OfferEntry) : bool :=
  match w with None => false | Some d => isBetterOffer d (descriptor o) end.

(** The books hold what they should, and what the parent has up to a recorded
    worst best offer is recorded. *)
Record offers_ok (f : View) (t : Txn) : Prop := {
  ok_book : mIsSealed t = false ->
    book_inv (fun k => k ∈ fst <$> mActive t) (mEntry t) (mMultiOrderBook t);
  ok_bound : forall b s w, mWorstBestOffer t b s = Some w -> bound_ok w;
  ok_worst : forall b s w e o, mWorstBestOffer t b s = Some w -> view_offer f b s e o ->
    past w o = false -> is_Some (map_find (LEDGER_ENTRY_KEY (LedgerEntryKey e)) (mEntry t));
}.

Lemma recorded_view (f : View) (m : EntryMap) (b s : Asset) (d : OfferDescriptor) (k : LedgerKey) :
  entries_wf m -> recorded_offer m b s d k ->
  exists e o p, map_find (LEDGER_ENTRY_KEY k) m = Some p /\ ptr_get p = Some (LEDGER_ENTRY e) /\
    LedgerEntryKey e = k /\ view_offer (overlay m f) b s e o /\ descriptor o = d.
Proof.
  intros Hm (p&e&o&Hp&He&Ho&Hb&Hs&Hd). destruct (Hm _ _ _ Hp He) as [Hk _].
  destruct (toKey_ledger e k Hk) as [x ->]. simpl in Hk, Ho. injection Hk as Hk.
  exists x, o, p. split_and!; [done..| |done]. split_and!; [|by destruct (le_data x); simplify_eq|done..].
  unfold overlay. by rewrite Hk, Hp.
Qed.

Lemma view_recorded (f : View) (m : EntryMap) (b s : Asset) (e : LedgerEntry) (o : OfferEntry) :
  view_offer (overlay m f) b s e o -> is_Some (map_find (LEDGER_ENTRY_KEY (LedgerEntryKey e)) m) ->
  recorded_offer m b s (descriptor o) (LedgerEntryKey e).
Proof.
  intros (He&Hd&Hb&Hs) [p Hp]. unfold overlay in He. rewrite Hp in He.
  exists p, (LEDGER_ENTRY e), o. split_and!; try done. simpl. by rewrite Hd.
Qed.

(** What the book of a pair gives is the best recorded offer. *)
Lemma bookEntry_ok (f : View) (m : EntryMap) (B : MultiOrderBook) (b s : Asset) (w : option OfferDescriptor) :
  entries_wf m -> book_inv (fun _ => False) m B -> bound_ok w ->
  exists res, bookEntry m (match w with None => head (B b s) | Some d => ob_upper_bound d (B b s) end) = Ok res /\
    self_best f m b s w res.
Proof.
  intros Hm HB Hw. destruct (HB b s) as [Hs Hx].
  assert (forall d k, (d, k) ∈ B b s <-> recorded_offer m b s d k) as Hx' by (intros; rewrite Hx; tauto).
  set (x := match w with None => head (B b s) | Some d => ob_upper_bound d (B b s) end).
  assert (match x with
    | None => forall o k, (descriptor o, k) ∈ B b s -> within w o = false
    | Some (d, k) => (d, k) ∈ B b s /\ (forall o, descriptor o = d -> within w o = true) /\
        forall o k, (descriptor o, k) ∈ B b s -> within w o = true -> isBetterOffer (descriptor o) d = false
    end) as Hbest.
  { subst x. destruct w as [d|]; simpl.
    - pose proof (ob_upper_bound_ok d (B b s) Hw Hs) as Hub.
      destruct (ob_upper_bound d (B b s)) as [[d' k']|]; [|intros o k Hin; apply (Hub _ Hin)].
      destruct Hub as (Hin&Hd&Hub). split_and!; [done|by intros o ->|]. intros o k Hin'. apply (Hub _ Hin').
    - pose proof (book_head (B b s) Hs) as Hh. destruct (head (B b s)) as [[d' k']|].
      + destruct Hh as [Hin Hh]. split_and!; [done..|]. intros o k Hin' _. apply (Hh _ Hin').
      + rewrite Hh. intros o k Hin. by apply elem_of_nil in Hin. }
  clearbody x. destruct x as [[d k]|]; simpl.
  - destruct Hbest as (Hin&Hwd&Hbest). apply Hx' in Hin.
    destruct (recorded_view f m b s d k Hm Hin) as (e&o&p&Hp&He&<-&Hv&<-). exists (Some e).
    split; [rewrite Hp; destruct p; by simplify_eq/=|]. exists o. split_and!; [done|by apply Hwd|eauto|].
    intros e' o' Hv' Hwo' Hr'. eapply Hbest; [|done]. apply Hx'. by apply (view_recorded f).
  - exists None. split; [done|]. intros e o Hv Hr. eapply Hbest, Hx'. by apply (view_recorded f).
Qed.

Fixpoint stack_offers (r : Root) (l : list Txn) : Prop :=
  match l with
  | [] => root_ok r
  | t :: l' =>
      mActive t = [] /\ mIsSealed t = false /\ ordered (mEntry t) /\ entries_wf (mEntry t) /\
      offers_ok (getNewestVersion r l') t /\ stack_offers r l'
  end.

Lemma stack_view_wf (r : Root) (l : list Txn) : stack_offers r l -> view_wf (getNewestVersion r l).
Proof.
  induction l as [|t l IH]; [apply root_view_wf|]. intros (_&_&_&Hm&_&Hl).
  apply (overlay_wf (getNewestVersion r l) (mEntry t)); [by apply IH|done].
Qed.

Lemma length_pending (f : View) (m : EntryMap) (b s : Asset) (w : option OfferDescriptor) :
  (length (filter (fun p => pending f b s w p = true) m) <= length m)%nat.
Proof. apply length_filter. Qed.

(** [getBestOffer] returns the best offer of the state. *)
Lemma getBestOffer_ok (r : Root) (b s : Asset) (l : list Txn) :
  stack_offers r l -> forall w, bound_ok w ->
  exists res, getBestOffer r l b s w = Ok res /\ is_best (getNewestVersion r l) b s w res.
Proof.
  induction l as [|t l IH]; [intros Hr w _; eexists; split; [done|by apply rootBest_ok]|].
  intros (Ha&Hse&Ho&Hm&Hok&Hl) w Hw. specialize (IH Hl). pose proof (stack_view_wf r l Hl) as Hf.
  set (f := getNewestVersion r l) in *. change (getNewestVersion r (t :: l)) with (overlay (mEntry t) f).
  assert (book_inv (fun _ => False) (mEntry t) (mMultiOrderBook t)) as HB.
  { eapply book_inv_ext; [by apply (ok_book _ _ Hok)|]. rewrite Ha. simpl. intros b' s' d k.
    rewrite elem_of_nil. tauto. }
  destruct (bookEntry_ok f (mEntry t) (mMultiOrderBook t) b s w Hm HB Hw) as (self&Hself&Hsb).
  simpl. rewrite Ha. cbn [negb]. rewrite Hself. cbn [res_bind]. clear Hself.
  assert (forall d, desc_ok d -> exists res, getBestOffer r l b s (Some d) = Ok res /\ is_best f b s (Some d) res)
    as Hnext by (intros d; apply (IH (Some d))).
  assert (forall w', bound_ok w' -> (w = None \/ w' = w) ->
    (forall e o, view_offer f b s e o -> within w o = true ->
      map_find (LEDGER_ENTRY_KEY (LedgerEntryKey e)) (mEntry t) = None -> within w' o = true) ->
    exists res, (let? parent := getBestOffer r l b s w' in
      skipRecorded (length (mEntry t)) (fun d => getBestOffer r l b s (Some d)) (mEntry t) self parent) = Ok res /\
      is_best (overlay (mEntry t) f) b s w res) as Hgo.
  { intros w' Hw' Hww Hcov. destruct (IH w' Hw') as (pb&->&Hpb). cbn [res_bind].
    eapply (skipRecorded_ok f (mEntry t) b s Hf Hm Ho _ w self Hsb Hnext _ w'); [done|done| |done|apply length_pending].
    intros o _ Ho'. by destruct Hww as [-> | ->]. }
  destruct w as [d|]; [by apply Hgo; [|right|]|].
  destruct (mWorstBestOffer t b s) as [[d|]|] eqn:Hwb; [| |by apply Hgo; [|right|]].
  - apply (Hgo (Some d)); [by apply (ok_bound _ _ Hok b s)|by left|]. intros e o Hfo _ Hn.
    apply not_false_is_true. intros Hp. destruct (ok_worst _ _ Hok b s _ e o Hwb Hfo Hp) as [? Hx]. congruence.
  - cbn [res_bind]. exists self. split; [by destruct (mEntry t)|]. apply self_wins; [done|].
    intros e o Hfo _ Hn. destruct (ok_worst _ _ Hok b s _ e o Hwb Hfo eq_refl) as [? Hx]. congruence.
Qed.
End owner.
