(* ===== verification/LedgerTxnStack.v ===== *)
(** * Nested ledger transactions refine nested copies

    The operations keep the order books and the bounds of
    [LedgerTxnOffers], commits and rollbacks do to the stack of transactions
    what the specification does to its copies, and so do whole runs. *)
From stdpp Require Import base tactics list numbers sets.
From Stdlib Require Import ZArith Lia Bool.
From S2P Require Import Prelude Containers OfferExchange LedgerEntries Float64 Bucket BucketMerge LedgerTxn LedgerTxnSpec LedgerTxnTheorems LedgerTxnOffers.

Open Scope Z_scope.
Open Scope kin_scope.

Section owner.
Context (owner : Z -> AccountID).

(** ** One level *)

Definition snapshot_wf (m : list (InternalLedgerKey * InternalLedgerEntry)) : Prop :=
  forall k e, map_find k m = Some e -> entry_wf owner e.

Record level (f : View) (t : Txn) (a : ATxn) : Prop := {
  lv_sim : txn_sim f t a;
  lv_wf : snapshot_wf (a_map a);
  lv_offers : offers_ok f t;
}.

Lemma core_entries_wf (f : View) (t : Txn) (a : ATxn) :
  core_sim f t a -> snapshot_wf (a_map a) -> entries_wf owner (mEntry t).
Proof.
  intros Hc Hw k p e. rewrite (cs_entry _ _ _ Hc). case_decide; [|done].
  destruct (map_find k (a_map a)) as [x|] eqn:Hx.
  - pose proof (cs_keys _ _ _ Hc k x Hx). destruct (f k); simpl; intros [= <-] [= <-]; split; [done| |done|];
      by eapply Hw.
  - destruct (f k); simpl; intros Hp He; by simplify_eq/=.
Qed.

Lemma snapshot_put (k : InternalLedgerKey) (e : option InternalLedgerEntry)
    (m : list (InternalLedgerKey * InternalLedgerEntry)) :
  ordered m -> snapshot_wf m -> (forall x, e = Some x -> entry_wf owner x) -> snapshot_wf (put k e m).
Proof.
  intros Ho Hm He k' x. rewrite map_find_put by done. case_decide; [by apply He|by apply Hm].
Qed.

(** What keeps the books in order. *)
Lemma offers_step (f : View) (t t' : Txn) :
  offers_ok f t -> mWorstBestOffer t' = mWorstBestOffer t ->
  (forall k, is_Some (f k) -> is_Some (map_find k (mEntry t)) -> is_Some (map_find k (mEntry t'))) ->
  (mIsSealed t' = false -> book_inv (fun k => k ∈ fst <$> mActive t') (mEntry t') (mMultiOrderBook t')) ->
  offers_ok f t'.
Proof.
  intros [_ Hbd Hw] Hwb Hrec Hbook. split; [done|by rewrite Hwb|]. rewrite Hwb. intros b s w e o Hbs Hv Hp.
  apply Hrec; [|by eapply Hw]. destruct Hv as [-> _]. eauto.
Qed.

(** A write, which may change whether the key is active. *)
Lemma offers_write (f : View) (k : InternalLedgerKey) (p : LedgerEntryPtr) (active : bool) (t t' : Txn) (m : EntryMap) :
  offers_ok f t -> mIsSealed t = false -> entries_wf owner (mEntry t) ->
  (forall e, ptr_get p = Some e -> toKey e = k /\ entry_wf owner e) ->
  (forall k', map_find k' m = if decide (k' = k) then version_of (f k) (ptr_get p) else map_find k' (mEntry t)) ->
  mEntry t' = m -> mMultiOrderBook t' = new_book k p active t -> mWorstBestOffer t' = mWorstBestOffer t ->
  (forall k', k' ∈ fst <$> mActive t' <-> k' = k /\ active = true \/ k' <> k /\ k' ∈ fst <$> mActive t) ->
  offers_ok f t'.
Proof.
  intros Hok Hse Hwf Hp Hm Hm' HB Hwb Hact. apply (offers_step f t); [done|done| |].
  - intros k' [x Hx] Hr. rewrite Hm', Hm. case_decide; [|done]. subst k'. rewrite Hx. destruct (ptr_get p); eauto.
  - intros _. rewrite HB, Hm'.
    eapply book_inv_ext; [eapply (new_book_inv owner _ k p active t m); [by apply Hok|done|done| |]|].
    + intros k' Hne. by rewrite Hm, decide_False.
    + intros e. rewrite Hm, decide_True by done. destruct (f k), (ptr_get p); simpl; naive_solver.
    + intros b s d k'. by rewrite Hact.
Qed.

(** Refreshing the book of a key, when it becomes active or stops being so. *)
Lemma offers_refresh (k : InternalLedgerKey) (active : bool) (act : InternalLedgerKey -> Prop) (t : Txn) :
  book_inv act (mEntry t) (mMultiOrderBook t) -> entries_wf owner (mEntry t) ->
  book_inv (fun k' => k' = k /\ active = true \/ k' <> k /\ act k') (mEntry t) (book_of k active t).
Proof.
  intros HB Hwf. unfold book_of, refreshed.
  assert ((forall b s d k', LEDGER_ENTRY_KEY k' = k -> ~ recorded_offer (mEntry t) b s d k') ->
    book_inv (fun k' => k' = k /\ active = true \/ k' <> k /\ act k') (mEntry t) (mMultiOrderBook t)) as Habs.
  { intros Hno. apply (book_carry act _ (mEntry t) _ _ k); [by apply book_absent|done|naive_solver|by right]. }
  destruct (isOfferKey k) eqn:Hk; [|apply Habs].
  - destruct (map_find k (mEntry t)) as [p|] eqn:Hp.
    + apply (new_book_inv owner); [done|done|by intros; eapply Hwf|done|]. intros e. rewrite Hp. naive_solver.
    + apply Habs. intros b s d k' <- (?&?&?&?&_). congruence.
  - intros b s d k'. apply not_an_offer; [|done]. intros q e Hq He. by eapply Hwf.
Qed.

Lemma elem_of_active_keys (k k' : InternalLedgerKey) (l : list (InternalLedgerKey * ActiveKind)) :
  k' ∈ fst <$> active_erase k l <-> k' <> k /\ k' ∈ fst <$> l.
Proof.
  rewrite !list_elem_of_fmap. split.
  - intros ([x y]&->&[Hne Hin]%elem_of_active_erase). eauto.
  - intros (Hne&[x y]&->&Hin). exists (x, y). split; [done|]. by apply elem_of_active_erase.
Qed.

Lemma active_find_none (k : InternalLedgerKey) (l : list (InternalLedgerKey * ActiveKind)) :
  active_find k l = None -> k ∉ fst <$> l.
Proof.
  unfold active_find. intros Hn Hin. apply fmap_None in Hn. apply list_elem_of_fmap in Hin as ([x y]&->&Hin).
  apply list_elem_of_In, (find_none _ _ Hn), bool_decide_eq_false in Hin. done.
Qed.

Lemma level_res {A} (f : View) (x : ltx (A * Txn)) (y : ltx (A * ATxn)) :
  sim_res (txn_sim f) x y ->
  (forall v t a, x = Ok (v, t) -> y = Ok (v, a) -> txn_sim f t a -> snapshot_wf (a_map a) /\ offers_ok f t) ->
  sim_res (level f) x y.
Proof.
  destruct x as [[v t]|], y as [[w a]|]; simpl; [|done..]. intros [-> Hs] Hrest. split; [done|].
  by destruct (Hrest w t a eq_refl eq_refl Hs).
Qed.

(** What a write records, from the specification. *)
Lemma written_entry (f : View) (t t' : Txn) (a : ATxn) (k k' : InternalLedgerKey) (e : option InternalLedgerEntry) :
  core_sim f t a -> core_sim f t' (a_write k e a) ->
  map_find k' (mEntry t') = if decide (k' = k) then version_of (f k) e else map_find k' (mEntry t).
Proof.
  intros Hc Hc'. rewrite (cs_entry _ _ _ Hc'), (cs_entry _ _ _ Hc). simpl.
  rewrite map_find_put by apply Hc. destruct (decide (k' = k)) as [->|Hne].
  - rewrite decide_True; [done|]. apply elem_of_set_insert. auto.
  - apply decide_ext. rewrite elem_of_set_insert. tauto.
Qed.

Lemma new_book_active (k : InternalLedgerKey) (p : LedgerEntryPtr) (active : bool) (t : Txn)
    (l : list (InternalLedgerKey * ActiveKind)) :
  new_book k p active (set_mActive l t) = new_book k p active t.
Proof. done. Qed.

Section txn.
Context (r : Root) (l : list Txn) (t : Txn) (a : ATxn).
Let f : View := getNewestVersion r l.
Context (Hl : level f t a).

Lemma level_entries : entries_wf owner (mEntry t).
Proof. by eapply core_entries_wf; apply Hl. Qed.

Lemma unsealed_inv (u : unit) : throwIfSealed t = Ok u -> mIsSealed t = false.
Proof. unfold throwIfSealed. by destruct (mIsSealed t). Qed.

Lemma create_level (e : InternalLedgerEntry) :
  entry_wf owner e -> sim_res (level f) (create e r l t) (a_create e a).
Proof.
  intros He. pose proof (lv_sim _ _ _ Hl) as Hs. apply level_res; [by apply create_sim|].
  unfold create, a_create. intros v t' a' Ht' Ha' Hs'.
  destruct (throwIfSealed t) eqn:Hse; [|done]. destruct (a_unsealed a); [|done]. cbn [res_bind] in *.
  rewrite (newest_sim _ _ _ _ Hs) in Ht'. destruct (map_find (toKey e) (a_map a)) as [x|] eqn:Hx; [done|].
  destruct Hs as [Hc Ha]. split.
  { simplify_eq. apply (snapshot_put (toKey e) (Some e)); [apply Hc|apply Hl|]. intros; by simplify_eq. }
  set (t1 := set_mActive ((toKey e, ActiveMutable) :: mActive t) t) in Ht'.
  destruct (updateEntry_ok f (toKey e) (INIT e) true t1) as (m&Hu&Hord&Hm);
    [exact (versions_sim f t a Hc)|simpl; by rewrite (overlay_sim f t a)|].
  rewrite Hu in Ht'. simplify_eq/=.
  apply (offers_write f (toKey e) (INIT e) true t _ m);
    [apply Hl|by eapply unsealed_inv|apply level_entries|by intros ? [= <-]|done..|].
  intros k'. simpl. rewrite elem_of_cons. destruct (decide (k' = toKey e)); naive_solver.
Qed.

Lemma erase_level (k : InternalLedgerKey) : sim_res (level f) (erase k r l t) (a_erase k a).
Proof.
  pose proof (lv_sim _ _ _ Hl) as Hs. apply level_res; [by apply erase_sim|].
  unfold erase, a_erase. intros v t' a' Ht' Ha' Hs'.
  destruct (throwIfSealed t) eqn:Hse; [|done]. destruct (a_unsealed a); [|done]. cbn [res_bind] in *.
  rewrite (newest_sim _ _ _ _ Hs) in Ht'. destruct (map_find k (a_map a)) as [x|] eqn:Hx; [|done].
  destruct Hs as [Hc Ha]. split.
  { simplify_eq. apply (snapshot_put k None); [apply Hc|apply Hl|done]. }
  destruct (updateEntry_ok f k DELETED false t) as (m&Hu&Hord&Hm);
    [exact (versions_sim f t a Hc)|simpl; rewrite (overlay_sim f t a) by done; eauto|].
  rewrite Hu in Ht'. simplify_eq/=.
  apply (offers_write f k DELETED false t _ m);
    [apply Hl|by eapply unsealed_inv|apply level_entries|done..|].
  intros k'. simpl. rewrite elem_of_active_keys. naive_solver.
Qed.

Lemma load_level (k : InternalLedgerKey) : sim_res (level f) (load k r l t) (a_load true k a).
Proof.
  pose proof (lv_sim _ _ _ Hl) as Hs. apply level_res; [by apply load_sim|].
  unfold load, a_load. intros v t' a' Ht' Ha' Hs'.
  destruct (throwIfSealed t) eqn:Hse; [|done]. destruct (a_unsealed a); [|done]. cbn [res_bind] in *.
  rewrite (newest_sim _ _ _ _ Hs) in Ht'. pose proof Hs as [Hc Ha]. rewrite (as_active _ _ Ha) in Ha'.
  destruct (active_find k (mActive t)) as [x|] eqn:Hx; [done|].
  destruct (map_find k (a_map a)) as [e|] eqn:He; [|simplify_eq; by destruct Hl].
  set (l' := (k, ActiveMutable) :: mActive t) in *.
  destruct (load_record f k e (set_mActive l' t) (a_set_active l' a)) as (m&Hu&Hm); [by apply core_sim_active|done|].
  unfold current_version in Hu. simpl in Hu. simpl in Ht'. rewrite Hu in Ht'. cbn [res_bind] in Ht'.
  assert (forall x, ptr_get (current_version t k e) = Some x -> x = e) as Hcur
    by (intros x; rewrite (current_version_get r l t a Hs k e He); congruence).
  injection Ha' as <- <-. injection Ht' as <-. split.
  { apply (snapshot_put k (Some e)); [apply Hc|apply Hl|]. intros ? [= <-]. by apply (lv_wf _ _ _ Hl k). }
  apply (offers_write f k (current_version t k e) true t _ m);
    [apply Hl|by eapply unsealed_inv|apply level_entries| | |done..|].
  - intros x ->%Hcur. split; [by apply (cs_keys _ _ _ Hc)|by apply (lv_wf _ _ _ Hl k)].
  - intros k'. rewrite (current_version_get r l t a Hs k e He).
    by apply (written_entry f (set_mActive l' t) _ (a_set_active l' a) k k' (Some e)) in Hm; [|by apply core_sim_active].
  - intros k'. simpl. rewrite elem_of_cons. destruct (decide (k' = k)); naive_solver.
Qed.

Lemma loadWithoutRecord_level (k : InternalLedgerKey) :
  sim_res (level f) (loadWithoutRecord k r l t) (a_load false k a).
Proof.
  pose proof (lv_sim _ _ _ Hl) as Hs. apply level_res; [by apply loadWithoutRecord_sim|].
  unfold loadWithoutRecord, a_load. intros v t' a' Ht' Ha' Hs'.
  destruct (throwIfSealed t) eqn:Hse; [|done]. destruct (a_unsealed a); [|done]. cbn [res_bind] in *.
  rewrite (newest_sim _ _ _ _ Hs) in Ht'. pose proof Hs as [Hc Ha]. rewrite (as_active _ _ Ha) in Ha'.
  destruct (active_find k (mActive t)) as [x|] eqn:Hx; [done|].
  destruct (map_find k (a_map a)) as [e|] eqn:He; [|simplify_eq; by destruct Hl].
  rewrite (refresh_sim f k true _ (a_set_active ((k, ActiveConst) :: mActive t) a)) in Ht';
    [|by apply core_sim_active|by simpl; eauto].
  simplify_eq/=. split; [apply Hl|]. apply (offers_step f t); [apply Hl|done|done|]. intros _.
  eapply book_inv_ext; [apply (offers_refresh k true); [|apply level_entries];
    apply (lv_offers _ _ _ Hl); by eapply unsealed_inv|].
  intros b s d k'. simpl. rewrite elem_of_cons. destruct (decide (LEDGER_ENTRY_KEY k' = k)); naive_solver.
Qed.

Lemma deactivate_level (k : InternalLedgerKey) :
  sim_res (level f) (silent (deactivate k) r l t) (a_deactivate k a).
Proof.
  pose proof (lv_sim _ _ _ Hl) as Hs. apply level_res; [by apply deactivate_sim|].
  unfold silent, deactivate, a_deactivate. intros v t' a' Ht' Ha' Hs'. pose proof Hs as [Hc Ha].
  rewrite (as_active _ _ Ha) in Ha'. destruct (active_find k (mActive t)) as [x|] eqn:Hx; [|done].
  rewrite (refresh_sim f k false t a) in Ht' by (done || by eapply active_key_exists).
  simplify_eq/=. split; [apply Hl|]. apply (offers_step f t); [apply Hl|done|done|]. intros Hse.
  eapply book_inv_ext; [apply (offers_refresh k false); [|apply level_entries];
    by apply (lv_offers _ _ _ Hl)|].
  intros b s d k'. simpl. rewrite elem_of_active_keys. naive_solver.
Qed.

Lemma assign_level (e : InternalLedgerEntry) :
  entry_wf owner e -> sim_res (level f) (silent (assignCurrent (toKey e) e) r l t) (a_assign e a).
Proof.
  intros He. pose proof (lv_sim _ _ _ Hl) as Hs. apply level_res; [by apply assign_sim|].
  unfold silent, assignCurrent, a_assign. intros v t' a' Ht' Ha' Hs'. pose proof Hs as [Hc Ha].
  rewrite (as_active _ _ Ha) in Ha'. destruct (active_find (toKey e) (mActive t)) as [[]|] eqn:Hx; [|done..].
  apply active_find_elem in Hx. split.
  { simplify_eq. apply (snapshot_put (toKey e) (Some e)); [apply Hc|apply Hl|]. by intros ? [= <-]. }
  assert (exists p, t' = set_mEntry (map_set (toKey e) p (mEntry t)) t) as [p ->]
    by (destruct (map_find (toKey e) (mEntry t)) as [[]|]; simplify_eq/=; eauto).
  assert (forall k, map_find k (map_set (toKey e) p (mEntry t)) =
    if decide (k = toKey e) then Some p else map_find k (mEntry t)) as Hm.
  { intros k. rewrite map_find_set. destruct (decide (k = toKey e)) as [->|Hne]; [by rewrite eqb_of_refl|].
    by rewrite (proj2 (eqb_of_false _ _) Hne). }
  apply (offers_step f t); [apply Hl|done| |].
  - intros k _ Hr. simpl. rewrite Hm. case_decide; eauto.
  - intros Hse. simpl. pose proof (ok_book _ _ (lv_offers _ _ _ Hl) Hse) as HB.
    apply (book_carry (fun k => k ∈ fst <$> mActive t) _ (mEntry t) _ _ (toKey e)); [| |done|].
    + eapply book_inv_ext; [exact HB|]. intros b s d k. split; [|tauto]. intros [Hr Hn]. split; [done|].
      intros [Hk|?]; [|done]. apply Hn. rewrite Hk. by apply (list_elem_of_fmap_2 fst) in Hx.
    + intros k Hne. by rewrite Hm, decide_False.
    + left. by apply (list_elem_of_fmap_2 fst) in Hx.
Qed.

(** The header is kept apart from the entries. *)
Lemma level_header (h : LedgerHeader) (x : bool) :
  level f (set_mActiveHeader x (set_mHeader h t)) (a_set_header h x a).
Proof.
  destruct Hl as [[[] []] ? []]. split; [split; split; done|done|split; done].
Qed.

Lemma set_header_same (x : bool) :
  set_mActiveHeader x t = set_mActiveHeader x (set_mHeader (mHeader t) t).
Proof. by destruct t. Qed.

Lemma loadHeader_level : sim_res (level f) (loadHeader t) (a_loadHeader a).
Proof.
  pose proof (lv_sim _ _ _ Hl) as [Hc Ha]. unfold loadHeader, a_loadHeader.
  rewrite (unsealed_sim _ _ _ _ (lv_sim _ _ _ Hl)). destruct (a_unsealed a); [|done]. cbn [res_bind].
  rewrite (cs_headerActive _ _ _ Hc). destruct (mActiveHeader t); [done|]. split; [by rewrite (cs_header _ _ _ Hc)|].
  rewrite set_header_same, (cs_header _ _ _ Hc). apply level_header.
Qed.

Lemma assignHeader_level (h : LedgerHeader) :
  sim_res (level f) (silent (assignHeader h) r l t) (a_assignHeader h a).
Proof.
  pose proof (lv_sim _ _ _ Hl) as [Hc Ha]. unfold silent, assignHeader, a_assignHeader.
  rewrite (cs_headerActive _ _ _ Hc). destruct (mActiveHeader t) eqn:Hh; [|done]. split; [done|].
  replace (set_mHeader h t) with (set_mActiveHeader true (set_mHeader h t)) by (rewrite <- Hh; by destruct t).
  apply level_header.
Qed.

Lemma deactivateHeader_level : sim_res (level f) (silent deactivateHeader r l t) (a_deactivateHeader a).
Proof.
  pose proof (lv_sim _ _ _ Hl) as [Hc Ha]. unfold silent, deactivateHeader, a_deactivateHeader.
  rewrite (cs_headerActive _ _ _ Hc). destruct (mActiveHeader t); [|done]. split; [done|].
  rewrite set_header_same, (cs_header _ _ _ Hc). apply level_header.
Qed.

Lemma unsealHeader_level (g : LedgerHeader -> LedgerHeader) :
  sim_res (level f) (silent (unsealHeader g) r l t) (a_unsealHeader g a).
Proof.
  pose proof (lv_sim _ _ _ Hl) as [Hc Ha]. unfold silent, unsealHeader, a_unsealHeader.
  rewrite (cs_headerActive _ _ _ Hc), (cs_sealed _ _ _ Hc), (cs_header _ _ _ Hc).
  destruct (mIsSealed t); [|done]. destruct (mActiveHeader t) eqn:Hh; [done|]. split; [done|].
  replace (set_mHeader (g (mHeader t)) t) with (set_mActiveHeader false (set_mHeader (g (mHeader t)) t))
    by (rewrite <- Hh; by destruct t).
  apply level_header.
Qed.

Lemma offer_of_stamp (h : LedgerHeader) (e : InternalLedgerEntry) : offer_of (stamp h e) = offer_of e.
Proof. by destruct e. Qed.

Lemma seal_level : level f (seal t) (a_seal a).
Proof.
  pose proof (seal_sim f t a (lv_sim _ _ _ Hl)) as Hs'. split; [done| |].
  - unfold a_seal. destruct (a_sealed a); [apply Hl|]. simpl. destruct (a_stamps a); [|apply Hl].
    intros k e. rewrite stamp_find. case_decide; [|by apply Hl].
    intros (x&Hx&->)%fmap_Some o. rewrite offer_of_stamp. by apply (lv_wf _ _ _ Hl k).
  - unfold seal. destruct (mIsSealed t) eqn:Hse; [apply Hl|]. apply (offers_step f t); [apply Hl| | |done].
    + unfold maybeUpdateLastModified. by destruct (mShouldUpdateLastModified t).
    + intros k _ Hr. unfold maybeUpdateLastModified. destruct (mShouldUpdateLastModified t); [|done]. simpl.
      rewrite (map_find_fmap (fun _ => stampPtr (mHeader t))). by apply fmap_is_Some.
Qed.

Section parent.
Context (parent : list (InternalLedgerKey * InternalLedgerEntry)) (header : LedgerHeader).
Context (Hparent : forall k, map_find k parent = f k) (Hheader : header = getHeader r l) (Hf : view_ok f).

Lemma getChanges_level :
  sim_res (level f) (getChanges r l t)
    (let a := a_seal a in Ok (concat (change_of <$> a_delta parent a), a)).
Proof.
  pose proof seal_level as Hl'. pose proof (lv_sim _ _ _ Hl') as [Hc' _]. unfold getChanges.
  rewrite (cs_exact _ _ _ (proj1 (lv_sim _ _ _ Hl))).
  rewrite entryChanges_delta by (done || by eapply versions_sim). cbn [res_bind].
  split; [|done]. by rewrite <- (delta_sim f parent (seal t) (a_seal a)).
Qed.

Lemma getDelta_level :
  sim_res (level f) (getDelta r l t)
    (let a := a_seal a in Ok (a_delta parent a, (a_header a, header), a)).
Proof.
  pose proof seal_level as Hl'. pose proof (lv_sim _ _ _ Hl') as [Hc' _]. unfold getDelta.
  rewrite (cs_exact _ _ _ (proj1 (lv_sim _ _ _ Hl))). split; [|done].
  rewrite <- (delta_sim f parent (seal t) (a_seal a)) by done. by rewrite (cs_header _ _ _ Hc'), Hheader.
Qed.

Lemma getAllEntries_level :
  sim_res (level f) (getAllEntries r l t) (let a := a_seal a in Ok (batch_of (a_delta parent a), a)).
Proof.
  pose proof seal_level as Hl'. pose proof (lv_sim _ _ _ Hl') as [Hc' _]. split; [|done].
  rewrite (classify_delta f) by (by eapply versions_sim). by rewrite (delta_sim f parent (seal t) (a_seal a)).
Qed.

Lemma hasSponsorship_level :
  sim_res (level f) (let? b := hasSponsorshipEntry t in Ok (b, t))
    (Ok (existsb (fun p => negb (isLedgerKey (fst p))) (a_delta parent a), a)).
Proof.
  unfold hasSponsorshipEntry. pose proof (lv_sim _ _ _ Hl) as [Hc _]. rewrite (cs_exact _ _ _ Hc). cbn [res_bind].
  split; [|done]. rewrite <- (delta_sim f parent t a) by done. unfold recorded_delta.
  induction (mEntry t) as [|[k p] m IH]; [done|]. rewrite fmap_cons. simpl. rewrite IH. by destruct k.
Qed.
End parent.

End txn.

(** ** The best offer, which is loaded *)

Lemma is_best_ext (v v' : View) (b s : Asset) (w : option OfferDescriptor) (x : option LedgerEntry) :
  (forall k, v k = v' k) -> is_best v b s w x -> is_best v' b s w x.
Proof.
  intros Hv. assert (forall e o, view_offer v b s e o <-> view_offer v' b s e o) as Hvo
    by (intros; unfold view_offer; by rewrite Hv).
  destruct x as [e|]; simpl.
  - intros (o&He&Hw&Hb). exists o. split; [by apply Hvo|]. split; [done|]. intros e' o' He'. by eapply Hb, Hvo.
  - intros Hn e o He. by apply (Hn e o), Hvo.
Qed.

(** The offers of a copy. *)
Lemma snapshot_best_ok (m : list (InternalLedgerKey * InternalLedgerEntry)) (b s : Asset) :
  ordered m -> (forall k e, map_find k m = Some e -> toKey e = k) -> snapshot_wf m ->
  is_best (fun k => map_find k m) b s None (fst <$> snapshot_best b s m).
Proof.
  intros Ho Hk Hwf. unfold snapshot_best.
  set (l := omap _ m). assert (forall e o, (e, o) ∈ l <-> view_offer (fun k => map_find k m) b s e o) as Hl.
  { intros e o. subst l. rewrite list_elem_of_omap. unfold view_offer. split.
    - intros ([k x]&Hin&Hx). apply map_find_elem in Hin; [|done]. simpl in Hx. destruct x as [x| |]; try done.
      destruct (le_data x) eqn:Hd; try done. case_bool_decide; simplify_eq.
      rewrite <- (Hk _ _ Hin) in Hin. simpl in Hin. naive_solver.
    - intros (Hf&Hd&Hb&Hs). exists (LEDGER_ENTRY_KEY (LedgerEntryKey e), LEDGER_ENTRY e).
      split; [by apply map_find_elem|]. simpl. rewrite Hd. by rewrite bool_decide_true by done. }
  pose proof (best_of_ok owner l) as Hbest.
  assert (forall x, x ∈ l -> offer_wf owner (snd x)) as Hok.
  { intros [e o] (Hf&Hd&_)%Hl. apply (Hwf _ _ Hf). simpl. by rewrite Hd. }
  specialize (Hbest Hok). clearbody l. destruct (best_of l) as [[e o]|]; simpl.
  - destruct Hbest as [Hin Hbest]. exists o. split; [by apply Hl|]. split; [done|].
    intros e' o' He' _. apply (Hbest (e', o')). by apply Hl.
  - intros e o He. apply Hl in He. rewrite Hbest in He. by apply elem_of_nil in He.
Qed.

(** A bound that holds can be kept. *)
Lemma worst_level (f : View) (b s : Asset) (w : option OfferDescriptor) (t : Txn) (a : ATxn) :
  level f t a -> bound_ok w ->
  (forall e o, view_offer f b s e o -> past w o = false ->
     is_Some (map_find (LEDGER_ENTRY_KEY (LedgerEntryKey e)) (mEntry t))) ->
  level f (updateWorstBestOffer b s w t) a.
Proof.
  intros Hl Hw Hrec. unfold updateWorstBestOffer. destruct (match mWorstBestOffer t b s with Some _ => _ | None => _ end);
    [|done]. destruct Hl as [[[] []] ? [HB Hbd Hwo]]. split; [split; split; done|done|]. split; [done| |]; simpl.
  - intros b' s' w'. unfold upd2. case_decide; [|by apply Hbd]. by intros [= <-].
  - intros b' s' w' e o. unfold upd2. case_decide as E; [|by apply Hwo]. destruct E as [-> ->].
    intros [= <-]. apply Hrec.
Qed.

Section best.
Context (r : Root) (l : list Txn) (t : Txn) (a : ATxn).
Let f : View := getNewestVersion r l.
Context (Hl : level f t a) (Hstack : stack_offers owner r l).

Lemma a_load_ok (k : InternalLedgerKey) (x : option InternalLedgerEntry) (a' : ATxn) :
  a_load true k a = Ok (x, a') ->
  x = map_find k (a_map a) /\ (is_Some x -> k ∈ a_touched a') /\
  forall k', k' ∈ a_touched a -> k' ∈ a_touched a'.
Proof.
  unfold a_load. destruct (a_unsealed a); [|done]. cbn [res_bind]. destruct (active_find k (a_active a)); [done|].
  destruct (map_find k (a_map a)); intros [= <- <-]; (split; [done|]); [|by split; [intros [? [=]]|]].
  simpl. split; [intros _|intros k' Hk']; apply elem_of_set_insert; auto.
Qed.

Lemma touched_recorded (g : View) (u : Txn) (c : ATxn) (k : InternalLedgerKey) :
  core_sim g u c -> is_Some (g k) -> is_Some (map_find k (mEntry u)) <-> k ∈ a_touched c.
Proof.
  intros Hc [x Hx]. rewrite (cs_entry _ _ _ Hc), Hx. case_decide; [|by split; [intros [? [=]]|]].
  split; [done|]. intros _. destruct (map_find k (a_map c)); eauto.
Qed.

Lemma top_stack : mActive t = [] -> mIsSealed t = false -> stack_offers owner r (t :: l).
Proof.
  intros Ha Hse. pose proof (lv_sim _ _ _ Hl) as [Hc _]. simpl. split_and!; try done.
  - apply Hc.
  - by eapply level_entries.
  - apply Hl.
Qed.

Lemma best_sim (b s : Asset) :
  mActive t = [] -> mIsSealed t = false ->
  exists x, getBestOffer r (t :: l) b s None = Ok x /\ fst <$> snapshot_best b s (a_map a) = x /\
    is_best (getNewestVersion r (t :: l)) b s None x.
Proof.
  intros Ha Hse. pose proof (top_stack Ha Hse) as Hst. pose proof (lv_sim _ _ _ Hl) as [Hc _].
  destruct (getBestOffer_ok owner r b s (t :: l) Hst None I) as (x&Hx&Hb). exists x. split_and!; [done| |done].
  eapply (is_best_unique owner); [by apply stack_view_wf| |exact Hb].
  eapply is_best_ext; [|apply snapshot_best_ok; [apply Hc|apply Hc|apply Hl]].
  intros k. symmetry. apply (newest_sim r l t a), Hl.
Qed.

Lemma loadBestOffer_level (b s : Asset) : sim_res (level f) (loadBestOffer b s r l t) (a_loadBestOffer b s a).
Proof.
  pose proof (lv_sim _ _ _ Hl) as Hs. pose proof Hs as [Hc Ha]. unfold loadBestOffer, a_loadBestOffer.
  rewrite <- (unsealed_sim _ _ _ _ Hs). destruct (throwIfSealed t) as [u|] eqn:Hse; [|done]. cbn [res_bind].
  apply unsealed_inv in Hse. rewrite (as_active _ _ Ha). destruct (mActive t) as [|x0 l0] eqn:Hact;
    [|cbn [getBestOffer]; rewrite Hact; done]. cbn [negb].
  destruct (best_sim b s Hact Hse) as (x&->&Hsb&Hbest). cbn [res_bind].
  pose proof (stack_view_wf owner r l Hstack) as Hfwf.
  assert (view_wf owner (getNewestVersion r (t :: l))) as Hvwf by (by apply stack_view_wf, top_stack).
  destruct (snapshot_best b s (a_map a)) as [[e o]|]; simpl in Hsb; subst x.
  - pose proof (load_level r l t a Hl (LEDGER_ENTRY_KEY (LedgerEntryKey e))) as Hload.
    destruct Hbest as (o'&Hv&_&Hbest).
    destruct (a_load true (LEDGER_ENTRY_KEY (LedgerEntryKey e)) a) as [[y a1]|er] eqn:Hal.
    2:{ exfalso. unfold a_load, a_unsealed in Hal. rewrite (cs_sealed _ _ _ Hc), Hse, (as_active _ _ Ha), Hact in Hal.
        simpl in Hal. by destruct (map_find _ (a_map a)). }
    destruct (load _ r l t) as [[y' t1]|]; [|done]. destruct Hload as [-> Hl1]. cbn [res_bind].
    destruct Hv as (Hve&Hd&Hb&Hsl). unfold entry_offer. rewrite Hd. cbn [res_bind]. split; [done|].
    apply a_load_ok in Hal as (Hy&Htouched&Hmono). rewrite <- (newest_sim r l t a Hs), Hve in Hy.
    assert (is_Some y) as Hsome by (rewrite Hy; eauto). specialize (Htouched Hsome).
    apply worst_level; [done|apply (Hvwf _ _ Hve); simpl; by rewrite Hd|].
    intros e2 o2 Hv2 Hp2. pose proof (lv_sim _ _ _ Hl1) as [Hc1 _]. pose proof (proj1 Hv2) as Hf2.
    apply (touched_recorded f t1 a1); [done|rewrite Hf2; eauto|].
    destruct (decide (LEDGER_ENTRY_KEY (LedgerEntryKey e2) ∈ a_touched a1)) as [|Hn]; [done|exfalso].
    assert (map_find (LEDGER_ENTRY_KEY (LedgerEntryKey e2)) (mEntry t) = None) as Hun.
    { rewrite (cs_entry _ _ _ Hc), decide_False; [done|]. intros Hin. by apply Hn, Hmono. }
    apply (unrecorded_offer f (mEntry t)) in Hv2; [|done]. simpl in Hp2.
    rewrite (better_total owner b s (getNewestVersion r (t :: l)) e2 e o2 o') in Hp2; [done|done|done| | |].
    + by split_and!.
    + intros Heq. apply Hn. by rewrite Heq.
    + by eapply Hbest.
  - cbn [res_bind]. split; [done|]. apply worst_level; [done|done|]. intros e o Hv _.
    destruct (map_find _ (mEntry t)) as [q|] eqn:Hq; [eauto|exfalso].
    apply (unrecorded_offer f (mEntry t)) in Hv; [|done]. by specialize (Hbest e o Hv).
Qed.
End best.
End owner.
