(* ===== verification/LedgerTxnRefinement.v ===== *)
(** * Commits, and whole runs of ledger transactions

    Opening, committing and rolling back, the simulation of the whole stack and
    of the database under it, and the closing of ledgers: what a transaction on
    the database gives to the bucket list is what it does to the database. *)
From stdpp Require Import base tactics list numbers sets.
From Stdlib Require Import ZArith Lia Bool.
From S2P Require Import Prelude Containers OfferExchange LedgerEntries Float64 Bucket BucketMerge LedgerTxn LedgerTxnSpec LedgerTxnTheorems LedgerTxnOffers LedgerTxnStack.

Open Scope Z_scope.
Open Scope kin_scope.

Section owner.
Context (owner : Z -> AccountID).
Notation level := (level owner).

(** ** Committing to a parent transaction *)

Definition a_writes (m : EntryMap) (a : ATxn) : ATxn :=
  foldl (fun a p => a_write (fst p) (ptr_get (snd p)) a) a m.

Lemma a_writes_find (m : EntryMap) (a : ATxn) (k : InternalLedgerKey) :
  ordered m -> ordered (a_map a) ->
  map_find k (a_map (a_writes m a)) = overlay m (fun k => map_find k (a_map a)) k /\
  ordered (a_map (a_writes m a)) /\
  (k ∈ a_touched (a_writes m a) <-> is_Some (map_find k m) \/ k ∈ a_touched a).
Proof.
  revert a. unfold overlay. induction m as [|[k1 p] m IH]; intros a Hm Ha.
  { simpl. split; [done|]. split; [done|]. split; [by right|]. by intros [[? [=]]|]. }
  pose proof (ordered_head _ _ _ Hm) as Hh. inversion Hm as [|? ? Hm' _]; subst.
  destruct (IH (a_write k1 (ptr_get p) a)) as (IH1&IH2&IH3); [done|by apply ordered_put|].
  simpl in *. split_and!; [|done|].
  - rewrite IH1, map_find_put by done. destruct (eqb_of k k1) eqn:E.
    + apply eqb_of_true in E as ->. by rewrite Hh, decide_True.
    + apply eqb_of_false in E. by rewrite decide_False.
  - rewrite IH3, elem_of_set_insert. destruct (eqb_of k k1) eqn:E.
    + apply eqb_of_true in E as ->. rewrite Hh. naive_solver.
    + apply eqb_of_false in E. naive_solver.
Qed.

Lemma a_writes_rest (m : EntryMap) (a : ATxn) :
  a_header (a_writes m a) = a_header a /\ a_headerActive (a_writes m a) = a_headerActive a /\
  a_active (a_writes m a) = a_active a /\ a_stamps (a_writes m a) = a_stamps a /\
  a_sealed (a_writes m a) = a_sealed a.
Proof. revert a. induction m as [|p m IH]; intros a; [done|]. apply (IH (a_write (fst p) (ptr_get (snd p)) a)). Qed.

(** Without active entries. *)
Definition idle (t : Txn) : Prop := mActive t = [] /\ mIsSealed t = false /\ mActiveHeader t = false.

Lemma updateEntries_level (g : View) (m : EntryMap) (t : Txn) (a : ATxn) :
  level g t a -> idle t -> ordered m ->
  (forall k p, map_find k m = Some p -> change_ok (map_find k (a_map a)) k p) ->
  (forall k p e, map_find k m = Some p -> ptr_get p = Some e -> entry_wf owner e) ->
  exists t', updateEntries m t = Ok t' /\ level g t' (a_writes m a) /\ idle t' /\
    mWorstBestOffer t' = mWorstBestOffer t /\ mHeader t' = mHeader t.
Proof.
  revert t a. induction m as [|[k p] m IH]; intros t a Hl Hi Hm Hch Hwf; [by exists t|].
  pose proof (ordered_head _ _ _ Hm) as Hh. inversion Hm as [|? ? Hm' _]; subst.
  pose proof (lv_sim _ _ _ _ Hl) as [Hc Ha]. destruct Hi as (Hact&Hse&Hah).
  assert (change_ok (map_find k (a_map a)) k p) as Hp by (apply Hch; simpl; by rewrite eqb_of_refl).
  assert (forall e, ptr_get p = Some e -> entry_wf owner e) as Hpw
    by (intros e; apply (Hwf k); simpl; by rewrite eqb_of_refl).
  assert (forall k' q, map_find k' m = Some q -> k' <> k /\ map_find k' ((k, p) :: m) = Some q) as Htail.
  { intros k' q Hq. assert (k' <> k) as Hne by congruence. split; [done|]. simpl.
    by rewrite (proj2 (eqb_of_false _ _) Hne). }
  destruct (updateEntry_sim g k p false t a Hc Hp) as (m1&Hu&Hc1). simpl. rewrite Hu. cbn [res_bind].
  destruct (IH (set_mEntry m1 (set_mMultiOrderBook (new_book k p false t) t)) (a_write k (ptr_get p) a))
    as (t'&?&?&?&?&?); [|by split_and!|done| | |by exists t'].
  - split.
    + split; [done|]. apply active_sim_nil; [done|]. simpl. by rewrite (as_active _ _ Ha).
    + apply (snapshot_put owner k); [apply Hc|apply Hl|done].
    + apply (offers_write owner g k p false t _ m1);
        [apply Hl|done|by eapply core_entries_wf; [|apply Hl]| | |done..|].
      * intros e He. split; [by eapply change_key|by apply Hpw].
      * intros k'. by apply (written_entry g t (set_mEntry m1 _) a k k') in Hc1.
      * intros k'. simpl. rewrite Hact. simpl. rewrite elem_of_nil. naive_solver.
  - intros k' q Hq. destruct (Htail k' q Hq) as [Hne Hf]. simpl. rewrite map_find_put by apply Hc.
    rewrite decide_False by done. by apply Hch.
  - intros k' q e Hq. apply (Hwf k'). by apply Htail.
Qed.

(** The child's versions are changes of what the parent has. *)
Lemma child_changes (f : View) (t : Txn) (a : ATxn) (k : InternalLedgerKey) (p : LedgerEntryPtr) :
  core_sim f t a -> map_find k (mEntry t) = Some p -> change_ok (f k) k p.
Proof. intros Hc. apply (versions_sim _ _ _ Hc). Qed.

(** More keys may be said to be touched where there is nothing. *)
Lemma core_sim_retouch (g : View) (t : Txn) (a : ATxn) (T : list InternalLedgerKey) (h : LedgerHeader)
    (w : WorstBestOfferMap) (l : list (InternalLedgerKey * ActiveKind)) :
  core_sim g t a -> increasing T -> (forall k, k ∈ a_touched a -> k ∈ T) ->
  (forall k, k ∈ T -> k ∉ a_touched a -> g k = None) ->
  core_sim g (set_mHeader h (set_mWorstBestOffer w t))
    (mkATxn (a_map a) T h (a_headerActive a) l (a_stamps a) (a_sealed a)).
Proof.
  intros Hc HT Hsub Hnew. pose proof Hc as []. split; try done; simpl.
  - intros k. rewrite cs_entry. destruct (decide (k ∈ a_touched a)) as [Hk|Hk]; [by rewrite decide_True by auto|].
    case_decide; [|done]. by rewrite cs_rest, (Hnew k).
  - intros k Hk. apply cs_rest. auto.
Qed.

Lemma elem_of_foldr_insert (k : InternalLedgerKey) (T T' : list InternalLedgerKey) :
  k ∈ foldr set_insert T T' <-> k ∈ T' \/ k ∈ T.
Proof. induction T' as [|x T' IH]; simpl; [set_solver|]. rewrite elem_of_set_insert, IH. set_solver. Qed.

Lemma increasing_foldr_insert (T T' : list InternalLedgerKey) : increasing T -> increasing (foldr set_insert T T').
Proof. intros HT. induction T' as [|x T' IH]; simpl; [done|]. by apply increasing_set_insert. Qed.

(** The bounds of the child hold for the parent, which now records what the
    child did. *)
Lemma merge_offers (g : View) (c t t1 : Txn) (h : LedgerHeader) :
  offers_ok (overlay (mEntry t) g) c -> offers_ok g t1 -> idle t1 ->
  (forall k, is_Some (g k) -> is_Some (map_find k (mEntry t)) \/ is_Some (map_find k (mEntry c)) ->
     is_Some (map_find k (mEntry t1))) ->
  offers_ok g (set_mHeader h (set_mWorstBestOffer
    (mergeWorstBestOffers (mWorstBestOffer c) (mWorstBestOffer t1)) t1)).
Proof.
  intros [_ Hbc Hwc] [HB Hb Hw] Hi Hrec. split; [done| |]; simpl; unfold mergeWorstBestOffers.
  - intros b s w. destruct (mWorstBestOffer c b s) as [d|] eqn:Hd; [|apply Hb].
    destruct (match mWorstBestOffer t1 b s with Some _ => _ | None => _ end); [|apply Hb].
    intros [= <-]. by eapply Hbc.
  - intros b s w e o Hw' Hv Hp.
    destruct (mWorstBestOffer c b s) as [d|] eqn:Hd; [|by eapply Hw].
    destruct (match mWorstBestOffer t1 b s with Some _ => _ | None => _ end); [|by eapply Hw].
    simplify_eq. apply Hrec; [destruct Hv as [-> _]; eauto|].
    destruct (map_find (LEDGER_ENTRY_KEY (LedgerEntryKey e)) (mEntry t)) as [q|] eqn:Hq; [eauto|right].
    eapply Hwc; [done| |done]. by apply unrecorded_offer.
Qed.

Lemma commitChild_level (g : View) (c t : Txn) (ac a : ATxn) :
  level g t a -> idle t -> level (overlay (mEntry t) g) c ac ->
  exists t', commitChild c t = Ok t' /\ idle t' /\
    level g t' (mkATxn (a_map ac) (foldr set_insert (a_touched a) (a_touched ac)) (a_header ac) false []
                  (a_stamps a) false).
Proof.
  intros Hl Hi Hlc. pose proof (lv_sim _ _ _ _ Hl) as [Hc Ha]. pose proof (lv_sim _ _ _ _ Hlc) as [Hcc Hac].
  pose proof (versions_sim _ _ _ Hcc) as [Hord _]. pose proof (core_entries_wf owner _ _ _ Hcc (lv_wf _ _ _ _ Hlc)) as Hew.
  assert (set_mConsistency (joinConsistencyLevels (mConsistency t) (mConsistency c)) t = t) as Hcons.
  { rewrite (cs_exact _ _ _ Hc), (cs_exact _ _ _ Hcc). simpl. rewrite <- (cs_exact _ _ _ Hc). by destruct t. }
  destruct (updateEntries_level g (mEntry c) t a Hl Hi Hord) as (t1&Hu&Hl1&(Hi1&Hs1&Hh1)&Hw1&_).
  { intros k p Hp. rewrite <- (overlay_sim g t a) by done. by eapply child_changes. }
  { intros k p e Hp He. by eapply Hew. }
  unfold commitChild. rewrite Hcons. destruct Hi as (Hact&Hse&Hah). rewrite Hact. cbn [negb]. rewrite Hu. cbn [res_bind].
  eexists. split; [done|]. split; [by split_and!|]. pose proof (lv_sim _ _ _ _ Hl1) as [Hc1 _].
  assert (forall k, _) as Hfind by exact (fun k => a_writes_find (mEntry c) a k Hord (cs_map _ _ _ Hc)).
  assert (forall k, overlay (mEntry t) g k = map_find k (a_map a)) as Hover by (intros; by apply overlay_sim).
  assert (a_map (a_writes (mEntry c) a) = a_map ac) as Hmap.
  { apply ordered_ext; [apply Hc1|apply Hcc|]. intros k. rewrite (proj1 (Hfind k)).
    rewrite <- (overlay_sim _ _ _ k Hcc). unfold overlay at 1 2. by rewrite Hover. }
  destruct (a_writes_rest (mEntry c) a) as (_&Hha&_&Hst&Hsea). split.
  - split; [|by apply active_sim_nil].
    pose proof (core_sim_retouch g t1 (a_writes (mEntry c) a) (foldr set_insert (a_touched a) (a_touched ac))
      (mHeader c) (mergeWorstBestOffers (mWorstBestOffer c) (mWorstBestOffer t1)) []) as Hre.
    rewrite Hmap, Hha, Hst, Hsea, (cs_headerActive _ _ _ Hc), Hah, (cs_sealed _ _ _ Hc), Hse in Hre.
    rewrite (cs_header _ _ _ Hcc). apply Hre; [done|by apply increasing_foldr_insert, Hc| |].
    + intros k Hk. apply elem_of_foldr_insert. apply Hfind in Hk as [[p Hp]|Hk]; [left|by right].
      rewrite (cs_entry _ _ _ Hcc) in Hp. by case_decide.
    + intros k Hk Hnk. rewrite elem_of_foldr_insert in Hk. rewrite (proj2 (proj2 (Hfind k))) in Hnk.
      assert (map_find k (mEntry c) = None) as Hnone by (destruct (map_find k (mEntry c)); [naive_solver|done]).
      rewrite (cs_entry _ _ _ Hcc), Hover, decide_True in Hnone by naive_solver.
      rewrite <- (cs_rest _ _ _ Hc) by tauto. by destruct (map_find k (a_map a)), (map_find k (a_map ac)).
  - apply Hlc.
  - apply (merge_offers g c t); [apply Hlc|apply Hl1|by split_and!|]. intros k Hk Hr.
    apply (touched_recorded g t1 (a_writes (mEntry c) a)); [done|done|]. apply Hfind.
    destruct Hr as [Hr|Hr]; [right|by left]. by apply (touched_recorded g t a).
Qed.

(** ** Committing to the database *)

(** The entry of the ledger a version stands for. *)
Definition ledger_entry (p : LedgerEntryPtr) : option LedgerEntry :=
  match ptr_get p with Some (LEDGER_ENTRY e) => Some e | _ => None end.

Lemma bulkApply_ok (m : EntryMap) (db : list (LedgerKey * LedgerEntry)) :
  ordered m -> ordered db ->
  (forall k p, map_find (LEDGER_ENTRY_KEY k) m = Some p ->
     match p with
     | INIT e | LIVE e => exists x, e = LEDGER_ENTRY x
     | DELETED => is_Some (map_find k db)
     end) ->
  exists db', bulkApply EXACT m db = Ok db' /\ ordered db' /\
    forall k, map_find k db' =
      match map_find (LEDGER_ENTRY_KEY k) m with Some p => ledger_entry p | None => map_find k db end.
Proof.
  revert db. induction m as [|[k1 p] m IH]; intros db Hm Hdb Hp; [by exists db|].
  pose proof (ordered_head _ _ _ Hm) as Hh. inversion Hm as [|? ? Hm' _]; subst.
  destruct k1 as [k1|x|x].
  2,3: destruct (IH db) as (db'&Hb&Ho&Hf); [done|done|by intros k p' Hk; apply Hp|]; by exists db'.
  assert (forall k, eqb_of (LEDGER_ENTRY_KEY k) (LEDGER_ENTRY_KEY k1) = eqb_of k k1) as Heqb by done.
  assert (exists db1, match p with
    | INIT (LEDGER_ENTRY e) | LIVE (LEDGER_ENTRY e) => Ok (map_set k1 e db)
    | DELETED => match map_find k1 db with None => Err (Aborts DeletedRowMissing) | _ => Ok (map_erase k1 db) end
    | _ => Ok db end = Ok db1 /\ ordered db1 /\
    forall k, map_find k db1 = if eqb_of k k1 then ledger_entry p else map_find k db) as (db1&Hb1&Ho1&Hf1).
  { specialize (Hp k1 p). simpl in Hp. rewrite Heqb, eqb_of_refl in Hp. specialize (Hp eq_refl).
    destruct p as [e|e|].
    - destruct Hp as [x ->]. eexists. split; [done|]. split; [by apply ordered_map_set|]. intros k.
      apply map_find_set.
    - destruct Hp as [x ->]. eexists. split; [done|]. split; [by apply ordered_map_set|]. intros k.
      apply map_find_set.
    - destruct Hp as [x Hx]. rewrite Hx. eexists. split; [done|]. split; [by apply ordered_map_erase|].
      intros k. by apply map_find_erase. }
  destruct (IH db1) as (db'&Hb&Ho&Hf); [done|done| |].
  - intros k q Hq. assert (k <> k1) as Hne by congruence. specialize (Hp k q). simpl in Hp.
    rewrite Heqb, (proj2 (eqb_of_false _ _) Hne) in Hp. specialize (Hp Hq). destruct q; [done|done|].
    by rewrite Hf1, (proj2 (eqb_of_false _ _) Hne).
  - exists db'. split; [|split; [done|]].
    + simpl. destruct p as [[]|[]|]; simpl in *; simplify_eq/=; try done.
      destruct (map_find k1 db); by simplify_eq/=.
    + intros k. rewrite Hf, Hf1. simpl. rewrite Heqb. destruct (eqb_of k k1) eqn:E; [|done].
      apply eqb_of_true in E as ->. by rewrite Hh.
Qed.

(** The database and its copy. *)
Record root_sim (r : Root) (s : ALedger) : Prop := {
  rs_ok : root_ok owner r;
  rs_ordered : ordered (al_map s);
  rs_map : forall k, map_find k (al_map s) = root_newest r k;
  rs_header : al_header s = root_header r;
  rs_writable : al_writable s = root_transaction r;
}.

Lemma map_find_filter {K V : Type} `{TotalLt K} (P : K -> bool) (m : list (K * V)) (k : K) :
  map_find k (filter (fun p => P (fst p) = true) m) = if P k then map_find k m else None.
Proof.
  induction m as [|[k1 v] m IH]; [by destruct (P k)|]. rewrite filter_cons. simpl.
  destruct (eqb_of k k1) eqn:E.
  - apply eqb_of_true in E as ->. destruct (P k1) eqn:HP; simpl; [by rewrite eqb_of_refl|done].
  - destruct (P k1) eqn:HP; simpl; [by rewrite E|done].
Qed.

Lemma ordered_filter {K V : Type} `{TotalLt K} (P : K * V -> bool) (m : list (K * V)) :
  ordered m -> ordered (filter (fun p => P p = true) m).
Proof.
  unfold ordered, map_keys. induction m as [|x m IH]; intros Hm; [constructor|].
  inversion Hm as [|? ? Hm' Hall]; subst. rewrite filter_cons. case_decide; [|by apply IH].
  simpl. constructor; [by apply IH|]. rewrite Forall_forall in Hall |- *. intros y Hy. apply Hall.
  apply list_elem_of_fmap in Hy as (z&->&[_ Hz]%list_elem_of_filter). by apply list_elem_of_fmap_2.
Qed.

Lemma rootCommit_sim (r : Root) (s : ALedger) (c : Txn) (ac : ATxn) (l : list ATxn) :
  root_sim r s -> level (root_newest r) c ac -> root_transaction r = true ->
  exists r', rootCommitChild c r = Ok r' /\ root_transaction r' = false /\
    (forall k, map_find k (root_entries r') = match map_find (LEDGER_ENTRY_KEY k) (mEntry c) with
       | Some p => ledger_entry p | None => map_find k (root_entries r) end) /\
    root_sim r' {| al_map := filter (fun p => isLedgerKey (fst p) = true) (a_map ac); al_header := a_header ac;
                   al_writable := false; al_txns := l |}.
Proof.
  intros Hr Hl Hrw. pose proof (lv_sim _ _ _ _ Hl) as [Hc _]. pose proof (rs_ok _ _ Hr) as [Hro Hrk].
  pose proof (versions_sim _ _ _ Hc) as [Hord Hver].
  destruct (bulkApply_ok (mEntry c) (root_entries r) Hord Hro) as (db&Hdb&Hdo&Hdf).
  { intros k p Hp. apply Hver in Hp. destruct p as [e|e|]; simpl in Hp.
    - by destruct Hp as [_ Hk%toKey_ledger].
    - by destruct Hp as [_ Hk%toKey_ledger].
    - destruct Hp as [x Hx]. apply fmap_Some in Hx as (y&Hy&_). eauto. }
  unfold rootCommitChild. rewrite Hrw, (cs_exact _ _ _ Hc), Hdb. cbn [negb res_bind].
  eexists. split; [done|]. split; [done|]. split; [done|].
  assert (forall k, LEDGER_ENTRY <$> map_find k db = map_find (LEDGER_ENTRY_KEY k) (a_map ac)) as Hnew.
  { intros k. rewrite Hdf, <- (overlay_sim _ _ _ _ Hc). unfold overlay.
    destruct (map_find (LEDGER_ENTRY_KEY k) (mEntry c)) as [p|] eqn:Hp; [|done].
    apply Hver in Hp. unfold ledger_entry. destruct p as [e|e|]; simpl in *; [| |done];
      by destruct Hp as [_ [x ->]%toKey_ledger]. }
  split; simpl.
  - split; [done|]. simpl. intros k e He. specialize (Hnew k). rewrite He in Hnew. simpl in Hnew. symmetry in Hnew.
    split; [|by apply (lv_wf _ _ _ _ Hl _ _ Hnew)]. apply (cs_keys _ _ _ Hc) in Hnew. by simplify_eq/=.
  - apply (ordered_filter (fun p => isLedgerKey (fst p))), Hc.
  - intros k. rewrite (map_find_filter isLedgerKey). destruct k; simpl; [by rewrite Hnew|done..].
  - by rewrite (cs_header _ _ _ Hc).
  - done.
Qed.

(** ** Opening a child *)

Lemma deactivateAll_ok (f : View) (l : list (InternalLedgerKey * ActiveKind)) (t : Txn) (a : ATxn)
    (act : InternalLedgerKey -> Prop) :
  core_sim f t a -> snapshot_wf owner (a_map a) ->
  (forall k x, (k, x) ∈ l -> is_Some (map_find k (a_map a))) ->
  book_inv act (mEntry t) (mMultiOrderBook t) -> (forall k, act k -> k ∈ fst <$> l) ->
  exists B, deactivateAll l t = Ok (set_mMultiOrderBook B t) /\ book_inv (fun _ => False) (mEntry t) B.
Proof.
  revert t act. induction l as [|[k x] l IH]; intros t act Hc Hwf Hex HB Hact.
  - exists (mMultiOrderBook t). split; [by rewrite set_mMultiOrderBook_same|].
    eapply book_inv_ext; [exact HB|]. intros b s d k. split; [tauto|]. intros [Hr _]. split; [done|].
    intros Hk%Hact. by apply elem_of_nil in Hk.
  - simpl. rewrite (refresh_sim f k false t a) by (done || apply (Hex k x); set_solver). cbn [res_bind].
    destruct (IH (set_mMultiOrderBook (book_of k false t) t)
      (fun k' => k' = k /\ false = true \/ k' <> k /\ act k')) as (B&HB1&HB2).
    + exact (core_sim_book f t a (book_of k false t) Hc).
    + done.
    + intros k' x' Hin. apply (Hex k' x'). set_solver.
    + exact (offers_refresh owner k false act t HB (core_entries_wf owner f t a Hc Hwf)).
    + intros k' [[_ ?]|[Hne Hk]]; [done|]. apply Hact in Hk. rewrite fmap_cons, elem_of_cons in Hk. naive_solver.
    + exists B. by rewrite HB1.
Qed.

Lemma addChild_level (f : View) (t : Txn) (a : ATxn) :
  level f t a -> mIsSealed t = false ->
  exists t', addChild t = Ok t' /\ idle t' /\ mEntry t' = mEntry t /\
    level f t' (a_set_header (a_header a) false (a_set_active [] a)).
Proof.
  intros Hl Hse. pose proof (lv_sim _ _ _ _ Hl) as [Hc Ha]. unfold addChild, throwIfSealed. rewrite Hse.
  cbn [negb ensure res_bind].
  destruct (deactivateAll_ok f (mActive t) t a (fun k => k ∈ fst <$> mActive t)) as (B&HB&Hinv);
    [done|apply Hl|apply Ha|by apply (lv_offers _ _ _ _ Hl)|done|].
  rewrite HB. cbn [res_bind]. eexists. split; [done|]. split; [by split_and!|]. split; [done|].
  destruct Hc. split; [split; [by split|by apply active_sim_nil]|apply Hl|].
  apply (offers_step f t); [apply Hl|done|done|]. intros _. simpl.
  eapply book_inv_ext; [exact Hinv|]. intros b s d k. rewrite elem_of_nil. done.
Qed.

Lemma newTxn_level (f : View) (m : list (InternalLedgerKey * InternalLedgerEntry)) (h : LedgerHeader) (u : bool) :
  ordered m -> (forall k, map_find k m = f k) -> view_wf owner f ->
  level f (newTxn h u) (mkATxn m [] h false [] u false).
Proof.
  intros Ho Hm Hf. split; [split; [split|by apply active_sim_nil]| |]; try done; simpl.
  - constructor.
  - constructor.
  - intros k e. rewrite Hm. apply Hf.
  - intros k e. simpl. rewrite Hm. apply Hf.
  - split; [|done..]. intros _ b s. simpl. split; [split; constructor|]. intros d k. rewrite elem_of_nil.
    split; [done|]. intros [(?&?&?&?&_) _]. done.
Qed.

(** ** The whole stack *)

Fixpoint levels (r : Root) (l : list Txn) (al : list ATxn) : Prop :=
  match l, al with
  | [], [] => True
  | t :: l', a :: al' => level (getNewestVersion r l') t a /\ levels r l' al'
  | _, _ => False
  end.

Record ledger_sim (s : Ledger) (S : ALedger) : Prop := {
  ls_root : root_sim (lt_root s) S;
  ls_levels : levels (lt_root s) (lt_txns s) (al_txns S);
  ls_idle : Forall idle (tail (lt_txns s));
}.

Lemma levels_length (r : Root) (l : list Txn) (al : list ATxn) : levels r l al -> length l = length al.
Proof. revert al. induction l as [|t l IH]; intros [|a al]; simpl; try done. intros [_ Hl]. by rewrite (IH al). Qed.

Lemma levels_stack (r : Root) (l : list Txn) (al : list ATxn) :
  root_ok owner r -> levels r l al -> Forall idle l -> stack_offers owner r l.
Proof.
  intros Hr. revert al. induction l as [|t l IH]; intros [|a al]; simpl; try done.
  intros [Hl Hls] [(Hact&Hse&_) Hi]%Forall_cons. pose proof (lv_sim _ _ _ _ Hl) as [Hc _].
  split_and!; [done|done|apply Hc|by eapply core_entries_wf; [|apply Hl]|apply Hl|by eapply IH].
Qed.

(** The copy under a list of transactions, and its header. *)
Definition top_map (S : ALedger) (al : list ATxn) := match al with [] => al_map S | p :: _ => a_map p end.
Definition top_header (S : ALedger) (al : list ATxn) := match al with [] => al_header S | p :: _ => a_header p end.

Lemma top_find (r : Root) (S : ALedger) (l : list Txn) (al : list ATxn) :
  root_sim r S -> levels r l al ->
  ordered (top_map S al) /\ (forall k, map_find k (top_map S al) = getNewestVersion r l k) /\
  top_header S al = getHeader r l.
Proof.
  intros Hr. destruct l as [|t l], al as [|a al]; simpl; [intros _|done|done|intros [Hl _]].
  - split; [apply Hr|]. split; [apply Hr|apply Hr].
  - pose proof (lv_sim _ _ _ _ Hl) as [Hc Ha]. split; [apply Hc|]. split; [|apply Hc].
    intros k. symmetry. by apply (newest_sim r l t a).
Qed.

Lemma onTop_sim {A} (e : ltx_error) (d : nat) (g : Root -> list Txn -> Txn -> ltx (A * Txn))
    (h : list (InternalLedgerKey * InternalLedgerEntry) -> LedgerHeader -> ATxn -> ltx (A * ATxn)) (s : Ledger) (S : ALedger) :
  ledger_sim s S ->
  (forall l al t a, level (getNewestVersion (lt_root s) l) t a -> stack_offers owner (lt_root s) l ->
     (forall k, map_find k (top_map S al) = getNewestVersion (lt_root s) l k) ->
     top_header S al = getHeader (lt_root s) l ->
     sim_res (level (getNewestVersion (lt_root s) l)) (g (lt_root s) l t) (h (top_map S al) (top_header S al) a)) ->
  sim_res ledger_sim (onTop e d g s) (abs_onTop e d h S).
Proof.
  intros [Hr Hls Hi] Hg. unfold onTop, abs_onTop. pose proof (levels_length _ _ _ Hls) as Hlen.
  destruct (lt_txns s) as [|t l], (al_txns S) as [|a al]; try done.
  rewrite Hlen. destruct (length (a :: al) <=? d)%nat; [done|]. destruct (0 <? d)%nat; [done|].
  destruct Hls as [Hl Hls]. simpl in Hi. destruct (top_find _ _ _ _ Hr Hls) as (_&Hf&Hh).
  specialize (Hg l al t a Hl (levels_stack _ _ _ (rs_ok _ _ Hr) Hls Hi) Hf Hh).
  fold (top_map S al). fold (top_header S al).
  destruct (g (lt_root s) l t) as [[x t']|], (h (top_map S al) (top_header S al) a) as [[y a']|]; simpl in *; try done.
  destruct Hg as [-> Hg]. split; [done|]. split; simpl; [|by split|done]. by destruct Hr.
Qed.

Lemma returns_sim {A B T U : Type} (R : T -> U -> Prop) (f : A -> B) (x : ltx (A * T)) (y : ltx (A * U)) :
  sim_res R x y -> sim_res R (returns f x) (returns f y).
Proof. destruct x as [[v t]|], y as [[w a]|]; simpl; try done. by intros [-> ?]. Qed.

(** ** Every operation *)

Lemma open_sim (d : nat) (u w : bool) (s : Ledger) (S : ALedger) :
  ledger_sim s S ->
  match openTxn d u w s, abs_open d u w S with
  | Ok s', Ok S' => ledger_sim s' S'
  | Err e, Err e' => e = e'
  | _, _ => False
  end.
Proof.
  intros [Hr Hls Hi]. destruct (top_find _ _ _ _ Hr Hls) as (Ho&Hf&Hh). unfold openTxn, abs_open.
  destruct (lt_txns s) as [|t l] eqn:Hts, (al_txns S) as [|a al] eqn:Hals; try done.
  - pose proof (root_view_wf owner _ (rs_ok _ _ Hr)) as Hwf. destruct Hr as [[? ?] ? ? Hrh ?].
    split; simpl; [by split| |constructor]. split; [|done]. rewrite Hrh. by apply newTxn_level.
  - simpl in Hi. destruct (0 <? d)%nat; [done|]. destruct Hls as [Hl Hls]. unfold a_unsealed.
    pose proof (lv_sim _ _ _ _ Hl) as [Hc _]. rewrite (cs_sealed _ _ _ Hc).
    destruct (mIsSealed t) eqn:Hse; [unfold addChild, throwIfSealed; by rewrite Hse|].
    destruct (addChild_level _ t a Hl Hse) as (t'&->&Hidle&He&Hl'). cbn [res_bind negb ensure].
    split; simpl; [by destruct Hr|split; [|by split]|by constructor].
    rewrite (cs_header _ _ _ Hc). apply newTxn_level; [done| |].
    + intros k. simpl. rewrite He. apply Hf.
    + apply (stack_view_wf owner (lt_root s) (t' :: l)).
      apply (levels_stack _ _ (a_set_header (a_header a) false (a_set_active [] a) :: al));
        [apply Hr|by split|by constructor].
Qed.

Lemma commit_sim (d : nat) (s : Ledger) (S : ALedger) :
  ledger_sim s S ->
  match commit d s, abs_commit d S with
  | Ok s', Ok S' => ledger_sim s' S'
  | Err e, Err e' => e = e'
  | _, _ => False
  end.
Proof.
  intros [Hr Hls Hi]. unfold commit, abs_commit. pose proof (levels_length _ _ _ Hls) as Hlen.
  destruct (lt_txns s) as [|t l], (al_txns S) as [|a al]; try done. rewrite Hlen.
  destruct (length (a :: al) <=? d)%nat; [done|]. destruct (0 <? d)%nat; [done|].
  destruct Hls as [Hl Hls]. apply (seal_level owner (lt_root s) l) in Hl.
  destruct l as [|p l], al as [|b al]; try done.
  - rewrite (rs_writable _ _ Hr). destruct (root_transaction (lt_root s)) eqn:Hw.
    + destruct (rootCommit_sim (lt_root s) S (seal t) (a_seal a) [] Hr Hl Hw) as (r'&->&_&_&Hr').
      cbn [res_bind]. split; [done|done|constructor].
    + unfold rootCommitChild. by rewrite Hw.
  - simpl in Hi. apply Forall_cons in Hi as [Hip Hi]. destruct Hls as [Hlp Hls].
    destruct (commitChild_level _ (seal t) p (a_seal a) b Hlp Hip Hl) as (p'&->&Hip'&Hlp'). cbn [res_bind].
    split; simpl; [by destruct Hr|by split|done].
Qed.

Lemma levels_drop (r : Root) (n : nat) (l : list Txn) (al : list ATxn) :
  levels r l al -> levels r (drop n l) (drop n al).
Proof.
  revert l al. induction n as [|n IH]; intros [|t l] [|a al]; simpl; try done. intros [_ Hl]. by apply IH.
Qed.

Lemma rollback_sim (d : nat) (s : Ledger) (S : ALedger) :
  ledger_sim s S ->
  match rollback d s, abs_rollback d S with
  | Ok s', Ok S' => ledger_sim s' S'
  | Err e, Err e' => e = e'
  | _, _ => False
  end.
Proof.
  intros [Hr Hls Hi]. unfold rollback, abs_rollback. rewrite (levels_length _ _ _ Hls).
  destruct (length (al_txns S) <=? d)%nat; [done|]. pose proof (levels_drop _ (Datatypes.S d) _ _ Hls) as Hd.
  assert (Forall idle (tail (drop (Datatypes.S d) (lt_txns s)))) as Hi'.
  { destruct (lt_txns s) as [|t l]; [by rewrite drop_nil|]. simpl in *.
    destruct (drop d l) as [|x l'] eqn:E; [constructor|]. simpl.
    apply (Forall_drop _ d) in Hi. rewrite E in Hi. by apply Forall_cons in Hi as [_ ?]. }
  destruct (drop (Datatypes.S d) (lt_txns s)) as [|t l], (drop (Datatypes.S d) (al_txns S)) as [|a al]; try done.
  - destruct Hr as [[]]. by split.
  - destruct Hr as [[]]. by split.
Qed.

Definition op_wf (op : LtxOp) : Prop :=
  match op with OpCreate _ e | OpAssign e => entry_wf owner e | _ => True end.

Lemma unit_sim (x : ltx Ledger) (y : ltx ALedger) :
  match x, y with Ok s', Ok S' => ledger_sim s' S' | Err e, Err e' => e = e' | _, _ => False end ->
  sim_res ledger_sim (let? s := x in Ok (RetUnit, s)) (let? s := y in Ok (RetUnit, s)).
Proof. destruct x, y; simpl; try done. Qed.

Lemma exec_sim (op : LtxOp) (s : Ledger) (S : ALedger) :
  op_wf op -> ledger_sim s S -> sim_res ledger_sim (exec op s) (abs_exec op S).
Proof.
  intros Hop Hs. destruct op; unfold exec, abs_exec;
    try (apply returns_sim, onTop_sim; [done|]; intros l al t a Hl Hst Hf Hh);
    try apply unit_sim.
  - by apply open_sim.
  - by apply create_level.
  - by apply load_level.
  - by apply loadWithoutRecord_level.
  - by apply erase_level.
  - by apply assign_level.
  - by apply deactivate_level.
  - by apply (loadHeader_level owner (lt_root s) l).
  - by apply assignHeader_level.
  - by apply deactivateHeader_level.
  - by apply loadBestOffer_level.
  - by apply (hasSponsorship_level owner (lt_root s) l).
  - apply getChanges_level; [done|done|]. intros k e He. by apply (stack_view_wf owner _ _ Hst).
  - by apply getDelta_level.
  - by apply getAllEntries_level.
  - by apply unsealHeader_level.
  - by apply commit_sim.
  - by apply rollback_sim.
Qed.

Lemma run_sim (ops : list LtxOp) (s : Ledger) (S : ALedger) :
  Forall op_wf ops -> ledger_sim s S ->
  fst (run exec ops s) = fst (run abs_exec ops S) /\ ledger_sim (snd (run exec ops s)) (snd (run abs_exec ops S)).
Proof.
  intros Hops. revert s S. induction Hops as [|op ops Hop _ IH]; intros s S Hs; [done|]. simpl.
  pose proof (exec_sim op s S Hop Hs) as Hx.
  destruct (exec op s) as [[x s']|e], (abs_exec op S) as [[y S']|e']; simpl in Hx; try done.
  - destruct Hx as [-> Hs']. destruct (IH s' S' Hs') as [H1 H2].
    destruct (run exec ops s'), (run abs_exec ops S'). simpl in *. by subst.
  - subst e'. destruct (IH s S Hs) as [H1 H2]. destruct (run exec ops s), (run abs_exec ops S). simpl in *.
    subst. by destruct e.
Qed.
End owner.

(** ** The claims *)

Definition fresh_ledger (r : Root) : Ledger := {| lt_root := r; lt_txns := [] |}.

(** The copy of a database without open transactions. *)
Definition fresh_copy (r : Root) : ALedger :=
  {| al_map := (fun p => (LEDGER_ENTRY_KEY (fst p), LEDGER_ENTRY (snd p))) <$> root_entries r;
     al_header := root_header r; al_writable := root_transaction r; al_txns := [] |}.

Lemma fresh_sim (owner : Z -> AccountID) (r : Root) :
  root_ok owner r -> ledger_sim owner (fresh_ledger r) (fresh_copy r).
Proof.
  intros Hr. split; simpl; [|done|constructor]. split; simpl; [done| | |done|done].
  - destruct Hr as [Ho _]. revert Ho. unfold ordered, map_keys, increasing.
    induction (root_entries r) as [|[k e] m IH]; intros Ho; [constructor|].
    simpl in Ho. inversion Ho as [|? ? Ho' Hall]; subst. rewrite fmap_cons. simpl. constructor; [by apply IH|].
    apply Forall_fmap, Forall_fmap. apply (proj1 (Forall_fmap fst _ m)) in Hall.
    by eapply Forall_impl; [exact Hall|].
  - intros k. unfold root_newest. induction (root_entries r) as [|[k1 e] m IH]; [by destruct k|].
    rewrite fmap_cons. simpl. rewrite IH. destruct k as [k| |]; simpl; [|done..].
    change (eqb_of (LEDGER_ENTRY_KEY k) (LEDGER_ENTRY_KEY k1)) with (eqb_of k k1). by destruct (eqb_of k k1).
Qed.

(** C3. Nested transactions are nested copies: from any database, every sequence of
    operations of clients (opening transactions in one another, creating, loading,
    changing and erasing entries, loading the best offer of a pair, reading and
    changing the header, asking for changes, committing, rolling back, at any depth
    and in any order, rightly or wrongly) has the results it has when each
    transaction is a complete copy of the ledger, and leaves the same database:
    the same values are returned, the same exceptions thrown, in the same places. *)
Theorem ledger_txn_refines (owner : Z -> AccountID) (r : Root) (ops : list LtxOp) :
  root_ok owner r -> Forall (op_wf owner) ops ->
  fst (run exec ops (fresh_ledger r)) = fst (run abs_exec ops (fresh_copy r)) /\
  (forall k, LEDGER_ENTRY <$> map_find k (root_entries (lt_root (snd (run exec ops (fresh_ledger r))))) =
     map_find (LEDGER_ENTRY_KEY k) (al_map (snd (run abs_exec ops (fresh_copy r))))) /\
  root_header (lt_root (snd (run exec ops (fresh_ledger r)))) = al_header (snd (run abs_exec ops (fresh_copy r))).
Proof.
  intros Hr Hops. destruct (run_sim owner ops _ _ Hops (fresh_sim owner r Hr)) as [Hout [Hroot _ _]].
  split; [done|]. split; [|by rewrite (rs_header _ _ _ Hroot)]. intros k. by rewrite (rs_map _ _ _ Hroot).
Qed.

(** The exceptions and aborts of the specification: those of misuse. *)
Definition misuse (e : ltx_error) : bool :=
  match e with
  | HasChild | IsSealed | NotSealed | KeyExists | KeyMissing | KeyActive | KeyNotActive | HeaderActive
  | HeaderNotActive | ActiveEntries | NoTransaction | Aborts RootReadOnly | Aborts SealHasChild => true
  | _ => false
  end.

Lemma abs_onTop_misuse {A B} (f : A -> B) (e : ltx_error) (d : nat)
    (h : list (InternalLedgerKey * InternalLedgerEntry) -> LedgerHeader -> ATxn -> ltx (A * ATxn)) (S : ALedger)
    (x : ltx_error) :
  misuse e = true -> (forall m hd a y, h m hd a = Err y -> misuse y = true) ->
  returns f (abs_onTop e d h S) = Err x -> misuse x = true.
Proof.
  intros He Hh. unfold abs_onTop, returns. destruct (al_txns S) as [|a l]; [by intros [= <-]|].
  destruct (length (a :: l) <=? d)%nat; [by intros [= <-]|]. destruct (0 <? d)%nat; [by intros [= <-]|].
  destruct (h _ _ a) as [[v a']|y] eqn:Hy; [done|]. intros [= <-]. by eapply Hh.
Qed.

Lemma abs_exec_misuse (op : LtxOp) (S : ALedger) (x : ltx_error) : abs_exec op S = Err x -> misuse x = true.
Proof.
  destruct op; cbn [abs_exec];
    try (apply abs_onTop_misuse; [done|]; intros m hd a y;
      unfold a_create, a_erase, a_load, a_assign, a_deactivate, a_loadHeader, a_assignHeader,
        a_deactivateHeader, a_unsealHeader, a_loadBestOffer, a_unsealed; intros Hy).
  - unfold abs_open, a_unsealed. destruct (al_txns S) as [|a l]; [done|]. destruct (0 <? depth)%nat; [by intros [= <-]|].
    destruct (a_sealed a); [by intros [= <-]|done].
  - destruct (a_sealed a); [by simplify_eq/=|]. simpl in Hy. by destruct (map_find _ _); simplify_eq/=.
  - destruct (a_sealed a); [by simplify_eq/=|]. simpl in Hy. destruct (active_find _ _); [by simplify_eq/=|].
    by destruct (map_find _ _).
  - destruct (a_sealed a); [by simplify_eq/=|]. simpl in Hy. destruct (active_find _ _); [by simplify_eq/=|].
    by destruct (map_find _ _).
  - destruct (a_sealed a); [by simplify_eq/=|]. simpl in Hy. by destruct (map_find _ _); simplify_eq/=.
  - by destruct (active_find _ _) as [[]|]; simplify_eq/=.
  - by destruct (active_find _ _); simplify_eq/=.
  - destruct (a_sealed a); [by simplify_eq/=|]. simpl in Hy. by destruct (a_headerActive a); simplify_eq/=.
  - by destruct (a_headerActive a); simplify_eq/=.
  - by destruct (a_headerActive a); simplify_eq/=.
  - destruct (a_sealed a) eqn:Hse; [by simplify_eq/=|]. simpl in Hy. destruct (a_active a) eqn:Ha; [|by simplify_eq/=].
    simpl in Hy. destruct (snapshot_best _ _ _) as [[e ?]|]; [|done].
    unfold a_load, a_unsealed in Hy. rewrite Hse, Ha in Hy. simpl in Hy. by destruct (map_find _ _); simplify_eq/=.
  - done.
  - done.
  - done.
  - done.
  - destruct (a_sealed a); [|by simplify_eq/=]. simpl in Hy. by destruct (a_headerActive a); simplify_eq/=.
  - unfold abs_commit. destruct (al_txns S) as [|a l]; [by intros [= <-]|].
    destruct (length (a :: l) <=? depth)%nat; [by intros [= <-]|]. destruct (0 <? depth)%nat; [by intros [= <-]|].
    destruct l; [|done]. destruct (al_writable S); [done|by intros [= <-]].
  - unfold abs_rollback. destruct (length (al_txns S) <=? depth)%nat; [by intros [= <-]|done].
Qed.

Lemma abs_run_misuse (ops : list LtxOp) (S : ALedger) (x : ltx_error) :
  Err x ∈ fst (run abs_exec ops S) -> misuse x = true.
Proof.
  revert S. induction ops as [|op ops IH]; intros S; simpl; [by intros ?%elem_of_nil|].
  destruct (abs_exec op S) as [[y S']|e] eqn:He.
  - specialize (IH S'). destruct (run abs_exec ops S') as [xs S'']. simpl in *.
    intros [?|?]%elem_of_cons; [done|auto].
  - apply abs_exec_misuse in He. specialize (IH S). destruct (run abs_exec ops S) as [xs S'']. simpl in *.
    assert (forall l : list (ltx LtxRet), Err x ∈ Err e :: l -> (Err x ∈ l -> misuse x = true) -> misuse x = true) as Hcons.
    { intros l [[= ->]|?]%elem_of_cons ?; auto. }
    destruct e; try (intros Hx; by apply (Hcons xs)). intros Hx. apply (Hcons [] Hx). by intros ?%elem_of_nil.
Qed.

(** C25. What clients can do wrong is all that can go wrong: in any sequence of
    operations no invalid merge of two versions of an entry, no missing row at a
    commit, no inconsistent order book, no missing previous version and no endless
    search for the best offer comes up; the only exceptions and aborts are those for
    a transaction that has a child or is sealed, for entries that exist or are
    missing or active, for the header, and for a read-only database. *)
Theorem ledger_txn_errors (owner : Z -> AccountID) (r : Root) (ops : list LtxOp) (e : ltx_error) :
  root_ok owner r -> Forall (op_wf owner) ops ->
  Err e ∈ fst (run exec ops (fresh_ledger r)) -> misuse e = true.
Proof.
  intros Hr Hops. destruct (run_sim owner ops _ _ Hops (fresh_sim owner r Hr)) as [-> _].
  apply abs_run_misuse.
Qed.

(** C17. The order books never miss: at any point of any sequence of operations, in
    the innermost transaction (with no entry active and not sealed) the search over
    its order book, the bounds it keeps on its parents and their order books down to
    the database ends and finds an offer of the pair in the current state that no
    other is better than, or none when there is none. *)
Theorem best_offer_found (owner : Z -> AccountID) (r : Root) (ops : list LtxOp) (buying selling : Asset)
    (t : Txn) (l : list Txn) :
  root_ok owner r -> Forall (op_wf owner) ops ->
  lt_txns (snd (run exec ops (fresh_ledger r))) = t :: l -> mActive t = [] -> mIsSealed t = false ->
  let r' := lt_root (snd (run exec ops (fresh_ledger r))) in
  exists x, getBestOffer r' (t :: l) buying selling None = Ok x /\
    is_best (getNewestVersion r' (t :: l)) buying selling None x.
Proof.
  intros Hr Hops Hl Ha Hse. destruct (run_sim owner ops _ _ Hops (fresh_sim owner r Hr)) as [_ [Hroot Hlev Hi]].
  rewrite Hl in Hlev, Hi. destruct (al_txns _) as [|a al]; [done|]. destruct Hlev as [Hlv Hlev].
  destruct (best_sim owner (lt_root (snd (run exec ops (fresh_ledger r)))) l t a Hlv) with (b := buying) (s := selling)
    as (x&Hx&_&Hbest); [|done|done|by exists x].
  by eapply levels_stack; [apply Hroot| |].
Qed.

(** *** An example: three offers, two transactions *)

Definition example_owner (offerID : Z) : AccountID := 100 + offerID.
Definition example_asset : Asset := ASSET_TYPE_CREDIT_ALPHANUM4 1 5.

Definition example_offer (seq id n d : Z) : LedgerEntry :=
  {| lastModifiedLedgerSeq := seq;
     le_data := OFFER {| of_sellerID := example_owner id; of_offerID := id; of_selling := ASSET_TYPE_NATIVE;
       of_buying := example_asset; of_amount := 1000; of_price := {| price_n := n; price_d := d |};
       of_flags := 0 |};
     le_ext := None |}.

Definition example_header : LedgerHeader :=
  {| ledgerVersion := 18; scpValue_closeTime := 50; ledgerSeq := 7; totalCoins := 0; feePool := 0;
     inflationSeq := 0; idPool := 3; baseFee := 100; basePercentageFee := 0; maxFee := 0;
     baseReserve := 5000000; maxTxSetSize := 100; header_flags := None |}.

Definition example_root : Root :=
  {| root_header := example_header;
     root_entries := [(LedgerEntryKey (example_offer 3 1 3 2), example_offer 3 1 3 2)];
     root_transaction := false |}.

Definition example_ops : list LtxOp :=
  let k id := LEDGER_ENTRY_KEY (LedgerEntryKey (example_offer 0 id 1 1)) in
  let best d := OpLoadBestOffer d example_asset ASSET_TYPE_NATIVE in
  [OpOpen 0 true true; best 0%nat; OpErase 0 (k 1); OpCreate 0 (LEDGER_ENTRY (example_offer 0 2 5 4));
   OpOpen 0 true true; OpCreate 0 (LEDGER_ENTRY (example_offer 0 3 1 1)); OpErase 1 (k 2); best 0%nat;
   OpDeactivate (k 3); best 0%nat; OpRollback 0; best 0%nat; OpGetAllEntries 0;
   OpCreate 0 (LEDGER_ENTRY (example_offer 0 4 1 1)); OpCommit 0].

Lemma example_offer_wf (seq id n d : Z) :
  0 < n <= INT32_MAX -> 0 < d <= INT32_MAX -> entry_wf example_owner (LEDGER_ENTRY (example_offer seq id n d)).
Proof. intros Hn Hd o [= <-]. split; [done|]. by split. Qed.

Lemma example_root_ok : root_ok example_owner example_root.
Proof.
  split; [repeat constructor|]. intros k e Hk. apply map_find_in, list_elem_of_singleton in Hk as [= -> ->].
  split; [done|]. apply example_offer_wf; unfold INT32_MAX; lia.
Qed.

Lemma example_ops_wf : Forall (op_wf example_owner) example_ops.
Proof.
  unfold example_ops. cbv zeta. repeat (apply List.Forall_cons || apply List.Forall_nil);
    first [exact I | apply example_offer_wf; unfold INT32_MAX; lia].
Qed.

Lemma ledger_txn_refines_witness :
  fst (run exec example_ops (fresh_ledger example_root)) =
    [Ok RetUnit; Ok (RetOffer (Some (example_offer 3 1 3 2))); Ok RetUnit; Ok RetUnit; Ok RetUnit; Ok RetUnit;
     Err HasChild; Err ActiveEntries; Ok RetUnit; Ok (RetOffer (Some (example_offer 0 3 1 1))); Ok RetUnit;
     Ok (RetOffer (Some (example_offer 0 2 5 4)));
     Ok (RetBatch {| initEntries := [example_offer 7 2 5 4]; liveEntries := [];
                     deadEntries := [LedgerEntryKey (example_offer 3 1 3 2)] |});
     Err IsSealed; Ok RetUnit] /\
  map_find (LedgerEntryKey (example_offer 7 2 5 4))
    (root_entries (lt_root (snd (run exec example_ops (fresh_ledger example_root))))) = Some (example_offer 7 2 5 4).
Proof.
  destruct (ledger_txn_refines example_owner example_root example_ops example_root_ok example_ops_wf) as (Hout&Hdb&_).
  split; [rewrite Hout; vm_compute; reflexivity|].
  specialize (Hdb (LedgerEntryKey (example_offer 7 2 5 4))).
  destruct (map_find _ (root_entries _)) as [e|]; [|exfalso; vm_compute in Hdb; discriminate].
  vm_compute in Hdb. injection Hdb as ->. reflexivity.
Defined.

Lemma ledger_txn_errors_witness :
  Err HasChild ∈ fst (run exec example_ops (fresh_ledger example_root)) /\ misuse HasChild = true.
Proof.
  assert (Err HasChild ∈ fst (run exec example_ops (fresh_ledger example_root))) as Hin.
  { vm_compute. do 6 apply list_elem_of_further. apply list_elem_of_here. }
  split; [exact Hin|]. exact (ledger_txn_errors example_owner example_root example_ops HasChild
    example_root_ok example_ops_wf Hin).
Defined.

Lemma best_offer_found_witness :
  exists t l x, lt_txns (snd (run exec (take 9 example_ops) (fresh_ledger example_root))) = t :: l /\
    let r' := lt_root (snd (run exec (take 9 example_ops) (fresh_ledger example_root))) in
    getBestOffer r' (t :: l) example_asset ASSET_TYPE_NATIVE None = Ok x /\
    is_best (getNewestVersion r' (t :: l)) example_asset ASSET_TYPE_NATIVE None x.
Proof.
  destruct (lt_txns (snd (run exec (take 9 example_ops) (fresh_ledger example_root)))) as [|t l] eqn:E;
    [exfalso; vm_compute in E; discriminate|].
  assert (mActive t = [] /\ mIsSealed t = false) as [Ha Hs]
    by (vm_compute in E; injection E as <- <-; split; reflexivity).
  destruct (best_offer_found example_owner example_root (take 9 example_ops) example_asset ASSET_TYPE_NATIVE t l
    example_root_ok (Forall_take _ 9 _ example_ops_wf) E Ha Hs) as (x&Hx&Hb).
  exists t, l, x. split; [reflexivity|]. split; [exact Hx|exact Hb].
Defined.
