(* ===== verification/LedgerClose.v ===== *)
(** * Closing ledgers

    [src/ledger/LedgerManagerImpl.cpp]: a transaction on the database is opened
    for the next ledger, the work of the ledger (fees, transactions, upgrades)
    is done in it, its changes go to the bucket list and it is committed.  The
    work is any sequence of operations on ledger transactions.  What a ledger
    leaves in the database is what the bucket list represents. *)
From stdpp Require Import base tactics list numbers sets.
From Stdlib Require Import ZArith Lia Bool.
From S2P Require Import Prelude Containers OfferExchange LedgerEntries Bucket BucketMerge BucketList BucketLevels BucketListTheorems BucketListRefinement LedgerTxn LedgerTxnSpec LedgerTxnTheorems LedgerTxnOffers LedgerTxnStack LedgerTxnRefinement.

Open Scope Z_scope.
Open Scope kin_scope.

(** ** The operations *)

Inductive close_error :=
  | LtxError (e : ltx_error)
  | BucketError (e : bucket_error)
  | UnsupportedLedgerVersion
  | TxSetMismatch            (** made for another ledger than the last closed one *)
  | CorruptTransactionSet    (** not the set the value names *)
  | ZeroLedgerHash           (** the assertion of [storeCurrentLedger] *)
  | LedgerCorrupted.         (** not the hash that was expected *)

Definition liftLtx {A} (x : ltx A) : result close_error A :=
  match x with Ok a => Ok a | Err e => Err (LtxError e) end.
Definition liftBk {A} (x : bk A) : result close_error A :=
  match x with Ok a => Ok a | Err e => Err (BucketError e) end.

(** What the node is configured with, and how its merges behave. *)
Record NodeConfig := {
  LEDGER_PROTOCOL_VERSION : Z;
  MODE_ENABLES_BUCKETLIST : bool;
  nc_isShutdown : nat -> bool;
  nc_pessimize : bool;      (** ARTIFICIALLY_PESSIMIZE_MERGES_FOR_TESTING *)
  nc_ready : nat -> bool;   (** which merges have completed *)
  (** The hash of a header: of the hash before it, the modelled fields, and the
      snapshot of the bucket list. *)
  nc_headerHash : Z -> LedgerHeader -> BucketList -> Z;
}.

(** [LedgerCloseData]: what the transaction set says of itself, and what the value
    and the peers say. *)
Record LedgerCloseData := {
  lcd_previousLedgerHash : Z;   (** of the transaction set *)
  lcd_contentsHash : Z;         (** of the transaction set *)
  lcd_txSetHash : Z;            (** in the value *)
  lcd_closeTime : Z;
  lcd_expectedHash : option Z;
}.

(** ** The first ledger *)





(** ** Closing *)

(** A header read through a handle that is dropped at once. *)
Definition readHeader (s : Ledger) : ltx (LedgerHeader * Ledger) :=
  let? (h, s) := onTop HasChild 0 (fun _ _ => loadHeader) s in
  let? (_, s) := onTop HasChild 0 (silent deactivateHeader) s in
  Ok (h, s).

Definition transferLedgerEntriesToBucketList (cfg : NodeConfig) (ledgerSeq ledgerVers : Z)
    (s : Ledger) (bl : BucketList) : result close_error (Ledger * BucketList) :=
  let? (b, s) := liftLtx (onTop (Aborts SealHasChild) 0 getAllEntries s) in
  if MODE_ENABLES_BUCKETLIST cfg then
    let? bl := liftBk (addBatch (nc_isShutdown cfg) (nc_pessimize cfg) (nc_ready cfg) ledgerSeq ledgerVers
      (initEntries b) (liveEntries b) (deadEntries b) bl) in
    Ok (s, bl)
  else Ok (s, bl).

(** What is stored in the unsealed header (the hash of the list, the skip list)
    is not part of the modelled header; the new hash of the last closed ledger is
    the last result. *)
Definition ledgerClosed (cfg : NodeConfig) (lastHash : Z) (s : Ledger) (bl : BucketList)
    : result close_error (Ledger * BucketList * Z) :=
  let? (h1, s) := liftLtx (readHeader s) in
  let? (h2, s) := liftLtx (readHeader s) in
  let? (s, bl) := transferLedgerEntriesToBucketList cfg (ledgerSeq h1) (ledgerVersion h2) s bl in
  let? (_, s) := liftLtx (onTop NotSealed 0 (silent (unsealHeader (fun h => h))) s) in
  let hash := nc_headerHash cfg lastHash h2 bl in
  let? _ := ensure (negb (hash =? 0)) ZeroLedgerHash in
  Ok (s, bl, hash).

Definition withLedgerSeq (seq : Z) (h : LedgerHeader) : LedgerHeader :=
  {| ledgerVersion := ledgerVersion h; scpValue_closeTime := scpValue_closeTime h; ledgerSeq := seq;
     totalCoins := totalCoins h; feePool := feePool h; inflationSeq := inflationSeq h; idPool := idPool h;
     baseFee := baseFee h; basePercentageFee := basePercentageFee h; maxFee := maxFee h;
     baseReserve := baseReserve h; maxTxSetSize := maxTxSetSize h; header_flags := header_flags h |}.

Definition withCloseTime (t : Z) (h : LedgerHeader) : LedgerHeader :=
  {| ledgerVersion := ledgerVersion h; scpValue_closeTime := t; ledgerSeq := ledgerSeq h;
     totalCoins := totalCoins h; feePool := feePool h; inflationSeq := inflationSeq h; idPool := idPool h;
     baseFee := baseFee h; basePercentageFee := basePercentageFee h; maxFee := maxFee h;
     baseReserve := baseReserve h; maxTxSetSize := maxTxSetSize h; header_flags := header_flags h |}.

(** An abort of the process in the work of the ledger. *)
Definition first_abort (l : list (ltx LtxRet)) : option ltx_error :=
  head (omap (fun x => match x with Err (Aborts r) => Some (Aborts r) | _ => None end) l).

(** Up to the work of the ledger. *)
Definition beginLedger (cfg : NodeConfig) (data : LedgerCloseData) (lastHash : Z) (s : Ledger)
    : result close_error Ledger :=
  let? s := liftLtx (openTxn 0 true true s) in
  let? (h, s) := liftLtx (onTop HasChild 0 (fun _ _ => loadHeader) s) in
  let h := withLedgerSeq (u32 (ledgerSeq h + 1)) h in
  let? (_, s) := liftLtx (onTop HasChild 0 (silent (assignHeader h)) s) in
  let? _ := ensure (negb (LEDGER_PROTOCOL_VERSION cfg <? ledgerVersion h)) UnsupportedLedgerVersion in
  let? _ := ensure (lcd_previousLedgerHash data =? lastHash) TxSetMismatch in
  let? _ := ensure (lcd_contentsHash data =? lcd_txSetHash data) CorruptTransactionSet in
  let? (_, s) := liftLtx (onTop HasChild 0 (silent (assignHeader (withCloseTime (lcd_closeTime data) h))) s) in
  Ok s.

(** After it.  The bucket list has the changes when the hash is compared; the
    database has them only afterwards. *)
Definition endLedger (cfg : NodeConfig) (expectedHash : option Z) (lastHash : Z) (s : Ledger)
    (bl : BucketList) : result close_error (Ledger * BucketList * Z) :=
  let? (s, bl, hash) := ledgerClosed cfg lastHash s bl in
  let? _ := ensure (match expectedHash with Some e => e =? hash | None => true end) LedgerCorrupted in
  let? s := liftLtx (commit 0 s) in
  Ok (s, bl, hash).

Definition closeLedger (cfg : NodeConfig) (data : LedgerCloseData) (work : list LtxOp) (lastHash : Z)
    (s : Ledger) (bl : BucketList) : result close_error (Ledger * BucketList * Z) :=
  let? s := beginLedger cfg data lastHash s in
  let '(results, s) := run exec work s in
  match first_abort results with
  | Some e => Err (LtxError e)
  | None => endLedger cfg (lcd_expectedHash data) lastHash s bl
  end.



(** ** The changes of a transaction as a batch *)







(** ** What holds between ledgers *)


Section close.
Context (owner : Z -> AccountID) (cfg : NodeConfig).
Context (Hsd : forall n, nc_isShutdown cfg n = false) (Hbl : MODE_ENABLES_BUCKETLIST cfg = true).
Context (Hhash : forall p h bl, nc_headerHash cfg p h bl <> 0).







Definition withTransaction (r : Root) : Root :=
  {| root_header := root_header r; root_entries := root_entries r; root_transaction := true |}.

Lemma root_ok_transaction (r : Root) : root_ok owner r -> root_ok owner (withTransaction r).
Proof. done. Qed.

(** The transaction of a ledger, before its work. *)
Lemma beginLedger_eq (data : LedgerCloseData) (lastHash : Z) (r : Root) :
  let h := withLedgerSeq (u32 (ledgerSeq (root_header r) + 1)) (root_header r) in
  let ops := [OpOpen 0 true true; OpLoadHeader 0; OpAssignHeader (withCloseTime (lcd_closeTime data) h)] in
  beginLedger cfg data lastHash {| lt_root := r; lt_txns := [] |} =
    if LEDGER_PROTOCOL_VERSION cfg <? ledgerVersion (root_header r) then Err UnsupportedLedgerVersion
    else if negb (lcd_previousLedgerHash data =? lastHash) then Err TxSetMismatch
    else if negb (lcd_contentsHash data =? lcd_txSetHash data) then Err CorruptTransactionSet
    else Ok (snd (run exec ops (fresh_ledger r))).
Proof.
  unfold beginLedger. cbn. destruct (LEDGER_PROTOCOL_VERSION cfg <? ledgerVersion (root_header r)); [done|].
  cbn. destruct (_ =? _); [|done]. cbn. by destruct (_ =? _).
Qed.



(** A transaction set for another ledger, or another one than the value names, is
    refused before anything is done. *)
Lemma closeLedger_refuses (data : LedgerCloseData) (work : list LtxOp) (lastHash : Z) (r : Root)
    (bl : BucketList) :
  ledgerVersion (root_header r) <= LEDGER_PROTOCOL_VERSION cfg ->
  (lcd_previousLedgerHash data <> lastHash ->
     closeLedger cfg data work lastHash {| lt_root := r; lt_txns := [] |} bl = Err TxSetMismatch) /\
  (lcd_previousLedgerHash data = lastHash -> lcd_contentsHash data <> lcd_txSetHash data ->
     closeLedger cfg data work lastHash {| lt_root := r; lt_txns := [] |} bl = Err CorruptTransactionSet).
Proof.
  intros Hv. unfold closeLedger. rewrite beginLedger_eq. cbv zeta. rewrite (proj2 (Z.ltb_ge _ _) Hv).
  split; [by intros ->%Z.eqb_neq|]. by intros ->%Z.eqb_eq ->%Z.eqb_neq.
Qed.

End close.

(** ** The claims *)







(** *** An example: an offer is made, changed in a child and taken *)









