(* ===== verification/RootCaches.v ===== *)
(** * The caches of the root of the ledger transactions

    [LedgerTxnRoot] of [src/ledger/LedgerTxn.cpp] answers from two caches: of
    entries ([RandomEvictionCache], which prefetching fills) and of the best
    offers of each pair of assets, loaded from the database in batches.  They
    never show: what is read through them is what the database has.

    The bulk loads return an entry, or none, for each key asked for; the queries
    for offers are those of [LedgerTxnOfferSQL.cpp].  Sets of keys are ordered
    here; the sources leave the order of iteration open. *)
From stdpp Require Import base tactics list numbers sets sorting gmap strings.
From Stdlib Require Import ZArith Lia Bool.
From S2P Require Import Prelude Containers OfferExchange LedgerEntries Float64 Bucket BucketMerge RandomEvictionCache LedgerTxn LedgerTxnSpec LedgerTxnTheorems LedgerTxnOffers LedgerTxnRefinement.

Open Scope Z_scope.
Open Scope kin_scope.

(** ** Keys as keys of a map *)

#[global] Instance TrustLineAsset_countable : Countable TrustLineAsset.
Proof.
  refine (inj_countable'
    (fun a => match a with
      | TL_NATIVE => inl (inl tt) | TL_ALPHANUM4 c i => inl (inr (c, i))
      | TL_ALPHANUM12 c i => inr (inl (c, i)) | TL_POOL_SHARE p => inr (inr p) end)
    (fun x => match x with
      | inl (inl _) => TL_NATIVE | inl (inr (c, i)) => TL_ALPHANUM4 c i
      | inr (inl (c, i)) => TL_ALPHANUM12 c i | inr (inr p) => TL_POOL_SHARE p end) _).
  by intros [].
Defined.

#[global] Instance LedgerKey_countable : Countable LedgerKey.
Proof.
  refine (inj_countable'
    (fun k => match k with
      | ACCOUNT_KEY a => inl (inl (inl a)) | TRUSTLINE_KEY a t => inl (inl (inr (a, t)))
      | OFFER_KEY s o => inl (inr (s, o)) | DATA_KEY a n => inr (inl (inl (a, n)))
      | CLAIMABLE_BALANCE_KEY b => inr (inl (inr b)) | LIQUIDITY_POOL_KEY p => inr (inr p) end)
    (fun x => match x with
      | inl (inl (inl a)) => ACCOUNT_KEY a | inl (inl (inr (a, t))) => TRUSTLINE_KEY a t
      | inl (inr (s, o)) => OFFER_KEY s o | inr (inl (inl (a, n))) => DATA_KEY a n
      | inr (inl (inr b)) => CLAIMABLE_BALANCE_KEY b | inr (inr p) => LIQUIDITY_POOL_KEY p end) _).
  by intros [].
Defined.

(** ** The state *)

Inductive LoadType := IMMEDIATE | PREFETCH.

Record CacheEntry := { ce_entry : option LedgerEntry; ce_type : LoadType }.

Record BestOffersEntry := { bestOffers : list LedgerEntry; allLoaded : bool }.

Notation EntryCache := (@RandomEvictionCache LedgerKey CacheEntry _ _).

Record RootImpl := {
  ri_root : Root;
  mEntryCache : EntryCache;
  mBestOffers : Asset -> Asset -> option BestOffersEntry;
  ri_draws : nat;
}.

Record RootConfig := {
  rc_rand : RandomEngine;
  entryCacheSize : nat;
  mBulkLoadBatchSize : nat;
  maxOffersToCross : nat;   (** 1000 outside of tests *)
}.

Inductive root_error :=
  | RootCacheError (e : cache_error)
  | RootAborts (r : ltx_abort)
  | RootLtxError (e : ltx_error)
  | MaximumOfferID          (** aborts in the query for the next offers *)
  | DuplicateEntry          (** the assertion of [populateLoadedEntries] *)
  | OfferNotWorse           (** the assertion of [getBestOffer] *)
  | RootNotAnOffer          (** a bad union access *)
  | RootOutOfFuel.

Notation rt := (result root_error).

Definition liftCache {A} (x : result cache_error A) : rt A :=
  match x with Ok a => Ok a | Err e => Err (RootCacheError e) end.

Definition newRoot (cfg : RootConfig) (r : Root) : RootImpl :=
  {| ri_root := r; mEntryCache := emptyCache (entryCacheSize cfg); mBestOffers := fun _ _ => None;
     ri_draws := 0 |}.

Definition set_cache (c : EntryCache) (draws : nat) (i : RootImpl) : RootImpl :=
  {| ri_root := ri_root i; mEntryCache := c; mBestOffers := mBestOffers i; ri_draws := draws |}.

Definition set_best (b s : Asset) (x : BestOffersEntry) (i : RootImpl) : RootImpl :=
  {| ri_root := ri_root i; mEntryCache := mEntryCache i;
     mBestOffers := upd2 b s (Some x) (mBestOffers i); ri_draws := ri_draws i |}.

(** ** Reading entries *)

Definition putInEntryCache (cfg : RootConfig) (k : LedgerKey) (e : option LedgerEntry) (t : LoadType)
    (i : RootImpl) : rt RootImpl :=
  let? (c, d) := liftCache (RandomEvictionCache.put (rc_rand cfg) (ri_draws i) k {| ce_entry := e; ce_type := t |} (mEntryCache i)) in
  Ok (set_cache c d i).

Definition getFromEntryCache (k : LedgerKey) (i : RootImpl) : rt (option InternalLedgerEntry * RootImpl) :=
  let '(x, c) := cache_get k (mEntryCache i) in
  let? cached := liftCache x in
  Ok (LEDGER_ENTRY <$> ce_entry cached, set_cache c (ri_draws i) i).

Definition root_getNewestVersion (cfg : RootConfig) (gkey : InternalLedgerKey) (i : RootImpl)
    : rt (option InternalLedgerEntry * RootImpl) :=
  match gkey with
  | LEDGER_ENTRY_KEY k =>
      let '(hit, c) := cache_exists k true (mEntryCache i) in
      let i := set_cache c (ri_draws i) i in
      if (hit : bool) then getFromEntryCache k i
      else
        let entry := map_find k (root_entries (ri_root i)) in
        let? i := putInEntryCache cfg k entry IMMEDIATE i in
        Ok (LEDGER_ENTRY <$> entry, i)
  | _ => Ok (None, i)
  end.

(** ** Prefetching *)

Definition populateLoadedEntries (keys : list LedgerKey) (entries : list LedgerEntry)
    : rt (list (LedgerKey * option LedgerEntry)) :=
  let? _ := ensure (bool_decide (NoDup (LedgerEntryKey <$> entries))) DuplicateEntry in
  Ok ((fun k => (k, find_key k entries)) <$> keys).

(** The rows of the keys. *)
Definition bulkLoad (keys : list LedgerKey) (db : list (LedgerKey * LedgerEntry))
    : rt (list (LedgerKey * option LedgerEntry)) :=
  populateLoadedEntries keys (omap (fun k => map_find k db) keys).

Fixpoint cacheResult (cfg : RootConfig) (res : list (LedgerKey * option LedgerEntry)) (total : nat)
    (i : RootImpl) : rt (nat * RootImpl) :=
  match res with
  | [] => Ok (total, i)
  | (k, e) :: res' =>
      let? i := putInEntryCache cfg k e PREFETCH i in cacheResult cfg res' (S total) i
  end.

(** The place of a key's batch among the batches, in the order of the last
    loads. *)
Definition batch_index (k : LedgerKey) : nat :=
  match k with
  | ACCOUNT_KEY _ => 0 | OFFER_KEY _ _ => 1 | TRUSTLINE_KEY _ _ => 2 | DATA_KEY _ _ => 3
  | CLAIMABLE_BALANCE_KEY _ => 4 | LIQUIDITY_POOL_KEY _ => 5
  end.

Fixpoint prefetch_keys (cfg : RootConfig) (keys : list LedgerKey) (batches : list (list LedgerKey))
    (total : nat) (i : RootImpl) : rt (list (list LedgerKey) * nat * RootImpl) :=
  match keys with
  | [] => Ok (batches, total, i)
  | k :: keys' =>
      let n := batch_index k in
      let batch := default [] (batches !! n) in
      let '(hit, c) := cache_exists k false (mEntryCache i) in
      let i := set_cache c (ri_draws i) i in
      let batch := if (hit : bool) then batch else batch ++ [k] in
      if (length batch =? mBulkLoadBatchSize cfg)%nat then
        let? res := bulkLoad batch (root_entries (ri_root i)) in
        let? (total, i) := cacheResult cfg res total i in
        prefetch_keys cfg keys' (<[n := []]> batches) total i
      else prefetch_keys cfg keys' (<[n := batch]> batches) total i
  end.

Fixpoint load_batches (cfg : RootConfig) (batches : list (list LedgerKey)) (total : nat) (i : RootImpl)
    : rt (nat * RootImpl) :=
  match batches with
  | [] => Ok (total, i)
  | b :: batches' =>
      let? res := bulkLoad b (root_entries (ri_root i)) in
      let? (total, i) := cacheResult cfg res total i in
      load_batches cfg batches' total i
  end.

Definition prefetch (cfg : RootConfig) (keys : list LedgerKey) (i : RootImpl) : rt (nat * RootImpl) :=
  let? (batches, total, i) := prefetch_keys cfg keys (repeat [] 6) 0 i in
  load_batches cfg batches total i.

(** ** The best offers *)

Definition MIN_BEST_OFFERS_BATCH_SIZE : nat := 5.

Definition mMaxBestOffersBatchSize (cfg : RootConfig) : nat :=
  Nat.min (Nat.max (mBulkLoadBatchSize cfg) MIN_BEST_OFFERS_BATCH_SIZE) (maxOffersToCross cfg).

(** [ORDER BY price, offerid]. *)
Fixpoint insert_offer (x : LedgerEntry * OfferEntry) (l : list (LedgerEntry * OfferEntry))
    : list (LedgerEntry * OfferEntry) :=
  match l with
  | [] => [x]
  | y :: l' =>
      if isBetterOffer (descriptor (snd y)) (descriptor (snd x)) then y :: insert_offer x l' else x :: l
  end.

Definition order_offers (l : list (LedgerEntry * OfferEntry)) : list (LedgerEntry * OfferEntry) :=
  foldr insert_offer [] l.

(** The two queries of [loadBestOffers]. *)
Definition loadBestOffers (buying selling : Asset) (worseThan : option OfferDescriptor) (numOffers : nat)
    (r : Root) : rt (list LedgerEntry) :=
  let? _ := ensure (match worseThan with Some d => negb (od_offerID d =? INT64_MAX) | None => true end)
    MaximumOfferID in
  Ok (fst <$> take numOffers (order_offers
    (filter (fun p => within worseThan (snd p) = true) (db_offers buying selling (root_entries r))))).

Definition offer_data (e : LedgerEntry) : rt OfferEntry :=
  match le_data e with OFFER o => Ok o | _ => Err RootNotAnOffer end.

(** The offers from an iterator on. *)
Fixpoint findIncludedOffer (worseThan : option OfferDescriptor) (l : list LedgerEntry) : rt (list LedgerEntry) :=
  match l with
  | [] => Ok []
  | e :: l' =>
      let? o := offer_data e in
      if within worseThan o then Ok l else findIncludedOffer worseThan l'
  end.

Definition getFromBestOffers (buying selling : Asset) (i : RootImpl) : BestOffersEntry :=
  default {| bestOffers := []; allLoaded := false |} (mBestOffers i buying selling).

(** The cache with the next batch, and the new offers. *)
Definition loadNextBestOffersIntoCache (cfg : RootConfig) (buying selling : Asset) (cached : BestOffersEntry)
    (r : Root) : rt (list LedgerEntry * BestOffersEntry) :=
  if allLoaded cached then Ok ([], cached) else
  let BATCH_SIZE := Nat.min (mMaxBestOffersBatchSize cfg)
    (Nat.max MIN_BEST_OFFERS_BATCH_SIZE (length (bestOffers cached))) in
  let? worseThan := match last (bestOffers cached) with
    | None => Ok None
    | Some e => let? o := offer_data e in Ok (Some (descriptor o))
    end in
  let? new := loadBestOffers buying selling worseThan BATCH_SIZE r in
  Ok (new, {| bestOffers := bestOffers cached ++ new; allLoaded := (length new <? BATCH_SIZE)%nat |}).

Fixpoint load_until (fuel : nat) (cfg : RootConfig) (buying selling : Asset)
    (worseThan : option OfferDescriptor) (iter : list LedgerEntry) (cached : BestOffersEntry) (r : Root)
    : rt (list LedgerEntry * BestOffersEntry) :=
  if match iter with [] => negb (allLoaded cached) | _ => false end then
    match fuel with
    | O => Err RootOutOfFuel
    | S fuel' =>
        let? (iter, cached) := loadNextBestOffersIntoCache cfg buying selling cached r in
        let? iter := findIncludedOffer worseThan iter in
        load_until fuel' cfg buying selling worseThan iter cached r
    end
  else Ok (iter, cached).

Definition assetToTrustLineAsset (a : Asset) : TrustLineAsset :=
  match a with
  | ASSET_TYPE_NATIVE => TL_NATIVE
  | ASSET_TYPE_CREDIT_ALPHANUM4 c i => TL_ALPHANUM4 c i
  | ASSET_TYPE_CREDIT_ALPHANUM12 c i => TL_ALPHANUM12 c i
  end.

(** The accounts and trust lines an offer needs. *)
Definition offer_keys (o : OfferEntry) : list LedgerKey :=
  let line a := match a with
    | ASSET_TYPE_NATIVE => []
    | _ => [TRUSTLINE_KEY (of_sellerID o) (assetToTrustLineAsset a)]
    end in
  ACCOUNT_KEY (of_sellerID o) :: line (of_buying o) ++ line (of_selling o).

Fixpoint keys_to_prefetch (l : list LedgerEntry) : rt (list LedgerKey) :=
  match l with
  | [] => Ok []
  | e :: l' =>
      let? o := offer_data e in
      let? ks := keys_to_prefetch l' in
      Ok (foldr set_insert ks (offer_keys o))
  end.

Definition populateEntryCacheFromBestOffers (cfg : RootConfig) (l : list LedgerEntry) (i : RootImpl) : rt RootImpl :=
  let? ks := keys_to_prefetch l in
  let? (_, i) := prefetch cfg ks i in Ok i.

Fixpoint any_missing (ks : list LedgerKey) (c : EntryCache) : bool * EntryCache :=
  match ks with
  | [] => (false, c)
  | k :: ks' =>
      let '(hit, c) := cache_exists k true c in
      if (hit : bool) then any_missing ks' c else (true, c)
  end.

Definition areEntriesMissingInCacheForOffer (o : OfferEntry) (i : RootImpl) : bool * RootImpl :=
  let '(b, c) := any_missing (offer_keys o) (mEntryCache i) in (b, set_cache c (ri_draws i) i).

Definition root_getBestOffer (cfg : RootConfig) (buying selling : Asset) (worseThan : option OfferDescriptor)
    (i : RootImpl) : rt (option LedgerEntry * RootImpl) :=
  let cached := getFromBestOffers buying selling i in
  let initialBestOffersSize := length (bestOffers cached) in
  let? iter := findIncludedOffer worseThan (bestOffers cached) in
  let? (iter, cached) := load_until (S (length (root_entries (ri_root i)))) cfg buying selling worseThan
    iter cached (ri_root i) in
  let i := set_best buying selling cached i in
  let newOffersLoaded := negb (length (bestOffers cached) =? initialBestOffersSize)%nat in
  let? i := (if newOffersLoaded then populateEntryCacheFromBestOffers cfg iter i else Ok i) in
  match iter with
  | [] => Ok (None, i)
  | e :: _ =>
      let? o := offer_data e in
      let? _ := ensure (within worseThan o) OfferNotWorse in
      let '(missing, i) := if newOffersLoaded then (false, i) else areEntriesMissingInCacheForOffer o i in
      let? i := (if (missing : bool)
        then populateEntryCacheFromBestOffers cfg (take (mMaxBestOffersBatchSize cfg) iter) i else Ok i) in
      let? i := putInEntryCache cfg (LedgerEntryKey e) (Some e) IMMEDIATE i in
      Ok (Some e, i)
  end.

(** ** Commits *)

Definition root_commitChild (child : Txn) (i : RootImpl) : rt RootImpl :=
  match rootCommitChild child (ri_root i) with
  | Ok r => Ok {| ri_root := r; mEntryCache := clear (mEntryCache i); mBestOffers := fun _ _ => None;
                  ri_draws := ri_draws i |}
  | Err e => Err (RootLtxError e)
  end.

Definition root_addChild (readWrite : bool) (i : RootImpl) : RootImpl :=
  {| ri_root := {| root_header := root_header (ri_root i); root_entries := root_entries (ri_root i);
                   root_transaction := readWrite |};
     mEntryCache := mEntryCache i; mBestOffers := mBestOffers i; ri_draws := ri_draws i |}.

Definition root_rollbackChild (i : RootImpl) : RootImpl := root_addChild false i.

(** ** What is cached is what the database has *)

Definition entries_ok (db : list (LedgerKey * LedgerEntry)) (c : EntryCache) : Prop :=
  exists spec, cache_ok spec c /\ forall k v, spec k = Some v -> ce_entry v = map_find k db.

Section caches.
Context (owner : Z -> AccountID) (cfg : RootConfig).
Context (Hrand : uniform (rc_rand cfg)) (Hcross : (0 < maxOffersToCross cfg)%nat).

Lemma entries_ok_op (db : list (LedgerKey * LedgerEntry)) (o : cache_op LedgerKey CacheEntry) (c : EntryCache)
    (d : nat) :
  entries_ok db c ->
  match o with OpPut k v => ce_entry v = map_find k db | OpGet _ | OpExists _ _ | OpClear => True | OpEraseIf _ => False end ->
  exists c' d', run_op (rc_rand cfg) o (c, d) = Ok (c', d') /\ entries_ok db c'.
Proof.
  intros (spec&Hc&Hv) Ho. destruct (run_op_ok (rc_rand cfg) o spec c d Hrand Hc) as (c'&d'&Hr&Hc'&_).
  exists c', d'. split; [done|]. exists (spec_op o spec). split; [done|].
  destruct o as [k v|k|k b| |g]; simpl; [|done|done|done|done].
  intros k' v'. unfold spec_put. case_decide; [|apply Hv]. by intros [= <-]; subst.
Qed.

Lemma exists_ok (db : list (LedgerKey * LedgerEntry)) (k : LedgerKey) (b : bool) (c : EntryCache) :
  entries_ok db c -> entries_ok db (snd (cache_exists k b c)) /\
    mValueMap (snd (cache_exists k b c)) = mValueMap c /\
    (fst (cache_exists k b c) = true -> is_Some (mValueMap c !! k)).
Proof.
  intros Hc. destruct (entries_ok_op db (OpExists k b) c 0 Hc I) as (c'&d'&Hr&Hc').
  cbn [run_op] in Hr. injection Hr as <- <-. split; [done|]. unfold cache_exists. simpl.
  destruct (mValueMap c !! k); simpl; (split; [by destruct b|]); [by eexists|done].
Qed.

(** What is forgotten is right for any database. *)
Lemma cleared_ok (db db' : list (LedgerKey * LedgerEntry)) (c : EntryCache) :
  entries_ok db c -> entries_ok db' (clear c).
Proof.
  intros (spec&Hc&_). destruct (run_op_ok (rc_rand cfg) OpClear spec c 0 Hrand Hc) as (c'&d'&[= <- <-]&Hc'&_).
  by exists (fun _ => None).
Qed.

Lemma put_db_ok (k : LedgerKey) (e : option LedgerEntry) (t : LoadType) (i : RootImpl) :
  entries_ok (root_entries (ri_root i)) (mEntryCache i) -> e = map_find k (root_entries (ri_root i)) ->
  exists c d, putInEntryCache cfg k e t i = Ok (set_cache c d i) /\ entries_ok (root_entries (ri_root i)) c.
Proof.
  intros Hc He. destruct (entries_ok_op _ (OpPut k {| ce_entry := e; ce_type := t |}) _ (ri_draws i) Hc He)
    as (c'&d'&Hr&Hc'). exists c', d'. split; [|done]. unfold putInEntryCache. simpl in Hr. by rewrite Hr.
Qed.

(** A step that only touches the entry cache. *)
Definition same_but_entries (i i' : RootImpl) : Prop :=
  ri_root i' = ri_root i /\ mBestOffers i' = mBestOffers i /\
  entries_ok (root_entries (ri_root i)) (mEntryCache i').

Lemma root_getNewestVersion_ok (k : InternalLedgerKey) (i : RootImpl) :
  entries_ok (root_entries (ri_root i)) (mEntryCache i) ->
  exists i', root_getNewestVersion cfg k i = Ok (root_newest (ri_root i) k, i') /\ same_but_entries i i'.
Proof.
  intros Hc. unfold root_getNewestVersion. destruct k as [k| |]; [|by exists i..].
  destruct (exists_ok _ k true _ Hc) as (Hc1&Hm&Hhit).
  destruct (cache_exists k true (mEntryCache i)) as [hit c] eqn:E. simpl in Hc1, Hm, Hhit. destruct hit.
  - unfold getFromEntryCache, cache_get. simpl. pose proof Hc1 as (spec&Hco&Hv).
    destruct (maybeGet_ok k spec c Hco) as (Hco'&_&Hget).
    destruct (Hhit eq_refl) as [cv Hcv]. rewrite <- Hm in Hcv.
    destruct (maybeGet k c) as [x c'] eqn:Eg. unfold maybeGet in Eg. rewrite Hcv in Eg. injection Eg as <- <-.
    simpl in *. rewrite (Hv k (mValue cv)) by (by apply Hget). eexists. split; [done|].
    split; [done|]. split; [done|]. by exists spec.
  - destruct (put_db_ok k (map_find k (root_entries (ri_root i))) IMMEDIATE (set_cache c (ri_draws i) i))
      as (c'&d'&Hp&Hc'); [done|done|]. simpl. simpl in Hp. rewrite Hp. cbn [res_bind]. eexists. split; [done|].
    by split_and!.
Qed.

Lemma same_trans (i1 i2 i3 : RootImpl) :
  same_but_entries i1 i2 -> same_but_entries i2 i3 -> same_but_entries i1 i3.
Proof. intros (H1&H2&H3) (H4&H5&H6). rewrite H1 in H6. split; [congruence|]. split; [congruence|done]. Qed.

Lemma same_refl (i : RootImpl) :
  entries_ok (root_entries (ri_root i)) (mEntryCache i) -> same_but_entries i i.
Proof. intros Hc. split; [done|]. by split. Qed.

Lemma same_entries (i i' : RootImpl) :
  same_but_entries i i' -> entries_ok (root_entries (ri_root i')) (mEntryCache i').
Proof. intros (H1&_&H3). by rewrite H1. Qed.

Lemma cacheResult_ok (res : list (LedgerKey * option LedgerEntry)) (total : nat) (i : RootImpl) :
  entries_ok (root_entries (ri_root i)) (mEntryCache i) ->
  Forall (fun x => snd x = map_find (fst x) (root_entries (ri_root i))) res ->
  exists n i', cacheResult cfg res total i = Ok (n, i') /\ same_but_entries i i'.
Proof.
  revert total i. induction res as [|[k e] res IH]; intros total i Hc Hres.
  - exists total, i. split; [done|]. by apply same_refl.
  - apply Forall_cons in Hres as [He Hres]. simpl in He.
    destruct (put_db_ok k e PREFETCH i Hc He) as (c'&d'&Hp&Hc'). simpl. rewrite Hp. cbn [res_bind].
    destruct (IH (S total) (set_cache c' d' i)) as (n&i'&Hr&Hs); [done|done|]. exists n, i'. split; [done|].
    by eapply same_trans; [|exact Hs].
Qed.

(** The rows found are the entries of the keys. *)
Lemma bulkLoad_ok (keys : list LedgerKey) (r : Root) :
  root_ok owner r -> NoDup keys ->
  exists res, bulkLoad keys (root_entries r) = Ok res /\
    Forall (fun x => snd x = map_find (fst x) (root_entries r)) res.
Proof.
  intros [_ Hr] Hnd. set (db := root_entries r) in *.
  assert (forall (ks : list LedgerKey) e, e ∈ omap (fun k => map_find k db) ks -> LedgerEntryKey e ∈ ks /\
    map_find (LedgerEntryKey e) db = Some e) as Hin.
  { intros ks e (k&Hk&He)%list_elem_of_omap. destruct (Hr _ _ He) as [<- _]. done. }
  assert (forall ks : list LedgerKey, NoDup ks -> NoDup (LedgerEntryKey <$> omap (fun k => map_find k db) ks)) as Hnd'.
  { intros ks. induction ks as [|k ks IH]; intros Hks; [constructor|]. apply NoDup_cons in Hks as [Hk Hks].
    simpl. destruct (map_find k db) as [e|] eqn:He; [|by apply IH]. simpl. constructor; [|by apply IH].
    intros Hx. apply list_elem_of_fmap in Hx as (x&Hx&Hx'). apply Hin in Hx' as [Hx' _].
    destruct (Hr _ _ He) as [Hke _]. congruence. }
  unfold bulkLoad, populateLoadedEntries. rewrite bool_decide_true by (by apply Hnd'). cbn [ensure res_bind].
  eexists. split; [done|]. apply Forall_fmap, Forall_forall. intros k Hk. simpl.
  destruct (map_find k db) as [e|] eqn:He.
  - destruct (Hr _ _ He) as [Hke _]. apply (find_key_elem k); [by apply Hnd'|]. split; [|done].
    apply list_elem_of_omap. by exists k.
  - destruct (find_key k _) as [e|] eqn:Hf; [|done].
    apply find_key_elem in Hf as [Hf Hke]; [|by apply Hnd']. apply Hin in Hf as [_ Hf]. congruence.
Qed.

Lemma load_batches_ok (batches : list (list LedgerKey)) (total : nat) (i : RootImpl) :
  root_ok owner (ri_root i) -> entries_ok (root_entries (ri_root i)) (mEntryCache i) -> Forall NoDup batches ->
  exists n i', load_batches cfg batches total i = Ok (n, i') /\ same_but_entries i i'.
Proof.
  revert total i. induction batches as [|b batches IH]; intros total i Hr Hc Hb.
  - exists total, i. split; [done|]. by apply same_refl.
  - apply Forall_cons in Hb as [Hb Hbs]. destruct (bulkLoad_ok b (ri_root i) Hr Hb) as (res&Hres&Hall).
    destruct (cacheResult_ok res total i Hc Hall) as (n&i1&H1&Hs1). simpl. rewrite Hres. cbn [res_bind].
    rewrite H1. cbn [res_bind]. destruct (IH n i1) as (n2&i2&H2&Hs2);
      [by destruct Hs1 as (->&_)|by eapply same_entries|done|]. exists n2, i2. split; [done|]. by eapply same_trans.
Qed.

Lemma prefetch_keys_ok (keys : list LedgerKey) (batches : list (list LedgerKey)) (total : nat) (i : RootImpl) :
  root_ok owner (ri_root i) -> entries_ok (root_entries (ri_root i)) (mEntryCache i) -> NoDup keys ->
  Forall (fun b => NoDup b /\ forall k, k ∈ b -> k ∉ keys) batches ->
  exists bs n i', prefetch_keys cfg keys batches total i = Ok (bs, n, i') /\ same_but_entries i i' /\
    Forall NoDup bs.
Proof.
  revert batches total i. induction keys as [|k keys IH]; intros batches total i Hr Hc Hk Hb.
  - exists batches, total, i. split; [done|]. split; [by apply same_refl|].
    eapply Forall_impl; [exact Hb|]. by intros b [? _].
  - apply NoDup_cons in Hk as [Hk Hnd]. cbn [prefetch_keys].
    destruct (exists_ok _ k false _ Hc) as (Hc1&_&_).
    destruct (cache_exists k false (mEntryCache i)) as [hit c]. simpl in Hc1.
    set (batch := default [] (batches !! batch_index k)).
    assert (NoDup batch /\ forall x, x ∈ batch -> x ∉ k :: keys) as [Hbn Hbk].
    { subst batch. destruct (batches !! batch_index k) as [b|] eqn:E; simpl.
      - exact (Forall_lookup_1 _ _ _ _ Hb E).
      - split; [constructor|]. by intros x ?%elem_of_nil. }
    assert (NoDup (if hit then batch else batch ++ [k]) /\
      forall x, x ∈ (if hit then batch else batch ++ [k]) -> x ∉ keys) as [Hbn' Hbk'].
    { destruct hit.
      - split; [done|]. intros x Hx Hxk. apply (Hbk x Hx). by right.
      - split.
        + apply NoDup_app. split; [done|]. split; [|apply NoDup_singleton].
          intros x Hx ->%list_elem_of_singleton. apply (Hbk k Hx). by left.
        + intros x [Hx| ->%list_elem_of_singleton]%elem_of_app; [|done]. intros Hxk. apply (Hbk x Hx). by right. }
    assert (forall b, NoDup b /\ (forall x, x ∈ b -> x ∉ keys) ->
      Forall (fun b => NoDup b /\ forall k, k ∈ b -> k ∉ keys) (<[batch_index k := b]> batches)) as Hins.
    { intros b Hbb. apply Forall_insert; [|done]. eapply Forall_impl; [exact Hb|]. intros b' [? Hb'].
      split; [done|]. intros x Hx Hxk. apply (Hb' x Hx). by right. }
    destruct (length _ =? _)%nat.
    + destruct (bulkLoad_ok _ (ri_root i) Hr Hbn') as (res&Hres&Hall).
      destruct (cacheResult_ok res total (set_cache c (ri_draws i) i)) as (n&i1&H1&Hs1); [done|done|].
      cbn [ri_root set_cache]. rewrite Hres. cbn [res_bind]. rewrite H1. cbn [res_bind].
      destruct (IH (<[batch_index k := []]> batches) n i1) as (bs&n2&i2&H2&Hs2&Hbs).
      * by destruct Hs1 as (->&_).
      * by eapply same_entries.
      * done.
      * apply Hins. split; [constructor|]. by intros x ?%elem_of_nil.
      * exists bs, n2, i2. split; [done|]. split; [|done]. by eapply same_trans; [|exact Hs2].
    + destruct (IH (<[batch_index k := if hit then batch else batch ++ [k]]> batches) total
        (set_cache c (ri_draws i) i)) as (bs&n2&i2&H2&Hs2&Hbs); [done|done|done|by apply Hins|].
      exists bs, n2, i2. done.
Qed.

Lemma prefetch_ok (keys : list LedgerKey) (i : RootImpl) :
  root_ok owner (ri_root i) -> entries_ok (root_entries (ri_root i)) (mEntryCache i) -> NoDup keys ->
  exists n i', prefetch cfg keys i = Ok (n, i') /\ same_but_entries i i'.
Proof.
  intros Hr Hc Hk. unfold prefetch.
  destruct (prefetch_keys_ok keys (repeat [] 6) 0 i Hr Hc Hk) as (bs&n&i1&H1&Hs1&Hbs).
  { simpl. repeat (apply List.Forall_cons; [split; [constructor|by intros x ?%elem_of_nil]|]). constructor. }
  rewrite H1. cbn [res_bind].
  destruct (load_batches_ok bs n i1) as (n2&i2&H2&Hs2); [by destruct Hs1 as (->&_)|by eapply same_entries|done|].
  exists n2, i2. split; [done|]. by eapply same_trans.
Qed.

(** ** The offers of a pair in order *)

Notation Row := (LedgerEntry * OfferEntry)%type.
Notation precedes := (fun x y : Row => better (snd x) (snd y) = true).

(** Offers no two of which are at the same place. *)
Record offers_set (l : list Row) : Prop := {
  of_nodup : NoDup l;
  of_wf : forall x, x ∈ l -> offer_wf owner (snd x);
  of_distinct : forall x y, x ∈ l -> y ∈ l -> x <> y -> better (snd x) (snd y) = false -> better (snd y) (snd x) = true;
}.

Lemma offers_set_sub (l l' : list Row) : offers_set l -> NoDup l' -> (forall x, x ∈ l' -> x ∈ l) -> offers_set l'.
Proof. intros [Hn Hw Hd] Hn' Hsub. split; [done|by auto|]. intros x y Hx Hy. by apply Hd; apply Hsub. Qed.

Lemma insert_offer_perm (x : Row) (l : list Row) : insert_offer x l ≡ₚ x :: l.
Proof.
  induction l as [|y l IH]; [done|]. simpl. destruct (better (snd y) (snd x)); [|done].
  rewrite IH. apply perm_swap.
Qed.

Lemma insert_offer_sorted (x : Row) (l : list Row) :
  offers_set (x :: l) -> StronglySorted precedes l -> StronglySorted precedes (insert_offer x l).
Proof.
  intros Hset Hl. induction Hl as [|y l Hl IH Hall]; simpl; [by repeat constructor|].
  pose proof Hset as [Hnd Hwf Hdis].
  assert (forall z, z ∈ x :: y :: l -> offer_wf owner (snd z)) as Hw by done.
  destruct (better (snd y) (snd x)) eqn:E.
  - constructor.
    + apply IH. apply (offers_set_sub _ _ Hset); [|set_solver].
      inversion Hnd as [|? ? Hx Hyl]; subst. inversion Hyl; subst. constructor; [set_solver|done].
    + rewrite Forall_forall in Hall |- *. intros z Hz. rewrite insert_offer_perm in Hz.
      apply elem_of_cons in Hz as [->|Hz]; [done|by apply Hall].
  - assert (better (snd x) (snd y) = true) as Hxy.
    { apply (Hdis y x); [by right; left|by left| |done]. intros ->. inversion Hnd; set_solver. }
    constructor; [by constructor|]. constructor; [done|]. rewrite Forall_forall in Hall |- *. intros z Hz.
    apply (better_trans owner _ (snd y)); [apply Hw; set_solver..|done|by apply Hall].
Qed.

Lemma order_offers_perm (l : list Row) : order_offers l ≡ₚ l.
Proof. induction l as [|x l IH]; [done|]. simpl. by rewrite insert_offer_perm, IH. Qed.

Lemma order_offers_sorted (l : list Row) : offers_set l -> StronglySorted precedes (order_offers l).
Proof.
  induction l as [|x l IH]; intros Hset; [constructor|]. simpl.
  apply insert_offer_sorted.
  - apply (offers_set_sub _ _ Hset).
    + rewrite order_offers_perm. apply Hset.
    + intros y. rewrite order_offers_perm. done.
  - apply IH. apply (offers_set_sub _ _ Hset); [|intros; by right].
    by destruct Hset as [[]%NoDup_cons _ _].
Qed.

Lemma sorted_filter (P : Row -> bool) (l : list Row) :
  StronglySorted precedes l -> StronglySorted precedes (filter (fun x => P x = true) l).
Proof.
  induction 1 as [|x l Hl IH Hall]; [constructor|]. rewrite filter_cons. case_decide; [|done].
  constructor; [done|]. rewrite Forall_forall in Hall |- *. intros y [_ Hy]%list_elem_of_filter. by apply Hall.
Qed.

Lemma order_filter (P : Row -> bool) (l : list Row) :
  offers_set l -> order_offers (filter (fun x => P x = true) l) = filter (fun x => P x = true) (order_offers l).
Proof.
  intros Hset. assert (offers_set (filter (fun x => P x = true) l)) as Hf.
  { apply (offers_set_sub _ _ Hset); [by apply NoDup_filter, Hset|]. by intros x [_ ?]%list_elem_of_filter. }
  apply (StronglySorted_unique_strong precedes).
  - intros x y Hx Hy Hxy Hyx. rewrite order_offers_perm in Hx. apply list_elem_of_filter in Hy as [_ Hy].
    apply list_elem_of_filter in Hx as [_ Hx]. rewrite order_offers_perm in Hy.
    rewrite (better_asym owner) in Hyx; [done|by apply Hset..|done].
  - by apply order_offers_sorted.
  - by apply sorted_filter, order_offers_sorted.
  - rewrite order_offers_perm. by rewrite order_offers_perm.
Qed.

Lemma filter_none {A} (P : A -> bool) (l : list A) :
  (forall x, x ∈ l -> P x = false) -> filter (fun x => P x = true) l = [].
Proof.
  induction l as [|x l IH]; intros Hl; [done|]. rewrite filter_cons_False.
  - apply IH. intros y Hy. apply Hl. by right.
  - rewrite (Hl x); [done|by left].
Qed.

Lemma filter_every {A} (P : A -> bool) (l : list A) :
  (forall x, x ∈ l -> P x = true) -> filter (fun x => P x = true) l = l.
Proof.
  induction l as [|x l IH]; intros Hl; [done|]. rewrite filter_cons_True by (apply Hl; by left).
  f_equal. apply IH. intros y Hy. apply Hl. by right.
Qed.

(** Past an offer come those after it. *)
Lemma filter_past (l1 l2 : list Row) (x : Row) :
  offers_set (l1 ++ x :: l2) -> StronglySorted precedes (l1 ++ x :: l2) ->
  filter (fun y => within (Some (descriptor (snd x))) (snd y) = true) (l1 ++ x :: l2) = l2.
Proof.
  intros [_ Hw _] Hs. apply StronglySorted_app in Hs as (Hc&_&Hs2). apply StronglySorted_cons in Hs2 as [Hx _].
  rewrite Forall_forall in Hx. rewrite filter_app, filter_none, filter_cons_False, filter_every; [done|..].
  - done.
  - simpl. rewrite (better_irrefl owner); [done|]. apply Hw. set_solver.
  - intros y Hy. simpl. apply (better_asym owner); [apply Hw; set_solver..|]. by apply Hc; [|left].
Qed.

(** The offers past a bound are the last ones. *)
Lemma findIncluded_sorted (w : option OfferDescriptor) (l : list Row) :
  bound_ok w -> offers_set l -> StronglySorted precedes l ->
  (forall x, x ∈ l -> le_data (fst x) = OFFER (snd x)) ->
  findIncludedOffer w (fst <$> l) = Ok (fst <$> filter (fun x => within w (snd x) = true) l).
Proof.
  intros Hw Hset Hs Hd. induction l as [|x l IH]; [done|]. simpl. unfold offer_data.
  rewrite (Hd x) by left. cbn [res_bind]. apply StronglySorted_cons in Hs as [Hx Hs].
  destruct (within w (snd x)) eqn:E.
  - rewrite filter_every; [done|]. rewrite Forall_forall in Hx. intros y [->|Hy]%elem_of_cons; [done|].
    apply (within_trans owner w (snd x)); [done|apply Hset; by left|apply Hset; by right|done|by apply Hx].
  - rewrite filter_cons_False by (by rewrite E). apply IH; [|done|intros; apply Hd; by right].
    apply (offers_set_sub _ _ Hset); [|intros; by right]. by destruct Hset as [[]%NoDup_cons _ _].
Qed.

Lemma best_of_head (l : list Row) : best_of l = head (order_offers l).
Proof.
  induction l as [|x l IH]; [done|]. simpl. rewrite IH. destruct (order_offers l) as [|y l'] eqn:E; [done|].
  simpl. by destruct (better (snd y) (snd x)).
Qed.

(** The rows of the database. *)
Lemma db_offers_NoDup (b s : Asset) (db : list (LedgerKey * LedgerEntry)) :
  NoDup (map_keys db) -> (forall p, p ∈ db -> LedgerEntryKey (snd p) = fst p) -> NoDup (db_offers b s db).
Proof.
  induction db as [|p db IH]; intros Hnd Hk; [constructor|]. apply NoDup_cons in Hnd as [Hp Hnd].
  specialize (IH Hnd (fun q Hq => Hk q ltac:(by right))). unfold db_offers in *. simpl.
  destruct (le_data (snd p)) as [| |o| | |] eqn:Hd; try done. destruct (bool_decide _); [|done].
  constructor; [|done]. intros ([k e]&Hin&He)%list_elem_of_omap. apply Hp. simpl in He.
  destruct (le_data e); try done. destruct (bool_decide _); [|done]. injection He as He _.
  pose proof (Hk (k, e) ltac:(by right)) as Hke. simpl in Hke. rewrite <- (Hk p), <- He, Hke by left.
  apply list_elem_of_In, in_map_iff. exists (k, e). split; [done|]. by apply list_elem_of_In.
Qed.

Lemma db_offers_row (b s : Asset) (r : Root) (x : Row) :
  root_ok owner r -> x ∈ db_offers b s (root_entries r) ->
  offer_wf owner (snd x) /\ le_data (fst x) = OFFER (snd x) /\
  map_find (LedgerEntryKey (fst x)) (root_entries r) = Some (fst x).
Proof.
  intros Hr Hx. destruct x as [e o]. apply (elem_of_db_offers owner) in Hx; [|done]. split.
  - by eapply view_offer_wf; [apply root_view_wf|].
  - destruct Hx as (Hf&Hd&_). split; [done|]. simpl in Hf. by apply fmap_Some in Hf as (?&?&[= <-]).
Qed.

Lemma db_offers_set (b s : Asset) (r : Root) :
  root_ok owner r -> offers_set (db_offers b s (root_entries r)).
Proof.
  intros Hr. split.
  - destruct Hr as [Ho Hr]. apply db_offers_NoDup; [by apply increasing_NoDup|].
    intros [k e] Hp. apply map_find_elem in Hp; [|done]. by destruct (Hr k e Hp).
  - intros x Hx. by apply (db_offers_row b s r x).
  - intros [e o] [e' o'] Hx Hy Hne Hb. apply not_false_is_true. intros Hb'. apply Hne.
    destruct (db_offers_row _ _ _ _ Hr Hx) as (Hw&Hd&Hf), (db_offers_row _ _ _ _ Hr Hy) as (Hw'&Hd'&Hf').
    simpl in *. rewrite isBetterOffer_code in Hb, Hb' by (apply Hw || apply Hw').
    assert (toKey (LEDGER_ENTRY e) = toKey (LEDGER_ENTRY e')) as [= Hk].
    { apply (same_place_key owner o o'); simpl; [by rewrite Hd|by rewrite Hd'|done..|]. by apply ltb_total. }
    rewrite Hk in Hf. congruence.
Qed.

(** ** The batches of best offers *)

(** The offers of a pair, in order. *)
Definition offers_in_order (b s : Asset) (r : Root) : list Row := order_offers (db_offers b s (root_entries r)).

(** A first part of them; all, where nothing is left to load. *)
Definition best_ok (b s : Asset) (r : Root) (x : BestOffersEntry) : Prop :=
  exists n, (n <= length (offers_in_order b s r))%nat /\ bestOffers x = fst <$> take n (offers_in_order b s r) /\
    (allLoaded x = true -> n = length (offers_in_order b s r)).

(** Identifiers that leave the next one in range. *)
Definition ids_ok (r : Root) : Prop :=
  forall k e o, map_find k (root_entries r) = Some e -> le_data e = OFFER o -> of_offerID o < INT64_MAX.

Section pair.
Context (b s : Asset) (r : Root) (Hr : root_ok owner r) (Hids : ids_ok r).
#[local] Notation OO := (offers_in_order b s r).

Lemma OO_row (x : Row) :
  x ∈ OO -> offer_wf owner (snd x) /\ le_data (fst x) = OFFER (snd x) /\
  map_find (LedgerEntryKey (fst x)) (root_entries r) = Some (fst x).
Proof. unfold offers_in_order. rewrite order_offers_perm. by apply db_offers_row. Qed.

Lemma OO_set : offers_set OO.
Proof.
  pose proof (db_offers_set b s r Hr) as Hset. apply (offers_set_sub _ _ Hset); unfold offers_in_order.
  - rewrite order_offers_perm. apply Hset.
  - intros x. by rewrite order_offers_perm.
Qed.

Lemma OO_sorted : StronglySorted precedes OO.
Proof. by apply order_offers_sorted, db_offers_set. Qed.

Lemma OO_segment (l l1 l2 : list Row) :
  OO = l1 ++ l ++ l2 -> offers_set l /\ StronglySorted precedes l.
Proof.
  intros HO. pose proof OO_set as Hset. pose proof OO_sorted as Hs. rewrite HO in Hset, Hs.
  apply StronglySorted_app in Hs as (_&_&Hs). apply StronglySorted_app in Hs as (_&Hs&_). split; [|done].
  apply (offers_set_sub _ _ Hset).
  - by destruct Hset as [(_&_&(?&_)%NoDup_app)%NoDup_app _ _].
  - set_solver.
Qed.

Lemma rootBest_head (w : option OfferDescriptor) :
  rootBestOffer b s w r = fst <$> head (filter (fun x => within w (snd x) = true) OO).
Proof.
  unfold rootBestOffer. rewrite best_of_head, (order_filter (fun x => within w (snd x))); [done|].
  by apply db_offers_set.
Qed.

(** A query for what follows the first offers. *)
Lemma loadBestOffers_next (n m : nat) :
  (n <= length OO)%nat ->
  (let? w := match last (fst <$> take n OO) with
     | None => Ok None
     | Some e => let? o := offer_data e in Ok (Some (descriptor o)) end in
   loadBestOffers b s w m r) = Ok (fst <$> take m (drop n OO)).
Proof.
  intros Hn. destruct (last (take n OO)) as [x|] eqn:E; rewrite fmap_last, E; simpl.
  - apply last_Some in E as [l El]. assert (OO = l ++ x :: drop n OO) as HO.
    { rewrite <- (take_drop n OO) at 1. by rewrite El, <- app_assoc. }
    assert (x ∈ OO) as Hx by (rewrite HO; set_solver). apply OO_row in Hx as (_&Hd&Hf).
    unfold offer_data. rewrite Hd. cbn [res_bind]. unfold loadBestOffers.
    specialize (Hids _ _ _ Hf Hd). cbn [od_offerID descriptor].
    rewrite (proj2 (Z.eqb_neq _ _)) by lia. cbn [negb ensure res_bind].
    rewrite (order_filter (fun y => within (Some (descriptor (snd x))) (snd y))) by (by apply db_offers_set).
    fold OO. rewrite HO at 1. rewrite filter_past; [done|rewrite <- HO; apply OO_set|rewrite <- HO; apply OO_sorted].
  - apply last_None in E. assert (drop n OO = OO) as ->.
    { rewrite <- (take_drop n OO) at 2. by rewrite E. }
    unfold loadBestOffers. cbn [ensure res_bind]. by rewrite filter_every by done.
Qed.

Definition batch_size (x : BestOffersEntry) : nat :=
  Nat.min (mMaxBestOffersBatchSize cfg) (Nat.max MIN_BEST_OFFERS_BATCH_SIZE (length (bestOffers x))).

Lemma batch_size_pos (x : BestOffersEntry) : (0 < batch_size x)%nat.
Proof. unfold batch_size, mMaxBestOffersBatchSize, MIN_BEST_OFFERS_BATCH_SIZE. lia. Qed.

Lemma loadNext_ok (n : nat) (x : BestOffersEntry) :
  (n <= length OO)%nat -> bestOffers x = fst <$> take n OO -> allLoaded x = false ->
  exists x', loadNextBestOffersIntoCache cfg b s x r = Ok (fst <$> take (batch_size x) (drop n OO), x') /\
    bestOffers x' = fst <$> take (n + batch_size x) OO /\
    (allLoaded x' = true <-> length OO < n + batch_size x)%nat.
Proof.
  intros Hn Hb Ha. unfold loadNextBestOffersIntoCache. rewrite Ha.
  pose proof (loadBestOffers_next n (batch_size x) Hn) as Hl. rewrite <- Hb in Hl.
  destruct (match last (bestOffers x) with None => _ | Some e => _ end) as [w|e]; [|done].
  cbn [res_bind] in Hl |- *. fold (batch_size x). rewrite Hl. cbn [res_bind]. eexists. split; [done|].
  cbn [bestOffers allLoaded]. split.
  - rewrite Hb, <- fmap_app. f_equal. by rewrite take_take_drop.
  - rewrite Nat.ltb_lt, length_fmap, length_take, length_drop. lia.
Qed.

(** What is past the bound in the offers that are loaded. *)
Notation past w n := (fst <$> filter (fun x : Row => within w (snd x) = true) (take n OO)) (only parsing).

Lemma findIncluded_segment (w : option OfferDescriptor) (l l1 l2 : list Row) :
  bound_ok w -> OO = l1 ++ l ++ l2 ->
  findIncludedOffer w (fst <$> l) = Ok (fst <$> filter (fun x => within w (snd x) = true) l).
Proof.
  intros Hw HO. destruct (OO_segment l l1 l2 HO) as [Hset Hs]. apply findIncluded_sorted; [done..|].
  intros x Hx. apply OO_row. rewrite HO. set_solver.
Qed.

(** Loading until an offer is past the bound or none is left. *)
Lemma load_until_ok (fuel : nat) (w : option OfferDescriptor) (n : nat) (x : BestOffersEntry) :
  bound_ok w -> (n <= length OO)%nat -> bestOffers x = fst <$> take n OO ->
  (allLoaded x = true -> n = length OO) -> (allLoaded x = false -> length OO - n < fuel)%nat ->
  exists n' x', load_until fuel cfg b s w (past w n) x r = Ok (past w n', x') /\
    (n' <= length OO)%nat /\ bestOffers x' = fst <$> take n' OO /\ (allLoaded x' = true -> n' = length OO) /\
    (filter (fun y : Row => within w (snd y) = true) (take n' OO) <> [] \/ n' = length OO).
Proof.
  intros Hw. revert n x. induction fuel as [|fuel IH]; intros n x Hn Hb Ha Hf; cbn [load_until].
  - destruct (allLoaded x) eqn:E; [|specialize (Hf eq_refl); lia]. cbn [negb].
    exists n, x. rewrite E. split; [by destruct (filter _ _)|]. specialize (Ha eq_refl). auto.
  - destruct (filter _ (take n OO)) as [|y l] eqn:Ef; cycle 1.
    { exists n, x. rewrite Ef. cbn [fmap list_fmap]. split; [done|]. auto. }
    cbn [fmap list_fmap]. destruct (allLoaded x) eqn:E; cbn [negb].
    { exists n, x. rewrite Ef, E. split; [done|]. specialize (Ha eq_refl). auto. }
    destruct (loadNext_ok n x Hn Hb E) as (x'&Hl&Hb'&Ha'). rewrite Hl. cbn [res_bind].
    rewrite (findIncluded_segment w _ (take n OO) (drop (batch_size x) (drop n OO)) Hw)
      by (by rewrite !take_drop). cbn [res_bind].
    set (n' := Nat.min (n + batch_size x) (length OO)).
    assert (take (n + batch_size x) OO = take n' OO) as Hn'.
    { subst n'. destruct (Nat.min_spec (n + batch_size x) (length OO)) as [[_ ->]|[? ->]]; [done|].
      by rewrite !take_ge by lia. }
    assert (filter (fun y : Row => within w (snd y) = true) (take (batch_size x) (drop n OO)) =
      filter (fun y : Row => within w (snd y) = true) (take n' OO)) as ->.
    { rewrite <- Hn', <- take_take_drop, filter_app, Ef. done. }
    specialize (Hf eq_refl). pose proof (batch_size_pos x). rewrite Hn' in Hb'.
    apply IH; [subst n'; lia|done|subst n'; intros ?%Ha'; lia|]. intros Hnl.
    assert (~ (length OO < n + batch_size x)%nat) by (rewrite <- Ha'; congruence). subst n'. lia.
Qed.
End pair.

(** ** The caches never show *)

Record caches_ok (i : RootImpl) : Prop := {
  cs_root : root_ok owner (ri_root i);
  cs_ids : ids_ok (ri_root i);
  cs_entries : entries_ok (root_entries (ri_root i)) (mEntryCache i);
  cs_best : forall b s x, mBestOffers i b s = Some x -> best_ok b s (ri_root i) x;
}.

Lemma caches_ok_same (i i' : RootImpl) : caches_ok i -> same_but_entries i i' -> caches_ok i'.
Proof. intros [] (Hr&Hb&He). split; rewrite ?Hr, ?Hb; done. Qed.

Lemma best_ok_default (b s : Asset) (i : RootImpl) :
  caches_ok i -> best_ok b s (ri_root i) (getFromBestOffers b s i).
Proof.
  intros Hi. unfold getFromBestOffers. destruct (mBestOffers i b s) as [x|] eqn:E; [by apply (cs_best i Hi)|].
  exists 0%nat. split; [lia|]. by split.
Qed.

Lemma caches_ok_set_best (b s : Asset) (x : BestOffersEntry) (i : RootImpl) :
  caches_ok i -> best_ok b s (ri_root i) x -> caches_ok (set_best b s x i).
Proof.
  intros [Hr Hids He Hb] Hx. split; [done..|]. intros b' s' x'. simpl. unfold upd2. case_decide as Hd; [|by apply Hb].
  destruct Hd as [-> ->]. by intros [= <-].
Qed.

Lemma keys_to_prefetch_ok (l : list LedgerEntry) :
  (forall e, e ∈ l -> exists o, le_data e = OFFER o) -> exists ks, keys_to_prefetch l = Ok ks /\ increasing ks.
Proof.
  induction l as [|e l IH]; intros Hl; [exists []; split; [done|constructor]|].
  destruct (Hl e) as [o Ho]; [by left|]. destruct IH as (ks&Hks&Hinc); [intros; apply Hl; by right|].
  cbn [keys_to_prefetch]. unfold offer_data. rewrite Ho. cbn [res_bind]. rewrite Hks. cbn [res_bind]. eexists. split; [done|].
  generalize (offer_keys o). intros ko. induction ko as [|k ko IHk]; [exact Hinc|]. by apply increasing_set_insert.
Qed.

Lemma populate_ok (l : list LedgerEntry) (i : RootImpl) :
  caches_ok i -> (forall e, e ∈ l -> exists o, le_data e = OFFER o) ->
  exists i', populateEntryCacheFromBestOffers cfg l i = Ok i' /\ same_but_entries i i'.
Proof.
  intros [Hr _ He _] Hl. destruct (keys_to_prefetch_ok l Hl) as (ks&Hks&Hinc).
  destruct (prefetch_ok ks i Hr He) as (n&i'&Hp&Hs); [by apply increasing_NoDup|].
  exists i'. split; [|done]. unfold populateEntryCacheFromBestOffers. rewrite Hks. cbn [res_bind]. by rewrite Hp.
Qed.

Lemma missing_ok (o : OfferEntry) (i : RootImpl) :
  caches_ok i -> same_but_entries i (snd (areEntriesMissingInCacheForOffer o i)).
Proof.
  intros [_ _ He _]. unfold areEntriesMissingInCacheForOffer.
  enough (forall ks c, entries_ok (root_entries (ri_root i)) c ->
    entries_ok (root_entries (ri_root i)) (snd (any_missing ks c))) as H.
  { specialize (H (offer_keys o) _ He). by destruct (any_missing _ _). }
  induction ks as [|k ks IH]; intros c Hc; [done|]. cbn [any_missing]. destruct (exists_ok _ k true c Hc) as (Hc'&_).
  destruct (cache_exists k true c) as [[] c']; [by apply IH|done].
Qed.

Lemma offers_in_order_length (b s : Asset) (r : Root) :
  (length (offers_in_order b s r) <= length (root_entries r))%nat.
Proof.
  unfold offers_in_order. rewrite order_offers_perm. unfold db_offers.
  induction (root_entries r) as [|p db IH]; [done|]. simpl.
  destruct (match le_data (snd p) with OFFER _ => _ | _ => _ end); simpl; unfold omap in IH; lia.
Qed.

(** An entry of the database put into the cache. *)
Lemma put_entry_ok (e : LedgerEntry) (t : LoadType) (i : RootImpl) :
  caches_ok i -> map_find (LedgerEntryKey e) (root_entries (ri_root i)) = Some e ->
  exists i', putInEntryCache cfg (LedgerEntryKey e) (Some e) t i = Ok i' /\ same_but_entries i i'.
Proof.
  intros [_ _ Hc _] He. destruct (put_db_ok (LedgerEntryKey e) (Some e) t i Hc) as (c&d&Hp&Hc'); [done|].
  eexists. split; [done|]. by split_and!.
Qed.

Lemma root_getBestOffer_ok (b s : Asset) (w : option OfferDescriptor) (i : RootImpl) :
  caches_ok i -> bound_ok w ->
  exists i', root_getBestOffer cfg b s w i = Ok (rootBestOffer b s w (ri_root i), i') /\
    caches_ok i' /\ ri_root i' = ri_root i.
Proof.
  intros Hi Hw. pose proof Hi as [Hr Hids _ _]. destruct (best_ok_default b s i Hi) as (n&Hn&Hb&Ha).
  pose proof (findIncluded_segment b s _ Hr Hids w _ [] (drop n (offers_in_order b s (ri_root i))) Hw
    (eq_sym (take_drop n _))) as Hfind.
  unfold root_getBestOffer. cbv zeta. rewrite <- Hb in Hfind. rewrite Hfind. cbn [res_bind].
  destruct (load_until_ok b s _ Hr Hids (S (length (root_entries (ri_root i)))) w n (getFromBestOffers b s i))
    as (n'&x'&Hl&Hn'&Hb'&Ha'&Hend); [done..| |].
  { intros _. pose proof (offers_in_order_length b s (ri_root i)). lia. }
  rewrite Hl. cbn [res_bind]. clear Hl. set (OO := offers_in_order b s (ri_root i)) in *.
  set (new := negb (_ =? _)%nat). clearbody new. set (L := filter _ (take n' OO)) in *.
  assert (forall y, y ∈ L -> le_data (fst y) = OFFER (snd y) /\ within w (snd y) = true /\
    map_find (LedgerEntryKey (fst y)) (root_entries (ri_root i)) = Some (fst y)) as HL.
  { intros y [Hyw Hy]%list_elem_of_filter. apply elem_of_take in Hy as (j&Hj&_).
    apply list_elem_of_lookup_2, OO_row in Hj as (_&?&?); done. }
  assert (forall l e, (forall x, x ∈ l -> x ∈ L) -> e ∈ (fst <$> l : list LedgerEntry) ->
    exists o, le_data e = OFFER o) as HLo.
  { intros l e Hsub (y&->&Hy)%list_elem_of_fmap. exists (snd y). apply HL. by apply Hsub. }
  assert (caches_ok (set_best b s x' i)) as Hi1 by (apply caches_ok_set_best; [done|by exists n']).
  set (i1 := set_best b s x' i) in *.
  assert (exists i2, (if new then populateEntryCacheFromBestOffers cfg (fst <$> L) i1 else Ok i1) = Ok i2 /\
    same_but_entries i1 i2) as (i2&->&Hs2).
  { destruct new; [by apply populate_ok; [|intros e; apply HLo]|]. exists i1. split; [done|].
    apply same_refl, Hi1. }
  cbn [res_bind]. rewrite (rootBest_head b s _ Hr). fold OO.
  assert (filter (fun x : Row => within w (snd x) = true) OO = L ++ filter (fun x : Row => within w (snd x) = true) (drop n' OO)) as ->.
  { subst L. by rewrite <- filter_app, take_drop. }
  pose proof (caches_ok_same _ _ Hi1 Hs2) as Hi2. pose proof Hs2 as (Hr2&_&_). change (ri_root i1) with (ri_root i) in Hr2.
  destruct L as [|y l] eqn:EL; cbn [fmap list_fmap app head].
  - destruct Hend as [[]| ->]; [done|]. rewrite drop_ge by done. by exists i2.
  - destruct (HL y) as (Hd&Hyw&Hf); [by left|]. unfold offer_data. rewrite Hd. cbn [res_bind]. rewrite Hyw.
    cbn [ensure res_bind].
    destruct (if new then (false, i2) else _) as [missing i3] eqn:E3.
    assert (same_but_entries i2 i3) as Hs3.
    { destruct new; [injection E3 as _ <-; apply same_refl, Hi2|].
      pose proof (missing_ok (snd y) i2 Hi2) as Hm. by rewrite E3 in Hm. }
    pose proof (caches_ok_same _ _ Hi2 Hs3) as Hi3.
    assert (exists i4, (if missing then populateEntryCacheFromBestOffers cfg
        (take (mMaxBestOffersBatchSize cfg) (fst y :: (fst <$> l))) i3 else Ok i3) = Ok i4 /\
      same_but_entries i3 i4) as (i4&->&Hs4).
    { destruct missing; [|by exists i3; split; [|apply same_refl, Hi3]]. apply populate_ok; [done|].
      intros e (j&Hj&_)%elem_of_take. apply list_elem_of_lookup_2 in Hj. by apply (HLo (y :: l)). }
    cbn [res_bind]. pose proof (caches_ok_same _ _ Hi3 Hs4) as Hi4.
    assert (ri_root i4 = ri_root i) as Hr4 by (destruct Hs3 as [H3 _], Hs4 as [H4 _]; congruence).
    destruct (put_entry_ok (fst y) IMMEDIATE i4 Hi4) as (i5&->&Hs5); [by rewrite Hr4|]. cbn [res_bind].
    exists i5. split; [done|]. split; [by eapply caches_ok_same|]. destruct Hs5 as [H5 _]. congruence.
Qed.

(** ** Any use of the root *)

(** What a child asks of the root, and what [LedgerManager] prefetches. *)
Inductive RootOp :=
  | OpNewest (k : InternalLedgerKey)
  | OpBestOffer (buying selling : Asset) (worseThan : option OfferDescriptor)
  | OpPrefetch (keys : list LedgerKey)
  | OpAddChild (readWrite : bool)
  | OpRollbackChild
  | OpCommitChild (child : Txn).

Inductive RootAnswer := GotEntry (e : option InternalLedgerEntry) | GotOffer (e : option LedgerEntry) | Done.

Definition cached_step (op : RootOp) (i : RootImpl) : rt (RootAnswer * RootImpl) :=
  match op with
  | OpNewest k => let? (e, i) := root_getNewestVersion cfg k i in Ok (GotEntry e, i)
  | OpBestOffer b s w => let? (e, i) := root_getBestOffer cfg b s w i in Ok (GotOffer e, i)
  | OpPrefetch ks => let? (_, i) := prefetch cfg (set_of_list ks) i in Ok (Done, i)
  | OpAddChild rw => Ok (Done, root_addChild rw i)
  | OpRollbackChild => Ok (Done, root_rollbackChild i)
  | OpCommitChild c => let? i := root_commitChild c i in Ok (Done, i)
  end.

(** The same on the database alone. *)
Definition plain_step (op : RootOp) (r : Root) : rt (RootAnswer * Root) :=
  let open rw := {| root_header := root_header r; root_entries := root_entries r; root_transaction := rw |} in
  match op with
  | OpNewest k => Ok (GotEntry (root_newest r k), r)
  | OpBestOffer b s w => Ok (GotOffer (rootBestOffer b s w r), r)
  | OpPrefetch _ => Ok (Done, r)
  | OpAddChild rw => Ok (Done, open rw)
  | OpRollbackChild => Ok (Done, open false)
  | OpCommitChild c => match rootCommitChild c r with Ok r' => Ok (Done, r') | Err e => Err (RootLtxError e) end
  end.

Fixpoint steps {S : Type} (step : RootOp -> S -> rt (RootAnswer * S)) (ops : list RootOp) (x : S)
    : rt (list RootAnswer * S) :=
  match ops with
  | [] => Ok ([], x)
  | op :: ops' =>
      let? (a, x) := step op x in
      let? (l, x) := steps step ops' x in
      Ok (a :: l, x)
  end.

(** An entry under its key, an offer with an identifier that leaves the next
    one in range. *)
Definition row_ok (k : LedgerKey) (e : LedgerEntry) : Prop :=
  LedgerEntryKey e = k /\ entry_wf owner (LEDGER_ENTRY e) /\
  forall o, le_data e = OFFER o -> of_offerID o < INT64_MAX.

(** Bounds have prices of offers, and children have entries under their keys. *)
Definition op_ok (op : RootOp) : Prop :=
  match op with
  | OpBestOffer _ _ w => bound_ok w
  | OpCommitChild c =>
      Forall (fun x => forall k e, fst x = LEDGER_ENTRY_KEY k -> ledger_entry (snd x) = Some e -> row_ok k e) (mEntry c)
  | _ => True
  end.

Definition rows_ok (db : list (LedgerKey * LedgerEntry)) : Prop :=
  ordered db /\ forall k e, map_find k db = Some e -> row_ok k e.

Lemma rows_ok_root (r : Root) : rows_ok (root_entries r) <-> root_ok owner r /\ ids_ok r.
Proof.
  split.
  - intros [Ho Hr]. split; [split; [done|]|]; [|intros k e o He]; intros; by edestruct Hr as (?&?&?); eauto.
  - intros [[Ho Hr] Hi]. split; [done|]. intros k e He. destruct (Hr k e He). split_and!; [done..|].
    intros o. by apply (Hi k).
Qed.

Lemma rows_ok_set (k : LedgerKey) (e : LedgerEntry) (db : list (LedgerKey * LedgerEntry)) :
  rows_ok db -> row_ok k e -> rows_ok (map_set k e db).
Proof.
  intros [Ho Hr] He. split; [by apply ordered_map_set|]. intros k' e'. rewrite map_find_set.
  destruct (eqb_of k' k) eqn:E; [|apply Hr]. apply eqb_of_true in E as ->. by intros [= <-].
Qed.

Lemma rows_ok_erase (k : LedgerKey) (db : list (LedgerKey * LedgerEntry)) : rows_ok db -> rows_ok (map_erase k db).
Proof.
  intros [Ho Hr]. split; [by apply ordered_map_erase|]. intros k' e'. rewrite map_find_erase by done.
  destruct (eqb_of k' k); [done|apply Hr].
Qed.

Lemma bulkApply_rows (cons : LedgerTxnConsistency) (c : EntryMap) (db db' : list (LedgerKey * LedgerEntry)) :
  Forall (fun x => forall k e, fst x = LEDGER_ENTRY_KEY k -> ledger_entry (snd x) = Some e -> row_ok k e) c ->
  rows_ok db -> bulkApply cons c db = Ok db' -> rows_ok db'.
Proof.
  intros Hc. revert db. induction Hc as [|[[k|x|x] p] c Hp Hc IH]; intros db Hdb; simpl;
    [by intros [= <-]| |by apply IH..]. specialize (Hp k). simpl in Hp.
  destruct p as [[e|x|x]|[e|x|x]|]; cbn [res_bind]; try by apply IH.
  1,2: apply IH, rows_ok_set; [done|by apply Hp].
  destruct (map_find k db), cons; cbn [res_bind]; try done; by apply IH, rows_ok_erase.
Qed.

Lemma cached_step_ok (op : RootOp) (i : RootImpl) :
  caches_ok i -> op_ok op ->
  match plain_step op (ri_root i) with
  | Ok (a, r') => exists i', cached_step op i = Ok (a, i') /\ caches_ok i' /\ ri_root i' = r'
  | Err e => cached_step op i = Err e
  end.
Proof.
  intros Hi Hop. destruct op as [k|b s w|ks|rw| |c]; simpl.
  - destruct (root_getNewestVersion_ok k i) as (i'&->&Hs); [apply Hi|]. exists i'. split; [done|].
    split; [by eapply caches_ok_same|by destruct Hs].
  - destruct (root_getBestOffer_ok b s w i Hi Hop) as (i'&->&?&?). by exists i'.
  - destruct (prefetch_ok (set_of_list ks) i) as (n&i'&->&Hs);
      [apply Hi|apply Hi|by apply increasing_NoDup, increasing_set_of_list|].
    cbn [res_bind]. exists i'. split; [done|]. split; [by eapply caches_ok_same|by destruct Hs].
  - eexists. split; [done|]. split; [|done]. by destruct Hi.
  - eexists. split; [done|]. split; [|done]. by destruct Hi.
  - unfold root_commitChild. destruct (rootCommitChild c (ri_root i)) as [r'|e] eqn:E; [|done].
    assert (rows_ok (root_entries r')) as [Hr' Hids']%rows_ok_root.
    { unfold rootCommitChild in E. destruct (negb _); [done|].
      destruct (bulkApply _ _ _) as [db|] eqn:Edb; [|done]. injection E as <-.
      eapply bulkApply_rows; [done|by apply rows_ok_root; split; apply Hi|done]. }
    eexists. split; [done|]. split; [|done]. split; [done..| |done]. cbn [mEntryCache ri_root].
    eapply cleared_ok, Hi.
Qed.
End caches.

(** *** An example: three offers loaded through a small cache *)

Definition example_cfg : RootConfig :=
  {| rc_rand := example_rand; entryCacheSize := 2; mBulkLoadBatchSize := 1; maxOffersToCross := 2 |}.

Definition example_book : Root :=
  let row e := (LedgerEntryKey e, e) in
  {| root_header := example_header;
     root_entries := [row (example_offer 3 1 3 2); row (example_offer 3 2 5 4); row (example_offer 3 3 1 1)];
     root_transaction := false |}.

Definition example_reads : list RootOp :=
  let best w := OpBestOffer example_asset ASSET_TYPE_NATIVE w in
  let past n d id := best (Some {| od_price := {| price_n := n; price_d := d |}; od_offerID := id |}) in
  let key id := LedgerEntryKey (example_offer 0 id 1 1) in
  let child := set_mEntry [(LEDGER_ENTRY_KEY (key 2), DELETED)] (newTxn example_header true) in
  [best None; past 5 4 2; past 3 2 1; OpPrefetch [key 1; key 2; key 3]; OpNewest (LEDGER_ENTRY_KEY (key 2));
   OpAddChild true; OpCommitChild child; OpNewest (LEDGER_ENTRY_KEY (key 2)); past 1 1 3].

(** C23. The caches of the root never show: for any sequence of reads of entries,
    queries for best offers, prefetches, openings, commits and rollbacks of children,
    whatever the sizes of the caches and of the batches and whatever is evicted, the
    root that answers from its caches gives the answers of the database itself, ends
    with the same database, and fails only where the commit itself does: the loads of
    more offers end, no duplicate row comes up, and the offer found is past the bound. *)
Theorem root_caches_transparent (owner : Z -> AccountID) (cfg : RootConfig) (r : Root) (ops : list RootOp) :
  uniform (rc_rand cfg) -> (0 < maxOffersToCross cfg)%nat ->
  root_ok owner r -> ids_ok r -> Forall (op_ok owner) ops ->
  match steps plain_step ops r with
  | Ok (answers, r') => exists i, steps (cached_step cfg) ops (newRoot cfg r) = Ok (answers, i) /\ ri_root i = r'
  | Err e => steps (cached_step cfg) ops (newRoot cfg r) = Err e
  end.
Proof.
  intros Hrand Hcross Hr Hids Hops.
  assert (caches_ok owner (newRoot cfg r)) as Hi by by split; [..|by exists (fun _ => None); split; [apply cache_ok_empty|]|].
  change r with (ri_root (newRoot cfg r)) at 1. clear Hr Hids. generalize dependent (newRoot cfg r).
  induction Hops as [|op ops Hop Hops IH]; intros i Hi; simpl; [by exists i|].
  pose proof (cached_step_ok owner cfg Hrand Hcross op i Hi Hop) as Hs.
  destruct (plain_step op (ri_root i)) as [[a r1]|e]; cbn [res_bind]; [|by rewrite Hs].
  destruct Hs as (i1&->&Hi1&<-). cbn [res_bind]. specialize (IH i1 Hi1).
  destruct (steps plain_step ops (ri_root i1)) as [[l r2]|e]; cbn [res_bind]; [|by rewrite IH].
  destruct IH as (i2&->&<-). by exists i2.
Qed.

Lemma example_book_ok : root_ok example_owner example_book /\ ids_ok example_book.
Proof.
  assert (forall k e, map_find k (root_entries example_book) = Some e ->
    LedgerEntryKey e = k /\ exists id n d, e = example_offer 3 id n d /\ id <= 3 /\
      0 < n <= INT32_MAX /\ 0 < d <= INT32_MAX) as H.
  { intros k e Hk. apply map_find_in in Hk. simpl in Hk. rewrite !elem_of_cons, elem_of_nil in Hk.
    unfold INT32_MAX. destruct Hk as [[= -> ->]|[[= -> ->]|[[= -> ->]|[]]]]; (split; [done|]);
      do 3 eexists; (split; [reflexivity|lia]). }
  split; [split; [repeat constructor|]|].
  - intros k e (?&id&n&d&->&_&Hn&Hd)%H. split; [done|]. by apply example_offer_wf.
  - intros k e o (?&id&n&d&->&Hid&_)%H [= <-]. simpl. unfold INT64_MAX. lia.
Qed.

Lemma example_reads_ok : Forall (op_ok example_owner) example_reads.
Proof.
  unfold example_reads. cbv zeta. repeat (apply List.Forall_cons || apply List.Forall_nil);
    try exact I; try (split; simpl; unfold INT32_MAX; lia).
  intros k e _ H. discriminate H.
Qed.

Lemma root_caches_transparent_witness :
  exists i, steps (cached_step example_cfg) example_reads (newRoot example_cfg example_book) =
    Ok ([GotOffer (Some (example_offer 3 3 1 1)); GotOffer (Some (example_offer 3 1 3 2)); GotOffer None; Done;
         GotEntry (Some (LEDGER_ENTRY (example_offer 3 2 5 4))); Done; Done; GotEntry None;
         GotOffer (Some (example_offer 3 1 3 2))], i).
Proof.
  pose proof (root_caches_transparent example_owner example_cfg example_book example_reads example_rand_uniform
    ltac:(simpl; lia) (proj1 example_book_ok) (proj2 example_book_ok) example_reads_ok) as H.
  destruct (steps plain_step example_reads example_book) as [[a r']|e] eqn:E; vm_compute in E; [|discriminate E].
  injection E as <- <-. destruct H as (i&H&_). exists i. exact H.
Defined.
