(* ===== verification/Work.v ===== *)
(** * Works and their scheduler

    [src/work/]: [BasicWork], a state machine for a task that runs in steps, may
    wait, fail, be retried and be aborted; [WorkSequence], which runs works one
    after the other; [Work], which runs its children in turns; [BatchWork], a
    [Work] that keeps a bounded number of yielded works running; and
    [WorkScheduler], the [Work] at the top, which is cranked on the main thread
    as long as something can run.

    A task is any work without works below it: its [onRun], [onAbort] and
    [onReset] are a parameter.  Works own the works below them, as the code does
    with shared pointers; the callback that wakes a parent is the way up the
    tree.  The random delay of a retry is left out: that its timer fires is an
    event, and so is that of the timer or process a waiting task waits for.
    Names, the text of the status with its counters, and the callbacks
    [onSuccess] and [onFailure...] are left out. *)
From stdpp Require Import base tactics list numbers sets.
From Stdlib Require Import ZArith Lia Bool.
From S2P Require Import Prelude.

Open Scope nat_scope.
Open Scope kin_scope.

(** ** [BasicWork] *)

(** [BasicWork::State] *)
Inductive State := WORK_RUNNING | WORK_WAITING | WORK_ABORTED | WORK_SUCCESS | WORK_FAILURE.

Inductive InternalState := PENDING | RUNNING | WAITING | ABORTING | ABORTED | RETRYING | SUCCESS | FAILURE.

#[global] Instance State_eq_dec : EqDecision State.
Proof. solve_decision. Defined.
#[global] Instance InternalState_eq_dec : EqDecision InternalState.
Proof. solve_decision. Defined.

Inductive work_error :=
  | IllegalTransition (from to : InternalState)
  | CrankNotAllowed        (** [crankWork] of a work that is done or waiting *)
  | RetryTimerExists
  | RetriesNotReset        (** the assertion of [startWork] *)
  | RetryWhileRunning      (** the assertion of the retry timer *)
  | ChildNotAborting       (** the assertion of [onAbort] *)
  | ChildrenNotDone        (** [clearChildren], [WorkSequence::onReset] *)
  | ChildrenNotSuccessful  (** [onRun] *)
  | DuplicateWork
  | NoSuchWork             (** an iterator or a path that leads nowhere *)
  | WorkIsAborting
  | WorkOutOfFuel.

Notation wk := (result work_error).

Definition ALLOWED_TRANSITIONS : list (InternalState * InternalState) :=
  [(PENDING, RUNNING); (PENDING, ABORTING); (RUNNING, RUNNING); (RUNNING, WAITING); (RUNNING, SUCCESS);
   (RUNNING, FAILURE); (RUNNING, RETRYING); (RUNNING, ABORTING); (WAITING, RUNNING); (WAITING, ABORTING);
   (RETRYING, WAITING); (SUCCESS, PENDING); (FAILURE, PENDING); (ABORTING, ABORTING); (ABORTING, ABORTED);
   (ABORTED, PENDING)].

Definition assertValidTransition (from to : InternalState) : wk unit :=
  ensure (bool_decide ((from, to) ∈ ALLOWED_TRANSITIONS)) (IllegalTransition from to).

(** [mRetryTimer] is whether the timer is set. *)
Record BasicWork := {
  mState : InternalState;
  mRetries : nat;
  mMaxRetries : nat;
  mRetryTimer : bool;
}.

Definition newBasicWork (maxRetries : nat) : BasicWork :=
  {| mState := PENDING; mRetries := 0; mMaxRetries := maxRetries; mRetryTimer := false |}.

Definition with_state (s : InternalState) (b : BasicWork) : BasicWork :=
  {| mState := s; mRetries := mRetries b; mMaxRetries := mMaxRetries b; mRetryTimer := mRetryTimer b |}.
Definition with_retries (n : nat) (b : BasicWork) : BasicWork :=
  {| mState := mState b; mRetries := n; mMaxRetries := mMaxRetries b; mRetryTimer := mRetryTimer b |}.
Definition with_timer (t : bool) (b : BasicWork) : BasicWork :=
  {| mState := mState b; mRetries := mRetries b; mMaxRetries := mMaxRetries b; mRetryTimer := t |}.

Definition getState_of (s : InternalState) : State :=
  match s with
  | RUNNING | PENDING | ABORTING => WORK_RUNNING
  | WAITING | RETRYING => WORK_WAITING
  | SUCCESS => WORK_SUCCESS
  | FAILURE => WORK_FAILURE
  | ABORTED => WORK_ABORTED
  end.

Definition getInternalState (s : State) : InternalState :=
  match s with
  | WORK_SUCCESS => SUCCESS | WORK_FAILURE => FAILURE | WORK_WAITING => WAITING
  | WORK_RUNNING => RUNNING | WORK_ABORTED => ABORTED
  end.

Definition done_state (s : InternalState) : bool :=
  match s with SUCCESS | FAILURE | ABORTED => true | _ => false end.

(** What a task implements. *)
Class Task (L : Type) := {
  task_run : L -> State * L;     (** [onRun] *)
  task_abort : L -> bool * L;    (** [onAbort] *)
  task_reset : L -> L;           (** [onReset] *)
}.

(** ** What every class of works inherits *)

(** The members of [BasicWork] in a class, and its [onReset]. *)
Class IsWork (W : Type) := {
  basic : W -> BasicWork;
  set_basic : BasicWork -> W -> W;
  onReset : W -> wk W;
}.

Section base.
Context {W : Type} `{IsWork W}.

Definition state (w : W) : InternalState := mState (basic w).
Definition getState (w : W) : State := getState_of (state w).
Definition isDone (w : W) : bool := done_state (state w).
Definition isAborting (w : W) : bool := bool_decide (state w = ABORTING).

Definition put_state (s : InternalState) (w : W) : W := set_basic (with_state s (basic w)) w.

Definition reset (w : W) : wk W := onReset (set_basic (with_timer false (basic w)) w).

(** After the entry into [RETRYING]. *)
Definition waitForRetry (w : W) : wk W :=
  let? _ := ensure (negb (mRetryTimer (basic w))) RetryTimerExists in
  let w := set_basic (with_timer true (basic w)) w in
  let? _ := assertValidTransition (state w) WAITING in
  Ok (put_state WAITING w).

Definition setState (st : InternalState) (w : W) : wk W :=
  let st := match st with
    | FAILURE => if mRetries (basic w) <? mMaxRetries (basic w) then RETRYING else FAILURE
    | _ => st end in
  let? _ := assertValidTransition (state w) st in
  let? w := match state w, st with
    | PENDING, RUNNING => let? w := reset w in Ok (set_basic (with_retries 0 (basic w)) w)
    | _, _ => Ok w
    end in
  let? w := match st with FAILURE | RETRYING | ABORTED => reset w | _ => Ok w end in
  let w := put_state st w in
  match st with RETRYING => waitForRetry w | _ => Ok w end.

Definition startWork (w : W) : wk W :=
  let? w := match state w with PENDING => Ok w | _ => setState PENDING w end in
  let? w := setState RUNNING w in
  let? _ := ensure (mRetries (basic w) =? 0) RetriesNotReset in
  Ok w.

Definition basic_shutdown (w : W) : wk W := if isDone w then Ok w else setState ABORTING w.

(** The assertion of [crankWork], and the state after an [onAbort]. *)
Definition can_crank (w : W) : wk unit :=
  ensure (negb (isDone w) && negb (bool_decide (state w = WAITING))) CrankNotAllowed.

Definition aborted_state (doneAborting : bool) : InternalState := if doneAborting then ABORTED else ABORTING.

(** [wakeUp]: whether it went on to notify the parent. *)
Definition wakeUp (w : W) : wk (bool * W) :=
  match state w with
  | WAITING => let? w := setState RUNNING w in Ok (true, w)
  | _ => Ok (false, w)
  end.

(** The handler of the retry timer. *)
Definition retryTimerFired (w : W) : wk (bool * W) :=
  match state w with
  | WAITING => wakeUp (set_basic (with_timer false (with_retries (S (mRetries (basic w))) (basic w))) w)
  | ABORTED | ABORTING => Ok (false, w)
  | _ => Err RetryWhileRunning
  end.

(** The callback of a child that has woken up. *)
Definition notified (woke : bool) (w : W) : wk (bool * W) := if woke then wakeUp w else Ok (false, w).
End base.

(** ** The children of a [Work] *)

(** A work that has been added: whether it is still one of [mChildren], and of
    [BatchWork::mBatch]. *)
Record Child (W : Type) := mkChild { c_name : nat; c_work : W; c_child : bool; c_batch : bool }.
Arguments mkChild {W} _ _ _ _.
Arguments c_name {W} _.
Arguments c_work {W} _.
Arguments c_child {W} _.
Arguments c_batch {W} _.

(** The works added since the last reset, in order; [mNextChild] is an iterator
    of [mChildren], [None] its end. *)
Record Children (W : Type) := mkChildren {
  mAdded : list (Child W);
  mNextChild : option nat;
  mAbortChildrenButNotSelf : bool;
}.
Arguments mkChildren {W} _ _ _.
Arguments mAdded {W} _.
Arguments mNextChild {W} _.
Arguments mAbortChildrenButNotSelf {W} _.

Definition no_children {W} : Children W := mkChildren [] None false.

(** [mChildren] *)
Definition children {W} (p : Children W) : list W := c_work <$> filter (fun c => c_child c = true) (mAdded p).

Definition hasChildren {W} (l : list (Child W)) : bool := existsb c_child l.

Section lists.
Context {A : Type} (f : A -> wk A).

Fixpoint update_at (i : nat) (l : list A) {struct l} : wk (list A) :=
  match l, i with
  | [], _ => Err NoSuchWork
  | x :: l', O => let? x := f x in Ok (x :: l')
  | x :: l', S i' => let? l' := update_at i' l' in Ok (x :: l')
  end.

Fixpoint map_wk (l : list A) : wk (list A) :=
  match l with
  | [] => Ok []
  | x :: l' => let? x := f x in let? l' := map_wk l' in Ok (x :: l')
  end.
End lists.

Definition with_work {W} (w : W) (c : Child W) : Child W := mkChild (c_name c) w (c_child c) (c_batch c).

(** On the work of a child. *)
Definition on_work {W} (f : W -> wk W) (c : Child W) : wk (Child W) :=
  let? w := f (c_work c) in Ok (with_work w c).

Section children.
Context {W : Type} `{IsWork W}.

Definition allSuccessful (l : list W) : bool :=
  forallb (fun w => bool_decide (getState w = WORK_SUCCESS)) l.
Definition anyFailed (l : list W) : bool :=
  existsb (fun w => bool_decide (getState w = WORK_FAILURE)) l.
Definition anyRunning (l : list W) : bool :=
  existsb (fun w => bool_decide (getState w = WORK_RUNNING)) l.
Definition allDone (l : list W) : bool := forallb (fun w => isDone w) l.

Definition getWorkStatus (l : list W) : State :=
  if allSuccessful l then WORK_SUCCESS
  else if anyFailed l then WORK_FAILURE
  else if negb (anyRunning l) then WORK_WAITING
  else WORK_RUNNING.

(** From the iterator on: the works that are done are erased until one can run. *)
Fixpoint yield_from (l : list (Child W)) (i : nat) : list (Child W) * option nat :=
  match l with
  | [] => ([], None)
  | c :: l' =>
      if c_child c then
        if bool_decide (getState (c_work c) = WORK_RUNNING) then (c :: l', Some i)
        else
          let '(l'', r) := yield_from l' (S i) in
          (if isDone (c_work c) then mkChild (c_name c) (c_work c) false (c_batch c) :: l''
           else c :: l'', r)
      else let '(l'', r) := yield_from l' (S i) in (c :: l'', r)
  end.

Definition begin_of (l : list (Child W)) : option nat := if hasChildren l then Some 0 else None.

Definition yieldNextRunningChild (p : Children W) : option nat * Children W :=
  match mNextChild p with
  | None => (None, mkChildren (mAdded p) (begin_of (mAdded p)) (mAbortChildrenButNotSelf p))
  | Some n =>
      let '(l, r) := yield_from (drop n (mAdded p)) n in
      let added := take n (mAdded p) ++ l in
      match r with
      | Some i =>
          (Some i, mkChildren added (if hasChildren (drop (S i) added) then Some (S i) else None)
                     (mAbortChildrenButNotSelf p))
      | None => (None, mkChildren added (begin_of added) (mAbortChildrenButNotSelf p))
      end
  end.

Definition clearChildren (p : Children W) : wk (Children W) :=
  let? _ := ensure (allDone (children p)) ChildrenNotDone in
  Ok (mkChildren ((fun c => mkChild (c_name c) (c_work c) false (c_batch c)) <$> mAdded p) None
        (mAbortChildrenButNotSelf p)).

Definition addChild (name : nat) (w : W) (batch : bool) (p : Children W) : Children W :=
  mkChildren (mAdded p ++ [mkChild name w true batch])
    (if hasChildren (mAdded p) then mNextChild p else Some (length (mAdded p))) (mAbortChildrenButNotSelf p).

(** [onAbort] of a [Work]. *)
Definition children_onAbort (crank : W -> wk W) (p : Children W) : wk (bool * Children W) :=
  let '(next, p) := yieldNextRunningChild p in
  match next with
  | Some i =>
      let? added := update_at (on_work (fun w =>
        let? _ := ensure (isAborting w) ChildNotAborting in crank w)) i (mAdded p) in
      Ok (false, mkChildren added (mNextChild p) (mAbortChildrenButNotSelf p))
  | None => Ok (allDone (children p), p)
  end.

Definition shutdownChildren (shutdown : W -> wk W) (p : Children W) : wk (Children W) :=
  let? added := map_wk (fun c =>
    if c_child c && negb (isDone (c_work c)) then on_work shutdown c else Ok c) (mAdded p) in
  Ok (mkChildren added (mNextChild p) (mAbortChildrenButNotSelf p)).

(** [onRun] of a [Work]; [doWork] may add works of [R]. *)
Definition children_onRun {R : Type} (crank shutdown : W -> wk W)
    (doWork : Children W -> R -> wk (State * Children W * R)) (p : Children W) (r : R)
    : wk (State * Children W * R) :=
  if mAbortChildrenButNotSelf p then
    let? (done, p) := children_onAbort crank p in
    Ok (if (done : bool) then WORK_FAILURE else WORK_RUNNING, p, r)
  else
    let '(next, p) := yieldNextRunningChild p in
    match next with
    | Some i =>
        let? added := update_at (on_work crank) i (mAdded p) in
        Ok (WORK_RUNNING, mkChildren added (mNextChild p) (mAbortChildrenButNotSelf p), r)
    | None =>
        let? (s, p, r) := doWork p r in
        match s with
        | WORK_SUCCESS =>
            let? _ := ensure (allSuccessful (children p)) ChildrenNotSuccessful in
            let? p := clearChildren p in Ok (s, p, r)
        | WORK_FAILURE =>
            if allDone (children p) then Ok (s, p, r)
            else
              let? p := shutdownChildren shutdown p in
              Ok (WORK_RUNNING, mkChildren (mAdded p) (mNextChild p) true, r)
        | _ => Ok (s, p, r)
        end
    end.

(** ** [BatchWork] *)

(** [addMoreWorkIfNeeded]: [rest] is what the iterator has still to yield. *)
Definition getNumWorksInBatch (l : list (Child W)) : nat := length (filter (fun c => c_batch c = true) l).

Fixpoint addMoreWork (nChildren : nat) (rest : list (nat * W)) (p : Children W)
    : wk (Children W * list (nat * W)) :=
  match rest with
  | [] => Ok (p, [])
  | (name, w) :: rest' =>
      if getNumWorksInBatch (mAdded p) <? nChildren then
        let? w := startWork w in
        let? _ := ensure (negb (existsb (fun c => c_batch c && (c_name c =? name)) (mAdded p))) DuplicateWork in
        addMoreWork nChildren rest' (addChild name w true p)
      else Ok (p, rest)
  end.

Definition batch_doWork (nChildren : nat) (p : Children W) (rest : list (nat * W))
    : wk (State * Children W * list (nat * W)) :=
  if anyFailed (children p) then Ok (WORK_FAILURE, p, rest) else
  let p := mkChildren ((fun c => mkChild (c_name c) (c_work c) (c_child c)
      (c_batch c && negb (bool_decide (getState (c_work c) = WORK_SUCCESS)))) <$> mAdded p)
    (mNextChild p) (mAbortChildrenButNotSelf p) in
  let? (p, rest) := addMoreWork nChildren rest p in
  Ok (if allSuccessful (children p) then WORK_SUCCESS
      else if negb (anyRunning (children p)) then WORK_WAITING
      else WORK_RUNNING, p, rest).
End children.

(** ** The works *)

Section work.
Context {L : Type} `{Task L} (MAX_CONCURRENT_SUBPROCESSES : nat).

(** A sequence executes the work at [mNextInSequence] or none; a batch yields
    the works of [yields] one by one, after a reset from the start. *)
Inductive Work :=
  | TaskWork (b : BasicWork) (x : L)
  | WorkSequence (b : BasicWork) (mSequenceOfWork : list Work) (mNextInSequence : nat)
      (mCurrentExecuting : bool) (mStopAtFirstFailure : bool)
  | BatchWork (b : BasicWork) (p : Children Work) (yields rest : list (nat * Work)).

Definition work_basic (w : Work) : BasicWork :=
  match w with TaskWork b _ | WorkSequence b _ _ _ _ | BatchWork b _ _ _ => b end.

Definition work_set_basic (b : BasicWork) (w : Work) : Work :=
  match w with
  | TaskWork _ x => TaskWork b x
  | WorkSequence _ ws n cur stop => WorkSequence b ws n cur stop
  | BatchWork _ p ys rest => BatchWork b p ys rest
  end.

Definition work_onReset (w : Work) : wk Work :=
  let isDone w := done_state (mState (work_basic w)) in
  match w with
  | TaskWork b x => Ok (TaskWork b (task_reset x))
  | WorkSequence b ws n cur stop =>
      let? _ := ensure (forallb isDone (take n ws)) ChildrenNotDone in
      Ok (WorkSequence b ws 0 false stop)
  | BatchWork b p ys rest =>
      let? _ := ensure (forallb isDone (children p)) ChildrenNotDone in
      Ok (BatchWork b no_children ys ys)
  end.

#[export] Instance Work_IsWork : IsWork Work :=
  {| basic := work_basic; set_basic := work_set_basic; onReset := work_onReset |}.

Fixpoint shutdown (w : Work) : wk Work :=
  match w with
  | TaskWork _ _ => basic_shutdown w
  | WorkSequence b ws n cur stop =>
      let? ws := (if cur then update_at shutdown n ws else Ok ws) in
      basic_shutdown (WorkSequence b ws n cur stop)
  | BatchWork b p ys rest =>
      let? p := shutdownChildren shutdown p in
      basic_shutdown (BatchWork b p ys rest)
  end.

(** [WorkSequence::onRun] from the works [l] on, after those of [past]; the
    state, the works, the place of the iterator and whether one is executing. *)
Fixpoint sequence_onRun (crank : Work -> wk Work) (stop : bool) (past l : list Work) (cur : bool)
    : wk (State * list Work * nat * bool) :=
  match l with
  | [] => Ok (getWorkStatus past, past, length past, cur)
  | w :: l' =>
      let go_on := sequence_onRun crank stop (past ++ [w]) l' false in
      let run w := let? w := crank w in Ok (WORK_RUNNING, past ++ w :: l', length past, true) in
      if cur then
        match getState w with
        | WORK_SUCCESS => go_on
        | WORK_FAILURE => if stop then Ok (WORK_FAILURE, past ++ w :: l', length past, true) else go_on
        | WORK_RUNNING => run w
        | s => Ok (s, past ++ w :: l', length past, true)
        end
      else let? w := startWork w in run w
  end.

(** [crankWork], with the [onRun] and [onAbort] of the class; [fuel] bounds the
    height of the tree. *)
Fixpoint crank_fuel (fuel : nat) (w : Work) : wk Work :=
  match fuel with
  | O => Err WorkOutOfFuel
  | S fuel' =>
      let crank := crank_fuel fuel' in
      let? _ := can_crank w in
      match w with
      | TaskWork b x =>
          if isAborting w then let '(done, x) := task_abort x in setState (aborted_state done) (TaskWork b x)
          else let '(s, x) := task_run x in setState (getInternalState s) (TaskWork b x)
      | WorkSequence b ws n cur stop =>
          if isAborting w then
            match (if cur then ws !! n else None) with
            | Some c =>
                if isDone c then setState ABORTED w
                else let? ws := update_at crank n ws in setState ABORTING (WorkSequence b ws n cur stop)
            | None => setState ABORTED w
            end
          else
            let? (s, ws, n, cur) := sequence_onRun crank stop (take n ws) (drop n ws) cur in
            setState (getInternalState s) (WorkSequence b ws n cur stop)
      | BatchWork b p ys rest =>
          if isAborting w then
            let? (done, p) := children_onAbort crank p in
            setState (aborted_state done) (BatchWork b p ys rest)
          else
            let? (s, p, rest) := children_onRun crank shutdown
              (batch_doWork MAX_CONCURRENT_SUBPROCESSES) p rest in
            setState (getInternalState s) (BatchWork b p ys rest)
      end
  end.

Fixpoint height (w : Work) : nat :=
  S (match w with
     | TaskWork _ _ => 0
     | WorkSequence _ ws _ _ _ => foldr Nat.max 0 (height <$> ws)
     | BatchWork _ p ys rest =>
         Nat.max (foldr Nat.max 0 ((fun c => height (c_work c)) <$> mAdded p))
           (Nat.max (foldr Nat.max 0 ((fun y => height (snd y)) <$> ys))
              (foldr Nat.max 0 ((fun y => height (snd y)) <$> rest)))
     end).

Definition crankWork (w : Work) : wk Work := crank_fuel (height w) w.

(** ** Events *)

Fixpoint update_at_bool {A} (f : A -> wk (bool * A)) (i : nat) (l : list A) : wk (bool * list A) :=
  match l, i with
  | [], _ => Err NoSuchWork
  | x :: l', O => let? (b, x) := f x in Ok (b, x :: l')
  | x :: l', S i' => let? (b, l') := update_at_bool f i' l' in Ok (b, x :: l')
  end.

Definition on_child {W} (f : W -> wk (bool * W)) (c : Child W) : wk (bool * Child W) :=
  let? (woke, w) := f (c_work c) in Ok (woke, with_work w c).

(** The work a path leads to. *)
Fixpoint work_at (path : list nat) (w : Work) : option Work :=
  match path with
  | [] => Some w
  | i :: path' =>
      match w with
      | TaskWork _ _ => None
      | WorkSequence _ ws _ _ _ => ws !! i ≫= work_at path'
      | BatchWork _ p _ _ => (c_work <$> mAdded p !! i) ≫= work_at path'
      end
  end.

(** An event at the work a path leads to, and what it makes of its parents. *)
Fixpoint deliver (f : Work -> wk (bool * Work)) (path : list nat) (w : Work) : wk (bool * Work) :=
  match path with
  | [] => f w
  | i :: path' =>
      match w with
      | TaskWork _ _ => Err NoSuchWork
      | WorkSequence b ws n cur stop =>
          let? (woke, ws) := update_at_bool (deliver f path') i ws in
          notified woke (WorkSequence b ws n cur stop)
      | BatchWork b p ys rest =>
          let? (woke, added) := update_at_bool (on_child (deliver f path')) i (mAdded p) in
          notified woke (BatchWork b (mkChildren added (mNextChild p) (mAbortChildrenButNotSelf p)) ys rest)
      end
  end.

Definition deliver_child (f : Work -> wk (bool * Work)) (path : list nat) : Child Work -> wk (bool * Child Work) :=
  on_child (deliver f path).
End work.
