(* ===== verification/WorkScheduler.v ===== *)
(** * The work scheduler

    [src/work/WorkScheduler.cpp]: the [Work] at the top.  A posted callback cranks
    it until nothing can run or the clock asks to yield; works wake it up when
    their timers fire or their processes end.

    The main thread is a sequence of events; whether the clock asks to yield is
    an argument of the event. *)
From stdpp Require Import base tactics list numbers sets.
From Stdlib Require Import ZArith Lia Bool.
From S2P Require Import Prelude Work.

Open Scope nat_scope.
Open Scope kin_scope.

Section scheduler.
Context {L : Type} `{Task L} (MAX_CONCURRENT_SUBPROCESSES : nat).
#[local] Notation crankWork := (crankWork MAX_CONCURRENT_SUBPROCESSES).

(** [mScheduled] is whether the callback is posted. *)
Record WorkScheduler := {
  s_basic : BasicWork;
  s_children : Children (Work (L := L));
  mScheduled : bool;
}.

#[export] Instance WorkScheduler_IsWork : IsWork WorkScheduler := {|
  basic := s_basic;
  set_basic := fun b s => {| s_basic := b; s_children := s_children s; mScheduled := mScheduled s |};
  onReset := fun s =>
    let? _ := clearChildren (s_children s) in
    Ok {| s_basic := s_basic s; s_children := no_children; mScheduled := mScheduled s |};
|}.

Definition with_children (p : Children Work) (s : WorkScheduler) : WorkScheduler :=
  {| s_basic := s_basic s; s_children := p; mScheduled := mScheduled s |}.

Definition with_scheduled (b : bool) (s : WorkScheduler) : WorkScheduler :=
  {| s_basic := s_basic s; s_children := s_children s; mScheduled := b |}.

Definition scheduler_doWork (p : Children (Work (L := L))) (r : unit) : wk (State * Children Work * unit) :=
  Ok (if anyRunning (children p) then WORK_RUNNING else WORK_WAITING, p, r).

Definition scheduler_crank (s : WorkScheduler) : wk WorkScheduler :=
  let? _ := can_crank s in
  if isAborting s then
    let? (done, p) := children_onAbort crankWork (s_children s) in
    setState (aborted_state done) (with_children p s)
  else
    let? (st, p, _) := children_onRun crankWork shutdown scheduler_doWork (s_children s) tt in
    setState (getInternalState st) (with_children p s).

Definition newScheduler : WorkScheduler :=
  {| s_basic := newBasicWork 0; s_children := no_children; mScheduled := false |}.

(** [create] *)
Definition createScheduler : wk WorkScheduler :=
  let? s := startWork newScheduler in scheduler_crank s.

Definition scheduleOne (s : WorkScheduler) : WorkScheduler :=
  if mScheduled s then s else with_scheduled true s.

(** The scheduler's callback of a child that has woken up, with the inner
    callback that posts. *)
Definition scheduler_notified (woke : bool) (s : WorkScheduler) : wk WorkScheduler :=
  let? (woke, s) := notified woke s in
  Ok (if (woke : bool) then scheduleOne s else s).

Definition scheduleWork (w : Work) (s : WorkScheduler) : wk WorkScheduler :=
  if isAborting s || isDone s then Ok s else
  let? w := startWork w in
  scheduler_notified true (with_children (addChild 0 w false (s_children s)) s).

(** The loop of the posted callback. *)
Fixpoint crank_loop (yields : list bool) (s : WorkScheduler) : wk WorkScheduler :=
  let? s := scheduler_crank s in
  if bool_decide (getState s = WORK_RUNNING) then
    match yields with
    | false :: yields' => crank_loop yields' s
    | _ => Ok s
    end
  else Ok s.

Definition run_posted (yields : list bool) (s : WorkScheduler) : wk WorkScheduler :=
  let? s := crank_loop yields s in
  let s := with_scheduled false s in
  Ok (if bool_decide (getState s = WORK_RUNNING) then scheduleOne s else s).

Definition scheduler_shutdown (s : WorkScheduler) : wk WorkScheduler :=
  if isDone s then Ok s else
  let? p := shutdownChildren shutdown (s_children s) in
  let? s := basic_shutdown (with_children p s) in
  Ok (scheduleOne s).

(** An event at a work below the scheduler. *)
Definition scheduler_deliver (f : Work -> wk (bool * Work)) (path : list nat) (s : WorkScheduler)
    : wk WorkScheduler :=
  match path with
  | [] => Err NoSuchWork
  | i :: path' =>
      let p := s_children s in
      let? (woke, added) := update_at_bool (deliver_child f path') i (mAdded p) in
      scheduler_notified woke
        (with_children (mkChildren added (mNextChild p) (mAbortChildrenButNotSelf p)) s)
  end.

Inductive Event :=
  | Schedule (w : Work (L := L))
  | RunPosted (yields : list bool)     (** the main thread runs the posted callback *)
  | WakeTask (path : list nat)         (** a task calls [wakeUp] *)
  | RetryTimer (path : list nat)       (** the timer of a retry fires *)
  | ShutDown.

Definition handle (e : Event) (s : WorkScheduler) : wk WorkScheduler :=
  match e with
  | Schedule w => scheduleWork w s
  | RunPosted yields => run_posted yields s
  | WakeTask path => scheduler_deliver wakeUp path s
  | RetryTimer path => scheduler_deliver retryTimerFired path s
  | ShutDown => scheduler_shutdown s
  end.

Definition scheduler_work_at (path : list nat) (s : WorkScheduler) : option Work :=
  match path with
  | [] => None
  | i :: path' => (c_work <$> mAdded (s_children s) !! i) ≫= work_at path'
  end.
End scheduler.
