(* ===== verification/WorkTheorems.v ===== *)
(** * Trees of works: what holds, and what is left to do

    Well-formed works, and a number that every crank and every event lowers: the
    weight of what a tree of works has still to do.  Tasks promise by [TaskLaws]
    that an attempt and an abort end. *)
From stdpp Require Import base tactics list numbers sets.
From Stdlib Require Import ZArith Lia Bool.
From S2P Require Import Prelude Work.

Open Scope nat_scope.
Open Scope kin_scope.

(** [lia], with the products of retries as atoms. *)
Ltac weigh :=
  repeat match goal with |- context [(?a - ?b) * ?c] => generalize ((a - b) * c); intros ? end; lia.

(** What a task promises: [turns] are left of an attempt, [aborts] until it is
    aborted, both at most [limit], which never changes. *)
Class TaskLaws (L : Type) `{Task L} := {
  turns : L -> nat;
  aborts : L -> nat;
  limit : L -> nat;
  turns_limit : forall x, turns x <= limit x;
  aborts_limit : forall x, aborts x <= limit x;
  run_limit : forall x, limit (snd (task_run x)) = limit x;
  run_turns : forall x, fst (task_run x) = WORK_RUNNING \/ fst (task_run x) = WORK_WAITING ->
    turns (snd (task_run x)) < turns x;
  run_not_aborted : forall x, fst (task_run x) <> WORK_ABORTED;
  abort_limit : forall x, limit (snd (task_abort x)) = limit x;
  abort_aborts : forall x, fst (task_abort x) = false -> aborts (snd (task_abort x)) < aborts x;
  reset_limit : forall x, limit (task_reset x) = limit x;
}.

(** ** The members of [BasicWork] in a class *)

Class IsWorkLaws (W : Type) `{IsWork W} := {
  basic_set : forall b w, basic (set_basic b w) = b;
  set_set : forall b b' w, set_basic b (set_basic b' w) = set_basic b w;
  set_same : forall w, set_basic (basic w) w = w;
  reset_basic : forall w w', onReset w = Ok w' -> basic w' = basic w;
}.

(** Not under way: it can be started. *)
Definition startable_state (s : InternalState) : Prop := s = PENDING \/ done_state s = true.

Definition plain_transition (from to : InternalState) : bool :=
  match from, to with
  | RUNNING, (RUNNING | WAITING | SUCCESS | ABORTING) | WAITING, (RUNNING | ABORTING)
  | PENDING, ABORTING | ABORTING, ABORTING | (SUCCESS | FAILURE | ABORTED), PENDING => true
  | _, _ => false
  end.

(** After a failure: waiting for a retry, or failed. *)
Definition failed (b : BasicWork) : BasicWork :=
  if mRetries b <? mMaxRetries b
  then {| mState := WAITING; mRetries := mRetries b; mMaxRetries := mMaxRetries b; mRetryTimer := true |}
  else {| mState := FAILURE; mRetries := mRetries b; mMaxRetries := mMaxRetries b; mRetryTimer := false |}.

Definition started (b : BasicWork) : BasicWork :=
  {| mState := RUNNING; mRetries := 0; mMaxRetries := mMaxRetries b; mRetryTimer := false |}.

Section base.
Context {W : Type} `{IsWorkLaws W}.

Lemma state_put (st : InternalState) (w : W) : state (put_state st w) = st.
Proof. unfold state, put_state. by rewrite basic_set. Qed.

Lemma put_put (st st' : InternalState) (w : W) : put_state st (put_state st' w) = put_state st w.
Proof. unfold put_state. by rewrite !basic_set, set_set. Qed.

Lemma put_same (w : W) : put_state (state w) w = w.
Proof. rewrite <- (set_same w) at 3. unfold put_state, state, with_state. f_equal. by destruct (basic w). Qed.

Lemma setState_plain (st : InternalState) (w : W) :
  plain_transition (state w) st = true -> setState st w = Ok (put_state st w).
Proof. unfold setState. intros Hp. destruct (state w), st; (discriminate Hp || reflexivity). Qed.

Lemma reset_ok_basic (w w1 : W) : reset w = Ok w1 -> basic w1 = with_timer false (basic w).
Proof. intros Hr%reset_basic. by rewrite Hr, basic_set. Qed.

Lemma setState_failed (w w1 : W) :
  state w = RUNNING -> reset w = Ok w1 -> setState FAILURE w = Ok (set_basic (failed (basic w)) w1).
Proof.
  intros Hs Hr. pose proof (reset_ok_basic _ _ Hr) as Hb. unfold setState, failed. rewrite Hs.
  destruct (mRetries (basic w) <? mMaxRetries (basic w)); cbn -[reset put_state waitForRetry]; rewrite Hr; cbn [res_bind].
  - unfold waitForRetry, put_state, state. rewrite Hb, !basic_set, !set_set. done.
  - unfold put_state. by rewrite Hb.
Qed.

Lemma setState_aborted (w w1 : W) :
  state w = ABORTING -> reset w = Ok w1 -> setState ABORTED w = Ok (put_state ABORTED w1).
Proof. intros Hs Hr. unfold setState. rewrite Hs. cbn -[reset put_state]. by rewrite Hr. Qed.

Lemma startWork_started (w w1 : W) :
  startable_state (state w) -> reset (put_state PENDING w) = Ok w1 ->
  startWork w = Ok (set_basic (started (basic w)) w1).
Proof.
  intros Hs Hr. pose proof (reset_ok_basic _ _ Hr) as Hb.
  assert (startWork w = let? w := setState RUNNING (put_state PENDING w) in
    let? _ := ensure (mRetries (basic w) =? 0) RetriesNotReset in Ok w) as ->.
  { unfold startWork. destruct Hs as [Hs|Hs].
    - rewrite Hs. replace (put_state PENDING w) with w by (by rewrite <- (put_same w) at 1; rewrite Hs). done.
    - rewrite setState_plain by (by destruct (state w)). by destruct (state w). }
  unfold setState. rewrite state_put. cbn -[reset put_state]. rewrite Hr. cbn -[put_state].
  unfold put_state. rewrite !basic_set, !set_set, Hb. unfold put_state. rewrite !basic_set. replace (assertValidTransition PENDING RUNNING) with (@Ok work_error unit tt) by reflexivity. cbn [res_bind]. rewrite basic_set. done.
Qed.
End base.

Section trees.
Context {L : Type} `{TaskLaws L}.
#[local] Notation Work := (@Work L).

(** ** Induction on trees *)

Section induction.
Context (P : Work -> Prop)
  (Htask : forall b x, P (TaskWork b x))
  (Hseq : forall b ws n cur stop, Forall P ws -> P (WorkSequence b ws n cur stop))
  (Hbatch : forall b p ys rest, Forall (fun c => P (c_work c)) (mAdded p) ->
    Forall (fun y => P (snd y)) ys -> Forall (fun y => P (snd y)) rest -> P (BatchWork b p ys rest)).

Fixpoint Work_tree_ind (w : Work) : P w :=
  match w with
  | TaskWork b x => Htask b x
  | WorkSequence b ws n cur stop =>
      Hseq b ws n cur stop ((fix go l := match l return Forall P l with
        | [] => Forall_nil_2 _
        | x :: l' => Forall_cons_2 _ _ _ (Work_tree_ind x) (go l') end) ws)
  | BatchWork b p ys rest =>
      Hbatch b p ys rest
        ((fix go l := match l return Forall (fun c => P (c_work c)) l with
          | [] => Forall_nil_2 _
          | x :: l' => Forall_cons_2 _ _ _ (Work_tree_ind (c_work x)) (go l') end) (mAdded p))
        ((fix go l := match l return Forall (fun y => P (snd y)) l with
          | [] => Forall_nil_2 _
          | x :: l' => Forall_cons_2 _ _ _ (Work_tree_ind (snd x)) (go l') end) ys)
        ((fix go l := match l return Forall (fun y => P (snd y)) l with
          | [] => Forall_nil_2 _
          | x :: l' => Forall_cons_2 _ _ _ (Work_tree_ind (snd x)) (go l') end) rest)
  end.
End induction.

(** ** Well-formed works *)

Record basic_ok (b : BasicWork) : Prop := {
  bo_retries : mRetries b <= mMaxRetries b;
  bo_settled : mState b <> RETRYING;
  bo_timer : mRetryTimer b = true -> mState b = WAITING /\ mRetries b < mMaxRetries b \/ mState b = ABORTING;
  bo_waiting : mState b = WAITING \/ mState b = RUNNING \/ mState b = ABORTING \/ done_state (mState b) = true \/
    mState b = PENDING /\ mRetries b = 0;
}.

(** Waiting for something other than a retry. *)
Definition waits (b : BasicWork) : Prop := mState b = WAITING /\ mRetryTimer b = false.

(** The states of a work under way, in one that is. *)
Definition under (s c : InternalState) : Prop :=
  match s with
  | RUNNING => c = RUNNING \/ c = WAITING \/ c = SUCCESS \/ c = FAILURE
  | WAITING => c = WAITING
  | ABORTING => c = ABORTING \/ done_state c = true
  | _ => False
  end.

(** Reset, or at its end. *)
Definition idle_state (b : BasicWork) : Prop :=
  startable_state (mState b) \/ mState b = WAITING /\ mRetryTimer b = true.

Definition finished (s : InternalState) : Prop := s = SUCCESS \/ s = FAILURE.

Record sequence_ok (b : BasicWork) (ws : list Work) (n : nat) (cur : bool) : Prop := {
  so_past : Forall (fun w => finished (state w)) (take n ws);
  so_future : Forall (fun w => startable_state (state w)) (drop (if cur then S n else n) ws);
  so_cur : cur = true -> exists c, ws !! n = Some c /\ under (mState b) (state c);
  so_idle : idle_state b -> cur = false;
  so_waits : waits b -> cur = true;
  so_success : mState b = SUCCESS -> Forall (fun w => state w = SUCCESS) ws;
}.

(** The children from [mNextChild] on. *)
Definition ahead (p : Children Work) : list (Child Work) :=
  match mNextChild p with Some n => drop n (mAdded p) | None => [] end.

(** A child whose success the batch has seen. *)
Definition seen (c : Child Work) : Prop := state (c_work c) = SUCCESS /\ c_batch c = false.

Definition runs (c : Child Work) : bool := c_child c && bool_decide (getState (c_work c) = WORK_RUNNING).

(** While the batch runs. *)
Record running_ok (s : InternalState) (p : Children Work) : Prop := {
  ro_erased : Forall (fun c => c_child c = false -> seen c) (mAdded p);
  ro_child : Forall (fun c => c_child c = true -> under RUNNING (state (c_work c))) (mAdded p);
  ro_batch : Forall (fun c => c_batch c = false -> state (c_work c) = SUCCESS) (mAdded p);
  ro_ahead : Forall (fun c => c_child c = true -> isDone (c_work c) = true -> seen c) (ahead p);
  ro_waits : s = WAITING -> Forall (fun c => runs c = false) (mAdded p) /\
    Exists (fun c => c_child c = true /\ state (c_work c) = WAITING) (mAdded p);
}.

(** While its children are being aborted. *)
Definition aborting_ok (p : Children Work) : Prop :=
  Forall (fun c => isDone (c_work c) = true \/ c_child c = true /\ state (c_work c) = ABORTING) (mAdded p).

Record batch_ok (b : BasicWork) (p : Children Work) (ys rest : list (nat * Work)) : Prop := {
  bk_names : NoDup (fst <$> ys);
  bk_rest : (fst <$> ys) = (c_name <$> mAdded p) ++ (fst <$> rest);
  bk_suffix : exists l, ys = l ++ rest;
  bk_fresh : Forall (fun y => state (snd y) = PENDING) ys;
  bk_idle : idle_state b -> mState b <> SUCCESS -> mAdded p = [];
  bk_flag : mState b <> RUNNING -> mState b <> ABORTING -> mState b <> SUCCESS -> mAbortChildrenButNotSelf p = false;
  bk_success : mState b = SUCCESS -> rest = [] /\
    Forall (fun c => state (c_work c) = SUCCESS /\ c_child c = false) (mAdded p);
  bk_running : waits b \/ mState b = RUNNING /\ mAbortChildrenButNotSelf p = false -> running_ok (mState b) p;
  bk_aborting : mState b = ABORTING \/ mState b = RUNNING /\ mAbortChildrenButNotSelf p = true -> aborting_ok p;
}.

Inductive wf : Work -> Prop :=
  | wf_task b x : basic_ok b -> wf (TaskWork b x)
  | wf_sequence b ws n cur stop :
      basic_ok b -> Forall wf ws -> sequence_ok b ws n cur -> wf (WorkSequence b ws n cur stop)
  | wf_batch b p ys rest :
      basic_ok b -> Forall (fun c => wf (c_work c)) (mAdded p) -> Forall (fun y => wf (snd y)) ys ->
      batch_ok b p ys rest -> wf (BatchWork b p ys rest).

(** ** The weight of what is left to do *)

Fixpoint sum (l : list nat) : nat := match l with [] => 0 | x :: l' => x + sum l' end.

Definition abort_cost (w : Work) : nat := match w with TaskWork _ x => S (limit x) | _ => 2 end.

(** Of an attempt after a reset. *)
Fixpoint attempt (w : Work) : nat :=
  let total w := (S (mMaxRetries (basic w))) * (attempt w + 3) + abort_cost w in
  match w with
  | TaskWork _ x => 2 * limit x
  | WorkSequence _ ws _ _ _ => 3 * sum (total <$> ws)
  | BatchWork _ _ ys _ => 3 * sum ((fun y => total (snd y)) <$> ys) + 1
  end.

(** Of a work that has not been started. *)
Definition total (w : Work) : nat := (S (mMaxRetries (basic w))) * (attempt w + 3) + abort_cost w.

(** Of the retries that are left, and of being aborted. *)
Definition reserve (w : Work) : nat :=
  (mMaxRetries (basic w) - mRetries (basic w)) * (attempt w + 3) + abort_cost w.

Definition turn_to_search (p : Children Work) : nat := if existsb runs (ahead p) then 0 else 1.

Fixpoint weight (w : Work) : nat :=
  let left := match w with
    | TaskWork _ x => 2 * turns x
    | WorkSequence _ ws n cur _ =>
        3 * match drop n ws with
            | [] => 0
            | c :: l => (if cur then sum (take 1 (drop n (weight <$> ws))) else total c) + sum (total <$> l)
            end
    | BatchWork _ p _ rest =>
        3 * (sum ((fun c => if c_child c then weight (c_work c) else 0) <$> mAdded p) +
             sum ((fun y => total (snd y)) <$> rest)) + turn_to_search p
    end in
  match state w with
  | SUCCESS | FAILURE | ABORTED => 0
  | PENDING | RETRYING => total w
  | ABORTING =>
      match w with
      | TaskWork _ x => S (aborts x)
      | WorkSequence _ ws n cur _ => 3 * (if cur then sum (take 1 (drop n (weight <$> ws))) else 0) + 1
      | BatchWork _ p _ _ =>
          3 * sum ((fun c => if c_child c then weight (c_work c) else 0) <$> mAdded p) + turn_to_search p + 1
      end
  | RUNNING => left + 1 + reserve w + 1
  | WAITING =>
      if mRetryTimer (basic w) then reserve w + 1
      else left + (match w with TaskWork _ _ => 2 | _ => 0 end) + reserve w + 1
  end.

(** [weight], one level. *)
Definition child_weight (c : Child Work) : nat := if c_child c then weight (c_work c) else 0.

Definition left (w : Work) : nat :=
  match w with
  | TaskWork _ x => 2 * turns x
  | WorkSequence _ ws n cur _ =>
      3 * match drop n ws with
          | [] => 0
          | c :: l => (if cur then sum (take 1 (drop n (weight <$> ws))) else total c) + sum (total <$> l)
          end
  | BatchWork _ p _ rest =>
      3 * (sum (child_weight <$> mAdded p) + sum ((fun y => total (snd y)) <$> rest)) + turn_to_search p
  end.

Definition abort_weight (w : Work) : nat :=
  match w with
  | TaskWork _ x => S (aborts x)
  | WorkSequence _ ws n cur _ => 3 * (if cur then sum (take 1 (drop n (weight <$> ws))) else 0) + 1
  | BatchWork _ p _ _ => 3 * sum (child_weight <$> mAdded p) + turn_to_search p + 1
  end.

Lemma weight_eq (w : Work) :
  weight w = match state w with
    | SUCCESS | FAILURE | ABORTED => 0
    | PENDING | RETRYING => total w
    | ABORTING => abort_weight w
    | RUNNING => left w + 1 + reserve w + 1
    | WAITING =>
        if mRetryTimer (basic w) then reserve w + 1
        else left w + (match w with TaskWork _ _ => 2 | _ => 0 end) + reserve w + 1
    end.
Proof. by destruct w. Qed.

Lemma sum_app (l1 l2 : list nat) : sum (l1 ++ l2) = sum l1 + sum l2.
Proof. induction l1; simpl; lia. Qed.

Lemma sum_at {A} (f : A -> nat) (l : list A) (n : nat) (x : A) :
  l !! n = Some x -> sum (take 1 (drop n (f <$> l))) = f x.
Proof. intros Hn. rewrite <- fmap_drop, (drop_S _ x) by done. simpl. lia. Qed.

#[export] Instance Work_IsWorkLaws : IsWorkLaws Work.
Proof.
  split; [by intros b []|by intros b b' []|by intros []|].
  intros w w'. destruct w as [b x|b ws n cur stop|b p ys rest]; simpl.
  - by intros [= <-].
  - destruct (ensure _ _); simpl; [by intros [= <-]|done].
  - destruct (ensure _ _); simpl; [by intros [= <-]|done].
Qed.

Lemma attempt_sequence b (ws : list Work) n cur stop :
  attempt (WorkSequence b ws n cur stop) = 3 * sum (total <$> ws).
Proof. done. Qed.

Lemma attempt_batch b (p : Children Work) ys rest :
  attempt (BatchWork b p ys rest) = 3 * sum ((fun y => total (snd y)) <$> ys) + 1.
Proof. done. Qed.

Lemma height_batch b (p : Children Work) ys rest :
  height (BatchWork b p ys rest) = S (Nat.max (foldr Nat.max 0 ((fun c => height (c_work c)) <$> mAdded p))
    (Nat.max (foldr Nat.max 0 ((fun y => height (snd y)) <$> ys))
       (foldr Nat.max 0 ((fun y => height (snd y)) <$> rest)))).
Proof. done. Qed.

Lemma set_basic_parts (b : BasicWork) (w : Work) :
  attempt (set_basic b w) = attempt w /\ abort_cost (set_basic b w) = abort_cost w /\
  height (set_basic b w) = height w /\ basic (set_basic b w) = b.
Proof. by destruct w. Qed.

(** The same tasks, in the same places. *)
Definition same_shape (w w' : Work) : Prop :=
  attempt w' = attempt w /\ mMaxRetries (basic w') = mMaxRetries (basic w) /\ abort_cost w' = abort_cost w /\
  height w' <= height w.

Lemma shape_refl (w : Work) : same_shape w w.
Proof. by split_and!. Qed.

Lemma shape_trans (w1 w2 w3 : Work) : same_shape w1 w2 -> same_shape w2 w3 -> same_shape w1 w3.
Proof. intros (H1&H2&H3&H4) (H5&H6&H7&H8). split_and!; congruence || lia. Qed.

Lemma shape_total (w w' : Work) : same_shape w w' -> total w' = total w.
Proof. intros (H1&H2&H3&_). unfold total. by rewrite H1, H2, H3. Qed.

Lemma shape_set (b : BasicWork) (w w' : Work) :
  same_shape w w' -> mMaxRetries b = mMaxRetries (basic w) -> same_shape w (set_basic b w').
Proof.
  intros (H1&H2&H3&H4) Hm. destruct (set_basic_parts b w') as (E1&E2&E3&E4). unfold same_shape.
  by rewrite E1, E2, E3, E4.
Qed.

(** ** Resetting *)

(** As after a reset. *)
Definition rewound (w : Work) : Prop :=
  match w with
  | TaskWork _ _ => True
  | WorkSequence _ ws n cur _ =>
      n = 0 /\ cur = false /\ Forall (fun w => startable_state (state w)) ws /\ Forall wf ws
  | BatchWork _ p ys rest =>
      p = no_children /\ rest = ys /\ NoDup (fst <$> ys) /\ Forall (fun y => state (snd y) = PENDING) ys /\
      Forall (fun y => wf (snd y)) ys
  end.

(** What is under way below is done. *)
Definition resettable (w : Work) : Prop :=
  match w with
  | TaskWork _ _ => True
  | WorkSequence _ ws n _ _ =>
      Forall (fun w => startable_state (state w)) ws /\ Forall wf ws /\ Forall (fun w => isDone w = true) (take n ws)
  | BatchWork _ p ys _ =>
      Forall (fun c => isDone (c_work c) = true) (mAdded p) /\ NoDup (fst <$> ys) /\
      Forall (fun y => state (snd y) = PENDING) ys /\ Forall (fun y => wf (snd y)) ys
  end.

Lemma finished_done (w : Work) : finished (state w) -> isDone w = true.
Proof. unfold isDone. by intros [-> | ->]. Qed.

Lemma rewound_wf (b : BasicWork) (w : Work) :
  rewound w -> basic_ok b -> mState b <> SUCCESS -> ~ waits b -> wf (set_basic b w).
Proof.
  intros Hw Hb Hs Hwait. destruct w as [b0 x|b0 ws n cur stop|b0 p ys rest]; simpl in *.
  - by constructor.
  - destruct Hw as (->&->&Hst&Hwf). constructor; [done|done|]. by split.
  - destruct Hw as (->&->&Hnd&Hp&Hwf). constructor; [done|constructor|done|]. split; simpl; try done.
    + by exists [].
    + intros [Hw|[Hr _]]; [done|]. rewrite Hr. split; simpl; by try constructor.
    + by constructor.
Qed.

Lemma forallb_true {A} (f : A -> bool) (l : list A) : forallb f l = true <-> Forall (fun x => f x = true) l.
Proof.
  induction l as [|x l IH]; simpl; [by split|]. destruct (f x) eqn:E; simpl.
  - split; [intros Hl; constructor; [done|by apply IH]|]. intros Hl. apply IH. by inversion Hl.
  - split; [done|]. intros Hl. inversion Hl. congruence.
Qed.

Lemma max_list_le (l : list nat) (x : nat) : x ∈ l -> x <= foldr Nat.max 0 l.
Proof. induction 1; simpl; lia. Qed.

(** A sequence of which nothing is under way. *)
Lemma sequence_startable b (ws : list Work) n cur :
  sequence_ok b ws n cur -> (cur = true -> exists c, ws !! n = Some c /\ isDone c = true) ->
  Forall (fun w => startable_state (state w)) ws.
Proof.
  intros [Hp Hf _ _ _ _] Hc. rewrite <- (take_drop n ws). apply Forall_app. split.
  - eapply Forall_impl; [exact Hp|]. intros w Hw. right. by apply finished_done.
  - destruct cur; [|done]. destruct (Hc eq_refl) as (c&Hn&Hd). rewrite (drop_S _ c) by done.
    constructor; [by right|done].
Qed.

Lemma sequence_resettable b (ws : list Work) n cur stop :
  sequence_ok b ws n cur -> Forall wf ws -> (cur = true -> exists c, ws !! n = Some c /\ isDone c = true) ->
  resettable (WorkSequence b ws n cur stop).
Proof.
  intros Hs Hw Hc. split_and!; [by eapply sequence_startable|done|].
  eapply Forall_impl; [apply Hs|]. exact finished_done.
Qed.

(** What can be started can be reset. *)
Lemma startable_resettable (w : Work) : wf w -> startable_state (state w) -> resettable w.
Proof.
  intros Hw Hst. destruct Hw as [b x Hb|b ws n cur stop Hb Hws Hs|b p ys rest Hb Hp Hys Hk]; [done|..].
  - apply (sequence_resettable _ _ _ _ _ Hs Hws). rewrite (so_idle _ _ _ _ Hs); [done|by left].
  - destruct Hk as [Hn _ _ Hfr Hi _ Hsu _ _]. split_and!; [|done..].
    destruct (decide (mState b = SUCCESS)) as [E|E].
    + destruct (Hsu E) as [_ Hall]. eapply Forall_impl; [exact Hall|]. intros c [Hc _]. apply finished_done. by left.
    + rewrite Hi; [constructor|by left|done].
Qed.

Lemma resettable_set (b : BasicWork) (w : Work) : resettable w -> resettable (set_basic b w).
Proof. by destruct w. Qed.

Lemma reset_rewound (w : Work) :
  resettable w -> exists w1, reset w = Ok w1 /\ rewound w1 /\ same_shape w w1.
Proof.
  intros Hw. unfold reset. destruct w as [b x|b ws n cur stop|b p ys rest]; simpl in *.
  - eexists. split; [done|]. split; [done|]. split_and!; simpl; by rewrite ?reset_limit.
  - destruct Hw as (Hst&Hwf&Hp).
    rewrite (proj2 (forallb_true (fun w => done_state (mState (work_basic w))) (take n ws)) Hp). cbn [ensure res_bind].
    eexists. split; [done|]. split; [done|]. by split_and!.
  - destruct Hw as (Hd&Hn&Hfr&Hwf).
    rewrite (proj2 (forallb_true (fun w => done_state (mState (work_basic w))) (children p))); cbn [ensure res_bind].
    + eexists. split; [done|]. split; [by split_and!|]. split_and!; [done..|].
      rewrite !height_batch. simpl. lia.
    + unfold children. apply Forall_fmap. rewrite Forall_forall in Hd |- *.
      intros c [_ Hin]%list_elem_of_filter. by apply Hd.
Qed.

(** What an attempt costs that starts now. *)
Lemma rewound_left (b : BasicWork) (w : Work) : rewound w -> left (set_basic b w) <= attempt w.
Proof.
  intros Hw. destruct w as [b0 x|b0 ws n cur stop|b0 p ys rest].
  - simpl. pose proof (turns_limit x). lia.
  - destruct Hw as (->&->&_). rewrite attempt_sequence. destruct ws; cbn -[total Nat.mul]; lia.
  - destruct Hw as (->&->&_). rewrite attempt_batch. cbn -[total Nat.mul]. lia.
Qed.

Lemma rewound_weight (b : BasicWork) (w : Work) :
  rewound w -> mState b = RUNNING ->
  weight (set_basic b w) <= attempt w + 2 + (mMaxRetries b - mRetries b) * (attempt w + 3) + abort_cost w.
Proof.
  intros Hw Hb. rewrite weight_eq. unfold state, reserve.
  destruct (set_basic_parts b w) as (->&->&_&->). rewrite Hb. pose proof (rewound_left b w Hw). lia.
Qed.

(** ** Outcomes of a crank *)

Definition cranked (w w' : Work) : Prop :=
  wf w' /\ same_shape w w' /\ weight w' < weight w /\ under (state w) (state w').

Lemma running_timer (b : BasicWork) : basic_ok b -> mState b = RUNNING -> mRetryTimer b = false.
Proof.
  intros Hb Hr. destruct (mRetryTimer b) eqn:E; [|done]. destruct (bo_timer b Hb E) as [[? _]|?]; congruence.
Qed.

Lemma ran_basic_ok (s : InternalState) (b : BasicWork) :
  basic_ok b -> mState b = RUNNING -> s = RUNNING \/ s = WAITING \/ s = SUCCESS -> basic_ok (with_state s b).
Proof.
  intros Hb Hr Hs. pose proof (running_timer b Hb Hr) as Ht. destruct Hb as [H1 _ _ _].
  split; simpl; [done|by destruct Hs as [->|[-> | ->]]|by rewrite Ht|].
  destruct Hs as [->|[-> | ->]]; simpl; auto.
Qed.

Lemma failed_basic_ok (b : BasicWork) : basic_ok b -> basic_ok (failed b).
Proof.
  intros [H1 _ _ _]. unfold failed. destruct (Nat.ltb_spec (mRetries b) (mMaxRetries b)); split; simpl; auto 10; done.
Qed.

Lemma failed_ok (w0 w : Work) :
  state w0 = RUNNING -> basic w = basic w0 -> basic_ok (basic w) -> same_shape w0 w -> resettable w ->
  exists w', setState FAILURE w = Ok w' /\ cranked w0 w'.
Proof.
  intros Hs Hbw Hb Hsh Hr. assert (state w = RUNNING) as Hsw by (unfold state; by rewrite Hbw).
  destruct (reset_rewound w Hr) as (w1&H1&Hrw&Hsh1). exists (set_basic (failed (basic w)) w1).
  split; [by apply setState_failed|]. pose proof (failed_basic_ok _ Hb) as Hfb.
  assert (same_shape w0 (set_basic (failed (basic w)) w1)) as Hsh'.
  { apply shape_set; [by eapply shape_trans|]. rewrite Hbw. unfold failed. by destruct (_ <? _). }
  assert (weight (set_basic (failed (basic w)) w1) < weight w0 /\ mState (failed (basic w)) <> SUCCESS /\
    ~ waits (failed (basic w)) /\ under RUNNING (mState (failed (basic w)))) as (Hwt&Hns&Hnw&Hu).
  { rewrite !weight_eq, Hs. unfold state. destruct (set_basic_parts (failed (basic w)) w1) as (E1&E2&E3&E4).
    rewrite E4. unfold reserve, waits. rewrite E1, E2, E4. destruct (shape_trans _ _ _ Hsh Hsh1) as (->&_&->&_).
    rewrite Hbw. unfold failed. destruct (_ <? _); simpl; (split; [weigh|]); split_and!; auto; try (by intros []). }
  split; [by apply rewound_wf|]. split; [done|]. split; [done|]. rewrite Hs. unfold state. by rewrite basic_set.
Qed.

Definition wait_cost (w : Work) : nat := match w with TaskWork _ _ => 2 | _ => 0 end.

(** What [onRun] hints, becoming the state. *)
Lemma ran_ok (s : State) (w0 w : Work) :
  state w0 = RUNNING -> basic w = basic w0 -> basic_ok (basic w) -> same_shape w0 w ->
  s <> WORK_ABORTED ->
  (s = WORK_FAILURE -> resettable w) ->
  (s = WORK_RUNNING -> left w < left w0) ->
  (s = WORK_WAITING -> left w + wait_cost w <= left w0) ->
  (s <> WORK_FAILURE -> basic_ok (with_state (getInternalState s) (basic w)) -> wf (put_state (getInternalState s) w)) ->
  exists w', setState (getInternalState s) w = Ok w' /\ cranked w0 w'.
Proof.
  intros Hs Hbw Hb Hsh Hna Hf Hr Hw Hwf. assert (state w = RUNNING) as Hsw by (unfold state; by rewrite Hbw).
  destruct (decide (s = WORK_FAILURE)) as [->|Hnf]; [by apply failed_ok; auto|].
  exists (put_state (getInternalState s) w). split; [apply setState_plain; rewrite Hsw; by destruct s|].
  assert (basic_ok (with_state (getInternalState s) (basic w))) as Hb'.
  { apply ran_basic_ok; [done|by rewrite <- Hsw|]. destruct s; simpl; auto; done. }
  split; [by apply Hwf|]. split; [apply shape_set; [done|by rewrite Hbw]|]. rewrite Hs, state_put.
  split; [|destruct s; simpl; auto; done].
  assert (left (put_state (getInternalState s) w) = left w) as El by (by destruct w).
  assert (wait_cost (put_state (getInternalState s) w) = wait_cost w) as Ew by (by destruct w).
  rewrite (weight_eq w0), Hs, weight_eq, state_put, El. fold (wait_cost (put_state (getInternalState s) w)). rewrite Ew.
  unfold reserve, put_state. destruct (set_basic_parts (with_state (getInternalState s) (basic w)) w) as (->&->&_&->).
  destruct Hsh as (->&_&->&_). cbn [with_state mRetryTimer mMaxRetries mRetries]. rewrite (running_timer _ Hb) by done.
  rewrite Hbw. destruct s; cbn [getInternalState]; [specialize (Hr eq_refl)|specialize (Hw eq_refl)|..]; done || weigh.
Qed.

(** After [onAbort]. *)
Lemma abort_ok (done : bool) (w0 w : Work) :
  state w0 = ABORTING -> basic w = basic w0 -> basic_ok (basic w) -> same_shape w0 w ->
  (done = true -> resettable w) -> (done = false -> wf w /\ abort_weight w < abort_weight w0) ->
  exists w', setState (aborted_state done) w = Ok w' /\ cranked w0 w'.
Proof.
  intros Hs Hbw Hb Hsh Hd Hnd. assert (state w = ABORTING) as Hsw by (unfold state; by rewrite Hbw).
  destruct done; cbn [aborted_state].
  - destruct (reset_rewound w (Hd eq_refl)) as (w1&H1&Hrw&Hsh1). exists (put_state ABORTED w1).
    split; [by apply setState_aborted|]. pose proof (reset_ok_basic _ _ H1) as Hb1.
    split; [|split; [|split]].
    + apply rewound_wf; [done| |done|by intros [? _]]. rewrite Hb1. destruct Hb as [Hle _ _ _].
      split; simpl; auto; done.
    + apply shape_set; [by eapply shape_trans|]. by rewrite Hb1, Hbw.
    + rewrite !weight_eq, state_put, Hs. destruct w0; simpl; lia.
    + rewrite state_put, Hs. by right.
  - destruct (Hnd eq_refl) as [Hwf Hlt]. exists w. split.
    + rewrite setState_plain by (by rewrite Hsw). by rewrite <- Hsw, put_same.
    + split; [done|]. split; [done|]. rewrite !weight_eq, Hs, Hsw. split; [done|]. by left.
Qed.

(** Starting a work. *)
Lemma startWork_ok (w : Work) :
  wf w -> startable_state (state w) ->
  exists w', startWork w = Ok w' /\ wf w' /\ same_shape w w' /\ state w' = RUNNING /\ weight w' < total w.
Proof.
  intros Hw Hst. pose proof (startable_resettable w Hw Hst) as Hr.
  destruct (reset_rewound (put_state PENDING w)) as (w1&H1&Hrw&Hsh); [by apply resettable_set|].
  exists (set_basic (started (basic w)) w1). split; [by apply startWork_started|].
  assert (same_shape w w1) as Hsh1.
  { destruct Hsh as (E1&E2&E3&E4). destruct (set_basic_parts (with_state PENDING (basic w)) w) as (F1&F2&F3&F4).
    unfold put_state in *. split_and!; [congruence|by rewrite E2, F4|congruence|lia]. }
  split; [|split; [|split]].
  - apply rewound_wf; [done| |done|by intros [? _]]. split; simpl; auto; [lia|done].
  - by apply shape_set.
  - unfold state. by rewrite basic_set.
  - pose proof (rewound_weight (started (basic w)) w1 Hrw eq_refl) as Hle. unfold total.
    destruct Hsh1 as (E1&_&E3&_). rewrite E1, E3 in Hle. cbn [started mMaxRetries mRetries] in Hle.
    rewrite Nat.sub_0_r in Hle. lia.
Qed.
End trees.
