(* ===== verification/WorkCrank.v ===== *)
(** * Cranking trees of works

    A crank of a well-formed work that can run ends without an error in a
    well-formed work, and lowers its weight: for the sequences, for the children
    of a [Work], for batches, and for trees. *)
From stdpp Require Import base tactics list numbers sets.
From Stdlib Require Import ZArith Lia Bool.
From S2P Require Import Prelude Work WorkTheorems.

Open Scope nat_scope.
Open Scope kin_scope.

Lemma update_at_ok {A} (f : A -> wk A) (l : list A) (i : nat) (x y : A) :
  l !! i = Some x -> f x = Ok y -> update_at f i l = Ok (<[i := y]> l).
Proof.
  revert i. induction l as [|z l IH]; intros [|i] Hx Hf; simplify_eq/=; [by rewrite Hf|].
  by rewrite (IH i Hx Hf).
Qed.

Lemma map_wk_ok {A} (P : A -> Prop) (Q : A -> A -> Prop) (f : A -> wk A) (l : list A) :
  Forall P l -> (forall x, P x -> exists y, f x = Ok y /\ Q x y) -> exists l', map_wk f l = Ok l' /\ Forall2 Q l l'.
Proof.
  intros Hl Hf. induction Hl as [|x l Hx Hl (l'&IH&Hq)]; [by exists []|].
  destruct (Hf x Hx) as (y&Hy&Hxy). exists (y :: l'). simpl. by rewrite Hy, IH; split; [|constructor].
Qed.

Lemma tail_drop {A} (l : list A) (n : nat) : tail (drop n l) = drop (S n) l.
Proof. revert n. induction l as [|x l IH]; intros [|n]; try done. apply IH. Qed.

Section crank.
Context {L : Type} `{TaskLaws L}.
#[local] Notation Work := (@Work L).

(** Works that can be cranked. *)
Definition crankable (w : Work) : Prop := wf w /\ (state w = RUNNING \/ state w = ABORTING).

(** What is known of the cranks of smaller works. *)
Definition cranks (k : nat) (crank : Work -> wk Work) : Prop :=
  forall w, crankable w -> height w <= k -> exists w', crank w = Ok w' /\ cranked w w'.

Definition bounded (k : nat) (l : list Work) : Prop := Forall (fun w => height w <= k) l.

Lemma bounded_max (k : nat) {A} (f : A -> Work) (l : list A) :
  foldr Nat.max 0 ((fun x => height (f x)) <$> l) <= k <-> bounded k (f <$> l).
Proof.
  unfold bounded. induction l as [|x l IH]; [split; [constructor|simpl; lia]|].
  rewrite !fmap_cons, Forall_cons, <- IH. cbn [foldr]. lia.
Qed.

Lemma height_sequence b (ws : list Work) n cur stop k :
  height (WorkSequence b ws n cur stop) <= S k <-> bounded k ws.
Proof.
  change (height (WorkSequence b ws n cur stop)) with (S (foldr Nat.max 0 ((fun w => height (id w)) <$> ws))).
  rewrite <- Nat.succ_le_mono, (bounded_max k id), list_fmap_id. done.
Qed.

Lemma height_batch_le b (p : Children Work) ys rest k :
  height (BatchWork b p ys rest) <= S k <->
  bounded k (c_work <$> mAdded p) /\ bounded k (snd <$> ys) /\ bounded k (snd <$> rest).
Proof.
  rewrite height_batch, <- (bounded_max k c_work), <- !(bounded_max k snd). lia.
Qed.

(** ** Sequences *)

Section sequence.
Context (k : nat) (crank : Work -> wk Work) (Hcrank : cranks k crank) (stop : bool).

(** What a sequence has left, from the works [l] on. *)
Definition sequence_left (l : list Work) (cur : bool) : nat :=
  match l with
  | [] => 0
  | c :: l' => (if cur then weight c else total c) + sum (total <$> l')
  end.

Lemma left_sequence b (ws : list Work) n cur stop' :
  left (WorkSequence b ws n cur stop') = 3 * sequence_left (drop n ws) cur.
Proof.
  simpl. unfold sequence_left. destruct (drop n ws) as [|c l] eqn:E; [done|].
  destruct cur; [|done]. rewrite (sum_at weight ws n c); [done|].
  rewrite <- (take_drop n ws), E, lookup_app_r; rewrite length_take.
  - destruct (decide (n <= length ws)); [by replace (n - n `min` length ws) with 0 by lia|].
    rewrite drop_ge in E by lia. done.
  - lia.
Qed.

Definition future_ok (l : list Work) (cur : bool) : Prop :=
  Forall (fun w => startable_state (state w)) (if cur then tail l else l) /\
  (cur = true -> exists c, head l = Some c /\ under RUNNING (state c)).

(** What is known of the works after [onRun] says [s]. *)
Record sequence_ran (s : State) (past l ws : list Work) (n : nat) (cur cur' : bool) : Prop := {
  sr_wf : Forall wf ws;
  sr_shape : Forall2 same_shape (past ++ l) ws;
  sr_past : Forall (fun w => finished (state w)) (take n ws);
  sr_future : Forall (fun w => startable_state (state w)) (drop (if cur' then S n else n) ws);
  sr_cur : cur' = true -> exists c, ws !! n = Some c /\
    match s with
    | WORK_RUNNING => under RUNNING (state c) | WORK_WAITING => state c = WAITING
    | WORK_FAILURE => finished (state c) | _ => False end;
  sr_not_aborted : s <> WORK_ABORTED;
  sr_runs : s = WORK_RUNNING \/ s = WORK_WAITING -> cur' = true;
  sr_success : s = WORK_SUCCESS -> Forall (fun w => state w = SUCCESS) ws;
  sr_running : s = WORK_RUNNING -> sequence_left (drop n ws) cur' < sequence_left l cur;
  sr_waiting : s = WORK_WAITING -> sequence_left (drop n ws) cur' <= sequence_left l cur;
}.

Lemma shape_refl_list (l : list Work) : Forall2 same_shape l l.
Proof. induction l; constructor; [apply shape_refl|done]. Qed.

(** The end of the sequence. *)
Lemma sequence_ended (past : list Work) :
  Forall wf past -> Forall (fun w => finished (state w)) past ->
  sequence_ran (getWorkStatus past) past [] past (length past) false false.
Proof.
  intros Hwf Hp.
  assert (getWorkStatus past = WORK_SUCCESS /\ Forall (fun w => state w = SUCCESS) past \/
    getWorkStatus past = WORK_FAILURE) as Hs.
  { unfold getWorkStatus. destruct (allSuccessful past) eqn:E.
    - left. split; [done|]. apply forallb_true in E. eapply Forall_impl; [exact E|]. intros w Hw.
      apply bool_decide_eq_true in Hw. unfold getState in Hw. by destruct (state w).
    - right. enough (anyFailed past = true) as -> by done. clear Hwf. unfold allSuccessful, anyFailed in *.
      induction Hp as [|w past Hw Hp IH]; simpl in *; [done|]. unfold getState in *.
      destruct Hw as [Hw|Hw]; rewrite Hw in *; simpl in *; [by apply IH|done]. }
  destruct Hs as [[-> Hs]| ->]; split; rewrite ?app_nil_r, ?take_ge, ?drop_ge by done; try done;
    first [apply shape_refl_list|by intros []].
Qed.

(** One work of the sequence in place of another. *)
Lemma sequence_at (s : State) (past l : list Work) (w w' : Work) (cur : bool) :
  Forall wf (past ++ w :: l) -> Forall (fun w => finished (state w)) past ->
  Forall (fun w => startable_state (state w)) l ->
  wf w' -> same_shape w w' ->
  match s with
  | WORK_RUNNING => under RUNNING (state w') /\ weight w' < (if cur then weight w else total w)
  | WORK_WAITING => state w' = WAITING /\ weight w' <= (if cur then weight w else total w)
  | WORK_FAILURE => finished (state w')
  | _ => False
  end ->
  sequence_ran s past (w :: l) (past ++ w' :: l) (length past) cur true.
Proof.
  intros Hwf Hp Hl Hw' Hsh Hs. apply Forall_app in Hwf as [Hwp Hwl]. apply Forall_cons in Hwl as [_ Hwl].
  split; rewrite ?take_app_length, ?drop_app_length; try done.
  - apply Forall_app. split; [done|by constructor].
  - apply Forall2_app; [apply shape_refl_list|]. constructor; [done|apply shape_refl_list].
  - rewrite drop_app_ge by lia. by replace (S (length past) - length past) with 1 by lia.
  - intros _. exists w'. split; [by rewrite list_lookup_middle|]. destruct s; tauto.
  - by destruct s.
  - by destruct s.
  - intros ->. destruct Hs as [_ Hlt]. simpl. destruct cur; lia.
  - intros ->. destruct Hs as [_ Hlt]. simpl. destruct cur; lia.
Qed.

Lemma sequence_onRun_ok (past l : list Work) (cur : bool) :
  Forall wf past -> Forall wf l -> bounded k l -> Forall (fun w => finished (state w)) past -> future_ok l cur ->
  exists s ws n cur', sequence_onRun crank stop past l cur = Ok (s, ws, n, cur') /\
    sequence_ran s past l ws n cur cur'.
Proof.
  intros Hp Hl Hk Hpd Hf. revert past cur Hp Hpd Hf. induction Hl as [|w l Hw Hl IH]; intros past cur Hp Hpd Hf; simpl.
  { destruct cur.
    { destruct Hf as [_ (c&?&_)]; done. }
    exists (getWorkStatus past), past, (length past), false. split; [done|]. by apply sequence_ended. }
  apply Forall_cons in Hk as [Hkw Hkl]. assert (Forall wf (past ++ w :: l)) as Hall by (apply Forall_app; by split; [|constructor]).
  assert (forall w1, wf w1 -> state w1 = RUNNING -> height w1 <= k -> same_shape w w1 ->
    Forall (fun w => startable_state (state w)) l -> weight w1 <= (if cur then weight w else total w) ->
    exists s ws n cur', (let? w := crank w1 in Ok (WORK_RUNNING, past ++ w :: l, length past, true)) =
      Ok (s, ws, n, cur') /\ sequence_ran s past (w :: l) ws n cur cur') as Hrun.
  { intros w1 Hw1 Hs1 Hh1 Hsh1 Hst Hle. destruct (Hcrank w1) as (w2&Hc&Hw2&Hsh2&Hlt&Hu); [by split; [|left]|done|].
    rewrite Hc. cbn [res_bind]. do 4 eexists. split; [done|]. apply sequence_at; [done..|by eapply shape_trans|].
    rewrite Hs1 in Hu. split; [done|lia]. }
  destruct Hf as [Hst Hc]. destruct cur.
  - destruct (Hc eq_refl) as (c&[= <-]&Hu). simpl in Hst.
    assert (finished (state w) -> exists s ws n cur', sequence_onRun crank stop (past ++ [w]) l false = Ok (s, ws, n, cur') /\
      sequence_ran s past (w :: l) ws n true cur') as Hgo.
    { intros Hfin. destruct (IH Hkl (past ++ [w]) false) as (s&ws&n&cur'&Hr&Hran).
      - apply Forall_app. split; [done|by constructor].
      - apply Forall_app. split; [done|by constructor].
      - by split.
      - exists s, ws, n, cur'. split; [done|]. destruct Hran as [H1 H2 H3 H4 H5 H6 H7 H8 H9 H10].
        assert (sequence_left l false <= sequence_left (w :: l) true) as Hle by (destruct l; cbn -[total]; lia).
        split; try done.
        + by rewrite <- app_assoc in H2.
        + intros Hs. specialize (H9 Hs). lia.
        + intros Hs. specialize (H10 Hs). lia. }
    unfold getState. destruct Hu as [Hu|[Hu|[Hu|Hu]]]; rewrite Hu; cbn [getState_of].
    + apply Hrun; [done|done|lia|apply shape_refl|done|done].
    + do 4 eexists. split; [done|]. apply sequence_at; [done..|apply shape_refl|]. by split.
    + apply Hgo. by left.
    + destruct stop; [|apply Hgo; by right]. do 4 eexists. split; [done|].
      apply sequence_at; [done..|apply shape_refl|]. by right.
  - apply Forall_cons in Hst as [Hsw Hst]. destruct (startWork_ok w Hw Hsw) as (w1&H1&Hw1&Hsh1&Hs1&Hlt).
    rewrite H1. cbn [res_bind]. apply Hrun; [done|done| |done|done|lia]. destruct Hsh1 as (_&_&_&?). lia.
Qed.
End sequence.

Lemma shape_sum (l l' : list Work) : Forall2 same_shape l l' -> sum (total <$> l') = sum (total <$> l).
Proof. induction 1 as [|w w' l l' Hw Hl IH]; [done|]. cbn -[total]. by rewrite (shape_total _ _ Hw), <- IH. Qed.

Lemma shape_bounded (k : nat) (l l' : list Work) : Forall2 same_shape l l' -> bounded k l -> bounded k l'.
Proof.
  induction 1 as [|w w' l l' Hw Hl IH]; [done|]. intros [Hk Hkl]%Forall_cons. constructor; [|by apply IH].
  destruct Hw as (_&_&_&?). lia.
Qed.

Lemma shape_sequence (b b' : BasicWork) (ws ws' : list Work) n n' cur cur' stop :
  Forall2 same_shape ws ws' -> mMaxRetries b' = mMaxRetries b ->
  same_shape (WorkSequence b ws n cur stop) (WorkSequence b' ws' n' cur' stop).
Proof.
  intros Hs Hm. split_and!; [|done|done|].
  - rewrite !attempt_sequence. by rewrite (shape_sum _ _ Hs).
  - destruct (height (WorkSequence b ws n cur stop)) as [|k] eqn:E; [done|].
    apply height_sequence. eapply shape_bounded; [done|]. apply (height_sequence b ws n cur stop). lia.
Qed.

(** A sequence that runs. *)
Lemma crank_sequence_running (k : nat) (crank : Work -> wk Work) b (ws : list Work) n cur stop :
  cranks k crank -> wf (WorkSequence b ws n cur stop) -> mState b = RUNNING -> bounded k ws ->
  exists w', (let? (s, ws, n, cur) := sequence_onRun crank stop (take n ws) (drop n ws) cur in
     setState (getInternalState s) (WorkSequence b ws n cur stop)) = Ok w' /\
    cranked (WorkSequence b ws n cur stop) w'.
Proof.
  intros Hc Hw Hb Hk. inversion Hw as [|? ? ? ? ? Hbo Hws Hso|]; subst.
  assert (Forall wf (take n ws) /\ Forall wf (drop n ws)) as [Hwt Hwd] by (apply Forall_app; by rewrite take_drop).
  assert (bounded k (drop n ws)) as Hkd by (by apply Forall_drop).
  destruct (sequence_onRun_ok k crank Hc stop (take n ws) (drop n ws) cur) as (s&ws'&n'&cur'&->&Hr); [done..|apply Hso| |].
  { split.
    - pose proof (so_future _ _ _ _ Hso) as Hf. destruct cur; [|done]. by rewrite tail_drop.
    - intros Hcur. destruct (so_cur _ _ _ _ Hso Hcur) as (c&Hn&Hu). exists c. rewrite Hb in Hu. split; [|done].
      by rewrite (drop_S _ c). }
  cbn [res_bind]. destruct Hr as [H1 H2 H3 H4 H5 H6 H7 H8 H9 H10]. rewrite take_drop in H2.
  apply (ran_ok s (WorkSequence b ws n cur stop)); [done|done|done|by apply shape_sequence|done|..].
  - intros ->. split_and!; [|done|eapply Forall_impl; [exact H3|apply finished_done]].
    rewrite <- (take_drop n' ws'). apply Forall_app. split.
    + eapply Forall_impl; [exact H3|]. intros w Hfin. right. by apply finished_done.
    + destruct cur'; [|done]. destruct (H5 eq_refl) as (c&Hn&Hfin). rewrite (drop_S _ c) by done.
      constructor; [right; by apply finished_done|done].
  - intros ->. rewrite !left_sequence. specialize (H9 eq_refl). lia.
  - intros ->. rewrite !left_sequence. specialize (H10 eq_refl). simpl. lia.
  - intros Hnf Hbo'. simpl. constructor; [done|done|]. split; simpl; try done.
    + intros Hcur. destruct (H5 Hcur) as (c&Hn&Hs). exists c. split; [done|]. by destruct s.
    + intros [[?|?]|[? Ht]]; [by destruct s|destruct s; try done|]; [destruct cur'; [|done]; by destruct (H5 eq_refl) as (?&_&?)|].
      simpl in Ht. by rewrite (running_timer b Hbo Hb) in Ht.
    + intros [? _]. apply H7. destruct s; auto; done.
    + intros ?. apply H8. by destruct s.
Qed.

Lemma under_aborting (c : Work) :
  under ABORTING (state c) -> isDone c = true \/ isDone c = false /\ state c = ABORTING.
Proof. unfold isDone. intros [Hc|Hc]; [right|by left]. by rewrite Hc. Qed.

Lemma shape_insert (l : list Work) (n : nat) (c c' : Work) :
  l !! n = Some c -> same_shape c c' -> Forall2 same_shape l (<[n := c']> l).
Proof.
  intros Hn Hs. rewrite <- (list_insert_id l n c Hn) at 1. apply Forall2_insert; [apply shape_refl_list|done].
Qed.

(** A sequence that is being aborted. *)
Lemma crank_sequence_aborting (k : nat) (crank : Work -> wk Work) b (ws : list Work) n cur stop :
  cranks k crank -> wf (WorkSequence b ws n cur stop) -> mState b = ABORTING -> bounded k ws ->
  exists w', (match (if cur then ws !! n else None) with
     | Some c =>
         if isDone c then setState ABORTED (WorkSequence b ws n cur stop)
         else let? ws := update_at crank n ws in setState ABORTING (WorkSequence b ws n cur stop)
     | None => setState ABORTED (WorkSequence b ws n cur stop)
     end) = Ok w' /\ cranked (WorkSequence b ws n cur stop) w'.
Proof.
  intros Hc Hw Hb Hk. inversion Hw as [|? ? ? ? ? Hbo Hws Hso|]; subst.
  assert (forall d, d = true -> (cur = true -> exists c, ws !! n = Some c /\ isDone c = true) ->
    exists w', setState (aborted_state d) (WorkSequence b ws n cur stop) = Ok w' /\
      cranked (WorkSequence b ws n cur stop) w') as Hend.
  { intros d -> Hd. apply abort_ok; [done..|apply shape_refl| |done]. intros _. by apply (sequence_resettable b). }
  destruct cur; [|by apply (Hend true)]. destruct (so_cur _ _ _ _ Hso eq_refl) as (c&Hn&Hu). rewrite Hn.
  rewrite Hb in Hu. destruct (under_aborting c Hu) as [Hd|[Hd Hs]]; rewrite Hd; [apply (Hend true); [done|by exists c]|].
  destruct (Hc c) as (c'&Hcc&Hwc&Hsh&Hlt&Huc).
  { split; [|by right]. by eapply Forall_lookup_1 in Hws. }
  { by eapply Forall_lookup_1 in Hk. }
  rewrite (update_at_ok crank ws n c c') by done. cbn [res_bind]. rewrite Hs in Huc.
  pose proof (lookup_lt_Some _ _ _ Hn) as Hlen.
  assert (<[n:=c']> ws !! n = Some c') as Hn' by (by rewrite list_lookup_insert_eq).
  apply (abort_ok false); [done|done|done| |done|].
  - apply shape_sequence; [by eapply shape_insert|done].
  - intros _. split.
    + constructor; [done|by apply Forall_insert|]. destruct Hso as [H1 H2 H3 H4 H5 H6]. split; try done.
      * by rewrite take_insert_ge.
      * by rewrite drop_insert_lt by lia.
      * intros _. exists c'. split; [done|]. by rewrite Hb.
      * by rewrite Hb.
    + simpl. rewrite (sum_at weight _ n c'), (sum_at weight ws n c) by done. lia.
Qed.

(** ** The children of a [Work] *)

(** Children of which some have been erased, which were done. *)
Definition erased_from (c c' : Child Work) : Prop :=
  c' = c \/ c_child c = true /\ isDone (c_work c) = true /\ c' = mkChild (c_name c) (c_work c) false (c_batch c).

Lemma erased_refl_list (l : list (Child Work)) : Forall2 erased_from l l.
Proof. induction l; constructor; [by left|done]. Qed.

Lemma yield_from_ok (l : list (Child Work)) (i : nat) :
  let '(l', r) := yield_from l i in
  Forall2 erased_from l l' /\
  match r with
  | Some j => exists m c, j = i + m /\ l !! m = Some c /\ l' !! m = Some c /\ runs c = true /\
      drop (S m) l' = drop (S m) l
  | None => Forall (fun c => runs c = false) l /\ Forall (fun c => c_child c = true -> isDone (c_work c) = false) l'
  end.
Proof.
  revert i. induction l as [|c l IH]; intros i; simpl; [done|].
  specialize (IH (S i)). unfold runs. destruct (c_child c) eqn:Ec; [case_bool_decide as Hr|]; simpl.
  - split; [apply erased_refl_list|]. exists 0, c. split_and!; [lia|done|done| |done].
    by rewrite Ec, bool_decide_true.
  - destruct (yield_from l (S i)) as [l' r]. destruct IH as [He Hm].
    assert (erased_from c (if isDone (c_work c) then mkChild (c_name c) (c_work c) false (c_batch c) else c)) as Hec.
    { destruct (isDone (c_work c)) eqn:Ed; [by right|by left]. }
    replace (if isDone (c_work c) then mkChild (c_name c) (c_work c) false (c_batch c) :: l' else c :: l')
      with ((if isDone (c_work c) then mkChild (c_name c) (c_work c) false (c_batch c) else c) :: l')
      by (by destruct (isDone _)).
    split; [by constructor|]. destruct r as [j|].
    + destruct Hm as (m&x&->&H1&H2&H3&H4). exists (S m), x. split_and!; [lia|done..].
    + destruct Hm as [H1 H2]. split; constructor; try done.
      * rewrite Ec. by rewrite bool_decide_false.
      * by destruct (isDone (c_work c)) eqn:Ed.
  - destruct (yield_from l (S i)) as [l' r]. destruct IH as [He Hm]. split; [constructor; [by left|done]|].
    destruct r as [j|].
    + destruct Hm as (m&x&->&H1&H2&H3&H4). exists (S m), x. split_and!; [lia|done..].
    + destruct Hm as [H1 H2]. split; constructor; try done; by rewrite Ec.
Qed.

Lemma Forall2_with {A B} (R : A -> B -> Prop) (l : list A) (l' : list B) :
  Forall2 R l l' -> Forall2 (fun x y => x ∈ l /\ R x y) l l'.
Proof.
  induction 1 as [|x y l l' Hxy Hl IH]; constructor; [by split; [left|]|].
  eapply Forall2_impl; [exact IH|]. intros a b [Ha Hab]. split; [by right|done].
Qed.

(** Erased on the way to the next child that can run. *)
Definition tidied (p : Children Work) (c c' : Child Work) : Prop :=
  c' = c \/ c ∈ ahead p /\ c_child c = true /\ isDone (c_work c) = true /\
    c' = mkChild (c_name c) (c_work c) false (c_batch c).

Lemma yield_ok (p : Children Work) :
  let '(r, p') := yieldNextRunningChild p in
  Forall2 (tidied p) (mAdded p) (mAdded p') /\
  mAbortChildrenButNotSelf p' = mAbortChildrenButNotSelf p /\
  match r with
  | Some i => exists c, mAdded p !! i = Some c /\ mAdded p' !! i = Some c /\ c ∈ ahead p /\ runs c = true /\
      (mNextChild p' = Some (S i) \/ mNextChild p' = None) /\
      Forall (fun c => c ∈ ahead p) (drop (S i) (mAdded p'))
  | None => turn_to_search p = 1 /\ mNextChild p' = begin_of (mAdded p')
  end.
Proof.
  unfold yieldNextRunningChild. assert (Forall2 (tidied p) (mAdded p) (mAdded p)) as Hrefl.
  { induction (mAdded p); constructor; [by left|done]. }
  destruct (mNextChild p) as [n|] eqn:En.
  2: { split; [done|]. split; [done|]. split; [|done]. unfold turn_to_search, ahead. by rewrite En. }
  assert (ahead p = drop n (mAdded p)) as Ha by (unfold ahead; by rewrite En).
  pose proof (yield_from_ok (drop n (mAdded p)) n) as Hy.
  destruct (yield_from (drop n (mAdded p)) n) as [l' r]. destruct Hy as [He Hr].
  assert (Forall2 (tidied p) (mAdded p) (take n (mAdded p) ++ l')) as Ht.
  { rewrite <- (take_drop n (mAdded p)) at 1. apply Forall2_app.
    - by apply Forall2_take with (n := n) in Hrefl.
    - eapply Forall2_impl; [exact (Forall2_with _ _ _ He)|]. intros c c' [Hin [->|Hc]]; [by left|].
      right. by rewrite Ha. }
  destruct r as [j|]; cbn [mAdded mAbortChildrenButNotSelf mNextChild]; split; try done; split; try done.
  - destruct Hr as (m&c&->&Hm&Hm'&Hrun&Hd).
    assert (n <= length (mAdded p)) as Hn.
    { apply lookup_lt_Some in Hm. rewrite length_drop in Hm. lia. }
    assert (drop (S (n + m)) (take n (mAdded p) ++ l') = drop (S m) (drop n (mAdded p))) as Hdrop.
    { rewrite drop_app_ge by (rewrite length_take; lia). rewrite length_take_le by done.
      rewrite <- Hd. f_equal. lia. }
    exists c. rewrite lookup_drop in Hm. split; [done|]. split.
    { rewrite lookup_app_r by (rewrite length_take; lia). rewrite length_take_le by done.
      by replace (n + m - n) with m by lia. }
    rewrite <- lookup_drop in Hm. split; [rewrite Ha; by eapply list_elem_of_lookup_2|]. split; [done|]. split.
    + destruct (hasChildren _); auto.
    + rewrite Hdrop, Ha, Forall_forall. intros x Hx. rewrite <- (take_drop (S m) (drop n (mAdded p))). set_solver.
  - destruct Hr as [Hr _]. split; [|done]. unfold turn_to_search. rewrite Ha.
    replace (existsb runs (drop n (mAdded p))) with false; [done|]. symmetry. clear -Hr.
    induction Hr as [|c l Hc Hl IH]; simpl; [done|]. by rewrite Hc.
Qed.

Lemma existsb_true {A} (f : A -> bool) (l : list A) : existsb f l = true <-> exists x, x ∈ l /\ f x = true.
Proof.
  rewrite List.existsb_exists. by setoid_rewrite list_elem_of_In.
Qed.

(** A child that can run is ahead of the start. *)
Lemma begin_turn (p : Children Work) (c : Child Work) :
  mNextChild p = begin_of (mAdded p) -> c ∈ mAdded p -> runs c = true -> turn_to_search p = 0.
Proof.
  intros Hn Hc Hr. unfold turn_to_search, ahead. rewrite Hn. unfold begin_of.
  assert (hasChildren (mAdded p) = true) as ->.
  { apply existsb_true. exists c. split; [done|]. unfold runs in Hr. by destruct (c_child c). }
  rewrite drop_0. by rewrite (proj2 (existsb_true runs (mAdded p)) (ex_intro _ c (conj Hc Hr))).
Qed.

Lemma turn_le (p : Children Work) : turn_to_search p <= 1.
Proof. unfold turn_to_search. destruct (existsb _ _); lia. Qed.

(** ** What stays of the children *)

Definition same_child (c c' : Child Work) : Prop := c_name c' = c_name c /\ same_shape (c_work c) (c_work c').

Definition children_weight (l : list (Child Work)) : nat := sum (child_weight <$> l).

Lemma done_weight (w : Work) : isDone w = true -> weight w = 0.
Proof. intros Hd. rewrite weight_eq. unfold isDone in Hd. by destruct (state w). Qed.

Lemma tidied_weight (p : Children Work) (l l' : list (Child Work)) :
  Forall2 (tidied p) l l' -> children_weight l' = children_weight l.
Proof.
  unfold children_weight. induction 1 as [|c c' l l' Hc Hl IH]; [done|]. cbn. rewrite IH. f_equal.
  destruct Hc as [->|(_&Hch&Hd&->)]; [done|]. unfold child_weight. simpl. by rewrite Hch, done_weight.
Qed.

Lemma tidied_same (p : Children Work) (l l' : list (Child Work)) :
  Forall2 (tidied p) l l' -> Forall2 same_child l l'.
Proof.
  intros Ht. eapply Forall2_impl; [exact Ht|]. by intros c c' [->|(_&_&_&->)]; split; [| apply shape_refl| |apply shape_refl].
Qed.

Lemma tidied_works (p : Children Work) (P : Work -> Prop) (l l' : list (Child Work)) :
  Forall2 (tidied p) l l' -> Forall (fun c => P (c_work c)) l -> Forall (fun c => P (c_work c)) l'.
Proof.
  induction 1 as [|c c' l l' Hc Hl IH]; [done|]. intros [Hp Hpl]%Forall_cons. constructor; [|by apply IH].
  by destruct Hc as [->|(_&_&_&->)].
Qed.

Lemma sum_insert {A} (f : A -> nat) (l : list A) (i : nat) (x y : A) :
  l !! i = Some x -> sum (f <$> <[i := y]> l) + f x = sum (f <$> l) + f y.
Proof.
  revert i. induction l as [|z l IH]; intros [|i] Hx; simplify_eq/=; [lia|]. specialize (IH i Hx). lia.
Qed.

Lemma same_child_refl (l : list (Child Work)) : Forall2 same_child l l.
Proof. induction l; constructor; [split; [done|apply shape_refl]|done]. Qed.

Lemma same_child_trans (l1 l2 l3 : list (Child Work)) :
  Forall2 same_child l1 l2 -> Forall2 same_child l2 l3 -> Forall2 same_child l1 l3.
Proof.
  intros H12. revert l3. induction H12 as [|x y l1 l2 [E1 S1] Hl IH]; intros l3 H23; inversion H23 as [|? z ? ? [E2 S2] Hz]; subst;
    constructor; [|by apply IH]. split; [congruence|by eapply shape_trans].
Qed.

Lemma same_child_bounded (k : nat) (l l' : list (Child Work)) :
  Forall2 same_child l l' -> bounded k (c_work <$> l) -> bounded k (c_work <$> l').
Proof.
  induction 1 as [|c c' l l' Hc Hl IH]; [done|]. rewrite !fmap_cons. intros [Hk Hkl]%Forall_cons.
  constructor; [|by apply IH]. destruct Hc as [_ (_&_&_&?)]. lia.
Qed.

Lemma same_child_names (l l' : list (Child Work)) : Forall2 same_child l l' -> c_name <$> l' = c_name <$> l.
Proof. induction 1 as [|c c' l l' [Hc _] Hl IH]; [done|]. rewrite !fmap_cons. congruence. Qed.

(** The crank of one child. *)
Lemma crank_child (p : Children Work) (i : nat) (c : Child Work) (w' : Work) :
  mAdded p !! i = Some c -> c_child c = true -> cranked (c_work c) w' ->
  Forall2 same_child (mAdded p) (<[i := with_work w' c]> (mAdded p)) /\
  children_weight (<[i := with_work w' c]> (mAdded p)) < children_weight (mAdded p).
Proof.
  intros Hi Hc (Hw&Hs&Hlt&_). split.
  - rewrite <- (list_insert_id (mAdded p) i c Hi) at 1. apply Forall2_insert; [apply same_child_refl|]. by split.
  - unfold children_weight. pose proof (sum_insert child_weight (mAdded p) i c (with_work w' c) Hi) as Hsum.
    unfold child_weight at 2 4 in Hsum. simpl in Hsum. rewrite Hc in Hsum. lia.
Qed.
End crank.
