(* ===== verification/WorkAbort.v ===== *)
(** * Aborting trees of works

    The abort of the children of a [Work], one crank at a time, and the shutdown
    of a tree: both keep works well-formed and lower what is left to do. *)
From stdpp Require Import base tactics list numbers sets.
From Stdlib Require Import ZArith Lia Bool.
From S2P Require Import Prelude Work WorkTheorems WorkCrank.

Open Scope nat_scope.
Open Scope kin_scope.

Section abort.
Context {L : Type} `{TaskLaws L}.
#[local] Notation Work := (@Work L).

Lemma in_children (p : Children Work) (w : Work) :
  w ∈ children p <-> exists c, c ∈ mAdded p /\ c_child c = true /\ c_work c = w.
Proof.
  unfold children. rewrite list_elem_of_fmap. setoid_rewrite list_elem_of_filter. naive_solver.
Qed.

Lemma children_forallb (f : Work -> bool) (p : Children Work) :
  forallb f (children p) = true <-> Forall (fun c => c_child c = true -> f (c_work c) = true) (mAdded p).
Proof.
  rewrite forallb_true, !Forall_forall. setoid_rewrite in_children. naive_solver.
Qed.

Lemma children_existsb (f : Work -> bool) (p : Children Work) :
  existsb f (children p) = true <-> Exists (fun c => c_child c = true /\ f (c_work c) = true) (mAdded p).
Proof.
  rewrite existsb_true, Exists_exists. setoid_rewrite in_children. naive_solver.
Qed.

Lemma runs_true (c : Child Work) :
  runs c = true <-> c_child c = true /\ getState (c_work c) = WORK_RUNNING.
Proof. unfold runs. by rewrite andb_true_iff, bool_decide_eq_true. Qed.

Lemma not_done_getState (w : Work) : getState w = WORK_RUNNING -> isDone w = false.
Proof. unfold getState, isDone. by destruct (state w). Qed.

(** ** [onAbort] *)

(** What is left of the abort of the children. *)
Definition abort_left (p : Children Work) : nat := 3 * children_weight (mAdded p) + turn_to_search p.

Definition children_wf (p : Children Work) : Prop := Forall (fun c => wf (c_work c)) (mAdded p).

Lemma tidied_aborting (p p' : Children Work) :
  Forall2 (tidied p) (mAdded p) (mAdded p') -> aborting_ok p -> aborting_ok p'.
Proof.
  unfold aborting_ok. generalize (mAdded p). intros l Ht Hp.
  induction Ht as [|c c' l l' Hc Hl IH]; [constructor|]. apply Forall_cons in Hp as [Hp Hpl].
  constructor; [|by apply IH]. destruct Hc as [->|(_&_&Hd&->)]; [done|]. by left.
Qed.

Lemma children_onAbort_ok (k : nat) (crank : Work -> wk Work) (p : Children Work) :
  cranks k crank -> children_wf p -> bounded k (c_work <$> mAdded p) -> aborting_ok p ->
  exists d p', children_onAbort crank p = Ok (d, p') /\ Forall2 same_child (mAdded p) (mAdded p') /\
    children_wf p' /\ aborting_ok p' /\ mAbortChildrenButNotSelf p' = mAbortChildrenButNotSelf p /\
    (d = true -> Forall (fun c => isDone (c_work c) = true) (mAdded p')) /\
    (d = false -> abort_left p' < abort_left p).
Proof.
  intros Hc Hw Hk Ha. unfold children_onAbort. pose proof (yield_ok p) as Hy.
  destruct (yieldNextRunningChild p) as [r p1]. destruct Hy as (Ht&Hf&Hr).
  pose proof (tidied_same _ _ _ Ht) as Hs1. pose proof (tidied_aborting _ _ Ht Ha) as Ha1.
  assert (children_wf p1) as Hw1 by (by eapply tidied_works).
  pose proof (tidied_weight _ _ _ Ht) as Hwt. pose proof (same_child_bounded _ _ _ Hs1 Hk) as Hk1.
  destruct r as [i|].
  - destruct Hr as (c&Hi&Hi1&Hah&Hrun&_&_). apply runs_true in Hrun as [Hch Hg].
    pose proof (not_done_getState _ Hg) as Hnd.
    assert (state (c_work c) = ABORTING) as Hst.
    { destruct (Forall_lookup_1 _ _ _ _ Ha1 Hi1) as [?|[_ ?]]; [congruence|done]. }
    destruct (Hc (c_work c)) as (w'&Hcw&Hcr).
    { split; [by apply (Forall_lookup_1 _ _ _ _ Hw1 Hi1)|by right]. }
    { apply (Forall_lookup_1 _ _ i _ Hk1). by rewrite list_lookup_fmap, Hi1. }
    destruct (crank_child p1 i c w' Hi1 Hch Hcr) as [Hs2 Hlt]. destruct Hcr as (Hww&_&_&Hu). rewrite Hst in Hu.
    rewrite (update_at_ok _ (mAdded p1) i c (with_work w' c) Hi1).
    2: { unfold on_work, isAborting. rewrite bool_decide_true by done. cbn [ensure res_bind]. by rewrite Hcw. }
    cbn [res_bind]. do 2 eexists. split; [done|]. cbn [mAdded mAbortChildrenButNotSelf].
    split; [by eapply same_child_trans|]. split; [by apply Forall_insert|]. split; [|split; [done|split; [done|]]].
    + apply Forall_insert; [done|]. simpl. destruct (under_aborting w' Hu) as [?|[_ ?]]; [by left|by right].
    + intros _. unfold abort_left. cbn [mAdded].
      pose proof (turn_le (mkChildren (<[i:=with_work w' c]> (mAdded p1)) (mNextChild p1) (mAbortChildrenButNotSelf p1))).
      lia.
  - destruct Hr as [Ht1 Hnx]. do 2 eexists. split; [done|]. split; [done|]. split; [done|]. split; [done|]. split; [done|].
    unfold allDone. split.
    + intros Hd%children_forallb. eapply Forall_impl; [exact (proj2 (Forall_and _ _) (conj Ha1 Hd))|].
      intros c [[?|[Hch _]] Hcd]; [done|by apply Hcd].
    + intros Hd. assert (Exists (fun c => runs c = true) (mAdded p1)) as (c&Hin&Hrun)%Exists_exists.
      { apply not_true_iff_false in Hd. rewrite children_forallb in Hd.
        clear -Hd Ha1. unfold aborting_ok in Ha1. induction Ha1 as [|c l Hc Hl IH]; [by destruct Hd|].
        destruct (isDone (c_work c)) eqn:E; [|destruct Hc as [?|[Hch Hs]]; [done|]].
        - right. apply IH. intros Hall. apply Hd. by constructor.
        - left. apply runs_true. unfold getState. by rewrite Hs. }
      unfold abort_left. rewrite (begin_turn p1 c) by done. lia.
Qed.
(** ** [shutdown] *)

Definition shut (w w' : Work) : Prop :=
  wf w' /\ same_shape w w' /\ state w' = ABORTING /\ weight w' <= weight w.

Definition shut_child (c c' : Child Work) : Prop :=
  c' = c /\ (c_child c = true -> isDone (c_work c) = true) \/
  c_child c = true /\ exists w', c' = with_work w' c /\ shut (c_work c) w'.

Lemma shut_same (l l' : list (Child Work)) : Forall2 shut_child l l' -> Forall2 same_child l l'.
Proof.
  intros Hs. eapply Forall2_impl; [exact Hs|].
  intros c c' [[-> _]|(_&w'&->&_&Hsh&_)]; split; [done|apply shape_refl|done|done].
Qed.

Lemma shut_wf (l l' : list (Child Work)) :
  Forall2 shut_child l l' -> Forall (fun c => wf (c_work c)) l -> Forall (fun c => wf (c_work c)) l'.
Proof.
  induction 1 as [|c c' l l' Hc Hl IH]; [done|]. intros [Hw Hwl]%Forall_cons. constructor; [|by apply IH].
  destruct Hc as [[-> _]|(_&w'&->&Hw'&_)]; done.
Qed.

Lemma shut_weight (l l' : list (Child Work)) :
  Forall2 shut_child l l' -> children_weight l' <= children_weight l.
Proof.
  unfold children_weight. induction 1 as [|c c' l l' Hc Hl IH]; [done|]. cbn.
  enough (child_weight c' <= child_weight c) by lia.
  destruct Hc as [[-> _]|(Hch&w'&->&_&_&_&Hle)]; [done|]. unfold child_weight. simpl. by rewrite Hch.
Qed.

Lemma shut_aborting (l l' : list (Child Work)) :
  Forall2 shut_child l l' -> Forall (fun c => c_child c = false -> isDone (c_work c) = true) l ->
  Forall (fun c => isDone (c_work c) = true \/ c_child c = true /\ state (c_work c) = ABORTING) l'.
Proof.
  induction 1 as [|c c' l l' Hc Hl IH]; [constructor|]. intros [Hd Hdl]%Forall_cons. constructor; [|by apply IH].
  destruct Hc as [[-> Hcd]|(Hch&w'&->&_&_&Hst&_)]; [left; destruct (c_child c); auto|by right].
Qed.

Lemma shut_runs (l l' : list (Child Work)) :
  Forall2 shut_child l l' -> existsb runs l = true -> existsb runs l' = true.
Proof.
  induction 1 as [|c c' l l' Hc Hl IH]; [done|]. simpl. rewrite !orb_true_iff. intros [Hr|Hr]; [left|right; by apply IH].
  apply runs_true in Hr as [Hch Hg]. apply runs_true.
  destruct Hc as [[-> _]|(_&w'&->&_&_&Hst&_)]; [done|]. split; [done|]. unfold getState. simpl. by rewrite Hst.
Qed.

Lemma shutdownChildren_ok (f : Work -> wk Work) (p : Children Work) :
  Forall (fun c => isDone (c_work c) = false -> exists w', f (c_work c) = Ok w' /\ shut (c_work c) w') (mAdded p) ->
  exists p', shutdownChildren f p = Ok p' /\ Forall2 shut_child (mAdded p) (mAdded p') /\
    mNextChild p' = mNextChild p /\ mAbortChildrenButNotSelf p' = mAbortChildrenButNotSelf p.
Proof.
  intros Hf. unfold shutdownChildren. match goal with |- context [map_wk ?g _] => destruct (map_wk_ok _ shut_child g (mAdded p) Hf) as (l'&Hl&Hs) end.
  2: { rewrite Hl. eexists. split; [done|]. done. }
  intros c Hc. simpl in Hc. destruct (c_child c) eqn:Ech; cbn [andb].
  2: { exists c. split; [done|]. left. by rewrite Ech. }
  destruct (isDone (c_work c)) eqn:Ed; cbn [negb].
  { exists c. split; [done|]. by left. }
  destruct (Hc eq_refl) as (w'&Hw&Hs). exists (with_work w' c). unfold on_work. rewrite Hw. split; [done|].
  right. split; [done|]. by exists w'.
Qed.

Lemma shut_turn (p p' : Children Work) :
  Forall2 shut_child (mAdded p) (mAdded p') -> mNextChild p' = mNextChild p -> turn_to_search p' <= turn_to_search p.
Proof.
  intros Hs Hn. unfold turn_to_search, ahead. rewrite Hn. destruct (mNextChild p) as [n|]; [|done].
  destruct (existsb runs (drop n (mAdded p))) eqn:E.
  - apply (shut_runs _ (drop n (mAdded p'))) in E; [by rewrite E|]. by apply Forall2_drop.
  - repeat case_match; lia.
Qed.

Lemma erased_done b (p : Children Work) ys rest :
  basic_ok b -> batch_ok b p ys rest -> Forall (fun c => c_child c = false -> isDone (c_work c) = true) (mAdded p).
Proof.
  intros Hb0 [_ _ _ _ Hi Hf Hs Hr Ha].
  assert (mAdded p = [] \/ running_ok (mState b) p \/ aborting_ok p \/
    Forall (fun c => state (c_work c) = SUCCESS /\ c_child c = false) (mAdded p)) as Hc.
  { destruct (mState b) eqn:Hb.
    - left. apply Hi; [left; left|]; congruence.
    - destruct (mAbortChildrenButNotSelf p) eqn:E; [right; right; left; apply Ha; by right|right; left; apply Hr; by right].
    - destruct (mRetryTimer b) eqn:Et; [left; apply Hi; [by right|congruence]|]. right; left. apply Hr. left. by split.
    - right; right; left. apply Ha. by left.
    - left. apply Hi; [left; right; by rewrite Hb|congruence].
    - by destruct (bo_settled b Hb0).
    - right; right; right. by apply Hs.
    - left. apply Hi; [left; right; by rewrite Hb|congruence]. }
  destruct Hc as [->|[Hc|[Hc|Hc]]]; [constructor| | |].
  - eapply Forall_impl; [apply Hc|]. intros c Hs' Hch. apply finished_done. left. by apply Hs'.
  - eapply Forall_impl; [exact Hc|]. intros c [?|[? _]] ?; [done|congruence].
  - eapply Forall_impl; [exact Hc|]. intros c [? _] ?. apply finished_done. by left.
Qed.
Lemma basic_shutdown_ok (w0 w : Work) :
  basic_ok (basic w) -> isDone w0 = false -> basic w = basic w0 -> same_shape w0 w ->
  (basic_ok (with_state ABORTING (basic w)) -> wf (put_state ABORTING w)) -> abort_weight w <= weight w0 ->
  exists w', basic_shutdown w = Ok w' /\ shut w0 w'.
Proof.
  intros Hb Hd Hbw Hsh Hwf Hle. exists (put_state ABORTING w).
  assert (state w = state w0) as Hs by (unfold state; by rewrite Hbw).
  unfold basic_shutdown. assert (isDone w = false) as -> by (unfold isDone; by rewrite Hs). split.
  - apply setState_plain. unfold isDone in Hd. pose proof (bo_settled _ Hb) as Hr. change (mState (basic w)) with (state w) in Hr. rewrite <- Hs in Hd.
    by destruct (state w).
  - split; [|split; [|split]].
    + apply Hwf. destruct Hb as [H1 _ _ _]. split; simpl; auto; done.
    + apply shape_set; [done|by rewrite Hbw].
    + apply state_put.
    + rewrite weight_eq, state_put. replace (abort_weight (put_state ABORTING w)) with (abort_weight w) by (by destruct w). done.
Qed.

Lemma abort_cost_pos (w : Work) : 1 <= abort_cost w.
Proof. destruct w; simpl; lia. Qed.

Lemma not_done_cases (w : Work) :
  isDone w = false -> basic_ok (basic w) ->
  state w = PENDING \/ state w = RUNNING \/ state w = WAITING \/ state w = ABORTING.
Proof.
  unfold isDone. intros Hd Hb. pose proof (bo_settled _ Hb) as Hr. unfold state in *. destruct (mState (basic w)); auto; done.
Qed.

(** The weight of a work that is shut down. *)
Lemma weight_abort_le (w0 : Work) (x : nat) :
  isDone w0 = false -> basic_ok (basic w0) ->
  (state w0 = ABORTING -> x <= abort_weight w0) ->
  (state w0 = RUNNING \/ waits (basic w0) -> x <= left w0 + abort_cost w0) ->
  (idle_state (basic w0) -> x <= abort_cost w0) -> x <= weight w0.
Proof.
  intros Hd Hb Ha Hr Hi. rewrite weight_eq. unfold reserve, total.
  destruct (not_done_cases w0 Hd Hb) as [Hs|[Hs|[Hs|Hs]]]; rewrite Hs.
  - specialize (Hi (or_introl (or_introl Hs))). weigh.
  - specialize (Hr (or_introl Hs)). weigh.
  - destruct (mRetryTimer (basic w0)) eqn:Et.
    + specialize (Hi (or_intror (conj Hs Et))). weigh.
    + specialize (Hr (or_intror (conj Hs Et))). weigh.
  - by apply Ha.
Qed.

(** A sequence whose current work has been shut down. *)
Lemma shut_sequence b (ws : list Work) n cur stop ws' :
  wf (WorkSequence b ws n cur stop) -> done_state (mState b) = false ->
  Forall wf ws' -> Forall2 same_shape ws ws' ->
  (if cur then exists c c', ws !! n = Some c /\ ws' = <[n := c']> ws /\ weight c' <= weight c /\
    (isDone c' = true \/ state c' = ABORTING) else ws' = ws) ->
  exists w', basic_shutdown (WorkSequence b ws' n cur stop) = Ok w' /\ shut (WorkSequence b ws n cur stop) w'.
Proof.
  intros Hw Hd Hws' Hsh Hc. inversion Hw as [|? ? ? ? ? Hbo Hws Hso|]; subst.
  apply basic_shutdown_ok; [done|done|done|by apply shape_sequence|..].
  - intros Hbo'. constructor; [done|done|]. destruct Hso as [H1 H2 H3 H4 H5 H6]. destruct cur.
    + destruct Hc as (c&c'&Hn&->&_&Hc'). split; try done.
      * by rewrite take_insert_ge.
      * by rewrite drop_insert_lt by lia.
      * intros _. exists c'. rewrite list_lookup_insert_eq by (by eapply lookup_lt_Some). split; [done|].
        simpl. destruct Hc' as [Hc'|Hc']; [by right|by left].
      * intros [[?|?]|[? _]]; done.
    + subst ws'. split; try done. by intros [? _].
  - apply weight_abort_le; [done|done|..].
    + intros _. simpl. destruct cur; [|lia]. destruct Hc as (c&c'&Hn&->&Hle&_).
      rewrite (sum_at weight ws n c), (sum_at weight _ n c') by (by rewrite ?list_lookup_insert_eq by (by eapply lookup_lt_Some)).
      lia.
    + intros _. rewrite left_sequence. simpl. destruct cur; [|lia]. destruct Hc as (c&c'&Hn&->&Hle&_).
      rewrite (sum_at weight _ n c') by (by rewrite ?list_lookup_insert_eq by (by eapply lookup_lt_Some)).
      rewrite (drop_S _ c) by done. cbn [sequence_left]. lia.
    + intros Hi. rewrite (so_idle _ _ _ _ Hso Hi). simpl. lia.
Qed.

(** A batch whose children have been shut down. *)
Lemma shut_batch b (p p' : Children Work) ys rest :
  wf (BatchWork b p ys rest) -> done_state (mState b) = false ->
  Forall2 shut_child (mAdded p) (mAdded p') -> mNextChild p' = mNextChild p ->
  exists w', basic_shutdown (BatchWork b p' ys rest) = Ok w' /\ shut (BatchWork b p ys rest) w'.
Proof.
  intros Hw Hd Hs Hn. inversion Hw as [| |? ? ? ? Hbo Hp Hys Hk]; subst.
  pose proof (shut_weight _ _ Hs) as Hwt. pose proof (shut_turn _ _ Hs Hn) as Htn. pose proof (turn_le p') as Ht1.
  pose proof (shut_same _ _ Hs) as Hsame. unfold children_weight in Hwt.
  apply basic_shutdown_ok; [done|done|done| | |].
  - split_and!; [done..|]. rewrite !height_batch.
    enough (foldr Nat.max 0 ((fun c => height (c_work c)) <$> mAdded p') <= foldr Nat.max 0 ((fun c => height (c_work c)) <$> mAdded p)) by lia.
    rewrite (bounded_max _ c_work). eapply same_child_bounded; [done|]. by rewrite <- (bounded_max _ c_work).
  - intros Hbo'. constructor; [done|by eapply shut_wf|done|]. pose proof (erased_done _ _ _ _ Hbo Hk) as He.
    destruct Hk as [H1 H2 H3 H4 _ _ _ _ _]. split; try done.
    + by rewrite (same_child_names _ _ Hsame).
    + intros [[?|?]|[? _]]; done.
    + intros [[? _]|[? _]]; done.
    + intros _. by eapply shut_aborting.
  - apply weight_abort_le; [done|done|..].
    + intros _. simpl. lia.
    + intros _. cbn -[Nat.mul]. lia.
    + intros Hi. rewrite (bk_idle _ _ _ _ Hk Hi) in Hwt by (intros E; by rewrite E in Hd). simpl in Hwt. simpl. lia.
Qed.

Lemma shutdown_ok (w : Work) :
  wf w -> exists w', shutdown w = Ok w' /\ if isDone w then w' = w else shut w w'.
Proof.
  induction w as [b x|b ws n cur stop IH|b p ys rest IH _ _] using Work_tree_ind; intros Hw.
  - inversion Hw as [? ? Hbo| |]; subst. simpl. destruct (isDone _) eqn:Ed.
    { unfold basic_shutdown. rewrite Ed. by eexists. }
    apply basic_shutdown_ok; [done|done|done|apply shape_refl|by constructor|].
    pose proof (aborts_limit x). apply weight_abort_le; [done|done|..]; intros; simpl; lia.
  - inversion Hw as [|? ? ? ? ? Hbo Hws Hso|]; subst. simpl. destruct (isDone (WorkSequence b ws n cur stop)) eqn:Ed.
    { rewrite (so_idle _ _ _ _ Hso) by (left; by right). cbn [res_bind]. unfold basic_shutdown.
      rewrite (so_idle _ _ _ _ Hso) in Ed by (left; by right). rewrite Ed. by eexists. }
    destruct cur; cbn [res_bind]; [|apply shut_sequence; [done|done|done|apply shape_refl_list|done]].
    destruct (so_cur _ _ _ _ Hso eq_refl) as (c&Hn&_). pose proof (Forall_lookup_1 _ _ _ _ Hws Hn) as Hwc.
    destruct (Forall_lookup_1 _ _ _ _ IH Hn Hwc) as (c'&Hsc&Hc').
    rewrite (update_at_ok shutdown ws n c c') by done. cbn [res_bind].
    assert (wf c' /\ same_shape c c' /\ weight c' <= weight c /\ (isDone c' = true \/ state c' = ABORTING)) as (Hw'&Hsh'&Hle&Hd').
    { destruct (isDone c) eqn:Edc; [subst c'; split_and!; [done|apply shape_refl|done|by left]|].
      destruct Hc' as (?&?&?&?). by split_and!; auto. }
    apply shut_sequence; [done|done|by apply Forall_insert|by eapply shape_insert|]. by exists c, c'.
  - inversion Hw as [| |? ? ? ? Hbo Hp Hys Hk]; subst. simpl.
    destruct (shutdownChildren_ok shutdown p) as (p'&Hsp&Hs&Hn&Hfl).
    { eapply Forall_impl; [exact (proj2 (Forall_and _ _) (conj IH Hp))|]. intros c [Hc Hwc] Hd.
      destruct (Hc Hwc) as (w'&?&Hw'). rewrite Hd in Hw'. by exists w'. }
    rewrite Hsp. cbn [res_bind]. destruct (isDone (BatchWork b p ys rest)) eqn:Ed; [|by apply shut_batch].
    assert (mAdded p' = mAdded p) as Ha.
    { destruct (decide (mState b = SUCCESS)) as [Es|Es].
      - destruct (bk_success _ _ _ _ Hk Es) as [_ Hall]. clear -Hs Hall.
        induction Hs as [|c c' l l' Hc Hl IH]; [done|]. apply Forall_cons in Hall as [[_ Hch] Hall].
        rewrite IH by done. destruct Hc as [[-> _]|[? _]]; [done|congruence].
      - assert (mAdded p = []) as E by (apply (bk_idle _ _ _ _ Hk); [left; by right|done]).
        rewrite E in Hs |- *. by inversion Hs. }
    replace p' with p by (destruct p, p'; simpl in *; congruence).
    unfold basic_shutdown. rewrite Ed. by eexists.
Qed.
End abort.
