(* ===== verification/WorkBatch.v ===== *)
(** * Cranking batches, and every work

    A batch starts the works it yields, cranks them in turns, and ends when all
    have succeeded or one has failed; with what is known of tasks and sequences,
    every crank of a tree of works ends well. *)
From stdpp Require Import base tactics list numbers sets.
From Stdlib Require Import ZArith Lia Bool.
From S2P Require Import Prelude Work WorkTheorems WorkCrank WorkAbort.

Open Scope nat_scope.
Open Scope kin_scope.

Section batch.
Context {L : Type} `{TaskLaws L}.
#[local] Notation Work := (@Work L).

Lemma shape_batch b b' (p p' : Children Work) ys rest rest' :
  mMaxRetries b' = mMaxRetries b ->
  (forall k, bounded k (c_work <$> mAdded p) -> bounded k (snd <$> rest) ->
    bounded k (c_work <$> mAdded p') /\ bounded k (snd <$> rest')) ->
  same_shape (BatchWork b p ys rest) (BatchWork b' p' ys rest').
Proof.
  intros Hm Hk. split_and!; [done|done|done|].
  destruct (height (BatchWork b p ys rest)) as [|k] eqn:E; [done|].
  assert (height (BatchWork b p ys rest) <= S k) as (H1&H2&H3)%height_batch_le by lia.
  apply height_batch_le. destruct (Hk k H1 H3). done.
Qed.

Lemma shape_batch_same b b' (p p' : Children Work) ys rest :
  mMaxRetries b' = mMaxRetries b -> Forall2 same_child (mAdded p) (mAdded p') ->
  same_shape (BatchWork b p ys rest) (BatchWork b' p' ys rest).
Proof. intros Hm Hs. apply shape_batch; [done|]. intros k H1 H2. split; [by eapply same_child_bounded|done]. Qed.

(** ** Adding works *)

(** Every child is from [mNextChild] on. *)
Definition all_ahead (p : Children Work) : Prop :=
  Forall (fun c => c_child c = true -> c ∈ ahead p) (mAdded p).

Lemma no_children_Forall (l : list (Child Work)) : hasChildren l = false <-> Forall (fun c => c_child c = false) l.
Proof.
  unfold hasChildren. rewrite <- not_true_iff_false, existsb_true, Forall_forall. split.
  - intros Hn c Hc. apply not_true_iff_false. intros E. apply Hn. by exists c.
  - intros Hn (c&Hc&E). specialize (Hn c Hc). congruence.
Qed.

Lemma all_ahead_begin (p : Children Work) : mNextChild p = begin_of (mAdded p) -> all_ahead p.
Proof.
  intros Hn. unfold all_ahead, ahead. rewrite Hn. unfold begin_of. destruct (hasChildren (mAdded p)) eqn:E.
  - rewrite drop_0. apply Forall_forall. auto.
  - apply no_children_Forall in E. eapply Forall_impl; [exact E|]. intros c Hc. congruence.
Qed.

Lemma all_ahead_turn (p : Children Work) (c : Child Work) :
  all_ahead p -> c ∈ mAdded p -> runs c = true -> turn_to_search p = 0.
Proof.
  intros Ha Hc Hr. unfold turn_to_search. rewrite (proj2 (existsb_true runs (ahead p))); [done|].
  exists c. split; [|done]. unfold all_ahead in Ha. rewrite Forall_forall in Ha. apply Ha; [done|]. by apply runs_true in Hr as [? _].
Qed.

Lemma all_ahead_add (p : Children Work) (name : nat) (w : Work) (batch : bool) :
  all_ahead p -> all_ahead (addChild name w batch p).
Proof.
  intros Ha. unfold all_ahead, addChild. cbn [mAdded]. destruct (hasChildren (mAdded p)) eqn:E.
  - apply existsb_true in E as (c0&Hin0&Hc0).
    assert (exists n, mNextChild p = Some n /\ n <= length (mAdded p)) as (n&Hn&Hle).
    { unfold all_ahead in Ha. rewrite Forall_forall in Ha. specialize (Ha c0 Hin0 Hc0). unfold ahead in Ha.
      destruct (mNextChild p) as [n|]; [|by apply not_elem_of_nil in Ha]. exists n. split; [done|].
      destruct (decide (n <= length (mAdded p))); [done|]. rewrite drop_ge in Ha by lia. by apply not_elem_of_nil in Ha. }
    unfold all_ahead, ahead in *. cbn [mNextChild mAdded]. rewrite Hn in *. rewrite drop_app_le by done.
    apply Forall_app. split; [eapply Forall_impl; [exact Ha|]; set_solver|]. constructor; [set_solver|done].
  - unfold ahead. cbn [mNextChild mAdded]. rewrite drop_app_length. apply no_children_Forall in E.
    apply Forall_app. split; [eapply Forall_impl; [exact E|]; intros; congruence|]. constructor; [set_solver|done].
Qed.

(** A yielded work that has been added. *)
Definition began (y : nat * Work) (c : Child Work) : Prop :=
  c_name c = fst y /\ c_child c = true /\ c_batch c = true /\ wf (c_work c) /\ same_shape (snd y) (c_work c) /\
  state (c_work c) = RUNNING /\ weight (c_work c) < total (snd y).

Record grown (N : nat) (p p' : Children Work) (rest rest' : list (nat * Work)) : Prop := {
  gr_flag : mAbortChildrenButNotSelf p' = mAbortChildrenButNotSelf p;
  gr_ahead : all_ahead p';
  gr_new : exists taken new, rest = taken ++ rest' /\ mAdded p' = mAdded p ++ new /\ Forall2 began taken new;
  gr_full : rest' <> [] -> N <= getNumWorksInBatch (mAdded p');
}.

Lemma addMoreWork_ok (N : nat) (rest : list (nat * Work)) (p : Children Work) :
  Forall (fun y => wf (snd y)) rest -> Forall (fun y => state (snd y) = PENDING) rest ->
  NoDup ((c_name <$> mAdded p) ++ (fst <$> rest)) -> all_ahead p ->
  exists p' rest', addMoreWork N rest p = Ok (p', rest') /\ grown N p p' rest rest'.
Proof.
  revert p. induction rest as [|[name w] rest IH]; intros p Hw Hp Hnd Ha; simpl.
  { exists p, []. split; [done|]. split; [done|done| |done]. exists [], []. split; [done|split; [by rewrite app_nil_r|constructor]]. }
  apply Forall_cons in Hw as [Hww Hw], Hp as [Hwp Hp]. simpl in Hww, Hwp.
  destruct (Nat.ltb_spec (getNumWorksInBatch (mAdded p)) N) as [Hlt|Hge].
  2: { exists p, ((name, w) :: rest). split; [done|]. split; [done|done| |done]. exists [], []. split; [done|split; [by rewrite app_nil_r|constructor]]. }
  destruct (startWork_ok w Hww) as (w'&Hs&Hw'&Hsh&Hst&Hlt'); [by left|]. rewrite Hs. cbn [res_bind].
  assert (existsb (fun c => c_batch c && (c_name c =? name)) (mAdded p) = false) as ->.
  { apply not_true_iff_false. rewrite existsb_true. intros (c&Hc&[_ Hn%Nat.eqb_eq]%andb_true_iff).
    apply NoDup_app in Hnd as (_&Hnd&_). apply (Hnd name); [|by left]. apply list_elem_of_fmap. by exists c. }
  cbn [negb ensure res_bind]. edestruct (IH (addChild name w' true p)) as (p'&rest'&Hadd&Hg); [done|done| |by apply all_ahead_add|].
  { cbn [addChild mAdded]. rewrite fmap_app, <- app_assoc. exact Hnd. }
  rewrite Hadd. exists p', rest'. split; [done|]. destruct Hg as [G1 G2 (taken&new&->&G3&G4) G5].
  split; [done|done| |done]. exists ((name, w) :: taken), (mkChild name w' true true :: new).
  split; [done|]. split; [rewrite G3; cbn [addChild mAdded]; by rewrite <- app_assoc|]. constructor; [|done].
  by split_and!.
Qed.

Lemma began_weight (taken : list (nat * Work)) (new : list (Child Work)) :
  Forall2 began taken new -> children_weight new <= sum ((fun y => total (snd y)) <$> taken).
Proof.
  unfold children_weight. induction 1 as [|y c taken new Hc Hl IH]; [done|]. cbn -[total].
  destruct Hc as (_&Hch&_&_&_&_&Hlt). unfold child_weight at 1. rewrite Hch. lia.
Qed.

Lemma began_bounded (k : nat) (taken : list (nat * Work)) (new : list (Child Work)) :
  Forall2 began taken new -> bounded k (snd <$> taken) -> bounded k (c_work <$> new).
Proof.
  induction 1 as [|y c taken new Hc Hl IH]; [done|]. rewrite !fmap_cons. intros [Hk Hkl]%Forall_cons.
  constructor; [|by apply IH]. destruct Hc as (_&_&_&_&(_&_&_&?)&_). lia.
Qed.

Lemma began_names (taken : list (nat * Work)) (new : list (Child Work)) :
  Forall2 began taken new -> c_name <$> new = fst <$> taken.
Proof. induction 1 as [|y c taken new [Hc _] Hl IH]; [done|]. rewrite !fmap_cons. congruence. Qed.

Lemma began_Forall (P : Child Work -> Prop) (taken : list (nat * Work)) (new : list (Child Work)) :
  Forall2 began taken new ->
  (forall c, c_child c = true -> c_batch c = true -> wf (c_work c) -> state (c_work c) = RUNNING -> P c) -> Forall P new.
Proof. intros Hb Hp. induction Hb as [|y c taken new (?&?&?&?&?&?&?) Hl IH]; constructor; auto. Qed.
(** ** [onRun] *)

Definition batch_left (p : Children Work) (rest : list (nat * Work)) : nat :=
  3 * (children_weight (mAdded p) + sum ((fun y => total (snd y)) <$> rest)) + turn_to_search p.

(** What is known of the children after [onRun] says [s]. *)
Record batch_ran (s : State) (p p' : Children Work) (rest rest' : list (nat * Work)) : Prop := {
  br_wf : children_wf p';
  br_names : (c_name <$> mAdded p') ++ (fst <$> rest') = (c_name <$> mAdded p) ++ (fst <$> rest);
  br_suffix : exists l, rest = l ++ rest';
  br_bounded : forall k, bounded k (c_work <$> mAdded p) -> bounded k (snd <$> rest) ->
    bounded k (c_work <$> mAdded p') /\ bounded k (snd <$> rest');
  br_not_aborted : s <> WORK_ABORTED;
  br_failure : s = WORK_FAILURE -> Forall (fun c => isDone (c_work c) = true) (mAdded p');
  br_success : s = WORK_SUCCESS -> rest' = [] /\
    Forall (fun c => state (c_work c) = SUCCESS /\ c_child c = false) (mAdded p');
  br_running : s = WORK_RUNNING -> mAbortChildrenButNotSelf p' = false -> running_ok RUNNING p';
  br_waiting : s = WORK_WAITING -> mAbortChildrenButNotSelf p' = false /\ running_ok WAITING p';
  br_aborting : s = WORK_RUNNING -> mAbortChildrenButNotSelf p' = true -> aborting_ok p';
  br_runs : s = WORK_RUNNING -> batch_left p' rest' < batch_left p rest;
  br_waits : s = WORK_WAITING -> batch_left p' rest' <= batch_left p rest;
}.

(** When the works below have been only cranked, erased or aborted. *)
Lemma same_batch_ran (s : State) (p p' : Children Work) (rest : list (nat * Work)) :
  Forall2 same_child (mAdded p) (mAdded p') -> children_wf p' -> s = WORK_RUNNING \/ s = WORK_FAILURE ->
  (s = WORK_FAILURE -> Forall (fun c => isDone (c_work c) = true) (mAdded p')) ->
  (s = WORK_RUNNING -> mAbortChildrenButNotSelf p' = false -> running_ok RUNNING p') ->
  (s = WORK_RUNNING -> mAbortChildrenButNotSelf p' = true -> aborting_ok p') ->
  (s = WORK_RUNNING -> batch_left p' rest < batch_left p rest) ->
  batch_ran s p p' rest rest.
Proof.
  intros Hs Hw Hc Hf Hr Ha Hl. split; try done; try (by destruct Hc as [-> | ->]).
  - by rewrite (same_child_names _ _ Hs).
  - by exists [].
  - intros k H1 H2. split; [by eapply same_child_bounded|done].
Qed.

Lemma tidied_Forall (p : Children Work) (P : Child Work -> Prop) (l l' : list (Child Work)) :
  Forall2 (tidied p) l l' -> Forall P l ->
  (forall c, c ∈ ahead p -> c_child c = true -> isDone (c_work c) = true -> P c ->
    P (mkChild (c_name c) (c_work c) false (c_batch c))) -> Forall P l'.
Proof.
  intros Ht Hl Hp. induction Ht as [|c c' l l' Hc Ht IH]; [constructor|]. apply Forall_cons in Hl as [Hpc Hl].
  constructor; [|by apply IH]. destruct Hc as [->|(?&?&?&->)]; auto.
Qed.

(** What holds of each child while the batch runs. *)
Definition child_running (c : Child Work) : Prop :=
  (c_child c = false -> seen c) /\ (c_child c = true -> under RUNNING (state (c_work c))) /\
  (c_batch c = false -> state (c_work c) = SUCCESS).

Lemma running_each (s : InternalState) (p : Children Work) : running_ok s p -> Forall child_running (mAdded p).
Proof. intros [H1 H2 H3 _ _]. unfold child_running. by rewrite !Forall_and. Qed.

Lemma running_build (s : InternalState) (p : Children Work) :
  Forall child_running (mAdded p) ->
  Forall (fun c => c_child c = true -> isDone (c_work c) = true -> seen c) (ahead p) ->
  (s = WAITING -> Forall (fun c => runs c = false) (mAdded p) /\
    Exists (fun c => c_child c = true /\ state (c_work c) = WAITING) (mAdded p)) ->
  running_ok s p.
Proof. unfold child_running. rewrite !Forall_and. intros (H1&H2&H3) H4 H5. by split. Qed.

Lemma tidied_running (s : InternalState) (p p' : Children Work) :
  Forall2 (tidied p) (mAdded p) (mAdded p') -> running_ok s p -> Forall child_running (mAdded p').
Proof.
  intros Ht Hr. eapply tidied_Forall; [exact Ht|by eapply running_each|]. intros c Hin Hch Hd (H1&H2&H3).
  pose proof (ro_ahead _ _ Hr) as Ha. rewrite Forall_forall in Ha. by split_and!; [intros _; apply (Ha c)| |].
Qed.

(** The child whose turn it is. *)
Lemma batch_turn (k : nat) (crank : Work -> wk Work) (p p1 : Children Work) (rest : list (nat * Work)) (i : nat) (c : Child Work) :
  cranks k crank -> children_wf p -> bounded k (c_work <$> mAdded p) -> running_ok RUNNING p ->
  mAbortChildrenButNotSelf p = false ->
  Forall2 (tidied p) (mAdded p) (mAdded p1) -> mAbortChildrenButNotSelf p1 = mAbortChildrenButNotSelf p ->
  mAdded p1 !! i = Some c -> c ∈ ahead p -> runs c = true ->
  mNextChild p1 = Some (S i) \/ mNextChild p1 = None -> Forall (fun c => c ∈ ahead p) (drop (S i) (mAdded p1)) ->
  exists p', (let? added := update_at (on_work crank) i (mAdded p1) in
    Ok (WORK_RUNNING, mkChildren added (mNextChild p1) (mAbortChildrenButNotSelf p1), rest)) =
      Ok (WORK_RUNNING, p', rest) /\ batch_ran WORK_RUNNING p p' rest rest.
Proof.
  intros Hc Hw Hk Hr Hflag Ht Hf Hi1 Hah Hrun Hn Hahead.
  pose proof (tidied_same _ _ _ Ht) as Hs1. pose proof (tidied_running _ _ _ Ht Hr) as Hr1.
  assert (children_wf p1) as Hw1 by (by eapply tidied_works).
  pose proof (tidied_weight _ _ _ Ht) as Hwt. pose proof (same_child_bounded _ _ _ Hs1 Hk) as Hk1.
  apply runs_true in Hrun as [Hch Hg]. destruct (Forall_lookup_1 _ _ _ _ Hr1 Hi1) as (_&Hu&Hb). specialize (Hu Hch).
  assert (state (c_work c) = RUNNING) as Hst.
  { unfold getState in Hg. by destruct Hu as [Hu|[Hu|[Hu|Hu]]]; rewrite Hu in Hg. }
  destruct (Hc (c_work c)) as (w'&Hcw&Hcr).
  { split; [by apply (Forall_lookup_1 _ _ _ _ Hw1 Hi1)|by left]. }
  { apply (Forall_lookup_1 _ _ i _ Hk1). by rewrite list_lookup_fmap, Hi1. }
  destruct (crank_child p1 i c w' Hi1 Hch Hcr) as [Hs2 Hlt]. destruct Hcr as (Hww&_&_&Hu'). rewrite Hst in Hu'.
  rewrite (update_at_ok _ (mAdded p1) i c (with_work w' c) Hi1) by (unfold on_work; by rewrite Hcw).
  cbn [res_bind]. eexists. split; [done|].
  pose proof (turn_le (mkChildren (<[i:=with_work w' c]> (mAdded p1)) (mNextChild p1) (mAbortChildrenButNotSelf p1))).
  apply same_batch_ran; [by eapply same_child_trans|by apply Forall_insert|by left|done| | |unfold batch_left; cbn [mAdded]; lia].
  - intros _ _. apply running_build; [..|done].
    + apply Forall_insert; [done|]. split_and!; simpl; [congruence|done|]. intros E. rewrite (Hb E) in Hst. done.
    + unfold ahead. cbn [mAdded mNextChild]. destruct Hn as [-> | ->]; [|done]. rewrite drop_insert_lt by lia.
      eapply Forall_impl; [exact Hahead|]. intros x Hx. pose proof (ro_ahead _ _ Hr) as Ha. rewrite Forall_forall in Ha. by apply Ha.
  - cbn [mAbortChildrenButNotSelf]. congruence.
Qed.
(** The batch after the works that have succeeded have left it, and others have come. *)
Definition settled (c : Child Work) : Child Work :=
  mkChild (c_name c) (c_work c) (c_child c) (c_batch c && negb (bool_decide (getState (c_work c) = WORK_SUCCESS))).

Definition settle (p : Children Work) : Children Work :=
  mkChildren (settled <$> mAdded p) (mNextChild p) (mAbortChildrenButNotSelf p).

Record topped (N : nat) (p p' : Children Work) (rest rest' : list (nat * Work)) : Prop := {
  tp_flag : mAbortChildrenButNotSelf p' = mAbortChildrenButNotSelf p;
  tp_ahead : all_ahead p';
  tp_each : Forall child_running (mAdded p');
  tp_wf : children_wf p';
  tp_seen : Forall (fun c => c_child c = true -> isDone (c_work c) = true -> seen c) (mAdded p');
  tp_live : Forall (fun c => c_child c = true -> state (c_work c) <> FAILURE) (mAdded p');
  tp_batch : Forall (fun c => c_batch c = true -> state (c_work c) <> SUCCESS) (mAdded p');
  tp_names : (c_name <$> mAdded p') ++ (fst <$> rest') = (c_name <$> mAdded p) ++ (fst <$> rest);
  tp_suffix : exists l, rest = l ++ rest';
  tp_bounded : forall k, bounded k (c_work <$> mAdded p) -> bounded k (snd <$> rest) ->
    bounded k (c_work <$> mAdded p') /\ bounded k (snd <$> rest');
  tp_weight : children_weight (mAdded p') + sum ((fun y => total (snd y)) <$> rest') <=
    children_weight (mAdded p) + sum ((fun y => total (snd y)) <$> rest);
  tp_full : rest' <> [] -> N <= getNumWorksInBatch (mAdded p');
}.

Lemma getState_success (w : Work) : getState w = WORK_SUCCESS <-> state w = SUCCESS.
Proof. unfold getState. by destruct (state w). Qed.

Lemma settled_running (c : Child Work) : child_running c -> child_running (settled c).
Proof.
  intros (H1&H2&H3). split_and!; [|done|]; simpl.
  - intros Hc. destruct (H1 Hc) as [Hs Hb]. split; simpl; [done|by rewrite Hb].
  - destruct (c_batch c); [|by auto]. simpl. intros E%negb_false_iff%bool_decide_eq_true. by apply getState_success.
Qed.

Lemma settle_works (p : Children Work) : c_work <$> mAdded (settle p) = c_work <$> mAdded p.
Proof. cbn [settle mAdded]. rewrite <- list_fmap_compose. done. Qed.

Lemma settle_names (p : Children Work) : c_name <$> mAdded (settle p) = c_name <$> mAdded p.
Proof. cbn [settle mAdded]. rewrite <- list_fmap_compose. done. Qed.

Lemma settle_weight (p : Children Work) : children_weight (mAdded (settle p)) = children_weight (mAdded p).
Proof. unfold children_weight. cbn [settle mAdded]. rewrite <- list_fmap_compose. done. Qed.

Lemma settle_ahead (p : Children Work) : mNextChild p = begin_of (mAdded p) -> all_ahead (settle p).
Proof.
  intros Hn. apply all_ahead_begin. cbn [settle mNextChild mAdded]. rewrite Hn. unfold begin_of.
  replace (hasChildren (settled <$> mAdded p)) with (hasChildren (mAdded p)); [done|].
  unfold hasChildren. clear Hn. induction (mAdded p) as [|c l IH]; [done|]. simpl. f_equal. exact IH.
Qed.

Lemma batch_more (N : nat) (p : Children Work) (rest : list (nat * Work)) :
  Forall child_running (mAdded p) -> children_wf p -> mNextChild p = begin_of (mAdded p) ->
  anyFailed (children p) = false -> Forall (fun y => wf (snd y)) rest ->
  Forall (fun y => state (snd y) = PENDING) rest -> NoDup ((c_name <$> mAdded p) ++ (fst <$> rest)) ->
  exists p' rest', addMoreWork N rest (settle p) = Ok (p', rest') /\ topped N p p' rest rest'.
Proof.
  intros Hr Hw Hn Hf Hwr Hpr Hnd. destruct (addMoreWork_ok N rest (settle p)) as (p'&rest'&Ha&[G1 G2 (taken&new&->&G3&G4) G5]);
    [done|done|by rewrite settle_names|by apply settle_ahead|].
  assert (Forall (fun c => c_child c = true -> state (c_work c) <> FAILURE) (mAdded p)) as Hlive.
  { apply not_true_iff_false in Hf. unfold anyFailed in Hf. rewrite children_existsb in Hf.
    apply Forall_forall. intros c Hin Hch Hs. apply Hf, Exists_exists. exists c. split; [done|]. split; [done|].
    apply bool_decide_eq_true. unfold getState. by rewrite Hs. }
  exists p', rest'. split; [done|]. split; try done; rewrite ?G3; try (rewrite Forall_app; split).
  - apply Forall_fmap. eapply Forall_impl; [exact Hr|]. apply settled_running.
  - apply (began_Forall _ _ _ G4). intros c Hch Hb _ Hs. split_and!; [congruence| |congruence]. rewrite Hs. by left.
  - unfold children_wf. rewrite G3, Forall_app. split; [by apply Forall_fmap|]. by apply (began_Forall _ _ _ G4).
  - apply Forall_fmap. eapply Forall_impl; [exact (proj2 (Forall_and _ _) (conj Hr Hlive))|].
    intros c [(H1&H2&H3) Hl] Hch Hd. simpl in *. specialize (H2 Hch). specialize (Hl Hch).
    assert (state (c_work c) = SUCCESS) as Hs.
    { unfold isDone in Hd. destruct H2 as [E|[E|[E|E]]]; rewrite E in Hd, Hl |- *; done. }
    split; [done|]. simpl. rewrite bool_decide_true by (by apply getState_success). apply andb_false_r.
  - apply (began_Forall _ _ _ G4). intros c _ _ _ Hs _ Hd. unfold isDone in Hd. by rewrite Hs in Hd.
  - by apply Forall_fmap.
  - apply (began_Forall _ _ _ G4). intros c _ _ _ Hs _. by rewrite Hs.
  - apply Forall_fmap, Forall_forall. intros c _. simpl. intros [_ Hb%negb_true_iff%bool_decide_eq_false]%andb_true_iff Hs.
    by apply Hb, getState_success.
  - apply (began_Forall _ _ _ G4). intros c _ _ _ Hs _. by rewrite Hs.
  - rewrite fmap_app, settle_names, (began_names _ _ G4), fmap_app. by rewrite <- app_assoc.
  - by exists taken.
  - intros k Hk1. unfold bounded. rewrite !fmap_app, !Forall_app. intros [Hk2 Hk3]. split_and!; [by rewrite settle_works| |done].
    by eapply began_bounded.
  - pose proof (began_weight _ _ G4). pose proof (settle_weight p). unfold children_weight in *.
    rewrite !fmap_app, !sum_app. lia.
Qed.
(** After [doWork], when no child has failed. *)
Lemma topped_ran (N : nat) (p0 p p' : Children Work) (rest rest' : list (nat * Work)) :
  0 < N -> topped N p p' rest rest' -> mAbortChildrenButNotSelf p = false ->
  c_name <$> mAdded p0 = c_name <$> mAdded p ->
  (forall k, bounded k (c_work <$> mAdded p0) -> bounded k (c_work <$> mAdded p)) ->
  children_weight (mAdded p0) = children_weight (mAdded p) -> turn_to_search p0 = 1 ->
  exists s p'', (if allSuccessful (children p') then
       let? p := clearChildren p' in Ok (WORK_SUCCESS, p, rest')
     else Ok (if negb (anyRunning (children p')) then WORK_WAITING else WORK_RUNNING, p', rest')) = Ok (s, p'', rest') /\
    batch_ran s p0 p'' rest rest'.
Proof.
  intros HN [T1 T2 T3 T4 T5 T6 T7 T8 T9 T10 T11 T12] Hf Hnm Hbd Hwt Htn. rewrite <- Hwt in T11. rewrite <- Hnm in T8.
  assert (forall k, bounded k (c_work <$> mAdded p0) -> bounded k (snd <$> rest) ->
    bounded k (c_work <$> mAdded p') /\ bounded k (snd <$> rest')) as T10' by auto.
  rewrite Hf in T1. pose proof (turn_le p') as Htn'.
  destruct (allSuccessful (children p')) eqn:Es.
  - unfold allSuccessful in Es. rewrite children_forallb in Es.
    assert (Forall (fun c => state (c_work c) = SUCCESS) (mAdded p')) as Hs.
    { eapply Forall_impl; [exact (proj2 (Forall_and _ _) (conj T3 Es))|]. intros c [(H1&_&_) Hc].
      destruct (c_child c) eqn:Ech; [|by apply H1]. apply getState_success. specialize (Hc eq_refl). by apply bool_decide_eq_true in Hc. }
    unfold clearChildren. assert (allDone (children p') = true) as ->.
    { apply children_forallb. eapply Forall_impl; [exact Hs|]. intros c Hc _. apply finished_done. by left. }
    cbn [ensure res_bind]. do 2 eexists. split; [done|]. split; cbn [mAdded mAbortChildrenButNotSelf]; try done.
    + by apply Forall_fmap.
    + by rewrite <- list_fmap_compose.
    + by rewrite <- list_fmap_compose.
    + intros _. split; [|by apply Forall_fmap; eapply Forall_impl; [exact Hs|]].
      destruct rest' as [|y rest']; [done|]. exfalso.
      assert (0 < getNumWorksInBatch (mAdded p')) as Hb by (pose proof (T12 ltac:(done)); lia).
      unfold getNumWorksInBatch in Hb. destruct (filter _ _) as [|c l] eqn:E; [simpl in Hb; lia|].
      assert (c ∈ filter (fun c => c_batch c = true) (mAdded p')) as [Hcb Hin]%list_elem_of_filter by (rewrite E; by left).
      rewrite Forall_forall in T7, Hs. by apply (T7 c), Hs.
  - assert (Exists (fun c => c_child c = true /\ (state (c_work c) = RUNNING \/ state (c_work c) = WAITING)) (mAdded p')) as Hex.
    { apply not_true_iff_false in Es. unfold allSuccessful in Es. rewrite children_forallb in Es.
      clear -Es T3 T6. unfold child_running in T3. induction T3 as [|c l Hc Hl IH]; [by destruct Es|].
      apply Forall_cons in T6 as [Hlc T6]. destruct (decide (c_child c = true /\ state (c_work c) <> SUCCESS)) as [[Hch Hs]|Hn].
      - left. split; [done|]. destruct Hc as (_&Hu&_). specialize (Hlc Hch).
        destruct (Hu Hch) as [E|[E|[E|E]]]; auto; done.
      - right. apply IH; [done|]. intros Hall. apply Es. constructor; [|done]. intros Hch.
        apply bool_decide_eq_true, getState_success. destruct (decide (state (c_work c) = SUCCESS)); [done|]. by destruct Hn. }
    do 2 eexists. split; [done|].
    assert (Forall (fun c => c_child c = true -> isDone (c_work c) = true -> seen c) (ahead p')) as Hseen.
    { unfold ahead. destruct (mNextChild p'); [by apply Forall_drop|constructor]. }
    destruct (anyRunning (children p')) eqn:Er; cbn [negb]; split; try done.
    + intros _ _. by apply running_build.
    + intros _ Hf'. congruence.
    + intros _. unfold anyRunning in Er. rewrite children_existsb in Er. apply Exists_exists in Er as (c&Hin&Hch&Hc).
      unfold batch_left. rewrite (all_ahead_turn p' c); [lia|done|done|]. apply runs_true. split; [done|]. by apply bool_decide_eq_true in Hc.
    + intros _. split; [done|]. apply running_build; [done|done|]. intros _.
      apply not_true_iff_false in Er. unfold anyRunning in Er. rewrite children_existsb in Er. apply not_Exists_Forall in Er; [|intros c; apply _].
      assert (Forall (fun c => runs c = false) (mAdded p')) as Hno.
      { eapply Forall_impl; [exact Er|]. intros c Hc. apply not_true_iff_false. unfold runs. rewrite andb_true_iff. exact Hc. }
      split; [done|]. apply Exists_exists in Hex as (c&Hin&Hch&Hc). apply Exists_exists. exists c. split; [done|]. split; [done|].
      destruct Hc as [Hc|Hc]; [|done]. rewrite Forall_forall in Hno. specialize (Hno c Hin). apply not_true_iff_false in Hno.
      destruct Hno. apply runs_true. split; [done|]. unfold getState. by rewrite Hc.
    + intros _. unfold batch_left. lia.
Qed.
(** When a child has failed: the others are aborted first. *)
Lemma batch_failed (p0 p : Children Work) (rest : list (nat * Work)) :
  Forall child_running (mAdded p) -> children_wf p -> mNextChild p = begin_of (mAdded p) ->
  mAbortChildrenButNotSelf p = false ->
  Forall2 same_child (mAdded p0) (mAdded p) -> children_weight (mAdded p0) = children_weight (mAdded p) ->
  turn_to_search p0 = 1 ->
  exists s p', (if allDone (children p) then Ok (WORK_FAILURE, p, rest)
     else let? p := shutdownChildren shutdown p in
       Ok (WORK_RUNNING, mkChildren (mAdded p) (mNextChild p) true, rest)) = Ok (s, p', rest) /\
    batch_ran s p0 p' rest rest.
Proof.
  intros Hr Hw Hn Hf Hs Hwt Htn.
  assert (Forall (fun c => c_child c = false -> isDone (c_work c) = true) (mAdded p)) as He.
  { eapply Forall_impl; [exact Hr|]. intros c (H1&_&_) Hc. apply finished_done. left. by apply H1. }
  destruct (allDone (children p)) eqn:Ed.
  - unfold allDone in Ed. rewrite children_forallb in Ed. do 2 eexists. split; [done|].
    apply same_batch_ran; [done|done|by right| |done..]. intros _.
    eapply Forall_impl; [exact (proj2 (Forall_and _ _) (conj He Ed))|]. intros c [H1 H2]. destruct (c_child c); auto.
  - destruct (shutdownChildren_ok shutdown p) as (p'&Hsp&Hsh&Hn'&_).
    { eapply Forall_impl; [exact Hw|]. intros c Hwc Hd. destruct (shutdown_ok (c_work c) Hwc) as (w'&Hsw&Hw').
      rewrite Hd in Hw'. by exists w'. }
    rewrite Hsp. cbn [res_bind]. do 2 eexists. split; [done|].
    apply same_batch_ran; [|by eapply shut_wf|by left|done|done| |]; cbn [mAdded].
    + eapply same_child_trans; [exact Hs|by apply shut_same].
    + intros _ _. by eapply shut_aborting.
    + intros _. unfold batch_left. cbn [mAdded]. pose proof (shut_weight _ _ Hsh) as Hle.
      enough (turn_to_search (mkChildren (mAdded p') (mNextChild p') true) = 0) by lia.
      assert (Exists (fun c => runs c = true) (mAdded p')) as (c&Hin&Hrun)%Exists_exists.
      { apply not_true_iff_false in Ed. unfold allDone in Ed. rewrite children_forallb in Ed. clear -Ed Hsh.
        induction Hsh as [|c c' l l' Hc Hl IH]; [by destruct Ed|].
        destruct Hc as [[-> Hd]|(Hch&w'&->&_&_&Hst&_)]; [right; apply IH; intros Hall; apply Ed; by constructor|].
        left. apply runs_true. split; [done|]. unfold getState. simpl. by rewrite Hst. }
      assert (hasChildren (mAdded p) = true) as Hh.
      { apply not_false_iff_true. intros Hh%no_children_Forall. rewrite Forall_forall in Hh. clear -Hsh Hin Hrun Hh.
        induction Hsh as [|x x' l l' Hx Hl IH]; [by apply not_elem_of_nil in Hin|].
        assert (c_child x' = c_child x) as Ec by (destruct Hx as [[-> _]|(_&w'&->&_)]; done).
        apply elem_of_cons in Hin as [->|Hin]; [|apply IH; [done|]; intros y Hy; apply Hh; by right].
        apply runs_true in Hrun as [Hrun _]. rewrite Ec, Hh in Hrun by (by left). done. }
      unfold turn_to_search, ahead. cbn [mAdded mNextChild]. rewrite Hn', Hn. unfold begin_of. rewrite Hh, drop_0.
      rewrite (proj2 (existsb_true runs (mAdded p'))); [done|by exists c].
Qed.

Lemma batch_doWork_ok (N : nat) (p0 p : Children Work) (rest : list (nat * Work)) :
  0 < N -> Forall child_running (mAdded p) -> children_wf p -> mNextChild p = begin_of (mAdded p) ->
  mAbortChildrenButNotSelf p = false -> Forall (fun y => wf (snd y)) rest ->
  Forall (fun y => state (snd y) = PENDING) rest -> NoDup ((c_name <$> mAdded p) ++ (fst <$> rest)) ->
  Forall2 same_child (mAdded p0) (mAdded p) -> children_weight (mAdded p0) = children_weight (mAdded p) ->
  turn_to_search p0 = 1 ->
  exists s p' rest', (let? (s, p, r) := batch_doWork N p rest in
      match s with
      | WORK_SUCCESS =>
          let? _ := ensure (allSuccessful (children p)) ChildrenNotSuccessful in
          let? p := clearChildren p in Ok (s, p, r)
      | WORK_FAILURE =>
          if allDone (children p) then Ok (s, p, r)
          else let? p := shutdownChildren shutdown p in Ok (WORK_RUNNING, mkChildren (mAdded p) (mNextChild p) true, r)
      | _ => Ok (s, p, r)
      end) = Ok (s, p', rest') /\ batch_ran s p0 p' rest rest'.
Proof.
  intros HN Hr Hw Hn Hf Hwr Hpr Hnd Hs Hwt Htn. unfold batch_doWork.
  destruct (anyFailed (children p)) eqn:Ef; cbn [res_bind].
  { destruct (batch_failed p0 p rest) as (s&p'&E&Hran); [done..|]. exists s, p', rest. by rewrite E. }
  destruct (batch_more N p rest) as (p'&rest'&Ha&Ht); [done..|]. unfold settle, settled in Ha. rewrite Ha. cbn [res_bind].
  destruct (topped_ran N p0 p p' rest rest') as (s&p''&E&Hran); [done|done|done| | |done..|].
  - by rewrite (same_child_names _ _ Hs).
  - intros k. by apply same_child_bounded.
  - exists s, p'', rest'. split; [|done]. rewrite <- E. destruct (allSuccessful (children p')) eqn:Es; cbn [ensure res_bind].
    + by destruct (clearChildren p').
    + by destruct (negb _).
Qed.

Lemma batch_onRun_ok (N k : nat) (crank : Work -> wk Work) b (p : Children Work) ys rest :
  0 < N -> cranks k crank -> wf (BatchWork b p ys rest) -> mState b = RUNNING ->
  bounded k (c_work <$> mAdded p) ->
  exists s p' rest', children_onRun crank shutdown (batch_doWork N) p rest = Ok (s, p', rest') /\
    batch_ran s p p' rest rest'.
Proof.
  intros HN Hc Hw Hb Hk. inversion Hw as [| |? ? ? ? Hbo Hp Hys Hbk]; subst. unfold children_onRun.
  destruct (mAbortChildrenButNotSelf p) eqn:Ef.
  { destruct (children_onAbort_ok k crank p) as (d&p'&Ha&H1&H2&H3&H4&H5&H6);
      [done..|apply (bk_aborting _ _ _ _ Hbk); by right|].
    rewrite Ha. cbn [res_bind]. do 3 eexists. split; [done|].
    apply same_batch_ran; [done|done|destruct d; auto|intros E; apply H5; by destruct d| |done|].
    - intros _ E. congruence.
    - destruct d; [done|]. intros _. specialize (H6 eq_refl). unfold abort_left in H6. unfold batch_left. lia. }
  assert (running_ok RUNNING p) as Hr by (rewrite <- Hb; apply (bk_running _ _ _ _ Hbk); by right).
  pose proof (yield_ok p) as Hy. destruct (yieldNextRunningChild p) as [r p1]. destruct Hy as (Ht&Hfl&Hnx).
  destruct r as [i|].
  - destruct Hnx as (c&Hi&Hi1&Hah&Hrun&Hn&Hfa).
    destruct (batch_turn k crank p p1 rest i c) as (p'&E&Hran); [done..|]. rewrite E. do 3 eexists. by split.
  - destruct Hnx as [Ht1 Hn]. pose proof (tidied_same _ _ _ Ht) as Hs1.
    destruct (bk_suffix _ _ _ _ Hbk) as [l ->]. apply Forall_app in Hys as [_ Hwr].
    pose proof (bk_fresh _ _ _ _ Hbk) as Hfr. apply Forall_app in Hfr as [_ Hpr].
    pose proof (bk_names _ _ _ _ Hbk) as Hnd. rewrite (bk_rest _ _ _ _ Hbk) in Hnd.
    destruct (batch_doWork_ok N p p1 rest) as (s&p'&rest'&E&Hran); [done|by eapply tidied_running|by eapply tidied_works|done|congruence|done|done| |done| |done|].
    + by rewrite (same_child_names _ _ Hs1).
    + by rewrite (tidied_weight _ _ _ Ht).
    + rewrite E. do 3 eexists. by split.
Qed.
End batch.
