(* ===== verification/WorkTrees.v ===== *)
(** * Every crank and event of a tree of works

    A crank of a well-formed work that can run, the event a waiting task waits
    for, and the timer of a retry: none is an error, each keeps the tree
    well-formed and leaves less to do; and where a tree waits there is an event
    to come. *)
From stdpp Require Import base tactics list numbers sets.
From Stdlib Require Import ZArith Lia Bool.
From S2P Require Import Prelude Work WorkTheorems WorkCrank WorkAbort WorkBatch.

Open Scope nat_scope.
Open Scope kin_scope.

Section trees.
Context {L : Type} `{TaskLaws L}.
#[local] Notation Work := (@Work L).

(** ** Cranks *)

Lemma left_batch b (p : Children Work) ys rest : left (BatchWork b p ys rest) = batch_left p rest.
Proof. done. Qed.

Lemma abort_weight_batch b (p : Children Work) ys rest : abort_weight (BatchWork b p ys rest) = abort_left p + 1.
Proof. done. Qed.

(** A batch that runs. *)
Lemma crank_batch_running (N k : nat) (crank : Work -> wk Work) b (p : Children Work) ys rest :
  0 < N -> cranks k crank -> wf (BatchWork b p ys rest) -> mState b = RUNNING -> bounded k (c_work <$> mAdded p) ->
  exists w', (let? (s, p, rest) := children_onRun crank shutdown (batch_doWork N) p rest in
      setState (getInternalState s) (BatchWork b p ys rest)) = Ok w' /\ cranked (BatchWork b p ys rest) w'.
Proof.
  intros HN Hc Hw Hb Hk. destruct (batch_onRun_ok N k crank b p ys rest) as (s&p'&rest'&->&Hr); [done..|].
  cbn [res_bind]. inversion Hw as [| |? ? ? ? Hbo Hp Hys Hbk]; subst.
  destruct Hbk as [B1 B2 [l B3] B4 B5 B6 B7 B8 B9], Hr as [R1 R2 [l' R3] R4 R5 R6 R7 R8 R9 R10 R11 R12].
  apply (ran_ok s (BatchWork b p ys rest)); [done|done|done|by apply shape_batch|done|..].
  - intros Hs. split_and!; [by apply R6|done|done|done].
  - intros Hs. rewrite !left_batch. by apply R11.
  - intros Hs. rewrite !left_batch. simpl. rewrite Nat.add_0_r. by apply R12.
  - intros Hnf Hbo'. simpl. constructor; [done|done|done|]. split; simpl; try done.
    + by rewrite R2.
    + exists (l ++ l'). by rewrite <- app_assoc, <- R3.
    + intros [[?|?]|[_ Ht]] ?; [by destruct s|destruct s; done|]. simpl in Ht. by rewrite (running_timer b Hbo Hb) in Ht.
    + intros H1 H2 H3. destruct s; try done. by apply R9.
    + intros Hs. apply R7. by destruct s.
    + intros [[Hs _]|[Hs Hf]]; [|destruct s; try done; by apply R8].
      simpl in Hs. destruct s; try done. by apply R9.
    + intros [Hs|[Hs Hf]]; [by destruct s|]. destruct s; try done. by apply R10.
Qed.

(** A batch that is being aborted. *)
Lemma crank_batch_aborting (k : nat) (crank : Work -> wk Work) b (p : Children Work) ys rest :
  cranks k crank -> wf (BatchWork b p ys rest) -> mState b = ABORTING -> bounded k (c_work <$> mAdded p) ->
  exists w', (let? (done, p) := children_onAbort crank p in
      setState (aborted_state done) (BatchWork b p ys rest)) = Ok w' /\ cranked (BatchWork b p ys rest) w'.
Proof.
  intros Hc Hw Hb Hk. inversion Hw as [| |? ? ? ? Hbo Hp Hys Hbk]; subst.
  destruct (children_onAbort_ok k crank p) as (d&p'&->&H1&H2&H3&H4&H5&H6);
    [done..|apply (bk_aborting _ _ _ _ Hbk); by left|].
  cbn [res_bind]. destruct Hbk as [B1 B2 B3 B4 B5 B6 B7 B8 B9].
  apply abort_ok; [done|done|done|by apply shape_batch_same| |].
  - intros Hd. split_and!; [by apply H5|done|done|done].
  - intros Hd. split.
    + constructor; [done|done|done|]. split; try done.
      * by rewrite (same_child_names _ _ H1).
      * intros [[?|Hs]|[? _]]; [congruence|by rewrite Hb in Hs|congruence].
      * congruence.
      * intros [[? _]|[? _]]; congruence.
    + rewrite !abort_weight_batch. specialize (H6 Hd). lia.
Qed.

Lemma crank_task b (x : L) :
  wf (TaskWork b x) -> mState b = RUNNING ->
  exists w', (let '(s, x) := task_run x in setState (getInternalState s) (TaskWork b x)) = Ok w' /\
    cranked (TaskWork b x) w'.
Proof.
  intros Hw Hb. inversion Hw as [? ? Hbo| |]; subst. pose proof (run_turns x) as Hr. pose proof (run_limit x) as Hl.
  pose proof (run_not_aborted x) as Hn. destruct (task_run x) as [s x']. simpl in *.
  apply (ran_ok s (TaskWork b x)); [done|done|done| |done|done|..].
  - split_and!; simpl; congruence || lia.
  - intros ->. simpl. specialize (Hr (or_introl eq_refl)). lia.
  - intros ->. simpl. specialize (Hr (or_intror eq_refl)). lia.
  - intros _ Hbo'. by constructor.
Qed.

Lemma crank_task_aborting b (x : L) :
  wf (TaskWork b x) -> mState b = ABORTING ->
  exists w', (let '(done, x) := task_abort x in setState (aborted_state done) (TaskWork b x)) = Ok w' /\
    cranked (TaskWork b x) w'.
Proof.
  intros Hw Hb. inversion Hw as [? ? Hbo| |]; subst. pose proof (abort_aborts x) as Ha. pose proof (abort_limit x) as Hl.
  destruct (task_abort x) as [d x']. simpl in *. apply abort_ok; [done|done|done| |done|].
  - split_and!; simpl; congruence || lia.
  - intros ->. split; [by constructor|]. simpl. specialize (Ha eq_refl). lia.
Qed.

Section cranking.
Context (N : nat) (HN : 0 < N).

Lemma crank_ok (k : nat) : cranks k (crank_fuel N k).
Proof.
  induction k as [|k IH]; intros w [Hw Hs] Hk; [exfalso; destruct w; simpl in Hk; lia|].
  cbn [crank_fuel]. unfold can_crank. assert (isDone w = false) as -> by (unfold isDone; by destruct Hs as [-> | ->]).
  rewrite (bool_decide_false (state w = WAITING)) by (by destruct Hs as [-> | ->]). cbn [negb andb ensure res_bind].
  unfold isAborting. destruct w as [b x|b ws n cur stop|b p ys rest].
  - destruct Hs as [Hs|Hs]; rewrite Hs; [rewrite bool_decide_false by done|rewrite bool_decide_true by done].
    + by apply crank_task.
    + by apply crank_task_aborting.
  - apply height_sequence in Hk. destruct Hs as [Hs|Hs]; rewrite Hs; [rewrite bool_decide_false by done|rewrite bool_decide_true by done].
    + by eapply crank_sequence_running.
    + by eapply crank_sequence_aborting.
  - apply height_batch_le in Hk as (Hk&_&_). destruct Hs as [Hs|Hs]; rewrite Hs; [rewrite bool_decide_false by done|rewrite bool_decide_true by done].
    + by eapply crank_batch_running.
    + by eapply crank_batch_aborting.
Qed.

Lemma crankWork_ok (w : Work) : crankable w -> exists w', crankWork N w = Ok w' /\ cranked w w'.
Proof. intros Hw. by apply (crank_ok (height w)). Qed.
End cranking.
(** ** Where nothing waits *)

Definition quiet (s : InternalState) : Prop := s = ABORTING \/ startable_state s.

Lemma finished_quiet (s : InternalState) : finished s -> quiet s.
Proof. intros [-> | ->]; right; by right. Qed.

Lemma done_quiet (w : Work) : isDone w = true -> quiet (state w).
Proof. intros Hd. right. by right. Qed.

Definition still (b : BasicWork) : Prop := mState b = ABORTING \/ idle_state b.

Lemma quiet_still (b : BasicWork) : quiet (mState b) -> still b.
Proof. intros [Hq|Hq]; [by left|]. right. by left. Qed.

Lemma sequence_quiet b (ws : list Work) n cur (i : nat) (c : Work) :
  sequence_ok b ws n cur -> ws !! i = Some c -> still b \/ ~ (i = n /\ cur = true) -> quiet (state c).
Proof.
  intros [S1 S2 S3 S4 S5 S6] Hi Hq. destruct (decide (i < n)).
  { apply finished_quiet. eapply (Forall_lookup_1 (fun w => finished (state w))); [exact S1|]. by rewrite lookup_take_lt. }
  assert (forall m, m <= i -> Forall (fun w : Work => startable_state (state w)) (drop m ws) -> quiet (state c)) as Hf.
  { intros m Hm Hall. right. eapply (Forall_lookup_1 (fun w => startable_state (state w)) _ (i - m)); [exact Hall|].
    rewrite lookup_drop. by replace (m + (i - m)) with i by lia. }
  destruct cur; [|apply (Hf n); [lia|done]].
  destruct (decide (i = n)) as [->|Hne]; [|apply (Hf (S n)); [lia|done]].
  destruct Hq as [[Hq|Hq]|Hq]; [|by specialize (S4 Hq)|by destruct Hq].
  destruct (S3 eq_refl) as (c'&Hc'&Hu). simplify_eq. rewrite Hq in Hu. destruct Hu as [?|?]; [by left|by apply done_quiet].
Qed.

Lemma batch_quiet b (p : Children Work) ys rest (c : Child Work) :
  batch_ok b p ys rest -> c ∈ mAdded p ->
  still b \/ mState b = RUNNING /\ mAbortChildrenButNotSelf p = true \/ c_child c = false /\ (waits b \/ mState b = RUNNING) ->
  quiet (state (c_work c)).
Proof.
  intros [B1 B2 B3 B4 B5 B6 B7 B8 B9] Hin Hq.
  assert (aborting_ok p -> quiet (state (c_work c))) as Ha.
  { intros Ha. unfold aborting_ok in Ha. rewrite Forall_forall in Ha. destruct (Ha c Hin) as [?|[_ ?]]; [by apply done_quiet|by left]. }
  destruct Hq as [[Hq|Hq]|[Hq|[Hch Hq]]]; [apply Ha, B9; by left| |apply Ha, B9; by right|].
  - destruct (decide (mState b = SUCCESS)) as [Hs|Hs].
    + destruct (B7 Hs) as [_ Hall]. rewrite Forall_forall in Hall. apply finished_quiet. left. by apply Hall.
    + rewrite (B5 Hq Hs) in Hin. by apply not_elem_of_nil in Hin.
  - destruct (mAbortChildrenButNotSelf p) eqn:Ef.
    + destruct Hq as [[Hw _]|Hq]; [|apply Ha, B9; by right]. by assert (true = false) by (apply B6; congruence).
    + assert (running_ok (mState b) p) as Hr by (apply B8; destruct Hq; auto).
      pose proof (ro_erased _ _ Hr) as He. rewrite Forall_forall in He. apply finished_quiet. left. by apply (He c).
Qed.

Lemma work_at_quiet (path : list nat) (w t : Work) :
  wf w -> work_at path w = Some t -> quiet (state w) \/ still (basic w) /\ path <> [] -> quiet (state t).
Proof.
  revert w. induction path as [|i path IH]; intros w Hw Ht Hq.
  { simplify_eq/=. destruct Hq as [?|[_ ?]]; done. }
  assert (still (basic w)) as Hst by (destruct Hq as [Hq|[Hq _]]; [by apply quiet_still|done]).
  destruct Hw as [b x Hb|b ws n cur stop Hb Hws Hs|b p ys rest Hb Hp Hys Hk]; simpl in *; [done|..].
  - destruct (ws !! i) as [c|] eqn:Hi; [|done]. simpl in Ht. apply (IH c); [by eapply Forall_lookup_1 in Hws|done|].
    left. eapply sequence_quiet; [done|done|by left].
  - destruct (mAdded p !! i) as [c|] eqn:Hi; [|done]. simpl in Ht.
    apply (IH (c_work c)); [by apply (Forall_lookup_1 _ _ _ _ Hp Hi)|done|].
    left. eapply batch_quiet; [done|by eapply list_elem_of_lookup_2|by left].
Qed.

(** ** Events *)

Lemma update_at_bool_ok {A} (f : A -> wk (bool * A)) (l : list A) (i : nat) (x y : A) (r : bool) :
  l !! i = Some x -> f x = Ok (r, y) -> update_at_bool f i l = Ok (r, <[i := y]> l).
Proof.
  revert i. induction l as [|z l IH]; intros [|i] Hx Hf; simplify_eq/=; [by rewrite Hf|].
  by rewrite (IH i Hx Hf).
Qed.

(** An event that changes nothing. *)
Lemma deliver_noop (f : Work -> wk (bool * Work)) (path : list nat) (w t : Work) :
  work_at path w = Some t -> f t = Ok (false, t) -> deliver f path w = Ok (false, w).
Proof.
  intros Ht Hf. revert w Ht. induction path as [|i path IH]; intros w Ht; [by simplify_eq/=|].
  destruct w as [b x|b ws n cur stop|b p ys rest]; simpl in *; [done|..].
  - destruct (ws !! i) as [c|] eqn:Hi; [|done].
    rewrite (update_at_bool_ok _ ws i c c false Hi) by (by apply IH). simpl. by rewrite list_insert_id.
  - destruct (mAdded p !! i) as [c|] eqn:Hi; [|done]. simpl in Ht.
    rewrite (update_at_bool_ok _ _ i c c false Hi) by (unfold on_child; rewrite IH by done; by destruct c).
    simpl. rewrite list_insert_id by done. by destruct p.
Qed.

(** What an event at a waiting work makes of a tree around it. *)
Definition delivered (woke : bool) (w w' : Work) : Prop :=
  wf w' /\ same_shape w w' /\ weight w' < weight w /\
  if woke then state w = WAITING /\ state w' = RUNNING else state w = RUNNING /\ basic w' = basic w.

Lemma running_basic_ok (b : BasicWork) :
  basic_ok b -> mState b = RUNNING \/ waits b -> basic_ok (with_state RUNNING b).
Proof.
  intros Hb Hs. assert (mRetryTimer b = false) as Ht by (destruct Hs as [Hs|[_ Hs]]; [by apply running_timer|done]).
  destruct Hb as [H1 _ _ _]. split; simpl; [done|done| |by auto]. by rewrite Ht.
Qed.

(** A parent, told that a child has woken up. *)
Lemma notified_ok (woke : bool) (w0 w : Work) :
  basic_ok (basic w0) -> state w0 = RUNNING \/ waits (basic w0) -> (state w0 = WAITING -> woke = true) ->
  basic w = basic w0 -> same_shape w0 w ->
  (basic_ok (with_state RUNNING (basic w)) -> wf (put_state RUNNING w)) -> left w + 2 <= left w0 ->
  exists woke' w', notified woke w = Ok (woke', w') /\ delivered woke' w0 w'.
Proof.
  intros Hb Hs Hwk Hbw Hsh Hwf Hl. assert (state w = state w0) as Es by (unfold state; by rewrite Hbw).
  assert (wf (put_state RUNNING w)) as Hw by (apply Hwf; rewrite Hbw; by apply running_basic_ok).
  assert (left (put_state RUNNING w) = left w) as El by (by destruct w).
  assert (reserve (put_state RUNNING w) = reserve w0) as Er.
  { unfold reserve, put_state. destruct (set_basic_parts (with_state RUNNING (basic w)) w) as (->&->&_&->).
    cbn [with_state mMaxRetries mRetries]. rewrite Hbw. destruct Hsh as (->&_&->&_). done. }
  assert (same_shape w0 (put_state RUNNING w)) as Hsh' by (apply shape_set; [done|by rewrite Hbw]).
  unfold notified. destruct Hs as [Hs|[Hs Ht]].
  - assert (put_state RUNNING w = w) as Ep by (rewrite <- Hs, <- Es; apply put_same). rewrite Ep in *.
    assert (delivered false w0 w) as Hd.
    { split; [done|]. split; [done|]. split; [|done]. rewrite !weight_eq, Es, Hs. lia. }
    destruct woke; [|by exists false, w]. unfold wakeUp. rewrite Es, Hs. by exists false, w.
  - rewrite Hwk by done. unfold wakeUp. rewrite Es. unfold state at 1. rewrite Hs. rewrite setState_plain by (rewrite Es; unfold state; by rewrite Hs).
    cbn [res_bind]. exists true, (put_state RUNNING w). split; [done|]. split; [done|]. split; [done|].
    split; [|split; [done|apply state_put]]. rewrite !weight_eq, state_put, El, Er. unfold state. rewrite Hs, Ht. lia.
Qed.
Lemma delivered_running (woke : bool) (w w' : Work) : delivered woke w w' -> state w' = RUNNING.
Proof. intros (_&_&_&Hs). destruct woke; [by destruct Hs|]. destruct Hs as [Hs Hb]. unfold state in *. by rewrite Hb. Qed.

Lemma not_still (b : BasicWork) : basic_ok b -> ~ still b -> mState b = RUNNING \/ waits b.
Proof.
  intros Hb Hn. pose proof (bo_settled b Hb) as Hr. unfold waits. destruct (mState b) eqn:E; auto; try done.
  - destruct Hn. right. left. by left.
  - destruct (mRetryTimer b) eqn:Et; [|by right]. destruct Hn. right. by right.
  - destruct Hn. by left.
  - destruct Hn. right. left. right. by rewrite E.
  - destruct Hn. right. left. right. by rewrite E.
  - destruct Hn. right. left. right. by rewrite E.
Qed.

Lemma waiting_not_quiet (w : Work) : state w = WAITING -> ~ quiet (state w).
Proof. intros ->. by intros [?|[?|?]]. Qed.

(** An event below a sequence. *)
Lemma deliver_sequence b (ws : list Work) n cur stop (i : nat) (c c' : Work) (woke : bool) :
  wf (WorkSequence b ws n cur stop) -> ws !! i = Some c -> ~ quiet (state c) -> delivered woke c c' ->
  exists woke' w', notified woke (WorkSequence b (<[i := c']> ws) n cur stop) = Ok (woke', w') /\
    delivered woke' (WorkSequence b ws n cur stop) w'.
Proof.
  intros Hw Hi Hq Hd. inversion Hw as [|? ? ? ? ? Hbo Hws Hso|]; subst.
  assert (~ still b) as Hst by (intros Hst; apply Hq; eapply sequence_quiet; [done|done|by left]).
  assert (i = n /\ cur = true) as [-> ->].
  { destruct (decide (i = n /\ cur = true)) as [?|Hn]; [done|]. destruct Hq. eapply sequence_quiet; [done|done|by right]. }
  pose proof (delivered_running _ _ _ Hd) as Hr. destruct Hd as (Hwc&Hsh&Hlt&Hwk).
  pose proof (lookup_lt_Some _ _ _ Hi) as Hlen.
  apply notified_ok; [done|by apply not_still| |done|by apply shape_sequence; [by eapply shape_insert|]|..].
  - simpl. intros Hs. destruct (so_cur _ _ _ _ Hso eq_refl) as (c0&Hc0&Hu). simplify_eq.
    unfold state in Hs. simpl in Hs. rewrite Hs in Hu. simpl in Hu. destruct woke; [done|]. destruct Hwk; congruence.
  - intros Hbo'. constructor; [done|by apply Forall_insert|]. destruct Hso as [H1 H2 H3 H4 H5 H6]. split; try done.
    + by rewrite take_insert_ge.
    + by rewrite drop_insert_lt by lia.
    + intros _. exists c'. rewrite list_lookup_insert_eq by done. split; [done|]. by left.
    + intros [[?|?]|[? _]]; done.
  - assert (<[n:=c']> ws !! n = Some c') as Hi' by (by rewrite list_lookup_insert_eq).
    rewrite !left_sequence, (drop_S _ c n Hi), (drop_S _ c' n Hi').
    rewrite drop_insert_lt by lia. cbn [sequence_left]. lia.
Qed.

Lemma ahead_insert (P : Child Work -> Prop) (p : Children Work) (i : nat) (c : Child Work) (f : bool) :
  Forall P (ahead p) -> P c -> Forall P (ahead (mkChildren (<[i := c]> (mAdded p)) (mNextChild p) f)).
Proof.
  unfold ahead. cbn [mAdded mNextChild]. destruct (mNextChild p) as [n|]; [|done]. intros Ha Hc.
  destruct (decide (i < n)); [by rewrite drop_insert_lt|]. rewrite drop_insert_ge by lia. by apply Forall_insert.
Qed.

Lemma children_weight_insert (p : Children Work) (i : nat) (c : Child Work) (w' : Work) :
  mAdded p !! i = Some c -> c_child c = true ->
  children_weight (<[i := with_work w' c]> (mAdded p)) + weight (c_work c) = children_weight (mAdded p) + weight w'.
Proof.
  intros Hi Hc. unfold children_weight. pose proof (sum_insert child_weight (mAdded p) i c (with_work w' c) Hi) as Hsum.
  unfold child_weight at 2 4 in Hsum. simpl in Hsum. by rewrite Hc in Hsum.
Qed.

(** An event below a batch. *)
Lemma deliver_batch b (p : Children Work) ys rest (i : nat) (c : Child Work) (c' : Work) (woke : bool) :
  wf (BatchWork b p ys rest) -> mAdded p !! i = Some c -> ~ quiet (state (c_work c)) -> delivered woke (c_work c) c' ->
  exists woke' w', notified woke (BatchWork b (mkChildren (<[i := with_work c' c]> (mAdded p)) (mNextChild p)
      (mAbortChildrenButNotSelf p)) ys rest) = Ok (woke', w') /\ delivered woke' (BatchWork b p ys rest) w'.
Proof.
  intros Hw Hi Hq Hd. inversion Hw as [| |? ? ? ? Hbo Hp Hys Hbk]; subst.
  pose proof (list_elem_of_lookup_2 _ _ _ Hi) as Hin.
  assert (~ still b) as Hst by (intros Hst; apply Hq; eapply batch_quiet; [done|done|by left]).
  pose proof (not_still b Hbo Hst) as Hb.
  assert (c_child c = true) as Hch.
  { apply not_false_iff_true. intros Hch. apply Hq. eapply batch_quiet; [done|done|]. right. right. split; [done|]. destruct Hb; auto. }
  assert (mAbortChildrenButNotSelf p = false) as Hf.
  { destruct Hb as [Hb|[Hb _]]; [|apply (bk_flag _ _ _ _ Hbk); congruence].
    apply not_true_iff_false. intros Hf. apply Hq. eapply batch_quiet; [done|done|]. right. by left. }
  assert (running_ok (mState b) p) as Hro by (apply (bk_running _ _ _ _ Hbk); destruct Hb; auto).
  pose proof (running_each _ _ Hro) as Hea. pose proof (delivered_running _ _ _ Hd) as Hr. destruct Hd as (Hwc&Hsh&Hlt&Hwk).
  destruct (Forall_lookup_1 _ _ _ _ Hea Hi) as (_&Hu&Hcb). specialize (Hu Hch).
  pose proof (lookup_lt_Some _ _ _ Hi) as Hlen.
  assert (Forall2 same_child (mAdded p) (<[i := with_work c' c]> (mAdded p))) as Hsame.
  { rewrite <- (list_insert_id (mAdded p) i c Hi) at 1. apply Forall2_insert; [apply same_child_refl|]. by split. }
  apply notified_ok; [done|done| |done|by apply shape_batch_same|..].
  - unfold state. simpl. intros Hs. destruct (ro_waits _ _ Hro Hs) as [Hno _]. rewrite Forall_forall in Hno.
    specialize (Hno c Hin). destruct woke; [done|]. destruct Hwk as [Hwk _]. apply not_true_iff_false in Hno.
    destruct Hno. apply runs_true. split; [done|]. unfold getState. by rewrite Hwk.
  - intros Hbo'. constructor; [done|by apply Forall_insert|done|]. destruct Hbk as [B1 B2 B3 B4 B5 B6 B7 B8 B9]. split; try done.
    + cbn [mAdded]. by rewrite (same_child_names _ _ Hsame).
    + intros [[?|?]|[? _]]; done.
    + intros _. apply running_build; [..|done].
      * apply Forall_insert; [done|]. split_and!; simpl; [congruence|by left|].
        intros E. destruct Hq. rewrite (Hcb E). by apply finished_quiet; left.
      * apply ahead_insert; [apply Hro|]. intros _. unfold isDone. simpl. by rewrite Hr.
    + intros [?|[_ ?]]; [done|]. simpl in *. congruence.
  - rewrite !left_batch. unfold batch_left. cbn [mAdded]. pose proof (children_weight_insert p i c c' Hi Hch) as Hcw.
    pose proof (turn_le (mkChildren (<[i := with_work c' c]> (mAdded p)) (mNextChild p) (mAbortChildrenButNotSelf p))). lia.
Qed.

Definition wakes (f : Work -> wk (bool * Work)) (t : Work) : Prop :=
  exists t', f t = Ok (true, t') /\ delivered true t t'.

Lemma deliver_ok (f : Work -> wk (bool * Work)) (path : list nat) (w t : Work) :
  wf w -> work_at path w = Some t -> wakes f t ->
  exists woke w', deliver f path w = Ok (woke, w') /\ delivered woke w w'.
Proof.
  intros Hw Ht Hf. revert w Hw Ht. induction path as [|i path IH]; intros w Hw Ht.
  { simplify_eq/=. destruct Hf as (t'&?&?). by exists true, t'. }
  assert (state t = WAITING) as Hs by (destruct Hf as (t'&_&_&_&_&?&_); done).
  assert (forall c, wf c -> work_at path c = Some t -> ~ quiet (state c)) as Hnq.
  { intros c Hwc Htc Hq. eapply waiting_not_quiet; [exact Hs|]. eapply work_at_quiet; [exact Hwc|done|by left]. }
  destruct w as [b x|b ws n cur stop|b p ys rest]; simpl in *; [done|..].
  - destruct (ws !! i) as [c|] eqn:Hi; [|done]. simpl in Ht.
    assert (wf c) as Hwc by (inversion Hw as [|? ? ? ? ? _ Hws _|]; subst; by eapply Forall_lookup_1 in Hws).
    destruct (IH c Hwc Ht) as (woke&c'&Hd&Hdel). rewrite (update_at_bool_ok _ ws i c c' woke Hi Hd). cbn [res_bind].
    by apply (deliver_sequence b ws n cur stop i c c'); auto.
  - destruct (mAdded p !! i) as [c|] eqn:Hi; [|done]. simpl in Ht.
    assert (wf (c_work c)) as Hwc by (inversion Hw as [| |? ? ? ? _ Hp _ _]; subst; by apply (Forall_lookup_1 _ _ _ _ Hp Hi)).
    destruct (IH (c_work c) Hwc Ht) as (woke&c'&Hd&Hdel).
    rewrite (update_at_bool_ok _ _ i c (with_work c' c) woke Hi) by (unfold on_child; by rewrite Hd). cbn [res_bind].
    by apply (deliver_batch b p ys rest i c c'); auto.
Qed.
(** What a task waits for. *)
Lemma wakeUp_wakes b (x : L) : wf (TaskWork b x) -> waits b -> wakes wakeUp (TaskWork b x).
Proof.
  intros Hw [Hs Ht]. inversion Hw as [? ? Hb| |]; subst. exists (put_state RUNNING (TaskWork b x)).
  unfold wakeUp. assert (state (TaskWork b x) = WAITING) as Es by done. rewrite Es.
  rewrite setState_plain by (by rewrite Es). split; [done|]. split; [constructor; by apply running_basic_ok; [|right]|].
  split; [by split_and!|]. split; [|done]. rewrite !weight_eq, Es, state_put. simpl. rewrite Ht.
  unfold reserve. simpl. lia.
Qed.

Lemma idle_left (w : Work) : wf w -> idle_state (basic w) -> state w <> SUCCESS -> left w <= attempt w.
Proof.
  intros Hw Hi Hs. destruct Hw as [b x Hb|b ws n cur stop Hb Hws Hso|b p ys rest Hb Hp Hys Hk].
  - simpl. pose proof (turns_limit x). lia.
  - rewrite left_sequence, attempt_sequence, (so_idle _ _ _ _ Hso Hi).
    rewrite <- (take_drop n ws) at 2. rewrite fmap_app, sum_app. destruct (drop n ws); cbn -[total]; lia.
  - rewrite left_batch, attempt_batch. unfold batch_left. rewrite (bk_idle _ _ _ _ Hk Hi Hs).
    destruct (bk_suffix _ _ _ _ Hk) as [l ->]. rewrite fmap_app, sum_app. pose proof (turn_le p). change (children_weight []) with 0. lia.
Qed.

(** A retry. *)
Lemma retried_wf (b : BasicWork) (w : Work) :
  wf w -> idle_state (basic w) -> state w = WAITING -> basic_ok b -> mState b = RUNNING -> wf (set_basic b w).
Proof.
  intros Hw Hi Hs Hb Hr. destruct Hw as [b0 x Hb0|b0 ws n cur stop Hb0 Hws Hso|b0 p ys rest Hb0 Hp Hys Hk]; simpl.
  - by constructor.
  - constructor; [done|done|]. pose proof (so_idle _ _ _ _ Hso Hi) as Hc. destruct Hso as [H1 H2 H3 H4 H5 H6].
    split; try done; try congruence. unfold waits. intros [? _]. congruence.
  - change (state (BatchWork b0 p ys rest)) with (mState b0) in Hs.
    assert (mAdded p = []) as Ha by (apply (bk_idle _ _ _ _ Hk Hi); congruence).
    assert (mAbortChildrenButNotSelf p = false) as Hf by (apply (bk_flag _ _ _ _ Hk); congruence).
    constructor; [done|done|done|]. destruct Hk as [B1 B2 B3 B4 B5 B6 B7 B8 B9]. split; try done; try congruence.
    + intros _. apply running_build; rewrite ?Ha; try constructor; [|congruence..].
      unfold ahead. rewrite Ha. destruct (mNextChild p); [|constructor]. by rewrite drop_nil.
    + intros [?|[_ ?]]; congruence.
Qed.

Lemma retry_wakes (w : Work) :
  wf w -> state w = WAITING -> mRetryTimer (basic w) = true -> wakes retryTimerFired w.
Proof.
  intros Hw Hs Ht. assert (idle_state (basic w)) as Hi by (by right).
  assert (basic_ok (basic w)) as Hb by (by destruct Hw).
  assert (mRetries (basic w) < mMaxRetries (basic w)) as Hlt.
  { destruct (bo_timer _ Hb Ht) as [[_ ?]|Ha]; [done|]. unfold state in Hs. congruence. }
  set (b := {| mState := RUNNING; mRetries := S (mRetries (basic w)); mMaxRetries := mMaxRetries (basic w); mRetryTimer := false |}).
  exists (set_basic b w). split.
  { unfold retryTimerFired. rewrite Hs. unfold wakeUp, state at 1. rewrite basic_set. cbn [with_timer with_retries mState].
    unfold state in Hs. rewrite Hs. rewrite setState_plain by (unfold state; rewrite basic_set; cbn [with_timer with_retries mState]; by rewrite Hs).
    cbn [res_bind]. unfold put_state. by rewrite basic_set, set_set. }
  split; [|split; [|split]].
  - apply retried_wf; [done..| |done]. split; simpl; [exact Hlt|done|done|by auto].
  - apply shape_set; [apply shape_refl|done].
  - rewrite !weight_eq, Hs, Ht. unfold state, reserve. destruct (set_basic_parts b w) as (->&->&_&->).
    assert (left (set_basic b w) = left w) as -> by (by destruct w).
    pose proof (idle_left w Hw Hi ltac:(congruence)). cbn [b mState mMaxRetries mRetries].
    replace (mMaxRetries (basic w) - mRetries (basic w)) with (S (mMaxRetries (basic w) - S (mRetries (basic w)))) by lia.
    cbn [Nat.mul]. weigh.
  - split; [done|]. unfold state. by rewrite basic_set.
Qed.

(** Where a tree waits, a task or a timer will wake it. *)
Lemma waiting_event (w : Work) :
  wf w -> state w = WAITING ->
  exists path t, work_at path w = Some t /\ wf t /\ state t = WAITING /\
    (mRetryTimer (basic t) = true \/ exists b x, t = TaskWork b x /\ waits b).
Proof.
  induction w as [b x|b ws n cur stop IH|b p ys rest IH _ _] using Work_tree_ind; intros Hw Hs.
  - exists [], (TaskWork b x). split; [done|]. split; [done|]. split; [done|]. simpl.
    destruct (mRetryTimer b) eqn:Et; [by left|]. right. by exists b, x.
  - destruct (mRetryTimer b) eqn:Et; [by exists [], (WorkSequence b ws n cur stop); auto|].
    inversion Hw as [|? ? ? ? ? Hbo Hws Hso|]; subst. pose proof (so_waits _ _ _ _ Hso (conj Hs Et)) as ->.
    destruct (so_cur _ _ _ _ Hso eq_refl) as (c&Hc&Hu). unfold state in Hs. simpl in Hs. rewrite Hs in Hu.
    destruct (Forall_lookup_1 _ _ _ _ IH Hc) as (path&t&Ht&Hrest); [by eapply Forall_lookup_1 in Hws|done|].
    exists (n :: path), t. split; [|done]. simpl. by rewrite Hc.
  - destruct (mRetryTimer b) eqn:Et; [by exists [], (BatchWork b p ys rest); auto|].
    inversion Hw as [| |? ? ? ? Hbo Hp Hys Hk]; subst.
    assert (running_ok (mState b) p) as Hr by (apply (bk_running _ _ _ _ Hk); by left).
    destruct (ro_waits _ _ Hr Hs) as [_ (c&Hin&Hch&Hc)%Exists_exists]. apply list_elem_of_lookup in Hin as [i Hi].
    destruct (Forall_lookup_1 _ _ _ _ IH Hi) as (path&t&Ht&Hrest); [by apply (Forall_lookup_1 _ _ _ _ Hp Hi)|done|].
    exists (i :: path), t. split; [|done]. simpl. by rewrite Hi.
Qed.
End trees.
