(* ===== verification/WorkSchedulerTheorems.v ===== *)
(** * The work scheduler: safety and liveness

    What holds of the scheduler between two events, that no event breaks it, and
    that the scheduled works end: each event that is due leaves less to do, and
    as long as works are under way there is one. *)
From stdpp Require Import base tactics list numbers sets.
From Stdlib Require Import ZArith Lia Bool.
From S2P Require Import Prelude Work WorkScheduler WorkTheorems WorkCrank WorkAbort WorkBatch WorkTrees.

Open Scope nat_scope.
Open Scope kin_scope.

Section scheduler.
Context {L : Type} `{TaskLaws L} (N : nat) (HN : 0 < N).
#[local] Notation Work := (@Work L).
#[local] Notation WorkScheduler := (@WorkScheduler L).

#[export] Instance WorkScheduler_IsWorkLaws : IsWorkLaws WorkScheduler.
Proof.
  split; [done|by intros b b' []|by intros []|].
  intros s s'. simpl. destruct (clearChildren _); simpl; [by intros [= <-]|done].
Qed.

(** ** What holds *)

(** A child of a scheduler that is not aborting. *)
Definition live_child (c : Child Work) : Prop :=
  (c_child c = false -> isDone (c_work c) = true) /\ (c_child c = true -> under RUNNING (state (c_work c))).

Record children_ok (st : InternalState) (p : Children Work) : Prop := {
  co_wf : children_wf p;
  co_flag : mAbortChildrenButNotSelf p = false;
  co_state : match st with
    | RUNNING => Forall live_child (mAdded p)
    | WAITING => Forall live_child (mAdded p) /\ Forall (fun c => runs c = false) (mAdded p)
    | ABORTING => aborting_ok p
    | ABORTED => mAdded p = []
    | _ => False
    end;
}.

Record cranked_ok (s : WorkScheduler) : Prop := {
  cr_basic : s_basic s = with_state (state s) (newBasicWork 0);
  cr_children : children_ok (state s) (s_children s);
}.

(** Between two events the callback is posted exactly if the scheduler can run. *)
Record scheduler_ok (s : WorkScheduler) : Prop := {
  sk_cranked : cranked_ok s;
  sk_scheduled : mScheduled s = bool_decide (getState s = WORK_RUNNING);
}.

(** What is left to do. *)
Definition scheduler_weight (s : WorkScheduler) : nat :=
  match state s with
  | ABORTED => 0
  | WAITING => 3 * children_weight (mAdded (s_children s)) + 1
  | _ => abort_left (s_children s) + 1
  end.

(** ** Cranks *)

Lemma put_scheduler (st : InternalState) (p : Children Work) (s : WorkScheduler) :
  put_state st (with_children p s) =
    {| s_basic := with_state st (s_basic s); s_children := p; mScheduled := mScheduled s |}.
Proof. done. Qed.

Definition can_run (s : WorkScheduler) : Prop := state s = RUNNING \/ state s = ABORTING.

Lemma weight_run (s : WorkScheduler) : can_run s -> scheduler_weight s = abort_left (s_children s) + 1.
Proof. unfold scheduler_weight. by intros [-> | ->]. Qed.

Record crank_result (s s' : WorkScheduler) : Prop := {
  cs_ok : cranked_ok s';
  cs_scheduled : mScheduled s' = mScheduled s;
  cs_weight : scheduler_weight s' < scheduler_weight s;
  cs_state : if decide (state s = ABORTING) then state s' = ABORTING \/ state s' = ABORTED
    else state s' = RUNNING \/ state s' = WAITING;
}.

Lemma crank_aborting (s : WorkScheduler) :
  cranked_ok s -> state s = ABORTING ->
  exists s', (let? (done, p) := children_onAbort (crankWork N) (s_children s) in
      setState (aborted_state done) (with_children p s)) = Ok s' /\ crank_result s s'.
Proof.
  intros [Hb [Hw Hf Hc]] Hs. rewrite Hs in Hc.
  destruct (children_onAbort_ok (foldr Nat.max 0 ((fun c => height (c_work c)) <$> mAdded (s_children s)))
    (crankWork N) (s_children s)) as (d&p'&->&H1&H2&H3&H4&H5&H6); [|done|by apply bounded_max|done|].
  { intros w Hcw _. by apply crankWork_ok. }
  cbn [res_bind]. assert (state (with_children p' s) = ABORTING) as Es by done. destruct d; cbn [aborted_state].
  - rewrite (setState_aborted _ {| s_basic := with_timer false (s_basic s); s_children := no_children; mScheduled := mScheduled s |} Es).
    2: { unfold reset. cbn. unfold clearChildren. assert (allDone (children p') = true) as ->; [|done].
         apply children_forallb. eapply Forall_impl; [exact (H5 eq_refl)|]. done. }
    eexists. split; [done|]. split; [split| |..]; cbn.
    + by rewrite Hb.
    + split; [constructor|done|done].
    + done.
    + rewrite (weight_run s) by (by right). unfold scheduler_weight. cbn. lia.
    + rewrite decide_True by done. by right.
  - rewrite setState_plain by (by rewrite Es). rewrite put_scheduler. eexists. split; [done|]. split; [split| |..].
    + cbn. by rewrite Hb.
    + split; [done|cbn; congruence|done].
    + done.
    + rewrite (weight_run s), (weight_run {| s_basic := _; s_children := p'; mScheduled := _ |}) by (by right).
      specialize (H6 eq_refl). simpl. lia.
    + rewrite decide_True by done. by left.
Qed.
(** After [onRun], which hints that the scheduler goes on or waits. *)
Lemma scheduler_ran (st : State) (p : Children Work) (s : WorkScheduler) :
  cranked_ok s -> state s = RUNNING -> st = WORK_RUNNING \/ st = WORK_WAITING ->
  children_ok (getInternalState st) p ->
  (st = WORK_RUNNING -> abort_left p < abort_left (s_children s)) ->
  (st = WORK_WAITING -> 3 * children_weight (mAdded p) + 1 <= abort_left (s_children s)) ->
  exists s', setState (getInternalState st) (with_children p s) = Ok s' /\ crank_result s s'.
Proof.
  intros [Hb Hc] Hs Hst Hk Hr Hw. assert (state (with_children p s) = RUNNING) as Es by done.
  rewrite setState_plain by (rewrite Es; by destruct Hst as [-> | ->]). rewrite put_scheduler.
  eexists. split; [done|]. split; [split| |..].
  - cbn. rewrite Hb. done.
  - exact Hk.
  - done.
  - rewrite (weight_run s) by (by left). unfold scheduler_weight.
    destruct Hst as [-> | ->]; cbn -[abort_left children_weight Nat.mul]; [specialize (Hr eq_refl)|specialize (Hw eq_refl)]; lia.
  - rewrite decide_False by (by rewrite Hs). destruct Hst as [-> | ->]; [by left|by right].
Qed.

Lemma crank_running (s : WorkScheduler) :
  cranked_ok s -> state s = RUNNING ->
  exists s', (let? (st, p, _) := children_onRun (crankWork N) shutdown scheduler_doWork (s_children s) tt in
      setState (getInternalState st) (with_children p s)) = Ok s' /\ crank_result s s'.
Proof.
  intros Hok Hs. pose proof (cr_children s Hok) as [Hw Hf Hc]. rewrite Hs in Hc. unfold children_onRun. rewrite Hf.
  pose proof (yield_ok (s_children s)) as Hy. destruct (yieldNextRunningChild (s_children s)) as [r p1].
  destruct Hy as (Ht&Hfl&Hnx). rewrite Hf in Hfl. pose proof (tidied_weight _ _ _ Ht) as Hwt.
  assert (children_wf p1) as Hw1 by (by eapply tidied_works).
  assert (Forall live_child (mAdded p1)) as Hc1.
  { eapply tidied_Forall; [exact Ht|exact Hc|]. intros c _ _ Hd _. split; [by intros _|done]. }
  destruct r as [i|].
  - destruct Hnx as (c&_&Hi1&_&Hrun&_). apply runs_true in Hrun as [Hch Hg].
    destruct (Forall_lookup_1 _ _ _ _ Hc1 Hi1) as [_ Hu]. specialize (Hu Hch).
    assert (state (c_work c) = RUNNING) as Hst.
    { unfold getState in Hg. by destruct Hu as [Hu|[Hu|[Hu|Hu]]]; rewrite Hu in Hg. }
    destruct (crankWork_ok N HN (c_work c)) as (w'&Hcw&Hcr).
    { split; [by apply (Forall_lookup_1 _ _ _ _ Hw1 Hi1)|by left]. }
    destruct (crank_child p1 i c w' Hi1 Hch Hcr) as [_ Hlt]. destruct Hcr as (Hww&_&_&Hu'). rewrite Hst in Hu'.
    rewrite (update_at_ok _ (mAdded p1) i c (with_work w' c) Hi1) by (unfold on_work; by rewrite Hcw).
    cbn [res_bind].
    pose proof (turn_le (mkChildren (<[i:=with_work w' c]> (mAdded p1)) (mNextChild p1) (mAbortChildrenButNotSelf p1))).
    apply scheduler_ran; [done|done|by left| |intros _; unfold abort_left; cbn [mAdded]; lia|done].
    split; [by apply Forall_insert|done|]. apply Forall_insert; [done|]. split; [|done]. simpl. congruence.
  - destruct Hnx as [Htn Hn]. unfold scheduler_doWork. cbn [res_bind].
    destruct (anyRunning (children p1)) eqn:Er; cbn [res_bind].
    + apply scheduler_ran; [done|done|by left|done| |done]. intros _. unfold abort_left.
      unfold anyRunning in Er. apply children_existsb, Exists_exists in Er as (c&Hin&Hch&Hc').
      rewrite (begin_turn p1 c); [lia|done|done|]. apply runs_true. split; [done|]. by apply bool_decide_eq_true in Hc'.
    + apply scheduler_ran; [done|done|by right| |done|intros _; unfold abort_left; lia].
      split; [done|done|]. split; [done|]. apply not_true_iff_false in Er. unfold anyRunning in Er.
      rewrite children_existsb in Er. apply not_Exists_Forall in Er; [|intros c; apply _].
      eapply Forall_impl; [exact Er|]. intros c Hc'. apply not_true_iff_false. unfold runs. rewrite andb_true_iff. exact Hc'.
Qed.

Lemma scheduler_crank_ok (s : WorkScheduler) :
  cranked_ok s -> can_run s -> exists s', scheduler_crank N s = Ok s' /\ crank_result s s'.
Proof.
  intros Hok Hs. unfold scheduler_crank, can_crank.
  assert (isDone s = false) as -> by (unfold isDone; by destruct Hs as [-> | ->]).
  rewrite (bool_decide_false (state s = WAITING)) by (by destruct Hs as [-> | ->]). cbn [negb andb ensure res_bind].
  unfold isAborting. destruct Hs as [Hs|Hs]; rewrite Hs.
  - rewrite bool_decide_false by done. by apply crank_running.
  - rewrite bool_decide_true by done. by apply crank_aborting.
Qed.

(** The loop of the posted callback. *)
Lemma crank_result_trans (s s1 s2 : WorkScheduler) :
  crank_result s s1 -> can_run s -> crank_result s1 s2 -> crank_result s s2.
Proof.
  intros [H1 H2 H3 H4] Hs [G1 G2 G3 G4]. split; [done|congruence|lia|].
  destruct Hs as [Hs|Hs].
  - rewrite decide_False in H4 by (by rewrite Hs). rewrite decide_False by (by rewrite Hs).
    rewrite decide_False in G4; [done|]. by destruct H4 as [-> | ->].
  - rewrite decide_True in H4 by done. rewrite decide_True by done.
    destruct H4 as [H4|H4]; [by rewrite decide_True in G4|].
    unfold scheduler_weight in G3. rewrite H4 in G3. lia.
Qed.

Lemma crank_loop_ok (yields : list bool) (s : WorkScheduler) :
  cranked_ok s -> can_run s -> exists s', crank_loop N yields s = Ok s' /\ crank_result s s'.
Proof.
  revert s. induction yields as [|y yields IH]; intros s Hok Hs; simpl;
    destruct (scheduler_crank_ok s Hok Hs) as (s1&->&Hr); cbn [res_bind]; case_bool_decide as Hg; try (by exists s1).
  destruct y; [by exists s1|]. assert (can_run s1) as Hs1.
  { unfold getState in Hg. unfold can_run. destruct Hr as [_ _ _ Hst]. destruct (decide _); destruct Hst as [E|E]; rewrite E in Hg |- *; auto; done. }
  destruct (IH s1 (cs_ok _ _ Hr) Hs1) as (s2&->&Hr2). exists s2. split; [done|]. by eapply crank_result_trans.
Qed.
(** ** Events *)

(** As the constructors of the works leave them. *)
Inductive built : Work -> Prop :=
  | built_task maxRetries x : built (TaskWork (newBasicWork maxRetries) x)
  | built_sequence maxRetries ws stop :
      Forall built ws -> built (WorkSequence (newBasicWork maxRetries) ws 0 false stop)
  | built_batch maxRetries ys :
      NoDup (fst <$> ys) -> Forall (fun y => built (snd y)) ys ->
      built (BatchWork (newBasicWork maxRetries) no_children ys ys).

(** The events that works wait for. *)
Inductive due (s : WorkScheduler) : Event (L := L) -> Prop :=
  | due_posted yields : mScheduled s = true -> due s (RunPosted yields)
  | due_task path b x :
      scheduler_work_at path s = Some (TaskWork b x) -> waits b -> due s (WakeTask path)
  | due_retry path w :
      scheduler_work_at path s = Some w -> state w = WAITING -> mRetryTimer (basic w) = true ->
      due s (RetryTimer path).

(** With the works that come from outside, the shutdown, and the callbacks that
    come when a task or a work is no longer waiting. *)
Inductive enabled (s : WorkScheduler) : Event (L := L) -> Prop :=
  | enabled_due e : due s e -> enabled s e
  | enabled_schedule w : built w -> enabled s (Schedule w)
  | enabled_shutdown : enabled s ShutDown
  | enabled_late_task path w :
      scheduler_work_at path s = Some w -> state w <> WAITING -> enabled s (WakeTask path)
  | enabled_late_timer path w :
      scheduler_work_at path s = Some w -> state w <> WAITING -> mRetryTimer (basic w) = true ->
      enabled s (RetryTimer path).

Inductive reachable : WorkScheduler -> Prop :=
  | reach_create s : createScheduler N = Ok s -> reachable s
  | reach_event s s' e : reachable s -> enabled s e -> handle N e s = Ok s' -> reachable s'.

Lemma new_basic_ok (maxRetries : nat) : basic_ok (newBasicWork maxRetries).
Proof using Type. clear HN. split; simpl; [lia|done|done|]. by repeat right. Qed.

Lemma built_wf (w : Work) : built w -> wf w /\ state w = PENDING.
Proof using Type.
  clear HN. induction w as [b x|b ws n cur stop IH|b p ys rest _ IH _] using Work_tree_ind; intros Hb; inversion Hb as [|? ? ? Hws|? ? Hnd Hys]; subst.
  - split; [|done]. constructor. apply new_basic_ok.
  - split; [|done]. pose proof (proj2 (Forall_and _ _) (conj IH Hws)) as Hall. constructor; [apply new_basic_ok|..].
    + eapply Forall_impl; [exact Hall|]. intros w [Hw Hbw]. by apply Hw.
    + split; try done; try (by intros [? _]). eapply Forall_impl; [exact Hall|]. intros w [Hw Hbw]. left. by apply Hw.
  - split; [|done]. pose proof (proj2 (Forall_and _ _) (conj IH Hys)) as Hall.
    constructor; [apply new_basic_ok|constructor| |].
    + eapply Forall_impl; [exact Hall|]. intros y [Hy Hby]. by apply Hy.
    + split; try done; try (by exists []); try (by intros [[? _]|[? _]]); try (by intros [?|[? _]]).
      eapply Forall_impl; [exact Hall|]. intros y [Hy Hby]. by apply Hy.
Qed.

(** *** The posted callback *)

Lemma run_posted_ok (yields : list bool) (s : WorkScheduler) :
  scheduler_ok s -> mScheduled s = true ->
  exists s', run_posted N yields s = Ok s' /\ scheduler_ok s' /\ scheduler_weight s' < scheduler_weight s /\
    (state s = ABORTING -> state s' = ABORTING \/ state s' = ABORTED).
Proof.
  intros [Hok Hm] Hs. rewrite Hs in Hm. symmetry in Hm. apply bool_decide_eq_true in Hm.
  assert (can_run s) as Hr.
  { destruct Hok as [_ [_ _ Hc]]. unfold can_run, getState in *. destruct (state s); auto; done. }
  destruct (crank_loop_ok yields s Hok Hr) as (s1&Hl&[[Hb Hc] H2 H3 H4]). unfold run_posted. rewrite Hl. cbn [res_bind].
  assert (state s = ABORTING -> state s1 = ABORTING \/ state s1 = ABORTED) as H4' by (intros Ha; by rewrite decide_True in H4).
  eexists. split; [done|]. unfold scheduleOne. change (getState (with_scheduled false s1)) with (getState s1).
  cbn [with_scheduled mScheduled]. case_bool_decide as Hg.
  - split; [|by split]. split; [by split|]. cbn [with_scheduled mScheduled]. symmetry. by apply bool_decide_eq_true.
  - split; [|by split]. split; [by split|]. cbn [with_scheduled mScheduled]. symmetry. by apply bool_decide_eq_false.
Qed.

(** *** Works that wake up, or come *)

Definition awake (p : Children Work) : WorkScheduler :=
  {| s_basic := with_state RUNNING (newBasicWork 0); s_children := p; mScheduled := true |}.

Lemma awake_ok (p : Children Work) : children_ok RUNNING p -> scheduler_ok (awake p).
Proof. intros Hp. by split. Qed.

Lemma notified_awake (woke : bool) (p : Children Work) (s : WorkScheduler) :
  scheduler_ok s -> state s = RUNNING \/ state s = WAITING -> (state s = WAITING -> woke = true) ->
  scheduler_notified woke (with_children p s) = Ok (awake p).
Proof.
  intros [[Hb _] Hm] Hs Hw. unfold scheduler_notified, notified. unfold getState in Hm.
  assert (state (with_children p s) = state s) as Es by done. destruct Hs as [Hs|Hs]; rewrite Hs in Hm, Hb.
  - unfold wakeUp. rewrite Es, Hs. rewrite bool_decide_true in Hm by done.
    assert (with_children p s = awake p) as -> by (unfold with_children, awake; by rewrite Hb, Hm). by destruct woke.
  - rewrite Hw by done. unfold wakeUp. rewrite Es, Hs, setState_plain by (by rewrite Es, Hs). cbn [res_bind].
    rewrite put_scheduler. unfold scheduleOne. cbn [mScheduled]. rewrite Hm, Hb. done.
Qed.

Lemma scheduler_states (s : WorkScheduler) :
  scheduler_ok s -> (state s = RUNNING \/ state s = WAITING) /\ Forall live_child (mAdded (s_children s)) \/
    state s = ABORTING /\ aborting_ok (s_children s) \/ state s = ABORTED /\ mAdded (s_children s) = [].
Proof.
  intros [[_ [_ _ Hc]] _]. destruct (state s); try done; [left|left|right; by left|right; by right].
  - split; [by left|done].
  - split; [by right|by destruct Hc].
Qed.

Lemma scheduler_weight_waiting (s : WorkScheduler) :
  state s = RUNNING \/ state s = WAITING ->
  3 * children_weight (mAdded (s_children s)) + 1 <= scheduler_weight s.
Proof using Type. clear HN. unfold scheduler_weight, abort_left. intros [-> | ->]; lia. Qed.

Lemma deliver_wakes (f : Work -> wk (bool * Work)) (path : list nat) (t : Work) (s : WorkScheduler) :
  scheduler_ok s -> scheduler_work_at path s = Some t -> wakes f t ->
  exists s', scheduler_deliver f path s = Ok s' /\ scheduler_ok s' /\ scheduler_weight s' < scheduler_weight s /\
    (state s = RUNNING \/ state s = WAITING).
Proof using Type.
  clear HN. intros Hok Ht Hf. destruct path as [|i path]; [done|]. simpl in Ht.
  destruct (mAdded (s_children s) !! i) as [c|] eqn:Hi; [|done]. simpl in Ht.
  pose proof (cr_children _ (sk_cranked _ Hok)) as [Hw Hfl Hc].
  assert (wf (c_work c)) as Hwc by (by apply (Forall_lookup_1 _ _ _ _ Hw Hi)).
  assert (~ quiet (state (c_work c))) as Hq.
  { assert (state t = WAITING) as Hs by (destruct Hf as (t'&_&_&_&_&?&_); done).
    intros Hq. eapply waiting_not_quiet; [exact Hs|]. eapply work_at_quiet; [exact Hwc|done|by left]. }
  destruct (deliver_ok f path (c_work c) t Hwc Ht Hf) as (woke&c'&Hd&Hdel).
  pose proof (delivered_running _ _ _ Hdel) as Hr. destruct Hdel as (Hwc'&_&Hlt&Hwk).
  unfold scheduler_deliver. rewrite (update_at_bool_ok _ _ i c (with_work c' c) woke Hi)
    by (unfold deliver_child, on_child; by rewrite Hd). cbn [res_bind].
  destruct (scheduler_states s Hok) as [[Hs Hl]|[[Hs Ha]|[Hs Ha]]].
  2: { destruct Hq. destruct (Forall_lookup_1 _ _ _ _ Ha Hi) as [?|[_ ?]]; [by apply done_quiet|by left]. }
  2: { by rewrite Ha in Hi. }
  destruct (Forall_lookup_1 _ _ _ _ Hl Hi) as [Hdn Hu].
  assert (c_child c = true) as Hch by (apply not_false_iff_true; intros E; by apply Hq, done_quiet, Hdn).
  rewrite notified_awake; [eexists; split; [done|]|done|done|].
  - split.
    + apply awake_ok. split; [by apply Forall_insert|done|]. apply Forall_insert; [done|]. split; [simpl; congruence|]. intros _. left. done.
    + split; [|done]. pose proof (scheduler_weight_waiting s Hs). rewrite weight_run by (by left). cbn [awake s_children]. unfold abort_left. cbn [mAdded].
      pose proof (children_weight_insert (s_children s) i c c' Hi Hch).
      pose proof (turn_le (mkChildren (<[i := with_work c' c]> (mAdded (s_children s))) (mNextChild (s_children s))
        (mAbortChildrenButNotSelf (s_children s)))). lia.
  - intros E. rewrite E in Hc. destruct Hc as [_ Hno]. pose proof (Forall_lookup_1 _ _ _ _ Hno Hi) as Hnr. destruct woke; [done|].
    destruct Hwk as [Hwk _]. apply not_true_iff_false in Hnr. destruct Hnr. apply runs_true. split; [done|]. unfold getState. by rewrite Hwk.
Qed.

Lemma deliver_late (f : Work -> wk (bool * Work)) (path : list nat) (t : Work) (s : WorkScheduler) :
  scheduler_work_at path s = Some t -> f t = Ok (false, t) -> scheduler_deliver f path s = Ok s.
Proof.
  intros Ht Hf. destruct path as [|i path]; [done|]. simpl in Ht.
  destruct (mAdded (s_children s) !! i) as [c|] eqn:Hi; [|done]. simpl in Ht. unfold scheduler_deliver.
  rewrite (update_at_bool_ok _ _ i c c false Hi)
    by (unfold deliver_child, on_child; rewrite (deliver_noop _ _ _ _ Ht Hf); by destruct c).
  simpl. rewrite list_insert_id by done. by destruct s as [b [? ? ?] m].
Qed.

Lemma schedule_ok (w : Work) (s : WorkScheduler) :
  scheduler_ok s -> built w -> exists s', scheduleWork w s = Ok s' /\ scheduler_ok s'.
Proof using H0.
  clear HN. intros Hok Hb. unfold scheduleWork. destruct (isAborting s || isDone s) eqn:E; [by exists s|].
  apply orb_false_iff in E as [Ea Ed]. apply bool_decide_eq_false in Ea.
  destruct (built_wf w Hb) as [Hw Hs]. destruct (startWork_ok w Hw) as (w'&->&Hw'&_&Hr&_); [by left|]. cbn [res_bind].
  destruct (scheduler_states s Hok) as [[Hst Hl]|[[? _]|[Hst _]]]; [|done|unfold isDone in Ed; by rewrite Hst in Ed].
  pose proof (cr_children _ (sk_cranked _ Hok)) as [Hcw Hfl _].
  rewrite notified_awake by done. eexists. split; [done|]. apply awake_ok. unfold addChild. split; cbn [mAdded mAbortChildrenButNotSelf]; [|done|].
  - apply Forall_app. split; [done|by constructor].
  - apply Forall_app. split; [done|]. constructor; [|done]. split; [done|]. intros _. left. done.
Qed.

Lemma scheduler_shutdown_ok (s : WorkScheduler) :
  scheduler_ok s -> exists s', scheduler_shutdown s = Ok s' /\ scheduler_ok s' /\
    (state s' = ABORTING \/ state s' = ABORTED).
Proof.
  intros Hok. unfold scheduler_shutdown. destruct (isDone s) eqn:Ed.
  { exists s. split; [done|]. split; [done|]. unfold isDone in Ed.
    destruct (scheduler_states s Hok) as [[[Hs|Hs] _]|[[Hs _]|[Hs _]]]; auto; by rewrite Hs in Ed. }
  pose proof (cr_children _ (sk_cranked _ Hok)) as [Hw Hfl _].
  destruct (shutdownChildren_ok shutdown (s_children s)) as (p&->&Hsh&Hn&Hf).
  { eapply Forall_impl; [exact Hw|]. intros c Hc Hd. destruct (shutdown_ok (c_work c) Hc) as (w'&?&Hw'). rewrite Hd in Hw'. by exists w'. }
  cbn [res_bind]. unfold basic_shutdown. change (isDone (with_children p s)) with (isDone s). rewrite Ed.
  assert (setState ABORTING (with_children p s) = Ok (put_state ABORTING (with_children p s)) /\
    Forall (fun c => c_child c = false -> isDone (c_work c) = true) (mAdded (s_children s))) as [-> He].
  { destruct (scheduler_states s Hok) as [[Hst Hl]|[[Hst Ha]|[Hst Ha]]].
    - split; [apply setState_plain; change (state (with_children p s)) with (state s); by destruct Hst as [-> | ->]|].
      eapply Forall_impl; [exact Hl|]. by intros c [? _].
    - split; [apply setState_plain; change (state (with_children p s)) with (state s); by rewrite Hst|].
      eapply Forall_impl; [exact Ha|]. intros c [?|[? _]] ?; [done|congruence].
    - unfold isDone in Ed. by rewrite Hst in Ed. }
  cbn [res_bind]. rewrite put_scheduler. eexists. split; [done|].
  pose proof (cr_basic _ (sk_cranked _ Hok)) as Hb. unfold scheduleOne. cbn [mScheduled].
  assert (children_ok ABORTING p) as Hp by (split; [by eapply shut_wf|congruence|by eapply shut_aborting]).
  destruct (mScheduled s) eqn:Em; (split; [split; [split|]|by left]); cbn [with_scheduled s_basic mScheduled s_children]; try done; by rewrite Hb.
Qed.

Lemma create_ok : exists s, createScheduler (L := L) N = Ok s /\ scheduler_ok s.
Proof. eexists. split; [reflexivity|]. split; [split; [done|]|done]. split; [constructor|done|by split; constructor]. Qed.
End scheduler.
