(* ===== verification/WorkLiveness.v ===== *)
(** * Works: what the scheduler guarantees

    From the scheduler's creation on, no event is an error; a work that reports
    success has done all of its parts; and whatever order its events come in, the
    scheduler settles: every work ends, or is aborted after a shutdown. *)
From stdpp Require Import base tactics list numbers sets.
From Stdlib Require Import ZArith Lia Bool.
From S2P Require Import Prelude Work WorkScheduler WorkTheorems WorkCrank WorkAbort WorkBatch WorkTrees WorkSchedulerTheorems.

Open Scope nat_scope.
Open Scope kin_scope.

Section scheduler.
Context {L : Type} `{TaskLaws L} (N : nat) (HN : 0 < N).
#[local] Notation Work := (@Work L).
#[local] Notation WorkScheduler := (@WorkScheduler L).

Lemma work_at_wf (path : list nat) (w t : Work) : wf w -> work_at path w = Some t -> wf t.
Proof.
  revert w. induction path as [|i path IH]; intros w Hw Ht; [by simplify_eq/=|].
  destruct Hw as [b x Hb|b ws n cur stop Hb Hws Hs|b p ys rest Hb Hp Hys Hk]; simpl in Ht; [done|..].
  - destruct (ws !! i) as [c|] eqn:Hi; [|done]. apply (IH c); [by eapply Forall_lookup_1 in Hws|done].
  - destruct (mAdded p !! i) as [c|] eqn:Hi; [|done]. apply (IH (c_work c)); [by apply (Forall_lookup_1 _ _ _ _ Hp Hi)|done].
Qed.

Lemma scheduler_work_at_wf (path : list nat) (s : WorkScheduler) (t : Work) :
  scheduler_ok s -> scheduler_work_at path s = Some t -> wf t.
Proof.
  intros Hok Ht. destruct path as [|i path]; [done|]. simpl in Ht.
  destruct (mAdded (s_children s) !! i) as [c|] eqn:Hi; [|done].
  apply (work_at_wf path (c_work c)); [|done]. by apply (Forall_lookup_1 _ _ _ _ (co_wf _ _ (cr_children _ (sk_cranked _ Hok))) Hi).
Qed.

(** An event that is due. *)
Lemma due_ok (e : Event) (s : WorkScheduler) :
  scheduler_ok s -> due s e ->
  exists s', handle N e s = Ok s' /\ scheduler_ok s' /\ scheduler_weight s' < scheduler_weight s /\
    (state s = ABORTING -> state s' = ABORTING \/ state s' = ABORTED).
Proof.
  intros Hok [yields Hm|path b x Ht Hw|path w Ht Hs Htm]; cbn [handle].
  - by apply run_posted_ok.
  - destruct (deliver_wakes wakeUp path (TaskWork b x) s Hok Ht) as (s'&?&?&?&Hst).
    + apply wakeUp_wakes; [by eapply scheduler_work_at_wf|done].
    + exists s'. split_and!; try done. destruct Hst as [Hst|Hst]; rewrite Hst; done.
  - destruct (deliver_wakes retryTimerFired path w s Hok Ht) as (s'&?&?&?&Hst).
    + apply retry_wakes; [by eapply scheduler_work_at_wf|done|done].
    + exists s'. split_and!; try done. destruct Hst as [Hst|Hst]; rewrite Hst; done.
Qed.

Lemma enabled_ok (e : Event) (s : WorkScheduler) :
  scheduler_ok s -> enabled s e -> exists s', handle N e s = Ok s' /\ scheduler_ok s'.
Proof.
  intros Hok [e' Hd|w Hb| |path w Ht Hs|path w Ht Hs Htm].
  - destruct (due_ok e' s Hok Hd) as (s'&?&?&_). by exists s'.
  - by apply schedule_ok.
  - destruct (scheduler_shutdown_ok s Hok) as (s'&?&?&_). by exists s'.
  - exists s. split; [|done]. apply (deliver_late wakeUp path w s Ht). unfold wakeUp. by destruct (state w).
  - exists s. split; [|done]. apply (deliver_late retryTimerFired path w s Ht).
    assert (basic_ok (basic w)) as Hb by (pose proof (scheduler_work_at_wf _ _ _ Hok Ht) as Hw; by destruct Hw).
    assert (state w = ABORTING) as Ha.
    { unfold state in *. destruct (bo_timer _ Hb Htm) as [[? _]|?]; congruence. }
    unfold retryTimerFired. by rewrite Ha.
Qed.

Lemma reachable_ok (s : WorkScheduler) : reachable N s -> scheduler_ok s.
Proof.
  induction 1 as [s Hs|s s' e Hr IH He Hh].
  - destruct (create_ok (L := L) N) as (s0&Hs0&Hok). rewrite Hs in Hs0. by injection Hs0 as ->.
  - destruct (enabled_ok e s IH He) as (s1&Hs1&Hok). rewrite Hh in Hs1. by injection Hs1 as ->.
Qed.
(** ** Works that have succeeded *)

(** All parts of a work, down to the tasks, have succeeded: every work of a
    sequence, and every work a batch yields. *)
Inductive completed : Work -> Prop :=
  | completed_task b x : mState b = SUCCESS -> completed (TaskWork b x)
  | completed_sequence b ws n cur stop :
      mState b = SUCCESS -> Forall completed ws -> completed (WorkSequence b ws n cur stop)
  | completed_batch b p ys rest :
      mState b = SUCCESS -> c_name <$> mAdded p = fst <$> ys ->
      Forall (fun c => completed (c_work c)) (mAdded p) -> completed (BatchWork b p ys rest).

Lemma success_completed (w : Work) : wf w -> state w = SUCCESS -> completed w.
Proof.
  induction w as [b x|b ws n cur stop IH|b p ys rest IH _ _] using Work_tree_ind; intros Hw Hs; change (mState b = SUCCESS) in Hs.
  - by constructor.
  - inversion Hw as [|? ? ? ? ? Hbo Hws Hso|]; subst. constructor; [done|].
    pose proof (so_success _ _ _ _ Hso Hs) as Hall.
    eapply Forall_impl; [exact (proj2 (Forall_and _ _) (conj IH (proj2 (Forall_and _ _) (conj Hws Hall))))|].
    intros w (Hi&Hwf&Hst). by apply Hi.
  - inversion Hw as [| |? ? ? ? Hbo Hp Hys Hk]; subst. destruct (bk_success _ _ _ _ Hk Hs) as [-> Hall]. constructor; [done|..].
    + rewrite (bk_rest _ _ _ _ Hk). by rewrite app_nil_r.
    + eapply Forall_impl; [exact (proj2 (Forall_and _ _) (conj IH (proj2 (Forall_and _ _) (conj Hp Hall))))|].
      intros c (Hi&Hwf&Hst&_). by apply Hi.
Qed.

(** ** Settling *)

(** Nothing is due, and every work has ended. *)
Record settled (s : WorkScheduler) : Prop := {
  st_state : state s = WAITING \/ state s = ABORTED;
  st_done : Forall (fun c => isDone (c_work c) = true) (mAdded (s_children s));
  st_no_event : forall e, ~ due s e;
}.

(** Whatever events come, one that is due after the other, [P] comes to hold; and
    until it does there is one. *)
Inductive inevitably (P : WorkScheduler -> Prop) (s : WorkScheduler) : Prop :=
  | inevitably_now : P s -> inevitably P s
  | inevitably_next :
      (exists e, due s e) ->
      (forall e, due s e -> exists s', handle N e s = Ok s' /\ inevitably P s') -> inevitably P s.

Lemma due_runs (s : WorkScheduler) : scheduler_ok s -> can_run s -> due s (RunPosted []).
Proof using Type.
  intros Hok Hs. constructor. rewrite (sk_scheduled _ Hok). apply bool_decide_eq_true. unfold getState.
  by destruct Hs as [-> | ->].
Qed.

(** Below a child that has ended nothing waits. *)
Lemma done_no_event (s : WorkScheduler) (e : Event) :
  scheduler_ok s -> mScheduled s = false ->
  Forall (fun c => isDone (c_work c) = true) (mAdded (s_children s)) -> ~ due s e.
Proof using H0.
  intros Hok Hm Hd He.
  assert (forall path t, scheduler_work_at path s = Some t -> state t = WAITING -> False) as Hno.
  { intros path t Ht Hs. destruct path as [|i path]; [done|]. simpl in Ht.
    destruct (mAdded (s_children s) !! i) as [c|] eqn:Hi; [|done].
    apply (waiting_not_quiet t Hs), (work_at_quiet path (c_work c)); [|done|left; apply done_quiet, (Forall_lookup_1 _ _ _ _ Hd Hi)].
    by apply (Forall_lookup_1 _ _ _ _ (co_wf _ _ (cr_children _ (sk_cranked _ Hok))) Hi). }
  destruct He as [yields He|path b x Ht [Hs _]|path w Ht Hs _]; [congruence|by apply (Hno path _ Ht)|by apply (Hno path w)].
Qed.

Lemma settled_or_due (s : WorkScheduler) : scheduler_ok s -> settled s \/ exists e, due s e.
Proof using H0.
  intros Hok. pose proof (sk_scheduled _ Hok) as Hm. unfold getState in Hm.
  destruct (scheduler_states s Hok) as [[[Hs|Hs] Hl]|[[Hs Ha]|[Hs Ha]]].
  - right. eexists. apply due_runs; [done|by left].
  - destruct (decide (Forall (fun c => isDone (c_work c) = true) (mAdded (s_children s)))) as [Hd|Hd].
    + left. split; [by left|done|]. intros e. apply done_no_event; [done|by rewrite Hm, Hs|done].
    + right. apply not_Forall_Exists in Hd; [|intros c; apply _]. apply Exists_exists in Hd as (c&Hin&Hd).
      apply list_elem_of_lookup in Hin as [i Hi]. pose proof (cr_children _ (sk_cranked _ Hok)) as [Hw _ Hc].
      rewrite Hs in Hc. destruct Hc as [_ Hno]. pose proof (Forall_lookup_1 _ _ _ _ Hno Hi) as Hnr.
      destruct (Forall_lookup_1 _ _ _ _ Hl Hi) as [Hch Hu].
      assert (c_child c = true) as Ec by (apply not_false_iff_true; intros E; by apply Hd, Hch).
      assert (state (c_work c) = WAITING) as Hst.
      { apply not_true_iff_false in Hnr. rewrite runs_true in Hnr. unfold compose in Hd. unfold getState, isDone in *.
        destruct (Hu Ec) as [E|[E|[E|E]]]; rewrite E in *; simpl in *; [by destruct Hnr|done|by destruct Hd|by destruct Hd]. }
      destruct (waiting_event (c_work c)) as (path&t&Ht&Hwt&Hts&Hcase); [by apply (Forall_lookup_1 _ _ _ _ Hw Hi)|done|].
      assert (scheduler_work_at (i :: path) s = Some t) as Hat by (simpl; by rewrite Hi).
      destruct Hcase as [Htm|(b&x&->&Hwb)]; [eexists; by eapply due_retry|eexists; by eapply due_task].
  - right. eexists. apply due_runs; [done|by right].
  - left. split; [by right|by rewrite Ha|]. intros e. apply done_no_event; [done|by rewrite Hm, Hs|by rewrite Ha].
Qed.

Lemma ok_inevitably (P Q : WorkScheduler -> Prop) (s : WorkScheduler) :
  (forall s e s', P s -> due s e -> scheduler_ok s -> handle N e s = Ok s' -> P s') ->
  (forall s, P s -> settled s -> Q s) -> scheduler_ok s -> P s -> inevitably Q s.
Proof.
  intros Hp Hq. remember (scheduler_weight s) as n eqn:Hn. revert s Hn.
  induction n as [n IH] using lt_wf_ind. intros s -> Hok Hs.
  destruct (settled_or_due s Hok) as [Hst|Hd]; [left; by apply Hq|]. right; [done|]. intros e He.
  destruct (due_ok e s Hok He) as (s'&Hh&Hok'&Hlt&_). exists s'. split; [done|].
  eapply IH; [exact Hlt|done|done|by apply (Hp s e)].
Qed.

Lemma settles (s : WorkScheduler) : scheduler_ok s -> inevitably settled s.
Proof. intros Hok. by apply (ok_inevitably (fun _ => True)). Qed.

Lemma abort_settles (s : WorkScheduler) :
  scheduler_ok s -> state s = ABORTING \/ state s = ABORTED ->
  inevitably (fun s => settled s /\ state s = ABORTED) s.
Proof.
  intros Hok Hs. apply (ok_inevitably (fun s => state s = ABORTING \/ state s = ABORTED)); [..|done|done].
  - intros s1 e s2 H1 He Hok1 Hh. destruct (due_ok e s1 Hok1 He) as (s2'&Hh'&_&Hlt&Ha).
    rewrite Hh in Hh'. injection Hh' as <-. destruct H1 as [H1|H1]; [by apply Ha|].
    unfold scheduler_weight in Hlt at 2. rewrite H1 in Hlt. lia.
  - intros s1 H1 Hst. split; [done|]. destruct H1 as [H1|?]; [|done]. destruct (st_state _ Hst); congruence.
Qed.

(** The loop of the posted callback ends by itself, also when the clock never
    asks to yield. *)
Lemma crank_loop_ends (n : nat) (s : WorkScheduler) :
  cranked_ok s -> can_run s -> scheduler_weight s <= n ->
  exists s', crank_loop N (repeat false n) s = Ok s' /\ getState s' <> WORK_RUNNING.
Proof.
  revert s. induction n as [|n IH]; intros s Hok Hs Hn.
  { rewrite weight_run in Hn by done. lia. }
  simpl. destruct (scheduler_crank_ok N HN s Hok Hs) as (s1&->&Hr). cbn [res_bind]. case_bool_decide as Hg; [|by exists s1].
  apply (IH s1 (cs_ok _ _ Hr)); [|destruct Hr; lia].
  unfold can_run, getState in *. destruct Hr as [_ _ _ Hst]. destruct (decide _); destruct Hst as [E|E]; rewrite E in Hg |- *; auto; done.
Qed.
(** C7. No sequence of events, from the creation of the scheduler on, makes the
    works or the scheduler throw or fail an assertion, and each leaves them
    well-formed: the transitions that are made are allowed ones, a work is only
    cranked while it can run, children are only cleared when they are done, a
    [BatchWork] does not lose or repeat a work, a parent that waits has a child
    that waits, and the scheduler's callback is posted exactly when it can run. *)
Theorem work_events_safe (s : WorkScheduler) :
  reachable N s ->
  scheduler_ok s /\ forall e, enabled s e -> exists s', handle N e s = Ok s' /\ scheduler_ok s'.
Proof.
  intros Hr%reachable_ok. split; [done|]. intros e. by apply enabled_ok.
Qed.

(** C6. Works finish.  However the events that are due follow one another - runs of
    the posted callback, tasks that wake up, retries whose time has come - the
    scheduler settles: until then one is due, and then every scheduled work has
    ended and nothing is due any more.  After a shutdown it settles aborted. *)
Theorem scheduled_works_finish (s : WorkScheduler) :
  reachable N s ->
  inevitably settled s /\
  exists s', handle N ShutDown s = Ok s' /\ inevitably (fun s => settled s /\ state s = ABORTED) s'.
Proof.
  intros Hr%reachable_ok. split; [by apply settles|].
  destruct (scheduler_shutdown_ok s Hr) as (s'&Hs&Hok&Hst). exists s'. split; [done|]. by apply abort_settles.
Qed.

(** C19. A work that reports success has completed: every work of a [WorkSequence],
    and every work a [BatchWork] yields, however they were interleaved, has
    succeeded, down to the tasks. *)
Theorem successful_work_completed (s : WorkScheduler) (path : list nat) (w : Work) :
  reachable N s -> scheduler_work_at path s = Some w -> state w = SUCCESS -> completed w.
Proof.
  intros Hr%reachable_ok Hw Hs. apply success_completed; [by eapply scheduler_work_at_wf|done].
Qed.

(** The loop of [scheduleOne]'s callback ends also when [shouldYield] never says
    so, and leaves no callback posted. *)
Theorem posted_loop_ends (s : WorkScheduler) :
  reachable N s -> mScheduled s = true ->
  exists n s', run_posted N (repeat false n) s = Ok s' /\ mScheduled s' = false.
Proof.
  intros Hr%reachable_ok Hm. exists (scheduler_weight s).
  assert (can_run s) as Hc.
  { pose proof (sk_scheduled _ Hr) as Hg. rewrite Hm in Hg. symmetry in Hg. apply bool_decide_eq_true in Hg.
    unfold can_run, getState in *. destruct (scheduler_states s Hr) as [[[E|E] _]|[[E _]|[E _]]]; rewrite E in Hg |- *; auto; done. }
  destruct (crank_loop_ends (scheduler_weight s) s (sk_cranked _ Hr) Hc (le_n _)) as (s'&Hl&Hg).
  eexists. unfold run_posted. rewrite Hl. cbn [res_bind]. split; [done|].
  change (getState (with_scheduled false s')) with (getState s'). by rewrite bool_decide_false.
Qed.
End scheduler.

(** ** An example *)

(** A task that runs or waits by a script, and fails its first attempt or none. *)
Record Script := { steps : list bool; place : nat; stumbles : bool; attempts : nat }.

#[export] Instance Script_Task : Task Script := {|
  task_run := fun x =>
    let next := {| steps := steps x; place := S (place x); stumbles := stumbles x; attempts := attempts x |} in
    match steps x !! place x with
    | Some true => (WORK_RUNNING, next)
    | Some false => (WORK_WAITING, next)
    | None => (if stumbles x && (attempts x =? 1) then WORK_FAILURE else WORK_SUCCESS, x)
    end;
  task_abort := fun x => (true, x);
  task_reset := fun x => {| steps := steps x; place := 0; stumbles := stumbles x; attempts := S (attempts x) |};
|}.

#[export] Instance Script_TaskLaws : TaskLaws Script.
Proof.
  refine {| turns := fun x => length (steps x) - place x; aborts := fun _ => 0; limit := fun x => length (steps x) |};
    try done; intros x; simpl; try lia; destruct (steps x !! place x) as [[]|] eqn:E; simpl; try done.
  - apply lookup_lt_Some in E. lia.
  - apply lookup_lt_Some in E. lia.
  - intros [Hs|Hs]; by destruct (stumbles x && _).
  - by destruct (stumbles x && _).
Defined.

Definition script (steps : list bool) (stumbles : bool) : Work (L := Script) :=
  TaskWork (newBasicWork 1) {| steps := steps; place := 0; stumbles := stumbles; attempts := 0 |}.

(** A batch of a sequence and a task that has to be retried. *)
Definition example_work : Work (L := Script) :=
  let ys := [(1, WorkSequence (newBasicWork 0) [script [true; false] false; script [] false] 0 false true);
             (2, script [true] true)] in
  BatchWork (newBasicWork 0) no_children ys ys.

Definition example_events : list (Event (L := Script)) :=
  [Schedule example_work; RunPosted (repeat false 20); RetryTimer [0; 1]; WakeTask [0; 0; 0]; RunPosted (repeat false 50)].

Fixpoint play (es : list (Event (L := Script))) (s : WorkScheduler) : wk WorkScheduler :=
  match es with [] => Ok s | e :: es' => let? s := handle 2 e s in play es' s end.

Definition example (n : nat) : wk WorkScheduler :=
  let? s := createScheduler 2 in play (take n example_events) s.

Definition example_state (n : nat) : WorkScheduler :=
  match example n with Ok s => s | Err _ => newScheduler end.

Lemma example_built : built example_work.
Proof.
  apply built_batch; [by apply (bool_decide_unpack (NoDup [1; 2]))|]. constructor; [|constructor; [constructor|constructor]].
  constructor. repeat constructor.
Qed.

Lemma example_reachable :
  reachable 2 (example_state 2) /\ reachable 2 (example_state 4) /\ reachable 2 (example_state 5).
Proof.
  assert (reachable 2 (example_state 2)) as H2.
  { eapply (reach_event 2 (example_state 1) _ (RunPosted (repeat false 20)));
      [|apply enabled_due, due_posted; vm_compute; reflexivity|vm_compute; reflexivity].
    eapply (reach_event 2 (example_state 0) _ (Schedule example_work));
      [|apply enabled_schedule, example_built|vm_compute; reflexivity].
    apply reach_create. vm_compute. reflexivity. }
  assert (reachable 2 (example_state 4)) as H4.
  { eapply (reach_event 2 (example_state 3) _ (WakeTask [0; 0; 0]));
      [|eapply enabled_due, due_task; [vm_compute; reflexivity|split; reflexivity]|vm_compute; reflexivity].
    eapply (reach_event 2 (example_state 2) _ (RetryTimer [0; 1]));
      [exact H2|eapply enabled_due, due_retry; [vm_compute; reflexivity|reflexivity|reflexivity]|vm_compute; reflexivity]. }
  split; [done|]. split; [done|].
  eapply (reach_event 2 (example_state 4) _ (RunPosted (repeat false 50)));
    [exact H4|apply enabled_due, due_posted; vm_compute; reflexivity|vm_compute; reflexivity].
Qed.

Lemma work_events_safe_witness :
  reachable 2 (example_state 2) /\ scheduler_ok (example_state 2) /\
  exists s', handle 2 (RetryTimer [0; 1]) (example_state 2) = Ok s' /\ scheduler_ok s'.
Proof.
  split; [apply example_reachable|].
  destruct (work_events_safe 2 ltac:(lia) (example_state 2) (proj1 example_reachable)) as [Hok He].
  split; [exact Hok|]. apply He.
  eapply enabled_due, due_retry; [vm_compute; reflexivity|reflexivity|reflexivity].
Defined.

Lemma scheduled_works_finish_witness :
  reachable 2 (example_state 2) /\ ~ settled (example_state 2) /\ inevitably 2 settled (example_state 2).
Proof.
  split; [apply example_reachable|]. split.
  - intros [_ Hd _]. vm_compute in Hd. inversion Hd as [|c l Hc Hl]. discriminate Hc.
  - apply (scheduled_works_finish 2 ltac:(lia) (example_state 2)). apply example_reachable.
Defined.

Lemma successful_work_completed_witness :
  reachable 2 (example_state 5) /\ exists w, scheduler_work_at [0] (example_state 5) = Some w /\ completed w.
Proof.
  split; [apply example_reachable|].
  eexists. split; [vm_compute; reflexivity|].
  apply (successful_work_completed 2 ltac:(lia) (example_state 5) [0]); [apply example_reachable|vm_compute; reflexivity|reflexivity].
Defined.

Lemma posted_loop_ends_witness :
  reachable 2 (example_state 4) /\
  exists n s', run_posted 2 (repeat false n) (example_state 4) = Ok s' /\ mScheduled s' = false.
Proof.
  split; [apply example_reachable|].
  apply (posted_loop_ends 2 ltac:(lia) (example_state 4)); [apply example_reachable|vm_compute; reflexivity].
Defined.
