(* ===== verification/PaymentLoops.v ===== *)
(** * Loops of path payments

    [findAllAssetPairsInvolvedInPaymentLoops] of [src/herder/TransactionQueue.cpp]:
    the graph of the exchanges a transaction's path payments make, and the
    exchanges on a cycle of it, through [src/util/TarjanSCCCalculator.cpp]. *)
From stdpp Require Import base tactics numbers list gmap sets fin_sets countable relations.
From Stdlib Require Import ZArith Lia.
From S2P Require Import Prelude BitSet Tarjan LedgerEntries Fees.

Open Scope kin_scope.

(** ** The graph *)

#[global] Program Instance Asset_countable : Countable Asset :=
  inj_countable' (fun a => match a with
    | ASSET_TYPE_NATIVE => inl tt
    | ASSET_TYPE_CREDIT_ALPHANUM4 c i => inr (inl (c, i))
    | ASSET_TYPE_CREDIT_ALPHANUM12 c i => inr (inr (c, i)) end)
  (fun x => match x with
    | inl _ => ASSET_TYPE_NATIVE
    | inr (inl (c, i)) => ASSET_TYPE_CREDIT_ALPHANUM4 c i
    | inr (inr (c, i)) => ASSET_TYPE_CREDIT_ALPHANUM12 c i end) _.
Next Obligation. by intros []. Qed.

Definition AssetPair : Type := Asset * Asset.

(** The local variables of the function. *)
Record AssetGraph := {
  assetToNum : gmap Asset nat;
  numToAsset : list Asset;
  graph : list BitSet;
}.

Inductive loop_error :=
  | GraphOutOfRange            (** [graph.at], [numToAsset.at] *)
  | LoopTarjan (e : tarjan_error).

Notation lp := (result loop_error).

Definition internAsset (a : Asset) (g : AssetGraph) : nat * AssetGraph :=
  match assetToNum g !! a with
  | Some n => (n, g)
  | None =>
      let n := length (numToAsset g) in
      (n, {| assetToNum := <[a := n]> (assetToNum g); numToAsset := numToAsset g ++ [a]; graph := graph g ++ [∅] |})
  end.

Definition internEdge (src dst : Asset) (g : AssetGraph) : lp AssetGraph :=
  let '(si, g) := internAsset src g in
  let '(di, g) := internAsset dst g in
  match graph g !! si with
  | None => Err GraphOutOfRange
  | Some s =>
      Ok {| assetToNum := assetToNum g; numToAsset := numToAsset g; graph := <[si := {[di]} ∪ s]> (graph g) |}
  end.

Fixpoint internSegment (prev dst : Asset) (path : list Asset) (g : AssetGraph) : lp AssetGraph :=
  match path with
  | [] => internEdge prev dst g
  | a :: path' => let? g := internEdge prev a g in internSegment a dst path' g
  end.

Fixpoint internOperations (ops : list OperationBody) (g : AssetGraph) : lp AssetGraph :=
  match ops with
  | [] => Ok g
  | op :: ops' =>
      let? g := match op with
        | PATH_PAYMENT_STRICT_RECEIVE sendAsset destAsset path => internSegment sendAsset destAsset path g
        | PATH_PAYMENT_STRICT_SEND sendAsset destAsset path => internSegment sendAsset destAsset path g
        | _ => Ok g
        end in
      internOperations ops' g
  end.

(** [graph.at(i)]; the calculator asks for nodes of its array only. *)
Definition successors (g : AssetGraph) (i : nat) : BitSet := default ∅ (graph g !! i).

(** The two loops over a component. *)
Fixpoint pairsFrom (g : AssetGraph) (src : nat) (dsts : list nat) : lp (list AssetPair) :=
  match dsts with
  | [] => Ok []
  | dst :: dsts' =>
      match numToAsset g !! src, numToAsset g !! dst with
      | Some a, Some b => let? ret := pairsFrom g src dsts' in Ok ((a, b) :: ret)
      | _, _ => Err GraphOutOfRange
      end
  end.

Fixpoint pairsOf (g : AssetGraph) (scc : BitSet) (srcs : list nat) : lp (list AssetPair) :=
  match srcs with
  | [] => Ok []
  | src :: srcs' =>
      match graph g !! src with
      | None => Err GraphOutOfRange
      | Some s =>
          let? ret := pairsFrom g src (bits (s ∩ scc)) in
          let? rest := pairsOf g scc srcs' in
          Ok (ret ++ rest)
      end
  end.

Fixpoint pairsOfSCCs (g : AssetGraph) (sccs : list BitSet) : lp (list AssetPair) :=
  match sccs with
  | [] => Ok []
  | scc :: sccs' =>
      let? ret := (if (1 <? count scc)%nat then pairsOf g scc (bits scc) else Ok []) in
      let? rest := pairsOfSCCs g sccs' in
      Ok (ret ++ rest)
  end.

Definition findAllAssetPairsInvolvedInPaymentLoops (ops : list OperationBody) : lp (list AssetPair) :=
  let? g := internOperations ops {| assetToNum := ∅; numToAsset := []; graph := [] |} in
  let? (_, tsc) := res_err LoopTarjan (calculateSCCs (successors g) (length (graph g)) noSCCs) in
  pairsOfSCCs g (mSCCs tsc).

(** ** What it finds *)

(** The exchanges of a path payment. *)
Fixpoint hops (prev dst : Asset) (path : list Asset) : list AssetPair :=
  match path with
  | [] => [(prev, dst)]
  | a :: path' => (prev, a) :: hops a dst path'
  end.

Definition op_hops (op : OperationBody) : list AssetPair :=
  match op with
  | PATH_PAYMENT_STRICT_RECEIVE s d p | PATH_PAYMENT_STRICT_SEND s d p => hops s d p
  | _ => []
  end.

Definition hop (ops : list OperationBody) (a b : Asset) : Prop := (a, b) ∈ ops ≫= op_hops.

(** The graph of the exchanges [H]. *)
Record interned (g : AssetGraph) (H : list AssetPair) : Prop := {
  in_length : length (graph g) = length (numToAsset g);
  in_names : forall a i, assetToNum g !! a = Some i <-> numToAsset g !! i = Some a;
  in_range : forall i s j, graph g !! i = Some s -> j ∈ s -> (j < length (graph g))%nat;
  in_edges : forall a b, (a, b) ∈ H <-> exists i j s,
    numToAsset g !! i = Some a /\ numToAsset g !! j = Some b /\ graph g !! i = Some s /\ j ∈ s;
}.

Lemma internAsset_ok (a : Asset) (g : AssetGraph) (H : list AssetPair) :
  interned g H -> exists i g', internAsset a g = (i, g') /\ interned g' H /\ numToAsset g' !! i = Some a /\
    forall j b, numToAsset g !! j = Some b -> numToAsset g' !! j = Some b.
Proof.
  intros [Hl Hn Hr He]. unfold internAsset. destruct (assetToNum g !! a) as [i|] eqn:Ha.
  { exists i, g. split; [done|]. split; [done|]. split; [by apply Hn|done]. }
  eexists _, _. split; [done|]. cbn [numToAsset graph assetToNum]. split; [|split; [by rewrite lookup_app_r, Nat.sub_diag by lia|]].
  2:{ intros j b Hj. by apply lookup_app_l_Some. }
  split; cbn [numToAsset graph assetToNum].
  - rewrite !length_app. simpl. lia.
  - intros b i. rewrite lookup_insert_Some, Hn, lookup_app_Some, list_lookup_singleton_Some. split.
    + intros [[<- <-]|[Hne Hi]]; [right; split; [lia|split; [lia|done]]|by left].
    + intros [Hi|(Hle&Hi&<-)]; [|left; split; [done|lia]]. right. split; [|done]. intros ->. apply Hn in Hi. congruence.
  - intros i s j Hi Hj. rewrite length_app. simpl. apply lookup_app_Some in Hi as [Hi|[_ Hi]]; [specialize (Hr i s j Hi Hj); lia|].
    apply list_lookup_singleton_Some in Hi as [_ <-]. set_solver.
  - intros x y. rewrite He. split.
    + intros (i&j&s&Hx&Hy&Hs&Hj). exists i, j, s. repeat split; [by apply lookup_app_l_Some..|done].
    + intros (i&j&s&Hx&Hy&Hs&Hj). apply lookup_app_Some in Hs as [Hs|[_ Hs]].
      2:{ apply list_lookup_singleton_Some in Hs as [_ <-]. set_solver. }
      exists i, j, s. pose proof (Hr i s j Hs Hj) as Hjl. pose proof (lookup_lt_Some _ _ _ Hs) as Hil.
      rewrite lookup_app_l in Hx by lia. rewrite lookup_app_l in Hy by lia. done.
Qed.

Lemma interned_unique (g : AssetGraph) (H : list AssetPair) (i j : nat) (a : Asset) :
  interned g H -> numToAsset g !! i = Some a -> numToAsset g !! j = Some a -> i = j.
Proof. intros Hg Hi Hj. apply (in_names _ _ Hg) in Hi, Hj. congruence. Qed.

Lemma internEdge_ok (a b : Asset) (g : AssetGraph) (H : list AssetPair) :
  interned g H -> exists g', internEdge a b g = Ok g' /\ interned g' ((a, b) :: H).
Proof.
  intros Hg. unfold internEdge. destruct (internAsset_ok a g H Hg) as (si&g1&->&Hg1&Ha1&_).
  destruct (internAsset_ok b g1 H Hg1) as (di&g2&->&Hg2&Hb2&Hk2). pose proof (Hk2 _ _ Ha1) as Ha2.
  pose proof Hg2 as [Hl Hn Hr He].
  destruct (lookup_lt_is_Some_2 (graph g2) si) as [s Hs]; [rewrite Hl; by eapply lookup_lt_Some|]. rewrite Hs.
  pose proof (lookup_lt_Some _ _ _ Hb2) as Hdi. pose proof (lookup_lt_Some _ _ _ Hs) as Hsi.
  eexists. split; [done|]. split; cbn [numToAsset graph assetToNum].
  - by rewrite length_insert.
  - done.
  - intros i s' j Hi Hj. rewrite length_insert. apply list_lookup_insert_Some in Hi as [(<-&<-&_)|[_ Hi]]; [|by eapply Hr].
    apply elem_of_union in Hj as [->%elem_of_singleton|Hj]; [lia|by eapply Hr].
  - intros x y. rewrite elem_of_cons, He. split.
    + intros [[= -> ->]|(i&j&s'&Hx&Hy&Hs'&Hj)].
      * exists si, di, ({[di]} ∪ s). repeat split; [done|done|by apply list_lookup_insert_eq|set_solver].
      * destruct (decide (i = si)) as [->|Hne].
        -- exists si, j, ({[di]} ∪ s). repeat split; [done|done|by apply list_lookup_insert_eq|]. rewrite Hs in Hs'. injection Hs' as <-. set_solver.
        -- exists i, j, s'. repeat split; [done|done|by rewrite list_lookup_insert_ne|done].
    + intros (i&j&s'&Hx&Hy&Hs'&Hj). apply list_lookup_insert_Some in Hs' as [(<-&<-&_)|[_ Hs']]; [|right; by exists i, j, s'].
      apply elem_of_union in Hj as [->%elem_of_singleton|Hj]; [left; congruence|right; by exists si, j, s].
Qed.

Lemma interned_ext (g : AssetGraph) (H H' : list AssetPair) : interned g H -> (forall p, p ∈ H <-> p ∈ H') -> interned g H'.
Proof. intros [Hl Hn Hr He] Hp. split; try done. intros a b. by rewrite <- Hp. Qed.

Lemma internSegment_ok (path : list Asset) (dst : Asset) : forall (prev : Asset) (g : AssetGraph) (H : list AssetPair),
  interned g H -> exists g', internSegment prev dst path g = Ok g' /\ interned g' (H ++ hops prev dst path).
Proof.
  induction path as [|a path IH]; intros prev g H Hg; simpl.
  - destruct (internEdge_ok prev dst g H Hg) as (g'&->&Hg'). exists g'. split; [done|]. apply (interned_ext _ _ _ Hg'). set_solver.
  - destruct (internEdge_ok prev a g H Hg) as (g1&->&Hg1). cbn [res_bind]. destruct (IH a g1 _ Hg1) as (g'&->&Hg').
    exists g'. split; [done|]. apply (interned_ext _ _ _ Hg'). set_solver.
Qed.

Lemma internOperations_ok (ops : list OperationBody) : forall (g : AssetGraph) (H : list AssetPair),
  interned g H -> exists g', internOperations ops g = Ok g' /\ interned g' (H ++ (ops ≫= op_hops)).
Proof.
  induction ops as [|op ops IH]; intros g H Hg.
  { exists g. split; [done|]. cbn. by rewrite app_nil_r. }
  assert (exists g1, match op with
      | PATH_PAYMENT_STRICT_RECEIVE s d p => internSegment s d p g
      | PATH_PAYMENT_STRICT_SEND s d p => internSegment s d p g
      | _ => Ok g end = Ok g1 /\ interned g1 (H ++ op_hops op)) as (g1&E1&Hg1).
  { destruct op; cbn [op_hops]; try (exists g; split; [done|]; by rewrite app_nil_r); by apply internSegment_ok. }
  simpl. rewrite E1. cbn [res_bind]. destruct (IH g1 _ Hg1) as (g'&->&Hg'). exists g'. split; [done|].
  rewrite <- app_assoc in Hg'. exact Hg'.
Qed.

(** The nodes of the graph and the assets. *)
Section graph.
Context (g : AssetGraph) (H : list AssetPair) (Hg : interned g H).

Definition named (i : nat) (a : Asset) : Prop := numToAsset g !! i = Some a.

Lemma successors_range (i j : nat) : j ∈ successors g i -> (j < length (graph g))%nat.
Proof using Hg. unfold successors. destruct (graph g !! i) as [s|] eqn:Hs; simpl; [by apply (in_range _ _ Hg i)|set_solver]. Qed.

Lemma named_total (i : nat) : (i < length (graph g))%nat -> exists a, named i a.
Proof using Hg. intros Hi. rewrite (in_length _ _ Hg) in Hi. by apply lookup_lt_is_Some_2 in Hi as [a Ha]; exists a. Qed.

Lemma edge_hop (i j : nat) (a b : Asset) : named i a -> named j b -> edge (successors g) i j <-> (a, b) ∈ H.
Proof using Hg.
  intros Hi Hj. unfold edge, successors. rewrite (in_edges _ _ Hg). split.
  - destruct (graph g !! i) as [s|] eqn:Hs; simpl; [|set_solver]. intros Hjs. by exists i, j, s.
  - intros (i'&j'&s&Hi'&Hj'&Hs&Hjs). assert (i' = i) as -> by (by eapply interned_unique). assert (j' = j) as -> by (by eapply interned_unique).
    by rewrite Hs.
Qed.

Lemma reach_hops (i j : nat) (a b : Asset) : named i a -> named j b -> rtc (edge (successors g)) i j <-> rtc (fun x y => (x, y) ∈ H) a b.
Proof using Hg.
  intros Hi Hj. split.
  - intros Hr. revert a Hi. induction Hr as [i|i k j Hik Hkj IH]; intros a Hi; [unfold named in *; replace b with a by congruence; constructor|].
    destruct (named_total k) as [c Hc]; [by eapply successors_range|]. eapply rtc_l; [by apply (edge_hop i k)|by apply IH].
  - intros Hr. revert i Hi. induction Hr as [a|a c b Hac Hcb IH]; intros i Hi; [replace j with i by (by eapply interned_unique); constructor|].
    pose proof Hac as (i'&k&s&Hi'&Hk&_&_)%(in_edges _ _ Hg). assert (i' = i) as -> by (by eapply interned_unique).
    eapply rtc_l; [by apply (edge_hop i k a c)|by apply IH].
Qed.

Lemma pairsFrom_ok (i : nat) (a : Asset) (dsts : list nat) :
  named i a -> Forall (fun j => j < length (graph g))%nat dsts ->
  exists ret, pairsFrom g i dsts = Ok ret /\ (NoDup dsts -> NoDup ret) /\
    forall x y, (x, y) ∈ ret <-> x = a /\ exists j, j ∈ dsts /\ named j y.
Proof using Hg.
  intros Hi. induction 1 as [|j dsts Hj Hd IH]; simpl.
  { exists []. split; [done|]. split; [constructor|]. intros x y. split; [by intros ?%not_elem_of_nil|by intros (_&j&?%not_elem_of_nil&_)]. }
  destruct (named_total j Hj) as [b Hb]. unfold named in Hi, Hb. rewrite Hi, Hb. destruct IH as (ret&->&Hnd&Hret). cbn [res_bind].
  exists ((a, b) :: ret). split; [done|]. split.
  - intros [Hnj Hnd']%NoDup_cons. apply NoDup_cons. split; [|by apply Hnd]. intros (_&k&Hk&Hkb)%Hret. apply Hnj.
    by replace j with k by (by eapply interned_unique).
  - intros x y. rewrite elem_of_cons, Hret. split.
    + intros [[= -> ->]|[-> (k&Hk&Hky)]]; [split; [done|exists j; split; [by left|done]]|split; [done|exists k; split; [by right|done]]].
    + intros [-> (k&[->|Hk]%elem_of_cons&Hky)]; [left; unfold named in Hky; congruence|right; split; [done|by exists k]].
Qed.

Lemma pairsOf_ok (C : BitSet) (srcs : list nat) :
  Forall (fun i => i < length (graph g))%nat srcs ->
  exists ret, pairsOf g C srcs = Ok ret /\ (NoDup srcs -> NoDup ret) /\
    forall x y, (x, y) ∈ ret <-> exists i j, i ∈ srcs /\ j ∈ C /\ named i x /\ named j y /\ edge (successors g) i j.
Proof using Hg.
  induction 1 as [|i srcs Hi Hs IH]; simpl.
  { exists []. split; [done|]. split; [constructor|]. intros x y. split; [by intros ?%not_elem_of_nil|by intros (i&j&?%not_elem_of_nil&_)]. }
  destruct (lookup_lt_is_Some_2 (graph g) i Hi) as [s Hgi]. rewrite Hgi. destruct (named_total i Hi) as [a Ha].
  destruct (pairsFrom_ok i a (bits (s ∩ C)) Ha) as (ret&->&Hnd1&Hret); [|].
  { apply Forall_forall. intros j Hj. rewrite elem_of_bits in Hj. apply (in_range _ _ Hg i s); [done|set_solver]. }
  cbn [res_bind]. destruct IH as (rest&->&Hnd2&Hrest). cbn [res_bind]. exists (ret ++ rest). split; [done|]. split.
  - intros [Hni Hnd]%NoDup_cons. apply NoDup_app. split; [apply Hnd1, NoDup_bits|]. split; [|by apply Hnd2].
    intros [x y] [-> _]%Hret (k&j&Hk&_&Hka&_)%Hrest. apply Hni. by replace i with k by (by eapply interned_unique).
  - intros x y. rewrite elem_of_app, Hret, Hrest. setoid_rewrite elem_of_cons. setoid_rewrite elem_of_bits.
    assert (forall j, j ∈ s <-> edge (successors g) i j) as Hedge by (intros j; unfold edge, successors; by rewrite Hgi). split.
    + intros [[-> (j&Hj&Hy)]|(k&j&Hk&Hrest')]; [|exists k, j; split; [by right|done]].
      apply elem_of_intersection in Hj as [Hj HjC]. exists i, j. split; [by left|]. split; [done|]. split; [done|]. split; [done|by apply Hedge].
    + intros (k&j&[->|Hk]&HjC&Hx&Hy&He); [left|right; by exists k, j]. split; [unfold named in *; congruence|].
      exists j. split; [|done]. apply elem_of_intersection. split; [by apply Hedge|done].
Qed.

Lemma pairsOfSCCs_ok (sccs : list BitSet) :
  Forall (fun C => forall i, i ∈ C -> i < length (graph g))%nat sccs -> NoDup sccs ->
  (forall C D i, C ∈ sccs -> D ∈ sccs -> i ∈ C -> i ∈ D -> C = D) ->
  exists ret, pairsOfSCCs g sccs = Ok ret /\ NoDup ret /\
    forall x y, (x, y) ∈ ret <-> exists C i j, C ∈ sccs /\ (1 < count C)%nat /\ i ∈ C /\ j ∈ C /\
      named i x /\ named j y /\ edge (successors g) i j.
Proof using Hg.
  induction 1 as [|C sccs HC Hs IH]; intros Hnd Hdis; simpl.
  { exists []. split; [done|]. split; [constructor|]. intros x y. split; [by intros ?%not_elem_of_nil|by intros (C&i&j&?%not_elem_of_nil&_)]. }
  apply NoDup_cons in Hnd as [HnC Hnd].
  destruct IH as (rest&->&Hnd2&Hrest); [done|intros D D' i HD HD'; apply Hdis; by right|].
  assert (exists ret, (if (1 <? count C)%nat then pairsOf g C (bits C) else Ok []) = Ok ret /\ NoDup ret /\
    forall x y, (x, y) ∈ ret <-> (1 < count C)%nat /\ exists i j, i ∈ C /\ j ∈ C /\ named i x /\ named j y /\ edge (successors g) i j)
    as (ret&->&Hnd1&Hret).
  { destruct (Nat.ltb_spec 1 (count C)) as [Hc|Hc].
    - destruct (pairsOf_ok C (bits C)) as (ret&->&Hndr&Hret); [apply Forall_forall; intros i Hi; apply HC; by apply elem_of_bits|].
      exists ret. split; [done|]. split; [by apply Hndr, NoDup_bits|]. intros x y. rewrite Hret. setoid_rewrite elem_of_bits. tauto.
    - exists []. split; [done|]. split; [constructor|]. intros x y. split; [by intros ?%not_elem_of_nil|]. intros [? _]. lia. }
  cbn [res_bind]. exists (ret ++ rest). split; [done|]. split.
  - apply NoDup_app. split; [done|]. split; [|done]. intros [x y] (_&i&j&Hi&_&Hx&_)%Hret (D&i'&j'&HD&_&Hi'&_&Hx'&_)%Hrest. apply HnC.
    replace C with D; [done|]. apply (Hdis D C i); [by right|by left|by replace i with i' by (by eapply interned_unique)|done].
  - intros x y. rewrite elem_of_app, Hret, Hrest. setoid_rewrite elem_of_cons. split.
    + intros [(Hc&i&j&Hi&Hj)|(D&i&j&HD&Hrest')]; [exists C, i, j; split; [by left|done]|exists D, i, j; split; [by right|done]].
    + intros (D&i&j&[->|HD]&Hc&Hi&Hj); [left; split; [done|by exists i, j]|right; by exists D, i, j].
Qed.
End graph.

(** A component with another member. *)
Lemma count_other (C : BitSet) (i : nat) : i ∈ C -> (1 < count C)%nat <-> exists k, k ∈ C /\ k <> i.
Proof.
  unfold BitSet, count in *. intros Hi. split.
  - intros Hc. destruct (set_choose_or_empty (C ∖ {[i]})) as [[k Hk]|He]; [exists k; set_solver|].
    assert (C = {[i]}) as HC; [|rewrite HC, size_singleton in Hc; lia]. apply set_eq. intros k. rewrite elem_of_singleton.
    split; [|by intros ->]. intros Hk. destruct (decide (k = i)) as [|Hne]; [done|].
    assert (k ∈ C ∖ {[i]}) as Hin by (by apply elem_of_difference; rewrite elem_of_singleton). rewrite He in Hin. by apply elem_of_empty in Hin.
  - intros (k&Hk&Hne). assert (size ({[i; k]} : gset nat) <= size C)%nat as Hle by (apply subseteq_size; set_solver).
    rewrite size_union, !size_singleton in Hle by set_solver. exact Hle.
Qed.

(** The components as [calculateSCCs] leaves them. *)
Lemma components_ok (n : nat) (succ : nat -> BitSet) (s0 : TarjanSCCCalculator) :
  (forall v w, w ∈ succ v -> (w < n)%nat) ->
  exists s, calculateSCCs succ n s0 = Ok (tt, s) /\ NoDup (mSCCs s) /\
    Forall (fun C => forall i, i ∈ C -> i < n)%nat (mSCCs s) /\
    (forall C D i, C ∈ mSCCs s -> D ∈ mSCCs s -> i ∈ C -> i ∈ D -> C = D) /\
    forall i j, (i < n)%nat -> (j < n)%nat ->
      (exists C, C ∈ mSCCs s /\ i ∈ C /\ j ∈ C) <-> rtc (edge succ) i j /\ rtc (edge succ) j i.
Proof.
  intros Hsucc. pose proof (calculateSCCs_ok n succ Hsucc s0) as Hok. unfold wp in Hok.
  destruct (calculateSCCs succ n s0) as [[[] s]|]; [|done]. destruct Hok as [Hinv Hv]. exists s. split; [done|].
  pose proof (inv_class _ _ _ _ Hinv) as Hcl. rewrite Forall_forall in Hcl. split; [apply (inv_distinct _ _ _ _ Hinv)|]. split; [|split].
  - apply Forall_forall. intros C HC i Hi. destruct (Hcl C HC) as (r&Hrn&HCr). by destruct (proj1 (HCr i) Hi).
  - intros C D i HC HD HiC HiD. destruct (Hcl C HC) as (r&Hrn&HCr). destruct (Hcl D HD) as (r'&Hrn2&HDr).
    destruct (proj1 (HCr i) HiC) as (Hn&H1&H2). destruct (proj1 (HDr i) HiD) as (_&H3&H4). apply set_eq. intros v. rewrite HCr, HDr.
    split; intros (Hvn&Ha&Hb); (split; [done|split]).
    + etrans; [exact H3|]. etrans; [exact H2|exact Ha].
    + etrans; [exact Hb|]. etrans; [exact H1|exact H4].
    + etrans; [exact H1|]. etrans; [exact H4|exact Ha].
    + etrans; [exact Hb|]. etrans; [exact H3|exact H2].
  - intros i j Hi Hj. split.
    + intros (C&HC&HiC&HjC). destruct (Hcl C HC) as (r&Hrn&HCr). destruct (proj1 (HCr i) HiC) as (_&H1&H2). destruct (proj1 (HCr j) HjC) as (_&H3&H4).
      split; [etrans; [exact H2|exact H3]|etrans; [exact H4|exact H1]].
    + intros [H1 H2]. assert (exists C, C ∈ mSCCs s /\ i ∈ C) as (C&HC&HiC).
      { apply (inv_sccs _ _ _ _ Hinv). split; [by apply Hv|]. intros Hin. destruct (inv_down _ _ _ _ Hinv i Hin) as (x&Hx&_). by apply not_elem_of_nil in Hx. }
      exists C. split; [done|]. split; [done|]. destruct (Hcl C HC) as (r&Hrn&HCr). destruct (proj1 (HCr i) HiC) as (_&H3&H4). apply HCr.
      split; [done|]. split; [etrans; [exact H3|exact H1]|etrans; [exact H2|exact H4]].
Qed.

Lemma loops_ok (ops : list OperationBody) :
  exists ret, findAllAssetPairsInvolvedInPaymentLoops ops = Ok ret /\ NoDup ret /\
    forall a b, (a, b) ∈ ret <->
      hop ops a b /\ rtc (hop ops) b a /\ exists c, c <> a /\ rtc (hop ops) a c /\ rtc (hop ops) c a.
Proof.
  unfold findAllAssetPairsInvolvedInPaymentLoops.
  destruct (internOperations_ok ops {| assetToNum := ∅; numToAsset := []; graph := [] |} []) as (g&->&Hg).
  { split; [done| |by intros i s j|].
    - intros a i. cbn. by rewrite lookup_empty.
    - intros a b. split; [by intros ?%not_elem_of_nil|by intros (i&j&s&Hi&_)]. }
  cbn [app res_bind] in *. pose proof (successors_range g _ Hg) as Hrange.
  destruct (components_ok (length (graph g)) (successors g) noSCCs Hrange) as (s&->&Hnd&Hlt&Hdis&Hcomp). cbn [res_err res_bind].
  destruct (pairsOfSCCs_ok g _ Hg (mSCCs s) Hlt Hnd Hdis) as (ret&->&Hndr&Hret). exists ret. split; [done|]. split; [done|].
  assert (forall i a, named g i a -> (i < length (graph g))%nat) as Hin.
  { intros i a Hi. rewrite (in_length _ _ Hg). by eapply lookup_lt_Some. }
  rewrite Forall_forall in Hlt. intros a b. rewrite Hret. split.
  - intros (C&i&j&HC&Hc&Hi&Hj&Ha&Hb&He). apply (edge_hop g _ Hg i j a b Ha Hb) in He. split; [done|].
    destruct (proj1 (Hcomp i j (Hin _ _ Ha) (Hin _ _ Hb))) as [_ Hji]; [by exists C|].
    split; [by apply (reach_hops g _ Hg j i b a)|]. apply (count_other C i Hi) in Hc as (k&Hk&Hne).
    destruct (named_total g _ Hg k (Hlt C HC k Hk)) as [c Hkc]. destruct (proj1 (Hcomp i k (Hin _ _ Ha) (Hin _ _ Hkc))) as [H1 H2]; [by exists C|].
    exists c. split; [intros ->; apply Hne; by eapply interned_unique|].
    split; [by apply (reach_hops g _ Hg i k a c)|by apply (reach_hops g _ Hg k i c a)].
  - intros (Hab&Hba&c&Hne&Hac&Hca). pose proof Hab as (i&j&x&Ha&Hb&_&_)%(in_edges _ _ Hg).
    assert (rtc (edge (successors g)) i j) as Hij by (apply rtc_once; by apply (edge_hop g _ Hg i j a b)).
    assert (rtc (edge (successors g)) j i) as Hji by (by apply (reach_hops g _ Hg j i b a)).
    destruct (proj2 (Hcomp i j (Hin _ _ Ha) (Hin _ _ Hb)) (conj Hij Hji)) as (C&HC&HiC&HjC).
    exists C, i, j. split; [done|]. split; [|split; [done|split; [done|split; [done|split; [done|by apply (edge_hop g _ Hg i j a b)]]]]].
    assert (exists k, named g k c) as [k Hk].
    { apply rtc_inv_r in Hac as [->|(d&_&Hdc)]; [done|]. apply (in_edges _ _ Hg) in Hdc as (k0&k&_&_&Hk&_). by exists k. }
    apply (count_other C i HiC). exists k. split.
    + destruct (proj2 (Hcomp i k (Hin _ _ Ha) (Hin _ _ Hk))) as (D&HD&HiD&HkD).
      { split; [by apply (reach_hops g _ Hg i k a c)|by apply (reach_hops g _ Hg k i c a)]. }
      by rewrite (Hdis C D i HC HD HiC HiD).
    + intros ->. apply Hne. unfold named in *. congruence.
Qed.

(** C22. The damping of arbitrage looks at the right exchanges: for any operations,
    [findAllAssetPairsInvolvedInPaymentLoops] returns without an exception, lists
    nothing twice, and lists exactly the exchanges of a path payment from which
    path payments of the same transaction lead back, around a loop through at
    least one other asset. *)
Theorem payment_loops_exact (ops : list OperationBody) :
  exists ret, findAllAssetPairsInvolvedInPaymentLoops ops = Ok ret /\ NoDup ret /\
    forall a b, (a, b) ∈ ret <->
      hop ops a b /\ rtc (hop ops) b a /\ exists c, c <> a /\ rtc (hop ops) a c /\ rtc (hop ops) c a.
Proof. apply loops_ok. Qed.

(** Two path payments that make a loop of three assets, and one that leads away. *)
Lemma payment_loops_example :
  let usd := ASSET_TYPE_CREDIT_ALPHANUM4 1 7 in let eur := ASSET_TYPE_CREDIT_ALPHANUM4 2 7 in let xau := ASSET_TYPE_CREDIT_ALPHANUM4 3 7 in
  findAllAssetPairsInvolvedInPaymentLoops
    [PATH_PAYMENT_STRICT_SEND ASSET_TYPE_NATIVE eur [usd]; OTHER_OPERATION 8; PATH_PAYMENT_STRICT_RECEIVE eur ASSET_TYPE_NATIVE [];
     PATH_PAYMENT_STRICT_SEND eur xau []] =
  Ok [(ASSET_TYPE_NATIVE, usd); (usd, eur); (eur, ASSET_TYPE_NATIVE)].
Proof. vm_compute. reflexivity. Qed.

(** ** The damping *)

(** [mArbitrageFloodDamping]: how many transactions of a loop were flooded. *)
Definition Damping : Type := gmap AssetPair Z.

(** [emplace] of every pair, the highest counter, and the counters one up. *)
Definition touch (pairs : list AssetPair) (m : Damping) : Damping :=
  foldl (fun m p => match m !! p with Some _ => m | None => <[p := 0%Z]> m end) m pairs.

Definition maxFlooded (pairs : list AssetPair) (m : Damping) : Z :=
  foldl (fun x p => Z.max x (default 0%Z (m !! p))) 0%Z pairs.

Definition bump (pairs : list AssetPair) (m : Damping) : Damping :=
  foldl (fun m p => <[p := u32 (default 0%Z (m !! p) + 1)]> m) m pairs.

(** [dist(gRandomEngine)] is [draw], the sample of a geometric distribution. *)
Definition allowArbitrage (allowance draw : Z) (pairs : list AssetPair) (m : Damping) : bool * Damping :=
  let m := touch pairs m in
  let maxBroadcast := maxFlooded pairs m in
  let allowTx := (maxBroadcast <? allowance)%Z || (maxBroadcast - allowance <=? draw)%Z in
  (allowTx, if allowTx then bump pairs m else m).
