(* ===== verification/TransactionQueue.v ===== *)
(** * The transaction queue

    [src/herder/TransactionQueue.cpp]: the transactions a node has received and
    that are not yet in a ledger, per source account and in the order of their
    sequence numbers, with the fees each account stands for, the bans, the ages;
    [src/herder/TxQueueLimiter.cpp], which bounds their operations and evicts the
    cheapest; [feeRate3WayCompare] of [src/herder/SurgePricingUtils.cpp].

    What the queue asks the ledger is the argument [LedgerView].  A transaction
    in memory has an address (the limiter breaks ties with it) and hashes.  The
    accounts are a map; a loop over them visits its keys in the order of
    [map_to_list] (the order of an [unordered_map] is not specified).  The
    configuration of the flooding, the random samples and the overlay are an
    argument of [broadcastSome].  Metrics and insertion times are left out. *)
From stdpp Require Import base tactics numbers list gmap sets.
From Stdlib Require Import ZArith Lia Bool SpecFloat.
From S2P Require Import Prelude Numeric Float64 OfferExchange LedgerEntries Balances Fees Containers PaymentLoops.

Open Scope Z_scope.
Open Scope kin_scope.

(** ** Data *)

(** A [TransactionFrameBasePtr]; [innerFullHash] is that of a fee bump. *)
Record QueuedTx := {
  address : Z;
  frame : TransactionFrameBase;
  fullHash : Z;
  innerFullHash : Z;
}.

Definition inner_frame (b : TransactionFrameBase) : TransactionFrame :=
  match b with TxFrame t => t | FeeBumpFrame f => fb_innerTx f end.

Definition tx_sourceID (tx : QueuedTx) : AccountID := tf_sourceID (inner_frame (frame tx)).
Definition tx_seqNum (tx : QueuedTx) : Z := tf_seqNum (inner_frame (frame tx)).
Definition tx_feeSourceID (tx : QueuedTx) : AccountID := base_feeSourceID (frame tx).
Definition tx_feeBid (tx : QueuedTx) : Z := base_feeBid (frame tx).
Definition tx_numOps (tx : QueuedTx) : Z := base_numOperations (frame tx).

(** [ENVELOPE_TYPE_TX_V0], [ENVELOPE_TYPE_TX], [ENVELOPE_TYPE_TX_FEE_BUMP]. *)
Definition isFeeBump (b : TransactionFrameBase) : bool :=
  match b with FeeBumpFrame _ => true | _ => false end.

Definition sameEnvelopeType (l r : TransactionFrameBase) : bool :=
  match l, r with
  | FeeBumpFrame _, FeeBumpFrame _ => true
  | TxFrame t, TxFrame u => eqb (tf_isV0 t) (tf_isV0 u)
  | _, _ => false
  end.

Record TimestampedTx := { mTx : QueuedTx; mBroadcasted : bool }.

Record AccountState := {
  mTotalFees : Z;
  mQueueSizeOps : Z;
  mBroadcastQueueOps : Z;
  mAge : Z;
  mTransactions : list TimestampedTx;
}.

Definition new_account : AccountState :=
  {| mTotalFees := 0; mQueueSizeOps := 0; mBroadcastQueueOps := 0; mAge := 0; mTransactions := [] |}.

(** [mMinFeeNeeded] is a bid and a number of operations. *)
Record TxQueueLimiter := {
  mPoolLedgerMultiplier : Z;
  mLimiterOps : Z;
  mMinFeeNeeded : Z * Z;
  mTxs : list QueuedTx;
  mTxsSeed : Z;
}.

Record TransactionQueue := {
  mPendingDepth : Z;
  mAccountStates : gmap AccountID AccountState;
  mBannedTransactions : list (gset Z);
  mLedgerVersion : Z;
  mFilteredTypes : list Z;
  mShutdown : bool;
  mWaiting : bool;
  mBroadcastOpCarryover : Z;
  mArbitrageFloodDamping : Damping;
  mTxQueueLimiter : TxQueueLimiter;
  mBroadcastSeed : Z;
}.

(** The last closed ledger, and what the queue asks of it. *)
Record LedgerView := {
  getLastMaxTxSetSizeOps : Z;
  checkValid : QueuedTx -> Z -> bool;   (** [current], the sequence number before *)
  feeSourceBalance : AccountID -> Z;    (** [getAvailableBalance] *)
}.

Inductive queue_error :=
  | SeqOutOfRange        (** the assertions of [findBySeq] *)
  | SeqOverflow          (** its signed overflow, which C++ does not define *)
  | NoFeeSource          (** [releaseFeeMaybeEraseAccountState] *)
  | LimiterSize | LimiterMissing | LimiterFull | LimiterNoWorst | OldTxTooBig
  | CannotEvict
  | NothingToBroadcast | AlreadyBroadcast
  | UnknownAccount       (** an iterator that leads nowhere *)
  | NoBanSet
  | QueueNumeric (e : num_error)
  | QueueBalances (e : tx_error)
  | FloodRate            (** the assertions of [getMaxOpsToFloodThisPeriod] *)
  | QueueLoops (e : loop_error)
  | QueueOutOfFuel.

Notation tq := (result queue_error).

(** With the result code the transaction gets. *)
Inductive TxError := BAD_SEQ | INSUFFICIENT_FEE (feeCharged : Z) | INVALID | INSUFFICIENT_BALANCE.

Inductive AddResult :=
  | ADD_STATUS_PENDING
  | ADD_STATUS_DUPLICATE
  | ADD_STATUS_ERROR (code : TxError)
  | ADD_STATUS_TRY_AGAIN_LATER
  | ADD_STATUS_FILTERED.

Definition with_accounts (m : gmap AccountID AccountState) (q : TransactionQueue) : TransactionQueue :=
  {| mPendingDepth := mPendingDepth q; mAccountStates := m; mBannedTransactions := mBannedTransactions q;
     mLedgerVersion := mLedgerVersion q; mFilteredTypes := mFilteredTypes q; mShutdown := mShutdown q;
     mWaiting := mWaiting q; mBroadcastOpCarryover := mBroadcastOpCarryover q;
     mArbitrageFloodDamping := mArbitrageFloodDamping q;
     mTxQueueLimiter := mTxQueueLimiter q; mBroadcastSeed := mBroadcastSeed q |}.

Definition with_limiter (l : TxQueueLimiter) (q : TransactionQueue) : TransactionQueue :=
  {| mPendingDepth := mPendingDepth q; mAccountStates := mAccountStates q;
     mBannedTransactions := mBannedTransactions q;
     mLedgerVersion := mLedgerVersion q; mFilteredTypes := mFilteredTypes q; mShutdown := mShutdown q;
     mWaiting := mWaiting q; mBroadcastOpCarryover := mBroadcastOpCarryover q;
     mArbitrageFloodDamping := mArbitrageFloodDamping q;
     mTxQueueLimiter := l; mBroadcastSeed := mBroadcastSeed q |}.

Definition with_banned (b : list (gset Z)) (q : TransactionQueue) : TransactionQueue :=
  {| mPendingDepth := mPendingDepth q; mAccountStates := mAccountStates q; mBannedTransactions := b;
     mLedgerVersion := mLedgerVersion q; mFilteredTypes := mFilteredTypes q; mShutdown := mShutdown q;
     mWaiting := mWaiting q; mBroadcastOpCarryover := mBroadcastOpCarryover q;
     mArbitrageFloodDamping := mArbitrageFloodDamping q;
     mTxQueueLimiter := mTxQueueLimiter q; mBroadcastSeed := mBroadcastSeed q |}.

Definition with_waiting (w : bool) (carry : Z) (q : TransactionQueue) : TransactionQueue :=
  {| mPendingDepth := mPendingDepth q; mAccountStates := mAccountStates q;
     mBannedTransactions := mBannedTransactions q;
     mLedgerVersion := mLedgerVersion q; mFilteredTypes := mFilteredTypes q; mShutdown := mShutdown q;
     mWaiting := w; mBroadcastOpCarryover := carry;
     mArbitrageFloodDamping := mArbitrageFloodDamping q;
     mTxQueueLimiter := mTxQueueLimiter q; mBroadcastSeed := mBroadcastSeed q |}.

Definition with_damping (m : Damping) (q : TransactionQueue) : TransactionQueue :=
  {| mPendingDepth := mPendingDepth q; mAccountStates := mAccountStates q;
     mBannedTransactions := mBannedTransactions q;
     mLedgerVersion := mLedgerVersion q; mFilteredTypes := mFilteredTypes q; mShutdown := mShutdown q;
     mWaiting := mWaiting q; mBroadcastOpCarryover := mBroadcastOpCarryover q;
     mArbitrageFloodDamping := m;
     mTxQueueLimiter := mTxQueueLimiter q; mBroadcastSeed := mBroadcastSeed q |}.

Definition with_account (a : AccountID) (s : AccountState) (q : TransactionQueue) : TransactionQueue :=
  with_accounts (<[a := s]> (mAccountStates q)) q.

(** ** Comparing bids *)

Definition feeRate3WayCompare (lFeeBid lNbOps rFeeBid rNbOps : Z) : tq comparison :=
  let? v1 := res_err QueueNumeric (bigMultiply lFeeBid rNbOps) in
  let? v2 := res_err QueueNumeric (bigMultiply rFeeBid lNbOps) in
  Ok (if v1 <? v2 then Lt else if v2 <? v1 then Gt else Eq).

Definition compareTxs (l r : QueuedTx) : tq comparison :=
  feeRate3WayCompare (tx_feeBid l) (tx_numOps l) (tx_feeBid r) (tx_numOps r).

Definition lessThanXored (l r : QueuedTx) (seed : Z) : tq bool :=
  let? cmp3 := compareTxs l r in
  Ok match cmp3 with
     | Lt => true
     | Gt => false
     | Eq => Z.lxor (address l) seed <? Z.lxor (address r) seed
     end.

(** ** The limiter *)

(** [std::set] ordered by [lessThanXored]: insertion, and [erase] of a key. *)
Fixpoint txs_emplace (seed : Z) (tx : QueuedTx) (l : list QueuedTx) : tq (list QueuedTx) :=
  match l with
  | [] => Ok [tx]
  | x :: l' =>
      let? before := lessThanXored tx x seed in
      if (before : bool) then Ok (tx :: l) else
      let? after := lessThanXored x tx seed in
      if (after : bool) then let? l' := txs_emplace seed tx l' in Ok (x :: l') else Ok l
  end.

Fixpoint txs_erase (seed : Z) (tx : QueuedTx) (l : list QueuedTx) : tq (option (list QueuedTx)) :=
  match l with
  | [] => Ok None
  | x :: l' =>
      let? after := lessThanXored x tx seed in
      if (after : bool) then
        let? r := txs_erase seed tx l' in Ok (cons x <$> r)
      else
        let? before := lessThanXored tx x seed in
        Ok (if (before : bool) then None else Some l')
  end.

Section limiter.
Context (lv : LedgerView).

Definition maxQueueSizeOps (lim : TxQueueLimiter) : Z :=
  u64 (getLastMaxTxSetSizeOps lv * mPoolLedgerMultiplier lim).

Definition addTransaction (tx : QueuedTx) (lim : TxQueueLimiter) : tq TxQueueLimiter :=
  let newTotOps := mLimiterOps lim + tx_numOps tx in
  if maxQueueSizeOps lim <? newTotOps then Err LimiterFull else
  let? txs := txs_emplace (mTxsSeed lim) tx (mTxs lim) in
  Ok {| mPoolLedgerMultiplier := mPoolLedgerMultiplier lim; mLimiterOps := newTotOps;
        mMinFeeNeeded := mMinFeeNeeded lim; mTxs := txs; mTxsSeed := mTxsSeed lim |}.

Definition removeTransaction (tx : QueuedTx) (lim : TxQueueLimiter) : tq TxQueueLimiter :=
  if mLimiterOps lim <? tx_numOps tx then Err LimiterSize else
  let? txs := txs_erase (mTxsSeed lim) tx (mTxs lim) in
  match txs with
  | None => Err LimiterMissing
  | Some txs =>
      Ok {| mPoolLedgerMultiplier := mPoolLedgerMultiplier lim; mLimiterOps := mLimiterOps lim - tx_numOps tx;
            mMinFeeNeeded := mMinFeeNeeded lim; mTxs := txs; mTxsSeed := mTxsSeed lim |}
  end.

Definition computeBetterFee (tx : QueuedTx) (refFeeBid refNbOps : Z) : tq Z :=
  let? (fits, v) := res_err QueueNumeric (bigDivide refFeeBid (tx_numOps tx) refNbOps ROUND_DOWN) in
  Ok match fits : bool, v with
     | true, Some v => if v <? INT64_MAX then v + 1 else INT64_MAX
     | _, _ => INT64_MAX
     end.

(** The loop over the transactions that are to make room. *)
Fixpoint make_room (newTx : QueuedTx) (neededOps : Z) (l : list QueuedTx) : tq (bool * Z) :=
  match l with
  | [] => Ok (false, 0)
  | tx :: l' =>
      let? cmp := compareTxs tx newTx in
      match cmp with
      | Lt =>
          if tx_sourceID tx =? tx_sourceID newTx then Ok (false, 0)
          else if neededOps <=? tx_numOps tx then Ok (true, 0)
          else make_room newTx (neededOps - tx_numOps tx) l'
      | _ => let? minFee := computeBetterFee newTx (tx_feeBid tx) (tx_numOps tx) in Ok (false, minFee)
      end
  end.

Definition canAddTx (newTx : QueuedTx) (oldTx : option QueuedTx) (lim : TxQueueLimiter) : tq (bool * Z) :=
  let? low := (if negb (snd (mMinFeeNeeded lim) =? 0) then
      let? cmp3Min := feeRate3WayCompare (tx_feeBid newTx) (tx_numOps newTx)
        (fst (mMinFeeNeeded lim)) (snd (mMinFeeNeeded lim)) in
      match cmp3Min with
      | Gt => Ok None
      | _ =>
          let? minFee := computeBetterFee newTx (fst (mMinFeeNeeded lim)) (snd (mMinFeeNeeded lim)) in
          Ok (Some minFee)
      end
    else Ok None) in
  match low with
  | Some minFee => Ok (false, minFee)
  | None =>
      let? newOps := match oldTx with
        | Some oldTx =>
            let? _ := ensure (tx_numOps oldTx <=? mLimiterOps lim) OldTxTooBig in
            Ok (mLimiterOps lim - tx_numOps oldTx)
        | None => Ok (mLimiterOps lim)
        end in
      let newOps := newOps + tx_numOps newTx in
      if newOps <=? maxQueueSizeOps lim then Ok (true, 0)
      else make_room newTx (newOps - maxQueueSizeOps lim) (mTxs lim)
  end.

Definition getWorstTransaction (lim : TxQueueLimiter) : tq QueuedTx :=
  match mTxs lim with tx :: _ => Ok tx | [] => Err LimiterNoWorst end.

Definition set_minFeeNeeded (f : Z * Z) (lim : TxQueueLimiter) : TxQueueLimiter :=
  {| mPoolLedgerMultiplier := mPoolLedgerMultiplier lim; mLimiterOps := mLimiterOps lim;
     mMinFeeNeeded := f; mTxs := mTxs lim; mTxsSeed := mTxsSeed lim |}.

Definition resetMinFeeNeeded (lim : TxQueueLimiter) : TxQueueLimiter := set_minFeeNeeded (0, 0) lim.

(** [reset]; the new set of transactions draws a new seed. *)
Definition limiter_reset (seed : Z) (lim : TxQueueLimiter) : TxQueueLimiter :=
  {| mPoolLedgerMultiplier := mPoolLedgerMultiplier lim; mLimiterOps := 0; mMinFeeNeeded := (0, 0);
     mTxs := []; mTxsSeed := seed |}.
End limiter.

(** ** Looking transactions up *)

Definition FEE_MULTIPLIER : Z := 10.

(** The least fee that would do when the answer is no. *)
Definition canReplaceByFee (tx oldTx : QueuedTx) : tq (option Z) :=
  let newNumOps := Z.max 1 (tx_numOps tx) in
  let oldNumOps := Z.max 1 (tx_numOps oldTx) in
  let? v1 := res_err QueueNumeric (bigMultiply (tx_feeBid tx) oldNumOps) in
  let? v2 := res_err QueueNumeric (bigMultiply (tx_feeBid oldTx) newNumOps) in
  let minFeeN := u128 (v2 * FEE_MULTIPLIER) in
  if minFeeN <=? v1 then Ok None
  else
    let? (fits, minFee) := res_err QueueNumeric (bigDivide128 minFeeN oldNumOps ROUND_UP) in
    Ok (Some (match fits : bool, minFee with true, Some v => v | _, _ => INT64_MAX end)).

(** The place, which may be past the end; [None] if it returns false. *)
Definition findBySeq (seq : Z) (transactions : list TimestampedTx) : tq (option nat) :=
  match transactions, last transactions with
  | front :: _, Some back =>
      let firstSeq := tx_seqNum (mTx front) in
      let lastSeq := tx_seqNum (mTx back) in
      if seq <? firstSeq then Ok None else
      let? _ := ensure (lastSeq <? INT64_MAX) SeqOverflow in
      if lastSeq + 1 <? seq then Ok None else
      let? _ := ensure (seq - firstSeq <=? Z.of_nat (length transactions)) SeqOutOfRange in
      let iter := Z.to_nat (seq - firstSeq) in
      let? _ := ensure (match transactions !! iter with
        | Some t => tx_seqNum (mTx t) =? seq | None => true end) SeqOutOfRange in
      Ok (Some iter)
  | _, _ => Err UnknownAccount
  end.

Definition isDuplicateTx (oldTx newTx : QueuedTx) : bool :=
  if sameEnvelopeType (frame oldTx) (frame newTx) then fullHash oldTx =? fullHash newTx
  else if isFeeBump (frame oldTx) then innerFullHash oldTx =? fullHash newTx
  else false.

(** Sets [txIter] if the transaction is there. *)
Definition findTx (tx : QueuedTx) (transactions : list TimestampedTx) (txIter : nat) : tq nat :=
  let? iter := findBySeq (tx_seqNum tx) transactions in
  Ok match iter with
     | Some iter =>
         match transactions !! iter with
         | Some t => if fullHash (mTx t) =? fullHash tx then iter else txIter
         | None => txIter
         end
     | None => txIter
     end.

Definition isBanned (hash : Z) (q : TransactionQueue) : bool :=
  existsb (fun b => bool_decide (hash ∈ b)) (mBannedTransactions q).

Definition opType (op : OperationBody) : Z :=
  match op with
  | CREATE_ACCOUNT _ _ => 0
  | PAYMENT _ _ _ => 1
  | PATH_PAYMENT_STRICT_RECEIVE _ _ _ => 2
  | PATH_PAYMENT_STRICT_SEND _ _ _ => 13
  | OTHER_OPERATION type => type
  end.

Definition containsFilteredOperation (ops : list OperationBody) (filteredTypes : list Z) : bool :=
  existsb (fun op => existsb (Z.eqb (opType op)) filteredTypes) ops.

Definition isFiltered (tx : QueuedTx) (q : TransactionQueue) : bool :=
  match mFilteredTypes q with
  | [] => false
  | _ => containsFilteredOperation (tf_operations (inner_frame (frame tx))) (mFilteredTypes q)
  end.

(** ** Dropping transactions *)

Definition releaseFeeMaybeEraseAccountState (tx : QueuedTx) (q : TransactionQueue) : tq TransactionQueue :=
  match mAccountStates q !! tx_feeSourceID tx with
  | None => Err NoFeeSource
  | Some s =>
      let? _ := ensure (tx_feeBid tx <=? mTotalFees s) NoFeeSource in
      let s := {| mTotalFees := mTotalFees s - tx_feeBid tx; mQueueSizeOps := mQueueSizeOps s;
        mBroadcastQueueOps := mBroadcastQueueOps s; mAge := mAge s; mTransactions := mTransactions s |} in
      Ok (if bool_decide (mTransactions s = []) && (mTotalFees s =? 0)
          then with_accounts (delete (tx_feeSourceID tx) (mAccountStates q)) q
          else with_account (tx_feeSourceID tx) s q)
  end.

(** [as] is the state of [source]. *)
Definition prepareDropTransaction (source : AccountID) (tstx : TimestampedTx) (q : TransactionQueue)
    : tq TransactionQueue :=
  match mAccountStates q !! source with
  | None => Err UnknownAccount
  | Some s =>
      let ops := tx_numOps (mTx tstx) in
      let s := {| mTotalFees := mTotalFees s; mQueueSizeOps := u64 (mQueueSizeOps s - ops);
        mBroadcastQueueOps :=
          if mBroadcasted tstx then mBroadcastQueueOps s else u64 (mBroadcastQueueOps s - ops);
        mAge := mAge s; mTransactions := mTransactions s |} in
      let? lim := removeTransaction (mTx tstx) (mTxQueueLimiter q) in
      releaseFeeMaybeEraseAccountState (mTx tstx) (with_limiter lim (with_account source s q))
  end.

Fixpoint prepareDrops (source : AccountID) (l : list TimestampedTx) (q : TransactionQueue) : tq TransactionQueue :=
  match l with
  | [] => Ok q
  | t :: l' => let? q := prepareDropTransaction source t q in prepareDrops source l' q
  end.

Definition set_transactions (l : list TimestampedTx) (s : AccountState) : AccountState :=
  {| mTotalFees := mTotalFees s; mQueueSizeOps := mQueueSizeOps s;
     mBroadcastQueueOps := mBroadcastQueueOps s; mAge := mAge s; mTransactions := l |}.

Definition set_age (age : Z) (s : AccountState) : AccountState :=
  {| mTotalFees := mTotalFees s; mQueueSizeOps := mQueueSizeOps s;
     mBroadcastQueueOps := mBroadcastQueueOps s; mAge := age; mTransactions := mTransactions s |}.

(** The transactions from [i] up to, not including, [j]. *)
Definition dropTransactions (source : AccountID) (i j : nat) (q : TransactionQueue) : tq TransactionQueue :=
  match mAccountStates q !! source with
  | None => Err UnknownAccount
  | Some s =>
      let? q := prepareDrops source (take (j - i) (drop i (mTransactions s))) q in
      match mAccountStates q !! source with
      | None => Err UnknownAccount
      | Some s =>
          let s := set_transactions (take i (mTransactions s) ++ drop j (mTransactions s)) s in
          Ok (if bool_decide (mTransactions s = []) then
                if mTotalFees s =? 0 then with_accounts (delete source (mAccountStates q)) q
                else with_account source (set_age 0 s) q
              else with_account source s q)
      end
  end.

(** ** Bans *)

Definition ban_hashes (hashes : list Z) (q : TransactionQueue) : tq TransactionQueue :=
  match mBannedTransactions q with
  | [] => Err NoBanSet
  | front :: b => Ok (with_banned ((list_to_set hashes ∪ front) :: b) q)
  end.

(** The listed transactions by source account, [transactionsByAccount]. *)
Definition byAccount (txs : list QueuedTx) : list (AccountID * list QueuedTx) :=
  foldl (fun m tx => map_set (tx_sourceID tx)
    (match map_find (tx_sourceID tx) m with Some l => l ++ [tx] | None => [tx] end) m) [] txs.

(** The first of the banned transactions that is in the queue. *)
Fixpoint firstBanned (banned : list QueuedTx) (transactions : list TimestampedTx) (txIter : nat) : tq nat :=
  match banned with
  | [] => Ok txIter
  | tx :: banned' =>
      let? txIter :=
        (if match transactions !! txIter with
            | None => true | Some t => tx_seqNum tx <? tx_seqNum (mTx t) end
         then findTx tx transactions txIter else Ok txIter) in
      firstBanned banned' transactions txIter
  end.

Definition ban_account (source : AccountID) (banned : list QueuedTx) (q : TransactionQueue) : tq TransactionQueue :=
  match mAccountStates q !! source with
  | None => Ok q
  | Some s =>
      let transactions := mTransactions s in
      if bool_decide (transactions = []) then Ok q else
      let? txIter := firstBanned banned transactions (length transactions) in
      let? q := ban_hashes ((fun t => fullHash (mTx t)) <$> drop txIter transactions) q in
      dropTransactions source txIter (length transactions) q
  end.

Fixpoint ban_accounts (l : list (AccountID * list QueuedTx)) (q : TransactionQueue) : tq TransactionQueue :=
  match l with
  | [] => Ok q
  | (source, banned) :: l' => let? q := ban_account source banned q in ban_accounts l' q
  end.

Definition ban (banTxs : list QueuedTx) (q : TransactionQueue) : tq TransactionQueue :=
  let? q := ban_hashes (fullHash <$> banTxs) q in
  ban_accounts (byAccount banTxs) q.

(** ** Adding a transaction *)

(** The loop of [evictTransactions], with the evictions of [tryAdd]; every round
    removes a transaction. *)
Fixpoint evictTransactions (fuel : nat) (lv : LedgerView) (ops : Z) (q : TransactionQueue) : tq (bool * TransactionQueue) :=
  let lim := mTxQueueLimiter q in
  if maxQueueSizeOps lv lim <? mLimiterOps lim + ops then
    if mLimiterOps lim =? 0 then Ok (false, q) else
    match fuel with
    | O => Err QueueOutOfFuel
    | S fuel' =>
        let? evictTx := getWorstTransaction lim in
        let q := with_limiter (set_minFeeNeeded (tx_feeBid evictTx, tx_numOps evictTx) lim) q in
        let? q := ban [evictTx] q in
        evictTransactions fuel' lv ops q
    end
  else Ok (true, q).

Section add.
Context (lv : LedgerView).

(** The answer, or the place of the transaction to be replaced. *)
Inductive CanAdd := Answer (r : AddResult) | Place (oldTxIter : option nat).

(** The part of [canAdd] on the queue of the account: an answer, or the
    transaction to be replaced, its place, the fee and the sequence number to
    go on with. *)
Definition canAdd_account (tx : QueuedTx) (q : TransactionQueue)
    : tq (AddResult + (option (nat * QueuedTx) * Z * Z)) :=
  let netFee := tx_feeBid tx in
  match mTransactions <$> mAccountStates q !! tx_sourceID tx with
  | None | Some [] => Ok (inr (None, netFee, 0))
  | Some transactions =>
      if negb (isFeeBump (frame tx)) then
        let? iter := findBySeq (tx_seqNum tx) transactions in
        if match iter ≫= (fun i => transactions !! i) with
           | Some t => isDuplicateTx (mTx t) tx | None => false end
        then Ok (inl ADD_STATUS_DUPLICATE)
        else
          match last transactions with
          | Some back => Ok (inr (None, netFee, tx_seqNum (mTx back)))
          | None => Err UnknownAccount
          end
      else
        let? oldTxIter := findBySeq (tx_seqNum tx) transactions in
        match oldTxIter with
        | None => Ok (inl (ADD_STATUS_ERROR BAD_SEQ))
        | Some i =>
            match transactions !! i with
            | None => Ok (inr (None, netFee, tx_seqNum tx - 1))
            | Some old =>
                if isDuplicateTx (mTx old) tx then Ok (inl ADD_STATUS_DUPLICATE) else
                let? minFee := canReplaceByFee tx (mTx old) in
                match minFee with
                | Some minFee => Ok (inl (ADD_STATUS_ERROR (INSUFFICIENT_FEE minFee)))
                | None =>
                    let netFee :=
                      if tx_feeSourceID (mTx old) =? tx_feeSourceID tx
                      then netFee - tx_feeBid (mTx old) else netFee in
                    Ok (inr (Some (i, mTx old), netFee, tx_seqNum tx - 1))
                end
            end
        end
  end.

Definition canAdd (tx : QueuedTx) (q : TransactionQueue) : tq (CanAdd * TransactionQueue) :=
  if isBanned (fullHash tx) q then Ok (Answer ADD_STATUS_TRY_AGAIN_LATER, q) else
  if isFiltered tx q then Ok (Answer ADD_STATUS_FILTERED, q) else
  let? r := canAdd_account tx q in
  match r with
  | inl res => Ok (Answer res, q)
  | inr (old, netFee, seqNum) =>
      let? (can, minFee) := canAddTx lv tx (snd <$> old) (mTxQueueLimiter q) in
      if negb can then
        let? q := ban [tx] q in
        Ok (Answer (if negb (minFee =? 0) then ADD_STATUS_ERROR (INSUFFICIENT_FEE minFee)
                    else ADD_STATUS_TRY_AGAIN_LATER), q)
      else if negb (checkValid lv tx seqNum) then Ok (Answer (ADD_STATUS_ERROR INVALID), q)
      else
        let totalFees :=
          match mAccountStates q !! tx_feeSourceID tx with None => 0 | Some s => mTotalFees s end in
        if feeSourceBalance lv (tx_feeSourceID tx) - netFee <? totalFees
        then Ok (Answer (ADD_STATUS_ERROR INSUFFICIENT_BALANCE), q)
        else Ok (Place (fst <$> old), q)
  end.

(** [broadcast(false)]: the timer is set, unless it is. *)
Definition broadcast_later (q : TransactionQueue) : TransactionQueue :=
  if mShutdown q || mWaiting q then q else with_waiting true (mBroadcastOpCarryover q) q.

(** The new transaction in the list of its account. *)
Definition place_tx (oldTxIter : option nat) (tx : QueuedTx) (s : AccountState) : AccountState :=
  let t := {| mTx := tx; mBroadcasted := false |} in
  {| mTotalFees := mTotalFees s; mQueueSizeOps := mQueueSizeOps s + tx_numOps tx;
     mBroadcastQueueOps := mBroadcastQueueOps s + tx_numOps tx; mAge := mAge s;
     mTransactions := match oldTxIter with
       | Some i => <[i := t]> (mTransactions s)
       | None => mTransactions s ++ [t]
       end |}.

Definition add_fee (fee : Z) (s : AccountState) : AccountState :=
  {| mTotalFees := to_i64 (mTotalFees s + fee); mQueueSizeOps := mQueueSizeOps s;
     mBroadcastQueueOps := mBroadcastQueueOps s; mAge := mAge s; mTransactions := mTransactions s |}.

(** [mAccountStates[account]] *)
Definition account_or_new (a : AccountID) (q : TransactionQueue) : AccountState :=
  default new_account (mAccountStates q !! a).

Definition tryAdd (tx : QueuedTx) (q : TransactionQueue) : tq (AddResult * TransactionQueue) :=
  let? (res, q) := canAdd tx q in
  match res with
  | Answer r => Ok (r, q)
  | Place oldTxIter =>
      let source := tx_sourceID tx in
      let q := with_account source (account_or_new source q) q in
      let? q := match oldTxIter ≫= (fun i => mTransactions (account_or_new source q) !! i) with
        | Some old => prepareDropTransaction source old q
        | None => Ok q
        end in
      let q := with_account source (place_tx oldTxIter tx (account_or_new source q)) q in
      let q := with_account (tx_feeSourceID tx) (add_fee (tx_feeBid tx) (account_or_new (tx_feeSourceID tx) q)) q in
      let? (ok, q) := evictTransactions (length (mTxs (mTxQueueLimiter q))) lv (tx_numOps tx) q in
      let? _ := ensure ok CannotEvict in
      let? lim := addTransaction lv tx (mTxQueueLimiter q) in
      Ok (ADD_STATUS_PENDING, broadcast_later (with_limiter lim q))
  end.
End add.

(** ** After a ledger *)

(** The highest sequence number applied for each source account, [seqByAccount]. *)
Definition seqByAccount (appliedTxs : list QueuedTx) : list (AccountID * Z) :=
  foldl (fun m tx => map_set (tx_sourceID tx)
    (Z.max (match map_find (tx_sourceID tx) m with Some seq => seq | None => 0 end) (tx_seqNum tx)) m)
    [] appliedTxs.

Definition removeApplied_account (source : AccountID) (seq : Z) (q : TransactionQueue) : tq TransactionQueue :=
  match mAccountStates q !! source with
  | None => Ok q
  | Some s =>
      let transactions := mTransactions s in
      match transactions with
      | [] => Ok q
      | front :: _ =>
          if tx_seqNum (mTx front) <=? seq then
            let? iter := findBySeq seq transactions in
            let txIter := match iter with Some i => i | None => length transactions end in
            let txIter := if (txIter <? length transactions)%nat then S txIter else txIter in
            dropTransactions source 0 txIter (with_account source (set_age 0 s) q)
          else Ok q
      end
  end.

Fixpoint removeApplied_accounts (l : list (AccountID * Z)) (q : TransactionQueue) : tq TransactionQueue :=
  match l with
  | [] => Ok q
  | (source, seq) :: l' => let? q := removeApplied_account source seq q in removeApplied_accounts l' q
  end.

Definition removeApplied (appliedTxs : list QueuedTx) (q : TransactionQueue) : tq TransactionQueue :=
  removeApplied_accounts (seqByAccount appliedTxs) q.

(** One account in the loop of [shift]. *)
Definition shift_account (a : AccountID) (q : TransactionQueue) : tq TransactionQueue :=
  match mAccountStates q !! a with
  | None => Ok q
  | Some s =>
      let s := if bool_decide (mTransactions s = []) then s else set_age (u32 (mAge s + 1)) s in
      let q := with_account a s q in
      if mPendingDepth q =? mAge s then
        let? q := prepareDrops a (mTransactions s) q in
        let? q := ban_hashes ((fun t => fullHash (mTx t)) <$> mTransactions s) q in
        match mAccountStates q !! a with
        | None => Err UnknownAccount
        | Some s =>
            let s := set_transactions [] s in
            Ok (if mTotalFees s =? 0 then with_accounts (delete a (mAccountStates q)) q
                else with_account a (set_age 0 s) q)
        end
      else Ok q
  end.

Fixpoint shift_accounts (l : list AccountID) (q : TransactionQueue) : tq TransactionQueue :=
  match l with
  | [] => Ok q
  | a :: l' => let? q := shift_account a q in shift_accounts l' q
  end.

Definition with_seed (seed : Z) (q : TransactionQueue) : TransactionQueue :=
  {| mPendingDepth := mPendingDepth q; mAccountStates := mAccountStates q;
     mBannedTransactions := mBannedTransactions q;
     mLedgerVersion := mLedgerVersion q; mFilteredTypes := mFilteredTypes q; mShutdown := mShutdown q;
     mWaiting := mWaiting q; mBroadcastOpCarryover := mBroadcastOpCarryover q;
     mArbitrageFloodDamping := mArbitrageFloodDamping q;
     mTxQueueLimiter := resetMinFeeNeeded (mTxQueueLimiter q); mBroadcastSeed := seed |}.

(** [seed] is the new random number. *)
Definition shift (seed : Z) (q : TransactionQueue) : tq TransactionQueue :=
  let q := with_damping ∅ (with_banned (∅ :: removelast (mBannedTransactions q)) q) in
  let? q := shift_accounts (map_to_list (mAccountStates q)).*1 q in
  Ok (with_seed seed q).

(** The transactions of the set; its previous ledger hash is left out. *)
Fixpoint before_starting_seq (startingSeq : Z) (l : list TimestampedTx) : list QueuedTx :=
  match l with
  | [] => []
  | t :: l' => if tx_seqNum (mTx t) =? startingSeq then [] else mTx t :: before_starting_seq startingSeq l'
  end.

Definition toTxSet (lcl : LedgerHeader) (q : TransactionQueue) : tq (list QueuedTx) :=
  let? startingSeq := res_err QueueBalances (getStartingSequenceNumber (u32 (ledgerSeq lcl + 1))) in
  Ok (concat ((fun s => before_starting_seq startingSeq (mTransactions s)) <$> (map_to_list (mAccountStates q)).*2)).

Definition clearAll (seed : Z) (q : TransactionQueue) : TransactionQueue :=
  with_limiter (limiter_reset seed (mTxQueueLimiter q))
    (with_banned ((fun _ => ∅) <$> mBannedTransactions q) (with_accounts ∅ q)).

Definition set_version (v : Z) (q : TransactionQueue) : TransactionQueue :=
  {| mPendingDepth := mPendingDepth q; mAccountStates := mAccountStates q;
     mBannedTransactions := mBannedTransactions q;
     mLedgerVersion := v; mFilteredTypes := mFilteredTypes q; mShutdown := mShutdown q;
     mWaiting := mWaiting q; mBroadcastOpCarryover := mBroadcastOpCarryover q;
     mArbitrageFloodDamping := mArbitrageFloodDamping q;
     mTxQueueLimiter := mTxQueueLimiter q; mBroadcastSeed := mBroadcastSeed q |}.

Definition maybeVersionUpgraded (lcl : LedgerHeader) (seed : Z) (q : TransactionQueue) : TransactionQueue :=
  let q := if protocolVersionIsBefore (mLedgerVersion q) 13 && protocolVersionStartsFrom (ledgerVersion lcl) 13
           then clearAll seed q else q in
  set_version (ledgerVersion lcl) q.

Record AccountTxQueueInfo := {
  i_maxSeq : Z; i_totalFees : Z; i_queueSizeOps : Z; i_broadcastQueueOps : Z; i_age : Z }.

Definition getAccountTransactionQueueInfo (a : AccountID) (q : TransactionQueue) : AccountTxQueueInfo :=
  match mAccountStates q !! a with
  | None => {| i_maxSeq := 0; i_totalFees := 0; i_queueSizeOps := 0; i_broadcastQueueOps := 0; i_age := 0 |}
  | Some s =>
      {| i_maxSeq := match last (mTransactions s) with Some t => tx_seqNum (mTx t) | None => 0 end;
         i_totalFees := mTotalFees s; i_queueSizeOps := mQueueSizeOps s;
         i_broadcastQueueOps := mBroadcastQueueOps s; i_age := mAge s |}
  end.

(** ** Flooding *)

Inductive BroadcastStatus :=
  | BROADCAST_STATUS_ALREADY
  | BROADCAST_STATUS_SUCCESS
  | BROADCAST_STATUS_SKIPPED.

Definition mark_broadcasted (i : nat) (t : TimestampedTx) (s : AccountState) : AccountState :=
  {| mTotalFees := mTotalFees s; mQueueSizeOps := mQueueSizeOps s;
     mBroadcastQueueOps := u64 (mBroadcastQueueOps s - tx_numOps (mTx t)); mAge := mAge s;
     mTransactions := <[i := {| mTx := mTx t; mBroadcasted := true |}]> (mTransactions s) |}.

(** [skipToFirstNotBroadcasted] from a place on; [None] at the end. *)
Fixpoint skipToFirstNotBroadcasted (l : list TimestampedTx) (i : nat) : option nat :=
  match l with
  | [] => None
  | t :: l' => if mBroadcasted t then skipToFirstNotBroadcasted l' (S i) else Some i
  end.

Definition skip_from (i : nat) (s : AccountState) : option nat :=
  skipToFirstNotBroadcasted (drop i (mTransactions s)) i.

(** A [TxQueueTracker]: an account, and the place of [mCur]. *)
Definition Tracker : Type := AccountID * nat.

Definition tracker_tx (q : TransactionQueue) (tr : Tracker) : option TimestampedTx :=
  (mTransactions <$> mAccountStates q !! fst tr) ≫= (fun l => l !! snd tr).

(** The top of the priority queue, and the rest; trackers at the end are first. *)
Definition tracker_less (q : TransactionQueue) (l r : Tracker) : tq bool :=
  match tracker_tx q l, tracker_tx q r with
  | None, Some _ => Ok true
  | _, None => Ok false
  | Some x, Some y => lessThanXored (mTx x) (mTx y) (mBroadcastSeed q)
  end.

Fixpoint top_tracker (q : TransactionQueue) (best : Tracker) (l : list Tracker) : tq (Tracker * list Tracker) :=
  match l with
  | [] => Ok (best, [])
  | tr :: l' =>
      let? less := tracker_less q best tr in
      if (less : bool) then let? (top, rest) := top_tracker q tr l' in Ok (top, best :: rest)
      else let? (top, rest) := top_tracker q best l' in Ok (top, tr :: rest)
  end.

(** What flooding asks: the configuration (a negative allowance: no damping), the
    expected close time in seconds, the sample of the geometric distribution drawn
    for a transaction, and the overlay. *)
Record Overlay := {
  FLOOD_OP_RATE_PER_LEDGER : spec_float;
  FLOOD_TX_PERIOD_MS : Z;
  getExpectedLedgerCloseTime : Z;
  FLOOD_ARB_TX_BASE_ALLOWANCE : Z;
  geometric : QueuedTx -> Z;
  broadcastMessage : QueuedTx -> bool;
}.

(** [isRepresentableAsInt64] of [numeric.h]. *)
Definition isRepresentableAsInt64 (d : spec_float) : bool :=
  SFleb (f64_of_Z (- (INT64_MAX + 1))) d && SFltb d (f64_of_Z INT64_MAX).

Section flood.
Context (ov : Overlay).

(** The first half of [getMaxOpsToFloodThisPeriod]: the operations of a ledger. *)
Definition opsToFloodLedger (maxOps : Z) : tq Z :=
  let opsToFloodLedgerDbl := f64_mul (FLOOD_OP_RATE_PER_LEDGER ov) (f64_of_Z maxOps) in
  let? _ := ensure (SFleb (S754_zero false) opsToFloodLedgerDbl) FloodRate in
  let? _ := ensure (isRepresentableAsInt64 opsToFloodLedgerDbl) FloodRate in
  match f64_to_i64 opsToFloodLedgerDbl with Some ops => Ok ops | None => Err FloodRate end.

Definition getMaxOpsToFloodThisPeriod (maxOps : Z) (q : TransactionQueue) : tq Z :=
  let? ops := opsToFloodLedger maxOps in
  let? thisPeriod := res_err QueueNumeric
    (bigDivideOrThrow ops (FLOOD_TX_PERIOD_MS ov) (getExpectedLedgerCloseTime ov * 1000) ROUND_UP) in
  let opsToFlood := to_i64 (mBroadcastOpCarryover q + thisPeriod) in
  let? _ := ensure (0 <=? opsToFlood) FloodRate in
  Ok opsToFlood.

Definition dampArbitrage (tx : QueuedTx) (q : TransactionQueue) : tq (bool * TransactionQueue) :=
  if 0 <=? FLOOD_ARB_TX_BASE_ALLOWANCE ov then
    let? arbPairs := res_err QueueLoops
      (findAllAssetPairsInvolvedInPaymentLoops (tf_operations (inner_frame (frame tx)))) in
    match arbPairs with
    | [] => Ok (true, q)
    | _ =>
        let '(allowTx, m) := allowArbitrage (FLOOD_ARB_TX_BASE_ALLOWANCE ov) (geometric ov tx) arbPairs
          (mArbitrageFloodDamping q) in
        Ok (allowTx, with_damping m q)
    end
  else Ok (true, q).

Definition broadcastTx (tr : Tracker) (t : TimestampedTx) (q : TransactionQueue) : tq (BroadcastStatus * TransactionQueue) :=
  if mBroadcasted t then Ok (BROADCAST_STATUS_ALREADY, q)
  else
    let? (allowTx, q) := dampArbitrage (mTx t) q in
    let q := match mAccountStates q !! fst tr with
      | Some s => with_account (fst tr) (mark_broadcasted (snd tr) t s) q
      | None => q
      end in
    Ok (if negb allowTx then BROADCAST_STATUS_SKIPPED
        else if broadcastMessage ov (mTx t) then BROADCAST_STATUS_SUCCESS else BROADCAST_STATUS_ALREADY, q).

(** The loop of [broadcastSome]: every round broadcasts a transaction. *)
Fixpoint broadcast_loop (fuel : nat) (opsToFlood totalOpsToFlood : Z) (iters : list Tracker)
    (banningTxs : list QueuedTx) (q : TransactionQueue) : tq (Z * Z * list QueuedTx * TransactionQueue) :=
  if opsToFlood =? 0 then Ok (opsToFlood, totalOpsToFlood, banningTxs, q) else
  match iters with
  | [] => Ok (opsToFlood, totalOpsToFlood, banningTxs, q)
  | it :: its =>
      match fuel with
      | O => Err QueueOutOfFuel
      | S fuel' =>
          let? (tr, iters) := top_tracker q it its in
          match tracker_tx q tr with
          | None => Err UnknownAccount
          | Some cur =>
              let? _ := ensure (negb (mBroadcasted cur)) AlreadyBroadcast in
              let ops := tx_numOps (mTx cur) in
              if opsToFlood <? ops then Ok (opsToFlood, totalOpsToFlood, banningTxs, q) else
              let? (bStatus, q) := broadcastTx tr cur q in
              let next :=
                match mAccountStates q !! fst tr ≫= skip_from (S (snd tr)) with
                | Some i => (fst tr, i) :: iters | None => iters end in
              match bStatus with
              | BROADCAST_STATUS_SUCCESS =>
                  broadcast_loop fuel' (opsToFlood - ops) (u64 (totalOpsToFlood - ops)) next banningTxs q
              | BROADCAST_STATUS_ALREADY => broadcast_loop fuel' opsToFlood totalOpsToFlood next banningTxs q
              | BROADCAST_STATUS_SKIPPED =>
                  broadcast_loop fuel' opsToFlood totalOpsToFlood iters (banningTxs ++ [mTx cur]) q
              end
          end
      end
  end.

(** The trackers of the accounts with something to broadcast, and its operations. *)
Fixpoint trackers (l : list (AccountID * AccountState)) : tq (list Tracker * Z) :=
  match l with
  | [] => Ok ([], 0)
  | (a, s) :: l' =>
      let? (iters, totalOps) := trackers l' in
      if mBroadcastQueueOps s =? 0 then Ok (iters, totalOps) else
      match skip_from 0 s with
      | None => Err NothingToBroadcast
      | Some i => Ok ((a, i) :: iters, totalOps + mBroadcastQueueOps s)
      end
  end.

Definition queue_length (q : TransactionQueue) : nat :=
  sum_list ((fun s => length (mTransactions s)) <$> (map_to_list (mAccountStates q)).*2).

(** [maxOps] is [getLastMaxTxSetSizeOps]. *)
Definition broadcastSome (maxOps : Z) (q : TransactionQueue) : tq (bool * TransactionQueue) :=
  let? opsToFlood := getMaxOpsToFloodThisPeriod maxOps q in
  let? (iters, totalOpsToFlood) := trackers (map_to_list (mAccountStates q)) in
  let? (opsToFlood, totalOpsToFlood, banningTxs, q) :=
    broadcast_loop (queue_length q) opsToFlood totalOpsToFlood iters [] q in
  let? q := ban banningTxs q in
  Ok (negb (totalOpsToFlood =? 0), with_waiting (mWaiting q) (Z.min opsToFlood (MAX_OPS_PER_TX + 1)) q).

(** [broadcast(true)], of the timer. *)
Definition broadcast_now (maxOps : Z) (q : TransactionQueue) : tq TransactionQueue :=
  if mShutdown q then Ok q else
  let q := with_waiting false (mBroadcastOpCarryover q) q in
  let? (needsMore, q) := broadcastSome maxOps q in
  Ok (if (needsMore : bool) then with_waiting true (mBroadcastOpCarryover q) q else q).
End flood.

Definition rebroadcast_account (s : AccountState) : AccountState :=
  {| mTotalFees := mTotalFees s; mQueueSizeOps := mQueueSizeOps s; mBroadcastQueueOps := mQueueSizeOps s;
     mAge := mAge s; mTransactions := (fun t => {| mTx := mTx t; mBroadcasted := false |}) <$> mTransactions s |}.

Definition rebroadcast (q : TransactionQueue) : TransactionQueue :=
  broadcast_later (with_accounts (rebroadcast_account <$> mAccountStates q) q).

Definition shutdownQueue (q : TransactionQueue) : TransactionQueue :=
  {| mPendingDepth := mPendingDepth q; mAccountStates := mAccountStates q;
     mBannedTransactions := mBannedTransactions q;
     mLedgerVersion := mLedgerVersion q; mFilteredTypes := mFilteredTypes q; mShutdown := true;
     mWaiting := mWaiting q; mBroadcastOpCarryover := mBroadcastOpCarryover q;
     mArbitrageFloodDamping := mArbitrageFloodDamping q;
     mTxQueueLimiter := mTxQueueLimiter q; mBroadcastSeed := mBroadcastSeed q |}.

(** The constructor; [seeds] are the random numbers. *)
Definition newTransactionQueue (pendingDepth : Z) (banDepth : nat) (poolLedgerMultiplier ledgerVersion : Z)
    (filteredTypes : list Z) (seeds : Z * Z) : TransactionQueue :=
  {| mPendingDepth := pendingDepth; mAccountStates := ∅; mBannedTransactions := replicate banDepth ∅;
     mLedgerVersion := ledgerVersion; mFilteredTypes := filteredTypes; mShutdown := false; mWaiting := false;
     mBroadcastOpCarryover := 0; mArbitrageFloodDamping := ∅;
     mTxQueueLimiter := {| mPoolLedgerMultiplier := poolLedgerMultiplier; mLimiterOps := 0;
       mMinFeeNeeded := (0, 0); mTxs := []; mTxsSeed := fst seeds |};
     mBroadcastSeed := snd seeds |}.
