(* ===== verification/TxQueueTheorems.v ===== *)
(** * The transaction queue: what holds

    The counters of the queue against the transactions it holds: fees per
    account, operations, the set of the limiter; and what the operations that
    drop transactions do to both. *)
From stdpp Require Import base tactics numbers list sorting gmap sets.
From Stdlib Require Import ZArith Lia Bool.
From S2P Require Import Prelude Numeric OfferExchange LedgerEntries Balances Fees Containers TransactionQueue.

Open Scope Z_scope.
Open Scope kin_scope.

(** ** The order of the limiter *)

(** Bids and numbers of operations as valid transactions have them. *)
Definition priced (tx : QueuedTx) : Prop :=
  0 < tx_feeBid tx <= INT64_MAX /\ 1 <= tx_numOps tx <= UINT32_MAX.

(** [compareTxs] and [lessThanXored], when nothing is negative. *)
Definition cheaper (l r : QueuedTx) : Prop := tx_feeBid l * tx_numOps r < tx_feeBid r * tx_numOps l.

Definition less (seed : Z) (l r : QueuedTx) : Prop :=
  cheaper l r \/ ~ cheaper r l /\ Z.lxor (address l) seed < Z.lxor (address r) seed.

Lemma rate_ok (lf ln rf rn : Z) :
  0 <= lf <= INT64_MAX -> 0 <= ln <= UINT32_MAX -> 0 <= rf <= INT64_MAX -> 0 <= rn <= UINT32_MAX ->
  feeRate3WayCompare lf ln rf rn = Ok (Z.compare (lf * rn) (rf * ln)).
Proof.
  intros H1 H2 H3 H4. unfold feeRate3WayCompare.
  rewrite (bigMultiply_exact lf rn), (bigMultiply_exact rf ln) by (unfold_ints; lia). cbn [res_err res_bind].
  destruct (Z.compare_spec (lf * rn) (rf * ln)) as [E|E|E]; destruct (Z.ltb_spec (lf * rn) (rf * ln));
    destruct (Z.ltb_spec (rf * ln) (lf * rn)); done || lia.
Qed.

Lemma compareTxs_ok (l r : QueuedTx) :
  priced l -> priced r -> compareTxs l r = Ok (Z.compare (tx_feeBid l * tx_numOps r) (tx_feeBid r * tx_numOps l)).
Proof. intros [? ?] [? ?]. apply rate_ok; lia. Qed.

Lemma lessThanXored_ok (seed : Z) (l r : QueuedTx) :
  priced l -> priced r -> exists b, lessThanXored l r seed = Ok b /\ (b = true <-> less seed l r).
Proof.
  intros Hl Hr. unfold lessThanXored. rewrite compareTxs_ok by done. cbn [res_bind]. unfold less, cheaper.
  destruct (Z.compare_spec (tx_feeBid l * tx_numOps r) (tx_feeBid r * tx_numOps l)) as [E|E|E]; eexists; (split; [done|]).
  - rewrite Z.ltb_lt. split; [right|intros [|]]; lia.
  - split; [by left|done].
  - split; [done|]. intros [|]; lia.
Qed.

Lemma cheaper_trans (x y z : QueuedTx) : priced x -> priced y -> priced z -> cheaper x y -> cheaper y z -> cheaper x z.
Proof. unfold cheaper, priced. intros [? ?] [? ?] [? ?] Hc1 Hc2. nia. Qed.

Lemma cheaper_mono (x y z : QueuedTx) : priced x -> priced y -> priced z -> ~ cheaper y x -> cheaper y z -> cheaper x z.
Proof. unfold cheaper, priced. intros [? ?] [? ?] [? ?] Hc1 Hc2. nia. Qed.

Lemma cheaper_mono_r (x y z : QueuedTx) : priced x -> priced y -> priced z -> cheaper x y -> ~ cheaper z y -> cheaper x z.
Proof. unfold cheaper, priced. intros [? ?] [? ?] [? ?] Hc1 Hc2. nia. Qed.

Lemma less_trans (seed : Z) (x y z : QueuedTx) :
  priced x -> priced y -> priced z -> less seed x y -> less seed y z -> less seed x z.
Proof.
  intros Hx Hy Hz [H1|[H1 H1']] [H2|[H2 H2']].
  - left. by apply (cheaper_trans x y z).
  - left. by apply (cheaper_mono_r x y z).
  - left. by apply (cheaper_mono x y z).
  - right. split; [|lia]. intros H3. apply H2. by apply (cheaper_mono_r z x y).
Qed.

Lemma less_total (seed : Z) (x y : QueuedTx) : less seed x y \/ less seed y x \/ address x = address y.
Proof.
  unfold less, cheaper.
  destruct (Z.lt_trichotomy (tx_feeBid x * tx_numOps y) (tx_feeBid y * tx_numOps x)) as [|[E|]]; [auto| |auto].
  destruct (Z.lt_trichotomy (Z.lxor (address x) seed) (Z.lxor (address y) seed)) as [|[E'|]].
  - left. right. split; [lia|done].
  - right. right. apply (f_equal (fun z => Z.lxor z seed)) in E'. by rewrite !Z.lxor_assoc, Z.lxor_nilpotent, !Z.lxor_0_r in E'.
  - right. left. right. split; [lia|done].
Qed.

Lemma less_irrefl (seed : Z) (x : QueuedTx) : ~ less seed x x.
Proof. unfold less, cheaper. intros [|[]]; lia. Qed.

Lemma less_asym (seed : Z) (x y : QueuedTx) : less seed x y -> ~ less seed y x.
Proof. unfold less, cheaper. intros [|[]] [|[]]; lia. Qed.

(** The set of the limiter. *)
Definition sorted_txs (seed : Z) : list QueuedTx -> Prop := StronglySorted (less seed).

Lemma txs_emplace_ok (seed : Z) (tx : QueuedTx) (l : list QueuedTx) :
  priced tx -> Forall priced l -> sorted_txs seed l -> address tx ∉ address <$> l ->
  exists l', txs_emplace seed tx l = Ok l' /\ l' ≡ₚ tx :: l /\ sorted_txs seed l'.
Proof.
  intros Ht Hl Hs. induction Hs as [|x l Hs IH Hx]; intros Ha; simpl.
  { exists [tx]. split; [done|]. split; [done|]. repeat constructor. }
  apply Forall_cons in Hl as [Hpx Hl]. rewrite fmap_cons, not_elem_of_cons in Ha. destruct Ha as [Hax Ha].
  destruct (lessThanXored_ok seed tx x Ht Hpx) as (b&->&Hb). cbn [res_bind]. destruct b.
  { exists (tx :: x :: l). split; [done|]. split; [done|]. assert (less seed tx x) as Hlt by (by apply Hb).
    constructor; [by constructor|]. constructor; [done|]. rewrite Forall_forall in Hl, Hx |- *. intros y Hy.
    eapply less_trans; [exact Ht|exact Hpx|by apply Hl|done|by apply Hx]. }
  destruct (lessThanXored_ok seed x tx Hpx Ht) as (b'&->&Hb'). cbn [res_bind].
  assert (less seed x tx) as Hxt.
  { destruct (less_total seed x tx) as [?|[H|H]]; [done|by apply Hb in H|congruence]. }
  destruct b'; [|by apply Hb' in Hxt]. destruct (IH Hl Ha) as (l'&->&Hp&Hs'). cbn [res_bind]. exists (x :: l').
  split; [done|]. split; [rewrite Hp; constructor|]. constructor; [done|]. rewrite Hp. by constructor.
Qed.

Lemma txs_erase_ok (seed : Z) (tx : QueuedTx) (l : list QueuedTx) :
  Forall priced l -> sorted_txs seed l -> tx ∈ l ->
  exists l', txs_erase seed tx l = Ok (Some l') /\ l ≡ₚ tx :: l' /\ sorted_txs seed l' /\ sublist l' l.
Proof.
  intros Hl Hs Hin. assert (priced tx) as Ht by (rewrite Forall_forall in Hl; by apply Hl).
  induction Hs as [|x l Hs IH Hx]; simpl; [by apply not_elem_of_nil in Hin|].
  apply Forall_cons in Hl as [Hpx Hl]. destruct (lessThanXored_ok seed x tx Hpx Ht) as (b&->&Hb). cbn [res_bind].
  apply elem_of_cons in Hin as [->|Hin].
  - destruct b; [exfalso; by apply (less_irrefl seed x), Hb|].
    destruct (lessThanXored_ok seed x x Hpx Ht) as (b'&->&Hb'). cbn [res_bind].
    destruct b'; [exfalso; by apply (less_irrefl seed x), Hb'|]. exists l. split; [done|]. split; [done|]. split; [done|]. by apply sublist_cons.
  - assert (less seed x tx) as Hlt by (rewrite Forall_forall in Hx; by apply Hx).
    destruct b; [|by apply Hb in Hlt]. destruct (IH Hl Hin) as (l'&->&Hp&Hs'&Hsub). cbn [res_bind].
    exists (x :: l'). split; [done|]. split; [rewrite Hp; constructor|]. split; [|by apply sublist_skip].
    constructor; [done|]. rewrite Forall_forall in Hx |- *. intros y Hy. apply Hx. rewrite Hp. by right.
Qed.

(** ** The transactions of the queue *)

Definition txs_of (l : list TimestampedTx) : list QueuedTx := mTx <$> l.

(** What an account has, in the queue and in a map. *)
Definition list_of (m : gmap AccountID AccountState) (a : AccountID) : list TimestampedTx :=
  match m !! a with Some s => mTransactions s | None => [] end.

Definition queued (m : gmap AccountID AccountState) : list QueuedTx :=
  concat ((fun p => txs_of (mTransactions (snd p))) <$> map_to_list m).

Lemma queued_delete (m : gmap AccountID AccountState) (a : AccountID) :
  queued m ≡ₚ txs_of (list_of m a) ++ queued (delete a m).
Proof.
  unfold list_of. destruct (m !! a) as [s|] eqn:E.
  - unfold queued. rewrite <- (insert_delete_id m a s E) at 1. rewrite map_to_list_insert by apply lookup_delete_eq. done.
  - by rewrite delete_id.
Qed.

Lemma queued_insert (m : gmap AccountID AccountState) (a : AccountID) (s : AccountState) :
  queued (<[a := s]> m) ≡ₚ txs_of (mTransactions s) ++ queued (delete a m).
Proof. rewrite (queued_delete _ a). unfold list_of. by rewrite lookup_insert_eq, delete_insert_eq. Qed.

Lemma elem_of_queued (m : gmap AccountID AccountState) (tx : QueuedTx) :
  tx ∈ queued m <-> exists a s t, m !! a = Some s /\ t ∈ mTransactions s /\ mTx t = tx.
Proof.
  unfold queued. rewrite list_elem_of_In, in_concat. split.
  - intros (l&Hl&Hin). rewrite <- list_elem_of_In in Hl. rewrite <- list_elem_of_In in Hin. apply list_elem_of_fmap in Hl as ([a s]&->&Ha%elem_of_map_to_list).
    apply list_elem_of_fmap in Hin as (t&->&Ht). by exists a, s, t.
  - intros (a&s&t&Ha&Ht&<-). exists (txs_of (mTransactions s)). rewrite <- !list_elem_of_In. split; [|by apply list_elem_of_fmap_2].
    apply list_elem_of_fmap. exists (a, s). split; [done|]. by apply elem_of_map_to_list.
Qed.

(** Equal lists, equal transactions. *)
Lemma queued_txs (m m' : gmap AccountID AccountState) :
  (forall a, txs_of (list_of m' a) = txs_of (list_of m a)) -> queued m' ≡ₚ queued m.
Proof.
  revert m'. induction m as [|a s m Ha IH] using map_ind; intros m' Hl.
  - destruct (queued m') as [|tx l] eqn:E; [done|].
    assert (tx ∈ queued m') as (a&s&t&Hs&Ht&_)%elem_of_queued by (rewrite E; by left).
    specialize (Hl a). unfold list_of in Hl. rewrite Hs, lookup_empty in Hl. apply fmap_nil_inv in Hl. rewrite Hl in Ht. by apply not_elem_of_nil in Ht.
  - rewrite (queued_delete m' a), (queued_insert m a s), (delete_id m a) by done. rewrite Hl. unfold list_of at 1.
    rewrite lookup_insert_eq. f_equiv. apply IH. intros b. specialize (Hl b). unfold list_of in *.
    destruct (decide (a = b)) as [->|Hne]; [by rewrite lookup_delete_eq, Ha|].
    by rewrite lookup_delete_ne, lookup_insert_ne in * by done.
Qed.

Lemma queued_lists (m m' : gmap AccountID AccountState) :
  (forall a, list_of m' a = list_of m a) -> queued m' ≡ₚ queued m.
Proof. intros Hl. apply queued_txs. intros a. by rewrite Hl. Qed.

(** One list changes. *)
Lemma queued_change (m m' : gmap AccountID AccountState) (a : AccountID) :
  (forall b, b <> a -> list_of m' b = list_of m b) ->
  exists rest, queued m ≡ₚ txs_of (list_of m a) ++ rest /\ queued m' ≡ₚ txs_of (list_of m' a) ++ rest.
Proof.
  intros Hl. exists (queued (delete a m)). split; [apply queued_delete|]. rewrite (queued_delete m' a). f_equiv.
  apply queued_lists. intros b. unfold list_of. destruct (decide (b = a)) as [->|Hne]; [by rewrite !lookup_delete_eq|].
  specialize (Hl b Hne). unfold list_of in Hl. by rewrite !lookup_delete_ne by done.
Qed.

(** ** Sums *)

Definition zsum (l : list Z) : Z := foldr Z.add 0 l.

Lemma zsum_app (l1 l2 : list Z) : zsum (l1 ++ l2) = zsum l1 + zsum l2.
Proof. induction l1; simpl; lia. Qed.

#[export] Instance zsum_Permutation : Proper ((≡ₚ) ==> (=)) zsum.
Proof. intros l1 l2 Hl. induction Hl; simpl; lia. Qed.

Definition ops (l : list QueuedTx) : Z := zsum (tx_numOps <$> l).

(** The fees an account stands for. *)
Definition fees_of (a : AccountID) (l : list QueuedTx) : Z :=
  zsum ((fun tx => if tx_feeSourceID tx =? a then tx_feeBid tx else 0) <$> l).

(** Of the transactions still to broadcast. *)
Definition bops (l : list TimestampedTx) : Z :=
  zsum ((fun t => if mBroadcasted t then 0 else tx_numOps (mTx t)) <$> l).

#[export] Instance ops_Permutation : Proper ((≡ₚ) ==> (=)) ops.
Proof. intros l1 l2 Hl. unfold ops. by rewrite Hl. Qed.
#[export] Instance fees_of_Permutation (a : AccountID) : Proper ((≡ₚ) ==> (=)) (fees_of a).
Proof. intros l1 l2 Hl. unfold fees_of. by rewrite Hl. Qed.

Lemma ops_app (l1 l2 : list QueuedTx) : ops (l1 ++ l2) = ops l1 + ops l2.
Proof. unfold ops. by rewrite fmap_app, zsum_app. Qed.
Lemma ops_cons (tx : QueuedTx) (l : list QueuedTx) : ops (tx :: l) = tx_numOps tx + ops l.
Proof. done. Qed.
Lemma fees_app (a : AccountID) (l1 l2 : list QueuedTx) : fees_of a (l1 ++ l2) = fees_of a l1 + fees_of a l2.
Proof. unfold fees_of. by rewrite fmap_app, zsum_app. Qed.
Lemma fees_cons (a : AccountID) (tx : QueuedTx) (l : list QueuedTx) :
  fees_of a (tx :: l) = (if tx_feeSourceID tx =? a then tx_feeBid tx else 0) + fees_of a l.
Proof. done. Qed.
Lemma bops_app (l1 l2 : list TimestampedTx) : bops (l1 ++ l2) = bops l1 + bops l2.
Proof. unfold bops. by rewrite fmap_app, zsum_app. Qed.

Lemma bops_cons (t : TimestampedTx) (l : list TimestampedTx) :
  bops (t :: l) = (if mBroadcasted t then 0 else tx_numOps (mTx t)) + bops l.
Proof. done. Qed.

Lemma ops_nonneg (l : list QueuedTx) : Forall priced l -> 0 <= ops l.
Proof. induction 1 as [|tx l [_ ?] Hl IH]; [done|]. rewrite ops_cons. lia. Qed.

Lemma fees_nonneg (a : AccountID) (l : list QueuedTx) : Forall priced l -> 0 <= fees_of a l.
Proof. induction 1 as [|tx l [? _] Hl IH]; [done|]. rewrite fees_cons. destruct (tx_feeSourceID tx =? a); lia. Qed.

Lemma bops_bounds (l : list TimestampedTx) : Forall priced (txs_of l) -> 0 <= bops l <= ops (txs_of l).
Proof.
  induction l as [|t l IH]; [done|]. intros [[_ ?] Hl]%Forall_cons. specialize (IH Hl).
  change (txs_of (t :: l)) with (mTx t :: txs_of l). rewrite ops_cons, bops_cons. destruct (mBroadcasted t); lia.
Qed.

(** ** The books *)

Definition total_of (m : gmap AccountID AccountState) (a : AccountID) : Z :=
  match m !! a with Some s => mTotalFees s | None => 0 end.

(** The fees and the limiter, against the transactions: [T] of the limiter, and
    [E] whose fees are counted and that the limiter does not have yet. *)
Record books (q : TransactionQueue) (T E : list QueuedTx) : Prop := {
  bk_priced : Forall priced (T ++ E);
  bk_addresses : NoDup (address <$> T ++ E);
  bk_fees : forall a, total_of (mAccountStates q) a = fees_of a (T ++ E);
  bk_fee_bound : forall a, fees_of a (T ++ E) <= INT64_MAX;
  bk_ops_bound : ops (T ++ E) <= UINT64_MAX;
  bk_txs : mTxs (mTxQueueLimiter q) ≡ₚ T;
  bk_sorted : sorted_txs (mTxsSeed (mTxQueueLimiter q)) (mTxs (mTxQueueLimiter q));
  bk_ops : mLimiterOps (mTxQueueLimiter q) = ops T;
}.

(** An account counts the operations of [l]. *)
Definition holds (s : AccountState) (l : list TimestampedTx) : Prop :=
  mQueueSizeOps s = ops (txs_of l) /\ mBroadcastQueueOps s = bops l.

(** An account is there for its transactions or for the fees it stands for. *)
Definition present (m : gmap AccountID AccountState) : Prop :=
  forall a s, m !! a = Some s -> mTransactions s <> [] \/ 0 < mTotalFees s.

(** What stays when transactions of [source] are taken off the books. *)
Record kept (source : AccountID) (q q' : TransactionQueue) : Prop := {
  kp_lists : forall a, list_of (mAccountStates q') a = list_of (mAccountStates q) a;
  kp_accounts : forall a s', mAccountStates q' !! a = Some s' -> exists s, mAccountStates q !! a = Some s /\
    mTransactions s' = mTransactions s /\ mAge s' = mAge s /\
    (a <> source -> mQueueSizeOps s' = mQueueSizeOps s /\ mBroadcastQueueOps s' = mBroadcastQueueOps s);
  kp_present : present (mAccountStates q) -> present (mAccountStates q');
  kp_rest : q' = with_limiter (mTxQueueLimiter q') (with_accounts (mAccountStates q') q);
  kp_sublist : sublist (mTxs (mTxQueueLimiter q')) (mTxs (mTxQueueLimiter q));
  kp_limiter : mPoolLedgerMultiplier (mTxQueueLimiter q') = mPoolLedgerMultiplier (mTxQueueLimiter q) /\
    mMinFeeNeeded (mTxQueueLimiter q') = mMinFeeNeeded (mTxQueueLimiter q) /\
    mTxsSeed (mTxQueueLimiter q') = mTxsSeed (mTxQueueLimiter q);
}.

Lemma sums_kept_refl (source : AccountID) (q : TransactionQueue) : kept source q q.
Proof. split; try done. - intros a s Hs. by exists s. - by destruct q. Qed.

Lemma sums_kept_trans (source : AccountID) (q1 q2 q3 : TransactionQueue) : kept source q1 q2 -> kept source q2 q3 -> kept source q1 q3.
Proof.
  intros H1 H2. split.
  - intros a. by rewrite (kp_lists _ _ _ H2), (kp_lists _ _ _ H1).
  - intros a s3 Hs3. destruct (kp_accounts _ _ _ H2 a s3 Hs3) as (s2&Hs2&Ht&Hg&Hn).
    destruct (kp_accounts _ _ _ H1 a s2 Hs2) as (s1&Hs1&Ht'&Hg'&Hn'). exists s1.
    split; [done|]. split; [by rewrite Ht|]. split; [by rewrite Hg|]. intros Hne.
    destruct (Hn Hne) as [-> ->]. by apply Hn'.
  - intros Hp. by apply (kp_present _ _ _ H2), (kp_present _ _ _ H1).
  - rewrite (kp_rest _ _ _ H2) at 1. by rewrite (kp_rest _ _ _ H1).
  - by rewrite (kp_sublist _ _ _ H2), (kp_sublist _ _ _ H1).
  - destruct (kp_limiter _ _ _ H2) as (->&->&->). apply (kp_limiter _ _ _ H1).
Qed.

(** ** Taking a transaction off the books *)

Definition set_total (v : Z) (s : AccountState) : AccountState :=
  {| mTotalFees := v; mQueueSizeOps := mQueueSizeOps s; mBroadcastQueueOps := mBroadcastQueueOps s;
     mAge := mAge s; mTransactions := mTransactions s |}.

(** The accounts once [f] stands for [v]. *)
Definition charge (f : AccountID) (v : Z) (m : gmap AccountID AccountState) : gmap AccountID AccountState :=
  match m !! f with
  | Some s => if bool_decide (mTransactions s = []) && (v =? 0) then delete f m else <[f := set_total v s]> m
  | None => m
  end.

Lemma charge_keeps (f a : AccountID) (v : Z) (m : gmap AccountID AccountState) (s : AccountState) :
  m !! a = Some s -> mTransactions s <> [] -> exists v', charge f v m !! a = Some (set_total v' s).
Proof.
  intros Hs Hne. assert (s = set_total (mTotalFees s) s) as Hid by (by destruct s). unfold charge. destruct (decide (f = a)) as [->|Hfa].
  - rewrite Hs, bool_decide_eq_false_2 by done. cbn [andb]. rewrite lookup_insert_eq. by exists v.
  - exists (mTotalFees s). rewrite <- Hid. destruct (m !! f); [|done]. destruct (_ && _); by rewrite ?lookup_delete_ne, ?lookup_insert_ne.
Qed.

Lemma release_charge (tx : QueuedTx) (q : TransactionQueue) (s : AccountState) :
  mAccountStates q !! tx_feeSourceID tx = Some s -> tx_feeBid tx <= mTotalFees s ->
  releaseFeeMaybeEraseAccountState tx q =
    Ok (with_accounts (charge (tx_feeSourceID tx) (mTotalFees s - tx_feeBid tx) (mAccountStates q)) q).
Proof.
  intros Hs Hle. unfold releaseFeeMaybeEraseAccountState, charge. rewrite Hs. apply Z.leb_le in Hle. rewrite Hle.
  cbn [ensure res_bind mTransactions mTotalFees]. by destruct (_ && _).
Qed.

Lemma charge_inv (f a : AccountID) (v : Z) (m : gmap AccountID AccountState) (s' : AccountState) :
  charge f v m !! a = Some s' -> exists s, m !! a = Some s /\
    (a <> f /\ s' = s \/ a = f /\ s' = set_total v s /\ (mTransactions s <> [] \/ v <> 0)).
Proof.
  unfold charge. destruct (decide (a = f)) as [->|Hne].
  - destruct (m !! f) as [s|] eqn:Hf; [|by rewrite Hf].
    destruct (bool_decide (mTransactions s = []) && (v =? 0)) eqn:Hb; rewrite ?lookup_delete_eq, ?lookup_insert_eq; intros [= <-].
    exists s. split; [done|]. right. split; [done|]. split; [done|]. apply andb_false_iff in Hb as [|]; bprop; auto.
  - intros H. exists s'. split; [|by left]. revert H.
    destruct (m !! f); [destruct (_ && _)|]; by rewrite ?lookup_delete_ne, ?lookup_insert_ne by done.
Qed.

Lemma charge_list (f a : AccountID) (v : Z) (m : gmap AccountID AccountState) : list_of (charge f v m) a = list_of m a.
Proof.
  unfold charge, list_of. destruct (m !! f) as [s|] eqn:Hf; [|done]. destruct (decide (a = f)) as [->|Hne].
  - destruct (bool_decide (mTransactions s = []) && (v =? 0)) eqn:E; rewrite ?lookup_delete_eq, ?lookup_insert_eq.
    + rewrite Hf. by bprop.
    + by rewrite Hf.
  - destruct (_ && _); by rewrite ?lookup_delete_ne, ?lookup_insert_ne by done.
Qed.

Lemma charge_total (f a : AccountID) (v : Z) (m : gmap AccountID AccountState) (s : AccountState) :
  m !! f = Some s -> total_of (charge f v m) a = if f =? a then v else total_of m a.
Proof.
  intros Hf. unfold charge, total_of. rewrite Hf. destruct (Z.eqb_spec f a) as [->|Hne].
  - destruct (bool_decide _); destruct (Z.eqb_spec v 0); cbn [andb]; rewrite ?lookup_delete_eq, ?lookup_insert_eq; by simpl.
  - destruct (_ && _); by rewrite ?lookup_delete_ne, ?lookup_insert_ne by done.
Qed.

Lemma total_of_insert (m : gmap AccountID AccountState) (a b : AccountID) (s : AccountState) :
  total_of (<[a := s]> m) b = if a =? b then mTotalFees s else total_of m b.
Proof. unfold total_of. destruct (Z.eqb_spec a b) as [->|]; [by rewrite lookup_insert_eq|by rewrite lookup_insert_ne]. Qed.

Lemma list_of_insert (m : gmap AccountID AccountState) (a b : AccountID) (s : AccountState) :
  list_of (<[a := s]> m) b = if a =? b then mTransactions s else list_of m b.
Proof. unfold list_of. destruct (Z.eqb_spec a b) as [->|]; [by rewrite lookup_insert_eq|by rewrite lookup_insert_ne]. Qed.

(** An account for which something is counted is there. *)
Lemma total_of_positive (m : gmap AccountID AccountState) (a : AccountID) :
  0 < total_of m a -> exists s, m !! a = Some s /\ mTotalFees s = total_of m a.
Proof. unfold total_of. destruct (m !! a) as [s|]; [by exists s|lia]. Qed.

(** The counts of an account change, its transactions and its age do not. *)
Lemma kept_charge (source f : AccountID) (v : Z) (lim : TxQueueLimiter) (q : TransactionQueue) (s s1 : AccountState) :
  mAccountStates q !! source = Some s -> mTransactions s <> [] -> 0 <= v ->
  mTotalFees s1 = mTotalFees s -> mTransactions s1 = mTransactions s -> mAge s1 = mAge s ->
  sublist (mTxs lim) (mTxs (mTxQueueLimiter q)) ->
  mPoolLedgerMultiplier lim = mPoolLedgerMultiplier (mTxQueueLimiter q) /\
    mMinFeeNeeded lim = mMinFeeNeeded (mTxQueueLimiter q) /\ mTxsSeed lim = mTxsSeed (mTxQueueLimiter q) ->
  kept source q (with_limiter lim (with_accounts (charge f v (<[source := s1]> (mAccountStates q))) q)).
Proof.
  intros Hs Hne Hv Hf1 Ht1 Hg1 Hsub Hlim. split; try done; cbn [mAccountStates with_limiter with_accounts].
  - intros a. rewrite charge_list, list_of_insert. destruct (Z.eqb_spec source a) as [<-|]; [|done].
    unfold list_of. by rewrite Hs, Ht1.
  - intros a s' (s2&Hs2&Hor)%charge_inv.
    assert (mTransactions s' = mTransactions s2 /\ mAge s' = mAge s2 /\ mQueueSizeOps s' = mQueueSizeOps s2 /\
      mBroadcastQueueOps s' = mBroadcastQueueOps s2) as (->&->&->&->) by (by destruct Hor as [[_ ->]|(_&->&_)]).
    apply lookup_insert_Some in Hs2 as [[<- <-]|[Hns Hs2]]; [exists s|exists s2]; done.
  - intros Hp a s' (s2&Hs2&Hor)%charge_inv. assert (mTransactions s2 <> [] \/ 0 < mTotalFees s2) as Hs2p.
    { apply lookup_insert_Some in Hs2 as [[<- <-]|[_ Hs2]]; [left; by rewrite Ht1|by apply (Hp a)]. }
    destruct Hor as [[_ ->]|(_&->&[|])]; [done|by left|right; simpl; lia].
Qed.

Lemma prepareDrop_ok (source : AccountID) (t : TimestampedTx) (l : list TimestampedTx) (q : TransactionQueue)
    (T E : list QueuedTx) (s : AccountState) :
  books q (mTx t :: T) E -> mAccountStates q !! source = Some s -> mTransactions s <> [] -> holds s (t :: l) ->
  Forall priced (txs_of l) -> ops (txs_of (t :: l)) <= UINT64_MAX ->
  exists q' s', prepareDropTransaction source t q = Ok q' /\ books q' T E /\ kept source q q' /\
    mAccountStates q' !! source = Some s' /\ holds s' l.
Proof.
  intros Hb Hs Hne [Ho Hbo] Hpl Hbound. destruct Hb as [Hpr Had Hfe Hfb Hob Htx Hso Hop].
  change ((mTx t :: T) ++ E) with (mTx t :: (T ++ E)) in *. apply Forall_cons in Hpr as [Hpt Hpr].
  pose proof Hpr as [HpT _]%Forall_app. pose proof (ops_nonneg _ HpT) as HoT. pose proof (bops_bounds l Hpl) as Hbl.
  change (txs_of (t :: l)) with (mTx t :: txs_of l) in *. rewrite ops_cons in *. rewrite bops_cons in Hbo.
  assert (1 <= tx_numOps (mTx t)) as Hot by (by destruct Hpt as [_ []]).
  unfold prepareDropTransaction. rewrite Hs. cbn zeta. unfold removeTransaction.
  destruct (Z.ltb_spec (mLimiterOps (mTxQueueLimiter q)) (tx_numOps (mTx t))) as [?|_]; [lia|].
  destruct (txs_erase_ok (mTxsSeed (mTxQueueLimiter q)) (mTx t) (mTxs (mTxQueueLimiter q))) as (txs&->&Hp&Hs'&Hsub);
    [rewrite Htx; by constructor|done|rewrite Htx; by left|]. cbn [res_bind].
  set (s1 := {| mTotalFees := mTotalFees s |}). set (lim := {| mLimiterOps := _ |}).
  set (f := tx_feeSourceID (mTx t)).
  assert (forall a, total_of (<[source := s1]> (mAccountStates q)) a = fees_of a (mTx t :: T ++ E)) as Htot.
  { intros a. rewrite total_of_insert. destruct (Z.eqb_spec source a) as [<-|]; [|done].
    rewrite <- Hfe. unfold total_of. by rewrite Hs. }
  assert (fees_of f (mTx t :: T ++ E) = tx_feeBid (mTx t) + fees_of f (T ++ E)) as Hff.
  { rewrite fees_cons. unfold f. by rewrite Z.eqb_refl. }
  pose proof (fees_nonneg f _ Hpr) as Hf0. destruct Hpt as [Hpt _].
  destruct (total_of_positive (<[source := s1]> (mAccountStates q)) f) as (s2&Hs2&Hv2); [rewrite Htot; lia|].
  rewrite (release_charge _ _ s2) by (done || (rewrite Hv2, Htot; lia)).
  fold f. cbn [mAccountStates with_limiter with_account with_accounts].
  assert (mTotalFees s2 - tx_feeBid (mTx t) = fees_of f (T ++ E)) as -> by (rewrite Hv2, Htot; lia).
  destruct (charge_keeps f source (fees_of f (T ++ E)) (<[source := s1]> (mAccountStates q)) s1) as [v' Hv'];
    [by rewrite lookup_insert_eq|done|].
  eexists _, _. split; [done|]. cbn [mAccountStates mTxQueueLimiter with_accounts with_limiter with_account].
  split; [|split; [by apply kept_charge with (s := s)|split; [exact Hv'|]]].
  - split; cbn [mAccountStates mTxQueueLimiter with_accounts with_limiter with_account]; try done.
    + by apply NoDup_cons in Had as [_ Had].
    + intros a. rewrite (charge_total _ _ _ _ s2) by done. rewrite Htot, fees_cons. fold f.
      destruct (Z.eqb_spec f a) as [<-|]; lia.
    + intros a. specialize (Hfb a). rewrite fees_cons in Hfb. destruct (_ =? _); lia.
    + lia.
    + cbn [mTxs lim]. apply (Permutation_cons_inv (a := mTx t)). by rewrite <- Hp.
    + cbn [mLimiterOps lim]. lia.
  - split; cbn [set_total mQueueSizeOps mBroadcastQueueOps s1].
    + rewrite u64_id by (unfold_ints; lia). lia.
    + destruct (mBroadcasted t); [lia|]. rewrite u64_id by (unfold_ints; lia). lia.
Qed.

(** Several transactions. *)
Lemma prepareDrops_ok (source : AccountID) (l l2 : list TimestampedTx) (T E : list QueuedTx) : forall (q : TransactionQueue) (s : AccountState),
  books q (txs_of l ++ T) E -> mAccountStates q !! source = Some s -> mTransactions s <> [] -> holds s (l ++ l2) ->
  Forall priced (txs_of (l ++ l2)) -> ops (txs_of (l ++ l2)) <= UINT64_MAX ->
  exists q' s', prepareDrops source l q = Ok q' /\ books q' T E /\ kept source q q' /\
    mAccountStates q' !! source = Some s' /\ holds s' l2.
Proof.
  induction l as [|t l IH]; intros q s Hb Hs Hne Hh Hpr Ho.
  { exists q, s. split; [done|]. split; [done|]. split; [apply sums_kept_refl|done]. }
  assert (Forall priced (txs_of (l ++ l2)) /\ ops (txs_of (l ++ l2)) <= UINT64_MAX) as [Hpr' Ho'].
  { apply Forall_cons in Hpr as [[_ [? _]] Hpr]. split; [done|]. change (txs_of ((t :: l) ++ l2)) with (mTx t :: txs_of (l ++ l2)) in Ho.
    rewrite ops_cons in Ho. lia. }
  destruct (prepareDrop_ok source t (l ++ l2) q (txs_of l ++ T) E s) as (q1&s1&E1&Hb1&Hk1&Hs1&Hh1); try done.
  simpl. rewrite E1. cbn [res_bind].
  destruct (IH q1 s1) as (q2&s2&E2&Hb2&Hk2&Hs2&Hh2); try done.
  { destruct (kp_accounts _ _ _ Hk1 source s1 Hs1) as (s0&Hs0&->&_). by simplify_eq. }
  exists q2, s2. split; [done|]. split; [done|]. split; [by apply sums_kept_trans with q1|done].
Qed.

(** ** Sequence numbers *)

(** Sequence numbers without a gap, from [n] on. *)
Definition contiguous (n : Z) (l : list TimestampedTx) : Prop :=
  forall i t, l !! i = Some t -> tx_seqNum (mTx t) = n + Z.of_nat i /\ tx_seqNum (mTx t) < INT64_MAX.

Lemma contiguous_take (n : Z) (k : nat) (l : list TimestampedTx) : contiguous n l -> contiguous n (take k l).
Proof. intros Hc i t Ht. apply Hc. by apply lookup_take_Some in Ht as [? _]. Qed.

Lemma contiguous_drop (n : Z) (k : nat) (l : list TimestampedTx) : contiguous n l -> contiguous (n + Z.of_nat k) (drop k l).
Proof. intros Hc i t Ht. rewrite lookup_drop in Ht. apply Hc in Ht. lia. Qed.

Lemma findBySeq_ok (n seq : Z) (l : list TimestampedTx) :
  contiguous n l -> l <> [] ->
  findBySeq seq l =
    Ok (if (n <=? seq) && (seq <=? n + Z.of_nat (length l)) then Some (Z.to_nat (seq - n)) else None).
Proof.
  intros Hc Hne. destruct l as [|front l]; [done|]. set (L := front :: l) in *.
  destruct (Hc 0%nat front eq_refl) as [Hf _].
  destruct (lookup_lt_is_Some_2 L (pred (length L))) as [back Hb]; [simpl; lia|].
  destruct (Hc _ _ Hb) as [Hl Hmax]. unfold findBySeq, L at 1. fold L. rewrite last_lookup, Hb. cbn zeta.
  rewrite Hl, Hf. rewrite Hl in Hmax. replace (n + Z.of_nat 0) with n by lia.
  assert (Z.of_nat (length L) = Z.of_nat (pred (length L)) + 1) as Hlen by (simpl; lia).
  destruct (Z.ltb_spec seq n), (Z.leb_spec n seq); try lia; [done|]. cbn [andb].
  apply Z.ltb_lt in Hmax as Hm. rewrite Hm. cbn [ensure res_bind].
  destruct (Z.ltb_spec (n + Z.of_nat (pred (length L)) + 1) seq), (Z.leb_spec seq (n + Z.of_nat (length L))); try lia; [done|].
  destruct (Z.leb_spec (seq - n) (Z.of_nat (length L))); [|lia]. cbn [ensure res_bind].
  destruct (L !! Z.to_nat (seq - n)) as [t|] eqn:Ht; [|done]. apply Hc in Ht as [Ht _].
  destruct (Z.eqb_spec (tx_seqNum (mTx t)) seq); [done|lia].
Qed.

(** The full hash of a genuine transaction stands for its envelope, which is
    [envelope]. *)
Section queue.
Context (envelope : Z -> TransactionFrameBase).

Definition genuine (tx : QueuedTx) : Prop := frame tx = envelope (fullHash tx).

Lemma genuine_hash (x y : QueuedTx) : genuine x -> genuine y -> fullHash x = fullHash y ->
  tx_sourceID x = tx_sourceID y /\ tx_seqNum x = tx_seqNum y.
Proof. unfold genuine, tx_sourceID, tx_seqNum. intros -> -> ->. done. Qed.

Lemma findTx_ok (n : Z) (tx : QueuedTx) (l : list TimestampedTx) (d : nat) :
  contiguous n l -> l <> [] -> Forall (fun t => genuine (mTx t)) l -> genuine tx ->
  exists k, findTx tx l d = Ok k /\
    ((exists t, l !! k = Some t /\ fullHash (mTx t) = fullHash tx) \/
     k = d /\ forall i t, l !! i = Some t -> fullHash (mTx t) <> fullHash tx).
Proof.
  intros Hc Hne Hg Ht. unfold findTx. rewrite (findBySeq_ok n) by done. cbn [res_bind].
  rewrite Forall_lookup in Hg. assert (forall i t, l !! i = Some t -> fullHash (mTx t) = fullHash tx ->
    tx_seqNum tx = n + Z.of_nat i /\ (i < length l)%nat) as Hat.
  { intros i t Hi Hh. split; [|by apply lookup_lt_Some in Hi]. destruct (genuine_hash (mTx t) tx) as [_ <-]; [by eapply Hg|done|done|by apply Hc]. }
  destruct (Z.leb_spec n (tx_seqNum tx)), (Z.leb_spec (tx_seqNum tx) (n + Z.of_nat (length l))); cbn [andb];
    try (exists d; split; [done|right; split; [done|intros i t Hi Hh; destruct (Hat i t Hi Hh); lia]]).
  destruct (l !! Z.to_nat (tx_seqNum tx - n)) as [t|] eqn:Hi.
  - destruct (Z.eqb_spec (fullHash (mTx t)) (fullHash tx)) as [Hh|Hh]; [eexists; split; [done|left; by exists t]|].
    exists d. split; [done|]. right. split; [done|]. intros i t' Hi' Hh'. destruct (Hat i t' Hi' Hh') as [Hseq _].
    replace (Z.to_nat (tx_seqNum tx - n)) with i in Hi by lia. by simplify_eq.
  - exists d. split; [done|]. right. split; [done|]. intros i t' Hi' Hh'. destruct (Hat i t' Hi' Hh') as [Hseq _].
    replace (Z.to_nat (tx_seqNum tx - n)) with i in Hi by lia. by simplify_eq.
Qed.

(** [firstBanned] is the first place where one of the banned transactions is. *)
Lemma firstBanned_ok (n : Z) (l : list TimestampedTx) (banned : list QueuedTx) :
  contiguous n l -> l <> [] -> Forall (fun t => genuine (mTx t)) l -> Forall genuine banned -> forall d, (d <= length l)%nat ->
  exists k, firstBanned banned l d = Ok k /\ (k <= d)%nat /\
    (forall tx i t, tx ∈ banned -> l !! i = Some t -> fullHash (mTx t) = fullHash tx -> (k <= i)%nat) /\
    (k = d \/ exists tx t, tx ∈ banned /\ l !! k = Some t /\ fullHash (mTx t) = fullHash tx).
Proof.
  intros Hc Hne Hg. pose proof Hg as Hg'. rewrite Forall_lookup in Hg'. induction 1 as [|tx banned Ht Hb IH]; intros d Hd; simpl.
  { exists d. split; [done|]. split; [done|]. split; [|by left]. by intros tx i t ?%not_elem_of_nil. }
  assert (forall i t, l !! i = Some t -> fullHash (mTx t) = fullHash tx -> tx_seqNum tx = n + Z.of_nat i) as Hat.
  { intros i t Hi Hh. destruct (genuine_hash (mTx t) tx) as [_ <-]; [by eapply Hg'|done|done|]. by apply Hc. }
  assert (exists k0, (if match l !! d with None => true | Some t => tx_seqNum tx <? tx_seqNum (mTx t) end
      then findTx tx l d else Ok d) = Ok k0 /\ (k0 <= d)%nat /\
    (forall i t, l !! i = Some t -> fullHash (mTx t) = fullHash tx -> (k0 <= i)%nat) /\
    (k0 = d \/ exists t, l !! k0 = Some t /\ fullHash (mTx t) = fullHash tx)) as (k0&->&Hk0&Hmin&Hor).
  { destruct (findTx_ok n tx l d) as (k&Ek&Hk); [done..|].
    destruct (match l !! d with None => true | Some t => _ end) eqn:Ed.
    - exists k. split; [done|]. destruct Hk as [(t&Hkt&Hh)|[-> Hno]].
      + pose proof (Hat k t Hkt Hh) as Hseq. split; [|split; [|right; by exists t]].
        * destruct (l !! d) as [t'|] eqn:Hd'; [apply Hc in Hd' as [Hd' _]; bprop; lia|].
          apply lookup_ge_None in Hd'. apply lookup_lt_Some in Hkt. lia.
        * intros i t' Hi Hh'. pose proof (Hat i t' Hi Hh'). lia.
      + split; [done|]. split; [|by left]. intros i t Hi Hh. by destruct (Hno i t Hi).
    - exists d. split; [done|]. split; [done|]. split; [|by left]. intros i t' Hi Hh'. pose proof (Hat i t' Hi Hh').
      destruct (l !! d) as [t|] eqn:Hd'; [|done]. apply Hc in Hd' as [Hd' _]. bprop. lia. }
  cbn [res_bind]. destruct (IH k0) as (k&Ek&Hk&Hmin'&Hor'); [lia|]. exists k. split; [done|]. split; [lia|]. split.
  - intros tx' i t [->|Hin]%elem_of_cons Hi Hh; [pose proof (Hmin i t Hi Hh); lia|by eapply Hmin'].
  - destruct Hor' as [->|(tx'&t&Hin&Hkt&Hh)]; [|right; exists tx', t; split; [by right|done]].
    destruct Hor as [->|(t&Hkt&Hh)]; [by left|right]. exists tx, t. split; [by left|done].
Qed.
End queue.
