(* ===== verification/TxQueueDrops.v ===== *)
(** * The transaction queue: transactions that leave it

    The invariant of the queue, and the operations that drop transactions:
    [dropTransactions], [ban], [removeApplied] and [shift] of
    [src/herder/TransactionQueue.cpp]. *)
From stdpp Require Import base tactics numbers list sorting gmap sets.
From Stdlib Require Import ZArith Lia Bool.
From S2P Require Import Prelude Numeric OfferExchange LedgerEntries Balances Fees Containers TransactionQueue TxQueueTheorems.

Open Scope Z_scope.
Open Scope kin_scope.

(** Sums over the transactions of an account do not depend on their order. *)
#[export] Instance holds_Permutation (s : AccountState) : Proper ((≡ₚ) ==> iff) (holds s).
Proof. intros l1 l2 Hl. unfold holds, txs_of, bops. by rewrite Hl. Qed.

Lemma books_Permutation (q : TransactionQueue) (T T' E : list QueuedTx) : T ≡ₚ T' -> books q T E -> books q T' E.
Proof.
  intros HT [Hpr Had Hfe Hfb Hob Htx Hso Hop].
  split; try done; try setoid_rewrite <- HT; done.
Qed.

(** What [E] does not have, [T] has. *)
Lemma split_off (B T E R : list QueuedTx) : T ++ E ≡ₚ B ++ R -> (forall e, e ∈ E -> e ∉ B) -> exists T', T ≡ₚ B ++ T'.
Proof.
  revert T. induction B as [|b B IH]; intros T Hp He; [by exists T|].
  assert (b ∈ T) as Hb.
  { assert (b ∈ T ++ E) as [|Hb]%elem_of_app by (rewrite Hp; by left); [done|]. exfalso. apply (He b Hb). by left. }
  apply elem_of_Permutation in Hb as [T1 HT1]. destruct (IH T1) as [T' HT'].
  - apply (Permutation_cons_inv (a := b)). by rewrite app_comm_cons, <- HT1.
  - intros e Hin Hne. apply (He e Hin). by right.
  - exists T'. by rewrite HT1, HT'.
Qed.

Section queue.
Context (envelope : Z -> TransactionFrameBase).
Notation genuine := (genuine envelope).

(** The state of an account. *)
Record counted (pendingDepth : Z) (a : AccountID) (s : AccountState) : Prop := {
  ct_genuine : Forall (fun t => tx_sourceID (mTx t) = a /\ genuine (mTx t)) (mTransactions s);
  ct_contiguous : exists n, 1 <= n /\ contiguous n (mTransactions s);
  ct_holds : holds s (mTransactions s);
  ct_age : 0 <= mAge s < pendingDepth;
  ct_idle : mTransactions s = [] -> mAge s = 0;
}.

(** The invariant: the transactions of the queue are those of the limiter, [T],
    and those it does not have yet, [E]; every account is counted. *)
Record ok (q : TransactionQueue) (T E : list QueuedTx) : Prop := {
  ok_books : books q T E;
  ok_queued : queued (mAccountStates q) ≡ₚ T ++ E;
  ok_accounts : forall a s, mAccountStates q !! a = Some s -> counted (mPendingDepth q) a s;
  ok_present : present (mAccountStates q);
  ok_depth : 1 <= mPendingDepth q <= UINT32_MAX;
  ok_minFee : 0 <= fst (mMinFeeNeeded (mTxQueueLimiter q)) <= INT64_MAX /\
    0 <= snd (mMinFeeNeeded (mTxQueueLimiter q)) <= UINT32_MAX;
  ok_multiplier : is_u32 (mPoolLedgerMultiplier (mTxQueueLimiter q));
  ok_size : ops T <= UINT32_MAX * UINT32_MAX;
}.

(** No transaction of the queue is banned, but for the hashes [S]. *)
Definition unbanned (S : list QueuedTx) (q : TransactionQueue) : Prop :=
  mBannedTransactions q <> [] /\
  forall tx, tx ∈ queued (mAccountStates q) -> isBanned (fullHash tx) q = true -> exists b, b ∈ S /\ fullHash b = fullHash tx.

(** What an operation that drops transactions leaves. *)
Record dropped (q q' : TransactionQueue) : Prop := {
  dp_lists : forall a, sublist (list_of (mAccountStates q') a) (list_of (mAccountStates q) a);
  dp_rest : q' = with_banned (mBannedTransactions q')
    (with_limiter (mTxQueueLimiter q') (with_accounts (mAccountStates q') q));
  dp_sublist : sublist (mTxs (mTxQueueLimiter q')) (mTxs (mTxQueueLimiter q));
  dp_limiter : mPoolLedgerMultiplier (mTxQueueLimiter q') = mPoolLedgerMultiplier (mTxQueueLimiter q) /\
    mMinFeeNeeded (mTxQueueLimiter q') = mMinFeeNeeded (mTxQueueLimiter q) /\
    mTxsSeed (mTxQueueLimiter q') = mTxsSeed (mTxQueueLimiter q);
  dp_bans : Forall2 (⊆) (mBannedTransactions q) (mBannedTransactions q');
}.

Lemma dropped_refl (q : TransactionQueue) : dropped q q.
Proof. split; try done. by destruct q. Qed.

Lemma dropped_trans (q1 q2 q3 : TransactionQueue) : dropped q1 q2 -> dropped q2 q3 -> dropped q1 q3.
Proof.
  intros H1 H2. split.
  - intros a. by rewrite (dp_lists _ _ H2), (dp_lists _ _ H1).
  - rewrite (dp_rest _ _ H2) at 1. by rewrite (dp_rest _ _ H1).
  - by rewrite (dp_sublist _ _ H2), (dp_sublist _ _ H1).
  - destruct (dp_limiter _ _ H2) as (->&->&->). apply (dp_limiter _ _ H1).
  - etrans; [apply (dp_bans _ _ H1)|apply (dp_bans _ _ H2)].
Qed.

Lemma isBanned_spec (h : Z) (q : TransactionQueue) : isBanned h q = true <-> exists i s, mBannedTransactions q !! i = Some s /\ h ∈ s.
Proof using Type.
  clear envelope.
  unfold isBanned. rewrite existsb_exists. setoid_rewrite bool_decide_eq_true. setoid_rewrite <- list_elem_of_In.
  setoid_rewrite list_elem_of_lookup. split; [intros (s&[i Hi]&Hh)|intros (i&s&Hi&Hh)]; naive_solver.
Qed.

Lemma isBanned_mono (h : Z) (q q' : TransactionQueue) :
  Forall2 (⊆) (mBannedTransactions q) (mBannedTransactions q') -> isBanned h q = true -> isBanned h q' = true.
Proof using Type.
  clear envelope.
  rewrite !isBanned_spec. intros Hf (i&s&Hi&Hh). destruct (Forall2_lookup_l _ _ _ _ _ Hf Hi) as (s'&Hi'&Hs).
  exists i, s'. split; [done|]. by apply Hs.
Qed.

Lemma queued_list_of (q : TransactionQueue) (tx : QueuedTx) :
  tx ∈ queued (mAccountStates q) <-> exists a t, t ∈ list_of (mAccountStates q) a /\ mTx t = tx.
Proof.
  rewrite elem_of_queued. unfold list_of. split.
  - intros (a&s&t&Hs&Ht&Hx). exists a, t. by rewrite Hs.
  - intros (a&t&Ht&Hx). destruct (mAccountStates q !! a) as [s|] eqn:Hs; [by exists a, s, t|by apply not_elem_of_nil in Ht].
Qed.

Lemma dropped_queued (q q' : TransactionQueue) (tx : QueuedTx) :
  dropped q q' -> tx ∈ queued (mAccountStates q') -> tx ∈ queued (mAccountStates q).
Proof.
  rewrite !queued_list_of. intros Hd (a&t&Ht&Hx). exists a, t. split; [|done].
  by eapply elem_of_sublist; [|apply (dp_lists _ _ Hd)].
Qed.

(** ** Dropping *)

(** The end of [dropTransactions]: the transactions [l'] stay. *)
Definition settle (source : AccountID) (l' : list TimestampedTx) (q : TransactionQueue) : TransactionQueue :=
  match mAccountStates q !! source with
  | None => q
  | Some s =>
      let s := set_transactions l' s in
      if bool_decide (l' = []) then
        if mTotalFees s =? 0 then with_accounts (delete source (mAccountStates q)) q
        else with_account source (set_age 0 s) q
      else with_account source s q
  end.

Lemma settle_lookup (source a : AccountID) (l' : list TimestampedTx) (q : TransactionQueue) (s1 : AccountState) :
  mAccountStates q !! source = Some s1 ->
  mAccountStates (settle source l' q) !! a =
    if source =? a then
      if bool_decide (l' = []) then
        if mTotalFees s1 =? 0 then None else Some (set_age 0 (set_transactions l' s1))
      else Some (set_transactions l' s1)
    else mAccountStates q !! a.
Proof.
  intros Hs. unfold settle. rewrite Hs. cbn zeta. change (mTotalFees (set_transactions l' s1)) with (mTotalFees s1).
  destruct (bool_decide (l' = [])); [destruct (mTotalFees s1 =? 0)|]; cbn [mAccountStates with_accounts with_account];
    (destruct (Z.eqb_spec source a) as [->|]; [by rewrite ?lookup_delete_eq, ?lookup_insert_eq|by rewrite ?lookup_delete_ne, ?lookup_insert_ne]).
Qed.

Lemma settle_list (source a : AccountID) (l' : list TimestampedTx) (q : TransactionQueue) (s1 : AccountState) :
  mAccountStates q !! source = Some s1 ->
  list_of (mAccountStates (settle source l' q)) a = if source =? a then l' else list_of (mAccountStates q) a.
Proof.
  intros Hs. unfold list_of. rewrite (settle_lookup _ _ _ _ s1) by done. destruct (source =? a); [|done].
  destruct (bool_decide_reflect (l' = [])) as [->|]; [destruct (mTotalFees s1 =? 0)|]; done.
Qed.

Lemma settle_total (source a : AccountID) (l' : list TimestampedTx) (q : TransactionQueue) (s1 : AccountState) :
  mAccountStates q !! source = Some s1 ->
  total_of (mAccountStates (settle source l' q)) a = total_of (mAccountStates q) a.
Proof.
  intros Hs. unfold total_of. rewrite (settle_lookup _ _ _ _ s1) by done. destruct (Z.eqb_spec source a) as [<-|]; [|done].
  rewrite Hs. destruct (bool_decide _); [destruct (Z.eqb_spec (mTotalFees s1) 0)|]; done.
Qed.

Lemma settle_rest (source : AccountID) (l' : list TimestampedTx) (q : TransactionQueue) :
  settle source l' q = with_accounts (mAccountStates (settle source l' q)) q.
Proof. unfold settle. destruct (_ !! _); [destruct (bool_decide _); [destruct (_ =? _)|]|]; destruct q; done. Qed.

Lemma books_accounts (q : TransactionQueue) (m : gmap AccountID AccountState) (T E : list QueuedTx) :
  books q T E -> (forall a, total_of m a = total_of (mAccountStates q) a) -> books (with_accounts m q) T E.
Proof. intros [] Hm. split; try done. intros a. cbn. by rewrite Hm. Qed.

(** What the rest of the queue is while the transactions of [source] change. *)
Record ok_but (source : AccountID) (q : TransactionQueue) (T E : list QueuedTx) : Prop := {
  ob_books : books q T E;
  ob_queued : queued (mAccountStates q) ≡ₚ T ++ E;
  ob_accounts : forall a s, a <> source -> mAccountStates q !! a = Some s -> counted (mPendingDepth q) a s;
  ob_present : present (mAccountStates q);
  ob_depth : 1 <= mPendingDepth q <= UINT32_MAX;
  ob_minFee : 0 <= fst (mMinFeeNeeded (mTxQueueLimiter q)) <= INT64_MAX /\
    0 <= snd (mMinFeeNeeded (mTxQueueLimiter q)) <= UINT32_MAX;
  ob_multiplier : is_u32 (mPoolLedgerMultiplier (mTxQueueLimiter q));
  ob_size : ops T <= UINT32_MAX * UINT32_MAX;
}.

Lemma ok_ok_but (source : AccountID) (q : TransactionQueue) (T E : list QueuedTx) : ok q T E -> ok_but source q T E.
Proof. intros []. by split; auto. Qed.

Lemma counted_others (depth : Z) (a : AccountID) (s s' : AccountState) :
  counted depth a s -> mTransactions s' = mTransactions s -> mAge s' = mAge s -> mQueueSizeOps s' = mQueueSizeOps s ->
  mBroadcastQueueOps s' = mBroadcastQueueOps s -> counted depth a s'.
Proof. intros [Hg Hc Hh Ha Hi] Ht He Ho Hb. unfold holds in Hh. split; unfold holds; rewrite ?Ht, ?He, ?Ho, ?Hb; done. Qed.

Lemma settle_ok (source : AccountID) (l' : list TimestampedTx) (q q1 : TransactionQueue) (T T' E B : list QueuedTx) (s1 : AccountState) :
  ok_but source q T E -> kept source q q1 -> books q1 T' E -> mAccountStates q1 !! source = Some s1 -> holds s1 l' ->
  T ≡ₚ B ++ T' -> txs_of (mTransactions s1) ≡ₚ B ++ txs_of l' ->
  Forall (fun t => tx_sourceID (mTx t) = source /\ genuine (mTx t)) l' -> (exists n, 1 <= n /\ contiguous n l') ->
  (l' <> [] -> 0 <= mAge s1 < mPendingDepth q) ->
  ok (settle source l' q1) T' E.
Proof.
  intros [Hb Hq Hac Hp Hd Hm Hmu Hsz] Hk Hb1 Hs1 Hh HT Hl Hg Hc Hage.
  assert (mPendingDepth (settle source l' q1) = mPendingDepth q /\
    mTxQueueLimiter (settle source l' q1) = mTxQueueLimiter q1) as [Hdep Hlim].
  { rewrite settle_rest, (kp_rest _ _ _ Hk). done. }
  destruct (kp_limiter _ _ _ Hk) as (Hmul&Hmin&_). split.
  - rewrite settle_rest. apply books_accounts; [done|]. intros a. by rewrite (settle_total _ _ _ _ s1).
  - destruct (queued_change (mAccountStates q) (mAccountStates (settle source l' q1)) source) as (rest&H1&H2).
    { intros b Hne. rewrite (settle_list _ _ _ _ s1) by done. destruct (Z.eqb_spec source b); [congruence|]. by apply (kp_lists _ _ _ Hk). }
    rewrite (settle_list _ _ _ _ s1), Z.eqb_refl in H2 by done. rewrite H2.
    assert (list_of (mAccountStates q) source = mTransactions s1) as Hls.
    { rewrite <- (kp_lists _ _ _ Hk). unfold list_of. by rewrite Hs1. }
    rewrite Hls, Hl in H1. apply (Permutation_app_inv_l B). by rewrite !app_assoc, <- H1, Hq, HT.
  - intros a s. rewrite Hdep, (settle_lookup _ _ _ _ s1) by done. destruct (Z.eqb_spec source a) as [<-|Hne].
    + destruct (bool_decide_reflect (l' = [])) as [->|Hne'].
      * destruct (mTotalFees s1 =? 0); intros [= <-]. split; try done. simpl. lia.
      * intros [= <-]. split; try done. by apply Hage.
    + intros Hs. destruct (kp_accounts _ _ _ Hk a s Hs) as (s0&Hs0&Ht&Hg0&Hn). destruct (Hn (not_eq_sym Hne)) as [Ho Hbo].
      apply counted_others with s0; try done. by apply Hac.
  - intros a s. rewrite (settle_lookup _ _ _ _ s1) by done. destruct (Z.eqb_spec source a) as [<-|Hne].
    + destruct (bool_decide_reflect (l' = [])) as [->|Hne']; [|intros [= <-]; by left].
      destruct (Z.eqb_spec (mTotalFees s1) 0) as [|Hnz]; intros [= <-]. right. simpl.
      apply (kp_present _ _ _ Hk) in Hp. pose proof (bk_fees _ _ _ Hb1 source) as Hf. unfold total_of in Hf. rewrite Hs1 in Hf.
      pose proof (fees_nonneg source _ (bk_priced _ _ _ Hb1)). lia.
    + intros Hs. by apply (kp_present _ _ _ Hk Hp a).
  - by rewrite Hdep.
  - by rewrite Hlim, Hmin.
  - by rewrite Hlim, Hmul.
  - rewrite HT, ops_app in Hsz. enough (0 <= ops B) by lia. apply ops_nonneg.
    pose proof (bk_priced _ _ _ Hb) as Hpr. rewrite HT in Hpr. by apply Forall_app in Hpr as [[Hpr _]%Forall_app _].
Qed.

Lemma drops_ok (source : AccountID) (q : TransactionQueue) (T E : list QueuedTx) (s : AccountState) (B l' : list TimestampedTx) :
  ok_but source q T E -> mAccountStates q !! source = Some s -> mTransactions s <> [] -> holds s (mTransactions s) ->
  mTransactions s ≡ₚ B ++ l' -> Forall (fun t => tx_sourceID (mTx t) = source /\ genuine (mTx t)) (mTransactions s) ->
  (forall e, e ∈ E -> tx_sourceID e <> source) ->
  exists q1 s1 T', prepareDrops source B q = Ok q1 /\ kept source q q1 /\ books q1 T' E /\
    mAccountStates q1 !! source = Some s1 /\ holds s1 l' /\ T ≡ₚ txs_of B ++ T' /\
    mTransactions s1 = mTransactions s /\ mAge s1 = mAge s.
Proof.
  intros Hok Hs Hne Hh Hl Hg HE. pose proof (ob_books _ _ _ _ Hok) as Hb.
  pose proof (queued_delete (mAccountStates q) source) as Hq. unfold list_of in Hq. rewrite Hs in Hq.
  assert (txs_of (mTransactions s) ≡ₚ txs_of B ++ txs_of l') as Htl by (unfold txs_of; by rewrite Hl, fmap_app).
  rewrite (ob_queued _ _ _ _ Hok), Htl, <- app_assoc in Hq.
  destruct (split_off _ _ _ _ Hq) as [T' HT].
  { intros e He Hin. apply (HE e He). assert (e ∈ txs_of (mTransactions s)) as Hin' by (rewrite Htl; apply elem_of_app; by left).
    apply list_elem_of_fmap in Hin' as (t&->&Ht). rewrite Forall_forall in Hg. by apply Hg. }
  assert (txs_of (B ++ l') ≡ₚ txs_of (mTransactions s)) as HBl by (unfold txs_of; by rewrite Hl).
  assert (Forall priced (txs_of (B ++ l')) /\ ops (txs_of (B ++ l')) <= UINT64_MAX) as [Hpr Hops].
  { rewrite HBl, Htl. pose proof (bk_priced _ _ _ Hb) as Hpr. pose proof (bk_ops_bound _ _ _ Hb) as Ho. rewrite Hq, app_assoc in Hpr, Ho.
    apply Forall_app in Hpr as [Hpr Hpr']. split; [done|]. rewrite ops_app in Ho. pose proof (ops_nonneg _ Hpr'). lia. }
  destruct (prepareDrops_ok source B l' T' E q s) as (q1&s1&Eq&Hb1&Hk&Hs1&Hh1); try done.
  { by apply (books_Permutation _ T). }
  { by rewrite <- Hl. }
  exists q1, s1, T'. destruct (kp_accounts _ _ _ Hk _ _ Hs1) as (s0&Hs0&Ht&Ha&_). rewrite Hs in Hs0. by injection Hs0 as <-.
Qed.

Lemma kept_settle_dropped (source : AccountID) (l' : list TimestampedTx) (q q1 : TransactionQueue) (s1 : AccountState) :
  kept source q q1 -> mAccountStates q1 !! source = Some s1 -> sublist l' (mTransactions s1) ->
  dropped q (settle source l' q1) /\ mBannedTransactions (settle source l' q1) = mBannedTransactions q /\
  forall a, list_of (mAccountStates (settle source l' q1)) a = if source =? a then l' else list_of (mAccountStates q) a.
Proof.
  intros Hk Hs1 Hl.
  assert (forall a, list_of (mAccountStates (settle source l' q1)) a = if source =? a then l' else list_of (mAccountStates q) a) as Hls.
  { intros a. by rewrite (settle_list _ _ _ _ s1), (kp_lists _ _ _ Hk). }
  assert (mBannedTransactions (settle source l' q1) = mBannedTransactions q) as Hbn by (by rewrite settle_rest, (kp_rest _ _ _ Hk)).
  split; [|done]. split.
  - intros a. rewrite Hls. destruct (Z.eqb_spec source a) as [<-|]; [|done].
    rewrite <- (kp_lists _ _ _ Hk). unfold list_of. by rewrite Hs1.
  - assert (forall m, with_accounts m q1 = with_banned (mBannedTransactions q)
      (with_limiter (mTxQueueLimiter q1) (with_accounts m q))) as Hq1.
    { intros m. rewrite (kp_rest _ _ _ Hk) at 1. by destruct q. }
    assert (mTxQueueLimiter (settle source l' q1) = mTxQueueLimiter q1) as -> by (by rewrite settle_rest).
    rewrite Hbn, <- Hq1. apply settle_rest.
  - rewrite settle_rest. apply (kp_sublist _ _ _ Hk).
  - rewrite settle_rest. apply (kp_limiter _ _ _ Hk).
  - by rewrite Hbn.
Qed.

Lemma dropTransactions_settle (source : AccountID) (i j : nat) (q q1 : TransactionQueue) (s s1 : AccountState) :
  mAccountStates q !! source = Some s ->
  prepareDrops source (take (j - i) (drop i (mTransactions s))) q = Ok q1 ->
  mAccountStates q1 !! source = Some s1 -> mTransactions s1 = mTransactions s ->
  dropTransactions source i j q = Ok (settle source (take i (mTransactions s) ++ drop j (mTransactions s)) q1).
Proof.
  intros Hs E Hs1 Ht. unfold dropTransactions. rewrite Hs, E. cbn [res_bind]. rewrite Hs1. cbn zeta. unfold settle. by rewrite Hs1, Ht.
Qed.

(** The ends of the list of [source] go, and its first part or its last part stays. *)
Lemma dropTransactions_ok (source : AccountID) (i j : nat) (q : TransactionQueue) (T E : list QueuedTx) (s : AccountState) :
  ok q T E -> mAccountStates q !! source = Some s -> mTransactions s <> [] -> (i <= j <= length (mTransactions s))%nat ->
  i = 0%nat \/ j = length (mTransactions s) -> (forall e, e ∈ E -> tx_sourceID e <> source) ->
  exists q' T', dropTransactions source i j q = Ok q' /\ ok q' T' E /\ dropped q q' /\
    mBannedTransactions q' = mBannedTransactions q /\
    T ≡ₚ txs_of (take (j - i) (drop i (mTransactions s))) ++ T' /\
    forall a, list_of (mAccountStates q') a =
      if source =? a then take i (mTransactions s) ++ drop j (mTransactions s) else list_of (mAccountStates q) a.
Proof.
  intros Hok Hs Hne Hij Hor HE. destruct (ok_accounts _ _ _ Hok _ _ Hs) as [Hg [n [Hn Hc]] Hh Hage Hidle].
  set (L := mTransactions s) in *. set (B := take (j - i) (drop i L)). set (l' := take i L ++ drop j L).
  assert (L = take i L ++ B ++ drop j L) as HL.
  { unfold B. replace (drop j L) with (drop (j - i) (drop i L)) by (rewrite drop_drop; f_equal; lia). by rewrite !take_drop. }
  assert (L ≡ₚ B ++ l') as Hp by (rewrite HL at 1; unfold l'; by rewrite Permutation_app_swap_app).
  destruct (drops_ok source q T E s B l') as (q1&s1&T'&Ed&Hk&Hb1&Hs1&Hh1&HT&Ht1&Ha1); try done; [by apply ok_ok_but|].
  assert (sublist l' L) as Hsub.
  { unfold l'. rewrite HL at 3. apply sublist_app; [done|]. by apply sublist_inserts_l. }
  destruct (kept_settle_dropped source l' q q1 s1) as (Hd&Hbn&Hls); [done|done|by rewrite Ht1|].
  exists (settle source l' q1), T'. split; [by apply dropTransactions_settle with s1|]. split; [|done].
  apply settle_ok with q T (txs_of B) s1; try done.
  - by apply ok_ok_but.
  - rewrite Ht1. fold L. unfold txs_of. by rewrite Hp, fmap_app.
  - rewrite Forall_forall in Hg |- *. intros t Ht. apply Hg. by eapply elem_of_sublist.
  - destruct Hor as [->| ->]; unfold l'.
    + exists (n + Z.of_nat j). split; [lia|]. by apply contiguous_drop.
    + exists n. split; [done|]. rewrite drop_all, app_nil_r. by apply contiguous_take.
  - by rewrite Ha1.
Qed.

(** The transactions of the account above a sequence number. *)
Lemma contiguous_above (l : list TimestampedTx) : forall (n : Z), contiguous n l -> forall (k : nat) (t : TimestampedTx),
  t ∈ drop k l <-> t ∈ l /\ n + Z.of_nat k <= tx_seqNum (mTx t).
Proof.
  intros n Hc k t. rewrite !list_elem_of_lookup. split.
  - intros [i Hi]. rewrite lookup_drop in Hi. split; [by eexists|]. apply Hc in Hi as [Hi _]. lia.
  - intros [[i Hi] Hle]. destruct (Hc _ _ Hi) as [Hseq _]. exists (i - k)%nat. rewrite lookup_drop. by replace (k + (i - k))%nat with i by lia.
Qed.

(** ** Bans *)

Lemma ok_with_banned (b : list (gset Z)) (q : TransactionQueue) (T E : list QueuedTx) : ok q T E -> ok (with_banned b q) T E.
Proof. intros [[] ? ? ? ? ? ? ?]. split; done. Qed.

Lemma isBanned_same (h : Z) (q q' : TransactionQueue) : mBannedTransactions q' = mBannedTransactions q -> isBanned h q' = isBanned h q.
Proof. unfold isBanned. by intros ->. Qed.

(** The [i]-th newest of the sets of bans has the hash. *)
Definition banned_at (i : nat) (h : Z) (q : TransactionQueue) : Prop :=
  exists s, mBannedTransactions q !! i = Some s /\ h ∈ s.

Lemma banned_at_mono (i : nat) (h : Z) (q q' : TransactionQueue) :
  Forall2 (⊆) (mBannedTransactions q) (mBannedTransactions q') -> banned_at i h q -> banned_at i h q'.
Proof using Type.
  clear envelope. intros Hf (s&Hi&Hh). destruct (Forall2_lookup_l _ _ _ _ _ Hf Hi) as (s'&Hi'&Hs). exists s'. split; [done|]. by apply Hs.
Qed.

Lemma banned_at_isBanned (i : nat) (h : Z) (q : TransactionQueue) : banned_at i h q -> isBanned h q = true.
Proof using Type. clear envelope. intros (s&Hi&Hh). apply isBanned_spec. by exists i, s. Qed.

Lemma ban_hashes_ok (hashes : list Z) (q : TransactionQueue) :
  mBannedTransactions q <> [] -> exists b, ban_hashes hashes q = Ok (with_banned b q) /\ b <> [] /\
    Forall2 (⊆) (mBannedTransactions q) b /\
    (forall h, isBanned h (with_banned b q) = true <-> h ∈ hashes \/ isBanned h q = true) /\
    forall h, h ∈ hashes -> banned_at 0 h (with_banned b q).
Proof using Type.
  clear envelope.
  unfold ban_hashes. intros Hne. destruct (mBannedTransactions q) as [|front b] eqn:Hb; [done|]. eexists. split; [done|].
  split; [done|]. split; [constructor; [set_solver|done]|]. split.
  - intros h. unfold isBanned. rewrite Hb. cbn [mBannedTransactions with_banned existsb].
    rewrite !orb_true_iff, !bool_decide_eq_true, elem_of_union, elem_of_list_to_set. tauto.
  - intros h Hh. eexists. split; [done|]. rewrite elem_of_union, elem_of_list_to_set. by left.
Qed.

(** The transactions of the queue are genuine, and in the list of their account. *)
Lemma ok_listed (q : TransactionQueue) (T E : list QueuedTx) (a : AccountID) (t : TimestampedTx) :
  ok q T E -> t ∈ list_of (mAccountStates q) a -> tx_sourceID (mTx t) = a /\ genuine (mTx t).
Proof.
  intros Hok. unfold list_of. destruct (mAccountStates q !! a) as [s|] eqn:Hs; [|by intros ?%not_elem_of_nil].
  destruct (ok_accounts _ _ _ Hok _ _ Hs) as [Hg _ _ _ _]. rewrite Forall_forall in Hg. apply Hg.
Qed.

Lemma ok_genuine (q : TransactionQueue) (T E : list QueuedTx) (tx : QueuedTx) :
  ok q T E -> tx ∈ queued (mAccountStates q) -> genuine tx /\ exists t, t ∈ list_of (mAccountStates q) (tx_sourceID tx) /\ mTx t = tx.
Proof.
  rewrite queued_list_of. intros Hok (a&t&Ht&<-). destruct (ok_listed q T E a t Hok Ht) as [<- Hg]. split; [done|by exists t].
Qed.

(** What leaves the queue is banned, and follows a transaction of [banned] in its account. *)
Definition gone_for (banned : list QueuedTx) (q q' : TransactionQueue) : Prop :=
  forall tx, tx ∈ queued (mAccountStates q) -> tx ∈ queued (mAccountStates q') \/
    isBanned (fullHash tx) q' = true /\
      exists b, b ∈ banned /\ tx_sourceID b = tx_sourceID tx /\ tx_seqNum b <= tx_seqNum tx.

Lemma gone_refl (banned : list QueuedTx) (q : TransactionQueue) : gone_for banned q q.
Proof. intros tx Hin. by left. Qed.

Lemma ban_account_ok (source : AccountID) (banned S : list QueuedTx) (q : TransactionQueue) (T E : list QueuedTx) :
  ok q T E -> unbanned (banned ++ S) q -> Forall (fun b => genuine b /\ tx_sourceID b = source) banned ->
  (forall e, e ∈ E -> tx_sourceID e <> source) ->
  exists q' T', ban_account source banned q = Ok q' /\ ok q' T' E /\ dropped q q' /\ unbanned S q' /\ gone_for banned q q' /\
    forall a, a <> source -> list_of (mAccountStates q') a = list_of (mAccountStates q) a.
Proof.
  intros Hok [Hbn Hun] Hb HE.
  assert (list_of (mAccountStates q) source = [] -> unbanned S q) as Hempty.
  { intros Hl. split; [done|]. intros tx Hin Hban. destruct (Hun tx Hin Hban) as (b&[Hb1|Hb2]%elem_of_app&Hh); [|by exists b].
    rewrite Forall_forall in Hb. destruct (Hb b Hb1) as [Hgb Hsb]. destruct (ok_genuine q T E tx Hok Hin) as (Hg&t&Ht&_).
    destruct (genuine_hash envelope b tx) as [Heq _]; [done..|]. rewrite <- Heq, Hsb, Hl in Ht. by apply not_elem_of_nil in Ht. }
  unfold ban_account. unfold list_of in Hempty. destruct (mAccountStates q !! source) as [s|] eqn:Hs;
    [|exists q, T; split; [done|]; split; [done|]; split; [apply dropped_refl|]; split; [by apply Hempty|split; [apply gone_refl|done]]].
  cbn zeta. destruct (bool_decide_reflect (mTransactions s = [])) as [Hnil|Hne];
    [exists q, T; split; [done|]; split; [done|]; split; [apply dropped_refl|]; split; [by apply Hempty|split; [apply gone_refl|done]]|].
  clear Hempty. set (L := mTransactions s) in *.
  destruct (ok_accounts _ _ _ Hok _ _ Hs) as [Hg [n [_ Hc]] _ _ _]. fold L in Hg, Hc.
  destruct (firstBanned_ok envelope n L banned Hc Hne) with (d := length L) as (k&Ek&Hk&Hmin&Hfirst); [|by eapply Forall_impl; [exact Hb|naive_solver]|done|].
  { eapply Forall_impl; [exact Hg|naive_solver]. }
  rewrite Ek. cbn [res_bind].
  destruct (ban_hashes_ok ((fun t => fullHash (mTx t)) <$> drop k L) q Hbn) as (b&Eb&Hbne&Hbsub&Hbh&Hb0). rewrite Eb. cbn [res_bind].
  destruct (dropTransactions_ok source k (length L) (with_banned b q) T E s) as (q'&T'&Ed&Hok'&Hd&Hbq&_&Hls); try done; [by apply ok_with_banned|fold L; lia|].
  exists q', T'. split; [done|]. split; [done|]. split; [|split; [|split]].
  - apply dropped_trans with (with_banned b q); [|done]. split; done.
  - split; [by rewrite Hbq|]. intros tx Hin Hban. rewrite (isBanned_same _ _ _ Hbq), Hbh in Hban.
    pose proof (dropped_queued _ _ _ Hd Hin) as Hin0. destruct (ok_genuine q T E tx Hok Hin0) as [Hgt _].
    destruct (ok_genuine q' T' E tx Hok' Hin) as [_ (t&Ht&Htx)].
    assert (forall y, genuine y -> fullHash y = fullHash tx -> tx_sourceID y = source ->
      exists i, L !! i = Some t /\ (i < k)%nat /\ tx_seqNum y = n + Z.of_nat i) as Hplace.
    { intros y Hy Hh Hsy. destruct (genuine_hash envelope y tx) as [Hsrc Hseq]; [done..|]. rewrite <- Hsrc, Hsy, Hls, Z.eqb_refl in Ht.
      fold L in Ht. rewrite drop_all, app_nil_r in Ht. apply list_elem_of_lookup in Ht as [i Hi].
      apply lookup_take_Some in Hi as [Hi Hik]. exists i. split; [done|]. split; [done|]. rewrite Hseq, <- Htx. by apply Hc. }
    destruct Hban as [Hh|Hban].
    + exfalso. apply list_elem_of_fmap in Hh as (t'&Hh&Ht'). apply list_elem_of_lookup in Ht' as [j Hj]. rewrite lookup_drop in Hj.
      rewrite Forall_lookup in Hg. destruct (Hg _ _ Hj) as [Hs' Hg']. destruct (Hplace (mTx t') Hg' (eq_sym Hh) Hs') as (i&Hi&Hik&Hseq).
      apply Hc in Hj as [Hj _]. lia.
    + destruct (Hun tx Hin0 Hban) as (y&[Hy|Hy]%elem_of_app&Hh); [|by exists y]. exfalso. rewrite Forall_forall in Hb. destruct (Hb y Hy) as [Hgy Hsy].
      destruct (Hplace y Hgy Hh Hsy) as (i&Hi&Hik&_). pose proof (Hmin y i t Hy Hi) as Hki. rewrite Htx in Hki. specialize (Hki (eq_sym Hh)). lia.
  - intros tx Hin. destruct (ok_genuine q T E tx Hok Hin) as [_ (t&Ht&Htx)]. destruct (decide (tx_sourceID tx = source)) as [Hsrc|Hsrc].
    2:{ left. apply queued_list_of. exists (tx_sourceID tx), t. rewrite Hls. destruct (Z.eqb_spec source (tx_sourceID tx)); [congruence|done]. }
    rewrite Hsrc in Ht. unfold list_of in Ht. rewrite Hs in Ht. fold L in Ht. rewrite <- (take_drop k L) in Ht.
    apply elem_of_app in Ht as [Ht|Ht].
    + left. apply queued_list_of. exists source, t. rewrite Hls, Z.eqb_refl. split; [|done]. apply elem_of_app. by left.
    + right. rewrite (isBanned_same _ _ _ Hbq), Hbh. split; [left; apply list_elem_of_fmap; exists t; by rewrite Htx|].
      destruct Hfirst as [->|(y&t0&Hy&Ht0&Hh)]; [by rewrite drop_all in Ht; apply not_elem_of_nil in Ht|]. exists y. split; [done|].
      rewrite Forall_forall in Hb. destruct (Hb y Hy) as [Hgy Hsy]. rewrite Forall_lookup in Hg. destruct (Hg _ _ Ht0) as [_ Hg0].
      destruct (genuine_hash envelope (mTx t0) y) as [_ Hseq]; [done..|]. split; [by rewrite Hsy|]. rewrite <- Hseq, <- Htx.
      apply (contiguous_above L n Hc k) in Ht as [_ Hle]. apply Hc in Ht0 as [-> _]. lia.
  - intros a Hne'. rewrite Hls. destruct (Z.eqb_spec source a); [congruence|done].
Qed.

Lemma byAccount_spec (txs : list QueuedTx) :
  ordered (byAccount txs) /\ forall a, map_find a (byAccount txs) =
    match filter (fun tx => tx_sourceID tx = a) txs with [] => None | l => Some l end.
Proof using Type.
  clear envelope.
  induction txs as [|tx txs [Ho IH]] using rev_ind; [split; [constructor|done]|].
  unfold byAccount in *. rewrite foldl_app. cbn [foldl]. split; [by apply ordered_map_set|]. intros a. rewrite map_find_set, filter_app.
  destruct (eqb_of a (tx_sourceID tx)) eqn:Ea.
  - apply eqb_of_true in Ea as ->. rewrite IH, filter_cons_True, filter_nil by done.
    destruct (filter (fun y => tx_sourceID y = tx_sourceID tx) txs) eqn:Ef; done.
  - apply eqb_of_false in Ea. rewrite filter_cons_False, filter_nil, app_nil_r by done. apply IH.
Qed.

Lemma byAccount_in (txs l : list QueuedTx) (a : AccountID) :
  (a, l) ∈ byAccount txs -> forall b, b ∈ l <-> b ∈ txs /\ tx_sourceID b = a.
Proof using Type.
  clear envelope.
  destruct (byAccount_spec txs) as [Ho Hf]. rewrite <- map_find_elem by done. rewrite Hf.
  destruct (filter _ txs) eqn:Ef; [done|]. intros [= <-] b. rewrite <- Ef, list_elem_of_filter. tauto.
Qed.

Lemma byAccount_complete (txs : list QueuedTx) (b : QueuedTx) : b ∈ txs -> exists l, (tx_sourceID b, l) ∈ byAccount txs /\ b ∈ l.
Proof using Type.
  clear envelope.
  destruct (byAccount_spec txs) as [Ho Hf]. intros Hb. exists (filter (fun tx => tx_sourceID tx = tx_sourceID b) txs).
  assert (b ∈ filter (fun tx => tx_sourceID tx = tx_sourceID b) txs) as Hin by (by apply list_elem_of_filter).
  split; [|done]. rewrite <- map_find_elem by done. rewrite Hf. destruct (filter _ txs) eqn:Ef; [|done].
  by apply not_elem_of_nil in Hin.
Qed.

Lemma ban_accounts_ok (l : list (AccountID * list QueuedTx)) (E : list QueuedTx) : forall (q : TransactionQueue) (T : list QueuedTx),
  ok q T E -> unbanned (concat l.*2) q ->
  (forall a b, (a, b) ∈ l -> Forall (fun tx => genuine tx /\ tx_sourceID tx = a) b /\ forall e, e ∈ E -> tx_sourceID e <> a) ->
  exists q' T', ban_accounts l q = Ok q' /\ ok q' T' E /\ dropped q q' /\ unbanned [] q' /\ gone_for (concat l.*2) q q' /\
    forall a, a ∉ l.*1 -> list_of (mAccountStates q') a = list_of (mAccountStates q) a.
Proof.
  induction l as [|[a b] l IH]; intros q T Hok Hun Hl.
  { exists q, T. split; [done|]. split; [done|]. split; [apply dropped_refl|]. split; [done|]. split; [apply gone_refl|done]. }
  destruct (Hl a b) as [Hb HE]; [by left|].
  destruct (ban_account_ok a b (concat l.*2) q T E) as (q1&T1&E1&Hok1&Hd1&Hun1&Hg1&Hl1); [done..|].
  simpl. rewrite E1. cbn [res_bind].
  destruct (IH q1 T1) as (q2&T2&E2&Hok2&Hd2&Hun2&Hg2&Hl2); [done|done|intros a' b' Hin; apply Hl; by right|].
  exists q2, T2. split; [done|]. split; [done|]. split; [by apply dropped_trans with q1|]. split; [done|]. split.
  { intros tx Hin. cbn [fmap list_fmap concat map]. setoid_rewrite elem_of_app. destruct (Hg1 tx Hin) as [Hin1|[Hb1 (y&Hy&Hy')]].
    - destruct (Hg2 tx Hin1) as [Hin2|[Hb2 (y&Hy&Hy')]]; [by left|right]. split; [done|]. exists y. split; [by right|done].
    - right. split; [by apply (isBanned_mono _ q1); [apply (dp_bans _ _ Hd2)|]|]. exists y. split; [by left|done]. }
  intros a' Ha'. rewrite not_elem_of_cons in Ha'. rewrite Hl2, Hl1 by naive_solver. done.
Qed.

(** [ban]: nothing that is banned stays in the queue. *)
Lemma ban_ok (banTxs : list QueuedTx) (q : TransactionQueue) (T E : list QueuedTx) :
  ok q T E -> unbanned [] q -> Forall genuine banTxs ->
  (forall b e, b ∈ banTxs -> e ∈ E -> tx_sourceID e <> tx_sourceID b) ->
  exists q' T', ban banTxs q = Ok q' /\ ok q' T' E /\ dropped q q' /\ unbanned [] q' /\ gone_for banTxs q q' /\
    (forall b, b ∈ banTxs -> banned_at 0 (fullHash b) q') /\
    forall a, a ∉ tx_sourceID <$> banTxs -> list_of (mAccountStates q') a = list_of (mAccountStates q) a.
Proof.
  intros Hok [Hne Hun] Hg HE. unfold ban.
  destruct (ban_hashes_ok (fullHash <$> banTxs) q Hne) as (b&Eb&Hbne&Hbsub&Hbh&Hb0). rewrite Eb. cbn [res_bind].
  rewrite Forall_forall in Hg.
  destruct (ban_accounts_ok (byAccount banTxs) E (with_banned b q) T) as (q'&T'&E'&Hok'&Hd'&Hun'&Hgone&Hl').
  - by apply ok_with_banned.
  - split; [done|]. intros tx Hin Hban. apply Hbh in Hban as [Hh|Hban].
    + apply list_elem_of_fmap in Hh as (y&Hh&Hy). exists y. split; [|done]. destruct (byAccount_complete _ _ Hy) as (l&Hl&Hyl).
      rewrite list_elem_of_In, in_concat. exists l. rewrite <- !list_elem_of_In. split; [|done]. apply list_elem_of_fmap. by exists (tx_sourceID y, l).
    + destruct (Hun tx Hin Hban) as (y&Hy&_). by apply not_elem_of_nil in Hy.
  - intros a l Hl. pose proof (byAccount_in _ _ _ Hl) as Hin. split.
    + apply Forall_forall. intros y Hy. apply Hin in Hy as [Hy Hs]. split; [by apply Hg|done].
    + intros e He Hs. assert (exists y, y ∈ l) as [y Hy].
      { destruct (byAccount_spec banTxs) as [Ho Hf]. apply map_find_elem in Hl; [|done]. rewrite Hf in Hl.
        destruct (filter _ banTxs) as [|y l0]; [done|]. injection Hl as <-. exists y. by left. }
      apply Hin in Hy as [Hy <-]. by apply (HE y e).
  - exists q', T'. assert (dropped q q') as Hd by (apply dropped_trans with (with_banned b q); [by split|done]).
    split; [done|]. split; [done|]. split; [done|]. split; [done|]. split; [|split].
    + intros tx Hin. destruct (Hgone tx Hin) as [|[Hban (y&Hy&Hy')]]; [by left|right]. split; [done|]. exists y. split; [|done].
      rewrite list_elem_of_In, in_concat in Hy. destruct Hy as (l&Hl&Hyl). rewrite <- list_elem_of_In in Hl. rewrite <- list_elem_of_In in Hyl.
      apply list_elem_of_fmap in Hl as ([a l']&->&Hl). by apply (byAccount_in _ _ _ Hl) in Hyl as [? _].
    + intros y Hy. apply (banned_at_mono _ _ (with_banned b q)); [apply (dp_bans _ _ Hd')|]. apply Hb0. apply list_elem_of_fmap. by exists y.
    + intros a Ha. rewrite Hl'; [done|]. intros Hin. apply Ha. apply list_elem_of_fmap in Hin as ([a' l]&->&Hl).
      destruct (byAccount_spec banTxs) as [Ho Hf]. pose proof (byAccount_in _ _ _ Hl) as Hin. apply map_find_elem in Hl; [|done]. rewrite Hf in Hl.
      destruct (filter _ banTxs) as [|y l0]; [done|]. injection Hl as <-. destruct (proj1 (Hin y)) as [Hy Hs]; [by left|].
      apply list_elem_of_fmap. by exists y.
Qed.

(** ** After a ledger *)

(** An account changes its age. *)
Lemma ok_set_age (source : AccountID) (age : Z) (q : TransactionQueue) (T E : list QueuedTx) (s : AccountState) :
  ok q T E -> mAccountStates q !! source = Some s ->
  ok_but source (with_account source (set_age age s) q) T E /\ dropped q (with_account source (set_age age s) q) /\
  (0 <= age < mPendingDepth q -> (mTransactions s = [] -> age = 0) -> ok (with_account source (set_age age s) q) T E).
Proof.
  intros [Hb Hq Hac Hp Hd Hm Hmu Hsz] Hs.
  assert (forall a, list_of (<[source := set_age age s]> (mAccountStates q)) a = list_of (mAccountStates q) a) as Hls.
  { intros a. rewrite list_of_insert. destruct (Z.eqb_spec source a) as [<-|]; [|done]. unfold list_of. by rewrite Hs. }
  assert (books (with_account source (set_age age s) q) T E) as Hb'.
  { apply books_accounts; [done|]. intros a. rewrite total_of_insert. destruct (Z.eqb_spec source a) as [<-|]; [|done].
    unfold total_of. by rewrite Hs. }
  assert (present (<[source := set_age age s]> (mAccountStates q))) as Hp'.
  { intros a s' [[<- <-]|[_ Hs']]%lookup_insert_Some; [exact (Hp source s Hs)|exact (Hp a _ Hs')]. }
  assert (queued (<[source := set_age age s]> (mAccountStates q)) ≡ₚ T ++ E) as Hq' by (by rewrite queued_lists).
  split; [|split].
  - split; try done. intros a s' Hne Ha. cbn in Ha. apply lookup_insert_Some in Ha as [[<- _]|[_ Hs']]; [done|by apply Hac].
  - split; try done. intros a. cbn. by rewrite Hls.
  - intros Hage Hidle. split; try done. intros a s' Ha. cbn in Ha. apply lookup_insert_Some in Ha as [[<- <-]|[_ Hs']]; [|by apply Hac].
    destruct (Hac _ _ Hs) as [Hg Hc Hh _ _]. by split.
Qed.

Lemma removeApplied_account_ok (source : AccountID) (seq : Z) (q : TransactionQueue) (T : list QueuedTx) :
  ok q T [] ->
  exists q' T', removeApplied_account source seq q = Ok q' /\ ok q' T' [] /\ dropped q q' /\
    mBannedTransactions q' = mBannedTransactions q /\
    (forall t, t ∈ list_of (mAccountStates q') source <-> t ∈ list_of (mAccountStates q) source /\ seq < tx_seqNum (mTx t)) /\
    forall a, a <> source -> list_of (mAccountStates q') a = list_of (mAccountStates q) a.
Proof.
  intros Hok. unfold removeApplied_account. destruct (mAccountStates q !! source) as [s|] eqn:Hs.
  2:{ exists q, T. split; [done|]. split; [done|]. split; [apply dropped_refl|]. split; [done|]. split; [|done].
      intros t. unfold list_of. rewrite Hs. split; [by intros ?%not_elem_of_nil|by intros [?%not_elem_of_nil _]]. }
  destruct (ok_accounts _ _ _ Hok _ _ Hs) as [_ [n [Hn Hc]] _ _ _].
  assert (list_of (mAccountStates q) source = mTransactions s) as Hls by (unfold list_of; by rewrite Hs). rewrite Hls.
  cbn zeta. destruct (mTransactions s) as [|front l] eqn:HL.
  { exists q, T. split; [done|]. split; [done|]. split; [apply dropped_refl|]. split; [done|]. split; [|done]. intros t. rewrite Hls.
    split; [by intros ?%not_elem_of_nil|by intros [?%not_elem_of_nil _]]. }
  set (L := front :: l) in *. destruct (Hc 0%nat front eq_refl) as [Hfront _]. destruct (Z.leb_spec (tx_seqNum (mTx front)) seq) as [Hle|Hgt].
  2:{ exists q, T. split; [done|]. split; [done|]. split; [apply dropped_refl|]. split; [done|]. split; [|done]. intros t. rewrite Hls.
      split; [|tauto]. intros Ht. split; [done|]. apply (contiguous_above L n Hc 0) in Ht. lia. }
  rewrite (findBySeq_ok n) by done. cbn [res_bind].
  set (k := if (_ <? _)%nat then _ else _).
  assert ((k <= length L)%nat /\ forall t, t ∈ drop k L <-> t ∈ L /\ seq < tx_seqNum (mTx t)) as [Hk Hdrop].
  { assert (k = Nat.min (Z.to_nat (seq + 1 - n)) (length L)) as ->.
    { unfold k. destruct (Z.leb_spec n seq); [|lia]. destruct (Z.leb_spec seq (n + Z.of_nat (length L))); cbn [andb];
        destruct (Nat.ltb_spec (Z.to_nat (seq - n)) (length L)); rewrite ?Nat.ltb_irrefl; lia. }
    split; [lia|]. intros t. rewrite (contiguous_above L n Hc). split; intros [Ht Hx]; (split; [done|]).
    - apply list_elem_of_lookup in Ht as [i Hi]. pose proof (lookup_lt_Some _ _ _ Hi). apply Hc in Hi as [Hi _]. lia.
    - lia. }
  clearbody k. destruct (ok_set_age source 0 q T [] s) as (_&Hda&Hoka); [done|done|].
  pose proof (ok_depth _ _ _ Hok) as Hdep. specialize (Hoka ltac:(lia) ltac:(done)).
  destruct (dropTransactions_ok source 0 k (with_account source (set_age 0 s) q) T [] (set_age 0 s)) as (q'&T'&Ed&Hok'&Hd'&Hbn&_&Hls').
  - done.
  - apply lookup_insert_eq.
  - cbn. by rewrite HL.
  - cbn [mTransactions set_age]. rewrite HL. fold L. lia.
  - by left.
  - by intros e ?%not_elem_of_nil.
  - exists q', T'. split; [done|]. split; [done|]. split; [by eapply dropped_trans|]. split; [done|]. split.
    + intros t. rewrite Hls', Z.eqb_refl. cbn [mTransactions set_age take app]. rewrite HL. apply Hdrop.
    + intros a Hne. rewrite Hls'. destruct (Z.eqb_spec source a); [congruence|]. cbn. rewrite list_of_insert.
      destruct (Z.eqb_spec source a); [congruence|done].
Qed.

Lemma seqByAccount_spec (txs : list QueuedTx) :
  ordered (seqByAccount txs) /\ forall a,
    match map_find a (seqByAccount txs) with
    | Some m => forall n, 1 <= n -> (m < n <-> forall y, y ∈ txs -> tx_sourceID y = a -> tx_seqNum y < n)
    | None => forall y, y ∈ txs -> tx_sourceID y <> a
    end.
Proof using Type.
  clear envelope.
  induction txs as [|tx txs [Ho IH]] using rev_ind; [split; [constructor|by intros a y ?%not_elem_of_nil]|].
  unfold seqByAccount in *. rewrite foldl_app. cbn [foldl]. split; [by apply ordered_map_set|]. intros a. rewrite map_find_set.
  specialize (IH a). destruct (eqb_of a (tx_sourceID tx)) eqn:Ea.
  - apply eqb_of_true in Ea as ->. intros n Hn. setoid_rewrite elem_of_app. setoid_rewrite list_elem_of_singleton.
    destruct (map_find _ _) as [m|].
    + specialize (IH n Hn). rewrite Z.max_lub_lt_iff, IH. naive_solver.
    + rewrite Z.max_lub_lt_iff. split; [|intros H; split; [lia|by apply H; auto]].
      intros [_ Hlt] y [Hy| ->] Hs; [by destruct (IH y Hy)|done].
  - apply eqb_of_false in Ea. destruct (map_find a _) as [m|].
    + intros n Hn. rewrite IH by done. setoid_rewrite elem_of_app. setoid_rewrite list_elem_of_singleton. naive_solver.
    + intros y [Hy|Hy]%elem_of_app; [by apply IH|]. apply list_elem_of_singleton in Hy as ->. congruence.
Qed.

Lemma removeApplied_accounts_ok (l : list (AccountID * Z)) : forall (q : TransactionQueue) (T : list QueuedTx),
  ok q T [] ->
  exists q' T', removeApplied_accounts l q = Ok q' /\ ok q' T' [] /\ dropped q q' /\
    mBannedTransactions q' = mBannedTransactions q /\
    forall a t, t ∈ list_of (mAccountStates q') a <->
      t ∈ list_of (mAccountStates q) a /\ forall seq, (a, seq) ∈ l -> seq < tx_seqNum (mTx t).
Proof.
  induction l as [|[a seq] l IH]; intros q T Hok.
  { exists q, T. split; [done|]. split; [done|]. split; [apply dropped_refl|]. split; [done|]. intros a t.
    split; [|by intros []]. intros Ht. split; [done|]. by intros seq ?%not_elem_of_nil. }
  destruct (removeApplied_account_ok a seq q T Hok) as (q1&T1&E1&Hok1&Hd1&Hb1&Hs1&Ho1).
  destruct (IH q1 T1 Hok1) as (q2&T2&E2&Hok2&Hd2&Hb2&Hs2). simpl. rewrite E1. cbn [res_bind].
  exists q2, T2. split; [done|]. split; [done|]. split; [by apply dropped_trans with q1|]. split; [by rewrite Hb2|].
  intros b t. rewrite Hs2. setoid_rewrite elem_of_cons. destruct (decide (b = a)) as [->|Hne]; [rewrite Hs1|rewrite Ho1 by done]; naive_solver.
Qed.

(** [removeApplied]: of every account, what is above the applied sequence numbers stays. *)
Lemma removeApplied_ok (applied : list QueuedTx) (q : TransactionQueue) (T : list QueuedTx) :
  ok q T [] ->
  exists q' T', removeApplied applied q = Ok q' /\ ok q' T' [] /\ dropped q q' /\
    mBannedTransactions q' = mBannedTransactions q /\
    forall a t, t ∈ list_of (mAccountStates q') a <->
      t ∈ list_of (mAccountStates q) a /\ forall y, y ∈ applied -> tx_sourceID y = a -> tx_seqNum y < tx_seqNum (mTx t).
Proof.
  intros Hok. destruct (removeApplied_accounts_ok (seqByAccount applied) q T Hok) as (q'&T'&E'&Hok'&Hd'&Hb'&Hs').
  exists q', T'. split; [done|]. split; [done|]. split; [done|]. split; [done|]. intros a t. rewrite Hs'.
  destruct (seqByAccount_spec applied) as [Ho Hf]. specialize (Hf a). setoid_rewrite <- (map_find_elem a _ _ Ho).
  split; intros [Ht Hx]; (split; [done|]).
  - assert (1 <= tx_seqNum (mTx t)) as H1.
    { unfold list_of in Ht. destruct (mAccountStates q !! a) as [s|] eqn:Hs; [|by apply not_elem_of_nil in Ht].
      destruct (ok_accounts _ _ _ Hok _ _ Hs) as [_ [n [Hn Hc]] _ _ _]. apply (contiguous_above _ n Hc 0) in Ht. lia. }
    destruct (map_find a (seqByAccount applied)) as [m|]; [apply (Hf _ H1), Hx; done|]. intros y Hy Hsy. by destruct (Hf y Hy).
  - intros m Hm. rewrite Hm in Hf. apply Hf; [|done].
    unfold list_of in Ht. destruct (mAccountStates q !! a) as [s|] eqn:Hs; [|by apply not_elem_of_nil in Ht].
    destruct (ok_accounts _ _ _ Hok _ _ Hs) as [_ [n [Hn Hc]] _ _ _]. apply (contiguous_above _ n Hc 0) in Ht. lia.
Qed.

Definition age_of (m : gmap AccountID AccountState) (a : AccountID) : Z :=
  match m !! a with Some s => mAge s | None => 0 end.

(** [shift] of an account: it ages, or all its transactions are dropped and banned. *)
Definition aged (a : AccountID) (q q' : TransactionQueue) : Prop :=
  if age_of (mAccountStates q) a + 1 =? mPendingDepth q
  then list_of (mAccountStates q') a = [] /\
    forall t, t ∈ list_of (mAccountStates q) a -> isBanned (fullHash (mTx t)) q' = true
  else list_of (mAccountStates q') a = list_of (mAccountStates q) a /\
    age_of (mAccountStates q') a = age_of (mAccountStates q) a + 1.

(** The accounts other than [source] keep their ages. *)
Lemma age_kept (source a : AccountID) (q q1 : TransactionQueue) (T E : list QueuedTx) :
  ok_but source q T E -> kept source q q1 -> a <> source ->
  age_of (mAccountStates q1) a = age_of (mAccountStates q) a.
Proof.
  intros Hok Hk Hne. unfold age_of. destruct (mAccountStates q1 !! a) as [s'|] eqn:Hs'.
  - by destruct (kp_accounts _ _ _ Hk _ _ Hs') as (s&->&_&->&_).
  - destruct (mAccountStates q !! a) as [s|] eqn:Hs; [|done]. destruct (ob_accounts _ _ _ _ Hok a s Hne Hs) as [_ _ _ _ Hi].
    symmetry. apply Hi. pose proof (kp_lists _ _ _ Hk a) as Hl. unfold list_of in Hl. by rewrite Hs, Hs' in Hl.
Qed.

Lemma shift_account_ok (a : AccountID) (q : TransactionQueue) (T : list QueuedTx) :
  ok q T [] -> unbanned [] q ->
  exists q' T', shift_account a q = Ok q' /\ ok q' T' [] /\ dropped q q' /\ unbanned [] q' /\
    (forall b, b <> a -> list_of (mAccountStates q') b = list_of (mAccountStates q) b /\
      age_of (mAccountStates q') b = age_of (mAccountStates q) b) /\
    (list_of (mAccountStates q) a <> [] -> aged a q q').
Proof.
  intros Hok [Hbn Hun]. unfold shift_account, aged. pose proof (ok_depth _ _ _ Hok) as Hdep.
  destruct (mAccountStates q !! a) as [s|] eqn:Hs.
  2:{ exists q, T. repeat (split; [done||apply dropped_refl|]). intros Hne. unfold list_of in Hne. by rewrite Hs in Hne. }
  destruct (ok_accounts _ _ _ Hok _ _ Hs) as [Hg _ Hh Hage Hidle].
  assert (list_of (mAccountStates q) a = mTransactions s /\ age_of (mAccountStates q) a = mAge s) as [Hls Hao] by (unfold list_of, age_of; by rewrite Hs).
  rewrite Hls, Hao.
  set (age := if bool_decide (mTransactions s = []) then mAge s else mAge s + 1).
  assert ((if bool_decide (mTransactions s = []) then s else set_age (u32 (mAge s + 1)) s) = set_age age s) as ->.
  { unfold age. destruct (bool_decide _); [by destruct s|]. by rewrite u32_id by (unfold_ints; lia). }
  cbn zeta. cbn [mPendingDepth with_account with_accounts mAge set_age].
  destruct (ok_set_age a age q T [] s) as (Hob&Hda&Hoka); [done|done|]. set (q0 := with_account a (set_age age s) q) in *.
  assert (mAccountStates q0 !! a = Some (set_age age s)) as Hs0 by apply lookup_insert_eq.
  assert (forall b, b <> a -> list_of (mAccountStates q0) b = list_of (mAccountStates q) b /\
      age_of (mAccountStates q0) b = age_of (mAccountStates q) b) as Hoth.
  { intros b Hne. unfold list_of, age_of. cbn. by rewrite lookup_insert_ne. }
  destruct (bool_decide_reflect (mTransactions s = [])) as [Hnil|Hne].
  { destruct (Z.eqb_spec (mPendingDepth q) age) as [Heq|_]; [unfold age in Heq; lia|]. exists q0, T.
    split; [done|]. split; [apply Hoka; unfold age; auto|]. split; [done|]. split; [|by split].
    split; [done|]. intros tx Hin. by apply Hun, (dropped_queued _ _ _ Hda). }
  destruct (Z.eqb_spec (mPendingDepth q) age) as [Heq|Hneq]; unfold age in *.
  2:{ exists q0, T. destruct (Z.eqb_spec (mAge s + 1) (mPendingDepth q)) as [|_]; [lia|]. split; [done|].
      split; [apply Hoka; [lia|done]|]. split; [done|]. split; [|split; [done|]].
      - split; [done|]. intros tx Hin. by apply Hun, (dropped_queued _ _ _ Hda).
      - intros _. unfold list_of, age_of. by rewrite Hs0. }
  destruct (Z.eqb_spec (mAge s + 1) (mPendingDepth q)) as [_|]; [|lia].
  destruct (drops_ok a q0 T [] (set_age (mAge s + 1) s) (mTransactions s) []) as (q1&s1&T'&Ed&Hk&Hb1&Hs1&Hh1&HT&Ht1&Ha1); try done.
  { by rewrite app_nil_r. }
  { by intros e ?%not_elem_of_nil. }
  cbn [mTransactions set_age] in *. rewrite Ed. cbn [res_bind].
  assert (mBannedTransactions q1 = mBannedTransactions q) as Hbn1 by (by rewrite (kp_rest _ _ _ Hk)).
  destruct (ban_hashes_ok ((fun t => fullHash (mTx t)) <$> mTransactions s) q1) as (b&Eb&Hbne&Hbsub&Hbh&Hb0); [by rewrite Hbn1|].
  rewrite Eb. cbn [res_bind]. cbn [mAccountStates with_banned]. rewrite Hs1. cbn zeta.
  destruct (kept_settle_dropped a [] q0 q1 s1) as (Hd&Hbs&Hlset); [done|done|apply sublist_nil_l|].
  assert (ok (settle a [] q1) T' []) as Hok'.
  { apply settle_ok with q0 T (txs_of (mTransactions s)) s1; try done; [by rewrite Ht1, app_nil_r|by exists 1]. }
  set (q' := with_banned b (settle a [] q1)). exists q', T'. split; [|split; [|split; [|split; [|split]]]].
  - f_equal. unfold q', settle. rewrite Hs1. cbn. by destruct (mTotalFees s1 =? 0).
  - by apply ok_with_banned.
  - apply dropped_trans with q0; [done|]. destruct Hd as [Hd1 Hd2 Hd3 Hd4 _]. split; try done.
    + unfold q'. rewrite Hd2 at 1. done.
    + unfold q'. cbn. by rewrite <- (kp_rest _ _ _ Hk), Hbn1 in Hbsub || rewrite Hbn1 in Hbsub.
  - split; [done|]. intros tx Hin Hban. exfalso. unfold q' in Hban. rewrite (isBanned_same _ (with_banned b q1)), Hbh in Hban by done.
    assert (tx ∈ queued (mAccountStates (settle a [] q1))) as Hin' by done.
    pose proof (dropped_queued _ _ _ Hda (dropped_queued _ _ _ Hd Hin')) as Hin0. destruct Hban as [Hh'|Hban].
    + apply list_elem_of_fmap in Hh' as (t&Hh'&Ht). destruct (ok_genuine _ _ _ _ Hok' Hin') as [Hgt (t'&Ht'&Htx)].
      rewrite Forall_forall in Hg. destruct (Hg t Ht) as [Hst Hgt0]. destruct (genuine_hash envelope tx (mTx t)) as [Heq' _]; [done..|].
      rewrite Heq', Hst, Hlset, Z.eqb_refl in Ht'. by apply not_elem_of_nil in Ht'.
    + rewrite (isBanned_same _ _ _ Hbn1) in Hban. destruct (Hun tx Hin0 Hban) as (y&Hy&_). by apply not_elem_of_nil in Hy.
  - intros c Hnc. destruct (Hoth c Hnc) as [<- <-]. unfold q'. cbn [mAccountStates with_banned]. rewrite Hlset.
    destruct (Z.eqb_spec a c); [congruence|]. split; [done|]. rewrite <- (age_kept a c q0 q1 T []) by done.
    unfold age_of. rewrite (settle_lookup _ _ _ _ s1) by done. by destruct (Z.eqb_spec a c).
  - intros _. split; [unfold q'; cbn [mAccountStates with_banned]; by rewrite Hlset, Z.eqb_refl|]. intros t Ht.
    unfold q'. rewrite (isBanned_same _ (with_banned b q1)) by done. apply Hbh. left. apply list_elem_of_fmap. by exists t.
Qed.

Lemma shift_accounts_ok (l : list AccountID) : forall (q : TransactionQueue) (T : list QueuedTx),
  ok q T [] -> unbanned [] q -> NoDup l ->
  exists q' T', shift_accounts l q = Ok q' /\ ok q' T' [] /\ dropped q q' /\ unbanned [] q' /\
    forall a, (a ∈ l -> list_of (mAccountStates q) a <> [] -> aged a q q') /\
      (a ∉ l -> list_of (mAccountStates q') a = list_of (mAccountStates q) a /\
        age_of (mAccountStates q') a = age_of (mAccountStates q) a).
Proof.
  induction l as [|b l IH]; intros q T Hok Hun Hnd.
  { exists q, T. repeat (split; [done||apply dropped_refl|]). intros a. split; [by intros ?%not_elem_of_nil|done]. }
  apply NoDup_cons in Hnd as [Hb Hnd]. destruct (shift_account_ok b q T) as (q1&T1&E1&Hok1&Hd1&Hun1&Ho1&Ha1); [done..|].
  destruct (IH q1 T1) as (q2&T2&E2&Hok2&Hd2&Hun2&Ha2); [done..|]. simpl. rewrite E1. cbn [res_bind].
  exists q2, T2. split; [done|]. split; [done|]. split; [by apply dropped_trans with q1|]. split; [done|]. intros a.
  assert (mPendingDepth q1 = mPendingDepth q) as Hdep by (by rewrite (dp_rest _ _ Hd1)).
  destruct (Ha2 a) as [Hin2 Hout2]. split.
  - intros Hin Hne. destruct (decide (a = b)) as [->|Hab].
    + destruct (Hout2 Hb) as [Hl2 Hg2]. specialize (Ha1 Hne). unfold aged in *. rewrite Hl2, Hg2.
      destruct (_ =? _); [|done]. destruct Ha1 as [Hl1 Hban]. split; [done|]. intros t Ht.
      apply (isBanned_mono _ q1); [apply (dp_bans _ _ Hd2)|by apply Hban].
    + apply elem_of_cons in Hin as [->|Hin]; [done|]. destruct (Ho1 a Hab) as [Hl1 Hg1]. specialize (Hin2 Hin).
      rewrite Hl1 in Hin2. specialize (Hin2 Hne). unfold aged in *. by rewrite Hl1, Hg1, Hdep in Hin2.
  - rewrite not_elem_of_cons. intros [Hab Hin]. destruct (Hout2 Hin) as [-> ->]. by apply Ho1.
Qed.

(** [shift]: every account with transactions ages, the oldest bans are lifted. *)
Lemma shift_ok (seed : Z) (q : TransactionQueue) (T : list QueuedTx) :
  ok q T [] -> unbanned [] q ->
  exists q' T', shift seed q = Ok q' /\ ok q' T' [] /\ unbanned [] q' /\ mPendingDepth q' = mPendingDepth q /\
    mBroadcastOpCarryover q' = mBroadcastOpCarryover q /\
    (forall a, sublist (list_of (mAccountStates q') a) (list_of (mAccountStates q) a)) /\
    Forall2 (⊆) (∅ :: removelast (mBannedTransactions q)) (mBannedTransactions q') /\
    forall a, list_of (mAccountStates q) a <> [] -> aged a q q'.
Proof.
  intros Hok [Hbn Hun]. unfold shift. set (q0 := with_damping ∅ (with_banned (∅ :: removelast (mBannedTransactions q)) q)).
  destruct (shift_accounts_ok (map_to_list (mAccountStates q0)).*1 q0 T) as (q1&T1&E1&Hok1&Hd1&Hun1&Ha1).
  - destruct Hok as [[] ? ? ? ? ? ? ?]. by split.
  - split; [done|]. intros tx Hin Hban. apply Hun; [done|]. rewrite isBanned_spec in Hban |- *. destruct Hban as (i&h&Hi&Hh).
    cbn in Hi. destruct i as [|i]; simpl in Hi; [injection Hi as <-; set_solver|]. exists i, h. split; [|done].
    destruct (exists_last Hbn) as (l&x&Hl). rewrite Hl in Hi |- *. rewrite removelast_last in Hi. by apply lookup_app_l_Some.
  - apply NoDup_fst_map_to_list.
  - rewrite E1. cbn [res_bind]. exists (with_seed seed q1), T1. split; [done|]. split; [|split; [|split; [|split; [|split; [|split]]]]].
    + destruct Hok1 as [[] ? ? ? ? _ ? ?]. by split.
    + done.
    + cbn. by rewrite (dp_rest _ _ Hd1).
    + cbn. by rewrite (dp_rest _ _ Hd1).
    + apply (dp_lists _ _ Hd1).
    + apply (dp_bans _ _ Hd1).
    + intros a Hne. destruct (Ha1 a) as [Hin _]. apply Hin; [|done]. unfold list_of in Hne. cbn.
      destruct (mAccountStates q !! a) as [s|] eqn:Hs; [|done]. apply list_elem_of_fmap. exists (a, s). split; [done|].
      by apply elem_of_map_to_list.
Qed.
End queue.
