(* ===== verification/TxQueueAdd.v ===== *)
(** * The transaction queue: transactions that enter it

    [canAdd], [tryAdd] of [src/herder/TransactionQueue.cpp] and [canAddTx],
    [evictTransactions] of [src/herder/TxQueueLimiter.cpp]: what is refused, what
    is replaced, and what makes room. *)
From stdpp Require Import base tactics numbers list sorting gmap sets.
From Stdlib Require Import ZArith Lia Bool.
From S2P Require Import Prelude Numeric OfferExchange LedgerEntries Balances Fees Containers TransactionQueue TxQueueTheorems TxQueueDrops.

Open Scope Z_scope.
Open Scope kin_scope.

(** Bids as envelopes have them: not negative. *)
Definition bidding (tx : QueuedTx) : Prop :=
  0 <= tx_feeBid tx <= INT64_MAX /\ 0 <= tx_numOps tx <= UINT32_MAX.

Lemma priced_bidding (tx : QueuedTx) : priced tx -> bidding tx.
Proof. intros [? ?]. split; lia. Qed.

(** ** What a better fee is *)

(** The least fee that beats the bid [refFeeBid] for [refNbOps] operations. *)
Definition betterFee (tx : QueuedTx) (refFeeBid refNbOps : Z) : Z :=
  Z.min INT64_MAX (refFeeBid * tx_numOps tx / refNbOps + 1).

Lemma computeBetterFee_ok (tx : QueuedTx) (refFeeBid refNbOps : Z) :
  bidding tx -> 0 <= refFeeBid <= INT64_MAX -> 0 < refNbOps <= UINT32_MAX ->
  computeBetterFee tx refFeeBid refNbOps = Ok (betterFee tx refFeeBid refNbOps).
Proof.
  intros [Hf Ho] Hr Hn. unfold computeBetterFee, betterFee.
  destruct (bigDivide_flag refFeeBid (tx_numOps tx) refNbOps ROUND_DOWN) as (v&->&Hv); [unfold_ints; lia..|].
  cbn [res_err res_bind]. cbn [quotient] in *. destruct (Z.leb_spec (refFeeBid * tx_numOps tx / refNbOps) INT64_MAX) as [Hle|Hgt].
  - rewrite Hv by done. f_equal. destruct (Z.ltb_spec (refFeeBid * tx_numOps tx / refNbOps) INT64_MAX); lia.
  - f_equal. destruct v; lia.
Qed.

(** [canReplaceByFee] asks ten times the rate of the old transaction; its answer
    is the least fee that would do. *)
Definition replacementFee (tx oldTx : QueuedTx) : Z :=
  cdiv (tx_feeBid oldTx * Z.max 1 (tx_numOps tx) * FEE_MULTIPLIER) (Z.max 1 (tx_numOps oldTx)).

Lemma canReplaceByFee_ok (tx oldTx : QueuedTx) :
  bidding tx -> bidding oldTx ->
  canReplaceByFee tx oldTx =
    Ok (if replacementFee tx oldTx <=? tx_feeBid tx then None else Some (Z.min INT64_MAX (replacementFee tx oldTx))).
Proof.
  intros [Hf Ho] [Hf' Ho']. unfold canReplaceByFee, replacementFee. set (n := Z.max 1 (tx_numOps tx)). set (o := Z.max 1 (tx_numOps oldTx)).
  assert (1 <= n <= UINT32_MAX /\ 1 <= o <= UINT32_MAX) as [Hn Hold] by (unfold n, o; unfold_ints; lia).
  rewrite !bigMultiply_exact by (unfold_ints; lia). cbn [res_err res_bind]. unfold FEE_MULTIPLIER.
  set (v2 := tx_feeBid oldTx * n). assert (0 <= v2 <= INT64_MAX * UINT32_MAX) as Hv2 by (unfold v2; nia).
  rewrite u128_id by (unfold_ints; lia). pose proof (cdiv_spec (v2 * 10) o ltac:(lia)) as Hc.
  destruct (Z.leb_spec (v2 * 10) (tx_feeBid tx * o)) as [Hle|Hgt]; destruct (Z.leb_spec (cdiv (v2 * 10) o) (tx_feeBid tx)) as [Hle'|Hgt'].
  - done.
  - nia.
  - nia.
  - unfold bigDivide128. destruct (Z.ltb_spec 0 o); [|lia]. cbn [negb]. rewrite (u64_id o) by (unfold_ints; lia).
    pose proof (quotient_nonneg ROUND_UP (v2 * 10) o ltac:(lia) ltac:(lia)) as H0. cbn [quotient] in H0.
    destruct (Z.le_gt_cases (cdiv (v2 * 10) o) UINT64_MAX) as [Hfit|Hbig].
    + rewrite bigDivideUnsigned128_up by (unfold_ints; lia). cbn [res_bind res_err].
      destruct (Z.leb_spec (cdiv (v2 * 10) o) INT64_MAX); [|f_equal; f_equal; lia].
      rewrite to_i64_small by lia. f_equal. f_equal. lia.
    + unfold bigDivideUnsigned128. destruct (Z.eqb_spec o 0); [lia|].
      destruct (Z.ltb_spec (UINT128_MAX - (o - 1)) (v2 * 10)); [unfold_ints; lia|].
      assert (u128 (u128 (v2 * 10 + o) - 1) / o = cdiv (v2 * 10) o) as ->.
      { unfold cdiv. rewrite (u128_id (v2 * 10 + o)) by (unfold_ints; lia). rewrite u128_id by (unfold_ints; lia). done. }
      destruct (Z.leb_spec (cdiv (v2 * 10) o) UINT64_MAX); [lia|]. cbn [res_bind res_err]. f_equal. f_equal. unfold_ints; lia.
Qed.

(** ** Room in the limiter *)

Lemma compare_bidding (l r : QueuedTx) :
  bidding l -> bidding r -> compareTxs l r = Ok (Z.compare (tx_feeBid l * tx_numOps r) (tx_feeBid r * tx_numOps l)).
Proof. intros [? ?] [? ?]. by apply rate_ok. Qed.

(** The transactions that are to make room: cheaper, and of other accounts. *)
Definition evictable (tx y : QueuedTx) : Prop := cheaper y tx /\ tx_sourceID y <> tx_sourceID tx.

Lemma make_room_ok (tx : QueuedTx) (l : list QueuedTx) : forall (need : Z),
  bidding tx -> Forall priced l ->
  exists b m, make_room tx need l = Ok (b, m) /\
    (b = true -> exists P R, l = P ++ R /\ Forall (evictable tx) P /\ need <= ops P).
Proof.
  induction l as [|y l IH]; intros need Ht Hl; simpl; [by exists false, 0|].
  apply Forall_cons in Hl as [Hy Hl]. rewrite compare_bidding by (done || by apply priced_bidding). cbn [res_bind].
  assert (exists m, computeBetterFee tx (tx_feeBid y) (tx_numOps y) = Ok m) as [m Hm].
  { destruct Hy. eexists. apply computeBetterFee_ok; [done|lia..]. }
  destruct (Z.compare_spec (tx_feeBid y * tx_numOps tx) (tx_feeBid tx * tx_numOps y)) as [E|E|E];
    [rewrite Hm; by exists false, m| |rewrite Hm; by exists false, m].
  destruct (Z.eqb_spec (tx_sourceID y) (tx_sourceID tx)) as [|Hne]; [by exists false, 0|].
  assert (evictable tx y) as He by done. destruct (Z.leb_spec need (tx_numOps y)).
  - exists true, 0. split; [done|]. intros _. exists [y], l. split; [done|]. split; [by constructor|]. rewrite ops_cons. unfold ops. simpl. lia.
  - destruct (IH (need - tx_numOps y) Ht Hl) as (b&m'&->&Hb). exists b, m'. split; [done|]. intros Hbt.
    destruct (Hb Hbt) as (P&R&->&HP&Hn). exists (y :: P), R. split; [done|]. split; [by constructor|]. rewrite ops_cons. lia.
Qed.

Definition room (lv : LedgerView) (tx : QueuedTx) (freed : Z) (lim : TxQueueLimiter) : Prop :=
  exists P R, mTxs lim = P ++ R /\ Forall (evictable tx) P /\
    mLimiterOps lim - freed + tx_numOps tx <= maxQueueSizeOps lv lim + ops P.

Lemma canAddTx_ok (lv : LedgerView) (tx : QueuedTx) (old : option QueuedTx) (lim : TxQueueLimiter) :
  bidding tx -> Forall priced (mTxs lim) -> mLimiterOps lim = ops (mTxs lim) ->
  0 <= fst (mMinFeeNeeded lim) <= INT64_MAX /\ 0 <= snd (mMinFeeNeeded lim) <= UINT32_MAX ->
  (forall y, old = Some y -> y ∈ mTxs lim) ->
  exists b m, canAddTx lv tx old lim = Ok (b, m) /\
    (b = true -> room lv tx (match old with Some y => tx_numOps y | None => 0 end) lim).
Proof.
  intros Ht Hpr Hops [Hf Hn] Hold. unfold canAddTx.
  assert (exists low, (if negb (snd (mMinFeeNeeded lim) =? 0) then
      let? cmp3Min := feeRate3WayCompare (tx_feeBid tx) (tx_numOps tx) (fst (mMinFeeNeeded lim)) (snd (mMinFeeNeeded lim)) in
      match cmp3Min with
      | Gt => Ok None
      | _ => let? minFee := computeBetterFee tx (fst (mMinFeeNeeded lim)) (snd (mMinFeeNeeded lim)) in Ok (Some minFee)
      end else Ok None) = Ok low) as [low ->].
  { destruct (Z.eqb_spec (snd (mMinFeeNeeded lim)) 0); cbn [negb]; [by exists None|]. destruct Ht as [Htf Hto].
    rewrite rate_ok by done. cbn [res_bind]. rewrite computeBetterFee_ok by (done || lia). cbn [res_bind].
    destruct (_ ?= _); eauto. }
  cbn [res_bind]. destruct low as [m|]; [by exists false, m|].
  assert (exists newOps, match old with
      | Some oldTx => let? _ := ensure (tx_numOps oldTx <=? mLimiterOps lim) OldTxTooBig in Ok (mLimiterOps lim - tx_numOps oldTx)
      | None => Ok (mLimiterOps lim) end = Ok newOps /\
      newOps = mLimiterOps lim - match old with Some y => tx_numOps y | None => 0 end) as (newOps&->&->).
  { destruct old as [y|]; [|eexists; split; [done|lia]]. pose proof (Hold y eq_refl) as Hy. apply elem_of_Permutation in Hy as [l Hl]. rewrite Hl, ops_cons in Hops. rewrite Hl in Hpr. apply Forall_cons in Hpr as [_ Hpr].
    pose proof (ops_nonneg l Hpr). destruct (Z.leb_spec (tx_numOps y) (mLimiterOps lim)); [|lia]. by eexists. }
  cbn [res_bind]. destruct (Z.leb_spec (mLimiterOps lim - match old with Some y => tx_numOps y | None => 0 end + tx_numOps tx) (maxQueueSizeOps lv lim)) as [Hle|Hgt].
  - exists true, 0. split; [done|]. intros _. exists [], (mTxs lim). split; [done|]. split; [done|]. change (ops []) with 0. lia.
  - destruct (make_room_ok tx (mTxs lim) (mLimiterOps lim - match old with Some y => tx_numOps y | None => 0 end + tx_numOps tx - maxQueueSizeOps lv lim) Ht Hpr)
      as (b&m&->&Hb).
    exists b, m. split; [done|]. intros Hbt. destruct (Hb Hbt) as (P&R&HP&Hev&Hneed). exists P, R. split; [done|]. split; [done|lia].
Qed.

(** ** What the ledger promises *)

(** What the queue relies on: [getLastMaxTxSetSizeOps] is a [uint32_t], a valid
    transaction has a fee, operations and the next sequence number, and a
    balance is an [int64_t]. *)
Record lawful (lv : LedgerView) : Prop := {
  lw_ops : is_u32 (getLastMaxTxSetSizeOps lv);
  lw_valid : forall tx n, checkValid lv tx n = true ->
    priced tx /\ 1 <= tx_seqNum tx /\ (n <> 0 -> tx_seqNum tx = n + 1);
  lw_balance : forall a, feeSourceBalance lv a <= INT64_MAX;
}.

Section add.
Context (envelope : Z -> TransactionFrameBase) (lv : LedgerView).
Notation genuine := (genuine envelope).
Notation ok := (ok envelope).
Notation unbanned := (TxQueueDrops.unbanned).

(** A transaction the queue is offered: its bid is not negative, its sequence
    number below the last, and it is an object of its own. *)
Record offered (q : TransactionQueue) (tx : QueuedTx) : Prop := {
  of_genuine : genuine tx;
  of_bidding : bidding tx;
  of_seq : tx_seqNum tx < INT64_MAX;
  of_address : address tx ∉ address <$> queued (mAccountStates q);
}.

(** The transaction to be replaced. *)
Definition replaced (q : TransactionQueue) (tx : QueuedTx) (o : option nat) : list QueuedTx :=
  match o ≫= (fun i => list_of (mAccountStates q) (tx_sourceID tx) !! i) with Some t => [mTx t] | None => [] end.

(** The place of a transaction: that of one with its sequence number, or the end. *)
Definition fits (q : TransactionQueue) (tx : QueuedTx) (o : option nat) : Prop :=
  let L := list_of (mAccountStates q) (tx_sourceID tx) in
  match o with
  | Some i => exists t, L !! i = Some t /\ tx_seqNum (mTx t) = tx_seqNum tx
  | None => L <> [] -> forall n, contiguous n L -> tx_seqNum tx = n + Z.of_nat (length L)
  end.

Lemma canAdd_account_ok (tx : QueuedTx) (q : TransactionQueue) (T : list QueuedTx) :
  ok q T [] -> offered q tx ->
  exists r, canAdd_account tx q = Ok r /\
    match r with
    | inl res => res <> ADD_STATUS_PENDING
    | inr (old, netFee, n) =>
        (1 <= tx_seqNum tx -> (n <> 0 -> tx_seqNum tx = n + 1) -> fits q tx (fst <$> old)) /\
        netFee = tx_feeBid tx - fees_of (tx_feeSourceID tx) (replaced q tx (fst <$> old)) /\
        replaced q tx (fst <$> old) = option_list (snd <$> old)
    end.
Proof.
  intros Hok [Hg Hb Hseq _]. unfold canAdd_account, fits, replaced, list_of.
  destruct (mAccountStates q !! tx_sourceID tx) as [s|] eqn:Hs; cbn [fmap option_fmap option_map].
  2:{ eexists. split; [done|]. cbn. split; [done|]. split; [unfold fees_of; simpl; lia|done]. }
  destruct (ok_accounts _ _ _ _ Hok _ _ Hs) as [_ [n [Hn Hc]] _ _ _].
  assert (forall t, t ∈ mTransactions s -> priced (mTx t)) as Hpr.
  { intros t Ht. pose proof (bk_priced _ _ _ (ok_books _ _ _ _ Hok)) as Hpr. rewrite <- (ok_queued _ _ _ _ Hok), Forall_forall in Hpr.
    apply Hpr. apply elem_of_queued. by exists (tx_sourceID tx), s, t. }
  destruct (mTransactions s) as [|front l] eqn:HL.
  { eexists. split; [done|]. cbn. split; [done|]. split; [unfold fees_of; simpl; lia|done]. }
  set (L := front :: l) in *. destruct (isFeeBump (frame tx)); cbn [negb]; rewrite (findBySeq_ok n) by done; cbn [res_bind].
  - destruct ((n <=? tx_seqNum tx) && (tx_seqNum tx <=? n + Z.of_nat (length L))) eqn:Ein; [|by eexists]. bprop.
    destruct (L !! Z.to_nat (tx_seqNum tx - n)) as [t|] eqn:Hi.
    + destruct (isDuplicateTx (mTx t) tx); [by eexists|]. rewrite canReplaceByFee_ok; [|done|].
      2:{ apply priced_bidding, Hpr. by eapply list_elem_of_lookup_2. }
      cbn [res_bind]. destruct (replacementFee tx (mTx t) <=? tx_feeBid tx); [|by eexists]. eexists. split; [done|].
      cbn. rewrite Hi. split; [|split; [|done]].
      * intros _ _. exists t. split; [done|]. apply Hc in Hi as [Hi _]. lia.
      * unfold fees_of. simpl. destruct (Z.eqb_spec (tx_feeSourceID (mTx t)) (tx_feeSourceID tx)); lia.
    + eexists. split; [done|]. cbn [fst snd fmap option_fmap option_map]. split; [|split; [unfold fees_of; simpl; lia|done]]. intros _ _ _ n' Hc'.
      apply lookup_ge_None in Hi. destruct (Hc 0%nat front eq_refl) as [E1 _]. destruct (Hc' 0%nat front eq_refl) as [E2 _]. lia.
  - set (dup := match _ ≫= _ with Some _ => _ | None => _ end). destruct dup; [by eexists|].
    destruct (lookup_lt_is_Some_2 L (pred (length L))) as [back Hback]; [simpl; lia|].
    rewrite last_lookup, Hback. eexists. split; [done|]. cbn [fst snd fmap option_fmap option_map].
    split; [|split; [unfold fees_of; simpl; lia|done]]. intros _ Hnext _ n' Hc'.
    destruct (Hc _ _ Hback) as [E1 _]. destruct (Hc' _ _ Hback) as [E2 _]. assert (0 < length L)%nat by (simpl; lia). lia.
Qed.

(** What [canAdd] says when it lets the transaction in. *)
Record admitted (q : TransactionQueue) (tx : QueuedTx) (o : option nat) : Prop := {
  ad_banned : isBanned (fullHash tx) q = false;
  ad_priced : priced tx;
  ad_seq : 1 <= tx_seqNum tx;
  ad_fits : fits q tx o;
  ad_room : room lv tx (ops (replaced q tx o)) (mTxQueueLimiter q);
  ad_balance : total_of (mAccountStates q) (tx_feeSourceID tx) - fees_of (tx_feeSourceID tx) (replaced q tx o) + tx_feeBid tx
    <= INT64_MAX;
}.

Lemma canAdd_ok (tx : QueuedTx) (q : TransactionQueue) (T : list QueuedTx) :
  lawful lv -> ok q T [] -> unbanned [] q -> offered q tx ->
  exists c q', canAdd lv tx q = Ok (c, q') /\
    match c with
    | Answer r => r <> ADD_STATUS_PENDING /\ (exists T', ok q' T' []) /\ unbanned [] q' /\ dropped q q'
    | Place o => q' = q /\ admitted q tx o
    end.
Proof.
  intros Hlaw Hok Hun Hof. unfold canAdd. destruct (isBanned (fullHash tx) q) eqn:Hban.
  { eexists _, _. split; [done|]. split; [done|]. split; [by exists T|]. split; [done|apply dropped_refl]. }
  destruct (isFiltered tx q).
  { eexists _, _. split; [done|]. split; [done|]. split; [by exists T|]. split; [done|apply dropped_refl]. }
  destruct (canAdd_account_ok tx q T Hok Hof) as (r&->&Hr). cbn [res_bind]. destruct r as [res|[[old netFee] n]].
  { eexists _, _. split; [done|]. split; [done|]. split; [by exists T|]. split; [done|apply dropped_refl]. }
  destruct Hr as (Hfits&Hnet&Hrep). pose proof (ok_books _ _ _ _ Hok) as Hb.
  pose proof (bk_txs _ _ _ Hb) as Htx. pose proof (bk_priced _ _ _ Hb) as Hpr. rewrite app_nil_r in Hpr.
  destruct (canAddTx_ok lv tx (snd <$> old) (mTxQueueLimiter q)) as (can&m&->&Hroom).
  { apply Hof. } { by rewrite Htx. } { by rewrite (bk_ops _ _ _ Hb), Htx. } { apply Hok. }
  { intros y Hy. rewrite Htx. rewrite Hy in Hrep. cbn [option_list] in Hrep. pose proof (ok_queued _ _ _ _ Hok) as Hq.
    rewrite app_nil_r in Hq. rewrite <- Hq, queued_list_of. unfold replaced in Hrep.
    destruct (_ ≫= _) as [t|] eqn:Ht; [|done]. injection Hrep as Hty. apply bind_Some in Ht as (i&_&Hi).
    exists (tx_sourceID tx), t. split; [by eapply list_elem_of_lookup_2|done]. }
  cbn [res_bind]. destruct can; cbn [negb].
  2:{ destruct (ban_ok envelope [tx] q T []) as (q'&T'&E'&Hok'&Hd'&Hun'&_); [done|done|constructor; [apply Hof|constructor]|by intros b e _ ?%not_elem_of_nil|].
      rewrite E'. cbn [res_bind]. eexists _, _. split; [done|]. split; [by destruct (negb _)|]. split; [by exists T'|done]. }
  destruct (checkValid lv tx n) eqn:Hvalid; cbn [negb].
  2:{ eexists _, _. split; [done|]. split; [done|]. split; [by exists T|]. split; [done|apply dropped_refl]. }
  destruct (lw_valid _ Hlaw _ _ Hvalid) as (Hp&Hs&Hn). pose proof (lw_balance _ Hlaw (tx_feeSourceID tx)) as Hbal.
  change (match mAccountStates q !! tx_feeSourceID tx with None => 0 | Some s => mTotalFees s end)
    with (total_of (mAccountStates q) (tx_feeSourceID tx)).
  destruct (Z.ltb_spec (feeSourceBalance lv (tx_feeSourceID tx) - netFee) (total_of (mAccountStates q) (tx_feeSourceID tx))) as [Hlt|Hge].
  { eexists _, _. split; [done|]. split; [done|]. split; [by exists T|]. split; [done|apply dropped_refl]. }
  eexists _, _. split; [done|]. split; [done|]. split; [done|done|done|by apply Hfits| |lia].
  rewrite Hrep. specialize (Hroom eq_refl). destruct old as [[i y]|]; [|done]. cbn [fmap option_fmap option_map snd] in *.
  change (ops (option_list (Some y))) with (tx_numOps y + 0). by rewrite Z.add_0_r.
Qed.

(** ** Making room *)

Lemma ok_set_minFee (f : Z * Z) (q : TransactionQueue) (T E : list QueuedTx) :
  ok q T E -> 0 <= fst f <= INT64_MAX /\ 0 <= snd f <= UINT32_MAX ->
  ok (with_limiter (set_minFeeNeeded f (mTxQueueLimiter q)) q) T E.
Proof. intros [[] ? ? ? ? ? ? ?] Hf. by split. Qed.

Lemma ops_sublist (l k : list QueuedTx) : sublist l k -> Forall priced k -> ops l <= ops k.
Proof.
  induction 1 as [|x l k Hl IH|x l k Hl IH]; [done|..]; intros [Hx Hk]%Forall_cons; rewrite ?ops_cons; specialize (IH Hk); [lia|].
  destruct Hx as [_ Hx]. lia.
Qed.

(** What the evictions do: every transaction that leaves is banned and follows, in
    its account, a transaction cheaper than [tx]. *)
Definition evicted (tx : QueuedTx) (q q' : TransactionQueue) : Prop :=
  forall y, y ∈ queued (mAccountStates q) -> y ∈ queued (mAccountStates q') \/
    isBanned (fullHash y) q' = true /\
      exists z, z ∈ queued (mAccountStates q) /\ evictable tx z /\ tx_sourceID z = tx_sourceID y /\ tx_seqNum z <= tx_seqNum y.

(** What the evictions leave alone. *)
Record evicting (q q' : TransactionQueue) : Prop := {
  ev_sublist : forall a, sublist (list_of (mAccountStates q') a) (list_of (mAccountStates q) a);
  ev_bans : Forall2 (⊆) (mBannedTransactions q) (mBannedTransactions q');
  ev_multiplier : mPoolLedgerMultiplier (mTxQueueLimiter q') = mPoolLedgerMultiplier (mTxQueueLimiter q);
  ev_depth : mPendingDepth q' = mPendingDepth q;
  ev_carry : mBroadcastOpCarryover q' = mBroadcastOpCarryover q;
}.

Lemma evicting_refl (q : TransactionQueue) : evicting q q.
Proof. by split. Qed.

Lemma evicting_trans (q1 q2 q3 : TransactionQueue) : evicting q1 q2 -> evicting q2 q3 -> evicting q1 q3.
Proof.
  intros [Hl1 Hb1 Hm1 Hd1 Hc1] [Hl2 Hb2 Hm2 Hd2 Hc2].
  split; [intros a; by rewrite Hl2, Hl1|by etrans|by rewrite Hm2|by rewrite Hd2|by rewrite Hc2].
Qed.

Lemma dropped_evicting (q q' : TransactionQueue) : dropped q q' -> evicting q q'.
Proof.
  intros Hd. split; [apply Hd|apply Hd|apply (dp_limiter _ _ Hd)|..]; by rewrite (dp_rest _ _ Hd).
Qed.

Lemma evicting_queued (q q' : TransactionQueue) (y : QueuedTx) :
  evicting q q' -> y ∈ queued (mAccountStates q') -> y ∈ queued (mAccountStates q).
Proof.
  rewrite !queued_list_of. intros He (a&t&Ht&Hx). exists a, t. split; [|done].
  by eapply elem_of_sublist; [|apply (ev_sublist _ _ He)].
Qed.

Lemma sublist_removed (l k : list QueuedTx) (x : QueuedTx) : sublist l k -> x ∈ k -> x ∉ l -> (length l < length k)%nat.
Proof.
  intros Hs Hk Hl. pose proof (sublist_length _ _ Hs) as Hle. destruct (decide (length l = length k)) as [He|]; [|lia].
  exfalso. apply Hl. rewrite (submseteq_length_Permutation l k); [done|by apply sublist_submseteq|lia].
Qed.

Lemma evict_ok (tx : QueuedTx) (P R : list QueuedTx) (fuel : nat) : forall (q : TransactionQueue) (T : list QueuedTx),
  ok q T [tx] -> unbanned [] q -> Forall (evictable tx) P -> Forall priced R ->
  ops R + tx_numOps tx <= maxQueueSizeOps lv (mTxQueueLimiter q) ->
  sublist (mTxs (mTxQueueLimiter q)) (P ++ R) -> (length (mTxs (mTxQueueLimiter q)) <= fuel)%nat ->
  exists q' T', evictTransactions fuel lv (tx_numOps tx) q = Ok (true, q') /\ ok q' T' [tx] /\ unbanned [] q' /\
    mLimiterOps (mTxQueueLimiter q') + tx_numOps tx <= maxQueueSizeOps lv (mTxQueueLimiter q') /\
    evicted tx q q' /\ evicting q q'.
Proof.
  induction fuel as [|fuel IH]; intros q T Hok Hun HP HR Hmax Hsub Hfuel; simpl.
  all: destruct (Z.ltb_spec (maxQueueSizeOps lv (mTxQueueLimiter q)) (mLimiterOps (mTxQueueLimiter q) + tx_numOps tx)) as [Hlt|Hge];
    [|exists q, T; split; [done|]; split; [done|]; split; [done|]; split; [done|]; split; [by left|apply evicting_refl]].
  all: pose proof (ok_books _ _ _ _ Hok) as Hb; pose proof (bk_txs _ _ _ Hb) as Htx; pose proof (bk_ops _ _ _ Hb) as Hops; rewrite <- Htx in Hops;
    pose proof (bk_priced _ _ _ Hb) as [Hpr Hpt]%Forall_app; rewrite <- Htx in Hpr.
  all: apply sublist_app_r in Hsub as (l1&l2&Hl&Hs1&Hs2); pose proof (ops_sublist _ _ Hs2 HR) as Hl2; rewrite Hl, ops_app in Hops.
  all: destruct l1 as [|z l1]; [change (ops []) with 0 in Hops; lia|]; rewrite Hl in Hfuel; simpl in Hfuel; try lia.
  assert (z ∈ mTxs (mTxQueueLimiter q)) as Hz by (rewrite Hl; by left).
  assert (priced z) as Hpz by (rewrite Forall_forall in Hpr; by apply Hpr).
  assert (evictable tx z) as Hez.
  { rewrite Forall_forall in HP. apply HP. eapply elem_of_sublist; [|exact Hs1]. by left. }
  assert (z ∈ queued (mAccountStates q)) as Hzq by (rewrite (ok_queued _ _ _ _ Hok); apply elem_of_app; left; by rewrite <- Htx).
  pose proof (ops_nonneg l1) as Hn1. pose proof (ops_nonneg l2) as Hn2. rewrite Hl in Hpr.
  apply Forall_app in Hpr as [[_ Hp1]%Forall_cons Hp2]. rewrite ops_cons in Hops. specialize (Hn1 Hp1). specialize (Hn2 Hp2).
  destruct (Z.eqb_spec (mLimiterOps (mTxQueueLimiter q)) 0) as [|_]; [destruct Hpz; lia|].
  unfold getWorstTransaction. rewrite Hl. cbn [app res_bind].
  set (q0 := with_limiter _ q). assert (ok q0 T [tx]) as Hok0 by (apply ok_set_minFee; [done|destruct Hpz; simpl; lia]).
  destruct (ban_ok envelope [z] q0 T [tx]) as (q1&T1&E1&Hok1&Hd1&Hun1&Hg1&Hb1&_); [done|done| | |].
  { constructor; [|done]. by destruct (ok_genuine _ _ _ _ _ Hok Hzq). }
  { intros b e ->%list_elem_of_singleton ->%list_elem_of_singleton Heq. by destruct Hez as [_ []]. }
  rewrite E1. cbn [res_bind]. destruct (dp_limiter _ _ Hd1) as (Hm1&_&_). cbn in Hm1.
  assert (z ∉ mTxs (mTxQueueLimiter q1)) as Hz1.
  { rewrite (bk_txs _ _ _ (ok_books _ _ _ _ Hok1)). intros Hin.
    assert (z ∈ queued (mAccountStates q1)) as Hzq1 by (rewrite (ok_queued _ _ _ _ Hok1); apply elem_of_app; by left).
    destruct (proj2 Hun1 z Hzq1) as (b&Hb'&_); [eapply banned_at_isBanned; apply Hb1; by left|]. by apply not_elem_of_nil in Hb'. }
  pose proof (dp_sublist _ _ Hd1) as Hsub1. cbn in Hsub1.
  assert (maxQueueSizeOps lv (mTxQueueLimiter q1) = maxQueueSizeOps lv (mTxQueueLimiter q)) as Hmax1 by (unfold maxQueueSizeOps; by rewrite Hm1).
  destruct (IH q1 T1) as (q2&T2&E2&Hok2&Hun2&Hroom2&Hev2&Hevg2); [done|done|done|done|by rewrite Hmax1| | |].
  { etrans; [exact Hsub1|]. rewrite Hl. by apply sublist_app. }
  { pose proof (sublist_removed _ _ z Hsub1 Hz Hz1) as Hlen. rewrite Hl in Hlen. simpl in Hlen. lia. }
  exists q2, T2. assert (evicting q q1) as Hevg1 by (destruct (dropped_evicting _ _ Hd1); by split).
  split; [done|]. split; [done|]. split; [done|]. split; [done|]. split; [|by apply evicting_trans with q1].
  intros y Hy. destruct (Hg1 y Hy) as [Hy1|[Hby (z'&->%list_elem_of_singleton&Hzy)]].
  - destruct (Hev2 y Hy1) as [Hy2|[Hby (z'&Hz'&Hrest)]]; [by left|right]. split; [done|]. exists z'. split; [|done].
    by apply (evicting_queued q q1).
  - right. split; [apply (isBanned_mono _ q1); [apply Hevg2|done]|]. exists z. done.
Qed.

(** ** Placing the transaction *)

Definition with_fee (f : AccountID) (v : Z) (m : gmap AccountID AccountState) : gmap AccountID AccountState :=
  <[f := add_fee v (default new_account (m !! f))]> m.

Lemma with_fee_list (f a : AccountID) (v : Z) (m : gmap AccountID AccountState) : list_of (with_fee f v m) a = list_of m a.
Proof using Type.
  unfold with_fee. rewrite list_of_insert. destruct (Z.eqb_spec f a) as [<-|]; [|done]. unfold list_of. by destruct (m !! f).
Qed.

Lemma with_fee_total (f a : AccountID) (v : Z) (m : gmap AccountID AccountState) :
  total_of (with_fee f v m) a = if f =? a then to_i64 (total_of m f + v) else total_of m a.
Proof using Type.
  unfold with_fee. rewrite total_of_insert. destruct (Z.eqb_spec f a) as [<-|]; [|done]. unfold total_of. by destruct (m !! f).
Qed.

Lemma new_counted (depth : Z) (a : AccountID) : 1 <= depth -> counted envelope depth a new_account.
Proof using Type. intros Hd. split; [constructor|by exists 1|done|simpl; lia|done]. Qed.

Lemma with_fee_counted (f a : AccountID) (v depth : Z) (m : gmap AccountID AccountState) (s' : AccountState) :
  1 <= depth -> with_fee f v m !! a = Some s' ->
  counted envelope depth a s' \/ exists s, m !! a = Some s /\ mTransactions s' = mTransactions s /\
    (counted envelope depth a s -> counted envelope depth a s').
Proof using Type.
  unfold with_fee. intros Hd [[<- <-]|[_ Hs]]%lookup_insert_Some; [|right; by exists s'].
  destruct (m !! f) as [s|] eqn:Hs; [right; exists s; split; [done|split; [done|]]|left; by apply (counted_others _ _ _ new_account); [apply new_counted|..]]. intros Hc.
  by apply (counted_others _ _ _ s).
Qed.

(** [tx] at the place of [L'], for the transactions [l0] that are counted. *)
Lemma place_ok (tx : QueuedTx) (o : option nat) (q : TransactionQueue) (T : list QueuedTx) (l0 L' : list TimestampedTx) :
  let source := tx_sourceID tx in let f := tx_feeSourceID tx in let s := account_or_new source q in
  priced tx -> books q T [] -> holds s l0 -> 0 <= mAge s < mPendingDepth q ->
  T ≡ₚ txs_of l0 ++ queued (delete source (mAccountStates q)) ->
  mTransactions (place_tx o tx s) = L' -> L' ≡ₚ {| mTx := tx; mBroadcasted := false |} :: l0 ->
  (exists n, 1 <= n /\ contiguous n L') -> Forall (fun t => tx_sourceID (mTx t) = source /\ genuine (mTx t)) L' ->
  (forall a s', a <> source -> mAccountStates q !! a = Some s' ->
    counted envelope (mPendingDepth q) a s' /\ (mTransactions s' <> [] \/ 0 < mTotalFees s')) ->
  1 <= mPendingDepth q <= UINT32_MAX ->
  0 <= fst (mMinFeeNeeded (mTxQueueLimiter q)) <= INT64_MAX /\ 0 <= snd (mMinFeeNeeded (mTxQueueLimiter q)) <= UINT32_MAX ->
  is_u32 (mPoolLedgerMultiplier (mTxQueueLimiter q)) -> ops T <= UINT32_MAX * UINT32_MAX ->
  total_of (mAccountStates q) f + tx_feeBid tx <= INT64_MAX -> address tx ∉ address <$> T ->
  ok (with_accounts (with_fee f (tx_feeBid tx) (<[source := place_tx o tx s]> (mAccountStates q))) q) T [tx].
Proof.
  intros source f s Hp Hb Hh Hage HT HL' HL Hc Hg Hoth Hdep Hmin Hmul Hsz Hfee Haddr.
  set (m1 := <[source := place_tx o tx s]> (mAccountStates q)).
  assert (forall a, list_of (with_fee f (tx_feeBid tx) m1) a = if source =? a then L' else list_of (mAccountStates q) a) as Hls.
  { intros a. rewrite with_fee_list. unfold m1. by rewrite list_of_insert, HL'. }
  assert (forall a, total_of m1 a = total_of (mAccountStates q) a) as Htot.
  { intros a. unfold m1. rewrite total_of_insert. destruct (Z.eqb_spec source a) as [<-|]; [|done].
    unfold total_of, place_tx, s, account_or_new. by destruct (mAccountStates q !! source). }
  pose proof Hb as [Hpr Had Hfe Hfb Hob Htx Hso Hop]. rewrite app_nil_r in *.
  pose proof (fees_nonneg f T Hpr) as Hf0. destruct Hp as [Hp1 Hp2].
  assert (counted envelope (mPendingDepth q) source (place_tx o tx s)) as Hcs.
  { split; rewrite ?HL'; try done.
    - destruct Hh as [Ho Hbo]. rewrite (holds_Permutation _ _ _ HL). split; cbn [mQueueSizeOps mBroadcastQueueOps place_tx].
      + rewrite Ho. change (txs_of (_ :: l0)) with (tx :: txs_of l0). rewrite ops_cons. lia.
      + rewrite Hbo, bops_cons. cbn [mBroadcasted mTx]. lia.
    - intros Hnil. rewrite Hnil in HL. by apply Permutation_nil_cons in HL. }
  assert (queued (with_fee f (tx_feeBid tx) m1) ≡ₚ T ++ [tx]) as Hq.
  { destruct (queued_change (mAccountStates q) (with_fee f (tx_feeBid tx) m1) source) as (rest&H1&H2).
    { intros b Hne. rewrite Hls. destruct (Z.eqb_spec source b); [congruence|done]. }
    rewrite Hls, Z.eqb_refl in H2. rewrite (queued_delete _ source) in H1. apply (Permutation_app_inv_l) in H1.
    assert (txs_of L' ≡ₚ tx :: txs_of l0) as HtL by (unfold txs_of; by rewrite HL).
    rewrite H2, HtL, HT, <- H1. by rewrite <- Permutation_cons_append. }
  split; cbn [mAccountStates mTxQueueLimiter mPendingDepth with_accounts]; [|exact Hq| | |exact Hdep|exact Hmin|exact Hmul|exact Hsz].
  - split; cbn [mAccountStates mTxQueueLimiter with_accounts]; [| | | | |exact Htx|exact Hso|exact Hop].
    + apply Forall_app. split; [done|]. by apply Forall_singleton.
    + rewrite fmap_app. apply NoDup_app. split; [done|]. split; [|by apply NoDup_singleton].
      intros x Hx ->%list_elem_of_singleton. done.
    + intros a. rewrite with_fee_total, Htot, Htot, !Hfe, fees_app. unfold fees_of at 4. cbn [fmap list_fmap zsum foldr].
      fold f. destruct (Z.eqb_spec f a) as [<-|]; [|lia]. rewrite Hfe in Hfee. rewrite to_i64_small by lia. lia.
    + intros a. specialize (Hfb a). rewrite fees_app. unfold fees_of at 2. cbn [fmap list_fmap zsum foldr]. fold f. rewrite Hfe in Hfee.
      destruct (Z.eqb_spec f a) as [<-|]; lia.
    + rewrite ops_app. unfold ops at 2. cbn [fmap list_fmap zsum foldr]. unfold_ints; lia.
  - intros a s' Hs'. destruct (with_fee_counted f a (tx_feeBid tx) (mPendingDepth q) m1 s') as [|(s2&Hs2&_&Himp)]; [lia|done|done|].
    apply Himp. apply lookup_insert_Some in Hs2 as [[<- <-]|[Hne Hs2]]; [done|]. by apply Hoth.
  - intros a s' Hs'. destruct (decide (a = f)) as [->|Hne].
    + right. pose proof (with_fee_total f f (tx_feeBid tx) m1) as Ht. unfold total_of at 1 in Ht. rewrite Hs', Z.eqb_refl, Htot, Hfe in Ht.
      rewrite Hfe in Hfee. rewrite to_i64_small in Ht by lia. lia.
    + unfold with_fee in Hs'. rewrite lookup_insert_ne in Hs' by done. apply lookup_insert_Some in Hs' as [[<- <-]|[Hne' Hs']].
      * left. rewrite HL'. intros ->. by apply Permutation_nil_cons in HL.
      * by apply (Hoth a).
Qed.

(** The queue without the transaction to be replaced, ready for [tx]. *)
Record ready (tx : QueuedTx) (o : option nat) (q q2 : TransactionQueue) (T2 : list QueuedTx) (l0 : list TimestampedTx) : Prop := {
  rd_books : books q2 T2 [];
  rd_holds : holds (account_or_new (tx_sourceID tx) q2) l0;
  rd_age : 0 <= mAge (account_or_new (tx_sourceID tx) q2) < mPendingDepth q2;
  rd_queued : T2 ≡ₚ txs_of l0 ++ queued (delete (tx_sourceID tx) (mAccountStates q2));
  rd_list : mTransactions (account_or_new (tx_sourceID tx) q2) = list_of (mAccountStates q) (tx_sourceID tx);
  rd_lists : forall a, a <> tx_sourceID tx -> list_of (mAccountStates q2) a = list_of (mAccountStates q) a;
  rd_others : forall a s', a <> tx_sourceID tx -> mAccountStates q2 !! a = Some s' ->
    counted envelope (mPendingDepth q2) a s' /\ (mTransactions s' <> [] \/ 0 < mTotalFees s');
  rd_rest : q2 = with_limiter (mTxQueueLimiter q2) (with_accounts (mAccountStates q2) q);
  rd_sublist : sublist (mTxs (mTxQueueLimiter q2)) (mTxs (mTxQueueLimiter q));
  rd_limiter : mPoolLedgerMultiplier (mTxQueueLimiter q2) = mPoolLedgerMultiplier (mTxQueueLimiter q) /\
    mMinFeeNeeded (mTxQueueLimiter q2) = mMinFeeNeeded (mTxQueueLimiter q);
}.

Lemma append_ready (tx : QueuedTx) (q : TransactionQueue) (T : list QueuedTx) :
  ok q T [] ->
  ready tx None q (with_account (tx_sourceID tx) (account_or_new (tx_sourceID tx) q) q) T
    (list_of (mAccountStates q) (tx_sourceID tx)).
Proof.
  intros Hok. set (a0 := tx_sourceID tx). set (s := account_or_new a0 q). set (q1 := with_account a0 s q).
  assert (mTransactions s = list_of (mAccountStates q) a0) as HL by (unfold s, account_or_new, list_of; by destruct (_ !! _)).
  assert (counted envelope (mPendingDepth q) a0 s) as Hc.
  { pose proof (ok_depth _ _ _ _ Hok). unfold s, account_or_new. destruct (mAccountStates q !! a0) as [s'|] eqn:Hs; [|apply new_counted; lia].
    by apply (ok_accounts _ _ _ _ Hok). }
  assert (account_or_new a0 q1 = s) as Hnew by (unfold account_or_new, q1; cbn; by rewrite lookup_insert_eq).
  pose proof (ok_books _ _ _ _ Hok) as Hb. split; fold a0; rewrite ?Hnew; try done.
  - apply books_accounts; [done|]. intros a. rewrite total_of_insert. destruct (Z.eqb_spec a0 a) as [<-|]; [|done].
    unfold total_of, s, account_or_new. by destruct (_ !! _).
  - rewrite <- HL. apply Hc.
  - apply Hc.
  - cbn [mAccountStates q1 with_account with_accounts]. rewrite delete_insert_eq, <- queued_delete, (ok_queued _ _ _ _ Hok). by rewrite app_nil_r.
  - intros a Hne. cbn. rewrite list_of_insert. by destruct (Z.eqb_spec a0 a).
  - intros a s' Hne Hs'. cbn in Hs'. rewrite lookup_insert_ne in Hs' by done.
    split; [by apply (ok_accounts _ _ _ _ Hok)|by apply (ok_present _ _ _ _ Hok a)].
Qed.

Lemma replace_ready (tx : QueuedTx) (i : nat) (t : TimestampedTx) (q : TransactionQueue) (T : list QueuedTx) :
  ok q T [] -> list_of (mAccountStates q) (tx_sourceID tx) !! i = Some t ->
  exists q2 T2, prepareDropTransaction (tx_sourceID tx) t q = Ok q2 /\ T ≡ₚ mTx t :: T2 /\
    ready tx (Some i) q q2 T2 (delete i (list_of (mAccountStates q) (tx_sourceID tx))).
Proof.
  intros Hok Ht. set (a0 := tx_sourceID tx) in *. destruct (mAccountStates q !! a0) as [s|] eqn:Hs.
  2:{ unfold list_of in Ht. by rewrite Hs in Ht. }
  assert (list_of (mAccountStates q) a0 = mTransactions s) as HL by (unfold list_of; by rewrite Hs). rewrite HL in *.
  destruct (ok_accounts _ _ _ _ Hok _ _ Hs) as [Hg Hc Hh Hage _].
  destruct (drops_ok envelope a0 q T [] s [t] (delete i (mTransactions s))) as (q2&s2&T2&Ed&Hk&Hb2&Hs2&Hh2&HT&Ht2&Ha2); try done.
  { by apply ok_ok_but. } { intros Hnil. by rewrite Hnil in Ht. } { by apply delete_Permutation. } { by intros e ?%not_elem_of_nil. }
  exists q2, T2. split; [|split; [done|]].
  { simpl in Ed. destruct (prepareDropTransaction a0 t q); [|done]. by injection Ed as ->. }
  assert (account_or_new a0 q2 = s2) as Hnew by (unfold account_or_new; by rewrite Hs2).
  assert (mPendingDepth q2 = mPendingDepth q) as Hdep by (by rewrite (kp_rest _ _ _ Hk)).
  destruct (kp_limiter _ _ _ Hk) as (Hm&Hf&_). split; fold a0; rewrite ?Hnew; try done.
  - by rewrite Ha2, Hdep.
  - pose proof (queued_delete (mAccountStates q) a0) as Hq. rewrite (ok_queued _ _ _ _ Hok), app_nil_r, HT, HL in Hq.
    assert (txs_of (mTransactions s) ≡ₚ mTx t :: txs_of (delete i (mTransactions s))) as Htl.
    { unfold txs_of. by rewrite (delete_Permutation (mTransactions s) i t Ht) at 1. }
    rewrite Htl in Hq. apply (Permutation_cons_inv (a := mTx t)) in Hq. rewrite Hq. f_equiv. symmetry. apply queued_lists. intros b.
    unfold list_of. destruct (decide (b = a0)) as [->|Hne]; [by rewrite !lookup_delete_eq|].
    rewrite !lookup_delete_ne by done. apply (kp_lists _ _ _ Hk).
  - by rewrite HL.
  - intros a Hne. apply (kp_lists _ _ _ Hk).
  - intros a s' Hne Hs'. split; [|by apply (kp_present _ _ _ Hk (ok_present _ _ _ _ Hok) a)].
    destruct (kp_accounts _ _ _ Hk _ _ Hs') as (s0&Hs0&Htr&Hag&Hcnt). destruct (Hcnt Hne). rewrite Hdep.
    apply (counted_others envelope _ _ s0); try done. by apply (ok_accounts _ _ _ _ Hok).
  - apply Hk.
  - apply Hk.
Qed.

(** The list of the account with the transaction in its place. *)
Lemma placed_list (tx : QueuedTx) (o : option nat) (q : TransactionQueue) (T : list QueuedTx) (l : list TimestampedTx) :
  let new := {| mTx := tx; mBroadcasted := false |} in let L := list_of (mAccountStates q) (tx_sourceID tx) in
  let L' := match o with Some i => <[i := new]> L | None => L ++ [new] end in
  ok q T [] -> offered q tx -> admitted q tx o -> l = match o with Some i => delete i L | None => L end ->
  L' ≡ₚ new :: l /\ (exists n, 1 <= n /\ contiguous n L') /\
  Forall (fun t => tx_sourceID (mTx t) = tx_sourceID tx /\ genuine (mTx t)) L'.
Proof.
  intros new L L' Hok [Hgt _ Hmax _] [_ _ Hseq Hfits _ _] ->.
  assert (Forall (fun t => tx_sourceID (mTx t) = tx_sourceID tx /\ genuine (mTx t)) L) as Hg.
  { apply Forall_forall. intros t Ht. by apply (ok_listed envelope q T []). }
  assert (exists n, 1 <= n /\ contiguous n L) as (n&Hn&Hc).
  { unfold L, list_of. destruct (mAccountStates q !! tx_sourceID tx) as [s|] eqn:Hs; [|by exists 1].
    by destruct (ok_accounts _ _ _ _ Hok _ _ Hs). }
  unfold fits in Hfits. fold L in Hfits. destruct o as [i|]; unfold L'.
  - destruct Hfits as (t&Ht&Hts). split; [|split].
    + rewrite insert_take_drop, delete_take_drop by (by eapply lookup_lt_Some). by rewrite <- Permutation_middle.
    + exists n. split; [done|]. intros j t' [(<-&<-&_)|[_ Hj]]%list_lookup_insert_Some; [|by apply Hc].
      apply Hc in Ht as [Ht _]. cbn [mTx new]. lia.
    + by apply Forall_insert.
  - split; [by rewrite <- Permutation_cons_append|]. split; [|apply Forall_app; split; [done|by apply Forall_singleton]].
    destruct (decide (L = [])) as [Hnil|Hne].
    + exists (tx_seqNum tx). split; [done|]. rewrite Hnil. intros j t Hj. apply list_lookup_singleton_Some in Hj as [-> <-]. cbn [mTx new]. lia.
    + exists n. split; [done|]. intros j t [Hj|[Hj Ht]]%lookup_app_Some; [by apply Hc|].
      apply list_lookup_singleton_Some in Ht as [Hlen <-]. specialize (Hfits Hne n Hc). cbn [mTx new]. lia.
Qed.

(** A transaction that gives way to [tx]: it had its sequence number. *)
Definition gave_way (tx : QueuedTx) (q q' : TransactionQueue) : Prop :=
  forall y, y ∈ queued (mAccountStates q) -> y ∈ queued (mAccountStates q') \/
    (tx_sourceID y = tx_sourceID tx /\ tx_seqNum y = tx_seqNum tx) \/
    isBanned (fullHash y) q' = true /\
      exists z, z ∈ queued (mAccountStates q) /\ evictable tx z /\ tx_sourceID z = tx_sourceID y /\ tx_seqNum z <= tx_seqNum y.

(** A transaction that is let in is in the queue, on the books, and within the size. *)
Definition pending (tx : QueuedTx) (q q' : TransactionQueue) : Prop :=
  tx ∈ queued (mAccountStates q') /\ gave_way tx q q' /\
  mLimiterOps (mTxQueueLimiter q') <= maxQueueSizeOps lv (mTxQueueLimiter q') /\
  Forall2 (⊆) (mBannedTransactions q) (mBannedTransactions q') /\ mPendingDepth q' = mPendingDepth q /\
  mBroadcastOpCarryover q' = mBroadcastOpCarryover q.

(** The evictable transactions of [room] are still there once the old one is gone. *)
Lemma room_left (tx : QueuedTx) (O T2 P R txs2 : list QueuedTx) :
  NoDup (P ++ R) -> P ++ R ≡ₚ O ++ T2 -> sublist txs2 (P ++ R) -> txs2 ≡ₚ T2 ->
  Forall (evictable tx) P -> Forall (fun y => tx_sourceID y = tx_sourceID tx) O -> Forall priced (P ++ R) ->
  exists R', sublist txs2 (P ++ R') /\ Forall priced R' /\ ops R' + ops P = ops T2.
Proof using Type.
  clear envelope lv. intros Hnd Hp Hsub Ht2 HP HO Hpr. apply sublist_app_r in Hsub as (l1&l2&->&H1&H2). exists l2.
  apply Forall_app in Hpr as [_ HprR]. pose proof Hnd as (HndP&Hdis&_)%NoDup_app. rewrite Forall_forall in HP, HO.
  assert (l1 ≡ₚ P) as Hl1.
  { symmetry. apply submseteq_length_Permutation; [|by apply sublist_length]. apply NoDup_submseteq; [done|]. intros x Hx.
    assert (x ∈ O ++ T2) as [HxO|HxT]%elem_of_app by (rewrite <- Hp; apply elem_of_app; by left).
    - destruct (HP x Hx) as [_ Hne]. by destruct Hne; apply HO.
    - rewrite <- Ht2 in HxT. apply elem_of_app in HxT as [|Hx2]; [done|]. destruct (Hdis x Hx). by eapply elem_of_sublist. }
  split; [by apply sublist_app|]. split.
  - rewrite Forall_forall in HprR |- *. intros x Hx. apply HprR. by eapply elem_of_sublist.
  - rewrite <- Ht2, ops_app, Hl1. lia.
Qed.

Lemma maxQueueSizeOps_bound (lim : TxQueueLimiter) :
  lawful lv -> is_u32 (mPoolLedgerMultiplier lim) -> 0 <= maxQueueSizeOps lv lim <= UINT32_MAX * UINT32_MAX.
Proof using Type.
  intros [Ho _ _] Hm. unfold maxQueueSizeOps. set (x := getLastMaxTxSetSizeOps lv) in *. set (y := mPoolLedgerMultiplier lim) in *.
  assert (0 <= x * y <= UINT32_MAX * UINT32_MAX) by (unfold_ints; nia). rewrite u64_id; [done|]. unfold_ints; lia.
Qed.

(** The limiter takes the new transaction. *)
Lemma admit_ok (tx : QueuedTx) (q : TransactionQueue) (T : list QueuedTx) :
  lawful lv -> ok q T [tx] -> mLimiterOps (mTxQueueLimiter q) + tx_numOps tx <= maxQueueSizeOps lv (mTxQueueLimiter q) ->
  exists lim, addTransaction lv tx (mTxQueueLimiter q) = Ok lim /\ ok (with_limiter lim q) (tx :: T) [] /\
    mLimiterOps lim <= maxQueueSizeOps lv lim.
Proof.
  intros Hlaw [Hb Hq Hac Hp Hd Hmin Hmul Hsz] Hle. destruct Hb as [Hpr Had Hfe Hfb Hob Htx Hso Hop]. unfold addTransaction. cbn zeta.
  destruct (Z.ltb_spec (maxQueueSizeOps lv (mTxQueueLimiter q)) (mLimiterOps (mTxQueueLimiter q) + tx_numOps tx)) as [|_]; [lia|].
  pose proof Hpr as [HpT Hpt]%Forall_app. rewrite Forall_singleton in Hpt.
  destruct (txs_emplace_ok (mTxsSeed (mTxQueueLimiter q)) tx (mTxs (mTxQueueLimiter q))) as (l'&->&Hl'&Hs'); [done|by rewrite Htx|done| |].
  { rewrite Htx. rewrite fmap_app in Had. apply NoDup_app in Had as (_&Hdis&_). intros Hin. apply (Hdis _ Hin). by left. }
  cbn [res_bind]. eexists. split; [done|].
  assert (T ++ [tx] ≡ₚ (tx :: T) ++ []) as HT by (rewrite app_nil_r; symmetry; apply Permutation_cons_append).
  pose proof (maxQueueSizeOps_bound _ Hlaw Hmul) as Hmax. split; [|cbn [mLimiterOps]; exact Hle]. rewrite HT in Hpr, Had, Hq, Hob. setoid_rewrite HT in Hfe. setoid_rewrite HT in Hfb.
  split; [|exact Hq|exact Hac|exact Hp|exact Hd|exact Hmin|exact Hmul|rewrite ops_cons; lia].
  split; [exact Hpr|exact Had|exact Hfe|exact Hfb|exact Hob| |exact Hs'|].
  - cbn. by rewrite Hl', Htx.
  - cbn [mTxQueueLimiter with_limiter mLimiterOps]. rewrite ops_cons. lia.
Qed.

(** What [tryAdd] does once the old transaction is gone. *)
Definition enter (tx : QueuedTx) (o : option nat) (q : TransactionQueue) : tq (AddResult * TransactionQueue) :=
  let q := with_account (tx_sourceID tx) (place_tx o tx (account_or_new (tx_sourceID tx) q)) q in
  let q := with_account (tx_feeSourceID tx) (add_fee (tx_feeBid tx) (account_or_new (tx_feeSourceID tx) q)) q in
  let? (ok, q) := evictTransactions (length (mTxs (mTxQueueLimiter q))) lv (tx_numOps tx) q in
  let? _ := ensure ok CannotEvict in
  let? lim := addTransaction lv tx (mTxQueueLimiter q) in
  Ok (ADD_STATUS_PENDING, broadcast_later (with_limiter lim q)).

Lemma ok_broadcast_later (q : TransactionQueue) (T E : list QueuedTx) : ok q T E -> ok (broadcast_later q) T E.
Proof. unfold broadcast_later. destruct (_ || _); [done|]. intros [[] ? ? ? ? ? ? ?]. by split. Qed.

Lemma enter_ok (tx : QueuedTx) (o : option nat) (q q2 : TransactionQueue) (T T2 : list QueuedTx) (l0 : list TimestampedTx) :
  lawful lv -> ok q T [] -> unbanned [] q -> offered q tx -> admitted q tx o -> ready tx o q q2 T2 l0 ->
  l0 = (match o with Some i => delete i (list_of (mAccountStates q) (tx_sourceID tx)) | None => list_of (mAccountStates q) (tx_sourceID tx) end) ->
  T ≡ₚ replaced q tx o ++ T2 ->
  exists q' T', enter tx o q2 = Ok (ADD_STATUS_PENDING, q') /\ ok q' T' [] /\ unbanned [] q' /\ pending tx q q'.
Proof.
  intros Hlaw Hok Hun Hof Had Hrd Hl0 HT. pose proof Had as [Hban Hp Hseq Hfits Hroom Hbal]. destruct Hun as [Hbn Hun].
  pose proof (ok_books _ _ _ _ Hok) as Hb. pose proof (ok_queued _ _ _ _ Hok) as Hq. rewrite app_nil_r in Hq.
  pose proof (bk_txs _ _ _ Hb) as Htx. pose proof (bk_priced _ _ _ Hb) as Hpr. rewrite app_nil_r in Hpr.
  pose proof (bk_addresses _ _ _ Hb) as Hnd. rewrite app_nil_r in Hnd.
  assert (Forall (fun y => tx_sourceID y = tx_sourceID tx /\ tx_seqNum y = tx_seqNum tx) (replaced q tx o)) as HO.
  { unfold replaced. unfold fits in Hfits. destruct o as [i|]; [|constructor]. destruct Hfits as (t&Ht&Hs). cbn [mbind option_bind].
    rewrite Ht. apply Forall_singleton. split; [|done]. apply (ok_listed envelope q T []); [done|]. by eapply list_elem_of_lookup_2. }
  destruct (placed_list tx o q T l0 Hok Hof Had Hl0) as (HL'&Hc'&Hg').
  destruct Hrd as [Hb2 Hh2 Ha2 Hq2 Hl2 Hls2 Hoth2 Hrest2 Hsub2 [Hmul2 Hmin2]].
  assert (mPendingDepth q2 = mPendingDepth q /\ mBannedTransactions q2 = mBannedTransactions q /\
    mBroadcastOpCarryover q2 = mBroadcastOpCarryover q) as (Hdep2&Hbn2&Hca2) by (by rewrite Hrest2).
  set (m4 := with_fee (tx_feeSourceID tx) (tx_feeBid tx) (<[tx_sourceID tx := place_tx o tx (account_or_new (tx_sourceID tx) q2)]> (mAccountStates q2))).
  assert (ok (with_accounts m4 q2) T2 [tx]) as Hok4.
  { pose proof (ok_size _ _ _ _ Hok) as Hsz. rewrite HT, ops_app in Hsz. rewrite HT in Hpr. apply Forall_app in Hpr as [HprO HprT].
    pose proof (ops_nonneg _ HprO). eapply place_ok with (l0 := l0); try exact Hh2; try exact Hc'; try exact Hg'.
    - exact Hp.
    - exact Hb2.
    - exact Ha2.
    - exact Hq2.
    - unfold place_tx. cbn [mTransactions]. rewrite Hl2. by destruct o.
    - exact HL'.
    - exact Hoth2.
    - rewrite Hdep2. apply (ok_depth _ _ _ _ Hok).
    - rewrite Hmin2. apply (ok_minFee _ _ _ _ Hok).
    - rewrite Hmul2. apply (ok_multiplier _ _ _ _ Hok).
    - lia.
    - rewrite (bk_fees _ _ _ Hb2), app_nil_r. rewrite (bk_fees _ _ _ Hb), app_nil_r, HT, fees_app in Hbal. lia.
    - intros Hin. apply (of_address _ _ Hof). rewrite Hq, HT, fmap_app. apply elem_of_app. by right. }
  assert (unbanned [] (with_accounts m4 q2)) as Hun4.
  { split; [cbn; by rewrite Hbn2|]. intros y Hy Hby. rewrite (isBanned_same _ q) in Hby by done. rewrite (ok_queued _ _ _ _ Hok4) in Hy.
    apply elem_of_app in Hy as [Hy| ->%list_elem_of_singleton]; [|congruence]. apply Hun; [|done]. rewrite Hq, HT. apply elem_of_app. by right. }
  destruct Hroom as (P&R&HPR&HevP&Hneed). unfold enter.
  change (with_account (tx_feeSourceID tx) _ _) with (with_accounts m4 q2). cbn zeta.
  destruct (room_left tx (replaced q tx o) T2 P R (mTxs (mTxQueueLimiter q2))) as (R'&HR'&HprR'&HopsR'); rewrite <- ?HPR; try done.
  { apply (NoDup_fmap_1 address). by rewrite Htx. } { by rewrite Htx. } { rewrite (bk_txs _ _ _ Hb2). done. }
  { eapply Forall_impl; [exact HO|naive_solver]. } { by rewrite Htx. }
  assert (ops R' + tx_numOps tx <= maxQueueSizeOps lv (mTxQueueLimiter q2)) as HR'max.
  { unfold maxQueueSizeOps in *. rewrite Hmul2. rewrite (bk_ops _ _ _ Hb), HT, ops_app in Hneed. lia. }
  destruct (evict_ok tx P R' (length (mTxs (mTxQueueLimiter (with_accounts m4 q2)))) (with_accounts m4 q2) T2)
    as (q5&T5&->&Hok5&Hun5&Hroom5&Hev5&Hevg5); [done|done|done|done|exact HR'max|exact HR'|done|].
  cbn [res_bind ensure]. destruct (admit_ok tx q5 T5 Hlaw Hok5 Hroom5) as (lim&->&Hok6&Hlim). cbn [res_bind].
  exists (broadcast_later (with_limiter lim q5)), (tx :: T5). split; [done|]. split; [by apply ok_broadcast_later|].
  assert (mAccountStates (broadcast_later (with_limiter lim q5)) = mAccountStates q5 /\
    mBannedTransactions (broadcast_later (with_limiter lim q5)) = mBannedTransactions q5 /\
    mTxQueueLimiter (broadcast_later (with_limiter lim q5)) = lim /\
    mPendingDepth (broadcast_later (with_limiter lim q5)) = mPendingDepth q5 /\
    mBroadcastOpCarryover (broadcast_later (with_limiter lim q5)) = mBroadcastOpCarryover q5) as (Hm6&Hb6&Hl6&Hd6&Hc6)
    by (unfold broadcast_later; by destruct (_ || _)).
  split; [unfold TxQueueDrops.unbanned; setoid_rewrite (isBanned_same _ _ _ Hb6); by rewrite Hm6, Hb6|].
  unfold pending, gave_way. setoid_rewrite (isBanned_same _ _ _ Hb6). rewrite Hm6, Hb6, Hl6, Hd6, Hc6.
  split; [rewrite (ok_queued _ _ _ _ Hok5); apply elem_of_app; right; by left|]. split; [|split; [done|split; [|split]]].
  - intros y Hy. rewrite Hq, HT in Hy. apply elem_of_app in Hy as [Hy|Hy].
    + right. left. rewrite Forall_forall in HO. by apply HO.
    + destruct (Hev5 y) as [|[Hby (z&Hz&Hez&Hzy)]]; [rewrite (ok_queued _ _ _ _ Hok4); apply elem_of_app; by left|by left|].
      right. right. split; [done|]. exists z. split; [|done]. rewrite (ok_queued _ _ _ _ Hok4) in Hz.
      apply elem_of_app in Hz as [Hz| ->%list_elem_of_singleton]; [rewrite Hq, HT; apply elem_of_app; by right|by destruct Hez as [_ []]].
  - rewrite <- Hbn2. apply (ev_bans _ _ Hevg5).
  - rewrite (ev_depth _ _ Hevg5). exact Hdep2.
  - rewrite (ev_carry _ _ Hevg5). exact Hca2.
Qed.

(** [tryAdd] never throws, and says [ADD_STATUS_PENDING] just when the transaction
    is in the queue. *)
Lemma tryAdd_ok (tx : QueuedTx) (q : TransactionQueue) (T : list QueuedTx) :
  lawful lv -> ok q T [] -> unbanned [] q -> offered q tx ->
  exists r q' T', tryAdd lv tx q = Ok (r, q') /\ ok q' T' [] /\ unbanned [] q' /\
    (r = ADD_STATUS_PENDING -> pending tx q q') /\ (r <> ADD_STATUS_PENDING -> dropped q q').
Proof.
  intros Hlaw Hok Hun Hof. unfold tryAdd. destruct (canAdd_ok tx q T Hlaw Hok Hun Hof) as (c&q1&->&Hc). cbn [res_bind].
  destruct c as [r|o].
  { destruct Hc as (Hr&[T' Hok']&Hun'&Hd). exists r, q1, T'. split; [done|]. split; [done|]. split; [done|]. by split. }
  destruct Hc as [-> Had]. cbn zeta.
  enough (exists q' T', (let? q2 := match o ≫= (fun i => mTransactions (account_or_new (tx_sourceID tx)
        (with_account (tx_sourceID tx) (account_or_new (tx_sourceID tx) q) q)) !! i) with
      | Some old => prepareDropTransaction (tx_sourceID tx) old (with_account (tx_sourceID tx) (account_or_new (tx_sourceID tx) q) q)
      | None => Ok (with_account (tx_sourceID tx) (account_or_new (tx_sourceID tx) q) q) end in enter tx o q2) =
      Ok (ADD_STATUS_PENDING, q') /\ ok q' T' [] /\ unbanned [] q' /\ pending tx q q') as (q'&T'&E'&Hok'&Hun'&Hpend).
  { exists ADD_STATUS_PENDING, q', T'. split; [exact E'|]. split; [done|]. split; [done|]. split; [done|congruence]. }
  pose proof (ad_fits _ _ _ Had) as Hfits. destruct o as [i|]; cbn [mbind option_bind].
  - destruct Hfits as (t&Ht&_). destruct (mAccountStates q !! tx_sourceID tx) as [s|] eqn:Hs; [|unfold list_of in Ht; by rewrite Hs in Ht].
    assert (account_or_new (tx_sourceID tx) q = s) as Hnew by (unfold account_or_new; by rewrite Hs).
    assert (with_account (tx_sourceID tx) s q = q) as Hid.
    { unfold with_account. rewrite insert_id by done. by destruct q. }
    rewrite Hnew, Hid, Hnew. assert (mTransactions s !! i = Some t) as Ht' by (unfold list_of in Ht; by rewrite Hs in Ht). rewrite Ht'.
    destruct (replace_ready tx i t q T Hok Ht) as (q2&T2&->&HT&Hrd). cbn [res_bind].
    apply (enter_ok tx (Some i) q q2 T T2 _ Hlaw Hok Hun Hof Had Hrd); [done|]. unfold replaced. cbn [mbind option_bind]. by rewrite Ht.
  - cbn [res_bind]. by apply (enter_ok tx None q _ T T _ Hlaw Hok Hun Hof Had (append_ready tx q T Hok)).
Qed.
End add.
