(* ===== verification/TxQueueFlood.v ===== *)
(** * The transaction queue: flooding

    [broadcastSome] and [rebroadcast] of [src/herder/TransactionQueue.cpp]: every
    round of the loop takes the best transaction that waits, and the counters of
    the operations to broadcast follow the flags. *)
From stdpp Require Import base tactics numbers list sorting gmap sets relations.
From Stdlib Require Import ZArith Lia Bool SpecFloat.
From S2P Require Import Prelude Numeric Float64 OfferExchange LedgerEntries Balances Fees Containers PaymentLoops TransactionQueue TxQueueTheorems TxQueueDrops.

Open Scope Z_scope.
Open Scope kin_scope.

(** The flags of an account change, and the operations to broadcast with them. *)
Record flagged (s s' : AccountState) : Prop := {
  fl_total : mTotalFees s' = mTotalFees s;
  fl_ops : mQueueSizeOps s' = mQueueSizeOps s;
  fl_age : mAge s' = mAge s;
  fl_txs : txs_of (mTransactions s') = txs_of (mTransactions s);
  fl_bops : mBroadcastQueueOps s' = bops (mTransactions s');
}.

(** The queue with other flags. *)
Record reflagged (q q' : TransactionQueue) : Prop := {
  rf_accounts : forall a, option_Forall2 flagged (mAccountStates q !! a) (mAccountStates q' !! a);
  rf_rest : q' = with_damping (mArbitrageFloodDamping q') (with_accounts (mAccountStates q') q);
}.

Lemma txs_of_lookup (l : list TimestampedTx) (i : nat) (tx : QueuedTx) :
  txs_of l !! i = Some tx <-> exists t, l !! i = Some t /\ mTx t = tx.
Proof. unfold txs_of. rewrite list_lookup_fmap. destruct (l !! i); simpl; naive_solver. Qed.

Lemma flagged_lookup (s s' : AccountState) (i : nat) (t' : TimestampedTx) :
  txs_of (mTransactions s') = txs_of (mTransactions s) -> mTransactions s' !! i = Some t' ->
  exists t, mTransactions s !! i = Some t /\ mTx t = mTx t'.
Proof. intros Hl Ht. apply txs_of_lookup. rewrite <- Hl. apply txs_of_lookup. by exists t'. Qed.

Lemma flagged_list (q q' : TransactionQueue) (a : AccountID) :
  reflagged q q' -> txs_of (list_of (mAccountStates q') a) = txs_of (list_of (mAccountStates q) a).
Proof. intros Hr. unfold list_of. destruct (rf_accounts _ _ Hr a) as [s s' Hf|]; [apply Hf|done]. Qed.

Section queue.
Context (envelope : Z -> TransactionFrameBase).
Notation genuine := (genuine envelope).
Notation ok := (ok envelope).

Lemma ok_flagged (q : TransactionQueue) (T E : list QueuedTx) (a : AccountID) (s : AccountState) :
  ok q T E -> mAccountStates q !! a = Some s -> flagged s s.
Proof. intros Hok Hs. destruct (ok_accounts _ _ _ _ Hok _ _ Hs) as [_ _ [_ Hb] _ _]. by split. Qed.

Lemma reflagged_refl (q : TransactionQueue) (T E : list QueuedTx) : ok q T E -> reflagged q q.
Proof.
  intros Hok. split; [|by destruct q]. intros a. destruct (mAccountStates q !! a) as [s|] eqn:Hs; constructor. by eapply ok_flagged.
Qed.

Lemma reflagged_trans (q1 q2 q3 : TransactionQueue) : reflagged q1 q2 -> reflagged q2 q3 -> reflagged q1 q3.
Proof using Type.
  intros [Ha1 Hr1] [Ha2 Hr2]. split; [|rewrite Hr2 at 1; by rewrite Hr1]. intros a. specialize (Ha1 a). specialize (Ha2 a).
  destruct Ha1 as [s1 s2 [Ht1 Ho1 Hg1 Hx1 Hb1]|]; inversion Ha2 as [s2' s3 [Ht2 Ho2 Hg2 Hx2 Hb2] Heq|]; subst; constructor.
  split; congruence.
Qed.

Lemma reflagged_ok (q q' : TransactionQueue) (T E : list QueuedTx) :
  ok q T E -> reflagged q q' -> ok q' T E /\ queued (mAccountStates q') ≡ₚ queued (mAccountStates q).
Proof.
  intros [Hb Hq Hac Hp Hd Hm Hmu Hsz] Hr. pose proof Hr as [Ha Hrest].
  assert (queued (mAccountStates q') ≡ₚ queued (mAccountStates q)) as Hqq.
  { apply queued_txs. intros a. by apply flagged_list. }
  split; [|done]. assert (mPendingDepth q' = mPendingDepth q /\ mTxQueueLimiter q' = mTxQueueLimiter q) as [Hd' Hl'] by (by rewrite Hrest).
  split; rewrite ?Hd', ?Hl'; try done.
  - assert (books (with_accounts (mAccountStates q') q) T E) as [].
    { apply books_accounts; [done|]. intros a. unfold total_of. by destruct (Ha a) as [s s' []|]. }
    rewrite Hrest. by split.
  - by rewrite Hqq.
  - intros a s' Hs'. pose proof (Ha a) as Haa. rewrite Hs' in Haa. inversion Haa as [s s0 [Ht Ho Hg Hx Hbo] Hs Heq|]; subst.
    destruct (Hac a s (eq_sym Hs)) as [Hgen (n&Hn&Hc) [Hso Hsb] Hage Hidle]. split.
    + apply Forall_lookup. intros i t' Ht'. destruct (flagged_lookup _ _ _ _ Hx Ht') as (t&Hti&<-).
      rewrite Forall_lookup in Hgen. by eapply Hgen.
    + exists n. split; [done|]. intros i t' Ht'. destruct (flagged_lookup _ _ _ _ Hx Ht') as (t&Hti&<-). by apply Hc.
    + split; [|done]. by rewrite Ho, Hso, Hx.
    + by rewrite Hg.
    + intros Hnil. rewrite Hg. apply Hidle. rewrite Hnil in Hx. by apply (eq_sym), fmap_nil_inv in Hx.
  - intros a s' Hs'. pose proof (Ha a) as Haa. rewrite Hs' in Haa. inversion Haa as [s s0 [Ht Ho Hg Hx Hbo] Hs Heq|]; subst.
    rewrite Ht. destruct (Hp a s (eq_sym Hs)) as [Hne|]; [left|by right]. intros Hnil. apply Hne. rewrite Hnil in Hx. by apply (eq_sym), fmap_nil_inv in Hx.
Qed.

(** Marking a transaction that waits. *)
Lemma bops_mark (l : list TimestampedTx) : forall (i : nat) (t : TimestampedTx),
  l !! i = Some t -> mBroadcasted t = false ->
  bops (<[i := {| mTx := mTx t; mBroadcasted := true |}]> l) = bops l - tx_numOps (mTx t) /\
  txs_of (<[i := {| mTx := mTx t; mBroadcasted := true |}]> l) = txs_of l.
Proof using Type.
  induction l as [|x l IH]; intros i t Hi Hf; [done|]. destruct i as [|i]; simpl in Hi.
  - injection Hi as ->. simpl. rewrite !bops_cons, Hf. cbn [mBroadcasted]. split; [lia|done].
  - destruct (IH i t Hi Hf) as [H1 H2]. simpl. rewrite !bops_cons, H1. split; [lia|]. cbn [txs_of fmap list_fmap]. f_equal. exact H2.
Qed.

Lemma mark_ok (q : TransactionQueue) (T E : list QueuedTx) (a : AccountID) (i : nat) (t : TimestampedTx) (s : AccountState) :
  ok q T E -> mAccountStates q !! a = Some s -> mTransactions s !! i = Some t -> mBroadcasted t = false ->
  reflagged q (with_account a (mark_broadcasted i t s) q).
Proof.
  intros Hok Hs Ht Hf. split; [|by destruct q]. intros b. cbn. destruct (decide (a = b)) as [<-|Hne].
  2:{ rewrite lookup_insert_ne by done. apply (rf_accounts _ _ (reflagged_refl _ _ _ Hok)). }
  rewrite lookup_insert_eq, Hs. constructor. destruct (bops_mark _ _ _ Ht Hf) as [Hb Hx].
  destruct (ok_accounts _ _ _ _ Hok _ _ Hs) as [_ _ [_ Hbo] _ _]. split; [done|done|done|exact Hx|].
  cbn [mBroadcastQueueOps mTransactions mark_broadcasted]. rewrite Hb, Hbo.
  assert (Forall priced (txs_of (mTransactions s)) /\ ops (txs_of (mTransactions s)) <= UINT64_MAX) as [Hpr Hops].
  { pose proof (bk_priced _ _ _ (ok_books _ _ _ _ Hok)) as Hpr. pose proof (bk_ops_bound _ _ _ (ok_books _ _ _ _ Hok)) as Ho.
    rewrite <- (ok_queued _ _ _ _ Hok), (queued_delete _ a) in Hpr, Ho. unfold list_of in Hpr, Ho. rewrite Hs in Hpr, Ho.
    apply Forall_app in Hpr as [Hpr Hpr']. split; [done|]. rewrite ops_app in Ho. pose proof (ops_nonneg _ Hpr'). lia. }
  assert (0 <= bops (<[i:={| mTx := mTx t; mBroadcasted := true |}]> (mTransactions s)) <= ops (txs_of (mTransactions s))) as Hbnd.
  { rewrite <- Hx. apply bops_bounds. by rewrite Hx. }
  rewrite Hb in Hbnd. apply u64_id. unfold_ints; lia.
Qed.

(** ** The trackers *)

Definition waiting (q : TransactionQueue) (tr : Tracker) : Prop :=
  exists t, tracker_tx q tr = Some t /\ mBroadcasted t = false.

Lemma tracker_tx_spec (q : TransactionQueue) (tr : Tracker) (t : TimestampedTx) :
  tracker_tx q tr = Some t <-> exists s, mAccountStates q !! fst tr = Some s /\ mTransactions s !! snd tr = Some t.
Proof using Type. unfold tracker_tx. destruct (mAccountStates q !! fst tr); simpl; naive_solver. Qed.

Lemma skip_spec (l : list TimestampedTx) : forall (i : nat),
  match skipToFirstNotBroadcasted l i with
  | Some j => (i <= j)%nat /\ exists t, l !! (j - i)%nat = Some t /\ mBroadcasted t = false
  | None => bops l = 0
  end.
Proof using Type.
  induction l as [|t l IH]; intros i; simpl; [done|]. destruct (mBroadcasted t) eqn:Hf.
  - specialize (IH (S i)). destruct (skipToFirstNotBroadcasted l (S i)) as [j|].
    + destruct IH as (Hj&t'&Ht'&Hf'). split; [lia|]. exists t'. split; [|done]. by replace (j - i)%nat with (S (j - S i)) by lia.
    + by rewrite bops_cons, Hf.
  - split; [done|]. exists t. by rewrite Nat.sub_diag.
Qed.

Lemma skip_from_waiting (q : TransactionQueue) (a : AccountID) (s : AccountState) (i j : nat) :
  mAccountStates q !! a = Some s -> skip_from i s = Some j -> (i <= j)%nat /\ waiting q (a, j).
Proof using Type.
  intros Hs Hj. unfold skip_from in Hj. pose proof (skip_spec (drop i (mTransactions s)) i) as Hsk. rewrite Hj in Hsk.
  destruct Hsk as (Hij&t&Ht&Hf). split; [done|]. exists t. split; [|done]. apply tracker_tx_spec. exists s. split; [done|].
  rewrite lookup_drop in Ht. cbn. by replace j with (i + (j - i))%nat by lia.
Qed.

(** The places the trackers still have before them: the fuel of the loop. *)
Definition ahead (q : TransactionQueue) (iters : list Tracker) : nat :=
  sum_list ((fun tr => length (list_of (mAccountStates q) (fst tr)) - snd tr)%nat <$> iters).

Lemma trackers_ok (q : TransactionQueue) (T E : list QueuedTx) (l : list (AccountID * AccountState)) :
  ok q T E -> (forall a s, (a, s) ∈ l -> mAccountStates q !! a = Some s) ->
  exists iters total, trackers l = Ok (iters, total) /\ sublist iters.*1 l.*1 /\ Forall (waiting q) iters /\
    (ahead q iters <= sum_list ((fun s => length (mTransactions s)) <$> l.*2))%nat.
Proof.
  intros Hok. induction l as [|[a s] l IH]; intros Hl; simpl; [by exists [], 0|].
  destruct IH as (iters&total&->&Hsub&Hw&Ha); [intros a' s' Hin; apply Hl; by right|]. cbn [res_bind].
  assert (mAccountStates q !! a = Some s) as Hs by (apply Hl; by left).
  destruct (Z.eqb_spec (mBroadcastQueueOps s) 0) as [_|Hne].
  - exists iters, total. split; [done|]. split; [by apply sublist_cons|]. split; [done|]. exact (Nat.le_trans _ _ _ Ha (Nat.le_add_l _ _)).
  - destruct (skip_from 0 s) as [i|] eqn:Hi.
    + destruct (skip_from_waiting q a s 0 i Hs Hi) as [_ Hwi]. eexists _, _. split; [done|]. split; [by apply sublist_skip|].
      split; [by constructor|]. assert (list_of (mAccountStates q) a = mTransactions s) as Hls by (unfold list_of; by rewrite Hs).
      change (ahead q ((a, i) :: iters)) with (length (list_of (mAccountStates q) a) - i + ahead q iters)%nat. rewrite Hls.
      apply Nat.add_le_mono; [apply Nat.le_sub_l|exact Ha].
    + exfalso. unfold skip_from in Hi. pose proof (skip_spec (drop 0 (mTransactions s)) 0) as Hsk. rewrite Hi, drop_0 in Hsk.
      destruct (ok_accounts _ _ _ _ Hok _ _ Hs) as [_ _ [_ Hb] _ _]. congruence.
Qed.

Lemma waiting_priced (q : TransactionQueue) (T E : list QueuedTx) (tr : Tracker) (t : TimestampedTx) :
  ok q T E -> tracker_tx q tr = Some t -> priced (mTx t) /\ genuine (mTx t).
Proof.
  intros Hok (s&Hs&Ht)%tracker_tx_spec. assert (mTx t ∈ queued (mAccountStates q)) as Hin.
  { apply elem_of_queued. exists (fst tr), s, t. split; [done|]. split; [by eapply list_elem_of_lookup_2|done]. }
  split; [|by destruct (ok_genuine envelope q T E (mTx t) Hok Hin)].
  pose proof (bk_priced _ _ _ (ok_books _ _ _ _ Hok)) as Hpr. rewrite <- (ok_queued _ _ _ _ Hok), Forall_forall in Hpr. by apply Hpr.
Qed.

(** The top of the priority queue: some tracker, and the others. *)
Lemma top_tracker_ok (q : TransactionQueue) (T E : list QueuedTx) (l : list Tracker) : forall (best : Tracker),
  ok q T E -> Forall (waiting q) (best :: l) ->
  exists top rest, top_tracker q best l = Ok (top, rest) /\ top :: rest ≡ₚ best :: l.
Proof.
  induction l as [|tr l IH]; intros best Hok Hw; simpl; [by exists best, []|].
  apply Forall_cons in Hw as [Hb Hw]. apply Forall_cons in Hw as [Ht Hw]. unfold tracker_less.
  destruct Hb as (x&Hx&Hfx). destruct Ht as (y&Hy&Hfy). rewrite Hx, Hy.
  destruct (lessThanXored_ok (mBroadcastSeed q) (mTx x) (mTx y)) as (b&->&_); [by eapply waiting_priced|by eapply waiting_priced|].
  cbn [res_bind]. destruct b.
  - destruct (IH tr Hok) as (top&rest&->&Hp); [constructor; [by exists y|done]|]. cbn [res_bind]. exists top, (best :: rest).
    split; [done|]. rewrite Permutation_swap, Hp. done.
  - destruct (IH best Hok) as (top&rest&->&Hp); [constructor; [by exists x|done]|]. cbn [res_bind]. exists top, (tr :: rest).
    split; [done|]. rewrite Permutation_swap, Hp. apply Permutation_swap.
Qed.

#[export] Instance ahead_Permutation (q : TransactionQueue) : Proper ((≡ₚ) ==> eq) (ahead q).
Proof using Type. intros l1 l2 Hl. unfold ahead. by rewrite Hl. Qed.

Lemma ahead_reflagged (q q' : TransactionQueue) (l : list Tracker) : reflagged q q' -> ahead q' l = ahead q l.
Proof using Type.
  intros Hr. unfold ahead. f_equal. apply list_fmap_ext. intros i [a j] _. cbn. f_equal.
  rewrite <- !(length_fmap mTx). f_equal. by apply flagged_list.
Qed.

(** ** The loop *)

Section flood.
Context (ov : Overlay).

(** What the loop bans has path payments that make a loop. *)
Definition damped (tx : QueuedTx) : Prop :=
  genuine tx /\ 0 <= FLOOD_ARB_TX_BASE_ALLOWANCE ov /\
  exists a b, hop (tf_operations (inner_frame (frame tx))) a b /\ rtc (hop (tf_operations (inner_frame (frame tx)))) b a.

Lemma dampArbitrage_ok (tx : QueuedTx) (q : TransactionQueue) :
  genuine tx -> exists allowTx m, dampArbitrage ov tx q = Ok (allowTx, with_damping m q) /\ (allowTx = false -> damped tx).
Proof.
  intros Hg. unfold dampArbitrage. assert (with_damping (mArbitrageFloodDamping q) q = q) as Hid by (by destruct q).
  destruct (Z.leb_spec 0 (FLOOD_ARB_TX_BASE_ALLOWANCE ov)) as [Hal|_]; [|exists true, (mArbitrageFloodDamping q); by rewrite Hid].
  destruct (loops_ok (tf_operations (inner_frame (frame tx)))) as (ret&->&_&Hret). cbn [res_err res_bind].
  destruct ret as [|[a b] ret]; [exists true, (mArbitrageFloodDamping q); by rewrite Hid|].
  destruct (allowArbitrage _ _ _ _) as [allowTx m]. exists allowTx, m. split; [done|]. intros _. split; [done|]. split; [done|].
  exists a, b. destruct (proj1 (Hret a b)) as (H1&H2&_); [by left|done].
Qed.

Lemma damping_reflagged (m : Damping) (q : TransactionQueue) (T E : list QueuedTx) : ok q T E -> reflagged q (with_damping m q) /\ ok (with_damping m q) T E.
Proof.
  intros Hok. assert (reflagged q (with_damping m q)) as Hr.
  { split; [|by destruct q]. intros a. apply (rf_accounts _ _ (reflagged_refl _ _ _ Hok)). }
  split; [done|]. by apply (reflagged_ok q).
Qed.

Lemma broadcastTx_ok (q : TransactionQueue) (T : list QueuedTx) (tr : Tracker) (t : TimestampedTx) :
  ok q T [] -> tracker_tx q tr = Some t -> mBroadcasted t = false ->
  exists st q1, broadcastTx ov tr t q = Ok (st, q1) /\ ok q1 T [] /\ reflagged q q1 /\
    (st = BROADCAST_STATUS_SKIPPED -> damped (mTx t)) /\
    forall tr', fst tr' <> fst tr -> tracker_tx q1 tr' = tracker_tx q tr'.
Proof.
  intros Hok Ht Hf. destruct (waiting_priced _ _ _ _ _ Hok Ht) as [_ Hg]. apply tracker_tx_spec in Ht as (s&Hs&Ht). unfold broadcastTx. rewrite Hf.
  destruct (dampArbitrage_ok (mTx t) q Hg) as (allowTx&m&->&Hdamp). cbn [res_bind]. cbn [mAccountStates with_damping]. rewrite Hs.
  destruct (damping_reflagged m q T [] Hok) as [Hr0 Hok0].
  pose proof (mark_ok (with_damping m q) T [] (fst tr) (snd tr) t s Hok0 Hs Ht Hf) as Hr. eexists _, _. split; [done|].
  split; [by apply (reflagged_ok (with_damping m q))|]. split; [by eapply reflagged_trans|]. split.
  - destruct allowTx; [by destruct (broadcastMessage ov (mTx t))|]. intros _. by apply Hdamp.
  - intros tr' Hne. unfold tracker_tx. cbn. by rewrite lookup_insert_ne.
Qed.

Lemma broadcast_loop_ok (fuel : nat) : forall (q : TransactionQueue) (T : list QueuedTx) (opsToFlood total : Z)
    (iters : list Tracker) (banning : list QueuedTx),
  ok q T [] -> NoDup iters.*1 -> Forall (waiting q) iters -> (ahead q iters <= fuel)%nat -> Forall damped banning -> 0 <= opsToFlood ->
  exists o t b q', broadcast_loop ov fuel opsToFlood total iters banning q = Ok (o, t, b, q') /\
    ok q' T [] /\ reflagged q q' /\ Forall damped b /\ 0 <= o <= opsToFlood.
Proof.
  induction fuel as [|fuel IH]; intros q T ops' total iters banning Hok Hnd Hw Hfuel Hb Ho; simpl.
  all: destruct (Z.eqb_spec ops' 0) as [->|Hne];
    [exists 0, total, banning, q; split; [done|]; split; [done|]; split; [by eapply reflagged_refl|done]|].
  all: destruct iters as [|it its];
    [exists ops', total, banning, q; split; [done|]; split; [done|]; split; [by eapply reflagged_refl|]; split; [done|lia]|].
  { exfalso. apply Forall_cons in Hw as [(t&Ht&_) _]. apply tracker_tx_spec in Ht as (s&Hs&Ht). apply lookup_lt_Some in Ht.
    change (ahead q (it :: its)) with (length (list_of (mAccountStates q) (fst it)) - snd it + ahead q its)%nat in Hfuel.
    assert (list_of (mAccountStates q) (fst it) = mTransactions s) as Hls by (unfold list_of; by rewrite Hs). rewrite Hls in Hfuel. lia. }
  destruct (top_tracker_ok q T [] its it Hok Hw) as (tr&rest&->&Hp). cbn [res_bind].
  rewrite <- Hp in Hw, Hnd, Hfuel. apply Forall_cons in Hw as [(cur&Hcur&Hf) Hw]. rewrite Hcur, Hf. cbn [negb ensure res_bind].
  destruct (waiting_priced _ _ _ _ _ Hok Hcur) as [[_ Hops] Hgen].
  destruct (Z.ltb_spec ops' (tx_numOps (mTx cur))) as [_|Hle].
  { exists ops', total, banning, q. split; [done|]. split; [done|]. split; [by eapply reflagged_refl|]. split; [done|lia]. }
  destruct (broadcastTx_ok q T tr cur Hok Hcur Hf) as (st&q1&->&Hok1&Hr1&Hdamp&Hother). cbn [res_bind].
  rewrite fmap_cons in Hnd. apply NoDup_cons in Hnd as [Hnin Hnd].
  assert (Forall (waiting q1) rest) as Hw1.
  { rewrite Forall_forall in Hw |- *. intros tr' Hin. destruct (Hw tr' Hin) as (t&Ht&Hft). exists t. rewrite Hother; [done|].
    intros Heq. apply Hnin. rewrite <- Heq. by apply list_elem_of_fmap_2. }
  pose proof Hcur as (s&Hs&Ht)%tracker_tx_spec. pose proof (lookup_lt_Some _ _ _ Ht) as Hlen.
  assert (list_of (mAccountStates q) (fst tr) = mTransactions s) as Hls by (unfold list_of; by rewrite Hs).
  change (ahead q (tr :: rest)) with (length (list_of (mAccountStates q) (fst tr)) - snd tr + ahead q rest)%nat in Hfuel. rewrite Hls in Hfuel.
  assert (ahead q1 rest <= fuel)%nat as Hrest by (rewrite (ahead_reflagged q q1) by done; lia).
  set (next := match mAccountStates q1 !! fst tr ≫= skip_from (S (snd tr)) with Some i => (fst tr, i) :: rest | None => rest end).
  assert (NoDup next.*1 /\ Forall (waiting q1) next /\ (ahead q1 next <= fuel)%nat) as (Hnd'&Hw'&Hfuel').
  { unfold next. destruct (mAccountStates q1 !! fst tr) as [s1|] eqn:Hs1; [|done]. cbn [mbind option_bind].
    destruct (skip_from (S (snd tr)) s1) as [j|] eqn:Hj; [|done]. destruct (skip_from_waiting q1 _ s1 _ _ Hs1 Hj) as [Hij Hwj].
    split; [by apply NoDup_cons|]. split; [by constructor|].
    change (ahead q1 ((fst tr, j) :: rest)) with (length (list_of (mAccountStates q1) (fst tr)) - j + ahead q1 rest)%nat.
    rewrite (ahead_reflagged q q1) by done.
    assert (length (list_of (mAccountStates q1) (fst tr)) = length (mTransactions s)) as ->; [|lia].
    rewrite <- Hls, <- !(length_fmap mTx). f_equal. by apply flagged_list. }
  clearbody next.
  enough (exists o t b q', match st with
      | BROADCAST_STATUS_SUCCESS => broadcast_loop ov fuel (ops' - tx_numOps (mTx cur)) (u64 (total - tx_numOps (mTx cur))) next banning q1
      | BROADCAST_STATUS_ALREADY => broadcast_loop ov fuel ops' total next banning q1
      | BROADCAST_STATUS_SKIPPED => broadcast_loop ov fuel ops' total rest (banning ++ [mTx cur]) q1 end = Ok (o, t, b, q') /\
    ok q' T [] /\ reflagged q1 q' /\ Forall damped b /\ 0 <= o <= ops') as (o&t&b&q'&HE&Hok'&Hr'&Hb'&Ho').
  { exists o, t, b, q'. split; [rewrite <- HE; by destruct st|]. split; [done|]. split; [by eapply reflagged_trans|done]. }
  destruct st.
  - by apply IH.
  - destruct (IH q1 T (ops' - tx_numOps (mTx cur)) (u64 (total - tx_numOps (mTx cur))) next banning) as (o&t&b&q'&HE&H1&H2&H3&H4); try done; [lia|].
    exists o, t, b, q'. split; [done|]. split; [done|]. split; [done|]. split; [done|lia].
  - apply IH; try done. apply Forall_app. split; [done|]. apply Forall_singleton. by apply Hdamp.
Qed.

(** The configuration gives a number of operations for a period. *)
Definition floods (maxOps : Z) : Prop :=
  exists ops, opsToFloodLedger ov maxOps = Ok ops /\ 0 <= FLOOD_TX_PERIOD_MS ov <= INT32_MAX /\
    0 < getExpectedLedgerCloseTime ov <= INT32_MAX /\
    cdiv (ops * FLOOD_TX_PERIOD_MS ov) (getExpectedLedgerCloseTime ov * 1000) <= INT64_MAX - (MAX_OPS_PER_TX + 1).

Lemma opsToFloodLedger_range (maxOps ops : Z) : opsToFloodLedger ov maxOps = Ok ops -> 0 <= ops <= INT64_MAX.
Proof using Type.
  unfold opsToFloodLedger. set (d := f64_mul _ _). destruct (SFleb (S754_zero false) d) eqn:Hle; [|done]. cbn [ensure res_bind].
  destruct (isRepresentableAsInt64 d); [|done]. cbn [ensure res_bind]. destruct (f64_to_i64 d) as [v|] eqn:Hv; [|done]. intros [= <-].
  unfold f64_to_i64 in Hv. destruct (f64_trunc d) as [w|] eqn:Hw; [|done]. destruct (_ && _) eqn:Hr in Hv; [|done]. injection Hv as <-. bprop.
  split; [|done]. destruct d as [s|s| |s m e]; cbn in Hw; try done; [injection Hw as <-; done|].
  destruct s; [by cbn in Hle|]. injection Hw as <-. destruct (0 <=? e) eqn:He; bprop.
  - apply Z.mul_nonneg_nonneg; [lia|]. apply Z.pow_nonneg. lia.
  - apply Z.div_pos; [lia|]. apply Z.pow_pos_nonneg; lia.
Qed.

Lemma getMaxOps_ok (maxOps : Z) (q : TransactionQueue) :
  floods maxOps -> 0 <= mBroadcastOpCarryover q <= MAX_OPS_PER_TX + 1 ->
  exists n, getMaxOpsToFloodThisPeriod ov maxOps q = Ok n /\ 0 <= n.
Proof using Type.
  intros (ops&Ho&Hp&Hc&Hq) Hcar. pose proof (opsToFloodLedger_range _ _ Ho) as Hr. unfold getMaxOpsToFloodThisPeriod. rewrite Ho. cbn [res_bind].
  pose proof (quotient_nonneg ROUND_UP (ops * FLOOD_TX_PERIOD_MS ov) (getExpectedLedgerCloseTime ov * 1000)) as Hn. cbn [quotient] in Hn.
  specialize (Hn ltac:(nia) ltac:(lia)). unfold MAX_OPS_PER_TX in *.
  rewrite bigDivideOrThrow_fits by (cbn [quotient]; unfold_ints; lia). cbn [res_err res_bind quotient].
  rewrite to_i64_small by lia. destruct (Z.leb_spec 0 (mBroadcastOpCarryover q + cdiv (ops * FLOOD_TX_PERIOD_MS ov) (getExpectedLedgerCloseTime ov * 1000))); [|lia].
  eexists. split; [done|lia].
Qed.

(** [broadcastSome] never throws and its loop ends: only what was damped, and what
    follows it, leaves the queue. *)
Lemma broadcastSome_ok (maxOps : Z) (q : TransactionQueue) (T : list QueuedTx) :
  ok q T [] -> unbanned [] q -> floods maxOps -> 0 <= mBroadcastOpCarryover q <= MAX_OPS_PER_TX + 1 ->
  exists more q' T', broadcastSome ov maxOps q = Ok (more, q') /\ ok q' T' [] /\ unbanned [] q' /\
    0 <= mBroadcastOpCarryover q' <= MAX_OPS_PER_TX + 1 /\ mPendingDepth q' = mPendingDepth q /\
    Forall2 (⊆) (mBannedTransactions q) (mBannedTransactions q') /\
    forall tx, tx ∈ queued (mAccountStates q) -> tx ∈ queued (mAccountStates q') \/
      isBanned (fullHash tx) q' = true /\ exists b, damped b /\ tx_sourceID b = tx_sourceID tx /\ tx_seqNum b <= tx_seqNum tx.
Proof.
  intros Hok [Hbn Hun] Hfl Hcar. unfold broadcastSome. destruct (getMaxOps_ok maxOps q Hfl Hcar) as (n&->&Hops). cbn [res_bind].
  destruct (trackers_ok q T [] (map_to_list (mAccountStates q)) Hok) as (iters&total&->&Hsub&Hw&Ha); [by intros a s ?%elem_of_map_to_list|].
  cbn [res_bind]. destruct (broadcast_loop_ok (queue_length q) q T n total iters [])
    as (o&t&b&q1&->&Hok1&Hr1&Hb&Ho); try done.
  { eapply sublist_NoDup; [|exact Hsub]. apply NoDup_fst_map_to_list. }
  cbn [res_bind]. destruct (reflagged_ok q q1 T [] Hok Hr1) as [_ Hq1].
  assert (mBannedTransactions q1 = mBannedTransactions q /\ mPendingDepth q1 = mPendingDepth q) as [Hbn1 Hd1] by (by rewrite (rf_rest _ _ Hr1)).
  destruct (ban_ok envelope b q1 T []) as (q2&T2&->&Hok2&Hdr2&Hun2&Hg2&_&_).
  - done.
  - split; [by rewrite Hbn1|]. intros tx Hin Hban. apply Hun; [by rewrite <- Hq1|]. by rewrite <- (isBanned_same _ q q1).
  - eapply Forall_impl; [exact Hb|]. by intros x [].
  - by intros x e _ ?%not_elem_of_nil.
  - cbn [res_bind]. eexists _, _, T2. split; [done|]. split; [destruct Hok2 as [[] ? ? ? ? ? ? ?]; by split|]. split; [done|].
    split; [cbn [mBroadcastOpCarryover with_waiting]; unfold MAX_OPS_PER_TX; lia|]. split; [cbn; by rewrite (dp_rest _ _ Hdr2), <- Hd1|].
    split; [cbn; rewrite <- Hbn1; apply (dp_bans _ _ Hdr2)|]. intros tx Hin. rewrite <- Hq1 in Hin.
    destruct (Hg2 tx Hin) as [|[Hban (y&Hy&Hy')]]; [by left|right]. split; [done|]. exists y. split; [|done].
    rewrite Forall_forall in Hb. by apply Hb.
Qed.
End flood.

(** ** Flooding again *)

Lemma rebroadcast_flagged (q : TransactionQueue) (T E : list QueuedTx) :
  ok q T E -> reflagged q (with_accounts (rebroadcast_account <$> mAccountStates q) q).
Proof.
  intros Hok. split; [|done]. intros a. cbn. rewrite lookup_fmap. destruct (mAccountStates q !! a) as [s|] eqn:Hs; constructor.
  destruct (ok_accounts _ _ _ _ Hok _ _ Hs) as [_ _ [Ho _] _ _]. split; try done; cbn [mTransactions mBroadcastQueueOps rebroadcast_account].
  - unfold txs_of. rewrite <- list_fmap_compose. by apply list_fmap_ext.
  - rewrite Ho. unfold ops, bops, txs_of. f_equal. rewrite <- !list_fmap_compose. by apply list_fmap_ext.
Qed.
End queue.
