(* ===== verification/TxQueueEvents.v ===== *)
(** * The transaction queue: every sequence of events

    The events of [src/herder/TransactionQueue.cpp] in any order: what the queue
    promises to the herder. *)
From stdpp Require Import base tactics numbers list sorting gmap sets.
From Stdlib Require Import ZArith Lia Bool.
From S2P Require Import Prelude Numeric Float64 OfferExchange LedgerEntries Balances Fees Containers TransactionQueue TxQueueTheorems TxQueueDrops TxQueueAdd TxQueueFlood.

Open Scope Z_scope.
Open Scope kin_scope.

(** ** Events *)

(** What the herder, the overlay and the timer do with the queue. *)
Inductive queue_event :=
  | EvAdd (lv : LedgerView) (tx : QueuedTx)
  | EvBan (txs : list QueuedTx)
  | EvRemoveApplied (txs : list QueuedTx)
  | EvShift (seed : Z)
  | EvVersion (lcl : LedgerHeader) (seed : Z)
  | EvFlood (ov : Overlay) (maxOps : Z)
  | EvRebroadcast
  | EvShutdown.

Definition run_event (e : queue_event) (q : TransactionQueue) : tq TransactionQueue :=
  match e with
  | EvAdd lv tx => let? (_, q) := tryAdd lv tx q in Ok q
  | EvBan txs => ban txs q
  | EvRemoveApplied txs => removeApplied txs q
  | EvShift seed => shift seed q
  | EvVersion lcl seed => Ok (maybeVersionUpgraded lcl seed q)
  | EvFlood ov maxOps => broadcast_now ov maxOps q
  | EvRebroadcast => Ok (rebroadcast q)
  | EvShutdown => Ok (shutdownQueue q)
  end.

Fixpoint run_events (es : list queue_event) (q : TransactionQueue) : tq TransactionQueue :=
  match es with
  | [] => Ok q
  | e :: es' => let? q := run_event e q in run_events es' q
  end.

Section queue.
Context (envelope : Z -> TransactionFrameBase).
Notation genuine := (genuine envelope).
Notation ok := (ok envelope).

(** What an event brings. *)
Definition allowed (e : queue_event) (q : TransactionQueue) : Prop :=
  match e with
  | EvAdd lv tx => lawful lv /\ offered envelope q tx
  | EvBan txs => Forall genuine txs
  | EvFlood ov maxOps => floods ov maxOps
  | _ => True
  end.

Fixpoint allowed_run (es : list queue_event) (q : TransactionQueue) : Prop :=
  match es with
  | [] => True
  | e :: es' => allowed e q /\ forall q', run_event e q = Ok q' -> allowed_run es' q'
  end.

(** ** The invariant *)

(** The books of the queue are those of its transactions, none of which is banned. *)
Record sound (q : TransactionQueue) : Prop := {
  sd_ok : ok q (queued (mAccountStates q)) [];
  sd_bans : unbanned [] q;
  sd_carry : 0 <= mBroadcastOpCarryover q <= MAX_OPS_PER_TX + 1;
}.

Lemma ok_sound (q : TransactionQueue) (T : list QueuedTx) :
  ok q T [] -> unbanned [] q -> 0 <= mBroadcastOpCarryover q <= MAX_OPS_PER_TX + 1 -> sound q.
Proof.
  intros Hok Hun Hc. pose proof (ok_queued _ _ _ _ Hok) as Hq. rewrite app_nil_r in Hq. destruct Hok as [Hb _ Hac Hp Hd Hm Hmu Hsz].
  split; [split|exact Hun|exact Hc]; [| |exact Hac|exact Hp|exact Hd|exact Hm|exact Hmu|by rewrite Hq].
  - by apply (books_Permutation q T).
  - by rewrite app_nil_r.
Qed.

Lemma ok_ext (q q' : TransactionQueue) (T E : list QueuedTx) :
  ok q T E -> mAccountStates q' = mAccountStates q -> mTxQueueLimiter q' = mTxQueueLimiter q -> mPendingDepth q' = mPendingDepth q ->
  ok q' T E.
Proof.
  intros [[Hpr Had Hfe Hfb Hob Htx Hso Hop] Hq Hac Hp Hd Hm Hmu Hsz] Ha Hl Hdep.
  split; rewrite ?Ha, ?Hl, ?Hdep; try assumption. split; rewrite ?Ha, ?Hl, ?Hdep; assumption.
Qed.

Lemma unbanned_ext (q q' : TransactionQueue) :
  unbanned [] q -> mAccountStates q' = mAccountStates q -> mBannedTransactions q' = mBannedTransactions q -> unbanned [] q'.
Proof using Type. intros [Hn Hu] Ha Hb. unfold unbanned. setoid_rewrite (isBanned_same _ _ _ Hb). by rewrite Ha, Hb. Qed.

Lemma sound_ext (q q' : TransactionQueue) :
  sound q -> mAccountStates q' = mAccountStates q -> mTxQueueLimiter q' = mTxQueueLimiter q ->
  mPendingDepth q' = mPendingDepth q -> mBannedTransactions q' = mBannedTransactions q ->
  0 <= mBroadcastOpCarryover q' <= MAX_OPS_PER_TX + 1 -> sound q'.
Proof. intros [Hok Hun _] Ha Hl Hd Hb Hc. eapply ok_sound; [by eapply ok_ext|by eapply unbanned_ext|done]. Qed.

(** A queue without transactions. *)
Lemma empty_ok (q : TransactionQueue) :
  mAccountStates q = ∅ -> mTxs (mTxQueueLimiter q) = [] -> mLimiterOps (mTxQueueLimiter q) = 0 ->
  mMinFeeNeeded (mTxQueueLimiter q) = (0, 0) -> is_u32 (mPoolLedgerMultiplier (mTxQueueLimiter q)) ->
  1 <= mPendingDepth q <= UINT32_MAX -> ok q [] [].
Proof.
  intros Ha Ht Ho Hm Hmu Hd. split; rewrite ?Ha, ?Hm; try done.
  split; rewrite ?Ha, ?Ht, ?Ho; try done; [constructor|constructor].
Qed.

(** The version of the queue comes to protocol 13, where [maybeVersionUpgraded] clears it. *)
Definition clears (e : queue_event) (q : TransactionQueue) : bool :=
  match e with
  | EvVersion lcl _ => protocolVersionIsBefore (mLedgerVersion q) 13 && protocolVersionStartsFrom (ledgerVersion lcl) 13
  | _ => false
  end.

(** What happens to the bans. *)
Definition bans_kept (e : queue_event) (q q' : TransactionQueue) : Prop :=
  match e with
  | EvShift _ => Forall2 (⊆) (∅ :: removelast (mBannedTransactions q)) (mBannedTransactions q')
  | EvVersion _ _ => length (mBannedTransactions q') = length (mBannedTransactions q) /\
      (clears e q = false -> Forall2 (⊆) (mBannedTransactions q) (mBannedTransactions q'))
  | _ => Forall2 (⊆) (mBannedTransactions q) (mBannedTransactions q')
  end.

Lemma new_sound (pendingDepth : Z) (banDepth : nat) (poolLedgerMultiplier ledgerVersion : Z) (filteredTypes : list Z) (seeds : Z * Z) :
  1 <= pendingDepth <= UINT32_MAX -> (1 <= banDepth)%nat -> is_u32 poolLedgerMultiplier ->
  sound (newTransactionQueue pendingDepth banDepth poolLedgerMultiplier ledgerVersion filteredTypes seeds).
Proof.
  intros Hd Hb Hm. eapply ok_sound; [by apply empty_ok| |done]. split; [by destruct banDepth; [lia|]|]. by intros tx ?%not_elem_of_nil.
Qed.

Lemma event_sound (e : queue_event) (q : TransactionQueue) :
  allowed e q -> sound q -> exists q', run_event e q = Ok q' /\ sound q' /\ bans_kept e q q' /\ mPendingDepth q' = mPendingDepth q.
Proof.
  intros Hal Hs. pose proof Hs as [Hok Hun Hc]. set (T := queued (mAccountStates q)) in *. destruct e as [lv tx|txs|txs|seed|lcl seed|ov n| |]; cbn [run_event allowed bans_kept clears] in *.
  - destruct Hal as [Hlaw Hof]. destruct (tryAdd_ok envelope lv tx q T Hlaw Hok Hun Hof) as (r&q'&T'&->&Hok'&Hun'&Hp&Hd). cbn [res_bind].
    exists q'. split; [done|].
    assert (Forall2 (⊆) (mBannedTransactions q) (mBannedTransactions q') /\ mPendingDepth q' = mPendingDepth q /\
      mBroadcastOpCarryover q' = mBroadcastOpCarryover q) as (H1&H2&H3).
    { assert (r = ADD_STATUS_PENDING \/ r <> ADD_STATUS_PENDING) as [Hr|Hr] by (destruct r; by (left + right)).
      - by destruct (Hp Hr) as (_&_&_&?&?&?).
      - pose proof (Hd Hr) as Hdr. split; [apply Hdr|]. by rewrite (dp_rest _ _ Hdr). }
    split; [eapply ok_sound; [done|done|by rewrite H3]|done].
  - destruct (ban_ok envelope txs q T []) as (q'&T'&E'&Hok'&Hd'&Hun'&_); [done|done|done|by intros b e _ ?%not_elem_of_nil|].
    exists q'. split; [done|]. assert (mBroadcastOpCarryover q' = mBroadcastOpCarryover q /\ mPendingDepth q' = mPendingDepth q) as [H1 H2] by (by rewrite (dp_rest _ _ Hd')).
    split; [eapply ok_sound; [done|done|by rewrite H1]|]. split; [apply Hd'|done].
  - destruct (removeApplied_ok envelope txs q T Hok) as (q'&T'&E'&Hok'&Hd'&Hb'&_). exists q'. split; [done|].
    assert (mBroadcastOpCarryover q' = mBroadcastOpCarryover q /\ mPendingDepth q' = mPendingDepth q) as [H1 H2] by (by rewrite (dp_rest _ _ Hd')).
    split; [eapply ok_sound; [done| |by rewrite H1]|split; [apply Hd'|done]]. destruct Hun as [Hn Hu]. split; [by rewrite Hb'|].
    intros tx Hin Hban. apply Hu; [by eapply dropped_queued|]. by rewrite <- (isBanned_same _ _ _ Hb').
  - destruct (shift_ok envelope seed q T Hok Hun) as (q'&T'&E'&Hok'&Hun'&Hd'&Hc'&_&Hb'&_). exists q'. split; [done|].
    split; [eapply ok_sound; [done|done|by rewrite Hc']|done].
  - exists (maybeVersionUpgraded lcl seed q). split; [done|]. unfold maybeVersionUpgraded.
    destruct (_ && _).
    + split; [|split; [split; [cbn; by rewrite length_fmap|done]|done]]. eapply ok_sound; [apply empty_ok; try done; [apply Hok|apply Hok]| |done].
      destruct Hun as [Hn _]. split; [|by intros tx ?%not_elem_of_nil]. cbn. by destruct (mBannedTransactions q).
    + split; [by apply (sound_ext q)|]. done.
  - unfold broadcast_now. destruct (mShutdown q); [by exists q|].
    set (q0 := with_waiting false (mBroadcastOpCarryover q) q). assert (sound q0) as [Hok0 Hun0 Hc0] by (by apply (sound_ext q)).
    destruct (broadcastSome_ok envelope ov n q0 (queued (mAccountStates q0))) as (more&q'&T'&->&Hok'&Hun'&Hc'&Hd'&Hb'&_); [done|done|done|done|].
    cbn [res_bind]. assert (sound q') as Hs' by (by eapply ok_sound). eexists. split; [done|]. destruct more; [|done].
    split; [by apply (sound_ext q')|done].
  - exists (rebroadcast q). split; [done|]. set (q1 := with_accounts (rebroadcast_account <$> mAccountStates q) q).
    destruct (reflagged_ok envelope q q1 T [] Hok) as [Hok1 Hq1]; [by eapply rebroadcast_flagged|].
    assert (sound q1) as Hs1.
    { eapply ok_sound; [done| |done]. destruct Hun as [Hn Hu]. split; [done|]. intros tx Hin. rewrite Hq1 in Hin. by apply Hu. }
    unfold rebroadcast, broadcast_later. fold q1. destruct (mShutdown q1 || mWaiting q1); [done|]. split; [by apply (sound_ext q1)|done].
  - exists (shutdownQueue q). split; [done|]. split; [by apply (sound_ext q)|done].
Qed.

Lemma events_sound (es : list queue_event) : forall (q : TransactionQueue),
  allowed_run es q -> sound q -> exists q', run_events es q = Ok q' /\ sound q'.
Proof.
  induction es as [|e es IH]; intros q Hal Hs; [by exists q|]. destruct Hal as [He Hes].
  destruct (event_sound e q He Hs) as (q1&E1&Hs1&_). destruct (IH q1 (Hes q1 E1) Hs1) as (q2&E2&Hs2).
  exists q2. split; [|done]. simpl. by rewrite E1.
Qed.

(** ** What the queue promises *)

(** The counters of the queue are the sums over its transactions. *)
Record balanced (q : TransactionQueue) : Prop := {
  bl_fees : forall a, total_of (mAccountStates q) a = fees_of a (queued (mAccountStates q));
  bl_accounts : forall a s, mAccountStates q !! a = Some s ->
    mQueueSizeOps s = ops (txs_of (mTransactions s)) /\ mBroadcastQueueOps s = bops (mTransactions s) /\
    (mTransactions s <> [] \/ 0 < mTotalFees s) /\ 0 <= mAge s < mPendingDepth q;
  bl_sources : forall a s i t, mAccountStates q !! a = Some s -> mTransactions s !! i = Some t -> tx_sourceID (mTx t) = a;
  bl_sequence : forall a s i t u, mAccountStates q !! a = Some s -> mTransactions s !! i = Some t ->
    mTransactions s !! S i = Some u -> tx_seqNum (mTx u) = tx_seqNum (mTx t) + 1;
  bl_limiter : mTxs (mTxQueueLimiter q) ≡ₚ queued (mAccountStates q);
  bl_ops : mLimiterOps (mTxQueueLimiter q) = ops (queued (mAccountStates q));
  bl_banned : forall tx, tx ∈ queued (mAccountStates q) -> isBanned (fullHash tx) q = false;
}.

Lemma sound_balanced (q : TransactionQueue) : sound q -> balanced q.
Proof.
  intros [[Hb Hq Hac Hp Hd Hm Hmu Hsz] [_ Hu] _]. destruct Hb as [Hpr Had Hfe Hfb Hob Htx Hso Hop]. rewrite app_nil_r in *.
  split; try done.
  - intros a s Hs. destruct (Hac a s Hs) as [_ _ [Ho Hbo] Hage _]. split; [done|]. split; [done|]. split; [by apply (Hp a)|done].
  - intros a s i t Hs Ht. destruct (Hac a s Hs) as [Hg _ _ _ _]. rewrite Forall_lookup in Hg. by apply (Hg i t).
  - intros a s i t u Hs Ht Hu'. destruct (Hac a s Hs) as [_ (n&_&Hc) _ _ _]. apply Hc in Ht as [-> _]. apply Hc in Hu' as [-> _]. lia.
  - intros tx Hin. destruct (isBanned (fullHash tx) q) eqn:E; [|done]. destruct (Hu tx Hin E) as (b&Hb&_). by apply not_elem_of_nil in Hb.
Qed.

(** C8. No event makes the queue throw, fail an assertion, overflow or run a loop
    without end, as long as each transaction it is offered is a fresh object with a fee bid
    that is not negative and a sequence number below the greatest ([offered]; without the
    first [tryAdd] can throw, see C40), the ledger admits only
    what it can pay ([lawful]) and the rates of flooding keep the assertions on
    them ([floods]): from its construction on, after offers, bans, ledgers,
    upgrades and timers in any order, the fees of every account,
    the operations of every account and of the limiter, and the set of the
    limiter are exactly those of the transactions it holds; the sequence numbers
    of an account have no gap, and no transaction it holds is banned. *)
Theorem queue_events_safe (pendingDepth : Z) (banDepth : nat) (poolLedgerMultiplier ledgerVersion : Z)
    (filteredTypes : list Z) (seeds : Z * Z) (es : list queue_event) :
  1 <= pendingDepth <= UINT32_MAX -> (1 <= banDepth)%nat -> is_u32 poolLedgerMultiplier ->
  allowed_run es (newTransactionQueue pendingDepth banDepth poolLedgerMultiplier ledgerVersion filteredTypes seeds) ->
  exists q, run_events es (newTransactionQueue pendingDepth banDepth poolLedgerMultiplier ledgerVersion filteredTypes seeds) = Ok q /\
    balanced q.
Proof.
  intros Hd Hb Hm Hal. destruct (events_sound es _ Hal) as (q&HE&Hs); [by apply new_sound|].
  exists q. split; [exact HE|by apply sound_balanced].
Qed.

(** C9. [tryAdd] puts the transaction in the queue exactly when it answers
    [ADD_STATUS_PENDING]; the operations are then within the size of the queue, and
    what had to leave had the sequence number of the new transaction in its
    account, or is banned and follows, in another account, a transaction with a
    worse fee per operation than the new one. *)
Theorem tryAdd_effect (lv : LedgerView) (tx : QueuedTx) (q : TransactionQueue) :
  sound q -> lawful lv -> offered envelope q tx ->
  exists r q', tryAdd lv tx q = Ok (r, q') /\ sound q' /\ (r = ADD_STATUS_PENDING <-> tx ∈ queued (mAccountStates q')) /\
    (r = ADD_STATUS_PENDING -> mLimiterOps (mTxQueueLimiter q') <= maxQueueSizeOps lv (mTxQueueLimiter q') /\
      forall y, y ∈ queued (mAccountStates q) -> y ∉ queued (mAccountStates q') ->
        (tx_sourceID y = tx_sourceID tx /\ tx_seqNum y = tx_seqNum tx) \/
        isBanned (fullHash y) q' = true /\
          exists z, z ∈ queued (mAccountStates q) /\ cheaper z tx /\ tx_sourceID z <> tx_sourceID tx /\
            tx_sourceID z = tx_sourceID y /\ tx_seqNum z <= tx_seqNum y).
Proof.
  intros [Hok Hun Hc] Hlaw Hof. destruct (tryAdd_ok envelope lv tx q _ Hlaw Hok Hun Hof) as (r&q'&T'&HE&Hok'&Hun'&Hp&Hd).
  exists r, q'. split; [exact HE|].
  assert (mBroadcastOpCarryover q' = mBroadcastOpCarryover q) as Hca.
  { assert (r = ADD_STATUS_PENDING \/ r <> ADD_STATUS_PENDING) as [Hr|Hr] by (destruct r; by (left + right)).
    - by destruct (Hp Hr) as (_&_&_&_&_&?).
    - by rewrite (dp_rest _ _ (Hd Hr)). }
  split; [eapply ok_sound; [done|done|by rewrite Hca]|]. split; [split|].
  - intros Hr. by destruct (Hp Hr).
  - intros Hin. assert (r = ADD_STATUS_PENDING \/ r <> ADD_STATUS_PENDING) as [Hr|Hr] by (destruct r; by (left + right)); [done|].
    exfalso. apply (of_address _ _ _ Hof). apply list_elem_of_fmap. exists tx. split; [done|]. by apply (dropped_queued q q'); [apply Hd|].
  - intros Hr. destruct (Hp Hr) as (_&Hgw&Hmax&_). split; [done|]. intros y Hy Hny.
    destruct (Hgw y Hy) as [|[|[Hb (z&Hz&[Hez Hne]&Hzy)]]]; [done|by left|right]. split; [done|]. by exists z.
Qed.

(** ** Bans *)

Definition is_shift (e : queue_event) : bool := match e with EvShift _ => true | _ => false end.

(** No upgrade of the run takes the queue to protocol 13. *)
Fixpoint never_clears (es : list queue_event) (q : TransactionQueue) : Prop :=
  match es with
  | [] => True
  | e :: es' => clears e q = false /\ forall q', run_event e q = Ok q' -> never_clears es' q'
  end.

Lemma bans_kept_subseteq (e : queue_event) (q q' : TransactionQueue) :
  bans_kept e q q' -> clears e q = false -> is_shift e = false -> Forall2 (⊆) (mBannedTransactions q) (mBannedTransactions q').
Proof using Type. destruct e; try (by cbn). intros [_ H] Hc _. by apply H. Qed.

(** A ban is found one place further after a ledger, for as long as there is a place. *)
Lemma event_banned_at (e : queue_event) (q q' : TransactionQueue) (i : nat) (h : Z) :
  bans_kept e q q' -> clears e q = false -> banned_at i h q ->
  (i + (if is_shift e then 1 else 0) < length (mBannedTransactions q))%nat ->
  banned_at (i + (if is_shift e then 1 else 0)) h q' /\ length (mBannedTransactions q') = length (mBannedTransactions q).
Proof using Type.
  intros Hk Hv Hb Hi. destruct (is_shift e) eqn:He.
  - destruct e; try done. cbn [bans_kept] in Hk. destruct Hb as (s&Hs&Hh).
    destruct (exists_last (l := mBannedTransactions q)) as (l&x&Hl); [by intros Hnil; rewrite Hnil in Hs|].
    rewrite Hl in Hk, Hs, Hi. rewrite Hl. rewrite removelast_last in Hk. rewrite length_app in Hi |- *. simpl in Hi. split.
    + apply lookup_app_Some in Hs as [Hs|[Hlen _]]; [|lia].
      destruct (Forall2_lookup_l _ _ _ (S i) s Hk Hs) as (s'&Hs'&Hsub). exists s'. rewrite Nat.add_1_r. split; [done|]. by apply Hsub.
    + apply Forall2_length in Hk. simpl in *. lia.
  - apply bans_kept_subseteq in Hk; [|done..]. rewrite Nat.add_0_r.
    split; [by eapply banned_at_mono|by apply Forall2_length in Hk].
Qed.

Lemma bans_kept_length (e : queue_event) (q q' : TransactionQueue) :
  sound q -> bans_kept e q q' -> length (mBannedTransactions q') = length (mBannedTransactions q).
Proof using Type.
  intros Hs Hk. destruct e; cbn [bans_kept] in Hk; try (by apply Forall2_length in Hk); [|by destruct Hk].
  apply Forall2_length in Hk. simpl in Hk. destruct (sd_bans _ Hs) as [Hn _].
  destruct (exists_last Hn) as (l&x&Hl). rewrite Hl, removelast_last in Hk. rewrite Hl, length_app. simpl. lia.
Qed.

Lemma events_banned_at (es : list queue_event) : forall (q : TransactionQueue) (i : nat) (H : list Z),
  allowed_run es q -> sound q -> never_clears es q -> (forall h, h ∈ H -> banned_at i h q) ->
  (i + length (filter (fun e => is_shift e) es) < length (mBannedTransactions q))%nat ->
  exists q', run_events es q = Ok q' /\ sound q' /\ forall h, h ∈ H -> isBanned h q' = true.
Proof.
  induction es as [|e es IH]; intros q i H Hal Hs Hv Hb Hi.
  { exists q. split; [done|]. split; [done|]. intros h Hh. eapply banned_at_isBanned. by apply Hb. }
  destruct Hal as [He Hes], Hv as [Hv Hvs].
  destruct (event_sound e q He Hs) as (q1&E1&Hs1&Hk&_).
  assert (length (filter (fun e => is_shift e) (e :: es)) =
    (if is_shift e then 1 else 0) + length (filter (fun e => is_shift e) es))%nat as Hlen by (rewrite filter_cons; by destruct (is_shift e)).
  pose proof (bans_kept_length e q q1 Hs Hk) as Hlq.
  destruct (IH q1 (i + (if is_shift e then 1 else 0))%nat H (Hes q1 E1) Hs1 (Hvs q1 E1)) as (q2&E2&Hs2&Hb2); [|rewrite Hlq; lia|].
  { intros h Hh. eapply event_banned_at; [done|done|by apply Hb|lia]. }
  exists q2. split; [|done]. simpl. by rewrite E1.
Qed.

(** C21. What [ban] bans leaves the queue and stays out: until the queue has shifted
    as often as it keeps sets of bans, a transaction with that hash is not in the
    queue and is answered [ADD_STATUS_TRY_AGAIN_LATER], with the queue unchanged,
    whatever the events between. The one exception is the upgrade that takes the
    queue to protocol 13: [maybeVersionUpgraded] then clears the bans, and
    [never_clears] says that the run has no such upgrade; other upgrades are among
    its events. *)
Theorem banned_stays_out (txs : list QueuedTx) (q : TransactionQueue) (es : list queue_event) :
  sound q -> allowed_run (EvBan txs :: es) q -> (forall q', run_event (EvBan txs) q = Ok q' -> never_clears es q') ->
  (length (filter (fun e => is_shift e) es) < length (mBannedTransactions q))%nat ->
  exists q', run_events (EvBan txs :: es) q = Ok q' /\
    forall tx y, tx ∈ txs -> fullHash y = fullHash tx ->
      y ∉ queued (mAccountStates q') /\ forall lv, tryAdd lv y q' = Ok (ADD_STATUS_TRY_AGAIN_LATER, q').
Proof.
  intros Hs [Hg Hes] Hv Hsh. pose proof Hs as [Hok Hun Hc].
  destruct (ban_ok envelope txs q _ [] Hok Hun Hg) as (q1&T1&E1&Hok1&Hd1&Hun1&_&Hb1&_); [by intros b e _ ?%not_elem_of_nil|].
  assert (sound q1) as Hs1 by (eapply ok_sound; [done|done|by rewrite (dp_rest _ _ Hd1)]).
  destruct (events_banned_at es q1 0 (fullHash <$> txs) (Hes q1 E1) Hs1 (Hv q1 E1)) as (q'&E'&Hs'&Hb').
  { intros h (b&->&Hb)%list_elem_of_fmap. by apply Hb1. }
  { by rewrite <- (Forall2_length _ _ _ (dp_bans _ _ Hd1)). }
  exists q'. split; [simpl; by rewrite E1|]. intros tx y Hin Hh.
  assert (isBanned (fullHash y) q' = true) as Hby by (rewrite Hh; apply Hb', list_elem_of_fmap; by exists tx).
  split; [|intros lv; unfold tryAdd, canAdd; by rewrite Hby].
  intros Hy. pose proof (bl_banned _ (sound_balanced _ Hs') y Hy). congruence.
Qed.

(** ** Expiry *)

Lemma shifts_age (seeds : list Z) : forall (q : TransactionQueue) (k : Z),
  sound q -> (forall a, list_of (mAccountStates q) a <> [] -> k <= age_of (mAccountStates q) a) ->
  exists q', run_events (EvShift <$> seeds) q = Ok q' /\ sound q' /\ mPendingDepth q' = mPendingDepth q /\
    forall a, list_of (mAccountStates q') a <> [] -> k + Z.of_nat (length seeds) <= age_of (mAccountStates q') a.
Proof.
  induction seeds as [|seed seeds IH]; intros q k Hs Hk.
  { exists q. split; [done|]. split; [done|]. split; [done|]. intros a Ha. specialize (Hk a Ha). simpl. lia. }
  pose proof Hs as [Hok Hun Hc]. destruct (shift_ok envelope seed q _ Hok Hun) as (q1&T1&E1&Hok1&Hun1&Hd1&Hca1&Hsub1&_&Ha1).
  assert (sound q1) as Hs1 by (eapply ok_sound; [done|done|by rewrite Hca1]).
  destruct (IH q1 (k + 1) Hs1) as (q2&E2&Hs2&Hd2&Hk2).
  { intros a Hne. assert (list_of (mAccountStates q) a <> []) as Hne0.
    { intros Hnil. specialize (Hsub1 a). rewrite Hnil in Hsub1. apply Hne. by inversion Hsub1. }
    specialize (Ha1 a Hne0). specialize (Hk a Hne0). unfold aged in Ha1.
    destruct (_ =? _); [by destruct Ha1 as [Hnil _]|]. destruct Ha1 as [_ ->]. lia. }
  exists q2. split; [simpl; rewrite E1; exact E2|]. split; [done|]. split; [by rewrite Hd2|]. intros a Hne. specialize (Hk2 a Hne). cbn [length]. lia.
Qed.

(** C36. A transaction that no ledger applies does not stay: after as many shifts as
    the pending depth, nothing is left in the queue, no account and no fee, and
    the limiter is empty. *)
Theorem shifts_expire (q : TransactionQueue) (seeds : list Z) :
  sound q -> Z.of_nat (length seeds) = mPendingDepth q ->
  exists q', run_events (EvShift <$> seeds) q = Ok q' /\ mAccountStates q' = ∅ /\
    mTxs (mTxQueueLimiter q') = [] /\ mLimiterOps (mTxQueueLimiter q') = 0.
Proof.
  intros Hs Hlen. destruct (shifts_age seeds q 0 Hs) as (q'&HE&Hs'&Hd'&Hk').
  { intros a Hne. unfold age_of. destruct (mAccountStates q !! a) as [s|] eqn:Ha; [|done].
    by destruct (ok_accounts _ _ _ _ (sd_ok _ Hs) a s Ha) as [_ _ _ [? _] _]. }
  exists q'. split; [done|]. destruct (sound_balanced _ Hs') as [Hf Hac _ _ Hl Ho _].
  assert (forall a, list_of (mAccountStates q') a = []) as Hnil.
  { intros a. destruct (list_of (mAccountStates q') a) as [|t l] eqn:E; [done|]. exfalso.
    assert (list_of (mAccountStates q') a <> []) as Hne by (by rewrite E). specialize (Hk' a Hne). unfold age_of, list_of in *.
    destruct (mAccountStates q' !! a) as [s|] eqn:Ha; [|done]. destruct (Hac a s Ha) as (_&_&_&Hage). lia. }
  assert (queued (mAccountStates q') = []) as Hq.
  { apply Permutation_nil_r. rewrite (queued_lists ∅ (mAccountStates q')); [done|]. intros a. rewrite Hnil. unfold list_of. by rewrite lookup_empty. }
  rewrite Hq in Hf, Hl, Ho. split; [|split; [by apply Permutation_nil_r|done]].
  apply map_empty. intros a. destruct (mAccountStates q' !! a) as [s|] eqn:Ha; [|done]. exfalso.
  destruct (Hac a s Ha) as (_&_&[Hne|Hpos]&_).
  - apply Hne. specialize (Hnil a). unfold list_of in Hnil. by rewrite Ha in Hnil.
  - specialize (Hf a). unfold total_of in Hf. rewrite Ha in Hf. cbn in Hf. lia.
Qed.

(** ** A negative fee *)

(** C40. A fee bump with a negative fee over a queued transaction makes [tryAdd]
    throw: [canReplaceByFee] multiplies the fee before [checkValid] has looked at
    the envelope, and the assertion of [bigMultiply] fails. *)
Theorem negative_fee_bump_throws (lv : LedgerView) (tx : QueuedTx) (t : TimestampedTx) (q : TransactionQueue) :
  sound q -> isBanned (fullHash tx) q = false -> isFiltered tx q = false -> isFeeBump (frame tx) = true ->
  t ∈ list_of (mAccountStates q) (tx_sourceID tx) -> tx_seqNum (mTx t) = tx_seqNum tx ->
  isDuplicateTx (mTx t) tx = false -> tx_feeBid tx < 0 ->
  tryAdd lv tx q = Err (QueueNumeric AssertFailed).
Proof.
  intros Hs Hb Hf Hbump Ht Hseq Hdup Hneg. unfold tryAdd, canAdd, canAdd_account. rewrite Hb, Hf, Hbump.
  unfold list_of in Ht. destruct (mAccountStates q !! tx_sourceID tx) as [s|] eqn:Hacc; [|by apply not_elem_of_nil in Ht].
  destruct (ok_accounts _ _ _ _ (sd_ok _ Hs) _ _ Hacc) as [_ [n [Hn Hc]] _ _ _]. cbn [fmap option_fmap option_map].
  destruct (mTransactions s) as [|front l]; [by apply not_elem_of_nil in Ht|]. set (L := front :: l) in *.
  apply list_elem_of_lookup in Ht as [i Hi]. pose proof (lookup_lt_Some _ _ _ Hi) as Hlen. apply Hc in Hi as Hi'. destruct Hi' as [Hi' _].
  cbn [negb]. rewrite (findBySeq_ok n) by done. rewrite <- Hseq, Hi'.
  replace ((n <=? n + Z.of_nat i) && (n + Z.of_nat i <=? n + Z.of_nat (length L))) with true
    by (symmetry; rewrite andb_true_iff, !Z.leb_le; lia).
  cbn [res_bind]. replace (Z.to_nat (n + Z.of_nat i - n)) with i by lia. rewrite Hi, Hdup. unfold canReplaceByFee, bigMultiply.
  destruct (Z.leb_spec 0 (tx_feeBid tx)); [lia|]. done.
Qed.
End queue.

(** ** Witnesses *)

(** Two transactions of the first account, one of the second, a fee bump of the
    first and one with a negative fee. *)
Definition sample_frame (source seq fee : Z) : TransactionFrame :=
  {| tf_isV0 := false; tf_hasMuxedAccount := false; tf_sourceID := source; tf_fee := fee; tf_seqNum := seq;
     tf_timeBounds := None; tf_operations := [OTHER_OPERATION 10] |}.

Definition sample_envelope (h : Z) : TransactionFrameBase :=
  if h =? 1 then TxFrame (sample_frame 1 1 100)
  else if h =? 2 then TxFrame (sample_frame 1 2 100)
  else if h =? 3 then TxFrame (sample_frame 2 1 300)
  else if h =? 4 then FeeBumpFrame {| fb_feeSourceID := 2; fb_fee := 5000; fb_innerTx := sample_frame 1 1 100 |}
  else FeeBumpFrame {| fb_feeSourceID := 2; fb_fee := -1; fb_innerTx := sample_frame 1 1 100 |}.

Definition sample_tx (h : Z) : QueuedTx :=
  {| address := 1000 + 16 * h; frame := sample_envelope h; fullHash := h; innerFullHash := 1 |}.

(** Room for two ledgers of two operations. *)
Definition sample_ledger : LedgerView :=
  {| getLastMaxTxSetSizeOps := 2;
     checkValid := fun tx n => (1 <=? tx_feeBid tx) && (tx_feeBid tx <=? 10000) && (1 <=? tx_numOps tx) && (tx_numOps tx <=? 100) &&
       (1 <=? tx_seqNum tx) && ((n =? 0) || (tx_seqNum tx =? n + 1));
     feeSourceBalance := fun _ => 100000 |}.

Lemma sample_lawful : lawful sample_ledger.
Proof.
  split; [unfold_ints; simpl; lia| |intros a; simpl; unfold_ints; lia]. intros tx n Hv. unfold sample_ledger in Hv. cbn [checkValid] in Hv.
  bprop. match goal with H : orb _ _ = true |- _ => apply orb_true_iff in H as [|] end; bprop; (split; [split; unfold_ints; lia|]); (split; [lia|intros; lia]).
Qed.

Lemma sample_offered (h : Z) (q : TransactionQueue) :
  (1 <=? h) && (h <=? 4) = true -> bool_decide (address (sample_tx h) ∉ address <$> queued (mAccountStates q)) = true ->
  offered sample_envelope q (sample_tx h).
Proof.
  intros Hh Ha. bprop. assert (h = 1 \/ h = 2 \/ h = 3 \/ h = 4) as Hcases by lia.
  split; [done| | |done]; destruct Hcases as [->|[->|[->| ->]]]; vm_compute; repeat split; intros ?; discriminate.
Qed.

(** A ledger of protocol 18. *)
Definition sample_lcl : LedgerHeader :=
  {| ledgerVersion := 18; scpValue_closeTime := 0; ledgerSeq := 7; totalCoins := 0; feePool := 0; inflationSeq := 0; idPool := 0;
     baseFee := 100; basePercentageFee := 0; maxFee := 0; baseReserve := 0; maxTxSetSize := 100; header_flags := None |}.

Ltac next_event := intros ? Hrun; vm_compute in Hrun; injection Hrun as <-.
Ltac offer := split; [apply sample_lawful|apply sample_offered; vm_compute; reflexivity].

Definition sample_overlay : Overlay :=
  {| FLOOD_OP_RATE_PER_LEDGER := f64_of_Z 1; FLOOD_TX_PERIOD_MS := 200; getExpectedLedgerCloseTime := 5; FLOOD_ARB_TX_BASE_ALLOWANCE := 5; geometric := fun _ => 0; broadcastMessage := fun _ => true |}.

Lemma sample_floods : floods sample_overlay 50.
Proof. exists 50. split; [vm_compute; reflexivity|]. split; [vm_compute; split; discriminate|]. split; vm_compute; [split; [reflexivity|]|]; discriminate. Qed.

(** Two transactions of an account are let in and flooded; a better one evicts them
    both; ledgers, bans and timers go on. *)
Definition sample_events : list queue_event :=
  [EvAdd sample_ledger (sample_tx 1); EvAdd sample_ledger (sample_tx 2); EvFlood sample_overlay 50;
   EvAdd sample_ledger (sample_tx 3); EvShift 7; EvRebroadcast; EvRemoveApplied [sample_tx 3]; EvBan [sample_tx 1]; EvShutdown].

Definition sample_queue : TransactionQueue := newTransactionQueue 4 2 1 13 [] (5, 6).

Lemma queue_events_safe_witness : exists q, run_events sample_events sample_queue = Ok q /\ balanced q.
Proof.
  apply (queue_events_safe sample_envelope 4 2 1 13 [] (5, 6) sample_events).
  - unfold_ints; lia.
  - lia.
  - unfold_ints; lia.
  - unfold sample_events. cbn [allowed_run allowed].
    split; [offer|next_event]. split; [offer|next_event]. split; [apply sample_floods|next_event]. split; [offer|next_event].
    split; [done|next_event]. split; [done|next_event]. split; [done|next_event].
    split; [by constructor|next_event]. split; [done|next_event]. done.
Defined.

(** The queue after some events. *)
Definition after (es : list queue_event) : TransactionQueue :=
  match run_events es sample_queue with Ok q => q | Err _ => sample_queue end.

Lemma after_sound (es : list queue_event) : allowed_run sample_envelope es sample_queue -> sound sample_envelope (after es).
Proof.
  intros Hal. destruct (events_sound sample_envelope es sample_queue Hal) as (q&HE&Hs); [apply new_sound; [unfold_ints; lia|lia|unfold_ints; lia]|].
  unfold after. by rewrite HE.
Qed.

Lemma after_two_sound : sound sample_envelope (after [EvAdd sample_ledger (sample_tx 1); EvAdd sample_ledger (sample_tx 2)]).
Proof. apply after_sound. split; [offer|next_event]. split; [offer|next_event]. done. Qed.

(** The third transaction, with three times the fee, makes the two others leave. *)
Lemma tryAdd_effect_witness : exists r q',
  tryAdd sample_ledger (sample_tx 3) (after [EvAdd sample_ledger (sample_tx 1); EvAdd sample_ledger (sample_tx 2)]) = Ok (r, q') /\
  r = ADD_STATUS_PENDING /\ sample_tx 3 ∈ queued (mAccountStates q') /\ length (queued (mAccountStates q')) = 1%nat.
Proof.
  destruct (tryAdd_effect sample_envelope sample_ledger (sample_tx 3) _ after_two_sound sample_lawful) as (r&q'&HE&_&Hr&_).
  { apply sample_offered; vm_compute; reflexivity. }
  exists r, q'. split; [exact HE|]. assert (r = ADD_STATUS_PENDING) as Hp by (vm_compute in HE; by injection HE).
  split; [exact Hp|]. split; [by apply Hr|]. vm_compute in HE. injection HE as _ <-. vm_compute. reflexivity.
Defined.

Lemma banned_stays_out_witness : exists q',
  run_events [EvBan [sample_tx 2]; EvVersion sample_lcl 9; EvShift 1] (after [EvAdd sample_ledger (sample_tx 1); EvAdd sample_ledger (sample_tx 2)]) = Ok q' /\
  sample_tx 2 ∉ queued (mAccountStates q') /\ tryAdd sample_ledger (sample_tx 2) q' = Ok (ADD_STATUS_TRY_AGAIN_LATER, q').
Proof.
  destruct (banned_stays_out sample_envelope [sample_tx 2] _ [EvVersion sample_lcl 9; EvShift 1] after_two_sound) as (q'&HE&Hout).
  - split; [by constructor|]. intros q' _. by repeat split.
  - next_event. split; [reflexivity|]. intros ? _. by split.
  - vm_compute. lia.
  - exists q'. split; [exact HE|]. destruct (Hout (sample_tx 2) (sample_tx 2)) as [Hq Ht]; [by left|done|]. by split.
Defined.

Lemma shifts_expire_witness : exists q',
  run_events (EvShift <$> [1; 2; 3; 4]) (after [EvAdd sample_ledger (sample_tx 1); EvAdd sample_ledger (sample_tx 2)]) = Ok q' /\
  mAccountStates q' = ∅ /\ mTxs (mTxQueueLimiter q') = [] /\ mLimiterOps (mTxQueueLimiter q') = 0.
Proof. apply (shifts_expire sample_envelope _ [1; 2; 3; 4] after_two_sound). vm_compute. reflexivity. Defined.

Lemma negative_fee_bump_throws_witness :
  tryAdd sample_ledger (sample_tx 5) (after [EvAdd sample_ledger (sample_tx 1); EvAdd sample_ledger (sample_tx 2)]) =
    Err (QueueNumeric AssertFailed).
Proof.
  apply (negative_fee_bump_throws sample_envelope sample_ledger (sample_tx 5) {| mTx := sample_tx 1; mBroadcasted := false |} _ after_two_sound).
  - vm_compute. reflexivity.
  - vm_compute. reflexivity.
  - reflexivity.
  - vm_compute. left.
  - reflexivity.
  - reflexivity.
  - reflexivity.
Defined.
