(* ===== verification/TxSets.v ===== *)
(** * Transaction sets

    [src/herder/TxSetFrame.cpp]: a transaction set with its remembered hash and
    verdict; the order in which it is hashed and the order in which it is
    applied; the check of its transactions, which also trims a set that is to be
    proposed; and surge pricing, which chooses what fits.

    The check of a transaction and the available balances are those of the last
    closed ledger, the record [SetView]; the hash of the contents is a function.
    Hashes are numbers: their order is that of the bytes.  [std::sort] is a merge
    sort: nothing below depends on the order it leaves equal elements in.  The
    accounts are a map, visited in the order of [map_to_list]. *)
From stdpp Require Import base tactics numbers list sorting gmap.
From Stdlib Require Import ZArith Lia Bool.
From S2P Require Import Prelude Numeric OfferExchange LedgerEntries Balances Fees TransactionQueue.

Open Scope Z_scope.
Open Scope kin_scope.

(** ** Data *)

Record TxSetFrame := {
  mHash : option Z;
  mValid : option (Z * bool);    (** the ledger it was checked for, and the verdict *)
  mPreviousLedgerHash : Z;
  mSetTransactions : list QueuedTx;
}.

Record SetView := {
  lcl_header : LedgerHeader;
  lcl_hash : Z;
  tx_checkValid : QueuedTx -> Z -> Z -> Z -> bool;   (** the last sequence number, the offsets *)
  availableBalance : AccountID -> Z;
}.

Inductive set_error :=
  | SetFees (e : queue_error)
  | EmptyFront                   (** [front] of a queue without transactions *)
  | NotSorted                    (** the assertion of [toXDR] *)
  | SetOutOfFuel.

Notation ts := (result set_error).

(** [TxSetFrame(previousLedgerHash)], and [add]. *)
Definition newTxSet (previousLedgerHash : Z) : TxSetFrame :=
  {| mHash := None; mValid := None; mPreviousLedgerHash := previousLedgerHash; mSetTransactions := [] |}.

(** The transactions change, what is remembered is forgotten. *)
Definition with_transactions (l : list QueuedTx) (t : TxSetFrame) : TxSetFrame :=
  {| mHash := None; mValid := None; mPreviousLedgerHash := mPreviousLedgerHash t; mSetTransactions := l |}.

Definition add (tx : QueuedTx) (t : TxSetFrame) : TxSetFrame :=
  with_transactions (mSetTransactions t ++ [tx]) t.

(** ** Orders *)

Definition hash_le (x y : QueuedTx) : Prop := fullHash x <= fullHash y.
Definition seq_le (x y : QueuedTx) : Prop := tx_seqNum x <= tx_seqNum y.
Definition xored_le (h : Z) (x y : QueuedTx) : Prop := Z.lxor h (fullHash x) <= Z.lxor h (fullHash y).

#[export] Instance hash_le_dec x y : Decision (hash_le x y) := Z.le_dec _ _.
#[export] Instance seq_le_dec x y : Decision (seq_le x y) := Z.le_dec _ _.
#[export] Instance xored_le_dec h x y : Decision (xored_le h x y) := Z.le_dec _ _.

Definition sortForHash (t : TxSetFrame) : TxSetFrame :=
  with_transactions (merge_sort hash_le (mSetTransactions t)) t.

Definition push_account (m : gmap AccountID (list QueuedTx)) (tx : QueuedTx) : gmap AccountID (list QueuedTx) :=
  <[tx_sourceID tx := default [] (m !! tx_sourceID tx) ++ [tx]]> m.

Definition buildAccountTxQueues (t : TxSetFrame) : gmap AccountID (list QueuedTx) :=
  merge_sort seq_le <$> foldl push_account ∅ (mSetTransactions t).

(** The pointer is found by its address. *)
Fixpoint erase_address (a : Z) (l : list QueuedTx) : list QueuedTx :=
  match l with
  | [] => []
  | x :: l' => if address x =? a then l' else x :: erase_address a l'
  end.

Definition removeTx (tx : QueuedTx) (t : TxSetFrame) : TxSetFrame :=
  with_transactions (erase_address (address tx) (mSetTransactions t)) t.

Section sets.
Context (contentsHash : Z -> list QueuedTx -> Z) (vw : SetView).

Definition getContentsHash (t : TxSetFrame) : Z * TxSetFrame :=
  match mHash t with
  | Some h => (h, t)
  | None =>
      let t := sortForHash t in
      let h := contentsHash (mPreviousLedgerHash t) (mSetTransactions t) in
      (h, {| mHash := Some h; mValid := mValid t; mPreviousLedgerHash := mPreviousLedgerHash t;
             mSetTransactions := mSetTransactions t |})
  end.

(** ** The order of application *)

(** A batch: the first transaction of every queue, and what is left. *)
Fixpoint pop_fronts (queues : list (list QueuedTx)) : ts (list QueuedTx * list (list QueuedTx)) :=
  match queues with
  | [] => Ok ([], [])
  | [] :: _ => Err EmptyFront
  | (h :: q) :: queues' =>
      let? (batch, rest) := pop_fronts queues' in
      Ok (h :: batch, match q with [] => rest | _ => q :: rest end)
  end.

(** Every round takes a transaction of each queue. *)
Fixpoint build_batches (fuel : nat) (queues : list (list QueuedTx)) : ts (list (list QueuedTx)) :=
  match queues with
  | [] => Ok []
  | _ =>
      match fuel with
      | O => Err SetOutOfFuel
      | S fuel' =>
          let? (batch, rest) := pop_fronts queues in
          let? batches := build_batches fuel' rest in
          Ok (batch :: batches)
      end
  end.

(** The hash is computed for the first batch, and remembered for the others. *)
Definition sortForApply (t : TxSetFrame) : ts (list QueuedTx * TxSetFrame) :=
  let? batches := build_batches (length (mSetTransactions t)) (map_to_list (buildAccountTxQueues t)).*2 in
  match batches with
  | [] => Ok ([], t)
  | _ =>
      let (h, t) := getContentsHash t in
      Ok (concat (merge_sort (xored_le h) <$> batches), t)
  end.

(** ** Surge pricing *)

(** [SurgeCompare]; [mSeed] is a random hash. *)
Definition surge_less (mSeed : Z) (tx1 tx2 : list QueuedTx) : ts bool :=
  match tx1, tx2 with
  | [], [] => Ok false
  | [], _ => Ok true
  | _, [] => Ok false
  | top1 :: _, top2 :: _ =>
      let? cmp3 := res_err SetFees (compareTxs top1 top2) in
      Ok match cmp3 with
         | Lt => true
         | Gt => false
         | Eq => Z.lxor mSeed (fullHash top1) <? Z.lxor mSeed (fullHash top2)
         end
  end.

(** [top] and [pop] of the [priority_queue]: its greatest element, and the others. *)
Fixpoint surge_top (mSeed : Z) (cur : list QueuedTx) (l : list (list QueuedTx))
    : ts (list QueuedTx * list (list QueuedTx)) :=
  match l with
  | [] => Ok (cur, [])
  | q :: l' =>
      let? less := surge_less mSeed cur q in
      if (less : bool) then let? (top, rest) := surge_top mSeed q l' in Ok (top, cur :: rest)
      else let? (top, rest) := surge_top mSeed cur l' in Ok (top, q :: rest)
  end.

Definition surge_ops (maxIsOps : bool) (tx : QueuedTx) : Z := if maxIsOps then tx_numOps tx else MAX_OPS_PER_TX.

(** Every round takes a transaction or drops a queue. *)
Fixpoint surge_loop (fuel : nat) (mSeed : Z) (maxIsOps : bool) (opsLeft : Z) (surgeQueue : list (list QueuedTx))
    : ts (list QueuedTx) :=
  match surgeQueue with
  | [] => Ok []
  | q :: l =>
      if opsLeft <=? 0 then Ok [] else
      match fuel with
      | O => Err SetOutOfFuel
      | S fuel' =>
          let? (cur, rest) := surge_top mSeed q l in
          match cur with
          | [] => Err EmptyFront
          | curTopTx :: cur =>
              let opsCount := surge_ops maxIsOps curTopTx in
              if opsCount <=? opsLeft then
                let? updatedSet := surge_loop fuel' mSeed maxIsOps (opsLeft - opsCount)
                  (match cur with [] => rest | _ => cur :: rest end) in
                Ok (curTopTx :: updatedSet)
              else surge_loop fuel' mSeed maxIsOps opsLeft rest
          end
      end
  end.

(** [LedgerManagerImpl::getLastMaxTxSetSizeOps]. *)
Definition lcl_maxTxSetSizeOps : Z :=
  if protocolVersionStartsFrom (ledgerVersion (lcl_header vw)) 11 then maxTxSetSize (lcl_header vw)
  else u32 (maxTxSetSize (lcl_header vw) * MAX_OPS_PER_TX).

Definition set_sizeOp (t : TxSetFrame) : Z := sizeOp (frame <$> mSetTransactions t).
Definition sizeTx (t : TxSetFrame) : Z := Z.of_nat (length (mSetTransactions t)).

Definition surgePricingFilter (mSeed : Z) (t : TxSetFrame) : ts TxSetFrame :=
  let maxIsOps := protocolVersionStartsFrom (ledgerVersion (lcl_header vw)) 11 in
  let opsLeft := lcl_maxTxSetSizeOps in
  let curSizeOps := if maxIsOps then set_sizeOp t else sizeTx t * MAX_OPS_PER_TX in
  if opsLeft <? curSizeOps then
    let queues := (map_to_list (buildAccountTxQueues t)).*2 in
    let? updatedSet := surge_loop (length (mSetTransactions t)) mSeed maxIsOps opsLeft queues in
    Ok (sortForHash (with_transactions updatedSet t))
  else Ok t.

(** ** Checking and trimming *)

Record TrimState := {
  tr_set : TxSetFrame;
  trimmed : list QueuedTx;
  accountFeeMap : gmap AccountID Z;
}.

Definition trim_tx (tx : QueuedTx) (s : TrimState) : TrimState :=
  {| tr_set := removeTx tx (tr_set s); trimmed := trimmed s ++ [tx]; accountFeeMap := accountFeeMap s |}.

Definition charge_tx (tx : QueuedTx) (s : TrimState) : TrimState :=
  let accFee := default 0 (accountFeeMap s !! tx_feeSourceID tx) in
  {| tr_set := tr_set s; trimmed := trimmed s;
     accountFeeMap := <[tx_feeSourceID tx :=
       if INT64_MAX - accFee <? tx_feeBid tx then INT64_MAX else accFee + tx_feeBid tx]> (accountFeeMap s) |}.

Section check.
Context (justCheck : bool) (lowerBoundCloseTimeOffset upperBoundCloseTimeOffset : Z).

(** The queue of one account: what is left of it; [None] if the set is refused. *)
Fixpoint check_queue (lastSeq : Z) (l : list QueuedTx) (s : TrimState) : option (list QueuedTx * TrimState) :=
  match l with
  | [] => Some ([], s)
  | tx :: l' =>
      if negb (tx_checkValid vw tx lastSeq lowerBoundCloseTimeOffset upperBoundCloseTimeOffset) then
        if justCheck then None else check_queue lastSeq l' (trim_tx tx s)
      else
        match check_queue (tx_seqNum tx) l' (charge_tx tx s) with
        | Some (l', s) => Some (tx :: l', s)
        | None => None
        end
  end.

Fixpoint check_queues (l : list (list QueuedTx)) (s : TrimState) : option (list (list QueuedTx) * TrimState) :=
  match l with
  | [] => Some ([], s)
  | queue :: l' =>
      match check_queue 0 queue s with
      | Some (queue, s) =>
          match check_queues l' s with
          | Some (l', s) => Some (queue :: l', s)
          | None => None
          end
      | None => None
      end
  end.

Fixpoint check_fees (l : list QueuedTx) (s : TrimState) : option TrimState :=
  match l with
  | [] => Some s
  | tx :: l' =>
      let totFee := default 0 (accountFeeMap s !! tx_feeSourceID tx) in
      if availableBalance vw (tx_feeSourceID tx) <? totFee then
        if justCheck then None else Some (foldl (fun s tx => trim_tx tx s) s l)
      else check_fees l' s
  end.

Fixpoint check_all_fees (l : list (list QueuedTx)) (s : TrimState) : option TrimState :=
  match l with
  | [] => Some s
  | queue :: l' => match check_fees queue s with Some s => check_all_fees l' s | None => None end
  end.

(** The answer, what was trimmed, and the set. *)
Definition checkOrTrim (t : TxSetFrame) : bool * list QueuedTx * TxSetFrame :=
  let accountTxMap := (map_to_list (buildAccountTxQueues t)).*2 in
  match check_queues accountTxMap {| tr_set := t; trimmed := []; accountFeeMap := ∅ |} with
  | None => (false, [], t)
  | Some (accountTxMap, s) =>
      match check_all_fees accountTxMap s with
      | None => (false, [], t)
      | Some s => (true, trimmed s, tr_set s)
      end
  end.
End check.

Definition trimInvalid (lower upper : Z) (t : TxSetFrame) : list QueuedTx * TxSetFrame :=
  let '(_, trimmed, t) := checkOrTrim false lower upper (sortForHash t) in (trimmed, t).

Definition set_size (lh : LedgerHeader) (t : TxSetFrame) : Z :=
  if protocolVersionStartsFrom (ledgerVersion lh) 11 then set_sizeOp t else sizeTx t.

(** [std::is_sorted]. *)
Fixpoint is_sorted (l : list QueuedTx) : bool :=
  match l with
  | a :: (b :: _) as l' => negb (fullHash b <? fullHash a) && is_sorted l'
  | _ => true
  end.

Definition remember (b : bool) (t : TxSetFrame) : bool * TxSetFrame :=
  (b, {| mHash := mHash t; mValid := Some (lcl_hash vw, b);
         mPreviousLedgerHash := mPreviousLedgerHash t; mSetTransactions := mSetTransactions t |}).

Definition set_checkValid (lower upper : Z) (t : TxSetFrame) : bool * TxSetFrame :=
  let check :=
    if negb (lcl_hash vw =? mPreviousLedgerHash t) then remember false t
    else if maxTxSetSize (lcl_header vw) <? set_size (lcl_header vw) t then remember false t
    else if negb (is_sorted (mSetTransactions t)) then remember false t
    else let '(valid, _, t) := checkOrTrim true lower upper t in remember valid t in
  match mValid t with
  | Some (hash, valid) => if hash =? lcl_hash vw then (valid, t) else check
  | None => check
  end.

(** The envelopes in their order, and the hash of the ledger before. *)
Definition toXDR (t : TxSetFrame) : ts (list TransactionFrameBase * Z) :=
  let? _ := ensure (is_sorted (mSetTransactions t)) NotSorted in
  Ok (frame <$> mSetTransactions t, mPreviousLedgerHash t).
End sets.
