(* ===== verification/TxSetTheorems.v ===== *)
(** * Transaction sets: checking, trimming, surge pricing, application

    What a transaction set is split into, per account, and what the functions of
    [TxSets] do to the parts: a set that was trimmed, and thinned out by surge
    pricing, passes the check; the order of application depends on the contents
    of the set only and respects the sequence numbers. *)
From stdpp Require Import base tactics numbers list sorting gmap.
From Stdlib Require Import ZArith Lia Bool.
From S2P Require Import Prelude Numeric OfferExchange LedgerEntries Balances Fees Containers TransactionQueue TxQueueTheorems TxSets.

Open Scope Z_scope.
Open Scope kin_scope.

(** ** The transactions of an account *)

Definition of_account (a : AccountID) (l : list QueuedTx) : list QueuedTx := filter (fun tx => tx_sourceID tx = a) l.

Lemma accounts_lookup (l : list QueuedTx) : forall (m : gmap AccountID (list QueuedTx)) (a : AccountID),
  foldl push_account m l !! a =
    match of_account a l with [] => m !! a | q => Some (default [] (m !! a) ++ q) end.
Proof.
  induction l as [|tx l IH]; intros m a; [done|]. cbn [foldl]. rewrite IH. unfold push_account, of_account at 2.
  rewrite filter_cons. fold (of_account a l). case_decide as Ha.
  - subst a. rewrite lookup_insert_eq. cbn [default from_option]. destruct (of_account _ l) as [|y l']; [done|]. cbn [id]. by rewrite <- (assoc_L (++)).
  - by rewrite lookup_insert_ne.
Qed.

Definition vals (m : gmap AccountID (list QueuedTx)) : list QueuedTx := concat (map_to_list m).*2.

Lemma vals_insert (m : gmap AccountID (list QueuedTx)) (a : AccountID) (q : list QueuedTx) :
  vals (<[a := q]> m) ≡ₚ q ++ vals (delete a m).
Proof. unfold vals. rewrite <- (insert_delete_eq m a q), map_to_list_insert by apply lookup_delete_eq. done. Qed.

Lemma vals_split (m : gmap AccountID (list QueuedTx)) (a : AccountID) : vals m ≡ₚ default [] (m !! a) ++ vals (delete a m).
Proof.
  destruct (m !! a) as [q|] eqn:E; [|by rewrite delete_id].
  rewrite <- (insert_id m a q E) at 1. by rewrite vals_insert.
Qed.

Lemma accounts_vals (l : list QueuedTx) : forall (m : gmap AccountID (list QueuedTx)), vals (foldl push_account m l) ≡ₚ vals m ++ l.
Proof.
  induction l as [|tx l IH]; intros m; [by rewrite app_nil_r|]. cbn [foldl]. rewrite IH. unfold push_account at 1.
  rewrite vals_insert, (vals_split m (tx_sourceID tx)). rewrite <- !app_assoc. f_equiv. simpl. by rewrite Permutation_middle.
Qed.

#[export] Instance seq_le_total : Total seq_le.
Proof. intros x y. unfold seq_le. lia. Qed.
#[export] Instance seq_le_trans : Transitive seq_le.
Proof. intros x y z. unfold seq_le. lia. Qed.
#[export] Instance hash_le_total : Total hash_le.
Proof. intros x y. unfold hash_le. lia. Qed.
#[export] Instance hash_le_trans : Transitive hash_le.
Proof. intros x y z. unfold hash_le. lia. Qed.
#[export] Instance xored_le_total h : Total (xored_le h).
Proof. intros x y. unfold xored_le. lia. Qed.
#[export] Instance xored_le_trans h : Transitive (xored_le h).
Proof. intros x y z. unfold xored_le. lia. Qed.

Lemma concat_sorted (Q : list (list QueuedTx)) : concat (merge_sort seq_le <$> Q) ≡ₚ concat Q.
Proof. induction Q as [|q Q IH]; [done|]. simpl. by rewrite merge_sort_Permutation, IH. Qed.

Lemma build_lookup (t : TxSetFrame) (a : AccountID) :
  buildAccountTxQueues t !! a =
    match of_account a (mSetTransactions t) with [] => None | q => Some (merge_sort seq_le q) end.
Proof.
  unfold buildAccountTxQueues. rewrite lookup_fmap, accounts_lookup, lookup_empty. by destruct (of_account _ _).
Qed.

Lemma build_vals (t : TxSetFrame) : vals (buildAccountTxQueues t) ≡ₚ mSetTransactions t.
Proof.
  unfold vals, buildAccountTxQueues. rewrite map_to_list_fmap.
  assert ((prod_map id (merge_sort seq_le) <$> map_to_list (foldl push_account ∅ (mSetTransactions t))).*2 =
    merge_sort seq_le <$> (map_to_list (foldl push_account ∅ (mSetTransactions t))).*2) as ->.
  { rewrite <- !list_fmap_compose. apply list_fmap_ext. by intros ? [? ?] ?. }
  rewrite concat_sorted. fold (vals (foldl push_account ∅ (mSetTransactions t))). by rewrite accounts_vals.
Qed.

Lemma build_nonempty (t : TxSetFrame) : Forall (fun q => q <> []) (map_to_list (buildAccountTxQueues t)).*2.
Proof.
  apply Forall_forall. intros q ([a q']&->&Hin%elem_of_map_to_list)%list_elem_of_fmap. simpl. rewrite build_lookup in Hin.
  destruct (of_account a _) as [|x l]; [done|]. injection Hin as <-. intros Hnil.
  pose proof (merge_sort_Permutation seq_le (x :: l)) as Hp. rewrite Hnil in Hp. by apply Permutation_nil in Hp.
Qed.

(** Lists of the transactions of different accounts. *)
Record by_account (ks : list AccountID) (Q : list (list QueuedTx)) : Prop := {
  ba_keys : NoDup ks;
  ba_queues : Forall2 (fun a q => Forall (fun tx => tx_sourceID tx = a) q) ks Q;
}.

Lemma build_by_account (t : TxSetFrame) :
  by_account (map_to_list (buildAccountTxQueues t)).*1 (map_to_list (buildAccountTxQueues t)).*2.
Proof.
  split; [apply NoDup_fst_map_to_list|]. apply Forall2_fmap_2, Forall_Forall2_diag, Forall_forall. intros [a q] Hin%elem_of_map_to_list. simpl.
  rewrite build_lookup in Hin. destruct (of_account a _) as [|x q'] eqn:E; [done|]. injection Hin as <-.
  rewrite merge_sort_Permutation, <- E. apply Forall_forall. by intros y [? _]%list_elem_of_filter.
Qed.

Lemma of_account_none (a : AccountID) (q : list QueuedTx) : Forall (fun tx => tx_sourceID tx <> a) q -> of_account a q = [].
Proof. intros Hq. induction Hq; [done|]. unfold of_account in *. rewrite filter_cons. by case_decide. Qed.

Lemma of_account_all (a : AccountID) (q : list QueuedTx) : Forall (fun tx => tx_sourceID tx = a) q -> of_account a q = q.
Proof. intros Hq. induction Hq as [|x q Hx _ IH]; [done|]. unfold of_account in *. rewrite filter_cons. case_decide; [by rewrite IH|done]. Qed.

Lemma of_account_app (a : AccountID) (l l' : list QueuedTx) : of_account a (l ++ l') = of_account a l ++ of_account a l'.
Proof. apply filter_app. Qed.

Lemma of_account_other (ks : list AccountID) (Q : list (list QueuedTx)) (a : AccountID) :
  by_account ks Q -> a ∉ ks -> of_account a (concat Q) = [].
Proof.
  intros [_ Hq] Ha. induction Hq as [|k q ks Q Hk _ IH]; [done|]. apply not_elem_of_cons in Ha as [Hne Ha]. simpl.
  rewrite of_account_app, IH, app_nil_r by done. apply of_account_none. eapply Forall_impl; [exact Hk|]. by intros ? ->.
Qed.

Lemma by_account_tail (a : AccountID) (ks : list AccountID) (q : list QueuedTx) (Q : list (list QueuedTx)) :
  by_account (a :: ks) (q :: Q) -> a ∉ ks /\ by_account ks Q /\ Forall (fun tx => tx_sourceID tx = a) q.
Proof. intros [[Hna Hn]%NoDup_cons Hq]. by inversion Hq. Qed.

(** What an account has in the whole is its own list. *)
Lemma of_account_concat (ks : list AccountID) (Q : list (list QueuedTx)) : by_account ks Q ->
  Forall2 (fun a q => of_account a (concat Q) = q) ks Q.
Proof.
  revert Q. induction ks as [|a ks IH]; intros [|q Q] Hb; [by constructor|destruct Hb as [_ Hq]; by inversion Hq..|].
  apply by_account_tail in Hb as (Ha&Hb&Hq). constructor.
  - simpl. by rewrite of_account_app, (of_account_other ks Q), app_nil_r, of_account_all.
  - pose proof (IH _ Hb) as HF. apply Forall2_same_length_lookup. split; [by apply Forall2_length in HF|]. intros i k q' Hk Hq'.
    simpl. rewrite of_account_app, of_account_none; [by eapply (Forall2_lookup_lr _ _ _ _ _ _ HF)|].
    eapply Forall_impl; [exact Hq|]. intros x -> <-. apply Ha. by eapply list_elem_of_lookup_2.
Qed.

Lemma by_account_shrink (R : relation (list QueuedTx)) (ks : list AccountID) (Q Q' : list (list QueuedTx)) :
  (forall q q', R q' q -> q' ⊆ q) -> by_account ks Q -> Forall2 R Q' Q -> by_account ks Q'.
Proof.
  intros HR [Hn Hq] HF. split; [done|]. clear Hn. revert Q' HF. induction Hq as [|a q ks Q Ha _ IH]; intros Q' HF; [inversion HF; constructor|].
  apply Forall2_cons_inv_r in HF as (q'&Q1&Hq'&HF&->). constructor; [|by apply IH]. rewrite Forall_forall in Ha |- *.
  intros x Hx. apply Ha. by apply (HR q q').
Qed.

(** ** Growing sequence numbers *)

Definition seq_lt (x y : QueuedTx) : Prop := tx_seqNum x < tx_seqNum y.

Lemma growing_unique (l l' : list QueuedTx) : StronglySorted seq_lt l -> StronglySorted seq_le l' -> l ≡ₚ l' -> l' = l.
Proof.
  intros Hl Hl' Hp. symmetry. apply (StronglySorted_unique_strong seq_le); [| |done|done].
  - intros x y Hx Hy%(elem_of_Permutation_proper _ _ _ (symmetry Hp)) Hxy Hyx. clear Hl' Hp. induction Hl as [|z l Hs IH Hz]; [by apply not_elem_of_nil in Hx|].
    rewrite Forall_forall in Hz. unfold seq_lt, seq_le in *.
    apply elem_of_cons in Hx as [->|Hx], Hy as [->|Hy]; [done|specialize (Hz _ Hy); lia|specialize (Hz _ Hx); lia|auto].
  - clear Hl' Hp. induction Hl as [|z l Hs IH Hz]; constructor; [done|]. eapply Forall_impl; [exact Hz|]. unfold seq_lt, seq_le. lia.
Qed.

(** The queues a set is split into, when it is known to be made of growing ones. *)
Lemma build_growing (t : TxSetFrame) (ks : list AccountID) (Q : list (list QueuedTx)) (q : list QueuedTx) :
  by_account ks Q -> mSetTransactions t ≡ₚ concat Q -> Forall (StronglySorted seq_lt) Q ->
  q ∈ (map_to_list (buildAccountTxQueues t)).*2 -> q ∈ Q.
Proof.
  intros Hb Hp Hs ([a q0]&->&Hin%elem_of_map_to_list)%list_elem_of_fmap. simpl. rewrite build_lookup in Hin.
  assert (of_account a (mSetTransactions t) ≡ₚ of_account a (concat Q)) as Ha by (unfold of_account; by rewrite Hp).
  destruct (decide (a ∈ ks)) as [Hk|Hk].
  - apply list_elem_of_lookup in Hk as [i Hi]. destruct (Forall2_lookup_l _ _ _ _ _ (of_account_concat _ _ Hb) Hi) as (q1&Hq1&Heq).
    rewrite Heq in Ha. assert (q0 = q1) as ->; [|by eapply list_elem_of_lookup_2].
    apply growing_unique; [by eapply Forall_lookup_1 in Hs|..].
    + destruct (of_account a _); [done|]. injection Hin as <-. apply StronglySorted_merge_sort; apply _.
    + rewrite <- Ha. destruct (of_account a _) as [|x l]; [done|]. injection Hin as <-. by rewrite merge_sort_Permutation.
  - rewrite (of_account_other ks Q a Hb Hk) in Ha. apply Permutation_nil_r in Ha. by rewrite Ha in Hin.
Qed.

(** ** Trimming *)

Section view.
Context (vw : SetView) (lower upper : Z).

(** What [checkValid] of a transaction promises. *)
Definition set_lawful : Prop := forall tx n, tx_checkValid vw tx n lower upper = true ->
  priced tx /\ 1 <= tx_seqNum tx /\ (n <> 0 -> tx_seqNum tx = n + 1).

Context (Hlaw : set_lawful).

(** Each transaction is valid after the one before it. *)
Fixpoint chain (n : Z) (l : list QueuedTx) : Prop :=
  match l with
  | [] => True
  | tx :: l' => tx_checkValid vw tx n lower upper = true /\ chain (tx_seqNum tx) l'
  end.

Lemma chain_growing (l : list QueuedTx) : forall n, chain n l ->
  StronglySorted seq_lt l /\ (n <> 0 -> Forall (fun tx => n < tx_seqNum tx) l).
Proof using Hlaw.
  induction l as [|tx l IH]; intros n Hc; [by split; constructor|]. destruct Hc as [Hv Hc]. destruct (Hlaw _ _ Hv) as (_&Hpos&Hnext).
  destruct (IH _ Hc) as [Hs Hf]. specialize (Hf ltac:(lia)). split; [by constructor|]. intros Hn. specialize (Hnext Hn).
  constructor; [lia|]. eapply Forall_impl; [exact Hf|]. simpl. lia.
Qed.

Lemma chain_prefix (p l : list QueuedTx) : p `prefix_of` l -> forall n, chain n l -> chain n p.
Proof using Type.
  intros [l' ->]. induction p as [|tx p IH]; intros n; [done|]. intros [Hv Hc]. split; [done|]. by apply IH.
Qed.

Lemma chain_priced (l : list QueuedTx) : forall n, chain n l -> Forall priced l.
Proof using Hlaw. induction l as [|tx l IH]; intros n Hc; constructor; destruct Hc as [Hv Hc]; [by apply Hlaw in Hv as [? _]|by eapply IH]. Qed.

Notation txs s := (mSetTransactions (tr_set s)).
Notation fee s a := (default 0 (accountFeeMap s !! a)).

(** Nothing is remembered of the set. *)
Definition forgotten (t : TxSetFrame) : Prop := mHash t = None /\ mValid t = None.

(** What trimming does to a set: transactions go to the list of those trimmed. *)
Record trims (s s' : TrimState) : Prop := {
  tm_sublist : sublist (txs s') (txs s);
  tm_previous : mPreviousLedgerHash (tr_set s') = mPreviousLedgerHash (tr_set s);
  tm_fresh : forgotten (tr_set s) -> forgotten (tr_set s');
  tm_moved : trimmed s' ++ txs s' ≡ₚ trimmed s ++ txs s;
}.

Lemma trims_refl (s : TrimState) : trims s s.
Proof using Type. by split. Qed.

Lemma trims_trans (s1 s2 s3 : TrimState) : trims s1 s2 -> trims s2 s3 -> trims s1 s3.
Proof using Type. intros [? ? ? H1] [? ? ? H2]. split; [by etrans|congruence|auto|by rewrite H2]. Qed.

Lemma erase_address_ok (tx : QueuedTx) (l : list QueuedTx) : NoDup (address <$> l) -> tx ∈ l ->
  l ≡ₚ tx :: erase_address (address tx) l /\ sublist (erase_address (address tx) l) l.
Proof using Type.
  intros Hn Hin. induction l as [|x l IH]; [by apply not_elem_of_nil in Hin|]. cbn [fmap list_fmap] in Hn. apply NoDup_cons in Hn as [Hx Hn]. simpl.
  destruct (Z.eqb_spec (address x) (address tx)) as [Ha|Ha].
  - apply elem_of_cons in Hin as [->|Hin]; [split; [done|by constructor]|]. exfalso. apply Hx. rewrite Ha. by apply list_elem_of_fmap_2.
  - apply elem_of_cons in Hin as [->|Hin]; [done|]. destruct (IH Hn Hin) as [Hp Hs]. split; [|by constructor].
    rewrite Permutation_swap. by f_equiv.
Qed.

Lemma trim_tx_ok (tx : QueuedTx) (s : TrimState) (R : list QueuedTx) :
  NoDup (address <$> txs s) -> txs s ≡ₚ tx :: R -> trims s (trim_tx tx s) /\ txs (trim_tx tx s) ≡ₚ R.
Proof using Type.
  intros Hn Hp. destruct (erase_address_ok tx (txs s) Hn) as [He Hs]; [rewrite Hp; left|].
  split; [split; simpl; [done|done|done|]|simpl; apply (Permutation_cons_inv (a := tx)); by rewrite <- He].
  rewrite <- app_assoc. simpl. f_equiv. by symmetry.
Qed.

Lemma trims_addresses (s s' : TrimState) : trims s s' -> NoDup (address <$> txs s) -> NoDup (address <$> txs s').
Proof using Type. intros Ht Hn. eapply sublist_NoDup; [exact Hn|]. apply fmap_sublist, Ht. Qed.

Lemma charge_tx_ok (tx : QueuedTx) (s : TrimState) (base : AccountID -> Z) :
  priced tx -> (forall a, 0 <= base a) -> (forall a, fee s a = Z.min INT64_MAX (base a)) ->
  forall a, fee (charge_tx tx s) a = Z.min INT64_MAX (base a + fees_of a [tx]).
Proof using Type.
  intros [Hf _] Hb Hs a. simpl. destruct (Z.eqb_spec (tx_feeSourceID tx) a) as [<-|Hne].
  - rewrite lookup_insert_eq, Hs. cbn [default from_option]. specialize (Hb (tx_feeSourceID tx)). unfold id, fees_of. simpl. rewrite Z.eqb_refl.
    destruct (Z.ltb_spec (INT64_MAX - Z.min INT64_MAX (base (tx_feeSourceID tx))) (tx_feeBid tx)); lia.
  - rewrite lookup_insert_ne, Hs by done. unfold fees_of. simpl. destruct (Z.eqb_spec (tx_feeSourceID tx) a); [done|]. f_equal. lia.
Qed.

Lemma trim_queue (l : list QueuedTx) : forall (n : Z) (s : TrimState) (R : list QueuedTx) (base : AccountID -> Z),
  NoDup (address <$> txs s) -> txs s ≡ₚ l ++ R -> (forall a, 0 <= base a) -> (forall a, fee s a = Z.min INT64_MAX (base a)) ->
  exists kept s', check_queue vw false lower upper n l s = Some (kept, s') /\ chain n kept /\ sublist kept l /\
    trims s s' /\ txs s' ≡ₚ kept ++ R /\ forall a, fee s' a = Z.min INT64_MAX (base a + fees_of a kept).
Proof using Hlaw.
  induction l as [|tx l IH]; intros n s R base Hn Hp Hb Hf.
  { exists [], s. split; [done|]. split; [done|]. split; [done|]. split; [apply trims_refl|]. split; [done|].
    intros a. rewrite Hf. f_equal. unfold fees_of. simpl. lia. }
  cbn [check_queue]. destruct (tx_checkValid vw tx n lower upper) eqn:Hv; cbn [negb].
  - destruct (Hlaw _ _ Hv) as (Hpr&_). destruct (IH (tx_seqNum tx) (charge_tx tx s) (tx :: R) (fun a => base a + fees_of a [tx])) as (kept&s'&HE&Hc&Hsub&Ht&Htx&Hf').
    + done.
    + simpl. rewrite Hp. simpl. by rewrite Permutation_middle.
    + intros a. specialize (Hb a). pose proof (fees_nonneg a [tx] (Forall_cons_2 _ _ _ Hpr (Forall_nil_2 _))). lia.
    + by apply charge_tx_ok.
    + rewrite HE. exists (tx :: kept), s'. split; [done|]. split; [done|]. split; [by constructor|]. split; [|split].
      * destruct Ht as [Ht1 Ht2 Ht3 Ht4]. by split.
      * rewrite Htx. simpl. by rewrite Permutation_middle.
      * intros a. rewrite Hf'. f_equal. rewrite (fees_cons a tx kept), (fees_cons a tx []). change (fees_of a []) with 0. lia.
  - destruct (trim_tx_ok tx s (l ++ R) Hn Hp) as [Ht Htx].
    destruct (IH n (trim_tx tx s) R base) as (kept&s'&HE&Hc&Hsub&Ht'&Htx'&Hf'); [by eapply trims_addresses|done|done|done|].
    exists kept, s'. split; [done|]. split; [done|]. split; [by constructor|]. split; [by eapply trims_trans|done].
Qed.

Lemma trim_queues (Q : list (list QueuedTx)) : forall (s : TrimState) (R : list QueuedTx) (base : AccountID -> Z),
  NoDup (address <$> txs s) -> txs s ≡ₚ concat Q ++ R -> (forall a, 0 <= base a) -> (forall a, fee s a = Z.min INT64_MAX (base a)) ->
  exists Q' s', check_queues vw false lower upper Q s = Some (Q', s') /\ Forall (chain 0) Q' /\ Forall2 sublist Q' Q /\
    trims s s' /\ txs s' ≡ₚ concat Q' ++ R /\ forall a, fee s' a = Z.min INT64_MAX (base a + fees_of a (concat Q')).
Proof using Hlaw.
  induction Q as [|q Q IH]; intros s R base Hn Hp Hb Hf.
  { exists [], s. split; [done|]. split; [constructor|]. split; [constructor|]. split; [apply trims_refl|]. split; [done|].
    intros a. rewrite Hf. f_equal. change (fees_of a (concat [])) with 0. lia. }
  simpl in Hp. rewrite <- app_assoc in Hp.
  destruct (trim_queue q 0 s _ base Hn Hp Hb Hf) as (k&s1&E1&Hc1&Hsub1&Ht1&Htx1&Hf1).
  destruct (IH s1 (k ++ R) (fun a => base a + fees_of a k)) as (Q'&s2&E2&Hc2&Hsub2&Ht2&Htx2&Hf2).
  - by eapply trims_addresses.
  - rewrite Htx1. by rewrite !app_assoc, (Permutation_app_comm k).
  - intros a. specialize (Hb a). pose proof (fees_nonneg a k (chain_priced _ _ Hc1)). lia.
  - done.
  - cbn [check_queues]. rewrite E1, E2. exists (k :: Q'), s2. split; [done|]. split; [by constructor|]. split; [by constructor|].
    split; [by eapply trims_trans|]. split; [rewrite Htx2; simpl; by rewrite !app_assoc, (Permutation_app_comm k)|].
    intros a. rewrite Hf2. simpl. rewrite fees_app. f_equal. lia.
Qed.

Lemma trim_rest (l : list QueuedTx) : forall (s : TrimState) (R : list QueuedTx), NoDup (address <$> txs s) -> txs s ≡ₚ l ++ R ->
  let s' := foldl (fun s tx => trim_tx tx s) s l in trims s s' /\ txs s' ≡ₚ R /\ accountFeeMap s' = accountFeeMap s.
Proof using Type.
  induction l as [|tx l IH]; intros s R Hn Hp; [split; [apply trims_refl|done]|]. simpl.
  destruct (trim_tx_ok tx s (l ++ R) Hn Hp) as [Ht Htx]. destruct (IH (trim_tx tx s) R) as (Ht'&Htx'&Hf'); [by eapply trims_addresses|done|].
  split; [by eapply trims_trans|]. split; [done|]. by rewrite Hf'.
Qed.

Lemma trim_fees (l : list QueuedTx) : forall (s : TrimState) (R : list QueuedTx), NoDup (address <$> txs s) -> txs s ≡ₚ l ++ R ->
  exists p s', check_fees vw false l s = Some s' /\ p `prefix_of` l /\
    Forall (fun tx => fee s (tx_feeSourceID tx) <= availableBalance vw (tx_feeSourceID tx)) p /\
    trims s s' /\ txs s' ≡ₚ p ++ R /\ accountFeeMap s' = accountFeeMap s.
Proof using Type.
  induction l as [|tx l IH]; intros s R Hn Hp.
  { exists [], s. split; [done|]. split; [done|]. split; [constructor|]. split; [apply trims_refl|done]. }
  cbn [check_fees]. destruct (Z.ltb_spec (availableBalance vw (tx_feeSourceID tx)) (fee s (tx_feeSourceID tx))) as [Hlt|Hle].
  - exists [], (foldl (fun s tx => trim_tx tx s) s (tx :: l)). split; [done|]. split; [apply prefix_nil|]. split; [constructor|]. by apply trim_rest.
  - destruct (IH s (tx :: R) Hn) as (p&s'&E&Hpre&Hall&Ht&Htx&Hf); [by rewrite Hp; simpl; rewrite Permutation_middle|].
    exists (tx :: p), s'. split; [done|]. split; [by apply prefix_cons|]. split; [by constructor|]. split; [done|]. split; [|done].
    rewrite Htx. simpl. by rewrite Permutation_middle.
Qed.

Lemma trim_all_fees (Q : list (list QueuedTx)) : forall (s : TrimState) (R : list QueuedTx), NoDup (address <$> txs s) -> txs s ≡ₚ concat Q ++ R ->
  exists Q' s', check_all_fees vw false Q s = Some s' /\ Forall2 prefix Q' Q /\
    Forall (fun tx => fee s (tx_feeSourceID tx) <= availableBalance vw (tx_feeSourceID tx)) (concat Q') /\
    trims s s' /\ txs s' ≡ₚ concat Q' ++ R.
Proof using Type.
  induction Q as [|q Q IH]; intros s R Hn Hp.
  { exists [], s. split; [done|]. split; [constructor|]. split; [constructor|]. split; [apply trims_refl|done]. }
  simpl in Hp. rewrite <- app_assoc in Hp. destruct (trim_fees q s _ Hn Hp) as (p&s1&E1&Hpre&Hall&Ht1&Htx1&Hf1).
  destruct (IH s1 (p ++ R)) as (Q'&s2&E2&HQ&Hall2&Ht2&Htx2).
  - by eapply trims_addresses.
  - rewrite Htx1. by rewrite !app_assoc, (Permutation_app_comm p).
  - cbn [check_all_fees]. rewrite E1, E2. exists (p :: Q'), s2. split; [done|]. split; [by constructor|].
    split; [simpl; apply Forall_app_2; [done|by rewrite Hf1 in Hall2]|]. split; [by eapply trims_trans|].
    rewrite Htx2. simpl. by rewrite !app_assoc, (Permutation_app_comm p).
Qed.

(** ** Sets that pass the check *)

(** What a set must be made of to pass. *)
Definition good (l : list QueuedTx) : Prop :=
  exists ks Q, by_account ks Q /\ l ≡ₚ concat Q /\ Forall (chain 0) Q /\
    Forall (fun tx => Z.min INT64_MAX (fees_of (tx_feeSourceID tx) l) <= availableBalance vw (tx_feeSourceID tx)) l.

Lemma chains_priced (Q : list (list QueuedTx)) : Forall (chain 0) Q -> Forall priced (concat Q).
Proof using Hlaw. induction 1; simpl; [constructor|]. apply Forall_app_2; [by eapply chain_priced|done]. Qed.

Lemma prefixes_split (Q' Q : list (list QueuedTx)) : Forall2 prefix Q' Q -> exists k, concat Q ≡ₚ concat Q' ++ k.
Proof using Type.
  induction 1 as [|q' q Q' Q [r ->] _ [k Hk]]; [by exists []|]. exists (r ++ k). simpl. rewrite Hk.
  rewrite <- !app_assoc. f_equiv. rewrite !app_assoc. f_equiv. apply Permutation_app_comm.
Qed.

(** Cutting the queues of an account short keeps a set good. *)
Lemma good_cut (ks : list AccountID) (Q Q' : list (list QueuedTx)) (l' : list QueuedTx) :
  by_account ks Q -> Forall (chain 0) Q -> Forall2 prefix Q' Q -> l' ≡ₚ concat Q' ->
  Forall (fun tx => Z.min INT64_MAX (fees_of (tx_feeSourceID tx) (concat Q)) <= availableBalance vw (tx_feeSourceID tx)) l' -> good l'.
Proof using Hlaw.
  intros Hb Hc HF Hp Hall. exists ks, Q'. split; [|split; [done|split]].
  - eapply by_account_shrink; [|exact Hb|exact HF]. intros q q' [r ->]. set_solver.
  - clear -Hc HF Hlaw. induction HF as [|q' q Q' Q Hpre _ IH]; inversion Hc; constructor; [by eapply chain_prefix|auto].
  - destruct (prefixes_split _ _ HF) as [k Hk]. pose proof (chains_priced _ Hc) as Hpr. rewrite Hk in Hpr. apply Forall_app in Hpr as [_ Hpr].
    eapply Forall_impl; [exact Hall|]. intros tx Htx. simpl in *.
    rewrite Hk, fees_app in Htx. rewrite Hp.
    pose proof (fees_nonneg (tx_feeSourceID tx) k Hpr). lia.
Qed.

Lemma trim_good (t : TxSetFrame) : NoDup (address <$> mSetTransactions t) -> forgotten t ->
  exists removed t', checkOrTrim vw false lower upper t = (true, removed, t') /\ good (mSetTransactions t') /\
    sublist (mSetTransactions t') (mSetTransactions t) /\ removed ++ mSetTransactions t' ≡ₚ mSetTransactions t /\
    mPreviousLedgerHash t' = mPreviousLedgerHash t /\ forgotten t'.
Proof using Hlaw.
  intros Hn Hv. unfold checkOrTrim. set (s0 := {| tr_set := t; trimmed := []; accountFeeMap := ∅ |}).
  pose proof (build_by_account t) as Hb. set (Q := (map_to_list (buildAccountTxQueues t)).*2) in *. set (ks := (map_to_list (buildAccountTxQueues t)).*1) in *.
  assert (txs s0 ≡ₚ concat Q ++ []) as Hp by (rewrite app_nil_r; symmetry; apply build_vals).
  destruct (trim_queues Q s0 [] (fun _ => 0) Hn Hp) as (Q1&s1&E1&Hc1&Hsub1&Ht1&Htx1&Hf1); [done|done|].
  rewrite app_nil_r in Htx1. destruct (trim_all_fees Q1 s1 []) as (Q2&s2&E2&Hpre&Hall&Ht2&Htx2); [by eapply trims_addresses|by rewrite app_nil_r|].
  rewrite app_nil_r in Htx2. rewrite E1, E2. exists (trimmed s2), (tr_set s2). pose proof (trims_trans _ _ _ Ht1 Ht2) as Ht.
  split; [done|]. split; [|split; [apply Ht|split; [apply Ht|split; [apply Ht|by apply Ht]]]].
  apply (good_cut ks Q1 Q2); [|done|done|done|].
  - eapply by_account_shrink; [|exact Hb|exact Hsub1]. intros q q' Hs x Hx. by eapply elem_of_sublist.
  - rewrite Htx2. eapply Forall_impl; [exact Hall|]. intros tx. simpl. by rewrite Hf1.
Qed.

Lemma accept_queue (l : list QueuedTx) : forall (n : Z) (s : TrimState) (base : AccountID -> Z),
  chain n l -> (forall a, 0 <= base a) -> (forall a, fee s a = Z.min INT64_MAX (base a)) ->
  exists s', check_queue vw true lower upper n l s = Some (l, s') /\ (tr_set s' = tr_set s /\ trimmed s' = trimmed s) /\
    forall a, fee s' a = Z.min INT64_MAX (base a + fees_of a l).
Proof using Hlaw.
  induction l as [|tx l IH]; intros n s base Hc Hb Hf.
  { exists s. split; [done|]. split; [done|]. intros a. rewrite Hf. f_equal. change (fees_of a []) with 0. lia. }
  destruct Hc as [Hv Hc]. destruct (Hlaw _ _ Hv) as (Hpr&_). cbn [check_queue]. rewrite Hv. cbn [negb].
  destruct (IH (tx_seqNum tx) (charge_tx tx s) (fun a => base a + fees_of a [tx]) Hc) as (s'&E&Hs&Hf').
  - intros a. specialize (Hb a). pose proof (fees_nonneg a [tx] (Forall_cons_2 _ _ _ Hpr (Forall_nil_2 _))). lia.
  - by apply charge_tx_ok.
  - rewrite E. exists s'. split; [done|]. split; [done|]. intros a. rewrite Hf'. f_equal.
    rewrite (fees_cons a tx l), (fees_cons a tx []). change (fees_of a []) with 0. lia.
Qed.

Lemma accept_queues (Q : list (list QueuedTx)) : forall (s : TrimState) (base : AccountID -> Z),
  Forall (chain 0) Q -> (forall a, 0 <= base a) -> (forall a, fee s a = Z.min INT64_MAX (base a)) ->
  exists s', check_queues vw true lower upper Q s = Some (Q, s') /\ (tr_set s' = tr_set s /\ trimmed s' = trimmed s) /\
    forall a, fee s' a = Z.min INT64_MAX (base a + fees_of a (concat Q)).
Proof using Hlaw.
  induction Q as [|q Q IH]; intros s base Hc Hb Hf.
  { exists s. split; [done|]. split; [done|]. intros a. rewrite Hf. f_equal. change (fees_of a (concat [])) with 0. lia. }
  inversion Hc as [|? ? Hq HQ]; subst. destruct (accept_queue q 0 s base Hq Hb Hf) as (s1&E1&Hs1&Hf1).
  destruct (IH s1 (fun a => base a + fees_of a q) HQ) as (s2&E2&Hs2&Hf2); [|done|].
  - intros a. specialize (Hb a). pose proof (fees_nonneg a q (chain_priced _ _ Hq)). lia.
  - cbn [check_queues]. rewrite E1, E2. exists s2. split; [done|]. split; [destruct Hs1, Hs2; split; congruence|].
    intros a. rewrite Hf2. simpl. rewrite fees_app. f_equal. lia.
Qed.

Lemma accept_all_fees (Q : list (list QueuedTx)) (s : TrimState) :
  Forall (fun tx => fee s (tx_feeSourceID tx) <= availableBalance vw (tx_feeSourceID tx)) (concat Q) ->
  check_all_fees vw true Q s = Some s.
Proof using Type.
  assert (forall l, Forall (fun tx => fee s (tx_feeSourceID tx) <= availableBalance vw (tx_feeSourceID tx)) l ->
    check_fees vw true l s = Some s) as Hone.
  { induction 1 as [|tx l Htx _ IH]; [done|]. cbn [check_fees]. by destruct (Z.ltb_spec (availableBalance vw (tx_feeSourceID tx)) (fee s (tx_feeSourceID tx))); [lia|]. }
  induction Q as [|q Q IH]; simpl; [done|]. intros [Hq HQ]%Forall_app. by rewrite Hone, IH.
Qed.

(** The queues of a good set. *)
Lemma good_build (t : TxSetFrame) : good (mSetTransactions t) -> Forall (chain 0) (map_to_list (buildAccountTxQueues t)).*2.
Proof using Hlaw.
  intros (ks&Q&Hb&Hp&Hc&_). rewrite Forall_forall in Hc. apply Forall_forall. intros q Hq. apply Hc.
  eapply build_growing; [exact Hb|exact Hp| |exact Hq]. apply Forall_forall. intros q' Hq'. by apply (chain_growing q' 0), Hc.
Qed.

Lemma build_concat (t : TxSetFrame) : concat (map_to_list (buildAccountTxQueues t)).*2 ≡ₚ mSetTransactions t.
Proof using Type. apply build_vals. Qed.

Lemma good_fees (t : TxSetFrame) : good (mSetTransactions t) ->
  Forall (fun tx => Z.min INT64_MAX (fees_of (tx_feeSourceID tx) (mSetTransactions t)) <= availableBalance vw (tx_feeSourceID tx)) (mSetTransactions t).
Proof using Type. by intros (ks&Q&_&_&_&Hall). Qed.

Lemma good_accepted (t : TxSetFrame) : good (mSetTransactions t) -> checkOrTrim vw true lower upper t = (true, [], t).
Proof using Hlaw.
  intros Hg. unfold checkOrTrim.
  destruct (accept_queues _ {| tr_set := t; trimmed := []; accountFeeMap := ∅ |} (fun _ => 0) (good_build t Hg)) as (s&E&[Hs Htr]&Hf); [done|done|].
  rewrite E, accept_all_fees; [by rewrite Htr, Hs|]. rewrite build_concat. eapply Forall_impl; [by apply good_fees|].
  intros tx. simpl. by rewrite Hf, build_concat.
Qed.

(** ** Surge pricing *)

Definition live (q : list QueuedTx) : Prop := q <> [] /\ Forall priced q.

Lemma surge_less_ok (seed : Z) (q q' : list QueuedTx) : live q -> live q' -> exists b, surge_less seed q q' = Ok b.
Proof using Type.
  intros [Hne Hq] [Hne' Hq']. destruct q as [|x q], q' as [|y q']; try done. inversion Hq; inversion Hq'; subst.
  simpl. rewrite compareTxs_ok by done. by eexists.
Qed.

Lemma surge_top_ok (seed : Z) (l : list (list QueuedTx)) : forall cur, live cur -> Forall live l ->
  exists top rest, surge_top seed cur l = Ok (top, rest) /\ top :: rest ≡ₚ cur :: l.
Proof using Type.
  induction l as [|q l IH]; intros cur Hc Hl; [by exists cur, []|]. apply Forall_cons in Hl as [Hq Hl]. simpl.
  destruct (surge_less_ok seed cur q Hc Hq) as [b ->]. cbn [res_bind]. destruct b.
  - destruct (IH q Hq Hl) as (top&rest&->&Hp). exists top, (cur :: rest). split; [done|]. by rewrite Permutation_swap, Hp.
  - destruct (IH cur Hc Hl) as (top&rest&->&Hp). exists top, (q :: rest). split; [done|]. by rewrite Permutation_swap, Hp, Permutation_swap.
Qed.

(** A transaction is taken only after those before it in its account. *)
Definition thinned (Q : list (list QueuedTx)) (l : list QueuedTx) : Prop :=
  exists Q', l ≡ₚ concat Q' /\ Forall2 prefix Q' Q.

Lemma thinned_Permutation (Q1 Q2 : list (list QueuedTx)) (l : list QueuedTx) : Q1 ≡ₚ Q2 -> thinned Q1 l -> thinned Q2 l.
Proof using Type.
  intros HQ (Q'&Hl&HF). apply Forall2_flip in HF. destruct (Permutation_Forall2 HQ HF) as (Q''&Hp&HF'').
  exists Q''. split; [by rewrite Hl, Hp|by apply Forall2_flip].
Qed.

Definition surge_size (maxIsOps : bool) (l : list QueuedTx) : Z := zsum (surge_ops maxIsOps <$> l).

Lemma surge_loop_ok (fuel : nat) (seed : Z) (m : bool) : forall (Q : list (list QueuedTx)) (opsLeft : Z),
  Forall live Q -> (length (concat Q) <= fuel)%nat -> 0 <= opsLeft ->
  exists l, surge_loop fuel seed m opsLeft Q = Ok l /\ thinned Q l /\ surge_size m l <= opsLeft.
Proof using Type.
  assert (forall Q : list (list QueuedTx), thinned Q []) as Hnil.
  { induction Q as [|q Q (Q'&Hp&HF)]; [by exists []|]. exists ([] :: Q'). split; [done|]. constructor; [apply prefix_nil|done]. }
  induction fuel as [|fuel IH]; intros Q opsLeft Hl Hlen Hpos.
  { destruct Q as [|q Q]; [exists []; split; [done|split; [done|done]]|]. apply Forall_cons in Hl as [[Hne _] _].
    destruct q; [done|]. simpl in Hlen. lia. }
  destruct Q as [|q Q]; [exists []; split; [done|split; [done|done]]|]. cbn [surge_loop].
  destruct (Z.leb_spec opsLeft 0) as [Hz|Hz]; [exists []; split; [done|split; [done|done]]|].
  apply Forall_cons in Hl as [Hq HQ]. destruct (surge_top_ok seed Q q Hq HQ) as (top&rest&->&Hp). cbn [res_bind].
  assert (Forall live (top :: rest)) as Hl by (rewrite Hp; by constructor). apply Forall_cons in Hl as [[Hne Hpr] Hrest].
  assert (length (concat (top :: rest)) <= S fuel)%nat as Hlen' by (by rewrite Hp).
  destruct top as [|x cur]; [done|]. apply Forall_cons in Hpr as [Hx Hcur].
  destruct (Z.leb_spec (surge_ops m x) opsLeft) as [Hfit|Hno].
  - destruct (IH (match cur with [] => rest | _ => cur :: rest end) (opsLeft - surge_ops m x)) as (l&->&(Q'&Hl&HF)&Hsize).
    + destruct cur; [done|]. by constructor.
    + destruct cur; simpl in *; lia.
    + lia.
    + exists (x :: l). split; [done|]. split; [|change (surge_size m (x :: l)) with (surge_ops m x + surge_size m l); lia]. eapply thinned_Permutation; [exact Hp|].
      destruct cur as [|y cur].
      * exists ([x] :: Q'). split; [simpl; by f_equiv|]. by constructor.
      * apply Forall2_cons_inv_r in HF as (p&P&Hpre&HP&->). exists ((x :: p) :: P). split; [simpl; by f_equiv|]. constructor; [by apply prefix_cons|done].
  - destruct (IH rest opsLeft) as (l&->&(Q'&Hl&HF)&Hsize); [done|simpl in Hlen'; rewrite length_app in Hlen'; lia|lia|].
    exists l. split; [done|]. split; [|done]. eapply thinned_Permutation; [exact Hp|]. exists ([] :: Q'). split; [done|].
    constructor; [apply prefix_nil|done].
Qed.

Lemma sizeOp_ops (l : list QueuedTx) : sizeOp (frame <$> l) = ops l.
Proof using Type.
  unfold sizeOp. assert (forall n, foldl (fun a tx => a + base_numOperations tx) n (frame <$> l) = n + ops l) as H; [|by rewrite H].
  induction l as [|x l IH]; intros n; simpl; [by rewrite Z.add_0_r|]. rewrite IH. change (ops (x :: l)) with (base_numOperations (frame x) + ops l). lia.
Qed.

Lemma surge_size_eq (m : bool) (l : list QueuedTx) :
  surge_size m l = if m then ops l else Z.of_nat (length l) * MAX_OPS_PER_TX.
Proof using Type.
  destruct m; [done|]. induction l as [|x l IH]; [done|].
  change (surge_size false (x :: l)) with (MAX_OPS_PER_TX + surge_size false l). rewrite IH. simpl length. lia.
Qed.

Lemma is_sorted_iff (l : list QueuedTx) : is_sorted l = true <-> Sorted hash_le l.
Proof using Type.
  induction l as [|x l IH]; [by split; [constructor|]|]. destruct l as [|y l]; [split; [by repeat constructor|done]|].
  change (is_sorted (x :: y :: l)) with (negb (fullHash y <? fullHash x) && is_sorted (y :: l)).
  rewrite andb_true_iff, negb_true_iff, Z.ltb_ge, IH. split.
  - intros [Hxy Hs]. constructor; [done|]. by constructor.
  - intros Hs. apply Sorted_inv in Hs as [Hs Hh]. split; [|done]. by inversion Hh.
Qed.

Lemma sortForHash_sorted (t : TxSetFrame) : Sorted hash_le (mSetTransactions (sortForHash t)).
Proof using Type. apply Sorted_merge_sort, _. Qed.

Lemma build_live (t : TxSetFrame) : good (mSetTransactions t) -> Forall live (map_to_list (buildAccountTxQueues t)).*2.
Proof using Hlaw.
  intros Hg. apply Forall_and. split; [apply build_nonempty|]. eapply Forall_impl; [by apply good_build|]. intros q. by apply chain_priced.
Qed.

Lemma lcl_maxTxSetSizeOps_range : is_u32 (maxTxSetSize (lcl_header vw)) ->
  0 <= lcl_maxTxSetSizeOps vw <= (if protocolVersionStartsFrom (ledgerVersion (lcl_header vw)) 11 then 1 else MAX_OPS_PER_TX) * maxTxSetSize (lcl_header vw).
Proof using Type.
  intros Hm. unfold lcl_maxTxSetSizeOps. destruct (protocolVersionStartsFrom _ _); [unfold_ints; lia|].
  pose proof (u32_range (maxTxSetSize (lcl_header vw) * MAX_OPS_PER_TX)) as Hr. split; [unfold_ints; lia|].
  unfold u32. etrans; [apply Z.mod_le; unfold_ints; unfold MAX_OPS_PER_TX; lia|lia].
Qed.

Lemma surge_good (seed : Z) (t : TxSetFrame) :
  good (mSetTransactions t) -> is_u32 (maxTxSetSize (lcl_header vw)) -> forgotten t -> Sorted hash_le (mSetTransactions t) ->
  exists t', surgePricingFilter vw seed t = Ok t' /\ good (mSetTransactions t') /\ mSetTransactions t' ⊆+ mSetTransactions t /\
    Sorted hash_le (mSetTransactions t') /\ mPreviousLedgerHash t' = mPreviousLedgerHash t /\ forgotten t' /\
    set_size (lcl_header vw) t' <= maxTxSetSize (lcl_header vw).
Proof using Hlaw.
  intros Hg Hm Hv Hs. unfold surgePricingFilter, set_size. pose proof (lcl_maxTxSetSizeOps_range Hm) as Hr.
  set (m := protocolVersionStartsFrom _ _) in *. set (lim := lcl_maxTxSetSizeOps vw) in *.
  assert (forall x, (if m then set_sizeOp x else sizeTx x * MAX_OPS_PER_TX) = surge_size m (mSetTransactions x)) as Hsize.
  { intros x. rewrite surge_size_eq. destruct m; [|done]. unfold set_sizeOp. by rewrite sizeOp_ops. }
  assert (forall x, surge_size m (mSetTransactions x) <= lim -> (if m then set_sizeOp x else sizeTx x) <= maxTxSetSize (lcl_header vw)) as Hfits.
  { intros x Hx. rewrite <- Hsize in Hx. destruct m; [lia|]. unfold MAX_OPS_PER_TX in *. lia. }
  rewrite Hsize. destruct (Z.ltb_spec lim (surge_size m (mSetTransactions t))) as [Hlt|Hle].
  - destruct (surge_loop_ok (length (mSetTransactions t)) seed m _ lim (build_live t Hg)) as (l&->&Hth&Hl); [by rewrite build_concat|lia|].
    cbn [res_bind]. eexists. split; [done|]. destruct Hth as (Q'&Hp&HF). pose proof (merge_sort_Permutation hash_le l) as Hms.
    destruct (prefixes_split _ _ HF) as [k Hk]. rewrite build_concat in Hk.
    split; [|split; [|split; [apply sortForHash_sorted|split; [done|split; [done|]]]]].
    + eapply good_cut; [apply build_by_account|by apply good_build|exact HF|simpl; by rewrite Hms|].
      simpl. rewrite Hms, Hp. pose proof (Permutation_Forall Hk (good_fees t Hg)) as Hall. apply Forall_app in Hall as [Hall _].
      eapply Forall_impl; [exact Hall|]. intros tx Htx. by rewrite build_concat.
    + simpl. rewrite Hms, Hp, Hk. apply submseteq_inserts_r. done.
    + apply Hfits. simpl. unfold surge_size in *. by rewrite Hms.
  - exists t. split; [done|]. split; [done|]. split; [done|]. split; [done|]. split; [done|]. split; [done|]. by apply Hfits.
Qed.

Lemma check_passes (t : TxSetFrame) :
  good (mSetTransactions t) -> Sorted hash_le (mSetTransactions t) -> mPreviousLedgerHash t = lcl_hash vw -> mValid t = None ->
  set_size (lcl_header vw) t <= maxTxSetSize (lcl_header vw) -> set_checkValid vw lower upper t = remember vw true t.
Proof using Hlaw.
  intros Hg Hs Hprev Hv Hsize. unfold set_checkValid. rewrite Hv, Hprev, Z.eqb_refl. cbn [negb].
  destruct (Z.ltb_spec (maxTxSetSize (lcl_header vw)) (set_size (lcl_header vw) t)); [lia|].
  apply is_sorted_iff in Hs. by rewrite Hs, good_accepted.
Qed.

(** A set that was trimmed, and thinned out by surge pricing, passes the check. *)
Lemma proposal_passes (seed : Z) (t : TxSetFrame) :
  NoDup (address <$> mSetTransactions t) -> mPreviousLedgerHash t = lcl_hash vw -> is_u32 (maxTxSetSize (lcl_header vw)) ->
  exists removed t1 t2, trimInvalid vw lower upper t = (removed, t1) /\ surgePricingFilter vw seed t1 = Ok t2 /\
    set_checkValid vw lower upper t2 = remember vw true t2 /\ good (mSetTransactions t2) /\ Sorted hash_le (mSetTransactions t2) /\
    set_size (lcl_header vw) t2 <= maxTxSetSize (lcl_header vw) /\ mPreviousLedgerHash t2 = mPreviousLedgerHash t /\ forgotten t2 /\
    removed ++ mSetTransactions t1 ≡ₚ mSetTransactions t /\ mSetTransactions t2 ⊆+ mSetTransactions t1.
Proof using Hlaw.
  intros Hn Hprev Hm. unfold trimInvalid. pose proof (merge_sort_Permutation hash_le (mSetTransactions t)) as Hms.
  destruct (trim_good (sortForHash t)) as (removed&t1&->&Hg&Hsub&Hp&Hprev1&Hv1); [simpl; by rewrite Hms|done|].
  assert (Sorted hash_le (mSetTransactions t1)) as Hs1.
  { apply StronglySorted_Sorted. pose proof (Sorted_StronglySorted hash_le _ (sortForHash_sorted t)) as Hss. clear -Hss Hsub.
    induction Hsub as [|x l1 l2 Hl IH|x l1 l2 Hl IH]; [done|..]; apply StronglySorted_inv in Hss as [Hss Hx]; [|auto].
    constructor; [auto|]. rewrite Forall_forall in Hx |- *. intros y Hy. by eapply Hx, elem_of_sublist. }
  destruct (surge_good seed t1 Hg Hm Hv1 Hs1) as (t2&E2&Hg2&Hsub2&Hs2&Hprev2&Hv2&Hsize2).
  exists removed, t1, t2. split; [done|]. split; [done|]. split; [apply check_passes; [done|done|by rewrite Hprev2, Hprev1|apply Hv2|done]|].
  split; [done|]. split; [done|]. split; [done|]. split; [by rewrite Hprev2, Hprev1|]. split; [done|]. split; [|done].
  rewrite Hp. simpl. by rewrite Hms.
Qed.
End view.
