(* ===== verification/TxSetApply.v ===== *)
(** * Transaction sets: what the check accepts, and the order of application

    The check of [TxSets] accepts exactly the sets made of valid chains whose fees
    are covered; a set it accepts is applied in an order that depends on its
    contents only. *)
From stdpp Require Import base tactics numbers list sorting gmap.
From Stdlib Require Import ZArith Lia Bool.
From S2P Require Import Prelude Numeric OfferExchange LedgerEntries Balances Fees Containers TransactionQueue TxQueueTheorems TxSets TxSetTheorems.

Open Scope Z_scope.
Open Scope kin_scope.

Section view.
Context (vw : SetView) (lower upper : Z) (Hlaw : set_lawful vw lower upper).
Notation chain := (chain vw lower upper).
Notation good := (good vw lower upper).
Notation fee s a := (default 0 (accountFeeMap s !! a)).

(** ** What the check accepts *)

Lemma accepted_queue (l : list QueuedTx) : forall (n : Z) (s : TrimState),
  isSome (check_queue vw true lower upper n l s) = true -> chain n l.
Proof using Type.
  induction l as [|tx l IH]; intros n s; [done|]. cbn [check_queue TxSetTheorems.chain].
  destruct (tx_checkValid vw tx n lower upper); [|done]. cbn [negb]. intros H. split; [done|]. apply (IH _ (charge_tx tx s)).
  by destruct (check_queue _ _ _ _ _ l _) as [[]|].
Qed.

Lemma accepted_queues (Q : list (list QueuedTx)) : forall (s : TrimState),
  isSome (check_queues vw true lower upper Q s) = true -> Forall (chain 0) Q.
Proof using Type.
  induction Q as [|q Q IH]; intros s H; constructor; cbn [check_queues] in H.
  - apply (accepted_queue q 0 s). by destruct (check_queue _ _ _ _ _ q s) as [[]|].
  - destruct (check_queue _ _ _ _ _ q s) as [[q' s']|]; [|done]. apply (IH s'). by destruct (check_queues _ _ _ _ Q s') as [[]|].
Qed.

Lemma accepted_fees (l : list QueuedTx) (s : TrimState) : isSome (check_fees vw true l s) = true ->
  check_fees vw true l s = Some s /\ Forall (fun tx => fee s (tx_feeSourceID tx) <= availableBalance vw (tx_feeSourceID tx)) l.
Proof using Type.
  induction l as [|tx l IH]; [done|]. cbn [check_fees].
  destruct (Z.ltb_spec (availableBalance vw (tx_feeSourceID tx)) (fee s (tx_feeSourceID tx))); [done|]. intros H1. destruct (IH H1) as [? ?]. by split; [|constructor].
Qed.

Lemma accepted_all_fees (Q : list (list QueuedTx)) (s : TrimState) : isSome (check_all_fees vw true Q s) = true ->
  Forall (fun tx => fee s (tx_feeSourceID tx) <= availableBalance vw (tx_feeSourceID tx)) (concat Q).
Proof using Type.
  induction Q as [|q Q IH]; [by constructor|]. cbn [check_all_fees concat]. intros H.
  destruct (accepted_fees q s) as [E Hq]; [by destruct (check_fees vw true q s)|]. rewrite E in H. apply Forall_app_2; auto.
Qed.

Lemma accepted_good (t : TxSetFrame) : (checkOrTrim vw true lower upper t).1.1 = true -> good (mSetTransactions t).
Proof using Hlaw.
  unfold checkOrTrim. set (Q := (map_to_list (buildAccountTxQueues t)).*2). set (s0 := {| tr_set := t; trimmed := []; accountFeeMap := ∅ |}).
  intros H. assert (Forall (chain 0) Q) as Hc by (apply (accepted_queues Q s0); by destruct (check_queues _ _ _ _ Q s0) as [[]|]).
  destruct (accept_queues vw lower upper Hlaw Q s0 (fun _ => 0) Hc) as (s&E&_&Hf); [done|done|]. rewrite E in H.
  assert (isSome (check_all_fees vw true Q s) = true) as Hall%accepted_all_fees by (by destruct (check_all_fees vw true Q s)).
  exists (map_to_list (buildAccountTxQueues t)).*1, Q. split; [apply build_by_account|]. split; [symmetry; apply build_vals|]. split; [done|].
  pose proof (build_concat t) as Hcc. fold Q in Hcc. rewrite Hcc in Hall. eapply Forall_impl; [exact Hall|]. intros tx. simpl. by rewrite Hf, Hcc.
Qed.

(** ** The batches *)

Notation nonempty := (fun q : list QueuedTx => q <> []).

(** A round takes at most one transaction of an account, its first. *)
Lemma pop_fronts_ok (Q : list (list QueuedTx)) : forall ks, by_account ks Q -> Forall nonempty Q ->
  exists batch rest ks', pop_fronts Q = Ok (batch, rest) /\ concat Q ≡ₚ batch ++ concat rest /\ length batch = length Q /\
    Forall nonempty rest /\ by_account ks' rest /\ sublist ks' ks /\
    forall a, of_account a (concat Q) = of_account a batch ++ of_account a (concat rest) /\ (length (of_account a batch) <= 1)%nat.
Proof using Type.
  induction Q as [|q Q IH]; intros ks Hb Hne.
  { exists [], [], []. repeat (split; [by repeat constructor|]). split; [apply sublist_nil_l|]. intros a. simpl. split; [done|lia]. }
  destruct ks as [|k ks]; [destruct Hb as [_ HF]; inversion HF|]. apply by_account_tail in Hb as (Hk&Hb&Hq). apply Forall_cons in Hne as [Hq0 Hne].
  destruct q as [|h q]; [done|]. destruct (IH ks Hb Hne) as (batch&rest&ks'&E&Hp&Hlen&Hr&Hb'&Hsub&Ha). cbn [pop_fronts]. rewrite E. cbn [res_bind].
  apply Forall_cons in Hq as [Hh Hq]. assert (of_account k (concat Q) = []) as Hno by (by eapply of_account_other).
  exists (h :: batch), (match q with [] => rest | _ => q :: rest end), (match q with [] => ks' | _ => k :: ks' end). split; [by destruct q|].
  assert (concat (match q with [] => rest | _ => q :: rest end) = q ++ concat rest) as -> by (by destruct q).
  split; [simpl; rewrite Hp, !app_assoc; f_equiv; f_equiv; apply Permutation_app_comm|]. split; [simpl; by rewrite Hlen|].
  split; [destruct q; [done|by constructor]|]. split.
  { destruct q; [done|]. destruct Hb' as [Hn HF]. split; [constructor; [|done]|by constructor]. intros Hin. apply Hk. by eapply elem_of_sublist. }
  split; [destruct q; by constructor|]. intros a. destruct (Ha a) as [He Hl]. unfold of_account. cbn [concat app]. rewrite !filter_cons.
  fold (of_account a (q ++ concat Q)) (of_account a batch) (of_account a (q ++ concat rest)). rewrite !of_account_app. case_decide as Hd.
  - assert (a = k) as -> by congruence. rewrite Hno in He. destruct (app_eq_nil _ _ (eq_sym He)) as [Hn1 Hn2]. rewrite Hno, Hn1, Hn2. simpl. split; [done|lia].
  - assert (of_account a q = []) as ->; [|by rewrite He]. apply of_account_none. eapply Forall_impl; [exact Hq|]. intros x ->. congruence.
Qed.

(** Whatever order a batch is put in, an account keeps the order of its queue. *)
Lemma build_batches_ok (f : list QueuedTx -> list QueuedTx) (Hf : forall b, f b ≡ₚ b) (fuel : nat) : forall ks (Q : list (list QueuedTx)),
  by_account ks Q -> Forall nonempty Q -> (length (concat Q) <= fuel)%nat ->
  exists batches, build_batches fuel Q = Ok batches /\ concat (f <$> batches) ≡ₚ concat Q /\
    forall a, of_account a (concat (f <$> batches)) = of_account a (concat Q).
Proof using Type.
  induction fuel as [|fuel IH]; intros ks Q Hb Hne Hlen.
  { destruct Q as [|q Q]; [by exists []|]. apply Forall_cons in Hne as [Hq _]. destruct q; [done|simpl in Hlen; lia]. }
  destruct Q as [|q Q]; [by exists []|]. cbn [build_batches]. destruct (pop_fronts_ok (q :: Q) ks Hb Hne) as (batch&rest&ks'&->&Hp&Hl&Hr&Hb'&_&Ha).
  cbn [res_bind]. destruct (IH ks' rest Hb' Hr) as (batches&->&Hp'&Ha').
  { apply Permutation_length in Hp. rewrite length_app in Hp. simpl in Hl. lia. }
  exists (batch :: batches). split; [done|]. split; [simpl; by rewrite Hf, Hp', Hp|]. intros a. change (concat (f <$> batch :: batches)) with (f batch ++ concat (f <$> batches)).
  destruct (Ha a) as [He Hl1]. rewrite of_account_app, Ha', He. f_equal.
  assert (of_account a (f batch) ≡ₚ of_account a batch) as Hperm by (unfold of_account; by rewrite Hf).
  destruct (of_account a batch) as [|x [|y l]]; [by apply Permutation_nil_r in Hperm|by apply Permutation_singleton_r in Hperm|simpl in Hl1; lia].
Qed.

(** ** The order of application *)

Context (contentsHash : Z -> list QueuedTx -> Z).

Definition set_hash (t : TxSetFrame) : Z := contentsHash (mPreviousLedgerHash t) (merge_sort hash_le (mSetTransactions t)).

(** The hash a set remembers is its own. *)
Definition hash_right (t : TxSetFrame) : Prop := forall h, mHash t = Some h -> h = set_hash t.

Lemma getContentsHash_right (t : TxSetFrame) : hash_right t ->
  (getContentsHash contentsHash t).1 = set_hash t.
Proof using Type. intros Hr. unfold getContentsHash. destruct (mHash t) as [h|] eqn:Hh; [by apply Hr|done]. Qed.

Lemma sortForApply_ok (t : TxSetFrame) : hash_right t ->
  let Q := (map_to_list (buildAccountTxQueues t)).*2 in
  exists batches t', build_batches (length (mSetTransactions t)) Q = Ok batches /\
    sortForApply contentsHash t = Ok (concat (merge_sort (xored_le (set_hash t)) <$> batches), t') /\
    concat (merge_sort (xored_le (set_hash t)) <$> batches) ≡ₚ mSetTransactions t /\
    forall a, of_account a (concat (merge_sort (xored_le (set_hash t)) <$> batches)) =
      default [] (buildAccountTxQueues t !! a).
Proof using Type.
  intros Hr Q. set (f := merge_sort (xored_le (set_hash t))).
  pose proof (build_nonempty t) as Hne. fold Q in Hne.
  pose proof (build_concat t) as Hc. fold Q in Hc.
  destruct (build_batches_ok f (fun b => merge_sort_Permutation _ b) (length (mSetTransactions t)) _ Q (build_by_account t) Hne) as (batches&E&Hp&Ha); [by rewrite Hc|].
  rewrite Hc in Hp.
  assert (exists t', sortForApply contentsHash t = Ok (concat (f <$> batches), t')) as (t'&Es).
  { unfold sortForApply. fold Q. rewrite E. cbn [res_bind]. destruct batches as [|b l]; [by eexists|].
    pose proof (getContentsHash_right t Hr) as Hh. destruct (getContentsHash contentsHash t) as [h t']. simpl in Hh. subst h. by eexists. }
  exists batches, t'. split; [done|]. split; [done|]. split; [done|]. intros a. rewrite Ha.
  pose proof (of_account_concat _ _ (build_by_account t)) as HF. fold Q in HF.
  destruct (buildAccountTxQueues t !! a) as [q|] eqn:Hq; simpl.
  - apply elem_of_map_to_list, list_elem_of_lookup in Hq as [i Hi].
    apply (Forall2_lookup_lr _ _ _ i a q HF); unfold Q; by rewrite list_lookup_fmap, Hi.
  - eapply of_account_other; [apply build_by_account|]. intros ([a' q]&->&Hin%elem_of_map_to_list)%list_elem_of_fmap. simpl in Hq. congruence.
Qed.

(** ** One order for all *)

Definition fronts (Q : list (list QueuedTx)) : list QueuedTx := omap head Q.
Definition tails (Q : list (list QueuedTx)) : list (list QueuedTx) := filter (fun q => q <> []) (tail <$> Q).

Lemma pop_fronts_eq (Q : list (list QueuedTx)) : Forall nonempty Q -> pop_fronts Q = Ok (fronts Q, tails Q).
Proof using Type.
  induction 1 as [|q Q Hq _ IH]; [done|]. destruct q as [|h q]; [done|]. cbn [pop_fronts]. rewrite IH. cbn [res_bind].
  unfold fronts, tails. simpl. rewrite filter_cons. destruct q; by case_decide.
Qed.

Lemma tails_nonempty (Q : list (list QueuedTx)) : Forall nonempty (tails Q).
Proof using Type. apply Forall_forall. by intros q [? _]%list_elem_of_filter. Qed.

(** The order in which the accounts are visited does not matter. *)
Lemma build_batches_Permutation (fuel : nat) : forall (Q1 Q2 : list (list QueuedTx)) b1 b2,
  Forall nonempty Q1 -> Q1 ≡ₚ Q2 -> build_batches fuel Q1 = Ok b1 -> build_batches fuel Q2 = Ok b2 -> Forall2 (≡ₚ) b1 b2.
Proof using Type.
  induction fuel as [|fuel IH]; intros Q1 Q2 b1 b2 Hne Hp E1 E2.
  { destruct Q1 as [|q1 Q1]; [|done]. apply Permutation_nil in Hp as ->. simpl in *. injection E1 as <-. injection E2 as <-. constructor. }
  destruct Q1 as [|q1 Q1].
  { apply Permutation_nil in Hp as ->. simpl in *. injection E1 as <-. injection E2 as <-. constructor. }
  assert (Forall nonempty Q2) as Hne2 by (by rewrite <- Hp). destruct Q2 as [|q2 Q2]; [by apply Permutation_nil_r in Hp|].
  cbn [build_batches] in E1, E2. rewrite pop_fronts_eq in E1, E2 by done. cbn [res_bind] in E1, E2.
  destruct (build_batches fuel (tails (q1 :: Q1))) as [b1'|] eqn:E1'; [|done]. destruct (build_batches fuel (tails (q2 :: Q2))) as [b2'|] eqn:E2'; [|done].
  cbn [res_bind] in E1, E2. injection E1 as <-. injection E2 as <-. constructor.
  - change (omap head (q1 :: Q1) ≡ₚ omap head (q2 :: Q2)). by rewrite Hp.
  - eapply IH; [apply tails_nonempty| |exact E1'|exact E2']. unfold tails. by rewrite Hp.
Qed.

Lemma lxor_inj (h x y : Z) : Z.lxor h x = Z.lxor h y -> x = y.
Proof using Type. intros H. rewrite <- (Z.lxor_0_l x), <- (Z.lxor_0_l y), <- (Z.lxor_nilpotent h), !Z.lxor_assoc. by rewrite H. Qed.

Lemma distinct_inj {A} (g : QueuedTx -> A) (l : list QueuedTx) (x y : QueuedTx) : NoDup (g <$> l) -> x ∈ l -> y ∈ l -> g x = g y -> x = y.
Proof using Type.
  intros Hn Hx Hy Hg. apply list_elem_of_lookup in Hx as [i Hi], Hy as [j Hj].
  assert (i = j) as ->; [|congruence]. eapply NoDup_lookup; [exact Hn| |]; rewrite list_lookup_fmap, ?Hi, ?Hj; [done|]. simpl. by rewrite Hg.
Qed.

(** Sorting forgets the order when no two keys are equal. *)
Lemma merge_sort_unique {A} (g : QueuedTx -> A) (R : relation QueuedTx) `{!RelDecision R, !Total R, !Transitive R} (l l' : list QueuedTx) :
  l ≡ₚ l' -> NoDup (g <$> l) -> (forall x y, R x y -> R y x -> x ∈ l -> y ∈ l -> g x = g y) -> merge_sort R l = merge_sort R l'.
Proof using Type.
  intros Hp Hn HR. apply (StronglySorted_unique_strong R); [|by apply StronglySorted_merge_sort..|by rewrite !merge_sort_Permutation].
  intros x y Hx Hy Hxy Hyx. rewrite merge_sort_Permutation in Hx, Hy. rewrite <- Hp in Hy.
  eapply distinct_inj; [exact Hn|done|done|auto].
Qed.

Lemma merge_sort_batches (h : Z) (b1 b2 : list (list QueuedTx)) : Forall2 (≡ₚ) b1 b2 -> NoDup (fullHash <$> concat b1) ->
  concat (merge_sort (xored_le h) <$> b1) = concat (merge_sort (xored_le h) <$> b2).
Proof using Type.
  induction 1 as [|x y b1 b2 Hxy _ IH]; [done|]. cbn [concat]. rewrite fmap_app, NoDup_app. intros (Hx&_&Hb).
  cbn [fmap list_fmap concat]. f_equal; [|by apply IH]. apply (merge_sort_unique fullHash (xored_le h) x y Hxy Hx).
  intros a b Hab Hba _ _. unfold xored_le in *. apply (lxor_inj h). lia.
Qed.

(** In a good set, account and sequence number tell the transactions apart. *)
Definition acc_seq (tx : QueuedTx) : AccountID * Z := (tx_sourceID tx, tx_seqNum tx).

Lemma good_distinct (l : list QueuedTx) : good l -> NoDup (acc_seq <$> l).
Proof using Hlaw.
  intros (ks&Q&[Hn HF]&Hp&Hc&_). rewrite Hp. clear Hp. induction HF as [|a q ks Q Hq HF IH]; [constructor|].
  apply NoDup_cons in Hn as [Ha Hn]. apply Forall_cons in Hc as [Hcq Hc]. cbn [concat]. rewrite fmap_app, NoDup_app. split; [|split; [|by apply IH]].
  - destruct (chain_growing _ _ _ Hlaw q 0 Hcq) as [Hs _]. clear -Hs. induction Hs as [|x q Hs IH Hx]; [constructor|].
    cbn [fmap list_fmap]. constructor; [|done]. intros (y&Hy&Hin)%list_elem_of_fmap. rewrite Forall_forall in Hx. specialize (Hx y Hin).
    unfold seq_lt, acc_seq in *. injection Hy. lia.
  - intros p (x&->&Hx)%list_elem_of_fmap (y&Hy&Hin)%list_elem_of_fmap. apply Ha. rewrite Forall_forall in Hq. specialize (Hq x Hx).
    pose proof (of_account_other ks Q a (Build_by_account _ _ Hn HF)) as Ho. destruct (decide (a ∈ ks)) as [|Hno]; [done|]. specialize (Ho Hno).
    assert (y ∈ of_account a (concat Q)) as Hy'; [|rewrite Ho in Hy'; by apply not_elem_of_nil in Hy'].
    apply list_elem_of_filter. split; [|done]. unfold acc_seq in Hy. congruence.
Qed.

Lemma NoDup_finer {A B} (f : QueuedTx -> A) (g : QueuedTx -> B) (l : list QueuedTx) :
  NoDup (g <$> l) -> (forall x y, x ∈ l -> y ∈ l -> f x = f y -> g x = g y) -> NoDup (f <$> l).
Proof using Type.
  induction l as [|x l IH]; intros Hn Hfg; [constructor|]. cbn [fmap list_fmap] in *. apply NoDup_cons in Hn as [Hx Hn]. constructor.
  - intros (y&Hy&Hin)%list_elem_of_fmap. apply Hx. apply list_elem_of_fmap. exists y. split; [|done]. apply Hfg; [left|by right|done].
  - apply IH; [done|]. intros y z Hy Hz. apply Hfg; by right.
Qed.

Lemma of_account_sub (a : AccountID) (l : list QueuedTx) (x : QueuedTx) : x ∈ of_account a l -> x ∈ l /\ tx_sourceID x = a.
Proof using Type. intros [? ?]%list_elem_of_filter. by split. Qed.

Lemma good_build_eq (t1 t2 : TxSetFrame) : good (mSetTransactions t1) -> mSetTransactions t1 ≡ₚ mSetTransactions t2 ->
  buildAccountTxQueues t1 = buildAccountTxQueues t2.
Proof using Hlaw.
  intros Hg Hp. apply map_eq. intros a. rewrite !build_lookup.
  assert (of_account a (mSetTransactions t1) ≡ₚ of_account a (mSetTransactions t2)) as Ha by (unfold of_account; by rewrite Hp).
  destruct (of_account a (mSetTransactions t1)) as [|x l] eqn:E; [apply Permutation_nil in Ha; by rewrite Ha|].
  destruct (of_account a (mSetTransactions t2)) as [|y l']; [by apply Permutation_nil_r in Ha|]. f_equal.
  apply (merge_sort_unique acc_seq seq_le _ _ Ha).
  - rewrite <- E. eapply sublist_NoDup; [by apply good_distinct|]. apply fmap_sublist, sublist_filter.
  - rewrite <- E. intros u v Huv Hvu [_ Hu]%of_account_sub [_ Hv]%of_account_sub. unfold acc_seq, seq_le in *. f_equal; [congruence|lia].
Qed.
End view.

(** C18. All nodes apply a set in the same order: if the check of a set accepts its
    transactions, a set with the same transactions in any other order, with the
    accounts visited in any order, is applied in the same order; it lists each
    transaction once, those of an account by growing sequence number. *)
Theorem apply_order_agreed (vw : SetView) (lower upper : Z) (contentsHash : Z -> list QueuedTx -> Z)
    (envelope : Z -> TransactionFrameBase) (t1 t2 : TxSetFrame) :
  set_lawful vw lower upper -> Forall (genuine envelope) (mSetTransactions t1) ->
  (checkOrTrim vw true lower upper t1).1.1 = true ->
  mSetTransactions t1 ≡ₚ mSetTransactions t2 -> mPreviousLedgerHash t1 = mPreviousLedgerHash t2 ->
  hash_right contentsHash t1 -> hash_right contentsHash t2 ->
  exists l t1' t2', sortForApply contentsHash t1 = Ok (l, t1') /\ sortForApply contentsHash t2 = Ok (l, t2') /\
    l ≡ₚ mSetTransactions t1 /\ (forall a, StronglySorted seq_lt (of_account a l)) /\
    forall queues batches, queues ≡ₚ (map_to_list (buildAccountTxQueues t1)).*2 ->
      build_batches (length (mSetTransactions t1)) queues = Ok batches ->
      concat (merge_sort (xored_le (set_hash contentsHash t1)) <$> batches) = l.
Proof.
  intros Hlaw Hgen Hacc Hp Hprev Hr1 Hr2. pose proof (accepted_good _ _ _ Hlaw t1 Hacc) as Hg.
  pose proof (good_distinct _ _ _ Hlaw _ Hg) as Hd.
  assert (NoDup (fullHash <$> mSetTransactions t1)) as Hh.
  { apply (NoDup_finer _ acc_seq); [done|]. rewrite Forall_forall in Hgen. intros x y Hx Hy Hxy.
    destruct (genuine_hash envelope x y) as [Hs Hq]; auto. unfold acc_seq. by rewrite Hs, Hq. }
  destruct (sortForApply_ok contentsHash t1 Hr1) as (b1&t1'&Eb1&E1&Hperm&Ha). destruct (sortForApply_ok contentsHash t2 Hr2) as (b2&t2'&Eb2&E2&_).
  assert (set_hash contentsHash t2 = set_hash contentsHash t1) as Hset.
  { unfold set_hash. rewrite Hprev. f_equal. symmetry. apply (merge_sort_unique fullHash hash_le _ _ Hp Hh). unfold hash_le. lia. }
  rewrite <- (good_build_eq _ _ _ Hlaw t1 t2 Hg Hp), <- Hp, Eb1 in Eb2. injection Eb2 as <-. rewrite Hset in E2.
  eexists _, t1', t2'. split; [exact E1|]. split; [exact E2|]. split; [done|]. split.
  - intros a. rewrite Ha. pose proof (good_build _ _ _ Hlaw t1 Hg) as Hc. rewrite Forall_forall in Hc.
    destruct (buildAccountTxQueues t1 !! a) as [q|] eqn:Hq; [|constructor]. apply (chain_growing _ _ _ Hlaw q 0), Hc.
    apply list_elem_of_fmap. exists (a, q). split; [done|]. by apply elem_of_map_to_list.
  - intros Q b HQ Eb. symmetry. apply merge_sort_batches.
    + eapply build_batches_Permutation; [apply build_nonempty|by symmetry|exact Eb1|exact Eb].
    + assert (concat b1 ≡ₚ mSetTransactions t1) as ->; [|done].
      rewrite <- Hperm. clear. induction b1 as [|b b1 IH]; [done|]. simpl. by rewrite merge_sort_Permutation, <- IH.
Qed.

(** ** An example *)

(** A check of transactions by price and sequence number. *)
Definition sample_header (limit : Z) : LedgerHeader :=
  {| ledgerVersion := 18; scpValue_closeTime := 1000; ledgerSeq := 5; totalCoins := 0; feePool := 0; inflationSeq := 0; idPool := 0;
     baseFee := 100; basePercentageFee := 0; maxFee := 0; baseReserve := 1; maxTxSetSize := limit; header_flags := None |}.

Definition sample_view (limit : Z) : SetView :=
  {| lcl_header := sample_header limit; lcl_hash := 77;
     tx_checkValid := fun tx n _ _ => (1 <=? tx_feeBid tx) && (tx_feeBid tx <=? 10000) && (1 <=? tx_numOps tx) && (tx_numOps tx <=? 100) &&
       (1 <=? tx_seqNum tx) && ((n =? 0) || (tx_seqNum tx =? n + 1));
     availableBalance := fun _ => 100000 |}.

Lemma sample_view_lawful (limit lower upper : Z) : set_lawful (sample_view limit) lower upper.
Proof.
  intros tx n Hv. cbn [tx_checkValid sample_view] in Hv. bprop.
  match goal with H : orb _ _ = true |- _ => apply orb_true_iff in H as [|] end; bprop; (split; [split; unfold_ints; lia|]); (split; [lia|intros; lia]).
Qed.

Definition sample_frame (source seq fee : Z) : TransactionFrame :=
  {| tf_isV0 := false; tf_hasMuxedAccount := false; tf_sourceID := source; tf_fee := fee; tf_seqNum := seq;
     tf_timeBounds := None; tf_operations := [OTHER_OPERATION 10] |}.

(** Two transactions of the first account, one of the second. *)
Definition sample_wire (h : Z) : TransactionFrameBase :=
  TxFrame (if h =? 1 then sample_frame 1 1 100 else if h =? 2 then sample_frame 1 2 100 else sample_frame 2 1 300).

Definition sample_member (h : Z) : QueuedTx :=
  {| address := 1000 + 16 * h; frame := sample_wire h; fullHash := h; innerFullHash := 0 |}.

Definition sample_set (hs : list Z) : TxSetFrame := with_transactions (sample_member <$> hs) (newTxSet 77).
Definition sample_contentsHash (previous : Z) (l : list QueuedTx) : Z := foldl (fun h tx => 31 * h + fullHash tx) previous l.

(** Two nodes that received the transactions in different orders. *)
Lemma apply_order_agreed_witness : exists l t1 t2,
  sortForApply sample_contentsHash (sample_set [1; 2; 3]) = Ok (l, t1) /\
  sortForApply sample_contentsHash (sample_set [3; 2; 1]) = Ok (l, t2) /\ l = sample_member <$> [1; 3; 2].
Proof.
  destruct (apply_order_agreed (sample_view 2) 0 0 sample_contentsHash sample_wire (sample_set [1; 2; 3]) (sample_set [3; 2; 1]))
    as (l&t1&t2&E1&E2&_).
  - apply sample_view_lawful.
  - repeat constructor.
  - vm_compute. reflexivity.
  - change (sample_member <$> [1; 2; 3] ≡ₚ sample_member <$> rev [1; 2; 3]). apply fmap_Permutation, Permutation_rev.
  - reflexivity.
  - intros h. discriminate.
  - intros h. discriminate.
  - exists l, t1, t2. split; [exact E1|]. split; [exact E2|]. vm_compute in E1. by injection E1.
Defined.
