(* ===== verification/NextLedger.v ===== *)
(** * Proposing the next ledger

    [HerderImpl::triggerNextLedger] of [src/src/herder/HerderImpl.cpp]: the set a
    node proposes, from its queue of transactions to the value it nominates.

    The clock, the state of the node, its key and the encoding of upgrades are the
    record [TriggerEnv]; what the function tells the other parts is the list of its
    effects.  (A set that the node was trying to download makes [addTxSet] process
    messages that wait for it; the last closed ledger the function goes on with is
    the one it has started from.) *)
From stdpp Require Import base tactics numbers list sorting gmap.
From Stdlib Require Import ZArith Lia Bool.
From S2P Require Import Prelude Containers Numeric OfferExchange LedgerEntries Balances Upgrades Fees QuorumSet Statement SlotState.
From S2P Require HerderValues.
From S2P Require Import TransactionQueue TxQueueTheorems TxQueueDrops TxQueueAdd TxQueueEvents TxSets TxSetTheorems TxSetApply.

Open Scope Z_scope.
Open Scope kin_scope.

(** ** The function *)

(** A 256-bit number as the bytes of a [Hash]. *)
Definition hash_bytes (h : Z) : Hash := (fun i => Z.land (Z.shiftr h (8 * (31 - Z.of_nat i))) 255) <$> seq 0 32.

Record TriggerEnv := {
  tn_isTracking : bool;
  tn_isSynced : bool;
  tn_now : Z;                              (** nanoseconds *)
  tn_view : SetView;                       (** the last closed ledger *)
  tn_previousValue : HerderValues.StellarValue;
  tn_contentsHash : Z -> list QueuedTx -> Z;
  tn_seed : Z;                             (** of [SurgeCompare] *)
  tn_upgrades : UpgradeParameters;
  tn_encodeUpgrade : LedgerUpgrade -> UpgradeType;
  tn_isValidator : bool;
  tn_nodeID : NodeID;
  tn_sign : Hash -> Z -> Signature;
}.

Inductive trigger_effect :=
  | AddTxSet (hash slotIndex : Z) (set : TxSetFrame)
  | RecordSCPEvent (slotIndex : Z) (isNomination : bool)
  | Nominate (slotIndex : Z) (value : HerderValues.StellarValue) (set : TxSetFrame) (previous : HerderValues.StellarValue).

Inductive trigger_error :=
  | TriggerQueue (e : queue_error)
  | TriggerSet (e : set_error)
  | InvalidTxSet.            (** "wanting to emit an invalid txSet" *)

Definition SECOND : Z := 1000000000.
Definition UPGRADE_MAX_SIZE : Z := 128.

Section trigger.
Context (env : TriggerEnv).
Notation header := (lcl_header (tn_view env)).

(** [to_time_t] of the clock, unless the last ledger closed later. *)
Definition nextCloseTime : Z :=
  let now := tn_now env / SECOND in
  if now <=? scpValue_closeTime header then u64 (scpValue_closeTime header + 1) else now.

(** [ctValidityOffset(ct) == 0]. *)
Definition isCtValid (ct : Z) : bool :=
  negb (tn_now env + HerderValues.MAX_TIME_SLIP_SECONDS * SECOND <? ct * SECOND).

Definition closeTimeOffset : Z := u64 (nextCloseTime - scpValue_closeTime header).

(** The set, from the transactions of the queue; the transactions that are not valid are banned. *)
Definition proposeTxSet (txs : list QueuedTx) (q : TransactionQueue) : result trigger_error (TxSetFrame * TransactionQueue) :=
  let proposedSet := with_transactions txs (newTxSet (lcl_hash (tn_view env))) in
  let (removed, proposedSet) := trimInvalid (tn_view env) closeTimeOffset closeTimeOffset proposedSet in
  let? q := res_err TriggerQueue (ban removed q) in
  let? proposedSet := res_err TriggerSet (surgePricingFilter (tn_view env) (tn_seed env) proposedSet) in
  let (valid, proposedSet) := set_checkValid (tn_view env) closeTimeOffset closeTimeOffset proposedSet in
  let? _ := ensure valid InvalidTxSet in
  Ok (proposedSet, q).

Definition newUpgrades : list UpgradeType :=
  filter (fun v => Z.of_nat (length v) < UPGRADE_MAX_SIZE) (tn_encodeUpgrade env <$> createUpgradesFor (tn_upgrades env) header).

Definition makeStellarValue (txSetHash : Hash) (closeTime : Z) (upgrades : list UpgradeType) : HerderValues.StellarValue :=
  {| HerderValues.sv_txSetHash := txSetHash; HerderValues.sv_closeTime := closeTime; HerderValues.sv_upgrades := upgrades;
     HerderValues.sv_ext := Some {| HerderValues.lc_nodeID := tn_nodeID env;
       HerderValues.lc_signature := tn_sign env txSetHash closeTime |} |}.

Definition triggerNextLedger (ledgerSeqToTrigger : Z) (checkTrackingSCP : bool) (q : TransactionQueue)
    : result trigger_error (list trigger_effect * TransactionQueue) :=
  let isTrackingValid := tn_isTracking env || negb checkTrackingSCP in
  if negb isTrackingValid || negb (tn_isSynced env) then Ok ([], q) else
  let? txs := res_err TriggerQueue (toTxSet header q) in
  if negb (isCtValid nextCloseTime) then Ok ([], q) else
  let? (proposedSet, q) := proposeTxSet txs q in
  let (txSetHash, proposedSet) := getContentsHash (tn_contentsHash env) proposedSet in
  let slotIndex := u32 (ledgerSeq header + 1) in
  let added := AddTxSet txSetHash slotIndex proposedSet in
  if negb (ledgerSeqToTrigger =? slotIndex) then Ok ([added], q) else
  let recorded := RecordSCPEvent slotIndex true in
  if negb (tn_isValidator env) then Ok ([added; recorded], q) else
  let newProposedValue := makeStellarValue (hash_bytes txSetHash) nextCloseTime newUpgrades in
  Ok ([added; recorded; Nominate slotIndex newProposedValue proposedSet (tn_previousValue env)], q).
End trigger.

(** ** What it proposes *)

Lemma before_starting_seq_prefix (n : Z) (l : list TimestampedTx) : before_starting_seq n l `prefix_of` txs_of l.
Proof.
  induction l as [|t l IH]; [done|]. simpl. destruct (_ =? _); [apply prefix_nil|]. by apply prefix_cons.
Qed.

Lemma toTxSet_queued (lcl : LedgerHeader) (q : TransactionQueue) : 0 <= ledgerSeq lcl < INT32_MAX ->
  exists txs, toTxSet lcl q = Ok txs /\ txs ⊆+ queued (mAccountStates q).
Proof.
  intros Hl. unfold toTxSet, getStartingSequenceNumber. rewrite u32_id by (unfold_ints; lia).
  destruct (Z.ltb_spec INT32_MAX (ledgerSeq lcl + 1)); [lia|]. cbn [res_err res_bind]. eexists. split; [done|].
  unfold queued. generalize (map_to_list (mAccountStates q)) as l. induction l as [|[a s] l IH]; [done|]. cbn [fmap list_fmap concat].
  apply submseteq_app; [|exact IH]. cbn [snd]. destruct (before_starting_seq_prefix (Z.shiftl (ledgerSeq lcl + 1) 32) (mTransactions s)) as [k ->]. by apply submseteq_inserts_r.
Qed.

Section propose.
Context (envelope : Z -> TransactionFrameBase) (env : TriggerEnv).
Notation vw := (tn_view env).
Notation off := (closeTimeOffset env).

Hypothesis lawful_check : set_lawful vw off off.
Hypothesis lcl_seq : 0 <= ledgerSeq (lcl_header vw) < INT32_MAX.
Hypothesis lcl_size : is_u32 (maxTxSetSize (lcl_header vw)).

(** A set the node can stand by. *)
Record proposable (q : TransactionQueue) (t : TxSetFrame) : Prop := {
  pp_good : good vw off off (mSetTransactions t);
  pp_sorted : Sorted hash_le (mSetTransactions t);
  pp_size : set_size (lcl_header vw) t <= maxTxSetSize (lcl_header vw);
  pp_previous : mPreviousLedgerHash t = lcl_hash vw;
  pp_hash : mHash t = None;
  pp_queued : mSetTransactions t ⊆+ queued (mAccountStates q);
}.

(** The transactions that are gone are banned. *)
Definition banned_only (q q' : TransactionQueue) : Prop :=
  forall tx, tx ∈ queued (mAccountStates q) -> tx ∈ queued (mAccountStates q') \/ isBanned (fullHash tx) q' = true.

Lemma proposeTxSet_ok (txs : list QueuedTx) (q : TransactionQueue) : sound envelope q -> txs ⊆+ queued (mAccountStates q) ->
  exists t q', proposeTxSet env txs q = Ok (t, q') /\ sound envelope q' /\ banned_only q q' /\ proposable q t.
Proof using lawful_check lcl_size.
  intros [Hok Hun Hc] Hsub. unfold proposeTxSet.
  set (t0 := with_transactions txs (newTxSet (lcl_hash vw))).
  assert (NoDup (address <$> mSetTransactions t0)) as Hn.
  { pose proof (bk_addresses _ _ _ (ok_books _ _ _ _ Hok)) as Hna. rewrite app_nil_r in Hna.
    apply submseteq_Permutation in Hsub as [k Hk]. rewrite Hk, fmap_app in Hna. by apply NoDup_app in Hna as [? _]. }
  destruct (proposal_passes vw off off lawful_check (tn_seed env) t0 Hn eq_refl lcl_size)
    as (removed&t1&t2&E1&E2&E3&Hg&Hs&Hsize&Hprev&Hf&Hp&Hsub2).
  rewrite E1. assert (removed ⊆+ queued (mAccountStates q)) as Hrem.
  { etrans; [|exact Hsub]. change txs with (mSetTransactions t0). rewrite <- Hp. by apply submseteq_inserts_r. }
  destruct (ban_ok envelope removed q _ [] Hok Hun) as (q1&T1&Eb&Hok1&Hd1&Hun1&Hgone&_).
  { apply Forall_forall. intros x Hx. eapply ok_genuine; [exact Hok|]. by eapply elem_of_submseteq. }
  { by intros b e _ ?%not_elem_of_nil. }
  rewrite Eb. cbn [res_err res_bind]. rewrite E2. cbn [res_err res_bind]. rewrite E3. cbn [remember ensure res_bind].
  eexists _, q1. split; [done|]. split; [eapply ok_sound; [done|done|by rewrite (dp_rest _ _ Hd1)]|]. split.
  - intros tx Hin. destruct (Hgone tx Hin) as [|[? _]]; [by left|by right].
  - split; [done|done|done|done| |]; simpl.
    + apply Hf.
    + etrans; [exact Hsub2|]. etrans; [|exact Hsub]. change txs with (mSetTransactions t0). rewrite <- Hp. by apply submseteq_inserts_l.
Qed.

(** What a node nominates, and when. *)
Lemma trigger_ok (ledgerSeqToTrigger : Z) (checkTrackingSCP : bool) (q : TransactionQueue) : sound envelope q ->
  exists effects q', triggerNextLedger env ledgerSeqToTrigger checkTrackingSCP q = Ok (effects, q') /\ sound envelope q' /\ banned_only q q' /\
    forall slot v set prev, Nominate slot v set prev ∈ effects ->
      isCtValid env (nextCloseTime env) = true /\ slot = ledgerSeq (lcl_header vw) + 1 /\ slot = ledgerSeqToTrigger /\
      exists t h, proposable q t /\ getContentsHash (tn_contentsHash env) t = (h, set) /\ AddTxSet h slot set ∈ effects /\
        v = makeStellarValue env (hash_bytes h) (nextCloseTime env) (newUpgrades env).
Proof using lawful_check lcl_size lcl_seq.
  intros Hs.
  assert (banned_only q q) as Hrefl by (intros ? ?; by left).
  unfold triggerNextLedger. destruct (_ || negb (tn_isSynced env)).
  { exists [], q. split; [done|]. split; [done|]. split; [done|]. by intros * ?%not_elem_of_nil. }
  destruct (toTxSet_queued (lcl_header vw) q lcl_seq) as (txs&E&Hsub). rewrite E. cbn [res_err res_bind].
  destruct (isCtValid env (nextCloseTime env)) eqn:Hct; cbn [negb].
  2:{ exists [], q. split; [done|]. split; [done|]. split; [done|]. by intros * ?%not_elem_of_nil. }
  destruct (proposeTxSet_ok txs q Hs Hsub) as (t&q'&->&Hs'&Hb&Hp). cbn [res_bind].
  destruct (getContentsHash (tn_contentsHash env) t) as [h set] eqn:Hh. rewrite u32_id by (unfold_ints; lia).
  destruct (Z.eqb_spec ledgerSeqToTrigger (ledgerSeq (lcl_header vw) + 1)) as [Hseq|Hseq]; cbn [negb].
  2:{ eexists _, q'. split; [done|]. split; [done|]. split; [done|]. intros * Hin. by apply list_elem_of_singleton in Hin. }
  destruct (tn_isValidator env); cbn [negb].
  2:{ eexists _, q'. split; [done|]. split; [done|]. split; [done|]. intros * Hin.
      apply elem_of_cons in Hin as [Hin|Hin]; [done|]. by apply list_elem_of_singleton in Hin. }
  eexists _, q'. split; [done|]. split; [done|]. split; [done|]. intros * Hin.
  apply elem_of_cons in Hin as [Hin|Hin]; [done|]. apply elem_of_cons in Hin as [Hin|Hin]; [done|]. apply list_elem_of_singleton in Hin.
  injection Hin as -> -> -> ->. split; [done|]. split; [done|]. split; [done|]. exists t, h. split; [done|]. split; [done|]. split; [left|done].
Qed.

(** The set as it is nominated: in the order of the hash, its verdict forgotten. *)
Lemma proposable_hashed (q : TransactionQueue) (t set : TxSetFrame) (h : Z) :
  proposable q t -> getContentsHash (tn_contentsHash env) t = (h, set) ->
  good vw off off (mSetTransactions set) /\ Sorted hash_le (mSetTransactions set) /\ mSetTransactions set ⊆+ queued (mAccountStates q) /\
  set_size (lcl_header vw) set <= maxTxSetSize (lcl_header vw) /\ mPreviousLedgerHash set = lcl_hash vw /\
  set_checkValid vw off off set = remember vw true set /\
  h = tn_contentsHash env (mPreviousLedgerHash set) (mSetTransactions set).
Proof using lawful_check.
  intros [Hg Hs Hsize Hprev Hn Hq] Hh. unfold getContentsHash in Hh. rewrite Hn in Hh. injection Hh as <- <-.
  pose proof (merge_sort_Permutation hash_le (mSetTransactions t)) as Hp. cbn [mSetTransactions mPreviousLedgerHash sortForHash with_transactions].
  match goal with |- context [set_checkValid _ _ _ ?x] => set (set := x) end.
  assert (mSetTransactions set ≡ₚ mSetTransactions t) as Hp' by exact Hp.
  assert (good vw off off (mSetTransactions set)) as Hg'.
  { destruct Hg as (ks&Q&Hb&HQ&Hc&Hf). exists ks, Q. rewrite Hp'. split; [done|]. split; [done|]. split; [done|].
    eapply Forall_impl; [exact Hf|]. intros tx. by rewrite Hp'. }
  assert (set_size (lcl_header vw) set <= maxTxSetSize (lcl_header vw)) as Hsize'.
  { revert Hsize. unfold set_size, set_sizeOp, sizeTx. rewrite !sizeOp_ops. destruct (protocolVersionStartsFrom _ _); rewrite Hp'; lia. }
  assert (Sorted hash_le (mSetTransactions set)) as Hs' by apply sortForHash_sorted.
  split; [done|]. split; [done|]. split; [by rewrite Hp|]. split; [done|]. split; [done|]. split; [|done].
  by apply check_passes.
Qed.

(** C10. A node never fails to propose a ledger: whatever is in its queue, making the
    transaction set for the next ledger neither throws nor proposes a set the node
    would reject.  The nominated set is made of transactions of the queue and
    passes the node's own check for the close time it nominates; it is the set
    that was handed to the peers under the hash in the value; the queue stays
    sound, and what leaves it is banned. *)
Theorem proposal_never_rejected (ledgerSeqToTrigger : Z) (checkTrackingSCP : bool) (q : TransactionQueue) :
  sound envelope q ->
  exists effects q', triggerNextLedger env ledgerSeqToTrigger checkTrackingSCP q = Ok (effects, q') /\ sound envelope q' /\
    (forall tx, tx ∈ queued (mAccountStates q) -> tx ∈ queued (mAccountStates q') \/ isBanned (fullHash tx) q' = true) /\
    forall slot v set prev, Nominate slot v set prev ∈ effects ->
      slot = ledgerSeq (lcl_header vw) + 1 /\ slot = ledgerSeqToTrigger /\ mSetTransactions set ⊆+ queued (mAccountStates q) /\
      (set_checkValid vw off off set).1 = true /\
      exists h, AddTxSet h slot set ∈ effects /\ HerderValues.sv_txSetHash v = hash_bytes h /\
        h = tn_contentsHash env (mPreviousLedgerHash set) (mSetTransactions set).
Proof using lawful_check lcl_size lcl_seq.
  intros Hs. destruct (trigger_ok ledgerSeqToTrigger checkTrackingSCP q Hs) as (effects&q'&E&Hs'&Hb&Hn).
  exists effects, q'. split; [done|]. split; [done|]. split; [done|]. intros slot v set prev Hin.
  destruct (Hn _ _ _ _ Hin) as (_&Hslot&Htr&t&h&Hp&Hh&Hadd&->).
  destruct (proposable_hashed q t set h Hp Hh) as (_&_&Hq&_&_&Hv&Hhash).
  split; [done|]. split; [done|]. split; [done|]. split; [by rewrite Hv|]. by exists h.
Qed.

(** ** The value is valid *)

(** What the node's own validation of values sees when it has been told of the
    set: its last closed ledger, its clock, its upgrades and its key. *)
Record own_view (henv : HerderValues.HerderEnv) (v : HerderValues.StellarValue) (set : TxSetFrame) : Prop := {
  ov_lcl : HerderValues.he_lcl henv = lcl_header vw;
  ov_hash : HerderValues.he_lclHash henv = hash_bytes (lcl_hash vw);
  ov_time : HerderValues.he_timeNow henv = tn_now env / SECOND;
  ov_upgrades : HerderValues.he_upgrades henv = tn_upgrades env;
  ov_set : HerderValues.he_getTxSet henv (HerderValues.sv_txSetHash v) = Some {|
    HerderValues.mPreviousLedgerHash := hash_bytes (mPreviousLedgerHash set);
    HerderValues.mTransactions := frame <$> mSetTransactions set |};
  ov_check : HerderValues.he_checkOrTrim henv {|
    HerderValues.mPreviousLedgerHash := hash_bytes (mPreviousLedgerHash set);
    HerderValues.mTransactions := frame <$> mSetTransactions set |} off off = (checkOrTrim vw true off off set).1.1;
  ov_order : forall x y, x ∈ mSetTransactions set -> y ∈ mSetTransactions set ->
    ltb (HerderValues.he_fullHash henv (frame x)) (HerderValues.he_fullHash henv (frame y)) = (fullHash x <? fullHash y);
  ov_signature : forall h c, HerderValues.he_verifySig henv (tn_nodeID env) (tn_sign env h c) h c = true;
  ov_encoding : forall u, HerderValues.he_decodeUpgrade henv (tn_encodeUpgrade env u) = Some u;
  ov_upgrade_size : forall u, Z.of_nat (length (tn_encodeUpgrade env u)) < UPGRADE_MAX_SIZE;
}.

Lemma sorted_frames (henv : HerderValues.HerderEnv) (l : list QueuedTx) :
  (forall x y, x ∈ l -> y ∈ l -> ltb (HerderValues.he_fullHash henv (frame x)) (HerderValues.he_fullHash henv (frame y)) = (fullHash x <? fullHash y)) ->
  Sorted hash_le l -> HerderValues.is_sorted henv (frame <$> l) = true.
Proof using Type.
  induction l as [|x l IH]; intros Ho Hs; [done|]. destruct l as [|y l]; [done|]. apply Sorted_inv in Hs as [Hs Hh].
  change (negb (ltb (HerderValues.he_fullHash henv (frame y)) (HerderValues.he_fullHash henv (frame x))) &&
    HerderValues.is_sorted henv (frame <$> y :: l) = true).
  rewrite (Ho y x), IH; [|intros; apply Ho; by right|done|right; left|left]. rewrite andb_true_r, negb_true_iff, Z.ltb_ge.
  by inversion Hh.
Qed.

Lemma newUpgrades_all : (forall u, Z.of_nat (length (tn_encodeUpgrade env u)) < UPGRADE_MAX_SIZE) ->
  newUpgrades env = tn_encodeUpgrade env <$> createUpgradesFor (tn_upgrades env) (lcl_header vw).
Proof using Type.
  intros Hs. unfold newUpgrades. induction (createUpgradesFor _ _) as [|u l IH]; [done|]. cbn [fmap list_fmap].
  rewrite filter_cons, decide_True by apply Hs. by f_equal.
Qed.

Hypothesis clock : 0 <= tn_now env /\ tn_now env / SECOND + HerderValues.MAX_TIME_SLIP_SECONDS <= UINT64_MAX.
Hypothesis close_time : 0 <= scpValue_closeTime (lcl_header vw) < UINT64_MAX.

Lemma nextCloseTime_later : isCtValid env (nextCloseTime env) = true ->
  scpValue_closeTime (lcl_header vw) < nextCloseTime env <= u64 (tn_now env / SECOND + HerderValues.MAX_TIME_SLIP_SECONDS).
Proof using clock close_time.
  clear lawful_check lcl_seq lcl_size. unfold isCtValid. rewrite negb_true_iff, Z.ltb_ge. intros Hct. split.
  - unfold nextCloseTime. destruct (Z.leb_spec (tn_now env / SECOND) (scpValue_closeTime (lcl_header vw))); [|done].
    rewrite u64_id by (unfold_ints; lia). lia.
  - rewrite u64_id by (pose proof (Z.div_pos (tn_now env) SECOND); unfold_ints; unfold SECOND, HerderValues.MAX_TIME_SLIP_SECONDS in *; lia).
    rewrite <- Z.div_add by done. apply Z.div_le_lower_bound; [done|]. lia.
Qed.

(** C11. A node nominates only what it takes for fully valid itself: when no change of
    a fee is due ([no_fee_upgrade]; otherwise the value can list an upgrade twice),
    every upgrade it proposes is valid for its ledger ([validForApply]), and it
    remembers no verdict on a set with the hash of the one it proposes (a verdict
    from an earlier close time could refuse it), the value it nominates passes its
    own [validateValue] for the next slot, with its close time, its transaction
    set, its upgrades and its signature. *)
Theorem nomination_fully_valid (henv : HerderValues.HerderEnv) (ledgerSeqToTrigger : Z) (checkTrackingSCP : bool)
    (q q' : TransactionQueue) (effects : list trigger_effect) (slot : Z) (v prev : HerderValues.StellarValue) (set : TxSetFrame)
    (value : Value) (cache : gmap Hash (Hash * bool)) :
  sound envelope q -> triggerNextLedger env ledgerSeqToTrigger checkTrackingSCP q = Ok (effects, q') ->
  Nominate slot v set prev ∈ effects -> own_view henv v set -> HerderValues.he_decode henv value = Some v ->
  no_fee_upgrade (tn_upgrades env) (lcl_header vw) ->
  Forall (fun u => validForApply u (lcl_header vw) (HerderValues.he_protocolVersion henv) = true)
    (createUpgradesFor (tn_upgrades env) (lcl_header vw)) ->
  cache !! HerderValues.sv_txSetHash v = None ->
  exists cache', HerderValues.herder_validateValue henv slot value true cache = Ok (kFullyValidatedValue, cache').
Proof using lawful_check lcl_size lcl_seq clock close_time.
  intros Hs E Hin [Hlcl Hlh Htime Hup Hset Hcheck Horder Hsig Henc Hsize] Hdec Hfee Hvalid Hcache.
  destruct (trigger_ok ledgerSeqToTrigger checkTrackingSCP q Hs) as (effects1&q1&E1&_&_&Hn). rewrite E in E1. injection E1 as <- <-.
  destruct (Hn _ _ _ _ Hin) as (Hct&Hslot&_&t&h&Hp&Hh&_&Hv). destruct (proposable_hashed q t set h Hp Hh) as (Hg&Hsort&_&Hsz&Hprev&_&_).
  apply HerderValues.validateValue_full. exists v. split; [done|]. subst v. cbn [makeStellarValue HerderValues.sv_txSetHash] in *. split.
  - eexists _, _. split; [done|]. split; [apply Hsig|]. rewrite Hlcl. split; [rewrite u32_id by (unfold_ints; lia); done|].
    split; [rewrite Htime; by apply nextCloseTime_later|]. split; [exact Hset|]. unfold HerderValues.txset_verdict.
    cbn [makeStellarValue HerderValues.sv_txSetHash HerderValues.sv_closeTime HerderValues.mTransactions HerderValues.mPreviousLedgerHash]. rewrite Hcache, Hlh, Hprev, Hlcl.
    rewrite bool_decide_eq_true_2 by done. fold off. rewrite <- Hprev, Hcheck, sorted_frames, good_accepted by done. cbn [fst].
    rewrite !andb_true_r. apply Z.leb_le. revert Hsz. unfold HerderValues.txset_size, set_size, set_sizeOp, sizeTx. cbn [HerderValues.mTransactions].
    by rewrite length_fmap.
  - cbn [makeStellarValue HerderValues.sv_upgrades]. rewrite Hup, Hlcl, newUpgrades_all by done. apply check_upgrades_valid; [exact Henc|by apply created_sorted|].
    rewrite Forall_forall in Hvalid |- *. intros u Hu. split; [by apply Hvalid|]. intros _. by apply created_nominated.
Qed.
End propose.

(** ** An example *)

(** A queue with three transactions, and a ledger with room for two operations. *)
Definition roomy_ledger : LedgerView :=
  {| getLastMaxTxSetSizeOps := 4; checkValid := fun tx n => tx_checkValid (sample_view 2) tx n 0 0; feeSourceBalance := fun _ => 100000 |}.

Definition waiting_queue : TransactionQueue :=
  match run_events (EvAdd roomy_ledger <$> (sample_member <$> [1; 2; 3])) (newTransactionQueue 4 2 1 13 [] (5, 6)) with
  | Ok q => q
  | Err _ => newTransactionQueue 4 2 1 13 [] (5, 6)
  end.

Lemma roomy_lawful : lawful roomy_ledger.
Proof.
  split; [unfold_ints; simpl; lia| |intros a; simpl; unfold_ints; lia]. intros tx n Hv. by apply (sample_view_lawful 2 0 0).
Qed.

Lemma member_offered (h : Z) (q : TransactionQueue) :
  (1 <=? h) && (h <=? 3) = true -> bool_decide (address (sample_member h) ∉ address <$> queued (mAccountStates q)) = true ->
  offered sample_wire q (sample_member h).
Proof.
  intros Hh Ha. bprop. assert (h = 1 \/ h = 2 \/ h = 3) as Hcases by lia.
  split; [done| | |done]; destruct Hcases as [->|[->| ->]]; vm_compute; repeat split; intros ?; discriminate.
Qed.

Lemma waiting_sound : sound sample_wire waiting_queue.
Proof.
  destruct (events_sound sample_wire (EvAdd roomy_ledger <$> (sample_member <$> [1; 2; 3])) (newTransactionQueue 4 2 1 13 [] (5, 6))) as (q&E&Hs).
  - cbn [fmap list_fmap allowed_run allowed].
    do 3 (split; [split; [apply roomy_lawful|apply member_offered; vm_compute; reflexivity]|next_event]). done.
  - apply new_sound; [unfold_ints; lia|lia|unfold_ints; lia].
  - unfold waiting_queue. by rewrite E.
Qed.

Definition waiting_env : TriggerEnv :=
  {| tn_isTracking := true; tn_isSynced := true; tn_now := 1005 * SECOND; tn_view := sample_view 2;
     tn_previousValue := {| HerderValues.sv_txSetHash := []; HerderValues.sv_closeTime := 1000; HerderValues.sv_upgrades := []; HerderValues.sv_ext := None |};
     tn_contentsHash := sample_contentsHash; tn_seed := 9;
     tn_upgrades := with_params 0 None (Some 200) None None None None (Some 1); tn_encodeUpgrade := example_enc;
     tn_isValidator := true; tn_nodeID := [1]; tn_sign := fun _ _ => [] |}.

Definition waiting_hash : Z := sample_contentsHash 77 (sample_member <$> [1; 3]).

Definition waiting_value : HerderValues.StellarValue :=
  makeStellarValue waiting_env (hash_bytes waiting_hash) 1005 (example_enc <$> [LEDGER_UPGRADE_BASE_FEE 200; LEDGER_UPGRADE_FLAGS 1]).

Definition waiting_proposal : TxSetFrame :=
  {| mHash := Some waiting_hash; mValid := None; mPreviousLedgerHash := 77; mSetTransactions := sample_member <$> [1; 3] |}.

(** The most expensive transaction and the first of the other account. *)
Lemma waiting_nomination : exists q',
  triggerNextLedger waiting_env 6 true waiting_queue =
    Ok ([AddTxSet waiting_hash 6 waiting_proposal; RecordSCPEvent 6 true;
         Nominate 6 waiting_value waiting_proposal (tn_previousValue waiting_env)], q').
Proof. eexists. vm_compute. reflexivity. Qed.

Lemma proposal_never_rejected_witness : exists effects q',
  triggerNextLedger waiting_env 6 true waiting_queue = Ok (effects, q') /\ sound sample_wire q' /\
  Nominate 6 waiting_value waiting_proposal (tn_previousValue waiting_env) ∈ effects /\
  (set_checkValid (sample_view 2) 5 5 waiting_proposal).1 = true.
Proof.
  destruct (proposal_never_rejected sample_wire waiting_env) with (ledgerSeqToTrigger := 6) (checkTrackingSCP := true) (q := waiting_queue)
    as (effects&q'&E&Hs&_&Hn).
  - apply sample_view_lawful.
  - vm_compute. split; [discriminate|reflexivity].
  - vm_compute. split; discriminate.
  - apply waiting_sound.
  - exists effects, q'. split; [exact E|]. split; [exact Hs|].
    assert (Nominate 6 waiting_value waiting_proposal (tn_previousValue waiting_env) ∈ effects) as Hin.
    { destruct waiting_nomination as [q1 E1]. rewrite E1 in E. injection E as <- _. right. right. left. }
    split; [exact Hin|]. by destruct (Hn _ _ _ _ Hin) as (_&_&_&Hv&_).
Defined.

Definition waiting_herder : HerderValues.HerderEnv := {|
  HerderValues.he_lcl := sample_header 2;
  HerderValues.he_lclHash := hash_bytes 77;
  HerderValues.he_timeNow := 1005;
  HerderValues.he_state := HerderValues.HERDER_TRACKING_NETWORK_STATE;
  HerderValues.he_consensusIndex := 5;
  HerderValues.he_consensusCloseTime := 1000;
  HerderValues.he_upgrades := tn_upgrades waiting_env;
  HerderValues.he_protocolVersion := 18;
  HerderValues.he_getTxSet := fun h => if bool_decide (h = hash_bytes waiting_hash)
    then Some {| HerderValues.mPreviousLedgerHash := hash_bytes 77; HerderValues.mTransactions := sample_wire <$> [1; 3] |} else None;
  HerderValues.he_checkOrTrim := fun _ _ _ => true;
  HerderValues.he_fullHash := fun b => [2 * (tf_sourceID (inner_frame b) - 1) + tf_seqNum (inner_frame b)];
  HerderValues.he_verifySig := fun _ _ _ _ => true;
  HerderValues.he_sha256 := fun v => v;
  HerderValues.he_decode := HerderValues.example_decode;
  HerderValues.he_encode := HerderValues.example_encode;
  HerderValues.he_decodeUpgrade := example_dec;
  HerderValues.he_encodeUpgrade := example_enc;
|}.

Lemma nomination_fully_valid_witness : exists value cache',
  HerderValues.he_decode waiting_herder value = Some waiting_value /\
  HerderValues.herder_validateValue waiting_herder 6 value true ∅ = Ok (kFullyValidatedValue, cache').
Proof.
  destruct waiting_nomination as [q1 E1].
  destruct (nomination_fully_valid sample_wire waiting_env) with (henv := waiting_herder) (ledgerSeqToTrigger := 6) (checkTrackingSCP := true)
    (q := waiting_queue) (q' := q1) (slot := 6) (v := waiting_value) (prev := tn_previousValue waiting_env) (set := waiting_proposal)
    (value := [Z.pos (encode waiting_value)]) (cache := (∅ : gmap Hash (Hash * bool)))
    (effects := [AddTxSet waiting_hash 6 waiting_proposal; RecordSCPEvent 6 true; Nominate 6 waiting_value waiting_proposal (tn_previousValue waiting_env)])
    as (cache'&Hv).
  - apply sample_view_lawful.
  - vm_compute. split; [discriminate|reflexivity].
  - vm_compute. split; discriminate.
  - vm_compute. split; discriminate.
  - vm_compute. split; [discriminate|reflexivity].
  - apply waiting_sound.
  - exact E1.
  - right. right. left.
  - split; [reflexivity|reflexivity|reflexivity|reflexivity|vm_compute; reflexivity|vm_compute; reflexivity| |reflexivity|apply example_roundtrip|reflexivity].
    intros x y Hx Hy. apply elem_of_cons in Hx as [->|Hx%list_elem_of_singleton], Hy as [->|Hy%list_elem_of_singleton]; subst; vm_compute; reflexivity.
  - apply decode_encode.
  - split; intros w Hw; discriminate Hw.
  - repeat constructor.
  - apply lookup_empty.
  - exists [Z.pos (encode waiting_value)], cache'. split; [apply decode_encode|exact Hv].
Defined.
