(* ===== verification/Fetching.v ===== *)
(** * Fetching what messages name

    [src/overlay/Tracker.cpp] and [src/overlay/ItemFetcher.cpp]: a message of
    consensus names a quorum set and transaction sets by their hashes; for
    every hash that is missing a tracker asks the peers, one after the other,
    and keeps the envelopes that wait for it.  A peer is its pointer; what the
    overlay knows of the peers at the moment of a call is a [PeersView]; the
    timer of a tracker is the delay it is armed with.  The count of restarts is a
    number without a bound (the code keeps an [int], and restarts are at least a
    second and a half apart). *)
From stdpp Require Import base tactics list numbers gmap.
From Stdlib Require Import ZArith Lia Bool.
From S2P Require Import Prelude Containers QuorumSet Statement.

Open Scope Z_scope.
Open Scope kin_scope.

Definition MS_TO_WAIT_FOR_FETCH_REPLY : Z := 1500.
Definition MAX_REBUILD_FETCH_LIST : Z := 10.

(** [Peer::pointer]. *)
Definition Peer : Type := Z.

(** The peers at one moment: what [Peer] answers, the maps of inbound and
    outbound peers of the overlay, who is known to have an envelope (by the
    hash the flood map uses), and the draw of [rand_element]. *)
Record PeersView := {
  isAuthenticated : Peer -> bool;
  getPing : Peer -> Z;
  getPeerID : Peer -> NodeID;
  getPeersKnows : Hash -> list Peer;
  getInboundAuthenticatedPeers : list (NodeID * Peer);
  getOutboundAuthenticatedPeers : list (NodeID * Peer);
  rand_index : nat -> nat;
}.

(** ** The tracker of an item *)

Record Tracker := {
  mLastAskedPeer : option Peer;
  mNumListRebuild : Z;
  mPeersAsked : gmap Peer bool;
  mTimer : option Z;
  mWaitingEnvelopes : list (Hash * SCPEnvelope);
  mLastSeenSlotIndex : Z;
}.

Definition newTracker : Tracker :=
  {| mLastAskedPeer := None; mNumListRebuild := 0; mPeersAsked := ∅; mTimer := None;
     mWaitingEnvelopes := []; mLastSeenSlotIndex := 0 |}.

Definition tracker_empty (t : Tracker) : bool :=
  match mWaitingEnvelopes t with [] => true | _ => false end.

Definition with_waiting (ws : list (Hash * SCPEnvelope)) (t : Tracker) : Tracker :=
  {| mLastAskedPeer := mLastAskedPeer t; mNumListRebuild := mNumListRebuild t;
     mPeersAsked := mPeersAsked t; mTimer := mTimer t; mWaitingEnvelopes := ws;
     mLastSeenSlotIndex := mLastSeenSlotIndex t |}.

(** [pop]; [None] is the use of the back of an empty vector. *)
Definition tracker_pop (t : Tracker) : option (SCPEnvelope * Tracker) :=
  match last (mWaitingEnvelopes t) with
  | Some x => Some (x.2, with_waiting (removelast (mWaitingEnvelopes t)) t)
  | None => None
  end.

Definition clearEnvelopesBelow (slot : Z) (t : Tracker) : bool * Tracker :=
  let ws := List.filter (fun x => negb (slotIndex (statement x.2) <? slot)) (mWaitingEnvelopes t) in
  match ws with
  | _ :: _ => (true, with_waiting ws t)
  | [] => (false, {| mLastAskedPeer := None; mNumListRebuild := mNumListRebuild t;
                     mPeersAsked := mPeersAsked t; mTimer := None; mWaitingEnvelopes := [];
                     mLastSeenSlotIndex := mLastSeenSlotIndex t |})
  end.

(** [xdrBlake2] of the message that carries an envelope. *)
Definition listen (xdrBlake2 : SCPEnvelope -> Hash) (env : SCPEnvelope) (t : Tracker) : Tracker :=
  let ws := mWaitingEnvelopes t in
  {| mLastAskedPeer := mLastAskedPeer t; mNumListRebuild := mNumListRebuild t;
     mPeersAsked := mPeersAsked t; mTimer := mTimer t;
     mWaitingEnvelopes :=
       if existsb (fun x => bool_decide (x.2 = env)) ws then ws else ws ++ [(xdrBlake2 env, env)];
     mLastSeenSlotIndex := Z.max (slotIndex (statement env)) (mLastSeenSlotIndex t) |}.

Definition tracker_discard (env : SCPEnvelope) (t : Tracker) : Tracker :=
  with_waiting (List.filter (fun x => negb (bool_decide (x.2 = env))) (mWaitingEnvelopes t)) t.

Definition tracker_cancel (t : Tracker) : Tracker :=
  {| mLastAskedPeer := mLastAskedPeer t; mNumListRebuild := mNumListRebuild t;
     mPeersAsked := mPeersAsked t; mTimer := None; mWaitingEnvelopes := mWaitingEnvelopes t;
     mLastSeenSlotIndex := 0 |}.

Definition resetLastSeenSlotIndex (t : Tracker) : Tracker :=
  {| mLastAskedPeer := mLastAskedPeer t; mNumListRebuild := mNumListRebuild t;
     mPeersAsked := mPeersAsked t; mTimer := mTimer t; mWaitingEnvelopes := mWaitingEnvelopes t;
     mLastSeenSlotIndex := 0 |}.

(** *** Choosing the next peer *)

Section try_next.
Context (v : PeersView).

Definition canAskPeer (asked : gmap Peer bool) (p : Peer) (peerHas : bool) : bool :=
  isAuthenticated v p &&
  match asked !! p with None => true | Some b => peerHas && negb b end.

Definition GROUPSIZE_MS : Z := Z.quot MS_TO_WAIT_FOR_FETCH_REPLY 3.

(** One round of the loop of [procPeers]: the candidates and [curBest]. *)
Definition procPeer (asked : gmap Peer bool) (peersHave : bool) (s : list Peer * Z) (p : Peer)
    : list Peer * Z :=
  let '(candidates, curBest) := s in
  if canAskPeer asked p peersHave then
    let plat := Z.quot (getPing v p) GROUPSIZE_MS in
    if plat <? curBest then ([p], plat)
    else if curBest =? plat then (candidates ++ [p], curBest)
    else s
  else s.

Definition procPeers (asked : gmap Peer bool) (peersHave : bool) (peerMap : list (NodeID * Peer))
    (s : list Peer * Z) : list Peer * Z :=
  foldl (procPeer asked peersHave) s (map snd peerMap).

(** [emplace]: an element with the same key stays. *)
Definition emplace_peer (asked : gmap Peer bool) (m : list (NodeID * Peer)) (p : Peer)
    : list (NodeID * Peer) :=
  if canAskPeer asked p true then
    match map_find (getPeerID v p) m with
    | Some _ => m
    | None => map_set (getPeerID v p) p m
    end
  else m.

Definition newPeersWithEnvelope (asked : gmap Peer bool) (ws : list (Hash * SCPEnvelope))
    : list (NodeID * Peer) :=
  foldl (fun m e => foldl (emplace_peer asked) m (getPeersKnows v e.1)) [] ws.

(** [rand_element]. *)
Definition rand_element (l : list Peer) : option Peer := l !! rand_index v (length l).

(** The peer that was asked, and whether it was thought to have the item. *)
Definition tryNextPeer (t : Tracker) : option (Peer * bool) * Tracker :=
  let asked := mPeersAsked t in
  let withEnv := newPeersWithEnvelope asked (mWaitingEnvelopes t) in
  let peerWithEnvelopeSelected := match withEnv with [] => false | _ => true end in
  let '(candidates, _) :=
    if peerWithEnvelopeSelected then procPeers asked true withEnv ([], INT64_MAX)
    else procPeers asked false (getOutboundAuthenticatedPeers v)
           (procPeers asked false (getInboundAuthenticatedPeers v) ([], INT64_MAX)) in
  match (match candidates with [] => None | _ => rand_element candidates end) with
  | None =>
      let n := mNumListRebuild t + 1 in
      (None,
       {| mLastAskedPeer := None; mNumListRebuild := n; mPeersAsked := ∅;
          mTimer := Some (MS_TO_WAIT_FOR_FETCH_REPLY * Z.min MAX_REBUILD_FETCH_LIST n);
          mWaitingEnvelopes := mWaitingEnvelopes t;
          mLastSeenSlotIndex := mLastSeenSlotIndex t |})
  | Some p =>
      (Some (p, peerWithEnvelopeSelected),
       {| mLastAskedPeer := Some p; mNumListRebuild := mNumListRebuild t;
          mPeersAsked := <[p := peerWithEnvelopeSelected]> asked;
          mTimer := Some MS_TO_WAIT_FOR_FETCH_REPLY;
          mWaitingEnvelopes := mWaitingEnvelopes t;
          mLastSeenSlotIndex := mLastSeenSlotIndex t |})
  end.
End try_next.

(** ** The fetcher *)

Record ItemFetcher := { mTrackers : gmap Hash Tracker }.

Definition with_tracker (h : Hash) (t : Tracker) (f : ItemFetcher) : ItemFetcher :=
  {| mTrackers := <[h := t]> (mTrackers f) |}.

Section fetcher.
Context (xdrBlake2 : SCPEnvelope -> Hash).

(** The result says whether a peer was tried: [Some None] is a restart. *)
Definition fetch (v : PeersView) (itemHash : Hash) (envelope : SCPEnvelope) (f : ItemFetcher)
    : option (option (Peer * bool)) * ItemFetcher :=
  match mTrackers f !! itemHash with
  | None =>
      let '(asked, t) := tryNextPeer v (listen xdrBlake2 envelope newTracker) in
      (Some asked, with_tracker itemHash t f)
  | Some t => (None, with_tracker itemHash (listen xdrBlake2 envelope t) f)
  end.
End fetcher.

Definition fetcher_stopFetch (itemHash : Hash) (envelope : SCPEnvelope) (f : ItemFetcher)
    : ItemFetcher :=
  match mTrackers f !! itemHash with
  | Some t =>
      let t := tracker_discard envelope t in
      with_tracker itemHash (if tracker_empty t then tracker_cancel t else t) f
  | None => f
  end.

Definition getLastSeenSlotIndex (itemHash : Hash) (f : ItemFetcher) : Z :=
  match mTrackers f !! itemHash with Some t => mLastSeenSlotIndex t | None => 0 end.

Definition fetchingFor (itemHash : Hash) (f : ItemFetcher) : list SCPEnvelope :=
  match mTrackers f !! itemHash with Some t => map snd (mWaitingEnvelopes t) | None => [] end.

(** Every tracker is visited once, so the order does not matter. *)
Definition stopFetchingBelowInternal (slot : Z) (f : ItemFetcher) : ItemFetcher :=
  {| mTrackers := omap (fun t => let '(b, t) := clearEnvelopesBelow slot t in
       if b then Some t else None) (mTrackers f) |}.

Definition tracker_doesntHave (v : PeersView) (peer : Peer) (t : Tracker)
    : option (option (Peer * bool)) * Tracker :=
  if bool_decide (mLastAskedPeer t = Some peer) then
    let '(asked, t) := tryNextPeer v t in (Some asked, t)
  else (None, t).

Definition fetcher_doesntHave (v : PeersView) (itemHash : Hash) (peer : Peer) (f : ItemFetcher)
    : option (option (Peer * bool)) * ItemFetcher :=
  match mTrackers f !! itemHash with
  | Some t => let '(asked, t) := tracker_doesntHave v peer t in (asked, with_tracker itemHash t f)
  | None => (None, f)
  end.

(** The handler of the timer of a tracker; a timer that is not armed does not
    fire. *)
Definition timerFired (v : PeersView) (itemHash : Hash) (f : ItemFetcher)
    : option (option (Peer * bool)) * ItemFetcher :=
  match mTrackers f !! itemHash with
  | Some t =>
      match mTimer t with
      | Some _ => let '(asked, t) := tryNextPeer v t in (Some asked, with_tracker itemHash t f)
      | None => (None, f)
      end
  | None => (None, f)
  end.

(** ** Which peer is asked *)

Definition bucket (v : PeersView) (p : Peer) : Z := Z.quot (getPing v p) GROUPSIZE_MS.

(** Latencies are 64-bit counts; [rand_element] draws an element. *)
Record view_ok (v : PeersView) : Prop := {
  vo_ping : forall p, is_i64 (getPing v p);
  vo_rand : forall n, (0 < n)%nat -> (rand_index v n < n)%nat;
}.

Section choice.
Context (v : PeersView) (Hv : view_ok v).

Lemma bucket_le (p : Peer) : bucket v p <= INT64_MAX.
Proof.
  pose proof (vo_ping v Hv p) as Hp. unfold bucket. change GROUPSIZE_MS with 500. unfold_ints.
  Z.to_euclidean_division_equations. lia.
Qed.

(** The candidates after the peers [l]: those of the nearest bucket. *)
Definition nearest (asked : gmap Peer bool) (has : bool) (l : list Peer) (s : list Peer * Z) : Prop :=
  (s.1 = [] -> s.2 = INT64_MAX) /\
  (forall p, p ∈ s.1 -> p ∈ l /\ canAskPeer v asked p has = true /\ bucket v p = s.2) /\
  (forall p, p ∈ l -> canAskPeer v asked p has = true -> s.1 <> [] /\ s.2 <= bucket v p).

Lemma procPeer_nearest (asked : gmap Peer bool) (has : bool) (l : list Peer) (s : list Peer * Z)
    (p : Peer) :
  nearest asked has l s -> nearest asked has (l ++ [p]) (procPeer v asked has s p).
Proof.
  destruct s as [cs best]. intros (H0 & H1 & H2). unfold procPeer. cbn in *.
  pose proof (bucket_le p) as Hle.
  assert (forall q, q ∈ l ++ [p] <-> q ∈ l \/ q = p) as Hin.
  { intros q. by rewrite elem_of_app, list_elem_of_singleton. }
  destruct (canAskPeer v asked p has) eqn:Hp.
  2: { split; [done|]. split; [set_solver|]. intros q [Hq| ->]%Hin Hc; [by apply H2|congruence]. }
  change (Z.quot (getPing v p) GROUPSIZE_MS) with (bucket v p).
  destruct (Z.ltb_spec (bucket v p) best) as [Hlt|Hge];
    [|destruct (Z.eqb_spec best (bucket v p)) as [Heq|Hne]]; unfold nearest; cbn [fst snd].
  - split; [done|]. split; [set_solver|]. intros q [Hq| ->]%Hin Hc; [|done].
    destruct (H2 q Hq Hc). split; [done|lia].
  - split; [by destruct cs|]. split; [set_solver|].
    intros q [Hq| ->]%Hin Hc; (split; [by destruct cs|]); [by apply H2|lia].
  - assert (cs <> []) as Hcs by (intros ->; specialize (H0 eq_refl); lia).
    split; [done|]. split; [set_solver|]. intros q [Hq| ->]%Hin Hc; [by apply H2|].
    split; [done|lia].
Qed.

Lemma procPeers_nearest (asked : gmap Peer bool) (has : bool) (m : list (NodeID * Peer))
    (l : list Peer) (s : list Peer * Z) :
  nearest asked has l s -> nearest asked has (l ++ map snd m) (procPeers v asked has m s).
Proof.
  unfold procPeers. revert l s. induction (map snd m) as [|p ps IH]; intros l s Hs; cbn.
  - by rewrite app_nil_r.
  - replace (l ++ p :: ps) with ((l ++ [p]) ++ ps) by (by rewrite <- app_assoc).
    by apply IH, procPeer_nearest.
Qed.

Lemma nearest_nil (asked : gmap Peer bool) (has : bool) : nearest asked has [] ([], INT64_MAX).
Proof. split; [done|]. split; intros p Hp; by apply not_elem_of_nil in Hp. Qed.

(** The peers that announced an envelope and can be asked. *)
Lemma emplace_peers (asked : gmap Peer bool) (l : list Peer) (m : list (NodeID * Peer)) (p : Peer) :
  (p ∈ map snd (foldl (emplace_peer v asked) m l) ->
   p ∈ map snd m \/ p ∈ l /\ canAskPeer v asked p true = true) /\
  (m <> [] \/ p ∈ l /\ canAskPeer v asked p true = true ->
   foldl (emplace_peer v asked) m l <> []).
Proof.
  revert m. induction l as [|q l IH]; intros m; cbn.
  { split; [by left|]. intros [?|[?%not_elem_of_nil _]]; done. }
  destruct (IH (emplace_peer v asked m q)) as [I1 I2]. unfold emplace_peer in *.
  assert (map_set (getPeerID v q) q m <> []) as Hne
    by (destruct m as [|[k w] m]; cbn; [done|]; repeat case_match; done).
  destruct (canAskPeer v asked q true) eqn:Hq.
  2: { split; [set_solver|]. intros [?|[[->|?]%elem_of_cons ?]]; [set_solver|congruence|set_solver]. }
  destruct (map_find (getPeerID v q) m) eqn:Hf.
  - split; [set_solver|]. intros _. apply I2. left. by destruct m.
  - split; [|intros _; apply I2; by left]. intros [Hp|[??]]%I1; [|set_solver].
    apply list_elem_of_fmap in Hp as ([k w] & -> & Hp). cbn.
    assert (forall (x : NodeID * Peer) m0, x ∈ map_set (getPeerID v q) q m0 -> x ∈ m0 \/ x.2 = q)
      as Hset.
    { intros x m0. clear. induction m0 as [|[k w] m0 IHm]; cbn.
      - intros ->%list_elem_of_singleton. by right.
      - repeat case_match; rewrite ?elem_of_cons; naive_solver. }
    destruct (Hset _ _ Hp) as [?|E]; cbn in *; [|set_solver].
    left. apply list_elem_of_fmap. by exists (k, w).
Qed.

Lemma newPeers_spec (asked : gmap Peer bool) (ws : list (Hash * SCPEnvelope)) (p : Peer) :
  (p ∈ map snd (newPeersWithEnvelope v asked ws) -> canAskPeer v asked p true = true) /\
  (forall e, e ∈ ws -> p ∈ getPeersKnows v e.1 -> canAskPeer v asked p true = true ->
   newPeersWithEnvelope v asked ws <> []).
Proof.
  unfold newPeersWithEnvelope.
  enough (forall m, (p ∈ map snd (foldl (fun m e => foldl (emplace_peer v asked) m (getPeersKnows v e.1)) m ws) ->
    p ∈ map snd m \/ canAskPeer v asked p true = true) /\
    (m <> [] \/ (exists e, e ∈ ws /\ p ∈ getPeersKnows v e.1 /\ canAskPeer v asked p true = true) ->
     foldl (fun m e => foldl (emplace_peer v asked) m (getPeersKnows v e.1)) m ws <> [])) as H.
  { destruct (H []) as [H1 H2]. split; [intros [?%not_elem_of_nil|?]%H1; done|].
    intros e He Hp Hc. apply H2. right. by exists e. }
  induction ws as [|e ws IH]; intros m; cbn.
  { split; [by left|]. intros [?|(e & He%not_elem_of_nil & _)]; done. }
  destruct (IH (foldl (emplace_peer v asked) m (getPeersKnows v e.1))) as [I1 I2].
  destruct (emplace_peers asked (getPeersKnows v e.1) m p) as [E1 E2]. split.
  - intros [[?|[_ ?]]%E1|?]%I1; auto.
  - intros Hm. apply I2. destruct Hm as [Hm|(e' & [->|He]%elem_of_cons & Hp & Hc)]; eauto.
Qed.
End choice.

(** The peers a try considers: those that announced a waiting envelope, or
    those the node is connected to. *)
Definition announced (v : PeersView) (t : Tracker) (p : Peer) : Prop :=
  exists e, e ∈ mWaitingEnvelopes t /\ p ∈ getPeersKnows v e.1.

Definition connected (v : PeersView) (p : Peer) : Prop :=
  p ∈ map snd (getInboundAuthenticatedPeers v) ++ map snd (getOutboundAuthenticatedPeers v).

(** What a try may do. *)
Inductive try_outcome (v : PeersView) (t t' : Tracker) : option (Peer * bool) -> Prop :=
  | try_asked p has :
      canAskPeer v (mPeersAsked t) p has = true ->
      (has = false -> connected v p /\
        (forall q, connected v q -> canAskPeer v (mPeersAsked t) q false = true ->
           bucket v p <= bucket v q)) ->
      mPeersAsked t' = <[p := has]> (mPeersAsked t) ->
      mLastAskedPeer t' = Some p -> mTimer t' = Some MS_TO_WAIT_FOR_FETCH_REPLY ->
      mNumListRebuild t' = mNumListRebuild t ->
      try_outcome v t t' (Some (p, has))
  | try_restarted :
      (forall p, announced v t p -> canAskPeer v (mPeersAsked t) p true = false) ->
      (forall p, connected v p -> canAskPeer v (mPeersAsked t) p false = false) ->
      mPeersAsked t' = ∅ -> mLastAskedPeer t' = None ->
      mNumListRebuild t' = mNumListRebuild t + 1 ->
      mTimer t' = Some (MS_TO_WAIT_FOR_FETCH_REPLY *
                        Z.min MAX_REBUILD_FETCH_LIST (mNumListRebuild t + 1)) ->
      try_outcome v t t' None.

Lemma rand_element_elem (v : PeersView) (l : list Peer) :
  view_ok v -> l <> [] -> exists p, rand_element v l = Some p /\ p ∈ l.
Proof.
  intros Hv Hl. unfold rand_element.
  destruct (lookup_lt_is_Some_2 l (rand_index v (length l))) as [p Hp].
  { apply (vo_rand v Hv). destruct l; cbn; [done|lia]. }
  exists p. split; [done|]. by eapply list_elem_of_lookup_2.
Qed.

Lemma tryNextPeer_spec (v : PeersView) (t : Tracker) :
  view_ok v ->
  try_outcome v t (tryNextPeer v t).2 (tryNextPeer v t).1 /\
  mWaitingEnvelopes (tryNextPeer v t).2 = mWaitingEnvelopes t /\
  mLastSeenSlotIndex (tryNextPeer v t).2 = mLastSeenSlotIndex t.
Proof.
  intros Hv. unfold tryNextPeer.
  set (asked := mPeersAsked t). set (withEnv := newPeersWithEnvelope v asked (mWaitingEnvelopes t)).
  assert (forall p, p ∈ map snd withEnv -> canAskPeer v asked p true = true) as Hnew
    by (intros p; exact (proj1 (newPeers_spec v Hv asked _ p))).
  assert (forall p, announced v t p -> canAskPeer v asked p true = true -> withEnv <> []) as Hann
    by (intros p (e & He & Hp) Hc; exact (proj2 (newPeers_spec v Hv asked _ p) e He Hp Hc)).
  destruct withEnv as [|x m] eqn:E.
  - pose proof (procPeers_nearest v Hv asked false (getInboundAuthenticatedPeers v) _ _
      (nearest_nil v asked false)) as Hin.
    pose proof (procPeers_nearest v Hv asked false (getOutboundAuthenticatedPeers v) _ _ Hin) as Hs.
    destruct (procPeers _ _ _ (getOutboundAuthenticatedPeers v) _) as [cs best].
    rewrite app_nil_l in Hs. destruct Hs as (_ & H1 & H2). cbn in H1, H2.
    destruct cs as [|c cs].
    + cbn. split; [|done]. apply try_restarted; try done.
      * intros p Hp. destruct (canAskPeer v (mPeersAsked t) p true) eqn:Hc; [|done].
        by destruct (Hann p Hp Hc).
      * intros p Hp. destruct (canAskPeer v (mPeersAsked t) p false) eqn:Hc; [|done].
        by destruct (H2 p Hp Hc).
    + destruct (rand_element_elem v (c :: cs) Hv) as (p & -> & Hp); [done|]. cbn.
      split; [|done]. destruct (H1 p Hp) as (Hpc & Hpa & Hpb). apply try_asked; try done.
      intros _. split; [done|]. intros q Hq Hqa. rewrite Hpb. by apply H2.
  - pose proof (procPeers_nearest v Hv asked true (x :: m) _ _ (nearest_nil v asked true))
      as (_ & H1 & H2).
    destruct (procPeers v asked true (x :: m) ([], INT64_MAX)) as [cs best]. cbn in H1, H2.
    destruct (H2 x.2) as [Hcs _]; [by left|apply Hnew; by left|].
    destruct cs as [|c cs]; [done|].
    destruct (rand_element_elem v (c :: cs) Hv) as (p & -> & Hp); [done|]. cbn.
    split; [|done]. destruct (H1 p Hp) as (_ & Hpa & _). by apply try_asked.
Qed.

Lemma tryNextPeer_waiting (v : PeersView) (t : Tracker) :
  mWaitingEnvelopes (tryNextPeer v t).2 = mWaitingEnvelopes t.
Proof. unfold tryNextPeer. by repeat case_match. Qed.

Lemma elem_of_listen (xdrBlake2 : SCPEnvelope -> Hash) (env e : SCPEnvelope) (t : Tracker) :
  e ∈ map snd (mWaitingEnvelopes (listen xdrBlake2 env t)) <->
  e = env \/ e ∈ map snd (mWaitingEnvelopes t).
Proof.
  unfold listen. cbn. destruct (existsb _ (mWaitingEnvelopes t)) eqn:E.
  - apply existsb_exists in E as (x & Hx%list_elem_of_In & Hxe). bprop.
    split; [by right|]. intros [->|?]; [|done]. apply list_elem_of_fmap. by exists x.
  - rewrite map_app, elem_of_app. cbn. rewrite list_elem_of_singleton. tauto.
Qed.

(** ** The life of a tracker *)

Inductive tracker_op :=
  | TryNextPeer (v : PeersView)
  | DoesntHave (v : PeersView) (p : Peer)
  | Listen (env : SCPEnvelope)
  | Discard (env : SCPEnvelope)
  | Pop
  | ClearBelow (slot : Z)
  | Cancel
  | ResetSeen.

Definition op_view_ok (o : tracker_op) : Prop :=
  match o with TryNextPeer v | DoesntHave v _ => view_ok v | _ => True end.

(** A step of a tracker, with the outcomes of its tries in order. *)
Definition tracker_step (xdrBlake2 : SCPEnvelope -> Hash)
    (s : Tracker * list (option (Peer * bool))) (o : tracker_op)
    : Tracker * list (option (Peer * bool)) :=
  let '(t, log) := s in
  match o with
  | TryNextPeer v => let '(a, t) := tryNextPeer v t in (t, log ++ [a])
  | DoesntHave v p =>
      let '(a, t) := tracker_doesntHave v p t in
      (t, match a with Some a => log ++ [a] | None => log end)
  | Listen env => (listen xdrBlake2 env t, log)
  | Discard env => (tracker_discard env t, log)
  | Pop => (match tracker_pop t with Some (_, t) => t | None => t end, log)
  | ClearBelow slot => ((clearEnvelopesBelow slot t).2, log)
  | Cancel => (tracker_cancel t, log)
  | ResetSeen => (resetLastSeenSlotIndex t, log)
  end.

(** The requests since the last restart. *)
Definition round (log : list (option (Peer * bool))) : list (Peer * bool) :=
  foldl (fun r a => match a with Some a => r ++ [a] | None => [] end) [] log.

Lemma round_snoc (log : list (option (Peer * bool))) (a : option (Peer * bool)) :
  round (log ++ [a]) = match a with Some a => round log ++ [a] | None => [] end.
Proof. unfold round. by rewrite foldl_app. Qed.

(** [mPeersAsked] records the requests of the round. *)
Record round_ok (asked : gmap Peer bool) (r : list (Peer * bool)) : Prop := {
  ro_nodup : NoDup r;
  ro_true : forall p, asked !! p = Some true <-> (p, true) ∈ r;
  ro_none : forall p, asked !! p = None <-> forall b, (p, b) ∉ r;
  ro_again : forall r1 p b b' r2, r = r1 ++ (p, b) :: r2 -> (p, b') ∈ r1 -> b = true;
}.

Lemma round_ok_nil : round_ok ∅ [].
Proof.
  split; [apply NoDup_nil; done| | |].
  - intros p. by rewrite lookup_empty, elem_of_nil.
  - intros p. rewrite lookup_empty. split; [|done]. intros _ b. apply not_elem_of_nil.
  - intros [|] ? ? ? ? E; by apply (f_equal length) in E.
Qed.

Lemma round_ok_ask (v : PeersView) (asked : gmap Peer bool) (r : list (Peer * bool)) (p : Peer)
    (has : bool) :
  round_ok asked r -> canAskPeer v asked p has = true ->
  round_ok (<[p := has]> asked) (r ++ [(p, has)]).
Proof.
  intros [Hnd Ht Hn Ha] Hc. unfold canAskPeer in Hc. apply andb_true_iff in Hc as [_ Hc].
  assert (asked !! p = None \/ has = true /\ asked !! p = Some false) as Hcase.
  { destruct (asked !! p) as [[]|]; destruct has; auto; done. }
  assert ((p, has) ∉ r) as Hnew.
  { destruct Hcase as [Hp|[-> Hp]]; [by apply Hn|]. intros Hin%Ht. congruence. }
  split.
  - apply NoDup_app. split; [done|]. split; [set_solver|apply NoDup_singleton].
  - intros q. rewrite elem_of_app, list_elem_of_singleton.
    destruct (decide (q = p)) as [->|Hne].
    + rewrite lookup_insert_eq. split; [intros [= ->]; by right|].
      intros [Hin|[= <-]]; [|done]. apply Ht in Hin.
      destruct Hcase as [?|[_ ?]]; congruence.
    + rewrite lookup_insert_ne, Ht by done. split; [by left|]. intros [?|[= ??]]; done.
  - intros q. destruct (decide (q = p)) as [->|Hne].
    + rewrite lookup_insert_eq. split; [done|]. intros H. destruct (H has). set_solver.
    + rewrite lookup_insert_ne, Hn by done. split; intros H b; specialize (H b); [|set_solver].
      rewrite elem_of_app, list_elem_of_singleton. intros [?|[= ??]]; done.
  - intros r1 q b b' r2 E Hin. destruct r2 as [|x r2 _] using rev_ind.
    + apply app_inj_tail in E as [-> [= <- <-]].
      destruct Hcase as [Hp|[? _]]; [|done]. by destruct (proj1 (Hn p) Hp b').
    + rewrite app_comm_cons, app_assoc in E. apply app_inj_tail in E as [-> _].
      by eapply Ha.
Qed.

Lemma canAskPeer_false (v : PeersView) (asked : gmap Peer bool) (p : Peer) (has : bool) :
  canAskPeer v asked p has = false -> isAuthenticated v p = true ->
  asked !! p = Some true \/ has = false /\ asked !! p = Some false.
Proof.
  unfold canAskPeer. intros Hc Hp. rewrite Hp in Hc.
  destruct (asked !! p) as [[]|], has; auto; done.
Qed.

(** A tracker and the log of its tries. *)
Definition log_ok (s : Tracker * list (option (Peer * bool))) : Prop :=
  round_ok (mPeersAsked s.1) (round s.2) /\ 0 <= mNumListRebuild s.1.

Lemma log_ok_try (v : PeersView) (t : Tracker) (log : list (option (Peer * bool))) :
  view_ok v -> log_ok (t, log) -> log_ok ((tryNextPeer v t).2, log ++ [(tryNextPeer v t).1]).
Proof.
  intros Hv [Hr Hn]. destruct (tryNextPeer_spec v t Hv) as [Ho _]. unfold log_ok. cbn in *.
  rewrite round_snoc. destruct Ho as [p has Hc _ -> _ _ ->|_ _ -> _ -> _].
  - split; [|done]. by eapply round_ok_ask.
  - split; [apply round_ok_nil|lia].
Qed.

Lemma log_ok_step (xdrBlake2 : SCPEnvelope -> Hash) (s : Tracker * list (option (Peer * bool)))
    (o : tracker_op) :
  op_view_ok o -> log_ok s -> log_ok (tracker_step xdrBlake2 s o).
Proof.
  destruct s as [t log]. intros Ho Hs.
  destruct o as [v|v p|env|env| |slot| |]; cbn in *; try exact Hs.
  - pose proof (log_ok_try v t log Ho Hs). by destruct (tryNextPeer v t).
  - pose proof (log_ok_try v t log Ho Hs). unfold tracker_doesntHave.
    case_bool_decide; [|done]. by destruct (tryNextPeer v t).
  - unfold tracker_pop. by destruct (last _).
  - unfold clearEnvelopesBelow. by destruct (List.filter _ _).
Qed.

Lemma log_ok_run (xdrBlake2 : SCPEnvelope -> Hash) (ops : list tracker_op)
    (s : Tracker * list (option (Peer * bool))) :
  Forall op_view_ok ops -> log_ok s -> log_ok (foldl (tracker_step xdrBlake2) s ops).
Proof.
  intros Ho. revert s. induction Ho as [|o ops Ho _ IH]; intros s Hs; [done|].
  by apply IH, log_ok_step.
Qed.

(** A round among the peers [ps] is short. *)
Lemma round_length (asked : gmap Peer bool) (r : list (Peer * bool)) (ps : list Peer) :
  round_ok asked r -> (forall p b, (p, b) ∈ r -> p ∈ ps) -> (length r <= 2 * length ps)%nat.
Proof.
  intros Hr Hp. rewrite (Nat.mul_comm 2). change 2%nat with (length [true; false]).
  rewrite <- length_prod. apply NoDup_incl_length; [apply NoDup_ListNoDup, Hr|].
  intros [p b] Hin%list_elem_of_In. apply in_prod; [apply list_elem_of_In; by eapply Hp|].
  destruct b; cbn; auto.
Qed.

(** The outcomes of consecutive tries. *)
Fixpoint tries (vs : list PeersView) (t : Tracker) : list (option (Peer * bool)) :=
  match vs with
  | [] => []
  | v :: vs => (tryNextPeer v t).1 :: tries vs (tryNextPeer v t).2
  end.

(** Tries that never restart ask someone new each time. *)
Lemma tries_restart (ps : list Peer) (vs : list PeersView) (t : Tracker)
    (log : list (option (Peer * bool))) :
  log_ok (t, log) -> Forall view_ok vs ->
  Forall (fun v => forall p, isAuthenticated v p = true -> p ∈ ps) vs ->
  (forall p b, (p, b) ∈ round log -> p ∈ ps) ->
  (2 * length ps < length (round log) + length vs)%nat -> None ∈ tries vs t.
Proof.
  revert t log. induction vs as [|v vs IH]; intros t log Hs Hv Hp Hr Hl.
  { destruct Hs as [Hok _]. pose proof (round_length _ _ ps Hok Hr). cbn [fst snd length] in *. lia. }
  inversion_clear Hv as [|?? Hv1 Hv2]. inversion_clear Hp as [|?? Hp1 Hp2]. cbn [tries].
  pose proof (log_ok_try v t log Hv1 Hs) as Hs'. destruct (tryNextPeer_spec v t Hv1) as [Ho _].
  destruct (tryNextPeer v t) as [[[p b]|] t']; [|by left]. right. cbn in *.
  inversion Ho as [? ? Hc| ]; subst. unfold canAskPeer in Hc. apply andb_true_iff in Hc as [Hc _].
  apply (IH t' (log ++ [Some (p, b)])); try done; rewrite round_snoc.
  - intros q b'. rewrite elem_of_app, list_elem_of_singleton. intros [?|[= -> _]]; eauto.
  - rewrite length_app. cbn. lia.
Qed.

(** C20. Fetching an item: every peer is asked, and asked again.  A tracker asks in
    rounds.  In a round, whatever peers come, go or announce in the meantime, no
    peer is asked twice unless it has announced a waiting envelope since, and then
    only once more.  A try asks an authenticated peer that was not asked so in
    this round, and, if nobody has announced anything, one of those with the lowest
    latency (in units of half a second); a round ends only when every
    authenticated peer the node is connected to has been asked in it, and every
    peer that announced a waiting envelope has been asked as such.  Each
    try arms the timer for the next one, in at most fifteen seconds ([cancel]
    disarms it when nothing waits any more or the item has come); and among [n] peers
    a round ends within [2 * n + 1] tries. *)
Theorem peers_asked_in_rounds (xdrBlake2 : SCPEnvelope -> Hash) (ops : list tracker_op) :
  Forall op_view_ok ops ->
  let '(t, log) := foldl (tracker_step xdrBlake2) (newTracker, []) ops in
  NoDup (round log) /\
  (forall r1 p b b' r2, round log = r1 ++ (p, b) :: r2 -> (p, b') ∈ r1 -> b = true) /\
  (forall v, view_ok v ->
    match (tryNextPeer v t).1 with
    | Some (p, b) =>
        isAuthenticated v p = true /\ (p, b) ∉ round log /\
        (b = false -> connected v p /\
          forall q, connected v q -> isAuthenticated v q = true ->
            (forall b', (q, b') ∉ round log) -> bucket v p <= bucket v q)
    | None =>
        (forall p, connected v p -> isAuthenticated v p = true -> exists b, (p, b) ∈ round log) /\
        (forall p, announced v t p -> isAuthenticated v p = true -> (p, true) ∈ round log)
    end /\
    exists d, mTimer (tryNextPeer v t).2 = Some d /\ 1500 <= d <= 15000) /\
  (forall ps vs, Forall view_ok vs ->
    Forall (fun v => forall p, isAuthenticated v p = true -> p ∈ ps) vs ->
    (forall p b, (p, b) ∈ round log -> p ∈ ps) ->
    (2 * length ps < length vs)%nat -> None ∈ tries vs t).
Proof.
  intros Hops. pose proof (log_ok_run xdrBlake2 ops (newTracker, []) Hops) as Hs.
  destruct (foldl _ _ ops) as [t log]. destruct Hs as [Hr Hn]; [split; [apply round_ok_nil|done]|].
  cbn in Hr, Hn. pose proof Hr as [Hnd Ht Hno Ha]. split; [done|]. split; [done|]. split.
  - intros v Hv. destruct (tryNextPeer_spec v t Hv) as [Ho _].
    destruct Ho as [p b Hc Hb _ _ Htm _|Hann Hcon _ _ _ Htm].
    + split; [|exists 1500; split; [done|lia]]. pose proof Hc as Hc'.
      unfold canAskPeer in Hc'. apply andb_true_iff in Hc' as [Hau _]. split; [done|]. split.
      * intros Hin. pose proof (ro_nodup _ _ (round_ok_ask v _ _ p b Hr Hc)) as Hd.
        apply NoDup_app in Hd as (_ & Hd & _). eapply Hd; [done|]. by left.
      * intros ->. destruct (Hb eq_refl) as [Hcp Hmin]. split; [done|]. intros q Hq Hqa Hqn.
        apply Hmin; [done|]. unfold canAskPeer. by rewrite Hqa, (proj2 (Hno q) Hqn).
    + split; [split|].
      * intros p Hp Hpa. destruct (canAskPeer_false v _ p _ (Hcon p Hp) Hpa) as [E|[_ E]];
          [exists true; by apply Ht|].
        destruct (decide ((p, false) ∈ round log)) as [?|Hf]; [by exists false|].
        destruct (decide ((p, true) ∈ round log)) as [?|Hf']; [by exists true|].
        rewrite (proj2 (Hno p)) in E; [done|]. by intros [].
      * intros p Hp Hpa. destruct (canAskPeer_false v _ p _ (Hann p Hp) Hpa) as [E|[? _]];
          [by apply Ht|done].
      * eexists. split; [done|]. unfold MS_TO_WAIT_FOR_FETCH_REPLY, MAX_REBUILD_FETCH_LIST. lia.
  - intros ps vs Hv Hp Hrp Hl. eapply (tries_restart ps vs t log); try done. lia.
Qed.

(** Two peers: the nearer is asked first, then the other, then the round is
    over. *)
Definition example_view : PeersView :=
  {| isAuthenticated := fun p => bool_decide (p ∈ [1; 2]);
     getPing := fun p => if p =? 1 then 900 else 100;
     getPeerID := fun p => [p];
     getPeersKnows := fun _ => [];
     getInboundAuthenticatedPeers := [([1], 1)];
     getOutboundAuthenticatedPeers := [([2], 2)];
     rand_index := fun _ => O |}.

Lemma example_view_ok : view_ok example_view.
Proof. split; [intros p; cbn; unfold_ints; case_match; lia|done]. Qed.

Definition example_hash (e : SCPEnvelope) : Hash := signature e.

Lemma peers_asked_in_rounds_witness :
  let ops := repeat (TryNextPeer example_view) 2 in
  let '(t, log) := foldl (tracker_step example_hash) (newTracker, []) ops in
  log = [Some (2, false); Some (1, false)] /\ (tryNextPeer example_view t).1 = None /\
  NoDup (round log) /\
  (forall p, connected example_view p -> isAuthenticated example_view p = true ->
     exists b, (p, b) ∈ round log).
Proof.
  assert (Forall op_view_ok (repeat (TryNextPeer example_view) 2)) as Hv
    by (repeat constructor; apply example_view_ok).
  pose proof (peers_asked_in_rounds example_hash _ Hv) as H. cbv zeta.
  destruct (foldl _ _ _) as [t log] eqn:E. vm_compute in E. injection E as <- <-.
  split; [done|]. split; [vm_compute; reflexivity|]. destruct H as (H1 & _ & H2 & _).
  split; [exact H1|]. exact (proj1 (proj1 (H2 example_view example_view_ok))).
Defined.

(** ** A fetch that was stopped

    [stopFetch] of the last waiting envelope, and [recv], cancel the timer of a
    tracker but leave it in the map; [fetch] then finds it there, and only
    listens. *)

Definition fetch_calls (xdrBlake2 : SCPEnvelope -> Hash) (h : Hash)
    (calls : list (PeersView * SCPEnvelope)) (f : ItemFetcher) : ItemFetcher :=
  foldl (fun f c => (fetch xdrBlake2 c.1 h c.2 f).2) f calls.

Lemma stopped_tracker (h : Hash) (env : SCPEnvelope) (f : ItemFetcher) (t : Tracker) :
  mTrackers f !! h = Some t -> (forall x, x ∈ mWaitingEnvelopes t -> x.2 = env) ->
  exists t', mTrackers (fetcher_stopFetch h env f) !! h = Some t' /\
    mTimer t' = None /\ mWaitingEnvelopes t' = [].
Proof.
  intros Ht Hw. unfold fetcher_stopFetch. rewrite Ht. cbn. rewrite lookup_insert_eq.
  unfold tracker_discard, with_waiting, tracker_empty. cbn.
  assert (List.filter (fun x => negb (bool_decide (x.2 = env))) (mWaitingEnvelopes t) = []) as ->.
  { induction (mWaitingEnvelopes t) as [|x l IH]; cbn; [done|].
    rewrite bool_decide_true by (apply Hw; by left). apply IH. intros y Hy. apply Hw. by right. }
  eexists. done.
Qed.

(** The fetch of an item that was stopped is not resumed: however many
    envelopes need it afterwards, no call of [fetch] asks a peer, and the timer
    stays off.  Only an answer of the peer asked last, that it does not have the
    item, goes on to the next peer. *)
Lemma stopped_fetch_not_resumed (xdrBlake2 : SCPEnvelope -> Hash) (h : Hash) (env : SCPEnvelope)
    (f : ItemFetcher) (t : Tracker) (calls : list (PeersView * SCPEnvelope)) :
  mTrackers f !! h = Some t -> (forall x, x ∈ mWaitingEnvelopes t -> x.2 = env) ->
  let f' := fetch_calls xdrBlake2 h calls (fetcher_stopFetch h env f) in
  (exists t', mTrackers f' !! h = Some t' /\ mTimer t' = None) /\
  (forall v, timerFired v h f' = (None, f')) /\
  (forall v e, (fetch xdrBlake2 v h e f').1 = None).
Proof.
  intros Ht Hw f'.
  assert (exists t', mTrackers f' !! h = Some t' /\ mTimer t' = None) as (t' & Ht' & Hn).
  { destruct (stopped_tracker h env f t Ht Hw) as (t0 & H0 & Hn0 & _). subst f'.
    unfold fetch_calls. revert H0 Hn0. generalize (fetcher_stopFetch h env f) as f0. revert t0.
    induction calls as [|[v e] calls IH]; intros t0 f0 H0 Hn0; [by exists t0|]. cbn [foldl fst snd].
    apply (IH (listen xdrBlake2 e t0)); [|done]. unfold fetch. rewrite H0. cbn.
    by rewrite lookup_insert_eq. }
  split; [by exists t'|]. split.
  - intros v. unfold timerFired. by rewrite Ht', Hn.
  - intros v e. unfold fetch. by rewrite Ht'.
Qed.
