(* ===== verification/PendingEnvelopes.v ===== *)
(** * Envelopes that wait for what they name

    [src/herder/PendingEnvelopes.cpp], with the admission of envelopes by
    [HerderImpl::recvSCPEnvelope] and the queue of ready envelopes
    ([src/herder/HerderImpl.cpp]), and the wrappers of envelopes
    ([src/herder/HerderSCPDriver.cpp]).  An envelope that names quorum sets or
    transaction sets the node does not have waits in the fetchers of [Fetching];
    when everything is there it is handed to SCP.

    The node knows quorum sets and transaction sets by weak references: an item
    is known as long as something holds it: a cache with random eviction, a
    ready envelope, a function that is running ([stack]), or another part of the
    program ([held]).  The rest of the program is a function of the number of
    questions asked so far ([World]): the peers, the state of the herder, the
    tracker of the transitive quorum, and what SCP does with an envelope. *)
From stdpp Require Import base tactics list numbers gmap.
From Stdlib Require Import ZArith Lia Bool.
From S2P Require Import Prelude Containers LedgerEntries Fees QuorumSet Statement SlotState.
From S2P Require Import NominationProtocol Slot HerderValues QuorumTracker.
From S2P Require Import RandomEvictionCache Fetching.

Open Scope Z_scope.
Open Scope kin_scope.

Definition QSET_CACHE_SIZE : nat := 10000.
Definition TXSET_CACHE_SIZE : nat := 10000.
Definition LEDGER_VALIDITY_BRACKET : Z := 100.
Definition GENESIS_LEDGER_SEQ : Z := 1.

Inductive EnvelopeStatus :=
  | ENVELOPE_STATUS_DISCARDED
  | ENVELOPE_STATUS_SKIPPED_SELF
  | ENVELOPE_STATUS_PROCESSED
  | ENVELOPE_STATUS_FETCHING
  | ENVELOPE_STATUS_READY.

(** ** State *)

(** A [TxSetFramePtr] that is not null. *)
Record TxSetPtr := { ts_ptr : Z; ts_set : TxSetFrame }.

(** [SCPHerderEnvelopeWrapper]. *)
Record EnvelopeWrapper := {
  w_envelope : SCPEnvelope;
  w_qset : QSetPtr;
  w_txsets : list TxSetPtr;
}.

(** A strong reference. *)
Inductive Ref := QRef (p : QSetPtr) | TRef (p : TxSetPtr).

(** The sets of envelopes are lists without duplicates; when an envelope was
    first seen is a metric. *)
Record SlotEnvelopes := mkSlotEnvelopes {
  mDiscardedEnvelopes : list SCPEnvelope;
  mProcessedEnvelopes : list SCPEnvelope;
  mFetchingEnvelopes : list SCPEnvelope;
  mReadyEnvelopes : list EnvelopeWrapper;
  mReceivedCost : gmap NodeID Z;
}.

Definition noEnvelopes : SlotEnvelopes := mkSlotEnvelopes [] [] [] [] ∅.

(** What the node knows. *)
Record KnownItems := mkKnown {
  mQsetCache : RandomEvictionCache Hash QSetPtr;
  mKnownQSets : gmap Hash QSetPtr;
  mTxSetCache : RandomEvictionCache Hash (Z * TxSetPtr);
  mKnownTxSets : gmap Hash TxSetPtr;
  mValueSizeCache : RandomEvictionCache Hash Z;
}.

Inductive FetchKind := FetchTxSet | FetchQSet.

#[global] Instance FetchKind_eq_dec : EqDecision FetchKind.
Proof. solve_decision. Defined.

(** What is outside: references held elsewhere and by running functions, the
    posted calls of [stopFetchingBelowInternal], the questions asked so far, the
    random numbers drawn, the next pointer of [make_shared]; and a record of the
    tries of the fetchers and of the envelopes given to SCP. *)
Record Outside := mkOutside {
  held : list Ref;
  stack : list Ref;
  posted : list (FetchKind * Z);
  tick : nat;
  draws : nat;
  nextPtr : Z;
  tried : list (FetchKind * Hash * option (Peer * bool));
  delivered : list EnvelopeWrapper;
}.

Record PendingEnvelopes := mkPending {
  mEnvelopes : list (Z * SlotEnvelopes);
  known : KnownItems;
  mTxSetFetcher : ItemFetcher;
  mQuorumSetFetcher : ItemFetcher;
  pe_mRebuildQuorum : bool;
  outside : Outside;
}.

Inductive pending_error :=
  | CacheFailed (e : cache_error)
  | InsaneQSet                 (** the assertion of [putQSet] *)
  | TouchWithoutSlot           (** the assertion of [getKnownTxSet] *)
  | XdrRuntimeError            (** outside the [try] blocks *)
  | UnknownQSet                (** thrown by the wrapper *)
  | UnknownTxSet               (** thrown by the wrapper *)
  | NullExpandedQSet           (** [releaseAssertOrThrow] of [expand] *)
  | DanglingTracker
  | UnsortedTxSet              (** the assertion of [TxSetFrame::toXDR] *)
  | HerderFailed (e : herder_error)
  | PendingOutOfFuel.

Notation PE := (ST PendingEnvelopes pending_error).

(** *** Updates *)

Definition with_envelopes (m : list (Z * SlotEnvelopes)) (s : PendingEnvelopes) : PendingEnvelopes :=
  mkPending m (known s) (mTxSetFetcher s) (mQuorumSetFetcher s) (pe_mRebuildQuorum s) (outside s).

Definition with_known (k : KnownItems) (s : PendingEnvelopes) : PendingEnvelopes :=
  mkPending (mEnvelopes s) k (mTxSetFetcher s) (mQuorumSetFetcher s) (pe_mRebuildQuorum s)
    (outside s).

Definition fetcher (kind : FetchKind) (s : PendingEnvelopes) : ItemFetcher :=
  match kind with FetchTxSet => mTxSetFetcher s | FetchQSet => mQuorumSetFetcher s end.

Definition with_fetcher (kind : FetchKind) (f : ItemFetcher) (s : PendingEnvelopes)
    : PendingEnvelopes :=
  match kind with
  | FetchTxSet =>
      mkPending (mEnvelopes s) (known s) f (mQuorumSetFetcher s) (pe_mRebuildQuorum s) (outside s)
  | FetchQSet =>
      mkPending (mEnvelopes s) (known s) (mTxSetFetcher s) f (pe_mRebuildQuorum s) (outside s)
  end.

Definition with_rebuild (b : bool) (s : PendingEnvelopes) : PendingEnvelopes :=
  mkPending (mEnvelopes s) (known s) (mTxSetFetcher s) (mQuorumSetFetcher s) b (outside s).

Definition with_outside (o : Outside) (s : PendingEnvelopes) : PendingEnvelopes :=
  mkPending (mEnvelopes s) (known s) (mTxSetFetcher s) (mQuorumSetFetcher s)
    (pe_mRebuildQuorum s) o.

Definition on_outside (f : Outside -> Outside) : PE unit :=
  modify (fun s => with_outside (f (outside s)) s).

Definition set_held (l : list Ref) (o : Outside) : Outside :=
  mkOutside l (stack o) (posted o) (tick o) (draws o) (nextPtr o) (tried o) (delivered o).
Definition set_stack (l : list Ref) (o : Outside) : Outside :=
  mkOutside (held o) l (posted o) (tick o) (draws o) (nextPtr o) (tried o) (delivered o).
Definition set_posted (l : list (FetchKind * Z)) (o : Outside) : Outside :=
  mkOutside (held o) (stack o) l (tick o) (draws o) (nextPtr o) (tried o) (delivered o).
Definition next_tick (o : Outside) : Outside :=
  mkOutside (held o) (stack o) (posted o) (S (tick o)) (draws o) (nextPtr o) (tried o) (delivered o).
Definition set_draws (d : nat) (o : Outside) : Outside :=
  mkOutside (held o) (stack o) (posted o) (tick o) d (nextPtr o) (tried o) (delivered o).
Definition bump_ptr (o : Outside) : Outside :=
  mkOutside (held o) (stack o) (posted o) (tick o) (draws o) (nextPtr o + 1) (tried o) (delivered o).
Definition log_try (k : FetchKind) (h : Hash) (a : option (Peer * bool)) (o : Outside) : Outside :=
  mkOutside (held o) (stack o) (posted o) (tick o) (draws o) (nextPtr o)
    (tried o ++ [(k, h, a)]) (delivered o).
Definition log_delivered (w : EnvelopeWrapper) (o : Outside) : Outside :=
  mkOutside (held o) (stack o) (posted o) (tick o) (draws o) (nextPtr o) (tried o)
    (delivered o ++ [w]).

Definition slot_of (env : SCPEnvelope) : Z := slotIndex (statement env).

Definition slot_envelopes (slot : Z) (s : PendingEnvelopes) : SlotEnvelopes :=
  default noEnvelopes (map_find slot (mEnvelopes s)).

(** [mEnvelopes[slot]], modified: the entry is created when there is none. *)
Definition on_slot (slot : Z) (f : SlotEnvelopes -> SlotEnvelopes) : PE unit :=
  modify (fun s => with_envelopes (map_set slot (f (slot_envelopes slot s)) (mEnvelopes s)) s).

Definition set_discarded l e := mkSlotEnvelopes l (mProcessedEnvelopes e) (mFetchingEnvelopes e)
  (mReadyEnvelopes e) (mReceivedCost e).
Definition set_processed l e := mkSlotEnvelopes (mDiscardedEnvelopes e) l (mFetchingEnvelopes e)
  (mReadyEnvelopes e) (mReceivedCost e).
Definition set_fetching l e := mkSlotEnvelopes (mDiscardedEnvelopes e) (mProcessedEnvelopes e) l
  (mReadyEnvelopes e) (mReceivedCost e).
Definition set_ready l e := mkSlotEnvelopes (mDiscardedEnvelopes e) (mProcessedEnvelopes e)
  (mFetchingEnvelopes e) l (mReceivedCost e).
Definition set_cost c e := mkSlotEnvelopes (mDiscardedEnvelopes e) (mProcessedEnvelopes e)
  (mFetchingEnvelopes e) (mReadyEnvelopes e) c.

Definition env_in (env : SCPEnvelope) (l : list SCPEnvelope) : bool := bool_decide (env ∈ l).

Definition env_insert (env : SCPEnvelope) (l : list SCPEnvelope) : list SCPEnvelope :=
  if env_in env l then l else l ++ [env].

Definition env_erase (env : SCPEnvelope) (l : list SCPEnvelope) : list SCPEnvelope :=
  List.filter (fun e => negb (bool_decide (e = env))) l.

(** *** Weak references *)

Definition wrapper_refs (w : EnvelopeWrapper) : list Ref := QRef (w_qset w) :: map TRef (w_txsets w).

(** Every strong reference there is. *)
Definition references (s : PendingEnvelopes) : list Ref :=
  map (fun x => QRef (mValue x.2)) (map_to_list (mValueMap (mQsetCache (known s)))) ++
  map (fun x => TRef (mValue x.2).2) (map_to_list (mValueMap (mTxSetCache (known s)))) ++
  concat (map (fun x => concat (map wrapper_refs (mReadyEnvelopes x.2))) (mEnvelopes s)) ++
  stack (outside s) ++ held (outside s).

(** [weak_ptr::expired], negated. *)
Definition qset_alive (s : PendingEnvelopes) (p : QSetPtr) : bool :=
  existsb (fun r => match r with QRef q => qs_ptr q =? qs_ptr p | TRef _ => false end) (references s).

Definition txset_alive (s : PendingEnvelopes) (p : TxSetPtr) : bool :=
  existsb (fun r => match r with TRef q => ts_ptr q =? ts_ptr p | QRef _ => false end) (references s).

(** [lock] of the entries of the maps. *)
Definition lock_qset (s : PendingEnvelopes) (h : Hash) : option QSetPtr :=
  match mKnownQSets (known s) !! h with
  | Some p => if qset_alive s p then Some p else None
  | None => None
  end.

Definition lock_txset (s : PendingEnvelopes) (h : Hash) : option TxSetPtr :=
  match mKnownTxSets (known s) !! h with
  | Some p => if txset_alive s p then Some p else None
  | None => None
  end.

(** ** What the rest of the program says *)

(** What SCP may do while it processes an envelope: ask for items and keep
    them, let go of what it keeps, and have old slots erased and the quorum
    recomputed when it externalizes. *)
Inductive Callback :=
  | CbGetQSet (h : Hash) (keep : bool)
  | CbGetTxSet (h : Hash) (keep : bool)
  | CbRelease (n : nat)
  | CbEraseBelow (slot : Z)
  | CbForceRebuild.

Record World := {
  wo_peers : PeersView;
  wo_herder : HerderEnv;
  wo_verifyEnvelope : SCPEnvelope -> bool;
  wo_inQuorum : NodeID -> bool;
  wo_rebuildAsks : list Hash;            (** the calls of [getQSet] by [rebuild] *)
  wo_closest : NodeID -> list NodeID;    (** [findClosestValidators] *)
  wo_expand : bool;                      (** the answer of [expand] *)
  wo_scp : EnvelopeWrapper -> bool * list Callback;
}.

Record PendingConfig := {
  MANUAL_CLOSE : bool;
  MAXIMUM_LEDGER_CLOSETIME_DRIFT : Z;
  MAX_SLOTS_TO_REMEMBER : Z;
  NODE_ID : NodeID;
  LOCAL_QSET_HASH : Hash;
  LOCAL_QSET : SCPQuorumSet;
  db_getQuorumSet : Hash -> option SCPQuorumSet;
  xdrBlake2 : SCPEnvelope -> Hash;
  xdr_decode : Value -> option StellarValue;
  env_size : SCPEnvelope -> Z;
  tx_fullHash : TransactionFrameBase -> Hash;
  txset_xdr_size : TxSetFrame -> Z;
  qset_size : SCPQuorumSet -> Z;
  cache_rand : RandomEngine;
}.

Section operations.
Context (cfg : PendingConfig) (world : nat -> World).

(** The next answer of the rest of the program. *)
Definition consult : PE World :=
  let! s := get in
  on_outside next_tick ;;!
  ret (world (tick (outside s))).

Definition make_ptr : PE Z :=
  let! s := get in
  on_outside bump_ptr ;;!
  ret (nextPtr (outside s)).

Definition push_ref (r : Ref) : PE unit := on_outside (fun o => set_stack (r :: stack o) o).
Definition pop_ref : PE unit := on_outside (fun o => set_stack (tail (stack o)) o).
Definition keep_ref (r : Ref) : PE unit := on_outside (fun o => set_held (r :: held o) o).

(** *** The caches *)

Definition qset_put (h : Hash) (p : QSetPtr) : PE unit := fun s =>
  let k := known s in
  match put (cache_rand cfg) (draws (outside s)) h p (mQsetCache k) with
  | Ok (c, d) =>
      Ok (tt, with_outside (set_draws d (outside s))
        (with_known (mkKnown c (mKnownQSets k) (mTxSetCache k) (mKnownTxSets k) (mValueSizeCache k)) s))
  | Err e => Err (CacheFailed e)
  end.

Definition txset_put (h : Hash) (v : Z * TxSetPtr) : PE unit := fun s =>
  let k := known s in
  match put (cache_rand cfg) (draws (outside s)) h v (mTxSetCache k) with
  | Ok (c, d) =>
      Ok (tt, with_outside (set_draws d (outside s))
        (with_known (mkKnown (mQsetCache k) (mKnownQSets k) c (mKnownTxSets k) (mValueSizeCache k)) s))
  | Err e => Err (CacheFailed e)
  end.

Definition size_put (h : Hash) (v : Z) : PE unit := fun s =>
  let k := known s in
  match put (cache_rand cfg) (draws (outside s)) h v (mValueSizeCache k) with
  | Ok (c, d) =>
      Ok (tt, with_outside (set_draws d (outside s))
        (with_known (mkKnown (mQsetCache k) (mKnownQSets k) (mTxSetCache k) (mKnownTxSets k) c) s))
  | Err e => Err (CacheFailed e)
  end.

(** [exists] followed by [get], as the code uses them: what is there. *)
Definition txset_cached (h : Hash) : PE (option (Z * TxSetPtr)) := fun s =>
  let k := known s in
  let '(b, c) := cache_exists h true (mTxSetCache k) in
  let set c := with_known (mkKnown (mQsetCache k) (mKnownQSets k) c (mKnownTxSets k) (mValueSizeCache k)) s in
  if b then
    match cache_get h c with
    | (Ok v, c) => Ok (Some v, set c)
    | (Err e, _) => Err (CacheFailed e)
    end
  else Ok (None, set c).

Definition size_cached (h : Hash) : PE (option Z) := fun s =>
  let k := known s in
  let '(b, c) := cache_exists h true (mValueSizeCache k) in
  let set c := with_known (mkKnown (mQsetCache k) (mKnownQSets k) (mTxSetCache k) (mKnownTxSets k) c) s in
  if b then
    match cache_get h c with
    | (Ok v, c) => Ok (Some v, set c)
    | (Err e, _) => Err (CacheFailed e)
    end
  else Ok (None, set c).

Definition txset_erase_if (f : Z * TxSetPtr -> bool) : PE unit := fun s =>
  let k := known s in
  match erase_if f (mTxSetCache k) with
  | Ok c =>
      Ok (tt, with_known (mkKnown (mQsetCache k) (mKnownQSets k) c (mKnownTxSets k) (mValueSizeCache k)) s)
  | Err e => Err (CacheFailed e)
  end.

Definition know_qset (h : Hash) (p : QSetPtr) : PE unit := modify (fun s =>
  let k := known s in
  with_known (mkKnown (mQsetCache k) (<[h := p]> (mKnownQSets k)) (mTxSetCache k) (mKnownTxSets k)
    (mValueSizeCache k)) s).

Definition know_txset (h : Hash) (p : TxSetPtr) : PE unit := modify (fun s =>
  let k := known s in
  with_known (mkKnown (mQsetCache k) (mKnownQSets k) (mTxSetCache k) (<[h := p]> (mKnownTxSets k))
    (mValueSizeCache k)) s).

(** *** Known items *)

Definition getKnownQSet (h : Hash) (touch : bool) : PE (option QSetPtr) :=
  let! s := get in
  match lock_qset s h with
  | Some p => when touch (qset_put h p) ;;! ret (Some p)
  | None => ret None
  end.

Definition putQSet (h : Hash) (q : SCPQuorumSet) : PE QSetPtr :=
  check (Sanity.isQuorumSetSane q false) InsaneQSet ;;!
  let! res := getKnownQSet h true in
  match res with
  | Some p => ret p
  | None =>
      let! n := make_ptr in
      let p := {| qs_ptr := n; qs_set := q |} in
      know_qset h p ;;!
      qset_put h p ;;!
      ret p
  end.

Definition getKnownTxSet (h : Hash) (slot : Z) (touch : bool) : PE (option TxSetPtr) :=
  check (touch || (slot =? 0)) TouchWithoutSlot ;;!
  let! s := get in
  match lock_txset s h with
  | Some p =>
      when touch
        (let! v := txset_cached h in
         when (match v with Some v => v.1 <? slot | None => true end) (txset_put h (slot, p))) ;;!
      ret (Some p)
  | None => ret None
  end.

Definition putTxSet (h : Hash) (slot : Z) (txset : TxSetPtr) : PE TxSetPtr :=
  let! res := getKnownTxSet h slot true in
  match res with
  | Some p => ret p
  | None => know_txset h txset ;;! txset_put h (slot, txset) ;;! ret txset
  end.

Definition getTxSet (h : Hash) : PE (option TxSetPtr) := getKnownTxSet h 0 false.

Definition getQSet (h : Hash) : PE (option QSetPtr) :=
  let! qset := getKnownQSet h false in
  match qset with
  | Some p => ret (Some p)
  | None =>
      let q := if bool_decide (h = LOCAL_QSET_HASH cfg) then Some (LOCAL_QSET cfg)
               else db_getQuorumSet cfg h in
      match q with
      | Some q => let! p := putQSet h q in ret (Some p)
      | None => ret None
      end
  end.

Definition cleanKnownData : PE unit := modify (fun s =>
  let k := known s in
  with_known (mkKnown (mQsetCache k)
    (base.filter (fun x => qset_alive s x.2 = true) (mKnownQSets k)) (mTxSetCache k)
    (base.filter (fun x => txset_alive s x.2 = true) (mKnownTxSets k)) (mValueSizeCache k)) s).

(** *** What an envelope names *)

(** [getTxSetHashes] of [HerderUtils.cpp]; [None] when a value does not
    decode. *)
Definition getStellarValues (st : SCPStatement) : option (list StellarValue) :=
  mapM (xdr_decode cfg) (slot_getStatementValues st).

Definition getTxSetHashes (env : SCPEnvelope) : option (list Hash) :=
  svs ← getStellarValues (statement env); Some (map sv_txSetHash svs).

Definition qset_hash (env : SCPEnvelope) : Hash :=
  getCompanionQuorumSetHashFromStatement (statement env).

(** [std::all_of] over the transaction sets of an envelope. *)
Fixpoint all_known (hs : list Hash) : PE bool :=
  match hs with
  | [] => ret true
  | h :: hs =>
      let! p := getKnownTxSet h 0 false in
      if isSome p then all_known hs else ret false
  end.

Definition isFullyFetched (env : SCPEnvelope) : PE bool :=
  let! p := getKnownQSet (qset_hash env) false in
  if negb (isSome p) then ret false
  else
    let! hs := deref (getTxSetHashes env) XdrRuntimeError in
    all_known hs.

Definition do_fetch (kind : FetchKind) (h : Hash) (env : SCPEnvelope) : PE unit :=
  let! w := consult in
  let! s := get in
  let '(a, f) := fetch (xdrBlake2 cfg) (wo_peers w) h env (fetcher kind s) in
  modify (with_fetcher kind f) ;;!
  match a with Some a => on_outside (log_try kind h a) | None => ret tt end.

Fixpoint fetch_txsets (hs : list Hash) (env : SCPEnvelope) : PE unit :=
  match hs with
  | [] => ret tt
  | h :: hs =>
      let! p := getKnownTxSet h 0 false in
      when (negb (isSome p)) (do_fetch FetchTxSet h env) ;;!
      fetch_txsets hs env
  end.

Definition startFetch (env : SCPEnvelope) : PE unit :=
  let! p := getKnownQSet (qset_hash env) false in
  when (negb (isSome p)) (do_fetch FetchQSet (qset_hash env) env) ;;!
  let! hs := deref (getTxSetHashes env) XdrRuntimeError in
  fetch_txsets hs env.

Definition do_stopFetch (kind : FetchKind) (env : SCPEnvelope) (h : Hash) : PE unit :=
  modify (fun s => with_fetcher kind (fetcher_stopFetch h env (fetcher kind s)) s).

Fixpoint each {A} (f : A -> PE unit) (l : list A) : PE unit :=
  match l with [] => ret tt | x :: l => f x ;;! each f l end.

(** An envelope whose values do not decode stops here; [discardSCPEnvelope]
    catches the exception. *)
Definition stopFetch (env : SCPEnvelope) : PE unit :=
  do_stopFetch FetchQSet env (qset_hash env) ;;!
  match getTxSetHashes env with
  | Some hs => each (do_stopFetch FetchTxSet env) hs
  | None => ret tt
  end.

(** [false] when a value of the envelope does not decode. *)
Definition touchFetchCache (env : SCPEnvelope) : PE bool :=
  let! _ := getKnownQSet (qset_hash env) true in
  match getTxSetHashes env with
  | Some hs => each (fun h => let! _ := getKnownTxSet h (slot_of env) true in ret tt) hs ;;! ret true
  | None => ret false
  end.

Definition isDiscarded (env : SCPEnvelope) (s : PendingEnvelopes) : bool :=
  match map_find (slot_of env) (mEnvelopes s) with
  | Some e => env_in env (mDiscardedEnvelopes e)
  | None => false
  end.

Definition discardSCPEnvelope (env : SCPEnvelope) : PE unit :=
  on_slot (slot_of env) (fun e => e) ;;!
  let! s := get in
  let e := slot_envelopes (slot_of env) s in
  if env_in env (mDiscardedEnvelopes e) then ret tt
  else
    on_slot (slot_of env) (fun e =>
      set_fetching (env_erase env (mFetchingEnvelopes e))
        (set_discarded (env_insert env (mDiscardedEnvelopes e)) e)) ;;!
    stopFetch env.

(** *** Costs *)

(** [std::is_sorted] with [HashTxSorter]. *)
Fixpoint hash_sorted (l : list TransactionFrameBase) : bool :=
  match l with
  | a :: (b :: _) as l' => negb (ltb (tx_fullHash cfg b) (tx_fullHash cfg a)) && hash_sorted l'
  | _ => true
  end.

(** [toXDR], then the size of the result. *)
Definition txset_toXDR_size (t : TxSetFrame) : PE Z :=
  check (hash_sorted (mTransactions t)) UnsortedTxSet ;;!
  ret (txset_xdr_size cfg t).

(** The size of a transaction set, remembered. *)
Definition txset_cost (h : Hash) : PE Z :=
  let! c := size_cached h in
  match c with
  | Some n => ret n
  | None =>
      let! p := getTxSet h in
      match p with
      | Some p => let! n := txset_toXDR_size (ts_set p) in size_put h n ;;! ret n
      | None => ret 0
      end
  end.

Fixpoint txset_costs (hs : list Hash) : PE Z :=
  match hs with
  | [] => ret 0
  | h :: hs => let! n := txset_cost h in let! m := txset_costs hs in ret (n + m)
  end.

Definition qset_cost (h : Hash) : PE Z :=
  let! c := size_cached h in
  match c with
  | Some n => ret n
  | None =>
      let! p := getQSet h in
      match p with
      | Some p => let n := qset_size cfg (qs_set p) in size_put h n ;;! ret n
      | None => ret 0
      end
  end.

Definition add_cost (n : Z) (cost : gmap NodeID Z) (t : NodeID) : gmap NodeID Z :=
  <[t := u64 (default 0 (cost !! t) + n)]> cost.

Definition recordReceivedCost (env : SCPEnvelope) : PE unit :=
  let! w := consult in
  if negb (wo_inQuorum w (nodeID (statement env))) then ret tt
  else
    let! hs := deref (getTxSetHashes env) XdrRuntimeError in
    let! txs := txset_costs hs in
    let! qs := qset_cost (qset_hash env) in
    let totalReceivedBytes := u64 (env_size cfg env + txs + qs) in
    if 0 <? totalReceivedBytes then
      let! w := consult in
      on_slot (slot_of env) (fun e =>
        set_cost (foldl (add_cost totalReceivedBytes) (mReceivedCost e)
                    (wo_closest w (nodeID (statement env)))) e)
    else ret tt.

(** *** Ready envelopes *)

Fixpoint wrap_txsets (hs : list Hash) : PE (list TxSetPtr) :=
  match hs with
  | [] => ret []
  | h :: hs =>
      let! p := getTxSet h in
      let! p := deref p UnknownTxSet in
      let! ps := wrap_txsets hs in
      ret (p :: ps)
  end.

(** The constructor of [SCPHerderEnvelopeWrapper]. *)
Definition wrapEnvelope (env : SCPEnvelope) : PE EnvelopeWrapper :=
  let! q := getQSet (qset_hash env) in
  let! q := deref q UnknownQSet in
  push_ref (QRef q) ;;!
  let! hs := deref (getTxSetHashes env) XdrRuntimeError in
  let! ts := wrap_txsets hs in
  pop_ref ;;!
  ret {| w_envelope := env; w_qset := q; w_txsets := ts |}.

Definition envelopeReady (env : SCPEnvelope) : PE unit :=
  recordReceivedCost env ;;!
  let! w := wrapEnvelope env in
  on_slot (slot_of env) (fun e => set_ready (mReadyEnvelopes e ++ [w]) e).

Definition pe_isNodeDefinitelyInQuorum (node : NodeID) : PE bool :=
  let! s := get in
  when (pe_mRebuildQuorum s)
    (let! w := consult in
     each (fun h => let! _ := getQSet h in ret tt) (wo_rebuildAsks w) ;;!
     modify (with_rebuild false)) ;;!
  let! w := consult in
  ret (wo_inQuorum w node).

(** The part of [recvSCPEnvelope] after the envelope is in the fetching set. *)
Definition check_fetched (env : SCPEnvelope) : PE EnvelopeStatus :=
  let! b := isFullyFetched env in
  if b then
    on_slot (slot_of env) (fun e =>
      set_fetching (env_erase env (mFetchingEnvelopes e))
        (set_processed (env_insert env (mProcessedEnvelopes e)) e)) ;;!
    envelopeReady env ;;!
    ret ENVELOPE_STATUS_READY
  else
    startFetch env ;;!
    ret ENVELOPE_STATUS_FETCHING.

Definition recvSCPEnvelope (env : SCPEnvelope) : PE EnvelopeStatus :=
  let! b := pe_isNodeDefinitelyInQuorum (nodeID (statement env)) in
  if negb b then ret ENVELOPE_STATUS_DISCARDED
  else
    let! s := get in
    if isDiscarded env s then ret ENVELOPE_STATUS_DISCARDED
    else
      let! b := touchFetchCache env in
      if negb b then ret ENVELOPE_STATUS_DISCARDED
      else
        on_slot (slot_of env) (fun e => e) ;;!
        let! s := get in
        let e := slot_envelopes (slot_of env) s in
        if env_in env (mFetchingEnvelopes e) then check_fetched env
        else if env_in env (mProcessedEnvelopes e) then ret ENVELOPE_STATUS_PROCESSED
        else
          on_slot (slot_of env) (fun e => set_fetching (env_insert env (mFetchingEnvelopes e)) e) ;;!
          startFetch env ;;!
          check_fetched env.

(** *** Old slots *)

Definition below (slot : Z) (s : PendingEnvelopes) : list (Z * SlotEnvelopes) :=
  List.filter (fun x => x.1 <? slot) (mEnvelopes s).

Definition stopAllBelow (slot : Z) : PE unit :=
  let! s := get in
  each (fun x => each recordReceivedCost (mFetchingEnvelopes x.2)) (below slot s) ;;!
  on_outside (fun o => set_posted (posted o ++ [(FetchTxSet, slot); (FetchQSet, slot)]) o).

(** [reportCostOutliersForSlot], which [eraseBelow] calls before it erases, is left
    out: it is a [const] function that logs and counts. *)
Definition pe_eraseBelow (slot : Z) : PE unit :=
  stopAllBelow slot ;;!
  modify (fun s =>
    with_envelopes (List.filter (fun x => negb (x.1 <? slot)) (mEnvelopes s)) s) ;;!
  txset_erase_if (fun i => negb (i.1 =? 0) && (i.1 <? slot)) ;;!
  cleanKnownData.

Definition pe_forceRebuildQuorum : PE unit := modify (with_rebuild true).

(** *** What SCP does with a ready envelope *)

(** [pop]: the newest ready envelope of the oldest slot that has one. *)
Fixpoint pop_ready (slot : Z) (m : list (Z * SlotEnvelopes))
    : option (EnvelopeWrapper * list (Z * SlotEnvelopes)) :=
  match m with
  | [] => None
  | (i, e) :: m =>
      if slot <? i then None
      else
        match last (mReadyEnvelopes e) with
        | Some w => Some (w, (i, set_ready (removelast (mReadyEnvelopes e)) e) :: m)
        | None => '(w, m) ← pop_ready slot m; Some (w, (i, e) :: m)
        end
  end.

Definition readySlots (s : PendingEnvelopes) : list Z :=
  map fst (List.filter (fun x => match mReadyEnvelopes x.2 with [] => false | _ => true end)
             (mEnvelopes s)).

Definition callback (c : Callback) : PE unit :=
  match c with
  | CbGetQSet h keep =>
      let! p := getQSet h in
      match p with Some p => when keep (keep_ref (QRef p)) | None => ret tt end
  | CbGetTxSet h keep =>
      let! p := getTxSet h in
      match p with Some p => when keep (keep_ref (TRef p)) | None => ret tt end
  | CbRelease n => on_outside (fun o => set_held (delete n (held o)) o)
  | CbEraseBelow slot => pe_eraseBelow slot
  | CbForceRebuild => pe_forceRebuildQuorum
  end.

(** [PendingEnvelopes::envelopeProcessed]; what [expand] does is in
    [QuorumTracker]. *)
Definition pe_envelopeProcessed (env : SCPEnvelope) : PE unit :=
  let! q := getQSet (qset_hash env) in
  check (isSome q) NullExpandedQSet ;;!
  let! w := consult in
  when (negb (wo_expand w)) (modify (with_rebuild true)).

Definition push_wrapper (w : EnvelopeWrapper) : PE unit :=
  on_outside (fun o => set_stack (wrapper_refs w ++ stack o) o).

Definition pop_wrapper (w : EnvelopeWrapper) : PE unit :=
  on_outside (fun o => set_stack (drop (length (wrapper_refs w)) (stack o)) o).

(** [SCP::receiveEnvelope] and what follows when the envelope was valid. *)
Definition receive_ready (w : EnvelopeWrapper) : PE unit :=
  let! wo := consult in
  let '(valid, calls) := wo_scp wo w in
  each callback calls ;;!
  when valid (pe_envelopeProcessed (w_envelope w)).

(** One round of the loop of [processSCPQueueUpToIndex]: the envelope that was
    popped, and the slots without it. *)
Definition process_ready (w : EnvelopeWrapper) (m : list (Z * SlotEnvelopes)) : PE unit :=
  push_wrapper w ;;!
  modify (with_envelopes m) ;;!
  on_outside (log_delivered w) ;;!
  receive_ready w ;;!
  pop_wrapper w.

Fixpoint processSCPQueueUpToIndex (fuel : nat) (slot : Z) : PE unit :=
  let! s := get in
  match pop_ready slot (mEnvelopes s) with
  | None => ret tt
  | Some (w, m) =>
      match fuel with
      | O => fail PendingOutOfFuel
      | S fuel => process_ready w m ;;! processSCPQueueUpToIndex fuel slot
      end
  end.

(** Every round takes an envelope. *)
Definition count_ready (s : PendingEnvelopes) : nat :=
  list_sum (map (fun x => length (mReadyEnvelopes x.2)) (mEnvelopes s)).

Definition processUpTo (slot : Z) : PE unit :=
  let! s := get in processSCPQueueUpToIndex (count_ready s) slot.

Definition lift_herder {A} (m : result herder_error A) : PE A :=
  match m with Ok a => ret a | Err e => fail (HerderFailed e) end.

(** The loop over [readySlots] when the node is not tracking. *)
Fixpoint process_slots (slots : list Z) : PE unit :=
  match slots with
  | [] => ret tt
  | i :: slots =>
      processUpTo i ;;!
      let! w := consult in
      if isTracking (wo_herder w) then ret tt else process_slots slots
  end.

Definition processSCPQueue : PE unit :=
  let! w := consult in
  if isTracking (wo_herder w) then
    let! i := lift_herder (nextConsensusLedgerIndex (wo_herder w)) in
    processUpTo i
  else
    let! s := get in process_slots (readySlots s).

(** *** The herder *)

(** [checkCTHelper]: one of the values has an acceptable close time. *)
Definition checkCTHelper (he : HerderEnv) (ctCutoff lastCloseIndex lastCloseTime envLedgerIndex : Z)
    (values : list Value) : bool :=
  existsb (fun v =>
    match xdr_decode cfg v with
    | Some sv =>
        (ctCutoff <=? sv_closeTime sv) &&
        ((lastCloseIndex =? envLedgerIndex) && (lastCloseTime =? sv_closeTime sv) ||
         (envLedgerIndex <? lastCloseIndex) && (sv_closeTime sv <? lastCloseTime) ||
         checkCloseTime he lastCloseTime sv)
    | None => false
    end) values.

(** [HerderImpl::checkCloseTime]. *)
Definition envelope_checkCloseTime (he : HerderEnv) (env : SCPEnvelope) (enforceRecent : bool)
    : result herder_error bool :=
  let now := he_timeNow he in
  let ctCutoff :=
    if enforceRecent && (MAXIMUM_LEDGER_CLOSETIME_DRIFT cfg <=? now)
    then now - MAXIMUM_LEDGER_CLOSETIME_DRIFT cfg else 0 in
  let envLedgerIndex := slot_of env in
  let lcl := (ledgerSeq (he_lcl he), scpValue_closeTime (he_lcl he)) in
  let? last :=
    match he_state he with
    | HERDER_BOOTING_STATE => Ok lcl
    | _ =>
        let? trackingIndex := trackingConsensusLedgerIndex he in
        if (trackingIndex <=? envLedgerIndex) && (lcl.1 <? trackingIndex) then
          let? t := trackingConsensusCloseTime he in Ok (trackingIndex, t)
        else Ok lcl
    end in
  let ct := checkCTHelper he ctCutoff last.1 last.2 envLedgerIndex in
  Ok match pledges (statement env) with
     | SCP_ST_NOMINATE n => ct (n_accepted n) || ct (n_votes n)
     | SCP_ST_PREPARE p =>
         ct [value (p_ballot p)] || ct (map value (opt_list (p_prepared p))) ||
         ct (map value (opt_list (p_preparedPrime p)))
     | SCP_ST_CONFIRM c => ct [value (c_ballot c)]
     | SCP_ST_EXTERNALIZE e => ct [value (e_commit e)]
     end.

Definition getMinLedgerSeqToRemember (he : HerderEnv) : result herder_error Z :=
  let? currSlot := trackingConsensusLedgerIndex he in
  Ok (if MAX_SLOTS_TO_REMEMBER cfg <? currSlot
      then u32 (currSlot - MAX_SLOTS_TO_REMEMBER cfg + 1) else GENESIS_LEDGER_SEQ).

(** The checks of [HerderImpl::recvSCPEnvelope]: why an envelope is refused, or
    [None] when it is admitted. *)
Definition refused (w : World) (env : SCPEnvelope) : result herder_error (option EnvelopeStatus) :=
  let he := wo_herder w in
  let discard := Ok (Some ENVELOPE_STATUS_DISCARDED) in
  if MANUAL_CLOSE cfg then discard else
  let? minLedgerSeq := getMinLedgerSeqToRemember he in
  let? b := envelope_checkCloseTime he env false in
  if negb b then discard else
  let? maxLedgerSeq :=
    (if isTracking he then
       let? next := nextConsensusLedgerIndex he in Ok (Some (u32 (next + LEDGER_VALIDITY_BRACKET)))
     else
       let? i := trackingConsensusLedgerIndex he in
       let? b := envelope_checkCloseTime he env (i <=? GENESIS_LEDGER_SEQ) in
       Ok (if b then Some UINT32_MAX else None)) in
  match maxLedgerSeq with
  | None => discard
  | Some maxLedgerSeq =>
      if (maxLedgerSeq <? slot_of env) || (slot_of env <? minLedgerSeq) then discard
      else if negb (wo_verifyEnvelope w env) then discard
      else if bool_decide (nodeID (statement env) = NODE_ID cfg)
      then Ok (Some ENVELOPE_STATUS_SKIPPED_SELF)
      else Ok None
  end.

Definition herder_recvSCPEnvelope (env : SCPEnvelope) : PE EnvelopeStatus :=
  let! w := consult in
  let! r := lift_herder (refused w env) in
  match r with
  | Some st => ret st
  | None =>
      let! status := recvSCPEnvelope env in
      match status with
      | ENVELOPE_STATUS_READY => processSCPQueue ;;! ret status
      | _ => ret status
      end
  end.

(** *** Items that arrive *)

(** The loop of [ItemFetcher::recv].  [fuel] is the number of envelopes that
    wait. *)
Fixpoint recv_loop (fuel : nat) (kind : FetchKind) (h : Hash) : PE unit :=
  let! s := get in
  let! t := deref (mTrackers (fetcher kind s) !! h) DanglingTracker in
  match tracker_pop t with
  | None => ret tt
  | Some (env, t) =>
      match fuel with
      | O => fail PendingOutOfFuel
      | S fuel =>
          modify (with_fetcher kind (with_tracker h t (fetcher kind s))) ;;!
          herder_recvSCPEnvelope env ;;!
          recv_loop fuel kind h
      end
  end.

Definition fetcher_recv (kind : FetchKind) (h : Hash) : PE unit :=
  let! s := get in
  match mTrackers (fetcher kind s) !! h with
  | None => ret tt
  | Some t =>
      recv_loop (length (mWaitingEnvelopes t)) kind h ;;!
      let! s := get in
      let! t := deref (mTrackers (fetcher kind s) !! h) DanglingTracker in
      modify (with_fetcher kind
        (with_tracker h (tracker_cancel (resetLastSeenSlotIndex t)) (fetcher kind s)))
  end.

Definition addSCPQuorumSet (h : Hash) (q : SCPQuorumSet) : PE unit :=
  putQSet h q ;;!
  fetcher_recv FetchQSet h.

Definition discardSCPEnvelopesWithQSet (h : Hash) : PE unit :=
  let! s := get in
  each discardSCPEnvelope (fetchingFor h (mQuorumSetFetcher s)).

Definition recvSCPQuorumSet (h : Hash) (q : SCPQuorumSet) : PE bool :=
  let! s := get in
  if getLastSeenSlotIndex h (mQuorumSetFetcher s) =? 0 then ret false
  else if Sanity.isQuorumSetSane q false then addSCPQuorumSet h q ;;! ret true
  else discardSCPEnvelopesWithQSet h ;;! ret false.

(** The argument is a [shared_ptr]: it holds the set until the end. *)
Definition addTxSet (h : Hash) (lastSeenSlotIndex : Z) (txset : TxSetPtr) : PE unit :=
  push_ref (TRef txset) ;;!
  putTxSet h lastSeenSlotIndex txset ;;!
  fetcher_recv FetchTxSet h ;;!
  pop_ref.

(** [HerderImpl::recvTxSet] makes the pointer. *)
Definition recvTxSet (h : Hash) (t : TxSetFrame) : PE bool :=
  let! n := make_ptr in
  let txset := {| ts_ptr := n; ts_set := t |} in
  let! s := get in
  let lastSeenSlotIndex := getLastSeenSlotIndex h (mTxSetFetcher s) in
  if lastSeenSlotIndex =? 0 then ret false
  else addTxSet h lastSeenSlotIndex txset ;;! ret true.

Definition peerDoesntHave (kind : FetchKind) (h : Hash) (peer : Peer) : PE unit :=
  let! w := consult in
  let! s := get in
  let '(a, f) := fetcher_doesntHave (wo_peers w) h peer (fetcher kind s) in
  modify (with_fetcher kind f) ;;!
  match a with Some a => on_outside (log_try kind h a) | None => ret tt end.

(** ** Events *)

Inductive PendingEvent :=
  | EvEnvelope (env : SCPEnvelope)
  | EvTxSet (h : Hash) (t : TxSetFrame)
  | EvQSet (h : Hash) (q : SCPQuorumSet)
  | EvDoesntHave (kind : FetchKind) (h : Hash) (peer : Peer)
  | EvOwnTxSet (h : Hash) (slot : Z) (t : TxSetFrame)  (** a proposal, or a restored state *)
  | EvOwnQSet (h : Hash) (q : SCPQuorumSet)
  | EvFetchTimer (kind : FetchKind) (h : Hash)
  | EvCleanup                         (** the first posted [stopFetchingBelowInternal] *)
  | EvProcessQueue (slot : Z)         (** the call posted by [safelyProcessSCPQueue] *)
  | EvCallback (c : Callback).

Definition fetch_timer (kind : FetchKind) (h : Hash) : PE unit :=
  let! w := consult in
  let! s := get in
  let '(a, f) := timerFired (wo_peers w) h (fetcher kind s) in
  modify (with_fetcher kind f) ;;!
  match a with Some a => on_outside (log_try kind h a) | None => ret tt end.

Definition cleanup : PE unit :=
  let! s := get in
  match posted (outside s) with
  | [] => ret tt
  | (kind, slot) :: l =>
      on_outside (set_posted l) ;;!
      modify (fun s => with_fetcher kind (stopFetchingBelowInternal slot (fetcher kind s)) s)
  end.

Definition pending_event (e : PendingEvent) : PE unit :=
  match e with
  | EvEnvelope env => let! _ := herder_recvSCPEnvelope env in ret tt
  | EvTxSet h t => let! _ := recvTxSet h t in ret tt
  | EvQSet h q => let! _ := recvSCPQuorumSet h q in ret tt
  | EvDoesntHave kind h peer => peerDoesntHave kind h peer
  | EvOwnTxSet h slot t =>
      let! n := make_ptr in addTxSet h slot {| ts_ptr := n; ts_set := t |}
  | EvOwnQSet h q => addSCPQuorumSet h q
  | EvFetchTimer kind h => fetch_timer kind h
  | EvCleanup => cleanup
  | EvProcessQueue slot => processUpTo slot
  | EvCallback c => callback c
  end.

Fixpoint pending_events (es : list PendingEvent) : PE unit :=
  match es with [] => ret tt | e :: es => pending_event e ;;! pending_events es end.
End operations.

Definition noFetches : ItemFetcher := {| mTrackers := ∅ |}.

Definition newPending : PendingEnvelopes :=
  mkPending []
    (mkKnown (emptyCache QSET_CACHE_SIZE) ∅ (emptyCache TXSET_CACHE_SIZE) ∅
       (emptyCache (TXSET_CACHE_SIZE + QSET_CACHE_SIZE)))
    noFetches noFetches true
    (mkOutside [] [] [] 0 0 0 [] []).
