(* ===== verification/PendingItems.v ===== *)
(** * What a node knows

    The operations of [PendingEnvelopes] that look items up, keep them in the
    caches and count costs: none of them fails, and none of them makes an item
    known that had expired. *)
From stdpp Require Import base tactics list numbers gmap.
From Stdlib Require Import ZArith Lia Bool.
From S2P Require Import Prelude Containers LedgerEntries QuorumSet Statement SlotState.
From S2P Require Import HerderValues QuorumTracker RandomEvictionCache Fetching PendingEnvelopes.

Open Scope Z_scope.
Open Scope kin_scope.

(** No error at all. *)
Definition never (e : pending_error) : Prop := False.

(** Items are what their hashes say, and computing the hash of a transaction set
    has sorted it ([ordered_set]).  The node never hears of more quorum sets
    than the cache holds ([universe]), so that none of them is evicted. *)
Record Hashes := {
  txset_hash : TxSetFrame -> Hash;
  qset_hash_of : SCPQuorumSet -> Hash;
  universe : list Hash;
  ordered_set : TxSetFrame -> Prop;
}.

Record config_ok (cfg : PendingConfig) (hs : Hashes) : Prop := {
  co_rand : uniform (cache_rand cfg);
  co_universe : (length (universe hs) <= QSET_CACHE_SIZE)%nat;
  co_local : LOCAL_QSET_HASH cfg = qset_hash_of hs (LOCAL_QSET cfg) /\
    Sanity.isQuorumSetSane (LOCAL_QSET cfg) false = true /\
    LOCAL_QSET_HASH cfg ∈ universe hs;
  co_db : forall h q, db_getQuorumSet cfg h = Some q ->
    h = qset_hash_of hs q /\ Sanity.isQuorumSetSane q false = true /\ h ∈ universe hs;
  co_ordered : forall t, ordered_set hs t -> hash_sorted cfg (mTransactions t) = true;
}.

(** The set with this hash, hashed. *)
Definition is_txset (hs : Hashes) (t : TxSetFrame) (h : Hash) : Prop :=
  txset_hash hs t = h /\ ordered_set hs t.

(** ** Caches *)

Section caches.
Context {K V : Type} `{Countable K}.

Definition cache_fine (c : RandomEvictionCache K V) : Prop :=
  consistent (mValueMap c) (mValuePtrs c) /\ (length (mValuePtrs c) <= mMaxSize c)%nat.

Lemma cache_fine_ok (c : RandomEvictionCache K V) :
  cache_fine c -> cache_ok (fun k => mValue <$> mValueMap c !! k) c.
Proof. intros [Hc Hl]. split; [done|done|]. intros k v ->. done. Qed.

Lemma cache_fine_empty (n : nat) : cache_fine (emptyCache n : RandomEvictionCache K V).
Proof.
  split; [|cbn; lia]. split; [by apply NoDup_nil|]. intros k. cbn. rewrite lookup_empty.
  split; [by intros ?%not_elem_of_nil|by intros []].
Qed.

(** A [put] adds one entry, and may evict any. *)
Lemma cache_fine_put (rand : RandomEngine) (d : nat) (k : K) (v : V) (c : RandomEvictionCache K V) :
  uniform rand -> cache_fine c ->
  exists c' d', put rand d k v c = Ok (c', d') /\ cache_fine c' /\ mMaxSize c' = mMaxSize c /\
    (forall k' cv, mValueMap c' !! k' = Some cv ->
       mValue cv = v /\ k' = k \/ exists cv0, mValueMap c !! k' = Some cv0 /\ mValue cv0 = mValue cv).
Proof.
  intros Hr Hc. destruct (put_ok rand d k v _ c Hr (cache_fine_ok c Hc)) as (c' & d' & E & Hok & Hm).
  exists c', d'. split; [done|]. split; [split; apply Hok|]. split; [done|].
  intros k' cv Hk'. apply (ok_values _ _ Hok) in Hk'. unfold spec_put in Hk'.
  destruct (decide (k' = k)) as [->|]; [left; by injection Hk' as ->|].
  right. destruct (mValueMap c !! k') as [cv0|]; [|done]. injection Hk' as E'. by exists cv0.
Qed.

(** A [put] into a cache that has room for all keys evicts nothing. *)
Lemma put_room (rand : RandomEngine) (d : nat) (k : K) (v : V) (c : RandomEvictionCache K V)
    (keys : list K) :
  cache_fine c -> (length keys <= mMaxSize c)%nat -> k ∈ keys ->
  (forall k', is_Some (mValueMap c !! k') -> k' ∈ keys) ->
  exists c' cv, put rand d k v c = Ok (c', d) /\ cache_fine c' /\ mMaxSize c' = mMaxSize c /\
    mValueMap c' = <[k := cv]> (mValueMap c) /\ mValue cv = v.
Proof.
  intros [[Hnd Hin] Hl] Hlen Hk Hkeys. unfold put.
  assert (forall cv ptrs, NoDup ptrs ->
    (forall k', k' ∈ ptrs <-> k' = k \/ k' ∈ mValuePtrs c) ->
    consistent (<[k := cv]> (mValueMap c)) ptrs) as Hcon.
  { intros cv ptrs Hp Hpi. split; [done|]. intros k'. rewrite Hpi, Hin, lookup_insert_is_Some'.
    naive_solver. }
  destruct (mValueMap c !! k) as [cv0|] eqn:Ek.
  - eexists _, _. split; [reflexivity|]. split; [|done]. split; [|done]. apply Hcon; [done|].
    intros k'. split; [by right|]. intros [->|?]; [|done]. by apply Hin.
  - set (c1 := with_cache _ _ _ _ _).
    assert (NoDup (mValuePtrs c ++ [k])) as Hnd'.
    { apply NoDup_app. split; [done|]. split; [|apply NoDup_singleton].
      intros k' Hk' ->%list_elem_of_singleton. apply Hin in Hk' as [? ?]. congruence. }
    assert (length (mValuePtrs c ++ [k]) <= length keys)%nat as Hle.
    { apply NoDup_incl_length; [by apply NoDup_ListNoDup|]. intros k' Hk'%list_elem_of_In.
      apply list_elem_of_In. apply elem_of_app in Hk' as [Hk'| ->%list_elem_of_singleton]; [|done].
      by apply Hkeys, Hin. }
    destruct (Nat.ltb_spec (mMaxSize c1) (length (mValuePtrs c1))) as [Hlt|_]; [cbn in Hlt; lia|].
    eexists _, _. split; [reflexivity|]. split; [|done]. split; [|cbn; lia]. apply Hcon; [done|].
    intros k'. unfold c1. cbn. rewrite elem_of_app, list_elem_of_singleton. naive_solver.
Qed.

Lemma maybeGet_fine (k : K) (c : RandomEvictionCache K V) :
  cache_fine c -> cache_fine (snd (maybeGet k c)) /\ mMaxSize (snd (maybeGet k c)) = mMaxSize c /\
  fst (maybeGet k c) = (mValue <$> mValueMap c !! k) /\
  (forall k', mValue <$> mValueMap (snd (maybeGet k c)) !! k' = mValue <$> mValueMap c !! k').
Proof.
  intros Hc. destruct (maybeGet_ok k _ c (cache_fine_ok c Hc)) as (Hok & Hm & _).
  split; [split; apply Hok|]. split; [done|]. unfold maybeGet.
  destruct (mValueMap c !! k) as [cv|] eqn:E; cbn; [|done]. split; [done|]. intros k'.
  destruct (decide (k' = k)) as [->|]; [|by rewrite lookup_insert_ne].
  by rewrite lookup_insert_eq, E.
Qed.

(** [exists] and then [get]. *)
Lemma exists_get (k : K) (c : RandomEvictionCache K V) :
  cache_fine c ->
  exists c', cache_fine c' /\ mMaxSize c' = mMaxSize c /\
    (forall k', mValue <$> mValueMap c' !! k' = mValue <$> mValueMap c !! k') /\
    match mValueMap c !! k with
    | Some cv => exists c1, cache_exists k true c = (true, c1) /\ cache_get k c1 = (Ok (mValue cv), c')
    | None => cache_exists k true c = (false, c')
    end.
Proof.
  intros Hc. unfold cache_exists. destruct (mValueMap c !! k) as [cv|] eqn:E.
  - destruct (maybeGet_fine k c Hc) as (H1 & H2 & H3 & H4). exists (snd (maybeGet k c)).
    split; [done|]. split; [done|]. split; [done|]. exists c. split; [done|]. unfold cache_get.
    destruct (maybeGet k c) as [r c']. cbn in *. by rewrite H3, E.
  - eexists. split; [|split; [|split; [|reflexivity]]]; done.
Qed.
End caches.

(** ** The state of the items *)

Section items.
Context (cfg : PendingConfig) (hs : Hashes) (Hcfg : config_ok cfg hs) (world : nat -> World).

Notation known_q s := (mKnownQSets (known s)).
Notation known_t s := (mKnownTxSets (known s)).

Record items_ok (s : PendingEnvelopes) : Prop := {
  io_order : ordered (mEnvelopes s);
  io_qcache : cache_fine (mQsetCache (known s));
  io_qsize : mMaxSize (mQsetCache (known s)) = QSET_CACHE_SIZE;
  io_q : forall h p, known_q s !! h = Some p <->
    exists v, mValueMap (mQsetCache (known s)) !! h = Some v /\ mValue v = p;
  io_qhash : forall h p, known_q s !! h = Some p ->
    h ∈ universe hs /\ qset_hash_of hs (qs_set p) = h;
  io_tcache : cache_fine (mTxSetCache (known s));
  io_t : forall h p, known_t s !! h = Some p ->
    ts_ptr p < nextPtr (outside s) /\ is_txset hs (ts_set p) h;
  io_sizes : cache_fine (mValueSizeCache (known s));
}.

(** The envelopes of a slot, without the costs. *)
Definition lists (s : PendingEnvelopes) (slot : Z)
    : list SCPEnvelope * list SCPEnvelope * list SCPEnvelope * list EnvelopeWrapper :=
  let e := slot_envelopes slot s in
  (mDiscardedEnvelopes e, mProcessedEnvelopes e, mFetchingEnvelopes e, mReadyEnvelopes e).

Definition ready_of (s : PendingEnvelopes) (slot : Z) : list EnvelopeWrapper := (lists s slot).2.

(** Something holds the transaction set at this pointer. *)
Definition has_ref (s : PendingEnvelopes) (i : Z) : Prop :=
  (exists h v, mValueMap (mTxSetCache (known s)) !! h = Some v /\ ts_ptr (mValue v).2 = i) \/
  (exists slot w p, w ∈ ready_of s slot /\ p ∈ w_txsets w /\ ts_ptr p = i) \/
  (exists p, TRef p ∈ stack (outside s) ++ held (outside s) /\ ts_ptr p = i).

Lemma ready_elem (s : PendingEnvelopes) (w : EnvelopeWrapper) :
  ordered (mEnvelopes s) ->
  (exists x, x ∈ mEnvelopes s /\ w ∈ mReadyEnvelopes x.2) <-> exists slot, w ∈ ready_of s slot.
Proof.
  intros Ho. unfold ready_of, lists, slot_envelopes. cbn. split.
  - intros ([slot e] & Hx & Hw). exists slot. by rewrite (proj2 (map_find_elem slot e _ Ho) Hx).
  - intros (slot & Hw). destruct (map_find slot (mEnvelopes s)) as [e|] eqn:E.
    + exists (slot, e). split; [|done]. by apply map_find_elem.
    + by apply not_elem_of_nil in Hw.
Qed.

Lemma txset_alive_iff (s : PendingEnvelopes) (p : TxSetPtr) :
  ordered (mEnvelopes s) -> txset_alive s p = true <-> has_ref s (ts_ptr p).
Proof.
  intros Ho. unfold txset_alive. rewrite existsb_exists. unfold references, has_ref. split.
  - intros ([q|q] & Hin%list_elem_of_In & Hq); [done|]. apply Z.eqb_eq in Hq.
    rewrite !elem_of_app in Hin. destruct Hin as [Hin|[Hin|[Hin|Hin]]].
    + apply list_elem_of_fmap in Hin as (? & [=] & _).
    + apply list_elem_of_fmap in Hin as ([h v] & [= ->] & Hin). apply elem_of_map_to_list in Hin.
      left. by exists h, v.
    + right. left. apply list_elem_of_In, in_concat in Hin as (l & Hl & Hin).
      apply in_map_iff in Hl as (x & <- & Hx). apply in_concat in Hin as (l & Hl & Hin).
      apply in_map_iff in Hl as (w & <- & Hw). destruct Hin as [E|Hin]; [discriminate E|].
      apply in_map_iff in Hin as (p' & [= ->] & Hp).
      destruct (proj1 (ready_elem s w Ho)) as [slot Hs]; [exists x; by rewrite !list_elem_of_In|].
      exists slot, w, q. split; [done|]. split; [by apply list_elem_of_In|done].
    + right. right. exists q. by rewrite elem_of_app.
  - intros [(h & v & Hv & Hp)|[(slot & w & q & Hw & Hq & Hp)|(q & Hq & Hp)]].
    + exists (TRef (mValue v).2). split; [|by apply Z.eqb_eq]. apply list_elem_of_In.
      rewrite !elem_of_app. right. left. apply list_elem_of_fmap. exists (h, v). split; [done|].
      by apply elem_of_map_to_list.
    + exists (TRef q). split; [|by apply Z.eqb_eq]. apply list_elem_of_In. rewrite !elem_of_app.
      right. right. left. apply list_elem_of_In, in_concat.
      destruct (proj2 (ready_elem s w Ho)) as (x & Hx & Hwx); [by exists slot|].
      eexists. split; [apply in_map_iff; exists x; split; [reflexivity|by apply list_elem_of_In]|].
      apply in_concat. exists (wrapper_refs w).
      split; [apply in_map_iff; exists w; split; [done|by apply list_elem_of_In]|].
      right. apply in_map_iff. exists q. by rewrite <- list_elem_of_In.
    + exists (TRef q). split; [|by apply Z.eqb_eq]. apply list_elem_of_In.
      rewrite elem_of_app in Hq. rewrite !elem_of_app. auto.
Qed.

(** A known quorum set is in the cache, so it is alive. *)
Lemma lock_qset_known (s : PendingEnvelopes) (h : Hash) :
  items_ok s -> lock_qset s h = known_q s !! h.
Proof.
  intros Hs. unfold lock_qset. destruct (known_q s !! h) as [p|] eqn:E; [|done].
  apply (io_q s Hs) in E as (v & Hv & <-). replace (qset_alive s (mValue v)) with true; [done|].
  symmetry. unfold qset_alive. apply existsb_exists. exists (QRef (mValue v)).
  split; [|apply Z.eqb_refl]. apply list_elem_of_In. unfold references. rewrite elem_of_app. left.
  apply list_elem_of_fmap. exists (h, v). split; [done|]. by apply elem_of_map_to_list.
Qed.

Lemma lock_txset_iff (s : PendingEnvelopes) (h : Hash) (p : TxSetPtr) :
  items_ok s -> lock_txset s h = Some p <-> known_t s !! h = Some p /\ has_ref s (ts_ptr p).
Proof.
  intros Hs. unfold lock_txset. destruct (known_t s !! h) as [q|]; [|naive_solver].
  pose proof (txset_alive_iff s q (io_order s Hs)) as Ha.
  destruct (txset_alive s q); split.
  - intros [= <-]. split; [done|by apply Ha].
  - by intros [[= <-] _].
  - done.
  - intros [[= <-] Hr]. by apply Ha in Hr.
Qed.

(** ** Operations that only look *)

(** What does not change; with [b], no transaction set expires either. *)
Record quiet (b : bool) (s s' : PendingEnvelopes) : Prop := {
  qt_lists : forall slot, lists s' slot = lists s slot;
  qt_count : count_ready s' = count_ready s;
  qt_fetcher : forall kind, fetcher kind s' = fetcher kind s;
  qt_stack : stack (outside s') = stack (outside s);
  qt_held : held (outside s') = held (outside s);
  qt_posted : posted (outside s') = posted (outside s);
  qt_delivered : delivered (outside s') = delivered (outside s);
  qt_ptr : nextPtr (outside s) <= nextPtr (outside s');
  qt_q : known_q s ⊆ known_q s';
  qt_t : known_t s' = known_t s;
  qt_ref : forall i, has_ref s' i -> has_ref s i;
  qt_alive : b = true -> forall i, has_ref s i -> has_ref s' i;
}.

Lemma quiet_refl (b : bool) (s : PendingEnvelopes) : quiet b s s.
Proof. by split. Qed.

Lemma quiet_weaken (b : bool) (s s' : PendingEnvelopes) : quiet true s s' -> quiet b s s'.
Proof. intros []. by split; auto. Qed.

Lemma quiet_trans (b : bool) (s1 s2 s3 : PendingEnvelopes) :
  quiet b s1 s2 -> quiet b s2 s3 -> quiet b s1 s3.
Proof.
  intros H1 H2. split; try (etrans; [apply H2|apply H1]).
  - etrans; [apply H1|apply H2].
  - etrans; [apply H1|apply H2].
  - intros i Hi. by apply H1, H2.
  - intros Hb i Hi. apply H2, H1; done.
Qed.

(** Run quietly, with [Q] of the result and the final state. *)
Definition qwp {A} (b : bool) (m : PE A) (Q : A -> PendingEnvelopes -> Prop) (s : PendingEnvelopes)
    : Prop :=
  wp never m (fun a s' => items_ok s' /\ quiet b s s' /\ Q a s') s.

Lemma qwp_ret {A} (b : bool) (a : A) (Q : A -> PendingEnvelopes -> Prop) (s : PendingEnvelopes) :
  items_ok s -> Q a s -> qwp b (ret a) Q s.
Proof. intros Hs HQ. apply wp_ret. split; [done|]. split; [apply quiet_refl|done]. Qed.

Lemma qwp_bind {A B} (b : bool) (m : PE A) (f : A -> PE B) (P : A -> PendingEnvelopes -> Prop)
    (Q : B -> PendingEnvelopes -> Prop) (s : PendingEnvelopes) :
  qwp b m P s -> (forall a s', items_ok s' -> quiet b s s' -> P a s' -> qwp b (f a) Q s') ->
  qwp b (bind m f) Q s.
Proof.
  intros Hm Hf. apply wp_bind. eapply wp_mono; [exact Hm|]. intros a s' (Hi & Hq & HP).
  eapply wp_mono; [exact (Hf a s' Hi Hq HP)|]. intros c s'' (Hi' & Hq' & HQ).
  split; [done|]. split; [by eapply quiet_trans|done].
Qed.

Lemma qwp_mono {A} (b : bool) (m : PE A) (P Q : A -> PendingEnvelopes -> Prop)
    (s : PendingEnvelopes) :
  qwp b m P s -> (forall a s', items_ok s' -> quiet b s s' -> P a s' -> Q a s') -> qwp b m Q s.
Proof.
  intros Hm HQ. eapply wp_mono; [exact Hm|]. intros a s' (Hi & Hq & HP). auto.
Qed.

Lemma qwp_weaken {A} (b : bool) (m : PE A) (Q : A -> PendingEnvelopes -> Prop)
    (s : PendingEnvelopes) : qwp true m Q s -> qwp b m Q s.
Proof.
  intros Hm. eapply wp_mono; [exact Hm|]. intros a s' (Hi & Hq & HP).
  split; [done|]. split; [by apply quiet_weaken|done].
Qed.

Lemma qwp_bind_still {A B} (b : bool) (m : PE A) (f : A -> PE B) (P : A -> PendingEnvelopes -> Prop)
    (Q : B -> PendingEnvelopes -> Prop) (s : PendingEnvelopes) :
  qwp true m P s -> (forall a s', items_ok s' -> quiet true s s' -> P a s' -> qwp b (f a) Q s') ->
  qwp b (bind m f) Q s.
Proof.
  intros Hm Hf. apply (qwp_bind b m f (fun a s' => quiet true s s' /\ P a s')).
  - apply qwp_weaken. by eapply qwp_mono; [exact Hm|].
  - intros a s' Hs' _ [Hq HP]. by apply Hf.
Qed.

Lemma qwp_get {B} (b : bool) (f : PendingEnvelopes -> PE B) (Q : B -> PendingEnvelopes -> Prop)
    (s : PendingEnvelopes) : qwp b (f s) Q s -> qwp b (bind get f) Q s.
Proof. done. Qed.

Lemma qwp_check {B} (b c : bool) (e : pending_error) (m : PE B) (Q : B -> PendingEnvelopes -> Prop)
    (s : PendingEnvelopes) : c = true -> qwp b m Q s -> qwp b (bind (check c e) (fun _ => m)) Q s.
Proof. by intros ->. Qed.

Lemma qwp_deref {A B} (b : bool) (a : A) (e : pending_error) (f : A -> PE B)
    (Q : B -> PendingEnvelopes -> Prop) (s : PendingEnvelopes) :
  qwp b (f a) Q s -> qwp b (bind (deref (Some a) e) f) Q s.
Proof. done. Qed.

Lemma qwp_when (b c : bool) (m : PE unit) (s : PendingEnvelopes) :
  items_ok s -> (c = true -> qwp b m (fun _ _ => True) s) -> qwp b (when c m) (fun _ _ => True) s.
Proof. intros Hs Hm. destruct c; [by apply Hm|]. by apply qwp_ret. Qed.

Lemma qwp_each {A} (b : bool) (f : A -> PE unit) (l : list A) (s : PendingEnvelopes) :
  items_ok s -> (forall x s', x ∈ l -> items_ok s' -> quiet b s s' -> qwp b (f x) (fun _ _ => True) s') ->
  qwp b (each f l) (fun _ _ => True) s.
Proof.
  revert s. induction l as [|x l IH]; intros s Hs Hf; cbn [each]; [by apply qwp_ret|].
  eapply qwp_bind; [apply Hf; [by left|done|apply quiet_refl]|]. intros _ s' Hs' Hq _.
  apply IH; [done|]. intros y s'' Hy Hs'' Hq'. apply Hf; [by right|done|by eapply quiet_trans].
Qed.

(** *** Steps *)

(** Changes that concern none of the items. *)
Lemma quiet_same (s s' : PendingEnvelopes) :
  mEnvelopes s' = mEnvelopes s -> (forall kind, fetcher kind s' = fetcher kind s) ->
  known_q s' = known_q s -> known_t s' = known_t s ->
  mTxSetCache (known s') = mTxSetCache (known s) ->
  stack (outside s') = stack (outside s) -> held (outside s') = held (outside s) ->
  posted (outside s') = posted (outside s) -> delivered (outside s') = delivered (outside s) ->
  nextPtr (outside s) <= nextPtr (outside s') -> quiet true s s'.
Proof.
  intros He Hf Hq Ht Hc Hst Hh Hp Hd Hn.
  assert (forall slot, lists s' slot = lists s slot) as Hl
    by (intros slot; unfold lists, slot_envelopes; by rewrite He).
  assert (forall i, has_ref s' i <-> has_ref s i) as Hr.
  { intros i. unfold has_ref, ready_of. rewrite Hc, Hst, Hh. by setoid_rewrite Hl. }
  split; try done; try (intros; by apply Hr).
  - unfold count_ready. by rewrite He.
  - by rewrite Hq.
Qed.

Lemma qwp_consult (b : bool) (s : PendingEnvelopes) :
  items_ok s -> qwp b (consult world) (fun w _ => exists n, w = world n) s.
Proof.
  intros Hs. apply qwp_weaken. unfold consult. apply qwp_get. unfold qwp, wp. cbn.
  split; [destruct Hs; by split|]. split; [by apply quiet_same|]. by eexists.
Qed.

Lemma qwp_make_ptr (b : bool) (s : PendingEnvelopes) :
  items_ok s -> qwp b make_ptr
    (fun n s' => n = nextPtr (outside s) /\ nextPtr (outside s') = n + 1 /\ known s' = known s) s.
Proof.
  intros Hs. apply qwp_weaken. unfold make_ptr. apply qwp_get. unfold qwp, wp. cbn.
  split; [|split; [apply quiet_same; cbn; (done || lia)|done]]. destruct Hs as [H1 H2 H3 H4 H5 H6 H7 H8].
  split; try done. cbn. intros h p Hp. destruct (H7 h p Hp). split; [lia|done].
Qed.

Lemma qwp_with_rebuild (b c : bool) (s : PendingEnvelopes) :
  items_ok s -> qwp b (modify (with_rebuild c)) (fun _ _ => True) s.
Proof.
  intros Hs. apply qwp_weaken. unfold qwp, wp. cbn. split; [destruct Hs; by split|].
  split; [|done]. by apply quiet_same.
Qed.

(** A quorum set is put in the cache, and known. *)
Lemma qset_put_step (h : Hash) (p : QSetPtr) (s : PendingEnvelopes) :
  items_ok s -> h ∈ universe hs ->
  exists c cv, mValueMap c = <[h := cv]> (mValueMap (mQsetCache (known s))) /\ mValue cv = p /\
    cache_fine c /\ mMaxSize c = QSET_CACHE_SIZE /\
    qset_put cfg h p s =
      Ok (tt, with_outside (set_draws (draws (outside s)) (outside s))
        (with_known (mkKnown c (known_q s) (mTxSetCache (known s)) (known_t s)
           (mValueSizeCache (known s))) s)).
Proof.
  intros Hs Hh.
  destruct (put_room (cache_rand cfg) (draws (outside s)) h p (mQsetCache (known s)) (universe hs))
    as (c & cv & E & Hf & Hm & Hi & Hv); try done.
  - apply Hs.
  - rewrite (io_qsize s Hs). apply Hcfg.
  - intros k [v Hk]. apply (io_qhash s Hs k (mValue v)), (io_q s Hs). by exists v.
  - exists c, cv. split; [done|]. split; [done|]. split; [done|].
    split; [rewrite Hm; apply Hs|]. unfold qset_put. by rewrite E.
Qed.

Lemma qwp_touch_qset (b : bool) (h : Hash) (p : QSetPtr) (s : PendingEnvelopes) :
  items_ok s -> known_q s !! h = Some p -> qwp b (qset_put cfg h p) (fun _ _ => True) s.
Proof.
  intros Hs Hp. apply qwp_weaken. destruct (io_qhash s Hs h p Hp) as [Hu _].
  destruct (qset_put_step h p s Hs Hu) as (c & cv & Hc & Hv & Hf & Hm & E).
  unfold qwp, wp. rewrite E. split; [|split; [by apply quiet_same|done]].
  destruct Hs as [H1 H2 H3 H4 H5 H6 H7 H8]. split; try done. cbn. intros h' p'. rewrite H4, Hc.
  destruct (decide (h' = h)) as [->|]; [|by setoid_rewrite lookup_insert_ne].
  setoid_rewrite lookup_insert_eq. apply H4 in Hp as (v & Hv1 & Hv2). naive_solver.
Qed.

Lemma qwp_getKnownQSet (b : bool) (h : Hash) (touch : bool) (s : PendingEnvelopes) :
  items_ok s ->
  qwp b (getKnownQSet cfg h touch) (fun r s' => r = known_q s !! h /\ r = known_q s' !! h) s.
Proof.
  intros Hs. unfold getKnownQSet. apply qwp_get. rewrite lock_qset_known by done.
  destruct (known_q s !! h) as [p|] eqn:E; [|by apply qwp_ret].
  eapply qwp_bind; [apply qwp_when; [done|]; intros _; by apply qwp_touch_qset|].
  intros _ s' Hs' Hq _. apply qwp_ret; [done|]. split; [done|].
  symmetry. by eapply lookup_weaken, (qt_q _ _ _ Hq).
Qed.

Lemma qwp_putQSet (b : bool) (h : Hash) (q : SCPQuorumSet) (s : PendingEnvelopes) :
  items_ok s -> h ∈ universe hs -> h = qset_hash_of hs q -> Sanity.isQuorumSetSane q false = true ->
  qwp b (putQSet cfg h q) (fun p s' => known_q s' !! h = Some p) s.
Proof.
  intros Hs Hu Hh Hq. unfold putQSet. apply qwp_check; [done|].
  eapply qwp_bind; [by apply qwp_getKnownQSet|]. intros r s1 Hs1 _ [_ Hr]. destruct r as [p|];
    [by apply qwp_ret|].
  eapply qwp_bind; [by apply qwp_make_ptr|]. intros n s2 Hs2 _ (_ & _ & Hk).
  set (p := {| qs_ptr := n; qs_set := q |}).
  assert (known_q s2 !! h = None) as Hno by (by rewrite Hk).
  destruct (qset_put_step h p s2 Hs2 Hu) as (c & cv & Hc & Hv & Hf & Hm & E).
  apply qwp_weaken. unfold qwp, wp, bind, know_qset, modify, qset_put, ret. cbn.
  unfold qset_put in E. destruct (put _ _ _ _ _) as [[c' d']|]; [|done].
  injection E as -> ->. cbn. split; [|split].
  - destruct Hs2 as [H1 H2 H3 H4 H5 H6 H7 H8]. split; try done; cbn; intros h' p'.
    + rewrite Hc. destruct (decide (h' = h)) as [->|].
      * rewrite !lookup_insert_eq. split; [intros [= <-]; by exists cv|]. intros (v & [= <-] & <-).
        by rewrite Hv.
      * rewrite !lookup_insert_ne by done. apply H4.
    + destruct (decide (h' = h)) as [->|]; [|by rewrite lookup_insert_ne; auto].
      rewrite lookup_insert_eq. by intros [= <-].
  - split; try done. cbn. by apply insert_subseteq.
  - by rewrite lookup_insert_eq.
Qed.

Lemma qwp_getQSet (b : bool) (h : Hash) (s : PendingEnvelopes) :
  items_ok s ->
  qwp b (getQSet cfg h) (fun r s' => r = known_q s' !! h /\
    forall p, known_q s !! h = Some p -> r = Some p) s.
Proof.
  intros Hs. unfold getQSet. eapply qwp_bind; [by apply qwp_getKnownQSet|].
  intros r s1 Hs1 _ [-> Hr]. destruct (known_q s !! h) as [p|] eqn:E; [by apply qwp_ret|].
  assert (forall q, h ∈ universe hs -> h = qset_hash_of hs q ->
    Sanity.isQuorumSetSane q false = true ->
    qwp b (let! p := putQSet cfg h q in ret (Some p))
      (fun r s' => r = known_q s' !! h /\
         forall p, None = Some p -> r = Some p) s1) as Hput.
  { intros q Hu Hh Hq. eapply qwp_bind; [by apply qwp_putQSet|]. intros p s2 Hs2 _ Hp.
    by apply qwp_ret. }
  destruct (co_local cfg hs Hcfg) as (L1 & L2 & L3).
  destruct (bool_decide_reflect (h = LOCAL_QSET_HASH cfg)) as [->|_]; [by apply Hput|].
  destruct (db_getQuorumSet cfg h) as [q|] eqn:Edb; [|by apply qwp_ret].
  destruct (co_db cfg hs Hcfg h q Edb) as (D1 & D2 & D3). by apply Hput.
Qed.

(** A transaction set that is alive is put in the cache. *)
Lemma qwp_txset_put (h : Hash) (slot : Z) (p : TxSetPtr) (s : PendingEnvelopes) :
  items_ok s -> has_ref s (ts_ptr p) -> qwp false (txset_put cfg h (slot, p)) (fun _ _ => True) s.
Proof.
  intros Hs Hp.
  destruct (cache_fine_put (cache_rand cfg) (draws (outside s)) h (slot, p) (mTxSetCache (known s)))
    as (c & d & E & Hf & _ & Hv); [apply Hcfg|apply Hs|].
  unfold qwp, wp, txset_put. rewrite E. split; [destruct Hs; by split|]. split; [|done].
  split; try done. intros i [(h' & v & Hi & <-)|[Hi|Hi]]; [|by right; left|by right; right].
  cbn in Hi. destruct (Hv h' v Hi) as [[-> _]|(v0 & Hv0 & Heq)]; [exact Hp|].
  left. exists h', v0. by rewrite Heq.
Qed.

Lemma qwp_txset_cached (b : bool) (h : Hash) (s : PendingEnvelopes) :
  items_ok s -> qwp b (txset_cached h) (fun _ _ => True) s.
Proof.
  intros Hs. apply qwp_weaken.
  destruct (exists_get h (mTxSetCache (known s)) (io_tcache s Hs)) as (c & Hf & _ & Hv & Hc).
  set (s1 := with_known (mkKnown (mQsetCache (known s)) (known_q s) c (known_t s)
    (mValueSizeCache (known s))) s).
  assert (exists r, txset_cached h s = Ok (r, s1)) as [r E].
  { unfold txset_cached. destruct (mValueMap (mTxSetCache (known s)) !! h) as [cv|].
    - destruct Hc as (c1 & -> & ->). by eexists.
    - rewrite Hc. by eexists. }
  assert (forall i, has_ref s1 i <-> has_ref s i) as Hr.
  { intros i. unfold has_ref, ready_of, lists, slot_envelopes. cbn.
    assert (forall h' j, (exists v, mValueMap c !! h' = Some v /\ ts_ptr (mValue v).2 = j) <->
      (exists v, mValueMap (mTxSetCache (known s)) !! h' = Some v /\ ts_ptr (mValue v).2 = j)) as Hx.
    { intros h' j. specialize (Hv h').
      destruct (mValueMap c !! h') as [v1|], (mValueMap (mTxSetCache (known s)) !! h') as [v2|];
        cbn in Hv; try discriminate Hv; [injection Hv as Hv|done].
      split; intros (v & [= <-] & <-); eexists; (split; [reflexivity|congruence]). }
    by setoid_rewrite Hx. }
  unfold qwp, wp. rewrite E. split; [destruct Hs; by split|]. split; [|done].
  split; try done; intros; by apply Hr.
Qed.

Lemma qwp_size_put (b : bool) (h : Hash) (n : Z) (s : PendingEnvelopes) :
  items_ok s -> qwp b (size_put cfg h n) (fun _ _ => True) s.
Proof.
  intros Hs. apply qwp_weaken.
  destruct (cache_fine_put (cache_rand cfg) (draws (outside s)) h n (mValueSizeCache (known s)))
    as (c & d & E & Hf & _); [apply Hcfg|apply Hs|].
  unfold qwp, wp, size_put. rewrite E. split; [destruct Hs; by split|].
  split; [by apply quiet_same|done].
Qed.

Lemma qwp_size_cached (b : bool) (h : Hash) (s : PendingEnvelopes) :
  items_ok s -> qwp b (size_cached h) (fun _ _ => True) s.
Proof.
  intros Hs. apply qwp_weaken.
  destruct (exists_get h (mValueSizeCache (known s)) (io_sizes s Hs)) as (c & Hf & _ & _ & Hc).
  set (s1 := with_known (mkKnown (mQsetCache (known s)) (known_q s) (mTxSetCache (known s)) (known_t s)
    c) s).
  assert (exists r, size_cached h s = Ok (r, s1)) as [r E].
  { unfold size_cached. destruct (mValueMap (mValueSizeCache (known s)) !! h) as [cv|].
    - destruct Hc as (c1 & -> & ->). by eexists.
    - rewrite Hc. by eexists. }
  unfold qwp, wp. rewrite E. split; [destruct Hs; by split|]. split; [by apply quiet_same|done].
Qed.

(** Looking a transaction set up changes nothing. *)
Lemma getKnownTxSet_look (h : Hash) (s : PendingEnvelopes) :
  getKnownTxSet cfg h 0 false s = Ok (lock_txset s h, s).
Proof. unfold getKnownTxSet, bind, check, get, when, ret. cbn. by destruct (lock_txset s h). Qed.

Lemma getKnownQSet_look (h : Hash) (s : PendingEnvelopes) :
  items_ok s -> getKnownQSet cfg h false s = Ok (known_q s !! h, s).
Proof.
  intros Hs. unfold getKnownQSet, bind, get, when, ret. rewrite lock_qset_known by done.
  by destruct (known_q s !! h).
Qed.

Lemma qwp_touch_txset (h : Hash) (slot : Z) (s : PendingEnvelopes) :
  items_ok s -> qwp false (getKnownTxSet cfg h slot true) (fun r _ => r = lock_txset s h) s.
Proof.
  intros Hs. unfold getKnownTxSet. apply qwp_check; [done|]. apply qwp_get.
  destruct (lock_txset s h) as [p|] eqn:E; [|by apply qwp_ret]. apply lock_txset_iff in E as [_ Hr]; [|done].
  eapply qwp_bind; [|intros _ s1 Hs1 _ _; by apply qwp_ret]. apply qwp_when; [done|]. intros _.
  eapply qwp_bind_still; [by apply qwp_txset_cached|]. intros v s1 Hs1 Hq1 _.
  apply qwp_when; [done|]. intros _. apply qwp_txset_put; [done|]. by apply (qt_alive _ _ _ Hq1).
Qed.
(** *** Envelopes *)

Lemma all_known_look (l : list Hash) (s : PendingEnvelopes) :
  all_known cfg l s = Ok (forallb (fun h => isSome (lock_txset s h)) l, s).
Proof.
  induction l as [|h l IH]; [done|]. cbn [all_known forallb]. unfold bind.
  rewrite getKnownTxSet_look. by destruct (isSome (lock_txset s h)).
Qed.

(** Everything an envelope names is known. *)
Definition fetched (s : PendingEnvelopes) (env : SCPEnvelope) (l : list Hash) : bool :=
  isSome (known_q s !! qset_hash env) && forallb (fun h => isSome (lock_txset s h)) l.

Lemma isFullyFetched_look (env : SCPEnvelope) (l : list Hash) (s : PendingEnvelopes) :
  items_ok s -> getTxSetHashes cfg env = Some l ->
  isFullyFetched cfg env s = Ok (fetched s env l, s).
Proof.
  intros Hs Hl. unfold isFullyFetched, fetched, bind. rewrite getKnownQSet_look by done.
  destruct (known_q s !! qset_hash env); cbn [isSome negb andb]; [|done]. rewrite Hl.
  cbn. apply all_known_look.
Qed.

Lemma qwp_touchFetchCache (env : SCPEnvelope) (s : PendingEnvelopes) :
  items_ok s -> qwp false (touchFetchCache cfg env) (fun r _ => r = isSome (getTxSetHashes cfg env)) s.
Proof.
  intros Hs. unfold touchFetchCache.
  eapply qwp_bind; [by apply qwp_getKnownQSet|]. intros _ s1 Hs1 _ _.
  destruct (getTxSetHashes cfg env) as [l|]; [|by apply qwp_ret].
  eapply qwp_bind; [|intros _ s2 Hs2 _ _; by apply qwp_ret]. apply qwp_each; [done|].
  intros h s2 _ Hs2 _. eapply qwp_bind; [by apply qwp_touch_txset|].
  intros _ s3 Hs3 _ _. by apply qwp_ret.
Qed.

(** Changing the envelopes of one slot. *)
Lemma slot_envelopes_set (slot slot' : Z) (e : SlotEnvelopes) (s : PendingEnvelopes) :
  slot_envelopes slot' (with_envelopes (map_set slot e (mEnvelopes s)) s) =
  if bool_decide (slot' = slot) then e else slot_envelopes slot' s.
Proof.
  unfold slot_envelopes. cbn. rewrite map_find_set. case_bool_decide as E.
  - by rewrite (proj2 (eqb_of_true slot' slot) E).
  - by rewrite (proj2 (eqb_of_false slot' slot) E).
Qed.

Lemma count_map_set (slot : Z) (e : SlotEnvelopes) (m : list (Z * SlotEnvelopes)) :
  ordered m ->
  (list_sum (map (fun x => length (mReadyEnvelopes x.2)) (map_set slot e m)) +
   length (mReadyEnvelopes (default noEnvelopes (map_find slot m))) =
   list_sum (map (fun x => length (mReadyEnvelopes x.2)) m) + length (mReadyEnvelopes e))%nat.
Proof.
  unfold ordered, map_keys. induction m as [|[k v] m IH]; cbn [map_set map_find map fst]; [cbn; lia|].
  intros Ho. inversion Ho as [|? ? Hm Hall]; subst. specialize (IH Hm).
  destruct (ltb slot k) eqn:H1.
  - assert (map_find slot ((k, v) :: m) = None) as Hn.
    { destruct (map_find slot ((k, v) :: m)) eqn:E; [|done]. exfalso. apply map_find_Some_key in E.
      apply elem_of_cons in E as [->|E]; [by rewrite ltb_irrefl in H1|].
      rewrite Forall_forall in Hall. specialize (Hall _ E).
      pose proof (ltb_trans _ _ _ H1 Hall) as Hc. by rewrite ltb_irrefl in Hc. }
    cbn [map_find] in Hn. rewrite Hn. cbn. lia.
  - destruct (ltb k slot) eqn:H2.
    + rewrite (proj2 (eqb_of_false slot k)) by (intros ->; by rewrite ltb_irrefl in H2).
      unfold list_sum in *. cbn [map fold_right snd] in *. lia.
    + rewrite (ltb_total slot k H1 H2), eqb_of_refl. cbn. lia.
Qed.

Lemma qwp_on_slot (slot : Z) (f : SlotEnvelopes -> SlotEnvelopes) (s : PendingEnvelopes) :
  items_ok s ->
  (let e := slot_envelopes slot s in
   mDiscardedEnvelopes (f e) = mDiscardedEnvelopes e /\
   mProcessedEnvelopes (f e) = mProcessedEnvelopes e /\
   mFetchingEnvelopes (f e) = mFetchingEnvelopes e /\ mReadyEnvelopes (f e) = mReadyEnvelopes e) ->
  qwp true (on_slot slot f) (fun _ _ => True) s.
Proof.
  intros Hs (H1 & H2 & H3 & H4). unfold qwp, wp, on_slot, modify.
  set (s' := with_envelopes _ s).
  assert (forall slot', lists s' slot' = lists s slot') as Hl.
  { intros slot'. unfold lists, s'. rewrite slot_envelopes_set. case_bool_decide; [|done].
    subst slot'. by rewrite H1, H2, H3, H4. }
  assert (forall i, has_ref s' i <-> has_ref s i) as Hr.
  { intros i. unfold has_ref, ready_of. by setoid_rewrite Hl. }
  split; [|split; [|done]].
  - destruct Hs. split; try done. cbn. by apply ordered_map_set.
  - split; try done; try (intros; by apply Hr). 
    pose proof (count_map_set slot (f (slot_envelopes slot s)) _ (io_order s Hs)) as Hc.
    rewrite H4 in Hc. unfold count_ready.
    change (mEnvelopes s') with (map_set slot (f (slot_envelopes slot s)) (mEnvelopes s)).
    change (default noEnvelopes (map_find slot (mEnvelopes s))) with (slot_envelopes slot s) in Hc.
    lia.
Qed.

Lemma qwp_getTxSet (b : bool) (h : Hash) (s : PendingEnvelopes) :
  items_ok s -> qwp b (getTxSet cfg h) (fun r s' => r = lock_txset s h /\ s' = s) s.
Proof.
  intros Hs. unfold getTxSet, qwp, wp. rewrite getKnownTxSet_look.
  split; [done|]. split; [apply quiet_refl|done].
Qed.

Lemma qwp_txset_cost (h : Hash) (s : PendingEnvelopes) :
  items_ok s -> qwp true (txset_cost cfg h) (fun _ _ => True) s.
Proof.
  intros Hs. unfold txset_cost. eapply qwp_bind; [by apply qwp_size_cached|].
  intros [n|] s1 Hs1 _ _; [by apply qwp_ret|].
  eapply qwp_bind; [by apply qwp_getTxSet|]. intros [p|] s2 Hs2 _ [Hp ->]; [|by apply qwp_ret].
  symmetry in Hp. apply lock_txset_iff in Hp as [Hp _]; [|done].
  eapply (qwp_bind _ _ _ (fun n s' => s' = s1)).
  { unfold txset_toXDR_size. rewrite (co_ordered _ _ Hcfg); [by apply qwp_ret|]. by apply (io_t s1 Hs1 h p Hp). }
  intros n s' _ _ ->.
  eapply qwp_bind; [by apply qwp_size_put|]. intros _ s3 Hs3 _ _. by apply qwp_ret.
Qed.

Lemma qwp_txset_costs (l : list Hash) (s : PendingEnvelopes) :
  items_ok s -> qwp true (txset_costs cfg l) (fun _ _ => True) s.
Proof.
  revert s. induction l as [|h l IH]; intros s Hs; cbn [txset_costs]; [by apply qwp_ret|].
  eapply qwp_bind; [by apply qwp_txset_cost|]. intros n s1 Hs1 _ _.
  eapply qwp_bind; [by apply IH|]. intros m s2 Hs2 _ _. by apply qwp_ret.
Qed.

Lemma qwp_qset_cost (h : Hash) (s : PendingEnvelopes) :
  items_ok s -> qwp true (qset_cost cfg h) (fun _ _ => True) s.
Proof.
  intros Hs. unfold qset_cost. eapply qwp_bind; [by apply qwp_size_cached|].
  intros [n|] s1 Hs1 _ _; [by apply qwp_ret|].
  eapply qwp_bind; [by apply qwp_getQSet|]. intros [p|] s2 Hs2 _ _; [|by apply qwp_ret].
  eapply qwp_bind; [by apply qwp_size_put|]. intros _ s3 Hs3 _ _. by apply qwp_ret.
Qed.

Lemma qwp_recordReceivedCost (env : SCPEnvelope) (s : PendingEnvelopes) :
  items_ok s -> is_Some (getTxSetHashes cfg env) ->
  qwp true (recordReceivedCost cfg world env) (fun _ _ => True) s.
Proof.
  intros Hs [l Hl]. unfold recordReceivedCost. rewrite Hl.
  eapply qwp_bind; [by apply qwp_consult|]. intros w s1 Hs1 _ _.
  destruct (negb _); [by apply qwp_ret|]. apply qwp_deref.
  eapply qwp_bind; [by apply qwp_txset_costs|]. intros txs s3 Hs3 _ _.
  eapply qwp_bind; [by apply qwp_qset_cost|]. intros qs s4 Hs4 _ _.
  destruct (0 <? _); [|by apply qwp_ret].
  eapply qwp_bind; [by apply qwp_consult|]. intros w' s5 Hs5 _ _. by apply qwp_on_slot.
Qed.

(** The wrapper of an envelope holds exactly what the envelope names. *)
Definition complete (w : EnvelopeWrapper) : Prop :=
  qset_hash_of hs (qs_set (w_qset w)) = qset_hash (w_envelope w) /\
  getTxSetHashes cfg (w_envelope w) = Some (map (fun p => txset_hash hs (ts_set p)) (w_txsets w)).

Lemma wrap_txsets_ok (l : list Hash) (s : PendingEnvelopes) :
  items_ok s -> forallb (fun h => isSome (lock_txset s h)) l = true ->
  exists ps, wrap_txsets cfg l s = Ok (ps, s) /\
    map (fun p => txset_hash hs (ts_set p)) ps = l /\ (forall p, p ∈ ps -> has_ref s (ts_ptr p)).
Proof.
  intros Hs. induction l as [|h l IH]; cbn [forallb wrap_txsets].
  { intros _. exists []. split; [done|]. split; [done|]. by intros p ?%not_elem_of_nil. }
  intros [Hh Hl]%andb_true_iff. destruct (IH Hl) as (ps & E & Hm & Hr).
  destruct (lock_txset s h) as [p|] eqn:Ep; [|done]. exists (p :: ps).
  unfold getTxSet, bind. rewrite getKnownTxSet_look, Ep. cbn. rewrite E. cbn.
  apply lock_txset_iff in Ep as [Hp Href]; [|done]. destruct (io_t s Hs h p Hp) as [_ [Hph _]].
  split; [done|]. split; [by rewrite Hph, Hm|]. intros q [->|Hq]%elem_of_cons; auto.
Qed.

Lemma qwp_wrapEnvelope (env : SCPEnvelope) (l : list Hash) (s : PendingEnvelopes) :
  items_ok s -> getTxSetHashes cfg env = Some l -> fetched s env l = true ->
  qwp true (wrapEnvelope cfg env)
    (fun w s' => w_envelope w = env /\ complete w /\
       forall p, p ∈ w_txsets w -> has_ref s' (ts_ptr p)) s.
Proof.
  intros Hs Hl [Hq Ht]%andb_true_iff. destruct (known_q s !! qset_hash env) as [p|] eqn:Ep; [|done].
  unfold wrapEnvelope, getQSet.
  apply io_qhash in Ep as Hph; [|done]. destruct Hph as [_ Hph].
  eapply qwp_bind with (P := fun r s' => r = Some p /\ s' = s).
  { unfold qwp, wp, bind. rewrite getKnownQSet_look, Ep by done. cbn. split; [done|].
    split; [apply quiet_refl|done]. }
  intros r s' _ _ [-> ->]. rewrite Hl. unfold qwp, wp, bind, ret, push_ref, on_outside, modify, deref.
  cbn. set (s1 := with_outside (set_stack (QRef p :: stack (outside s)) (outside s)) s).
  assert (items_ok s1) as Hs1 by (destruct Hs; by split).
  assert (forall i, has_ref s1 i <-> has_ref s i) as Href.
  { intros i. unfold has_ref, ready_of, lists, slot_envelopes. cbn.
    assert (forall q, TRef q ∈ QRef p :: stack (outside s) ++ held (outside s) <->
      TRef q ∈ stack (outside s) ++ held (outside s)) as Hx
      by (intros q; rewrite elem_of_cons; naive_solver).
    by setoid_rewrite Hx. }
  assert (forall h, lock_txset s1 h = lock_txset s h) as Hlock.
  { intros h. apply option_eq. intros q. rewrite !lock_txset_iff by done. by rewrite Href. }
  destruct (wrap_txsets_ok l s1 Hs1) as (ps & E & Hm & Hr).
  { rewrite <- Ht. clear -Hlock. induction l as [|h l IH]; cbn [forallb]; [done|].
    by rewrite Hlock, IH. }
  rewrite E. cbn.
  assert (with_outside (set_stack (stack (outside s)) (outside s1)) s1 = s) as Hback
    by (by destruct s as [? ? ? ? ? []]).
  change (with_outside _ s1) with (with_outside (set_stack (stack (outside s)) (outside s1)) s1).
  rewrite Hback. split; [done|]. split; [apply quiet_refl|]. split; [done|]. split.
  - split; cbn; [done|]. by rewrite Hl, Hm.
  - intros q Hin. by apply Href, Hr.
Qed.

(** The answer about a node is the tracker's. *)
Lemma qwp_isNodeDefinitelyInQuorum (node : NodeID) (s : PendingEnvelopes) :
  items_ok s ->
  qwp true (pe_isNodeDefinitelyInQuorum cfg world node)
    (fun b _ => exists n, b = wo_inQuorum (world n) node) s.
Proof.
  intros Hs. unfold pe_isNodeDefinitelyInQuorum. apply qwp_get.
  eapply qwp_bind.
  - apply qwp_when; [done|]. intros _. eapply qwp_bind; [by apply qwp_consult|].
    intros w s1 Hs1 _ _. eapply qwp_bind; [|intros _ s2 Hs2 _ _; by apply qwp_with_rebuild].
    apply qwp_each; [done|]. intros h s2 _ Hs2 _.
    eapply qwp_bind; [by apply qwp_getQSet|]. intros _ s3 Hs3 _ _. by apply qwp_ret.
  - intros _ s1 Hs1 _ _. eapply qwp_bind; [by apply qwp_consult|].
    intros w s2 Hs2 _ [n ->]. apply qwp_ret; [done|]. by exists n.
Qed.
End items.
