(* ===== verification/PendingTheorems.v ===== *)
(** * The envelopes that wait

    The invariant of [PendingEnvelopes] and that every operation keeps it: an
    envelope that is being fetched waits in a tracker of an item it names, no
    envelope waits for a transaction set that is there, and what is handed to
    SCP is complete. *)
From stdpp Require Import base tactics list numbers gmap.
From Stdlib Require Import ZArith Lia Bool.
From S2P Require Import Prelude Containers LedgerEntries QuorumSet Statement SlotState.
From S2P Require Import HerderValues QuorumTracker RandomEvictionCache Fetching PendingEnvelopes.
From S2P Require Import PendingItems.

Open Scope Z_scope.
Open Scope kin_scope.

Notation known_q s := (mKnownQSets (known s)).
Notation known_t s := (mKnownTxSets (known s)).

(** ** Who waits where *)

Definition waiting (s : PendingEnvelopes) (kind : FetchKind) (h : Hash)
    : option (list (Hash * SCPEnvelope)) :=
  mWaitingEnvelopes <$> mTrackers (fetcher kind s) !! h.

Definition waits (s : PendingEnvelopes) (kind : FetchKind) (h : Hash) (env : SCPEnvelope) : Prop :=
  exists ws, waiting s kind h = Some ws /\ env ∈ map snd ws.

Definition discarded_of (s : PendingEnvelopes) (slot : Z) : list SCPEnvelope := (lists s slot).1.1.1.
Definition processed_of (s : PendingEnvelopes) (slot : Z) : list SCPEnvelope := (lists s slot).1.1.2.
Definition fetching_of (s : PendingEnvelopes) (slot : Z) : list SCPEnvelope := (lists s slot).1.2.

(** A running function holds the transaction set at this pointer. *)
Definition pinned (s : PendingEnvelopes) (p : TxSetPtr) : Prop :=
  exists q, TRef q ∈ stack (outside s) /\ ts_ptr q = ts_ptr p.

(** The item is known and will stay so. *)
Definition here (s : PendingEnvelopes) (kind : FetchKind) (h : Hash) : Prop :=
  match kind with
  | FetchQSet => is_Some (known_q s !! h)
  | FetchTxSet => exists p, known_t s !! h = Some p /\ pinned s p
  end.

Definition missing (s : PendingEnvelopes) (kind : FetchKind) (h : Hash) : Prop :=
  match kind with
  | FetchQSet => known_q s !! h = None
  | FetchTxSet => lock_txset s h = None
  end.

(** How often an envelope has been handed over, or is about to be. *)
Definition handed (s : PendingEnvelopes) (env : SCPEnvelope) : list SCPEnvelope :=
  List.filter (fun e => bool_decide (e = env))
    (map w_envelope (delivered (outside s) ++ ready_of s (slot_of env))).

(** Sets of envelopes. *)

Lemma elem_env_insert (env e : SCPEnvelope) (l : list SCPEnvelope) :
  e ∈ env_insert env l <-> e = env \/ e ∈ l.
Proof.
  unfold env_insert, env_in. case_bool_decide as H.
  - split; [by right|]. by intros [->|?].
  - rewrite elem_of_app, list_elem_of_singleton. tauto.
Qed.

Lemma elem_env_erase (env e : SCPEnvelope) (l : list SCPEnvelope) :
  e ∈ env_erase env l <-> e <> env /\ e ∈ l.
Proof.
  unfold env_erase. rewrite !list_elem_of_In, filter_In, negb_true_iff, bool_decide_eq_false.
  tauto.
Qed.

Lemma forallb_missing {A} (f : A -> bool) (l : list A) :
  forallb f l = false -> exists a, a ∈ l /\ f a = false.
Proof.
  induction l as [|a l IH]; cbn; [done|]. destruct (f a) eqn:E; [|intros _; exists a; set_solver].
  intros (b & Hb & Hf)%IH. exists b. set_solver.
Qed.

Section pending.
Context (cfg : PendingConfig) (hs : Hashes) (Hcfg : config_ok cfg hs) (world : nat -> World).

(** An envelope the rest of the program always accepts, and whose slot is
    remembered. *)
Context (welcome : SCPEnvelope -> Prop).

Definition names (kind : FetchKind) (env : SCPEnvelope) (h : Hash) : Prop :=
  match kind with
  | FetchQSet => qset_hash env = h
  | FetchTxSet => exists l, getTxSetHashes cfg env = Some l /\ h ∈ l
  end.

(** [x]: a transaction set that has arrived, and that envelopes may still wait
    for. *)
Record fetch_ok (x : option Hash) (s : PendingEnvelopes) : Prop := {
  fo_names : forall kind h env, waits s kind h env -> names kind env h;
  fo_gone : forall h env, waits s FetchTxSet h env -> x <> Some h -> lock_txset s h = None;
}.

Record slots_ok (s : PendingEnvelopes) : Prop := {
  so_fetching : forall slot env, env ∈ fetching_of s slot ->
    slot_of env = slot /\ is_Some (getTxSetHashes cfg env) /\
    env ∉ discarded_of s slot /\ env ∉ processed_of s slot;
  so_ready : forall slot w, w ∈ ready_of s slot -> slot_of (w_envelope w) = slot /\ complete cfg hs w;
  so_delivered : Forall (complete cfg hs) (delivered (outside s));
  so_posted : forall env kind slot, welcome env -> (kind, slot) ∈ posted (outside s) ->
    slot <= slot_of env;
  so_qset : forall slot w, w ∈ ready_of s slot ->
    is_Some (known_q s !! qset_hash (w_envelope w));
}.

(** [y]: an envelope that is between trackers; [z]: one that is being handed
    over. *)
Record welcome_ok (y z : option SCPEnvelope) (s : PendingEnvelopes) : Prop := {
  wo_waits : forall env, welcome env -> y <> Some env -> env ∈ fetching_of s (slot_of env) ->
    exists kind h, waits s kind h env;
  wo_once : forall env, welcome env -> z <> Some env ->
    length (handed s env) =
    if bool_decide (env ∈ processed_of s (slot_of env)) then 1%nat else 0%nat;
  wo_kept : forall env, welcome env -> env ∉ discarded_of s (slot_of env);
}.

Record inv (x : option Hash) (y z : option SCPEnvelope) (s : PendingEnvelopes) : Prop := {
  in_items : items_ok hs s;
  in_fetch : fetch_ok x s;
  in_slots : slots_ok s;
  in_welcome : welcome_ok y z s;
}.

(** The node knows of the envelope, and will not forget it. *)
Definition tracked (s : PendingEnvelopes) (env : SCPEnvelope) : Prop :=
  env ∈ discarded_of s (slot_of env) \/ env ∈ processed_of s (slot_of env) \/
  env ∈ fetching_of s (slot_of env).

Definition keeps (s s' : PendingEnvelopes) : Prop :=
  forall env, welcome env -> tracked s env -> tracked s' env.

Lemma keeps_sets (s s' : PendingEnvelopes) :
  (forall slot, (lists s' slot).1 = (lists s slot).1) -> keeps s s'.
Proof.
  intros Hl env _. unfold tracked, discarded_of, processed_of, fetching_of. by rewrite Hl.
Qed.

Lemma keeps_lists (s s' : PendingEnvelopes) :
  (forall slot, lists s' slot = lists s slot) -> keeps s s'.
Proof. intros Hl. apply keeps_sets. intros slot. by rewrite Hl. Qed.

(** What happens below the arrival of an item: what is here stays, what has
    expired stays away, and nobody comes to wait for what is here. *)
Record calm (s s' : PendingEnvelopes) : Prop := {
  ca_stack : stack (outside s') = stack (outside s);
  ca_q : known_q s ⊆ known_q s';
  ca_t : known_t s' ⊆ known_t s;
  ca_pinned : forall h p, known_t s !! h = Some p -> pinned s p -> known_t s' !! h = Some p;
  ca_ref : forall i, has_ref s' i -> has_ref s i;
  ca_here : forall kind h, here s kind h -> waiting s' kind h = waiting s kind h;
  ca_ptr : nextPtr (outside s) <= nextPtr (outside s');
  ca_keeps : keeps s s';
}.

Lemma calm_refl (s : PendingEnvelopes) : calm s s.
Proof. split; try done. by apply keeps_lists. Qed.

Lemma here_calm (s s' : PendingEnvelopes) (kind : FetchKind) (h : Hash) :
  calm s s' -> here s kind h -> here s' kind h.
Proof.
  intros Hc. destruct kind; cbn.
  - intros (p & Hp & Hpin). exists p. split; [by apply (ca_pinned _ _ Hc)|].
    unfold pinned in *. by rewrite (ca_stack _ _ Hc).
  - intros [p Hp]. exists p. eapply lookup_weaken; [done|apply Hc].
Qed.

Lemma calm_trans (s1 s2 s3 : PendingEnvelopes) : calm s1 s2 -> calm s2 s3 -> calm s1 s3.
Proof.
  intros H1 H2. split.
  - by rewrite (ca_stack _ _ H2), (ca_stack _ _ H1).
  - etrans; [apply H1|apply H2].
  - etrans; [apply H2|apply H1].
  - intros h p Hp Hpin. apply (ca_pinned _ _ H2); [by apply (ca_pinned _ _ H1)|].
    unfold pinned in *. by rewrite (ca_stack _ _ H1).
  - intros i Hi. by apply H1, H2.
  - intros kind h Hh. rewrite (ca_here _ _ H2) by (by eapply here_calm). by apply H1.
  - etrans; [apply H1|apply H2].
  - intros env He Ht. by apply (ca_keeps _ _ H2), (ca_keeps _ _ H1).
Qed.

Lemma quiet_calm (b : bool) (s s' : PendingEnvelopes) : quiet b s s' -> calm s s'.
Proof.
  intros Hq. split; try apply Hq.
  - by rewrite (qt_t _ _ _ Hq).
  - intros h p Hp _. by rewrite (qt_t _ _ _ Hq).
  - intros kind h _. unfold waiting. by rewrite (qt_fetcher _ _ _ Hq).
  - by apply keeps_lists, Hq.
Qed.

Lemma lock_calm (s s' : PendingEnvelopes) (h : Hash) :
  items_ok hs s -> items_ok hs s' -> known_t s' ⊆ known_t s ->
  (forall i, has_ref s' i -> has_ref s i) -> lock_txset s h = None -> lock_txset s' h = None.
Proof.
  intros Hs Hs' Ht Hr Hn. destruct (lock_txset s' h) as [p|] eqn:E; [|done]. exfalso.
  apply (lock_txset_iff hs) in E as [Hp Hi]; [|done].
  assert (lock_txset s h = Some p) as Hl; [|congruence].
  apply (lock_txset_iff hs); [done|]. split; [by eapply lookup_weaken|by apply Hr].
Qed.

(** Quiet operations keep the invariant. *)
Lemma inv_quiet (b : bool) (x : option Hash) (y z : option SCPEnvelope) (s s' : PendingEnvelopes) :
  inv x y z s -> items_ok hs s' -> quiet b s s' -> inv x y z s'.
Proof.
  intros [Hi Hf Hs Hw] Hi' Hq.
  assert (forall kind h, waiting s' kind h = waiting s kind h) as Hwt
    by (intros; unfold waiting; by rewrite (qt_fetcher _ _ _ Hq)).
  assert (forall slot, lists s' slot = lists s slot) as Hl by apply Hq.
  split; [done| | |].
  - split; unfold waits; setoid_rewrite Hwt; [apply Hf|]. intros h env Hh Hx.
    apply (lock_calm s s'); try done; [by rewrite (qt_t _ _ _ Hq)|apply Hq|by eapply fo_gone].
  - split; unfold fetching_of, discarded_of, processed_of, ready_of; try setoid_rewrite Hl.
    + apply Hs.
    + apply Hs.
    + rewrite (qt_delivered _ _ _ Hq). apply Hs.
    + rewrite (qt_posted _ _ _ Hq). apply Hs.
    + intros slot w Hin. destruct (so_qset _ Hs slot w Hin) as [p Hp]. exists p.
      eapply lookup_weaken; [done|apply Hq].
  - split.
    + unfold waits, fetching_of. setoid_rewrite Hwt. setoid_rewrite Hl. exact (wo_waits _ _ _ Hw).
    + intros env He Hz. unfold handed, processed_of, ready_of. rewrite (qt_delivered _ _ _ Hq), !Hl.
      by apply (wo_once _ _ _ Hw).
    + unfold discarded_of. setoid_rewrite Hl. exact (wo_kept _ _ _ Hw).
Qed.

Lemma inv_weaken (x : option Hash) (y y' z : option SCPEnvelope) (s : PendingEnvelopes) :
  inv x None z s -> inv x y z s.
Proof. intros [Hi Hf Hs Hw]. split; try done. split; [|apply Hw|apply Hw]. intros env He _.
  by apply (wo_waits _ _ _ Hw env He). Qed.

(** Run calmly, with [Q] at the end. *)
Definition cwp {A} (m : PE A) (Q : A -> PendingEnvelopes -> Prop) (s : PendingEnvelopes) : Prop :=
  wp never m (fun a s' => calm s s' /\ Q a s') s.

Lemma cwp_ret {A} (a : A) (Q : A -> PendingEnvelopes -> Prop) (s : PendingEnvelopes) :
  Q a s -> cwp (ret a) Q s.
Proof. intros HQ. apply wp_ret. split; [apply calm_refl|done]. Qed.

Lemma cwp_bind {A B} (m : PE A) (f : A -> PE B) (P : A -> PendingEnvelopes -> Prop)
    (Q : B -> PendingEnvelopes -> Prop) (s : PendingEnvelopes) :
  cwp m P s -> (forall a s', calm s s' -> P a s' -> cwp (f a) Q s') -> cwp (bind m f) Q s.
Proof.
  intros Hm Hf. apply wp_bind. eapply wp_mono; [exact Hm|]. intros a s' (Hc & HP).
  eapply wp_mono; [exact (Hf a s' Hc HP)|]. intros c s'' (Hc' & HQ).
  split; [by eapply calm_trans|done].
Qed.

Lemma cwp_mono {A} (m : PE A) (P Q : A -> PendingEnvelopes -> Prop) (s : PendingEnvelopes) :
  cwp m P s -> (forall a s', calm s s' -> P a s' -> Q a s') -> cwp m Q s.
Proof. intros Hm HQ. eapply wp_mono; [exact Hm|]. intros a s' [Hc HP]. auto. Qed.

Lemma cwp_get {B} (f : PendingEnvelopes -> PE B) (Q : B -> PendingEnvelopes -> Prop)
    (s : PendingEnvelopes) : cwp (f s) Q s -> cwp (bind get f) Q s.
Proof. done. Qed.

(** A quiet operation, followed by others. *)
Lemma cwp_quiet {A B} (b : bool) (x : option Hash) (y z : option SCPEnvelope) (m : PE A)
    (f : A -> PE B) (P : A -> PendingEnvelopes -> Prop) (Q : B -> PendingEnvelopes -> Prop)
    (s : PendingEnvelopes) :
  inv x y z s -> qwp hs b m P s ->
  (forall a s', inv x y z s' -> quiet b s s' -> P a s' -> cwp (f a) Q s') -> cwp (bind m f) Q s.
Proof.
  intros Hs Hm Hf. apply (cwp_bind m f (fun a s' => inv x y z s' /\ quiet b s s' /\ P a s')).
  - eapply wp_mono; [exact Hm|]. intros a s' (Hi & Hq & HP). split; [by eapply quiet_calm|].
    split; [by eapply inv_quiet|done].
  - intros a s' _ (Hi & Hq & HP). by apply Hf.
Qed.

(** ** Trackers *)

(** The tracker of one item changes. *)
Record tracker_change (kind : FetchKind) (h : Hash) (ws : list (Hash * SCPEnvelope))
    (s s' : PendingEnvelopes) : Prop := {
  tc_envelopes : mEnvelopes s' = mEnvelopes s;
  tc_known : known s' = known s;
  tc_this : waiting s' kind h = Some ws;
  tc_other : forall kind' h', (kind', h') <> (kind, h) -> waiting s' kind' h' = waiting s kind' h';
  tc_stack : stack (outside s') = stack (outside s);
  tc_held : held (outside s') = held (outside s);
  tc_posted : posted (outside s') = posted (outside s);
  tc_delivered : delivered (outside s') = delivered (outside s);
  tc_ptr : nextPtr (outside s') = nextPtr (outside s);
}.

Lemma change_lists (kind : FetchKind) (h : Hash) (ws : list (Hash * SCPEnvelope))
    (s s' : PendingEnvelopes) (slot : Z) :
  tracker_change kind h ws s s' -> lists s' slot = lists s slot.
Proof. intros Hc. unfold lists, slot_envelopes. by rewrite (tc_envelopes _ _ _ _ _ Hc). Qed.

Lemma change_ref (kind : FetchKind) (h : Hash) (ws : list (Hash * SCPEnvelope))
    (s s' : PendingEnvelopes) (i : Z) :
  tracker_change kind h ws s s' -> has_ref s' i <-> has_ref s i.
Proof.
  intros Hc. unfold has_ref, ready_of. rewrite (tc_known _ _ _ _ _ Hc), (tc_stack _ _ _ _ _ Hc),
    (tc_held _ _ _ _ _ Hc). setoid_rewrite (fun slot => change_lists _ _ _ _ _ slot Hc). done.
Qed.

Lemma change_items (kind : FetchKind) (h : Hash) (ws : list (Hash * SCPEnvelope))
    (s s' : PendingEnvelopes) :
  tracker_change kind h ws s s' -> items_ok hs s -> items_ok hs s'.
Proof.
  intros [He Hk _ _ _ _ _ _ Hp] [H1 H2 H3 H4 H5 H6 H7 H8].
  split; rewrite ?He, ?Hk, ?Hp; done.
Qed.

Lemma change_lock (kind : FetchKind) (h h' : Hash) (ws : list (Hash * SCPEnvelope))
    (s s' : PendingEnvelopes) :
  tracker_change kind h ws s s' -> items_ok hs s -> lock_txset s' h' = lock_txset s h'.
Proof.
  intros Hc Hs. apply option_eq. intros p. pose proof (change_items _ _ _ _ _ Hc Hs) as Hs'.
  rewrite !(lock_txset_iff hs) by done. by rewrite (change_ref _ _ _ _ _ _ Hc), (tc_known _ _ _ _ _ Hc).
Qed.

Lemma inv_change (kind : FetchKind) (h : Hash) (ws : list (Hash * SCPEnvelope)) (x : option Hash)
    (y y' z : option SCPEnvelope) (s s' : PendingEnvelopes) :
  inv x y z s -> tracker_change kind h ws s s' ->
  (forall env, env ∈ map snd ws -> names kind env h) ->
  (kind = FetchTxSet -> ws <> [] -> x <> Some h -> lock_txset s h = None) ->
  (forall env, welcome env -> y' <> Some env -> env ∈ fetching_of s (slot_of env) ->
     y <> Some env /\ (waits s kind h env -> env ∈ map snd ws) \/ env ∈ map snd ws) ->
  inv x y' z s'.
Proof.
  intros [Hi Hf Hs Hw] Hc Hn Hg Hwt. pose proof (change_lists kind h ws s s') as Hl.
  assert (forall kind' h' env, waits s' kind' h' env <->
    (kind', h') = (kind, h) /\ env ∈ map snd ws \/ (kind', h') <> (kind, h) /\ waits s kind' h' env) as Hws.
  { intros kind' h' env. unfold waits. destruct (decide ((kind', h') = (kind, h))) as [[= -> ->]|Hne].
    - rewrite (tc_this _ _ _ _ _ Hc). naive_solver.
    - rewrite (tc_other _ _ _ _ _ Hc) by done. naive_solver. }
  split; [by eapply change_items| | |].
  - split.
    + intros kind' h' env [[[= -> ->] Hin]|[_ Hin]]%Hws; [by apply Hn|by apply Hf].
    + intros h' env Hin Hx. rewrite (change_lock _ _ _ _ _ _ Hc Hi). apply Hws in Hin as [[[= <- ->] Hin]|[_ Hin]].
      * apply Hg; [done| |done]. intros ->. by apply not_elem_of_nil in Hin.
      * by eapply fo_gone.
  - split; unfold fetching_of, discarded_of, processed_of, ready_of;
      try setoid_rewrite (fun slot => Hl slot Hc).
    + apply Hs.
    + apply Hs.
    + rewrite (tc_delivered _ _ _ _ _ Hc). apply Hs.
    + rewrite (tc_posted _ _ _ _ _ Hc). apply Hs.
    + rewrite (tc_known _ _ _ _ _ Hc). apply Hs.
  - split.
    + intros env He Hy Hin. unfold fetching_of in Hin. rewrite (Hl _ Hc) in Hin.
      destruct (Hwt env He Hy Hin) as [[Hy' Hin']|Hin'].
      * destruct (wo_waits _ _ _ Hw env He Hy' Hin) as (kind' & h' & Hwt').
        exists kind', h'. apply Hws. destruct (decide ((kind', h') = (kind, h))) as [[= -> ->]|];
          [left; auto|by right].
      * exists kind, h. apply Hws. by left.
    + intros env He Hz. unfold handed, processed_of, ready_of. rewrite !(Hl _ Hc).
      rewrite (tc_delivered _ _ _ _ _ Hc). by apply (wo_once _ _ _ Hw).
    + intros env He. unfold discarded_of. rewrite (Hl _ Hc). by apply (wo_kept _ _ _ Hw).
Qed.

Lemma calm_change (kind : FetchKind) (h : Hash) (ws : list (Hash * SCPEnvelope))
    (s s' : PendingEnvelopes) :
  tracker_change kind h ws s s' -> ~ here s kind h -> calm s s'.
Proof.
  intros Hc Hh. split; try (by rewrite (tc_known _ _ _ _ _ Hc)).
  - apply Hc.
  - intros i. by rewrite (change_ref _ _ _ _ _ _ Hc).
  - intros kind' h' Hh'. apply (tc_other _ _ _ _ _ Hc). intros [= -> ->]. done.
  - by rewrite (tc_ptr _ _ _ _ _ Hc).
  - apply keeps_lists. intros slot. by eapply change_lists.
Qed.

Lemma missing_not_here (s : PendingEnvelopes) (kind : FetchKind) (h : Hash) :
  items_ok hs s -> missing s kind h -> ~ here s kind h.
Proof.
  intros Hs. destruct kind; cbn.
  - intros Hm (p & Hp & q & Hq & Hpq). assert (lock_txset s h = Some p) as Hl; [|congruence].
    apply (lock_txset_iff hs); [done|]. split; [done|]. right. right. exists q.
    by rewrite elem_of_app; auto.
  - intros -> [? ?]. done.
Qed.

(** ** Fetching *)

(** Only the trackers change, and nobody stops waiting. *)
Record steady (s s' : PendingEnvelopes) : Prop := {
  st_known : known s' = known s;
  st_lists : forall slot, lists s' slot = lists s slot;
  st_delivered : delivered (outside s') = delivered (outside s);
  st_lock : forall h, lock_txset s' h = lock_txset s h;
  st_waits : forall kind h env, waits s kind h env -> waits s' kind h env;
}.

Lemma steady_refl (s : PendingEnvelopes) : steady s s.
Proof. by split. Qed.

Lemma steady_trans (s1 s2 s3 : PendingEnvelopes) : steady s1 s2 -> steady s2 s3 -> steady s1 s3.
Proof.
  intros [] []. split; try congruence; auto; intros; congruence.
Qed.

Lemma waiting_with_tracker (kind kind' : FetchKind) (h h' : Hash) (t : Tracker) (s s' : PendingEnvelopes) :
  (forall k, fetcher k s' = fetcher k (with_fetcher kind (with_tracker h t (fetcher kind s)) s)) ->
  waiting s' kind' h' =
  if bool_decide ((kind', h') = (kind, h)) then Some (mWaitingEnvelopes t) else waiting s kind' h'.
Proof.
  intros Hf. unfold waiting. rewrite Hf. case_bool_decide as E.
  - injection E as -> ->. destruct kind; cbn; by rewrite lookup_insert_eq.
  - destruct kind, kind'; cbn; try done; rewrite lookup_insert_ne; (done || congruence).
Qed.

(** Setting a tracker, and changes outside that do not matter. *)
Lemma change_with_tracker (kind : FetchKind) (h : Hash) (t : Tracker) (s s' : PendingEnvelopes) :
  (forall k, fetcher k s' = fetcher k (with_fetcher kind (with_tracker h t (fetcher kind s)) s)) ->
  mEnvelopes s' = mEnvelopes s -> known s' = known s ->
  stack (outside s') = stack (outside s) -> held (outside s') = held (outside s) ->
  posted (outside s') = posted (outside s) -> delivered (outside s') = delivered (outside s) ->
  nextPtr (outside s') = nextPtr (outside s) ->
  tracker_change kind h (mWaitingEnvelopes t) s s'.
Proof.
  intros Hf He Hk Hst Hh Hp Hd Hn. split; try done.
  - rewrite (waiting_with_tracker kind kind h h t s s' Hf). by rewrite bool_decide_true.
  - intros kind' h' Hne. rewrite (waiting_with_tracker kind kind' h h' t s s' Hf).
    by rewrite bool_decide_false.
Qed.

Lemma waits_tracker (s : PendingEnvelopes) (kind : FetchKind) (h : Hash) (t : Tracker) (e : SCPEnvelope) :
  mTrackers (fetcher kind s) !! h = Some t ->
  waits s kind h e <-> e ∈ map snd (mWaitingEnvelopes t).
Proof.
  intros Ht. unfold waits, waiting. rewrite Ht. cbn. split; [|by eauto]. by intros (ws & [= <-] & ?).
Qed.

Lemma waits_no_tracker (s : PendingEnvelopes) (kind : FetchKind) (h : Hash) (e : SCPEnvelope) :
  mTrackers (fetcher kind s) !! h = None -> ~ waits s kind h e.
Proof. intros Ht (ws & Hw & _). unfold waiting in Hw. by rewrite Ht in Hw. Qed.

(** The envelope joins those that wait for the item. *)
Lemma do_fetch_change (kind : FetchKind) (h : Hash) (env : SCPEnvelope) (s : PendingEnvelopes) :
  exists s' ws, do_fetch cfg world kind h env s = Ok (tt, s') /\
    tracker_change kind h ws s s' /\
    forall e, e ∈ map snd ws <-> e = env \/ waits s kind h e.
Proof.
  unfold do_fetch, consult, bind, get, on_outside, modify, ret. cbn.
  set (w := world _).
  assert (fetcher kind (with_outside (next_tick (outside s)) s) = fetcher kind s) as ->
    by (by destruct kind).
  unfold fetch. destruct (mTrackers (fetcher kind s) !! h) as [t|] eqn:Et.
  - eexists _, _. split; [reflexivity|].
    split; [apply change_with_tracker; by destruct kind|].
    intros e. by rewrite elem_of_listen, (waits_tracker _ _ _ _ _ Et).
  - pose proof (tryNextPeer_waiting (wo_peers w) (listen (xdrBlake2 cfg) env newTracker)) as Hw.
    destruct (tryNextPeer _ _) as [a t]. cbn in Hw. eexists _, (mWaitingEnvelopes t).
    split; [reflexivity|]. split; [apply change_with_tracker; by destruct kind|].
    intros e. rewrite Hw. pose proof (waits_no_tracker s kind h e Et). set_solver.
Qed.

Lemma cwp_do_fetch (kind : FetchKind) (h : Hash) (env : SCPEnvelope) (x : option Hash)
    (y z : option SCPEnvelope) (s : PendingEnvelopes) :
  inv x y z s -> missing s kind h -> names kind env h ->
  cwp (do_fetch cfg world kind h env)
    (fun _ s' => inv x y z s' /\ steady s s' /\ waits s' kind h env) s.
Proof.
  intros Hi Hm Hn. destruct (do_fetch_change kind h env s) as (s' & ws & E & Hc & Hws).
  unfold cwp, wp. rewrite E. pose proof (in_items _ _ _ _ Hi) as Hit. split; [|split; [|split]].
  - eapply calm_change; [done|]. by apply missing_not_here.
  - eapply inv_change; [done|done| | |].
    + intros e [->|He]%Hws; [done|]. by eapply fo_names, He; apply Hi.
    + by intros -> _ _.
    + intros e _ Hy _. left. split; [done|]. intros He. apply Hws. by right.
  - split; try apply Hc.
    + intros slot. by eapply change_lists.
    + intros h'. by eapply change_lock.
    + intros kind' h' e He. destruct (decide ((kind', h') = (kind, h))) as [[= -> ->]|Hne].
      * exists ws. split; [apply Hc|]. apply Hws. by right.
      * unfold waits in *. by rewrite (tc_other _ _ _ _ _ Hc).
  - exists ws. split; [apply Hc|]. apply Hws. by left.
Qed.

Lemma missing_steady (s s' : PendingEnvelopes) (kind : FetchKind) (h : Hash) :
  steady s s' -> missing s kind h -> missing s' kind h.
Proof. intros Hst. destruct kind; cbn; by rewrite ?(st_lock _ _ Hst), ?(st_known _ _ Hst). Qed.

Lemma cwp_fetch_txsets (l : list Hash) (env : SCPEnvelope) (x : option Hash)
    (y z : option SCPEnvelope) (s : PendingEnvelopes) :
  inv x y z s -> (forall h, h ∈ l -> names FetchTxSet env h) ->
  cwp (fetch_txsets cfg world l env)
    (fun _ s' => inv x y z s' /\ steady s s' /\
       forall h, h ∈ l -> lock_txset s h = None -> waits s' FetchTxSet h env) s.
Proof.
  revert s. induction l as [|h l IH]; intros s Hi Hn; cbn [fetch_txsets].
  { apply cwp_ret. split; [done|]. split; [apply steady_refl|]. by intros h ?%not_elem_of_nil. }
  apply (cwp_bind _ _ (fun r s' => r = lock_txset s h /\ s' = s)).
  { unfold cwp, wp. rewrite getKnownTxSet_look. split; [apply calm_refl|done]. }
  intros r s1 _ [-> ->].
  apply (cwp_bind _ _ (fun _ s' => inv x y z s' /\ steady s s' /\
    (lock_txset s h = None -> waits s' FetchTxSet h env))).
  { destruct (lock_txset s h) as [p|] eqn:El; cbn [isSome negb when].
    - apply cwp_ret. split; [done|]. split; [apply steady_refl|done].
    - eapply cwp_mono; [apply cwp_do_fetch; [done|done|apply Hn; by left]|].
      intros _ s2 _ (H1 & H2 & H3). by split. }
  intros _ s2 _ (Hi2 & Hst & Hw). eapply cwp_mono; [apply IH; [done|]|].
  - intros h' Hh'. apply Hn. by right.
  - intros _ s3 _ (Hi3 & Hst' & Hw'). split; [done|]. split; [by eapply steady_trans|].
    intros h' [->|Hh']%elem_of_cons Hl; [by apply Hst', Hw|].
    apply Hw'; [done|]. by rewrite (st_lock _ _ Hst).
Qed.

(** An envelope that is not complete comes to wait for something. *)
Lemma cwp_startFetch (env : SCPEnvelope) (l : list Hash) (x : option Hash)
    (y z : option SCPEnvelope) (s : PendingEnvelopes) :
  inv x y z s -> getTxSetHashes cfg env = Some l ->
  cwp (startFetch cfg world env)
    (fun _ s' => inv x y z s' /\ steady s s' /\
       (fetched s env l = false -> exists kind h, waits s' kind h env)) s.
Proof.
  intros Hi Hl. unfold startFetch. pose proof (in_items _ _ _ _ Hi) as Hit.
  apply (cwp_bind _ _ (fun r s' => r = known_q s !! qset_hash env /\ s' = s)).
  { unfold cwp, wp. rewrite (getKnownQSet_look cfg hs) by done. split; [apply calm_refl|done]. }
  intros r s1 _ [-> ->].
  apply (cwp_bind _ _ (fun _ s' => inv x y z s' /\ steady s s' /\
    (known_q s !! qset_hash env = None -> waits s' FetchQSet (qset_hash env) env))).
  { destruct (known_q s !! qset_hash env) as [p|] eqn:El; cbn [isSome negb when].
    - apply cwp_ret. split; [done|]. split; [apply steady_refl|done].
    - eapply cwp_mono; [by apply cwp_do_fetch|]. intros _ s2 _ (H1 & H2 & H3). by split. }
  intros _ s2 _ (Hi2 & Hst & Hw). rewrite Hl.
  apply (cwp_bind _ _ (fun r s' => r = l /\ s' = s2)); [by apply cwp_ret|]. intros r s' _ [-> ->].
  eapply cwp_mono; [apply cwp_fetch_txsets; [done|]|].
  - intros h Hh. by exists l.
  - intros _ s3 _ (Hi3 & Hst' & Hw'). split; [done|]. split; [by eapply steady_trans|].
    unfold fetched. destruct (known_q s !! qset_hash env) as [p|] eqn:Eq; cbn.
    + intros Hf. destruct (forallb_missing (fun h => isSome (lock_txset s h)) l Hf) as (h & Hh & Hs).
      exists FetchTxSet, h. apply Hw'; [done|]. rewrite (st_lock _ _ Hst).
      by destruct (lock_txset s h).
    + intros _. exists FetchQSet, (qset_hash env). by apply Hst', Hw.
Qed.

(** ** Slots *)

(** The envelopes of one slot change. *)
Definition set_slot (slot : Z) (e : SlotEnvelopes) (s : PendingEnvelopes) : PendingEnvelopes :=
  with_envelopes (map_set slot e (mEnvelopes s)) s.

Lemma lists_set_slot (slot slot' : Z) (e : SlotEnvelopes) (s : PendingEnvelopes) :
  lists (set_slot slot e s) slot' =
  if bool_decide (slot' = slot)
  then (mDiscardedEnvelopes e, mProcessedEnvelopes e, mFetchingEnvelopes e, mReadyEnvelopes e)
  else lists s slot'.
Proof. unfold lists, set_slot. rewrite slot_envelopes_set. by case_bool_decide. Qed.

Lemma lists_this (slot : Z) (e : SlotEnvelopes) (s : PendingEnvelopes) :
  lists (set_slot slot e s) slot =
  (mDiscardedEnvelopes e, mProcessedEnvelopes e, mFetchingEnvelopes e, mReadyEnvelopes e).
Proof. rewrite lists_set_slot. by rewrite bool_decide_true. Qed.

Lemma lists_other (slot slot' : Z) (e : SlotEnvelopes) (s : PendingEnvelopes) :
  slot' <> slot -> lists (set_slot slot e s) slot' = lists s slot'.
Proof. intros Hne. rewrite lists_set_slot. by rewrite bool_decide_false. Qed.

Lemma slot_step (slot : Z) (e : SlotEnvelopes) (x : option Hash) (y z y' z' : option SCPEnvelope)
    (s : PendingEnvelopes) :
  inv x y z s ->
  (forall w p, w ∈ mReadyEnvelopes e -> p ∈ w_txsets w -> has_ref s (ts_ptr p)) ->
  (forall env, env ∈ mFetchingEnvelopes e ->
     slot_of env = slot /\ is_Some (getTxSetHashes cfg env) /\
     env ∉ mDiscardedEnvelopes e /\ env ∉ mProcessedEnvelopes e) ->
  (forall w, w ∈ mReadyEnvelopes e -> slot_of (w_envelope w) = slot /\ complete cfg hs w) ->
  (forall w, w ∈ mReadyEnvelopes e -> is_Some (known_q s !! qset_hash (w_envelope w))) ->
  welcome_ok y' z' (set_slot slot e s) ->
  keeps s (set_slot slot e s) ->
  inv x y' z' (set_slot slot e s) /\ calm s (set_slot slot e s).
Proof.
  intros [Hi Hf Hs _] Href Hfe Hre Hqe Hw Hk. set (s' := set_slot slot e s) in *.
  assert (items_ok hs s') as Hi'.
  { destruct Hi as [H1 H2 H3 H4 H5 H6 H7 H8]. split; try done. cbn. by apply ordered_map_set. }
  assert (forall i, has_ref s' i -> has_ref s i) as Hr.
  { intros i [Hx|[(slot' & w & p & Hin & Hp & <-)|Hx]]; [by left| |by right; right].
    unfold ready_of, s' in Hin. rewrite lists_set_slot in Hin. case_bool_decide; cbn in Hin.
    - by eapply Href.
    - right. left. by exists slot', w, p. }
  split; [split; [done| | |done]|].
  - split; [apply Hf|]. intros h env Hh Hx.
    apply (lock_calm s s'); try done. by eapply fo_gone.
  - split; [| |apply Hs|apply Hs|]; intros slot';
      unfold fetching_of, discarded_of, processed_of, ready_of, s'; rewrite lists_set_slot;
      case_bool_decide as E.
    + rewrite E. exact Hfe.
    + apply (so_fetching _ Hs).
    + rewrite E. exact Hre.
    + apply (so_ready _ Hs).
    + exact Hqe.
    + apply (so_qset _ Hs).
  - by split.
Qed.

Lemma on_slot_run (slot : Z) (f : SlotEnvelopes -> SlotEnvelopes) (s : PendingEnvelopes) :
  on_slot slot f s = Ok (tt, set_slot slot (f (slot_envelopes slot s)) s).
Proof. done. Qed.

(** The lists of the slot of an envelope, from its record. *)
Lemma slot_lists (slot : Z) (s : PendingEnvelopes) :
  mDiscardedEnvelopes (slot_envelopes slot s) = discarded_of s slot /\
  mProcessedEnvelopes (slot_envelopes slot s) = processed_of s slot /\
  mFetchingEnvelopes (slot_envelopes slot s) = fetching_of s slot /\
  mReadyEnvelopes (slot_envelopes slot s) = ready_of s slot.
Proof. done. Qed.

Lemma ready_has_ref (s : PendingEnvelopes) (slot : Z) (w : EnvelopeWrapper) (p : TxSetPtr) :
  w ∈ ready_of s slot -> p ∈ w_txsets w -> has_ref s (ts_ptr p).
Proof. intros Hw Hp. right. left. by exists slot, w, p. Qed.

(** Discarding is the only step that changes the discarded envelopes. *)
Lemma kept_slot (env : SCPEnvelope) (slot : Z) (e : SlotEnvelopes) (s : PendingEnvelopes) :
  env ∉ discarded_of s (slot_of env) -> (slot_of env = slot -> env ∉ mDiscardedEnvelopes e) ->
  env ∉ discarded_of (set_slot slot e s) (slot_of env).
Proof.
  intros Hn He. unfold discarded_of. rewrite lists_set_slot. case_bool_decide; [by apply He|done].
Qed.

(** An envelope comes into the fetching set. *)
Lemma cwp_insert_fetching (env : SCPEnvelope) (x : option Hash) (s : PendingEnvelopes) :
  inv x (Some env) None s -> is_Some (getTxSetHashes cfg env) ->
  env ∉ discarded_of s (slot_of env) -> env ∉ processed_of s (slot_of env) ->
  cwp (on_slot (slot_of env) (fun e => set_fetching (env_insert env (mFetchingEnvelopes e)) e))
    (fun _ s' => inv x (Some env) None s' /\ env ∈ fetching_of s' (slot_of env)) s.
Proof.
  intros Hi Hd Hnd Hnp. unfold cwp, wp. rewrite on_slot_run.
  set (e := set_fetching _ _). destruct (slot_lists (slot_of env) s) as (L1 & L2 & L3 & L4).
  assert (inv x (Some env) None (set_slot (slot_of env) e s) /\
    calm s (set_slot (slot_of env) e s)) as [Hi' Hc].
  { eapply slot_step; [exact Hi| | | | | |].
    - intros w p. by apply ready_has_ref.
    - intros e' He'. cbn in He'. apply elem_env_insert in He' as [->|He']; [done|].
      by apply (so_fetching _ (in_slots _ _ _ _ Hi)).
    - intros w. apply (so_ready _ (in_slots _ _ _ _ Hi)).
    - intros w. apply (so_qset _ (in_slots _ _ _ _ Hi)).
    - destruct (in_welcome _ _ _ _ Hi) as [W1 W2 W3]. split.
      + intros e' He' Hy Hin. apply W1; try done. unfold fetching_of in *.
        destruct (decide (slot_of e' = slot_of env)) as [E|E]; [|by rewrite lists_other in Hin].
        rewrite E, lists_this in Hin. rewrite E.
        apply elem_env_insert in Hin as [->|Hin]; [by destruct Hy|done].
      + intros e' He' _. specialize (W2 e' He' ltac:(done)).
        unfold handed, ready_of, processed_of in *.
        destruct (decide (slot_of e' = slot_of env)) as [E|E]; [|by rewrite lists_other].
        rewrite E in W2 |- *. by rewrite lists_this.
      + intros e' He'. apply kept_slot; [by apply W3|]. intros E. specialize (W3 e' He').
        by rewrite E in W3.
    - intros e' _. unfold tracked, discarded_of, processed_of, fetching_of.
      destruct (decide (slot_of e' = slot_of env)) as [E|E]; [|by rewrite lists_other].
      rewrite E, lists_this. cbn. rewrite elem_env_insert. tauto. }
  split; [done|]. split; [done|]. unfold fetching_of. rewrite lists_this. cbn.
  apply elem_env_insert. by left.
Qed.

(** An envelope goes from the fetching set to the processed ones. *)
Lemma cwp_to_processed (env : SCPEnvelope) (x : option Hash) (y : option SCPEnvelope)
    (s : PendingEnvelopes) :
  inv x (Some env) None s -> env ∈ fetching_of s (slot_of env) ->
  cwp (on_slot (slot_of env) (fun e =>
        set_fetching (env_erase env (mFetchingEnvelopes e))
          (set_processed (env_insert env (mProcessedEnvelopes e)) e)))
    (fun _ s' => inv x None (Some env) s' /\ env ∈ processed_of s' (slot_of env) /\
       (welcome env -> handed s' env = []) /\ (forall i, has_ref s' i <-> has_ref s i) /\
       known s' = known s) s.
Proof.
  intros Hi Hin. unfold cwp, wp. rewrite on_slot_run. set (e := set_fetching _ _).
  destruct (slot_lists (slot_of env) s) as (L1 & L2 & L3 & L4).
  pose proof (in_slots _ _ _ _ Hi) as Hs. destruct (in_welcome _ _ _ _ Hi) as [W1 W2 W3].
  destruct (so_fetching _ Hs _ _ Hin) as (_ & _ & _ & Hnp).
  assert (inv x None (Some env) (set_slot (slot_of env) e s) /\
    calm s (set_slot (slot_of env) e s)) as [Hi' Hc].
  { eapply slot_step; [exact Hi| | | | | |].
    - intros w p. by apply ready_has_ref.
    - intros e' He'. cbn in He' |- *. apply elem_env_erase in He' as [Hne He'].
      rewrite elem_env_insert. destruct (so_fetching _ Hs _ _ He') as (H1 & H2 & H3 & H4).
      split; [done|]. split; [done|]. split; [done|]. by intros [?|?].
    - intros w. apply (so_ready _ Hs).
    - intros w. apply (so_qset _ Hs).
    - split.
      + intros e' He' _ Hf. unfold fetching_of in Hf.
        destruct (decide (slot_of e' = slot_of env)) as [E|E].
        * rewrite E, lists_this in Hf. apply elem_env_erase in Hf as [Hne Hf].
          apply (W1 e'); [done|congruence|]. by rewrite E.
        * rewrite lists_other in Hf by done. apply (W1 e'); [done|congruence|done].
      + intros e' He' Hz. specialize (W2 e' He' ltac:(done)). unfold handed, ready_of, processed_of in *.
        destruct (decide (slot_of e' = slot_of env)) as [E|E]; [|by rewrite lists_other].
        rewrite E in W2 |- *. rewrite lists_this. cbn. unfold lists in W2. cbn in W2. rewrite W2.
        rewrite (bool_decide_ext (e' ∈ env_insert env (mProcessedEnvelopes (slot_envelopes (slot_of env) s)))
          (e' ∈ mProcessedEnvelopes (slot_envelopes (slot_of env) s))); [done|].
        rewrite elem_env_insert. naive_solver.
      + intros e' He'. apply kept_slot; [by apply W3|]. intros E. specialize (W3 e' He').
        by rewrite E in W3.
    - intros e' _. unfold tracked, discarded_of, processed_of, fetching_of.
      destruct (decide (slot_of e' = slot_of env)) as [E|E]; [|by rewrite lists_other].
      rewrite E, lists_this. cbn. rewrite elem_env_insert, elem_env_erase.
      destruct (decide (e' = env)); tauto. }
  split; [done|]. split; [done|]. unfold processed_of. rewrite lists_this. cbn.
  split; [apply elem_env_insert; by left|]. split; [|split; [|done]].
  - intros He. specialize (W2 env He ltac:(done)). unfold handed, ready_of in *. rewrite lists_this.
    rewrite bool_decide_false in W2 by done. by apply length_zero_iff_nil in W2.
  - intros i. unfold has_ref, ready_of.
    assert (forall slot w, w ∈ (lists (set_slot (slot_of env) e s) slot).2 <-> w ∈ (lists s slot).2) as Hl.
    { intros slot w. destruct (decide (slot = slot_of env)) as [->|]; [rewrite lists_this; done|].
      by rewrite lists_other. }
    by setoid_rewrite Hl.
Qed.

Lemma handed_quiet (b : bool) (s s' : PendingEnvelopes) (env : SCPEnvelope) :
  quiet b s s' -> handed s' env = handed s env.
Proof.
  intros Hq. unfold handed, ready_of. by rewrite (qt_delivered _ _ _ Hq), (qt_lists _ _ _ Hq).
Qed.

(** Its wrapper is queued. *)
Lemma cwp_push_ready (env : SCPEnvelope) (w : EnvelopeWrapper) (x : option Hash)
    (y : option SCPEnvelope) (s : PendingEnvelopes) :
  inv x y (Some env) s -> env ∈ processed_of s (slot_of env) ->
  (welcome env -> handed s env = []) -> w_envelope w = env -> complete cfg hs w ->
  is_Some (known_q s !! qset_hash env) ->
  (forall p, p ∈ w_txsets w -> has_ref s (ts_ptr p)) ->
  cwp (on_slot (slot_of env) (fun e => set_ready (mReadyEnvelopes e ++ [w]) e))
    (fun _ s' => inv x y None s' /\ env ∈ processed_of s' (slot_of env)) s.
Proof.
  intros Hi Hp Hno <- Hcw Hqs Href. unfold cwp, wp. rewrite on_slot_run. set (e := set_ready _ _).
  set (env := w_envelope w) in *.
  pose proof (in_slots _ _ _ _ Hi) as Hs. destruct (in_welcome _ _ _ _ Hi) as [W1 W2 W3].
  assert (inv x y None (set_slot (slot_of env) e s) /\
    calm s (set_slot (slot_of env) e s)) as [Hi' Hc].
  { eapply slot_step; [exact Hi| | | | | |].
    - intros w' p. cbn. rewrite elem_of_app, list_elem_of_singleton.
      intros [Hw'| ->] Hin; [exact (ready_has_ref s (slot_of env) w' p Hw' Hin)|by apply Href].
    - apply (so_fetching _ Hs).
    - intros w'. cbn. rewrite elem_of_app, list_elem_of_singleton.
      intros [Hw'| ->]; [by apply (so_ready _ Hs)|done].
    - intros w'. cbn. rewrite elem_of_app, list_elem_of_singleton.
      intros [Hw'| ->]; [exact (so_qset _ Hs (slot_of env) w' Hw')|done].
    - split.
      + intros e' He' Hy Hf. unfold fetching_of in Hf. apply (W1 e' He' Hy).
        destruct (decide (slot_of e' = slot_of env)) as [E|E]; [|by rewrite lists_other in Hf].
        rewrite E, lists_this in Hf. by rewrite E.
      + intros e' He' _. unfold handed, ready_of, processed_of in *.
        destruct (decide (slot_of e' = slot_of env)) as [E|E].
        * rewrite E, lists_this. cbn. rewrite app_assoc, map_app, List.filter_app, length_app. cbn.
          destruct (decide (env = e')) as [<-|Hne].
          -- specialize (Hno He'). unfold lists in Hno. cbn in Hno.
             by rewrite Hno, !bool_decide_true.
          -- rewrite (bool_decide_false (env = e')) by done. specialize (W2 e' He' ltac:(congruence)).
             rewrite E in W2. unfold lists in W2. cbn in W2. rewrite W2. by rewrite Nat.add_0_r.
        * rewrite lists_other by done. apply W2; [done|congruence].
      + intros e' He'. apply kept_slot; [by apply W3|]. intros E. specialize (W3 e' He').
        by rewrite E in W3.
    - apply keeps_sets. intros slot. rewrite lists_set_slot. case_bool_decide as E; [|done].
      by rewrite E. }
  split; [done|]. split; [done|]. unfold processed_of. by rewrite lists_this.
Qed.

(** The transaction sets of a fetched envelope stay while nothing expires. *)
Lemma fetched_quiet (s s' : PendingEnvelopes) (env : SCPEnvelope) (l : list Hash) :
  items_ok hs s -> items_ok hs s' -> known_q s ⊆ known_q s' -> known_t s' = known_t s ->
  (forall i, has_ref s i -> has_ref s' i) -> fetched s env l = true -> fetched s' env l = true.
Proof.
  intros Hi Hi' Hq Ht Hr [H1 H2]%andb_true_iff. apply andb_true_iff. split.
  - destruct (known_q s !! qset_hash env) as [p|] eqn:E; [|done].
    by rewrite (lookup_weaken _ _ _ _ E Hq).
  - rewrite forallb_forall in H2 |- *. intros h Hh. specialize (H2 h Hh).
    destruct (lock_txset s h) as [p|] eqn:E; [|done]. apply (lock_txset_iff hs) in E as [Hp Hrp]; [|done].
    assert (lock_txset s' h = Some p) as ->; [|done]. apply (lock_txset_iff hs); [done|].
    rewrite Ht. by split; [|apply Hr].
Qed.

Lemma cwp_envelopeReady (env : SCPEnvelope) (l : list Hash) (x : option Hash)
    (y : option SCPEnvelope) (s : PendingEnvelopes) :
  inv x y (Some env) s -> getTxSetHashes cfg env = Some l -> fetched s env l = true ->
  env ∈ processed_of s (slot_of env) -> (welcome env -> handed s env = []) ->
  cwp (envelopeReady cfg world env)
    (fun _ s' => inv x y None s' /\ env ∈ processed_of s' (slot_of env)) s.
Proof.
  intros Hi Hl Hf Hp Hno. unfold envelopeReady.
  pose proof (in_items _ _ _ _ Hi) as Hit.
  eapply cwp_quiet; [done|apply (qwp_recordReceivedCost cfg hs Hcfg); [done|by eexists]|].
  intros _ s1 Hi1 Hq1 _. pose proof (in_items _ _ _ _ Hi1) as Hit1.
  assert (fetched s1 env l = true) as Hf1
    by (eapply (fetched_quiet s); try done; [apply Hq1|apply Hq1|by apply (qt_alive _ _ _ Hq1)]).
  eapply cwp_quiet; [done|by apply (qwp_wrapEnvelope cfg hs env l)|].
  intros w s2 Hi2 Hq2 (Hw & Hcw & Href). apply cwp_push_ready; try done.
  - unfold processed_of in *. by rewrite (qt_lists _ _ _ Hq2), (qt_lists _ _ _ Hq1).
  - intros He. by rewrite (handed_quiet _ _ _ _ Hq2), (handed_quiet _ _ _ _ Hq1), Hno.
  - apply andb_true_iff in Hf1 as [Hqs _].
    destruct (known_q s1 !! qset_hash env) as [p|] eqn:Ep; [|done]. exists p.
    eapply lookup_weaken; [done|apply Hq2].
Qed.

(** An envelope that waits again is between trackers no more. *)
Lemma inv_arrived (env : SCPEnvelope) (x : option Hash) (z : option SCPEnvelope) (s : PendingEnvelopes) :
  inv x (Some env) z s ->
  (env ∈ fetching_of s (slot_of env) -> exists kind h, waits s kind h env) -> inv x None z s.
Proof.
  intros [Hi Hf Hs [W1 W2 W3]] Hw. split; try done. split; [|done|done]. intros e He _ Hin.
  destruct (decide (e = env)) as [->|Hne]; [by apply Hw|]. apply W1; [done|congruence|done].
Qed.

Lemma tracked_steady (s s' : PendingEnvelopes) (env : SCPEnvelope) :
  steady s s' -> fetching_of s' (slot_of env) = fetching_of s (slot_of env).
Proof. intros Hst. unfold fetching_of. by rewrite (st_lists _ _ Hst). Qed.

(** Complete, and handed over; or it waits. *)
Lemma cwp_check_fetched (env : SCPEnvelope) (l : list Hash) (x : option Hash) (s : PendingEnvelopes) :
  inv x (Some env) None s -> env ∈ fetching_of s (slot_of env) -> getTxSetHashes cfg env = Some l ->
  cwp (check_fetched cfg world env) (fun _ s' => inv x None None s' /\ tracked s' env) s.
Proof.
  intros Hi Hin Hl. unfold check_fetched. pose proof (in_items _ _ _ _ Hi) as Hit.
  apply (cwp_bind _ _ (fun b s' => b = fetched s env l /\ s' = s)).
  { unfold cwp, wp. rewrite (isFullyFetched_look cfg hs env l s Hit Hl).
    split; [apply calm_refl|done]. }
  intros b s1 _ [-> ->]. destruct (fetched s env l) eqn:Ef.
  - eapply cwp_bind; [by apply (cwp_to_processed env x None)|].
    intros _ s2 _ (Hi2 & Hp2 & Hh2 & Hr2 & Hk2).
    eapply cwp_bind; [eapply cwp_envelopeReady; try done|].
    + eapply (fetched_quiet s); try done; [apply Hi2|by rewrite Hk2|by rewrite Hk2|by apply Hr2].
    + intros _ s3 _ [Hi3 Hp3]. apply cwp_ret. split; [done|]. right. by left.
  - eapply cwp_bind; [by apply cwp_startFetch|]. intros _ s2 _ (Hi2 & Hst & Hw).
    apply cwp_ret. split; [|right; right; by rewrite (tracked_steady _ _ _ Hst)].
    eapply inv_arrived; [done|]. intros _. by apply Hw.
Qed.

(** What the node knows of an envelope it has received. *)
Lemma cwp_recvSCPEnvelope (env : SCPEnvelope) (x : option Hash) (s : PendingEnvelopes) :
  inv x (Some env) None s ->
  (welcome env -> forall n, wo_inQuorum (world n) (nodeID (statement env)) = true) ->
  cwp (recvSCPEnvelope cfg world env)
    (fun _ s' => inv x None None s' /\
       (welcome env -> is_Some (getTxSetHashes cfg env) -> tracked s' env)) s.
Proof.
  intros Hi Hq. unfold recvSCPEnvelope.
  eapply cwp_quiet; [done|by apply qwp_isNodeDefinitelyInQuorum, Hi|].
  intros b s1 Hi1 _ [n ->]. destruct (wo_inQuorum (world n) _) eqn:Ein; cbn [negb].
  2: { apply cwp_ret. split; [|intros He; by rewrite Hq in Ein].
       destruct Hi1 as [H1 H2 H3 [W1 W2 W3]]. split; try done. split; [|done|done]. intros e He _.
       destruct (decide (e = env)) as [->|Hne]; [by rewrite Hq in Ein|].
       apply W1; [done|congruence]. }
  apply cwp_get. destruct (isDiscarded env s1) eqn:Ed.
  { assert (env ∈ discarded_of s1 (slot_of env)) as Hd.
    { unfold isDiscarded in Ed. unfold discarded_of, lists, slot_envelopes.
      destruct (map_find _ _); [|done]. unfold env_in in Ed. bprop. done. }
    apply cwp_ret. split; [|intros _ _; by left]. eapply inv_arrived; [done|]. intros Hf.
    apply (so_fetching _ (in_slots _ _ _ _ Hi1)) in Hf as (_ & _ & Hnd & _). done. }
  assert (env ∉ discarded_of s1 (slot_of env)) as Hnd.
  { unfold isDiscarded in Ed. unfold discarded_of, lists, slot_envelopes.
    destruct (map_find _ _); [|apply not_elem_of_nil]. unfold env_in in Ed. bprop. done. }
  eapply cwp_quiet; [done|by apply qwp_touchFetchCache, Hi1|]. intros b s2 Hi2 Hq2 ->.
  assert (forall slot, lists s2 slot = lists s1 slot) as Hl2 by apply Hq2.
  destruct (getTxSetHashes cfg env) as [l|] eqn:El; cbn [isSome negb].
  2: { apply cwp_ret. split; [|by intros _ []]. eapply inv_arrived; [done|]. intros Hf.
       apply (so_fetching _ (in_slots _ _ _ _ Hi2)) in Hf as (_ & [l Hl] & _). congruence. }
  eapply cwp_quiet; [done|by apply qwp_on_slot; [apply Hi2|]|]. intros _ s3 Hi3 Hq3 _.
  assert (forall slot, lists s3 slot = lists s1 slot) as Hl3
    by (intros slot; by rewrite (qt_lists _ _ _ Hq3)).
  apply cwp_get. cbv beta zeta.
  change (mFetchingEnvelopes (slot_envelopes (slot_of env) s3)) with (fetching_of s3 (slot_of env)).
  change (mProcessedEnvelopes (slot_envelopes (slot_of env) s3)) with (processed_of s3 (slot_of env)).
  unfold env_in. destruct (bool_decide_reflect (env ∈ fetching_of s3 (slot_of env))) as [Hf|Hnf].
  { eapply cwp_mono; [by eapply cwp_check_fetched|]. intros _ s4 _ [H4 Ht]. by split. }
  destruct (bool_decide_reflect (env ∈ processed_of s3 (slot_of env))) as [Hp|Hnp].
  { apply cwp_ret. split; [|intros _ _; right; by left]. by eapply inv_arrived. }
  eapply cwp_bind; [apply (cwp_insert_fetching env x); try done|].
  - unfold discarded_of. rewrite Hl3. exact Hnd.
  - intros _ s4 _ [Hi4 Hf4].
    eapply cwp_bind; [by apply cwp_startFetch|]. intros _ s5 _ (Hi5 & Hst & _).
    eapply cwp_mono; [eapply cwp_check_fetched; [done| |done]|].
    + by rewrite (tracked_steady _ _ _ Hst).
    + intros _ s6 _ [H6 Ht]. by split.
Qed.

(** ** What SCP does in return *)

(** Things are forgotten: slots that no welcome envelope belongs to, references,
    items that nothing holds. *)
Record shrinks (s s' : PendingEnvelopes) : Prop := {
  sh_fetcher : forall kind, fetcher kind s' = fetcher kind s;
  sh_stack : stack (outside s') = stack (outside s);
  sh_delivered : delivered (outside s') = delivered (outside s);
  sh_ptr : nextPtr (outside s') = nextPtr (outside s);
  sh_q : known_q s' = known_q s;
  sh_t : known_t s' ⊆ known_t s;
  sh_pinned : forall h p, known_t s !! h = Some p -> pinned s p -> known_t s' !! h = Some p;
  sh_ref : forall i, has_ref s' i -> has_ref s i;
  sh_lists : forall slot, lists s' slot = lists s slot \/
    lists s' slot = ([], [], [], []) /\ forall env, welcome env -> slot_of env <> slot;
  sh_posted : forall env kind k, welcome env -> (kind, k) ∈ posted (outside s') ->
    (kind, k) ∈ posted (outside s) \/ k <= slot_of env;
  sh_count : (count_ready s' <= count_ready s)%nat;
}.

Lemma shrinks_kept (s s' : PendingEnvelopes) (env : SCPEnvelope) :
  shrinks s s' -> welcome env -> lists s' (slot_of env) = lists s (slot_of env).
Proof. intros Hsh He. destruct (sh_lists _ _ Hsh (slot_of env)) as [|[_ Hn]]; [done|]. by destruct (Hn env He). Qed.

Lemma inv_shrinks (x : option Hash) (y z : option SCPEnvelope) (s s' : PendingEnvelopes) :
  inv x y z s -> items_ok hs s' -> shrinks s s' -> inv x y z s' /\ calm s s'.
Proof.
  intros [Hi Hf Hs [W1 W2 W3]] Hi' Hsh.
  assert (forall kind h, waiting s' kind h = waiting s kind h) as Hwt
    by (intros; unfold waiting; by rewrite (sh_fetcher _ _ Hsh)).
  split; [split; [done| | |]|].
  - split; unfold waits; setoid_rewrite Hwt; [apply Hf|]. intros h env Hh Hx.
    apply (lock_calm s s'); try done; [apply Hsh|apply Hsh|by eapply fo_gone].
  - split.
    + intros slot env. unfold fetching_of, discarded_of, processed_of.
      destruct (sh_lists _ _ Hsh slot) as [->|[-> _]]; [apply (so_fetching _ Hs)|].
      by intros ?%not_elem_of_nil.
    + intros slot w. unfold ready_of.
      destruct (sh_lists _ _ Hsh slot) as [->|[-> _]]; [apply (so_ready _ Hs)|].
      by intros ?%not_elem_of_nil.
    + rewrite (sh_delivered _ _ Hsh). apply Hs.
    + intros env kind k He Hk. destruct (sh_posted _ _ Hsh env kind k He Hk) as [Hin|]; [|done].
      by eapply so_posted.
    + intros slot w. unfold ready_of. rewrite (sh_q _ _ Hsh).
      destruct (sh_lists _ _ Hsh slot) as [->|[-> _]]; [apply (so_qset _ Hs)|].
      by intros ?%not_elem_of_nil.
  - split.
    + intros env He Hy. unfold fetching_of, waits. rewrite (shrinks_kept _ _ _ Hsh He).
      setoid_rewrite Hwt. by apply W1.
    + intros env He Hz. unfold handed, ready_of, processed_of.
      rewrite (sh_delivered _ _ Hsh), !(shrinks_kept _ _ _ Hsh He). by apply W2.
    + intros env He. unfold discarded_of. rewrite (shrinks_kept _ _ _ Hsh He). by apply W3.
  - split; try apply Hsh.
    + by rewrite (sh_q _ _ Hsh).
    + intros kind h _. apply Hwt.
    + by rewrite (sh_ptr _ _ Hsh).
    + intros env He. unfold tracked, discarded_of, processed_of, fetching_of.
      by rewrite (shrinks_kept _ _ _ Hsh He).
Qed.

(** A step that forgets. *)
Lemma cwp_shrinks {B} (x : option Hash) (y z : option SCPEnvelope) (m : PE unit) (f : unit -> PE B)
    (Q : B -> PendingEnvelopes -> Prop) (s s' : PendingEnvelopes) :
  inv x y z s -> m s = Ok (tt, s') -> items_ok hs s' -> shrinks s s' ->
  (inv x y z s' -> cwp (f tt) Q s') -> cwp (bind m f) Q s.
Proof.
  intros Hi Hm Hi' Hsh Hf. destruct (inv_shrinks x y z s s' Hi Hi' Hsh) as [Hin Hc].
  apply (cwp_bind m f (fun _ s1 => s1 = s')).
  - unfold cwp, wp. by rewrite Hm.
  - intros [] s1 _ ->. by apply Hf.
Qed.

(** Changes outside the items. *)
Lemma shrinks_outside (o : Outside) (s : PendingEnvelopes) :
  stack o = stack (outside s) -> delivered o = delivered (outside s) ->
  nextPtr o = nextPtr (outside s) ->
  (forall p, TRef p ∈ held o -> has_ref s (ts_ptr p)) ->
  (forall env kind k, welcome env -> (kind, k) ∈ posted o ->
    (kind, k) ∈ posted (outside s) \/ k <= slot_of env) ->
  items_ok hs s -> items_ok hs (with_outside o s) /\ shrinks s (with_outside o s).
Proof.
  intros Hst Hd Hn Hh Hp Hi. split.
  - destruct Hi as [H1 H2 H3 H4 H5 H6 H7 H8]. split; try done. cbn. by rewrite Hn.
  - split; try done; [|by intros; left].
    intros i [Hx|[Hx|(p & Hin & <-)]]; [by left|by right; left|].
    cbn in Hin. rewrite Hst in Hin. apply elem_of_app in Hin as [Hin|Hin]; [|by apply Hh].
    right. right. exists p. rewrite elem_of_app. auto.
Qed.

Lemma held_ref (s : PendingEnvelopes) (p : TxSetPtr) :
  TRef p ∈ held (outside s) -> has_ref s (ts_ptr p).
Proof. intros Hp. right. right. exists p. rewrite elem_of_app. auto. Qed.

Lemma below_decodes (slot : Z) (x : option Hash) (y z : option SCPEnvelope) (s : PendingEnvelopes) :
  inv x y z s -> forall e env, e ∈ below slot s -> env ∈ mFetchingEnvelopes e.2 ->
  is_Some (getTxSetHashes cfg env).
Proof.
  intros Hi [i e] env He Henv. unfold below in He.
  apply list_elem_of_In, filter_In in He as [He _]. apply list_elem_of_In in He.
  apply (map_find_elem i e _ (io_order _ _ (in_items _ _ _ _ Hi))) in He.
  apply (so_fetching _ (in_slots _ _ _ _ Hi) i). unfold fetching_of, lists, slot_envelopes.
  by rewrite He.
Qed.

(** Erasing the slots below one that no welcome envelope is below of. *)
Definition erased_slots (slot : Z) (s : PendingEnvelopes) : PendingEnvelopes :=
  with_envelopes (List.filter (fun x => negb (x.1 <? slot)) (mEnvelopes s)) s.

Lemma lists_erased (slot slot' : Z) (s : PendingEnvelopes) :
  ordered (mEnvelopes s) ->
  lists (erased_slots slot s) slot' = if slot' <? slot then ([], [], [], []) else lists s slot'.
Proof.
  intros Ho. unfold lists, slot_envelopes. cbn.
  assert (map_find slot' (List.filter (fun x => negb (x.1 <? slot)) (mEnvelopes s)) =
    if slot' <? slot then None else map_find slot' (mEnvelopes s)) as ->.
  { apply option_eq. intros e. rewrite (map_find_elem slot' e) by (by apply ordered_List_filter).
    rewrite list_elem_of_In, filter_In, <- list_elem_of_In. cbn.
    destruct (Z.ltb_spec slot' slot); cbn; [naive_solver|].
    rewrite (map_find_elem slot' e) by done. naive_solver. }
  by destruct (slot' <? slot).
Qed.

Lemma erased_step (slot : Z) (s : PendingEnvelopes) :
  items_ok hs s -> (forall env, welcome env -> slot <= slot_of env) ->
  items_ok hs (erased_slots slot s) /\ shrinks s (erased_slots slot s).
Proof.
  intros Hi Hw. pose proof (io_order _ _ Hi) as Ho. split.
  - destruct Hi as [H1 H2 H3 H4 H5 H6 H7 H8]. split; try done. cbn. by apply ordered_List_filter.
  - assert (forall slot', lists (erased_slots slot s) slot' = lists s slot' \/
      lists (erased_slots slot s) slot' = ([], [], [], []) /\
      forall env, welcome env -> slot_of env <> slot') as Hl.
    { intros slot'. rewrite lists_erased by done. destruct (Z.ltb_spec slot' slot); [right|by left].
      split; [done|]. intros env He. specialize (Hw env He). lia. }
    split; try done; [|by left|].
    + intros i [Hx|[(slot' & w & p & Hin & Hp & <-)|Hx]]; [by left| |by right; right].
      unfold ready_of in Hin. destruct (Hl slot') as [E|[E _]]; rewrite E in Hin;
        [|by apply not_elem_of_nil in Hin].
      right. left. by exists slot', w, p.
    + unfold count_ready, erased_slots. cbn. clear. induction (mEnvelopes s) as [|e m IH]; [done|].
      cbn [List.filter]. destruct (negb _); unfold list_sum in *; cbn [map fold_right]; lia.
Qed.

(** Old transaction sets leave the cache, and the maps forget what has expired. *)
Lemma erase_if_step (f : Z * TxSetPtr -> bool) (s : PendingEnvelopes) :
  items_ok hs s -> exists s', txset_erase_if f s = Ok (tt, s') /\ items_ok hs s' /\ shrinks s s'.
Proof.
  intros Hi. unfold txset_erase_if, erase_if. destruct (io_tcache _ _ Hi) as [Hc Hl].
  destruct (erase_loop_ok (S (length (mValuePtrs (mTxSetCache (known s))))) f 0
    (mValueMap (mTxSetCache (known s))) (mValuePtrs (mTxSetCache (known s))) Hc)
    as (m & ptrs & -> & Hc' & He & Hle & _); [lia|lia|constructor|]. cbn.
  eexists. split; [reflexivity|]. split.
  - destruct Hi as [H1 H2 H3 H4 H5 H6 H7 H8]. split; try done. cbn. split; [done|]. cbn. lia.
  - split; try done; [|by left|by left].
    intros i [(h & v & Hv & <-)|[Hx|Hx]]; [|by right; left|by right; right]. cbn in Hv.
    left. exists h, v. split; [|done]. destruct (He h) as [<-|[E _]]; [done|congruence].
Qed.

Lemma clean_step (s : PendingEnvelopes) :
  items_ok hs s -> exists s', cleanKnownData s = Ok (tt, s') /\ items_ok hs s' /\ shrinks s s'.
Proof.
  intros Hi. unfold cleanKnownData, modify. eexists. split; [reflexivity|].
  assert (base.filter (fun x => qset_alive s x.2 = true) (known_q s) = known_q s) as Hq.
  { apply map_filter_id. intros h p Hp. cbn. pose proof (lock_qset_known _ s h Hi) as Hl.
    unfold lock_qset in Hl. rewrite Hp in Hl. by destruct (qset_alive s p). }
  rewrite Hq. split.
  - destruct Hi as [H1 H2 H3 H4 H5 H6 H7 H8]. split; try done. cbn.
    intros h p [Hp _]%map_lookup_filter_Some. by apply H7.
  - split; try done; [| |by left|by left].
    + cbn. apply map_filter_subseteq.
    + intros h p Hp (q & Hq' & Hpq). cbn. apply map_lookup_filter_Some. split; [done|]. cbn.
      apply txset_alive_iff; [apply Hi|]. right. right. exists q. rewrite elem_of_app. auto.
Qed.

Definition callback_ok (c : Callback) : Prop :=
  match c with CbEraseBelow slot => forall env, welcome env -> slot <= slot_of env | _ => True end.

Lemma cwp_eraseBelow (slot : Z) (x : option Hash) (y z : option SCPEnvelope) (s : PendingEnvelopes) :
  inv x y z s -> (forall env, welcome env -> slot <= slot_of env) ->
  cwp (pe_eraseBelow cfg world slot)
    (fun _ s' => inv x y z s' /\ (count_ready s' <= count_ready s)%nat) s.
Proof.
  intros Hi Hw. unfold pe_eraseBelow, stopAllBelow.
  apply (cwp_bind _ _ (fun _ s' => inv x y z s' /\ (count_ready s' <= count_ready s)%nat)).
  { apply cwp_get. eapply cwp_quiet; [done| |].
    - apply qwp_each; [apply Hi|]. intros e s1 He Hs1 _. apply qwp_each; [done|].
      intros env s2 Henv Hs2 _. apply (qwp_recordReceivedCost cfg hs Hcfg); [done|].
      by eapply below_decodes.
    - intros _ s1 Hi1 Hq1 _.
      set (o := set_posted (posted (outside s1) ++ [(FetchTxSet, slot); (FetchQSet, slot)]) (outside s1)).
      destruct (shrinks_outside o s1) as [Hi2 Hsh]; try done; [by apply held_ref| |apply Hi1|].
      + intros env kind k He. cbn. rewrite elem_of_app. intros [?|Hk]; [by left|]. right.
        apply elem_of_cons in Hk as [[= -> ->]|[= -> ->]%list_elem_of_singleton]; by apply Hw.
      + destruct (inv_shrinks x y z _ _ Hi1 Hi2 Hsh) as [H2 H3].
        unfold cwp, wp. cbn. split; [done|]. split; [done|].
        etrans; [apply (sh_count _ _ Hsh)|]. by rewrite (qt_count _ _ _ Hq1). }
  intros _ s1 _ [Hi1 Hc1]. destruct (erased_step slot s1 (in_items _ _ _ _ Hi1) Hw) as [Hit2 Hsh2].
  eapply cwp_shrinks; [done|reflexivity|exact Hit2|exact Hsh2|]. intros Hi2.
  destruct (erase_if_step (fun i => negb (i.1 =? 0) && (i.1 <? slot)) _ Hit2) as (s3 & E3 & Hit3 & Hsh3).
  eapply cwp_shrinks; [done|exact E3|done|done|]. intros Hi3.
  destruct (clean_step s3 Hit3) as (s4 & E4 & Hit4 & Hsh4).
  destruct (inv_shrinks x y z _ _ Hi3 Hit4 Hsh4) as [Hi4 Hc4].
  unfold cwp, wp. rewrite E4. split; [done|]. split; [done|].
  pose proof (sh_count _ _ Hsh2). pose proof (sh_count _ _ Hsh3). pose proof (sh_count _ _ Hsh4). lia.
Qed.

(** Quiet, as the end of a computation. *)
Lemma cwp_of_quiet {A} (b : bool) (x : option Hash) (y z : option SCPEnvelope) (m : PE A)
    (P : A -> PendingEnvelopes -> Prop) (s : PendingEnvelopes) :
  inv x y z s -> qwp hs b m P s ->
  cwp m (fun a s' => inv x y z s' /\ (count_ready s' <= count_ready s)%nat /\ P a s') s.
Proof.
  intros Hi Hm. eapply wp_mono; [exact Hm|]. intros a s' (Hi' & Hq & HP).
  split; [by eapply quiet_calm|]. split; [by eapply inv_quiet|]. by rewrite (qt_count _ _ _ Hq).
Qed.

Lemma cwp_keep_ref (r : Ref) (x : option Hash) (y z : option SCPEnvelope) (s : PendingEnvelopes) :
  inv x y z s -> (forall p, r = TRef p -> has_ref s (ts_ptr p)) ->
  cwp (keep_ref r) (fun _ s' => inv x y z s' /\ (count_ready s' <= count_ready s)%nat) s.
Proof.
  intros Hi Hr. set (o := set_held (r :: held (outside s)) (outside s)).
  destruct (shrinks_outside o s) as [Hi2 Hsh]; try done; [|by left|apply Hi|].
  - intros p [<-|Hp]%elem_of_cons; [by apply Hr|by apply held_ref].
  - destruct (inv_shrinks x y z _ _ Hi Hi2 Hsh) as [H2 H3].
    unfold cwp, wp. cbn. split; [done|]. split; [done|]. apply Hsh.
Qed.

Lemma cwp_callback (c : Callback) (x : option Hash) (y z : option SCPEnvelope) (s : PendingEnvelopes) :
  inv x y z s -> callback_ok c ->
  cwp (callback cfg world c) (fun _ s' => inv x y z s' /\ (count_ready s' <= count_ready s)%nat) s.
Proof.
  intros Hi Hc. destruct c as [h keep|h keep|n|slot|]; cbn [callback].
  - eapply cwp_quiet with (b := true); [done|by apply (qwp_getQSet cfg hs Hcfg), Hi|].
    intros [p|] s1 Hi1 Hq1 _; [|apply cwp_ret; by rewrite (qt_count _ _ _ Hq1)].
    rewrite <- (qt_count _ _ _ Hq1). destruct keep; [|by apply cwp_ret]. by apply cwp_keep_ref.
  - eapply cwp_quiet with (b := true); [done|by apply qwp_getTxSet, Hi|].
    intros [p|] s1 Hi1 Hq1 [Hp ->]; [|by apply cwp_ret].
    destruct keep; [|by apply cwp_ret]. apply cwp_keep_ref; [done|]. intros q [= <-].
    symmetry in Hp. by apply (lock_txset_iff hs) in Hp as [_ Hp]; [|apply Hi].
  - set (o := set_held (base.delete n (held (outside s))) (outside s)).
    destruct (shrinks_outside o s) as [Hi2 Hsh]; try done; [|by left|apply Hi|].
    + intros p Hp. apply held_ref. exact (list_elem_of_delete_inv _ _ _ Hp).
    + destruct (inv_shrinks x y z _ _ Hi Hi2 Hsh) as [H2 H3].
      unfold cwp, wp. cbn. split; [done|]. split; [done|]. apply Hsh.
  - by apply cwp_eraseBelow.
  - eapply cwp_mono; [apply (cwp_of_quiet true); [done|by apply qwp_with_rebuild, Hi]|]. naive_solver.
Qed.

Lemma cwp_callbacks (l : list Callback) (x : option Hash) (y z : option SCPEnvelope)
    (s : PendingEnvelopes) :
  inv x y z s -> Forall callback_ok l ->
  cwp (each (callback cfg world) l)
    (fun _ s' => inv x y z s' /\ (count_ready s' <= count_ready s)%nat) s.
Proof.
  intros Hi Hl. revert s Hi. induction Hl as [|c l Hc _ IH]; intros s Hi; cbn [each]; [by apply cwp_ret|].
  eapply cwp_bind; [by apply cwp_callback|]. intros _ s1 _ [Hi1 Hn1].
  eapply cwp_mono; [by apply IH|]. intros _ s2 _ [Hi2 Hn2]. split; [done|lia].
Qed.

(** *** Taking a ready envelope *)

Lemma pop_ready_spec (slot : Z) (m m' : list (Z * SlotEnvelopes)) (w : EnvelopeWrapper) :
  ordered m -> pop_ready slot m = Some (w, m') ->
  exists i e l, map_find i m = Some e /\ mReadyEnvelopes e = l ++ [w] /\
    m' = map_set i (set_ready l e) m.
Proof.
  revert m'. unfold ordered, map_keys. induction m as [|[i e] m IH]; intros m' Ho; cbn [pop_ready]; [done|].
  cbn in Ho. inversion Ho as [|? ? Hm Hall]; subst. destruct (slot <? i); [done|].
  destruct (mReadyEnvelopes e) as [|w' l _] eqn:El using rev_ind.
  - cbn [last]. destruct (pop_ready slot m) as [[w1 m1]|]; [|done]. intros [= <- <-].
    destruct (IH m1 Hm eq_refl) as (j & e' & l' & Hj & Hr & ->). exists j, e', l'.
    assert (ltb i j = true) as Hij.
    { rewrite Forall_forall in Hall. apply Hall. by eapply map_find_Some_key. }
    cbn [map_find map_set]. rewrite (ltb_asym i j Hij), Hij.
    rewrite (proj2 (eqb_of_false j i)); [done|]. intros ->. by rewrite ltb_irrefl in Hij.
  - rewrite last_snoc, removelast_last. intros [= <- <-]. exists i, e, l.
    cbn [map_find map_set]. rewrite eqb_of_refl, !ltb_irrefl. done.
Qed.

(** The wrapper moves to the stack and to the record of deliveries. *)
Definition popped (w : EnvelopeWrapper) (m : list (Z * SlotEnvelopes)) (s : PendingEnvelopes)
    : PendingEnvelopes :=
  with_outside (log_delivered w (set_stack (wrapper_refs w ++ stack (outside s)) (outside s)))
    (with_envelopes m s).

(** Popping takes one envelope off the queue of its slot. *)
Lemma popped_lists (slot : Z) (w : EnvelopeWrapper) (m : list (Z * SlotEnvelopes))
    (s : PendingEnvelopes) :
  ordered (mEnvelopes s) -> pop_ready slot (mEnvelopes s) = Some (w, m) ->
  exists i l, ready_of s i = l ++ [w] /\
    (forall slot', lists (popped w m s) slot' =
       ((lists s slot').1, if bool_decide (slot' = i) then l else ready_of s slot')) /\
    ordered m /\ S (count_ready (popped w m s)) = count_ready s.
Proof.
  intros Ho Hpop. destruct (pop_ready_spec _ _ _ _ Ho Hpop) as (i & e & l & Hie & Hr & ->).
  assert (lists s i = (mDiscardedEnvelopes e, mProcessedEnvelopes e, mFetchingEnvelopes e, l ++ [w])) as Hli.
  { unfold lists, slot_envelopes. rewrite Hie. cbn. by rewrite Hr. }
  exists i, l. split; [unfold ready_of; by rewrite Hli|]. split; [|split; [by apply ordered_map_set|]].
  - intros slot'. etrans; [exact (lists_set_slot i slot' (set_ready l e) s)|].
    case_bool_decide as E; [by rewrite E, Hli|]. unfold ready_of. by destruct (lists s slot').
  - pose proof (count_map_set i (set_ready l e) _ Ho) as Hc. rewrite Hie in Hc. cbn in Hc.
    rewrite Hr, length_app in Hc. cbn in Hc.
    change (count_ready (popped _ _ s)) with
      (list_sum (map (fun x => length (mReadyEnvelopes x.2)) (map_set i (set_ready l e) (mEnvelopes s)))).
    unfold count_ready. lia.
Qed.

Lemma popped_ok (slot : Z) (w : EnvelopeWrapper) (m : list (Z * SlotEnvelopes)) (x : option Hash)
    (s : PendingEnvelopes) :
  inv x None None s -> pop_ready slot (mEnvelopes s) = Some (w, m) ->
  inv x None None (popped w m s) /\ (forall i, has_ref (popped w m s) i -> has_ref s i) /\
  keeps s (popped w m s) /\ S (count_ready (popped w m s)) = count_ready s /\
  is_Some (known_q s !! qset_hash (w_envelope w)).
Proof.
  intros [Hi Hf Hs [W1 W2 W3]] Hpop.
  destruct (popped_lists _ _ _ _ (io_order _ _ Hi) Hpop) as (i & l & Hli & Hl & Hom & Hc).
  set (s' := popped _ _ _) in *.
  assert (forall slot', (lists s' slot').1 = (lists s slot').1) as Hl1 by (intros slot'; by rewrite Hl).
  assert (w ∈ ready_of s i) as Hwi by (rewrite Hli; set_solver).
  assert (forall slot' w', w' ∈ ready_of s' slot' -> w' ∈ ready_of s slot') as Hrd.
  { intros slot' w'. unfold ready_of at 1. rewrite Hl. cbn. case_bool_decide as E; [|done].
    intros Hin. rewrite E. change (w' ∈ ready_of s i). rewrite Hli. set_solver. }
  assert (items_ok hs s') as Hi' by (destruct Hi; by split).
  assert (forall j, has_ref s' j -> has_ref s j) as Href.
  { intros j [Hx|[(slot' & w' & p & Hin & Hp & <-)|(p & Hin & <-)]]; [by left| |].
    - eapply ready_has_ref; [by apply Hrd|done].
    - cbn in Hin. rewrite <- app_assoc in Hin. apply elem_of_cons in Hin as [?|Hin]; [done|].
      apply elem_of_app in Hin as [Hin|Hin].
      + apply list_elem_of_fmap in Hin as (q & [= <-] & Hin). by eapply ready_has_ref.
      + right. right. by exists p. }
  split; [split; [done| | |]|split; [done|split; [by apply keeps_sets|split]]].
  - split; [apply Hf|]. intros h env Hh Hx. apply (lock_calm s s'); try done. by eapply fo_gone.
  - destruct Hs as [S1 S2 S3 S4 S5]. split.
    + intros slot' env. unfold fetching_of, discarded_of, processed_of. rewrite Hl1. apply S1.
    + intros slot' w' Hw'. by apply S2, Hrd.
    + cbn. apply Forall_app. split; [done|]. apply Forall_singleton. by eapply S2.
    + exact S4.
    + intros slot' w' Hw'. by eapply S5, Hrd.
  - split.
    + intros env He Hy. unfold fetching_of. rewrite Hl1. by apply W1.
    + intros env He Hz. specialize (W2 env He Hz). unfold processed_of in *. rewrite Hl1.
      rewrite <- W2. unfold handed, ready_of.
      change (delivered (outside s')) with (delivered (outside s) ++ [w]).
      destruct (decide (slot_of env = i)) as [E|E].
      * rewrite Hl, E, bool_decide_true by done. fold (ready_of s i). rewrite Hli. cbn.
        rewrite !map_app, !List.filter_app, !length_app. cbn. lia.
      * rewrite Hl, (bool_decide_false (slot_of env = i)) by done. unfold ready_of.
        rewrite !map_app, !List.filter_app, !length_app. cbn.
        rewrite (bool_decide_false (w_envelope w = env)); [cbn; lia|]. intros <-. apply E.
        by apply (so_ready _ Hs).
    + intros env He. unfold discarded_of. rewrite Hl1. by apply W3.
  - done.
  - by eapply so_qset.
Qed.

(** The rest of the program, for the envelopes it welcomes. *)
Record world_ok : Prop := {
  wk_view : forall n, view_ok (wo_peers (world n));
  wk_herder : forall n, is_Some (match trackingConsensusLedgerIndex (wo_herder (world n)) with
                                 | Ok i => Some i | Err _ => None end);
  wk_admitted : forall env n, welcome env -> refused cfg (world n) env = Ok None;
  wk_quorum : forall env n, welcome env -> wo_inQuorum (world n) (nodeID (statement env)) = true;
  wk_callbacks : forall n w, Forall callback_ok (wo_scp (world n) w).2;
}.
Context (Hworld : world_ok).

(** The quorum set of an envelope that is being processed is known. *)
Lemma cwp_receive_ready (w : EnvelopeWrapper) (x : option Hash) (s : PendingEnvelopes) :
  inv x None None s -> is_Some (known_q s !! qset_hash (w_envelope w)) ->
  cwp (receive_ready cfg world w)
    (fun _ s' => inv x None None s' /\ (count_ready s' <= count_ready s)%nat) s.
Proof.
  intros Hi Hq. unfold receive_ready.
  eapply cwp_quiet with (b := true); [done|by apply qwp_consult, Hi|]. intros wo s1 Hi1 Hq1 [n ->].
  rewrite <- (qt_count _ _ _ Hq1). pose proof (wk_callbacks Hworld n w) as Hcb.
  destruct (wo_scp (world n) w) as [valid calls]. cbn in Hcb.
  eapply cwp_bind; [by apply cwp_callbacks|]. intros _ s2 Hc2 [Hi2 Hn2].
  destruct valid; cbn [when]; [|by apply cwp_ret]. unfold pe_envelopeProcessed.
  eapply cwp_quiet with (b := true); [done|by apply (qwp_getQSet cfg hs Hcfg), Hi2|].
  intros r s3 Hi3 Hq3 [_ Hr].
  assert (isSome r = true) as ->.
  { destruct Hq as [p Hp]. 
    rewrite (Hr p); [done|]. eapply lookup_weaken; [|apply Hc2].
    eapply lookup_weaken; [exact Hp|apply Hq1]. }
  apply (cwp_bind _ _ (fun _ s' => s' = s3)); [by apply cwp_ret|]. intros _ s' _ ->.
  eapply cwp_quiet with (b := true); [done|by apply qwp_consult, Hi3|]. intros wo s4 Hi4 Hq4 _.
  eapply cwp_mono; [apply (cwp_of_quiet true);
    [exact Hi4|apply qwp_when; [apply Hi4|]; intros _; by apply qwp_with_rebuild, Hi4]|].
  intros _ s5 _ (Hi5 & Hn5 & _). split; [done|].
  pose proof (qt_count _ _ _ Hq3). pose proof (qt_count _ _ _ Hq4). lia.
Qed.

(** The references of a frame that has returned are gone. *)
Lemma calm_frame (rs : list Ref) (s s1 s2 s3 : PendingEnvelopes) :
  stack (outside s1) = rs ++ stack (outside s) -> known s1 = known s ->
  (forall kind, fetcher kind s1 = fetcher kind s) ->
  (forall i, has_ref s1 i -> has_ref s i) -> keeps s s1 ->
  nextPtr (outside s1) = nextPtr (outside s) ->
  calm s1 s2 ->
  stack (outside s3) = stack (outside s) -> known s3 = known s2 ->
  (forall kind, fetcher kind s3 = fetcher kind s2) ->
  (forall i, has_ref s3 i -> has_ref s2 i) -> keeps s2 s3 ->
  nextPtr (outside s3) = nextPtr (outside s2) ->
  calm s s3.
Proof.
  intros Hst1 Hk1 Hf1 Hr1 Hkp1 Hn1 Hc Hst3 Hk3 Hf3 Hr3 Hkp3 Hn3.
  assert (forall p, pinned s p -> pinned s1 p) as Hpin.
  { intros p (q & Hq & Hpq). exists q. rewrite Hst1, elem_of_app. auto. }
  split; rewrite ?Hk3, <- ?Hk1; try apply Hc.
  - done.
  - intros h p Hp Hpp. apply (ca_pinned _ _ Hc); [done|by apply Hpin].
  - intros i Hi. by apply Hr1, (ca_ref _ _ Hc), Hr3.
  - intros kind h Hh. unfold waiting. rewrite Hf3, <- Hf1. apply (ca_here _ _ Hc).
    destruct kind; cbn in *; rewrite Hk1; [|done]. destruct Hh as (p & Hp & Hpp). exists p. auto.
  - rewrite Hn3, <- Hn1. apply Hc.
  - intros env He Ht. by apply Hkp3, (ca_keeps _ _ Hc), Hkp1.
Qed.

Lemma popped_wrapper (w : EnvelopeWrapper) (x : option Hash) (s : PendingEnvelopes) :
  inv x None None s ->
  let s' := with_outside (set_stack (drop (length (wrapper_refs w)) (stack (outside s))) (outside s)) s in
  inv x None None s' /\ (forall i, has_ref s' i -> has_ref s i) /\ keeps s s' /\
  count_ready s' = count_ready s.
Proof.
  intros [Hi Hf Hs [W1 W2 W3]] s'.
  assert (items_ok hs s') as Hi' by (destruct Hi; by split).
  assert (forall i, has_ref s' i -> has_ref s i) as Hr.
  { intros i [Hx|[Hx|(p & Hin & <-)]]; [by left|by right; left|]. right. right. exists p.
    split; [|done]. cbn in Hin. apply elem_of_app in Hin as [Hin|Hin]; apply elem_of_app; [left|by right].
    rewrite <- (take_drop (length (wrapper_refs w)) (stack (outside s))), elem_of_app. by right. }
  split; [|split; [done|split; [by apply keeps_lists|done]]].
  split; [done| | |].
  - split; [apply Hf|]. intros h env Hh Hx. apply (lock_calm s s'); try done. by eapply fo_gone.
  - destruct Hs. by split.
  - by split.
Qed.

Lemma cwp_process_ready (slot : Z) (w : EnvelopeWrapper) (m : list (Z * SlotEnvelopes))
    (x : option Hash) (s : PendingEnvelopes) :
  inv x None None s -> pop_ready slot (mEnvelopes s) = Some (w, m) ->
  cwp (process_ready cfg world w m)
    (fun _ s' => inv x None None s' /\ (count_ready s' < count_ready s)%nat) s.
Proof.
  intros Hi Hpop. destruct (popped_ok slot w m x s Hi Hpop) as (Hi1 & Hr1 & Hk1 & Hn1 & Hq).
  assert (process_ready cfg world w m s =
    (receive_ready cfg world w ;;! pop_wrapper w) (popped w m s)) as Hrun by done.
  unfold cwp, wp. rewrite Hrun. apply wp_bind. eapply wp_mono; [by apply cwp_receive_ready|].
  intros _ s2 (Hc2 & Hi2 & Hn2). destruct (popped_wrapper w x s2 Hi2) as (Hi3 & Hr3 & Hk3 & Hn3).
  assert (stack (outside s2) = wrapper_refs w ++ stack (outside s)) as Hst by apply Hc2.
  unfold wp, pop_wrapper, on_outside, modify. split.
  - eapply (calm_frame (wrapper_refs w) s (popped w m s) s2); try done.
    change (drop (length (wrapper_refs w)) (stack (outside s2)) = stack (outside s)).
    by rewrite Hst, drop_app_length.
  - split; [done|]. rewrite Hn3. lia.
Qed.

Lemma cwp_processSCPQueueUpToIndex (fuel : nat) (slot : Z) (x : option Hash) (s : PendingEnvelopes) :
  inv x None None s -> (count_ready s <= fuel)%nat ->
  cwp (processSCPQueueUpToIndex cfg world fuel slot) (fun _ s' => inv x None None s') s.
Proof.
  revert s. induction fuel as [|fuel IH]; intros s Hi Hn; cbn [processSCPQueueUpToIndex]; apply cwp_get;
    destruct (pop_ready slot (mEnvelopes s)) as [[w m]|] eqn:E; try by apply cwp_ret.
  - destruct (popped_ok slot w m x s Hi E) as (_ & _ & _ & Hc & _). lia.
  - eapply cwp_bind; [by eapply cwp_process_ready|]. intros _ s1 _ [Hi1 Hn1]. apply IH; [done|lia].
Qed.

Lemma cwp_processUpTo (slot : Z) (x : option Hash) (s : PendingEnvelopes) :
  inv x None None s -> cwp (processUpTo cfg world slot) (fun _ s' => inv x None None s') s.
Proof. intros Hi. unfold processUpTo. apply cwp_get. by apply cwp_processSCPQueueUpToIndex. Qed.

Lemma cwp_process_slots (slots : list Z) (x : option Hash) (s : PendingEnvelopes) :
  inv x None None s -> cwp (process_slots cfg world slots) (fun _ s' => inv x None None s') s.
Proof.
  revert s. induction slots as [|i slots IH]; intros s Hi; cbn [process_slots]; [by apply cwp_ret|].
  eapply cwp_bind; [by apply cwp_processUpTo|]. intros u s1 Hc1 Hi1. cbv beta in Hi1.
  eapply cwp_quiet with (b := true); [done|by apply qwp_consult, Hi1|]. intros w s2 Hi2 _ _.
  destruct (isTracking _); [by apply cwp_ret|by apply IH].
Qed.

(** The index of the herder is always defined. *)
Lemma herder_index (n : nat) :
  exists i, trackingConsensusLedgerIndex (wo_herder (world n)) = Ok i.
Proof.
  destruct (wk_herder Hworld n) as [i Hi].
  destruct (trackingConsensusLedgerIndex _) as [j|]; [by exists j|done].
Qed.

Lemma cwp_processSCPQueue (x : option Hash) (s : PendingEnvelopes) :
  inv x None None s -> cwp (processSCPQueue cfg world) (fun _ s' => inv x None None s') s.
Proof.
  intros Hi. unfold processSCPQueue.
  eapply cwp_quiet with (b := true); [done|by apply qwp_consult, Hi|]. intros w s1 Hi1 _ [n ->].
  destruct (isTracking _).
  - unfold nextConsensusLedgerIndex. destruct (herder_index n) as [i ->]. cbn.
    by apply cwp_processUpTo.
  - apply cwp_get. by apply cwp_process_slots.
Qed.

(** The checks of the herder always come to an answer. *)
Lemma checkCloseTime_total (n : nat) (env : SCPEnvelope) (recent : bool) :
  exists b, envelope_checkCloseTime cfg (wo_herder (world n)) env recent = Ok b.
Proof.
  unfold envelope_checkCloseTime. destruct (herder_index n) as [i Hi].
  pose proof Hi as Hi'. unfold trackingConsensusLedgerIndex in Hi'.
  unfold trackingConsensusCloseTime. rewrite Hi.
  destruct (he_state _); cbn; try (by eexists); destruct (_ && _); cbn; by eexists.
Qed.

Lemma refused_total (n : nat) (env : SCPEnvelope) : exists r, refused cfg (world n) env = Ok r.
Proof.
  unfold refused, getMinLedgerSeqToRemember, nextConsensusLedgerIndex.
  destruct (herder_index n) as [i ->]. cbn.
  destruct (MANUAL_CLOSE cfg); [by eexists|].
  destruct (checkCloseTime_total n env false) as [b ->]. cbn. destruct b; cbn; [|by eexists].
  destruct (isTracking _); cbn.
  - by repeat case_match; eexists.
  - destruct (checkCloseTime_total n env (i <=? GENESIS_LEDGER_SEQ)) as [b ->]. cbn.
    destruct b; by repeat case_match; eexists.
Qed.

Lemma cwp_herder_recv (env : SCPEnvelope) (x : option Hash) (s : PendingEnvelopes) :
  inv x (Some env) None s ->
  cwp (herder_recvSCPEnvelope cfg world env)
    (fun _ s' => inv x None None s' /\
       (welcome env -> is_Some (getTxSetHashes cfg env) -> tracked s' env)) s.
Proof.
  intros Hi. unfold herder_recvSCPEnvelope.
  eapply cwp_quiet with (b := true); [done|by apply qwp_consult, Hi|]. intros w s1 Hi1 _ [n ->].
  destruct (refused_total n env) as [r Hr]. rewrite Hr.
  apply (cwp_bind _ _ (fun r' s' => r' = r /\ s' = s1)); [by apply cwp_ret|]. intros r' s' _ [-> ->].
  destruct r as [st|].
  - assert (welcome env -> False) as Hno
      by (intros He; by rewrite (wk_admitted Hworld env n He) in Hr).
    apply cwp_ret. split; [|done]. destruct Hi1 as [H1 H2 H3 [W1 W2 W3]]. split; try done.
    split; [|done|done]. intros e He _. apply W1; [done|]. intros [= <-]. done.
  - eapply cwp_bind; [apply cwp_recvSCPEnvelope; [done|]; intros He k; by apply (wk_quorum Hworld)|].
    intros st s2 _ [Hi2 Ht2].
    assert (forall st' : EnvelopeStatus, cwp (ret st') (fun _ s' => inv x None None s' /\
      (welcome env -> is_Some (getTxSetHashes cfg env) -> tracked s' env)) s2) as Hret
      by (intros st'; by apply cwp_ret).
    destruct st; try apply Hret.
    eapply cwp_bind; [by apply cwp_processSCPQueue|]. intros u s3 Hc3 Hi3. cbv beta in Hi3.
    apply cwp_ret.
    split; [done|]. intros He Hd. apply (ca_keeps _ _ Hc3); auto.
Qed.
End pending.
