(* ===== verification/PendingEvents.v ===== *)
(** * Envelopes and items as they arrive

    The arrival of quorum sets and transaction sets, the other events, and what
    a node guarantees of the envelopes it receives. *)
From stdpp Require Import base tactics list numbers gmap.
From Stdlib Require Import ZArith Lia Bool.
From S2P Require Import Prelude Containers LedgerEntries QuorumSet Statement SlotState.
From S2P Require Import HerderValues QuorumTracker RandomEvictionCache Fetching PendingEnvelopes.
From S2P Require Import PendingItems PendingTheorems.

Open Scope Z_scope.
Open Scope kin_scope.

Section arrivals.
Context (cfg : PendingConfig) (hs : Hashes) (Hcfg : config_ok cfg hs) (world : nat -> World).
Context (welcome : SCPEnvelope -> Prop) (Hworld : world_ok cfg world welcome).

#[local] Notation inv := (PendingTheorems.inv cfg hs welcome).
#[local] Notation calm := (PendingTheorems.calm welcome).
#[local] Notation keeps := (PendingTheorems.keeps welcome).

(** What holds across an arrival. *)
Record settled (s s' : PendingEnvelopes) : Prop := {
  se_stack : stack (outside s') = stack (outside s);
  se_here : forall kind h, here s kind h -> here s' kind h;
  se_ptr : nextPtr (outside s) <= nextPtr (outside s');
  se_keeps : keeps s s';
}.

Lemma settled_refl (s : PendingEnvelopes) : settled s s.
Proof. split; try done. by apply keeps_lists. Qed.

Lemma settled_trans (s1 s2 s3 : PendingEnvelopes) : settled s1 s2 -> settled s2 s3 -> settled s1 s3.
Proof.
  intros H1 H2. split.
  - by rewrite (se_stack _ _ H2), (se_stack _ _ H1).
  - intros kind h Hh. by apply H2, H1.
  - etrans; [apply H1|apply H2].
  - intros env He Ht. by apply (se_keeps _ _ H2), (se_keeps _ _ H1).
Qed.

Lemma calm_settled (s s' : PendingEnvelopes) : calm s s' -> settled s s'.
Proof.
  intros Hc. split; [apply Hc| |apply Hc|apply Hc]. intros kind h Hh.
  by eapply here_calm.
Qed.

(** Run to the invariant, across arrivals. *)
Definition swp {A} (m : PE A) (Q : A -> PendingEnvelopes -> Prop) (s : PendingEnvelopes) : Prop :=
  wp never m (fun a s' => settled s s' /\ Q a s') s.

Lemma swp_ret {A} (a : A) (Q : A -> PendingEnvelopes -> Prop) (s : PendingEnvelopes) :
  Q a s -> swp (ret a) Q s.
Proof. intros HQ. apply wp_ret. split; [apply settled_refl|done]. Qed.

Lemma swp_bind {A B} (m : PE A) (f : A -> PE B) (P : A -> PendingEnvelopes -> Prop)
    (Q : B -> PendingEnvelopes -> Prop) (s : PendingEnvelopes) :
  swp m P s -> (forall a s', settled s s' -> P a s' -> swp (f a) Q s') -> swp (bind m f) Q s.
Proof.
  intros Hm Hf. apply wp_bind. eapply wp_mono; [exact Hm|]. intros a s' (Hc & HP).
  eapply wp_mono; [exact (Hf a s' Hc HP)|]. intros c s'' (Hc' & HQ).
  split; [by eapply settled_trans|done].
Qed.

Lemma swp_mono {A} (m : PE A) (P Q : A -> PendingEnvelopes -> Prop) (s : PendingEnvelopes) :
  swp m P s -> (forall a s', settled s s' -> P a s' -> Q a s') -> swp m Q s.
Proof. intros Hm HQ. eapply wp_mono; [exact Hm|]. intros a s' [Hc HP]. auto. Qed.

Lemma swp_calm {A} (m : PE A) (P : A -> PendingEnvelopes -> Prop) (s : PendingEnvelopes) :
  cwp welcome m P s -> swp m P s.
Proof. intros Hm. eapply wp_mono; [exact Hm|]. intros a s' [Hc HP]. split; [by apply calm_settled|done]. Qed.

(** A step that changes one tracker. *)
Lemma change_settled (kind : FetchKind) (h : Hash) (ws : list (Hash * SCPEnvelope))
    (s s' : PendingEnvelopes) : tracker_change kind h ws s s' -> settled s s'.
Proof.
  intros Hc. split.
  - apply Hc.
  - intros kind' h'. destruct kind'; cbn; rewrite (tc_known _ _ _ _ _ Hc); [|done].
    unfold pinned. by rewrite (tc_stack _ _ _ _ _ Hc).
  - by rewrite (tc_ptr _ _ _ _ _ Hc).
  - apply keeps_lists. intros slot. by eapply change_lists.
Qed.

(** ** The loop of [recv] *)

Lemma waiting_tracker (s : PendingEnvelopes) (kind : FetchKind) (h : Hash)
    (ws : list (Hash * SCPEnvelope)) :
  waiting s kind h = Some ws ->
  exists t, mTrackers (fetcher kind s) !! h = Some t /\ mWaitingEnvelopes t = ws.
Proof.
  unfold waiting. destruct (mTrackers (fetcher kind s) !! h) as [t|]; cbn; [|done].
  intros [= <-]. by exists t.
Qed.

(** The loop hands every waiting envelope to the herder: none of them comes to
    wait for the item again, because the item is here. *)
Lemma swp_recv_loop (fuel : nat) (kind : FetchKind) (h : Hash) (x : option Hash)
    (ws : list (Hash * SCPEnvelope)) (s : PendingEnvelopes) :
  inv x None None s -> (kind = FetchTxSet -> x = Some h \/ ws = []) -> waiting s kind h = Some ws ->
  here s kind h \/ ws = [] -> (length ws <= fuel)%nat ->
  swp (recv_loop cfg world fuel kind h)
    (fun _ s' => inv x None None s' /\ waiting s' kind h = Some []) s.
Proof.
  revert ws s. induction fuel as [|fuel IH]; intros ws s Hi Hx Hw Hh Hl;
    destruct (waiting_tracker _ _ _ _ Hw) as (t & Ht & Hws); cbn [recv_loop];
    unfold swp, wp, bind at 1, get at 1; rewrite Ht; cbn [deref];
    unfold bind at 1, ret at 1; unfold tracker_pop; rewrite Hws;
    destruct ws as [|[b env] ws _] using rev_ind; try (apply swp_ret; by split).
  - rewrite length_app in Hl. cbn in Hl. lia.
  - rewrite last_snoc, removelast_last. cbn [snd].
    assert (x = Some h \/ kind = FetchQSet) as Hx'.
    { destruct kind; [left|by right]. destruct (Hx eq_refl) as [|E]; [done|].
      by apply (f_equal length) in E; rewrite length_app in E; cbn in E; lia. }
    assert (here s kind h) as Hhere.
    { destruct Hh as [|E]; [done|]. by apply (f_equal length) in E; rewrite length_app in E; cbn in E; lia. }
    set (t' := with_waiting ws t). set (s1 := with_fetcher kind (with_tracker h t' (fetcher kind s)) s).
    assert (tracker_change kind h ws s s1) as Hch by (apply (change_with_tracker kind h t'); by destruct kind).
    assert (inv x (Some env) None s1) as Hi1.
    { eapply inv_change; [exact Hi|exact Hch| | |].
      - intros e He. apply (fo_names _ _ _ (in_fetch _ _ _ _ _ _ _ Hi)). eexists. split; [exact Hw|].
        rewrite map_app, elem_of_app. by left.
      - intros -> _ Hne. destruct Hx'; [done|done].
      - intros e He Hy _. left. split; [done|]. intros (ws' & Hw' & Hin). rewrite Hw in Hw'.
        injection Hw' as <-. rewrite map_app, elem_of_app in Hin.
        destruct Hin as [?|Hin%list_elem_of_singleton]; [done|]. cbn in Hin. congruence. }
    change (swp (modify (with_fetcher kind (with_tracker h t' (fetcher kind s))) ;;!
      herder_recvSCPEnvelope cfg world env ;;! recv_loop cfg world fuel kind h)
      (fun _ s' => inv x None None s' /\ waiting s' kind h = Some []) s).
    apply (swp_bind _ _ (fun _ s' => s' = s1)).
    { unfold swp, wp. cbn. split; [by eapply change_settled|done]. }
    intros [] s1' Hse1 ->.
    apply (swp_bind _ _ (fun _ s' => inv x None None s' /\ waiting s' kind h = Some ws)).
    { pose proof (cwp_herder_recv _ _ Hcfg _ _ Hworld env x s1 Hi1) as Hr.
      eapply wp_mono; [exact Hr|]. intros st s2 (Hc2 & Hi2 & _). split; [by apply calm_settled|].
      split; [done|]. rewrite (ca_here _ _ _ Hc2); [apply Hch|]. by apply Hse1. }
    intros _ s2 Hse2 [Hi2 Hw2]. apply (IH ws); try done.
    + intros ->. destruct Hx' as [|]; [by left|done].
    + left. by apply Hse2, Hse1.
    + rewrite length_app in Hl. cbn in Hl. lia.
Qed.

(** Nobody waits for the item afterwards. *)
Lemma swp_fetcher_recv (kind : FetchKind) (h : Hash) (x : option Hash) (s : PendingEnvelopes) :
  inv x None None s ->
  (kind = FetchTxSet -> x = Some h \/ forall env, ~ waits s FetchTxSet h env) ->
  here s kind h \/ (forall env, ~ waits s kind h env) ->
  swp (fetcher_recv cfg world kind h)
    (fun _ s' => inv x None None s' /\ forall env, ~ waits s' kind h env) s.
Proof.
  intros Hi Hx Hh.
  assert (forall ws, waiting s kind h = Some ws -> (forall env, ~ waits s kind h env) -> ws = []) as Hnil.
  { intros ws Hw Hno. destruct ws as [|[b e] ws]; [done|]. destruct (Hno e). eexists.
    split; [exact Hw|]. by left. }
  unfold fetcher_recv, swp, wp, bind at 1, get at 1.
  destruct (mTrackers (fetcher kind s) !! h) as [t|] eqn:Et.
  2: { apply swp_ret. split; [done|]. intros env. by apply waits_no_tracker. }
  assert (waiting s kind h = Some (mWaitingEnvelopes t)) as Hw by (unfold waiting; by rewrite Et).
  change (swp (recv_loop cfg world (length (mWaitingEnvelopes t)) kind h ;;!
    let! s := get in let! t := deref (mTrackers (fetcher kind s) !! h) DanglingTracker in
    modify (with_fetcher kind (with_tracker h (tracker_cancel (resetLastSeenSlotIndex t)) (fetcher kind s))))
    (fun _ s' => inv x None None s' /\ forall env, ~ waits s' kind h env) s).
  eapply swp_bind.
  - apply (swp_recv_loop _ kind h x (mWaitingEnvelopes t)); try done.
    + intros ->. destruct (Hx eq_refl) as [|Hno]; [by left|right]. by apply Hnil.
    + destruct Hh as [|Hno]; [by left|right]. by apply Hnil.
  - intros _ s1 _ [Hi1 Hw1]. destruct (waiting_tracker _ _ _ _ Hw1) as (t1 & Ht1 & Hws1).
    unfold swp, wp, bind, get. rewrite Ht1. cbn. set (s2 := with_fetcher _ _ _).
    assert (tracker_change kind h [] s1 s2) as Hch.
    { rewrite <- Hws1. by apply (change_with_tracker kind h (tracker_cancel (resetLastSeenSlotIndex t1)));
        destruct kind. }
    split; [by eapply change_settled|]. split.
    + eapply inv_change; [exact Hi1|exact Hch| | |]; [by intros e ?%not_elem_of_nil|done|].
      intros e He Hy _. left. split; [done|]. intros (ws & Hws & Hin). rewrite Hw1 in Hws.
      by injection Hws as <-.
    + intros env (ws & Hws & Hin). rewrite (tc_this _ _ _ _ _ Hch) in Hws. injection Hws as <-.
      by apply not_elem_of_nil in Hin.
Qed.

(** ** Quorum sets *)

Lemma swp_addSCPQuorumSet (h : Hash) (q : SCPQuorumSet) (s : PendingEnvelopes) :
  inv None None None s -> h ∈ universe hs -> h = qset_hash_of hs q ->
  Sanity.isQuorumSetSane q false = true ->
  swp (addSCPQuorumSet cfg world h q) (fun _ s' => inv None None None s') s.
Proof.
  intros Hi Hu Hh Hq. unfold addSCPQuorumSet.
  apply (swp_bind _ _ (fun p s' => inv None None None s' /\ here s' FetchQSet h)).
  { apply swp_calm. eapply cwp_mono; [eapply cwp_of_quiet with (b := true);
      [exact Hi|apply (qwp_putQSet cfg hs Hcfg)]; try done; apply Hi|].
    intros p s1 _ (Hi1 & _ & Hp). split; [done|]. by exists p. }
  intros p s1 _ [Hi1 Hh1]. eapply swp_mono; [apply (swp_fetcher_recv FetchQSet h None); auto; done|].
  by intros _ s2 _ [Hi2 _].
Qed.

(** ** Transaction sets *)

(** A new pointer is on the stack. *)
Lemma push_txset (p : TxSetPtr) (s : PendingEnvelopes) :
  inv None None None s -> (forall h q, known_t s !! h = Some q -> ts_ptr q <> ts_ptr p) ->
  let s' := with_outside (set_stack (TRef p :: stack (outside s)) (outside s)) s in
  inv None None None s' /\ keeps s s' /\
  (forall kind h, waiting s' kind h = waiting s kind h).
Proof.
  intros [Hi Hf Hs [W1 W2 W3]] Hp s'.
  assert (items_ok hs s') as Hi' by (destruct Hi; by split).
  split; [|split; [by apply keeps_lists|by intros []]]. split; [done| | |].
  - split; [apply Hf|]. intros h env Hh Hx. destruct (lock_txset s' h) as [q|] eqn:E; [|done]. exfalso.
    apply (lock_txset_iff hs) in E as [Hq Hr]; [|done].
    assert (has_ref s (ts_ptr q)) as Hrs.
    { destruct Hr as [Hr|[Hr|(r & Hr & Hrq)]]; [by left|by right; left|].
      cbn in Hr. apply elem_of_cons in Hr as [[= ->]|Hr]; [by destruct (Hp h q Hq)|].
      right. right. by exists r. }
    assert (lock_txset s h = Some q) as Hl by (by apply (lock_txset_iff hs)).
    rewrite (fo_gone _ _ _ Hf h env Hh) in Hl; done.
  - destruct Hs. by split.
  - by split.
Qed.

Lemma pop_txset (x : option Hash) (s : PendingEnvelopes) :
  inv x None None s ->
  let s' := with_outside (set_stack (tail (stack (outside s))) (outside s)) s in
  inv x None None s' /\ keeps s s'.
Proof.
  intros [Hi Hf Hs [W1 W2 W3]] s'.
  assert (items_ok hs s') as Hi' by (destruct Hi; by split).
  split; [|by apply keeps_lists]. split; [done| | |].
  - split; [apply Hf|]. intros h env Hh Hx. apply (lock_calm hs s s'); try done; [|by eapply fo_gone].
    intros i [Hr|[Hr|(r & Hr & Hri)]]; [by left|by right; left|]. right. right. exists r.
    split; [|done]. cbn in Hr. apply elem_of_app in Hr as [Hr|Hr]; apply elem_of_app; [left|by right].
    destruct (stack (outside s)); [done|by right].
  - destruct Hs. by split.
  - by split.
Qed.

(** The set becomes known, while it is on the stack. *)
Lemma know_txset_step (h : Hash) (slot : Z) (p : TxSetPtr) (s : PendingEnvelopes) :
  inv None None None s -> lock_txset s h = None -> TRef p ∈ stack (outside s) ->
  ts_ptr p < nextPtr (outside s) -> is_txset hs (ts_set p) h ->
  swp (know_txset h p ;;! txset_put cfg h (slot, p) ;;! ret p)
    (fun _ s' => inv (Some h) None None s' /\ here s' FetchTxSet h) s.
Proof.
  intros [Hi Hf Hs [W1 W2 W3]] Hl Hst Hn Hh. set (s1 := with_known (mkKnown (mQsetCache (known s)) (known_q s)
    (mTxSetCache (known s)) (<[h := p]> (known_t s)) (mValueSizeCache (known s))) s).
  assert (items_ok hs s1) as Hi1.
  { destruct Hi as [H1 H2 H3 H4 H5 H6 H7 H8]. split; try done. cbn. intros h' p'.
    destruct (decide (h' = h)) as [->|]; [|by rewrite lookup_insert_ne; auto].
    rewrite lookup_insert_eq. by intros [= <-]. }
  assert (inv (Some h) None None s1) as Hinv1.
  { split; [done| | |].
    - split; [apply Hf|]. intros h' env Hw Hne. destruct (lock_txset s1 h') as [q|] eqn:E; [|done]. exfalso.
      apply (lock_txset_iff hs) in E as [Hq Hr]; [|done]. cbn in Hq.
      rewrite lookup_insert_ne in Hq by congruence.
      assert (lock_txset s h' = Some q) as Hl' by (by apply (lock_txset_iff hs)).
      rewrite (fo_gone _ _ _ Hf h' env Hw) in Hl'; done.
    - destruct Hs. by split.
    - by split. }
  assert (settled s s1) as Hse.
  { split; try done; [|by apply keeps_lists]. intros [] h'; cbn; [|done].
    intros (q & Hq & Hpin). destruct (decide (h' = h)) as [->|Hne].
    - destruct Hpin as (r & Hr & Hrq). exfalso.
      assert (lock_txset s h = Some q) as Hl'; [|congruence]. apply (lock_txset_iff hs); [done|].
      split; [done|]. right. right. exists r. rewrite elem_of_app. auto.
    - exists q. by rewrite lookup_insert_ne. }
  apply (swp_bind _ _ (fun _ s' => s' = s1)).
  { unfold swp, wp. cbn. by split. }
  intros [] s' _ ->.
  apply (swp_bind _ _ (fun _ s' => inv (Some h) None None s' /\ here s' FetchTxSet h)).
  - apply swp_calm. apply (cwp_mono welcome _ (fun _ s' => inv (Some h) None None s' /\
      (count_ready s' <= count_ready s1)%nat /\ True)).
    + apply (cwp_of_quiet _ _ _ false); [done|]. apply (qwp_txset_put cfg hs Hcfg); [done|].
      right. right. exists p. rewrite elem_of_app. auto.
    + intros _ s2 Hc2 (Hi2 & _). split; [done|]. eapply here_calm; [done|].
      exists p. split; [cbn; by rewrite lookup_insert_eq|]. by exists p.
  - intros _ s2 _ [Hi2 Hh2]. by apply swp_ret.
Qed.

Lemma inv_nobody (h : Hash) (s : PendingEnvelopes) :
  inv (Some h) None None s -> (forall env, ~ waits s FetchTxSet h env) -> inv None None None s.
Proof.
  intros [Hi Hf Hs Hw] Hno. split; try done. split; [apply Hf|]. intros h' env Hh _.
  apply (fo_gone _ _ _ Hf h' env Hh). intros [= ->]. by destruct (Hno env).
Qed.

Lemma swp_addTxSet (h : Hash) (slot : Z) (p : TxSetPtr) (s : PendingEnvelopes) :
  inv None None None s -> (forall h' q, known_t s !! h' = Some q -> ts_ptr q <> ts_ptr p) ->
  ts_ptr p < nextPtr (outside s) -> is_txset hs (ts_set p) h ->
  wp never (addTxSet cfg world h slot p) (fun _ s' => inv None None None s' /\ keeps s s') s.
Proof.
  intros Hi Hp Hn Hh. destruct (push_txset p s Hi Hp) as (Hi1 & Hk1 & _). cbv zeta in *.
  set (s1 := with_outside (set_stack (TRef p :: stack (outside s)) (outside s)) s) in *.
  assert (swp (putTxSet cfg h slot p ;;! fetcher_recv cfg world FetchTxSet h)
    (fun _ s' => inv None None None s') s1) as Hrun.
  { apply (swp_bind _ _ (fun _ s' => exists x, inv x None None s' /\
      (x = Some h \/ x = None) /\
      (x = Some h \/ forall env, ~ waits s' FetchTxSet h env) /\
      (here s' FetchTxSet h \/ forall env, ~ waits s' FetchTxSet h env))).
    - unfold putTxSet.
      apply (swp_bind _ _ (fun r s' => inv None None None s' /\ r = lock_txset s1 h /\
        (r = None -> lock_txset s' h = None) /\ (forall env, waits s' FetchTxSet h env ->
          waits s1 FetchTxSet h env) /\ TRef p ∈ stack (outside s') /\
        ts_ptr p < nextPtr (outside s'))).
      + apply swp_calm. eapply wp_mono; [apply (qwp_touch_txset cfg hs Hcfg h slot s1), Hi1|].
        intros r s2 (Hi2 & Hq2 & ->). split; [by eapply quiet_calm|].
        split; [by eapply inv_quiet|]. split; [done|]. split; [|split; [|split]].
        * intros Hl. apply (lock_calm hs s1 s2); try done; [apply Hi1|by rewrite (qt_t _ _ _ Hq2)|apply Hq2].
        * intros env. unfold waits, waiting. by rewrite (qt_fetcher _ _ _ Hq2).
        * rewrite (qt_stack _ _ _ Hq2). by left.
        * eapply Z.lt_le_trans; [|apply Hq2]. done.
      + intros r s2 Hse2 (Hi2 & Hr & Hl2 & Hw2 & Hst2 & Hn2). destruct r as [q|].
        * apply swp_ret. exists None. split; [done|]. split; [by right|].
          assert (forall env, ~ waits s2 FetchTxSet h env) as Hno; [|by auto].
          intros env Henv. apply Hw2 in Henv.
          rewrite (fo_gone _ _ _ (in_fetch _ _ _ _ _ _ _ Hi1) h env Henv) in Hr; done.
        * eapply swp_mono; [by apply know_txset_step; [| apply Hl2| | |]|].
          intros _ s3 _ [Hi3 Hh3]. exists (Some h). auto.
    - intros _ s2 _ (x & Hi2 & Hx & Hx' & Hh2).
      eapply swp_mono; [apply (swp_fetcher_recv FetchTxSet h x); auto|].
      intros _ s3 _ [Hi3 Hno]. destruct Hx as [->| ->]; [by eapply inv_nobody|done]. }
  assert (addTxSet cfg world h slot p s =
    ((putTxSet cfg h slot p ;;! fetcher_recv cfg world FetchTxSet h) ;;! pop_ref) s1) as Heq.
  { unfold addTxSet, push_ref, on_outside, modify, bind. cbn. fold s1.
    destruct (putTxSet cfg h slot p s1) as [[r s2]|]; [|done].
    by destruct (fetcher_recv cfg world FetchTxSet h s2) as [[u s3]|]. }
  enough (wp never ((putTxSet cfg h slot p ;;! fetcher_recv cfg world FetchTxSet h) ;;! pop_ref)
    (fun _ s' => inv None None None s' /\ keeps s s') s1) as Hw by (unfold wp in *; by rewrite Heq).
  apply wp_bind. eapply wp_mono; [exact Hrun|]. intros _ s2 (Hse2 & Hi2).
  destruct (pop_txset None s2 Hi2) as [Hi3 Hk3]. unfold pop_ref, on_outside, modify, wp. split; [done|].
  intros env He Ht. by apply Hk3, (se_keeps _ _ Hse2), Hk1.
Qed.

(** ** Discarding *)

Lemma swp_do_stopFetch (kind : FetchKind) (h : Hash) (env : SCPEnvelope) (s : PendingEnvelopes) :
  inv None None None s -> env ∉ fetching_of s (slot_of env) ->
  swp (do_stopFetch kind env h)
    (fun _ s' => inv None None None s' /\ env ∉ fetching_of s' (slot_of env)) s.
Proof.
  intros Hi Hno. unfold do_stopFetch, swp, wp, modify, fetcher_stopFetch.
  destruct (mTrackers (fetcher kind s) !! h) as [t|] eqn:Et.
  2: { assert (with_fetcher kind (fetcher kind s) s = s) as -> by (destruct kind; by destruct s).
       split; [apply settled_refl|done]. }
  set (t1 := tracker_discard env t). set (t2 := if tracker_empty t1 then tracker_cancel t1 else t1).
  set (s' := with_fetcher kind (with_tracker h t2 (fetcher kind s)) s).
  assert (mWaitingEnvelopes t2 = mWaitingEnvelopes t1) as Hw2 by (unfold t2; by destruct (tracker_empty t1)).
  assert (tracker_change kind h (mWaitingEnvelopes t1) s s') as Hc
    by (rewrite <- Hw2; apply (change_with_tracker kind h t2); by destruct kind).
  assert (forall e, e ∈ map snd (mWaitingEnvelopes t1) <-> e <> env /\ waits s kind h e) as Hin.
  { intros e. rewrite (waits_tracker _ _ _ _ _ Et). unfold t1, tracker_discard. cbn.
    induction (mWaitingEnvelopes t) as [|[b a] l IH]; cbn [List.filter map].
    - split; [by intros ?%not_elem_of_nil|by intros [_ ?%not_elem_of_nil]].
    - case_bool_decide as E; cbn [negb map snd] in *; rewrite ?elem_of_cons, IH; naive_solver. }
  assert (lists s' (slot_of env) = lists s (slot_of env)) as Hl by by eapply change_lists.
  split; [by eapply change_settled|]. split; [|unfold fetching_of; by rewrite Hl].
  eapply inv_change; [exact Hi|exact Hc| | |].
  - intros e [_ He]%Hin. by apply (fo_names _ _ _ (in_fetch _ _ _ _ _ _ _ Hi)).
  - intros -> Hne _. destruct (mWaitingEnvelopes t1) as [|[b e] l] eqn:E; [done|].
    apply (fo_gone _ _ _ (in_fetch _ _ _ _ _ _ _ Hi) h e); [|done]. apply Hin. by left.
  - intros e He Hy Hf. left. split; [done|]. intros Hw. apply Hin. split; [|done].
    intros ->. done.
Qed.

Lemma swp_each {A} (f : A -> PE unit) (l : list A) (P : PendingEnvelopes -> Prop) (s : PendingEnvelopes) :
  P s -> (forall a s', a ∈ l -> P s' -> swp (f a) (fun _ => P) s') -> swp (each f l) (fun _ => P) s.
Proof.
  revert s. induction l as [|a l IH]; intros s Hs Hf; cbn [each]; [by apply swp_ret|].
  apply (swp_bind _ _ (fun _ => P)); [apply Hf; [by left|done]|]. intros _ s1 _ Hs1.
  apply IH; [done|]. intros b s' Hb. apply Hf. by right.
Qed.

Lemma swp_stopFetch (env : SCPEnvelope) (s : PendingEnvelopes) :
  inv None None None s -> env ∉ fetching_of s (slot_of env) ->
  swp (stopFetch cfg env) (fun _ s' => inv None None None s') s.
Proof.
  intros Hi Hno. unfold stopFetch. eapply swp_bind; [by apply swp_do_stopFetch|].
  intros _ s1 _ [Hi1 Hno1]. destruct (getTxSetHashes cfg env) as [l|]; [|by apply swp_ret].
  eapply swp_mono.
  - apply (swp_each _ l (fun s' => inv None None None s' /\ env ∉ fetching_of s' (slot_of env))); [done|].
    intros h s2 _ [Hi2 Hno2]. by apply swp_do_stopFetch.
  - by intros _ s2 _ [Hi2 _].
Qed.

(** The envelope moves to the discarded ones. *)
Lemma discard_step (env : SCPEnvelope) (s : PendingEnvelopes) :
  inv None None None s -> ~ welcome env ->
  cwp welcome (on_slot (slot_of env) (fun e =>
      set_fetching (env_erase env (mFetchingEnvelopes e))
        (set_discarded (env_insert env (mDiscardedEnvelopes e)) e)))
    (fun _ s' => inv None None None s' /\ env ∉ fetching_of s' (slot_of env)) s.
Proof.
  intros Hi Hun. unfold cwp, wp. rewrite on_slot_run. set (e := set_fetching _ _).
  pose proof (in_slots _ _ _ _ _ _ _ Hi) as Hs. destruct (in_welcome _ _ _ _ _ _ _ Hi) as [W1 W2 W3].
  assert (inv None None None (set_slot (slot_of env) e s) /\
    calm s (set_slot (slot_of env) e s)) as [Hi' Hc].
  { eapply slot_step; [exact Hi| | | | | |].
    - intros w p Hw Hp. exact (ready_has_ref s (slot_of env) w p Hw Hp).
    - intros e' He'. cbn in He' |- *. apply elem_env_erase in He' as [Hne He'].
      rewrite elem_env_insert.
      destruct (so_fetching _ _ _ _ Hs (slot_of env) e' He') as (H1 & H2 & H3 & H4).
      split; [done|]. split; [done|]. split; [|done]. by intros [?|?].
    - apply (so_ready _ _ _ _ Hs).
    - apply (so_qset _ _ _ _ Hs).
    - split.
      + intros e' He' Hy Hf. unfold fetching_of in Hf. apply (W1 e' He' Hy).
        destruct (decide (slot_of e' = slot_of env)) as [E|E]; [|by rewrite lists_other in Hf].
        rewrite E, lists_this in Hf. rewrite E. by apply elem_env_erase in Hf as [_ Hf].
      + intros e' He' Hz. specialize (W2 e' He' Hz). unfold handed, ready_of, processed_of in *.
        destruct (decide (slot_of e' = slot_of env)) as [E|E]; [|by rewrite lists_other].
        rewrite E in W2 |- *. by rewrite lists_this.
      + intros e' He'. apply kept_slot; [by apply W3|]. intros E Hin. specialize (W3 e' He').
        rewrite E in W3. apply elem_env_insert in Hin as [->|Hin]; done.
    - intros e' _. unfold tracked, discarded_of, processed_of, fetching_of.
      destruct (decide (slot_of e' = slot_of env)) as [E|E]; [|by rewrite lists_other].
      rewrite E, lists_this. cbn. rewrite elem_env_insert, elem_env_erase.
      destruct (decide (e' = env)); tauto. }
  split; [done|]. split; [done|]. unfold fetching_of. rewrite lists_this. cbn.
  rewrite elem_env_erase. naive_solver.
Qed.

Lemma swp_discardSCPEnvelope (env : SCPEnvelope) (s : PendingEnvelopes) :
  inv None None None s -> ~ welcome env ->
  swp (discardSCPEnvelope cfg env) (fun _ s' => inv None None None s') s.
Proof.
  intros Hi Hun. unfold discardSCPEnvelope.
  apply (swp_bind _ _ (fun _ s' => inv None None None s')).
  { apply swp_calm. eapply cwp_mono; [apply (cwp_of_quiet cfg hs welcome true); [exact Hi|]|].
    - apply qwp_on_slot; [apply Hi|done].
    - by intros _ s1 _ (H & _). }
  intros _ s1 _ Hi1. unfold swp, wp, bind at 1, get at 1.
  destruct (env_in env _); [by apply swp_ret|].
  eapply swp_bind; [by apply swp_calm, discard_step|]. intros _ s2 _ [Hi2 Hno].
  by apply swp_stopFetch.
Qed.

(** ** Peers and timers *)

(** A try of a tracker does not change who waits. *)
Lemma swp_try (kind : FetchKind) (h : Hash) (s : PendingEnvelopes)
    (r : PeersView -> ItemFetcher -> option (option (Peer * bool)) * ItemFetcher) :
  inv None None None s ->
  (forall v f, (r v f).2 = f \/ exists t t', mTrackers f !! h = Some t /\
     mWaitingEnvelopes t' = mWaitingEnvelopes t /\ (r v f).2 = with_tracker h t' f) ->
  swp (let! w := consult world in
       let! s := get in
       let '(a, f) := r (wo_peers w) (fetcher kind s) in
       modify (with_fetcher kind f) ;;!
       match a with Some a => on_outside (log_try kind h a) | None => ret tt end)
    (fun _ s' => inv None None None s') s.
Proof.
  intros Hi Hr. unfold swp, wp, consult, bind, get, on_outside, modify, ret. cbn.
  set (w := world _).
  assert (fetcher kind (with_outside (next_tick (outside s)) s) = fetcher kind s) as ->
    by (by destruct kind).
  specialize (Hr (wo_peers w) (fetcher kind s)). destruct (r _ _) as [a f]. cbn in Hr.
  assert (forall s', (forall k, fetcher k s' = fetcher k (with_fetcher kind f s)) ->
    mEnvelopes s' = mEnvelopes s -> known s' = known s ->
    stack (outside s') = stack (outside s) -> held (outside s') = held (outside s) ->
    posted (outside s') = posted (outside s) -> delivered (outside s') = delivered (outside s) ->
    nextPtr (outside s') = nextPtr (outside s) -> settled s s' /\ inv None None None s') as Hall.
  { intros s' Hf He Hk Hst Hh Hp Hd Hn. destruct Hr as [->|(t & t' & Ht & Hw & ->)].
    - assert (quiet true s s') as Hq.
      { apply quiet_same; try done; [|by rewrite Hk|by rewrite Hk|by rewrite Hk|by rewrite Hn].
        intros k. rewrite Hf. by destruct kind, k. }
      assert (items_ok hs s') as Hit.
      { destruct (in_items _ _ _ _ _ _ _ Hi) as [H1 H2 H3 H4 H5 H6 H7 H8].
        split; rewrite ?He, ?Hk, ?Hn; done. }
      split; [by eapply calm_settled, quiet_calm|by eapply inv_quiet].
    - assert (tracker_change kind h (mWaitingEnvelopes t') s s') as Hc
        by by apply change_with_tracker.
      split; [by eapply change_settled|]. rewrite Hw in Hc.
      assert (forall e, e ∈ map snd (mWaitingEnvelopes t) <-> waits s kind h e) as Hin
        by (intros e; by rewrite (waits_tracker _ _ _ _ _ Ht)).
      eapply inv_change; [exact Hi|exact Hc| | |].
      + intros e He'%Hin. by apply (fo_names _ _ _ (in_fetch _ _ _ _ _ _ _ Hi)).
      + intros -> Hne _. destruct (mWaitingEnvelopes t) as [|[b e] l] eqn:E; [done|].
        apply (fo_gone _ _ _ (in_fetch _ _ _ _ _ _ _ Hi) h e); [|done]. apply Hin. by left.
      + intros e _ Hy _. left. split; [done|]. apply Hin. }
  destruct a as [a|]; apply Hall; by destruct kind.
Qed.

Lemma doesntHave_change (v : PeersView) (h : Hash) (peer : Peer) (f : ItemFetcher) :
  (fetcher_doesntHave v h peer f).2 = f \/ exists t t', mTrackers f !! h = Some t /\
    mWaitingEnvelopes t' = mWaitingEnvelopes t /\ (fetcher_doesntHave v h peer f).2 = with_tracker h t' f.
Proof.
  unfold fetcher_doesntHave, tracker_doesntHave. destruct (mTrackers f !! h) as [t|]; [right|by left].
  case_bool_decide.
  - pose proof (tryNextPeer_waiting v t) as Hw. destruct (tryNextPeer v t) as [a t']. by exists t, t'.
  - by exists t, t.
Qed.

Lemma timerFired_change (v : PeersView) (h : Hash) (f : ItemFetcher) :
  (timerFired v h f).2 = f \/ exists t t', mTrackers f !! h = Some t /\
    mWaitingEnvelopes t' = mWaitingEnvelopes t /\ (timerFired v h f).2 = with_tracker h t' f.
Proof.
  unfold timerFired. destruct (mTrackers f !! h) as [t|]; [|by left].
  destruct (mTimer t); [right|by left].
  pose proof (tryNextPeer_waiting v t) as Hw. destruct (tryNextPeer v t) as [a t']. by exists t, t'.
Qed.

(** The posted cleanup: envelopes of old slots wait no more. *)
Definition cleaned (kind : FetchKind) (k : Z) (l : list (FetchKind * Z)) (s : PendingEnvelopes)
    : PendingEnvelopes :=
  with_fetcher kind (stopFetchingBelowInternal k (fetcher kind s))
    (with_outside (set_posted l (outside s)) s).

Lemma elem_clear (k : Z) (e : SCPEnvelope) (ws : list (Hash * SCPEnvelope)) :
  e ∈ map snd (List.filter (fun x => negb (slotIndex (statement x.2) <? k)) ws) <->
  e ∈ map snd ws /\ k <= slot_of e.
Proof.
  induction ws as [|[b a] l IH]; cbn [List.filter map].
  - split; [by intros ?%not_elem_of_nil|by intros [?%not_elem_of_nil _]].
  - destruct (Z.ltb_spec (slotIndex (statement (b, a).2)) k) as [Hlt|Hge];
      cbn [negb map snd] in *; rewrite ?elem_of_cons, IH; unfold slot_of in *; naive_solver lia.
Qed.

Lemma waits_cleaned (kind kind' : FetchKind) (k : Z) (l : list (FetchKind * Z)) (h : Hash)
    (e : SCPEnvelope) (s : PendingEnvelopes) :
  waits (cleaned kind k l s) kind' h e <-> waits s kind' h e /\ (kind' = kind -> k <= slot_of e).
Proof.
  destruct (decide (kind' = kind)) as [->|Hne].
  2: { unfold waits, waiting, cleaned. split; [|intros [H _]; by destruct kind, kind'].
       intros H. split; [by destruct kind, kind'|done]. }
  unfold waits, waiting.
  assert (fetcher kind (cleaned kind k l s) = stopFetchingBelowInternal k (fetcher kind s)) as ->
    by (by destruct kind).
  cbn. rewrite lookup_omap. destruct (mTrackers (fetcher kind s) !! h) as [t|]; cbn; [|naive_solver].
  unfold clearEnvelopesBelow. pose proof (elem_clear k e (mWaitingEnvelopes t)) as Hin.
  destruct (List.filter _ (mWaitingEnvelopes t)) as [|y ws'] eqn:E; cbn.
  - split; [by intros (? & ? & _)|]. intros [(ws0 & [= <-] & He) Hk].
    destruct Hin as [_ Hin]. specialize (Hin (conj He (Hk eq_refl))). by apply not_elem_of_nil in Hin.
  - split.
    + intros (ws0 & [= <-] & He). apply Hin in He as [He Hk]. split; [by eexists|done].
    + intros [(ws0 & [= <-] & He) Hk]. eexists. split; [done|]. apply Hin. auto.
Qed.

Lemma swp_cleanup (s : PendingEnvelopes) :
  inv None None None s -> swp cleanup (fun _ s' => inv None None None s') s.
Proof.
  intros Hi. unfold cleanup, swp, wp, bind at 1, get at 1.
  destruct (posted (outside s)) as [|[kind k] l] eqn:Ep; [split; [apply settled_refl|done]|].
  unfold bind, on_outside, modify. cbn.
  set (s' := with_fetcher kind _ _). assert (s' = cleaned kind k l s) as Es by (by destruct kind).
  pose proof (fun kind' h e => waits_cleaned kind kind' k l h e s) as Hw. rewrite <- Es in Hw. clear Es.
  destruct Hi as [Hit Hf Hs [W1 W2 W3]].
  assert (items_ok hs s') as Hit' by (destruct Hit; by destruct kind; split).
  assert (known s' = known s) as Ek by (by destruct kind).
  assert (stack (outside s') = stack (outside s)) as Est by (by destruct kind).
  split.
  { split; [done| |by destruct kind|apply keeps_lists; by destruct kind].
    intros [] h; cbn; rewrite Ek; [|done]. unfold pinned. by rewrite Est. }
  split; [done| | |].
  - split.
    + intros kind' h e [He _]%Hw. by apply Hf.
    + intros h e [He _]%Hw Hx. apply (lock_calm hs s s'); try done; [by destruct kind| |by eapply fo_gone].
      intros i. by destruct kind.
  - destruct Hs as [S1 S2 S3 S4 S5]. destruct kind; split; try done;
      intros e kind' k' He Hin; apply (S4 e kind' k' He); rewrite Ep; by right.
  - split.
    + intros e He Hy Hfe. destruct (W1 e He Hy) as (kind' & h & Hwt); [by destruct kind|].
      exists kind', h. apply Hw. split; [done|]. intros _. apply (so_posted _ _ _ _ Hs e kind k He).
      rewrite Ep. by left.
    + intros e He Hz. specialize (W2 e He Hz). by destruct kind.
    + intros e He. specialize (W3 e He). by destruct kind.
Qed.

(** ** Events *)

(** What the rest of the program sends: sets with their hashes, quorum sets the
    cache has room for, and own quorum sets that are sane; the quorum sets that
    welcome envelopes name are sane too. *)
Definition event_ok (e : PendingEvent) : Prop :=
  match e with
  | EvTxSet h t | EvOwnTxSet h _ t => is_txset hs t h
  | EvQSet h q =>
      h = qset_hash_of hs q /\ h ∈ universe hs /\
      (Sanity.isQuorumSetSane q false = true \/ forall env, welcome env -> qset_hash env <> h)
  | EvOwnQSet h q =>
      h = qset_hash_of hs q /\ h ∈ universe hs /\ Sanity.isQuorumSetSane q false = true
  | EvCallback c => callback_ok welcome c
  | _ => True
  end.

Lemma wp_own_txset (h : Hash) (slot : Z) (t : TxSetFrame) (s : PendingEnvelopes) :
  inv None None None s -> is_txset hs t h ->
  wp never (let! n := make_ptr in addTxSet cfg world h slot {| ts_ptr := n; ts_set := t |})
    (fun _ s' => inv None None None s' /\ keeps s s') s.
Proof.
  intros Hi Hh. apply wp_bind. eapply wp_mono; [apply (qwp_make_ptr hs true), Hi|].
  intros n s1 (Hi1 & Hq1 & -> & Hn & Hk).
  eapply wp_mono; [apply swp_addTxSet|].
  - by eapply inv_quiet.
  - intros h2 q Hq. rewrite Hk in Hq. cbn.
    destruct (io_t _ _ (in_items _ _ _ _ _ _ _ Hi) h2 q Hq). lia.
  - cbn. lia.
  - done.
  - intros _ s2 [Hi2 Hk2]. split; [done|]. intros e He Ht. apply Hk2; [done|].
    by apply (keeps_lists welcome s s1); [apply Hq1| |].
Qed.

Lemma fetchingFor_waits (h : Hash) (env : SCPEnvelope) (s : PendingEnvelopes) :
  env ∈ fetchingFor h (mQuorumSetFetcher s) -> waits s FetchQSet h env.
Proof.
  unfold fetchingFor, waits, waiting. cbn. destruct (mTrackers _ !! h) as [t|]; cbn;
    [by eexists|by intros ?%not_elem_of_nil].
Qed.

Lemma swp_recvSCPQuorumSet (h : Hash) (q : SCPQuorumSet) (s : PendingEnvelopes) :
  inv None None None s -> h = qset_hash_of hs q -> h ∈ universe hs ->
  Sanity.isQuorumSetSane q false = true \/ (forall env, welcome env -> qset_hash env <> h) ->
  swp (recvSCPQuorumSet cfg world h q) (fun _ s' => inv None None None s') s.
Proof.
  intros Hi Hh Hu Hsane. unfold recvSCPQuorumSet, swp, wp, bind at 1, get at 1.
  destruct (_ =? 0); [split; [apply settled_refl|done]|].
  destruct (Sanity.isQuorumSetSane q false) eqn:Eq.
  - change (swp (addSCPQuorumSet cfg world h q ;;! ret true) (fun _ s' => inv None None None s') s).
    apply (swp_bind _ _ (fun _ s' => inv None None None s')); [by apply swp_addSCPQuorumSet|].
    intros _ s1 _ Hi1. by apply swp_ret.
  - change (swp (discardSCPEnvelopesWithQSet cfg h ;;! ret false)
      (fun _ s' => inv None None None s') s).
    apply (swp_bind _ _ (fun _ s' => inv None None None s')).
    + destruct Hsane as [|Hun]; [congruence|].
      unfold discardSCPEnvelopesWithQSet, swp, wp, bind, get.
      apply (swp_each (discardSCPEnvelope cfg) _ (fun s' => inv None None None s')); [done|].
      intros env s1 Henv Hi1. apply swp_discardSCPEnvelope; [done|]. intros He. apply (Hun env He).
      apply (fo_names _ _ _ (in_fetch _ _ _ _ _ _ _ Hi) FetchQSet). by apply fetchingFor_waits.
    + intros _ s1 _ Hi1. by apply swp_ret.
Qed.

Lemma pending_event_ok (e : PendingEvent) (s : PendingEnvelopes) :
  inv None None None s -> event_ok e ->
  wp never (pending_event cfg world e) (fun _ s' => inv None None None s' /\ keeps s s' /\
    forall env, e = EvEnvelope env -> welcome env -> is_Some (getTxSetHashes cfg env) ->
      tracked s' env) s.
Proof.
  intros Hi He.
  assert (forall (m : PE unit), swp m (fun _ s' => inv None None None s') s ->
    (forall env, e <> EvEnvelope env) -> wp never m (fun _ s' => inv None None None s' /\ keeps s s' /\
    forall env, e = EvEnvelope env -> welcome env -> is_Some (getTxSetHashes cfg env) ->
      tracked s' env) s) as Hdone.
  { intros m Hm Hne. eapply wp_mono; [exact Hm|]. intros _ s1 [Hse Hi1]. split; [done|].
    split; [apply Hse|]. intros env Henv. by destruct (Hne env). }
  destruct e as [env|h t|h q|kind h peer|h slot t|h q|kind h| |slot|c]; cbn [pending_event event_ok] in *.
  - apply wp_bind. eapply wp_mono;
      [apply (cwp_herder_recv cfg hs Hcfg world welcome Hworld env None)|].
    + by apply (inv_weaken cfg hs welcome None (Some env) None).
    + intros st s1 (Hc1 & Hi1 & Ht1). split; [done|]. split; [apply Hc1|].
      intros env' [= <-]. done.
  - unfold recvTxSet. apply wp_bind, wp_bind. eapply wp_mono; [apply (qwp_make_ptr hs true), Hi|].
    intros n s1 (Hi1 & Hq1 & Hn1 & Hn & Hk). apply wp_bind, wp_get.
    assert (inv None None None s1) as Hinv1 by by eapply inv_quiet.
    assert (keeps s s1) as Hk1 by apply keeps_lists, Hq1.
    destruct (_ =? 0); [by apply wp_ret, wp_ret|]. apply wp_bind.
    eapply wp_mono; [apply swp_addTxSet; [done| | |exact He]|].
    + intros h' q Hq. rewrite Hk in Hq. cbn.
      destruct (io_t _ _ (in_items _ _ _ _ _ _ _ Hi) h' q Hq). lia.
    + cbn. lia.
    + intros _ s2 [Hi2 Hk2]. apply wp_ret, wp_ret. split; [done|]. split; [|done].
      intros e' He' Ht. by apply Hk2, Hk1.
  - destruct He as (Hh & Hu & Hsane).
    apply Hdone; [|done]. apply (swp_bind _ _ (fun _ s' => inv None None None s'));
      [by apply swp_recvSCPQuorumSet|]. intros _ s1 _ Hi1. by apply swp_ret.
  - apply Hdone; [|done].
    apply (swp_try kind h s (fun v f => fetcher_doesntHave v h peer f) Hi).
    intros v f. apply doesntHave_change.
  - eapply wp_mono; [by apply wp_own_txset|]. intros _ s1 [Hi1 Hk1]. by split.
  - destruct He as (Hh & Hu & Hq). apply Hdone; [|done]. by apply swp_addSCPQuorumSet.
  - apply Hdone; [|done]. apply (swp_try kind h s (fun v f => timerFired v h f) Hi).
    intros v f. apply timerFired_change.
  - apply Hdone; [by apply swp_cleanup|done].
  - apply Hdone; [|done]. apply swp_calm. by apply (cwp_processUpTo cfg hs Hcfg world welcome Hworld).
  - apply Hdone; [|done]. apply swp_calm. eapply cwp_mono; [by apply (cwp_callback cfg hs Hcfg)|].
    by intros _ s1 _ [H _].
Qed.

Lemma pending_events_ok (es : list PendingEvent) (s : PendingEnvelopes) :
  inv None None None s -> Forall event_ok es ->
  exists s', pending_events cfg world es s = Ok (tt, s') /\ inv None None None s' /\ keeps s s'.
Proof.
  intros Hi Hes. revert s Hi. induction Hes as [|e es He _ IH]; intros s Hi;
    [exists s; split; [done|split; [done|by intros env]]|].
  cbn [pending_events]. unfold bind. pose proof (pending_event_ok e s Hi He) as Hw. unfold wp in Hw.
  destruct (pending_event cfg world e s) as [[[] s1]|err]. 2: done. destruct Hw as (Hi1 & Hk1 & _).
  destruct (IH s1 Hi1) as (s2 & E & Hi2 & Hk2). exists s2. split; [done|]. split; [done|].
  intros env Henv Ht. by apply Hk2, Hk1.
Qed.

Lemma pending_events_app (es1 es2 : list PendingEvent) (s : PendingEnvelopes) :
  pending_events cfg world (es1 ++ es2) s =
  (pending_events cfg world es1 ;;! pending_events cfg world es2) s.
Proof.
  revert s. induction es1 as [|e es1 IH]; intros s; [done|]. cbn [app pending_events]. unfold bind in *.
  destruct (pending_event cfg world e s) as [[u s1]|]; [apply IH|done].
Qed.

Lemma inv_new : inv None None None newPending.
Proof.
  assert (forall kind h, waiting newPending kind h = None) as Hw.
  { intros [] h; unfold waiting; cbn; by rewrite lookup_empty. }
  split.
  - split; try done; try apply cache_fine_empty; cbn.
    + constructor.
    + intros h p. rewrite lookup_empty. split; [done|]. by intros (v & Hv & _).
  - split; unfold waits; setoid_rewrite Hw; [by intros ? ? ? (? & ? & _)|by intros ? ? (? & ? & _)].
  - split; try (by intros ? ? ?%not_elem_of_nil); [constructor|by intros ? ? ? _ ?%not_elem_of_nil].
  - split; [by intros ? _ _ ?%not_elem_of_nil| |by intros ? _ ?%not_elem_of_nil].
    intros env _ _. by rewrite bool_decide_false by set_solver.
Qed.
End arrivals.

(** ** What a node guarantees *)

(** Whatever other nodes are sent, in whatever order: envelopes, items, answers,
    and whatever SCP does in return. *)
Definition nobody (env : SCPEnvelope) : Prop := False.

(** C13. Receiving messages is safe, in whatever order they arrive.  From a fresh
    state, for every sequence of envelopes, answers, timeouts, calls of SCP and
    items, provided that the herder has left its booting state and tracks a ledger
    ([wk_herder]), that the items arrive under their own hashes, transaction sets
    hashed and so sorted ([is_txset]), that the node's own
    quorum sets are sane, and that the quorum sets that occur are at
    most the 10000 the cache has room for ([universe]; with more, a lookup during
    a callback could evict the one being received and let [recv] go on without
    end): no operation throws, no loop runs out of its bound, and at the end: every envelope that was given to SCP, or is about to be, came with a
    quorum set and transaction sets that have the hashes it names, all of them;
    an envelope waits only for an item it names, and for no transaction set that
    the node has; and an envelope that is being fetched has values that decode, and
    is neither discarded nor processed. *)
Theorem pending_events_safe (cfg : PendingConfig) (hs : Hashes) (world : nat -> World)
    (es : list PendingEvent) :
  config_ok cfg hs -> world_ok cfg world nobody -> Forall (event_ok hs nobody) es ->
  exists s, pending_events cfg world es newPending = Ok (tt, s) /\
    Forall (complete cfg hs) (delivered (outside s)) /\
    (forall slot w, w ∈ ready_of s slot -> complete cfg hs w) /\
    (forall kind h env, waits s kind h env -> names cfg kind env h) /\
    (forall h env, waits s FetchTxSet h env -> lock_txset s h = None) /\
    (forall slot env, env ∈ fetching_of s slot ->
       is_Some (getTxSetHashes cfg env) /\ env ∉ discarded_of s slot /\ env ∉ processed_of s slot).
Proof.
  intros Hcfg Hworld Hes.
  destruct (pending_events_ok cfg hs Hcfg world nobody Hworld es newPending) as (s & E & Hi & _);
    [by eapply inv_new|done|].
  destruct Hi as [_ Hf Hs _]. exists s. split; [done|]. split; [apply Hs|]. split.
  { intros slot w Hw. by eapply so_ready. }
  split; [apply Hf|]. split; [intros h env Hw; by eapply fo_gone|].
  intros slot env He. by destruct (so_fetching _ _ _ _ Hs slot env He) as (_ & H).
Qed.

(** C12. A message is not lost, and not handed over twice.  Take an envelope whose
    values decode, which the checks of the herder admit and whose sender is in the
    quorum at every moment ([wk_admitted], [wk_quorum]), whose slot is not erased
    ([callback_ok]) and whose quorum set does not arrive insane ([event_ok]; either
    would discard it).  It arrives at any moment, any number of times, among events
    such as those of C13 (items under their own hashes, at most the 10000 quorum
    sets that the cache has room for, a herder that tracks a ledger).  Then
    at every later moment it is not discarded, and either it was processed, and
    was given to SCP or put in the queue of ready envelopes exactly once; or it is
    being fetched, was not handed over yet, and a tracker keeps it, of its quorum
    set, or of a transaction set that it names and that the node does not have. *)
Theorem received_not_lost (cfg : PendingConfig) (hs : Hashes) (world : nat -> World)
    (env : SCPEnvelope) (es1 es2 : list PendingEvent) :
  config_ok cfg hs -> world_ok cfg world (eq env) ->
  Forall (event_ok hs (eq env)) (es1 ++ EvEnvelope env :: es2) ->
  is_Some (getTxSetHashes cfg env) ->
  exists s, pending_events cfg world (es1 ++ EvEnvelope env :: es2) newPending = Ok (tt, s) /\
    env ∉ discarded_of s (slot_of env) /\
    (env ∈ processed_of s (slot_of env) /\ handed s env = [env] \/
     env ∈ fetching_of s (slot_of env) /\ handed s env = [] /\
     exists kind h, waits s kind h env /\ names cfg kind env h /\
       (kind = FetchTxSet -> lock_txset s h = None)).
Proof.
  intros Hcfg Hworld Hes Hdec. apply Forall_app in Hes as [H1 [H2 H3]%Forall_cons].
  destruct (pending_events_ok cfg hs Hcfg world _ Hworld es1 newPending) as (s1 & E1 & Hi1 & _);
    [by eapply inv_new|done|].
  pose proof (pending_event_ok cfg hs Hcfg world _ Hworld (EvEnvelope env) s1 Hi1 H2) as Hw.
  unfold wp in Hw. destruct (pending_event cfg world (EvEnvelope env) s1) as [[[] s2]|] eqn:E2; [|done].
  destruct Hw as (Hi2 & _ & Ht). specialize (Ht env eq_refl eq_refl Hdec).
  destruct (pending_events_ok cfg hs Hcfg world _ Hworld es2 s2 Hi2 H3) as (s & E3 & Hi & Hk).
  exists s. split; [rewrite pending_events_app; unfold bind; rewrite E1; cbn [pending_events];
    unfold bind; by rewrite E2|].
  apply Hk in Ht; [|done]. destruct Hi as [_ Hf Hs [W1 W2 W3]]. specialize (W3 env eq_refl).
  split; [done|]. specialize (W2 env eq_refl ltac:(done)).
  assert (forall e, e ∈ handed s env -> e = env) as Hh.
  { intros e. unfold handed. rewrite list_elem_of_In, filter_In, bool_decide_eq_true. by intros []. }
  destruct Ht as [?|[Hp|Hfe]]; [done|left|right].
  - rewrite bool_decide_true in W2 by done. split; [done|].
    destruct (handed s env) as [|e [|]]; try done. by rewrite (Hh e) by (by left).
  - destruct (so_fetching _ _ _ _ Hs _ _ Hfe) as (_ & _ & _ & Hnp).
    rewrite bool_decide_false in W2 by done. split; [done|].
    split; [by apply length_zero_iff_nil|]. destruct (W1 env eq_refl) as (kind & h & Hwt); [done|done|].
    exists kind, h. split; [done|]. split; [by apply Hf|]. intros ->. by eapply fo_gone.
Qed.

(** ** An example

    A node with two quorum sets; an envelope that names one of them and a
    transaction set, neither of which the node has. *)

Definition example_qset (t : Z) : SCPQuorumSet := mkQSet t [[1]; [2]; [3]] [].

Definition example_stellar_value (v : Value) : option StellarValue :=
  match v with
  | [h; t] => Some {| sv_txSetHash := [h]; sv_closeTime := t; sv_upgrades := []; sv_ext := None |}
  | _ => None
  end.

Definition example_pending_config : PendingConfig := {|
  MANUAL_CLOSE := false;
  MAXIMUM_LEDGER_CLOSETIME_DRIFT := 50;
  MAX_SLOTS_TO_REMEMBER := 12;
  NODE_ID := [1];
  LOCAL_QSET_HASH := [2];
  LOCAL_QSET := example_qset 2;
  db_getQuorumSet := fun _ => None;
  xdrBlake2 := signature;
  xdr_decode := example_stellar_value;
  env_size := fun _ => 200;
  tx_fullHash := fun _ => [0];
  txset_xdr_size := fun t => Z.of_nat (length (mTransactions t));
  qset_size := fun _ => 100;
  cache_rand := example_rand;
|}.

Definition example_hashes : Hashes := {|
  txset_hash := mPreviousLedgerHash;
  qset_hash_of := fun q => [threshold q];
  universe := [[2]; [3]];
  ordered_set := fun t => mTransactions t = [];
|}.

Lemma example_pending_config_ok : config_ok example_pending_config example_hashes.
Proof.
  split; [apply example_rand_uniform|apply Nat.leb_le; vm_compute; reflexivity| |done|by intros t ->].
  split; [done|]. split; [vm_compute; reflexivity|]. by left.
Qed.

Definition example_world (n : nat) : World := {|
  wo_peers := example_view;
  wo_herder := example_herder;
  wo_verifyEnvelope := fun _ => true;
  wo_inQuorum := fun _ => true;
  wo_rebuildAsks := [[2]];
  wo_closest := fun node => [node];
  wo_expand := true;
  wo_scp := fun w => (true, [CbGetQSet (qset_hash (w_envelope w)) true; CbGetTxSet [9] true]);
|}.

Definition example_envelope : SCPEnvelope :=
  {| statement := {| nodeID := [3]; slotIndex := 1001;
       pledges := SCP_ST_NOMINATE {| n_quorumSetHash := [3]; n_votes := [[9; 1600000005]];
                                     n_accepted := [] |} |};
     signature := [5] |}.

Lemma example_world_ok (welcome : SCPEnvelope -> Prop) :
  (forall env, welcome env -> env = example_envelope) ->
  world_ok example_pending_config example_world welcome.
Proof.
  intros Hw. split; [intros n; apply example_view_ok|by intros n; eexists| | |].
  - intros env n ->%Hw. vm_compute. reflexivity.
  - done.
  - intros n w. by repeat constructor.
Qed.

(** The envelope comes twice, then the transaction set, then the quorum set. *)
Definition example_events : list PendingEvent :=
  [EvEnvelope example_envelope; EvEnvelope example_envelope;
   EvTxSet [9] {| mPreviousLedgerHash := [9]; mTransactions := [] |};
   EvDoesntHave FetchQSet [3] 2; EvQSet [3] (example_qset 3)].

Lemma example_events_ok (welcome : SCPEnvelope -> Prop) : Forall (event_ok example_hashes welcome) example_events.
Proof.
  unfold example_events. rewrite !Forall_cons. do 4 (split; [done|]). split; [|done].
  split; [done|]. split; [by right; left|]. left. vm_compute. reflexivity.
Qed.

Definition summary (s : PendingEnvelopes) : list SCPEnvelope * list SCPEnvelope * bool :=
  (map w_envelope (delivered (outside s)), fetching_of s 1001, isSome (lock_txset s [9])).

Lemma pending_events_safe_witness :
  option_map summary (match pending_events example_pending_config example_world example_events newPending with
    | Ok (_, s) => Some s | Err _ => None end) = Some ([example_envelope], [], true) /\
  exists s, pending_events example_pending_config example_world example_events newPending = Ok (tt, s) /\
    Forall (complete example_pending_config example_hashes) (delivered (outside s)).
Proof.
  split; [vm_compute; reflexivity|].
  destruct (pending_events_safe example_pending_config example_hashes example_world example_events)
    as (s & E & Hd & _).
  - apply example_pending_config_ok.
  - by apply example_world_ok.
  - apply example_events_ok.
  - exists s. split; [exact E|exact Hd].
Defined.

(** As long as the quorum set is not there, the envelope waits for it. *)
Lemma received_not_lost_witness :
  let es := [EvEnvelope example_envelope;
             EvTxSet [9] {| mPreviousLedgerHash := [9]; mTransactions := [] |};
             EvEnvelope example_envelope] in
  option_map summary (match pending_events example_pending_config example_world es newPending with
    | Ok (_, s) => Some s | Err _ => None end) = Some ([], [example_envelope], true) /\
  exists s, pending_events example_pending_config example_world es newPending = Ok (tt, s) /\
    (env_in example_envelope (processed_of s 1001) = true \/ handed s example_envelope = []).
Proof.
  cbv zeta. split; [vm_compute; reflexivity|].
  destruct (received_not_lost example_pending_config example_hashes example_world example_envelope []
    [EvTxSet [9] {| mPreviousLedgerHash := [9]; mTransactions := [] |}; EvEnvelope example_envelope])
    as (s & E & _ & Hs).
  - apply example_pending_config_ok.
  - apply example_world_ok. by intros env <-.
  - by repeat (apply Forall_cons; split).
  - by eexists.
  - exists s. split; [exact E|]. destruct Hs as [[Hp _]|(_ & Hh & _)]; [left|by right].
    by apply bool_decide_eq_true.
Defined.
